(* ===== verification/_CoqProject ===== *)
-Q . S2P
Prelude.v
Text.v
Octets.v
Core.v
CanonicalRequests.v
CanonicalEvents.v
Stream.v
EventStream.v
EgressPolicy.v
EndpointUrl.v
Sharded.v
RuntimeHealth.v
RuntimeProbe.v
RuntimeQuota.v
WeightedSchedule.v
CredentialPool.v
Catalog.v
CatalogSync.v
ClientKey.v
ApiFormat.v
ResponseTransform.v
SecretStore.v
ControlPlane.v
StoreRows.v
StoreSchema.v
ControlStore.v
StoreProperties.v
EgressCompiler.v
RouteCompiler.v
RouteSnapshot.v
ProtocolTransform.v
SnapshotPublisher.v
CredentialRotation.v
PublisherProperties.v
ManagementService.v
ManagementSecurity.v
ServedAccess.v
ControlPlaneService.v
ManagementMutation.v
RouteScheduler.v
CredentialScheduler.v
PoolCompiler.v
AttemptOrchestrator.v
RouteExplain.v
SqliteTx.v
GrokAccounts.v
GrokWorker.v
GrokReauth.v
GrokProperties.v
GrokRuntime.v
EventLog.v
EventWriter.v
RuntimeStatus.v
