(* ===== verification/Prelude.v ===== *)
(** * Verification of the CPAR gateway

    CPAR is a gateway in front of language-model providers.  Administrators keep a
    versioned configuration in SQLite; publishing a version compiles its rows into
    an immutable route snapshot that the data path reads.  A request arrives with a
    client key, is resolved to a public model and its route, and is served by the
    first attempt that starts: a candidate (Endpoint and upstream model) is
    scheduled, a credential of that Endpoint is leased, and a provider driver is
    called; a failed attempt is recorded against the binding it used and, while
    nothing has reached the client, the next binding is tried.  The response is a
    bounded stream of canonical events.  Native Grok accounts live in a store of
    their own, which workers keep fresh and a compiler turns into the same pools.
    This library models the data path, the runtime state behind it, the
    configuration from the management calls over its stored rows to the snapshot
    and the pools, and the native account store, and proves what each part
    promises the next.

    ** Files, and the code they model (paths under [src/crates])

    Foundations.
    - [Prelude]: results with errors and panics, the state-and-error monad,
      machine integers at their width, durations, stable sorting, [decides] (an
      executable check decides a proposition), tactics and hints.
    - [Text], [Octets]: character, text and big-endian functions of the standard
      library.
    - [Core]: [gateway-core/src/{id,error,raw_extension,gateway_event}.rs];
      [CanonicalRequests]: [gateway-core/src/{message,tool,thinking,
      canonical_request,request_context,token_count}.rs].

    Data path.
    - [CanonicalEvents]: [gateway-core/src/canonical_event.rs], the validator of
      one response's event sequence.
    - [Stream]: [gateway-stream/src/lib.rs] and [gateway-core/src/retry_gate.rs],
      the bounded canonical stream, cancellation and the retry gate.
    - [EventStream]: [provider-kiro/src/event_stream.rs], the binary framing with
      its checksum and bounded recovery.
    - [EgressPolicy], [EndpointUrl]: [gateway-upstream/src/{egress_policy,
      endpoint_url}.rs].
    - [Sharded]: the bounded, lock-per-shard key/state store that
      [gateway-router/src/runtime_health.rs] and [runtime_quota.rs] share, as an
      interface ([KeyedRegistry]) with the lemmas both registries use.
    - [RuntimeHealth], [RuntimeQuota]: the two registries, one definition per
      public operation; an operation's body under the shard lock is the
      definition [<operation>_body].  [RuntimeProbe]:
      [gateway-router/src/runtime_probe.rs], on the same store.  [RuntimeStatus]:
      [runtime_management_status.rs], the status of one binding.
    - [WeightedSchedule]: [smooth_weighted_slots], which occurs in
      [gateway-upstream/src/credential_pool.rs] and
      [gateway-router/src/route_snapshot.rs], and the rotating cursor over slots.
    - [CredentialPool]: [gateway-upstream/src/credential_pool.rs].
    - [ClientKey]: [gateway-auth/src/{client_key,lib}.rs].
    - [ApiFormat]: [gateway-protocol/src/api_format.rs].
    - [RouteSnapshot], [RouteScheduler], [CredentialScheduler],
      [AttemptOrchestrator]: [gateway-router/src/{route_snapshot,route_scheduler,
      credential_scheduler,attempt_orchestrator}.rs]; [RouteExplain]:
      [route_explain.rs], the dry run of a selection.
    - [ProtocolTransform], [ResponseTransform]:
      [gateway-router/src/{protocol_transform,response_transform}.rs], the request
      and the event stream between two wire protocols.
    - [EventLog], [EventWriter]: [gateway-observability/src/lib.rs] and
      [gateway-store/src/event_store.rs], the bounded queue of lifecycle events, the
      durable log and the writer between them.

    Catalog.
    - [Catalog], [CatalogSync]: [gateway-catalog/src/lib.rs]; the first holds the
      capability sets and views, the second the single-flight discovery scheduler
      (a step relation over its tasks), the last-success registry and the diff
      registry with previews and applies.

    Configuration.
    - [SecretStore]: [gateway-store/src/secret_store.rs].
    - [ControlPlane], [StoreRows]: the types, SQL codes and row codecs of
      [gateway-store/src/control_plane.rs]; [SqlColumn] and [SqlRow] are the
      interfaces that say a codec round-trips.
    - [StoreSchema]: the tables of [gateway-store/migrations] as the final schema
      leaves them: CHECK, UNIQUE and composite foreign keys, cascading deletes and
      the egress-policy trigger, through one interface ([GraphTable]) per table.
    - [ControlStore]: the transactions and the repository of [control_plane.rs].
    - [EgressCompiler], [RouteCompiler], [PoolCompiler], [SnapshotPublisher]:
      [gateway-control/src/{egress_policy_compiler,route_compiler,
      credential_pool_compiler,snapshot_publisher}.rs].
    - [ControlPlaneService], [ManagementService], [ManagementMutation]:
      [gateway-control/src/{control_plane_service,management_service,
      management_mutation_service}.rs], the calls that change a configuration.
    - [ManagementSecurity]: [gateway-http-actix/src/management_security.rs], the
      guard in front of them.
    - [StoreProperties], [CredentialRotation], [PublisherProperties] and
      [ServedAccess] model nothing new: they hold the theorems across the store, the
      compilers, the publisher and the snapshot; the second shows what the rotation
      of a credential can change of a compiled snapshot.

    Native Grok accounts.
    - [SqliteTx]: a connection whose statements, queries and transactions may fail
      at any call, with Hoare and atomicity rules.
    - [GrokAccounts], [GrokRuntime]: [provider-grok/src/account_pool.rs], the first
      up to the runtime compiler, the second from there; [GrokWorker]:
      [account_worker.rs]; [GrokReauth]: [reauth.rs].
    - [GrokProperties] models nothing new: a step relation of importers, workers
      and reauthentication runs on one store, and what holds in its reachable states.

    ** State, effects and time

    A Rust value behind [&mut], a lock or atomics is a record passed explicitly
    through the monad [M]; what an operation has written before it fails stays
    written, and a SQLite transaction that does not commit restores the database
    it began with.  A panic is the result [Panic], so "does not panic" is a
    statement.  Identifiers are strings under a newtype, timestamps and counters
    are [Z] with each range check or wrap-around written out, [BTreeMap] and
    [HashMap] are [gmap] (sorted by key where the iteration order shows).

    Clocks, randomness, hashing and the HMAC are arguments.  An operation of a
    registry that reads the clock takes the reading as an argument, and [None] is
    a clock that fails; a sequence of operations with arbitrary readings therefore
    covers any interleaving of callers at the granularity of the shard lock.  One
    selection of [CredentialScheduler] observes one state of the registries and
    one reading per registry clock ([RuntimeView]); the orchestrator reads a fresh
    view for each selection.  The driver, the retry gate, cancellation and the
    work of concurrent requests are an oracle indexed by a tick that advances at
    every interaction; [env_interfere] may rewrite the shared state there.
    Between the two atomic steps of [try_acquire] and [release] threads interleave
    freely in the step relation [lease_step].

    Code outside the repository is a parameter.  [sqlite_fails] says which of the
    numbered calls to SQLite fail, and every theorem about the store holds for all
    such functions.  [SqliteJson] is SQLite's [json_valid]/[json_type],
    [JsonText] and [JsonRaw] are [serde_json], [UrlCrate], [UrlPaths] and [OriginUrl]
    the [url] crate and [Aead] the XChaCha20-Poly1305 crate.  Two credential formats
    of the Grok provider are interfaces of the same kind: [CredentialImporters] (what
    an importer accepts) and [BuildCredentials] (the expiry it reads); [EventJson] is
    [serde_json] on lifecycle events.  SHA-256 is a
    function and the random source a stream of draws; the theorems on claims assume
    that a draw fills its buffer and that 128-bit draws do not repeat.  Where a
    theorem needs more than a signature the law is a named class ([SetPathLaw],
    [AeadLaws], [JsonRawLaws], [BuildCredentialLaws], [EventJsonLaws]), and a concrete instance in the
    same file or its client shows that it can hold.

    ** What the theorems show

    - Events and streams: the incremental validator accepts exactly the complete
      responses, stated without its state machine; a stream delivers a prefix of
      what was sent, in order, and its end is explained; binary frames survive any
      chunking, and the decoder is total and bounded on any bytes.
    - Egress: an admitted target satisfies every rule of its policy, also through
      redirects; address validation is exactly the published block tables; a
      composed URL stays below its base.
    - Protocols: a request is transformed exactly when its content fits the target
      under the route's mode, field by field as specified apart from the code, and a
      bridge there and back is the identity; a projected response is a valid response
      and the event by event image of the original, or the first event without an
      image is refused.
    - Registries: each sharded operation refines a one-key state machine; shards
      stay within their capacity and counters within [u64]; keys do not influence
      one another; a blocked account, an open Circuit and an exhausted quota stay
      closed until the operation that is meant to reopen them; tickets are used at
      most once and are dead after newer evidence.
    - Schedules and pools: construction accepts exactly the valid inputs; a cycle
      serves every member exactly as often as its weight and never ahead of its
      share by more than one slot; a lease goes to the first free eligible slot of
      the best tier; the lease counter never exceeds its limit under any
      interleaving.
    - Snapshots and keys: an accepted snapshot has no dangling reference; an
      access group resolves exactly the models it is listed and permitted;
      publication and rollback are inverse; keys verify exactly while active.
    - Selection and attempts: a selection is sound against both registries and
      complete up to priority; one request terminates within its attempt limit,
      never repeats a binding, stays before its deadline, leaks no lease, reports
      one faithful event per driver call and stops once output was sent.  The
      explanation of a route predicts the selection, and names the reason of every
      candidate it excludes; the status of a binding agrees with the scheduler.
    - Lifecycle events: however producers, writer, SQLite failures and lost workers
      interleave, the log is the reference log of the admitted required events, in
      order and without loss or repetition, and counters and telemetry agree with it;
      with the producers gone, a working store and no identifier that SQLite measures
      as empty the writer finishes in a bounded number of steps, and the log reads back.
    - Catalog: the snapshot registry holds exactly the last accepted discovery;
      the diff registry is exactly the history of applied snapshots and removes a
      model only on enough evidence; discovery is single-flight.
    - Store: no sequence of operations and failures breaks the schema, so loading
      never meets a malformed row; a published version's rows never change but for
      the rotation of its credentials; a draft revision is committed at most once; a sealed secret survives storage
      and key rotation.
    - Compilers: all three accept exactly the publishable configurations, described
      without the compilers, and return exactly the live rows; behind an accepted
      configuration every enabled Endpoint is guarded by a well-formed policy, and
      every compiled candidate has a pool of exactly its decrypted live bindings.
    - Management: a request passes the guard exactly on the stated conditions; the
      audit log is the history of the changes and no change escapes it; an edit of a
      draft, credential writes and key issue included, changes the one resource it
      names and shows it, or nothing, but for a credential write whose read-back fails
      after the commit; a provisioned key and credential are usable as stored.
    - Publication: in every reachable state of a process, rotations of credentials
      included, the registry serves what the compilers build from the active stored
      version with the credentials it was built from, and a rotation changes at most
      the binding counts of that; transitions are all or nothing; a restart restores
      the registry up to these counts.  [ServedAccess] composes it all:
      the stored rows decide which group may use which model and which key
      authenticates, and nothing that compiles is refused later for another reason
      than a malformed key or an oversized schedule.
    - Native accounts: an import stores exactly its entries or nothing and its
      rollback undoes it; however workers, operators and failures interleave, an
      account is claimed by one job at a time, a completion replaces only the
      credential it was handed, and (a lemma) due accounts are claimed.  The
      runtime compiler returns exactly the served accounts with their opened
      credentials, and an account that needs reauthentication or whose Build
      credential has expired is blocked from the start.

    Some theorems record behaviour that differs from the documentation or the
    intent.  As properties: a used-up quota window without a future reset keeps every
    native account out of the pools while its row is stored, a reauthenticated account
    is next refreshed when its credential has expired, and a credential write can be
    reported as failed after it was committed.  As lemmas: the rotation of a disabled
    credential of the active version enables it and leaves the served binding count
    behind, a positive retry-after below a
    millisecond is refused, a cursor that crosses the [usize] wrap-around can skip a
    free slot, a discovery whose source panics blocks its target for good, a stored
    version may carry the name of the synthetic snapshot, which blocks the rollback
    to it, the explanation of a route ignores the expiry of credentials, one native
    account of a weight the store accepts can exceed what a pool holds, and an event
    whose identifier starts with NUL is repeated for ever.

    ** Bounds

    The retry loop is a fixpoint on fuel; [start_terminates] shows that any fuel
    above the route's [max_attempts] (checked when the snapshot is compiled) is
    never exhausted.  The header parser and the loop that drains the frame decoder
    have the number of bytes they hold as fuel; [parse_headers_loop_total] and
    [drain_terminates] show that it is never exhausted.  [run_steps] drives
    the event writer; [event_writer_finishes] gives the number of steps that is enough.
    All other definitions are structurally recursive.

    ** Not modelled

    - Text formats: the protocol adapters ([protocol-*]), the provider drivers and
      their credential files are parsers and printers of JSON and SSE around
      [serde] and HTTP clients, whose behaviour is not in this repository; the
      binary event stream, which the repository decodes itself, is modelled.
    - The HTTP surface and the process: Actix handlers and resources, [runtime.rs] of
      the application and configuration loading wire the modelled parts to the
      network, to files and to background tasks.
    - Read models and telemetry: [token_count.rs] of the router,
      [management_operations_service.rs], [telemetry.rs] and [log_safety.rs] report
      on the modelled state.
    - Sockets, TLS, the SQLite engine itself, backups and the migration runner. *)

From stdpp Require Export base gmap strings list fin_maps numbers pretty relations.
From Stdlib Require Export Ascii Permutation Sorted.

#[global] Set Default Goal Selector "!".
#[global] Set Warnings "-clear-no-such-hyp".

(** ** Results, panics and the state-and-error monad

    A Rust [Result<A, E>] is [Ok]/[Err]; [Panic] stands for a Rust panic
    (index out of bounds, arithmetic overflow in a checked build).  Keeping the
    panic as a value lets a theorem say that an operation never panics. *)

Inductive result (E A : Type) : Type :=
| Ok (a : A)
| Err (e : E)
| Panic.
Arguments Ok {E A} a.
Arguments Err {E A} e.
Arguments Panic {E A}.

Definition result_bind {E A B} (r : result E A) (k : A -> result E B) : result E B :=
  match r with
  | Ok a => k a
  | Err e => Err e
  | Panic => Panic
  end.

Definition map_err {E F A} (f : E -> F) (r : result E A) : result F A :=
  match r with
  | Ok a => Ok a
  | Err e => Err (f e)
  | Panic => Panic
  end.

Definition ok_or {E A} (e : E) (o : option A) : result E A :=
  match o with
  | Some a => Ok a
  | None => Err e
  end.

(** [Result::is_ok_and]: an error makes the predicate false. *)
Definition is_ok_and {E A} (f : A -> bool) (r : result E A) : bool :=
  match r with
  | Ok a => f a
  | _ => false
  end.

(** [Result::ok]. *)
Definition to_option {E A} (r : result E A) : option A :=
  match r with
  | Ok a => Some a
  | _ => None
  end.

(** Operations that mutate a state [S]: the mutation done before an error is
    returned stays, as it does behind a Rust [&mut] or lock guard. *)
Definition M (S E A : Type) : Type := S -> result E A * S.

Definition ret {S E A} (a : A) : M S E A := fun s => (Ok a, s).
Definition raise {S E A} (e : E) : M S E A := fun s => (Err e, s).
Definition panic {S E A} : M S E A := fun s => (Panic, s).
Definition lift {S E A} (r : result E A) : M S E A := fun s => (r, s).
Definition bind {S E A B} (m : M S E A) (k : A -> M S E B) : M S E B :=
  fun s => match m s with
           | (Ok a, s') => k a s'
           | (Err e, s') => (Err e, s')
           | (Panic, s') => (Panic, s')
           end.
Definition get {S E} : M S E S := fun s => (Ok s, s).
Definition put {S E} (s' : S) : M S E unit := fun _ => (Ok tt, s').

Declare Scope gateway_scope.
Delimit Scope gateway_scope with gw.
Open Scope gateway_scope.

Notation "'let!' x := c 'in' k" := (bind c (fun x => k))
  (at level 10, x binder, c at level 100, k at level 200) : gateway_scope.
Notation "c1 ;;; c2" := (bind c1 (fun _ => c2))
  (at level 100, right associativity) : gateway_scope.
Notation "'let?' x := c 'in' k" := (result_bind c (fun x => k))
  (at level 10, x binder, c at level 100, k at level 200) : gateway_scope.

(** ** Machine integers

    [i64], [u64] and (64-bit) [usize] values are [Z]; each operation writes out
    its range check or its wrap-around. *)

Definition i64_min : Z := (- 2 ^ 63)%Z.
Definition i64_max : Z := (2 ^ 63 - 1)%Z.
Definition u64_max : Z := (2 ^ 64 - 1)%Z.
Definition usize_modulus : Z := (2 ^ 64)%Z.

Definition in_i64 (z : Z) : bool := (i64_min <=? z)%Z && (z <=? i64_max)%Z.
Definition in_u64 (z : Z) : bool := (0 <=? z)%Z && (z <=? u64_max)%Z.

Definition i64_try_from (z : Z) : option Z := if in_i64 z then Some z else None.
Definition u64_try_from (z : Z) : option Z := if in_u64 z then Some z else None.
Definition i64_checked_add (a b : Z) : option Z := i64_try_from (a + b)%Z.
Definition i64_checked_sub (a b : Z) : option Z := i64_try_from (a - b)%Z.
Definition u64_checked_add (a b : Z) : option Z := u64_try_from (a + b)%Z.
Definition usize_wrapping_add (a b : Z) : Z := ((a + b) mod usize_modulus)%Z.
Definition usize_saturating_add (a b : Z) : Z := Z.min (a + b) u64_max.

(** [core::time::Duration] as its total number of nanoseconds. *)
Definition Duration : Type := Z.
Definition duration_max : Duration := (u64_max * 1000000000 + 999999999)%Z.
Definition is_zero (d : Duration) : bool := (d =? 0)%Z.
Definition as_millis (d : Duration) : Z := (d / 1000000)%Z.
Definition from_millis (ms : Z) : Duration := (ms * 1000000)%Z.
Definition from_secs (s : Z) : Duration := (s * 1000000000)%Z.
Definition duration_saturating_add (a b : Duration) : Duration := Z.min (a + b) duration_max.

(** Timestamps outside this interval cannot be an [i64]. *)
Definition i64_ok (z : Z) : Prop := (i64_min <= z <= i64_max)%Z.

(** ** Tactics *)

(** Turn boolean guards of the code into propositions. *)
Ltac bool_simp :=
  repeat match goal with
  | H : _ && _ = true |- _ => apply andb_true_iff in H as [? ?]
  | H : _ || _ = false |- _ => apply orb_false_iff in H as [? ?]
  | H : negb _ = false |- _ => apply negb_false_iff in H
  | H : negb _ = true |- _ => apply negb_true_iff in H
  | H : bool_decide _ = true |- _ => apply bool_decide_eq_true in H
  | H : bool_decide _ = false |- _ => apply bool_decide_eq_false in H
  | H : (_ <? _)%Z = true |- _ => apply Z.ltb_lt in H
  | H : (_ <? _)%Z = false |- _ => apply Z.ltb_ge in H
  | H : (_ <=? _)%Z = true |- _ => apply Z.leb_le in H
  | H : (_ <=? _)%Z = false |- _ => apply Z.leb_gt in H
  | H : (_ =? _)%Z = true |- _ => apply Z.eqb_eq in H
  | H : (_ =? _)%Z = false |- _ => apply Z.eqb_neq in H
  end.

(** Unfold the monad; then case on every guard of the operation in [H]. *)
Ltac unfold_m :=
  unfold bind, result_bind, get, put, ret, raise, lift, panic in *.

Ltac m_cases H :=
  unfold_m; simpl in H;
  repeat (case_match; simplify_eq/=; bool_simp); simplify_eq/=.

(** ** Stable sorting

    [slice::sort_by] is a stable sort; on any input it agrees with insertion
    sort, which places an element before those it does not exceed. *)
Section Sort.
Context {A : Type} (leb : A -> A -> bool).

Fixpoint sort_insert (x : A) (l : list A) : list A :=
  match l with
  | [] => [x]
  | y :: rest => if leb x y then x :: l else y :: sort_insert x rest
  end.

Fixpoint sort_by (l : list A) : list A :=
  match l with
  | [] => []
  | x :: rest => sort_insert x (sort_by rest)
  end.

Lemma sort_insert_perm x l : sort_insert x l ≡ₚ x :: l.
Proof.
  induction l as [|y l IH]; simpl; [done|]. destruct (leb x y); [done|]. rewrite IH. constructor.
Qed.

Lemma sort_by_perm l : sort_by l ≡ₚ l.
Proof. induction l as [|x l IH]; simpl; [done|]. by rewrite sort_insert_perm, IH. Qed.

Context (leb_total : forall x y, leb x y = true \/ leb y x = true).
Context (leb_trans : forall x y z, leb x y = true -> leb y z = true -> leb x z = true).

Lemma sort_insert_sorted x l :
  StronglySorted (fun a b => leb a b = true) l ->
  StronglySorted (fun a b => leb a b = true) (sort_insert x l).
Proof.
  induction 1 as [|y l Hl IH Hy]; simpl; [by repeat constructor|].
  destruct (leb x y) eqn:Hxy.
  - constructor; [by constructor|]. constructor; [done|].
    eapply Forall_impl; [exact Hy|]. simpl. eauto.
  - constructor; [done|]. rewrite sort_insert_perm. constructor; [|done].
    destruct (leb_total x y); congruence.
Qed.

Lemma sort_by_sorted l : StronglySorted (fun a b => leb a b = true) (sort_by l).
Proof. induction l; simpl; [constructor|]. by apply sort_insert_sorted. Qed.

(** Sorting forgets the insertion order when equal keys are equal elements. *)
Lemma sorted_perm_unique l1 l2 :
  (forall x y, x ∈ l1 -> y ∈ l1 -> leb x y = true -> leb y x = true -> x = y) ->
  StronglySorted (fun a b => leb a b = true) l1 ->
  StronglySorted (fun a b => leb a b = true) l2 -> l1 ≡ₚ l2 -> l1 = l2.
Proof.
  intros Hanti Hs1. revert l2. induction Hs1 as [|x l1 Hs1 IH Hx]; intros l2 Hs2 Hp.
  { by apply Permutation_nil in Hp. }
  destruct Hs2 as [|y l2 Hs2 Hy].
  { symmetry in Hp. by apply Permutation_nil_cons in Hp. }
  assert (x = y) as ->.
  { assert (x ∈ y :: l2) as Hin by (rewrite <- Hp; left).
    assert (y ∈ x :: l1) as Hin' by (rewrite Hp; left).
    rewrite Forall_forall in Hx, Hy.
    apply elem_of_cons in Hin as [->|Hin]; [done|].
    pose proof Hin' as Hy1. apply elem_of_cons in Hin' as [->|Hin']; [done|].
    apply Hanti; [left|done|by apply Hx|by apply Hy]. }
  f_equal. apply IH; [|done|by apply Permutation_cons_inv in Hp].
  intros a b Ha Hb. apply Hanti; by right.
Qed.
End Sort.

(** Sorting related lists by related orders. *)
Lemma sort_by_related {A B} (R : A -> B -> Prop) lebA lebB l l' :
  (forall a b a' b', R a a' -> R b b' -> lebA a b = lebB a' b') ->
  Forall2 R l l' -> Forall2 R (sort_by lebA l) (sort_by lebB l').
Proof.
  intros Hleb. assert (Hins : forall a a' k k', R a a' -> Forall2 R k k' -> Forall2 R (sort_insert lebA a k) (sort_insert lebB a' k')).
  { intros a a' k k' Ha. induction 1 as [|b b' k k' Hb Hk IH]; simpl; [by repeat constructor|].
    rewrite (Hleb a b a' b') by done. case_match; by repeat constructor. }
  induction 1 as [|a a' l l' Ha _ IH]; simpl; [constructor|]. by apply Hins.
Qed.

(** ** Lists *)

Lemma filter_ext_elem {A} (P Q : A -> Prop) `{!forall x, Decision (P x)} `{!forall x, Decision (Q x)} (l : list A) :
  (forall x, x ∈ l -> P x <-> Q x) -> filter P l = filter Q l.
Proof.
  induction l as [|x l IH]; intros Hpq; [done|]. rewrite !filter_cons.
  pose proof (Hpq x (list_elem_of_here _ _)) as Hx.
  rewrite IH by (intros y Hy; apply Hpq; by right). repeat case_decide; tauto || done.
Qed.

Lemma filter_all {A} (P : A -> Prop) `{!forall x, Decision (P x)} (l : list A) : Forall P l -> filter P l = l.
Proof. induction 1 as [|x l Hx _ IH]; [done|]. rewrite filter_cons, IH. by case_decide. Qed.

Lemma filter_none {A} (P : A -> Prop) `{!forall x, Decision (P x)} (l : list A) : Forall (fun x => ~ P x) l -> filter P l = [].
Proof. induction 1 as [|x l Hx _ IH]; [done|]. rewrite filter_cons, IH. by case_decide. Qed.

Lemma nodup_fmap_filter {A B} (P : A -> Prop) `{!forall x, Decision (P x)} (key : A -> B) (l : list A) :
  NoDup (key <$> l) -> NoDup (key <$> filter P l).
Proof.
  induction l as [|x l IH]; intros Hnd; [done|]. apply NoDup_cons in Hnd as [Hx Hnd]. rewrite filter_cons.
  case_decide; [|by apply IH]. apply NoDup_cons. split; [|by apply IH].
  intros (y & Heq & [_ Hin]%list_elem_of_filter)%list_elem_of_fmap. apply Hx. rewrite Heq. by apply list_elem_of_fmap_2.
Qed.

Lemma filterb_filter {A} (f : A -> bool) (l : list A) : List.filter f l = filter (fun x => f x = true) l.
Proof. induction l as [|x l IH]; [done|]. rewrite filter_cons. simpl. rewrite IH. by destruct (f x). Qed.

Lemma sorted_app_tail {A} (R : A -> A -> Prop) (l1 l2 : list A) :
  StronglySorted R (l1 ++ l2) -> StronglySorted R l2.
Proof. induction l1 as [|x l1 IH]; [done|]. intros [Hs _]%StronglySorted_inv. auto. Qed.

(** ** Transition systems *)

Lemma rtc_preserves {A} (P : A -> Prop) (R : A -> A -> Prop) x y :
  (forall a b, P a -> R a b -> P b) -> P x -> rtc R x y -> P y.
Proof. intros Hstep Hx. induction 1; eauto. Qed.

(** ** Loops that stop at the first error

    A Rust [for] loop whose body uses [?] is a fold over the rows; [try_fold_spec]
    relates it to the condition every row must meet given the rows before it. *)

Fixpoint try_fold {S A E} (f : S -> A -> result E S) (l : list A) (s : S) : result E S :=
  match l with
  | [] => Ok s
  | x :: rest => let? s' := f s x in try_fold f rest s'
  end.

(** Every row is fine given the rows before it. *)
Definition each_row {A} (ok : list A -> A -> Prop) (l : list A) : Prop :=
  forall pre x post, l = pre ++ x :: post -> ok pre x.

Lemma each_row_snoc {A} (ok : list A -> A -> Prop) l x : each_row ok (l ++ [x]) <-> each_row ok l /\ ok l x.
Proof.
  split.
  - intros H. split; [|by apply (H l x [])]. intros pre y post ->. apply (H pre y (post ++ [x])). by rewrite <- app_assoc.
  - intros [Hl Hx] pre y post Heq. destruct post as [|z post _] using rev_ind.
    + apply app_inj_tail in Heq as [-> ->]. done.
    + rewrite app_comm_cons, app_assoc in Heq. apply app_inj_tail in Heq as [-> _]. by eapply Hl.
Qed.

Lemma each_row_nil {A} (ok : list A -> A -> Prop) : each_row ok [].
Proof. intros [|] * Heq; done. Qed.

Lemma each_row_and {A} (P Q : list A -> A -> Prop) l :
  each_row (fun pre x => P pre x /\ Q pre x) l <-> each_row P l /\ each_row Q l.
Proof. unfold each_row. naive_solver. Qed.

Lemma each_row_Forall {A} (P : A -> Prop) l : each_row (fun _ x => P x) l <-> Forall P l.
Proof.
  induction l as [|x l IH] using rev_ind; [split; [constructor|intros _; apply each_row_nil]|].
  by rewrite each_row_snoc, IH, Forall_app, Forall_singleton.
Qed.

Lemma each_row_nodup {A K} (key : A -> K) l : each_row (fun pre x => key x ∉ key <$> pre) l <-> NoDup (key <$> l).
Proof.
  induction l as [|x l IH] using rev_ind; [split; [constructor|intros _; apply each_row_nil]|].
  rewrite each_row_snoc, IH, fmap_app, NoDup_app. simpl. split.
  - intros [Hl Hx]. split_and!; [done| |apply NoDup_singleton]. intros y Hy ->%list_elem_of_singleton. done.
  - intros (Hl & Hx & _). split; [done|]. intros Hin. apply (Hx _ Hin). by apply list_elem_of_singleton.
Qed.

(** [r] succeeds exactly when [P] holds, with a value that satisfies [Q]. *)
Definition decides {E A} (r : result E A) (P : Prop) (Q : A -> Prop) : Prop :=
  match r with
  | Ok a => P /\ Q a
  | Err _ => ~ P
  | Panic => False
  end.

Lemma decides_bind {E A B} (r : result E A) (k : A -> result E B) P Q P' Q' :
  decides r P Q -> (forall a, P -> Q a -> decides (k a) P' Q') -> decides (result_bind r k) (P /\ P') Q'.
Proof.
  unfold decides, result_bind. intros Hr Hk. destruct r as [a|e|]; [|tauto|done].
  destruct Hr as [HP HQ]. specialize (Hk a HP HQ). destruct (k a); tauto.
Qed.

Lemma decides_weaken {E A} (r : result E A) P Q P' (Q' : A -> Prop) :
  decides r P Q -> (P <-> P') -> (forall a, P -> Q a -> Q' a) -> decides r P' Q'.
Proof. unfold decides. intros Hr HP HQ. destruct r; [|tauto|done]. naive_solver. Qed.

Lemma decides_iff {E A} (r : result E A) P P' Q : decides r P Q -> (P <-> P') -> decides r P' Q.
Proof. intros Hr HP. by eapply decides_weaken. Qed.

Lemma decides_ok {E A} (a : A) (Q : A -> Prop) : Q a -> decides (E := E) (Ok a) True Q.
Proof. by split. Qed.

(** A computation that does not panic decides its own success. *)
Lemma decides_self {E A} (r : result E A) : r <> Panic -> decides r (exists a, r = Ok a) (fun a => r = Ok a).
Proof. destruct r; simpl; [eauto| |done]. intros _ [a Ha]. done. Qed.

Lemma result_bind_ok {F A B} (r : result F A) (k : A -> result F B) b :
  result_bind r k = Ok b -> exists a, r = Ok a /\ k a = Ok b.
Proof. destruct r; simpl; [eauto|done..]. Qed.

Lemma bind_no_panic {E A B} (r : result E A) (k : A -> result E B) :
  r <> Panic -> (forall a, r = Ok a -> k a <> Panic) -> result_bind r k <> Panic.
Proof. destruct r; simpl; auto. Qed.

Lemma ok_or_no_panic {E A} (e : E) (o : option A) : ok_or e o <> Panic.
Proof. by destruct o. Qed.

(** A fold that succeeds is matched by a related one. *)
Lemma try_fold_simulates {S S' A A' E} (R : S -> S' -> Prop) (Q : A -> A' -> Prop)
    (f : S -> A -> result E S) (f' : S' -> A' -> result E S') l l' :
  Forall2 Q l l' ->
  (forall x x' s s' t, x ∈ l -> Q x x' -> R s s' -> f s x = Ok t -> exists t', f' s' x' = Ok t' /\ R t t') ->
  forall s s' t, R s s' -> try_fold f l s = Ok t -> exists t', try_fold f' l' s' = Ok t' /\ R t t'.
Proof.
  induction 1 as [|x x' l l' Hq _ IH]; intros Hstep s s' t Hs; simpl; [intros [= <-]; eauto|].
  intros (s1 & H1 & H2)%result_bind_ok.
  destruct (Hstep x x' s s' s1 (list_elem_of_here _ _) Hq Hs H1) as (s1' & -> & Hs1). simpl.
  eapply IH; [|exact Hs1|exact H2]. intros; eapply Hstep; eauto using list_elem_of_further.
Qed.

Lemma try_fold_no_panic {S A E} (f : S -> A -> result E S) l s : (forall s x, f s x <> Panic) -> try_fold f l s <> Panic.
Proof. intros Hf. revert s. induction l as [|x l IH]; intros s; simpl; [done|]. apply bind_no_panic; auto. Qed.

Lemma decides_guard {E A} (b : bool) (e : E) (r : result E A) P Q P' :
  (b = false <-> P') -> (P' -> decides r P Q) -> decides (if b then Err e else r) (P' /\ P) Q.
Proof.
  intros Hb Hr. destruct b; simpl; [intros [HP' _]; by apply Hb in HP'|].
  assert P' as HP' by by apply Hb. specialize (Hr HP'). unfold decides in *. destruct r; tauto.
Qed.

Lemma decides_ok_or {E A} (e : E) (o : option A) : decides (ok_or e o) (is_Some o) (fun a => o = Some a).
Proof. destruct o; simpl; [eauto|]. by intros []. Qed.

Lemma try_fold_decides {S A E} (f : S -> A -> result E S) (ok : list A -> A -> Prop) (build : list A -> S) l :
  (forall pre x post, l = pre ++ x :: post -> each_row ok pre ->
     decides (f (build pre) x) (ok pre x) (fun s => s = build (pre ++ [x]))) ->
  decides (try_fold f l (build [])) (each_row ok l) (fun s => s = build l).
Proof.
  intros Hf. assert (forall pre rest, l = pre ++ rest -> each_row ok pre ->
    decides (try_fold f rest (build pre)) (each_row ok l) (fun s => s = build l)) as H;
    [|apply (H [] l eq_refl (each_row_nil ok))].
  intros pre rest. revert pre. induction rest as [|x rest IH]; intros pre -> Hpre; simpl; [by rewrite app_nil_r|].
  pose proof (Hf pre x rest eq_refl Hpre) as Hx. destruct (f (build pre) x) as [s|e|]; simpl in *; [| |done].
  - destruct Hx as [Hx ->]. apply IH; [by rewrite <- app_assoc|]. by apply each_row_snoc.
  - intros Hall. apply Hx. by apply (Hall pre x rest).
Qed.

(** Rows indexed by a key; a later row wins, which the uniqueness checks exclude. *)
Definition by_key {A K} `{Countable K} (key : A -> K) (l : list A) : gmap K A :=
  fold_left (fun m x => <[key x := x]> m) l ∅.

Lemma by_key_snoc {A K} `{Countable K} (key : A -> K) l x : by_key key (l ++ [x]) = <[key x := x]> (by_key key l).
Proof. unfold by_key. by rewrite fold_left_app. Qed.

Lemma by_key_None {A K} `{Countable K} (key : A -> K) l k : by_key key l !! k = None <-> k ∉ key <$> l.
Proof.
  induction l as [|x l IH] using rev_ind; [unfold by_key; simpl; rewrite lookup_empty; set_solver|].
  rewrite by_key_snoc, lookup_insert_None, IH, fmap_app. simpl. set_solver.
Qed.

Lemma by_key_Some {A K} `{Countable K} (key : A -> K) l :
  NoDup (key <$> l) -> forall k x, by_key key l !! k = Some x <-> (x ∈ l) /\ key x = k.
Proof.
  induction l as [|y l IH] using rev_ind; intros Hnd k x; [unfold by_key; simpl; rewrite lookup_empty; set_solver|].
  rewrite fmap_app in Hnd. apply NoDup_app in Hnd as (Hl & Hy & _). specialize (IH Hl).
  rewrite by_key_snoc, lookup_insert_Some, IH, elem_of_app, list_elem_of_singleton. split.
  - intros [[<- <-]|[Hne [Hin <-]]]; [split; [by right|done]|split; [by left|done]].
  - intros [[Hin| ->] <-]; [|by left]. right. split; [|done]. intros Heq. apply (Hy (key x)).
    + by apply list_elem_of_fmap_2.
    + simpl. apply list_elem_of_singleton. done.
Qed.

Lemma by_key_is_Some {A K} `{Countable K} (key : A -> K) l k : is_Some (by_key key l !! k) <-> k ∈ key <$> l.
Proof.
  rewrite <- not_eq_None_Some, by_key_None. split; [|tauto]. intros Hn. by destruct (decide (k ∈ key <$> l)).
Qed.

(** ** Loops that collect a map

    A loop whose body computes at most one entry for a row and inserts it. *)

Definition insert_entry {K V} `{Countable K} (entry : option (K * V)) (m : gmap K V) : gmap K V :=
  match entry with Some (k, v) => <[k := v]> m | None => m end.

Lemma try_fold_collect {A K V E} `{Countable K} (key : A -> K) (g : A -> result E (option (K * V)))
    (P : A -> Prop) (Q : A -> option (K * V) -> Prop) (f : gmap K V -> A -> result E (gmap K V)) (l : list A) :
  (forall m x, f m x = let? y := g x in Ok (insert_entry y m)) ->
  (forall x, x ∈ l -> decides (g x) (P x) (Q x)) ->
  (forall x k v, x ∈ l -> g x = Ok (Some (k, v)) -> k = key x) -> NoDup (key <$> l) ->
  decides (try_fold f l ∅) (Forall P l)
    (fun m => forall k v, m !! k = Some v <-> exists x, (x ∈ l) /\ g x = Ok (Some (k, v))).
Proof.
  intros Hf Hg Hkey Hnd. set (build := fold_left (fun m x => insert_entry (default None (to_option (g x))) m)).
  eapply decides_weaken; [|apply each_row_Forall|].
  - apply (try_fold_decides f (fun _ x => P x) (fun fin => build fin ∅) l). intros pre x post -> _.
    rewrite Hf. assert (x ∈ pre ++ x :: post) as Hin by set_solver. specialize (Hg x Hin).
    unfold build. rewrite fold_left_app. simpl. destruct (g x) as [y|e|]; simpl in *; [|done|done].
    by destruct Hg.
  - simpl. intros m Hall ->. apply each_row_Forall in Hall. unfold build. clear build Hf.
    induction l as [|x l IH] using rev_ind; intros k v; simpl.
    { rewrite lookup_empty. split; [done|]. intros (x & Hx & _). by apply elem_of_nil in Hx. }
    rewrite fmap_app, NoDup_app in Hnd. destruct Hnd as (Hnd & Hx & _). apply Forall_app in Hall as [Hall Hpx].
    rewrite fold_left_app. simpl. assert (forall y, y ∈ l -> y ∈ l ++ [x]) as Hsub by set_solver.
    specialize (IH (fun y Hy => Hg y (Hsub y Hy)) (fun y k' v' Hy => Hkey y k' v' (Hsub y Hy)) Hnd Hall).
    rewrite Forall_singleton in Hpx. assert (x ∈ l ++ [x]) as Hxl by set_solver. pose proof (Hg x Hxl) as Hdx.
    destruct (g x) as [y| |] eqn:Hgx; simpl in *; [|tauto|done].
    assert (forall y, (y ∈ l ++ [x]) <-> (y ∈ l) \/ y = x) as Hsplit by set_solver. setoid_rewrite Hsplit.
    destruct y as [[kx vx]|]; simpl.
    + pose proof (Hkey x kx vx Hxl Hgx) as ->. rewrite lookup_insert_Some, IH. split.
      * intros [[<- <-]|[Hne (y & Hy & Hgy)]]; [by exists x; split; [right|]|]. exists y. split; [by left|done].
      * intros (y & [Hy| ->] & Hgy); [|left; rewrite Hgx in Hgy; by simplify_eq]. right. split; [|by exists y]. intros <-.
        apply (Hx (key x)); [|set_solver]. rewrite (Hkey y _ _ (Hsub y Hy) Hgy). by apply list_elem_of_fmap_2.
    + rewrite IH. split; intros (y & Hy & Hgy); exists y; split; [by left|done| |done].
      destruct Hy as [?| ->]; [done|]. rewrite Hgx in Hgy. by simplify_eq.
Qed.

(** The same with the entry of a row given as a relation, over any order of the
    rows. *)
Lemma try_fold_rows {A K V E} `{Countable K} (key : A -> K) (g : A -> result E (option (K * V)))
    (P : A -> Prop) (R : A -> K -> V -> Prop) (f : gmap K V -> A -> result E (gmap K V)) (rows order : list A) :
  order ≡ₚ rows -> NoDup (key <$> rows) ->
  (forall m x, f m x = let? y := g x in Ok (insert_entry y m)) ->
  (forall x, x ∈ rows -> decides (g x) (P x) (fun y => forall k v, y = Some (k, v) <-> R x k v)) ->
  (forall x k v, x ∈ rows -> R x k v -> k = key x) -> (forall x k v, x ∈ rows -> R x k v -> P x) ->
  decides (try_fold f order ∅) (Forall P rows)
    (fun m => forall k v, m !! k = Some v <-> exists x, (x ∈ rows) /\ R x k v).
Proof.
  intros Hperm Hnd Hf Hg Hkey HR. assert (forall x, x ∈ order <-> x ∈ rows) as Hin by (intros x; by rewrite Hperm).
  assert (forall x k v, x ∈ rows -> g x = Ok (Some (k, v)) <-> R x k v) as Hiff.
  { intros x k v Hx. pose proof (Hg x Hx) as Hd. split.
    - intros Hgx. rewrite Hgx in Hd. by apply Hd.
    - intros Hr. pose proof (HR x k v Hx Hr) as HP. destruct (g x) as [y| |]; simpl in Hd; [|done|done].
      destruct Hd as [_ Hd]. f_equal. by apply Hd. }
  eapply decides_weaken.
  - apply (try_fold_collect key g P (fun x y => forall k v, y = Some (k, v) <-> R x k v) f order Hf).
    + intros x Hx. apply Hg. by apply Hin.
    + intros x k v Hx Hgx. apply Hin in Hx. apply (Hkey x k v Hx). by apply Hiff.
    + by rewrite Hperm.
  - by rewrite Hperm.
  - intros m _ Hm k v. cbv beta in Hm. rewrite Hm. split; intros (x & Hx & Hr); exists x; (split; [by apply Hin|]);
      apply Hiff; try done; by apply Hin.
Qed.
