(* ===== verification/Text.v ===== *)
(** * Text operations of the standard library

    The [str] operations the sources use, on UTF-8 text as a string of bytes, and
    [str::parse] for [u8] and [IpAddr] after [core::num] and [core::net]. *)

From S2P Require Import Prelude.
From Stdlib Require Strings.Byte.
Local Open Scope string_scope.
Local Open Scope list_scope.
Local Open Scope Z_scope.

#[export] Instance byte_eq_decision : EqDecision Byte.byte := Byte.byte_eq_dec.

(** ** Searching and splitting *)

Fixpoint strip_prefix (p s : string) : option string :=
  match p, s with
  | EmptyString, _ => Some s
  | String a p', String b s' => if Ascii.eqb a b then strip_prefix p' s' else None
  | _, _ => None
  end.

Definition strip_prefix_char (c : ascii) (s : string) : option string :=
  strip_prefix (String c EmptyString) s.

(** [str::split_once] at the first separator. *)
Fixpoint split_once (c : ascii) (s : string) : option (string * string) :=
  match s with
  | EmptyString => None
  | String a rest =>
      if Ascii.eqb a c then Some (EmptyString, rest)
      else match split_once c rest with
           | Some (before, after) => Some (String a before, after)
           | None => None
           end
  end.

Fixpoint all_chars (f : ascii -> bool) (s : string) : bool :=
  match s with
  | EmptyString => true
  | String a rest => f a && all_chars f rest
  end.

Definition contains (c : ascii) (s : string) : bool := negb (all_chars (fun a => negb (Ascii.eqb a c)) s).

Definition starts_with_char (c : ascii) (s : string) : bool :=
  match s with String a _ => Ascii.eqb a c | EmptyString => false end.

(** [str::contains] and [str::split_once] with a string pattern. *)
Fixpoint contains_str (p s : string) : bool :=
  match strip_prefix p s with
  | Some _ => true
  | None => match s with EmptyString => false | String _ rest => contains_str p rest end
  end.

Fixpoint split_once_str (p s : string) : option (string * string) :=
  match strip_prefix p s with
  | Some rest => Some (EmptyString, rest)
  | None =>
      match s with
      | EmptyString => None
      | String a rest => (fun x => (String a x.1, x.2)) <$> split_once_str p rest
      end
  end.

(** [str::find] of the first character with the property: the text before it and
    the text from it on. *)
Fixpoint find_char (f : ascii -> bool) (s : string) : option (string * string) :=
  match s with
  | EmptyString => None
  | String a rest => if f a then Some (EmptyString, s) else (fun x => (String a x.1, x.2)) <$> find_char f rest
  end.

(** [str::split] at a character: one piece more than separators. *)
Fixpoint split_char (c : ascii) (s : string) : list string :=
  match s with
  | EmptyString => [EmptyString]
  | String a rest =>
      if Ascii.eqb a c then EmptyString :: split_char c rest
      else match split_char c rest with
           | [] => [String a EmptyString]
           | piece :: pieces => String a piece :: pieces
           end
  end.

(** [str::trim_end_matches] with a character. *)
Fixpoint trim_end_char (c : ascii) (s : string) : string :=
  match s with
  | EmptyString => EmptyString
  | String a rest =>
      match trim_end_char c rest with
      | EmptyString => if Ascii.eqb a c then EmptyString else String a EmptyString
      | trimmed => String a trimmed
      end
  end.

(** [str::strip_suffix] with a [char]. *)
Fixpoint strip_suffix_char (c : ascii) (s : string) : option string :=
  match s with
  | EmptyString => None
  | String a EmptyString => if Ascii.eqb a c then Some EmptyString else None
  | String a rest => String a <$> strip_suffix_char c rest
  end.

Definition char_code (a : ascii) : Z := Z.of_N (N_of_ascii a).

(** [s.trim().is_empty()]: only characters with the Unicode property White_Space,
    each recognised by its UTF-8 encoding. *)
Fixpoint is_blank (s : string) : bool :=
  match s with
  | EmptyString => true
  | String a rest =>
      if ((9 <=? char_code a) && (char_code a <=? 13)) || (char_code a =? 32) then is_blank rest
      else match rest with
      | String b rest2 =>
          if (char_code a =? 194) && ((char_code b =? 133) || (char_code b =? 160)) then is_blank rest2
          else match rest2 with
          | String c rest3 =>
              if ((char_code a =? 225) && (char_code b =? 154) && (char_code c =? 128))
                 || ((char_code a =? 226) && (char_code b =? 128)
                     && (((128 <=? char_code c) && (char_code c <=? 138)) || (char_code c =? 168) || (char_code c =? 169) || (char_code c =? 175)))
                 || ((char_code a =? 226) && (char_code b =? 129) && (char_code c =? 159))
                 || ((char_code a =? 227) && (char_code b =? 128) && (char_code c =? 128))
              then is_blank rest3
              else false
          | EmptyString => false
          end
      | EmptyString => false
      end
  end.

(** ** UTF-8

    [str::from_utf8]: well-formed byte sequences, without overlong forms and
    surrogates. *)

Definition utf8_tail (n : Z) : bool := (128 <=? n) && (n <=? 191).

Fixpoint utf8_valid (s : string) : bool :=
  match s with
  | EmptyString => true
  | String a r1 =>
      let n := char_code a in
      if n <? 128 then utf8_valid r1
      else match r1 with
      | EmptyString => false
      | String b r2 =>
          let m := char_code b in
          if (194 <=? n) && (n <=? 223) then utf8_tail m && utf8_valid r2
          else match r2 with
          | EmptyString => false
          | String c r3 =>
              let tail3 := utf8_tail (char_code c) && utf8_valid r3 in
              if n =? 224 then (160 <=? m) && (m <=? 191) && tail3
              else if ((225 <=? n) && (n <=? 236)) || (n =? 238) || (n =? 239) then utf8_tail m && tail3
              else if n =? 237 then (128 <=? m) && (m <=? 159) && tail3
              else match r3 with
              | EmptyString => false
              | String d r4 =>
                  let tail4 := utf8_tail (char_code c) && utf8_tail (char_code d) && utf8_valid r4 in
                  if n =? 240 then (144 <=? m) && (m <=? 191) && tail4
                  else if (241 <=? n) && (n <=? 243) then utf8_tail m && tail4
                  else if n =? 244 then (128 <=? m) && (m <=? 143) && tail4
                  else false
              end
          end
      end
  end.

(** [s.chars().count()]. *)
Fixpoint char_count (s : string) : Z :=
  match s with
  | EmptyString => 0
  | String a rest => (if utf8_tail (char_code a) then 0 else 1) + char_count rest
  end.

(** ** Numbers *)

(** [char::to_digit] for radix 10 and 16. *)
Definition to_digit (radix : Z) (a : ascii) : option Z :=
  let n := char_code a in
  let d := if (48 <=? n) && (n <=? 57) then Some (n - 48)
           else if (97 <=? n) && (n <=? 102) then Some (n - 87)
           else if (65 <=? n) && (n <=? 70) then Some (n - 55)
           else None in
  match d with
  | Some v => if v <? radix then Some v else None
  | None => None
  end.

Fixpoint parse_digits (bound acc : Z) (s : string) : option Z :=
  match s with
  | EmptyString => Some acc
  | String a rest =>
      match to_digit 10 a with
      | Some d => if bound <? acc * 10 + d then None else parse_digits bound (acc * 10 + d) rest
      | None => None
      end
  end.

(** [str::parse::<u8>]: an optional [+], then digits, without overflow. *)
Definition parse_u8 (s : string) : option Z :=
  match s with
  | EmptyString => None
  | String a rest =>
      if Ascii.eqb a "+" then match rest with EmptyString => None | _ => parse_digits 255 0 rest end
      else parse_digits 255 0 s
  end.

(** ** IP addresses

    An address is its value as a big-endian integer. *)

Inductive IpAddr : Type := V4 (value : Z) | V6 (value : Z).

#[export] Instance IpAddr_eq_dec : EqDecision IpAddr.
Proof. solve_decision. Defined.

Definition ip_ok (a : IpAddr) : Prop :=
  match a with V4 v => 0 <= v < 2 ^ 32 | V6 v => 0 <= v < 2 ^ 128 end.

(** The derived order: every V4 before every V6, then by value. *)
Definition ip_ltb (a b : IpAddr) : bool :=
  match a, b with
  | V4 x, V4 y => x <? y
  | V6 x, V6 y => x <? y
  | V4 _, V6 _ => true
  | V6 _, V4 _ => false
  end.

(** A reader consumes a prefix of the text or fails without consuming. *)
Definition Reader (A : Type) : Type := string -> option (A * string).

Definition read_given_char (c : ascii) : Reader unit := fun s =>
  match s with
  | String a rest => if Ascii.eqb a c then Some (tt, rest) else None
  | EmptyString => None
  end.

(** [read_number]: at most [max_digits] digits of the radix. *)
Fixpoint read_digits (radix : Z) (acc : Z) (count : nat) (s : string) : Z * nat * string :=
  match s with
  | String a rest =>
      match to_digit radix a with
      | Some d => read_digits radix (acc * radix + d) (S count) rest
      | None => (acc, count, s)
      end
  | EmptyString => (acc, count, s)
  end.

Definition read_number (radix : Z) (max_digits : nat) (allow_zero_prefix : bool) (bound : Z) : Reader Z := fun s =>
  let '(v, count, rest) := read_digits radix 0 0 s in
  let leading_zero := match s with String a _ => Ascii.eqb a "0" | EmptyString => false end in
  if bool_decide (count = 0)%nat || bool_decide (max_digits < count)%nat then None
  else if negb allow_zero_prefix && leading_zero && bool_decide (1 < count)%nat then None
  else if v <=? bound then Some (v, rest) else None.

(** [read_separator]: a separator precedes every item but the first. *)
Definition read_separator {A} (sep : ascii) (index : nat) (inner : Reader A) : Reader A := fun s =>
  match index with
  | O => inner s
  | S _ => match read_given_char sep s with Some (_, s') => inner s' | None => None end
  end.

Definition read_octet (index : nat) : Reader Z := read_separator "." index (read_number 10 3 false 255).

Definition read_ipv4 : Reader Z := fun s =>
  '(a, s) ← read_octet 0 s;
  '(b, s) ← read_octet 1 s;
  '(c, s) ← read_octet 2 s;
  '(d, s) ← read_octet 3 s;
  Some (((a * 256 + b) * 256 + c) * 256 + d, s).

(** [read_groups]: up to [room] more 16-bit groups, the last two possibly written
    as an IPv4 address; the groups read and whether they end in one. *)
Fixpoint read_groups (room index : nat) (s : string) : list Z * bool * string :=
  match room with
  | O => ([], false, s)
  | S room' =>
      match (match room' with O => None | S _ => read_separator ":" index read_ipv4 s end) with
      | Some (v, s') => ([v / 65536; v mod 65536], true, s')
      | None =>
          match read_separator ":" index (read_number 16 4 true 65535) s with
          | None => ([], false, s)
          | Some (g, s') => let '(gs, v4, s'') := read_groups room' (S index) s' in (g :: gs, v4, s'')
          end
      end
  end.

Definition groups_value (gs : list Z) : Z := fold_left (fun acc g => acc * 65536 + g) gs 0.

Definition read_ipv6 : Reader Z := fun s =>
  let '(head, head_ipv4, s1) := read_groups 8 0 s in
  if bool_decide (length head = 8)%nat then Some (groups_value head, s1)
  else if head_ipv4 then None
  else
    '(_, s2) ← read_given_char ":" s1;
    '(_, s3) ← read_given_char ":" s2;
    let '(tail, _, s4) := read_groups (8 - (length head + 1)) 0 s3 in
    Some (groups_value (head ++ replicate (8 - length head - length tail) 0 ++ tail), s4).

(** [str::parse::<IpAddr>]: the whole text must be consumed. *)
Definition parse_ip (s : string) : option IpAddr :=
  match read_ipv4 s with
  | Some (v, EmptyString) => Some (V4 v)
  | Some _ => None
  | None =>
      match read_ipv6 s with
      | Some (v, EmptyString) => Some (V6 v)
      | _ => None
      end
  end.

(** *** Parsed addresses are in range *)

Lemma to_digit_nonneg radix a d : to_digit radix a = Some d -> 0 <= d.
Proof. unfold to_digit. repeat case_match; intros; simplify_eq; bool_simp; lia. Qed.

Lemma parse_digits_range bound acc s v : 0 <= acc <= bound -> parse_digits bound acc s = Some v -> 0 <= v <= bound.
Proof.
  revert acc. induction s as [|a s IH]; intros acc Hacc; simpl; [by intros [= ->]|].
  destruct (to_digit 10 a) as [d|] eqn:Hd; [|done]. apply to_digit_nonneg in Hd.
  destruct (bound <? acc * 10 + d) eqn:Hb; [done|]. bool_simp. apply IH. lia.
Qed.

Lemma parse_u8_range s v : parse_u8 s = Some v -> 0 <= v <= 255.
Proof.
  unfold parse_u8. destruct s as [|a rest]; [done|]. destruct (Ascii.eqb a "+"); [destruct rest; [done|]|];
    by apply parse_digits_range.
Qed.

Lemma read_digits_nonneg radix acc count s : 0 <= radix -> 0 <= acc -> 0 <= (read_digits radix acc count s).1.1.
Proof.
  revert acc count. induction s as [|a s IH]; intros acc count Hr Ha; simpl; [done|].
  destruct (to_digit radix a) as [d|] eqn:Hd; [|done]. apply to_digit_nonneg in Hd. apply IH; [done|nia].
Qed.

Lemma read_number_range radix digits zero bound s v rest :
  0 <= radix -> read_number radix digits zero bound s = Some (v, rest) -> 0 <= v <= bound.
Proof.
  intros Hr. unfold read_number. pose proof (read_digits_nonneg radix 0 0 s Hr ltac:(lia)) as Hn.
  destruct (read_digits radix 0 0 s) as [[w count] tail]. simpl in Hn.
  repeat case_match; intros; simplify_eq; bool_simp; lia.
Qed.

Lemma read_separator_inv {A} sep index (inner : Reader A) s r :
  read_separator sep index inner s = Some r -> exists s', inner s' = Some r.
Proof. unfold read_separator. repeat case_match; intros; simplify_eq; eauto. Qed.

Lemma read_octet_range index s v rest : read_octet index s = Some (v, rest) -> 0 <= v <= 255.
Proof. intros (s' & Hs)%read_separator_inv. by apply read_number_range in Hs. Qed.

Lemma read_ipv4_range s v rest : read_ipv4 s = Some (v, rest) -> 0 <= v < 2 ^ 32.
Proof.
  unfold read_ipv4. intros H. unfold mbind, option_bind in H. destruct (read_octet 0 s) as [[a s1]|] eqn:Ha; [|done].
  destruct (read_octet 1 s1) as [[b s2]|] eqn:Hb; [|done].
  destruct (read_octet 2 s2) as [[c s3]|] eqn:Hc; [|done].
  destruct (read_octet 3 s3) as [[d s4]|] eqn:Hd; [|done]. simplify_eq.
  apply read_octet_range in Ha, Hb, Hc, Hd. lia.
Qed.

Lemma read_groups_range room index s gs v4 rest :
  read_groups room index s = (gs, v4, rest) -> Forall (fun g => 0 <= g < 65536) gs /\ (length gs <= room)%nat.
Proof.
  revert index s gs v4 rest. induction room as [|room IH]; intros index s gs v4 rest; simpl.
  { intros. simplify_eq. split; [constructor|done]. }
  destruct (match room with O => None | S _ => read_separator ":" index read_ipv4 s end) as [[v s']|] eqn:H4.
  - destruct room; [done|]. apply read_separator_inv in H4 as [s0 H4%read_ipv4_range]. intros. simplify_eq.
    split; [|simpl; lia]. pose proof (Z.div_lt_upper_bound v 65536 65536). pose proof (Z.div_pos v 65536).
    pose proof (Z.mod_pos_bound v 65536). repeat constructor; lia.
  - destruct (read_separator ":" index (read_number 16 4 true 65535) s) as [[g s']|] eqn:Hg.
    2:{ intros. simplify_eq. split; [constructor|simpl; lia]. }
    apply read_separator_inv in Hg as [s0 Hg%read_number_range]; [|lia].
    destruct (read_groups room (S index) s') as [[gs' v4'] s''] eqn:Hrec. apply IH in Hrec as [Hf Hl]. intros. simplify_eq.
    split; [constructor; [lia|done]|simpl; lia].
Qed.

Lemma groups_value_range gs : Forall (fun g => 0 <= g < 65536) gs -> 0 <= groups_value gs < 65536 ^ Z.of_nat (length gs).
Proof.
  unfold groups_value. induction gs as [|g gs IH] using rev_ind; intros Hall; [simpl; lia|].
  apply Forall_app in Hall as [Hgs Hg]. apply Forall_cons_1 in Hg as [Hg _]. specialize (IH Hgs).
  rewrite fold_left_app, length_app, Nat2Z.inj_add, Z.pow_add_r by lia.
  change (65536 ^ Z.of_nat (length [g])) with 65536. cbn [fold_left]. lia.
Qed.

Lemma read_ipv6_range s v rest : read_ipv6 s = Some (v, rest) -> 0 <= v < 2 ^ 128.
Proof.
  unfold read_ipv6. destruct (read_groups 8 0 s) as [[head v4] s1] eqn:Hh. apply read_groups_range in Hh as [Hf Hl].
  case_bool_decide as H8.
  { intros. simplify_eq. apply groups_value_range in Hf. rewrite H8 in Hf. done. }
  destruct v4; [done|]. intros H. destruct (read_given_char ":" s1) as [[[] s2]|]; simpl in H; [|done].
  destruct (read_given_char ":" s2) as [[[] s3]|]; simpl in H; [|done].
  destruct (read_groups (8 - (length head + 1)) 0 s3) as [[tail v4] s4] eqn:Ht.
  apply read_groups_range in Ht as [Hft Hlt]. simplify_eq.
  assert (Forall (fun g => 0 <= g < 65536) (head ++ replicate (8 - length head - length tail) 0 ++ tail)) as Hall.
  { apply Forall_app. split; [done|]. apply Forall_app. split; [|done]. apply Forall_replicate. lia. }
  apply groups_value_range in Hall. rewrite !length_app, length_replicate in Hall.
  replace (length head + _)%nat with 8%nat in Hall by lia. done.
Qed.

Lemma parse_ip_range s a : parse_ip s = Some a -> ip_ok a.
Proof.
  unfold parse_ip. destruct (read_ipv4 s) as [[v []]|] eqn:H4; [|done|].
  - intros. simplify_eq. by apply read_ipv4_range in H4.
  - destruct (read_ipv6 s) as [[v []]|] eqn:H6; [|done..]. intros. simplify_eq. by apply read_ipv6_range in H6.
Qed.

Example parse_ip_examples :
  parse_ip "10.0.0.1" = Some (V4 167772161) /\ parse_ip "::1" = Some (V6 1)
  /\ parse_ip "::ffff:10.0.0.1" = Some (V6 (65535 * 2 ^ 32 + 167772161))
  /\ parse_ip "fe80::1:2" = Some (V6 (65152 * 2 ^ 112 + 65538)) /\ parse_ip "1:2:3:4:5:6:7:8" <> None
  /\ parse_ip "010.0.0.1" = None /\ parse_ip "10.0.0" = None /\ parse_ip "1::2::3" = None
  /\ parse_ip "256.0.0.1" = None /\ parse_ip "1.2.3.4::" = None.
Proof. vm_compute. intuition congruence. Qed.

(** ** Lemmas *)

Lemma strip_prefix_Some p s rest : strip_prefix p s = Some rest -> s = p +:+ rest.
Proof.
  revert s. induction p as [|a p IH]; intros s H; simpl in *; [by simplify_eq|].
  destruct s as [|b s]; [done|]. destruct (Ascii.eqb_spec a b) as [->|]; [|done].
  by rewrite (IH s H).
Qed.

Lemma split_once_spec c s before after :
  split_once c s = Some (before, after) <->
  s = before +:+ String c after /\ contains c before = false.
Proof.
  unfold contains. rewrite negb_false_iff.
  revert before. induction s as [|a s IH]; intros before; simpl.
  { split; [done|]. by destruct before as [|b before]; intros [? ?]. }
  destruct (Ascii.eqb_spec a c) as [->|Hne].
  - split; [intros; by simplify_eq|]. intros [Hs Hb]. destruct before as [|b before]; simpl in Hs, Hb.
    + by injection Hs as ->.
    + injection Hs as <- ->. by rewrite Ascii.eqb_refl in Hb.
  - destruct (split_once c s) as [[b' a']|] eqn:Hsp.
    + split.
      * intros; simplify_eq. destruct (IH b') as [IH1 _]. destruct IH1 as [-> Hb]; [done|].
        simpl. destruct (Ascii.eqb_spec a c); [done|]. done.
      * intros [Hs Hb]. destruct before as [|b before]; simpl in Hs, Hb; injection Hs as Hc Hs; [done|]. subst b s.
        apply andb_true_iff in Hb as [_ Hb]. destruct (IH before) as [_ IH2].
        specialize (IH2 (conj eq_refl Hb)). by simplify_eq.
    + split; [done|]. intros [Hs Hb]. destruct before as [|b before]; simpl in Hs, Hb; injection Hs as Hc Hs; [done|]. subst b s.
      apply andb_true_iff in Hb as [_ Hb]. destruct (IH before) as [_ IH2].
      by specialize (IH2 (conj eq_refl Hb)).
Qed.
