(* ===== verification/Octets.v ===== *)
(** * Byte strings

    Big-endian integers and text as bytes: [from_be_bytes], [to_be_bytes] and
    [str::as_bytes]. *)

From S2P Require Import Prelude.
From Stdlib Require Import Strings.Byte.
Local Open Scope string_scope.
Local Open Scope list_scope.
Local Open Scope Z_scope.

Definition byte_val (b : Byte.byte) : Z := Z.of_N (Byte.to_N b).
Definition len (bytes : list Byte.byte) : Z := Z.of_nat (length bytes).

(** [from_be_bytes]. *)
Definition be_value (bytes : list Byte.byte) : Z := fold_left (fun acc b => acc * 256 + byte_val b) bytes 0.

(** [to_be_bytes]: the [n] low bytes, most significant first. *)
Definition byte_of (z : Z) : Byte.byte := default x00 (Byte.of_N (Z.to_N (z mod 256))).

Fixpoint be_bytes (n : nat) (z : Z) : list Byte.byte :=
  match n with
  | O => []
  | S n' => byte_of (z / 256 ^ Z.of_nat n') :: be_bytes n' z
  end.

Definition text_bytes (s : string) : list Byte.byte := String.list_byte_of_string s.

Lemma byte_val_range b : 0 <= byte_val b < 256.
Proof. unfold byte_val. pose proof (Byte.to_N_bounded b). lia. Qed.

Lemma be_value_acc bytes acc : fold_left (fun acc b => acc * 256 + byte_val b) bytes acc = acc * 256 ^ len bytes + be_value bytes.
Proof.
  unfold be_value, len. revert acc. induction bytes as [|b bytes IH]; intros acc; [simpl; lia|].
  cbn [fold_left length]. rewrite (IH (acc * 256 + byte_val b)), (IH (0 * 256 + byte_val b)), Nat2Z.inj_succ, Z.pow_succ_r by lia. lia.
Qed.

Lemma be_value_cons b bytes : be_value (b :: bytes) = byte_val b * 256 ^ len bytes + be_value bytes.
Proof. unfold be_value at 1. cbn [fold_left]. by rewrite be_value_acc. Qed.

Lemma be_value_range bytes : 0 <= be_value bytes < 256 ^ len bytes.
Proof.
  induction bytes as [|b bytes IH]; [done|]. rewrite be_value_cons. pose proof (byte_val_range b).
  unfold len in *. cbn [length]. rewrite Nat2Z.inj_succ, Z.pow_succ_r by lia. nia.
Qed.

Lemma byte_of_val z : byte_val (byte_of z) = z mod 256.
Proof.
  unfold byte_val, byte_of. pose proof (Z.mod_pos_bound z 256 ltac:(lia)) as Hz.
  destruct (Byte.of_N (Z.to_N (z mod 256))) as [b|] eqn:Hb; simpl.
  - apply Byte.to_of_N in Hb. rewrite Hb. lia.
  - apply Byte.of_N_None_iff in Hb. lia.
Qed.

Lemma len_be_bytes n z : len (be_bytes n z) = Z.of_nat n.
Proof. unfold len. f_equal. induction n; simpl; congruence. Qed.

Lemma be_value_bytes n z : be_value (be_bytes n z) = z mod 256 ^ Z.of_nat n.
Proof.
  induction n as [|n IH]; [by rewrite Z.mod_1_r|]. cbn [be_bytes].
  rewrite be_value_cons, IH, len_be_bytes, byte_of_val, Nat2Z.inj_succ, Z.pow_succ_r by lia.
  pose proof (Z.pow_pos_nonneg 256 (Z.of_nat n) ltac:(lia) ltac:(lia)).
  rewrite (Z.mul_comm 256), Z.rem_mul_r by lia. lia.
Qed.

Lemma be_bytes_small n z : 0 <= z < 256 ^ Z.of_nat n -> be_value (be_bytes n z) = z.
Proof. intros Hz. rewrite be_value_bytes. by apply Z.mod_small. Qed.

Lemma text_round s : String.string_of_list_byte (text_bytes s) = s.
Proof. apply String.string_of_list_byte_of_string. Qed.

Lemma len_app (a b : list Byte.byte) : len (a ++ b) = len a + len b.
Proof. unfold len. rewrite length_app. lia. Qed.

Lemma text_bytes_inj s s' : text_bytes s = text_bytes s' -> s = s'.
Proof. intros Heq. rewrite <- (text_round s), <- (text_round s'). by rewrite Heq. Qed.

(** Length-prefixed segments are read off one after the other. *)
Lemma prefixed_inj n s s' rest rest' :
  len s < 256 ^ Z.of_nat n -> len s' < 256 ^ Z.of_nat n ->
  be_bytes n (len s) ++ s ++ rest = be_bytes n (len s') ++ s' ++ rest' -> s = s' /\ rest = rest'.
Proof.
  intros Hs Hs' Heq. assert (0 <= len s /\ 0 <= len s') as [? ?] by (unfold len; lia).
  apply app_inj_1 in Heq as [Hl Heq]; [|apply Nat2Z.inj; fold (len (be_bytes n (len s))) (len (be_bytes n (len s'))); by rewrite !len_be_bytes].
  apply (f_equal be_value) in Hl. rewrite !be_bytes_small in Hl by lia.
  apply app_inj_1 in Heq; [done|]. unfold len in Hl. lia.
Qed.
