(* ===== verification/Core.v ===== *)
(** * gateway-core: identifiers, errors and lifecycle events

    Models [crates/gateway-core/src/{id,error,gateway_event}.rs] and the Usage
    record of [canonical_event.rs]: opaque identifiers, the closed error taxonomy,
    and the secret-free events the data path emits. *)

From S2P Require Import Prelude.
Local Open Scope string_scope.

(** ** Identifiers (id.rs)

    The [opaque_identifier!] macro declares one newtype over [String] per domain
    role; [Id k] is that newtype for the role [k]. *)

Inductive IdKind : Type :=
| KRequest | KResponse | KAttempt | KHealthEvent | KClientKey | KAccessGroup
| KAuth | KCredential | KProvider | KUpstream | KEndpoint | KEgressPolicy
| KPublicModel | KRoute | KRouteCandidate.

Record Id (k : IdKind) : Type := mkId { as_str : string }.
Arguments mkId {k} as_str.
Arguments as_str {k} _.

Abbreviation RequestId := (Id KRequest).
Abbreviation ResponseId := (Id KResponse).
Abbreviation AttemptId := (Id KAttempt).
Abbreviation HealthEventId := (Id KHealthEvent).
Abbreviation ClientKeyId := (Id KClientKey).
Abbreviation AccessGroupId := (Id KAccessGroup).
Abbreviation CredentialId := (Id KCredential).
Abbreviation UpstreamId := (Id KUpstream).
Abbreviation EndpointId := (Id KEndpoint).
Abbreviation PublicModelId := (Id KPublicModel).
Abbreviation RouteId := (Id KRoute).
Abbreviation RouteCandidateId := (Id KRouteCandidate).

#[export] Instance Id_eq_dec k : EqDecision (Id k).
Proof. solve_decision. Defined.

#[export] Instance Id_countable k : Countable (Id k).
Proof. apply (inj_countable' as_str mkId). by intros []. Defined.

Inductive InvalidIdentifier : Type := IdEmpty.

(** [$name::try_new]. *)
Definition id_try_new (k : IdKind) (value : string) : result InvalidIdentifier (Id k) :=
  if bool_decide (value = "") then Err IdEmpty else Ok (mkId value).

(** The derived [Ord] of an identifier: byte-lexicographic order of its text. *)
Definition id_leb {k} (a b : Id k) : bool := String.leb (as_str a) (as_str b).

Lemma ascii_compare_lt_trans a b c :
  Ascii.compare a b = Lt -> Ascii.compare b c = Lt -> Ascii.compare a c = Lt.
Proof. unfold Ascii.compare. rewrite !N.compare_lt_iff. lia. Qed.

Lemma string_leb_trans s1 s2 s3 :
  String.leb s1 s2 = true -> String.leb s2 s3 = true -> String.leb s1 s3 = true.
Proof.
  unfold String.leb. revert s2 s3. induction s1 as [|a s1 IH]; intros [|b s2] [|c s3]; simpl; try done.
  destruct (Ascii.compare a b) eqn:Hab; try done.
  - apply Ascii.compare_eq_iff in Hab as ->. destruct (Ascii.compare b c) eqn:Hbc; try done. apply IH.
  - destruct (Ascii.compare b c) eqn:Hbc; try done.
    + apply Ascii.compare_eq_iff in Hbc as ->. by rewrite Hab.
    + by rewrite (ascii_compare_lt_trans _ _ _ Hab Hbc).
Qed.

Lemma id_leb_total {k} (a b : Id k) : id_leb a b = true \/ id_leb b a = true.
Proof. apply String.leb_total. Qed.

Lemma id_leb_trans {k} (a b c : Id k) : id_leb a b = true -> id_leb b c = true -> id_leb a c = true.
Proof. apply string_leb_trans. Qed.

Lemma id_leb_antisym {k} (a b : Id k) : id_leb a b = true -> id_leb b a = true -> a = b.
Proof.
  unfold id_leb. destruct a as [a], b as [b]; simpl. intros. f_equal. by apply String.leb_antisym.
Qed.

(** [AttemptId::from_request_sequence]: [attempt:<len>:<request>:<n>]. *)
Definition from_request_sequence (request_id : RequestId) (attempt_number : N) : AttemptId :=
  mkId ("attempt:" +:+ pretty (N.of_nat (String.length (as_str request_id))) +:+ ":"
        +:+ as_str request_id +:+ ":" +:+ pretty attempt_number).

(** ** Errors (error.rs) *)

Inductive GatewayErrorCode : Type :=
| ClientRequestError | ClientUnauthorized | RouteNotFound | CredentialUnavailable
| CredentialUnauthorized | CredentialForbidden | CredentialQuotaExceeded
| EgressRejected | EgressUnavailable | ProviderRateLimited | ProviderTransient
| ProviderPermanent | TokenCountUnsupported | UpstreamProtocolError
| StreamTruncated | InternalError | Cancelled.

Inductive ErrorScope : Type :=
| ScopeRequest | ScopeCredential | ScopeAccount | ScopeModel | ScopeQuotaWindow
| ScopeEgressSession | ScopeEgress | ScopeProvider | ScopeStream | ScopeInternal.

#[export] Instance GatewayErrorCode_eq_dec : EqDecision GatewayErrorCode.
Proof. solve_decision. Defined.
#[export] Instance ErrorScope_eq_dec : EqDecision ErrorScope.
Proof. solve_decision. Defined.

Record GatewayError : Type := mkError { code : GatewayErrorCode; scope : ErrorScope }.

#[export] Instance GatewayError_eq_dec : EqDecision GatewayError.
Proof. solve_decision. Defined.

Definition code_ALL : list GatewayErrorCode :=
  [ ClientRequestError; ClientUnauthorized; RouteNotFound; CredentialUnavailable;
    CredentialUnauthorized; CredentialForbidden; CredentialQuotaExceeded;
    EgressRejected; EgressUnavailable; ProviderRateLimited; ProviderTransient;
    ProviderPermanent; TokenCountUnsupported; UpstreamProtocolError;
    StreamTruncated; InternalError; Cancelled ].

Definition code_as_str (c : GatewayErrorCode) : string :=
  match c with
  | ClientRequestError => "ClientRequestError"
  | ClientUnauthorized => "ClientUnauthorized"
  | RouteNotFound => "RouteNotFound"
  | CredentialUnavailable => "CredentialUnavailable"
  | CredentialUnauthorized => "CredentialUnauthorized"
  | CredentialForbidden => "CredentialForbidden"
  | CredentialQuotaExceeded => "CredentialQuotaExceeded"
  | EgressRejected => "EgressRejected"
  | EgressUnavailable => "EgressUnavailable"
  | ProviderRateLimited => "ProviderRateLimited"
  | ProviderTransient => "ProviderTransient"
  | ProviderPermanent => "ProviderPermanent"
  | TokenCountUnsupported => "TokenCountUnsupported"
  | UpstreamProtocolError => "UpstreamProtocolError"
  | StreamTruncated => "StreamTruncated"
  | InternalError => "InternalError"
  | Cancelled => "Cancelled"
  end.

Definition scope_as_str (s : ErrorScope) : string :=
  match s with
  | ScopeRequest => "request"
  | ScopeCredential => "credential"
  | ScopeAccount => "account"
  | ScopeModel => "model"
  | ScopeQuotaWindow => "quota_window"
  | ScopeEgressSession => "egress_session"
  | ScopeEgress => "egress"
  | ScopeProvider => "provider"
  | ScopeStream => "stream"
  | ScopeInternal => "internal"
  end.

Definition safe_message (e : GatewayError) : string :=
  match code e with
  | ClientRequestError => "the client request is invalid"
  | ClientUnauthorized => "the client is not authorized"
  | RouteNotFound => "no route can serve this request"
  | CredentialUnavailable => "no credential is available"
  | CredentialUnauthorized => "the credential requires authorization"
  | CredentialForbidden => "the credential is forbidden"
  | CredentialQuotaExceeded => "the credential quota is exhausted"
  | EgressRejected => "the egress path was rejected"
  | EgressUnavailable => "the egress path is unavailable"
  | ProviderRateLimited => "the provider rate limited the request"
  | ProviderTransient => "the provider failed transiently"
  | ProviderPermanent => "the provider returned a permanent failure"
  | TokenCountUnsupported => "the selected route cannot accurately count tokens"
  | UpstreamProtocolError => "the upstream protocol was invalid"
  | StreamTruncated => "the stream ended before completion"
  | InternalError => "the gateway encountered an internal error"
  | Cancelled => "the request was cancelled"
  end.

(** [impl Display for GatewayError]. *)
Definition error_display (e : GatewayError) : string :=
  code_as_str (code e) +:+ " (" +:+ scope_as_str (scope e) +:+ ")".

(** ** Usage totals (canonical_event.rs, gateway_event.rs) *)

(** Provider extensions are opaque raw JSON keyed by field name. *)
Abbreviation RawJson := string.
Abbreviation RawExtensions := (gmap string RawJson).

Inductive RawExtensionError : Type := DuplicateName.

(** [RawExtensions::try_insert]. *)
Definition extensions_try_insert (name : string) (value : RawJson)
  : M RawExtensions RawExtensionError unit :=
  let! fields := get in
  match fields !! name with
  | Some _ => raise DuplicateName
  | None => put (<[name := value]> fields)
  end.

Record Usage : Type := mkUsage {
  input_tokens : option Z;
  output_tokens : option Z;
  reasoning_tokens : option Z;
  cache_read_tokens : option Z;
  cache_creation_tokens : option Z;
  cached_tokens : option Z;
  usage_extensions : RawExtensions;
}.

Record UsageSummary : Type := mkUsageSummary {
  sum_input_tokens : option Z;
  sum_output_tokens : option Z;
  sum_reasoning_tokens : option Z;
  sum_cache_read_tokens : option Z;
  sum_cache_creation_tokens : option Z;
  sum_cached_tokens : option Z;
}.

Definition summary_of_usage (u : Usage) : UsageSummary :=
  {| sum_input_tokens := input_tokens u;
     sum_output_tokens := output_tokens u;
     sum_reasoning_tokens := reasoning_tokens u;
     sum_cache_read_tokens := cache_read_tokens u;
     sum_cache_creation_tokens := cache_creation_tokens u;
     sum_cached_tokens := cached_tokens u |}.

(** ** Gateway events (gateway_event.rs) *)

Inductive GatewayProtocol : Type :=
| OpenAiChatCompletions | OpenAiResponses | AnthropicMessages.

Inductive GatewayEventPriority : Type := PriorityRequired | PriorityDiagnostic.

Inductive EventEmission : Type :=
| Enqueued | EmissionDisabled | RequiredQueueFull | DiagnosticDropped | SinkClosed.

Record RequestEvent : Type := mkRequestEvent {
  re_request_id : RequestId;
  re_client_key_id : ClientKeyId;
  re_access_group_id : option AccessGroupId;
  re_protocol : GatewayProtocol;
  re_requested_model : string;
  re_public_model : string;
  re_route_alias : option string;
  re_streaming : bool;
}.

Inductive AttemptOutcome : Type :=
| Succeeded
| Failed (e : GatewayError).

Inductive AttemptRetryDecision : Type :=
| Completed | RetryEligible | NonRetryableDecision | RetryClosed
| CancelledDecision | InfrastructureFailure.

Record AttemptEvent : Type := mkAttemptEvent {
  ae_request_id : RequestId;
  ae_attempt_id : AttemptId;
  ae_attempt_number : N;
  ae_route_id : RouteId;
  ae_route_candidate_id : RouteCandidateId;
  ae_credential_id : CredentialId;
  ae_endpoint_id : EndpointId;
  ae_upstream_id : UpstreamId;
  ae_upstream_model : string;
  ae_started_at_ms : Z;
  ae_ended_at_ms : Z;
  ae_outcome : AttemptOutcome;
  ae_retry_decision : AttemptRetryDecision;
}.

(** [AttemptEvent::new] derives the Attempt identity itself. *)
Definition attempt_event_new (request_id : RequestId) (attempt_number : N)
    (route_id : RouteId) (candidate : RouteCandidateId) (credential : CredentialId)
    (endpoint : EndpointId) (upstream : UpstreamId) (upstream_model : string)
    (started_at_ms ended_at_ms : Z) (outcome : AttemptOutcome)
    (decision : AttemptRetryDecision) : AttemptEvent :=
  {| ae_request_id := request_id;
     ae_attempt_id := from_request_sequence request_id attempt_number;
     ae_attempt_number := attempt_number;
     ae_route_id := route_id;
     ae_route_candidate_id := candidate;
     ae_credential_id := credential;
     ae_endpoint_id := endpoint;
     ae_upstream_id := upstream;
     ae_upstream_model := upstream_model;
     ae_started_at_ms := started_at_ms;
     ae_ended_at_ms := ended_at_ms;
     ae_outcome := outcome;
     ae_retry_decision := decision |}.

Record UsageEvent : Type := mkUsageEvent {
  ue_request_id : RequestId;
  ue_response_id : ResponseId;
  ue_usage : UsageSummary;
}.

Definition usage_event_from_usage (request_id : RequestId) (response_id : ResponseId)
    (usage : Usage) : UsageEvent :=
  {| ue_request_id := request_id;
     ue_response_id := response_id;
     ue_usage := summary_of_usage usage |}.

Inductive HealthEventKind : Type :=
| ProbeSucceeded | ProbeFailed | CircuitOpened | CircuitRecovered.

Record HealthEvent : Type := mkHealthEvent {
  he_health_event_id : HealthEventId;
  he_endpoint_id : EndpointId;
  he_credential_id : option CredentialId;
  he_upstream_model : option string;
  he_occurred_at_ms : Z;
  he_kind : HealthEventKind;
}.

Record DiagnosticEvent : Type := mkDiagnosticEvent { de_error : GatewayError }.

Inductive GatewayEvent : Type :=
| EvRequest (e : RequestEvent)
| EvAttempt (e : AttemptEvent)
| EvUsage (e : UsageEvent)
| EvHealth (e : HealthEvent)
| EvDiagnostic (e : DiagnosticEvent).

Definition priority (e : GatewayEvent) : GatewayEventPriority :=
  match e with
  | EvRequest _ | EvAttempt _ | EvUsage _ | EvHealth _ => PriorityRequired
  | EvDiagnostic _ => PriorityDiagnostic
  end.

(** ** Lemmas *)

(** The rendered prefix of an Attempt identity is read back one separator at a
    time: a separator that does not occur in the left parts splits uniquely. *)
Fixpoint has_char (c : ascii) (s : string) : bool :=
  match s with
  | EmptyString => false
  | String a s' => bool_decide (a = c) || has_char c s'
  end.

Lemma split_at_char (c : ascii) (a b x y : string) :
  has_char c a = false -> has_char c b = false ->
  a +:+ String c x = b +:+ String c y -> a = b /\ x = y.
Proof.
  revert b. induction a as [|ca a IH]; intros [|cb b]; simpl; intros Ha Hb Heq.
  - by injection Heq.
  - injection Heq as <- _. by rewrite bool_decide_true in Hb by done.
  - injection Heq as -> _. by rewrite bool_decide_true in Ha by done.
  - apply orb_false_iff in Ha as [_ Ha]. apply orb_false_iff in Hb as [_ Hb].
    injection Heq as -> Heq. destruct (IH b Ha Hb Heq) as [-> ->]. done.
Qed.

Lemma app_same_length (a b x y : string) :
  String.length a = String.length b -> a +:+ x = b +:+ y -> a = b /\ x = y.
Proof.
  revert b. induction a as [|ca a IH]; intros [|cb b]; simpl; intros Hl Heq; try done.
  injection Heq as -> Heq. injection Hl as Hl. destruct (IH b Hl Heq) as [-> ->]. done.
Qed.

Lemma pretty_N_go_no_colon (n : N) (s : string) :
  has_char ":" s = false -> has_char ":" (pretty_N_go n s) = false.
Proof.
  revert s. induction (N.lt_wf_0 n) as [n _ IH]. intros s Hs.
  destruct (decide (n = 0%N)) as [->|Hn]; [done|].
  rewrite pretty_N_go_step by lia. apply IH; [apply N.div_lt; lia|].
  simpl. rewrite Hs, orb_false_r. unfold pretty_N_char.
  by repeat case_match.
Qed.

Lemma pretty_N_no_colon (n : N) : has_char ":" (pretty n) = false.
Proof. unfold pretty, pretty_N. case_decide; [done|]. by apply pretty_N_go_no_colon. Qed.

(** the Attempt identity derived from a Request and its attempt number
    determines both, whatever bytes the Request identifier contains: two
    different (Request, number) pairs never render to the same durable id. *)
Lemma attempt_id_injective (r1 r2 : RequestId) (n1 n2 : N) :
  from_request_sequence r1 n1 = from_request_sequence r2 n2 -> r1 = r2 /\ n1 = n2.
Proof.
  destruct r1 as [a], r2 as [b]. unfold from_request_sequence. simpl. intros Heq.
  injection Heq as Heq.
  apply split_at_char in Heq as [Hlen Heq]; [|apply pretty_N_no_colon..].
  apply pretty_N_inj, Nat2N.inj in Hlen.
  apply app_same_length in Heq as [-> Heq]; [|done].
  injection Heq as Heq. split; [done|]. by apply pretty_N_inj.
Qed.
