(* ===== verification/CanonicalRequests.v ===== *)
(** * Canonical requests

    Models the request types of [crates/gateway-core/src]: messages and their
    content ([message.rs]), Tool declarations ([tool.rs]), thinking
    ([thinking.rs]), the request itself ([canonical_request.rs]), its context
    ([request_context.rs]) and exact token counts ([token_count.rs]). *)

From S2P Require Import Prelude Core.
Local Open Scope string_scope.
Local Open Scope list_scope.

(** [MessageRole] is a transparent newtype over its label. *)
Definition MessageRole : Type := string.

Record TextContent : Type := mkText {
  tx_text : string;
  tx_extensions : RawExtensions;
}.

Record ToolCall : Type := mkToolCall {
  tc_id : string;
  tc_name : string;
  tc_arguments : RawJson;
  tc_extensions : RawExtensions;
}.

Record ToolResult : Type := mkToolResult {
  tr_call_id : string;
  tr_output : RawJson;
  tr_is_error : bool;
  tr_extensions : RawExtensions;
}.

Record OpaqueContent : Type := mkOpaque {
  op_raw : RawJson;
  op_extensions : RawExtensions;
}.

(** [OpaqueContent::new]. *)
Definition opaque_new (raw : RawJson) : OpaqueContent := mkOpaque raw ∅.

Inductive MessageContent : Type :=
| MText (t : TextContent)
| MToolCall (c : ToolCall)
| MToolResult (r : ToolResult)
| MOpaque (o : OpaqueContent).

Record CanonicalMessage : Type := mkMessage {
  msg_role : MessageRole;
  msg_content : list MessageContent;
  msg_extensions : RawExtensions;
}.

Record ToolDefinition : Type := mkTool {
  tool_name : string;
  tool_description : option string;
  tool_input_schema : RawJson;
  tool_extensions : RawExtensions;
}.

Inductive InvalidThinkingEffort : Type := EffortEmpty.

Record ThinkingEffort : Type := mkEffort { effort_as_str : string }.

Definition effort_try_new (value : string) : result InvalidThinkingEffort ThinkingEffort :=
  if bool_decide (value = "") then Err EffortEmpty else Ok (mkEffort value).

Record Thinking : Type := mkThinking {
  effort : ThinkingEffort;
  th_extensions : RawExtensions;
}.

Record CanonicalRequest : Type := mkRequest {
  requested_model : string;
  messages : list CanonicalMessage;
  tools : list ToolDefinition;
  thinking : option Thinking;
  prompt_cache_key : option string;
  prompt_cache_retention : option string;
  extensions : RawExtensions;
}.

(** [RawExtensions::iter]: a [BTreeMap] in key order. *)
Definition ext_iter (e : RawExtensions) : list (string * RawJson) :=
  sort_by (fun a b => String.leb a.1 b.1) (map_to_list e).

Lemma ext_iter_elem (e : RawExtensions) name raw : (name, raw) ∈ ext_iter e <-> e !! name = Some raw.
Proof. unfold ext_iter. rewrite sort_by_perm. apply elem_of_map_to_list. Qed.

Lemma ext_iter_nodup (e : RawExtensions) : NoDup (ext_iter e).*1.
Proof. unfold ext_iter. rewrite sort_by_perm. apply NoDup_fst_map_to_list. Qed.

(** [RequestContext] and [ExactInputTokenCount] wrap one value each. *)
Record RequestContext : Type := mkContext { ctx_request_id : RequestId }.
Record ExactInputTokenCount : Type := mkTokenCount { count_input_tokens : Z }.
