(* ===== verification/CanonicalEvents.v ===== *)
(** * Canonical event lifecycle

    Models [crates/gateway-core/src/canonical_event.rs]: the protocol-neutral
    events of one response, [CanonicalEventState] (the validator every stream
    end runs) and [CanonicalResponse::try_new]. *)

From S2P Require Import Prelude Core.
Local Open Scope string_scope.
Local Open Scope list_scope.

(** ** Events *)

Record ResponseStart : Type := mkResponseStart {
  rs_response_id : ResponseId;
  rs_extensions : RawExtensions;
}.
Record MessageStart : Type := mkMessageStart {
  ms_role : string;
  ms_extensions : RawExtensions;
}.
Record TextDelta : Type := mkTextDelta {
  td_text : string;
  td_extensions : RawExtensions;
}.
Record ReasoningDelta : Type := mkReasoningDelta {
  rd_text : string;
  rd_extensions : RawExtensions;
}.
Record ToolCallStart : Type := mkToolCallStart {
  ts_call_id : string;
  ts_name : string;
  ts_extensions : RawExtensions;
}.
Record ToolCallArgumentsDelta : Type := mkToolCallArgumentsDelta {
  ta_call_id : string;
  ta_delta : string;
  ta_extensions : RawExtensions;
}.
Record ToolCallEnd : Type := mkToolCallEnd {
  te_call_id : string;
  te_arguments : RawJson;
  te_extensions : RawExtensions;
}.
Record UsageDelta : Type := mkUsageDelta {
  ud_usage : Usage;
  ud_is_final : bool;
  ud_extensions : RawExtensions;
}.
Record MessageEnd : Type := mkMessageEnd { me_extensions : RawExtensions }.
Record ResponseEnd : Type := mkResponseEnd {
  stop_reason : option string;
  stop_sequence : option string;
  re_extensions : RawExtensions;
}.
Record StreamError : Type := mkStreamError { se_error : GatewayError }.

Inductive CanonicalEvent : Type :=
| EResponseStart (e : ResponseStart)
| EMessageStart (e : MessageStart)
| ETextDelta (e : TextDelta)
| EReasoningDelta (e : ReasoningDelta)
| EToolCallStart (e : ToolCallStart)
| EToolCallArgumentsDelta (e : ToolCallArgumentsDelta)
| EToolCallEnd (e : ToolCallEnd)
| EUsageDelta (e : UsageDelta)
| EMessageEnd (e : MessageEnd)
| EResponseEnd (e : ResponseEnd)
| EStreamError (e : StreamError).

(** ** Validator state *)

Inductive ToolCallLifecycle : Type := Declared | ArgumentsStreaming | Emitted.
Inductive UsageLifecycle : Type := NotReported | Interim | Final.

#[export] Instance ToolCallLifecycle_eq_dec : EqDecision ToolCallLifecycle.
Proof. solve_decision. Defined.
#[export] Instance UsageLifecycle_eq_dec : EqDecision UsageLifecycle.
Proof. solve_decision. Defined.

Record OpenResponse : Type := mkOpen {
  message_open : bool;
  tool_calls : gmap string ToolCallLifecycle;
  usage : UsageLifecycle;
}.

Definition open_default : OpenResponse :=
  {| message_open := false; tool_calls := ∅; usage := NotReported |}.

Inductive ResponseLifecycle : Type :=
| LInitial
| LOpen (o : OpenResponse)
| LCompleted
| LFailed (e : GatewayError).

Definition stream_protocol_error : GatewayError := mkError UpstreamProtocolError ScopeStream.
Definition stream_truncated_error : GatewayError := mkError StreamTruncated ScopeStream.

(** ** [impl OpenResponse] *)

Definition has_open_tool_call (o : OpenResponse) : bool :=
  existsb (fun kv => negb (bool_decide (kv.2 = Emitted))) (map_to_list (tool_calls o)).

Definition is_ready_to_end (o : OpenResponse) : bool :=
  negb (message_open o) && negb (has_open_tool_call o).

Abbreviation OpenM A := (M OpenResponse GatewayError A).

Definition set_message_open (b : bool) (o : OpenResponse) : OpenResponse :=
  {| message_open := b; tool_calls := tool_calls o; usage := usage o |}.
Definition set_tool_call (c : string) (l : ToolCallLifecycle) (o : OpenResponse) : OpenResponse :=
  {| message_open := message_open o; tool_calls := <[c := l]> (tool_calls o); usage := usage o |}.
Definition set_usage (u : UsageLifecycle) (o : OpenResponse) : OpenResponse :=
  {| message_open := message_open o; tool_calls := tool_calls o; usage := u |}.

Definition start_tool_call (start : ToolCallStart) : OpenM unit :=
  let! o := get in
  if negb (message_open o) || bool_decide (ts_call_id start = "")
     || bool_decide (ts_name start = "")
     || bool_decide (is_Some (tool_calls o !! ts_call_id start))
  then raise stream_protocol_error
  else put (set_tool_call (ts_call_id start) Declared o).

Definition append_tool_arguments (delta : ToolCallArgumentsDelta) : OpenM unit :=
  let! o := get in
  if negb (message_open o) then raise stream_protocol_error
  else match tool_calls o !! ta_call_id delta with
       | None => raise stream_protocol_error
       | Some Declared => put (set_tool_call (ta_call_id delta) ArgumentsStreaming o)
       | Some ArgumentsStreaming => ret tt
       | Some Emitted => raise stream_protocol_error
       end.

Definition end_tool_call (e : ToolCallEnd) : OpenM unit :=
  let! o := get in
  if negb (message_open o) then raise stream_protocol_error
  else match tool_calls o !! te_call_id e with
       | None => raise stream_protocol_error
       | Some (Declared | ArgumentsStreaming) => put (set_tool_call (te_call_id e) Emitted o)
       | Some Emitted => raise stream_protocol_error
       end.

Definition record_usage (delta : UsageDelta) : OpenM unit :=
  let! o := get in
  if bool_decide (usage o = Final) then raise stream_protocol_error
  else put (set_usage (if ud_is_final delta then Final else Interim) o).

Definition end_message : OpenM unit :=
  let! o := get in
  if negb (message_open o) then raise stream_protocol_error
  else if has_open_tool_call o then raise stream_protocol_error
  else put (set_message_open false o).

(** [OpenResponse::apply]. *)
Definition open_apply (event : CanonicalEvent) : OpenM unit :=
  match event with
  | EMessageStart _ =>
      let! o := get in
      if message_open o then raise stream_protocol_error
      else put (set_message_open true o)
  | ETextDelta d =>
      let! o := get in
      if negb (message_open o) || bool_decide (td_text d = "")
      then raise stream_protocol_error else ret tt
  | EReasoningDelta d =>
      let! o := get in
      if negb (message_open o) || bool_decide (rd_text d = "")
      then raise stream_protocol_error else ret tt
  | EToolCallStart start => start_tool_call start
  | EToolCallArgumentsDelta delta => append_tool_arguments delta
  | EToolCallEnd e => end_tool_call e
  | EUsageDelta delta => record_usage delta
  | EMessageEnd _ => end_message
  | EResponseStart _ | EResponseEnd _ | EStreamError _ => raise stream_protocol_error
  end.

(** ** [impl CanonicalEventState] *)

Definition is_terminal (s : ResponseLifecycle) : bool :=
  match s with
  | LCompleted | LFailed _ => true
  | _ => false
  end.

Definition is_success (s : ResponseLifecycle) : bool :=
  match s with
  | LCompleted => true
  | _ => false
  end.

(** [is_some_and(str::is_empty)]. *)
Definition is_some_empty (o : option string) : bool :=
  match o with
  | Some s => bool_decide (s = "")
  | None => false
  end.

(** [CanonicalEventState::apply]; the branches follow the early returns. *)
Definition apply (event : CanonicalEvent) : M ResponseLifecycle GatewayError unit :=
  let! s := get in
  if is_terminal s then raise stream_protocol_error
  else match s, event with
       | LInitial, EResponseStart _ => put (LOpen open_default)
       | LInitial, _ => raise stream_protocol_error
       | _, EStreamError e => put (LFailed (se_error e))
       | LOpen o, EResponseEnd e =>
           if negb (is_ready_to_end o) then raise stream_truncated_error
           else if is_some_empty (stop_reason e) || is_some_empty (stop_sequence e)
           then raise stream_protocol_error
           else put LCompleted
       | _, EResponseStart _ => raise stream_protocol_error
       | LOpen o, _ =>
           fun _ => match open_apply event o with
                    | (r, o') => (r, LOpen o')
                    end
       | _, _ => raise stream_protocol_error
       end.

Definition finish (s : ResponseLifecycle) : result GatewayError unit :=
  if is_terminal s then Ok tt else Err stream_truncated_error.

Definition require_success (s : ResponseLifecycle) : result GatewayError unit :=
  match s with
  | LCompleted => Ok tt
  | LFailed e => Err e
  | LInitial | LOpen _ => Err stream_truncated_error
  end.

(** The validation loop of [CanonicalResponse::try_new]. *)
Fixpoint apply_all (events : list CanonicalEvent) : M ResponseLifecycle GatewayError unit :=
  match events with
  | [] => ret tt
  | e :: rest => apply e ;;; apply_all rest
  end.

(** [CanonicalResponse::try_new]; a [CanonicalResponse] is its event list. *)
Definition try_new (events : list CanonicalEvent) : result GatewayError (list CanonicalEvent) :=
  match apply_all events LInitial with
  | (Ok _, s) => let? _ := require_success s in Ok events
  | (Err e, _) => Err e
  | (Panic, _) => Panic
  end.

(** ** Abstract specification

    What a complete response promises, said independently of the validator: one
    automaton for message bracketing, one for usage reports and one per Tool
    call, none of which knows about the others. *)

Definition run {S E : Type} (step : S -> E -> option S) : S -> list E -> option S :=
  fix go s es := match es with
                 | [] => Some s
                 | e :: rest => s' ← step s e; go s' rest
                 end.

Definition msg_step (in_message : bool) (e : CanonicalEvent) : option bool :=
  match e with
  | EMessageStart _ => if in_message then None else Some true
  | EMessageEnd _ => if in_message then Some false else None
  | ETextDelta _ | EReasoningDelta _ | EToolCallStart _
  | EToolCallArgumentsDelta _ | EToolCallEnd _ => if in_message then Some true else None
  | EUsageDelta _ => Some in_message
  | EResponseStart _ | EResponseEnd _ | EStreamError _ => None
  end.

Definition usage_step (u : UsageLifecycle) (e : CanonicalEvent) : option UsageLifecycle :=
  match e with
  | EUsageDelta d =>
      match u with
      | Final => None
      | _ => Some (if ud_is_final d then Final else Interim)
      end
  | _ => Some u
  end.

(** The life of the call [c]: started once, streamed, ended once, and not left
    open across the end of a message. *)
Definition tool_step (c : string) (st : option ToolCallLifecycle) (e : CanonicalEvent)
  : option (option ToolCallLifecycle) :=
  match e with
  | EToolCallStart s =>
      if bool_decide (ts_call_id s = c)
      then match st with None => Some (Some Declared) | _ => None end else Some st
  | EToolCallArgumentsDelta d =>
      if bool_decide (ta_call_id d = c)
      then match st with
           | Some Declared | Some ArgumentsStreaming => Some (Some ArgumentsStreaming)
           | _ => None
           end else Some st
  | EToolCallEnd d =>
      if bool_decide (te_call_id d = c)
      then match st with
           | Some Declared | Some ArgumentsStreaming => Some (Some Emitted)
           | _ => None
           end else Some st
  | EMessageEnd _ =>
      match st with
      | None | Some Emitted => Some st
      | _ => None
      end
  | _ => Some st
  end.

Definition payload_ok (e : CanonicalEvent) : bool :=
  match e with
  | ETextDelta d => negb (bool_decide (td_text d = ""))
  | EReasoningDelta d => negb (bool_decide (rd_text d = ""))
  | EToolCallStart s =>
      negb (bool_decide (ts_call_id s = "")) && negb (bool_decide (ts_name s = ""))
  | _ => true
  end.

Definition end_ok (e : ResponseEnd) : bool :=
  negb (is_some_empty (stop_reason e)) && negb (is_some_empty (stop_sequence e)).

Definition call_closed (st : option ToolCallLifecycle) : Prop := st = None \/ st = Some Emitted.

Definition complete_body (body : list CanonicalEvent) : Prop :=
  Forall (fun e => payload_ok e = true) body
  /\ run msg_step false body = Some false
  /\ is_Some (run usage_step NotReported body)
  /\ forall c, exists st, run (tool_step c) None body = Some st /\ call_closed st.

(** The events that concern the Tool call [c], in order. *)
Definition mentions_call (c : string) (e : CanonicalEvent) : bool :=
  match e with
  | EToolCallStart s => bool_decide (ts_call_id s = c)
  | EToolCallArgumentsDelta d => bool_decide (ta_call_id d = c)
  | EToolCallEnd d => bool_decide (te_call_id d = c)
  | _ => false
  end.

Definition call_events (c : string) (body : list CanonicalEvent) : list CanonicalEvent :=
  List.filter (mentions_call c) body.

Definition is_delta (e : CanonicalEvent) : Prop :=
  match e with EToolCallArgumentsDelta _ => True | _ => False end.

(** Components of one validator state. *)
Definition follows (o : OpenResponse) (e : CanonicalEvent) (o' : OpenResponse) : Prop :=
  payload_ok e = true
  /\ msg_step (message_open o) e = Some (message_open o')
  /\ usage_step (usage o) e = Some (usage o')
  /\ forall c, tool_step c (tool_calls o !! c) e = Some (tool_calls o' !! c).

(** ** Lemmas *)

Lemma has_open_tool_call_false (o : OpenResponse) :
  has_open_tool_call o = false <-> forall c, call_closed (tool_calls o !! c).
Proof.
  unfold has_open_tool_call, call_closed. split.
  - intros Hex c. destruct (tool_calls o !! c) as [l|] eqn:Hl; [|by left]. right.
    destruct (decide (l = Emitted)) as [->|Hne]; [done|].
    apply elem_of_map_to_list, list_elem_of_In in Hl.
    assert (existsb (fun kv : string * ToolCallLifecycle => negb (bool_decide (kv.2 = Emitted)))
              (map_to_list (tool_calls o)) = true) as Ht; [|congruence].
    apply existsb_exists. exists (c, l). split; [done|]. by rewrite bool_decide_false.
  - intros Hall. apply not_true_iff_false. intros [[c l] [Hin Hl]]%existsb_exists.
    apply list_elem_of_In, elem_of_map_to_list in Hin. simpl in Hl.
    destruct (Hall c) as [Hn|Hn]; rewrite Hn in Hin; by simplify_eq.
Qed.

Lemma open_apply_sound (e : CanonicalEvent) (o o' : OpenResponse) :
  open_apply e o = (Ok tt, o') -> follows o e o'.
Proof.
  destruct o as [m tc u]. unfold follows. intros H.
  destruct e; simpl in *;
    unfold start_tool_call, append_tool_arguments, end_tool_call, record_usage, end_message in H;
    m_cases H.
  all: repeat split; try done.
  all: try (rewrite !bool_decide_false by done; done).
  all: intros c; repeat case_bool_decide; subst; simplify_map_eq; try done.
  - match goal with H : ¬ is_Some _ |- _ => apply eq_None_not_Some in H as -> end. done.
  - match goal with H : has_open_tool_call _ = false |- _ =>
      rewrite has_open_tool_call_false in H; destruct (H c) as [Hc|Hc] end;
      simpl in Hc; by rewrite Hc.
Qed.

Lemma open_apply_complete (e : CanonicalEvent) (o : OpenResponse) (m' : bool) (u' : UsageLifecycle) :
  payload_ok e = true ->
  msg_step (message_open o) e = Some m' ->
  usage_step (usage o) e = Some u' ->
  (forall c, is_Some (tool_step c (tool_calls o !! c) e)) ->
  exists o', open_apply e o = (Ok tt, o').
Proof.
  destruct o as [m tc u]. intros Hp Hm Hu Ht.
  assert (forall c st, tc !! c = st -> is_Some (tool_step c st e)) as Ht' by (intros c st <-; apply Ht).
  destruct e; simpl in *;
    unfold start_tool_call, append_tool_arguments, end_tool_call, record_usage, end_message;
    unfold_m; simpl; repeat (case_match; simplify_eq/=; bool_simp); eauto; exfalso; try discriminate;
    repeat match goal with H : _ || _ = true |- _ => apply orb_true_iff in H as [H|H]; bool_simp end;
    subst; try congruence.
  1: match goal with H : is_Some (_ !! _) |- _ => destruct H end.
  1-5: match goal with H : _ !! _ = _ |- _ => apply Ht' in H end;
    rewrite bool_decide_true in * by done; by eapply is_Some_None.
  match goal with H : has_open_tool_call _ = true |- _ => apply not_false_iff_true in H; apply H end.
  apply has_open_tool_call_false. intros c. unfold call_closed. simpl. specialize (Ht c).
  destruct (tc !! c) as [[]|]; first [by left | by right | by apply is_Some_None in Ht].
Qed.

Lemma run_app {S E} (step : S -> E -> option S) (s : S) (es fs : list E) :
  run step s (es ++ fs) = run step s es ≫= fun s' => run step s' fs.
Proof.
  revert s. induction es as [|e es IH]; intros s; [done|].
  simpl. destruct (step s e); simpl; [apply IH | done].
Qed.

Lemma apply_all_cons_ok (e : CanonicalEvent) (es : list CanonicalEvent) (s s' : ResponseLifecycle) :
  apply_all (e :: es) s = (Ok tt, s') ->
  exists s1, apply e s = (Ok tt, s1) /\ apply_all es s1 = (Ok tt, s').
Proof.
  simpl. unfold bind. destruct (apply e s) as [[[]| |] s1]; naive_solver.
Qed.

Lemma apply_all_terminal (es : list CanonicalEvent) (s s' : ResponseLifecycle) :
  is_terminal s = true -> apply_all es s = (Ok tt, s') -> es = [] /\ s' = s.
Proof.
  intros Hs. destruct es as [|e es]; [by intros [= ->]|].
  intros (s1 & H & _)%apply_all_cons_ok. unfold apply, bind, get in H. by rewrite Hs in H.
Qed.

(** The three ways an open response accepts an event. *)
Lemma apply_open_ok (e : CanonicalEvent) (o : OpenResponse) (s' : ResponseLifecycle) :
  apply e (LOpen o) = (Ok tt, s') ->
  (exists o', s' = LOpen o' /\ open_apply e o = (Ok tt, o'))
  \/ (exists re, e = EResponseEnd re /\ s' = LCompleted
        /\ is_ready_to_end o = true /\ end_ok re = true)
  \/ (exists se, e = EStreamError se /\ s' = LFailed (se_error se)).
Proof.
  intros H. unfold apply, bind, get in H. cbn [is_terminal] in H.
  destruct e as [?|?|?|?|?|?|?|?|?|re|se]; cbv beta iota in H; [by unfold raise in H|..].
  1-8: left; destruct (open_apply _ o) as [r o1]; simplify_eq; by eauto.
  - right; left. exists re. unfold end_ok, raise, put in *.
    by destruct (is_ready_to_end o), (is_some_empty _), (is_some_empty _); simplify_eq/=.
  - right; right. exists se. by injection H as <-.
Qed.

Lemma apply_open_step (e : CanonicalEvent) (o o' : OpenResponse) :
  open_apply e o = (Ok tt, o') -> apply e (LOpen o) = (Ok tt, LOpen o').
Proof.
  intros H. unfold apply, bind, get. simpl. destruct e; try (by rewrite H); by simpl in H.
Qed.

(** One pass of the validator over a body is one pass of every component. *)
Lemma open_run_sound (body : list CanonicalEvent) (o o' : OpenResponse) :
  apply_all body (LOpen o) = (Ok tt, LOpen o') ->
  Forall (fun e => payload_ok e = true) body
  /\ run msg_step (message_open o) body = Some (message_open o')
  /\ run usage_step (usage o) body = Some (usage o')
  /\ forall c, run (tool_step c) (tool_calls o !! c) body = Some (tool_calls o' !! c).
Proof.
  revert o. induction body as [|e body IH]; intros o H.
  - by injection H as ->.
  - apply apply_all_cons_ok in H as (s1 & H1 & H2).
    apply apply_open_ok in H1 as [(o1 & -> & H1) | [(re & -> & -> & _) | (se & -> & ->)]].
    2,3: by apply apply_all_terminal in H2 as [_ ?].
    apply open_apply_sound in H1 as (Hp & Hm & Hu & Ht).
    apply IH in H2 as (HP & HM & HU & HT). simpl. rewrite Hm, Hu. split_and!; auto.
    intros c. rewrite Ht. apply HT.
Qed.

Lemma open_run_complete (body : list CanonicalEvent) (o : OpenResponse) (m' : bool) :
  Forall (fun e => payload_ok e = true) body ->
  run msg_step (message_open o) body = Some m' ->
  is_Some (run usage_step (usage o) body) ->
  (forall c, is_Some (run (tool_step c) (tool_calls o !! c) body)) ->
  exists o', apply_all body (LOpen o) = (Ok tt, LOpen o').
Proof.
  revert o. induction body as [|e body IH]; intros o HP HM HU HT; [by eexists|].
  apply Forall_cons in HP as [Hp HP]. simpl in *.
  destruct (msg_step (message_open o) e) as [m1|] eqn:Hm; [|done].
  destruct (usage_step (usage o) e) as [u1|] eqn:Hu; [|by destruct HU].
  destruct (open_apply_complete e o m1 u1) as [o1 Ho1]; [done..| |].
  { intros c. specialize (HT c). destruct (tool_step c _ e); [done | by destruct HT]. }
  pose proof (open_apply_sound _ _ _ Ho1) as (_ & Hm1 & Hu1 & Ht1).
  destruct (IH o1) as [o' Ho'].
  - done.
  - by simplify_eq.
  - by simplify_eq.
  - intros c. specialize (HT c). rewrite Ht1 in HT. apply HT.
  - exists o'. unfold bind. by rewrite (apply_open_step _ _ _ Ho1).
Qed.

Lemma apply_all_completed (es : list CanonicalEvent) (o : OpenResponse) :
  apply_all es (LOpen o) = (Ok tt, LCompleted) ->
  exists body re o', es = body ++ [EResponseEnd re]
    /\ apply_all body (LOpen o) = (Ok tt, LOpen o')
    /\ is_ready_to_end o' = true /\ end_ok re = true.
Proof.
  revert o. induction es as [|e es IH]; intros o H; [done|].
  apply apply_all_cons_ok in H as (s1 & H1 & H2).
  apply apply_open_ok in H1 as [(o1 & -> & H1) | [(re & -> & -> & Hr & He) | (se & -> & ->)]].
  - destruct (IH o1 H2) as (body & re & o' & -> & Hb & Hr & He).
    exists (e :: body), re, o'. split_and!; [done| |done..].
    simpl. unfold bind. by rewrite (apply_open_step _ _ _ H1).
  - apply apply_all_terminal in H2 as [-> _]; [|done]. by exists [], re, o.
  - by apply apply_all_terminal in H2 as [_ ?].
Qed.

Lemma apply_all_app_ok (es fs : list CanonicalEvent) (s s1 s' : ResponseLifecycle) :
  apply_all es s = (Ok tt, s1) -> apply_all fs s1 = (Ok tt, s') ->
  apply_all (es ++ fs) s = (Ok tt, s').
Proof.
  revert s. induction es as [|e es IH]; intros s H1 H2; [by injection H1 as ->|].
  apply apply_all_cons_ok in H1 as (s2 & He & H1). simpl. unfold bind. rewrite He. by eapply IH.
Qed.

Lemma try_new_sound (events : list CanonicalEvent) :
  try_new events = Ok events ->
  exists rs body re, events = EResponseStart rs :: body ++ [EResponseEnd re]
    /\ end_ok re = true /\ complete_body body.
Proof.
  intros H. unfold try_new in H.
  destruct (apply_all events LInitial) as [[[]| |] s] eqn:Ha; [|done..].
  destruct s; simpl in H; try done.
  destruct events as [|e es]; [done|].
  apply apply_all_cons_ok in Ha as (s1 & H1 & H2). destruct e; try done.
  injection H1 as <-. apply apply_all_completed in H2 as (body & re & o' & -> & Hb & Hr & He).
  exists e, body, re. split_and!; [done..|].
  apply open_run_sound in Hb as (HP & HM & HU & HT). simpl in *.
  apply andb_true_iff in Hr as [Hmo Hto]. bool_simp. rewrite Hmo in HM.
  rewrite has_open_tool_call_false in Hto. split_and!; [done..|by eexists|].
  intros c. exists (tool_calls o' !! c). split; [apply HT | apply Hto].
Qed.

Lemma try_new_complete (events : list CanonicalEvent) :
  (exists rs body re, events = EResponseStart rs :: body ++ [EResponseEnd re]
    /\ end_ok re = true /\ complete_body body) ->
  try_new events = Ok events.
Proof.
  intros (rs & body & re & -> & He & HP & HM & HU & HT).
  destruct (open_run_complete body open_default false) as [o' Hb]; [done..| |].
  { intros c. destruct (HT c) as (st & Hst & _). simpl. rewrite lookup_empty. by exists st. }
  pose proof (open_run_sound _ _ _ Hb) as (_ & HM' & _ & HT').
  assert (is_ready_to_end o' = true) as Hr.
  { unfold is_ready_to_end. apply andb_true_iff; split; apply negb_true_iff.
    - simpl in HM'. congruence.
    - apply has_open_tool_call_false. intros c. destruct (HT c) as (st & Hst & Hc).
      specialize (HT' c). simpl in HT'. rewrite lookup_empty in HT'. congruence. }
  assert (apply_all (body ++ [EResponseEnd re]) (LOpen open_default) = (Ok tt, LCompleted)) as Hrun.
  { eapply apply_all_app_ok; [exact Hb|]. unfold end_ok in He. bool_simp.
    simpl. unfold apply, bind, get. simpl. rewrite Hr. simpl.
    by repeat match goal with H : is_some_empty _ = false |- _ => rewrite H; clear H end. }
  unfold try_new. simpl. unfold bind. simpl. by rewrite Hrun.
Qed.

(** C33: the response validator accepts exactly the complete responses: one
    [ResponseStart], a body in which messages bracket properly, usage is
    reported at most once as final and last, and every Tool call id on its own
    is started once, streamed, ended once inside one message, then one
    well-formed [ResponseEnd] and nothing after it. *)
Theorem try_new_accepts_iff (events : list CanonicalEvent) :
  try_new events = Ok events <->
  exists rs body re, events = EResponseStart rs :: body ++ [EResponseEnd re]
    /\ end_ok re = true /\ complete_body body.
Proof.
  split; [apply try_new_sound | apply try_new_complete].
Qed.

(** Runs of the automaton of one call, read off the events of that call. *)
Lemma tool_run_emitted (c : string) (body : list CanonicalEvent) (st : option ToolCallLifecycle) :
  run (tool_step c) (Some Emitted) body = Some st -> call_events c body = [] /\ st = Some Emitted.
Proof.
  induction body as [|e body IH]; simpl; intros H; [by simplify_eq|].
  destruct e; simpl in *; try case_bool_decide; simpl in *; auto; done.
Qed.

Lemma tool_run_open (c : string) (body : list CanonicalEvent) (l : ToolCallLifecycle)
    (st : option ToolCallLifecycle) :
  l <> Emitted -> call_closed st -> run (tool_step c) (Some l) body = Some st ->
  exists deltas te, call_events c body = deltas ++ [EToolCallEnd te]
    /\ Forall is_delta deltas /\ te_call_id te = c.
Proof.
  intros Hl Hst. revert l Hl. induction body as [|e body IH]; simpl; intros l Hl H.
  { simplify_eq. by destruct Hst; simplify_eq. }
  destruct e; simpl in *; try case_bool_decide; simpl in *; eauto; try done.
  all: destruct l; simpl in *; try done.
  3,4: apply tool_run_emitted in H as [Hc _]; rewrite Hc; exists [], e; by subst.
  1,2: destruct (IH ArgumentsStreaming) as (deltas & te & -> & ? & ?); [done..|];
    exists (EToolCallArgumentsDelta e :: deltas), te; split_and!; auto; by constructor.
Qed.

Lemma tool_run_fresh (c : string) (body : list CanonicalEvent) (st : option ToolCallLifecycle) :
  call_closed st -> run (tool_step c) None body = Some st ->
  call_events c body = []
  \/ exists ts deltas te, call_events c body = EToolCallStart ts :: deltas ++ [EToolCallEnd te]
       /\ ts_call_id ts = c /\ Forall is_delta deltas /\ te_call_id te = c.
Proof.
  intros Hst. induction body as [|e body IH]; simpl; intros H; [by left|].
  destruct e; simpl in *; try case_bool_decide; simpl in *; eauto; try done.
  right. destruct (tool_run_open c body Declared st) as (deltas & te & -> & ? & ?); [done..|].
  by exists e, deltas, te.
Qed.

(** in an accepted response the events of one Tool call, taken out of the
    interleaving with all others, are nothing or exactly one start, its argument
    fragments and one end, in that order. *)
Lemma accepted_tool_call_shape (events : list CanonicalEvent) (c : string) :
  try_new events = Ok events ->
  call_events c events = []
  \/ exists ts deltas te, call_events c events = EToolCallStart ts :: deltas ++ [EToolCallEnd te]
       /\ ts_call_id ts = c /\ Forall is_delta deltas /\ te_call_id te = c.
Proof.
  intros (rs & body & re & -> & _ & _ & _ & _ & HT)%try_new_sound.
  destruct (HT c) as (st & Hst & Hc). unfold call_events. simpl.
  rewrite List.filter_app. simpl. rewrite app_nil_r. by eapply tool_run_fresh.
Qed.

Lemma open_apply_error (e : CanonicalEvent) (o o' : OpenResponse) (r : result GatewayError unit) :
  open_apply e o = (r, o') ->
  (r = Ok tt) \/ (r = Err stream_protocol_error /\ o' = o).
Proof.
  intros H. destruct e; simpl in H;
    unfold start_tool_call, append_tool_arguments, end_tool_call, record_usage, end_message in H;
    m_cases H; auto.
Qed.

(** a rejected event leaves the validator where it was, never panics, and is
    reported as an upstream protocol violation, except a [ResponseEnd] that leaves
    a message or a Tool call open, which is reported as truncation. *)
Lemma apply_rejects_atomically (e : CanonicalEvent) (s s' : ResponseLifecycle)
    (r : result GatewayError unit) :
  apply e s = (r, s') -> r <> Ok tt ->
  s' = s /\
  (r = Err stream_protocol_error
   \/ (r = Err stream_truncated_error
       /\ exists o re, s = LOpen o /\ e = EResponseEnd re /\ is_ready_to_end o = false)).
Proof.
  intros H Hr. unfold apply, bind, get, raise, put in H.
  destruct s as [|o| |err]; cbn [is_terminal] in H; [|..|by simplify_eq; auto|by simplify_eq; auto].
  { destruct e; simplify_eq; auto. }
  destruct e; cbv beta iota in H; [by simplify_eq; auto|..|by simplify_eq].
  1-8: destruct (open_apply _ o) as [r1 o1] eqn:Ho; simplify_eq;
    apply open_apply_error in Ho as [->|[-> ->]]; by auto.
  destruct (is_ready_to_end o) eqn:Ho; simpl in H; [|by simplify_eq; eauto 10].
  destruct (_ || _); simplify_eq; auto.
Qed.

(** ** Witnesses *)

Definition sample_response : list CanonicalEvent :=
  [ EResponseStart (mkResponseStart (mkId "resp-1") ∅);
    EMessageStart (mkMessageStart "assistant" ∅);
    ETextDelta (mkTextDelta "hi" ∅);
    EToolCallStart (mkToolCallStart "call-1" "lookup" ∅);
    EToolCallStart (mkToolCallStart "call-2" "search" ∅);
    EToolCallArgumentsDelta (mkToolCallArgumentsDelta "call-1" "{" ∅);
    EUsageDelta (mkUsageDelta (mkUsage (Some 3%Z) None None None None None ∅) false ∅);
    EToolCallEnd (mkToolCallEnd "call-2" "{}" ∅);
    EToolCallArgumentsDelta (mkToolCallArgumentsDelta "call-1" "}" ∅);
    EToolCallEnd (mkToolCallEnd "call-1" "{}" ∅);
    EMessageEnd (mkMessageEnd ∅);
    EResponseEnd (mkResponseEnd (Some "tool_use") None ∅) ].

Lemma accepted_tool_call_shape_witness :
  try_new sample_response = Ok sample_response
  /\ length (call_events "call-1" sample_response) = 4
  /\ (call_events "call-1" sample_response = []
      \/ exists ts deltas te,
           call_events "call-1" sample_response = EToolCallStart ts :: deltas ++ [EToolCallEnd te]
           /\ ts_call_id ts = "call-1" /\ Forall is_delta deltas /\ te_call_id te = "call-1").
Proof.
  split; [vm_compute; reflexivity|]. split; [vm_compute; reflexivity|].
  apply accepted_tool_call_shape. vm_compute. reflexivity.
Defined.

Definition sample_open : ResponseLifecycle := LOpen (mkOpen true ∅ NotReported).
Definition sample_end : CanonicalEvent := EResponseEnd (mkResponseEnd None None ∅).

Lemma apply_rejects_atomically_witness :
  sample_open = sample_open /\
  (@Err GatewayError unit stream_truncated_error = Err stream_protocol_error
   \/ (@Err GatewayError unit stream_truncated_error = Err stream_truncated_error
       /\ exists o re, sample_open = LOpen o /\ sample_end = EResponseEnd re
                        /\ is_ready_to_end o = false)).
Proof.
  apply (apply_rejects_atomically sample_end sample_open sample_open);
    [vm_compute; reflexivity | discriminate].
Defined.
