(* ===== verification/Stream.v ===== *)
(** * Bounded canonical-event streams

    Models [crates/gateway-stream/src/lib.rs] and the [TransparentRetryGate] port
    of [crates/gateway-core/src/retry_gate.rs]: the single producer that validates
    before it enqueues, the bounded queue, the consumer that validates again, the
    cancellation token and the first-semantic-event tracker.

    An [async fn] is modelled by one poll of its future: [Pending] leaves the
    state alone, and a later poll starts from the state it finds then.  The checks
    before the [select!] read only what the future borrows exclusively and the
    cancellation flag, which the biased [select!] reads again first, so repeating
    them at every poll changes nothing.  Producer, consumer and the holders of
    control handles interleave poll by poll in [stream_step].

    [tokio]'s [mpsc] channel is its documented behaviour: a bounded FIFO whose
    [send] fails once the receiver is gone and whose [recv] returns [None] once
    every sender is gone and the queue is empty. *)

From S2P Require Import Prelude Core CanonicalEvents.
Local Open Scope string_scope.
Local Open Scope list_scope.
Local Open Scope Z_scope.

(** ** Capacity *)

Inductive StreamCapacityError : Type := CapacityZero | CapacityTooLarge.

Record StreamCapacity : Type := mkCapacity { capacity_get : Z }.

(** [Semaphore::MAX_PERMITS] is [usize::MAX >> 3]. *)
Definition MAX_PERMITS : Z := Z.shiftr (usize_modulus - 1) 3.

Definition capacity_try_new (value : Z) : result StreamCapacityError StreamCapacity :=
  if value =? 0 then Err CapacityZero
  else if MAX_PERMITS <? value then Err CapacityTooLarge
  else Ok (mkCapacity value).

(** ** Shared control *)

Inductive FirstSemanticEvent : Type := First | AlreadyCommitted.
Inductive FirstSemanticEventWait : Type := WaitDelivered | WaitCancelled.

Record StreamControl : Type := mkControl {
  cancelled_flag : bool;
  committed : bool;
}.

Definition control_default : StreamControl := mkControl false false.

(** [FirstSemanticEventTracker::mark_delivered]: an atomic swap. *)
Definition mark_delivered (event : CanonicalEvent) (c : StreamControl) : FirstSemanticEvent * StreamControl :=
  (if committed c then AlreadyCommitted else First, mkControl (cancelled_flag c) true).

Definition is_committed (c : StreamControl) : bool := committed c.
Definition is_uncommitted (c : StreamControl) : bool := negb (is_committed c).

Definition cancel (c : StreamControl) : StreamControl := mkControl true (committed c).
Definition is_cancelled (c : StreamControl) : bool := cancelled_flag c.

Definition allows_transparent_retry (c : StreamControl) : bool :=
  negb (is_cancelled c) && is_uncommitted c.

Inductive Poll (A : Type) : Type := Ready (a : A) | Pending.
Arguments Ready {A} a.
Arguments Pending {A}.

(** One poll of the biased wait. *)
Definition wait_for_first_semantic_event_or_cancellation (c : StreamControl) : Poll FirstSemanticEventWait :=
  if is_cancelled c then Ready WaitCancelled
  else if is_committed c then Ready WaitDelivered
  else Pending.

(** ** Sender and receiver *)

Record CanonicalEventSender : Type := mkSender {
  sender_open : bool;                 (* [sender: Option<_>] is [Some] *)
  sender_state : ResponseLifecycle;
  sender_alive : bool;                (* not dropped yet *)
}.

Record CanonicalEventStream : Type := mkStream {
  stream_state : ResponseLifecycle;
  finished : bool;
  stream_alive : bool;
}.

(** The two ends, the queue between them and what they share. *)
Record Channel : Type := mkChannel {
  capacity : StreamCapacity;
  queue : list CanonicalEvent;
  sender : CanonicalEventSender;
  stream : CanonicalEventStream;
  control : StreamControl;
}.

Definition bounded_canonical_stream (cap : StreamCapacity) : Channel :=
  mkChannel cap [] (mkSender true LInitial true) (mkStream LInitial false true) control_default.

Definition request_cancelled_error : GatewayError := mkError Cancelled ScopeRequest.

Definition with_control (f : StreamControl -> StreamControl) (ch : Channel) : Channel :=
  mkChannel (capacity ch) (queue ch) (sender ch) (stream ch) (f (control ch)).

Definition enqueue (event : CanonicalEvent) (next_state : ResponseLifecycle) (ch : Channel) : Channel :=
  mkChannel (capacity ch) (queue ch ++ [event])
    (mkSender (negb (is_terminal next_state)) next_state (sender_alive (sender ch)))
    (stream ch) (control ch).

(** [CanonicalEventSender::send]. *)
Definition send (event : CanonicalEvent) (ch : Channel) : Poll (result GatewayError unit) * Channel :=
  if is_cancelled (control ch) then (Ready (Err request_cancelled_error), ch)
  else match apply event (sender_state (sender ch)) with
       | (Err e, _) => (Ready (Err e), ch)
       | (Panic, _) => (Ready Panic, ch)
       | (Ok _, next_state) =>
           if negb (sender_open (sender ch)) then (Ready (Err stream_protocol_error), ch)
           else if negb (stream_alive (stream ch)) then (Ready (Err request_cancelled_error), ch)
           else if Z.of_nat (length (queue ch)) <? capacity_get (capacity ch)
           then (Ready (Ok tt), enqueue event next_state ch)
           else (Pending, ch)
       end.

(** [CanonicalEventStream::receive]. *)
Definition receive (event : option CanonicalEvent)
  : M CanonicalEventStream GatewayError (option CanonicalEvent) :=
  fun st =>
    match event with
    | None =>
        let st' := mkStream (stream_state st) true (stream_alive st) in
        match finish (stream_state st) with
        | Ok _ => (Ok None, st')
        | Err e => (Err e, st')
        | Panic => (Panic, st')
        end
    | Some e =>
        match apply e (stream_state st) with
        | (Ok _, next) => (Ok (Some e), mkStream next (is_terminal next) (stream_alive st))
        | (Err error, next) => (Err error, mkStream next true (stream_alive st))
        | (Panic, next) => (Panic, mkStream next true (stream_alive st))
        end
    end.

Definition sender_closed (ch : Channel) : bool := negb (sender_alive (sender ch) && sender_open (sender ch)).

Definition received_from (rest : list CanonicalEvent) (event : option CanonicalEvent) (ch : Channel)
  : Poll (result GatewayError (option CanonicalEvent)) * Channel :=
  match receive event (stream ch) with
  | (r, st') => (Ready r, mkChannel (capacity ch) rest (sender ch) st' (control ch))
  end.

(** [CanonicalEventStream::recv]. *)
Definition recv (ch : Channel) : Poll (result GatewayError (option CanonicalEvent)) * Channel :=
  if finished (stream ch) then (Ready (Ok None), ch)
  else if is_cancelled (control ch) then
    (Ready (Err request_cancelled_error),
     mkChannel (capacity ch) (queue ch) (sender ch)
       (mkStream (stream_state (stream ch)) true (stream_alive (stream ch))) (control ch))
  else match queue ch with
       | event :: rest => received_from rest (Some event) ch
       | [] => if sender_closed ch then received_from [] None ch else (Pending, ch)
       end.

(** [Drop for CanonicalEventStream]; dropping the receiver discards the queue. *)
Definition drop_stream (ch : Channel) : Channel :=
  mkChannel (capacity ch) [] (sender ch)
    (mkStream (stream_state (stream ch)) (finished (stream ch)) false)
    (if is_terminal (stream_state (stream ch)) then control ch else cancel (control ch)).

Definition drop_sender (ch : Channel) : Channel :=
  mkChannel (capacity ch) (queue ch) (mkSender (sender_open (sender ch)) (sender_state (sender ch)) false)
    (stream ch) (control ch).

(** ** Interleaving *)

Inductive Label : Type :=
| LSend (event : CanonicalEvent) (r : result GatewayError unit)
| LRecv (r : result GatewayError (option CanonicalEvent))
| LDeliver (event : CanonicalEvent) (first : FirstSemanticEvent)
| LCancel
| LDropSender
| LDropStream.

Inductive stream_step : Channel -> Label -> Channel -> Prop :=
| step_send ch event r ch' :
    sender_alive (sender ch) = true -> send event ch = (Ready r, ch') -> stream_step ch (LSend event r) ch'
| step_recv ch r ch' :
    stream_alive (stream ch) = true -> recv ch = (Ready r, ch') -> stream_step ch (LRecv r) ch'
| step_deliver ch event :
    stream_step ch (LDeliver event (mark_delivered event (control ch)).1)
      (with_control (fun c => (mark_delivered event c).2) ch)
| step_cancel ch : stream_step ch LCancel (with_control cancel ch)
| step_drop_sender ch :
    sender_alive (sender ch) = true -> stream_step ch LDropSender (drop_sender ch)
| step_drop_stream ch :
    stream_alive (stream ch) = true -> stream_step ch LDropStream (drop_stream ch).

(** Runs, latest step last. *)
Inductive stream_run (ch0 : Channel) : list Label -> Channel -> Prop :=
| run_start : stream_run ch0 [] ch0
| run_step trace ch label ch' :
    stream_run ch0 trace ch -> stream_step ch label ch' -> stream_run ch0 (trace ++ [label]) ch'.

(** What a trace shows to the outside. *)
Definition sent (trace : list Label) : list CanonicalEvent :=
  omap (fun l => match l with LSend e (Ok _) => Some e | _ => None end) trace.
Definition received (trace : list Label) : list CanonicalEvent :=
  omap (fun l => match l with LRecv (Ok (Some e)) => Some e | _ => None end) trace.
Definition failed_receives (trace : list Label) : list GatewayError :=
  omap (fun l => match l with LRecv (Err e) => Some e | _ => None end) trace.
Definition first_deliveries (trace : list Label) : list CanonicalEvent :=
  omap (fun l => match l with LDeliver e First => Some e | _ => None end) trace.

(** ** Invariant of runs *)

(** Why a receive failed: cancellation was requested, or the producer went away
    early and everything it sent was received. *)
Definition failure_explained (trace : list Label) (ch : Channel) (e : GatewayError) : Prop :=
  e = request_cancelled_error /\ is_cancelled (control ch) = true
  \/ e = stream_truncated_error /\ sender_alive (sender ch) = false /\ sent trace = received trace
     /\ is_terminal (stream_state (stream ch)) = false.

Record run_inv (cap : StreamCapacity) (trace : list Label) (ch : Channel) : Prop := {
  inv_capacity : capacity ch = cap;
  inv_bound : Z.of_nat (length (queue ch)) <= capacity_get cap;
  inv_sender : apply_all (sent trace) LInitial = (Ok tt, sender_state (sender ch));
  inv_open : sender_open (sender ch) = negb (is_terminal (sender_state (sender ch)));
  inv_stream : apply_all (received trace) LInitial = (Ok tt, stream_state (stream ch));
  inv_flow : exists lost, sent trace = received trace ++ queue ch ++ lost
    /\ (stream_alive (stream ch) = true -> lost = []);
  inv_terminal : is_terminal (stream_state (stream ch)) = true -> finished (stream ch) = true;
  inv_finished : finished (stream ch) = true ->
    is_terminal (stream_state (stream ch)) = true /\ failed_receives trace = []
    \/ exists e, failed_receives trace = [e] /\ failure_explained trace ch e;
  inv_unfinished : finished (stream ch) = false -> failed_receives trace = [];
  inv_first : length (first_deliveries trace) = if committed (control ch) then 1%nat else 0%nat;
}.

Lemma apply_all_app_inv es fs s s' :
  apply_all (es ++ fs) s = (Ok tt, s') ->
  exists s1, apply_all es s = (Ok tt, s1) /\ apply_all fs s1 = (Ok tt, s').
Proof.
  revert s. induction es as [|e es IH]; intros s; simpl; [by exists s|].
  unfold bind. destruct (apply e s) as [[[]| |] s1]; [|done..]. intros H. by apply IH.
Qed.

Lemma apply_all_one e s : apply_all [e] s = apply e s.
Proof. simpl. unfold bind, ret. by destruct (apply e s) as [[[]| |] s1]. Qed.

(** A pending poll changes nothing. *)
Lemma pending_send event ch ch' : send event ch = (Pending, ch') -> ch' = ch.
Proof. unfold send. repeat case_match; by intros [=]. Qed.

Lemma pending_recv ch ch' : recv ch = (Pending, ch') -> ch' = ch.
Proof. unfold recv, received_from. repeat case_match; by intros [=]. Qed.

(** What a finished send did. *)
Lemma send_inv event ch r ch' :
  send event ch = (Ready r, ch') ->
  (r = Ok tt /\ exists next, apply event (sender_state (sender ch)) = (Ok tt, next)
     /\ sender_open (sender ch) = true /\ stream_alive (stream ch) = true
     /\ is_cancelled (control ch) = false
     /\ Z.of_nat (length (queue ch)) < capacity_get (capacity ch) /\ ch' = enqueue event next ch)
  \/ (ch' = ch /\ r <> Ok tt).
Proof.
  unfold send. destruct (is_cancelled (control ch)); [intros [= <- <-]; by right|].
  destruct (apply event (sender_state (sender ch))) as [[[]|e|] next]; [|intros [= <- <-]; by right..].
  destruct (sender_open (sender ch)); simpl; [|intros [= <- <-]; by right].
  destruct (stream_alive (stream ch)); simpl; [|intros [= <- <-]; by right].
  destruct (_ <? _) eqn:Hlt; [|done]. intros [= <- <-]. left. split; [done|]. exists next. by apply Z.ltb_lt in Hlt.
Qed.

Lemma traced_snoc trace l :
  sent (trace ++ [l]) = sent trace ++ sent [l]
  /\ received (trace ++ [l]) = received trace ++ received [l]
  /\ failed_receives (trace ++ [l]) = failed_receives trace ++ failed_receives [l]
  /\ first_deliveries (trace ++ [l]) = first_deliveries trace ++ first_deliveries [l].
Proof. unfold sent, received, failed_receives, first_deliveries. by rewrite !omap_app. Qed.

Definition with_stream (rest : list CanonicalEvent) (st : CanonicalEventStream) (ch : Channel) : Channel :=
  mkChannel (capacity ch) rest (sender ch) st (control ch).

(** In a reachable state the consumer's own validation never rejects an event. *)
Lemma recv_inv cap trace ch r ch' :
  run_inv cap trace ch -> stream_alive (stream ch) = true -> recv ch = (Ready r, ch') ->
  (finished (stream ch) = true /\ r = Ok None /\ ch' = ch)
  \/ finished (stream ch) = false /\
     ((is_cancelled (control ch) = true /\ r = Err request_cancelled_error
       /\ ch' = with_stream (queue ch) (mkStream (stream_state (stream ch)) true true) ch)
      \/ (exists e rest next, queue ch = e :: rest /\ r = Ok (Some e)
            /\ apply e (stream_state (stream ch)) = (Ok tt, next)
            /\ ch' = with_stream rest (mkStream next (is_terminal next) true) ch)
      \/ (r = Err stream_truncated_error /\ queue ch = [] /\ sender_alive (sender ch) = false
            /\ is_terminal (stream_state (stream ch)) = false
            /\ ch' = with_stream [] (mkStream (stream_state (stream ch)) true true) ch)).
Proof.
  intros Hinv Ha. unfold recv. destruct (finished (stream ch)) eqn:Hf; [intros [= <- <-]; by left|].
  intros H. right. split; [done|].
  destruct (is_cancelled (control ch)); [left; rewrite Ha in H; by simplify_eq|right].
  destruct (inv_flow _ _ _ Hinv) as (lost & Hflow & Hlost). specialize (Hlost Ha). subst lost.
  rewrite app_nil_r in Hflow. pose proof (inv_sender _ _ _ Hinv) as Hs. rewrite Hflow in Hs.
  apply apply_all_app_inv in Hs as (s1 & Hs1 & Hs2). rewrite (inv_stream _ _ _ Hinv) in Hs1. injection Hs1 as <-.
  destruct (queue ch) as [|e rest].
  - right. injection Hs2 as Hsame. destruct (sender_closed ch) eqn:Hc; [|done].
    unfold received_from, receive, finish in H. rewrite Ha in H.
    destruct (is_terminal (stream_state (stream ch))) eqn:Ht.
    { rewrite (inv_terminal _ _ _ Hinv Ht) in Hf. done. }
    simplify_eq. unfold sender_closed in Hc. rewrite (inv_open _ _ _ Hinv), <- Hsame, Ht in Hc.
    split_and!; try done. by destruct (sender_alive (sender ch)).
  - left. apply apply_all_cons_ok in Hs2 as (next & He & _).
    unfold received_from, receive in H. rewrite He, Ha in H. simplify_eq. by exists e, rest, next.
Qed.

Lemma explained_mono trace ch e l ch' :
  failure_explained trace ch e ->
  (is_cancelled (control ch) = true -> is_cancelled (control ch') = true) ->
  (sender_alive (sender ch) = false -> sender_alive (sender ch') = false /\ sent [l] = [] /\ received [l] = []) ->
  stream_state (stream ch') = stream_state (stream ch) ->
  failure_explained (trace ++ [l]) ch' e.
Proof.
  intros [[-> Hc]|(-> & Ha & Heq & Ht)] Hcancel Hsend Hstate; [left; auto|right].
  destruct (Hsend Ha) as (Ha' & Hs & Hr). destruct (traced_snoc trace l) as (-> & -> & _).
  rewrite Hs, Hr, !app_nil_r, Hstate. done.
Qed.

(** Steps that neither send nor receive an event, nor report a failure. *)
Lemma inv_quiet cap trace ch l ch' :
  run_inv cap trace ch -> sent [l] = [] -> received [l] = [] -> failed_receives [l] = [] ->
  capacity ch' = capacity ch ->
  sender_open (sender ch') = sender_open (sender ch) -> sender_state (sender ch') = sender_state (sender ch) ->
  (sender_alive (sender ch) = false -> sender_alive (sender ch') = false) ->
  stream_state (stream ch') = stream_state (stream ch) -> finished (stream ch') = finished (stream ch) ->
  (is_cancelled (control ch) = true -> is_cancelled (control ch') = true) ->
  (queue ch' = queue ch /\ stream_alive (stream ch') = stream_alive (stream ch)
   \/ queue ch' = [] /\ stream_alive (stream ch') = false) ->
  length (first_deliveries (trace ++ [l])) = (if committed (control ch') then 1%nat else 0%nat) ->
  run_inv cap (trace ++ [l]) ch'.
Proof.
  intros [Hcap Hb Hs Ho Hr (lost & Hflow & Hlost) Ht Hf Hu _] Hl1 Hl2 Hl3 Ecap Eo Es Ea Est Efin Ec Eq Hd.
  destruct (traced_snoc trace l) as (Es1 & Es2 & Es3 & _). rewrite Hl1, Hl2, Hl3, !app_nil_r in *.
  split; rewrite ?Es1, ?Es2, ?Es3, ?Ecap, ?Eo, ?Es, ?Est, ?Efin; try done.
  - destruct Eq as [[-> _]|[-> _]]; [done|]. simpl. lia.
  - destruct Eq as [[-> ->]|[-> ->]]; [by exists lost|]. by exists (queue ch ++ lost).
  - intros H. destruct (Hf H) as [?|(e & He & Hex)]; [by left|right]. exists e. split; [done|].
    eapply explained_mono; [done|done|by auto|done].
Qed.

Lemma inv_send cap trace ch event r ch' :
  run_inv cap trace ch -> sender_alive (sender ch) = true -> send event ch = (Ready r, ch') ->
  run_inv cap (trace ++ [LSend event r]) ch'.
Proof.
  intros Hinv Ha Hsend. pose proof (traced_snoc trace (LSend event r)) as (Es1 & Es2 & Es3 & Es4).
  pose proof (inv_first _ _ _ Hinv) as Hfirst.
  apply send_inv in Hsend as [(-> & next & Happ & Ho & Hal & Hnc & Hlt & ->)|[-> Hr]].
  - destruct Hinv as [Hcap Hb Hs Hop Hr (lost & Hflow & Hlost) Ht Hf Hu _]. specialize (Hlost Hal). subst lost.
    split; rewrite ?Es1, ?Es2, ?Es3, ?Es4; simpl; rewrite ?app_nil_r; try done.
    + rewrite length_app, <- Hcap. simpl. lia.
    + eapply apply_all_app_ok; [exact Hs|by rewrite apply_all_one].
    + exists []. rewrite app_nil_r in *. split; [by rewrite Hflow, app_assoc|done].
    + intros Hfin. destruct (Hf Hfin) as [?|(e & He & Hex)]; [by left|right]. exists e. split; [done|].
      eapply explained_mono; [done|done| |done]. congruence.
  - apply (inv_quiet cap trace ch); try done; [|by left|by rewrite Es4, app_nil_r].
    simpl. by destruct r as [[]| |].
Qed.

Lemma inv_recv cap trace ch r ch' :
  run_inv cap trace ch -> stream_alive (stream ch) = true -> recv ch = (Ready r, ch') ->
  run_inv cap (trace ++ [LRecv r]) ch'.
Proof.
  intros Hinv Ha Hrecv. pose proof (traced_snoc trace (LRecv r)) as (Es1 & Es2 & Es3 & Es4).
  pose proof (inv_first _ _ _ Hinv) as Hfirst.
  destruct (recv_inv _ _ _ _ _ Hinv Ha Hrecv) as [(Hfin & -> & ->)|(Hfin & Hcase)].
  { apply (inv_quiet cap trace ch); try done; [by left|by rewrite Es4, app_nil_r]. }
  destruct Hinv as [Hcap Hb Hs Hop Hr (lost & Hflow & Hlost) Ht Hf Hu _]. specialize (Hlost Ha). subst lost.
  destruct Hcase as [(Hc & -> & ->)|[(e & rest & next & Hq & -> & Happ & ->)|(-> & Hq & Hdead & Hnt & ->)]];
    split; rewrite ?Es1, ?Es2, ?Es3, ?Es4; simpl; rewrite ?app_nil_r; try done.
  - by exists [].
  - intros _. right. exists request_cancelled_error. rewrite (Hu Hfin). split; [done|]. by left.
  - rewrite Hq in Hb. simpl in Hb. lia.
  - eapply apply_all_app_ok; [exact Hr|by rewrite apply_all_one].
  - exists []. rewrite Hflow, Hq, <- !app_assoc. auto.
  - intros Hterm. left. auto.
  - auto.
  - rewrite Hq in Hb. done.
  - exists []. by rewrite Hflow, Hq.
  - intros _. right. exists stream_truncated_error. rewrite (Hu Hfin). split; [done|]. right.
    rewrite Es1, Es2, Hflow, Hq. simpl. by rewrite !app_nil_r.
Qed.

Lemma inv_step cap trace ch l ch' :
  run_inv cap trace ch -> stream_step ch l ch' -> run_inv cap (trace ++ [l]) ch'.
Proof.
  intros Hinv Hstep. pose proof (traced_snoc trace l) as (_ & _ & _ & Es4).
  pose proof (inv_first _ _ _ Hinv) as Hfirst.
  destruct Hstep as [ch event r ch' Ha Hsend|ch r ch' Ha Hrecv|ch event|ch|ch Ha|ch Ha].
  - by eapply inv_send.
  - by eapply inv_recv.
  - apply (inv_quiet cap trace ch); try done; [by left|].
    rewrite Es4, length_app, Hfirst. simpl. unfold mark_delivered. simpl. by destruct (committed (control ch)).
  - apply (inv_quiet cap trace ch); try done; [by left|by rewrite Es4, app_nil_r].
  - apply (inv_quiet cap trace ch); try done; [by left|by rewrite Es4, app_nil_r].
  - apply (inv_quiet cap trace ch); try done; [|by right|].
    + unfold drop_stream. simpl. by destruct (is_terminal _).
    + rewrite Es4, app_nil_r, Hfirst. unfold drop_stream. simpl. by destruct (is_terminal _).
Qed.

Lemma capacity_bounds n cap : 0 <= n -> capacity_try_new n = Ok cap -> capacity_get cap = n /\ 0 < n.
Proof.
  unfold capacity_try_new. intros Hn H. destruct (n =? 0) eqn:H0; [done|]. destruct (_ <? _); [done|].
  simplify_eq. apply Z.eqb_neq in H0. simpl. lia.
Qed.

Lemma run_keeps_inv cap trace ch :
  0 < capacity_get cap -> stream_run (bounded_canonical_stream cap) trace ch -> run_inv cap trace ch.
Proof.
  intros Hc. induction 1 as [|trace ch l ch' _ IH Hstep]; [|by eapply inv_step].
  split; try done; [simpl; lia|by exists []].
Qed.

Lemma apply_all_failed es s e :
  is_terminal s = false -> apply_all es s = (Ok tt, LFailed e) -> exists es' se, es = es' ++ [EStreamError se].
Proof.
  intros Hs H. destruct es as [|x es _] using rev_ind; [injection H as ->; done|].
  apply apply_all_app_inv in H as (s1 & _ & H). rewrite apply_all_one in H.
  exists es. destruct x; try (by eexists); exfalso; unfold apply, bind, get in H;
    destruct s1; simpl in H; try done; repeat (case_match; try done); simplify_eq.
Qed.

(** As long as the producer may still send, the consumer has not finished. *)
Lemma live_sender_unfinished cap trace ch event next :
  run_inv cap trace ch -> stream_alive (stream ch) = true -> is_cancelled (control ch) = false ->
  apply event (sender_state (sender ch)) = (Ok tt, next) -> sender_alive (sender ch) = true ->
  finished (stream ch) = false.
Proof.
  intros Hinv Ha Hc Happ Hsa. destruct (finished (stream ch)) eqn:Hf; [|done]. exfalso.
  destruct (inv_finished _ _ _ Hinv Hf) as [[Ht _]|(e & _ & [[_ ?]|(_ & ? & _)])]; [|congruence..].
  destruct Hinv as [_ _ Hs _ Hr (lost & Hflow & Hlost) _ _ _ _]. rewrite Hflow in Hs.
  apply apply_all_app_inv in Hs as (s1 & Hs1 & Hs2). rewrite Hr in Hs1. injection Hs1 as <-.
  destruct (apply_all_terminal _ _ _ Ht Hs2) as [_ Hsame]. rewrite Hsame in Happ.
  unfold apply, bind, get in Happ. by rewrite Ht in Happ.
Qed.

(** ** Properties *)

(** C36: However producer, consumer, cancellation and drops interleave, what the
    consumer has received is a prefix of what the producer sent, in order and
    without gaps; the producer's events form a valid beginning of a response; and
    while the consumer lives, the two never differ by more than the configured
    capacity. *)
Theorem stream_delivers_in_order n cap trace ch :
  0 <= n -> capacity_try_new n = Ok cap -> stream_run (bounded_canonical_stream cap) trace ch ->
  received trace `prefix_of` sent trace
  /\ (exists s, apply_all (sent trace) LInitial = (Ok tt, s))
  /\ (stream_alive (stream ch) = true ->
      Z.of_nat (length (sent trace)) <= Z.of_nat (length (received trace)) + n).
Proof.
  intros Hn Hcap Hrun. destruct (capacity_bounds n cap Hn Hcap) as [Hget Hpos].
  destruct (run_keeps_inv cap trace ch) as [_ Hb Hs _ _ (lost & Hflow & Hlost) _ _ _ _]; [lia|done|].
  split_and!; [rewrite Hflow; by apply prefix_app_r|by eexists|].
  intros Ha. rewrite Hflow, (Hlost Ha), !length_app. simpl. lia.
Qed.

(** An end of stream is honest.  Receives fail at most once, only because
    cancellation was requested or because the producer went away before a terminal
    event, after all its events were received; and a receive that reports the end
    without such a failure comes after every sent event was received, and these
    form a complete response or end in the provider's own stream error. *)
Lemma stream_end_is_explained n cap trace ch r ch' :
  0 <= n -> capacity_try_new n = Ok cap -> stream_run (bounded_canonical_stream cap) trace ch ->
  stream_alive (stream ch) = true -> recv ch = (Ready r, ch') ->
  let trace' := trace ++ [LRecv r] in
  (failed_receives trace' = [] \/ exists e, failed_receives trace' = [e] /\ failure_explained trace' ch' e)
  /\ r <> Panic
  /\ (r = Ok None -> failed_receives trace' = [] ->
      sent trace' = received trace'
      /\ (try_new (received trace') = Ok (received trace')
          \/ exists es se, received trace' = es ++ [EStreamError se])).
Proof.
  intros Hn Hcap Hrun Ha Hrecv trace'. destruct (capacity_bounds n cap Hn Hcap) as [Hget Hpos].
  pose proof (run_keeps_inv cap trace ch ltac:(lia) Hrun) as Hinv.
  pose proof (inv_recv _ _ _ _ _ Hinv Ha Hrecv) as Hinv'. fold trace' in Hinv'.
  split_and!.
  - destruct (finished (stream ch')) eqn:Hf; [|left; by apply (inv_unfinished _ _ _ Hinv')].
    destruct (inv_finished _ _ _ Hinv' Hf) as [[_ ?]|?]; auto.
  - by destruct (recv_inv _ _ _ _ _ Hinv Ha Hrecv) as [(_ & -> & _)|(_ & [(_ & -> & _)|[(e & rest & next & _ & -> & _)|(-> & _)]])].
  - intros -> Hfail.
    destruct (recv_inv _ _ _ _ _ Hinv Ha Hrecv) as [(Hf & _ & ->)|(_ & [(_ & [=] & _)|[(e & rest & next & _ & [=] & _)|([=] & _)]])].
    destruct (inv_finished _ _ _ Hinv' Hf) as [[Ht _]|(e & He & _)]; [|congruence].
    destruct Hinv' as [_ _ Hs _ Hr (lost & Hflow & _) _ _ _ _]. rewrite Hflow in Hs.
    apply apply_all_app_inv in Hs as (s1 & Hs1 & Hs2). rewrite Hr in Hs1. injection Hs1 as <-.
    destruct (apply_all_terminal _ _ _ Ht Hs2) as [Hnil _]. rewrite Hnil, app_nil_r in Hflow. split; [done|].
    destruct (stream_state (stream ch)) as [|o| |e]; [done|done| |].
    + left. unfold try_new. by rewrite Hr.
    + right. by apply (apply_all_failed _ LInitial e).
Qed.

(** Backpressure cannot deadlock.  When a send has to wait, the consumer is
    alive and its next receive returns an event at once, after which the very same
    send succeeds. *)
Lemma backpressure_resolves n cap trace ch event ch' :
  0 <= n -> capacity_try_new n = Ok cap -> stream_run (bounded_canonical_stream cap) trace ch ->
  sender_alive (sender ch) = true -> send event ch = (Pending, ch') ->
  exists x ch1 ch2, recv ch = (Ready (Ok (Some x)), ch1) /\ send event ch1 = (Ready (Ok tt), ch2)
    /\ queue ch2 = tail (queue ch) ++ [event].
Proof.
  intros Hn Hcap Hrun Hlive Hsend. destruct (capacity_bounds n cap Hn Hcap) as [Hget Hpos].
  pose proof (run_keeps_inv cap trace ch ltac:(lia) Hrun) as Hinv.
  unfold send in Hsend. destruct (is_cancelled (control ch)) eqn:Hc; [done|].
  destruct (apply event (sender_state (sender ch))) as [[[]|e|] next] eqn:Happ; [|done..].
  destruct (sender_open (sender ch)) eqn:Ho; [|done]. destruct (stream_alive (stream ch)) eqn:Ha; [|done]. simpl in Hsend.
  destruct (_ <? _) eqn:Hlt; [done|]. apply Z.ltb_ge in Hlt. rewrite (inv_capacity _ _ _ Hinv), Hget in Hlt.
  assert (finished (stream ch) = false) as Hfin by (eapply live_sender_unfinished; eauto).
  assert (exists x rest, queue ch = x :: rest) as (x & rest & Hq) by (destruct (queue ch); [simpl in *; lia|by do 2 eexists]).
  destruct (recv ch) as [[r|] ch1] eqn:Hr.
  2:{ unfold recv in Hr. rewrite Hfin, Hc, Hq in Hr. unfold received_from in Hr. by destruct (receive _ _). }
  destruct (recv_inv _ _ _ _ _ Hinv Ha Hr)
    as [(Hf & _)|(_ & [(Hcc & _)|[(e & rest' & next' & Hq' & -> & _ & ->)|(_ & Hq' & _)]])]; [congruence..| |congruence].
  simplify_eq. rewrite Hq in *. simplify_eq. pose proof (inv_bound _ _ _ Hinv) as Hb. rewrite Hq in Hb. simpl in Hb.
  eexists _, _, _. split; [done|]. unfold send. simpl. rewrite Hc, Happ, Ho. simpl.
  rewrite (inv_capacity _ _ _ Hinv). destruct (_ <? _) eqn:Hlt'; [done|]. apply Z.ltb_ge in Hlt'. lia.
Qed.

(** ** The retry gate *)

Lemma step_control_cases ch l ch' :
  stream_step ch l ch' ->
  (control ch' = control ch /\ l <> LCancel /\ forall e f, l <> LDeliver e f)
  \/ (control ch' = cancel (control ch) /\ forall e f, l <> LDeliver e f)
  \/ (control ch' = mkControl (cancelled_flag (control ch)) true /\ l <> LCancel).
Proof.
  destruct 1 as [ch event r ch' _ H|ch r ch' _ H|ch event|ch|ch _|ch _].
  - left. by apply send_inv in H as [(_ & next & _ & _ & _ & _ & _ & ->)|[-> _]].
  - left. unfold recv, received_from in H. repeat case_match; by simplify_eq.
  - right. by right.
  - right. by left.
  - by left.
  - unfold drop_stream. simpl. destruct (is_terminal _); [by left|right; by left].
Qed.

Lemma step_control ch l ch' :
  stream_step ch l ch' ->
  (is_cancelled (control ch) = true \/ l = LCancel -> is_cancelled (control ch') = true)
  /\ (is_committed (control ch) = true \/ (exists e f, l = LDeliver e f) -> is_committed (control ch') = true).
Proof.
  intros [(-> & Hc & Hd)|[(-> & Hd)|(-> & Hc)]]%step_control_cases; split; try done;
    (intros [?|?]; [done|]); try done; destruct H as (e & f & ?); by destruct (Hd e f).
Qed.

Lemma run_control ch0 trace ch :
  stream_run ch0 trace ch ->
  (is_cancelled (control ch0) = true \/ LCancel ∈ trace -> is_cancelled (control ch) = true)
  /\ (is_committed (control ch0) = true \/ (exists e f, LDeliver e f ∈ trace) -> is_committed (control ch) = true).
Proof.
  induction 1 as [|trace ch l ch' _ [IHc IHm] Hstep]; [set_solver|].
  apply step_control in Hstep as [Hc Hm]. split; [intros [?|Hin]|intros [?|(e & f & Hin)]]; auto.
  - apply elem_of_app in Hin as [?|Hl%list_elem_of_singleton]; apply Hc; eauto 8.
  - apply elem_of_app in Hin as [?|Hl%list_elem_of_singleton]; apply Hm; eauto 8.
Qed.

(** The retry gate is a one-way door.  It is open only while no event has been
    delivered to the client and nobody has cancelled; whatever happens later it
    never opens again once closed; and among all deliveries, by any number of
    holders of the tracker, exactly one is told that it was the first. *)
Lemma retry_gate_closes_for_good n cap trace ch later ch' :
  0 <= n -> capacity_try_new n = Ok cap -> stream_run (bounded_canonical_stream cap) trace ch ->
  stream_run ch later ch' ->
  (allows_transparent_retry (control ch') = true -> allows_transparent_retry (control ch) = true)
  /\ (allows_transparent_retry (control ch) = true ->
      (LCancel ∉ trace) /\ forall e f, LDeliver e f ∉ trace)
  /\ ((exists e f, LDeliver e f ∈ trace) -> length (first_deliveries trace) = 1%nat)
  /\ ((forall e f, LDeliver e f ∉ trace) -> first_deliveries trace = []).
Proof.
  intros Hn Hcap Hrun Hlater. destruct (capacity_bounds n cap Hn Hcap) as [Hget Hpos].
  pose proof (run_keeps_inv cap trace ch ltac:(lia) Hrun) as Hinv.
  destruct (run_control _ _ _ Hrun) as [Hc Hm]. destruct (run_control _ _ _ Hlater) as [Hc' Hm'].
  unfold allows_transparent_retry, is_uncommitted. rewrite !andb_true_iff, !negb_true_iff. split_and!.
  - intros [H1 H2]. split; apply not_true_iff_false; intros H; [rewrite Hc' in H1 by auto|rewrite Hm' in H2 by auto]; done.
  - intros [H1 H2]. split; [intros Hin; rewrite Hc in H1 by auto; done|].
    intros e f Hin. rewrite Hm in H2 by eauto. done.
  - intros Hd. rewrite (inv_first _ _ _ Hinv). unfold is_committed in Hm. by rewrite Hm by auto.
  - intros Hd. destruct (first_deliveries trace) as [|e es] eqn:He; [done|]. exfalso.
    assert (e ∈ first_deliveries trace) as Hin by (rewrite He; left). unfold first_deliveries in Hin.
    apply list_elem_of_omap in Hin as (l & Hl & Hsome). destruct l as [| |x [] | | |]; try done.
    by apply (Hd x First).
Qed.

(** ** Waiting for the first delivery

    [wait_until_committed] against concurrent [mark_delivered] calls, one atomic
    access per step.  A [Notified] future created when the notification count was
    [n] completes once [notify_waiters] has run since, that is once the count
    exceeds [n]. *)

Inductive Waiter : Type :=
| WCreate                 (* about to call [notified()] *)
| WCheck (n : nat)        (* about to read [committed] *)
| WAwait (n : nat)        (* suspended on [notified.await] *)
| WRecheck                (* about to read [committed] again *)
| WDone.

Inductive Marker : Type :=
| MSwap                   (* about to swap [committed] *)
| MNotify                 (* swapped first, about to call [notify_waiters] *)
| MReturned (r : FirstSemanticEvent).

Record WaitWorld : Type := mkWait {
  w_committed : bool;
  w_notifications : nat;
  w_waiter : Waiter;
  w_markers : list Marker;
}.

Inductive wait_step : WaitWorld -> WaitWorld -> Prop :=
| wait_create c n ms : wait_step (mkWait c n WCreate ms) (mkWait c n (WCheck n) ms)
| wait_check c n k ms :
    wait_step (mkWait c n (WCheck k) ms) (mkWait c n (if c then WDone else WAwait k) ms)
| wait_wake c n k ms : (k < n)%nat -> wait_step (mkWait c n (WAwait k) ms) (mkWait c n WRecheck ms)
| wait_recheck c n ms :
    wait_step (mkWait c n WRecheck ms) (mkWait c n (if c then WDone else WCreate) ms)
| mark_swap c n w ms i :
    ms !! i = Some MSwap ->
    wait_step (mkWait c n w ms) (mkWait true n w (<[i := if c then MReturned AlreadyCommitted else MNotify]> ms))
| mark_notify c n w ms i :
    ms !! i = Some MNotify ->
    wait_step (mkWait c n w ms) (mkWait c (S n) w (<[i := MReturned First]> ms)).

Definition wait_start (k : nat) : WaitWorld := mkWait false 0 WCreate (replicate k MSwap).

(** The waiter's own steps. *)
Definition waiter_step (w w' : WaitWorld) : Prop := wait_step w w' /\ w_markers w' = w_markers w.

Definition wait_inv (w : WaitWorld) : Prop :=
  (forall k, w_waiter w = WCheck k \/ w_waiter w = WAwait k -> (k <= w_notifications w)%nat)
  /\ (w_waiter w = WAwait (w_notifications w) -> w_committed w = true -> MNotify ∈ w_markers w)
  /\ (MNotify ∈ w_markers w -> w_committed w = true)
  /\ (w_waiter w = WRecheck -> w_committed w = true)
  /\ (forall r, MReturned r ∈ w_markers w -> w_committed w = true)
  /\ ((0 < w_notifications w)%nat -> w_committed w = true).

Lemma wait_step_inv w w' : wait_inv w -> wait_step w w' -> wait_inv w'.
Proof.
  intros (Hk & Hlost & Hn & Hr & Hret & Hpos) Hstep.
  destruct Hstep as [c n ms|c n k ms|c n k ms Hlt|c n ms|c n w ms i Hi|c n w ms i Hi]; unfold wait_inv in *; simpl in *.
  - split_and!; try done. intros k [[= <-]|?]; [lia|done].
  - destruct c; split_and!; try done; [by intros ? [?|?]|]. intros j [?|[= <-]]; [done|]. apply Hk. auto.
  - split_and!; try done; [by intros ? [?|?]|]. intros _. apply Hpos. lia.
  - destruct c; split_and!; try done; by intros ? [?|?].
  - split_and!; try done. intros Hw _. destruct c.
    + specialize (Hlost Hw eq_refl). apply list_elem_of_lookup in Hlost as [j Hj].
      apply (list_elem_of_lookup_2 _ j). rewrite list_lookup_insert_ne; [done|]. intros ->. congruence.
    + apply (list_elem_of_lookup_2 _ i). apply list_lookup_insert_eq. by eapply lookup_lt_Some.
  - assert (c = true) as -> by (apply Hn; by eapply list_elem_of_lookup_2).
    split_and!; try done. { intros k Hw. specialize (Hk k Hw). lia. }
    intros Hw _. specialize (Hk (S n) (or_intror Hw)). lia.
Qed.

Lemma wait_start_inv k : wait_inv (wait_start k).
Proof.
  unfold wait_inv. simpl. split_and!; try done; try lia.
  - by intros ? [?|?].
  - by intros [? _]%elem_of_replicate.
  - by intros ? [? _]%elem_of_replicate.
Qed.

(** No lost wake-up.  However many writers mark deliveries concurrently, once
    one of them has returned the waiter is never stuck: either a first writer is
    still between its swap and its notification, or the waiter alone can run to
    completion. *)
Lemma waiter_is_never_stuck k w :
  rtc wait_step (wait_start k) w -> (exists r, MReturned r ∈ w_markers w) ->
  MNotify ∈ w_markers w
  \/ exists w', rtc waiter_step w w' /\ w_waiter w' = WDone.
Proof.
  intros Hrun [r Hret]. assert (wait_inv w) as (Hk & Hlost & _ & Hr & Hc & _)
    by (apply (rtc_preserves wait_inv wait_step (wait_start k)); [exact wait_step_inv|apply wait_start_inv|done]).
  specialize (Hc r Hret). destruct w as [c n wt ms]. simpl in *. subst c.
  destruct wt as [|j|j| |].
  - right. exists (mkWait true n WDone ms). split; [|done].
    eapply rtc_l; [split; [apply wait_create|done]|]. eapply rtc_once. split; [apply wait_check|done].
  - right. exists (mkWait true n WDone ms). split; [|done]. eapply rtc_once. split; [apply wait_check|done].
  - destruct (decide (j = n)) as [->|Hne]; [left; auto|right].
    specialize (Hk j (or_intror eq_refl)).
    exists (mkWait true n WDone ms). split; [|done].
    eapply rtc_l; [split; [apply wait_wake; lia|done]|]. eapply rtc_once. split; [apply wait_recheck|done].
  - right. exists (mkWait true n WDone ms). split; [|done]. eapply rtc_once. split; [apply wait_recheck|done].
  - right. by exists (mkWait true n WDone ms).
Qed.

(** ** Witnesses *)

Definition ex_cap : StreamCapacity := mkCapacity 1.
Definition ex_start : CanonicalEvent := EResponseStart (mkResponseStart (mkId "resp-1") ∅).
Definition ex_end : CanonicalEvent := EResponseEnd (mkResponseEnd None None ∅).

Definition ex_ch1 : Channel := (send ex_start (bounded_canonical_stream ex_cap)).2.
Definition ex_ch2 : Channel := (recv ex_ch1).2.
Definition ex_ch3 : Channel := with_control (fun c => (mark_delivered ex_start c).2) ex_ch2.
Definition ex_ch4 : Channel := (send ex_end ex_ch3).2.
Definition ex_ch5 : Channel := (recv ex_ch4).2.

Definition ex_trace1 : list Label := [LSend ex_start (Ok tt)].
Definition ex_trace5 : list Label :=
  [LSend ex_start (Ok tt); LRecv (Ok (Some ex_start)); LDeliver ex_start First;
   LSend ex_end (Ok tt); LRecv (Ok (Some ex_end))].

Lemma ex_run1 : stream_run (bounded_canonical_stream ex_cap) ex_trace1 ex_ch1.
Proof. apply (run_step _ [] _ _ _ (run_start _)). by apply step_send. Qed.

Lemma ex_run5 : stream_run (bounded_canonical_stream ex_cap) ex_trace5 ex_ch5.
Proof.
  apply (run_step _ (take 4 ex_trace5) ex_ch4); [|by apply step_recv].
  apply (run_step _ (take 3 ex_trace5) ex_ch3); [|by apply step_send].
  apply (run_step _ (take 2 ex_trace5) ex_ch2); [|exact (step_deliver ex_ch2 ex_start)].
  apply (run_step _ ex_trace1 ex_ch1 _ _ ex_run1). by apply step_recv.
Qed.

Lemma stream_delivers_in_order_witness :
  received ex_trace5 `prefix_of` sent ex_trace5 /\ length (received ex_trace5) = 2%nat.
Proof.
  split; [|reflexivity].
  apply (stream_delivers_in_order 1 ex_cap ex_trace5 ex_ch5); [lia|reflexivity|exact ex_run5].
Defined.

Lemma stream_end_is_explained_witness :
  recv ex_ch5 = (Ready (Ok None), ex_ch5) /\ sent ex_trace5 = received (ex_trace5 ++ [LRecv (Ok None)]).
Proof.
  split; [reflexivity|].
  destruct (stream_end_is_explained 1 ex_cap ex_trace5 ex_ch5 (Ok None) ex_ch5) as (_ & _ & H);
    [lia|reflexivity|exact ex_run5|reflexivity|reflexivity|].
  exact (proj1 (H eq_refl eq_refl)).
Defined.

Lemma backpressure_resolves_witness :
  send ex_end ex_ch1 = (Pending, ex_ch1)
  /\ exists x ch1 ch2, recv ex_ch1 = (Ready (Ok (Some x)), ch1) /\ send ex_end ch1 = (Ready (Ok tt), ch2)
       /\ queue ch2 = tail (queue ex_ch1) ++ [ex_end].
Proof.
  split; [reflexivity|].
  apply (backpressure_resolves 1 ex_cap ex_trace1 ex_ch1 ex_end ex_ch1);
    [lia|reflexivity|exact ex_run1|reflexivity|reflexivity].
Defined.

Lemma retry_gate_closes_for_good_witness :
  allows_transparent_retry (control ex_ch2) = true /\ allows_transparent_retry (control ex_ch5) = false
  /\ length (first_deliveries ex_trace5) = 1%nat.
Proof.
  split_and!; [reflexivity..|].
  apply (retry_gate_closes_for_good 1 ex_cap ex_trace5 ex_ch5 [] ex_ch5);
    [lia|reflexivity|exact ex_run5|apply run_start|].
  exists ex_start, First. right. right. left.
Defined.

Lemma waiter_is_never_stuck_witness :
  exists w', rtc waiter_step (mkWait true 1 (WAwait 0) [MReturned First]) w' /\ w_waiter w' = WDone.
Proof.
  destruct (waiter_is_never_stuck 1 (mkWait true 1 (WAwait 0) [MReturned First])) as [H|H]; [| |exfalso|exact H].
  - eapply rtc_l; [apply wait_create|]. eapply rtc_l; [apply wait_check|].
    eapply rtc_l; [apply (mark_swap _ _ _ _ 0); reflexivity|]. eapply rtc_once. exact (mark_notify true 0 (WAwait 0) [MNotify] 0 eq_refl).
  - exists First. left.
  - simpl in H. apply list_elem_of_singleton in H. discriminate H.
Defined.
