(* ===== verification/EventStream.v ===== *)
(** * Kiro event-stream framing

    Models [crates/provider-kiro/src/event_stream.rs]: the bounded incremental
    decoder of AWS EventStream frames, with its prelude and message checksums,
    typed headers, resynchronisation after malformed input and the limit on
    consecutive errors.

    A slice expression that would panic out of range is [slice] with the result
    [Panic], so the totality of the decoder is a statement.  Frames and headers are
    encoded by reference definitions of the specification part. *)

From S2P Require Import Prelude Text Octets.
From Stdlib Require Import Strings.Byte.
Local Open Scope string_scope.
Local Open Scope list_scope.
Local Open Scope Z_scope.

Abbreviation Bytes := (list Byte.byte).

Definition PRELUDE_BYTES : Z := 12.
Definition MESSAGE_CRC_BYTES : Z := 4.
Definition MIN_FRAME_BYTES : Z := PRELUDE_BYTES + MESSAGE_CRC_BYTES.
Definition MAX_FRAME_BYTES : Z := 16 * 1024 * 1024.
Definition MAX_BUFFER_BYTES : Z := MAX_FRAME_BYTES * 2.
Definition MAX_CONSECUTIVE_ERRORS : Z := 5.

Inductive KiroEventStreamHeaderValue : Type :=
| BoolTrue
| BoolFalse
| HByte (v : Z)
| Int16 (v : Z)
| Int32 (v : Z)
| Int64 (v : Z)
| ByteArray (v : Bytes)
| HString (v : string)
| Timestamp (v : Z)
| Uuid (v : Bytes).

Abbreviation KiroEventStreamHeaders := (gmap string KiroEventStreamHeaderValue).

Record KiroEventStreamFrame : Type := mkFrame {
  frame_headers : KiroEventStreamHeaders;
  frame_payload : Bytes;
}.

Inductive KiroEventStreamError : Type :=
| InvalidFrameLength | InvalidHeaderLength | PreludeCrcMismatch | MessageCrcMismatch | InvalidHeaderName
| InvalidHeaderType | InvalidHeaderValue | DuplicateHeader | BufferLimitExceeded | TruncatedFrame
| TooManyErrors | Stopped.

(** [as_str] and the typed header lookups. *)
Definition header_as_str (v : KiroEventStreamHeaderValue) : option string :=
  match v with HString s => Some s | _ => None end.
Definition get_string (h : KiroEventStreamHeaders) (name : string) : option string :=
  h !! name ≫= header_as_str.
Definition message_type (h : KiroEventStreamHeaders) : option string := get_string h ":message-type".
Definition event_type (h : KiroEventStreamHeaders) : option string := get_string h ":event-type".
Definition exception_type (h : KiroEventStreamHeaders) : option string := get_string h ":exception-type".

(** ** Integers in byte strings *)

(** The signed reading of [from_be_bytes] at [bits]. *)
Definition cast_signed (bits v : Z) : Z := if v <? 2 ^ (bits - 1) then v else v - 2 ^ bits.

(** [&bytes[from..upto]], which panics out of range. *)
Definition slice {E} (from upto : Z) (bytes : Bytes) : result E Bytes :=
  if (0 <=? from) && (from <=? upto) && (upto <=? len bytes)
  then Ok (take (Z.to_nat (upto - from)) (drop (Z.to_nat from) bytes))
  else Panic.

Definition u32_max : Z := 2 ^ 32 - 1.

(** One of the eight shifts of [crc32]. *)
Definition crc_shift (crc : Z) : Z :=
  if Z.land crc 1 =? 0 then Z.shiftr crc 1 else Z.lxor (Z.shiftr crc 1) 0xedb88320.
Definition crc_byte (crc : Z) (b : Byte.byte) : Z := Nat.iter 8 crc_shift (Z.lxor crc (byte_val b)).
Definition crc32 (bytes : Bytes) : Z := Z.lxor (fold_left crc_byte bytes u32_max) u32_max.

Example crc32_uses_the_aws_eventstream_iso_hdlc_variant :
  crc32 (String.list_byte_of_string "123456789") = 0xcbf43926.
Proof. vm_compute. reflexivity. Qed.

(** ** Header parsing

    [&mut cursor] is state; the reads fail where [bytes.get] does. *)

Abbreviation Cursor A := (M Z KiroEventStreamError A).

Definition read_range (bytes : Bytes) (length : Z) (error : KiroEventStreamError) : Cursor Bytes := fun cursor =>
  if usize_modulus <=? cursor + length then (Err error, cursor)
  else if len bytes <? cursor + length then (Err error, cursor)
  else (slice cursor (cursor + length) bytes, cursor + length).

Definition read_exact (bytes : Bytes) (length : Z) : Cursor Bytes := read_range bytes length InvalidHeaderValue.

Definition read_byte (bytes : Bytes) : Cursor Z :=
  let! v := read_exact bytes 1 in ret (be_value v).
Definition read_signed (bytes : Bytes) (size : Z) : Cursor Z :=
  let! v := read_exact bytes size in ret (cast_signed (8 * size) (be_value v)).
Definition read_i16 (bytes : Bytes) : Cursor Z := read_signed bytes 2.
Definition read_i32 (bytes : Bytes) : Cursor Z := read_signed bytes 4.
Definition read_i64 (bytes : Bytes) : Cursor Z := read_signed bytes 8.

Definition read_variable_bytes (bytes : Bytes) : Cursor Bytes :=
  let! l := read_exact bytes 2 in read_exact bytes (be_value l).

Definition from_utf8 (error : KiroEventStreamError) (v : Bytes) : Cursor string :=
  let s := String.string_of_list_byte v in if utf8_valid s then ret s else raise error.

Definition read_utf8 (bytes : Bytes) (length : Z) (error : KiroEventStreamError) : Cursor string :=
  let! v := read_range bytes length error in from_utf8 error v.

Definition parse_header_value (bytes : Bytes) (header_type : Z) : Cursor KiroEventStreamHeaderValue :=
  if header_type =? 0 then ret BoolTrue
  else if header_type =? 1 then ret BoolFalse
  else if header_type =? 2 then let! v := read_byte bytes in ret (HByte (cast_signed 8 v))
  else if header_type =? 3 then let! v := read_i16 bytes in ret (Int16 v)
  else if header_type =? 4 then let! v := read_i32 bytes in ret (Int32 v)
  else if header_type =? 5 then let! v := read_i64 bytes in ret (Int64 v)
  else if header_type =? 6 then let! v := read_variable_bytes bytes in ret (ByteArray v)
  else if header_type =? 7 then
    let! v := read_variable_bytes bytes in
    let! s := from_utf8 InvalidHeaderValue v in ret (HString s)
  else if header_type =? 8 then let! v := read_i64 bytes in ret (Timestamp v)
  else if header_type =? 9 then let! v := read_exact bytes 16 in ret (Uuid v)
  else raise InvalidHeaderType.

(** One turn of the loop of [parse_headers]. *)
Definition parse_header (bytes : Bytes) (headers : KiroEventStreamHeaders) : Cursor KiroEventStreamHeaders :=
  let! name_length := read_byte bytes in
  if name_length =? 0 then raise InvalidHeaderName
  else
    let! name := read_utf8 bytes name_length InvalidHeaderName in
    let! header_type := read_byte bytes in
    let! value := parse_header_value bytes header_type in
    if bool_decide (is_Some (headers !! name)) then raise DuplicateHeader
    else ret (<[name := value]> headers).

(** [while cursor < bytes.len()]; a turn consumes at least two bytes. *)
Fixpoint parse_headers_loop (fuel : nat) (bytes : Bytes) (headers : KiroEventStreamHeaders)
  : Cursor KiroEventStreamHeaders :=
  let! cursor := get in
  if len bytes <=? cursor then ret headers
  else match fuel with
       | O => panic
       | S fuel' => let! headers' := parse_header bytes headers in parse_headers_loop fuel' bytes headers'
       end.

Definition parse_headers (bytes : Bytes) : result KiroEventStreamError KiroEventStreamHeaders :=
  (parse_headers_loop (length bytes) bytes ∅ 0).1.

(** ** The decoder *)

Record Prelude : Type := mkPrelude { total_length : Z; headers_length : Z }.

Definition parse_prelude (bytes : Bytes) : result KiroEventStreamError Prelude :=
  let? b1 := slice 0 4 bytes in
  let? b2 := slice 4 8 bytes in
  let total_length := be_value b1 in
  let headers_length := be_value b2 in
  if negb ((MIN_FRAME_BYTES <=? total_length) && (total_length <=? MAX_FRAME_BYTES)) then Err InvalidFrameLength
  else if total_length - MIN_FRAME_BYTES <? headers_length then Err InvalidHeaderLength
  else
    let? b := slice 0 8 bytes in
    let? c := slice 8 PRELUDE_BYTES bytes in
    if negb (crc32 b =? be_value c) then Err PreludeCrcMismatch
    else Ok (mkPrelude total_length headers_length).

Record KiroEventStreamDecoder : Type := mkDecoder {
  buffer : Bytes;
  consecutive_errors : Z;
  stopped : bool;
}.

Abbreviation DecoderM A := (M KiroEventStreamDecoder KiroEventStreamError A).

Definition decoder_new : KiroEventStreamDecoder := mkDecoder [] 0 false.

Definition stop {A} (error : KiroEventStreamError) : DecoderM A := fun d =>
  (Err error, mkDecoder [] (consecutive_errors d) true).

Definition recover {A} (error : KiroEventStreamError) : DecoderM A := fun d =>
  let d' := mkDecoder (buffer d) (consecutive_errors d + 1) (stopped d) in
  if MAX_CONSECUTIVE_ERRORS <=? consecutive_errors d' then stop TooManyErrors d' else (Err error, d').

(** [Vec::drain(..count)] panics beyond the end. *)
Definition discard (count : Z) : DecoderM unit := fun d =>
  if (0 <=? count) && (count <=? len (buffer d))
  then (Ok tt, mkDecoder (drop (Z.to_nat count) (buffer d)) (consecutive_errors d) (stopped d))
  else (Panic, d).

Definition feed (bytes : Bytes) : DecoderM unit := fun d =>
  if stopped d then (Err Stopped, d)
  else if usize_modulus <=? len (buffer d) + len bytes then stop BufferLimitExceeded d
  else if MAX_BUFFER_BYTES <? len (buffer d) + len bytes then stop BufferLimitExceeded d
  else (Ok tt, mkDecoder (buffer d ++ bytes) (consecutive_errors d) (stopped d)).

(** [(1..=last_candidate).find(..)]: the first offset that starts a valid prelude. *)
Fixpoint find_prelude (candidates : list nat) (bytes : Bytes) : result KiroEventStreamError (option Z) :=
  match candidates with
  | [] => Ok None
  | start :: rest =>
      let? window := slice (Z.of_nat start) (Z.of_nat start + PRELUDE_BYTES) bytes in
      match parse_prelude window with
      | Ok _ => Ok (Some (Z.of_nat start))
      | Err _ => find_prelude rest bytes
      | Panic => Panic
      end
  end.

Definition resynchronize_prelude : DecoderM unit :=
  let! d := get in
  let last_candidate := Z.to_nat (Z.max 0 (len (buffer d) - PRELUDE_BYTES)) in
  let! next_prelude := lift (find_prelude (seq 1 last_candidate) (buffer d)) in
  discard (default (len (buffer d) - (PRELUDE_BYTES - 1)) next_prelude).

Definition try_prelude : DecoderM (option Prelude) :=
  let! d := get in
  if len (buffer d) <? PRELUDE_BYTES then ret None
  else
    let! window := lift (slice 0 PRELUDE_BYTES (buffer d)) in
    match parse_prelude window with
    | Ok prelude => ret (Some prelude)
    | Err error => resynchronize_prelude ;;; recover error
    | Panic => panic
    end.

(** The data phase of [next_frame], once the whole frame is buffered. *)
Definition decode_frame (prelude : Prelude) : DecoderM (option KiroEventStreamFrame) :=
  let! d := get in
  let message_without_crc := total_length prelude - MESSAGE_CRC_BYTES in
  let! expected := lift (slice message_without_crc (total_length prelude) (buffer d)) in
  let! message := lift (slice 0 message_without_crc (buffer d)) in
  if negb (crc32 message =? be_value expected) then
    discard (total_length prelude) ;;; recover MessageCrcMismatch
  else
    let headers_end := PRELUDE_BYTES + headers_length prelude in
    let! header_bytes := lift (slice PRELUDE_BYTES headers_end (buffer d)) in
    match parse_headers header_bytes with
    | Err error => discard (total_length prelude) ;;; recover error
    | Panic => panic
    | Ok headers =>
        let! payload := lift (slice headers_end message_without_crc (buffer d)) in
        discard (total_length prelude) ;;;
        let! d' := get in
        put (mkDecoder (buffer d') 0 (stopped d')) ;;;
        ret (Some (mkFrame headers payload))
    end.

Definition next_frame : DecoderM (option KiroEventStreamFrame) :=
  let! d := get in
  if stopped d then raise Stopped
  else
    let! prelude := try_prelude in
    match prelude with
    | None => ret None
    | Some prelude =>
        let! d := get in
        if len (buffer d) <? total_length prelude then ret None else decode_frame prelude
    end.

Definition finish : DecoderM unit :=
  let! d := get in
  if stopped d then raise Stopped
  else match buffer d with
       | [] => ret tt
       | _ => stop TruncatedFrame
       end.

(** ** Totality and progress *)

Lemma slice_ok {E} from upto bytes :
  0 <= from <= upto -> upto <= len bytes ->
  exists s, @slice E from upto bytes = Ok s /\ len s = upto - from.
Proof.
  intros H1 H2. unfold slice. replace (_ && _ && _) with true by (symmetry; rewrite !andb_true_iff, !Z.leb_le; lia).
  eexists. split; [done|]. unfold len in *. rewrite length_take, length_drop. lia.
Qed.

(** A reader that does not panic, moves the cursor forward by at least [k] when it
    succeeds, and never past the end. *)
Definition advances {A} (bytes : Bytes) (k : Z) (m : Cursor A) : Prop :=
  forall cursor, 0 <= cursor <= len bytes ->
    match m cursor with
    | (Ok _, cursor') => cursor + k <= cursor' <= len bytes
    | (Err _, _) => True
    | (Panic, _) => False
    end.

Lemma advances_bind {A B} bytes k1 k2 (m : Cursor A) (f : A -> Cursor B) :
  0 <= k1 -> advances bytes k1 m -> (forall a, advances bytes k2 (f a)) -> advances bytes (k1 + k2) (bind m f).
Proof.
  intros Hk Hm Hf c Hc. unfold bind. specialize (Hm c Hc). destruct (m c) as [[a|e|] c1]; [|done..].
  specialize (Hf a c1 ltac:(lia)). destruct (f a c1) as [[b|e|] c2]; [lia|done..].
Qed.

Lemma advances_weaken {A} bytes k k' (m : Cursor A) : k' <= k -> advances bytes k m -> advances bytes k' m.
Proof. intros Hk Hm c Hc. specialize (Hm c Hc). destruct (m c) as [[a|e|] c1]; [lia|done..]. Qed.

Lemma advances_ret {A} bytes (a : A) : advances bytes 0 (ret a).
Proof. intros c Hc. simpl. lia. Qed.

Lemma advances_raise {A} bytes k e : advances bytes k (raise (A := A) e).
Proof. by intros c Hc. Qed.

Lemma advances_range bytes l e : 0 <= l -> advances bytes l (read_range bytes l e).
Proof.
  intros Hl c Hc. unfold read_range. destruct (_ <=? _) eqn:H1; [done|]. destruct (_ <? _) eqn:H2; [done|]. bool_simp.
  destruct (slice_ok (E := KiroEventStreamError) c (c + l) bytes) as (s & -> & _); lia.
Qed.

(** Reading [k] bytes and then going on. *)
Lemma advances_then {A B} bytes k (m : Cursor A) (f : A -> Cursor B) :
  0 <= k -> advances bytes k m -> (forall a, advances bytes 0 (f a)) -> advances bytes k (bind m f).
Proof. intros Hk Hm Hf. rewrite <- (Z.add_0_r k). by apply advances_bind. Qed.

Lemma advances_byte bytes : advances bytes 1 (read_byte bytes).
Proof. apply advances_then; [lia|by apply advances_range|intros a; apply advances_ret]. Qed.

Lemma advances_signed bytes size : 0 <= size -> advances bytes 0 (read_signed bytes size).
Proof.
  intros Hs. eapply advances_weaken; [|apply advances_then; [exact Hs|by apply advances_range|intros a; apply advances_ret]]. lia.
Qed.

Lemma advances_variable bytes : advances bytes 0 (read_variable_bytes bytes).
Proof.
  eapply (advances_weaken _ (2 + 0)); [lia|]. apply advances_bind; [lia|by apply advances_range|]. intros l.
  eapply advances_weaken; [|apply advances_range]; apply be_value_range.
Qed.

Lemma advances_utf8 bytes e v : advances bytes 0 (from_utf8 e v).
Proof. unfold from_utf8. destruct (utf8_valid _); [apply advances_ret|apply advances_raise]. Qed.

Lemma advances_value bytes t : advances bytes 0 (parse_header_value bytes t).
Proof.
  unfold parse_header_value, read_i16, read_i32, read_i64.
  repeat (destruct (_ =? _); [solve [apply advances_ret
    | apply advances_then; [lia|by apply advances_signed|intros; apply advances_ret]
    | apply advances_then; [lia|apply advances_variable|intros; apply advances_ret]
    | apply advances_then; [lia|apply advances_variable|intros; apply advances_then; [lia|apply advances_utf8|intros; apply advances_ret]]
    | eapply advances_weaken; [|apply advances_then; [|apply advances_byte|intros; apply advances_ret]]; lia
    | eapply advances_weaken; [|apply advances_then; [|by apply (advances_range bytes 16)|intros; apply advances_ret]]; lia] |]).
  apply advances_raise.
Qed.

Lemma read_byte_nonneg bytes c n c' : read_byte bytes c = (Ok n, c') -> 0 <= n.
Proof.
  unfold read_byte, bind. destruct (read_exact bytes 1 c) as [[v|e|] c1]; [|done..].
  intros [= <- _]. apply be_value_range.
Qed.

Lemma advances_name bytes n e : 0 <= n -> advances bytes 0 (read_utf8 bytes n e).
Proof.
  intros Hn. eapply advances_weaken; [|apply advances_then; [exact Hn|by apply advances_range|intros v; apply advances_utf8]]. lia.
Qed.

Lemma advances_header bytes headers : advances bytes 2 (parse_header bytes headers).
Proof.
  intros c Hc. unfold parse_header. unfold bind at 1. pose proof (advances_byte bytes c Hc) as Hb.
  destruct (read_byte bytes c) as [[n|e|] c1] eqn:Hn; [|done..]. apply read_byte_nonneg in Hn.
  destruct (n =? 0); [done|].
  assert (advances bytes (0 + (1 + 0)) (let! name := read_utf8 bytes n InvalidHeaderName in
    let! header_type := read_byte bytes in
    let! value := parse_header_value bytes header_type in
    if bool_decide (is_Some (headers !! name)) then raise DuplicateHeader else ret (<[name := value]> headers))) as H.
  { apply advances_bind; [lia|by apply advances_name|]. intros name. apply advances_bind; [lia|apply advances_byte|].
    intros t. apply advances_then; [lia|apply advances_value|]. intros v. case_bool_decide; [apply advances_raise|apply advances_ret]. }
  specialize (H c1 ltac:(lia)). destruct (bind _ _ c1) as [[h|e|] c2]; [lia|done..].
Qed.

Lemma parse_headers_loop_total fuel bytes headers c :
  0 <= c <= len bytes -> len bytes - c <= Z.of_nat fuel -> (parse_headers_loop fuel bytes headers c).1 <> Panic.
Proof.
  revert headers c. induction fuel as [|fuel IH]; intros headers c Hc Hf; cbn [parse_headers_loop]; unfold bind, get.
  - replace (len bytes <=? c) with true by (symmetry; apply Z.leb_le; lia). done.
  - destruct (len bytes <=? c) eqn:Hle; [done|]. bool_simp. pose proof (advances_header bytes headers c Hc) as Ha.
    destruct (parse_header bytes headers c) as [[h|e|] c1]; [|done..]. apply IH; lia.
Qed.

Lemma parse_headers_total bytes : parse_headers bytes <> Panic.
Proof. unfold parse_headers. apply parse_headers_loop_total; unfold len; lia. Qed.

Lemma parse_prelude_total bytes :
  len bytes = PRELUDE_BYTES ->
  match parse_prelude bytes with
  | Ok p => MIN_FRAME_BYTES <= total_length p <= MAX_FRAME_BYTES
      /\ 0 <= headers_length p <= total_length p - MIN_FRAME_BYTES
  | Err _ => True
  | Panic => False
  end.
Proof.
  intros Hl. unfold PRELUDE_BYTES in Hl. unfold parse_prelude, result_bind.
  destruct (slice_ok (E := KiroEventStreamError) 0 4 bytes) as (b1 & -> & _); [lia..|].
  destruct (slice_ok (E := KiroEventStreamError) 4 8 bytes) as (b2 & -> & _); [lia..|].
  destruct (slice_ok (E := KiroEventStreamError) 0 8 bytes) as (b3 & -> & _); [lia..|].
  destruct (slice_ok (E := KiroEventStreamError) 8 PRELUDE_BYTES bytes) as (b4 & -> & _); [unfold PRELUDE_BYTES; lia..|].
  destruct (negb _) eqn:H1; [done|]. destruct (_ <? _) eqn:H2; [done|]. destruct (negb (crc32 b3 =? be_value b4)); [done|].
  bool_simp. pose proof (be_value_range b2). simpl. lia.
Qed.

Lemma find_prelude_total n bytes candidates :
  n = len bytes -> Forall (fun s => (1 <= s)%nat /\ Z.of_nat s + PRELUDE_BYTES <= n) candidates ->
  match find_prelude candidates bytes with
  | Ok (Some s) => 1 <= s /\ s + PRELUDE_BYTES <= n
  | Ok None => True
  | _ => False
  end.
Proof.
  intros -> H. induction H as [|s l [Hs1 Hs2] _ IH]; [done|]. cbn [find_prelude]. unfold result_bind.
  unfold PRELUDE_BYTES in *.
  destruct (slice_ok (E := KiroEventStreamError) (Z.of_nat s) (Z.of_nat s + 12) bytes) as (w & -> & Hw); [lia..|].
  pose proof (parse_prelude_total w ltac:(unfold PRELUDE_BYTES; lia)) as Hp. destruct (parse_prelude w) as [p|e|]; [lia|done..].
Qed.

(** Between calls: bounded buffer, bounded error count, nothing kept once stopped. *)
Record decoder_ok (d : KiroEventStreamDecoder) : Prop := {
  ok_buffer : len (buffer d) <= MAX_BUFFER_BYTES;
  ok_errors : 0 <= consecutive_errors d <= MAX_CONSECUTIVE_ERRORS;
  ok_running : stopped d = false -> consecutive_errors d < MAX_CONSECUTIVE_ERRORS;
  ok_stopped : stopped d = true -> buffer d = [];
}.

(** An error was reported: bytes were consumed, or the decoder has stopped. *)
Definition recovered (d d' : KiroEventStreamDecoder) : Prop :=
  decoder_ok d' /\
  (stopped d' = true \/ stopped d' = false /\ len (buffer d') < len (buffer d)
                        /\ consecutive_errors d' = consecutive_errors d + 1).

Lemma discard_then {B} count d (k : DecoderM B) :
  0 <= count <= len (buffer d) ->
  exists d', (discard count ;;; k) d = k d' /\ len (buffer d') = len (buffer d) - count
    /\ buffer d' = drop (Z.to_nat count) (buffer d)
    /\ consecutive_errors d' = consecutive_errors d /\ stopped d' = stopped d.
Proof.
  intros Hc. unfold bind, discard. replace (_ && _) with true by (symmetry; rewrite andb_true_iff, !Z.leb_le; lia).
  eexists. split; [done|]. simpl. unfold len in *. rewrite length_drop. split_and!; [lia|done..].
Qed.

Lemma recover_spec {A} e d d0 :
  decoder_ok d0 -> stopped d0 = false -> len (buffer d) < len (buffer d0) ->
  consecutive_errors d = consecutive_errors d0 -> stopped d = false ->
  exists e' d', recover (A := A) e d = (Err e', d') /\ recovered d0 d' /\ (e' = e \/ e' = TooManyErrors).
Proof.
  intros [Hb He Hr _] Hs Hlt Hce Hst. specialize (Hr Hs). unfold recover, stop. cbn [consecutive_errors].
  destruct (_ <=? _) eqn:H; bool_simp; eexists _, _; (split; [done|]); (split; [|by auto]).
  - split; [split; simpl; try done; unfold MAX_BUFFER_BYTES, MAX_FRAME_BYTES, MAX_CONSECUTIVE_ERRORS, len in *; simpl; lia|by left].
  - split; [split; simpl in *; try lia; congruence|]. right. simpl. split; [done|]. split; [lia|lia].
Qed.

Lemma resynchronize_spec {B} d (k : DecoderM B) :
  PRELUDE_BYTES <= len (buffer d) ->
  exists d', (resynchronize_prelude ;;; k) d = k d' /\ len (buffer d') < len (buffer d)
    /\ consecutive_errors d' = consecutive_errors d /\ stopped d' = stopped d.
Proof.
  intros Hl. unfold resynchronize_prelude, bind, get, lift.
  pose proof (find_prelude_total (len (buffer d)) (buffer d)
    (seq 1 (Z.to_nat (Z.max 0 (len (buffer d) - PRELUDE_BYTES)))) eq_refl) as Hf.
  unfold PRELUDE_BYTES in *. lapply Hf; clear Hf.
  2:{ apply Forall_forall. intros s Hs%elem_of_seq. lia. }
  intros Hf. destruct (find_prelude _ _) as [o|e|]; [|done..].
  destruct (discard_then (default (len (buffer d) - (12 - 1)) o) d k) as (d' & Heq & Hlen & _ & Hc & Hs).
  { destruct o; simpl; lia. }
  exists d'. unfold bind in *. split; [exact Heq|]. split; [|done]. destruct o; simpl in Hlen; lia.
Qed.

Lemma try_prelude_spec d :
  decoder_ok d -> stopped d = false ->
  match try_prelude d with
  | (Ok None, d') => d' = d /\ len (buffer d) < PRELUDE_BYTES
  | (Ok (Some p), d') => d' = d /\ PRELUDE_BYTES <= len (buffer d)
      /\ MIN_FRAME_BYTES <= total_length p <= MAX_FRAME_BYTES
      /\ 0 <= headers_length p <= total_length p - MIN_FRAME_BYTES
  | (Err _, d') => recovered d d'
  | (Panic, _) => False
  end.
Proof.
  intros Hok Hs. unfold try_prelude. unfold bind at 1, get. destruct (_ <? _) eqn:Hl; bool_simp; [done|].
  unfold bind at 1, lift. assert (PRELUDE_BYTES = 12) as E by done.
  destruct (slice_ok (E := KiroEventStreamError) 0 PRELUDE_BYTES (buffer d)) as (w & -> & Hw); [lia..|].
  pose proof (parse_prelude_total w ltac:(lia)) as Hp. destruct (parse_prelude w) as [p|e|]; [done| |done].
  destruct (resynchronize_spec d (recover (A := option Prelude) e) Hl) as (d1 & -> & Hlt & Hc & Hst).
  destruct (recover_spec (A := option Prelude) e d1 d) as (e' & d' & -> & Hr & _); [done|done|done|done|congruence|done].
Qed.

Lemma decode_frame_spec p d :
  decoder_ok d -> stopped d = false ->
  MIN_FRAME_BYTES <= total_length p -> 0 <= headers_length p <= total_length p - MIN_FRAME_BYTES ->
  total_length p <= len (buffer d) ->
  match decode_frame p d with
  | (Ok (Some f), d') => decoder_ok d' /\ stopped d' = false /\ consecutive_errors d' = 0
      /\ buffer d' = drop (Z.to_nat (total_length p)) (buffer d)
      /\ len (frame_payload f) = total_length p - MIN_FRAME_BYTES - headers_length p
  | (Err _, d') => recovered d d'
  | (Ok None, _) | (Panic, _) => False
  end.
Proof.
  intros Hok Hs Hmin Hh Hl. unfold decode_frame. unfold bind at 1, get.
  unfold MIN_FRAME_BYTES, MESSAGE_CRC_BYTES, PRELUDE_BYTES in *.
  destruct (slice_ok (E := KiroEventStreamError) (total_length p - 4) (total_length p) (buffer d)) as (x & Hx & _); [lia..|].
  destruct (slice_ok (E := KiroEventStreamError) 0 (total_length p - 4) (buffer d)) as (y & Hy & _); [lia..|].
  destruct (slice_ok (E := KiroEventStreamError) 12 (12 + headers_length p) (buffer d)) as (h & Hhb & _); [lia..|].
  destruct (slice_ok (E := KiroEventStreamError) (12 + headers_length p) (total_length p - 4) (buffer d)) as (pl & Hpl & Hplen); [lia..|].
  unfold bind at 1, lift. rewrite Hx. unfold bind at 1. rewrite Hy.
  assert (forall e, match (discard (total_length p) ;;; recover (A := option KiroEventStreamFrame) e) d with
                    | (Err _, d') => recovered d d' | _ => False end) as Hrec.
  { intros e. destruct (discard_then (total_length p) d (recover (A := option KiroEventStreamFrame) e)) as (d1 & -> & Hlen & _ & Hc & Hst); [lia|].
    destruct (recover_spec (A := option KiroEventStreamFrame) e d1 d) as (e' & d' & -> & Hr & _);
      [done|done|lia|done|congruence|done]. }
  destruct (negb _).
  { specialize (Hrec MessageCrcMismatch). by destruct ((discard _ ;;; recover _) d) as [[?|?|] ?]. }
  unfold bind at 1. rewrite Hhb. pose proof (parse_headers_total h). destruct (parse_headers h) as [hs|e|]; [| |done].
  - unfold bind at 1. rewrite Hpl.
    match goal with |- context [(discard _ ;;; ?k) d] =>
      destruct (discard_then (total_length p) d k) as (d1 & -> & Hlen & Hbuf & Hc & Hst); [lia|] end.
    unfold bind, put, ret. simpl. destruct Hok as [Hb _ _ _]. split; [|split_and!; [congruence|done|done|lia]].
    split; simpl; unfold MAX_CONSECUTIVE_ERRORS; try lia. congruence.
  - specialize (Hrec e). by destruct ((discard _ ;;; recover _) d) as [[?|?|] ?].
Qed.

(** Collects what repeated [next_frame] calls report, until more bytes are needed
    or the decoder stops. *)
Fixpoint drain (fuel : nat) (d : KiroEventStreamDecoder)
  : option (list (KiroEventStreamError + KiroEventStreamFrame) * KiroEventStreamDecoder) :=
  match fuel with
  | O => None
  | S fuel' =>
      match next_frame d with
      | (Ok None, d') => Some ([], d')
      | (Ok (Some f), d') => (fun x => (inr f :: x.1, x.2)) <$> drain fuel' d'
      | (Err e, d') =>
          if stopped d' then Some ([inl e], d') else (fun x => (inl e :: x.1, x.2)) <$> drain fuel' d'
      | (Panic, _) => None
      end
  end.

Lemma next_frame_spec d :
  decoder_ok d ->
  match next_frame d with
  | (Ok None, d') => d' = d /\ stopped d = false /\ len (buffer d) < MAX_FRAME_BYTES
  | (Ok (Some f), d') => decoder_ok d' /\ stopped d' = false /\ consecutive_errors d' = 0
      /\ len (buffer d') + MIN_FRAME_BYTES + len (frame_payload f) <= len (buffer d)
  | (Err e, d') => (stopped d = true /\ e = Stopped /\ d' = d) \/ (stopped d = false /\ recovered d d')
  | (Panic, _) => False
  end.
Proof.
  intros Hok. unfold next_frame. unfold bind at 1, get. destruct (stopped d) eqn:Hs; [by left|].
  unfold bind at 1. pose proof (try_prelude_spec d Hok Hs) as Hp.
  destruct (try_prelude d) as [[[p|]|e|] d1]; [| |by right|done].
  - destruct Hp as (-> & _ & Ht & Hh). unfold bind at 1, get. destruct (_ <? _) eqn:Hl; bool_simp; [split_and!; [done..|lia]|].
    pose proof (decode_frame_spec p d Hok Hs (proj1 Ht) Hh Hl) as Hd.
    destruct (decode_frame p d) as [[[f|]|e|] d']; [|done|by right|done].
    destruct Hd as (Hok' & Hs' & Hc & Hbuf & Hpl). split_and!; try done. rewrite Hbuf, Hpl.
    unfold len in *. rewrite length_drop. unfold MIN_FRAME_BYTES, PRELUDE_BYTES, MESSAGE_CRC_BYTES in *. lia.
  - destruct Hp as [-> Hl]. split_and!; [done..|]. unfold PRELUDE_BYTES, MAX_FRAME_BYTES in *. lia.
Qed.

Lemma feed_spec bytes d :
  decoder_ok d ->
  match feed bytes d with
  | (Ok _, d') => d' = mkDecoder (buffer d ++ bytes) (consecutive_errors d) false /\ stopped d = false
      /\ len (buffer d ++ bytes) <= MAX_BUFFER_BYTES
  | (Err e, d') => e = Stopped /\ stopped d = true /\ d' = d
      \/ e = BufferLimitExceeded /\ d' = mkDecoder [] (consecutive_errors d) true
         /\ MAX_BUFFER_BYTES < len (buffer d ++ bytes)
  | (Panic, _) => False
  end.
Proof.
  intros Hok. unfold feed, stop. assert (len (buffer d ++ bytes) = len (buffer d) + len bytes) as Hl
    by (unfold len; rewrite length_app; lia).
  destruct (stopped d) eqn:Hs; [by left|]. rewrite Hl. destruct (_ <=? _) eqn:H1; bool_simp.
  { right. split_and!; try done. unfold usize_modulus, MAX_BUFFER_BYTES, MAX_FRAME_BYTES in *. lia. }
  destruct (_ <? _) eqn:H2; bool_simp; [right; done|done].
Qed.

Lemma stopped_ok c : 0 <= c <= MAX_CONSECUTIVE_ERRORS -> decoder_ok (mkDecoder [] c true).
Proof. intros Hc. split; simpl; try done; lia. Qed.

Lemma feed_keeps_ok bytes d : decoder_ok d -> decoder_ok (feed bytes d).2.
Proof.
  intros Hok. pose proof (feed_spec bytes d Hok) as H. destruct Hok as [Hb He Hr Hst].
  destruct (feed bytes d) as [[[]|e|] d']; simpl; [| |done].
  - destruct H as (-> & Hs & Hl). split; simpl; try done. auto.
  - destruct H as [(_ & _ & ->)|(_ & -> & _)]; [done|by apply stopped_ok].
Qed.

Lemma next_frame_keeps_ok d : decoder_ok d -> decoder_ok (next_frame d).2.
Proof.
  intros Hok. pose proof (next_frame_spec d Hok) as H.
  destruct (next_frame d) as [[[f|]|e|] d']; simpl; [|by destruct H as (-> & _)| |done].
  - apply H.
  - destruct H as [(_ & _ & ->)|(_ & H & _)]; done.
Qed.

Lemma finish_keeps_ok d : decoder_ok d -> decoder_ok (finish d).2 /\ (finish d).1 <> Panic.
Proof.
  intros Hok. unfold finish, bind, get, raise, ret, stop. destruct (stopped d); [done|]. destruct (buffer d); [done|].
  split; [|done]. simpl. apply stopped_ok. apply Hok.
Qed.

Inductive DecoderOp : Type := OpFeed (bytes : Bytes) | OpNext | OpFinish.

(** Whether the operation panics, and the decoder afterwards. *)
Definition decoder_step (op : DecoderOp) (d : KiroEventStreamDecoder) : bool * KiroEventStreamDecoder :=
  match op with
  | OpFeed bytes => match feed bytes d with (Panic, d') => (true, d') | (_, d') => (false, d') end
  | OpNext => match next_frame d with (Panic, d') => (true, d') | (_, d') => (false, d') end
  | OpFinish => match finish d with (Panic, d') => (true, d') | (_, d') => (false, d') end
  end.

Definition decoder_run (ops : list DecoderOp) (d : KiroEventStreamDecoder) : KiroEventStreamDecoder :=
  fold_left (fun d op => (decoder_step op d).2) ops d.

Lemma decoder_step_ok op d : decoder_ok d -> decoder_ok (decoder_step op d).2 /\ (decoder_step op d).1 = false.
Proof.
  intros Hok. destruct op as [bytes| |]; simpl.
  - pose proof (feed_keeps_ok bytes d Hok). pose proof (feed_spec bytes d Hok). by destruct (feed bytes d) as [[?|?|] ?].
  - pose proof (next_frame_keeps_ok d Hok). pose proof (next_frame_spec d Hok). by destruct (next_frame d) as [[?|?|] ?].
  - destruct (finish_keeps_ok d Hok). by destruct (finish d) as [[?|?|] ?].
Qed.

Lemma decoder_run_ok ops d : decoder_ok d -> decoder_ok (decoder_run ops d).
Proof.
  revert d. induction ops as [|op ops IH]; intros d Hok; [done|]. apply IH. by apply decoder_step_ok.
Qed.

Lemma decoder_new_ok : decoder_ok decoder_new.
Proof. split; simpl; try done; unfold MAX_BUFFER_BYTES, MAX_FRAME_BYTES, MAX_CONSECUTIVE_ERRORS, len; simpl; lia. Qed.

(** C40: Whatever bytes arrive in whatever chunks, and however calls are ordered, the
    decoder never panics, never buffers more than two maximal frames, has stopped
    after five consecutive errors and keeps no bytes once stopped. *)
Theorem decoder_is_total_and_bounded ops op :
  decoder_ok (decoder_run ops decoder_new) /\ (decoder_step op (decoder_run ops decoder_new)).1 = false.
Proof.
  pose proof (decoder_run_ok ops _ decoder_new_ok) as Hok. split; [done|]. by apply decoder_step_ok.
Qed.

(** Draining terminates on any input.  Every report of [next_frame] other than
    "more bytes needed" consumes input or stops the decoder, so at most one report
    per buffered byte is possible, after which fewer bytes than one maximal frame
    remain. *)
Lemma drain_terminates d fuel :
  decoder_ok d -> len (buffer d) + 1 < Z.of_nat fuel ->
  exists reports d', drain fuel d = Some (reports, d') /\ decoder_ok d'
    /\ Z.of_nat (length reports) <= len (buffer d) + 1 /\ len (buffer d') < MAX_FRAME_BYTES.
Proof.
  revert d. induction fuel as [|fuel IH]; intros d Hok Hf; [unfold len in *; lia|].
  cbn [drain]. pose proof (next_frame_spec d Hok) as Hn.
  assert (0 <= len (buffer d)) as Hpos by (unfold len; lia).
  destruct (next_frame d) as [[[f|]|e|] d']; [| | |done].
  - destruct Hn as (Hok' & _ & _ & Hl). unfold MIN_FRAME_BYTES, PRELUDE_BYTES, MESSAGE_CRC_BYTES, len in *.
    destruct (IH d' Hok') as (out & d2 & -> & Hok2 & Hlen & Hlt); [lia|]. eexists _, d2. simpl.
    split; [done|]. split; [done|]. simpl. split; [lia|done].
  - destruct Hn as (-> & _ & Hl). eexists [], d. simpl. split_and!; [done..|lia|lia].
  - assert (len [] < MAX_FRAME_BYTES) as Hnil by done.
    destruct Hn as [(Hs & -> & ->)|(Hs & Hok' & [Hs'|(Hs' & Hl & _)])].
    + rewrite Hs. eexists _, d. split; [done|]. split_and!; [done|simpl; lia|by rewrite (ok_stopped d Hok Hs)].
    + rewrite Hs'. eexists _, d'. split; [done|]. split_and!; [done|simpl; lia|by rewrite (ok_stopped d' Hok' Hs')].
    + rewrite Hs'. destruct (IH d' Hok') as (out & d2 & -> & Hok2 & Hlen & Hlt); [lia|]. eexists _, d2.
      split; [done|]. simpl. split_and!; [done|lia|done].
Qed.

(** ** Reference encoding *)

Definition encode_value (v : KiroEventStreamHeaderValue) : Bytes :=
  match v with
  | BoolTrue => be_bytes 1 0
  | BoolFalse => be_bytes 1 1
  | HByte z => be_bytes 1 2 ++ be_bytes 1 z
  | Int16 z => be_bytes 1 3 ++ be_bytes 2 z
  | Int32 z => be_bytes 1 4 ++ be_bytes 4 z
  | Int64 z => be_bytes 1 5 ++ be_bytes 8 z
  | ByteArray b => be_bytes 1 6 ++ be_bytes 2 (len b) ++ b
  | HString s => be_bytes 1 7 ++ be_bytes 2 (len (text_bytes s)) ++ text_bytes s
  | Timestamp z => be_bytes 1 8 ++ be_bytes 8 z
  | Uuid b => be_bytes 1 9 ++ b
  end.

Definition encode_header (h : string * KiroEventStreamHeaderValue) : Bytes :=
  be_bytes 1 (len (text_bytes h.1)) ++ text_bytes h.1 ++ encode_value h.2.

Definition encode_headers (hs : list (string * KiroEventStreamHeaderValue)) : Bytes := concat (encode_header <$> hs).

Definition encode_prelude (total headers : Z) : Bytes :=
  let lengths := be_bytes 4 total ++ be_bytes 4 headers in lengths ++ be_bytes 4 (crc32 lengths).

Definition frame_length (hs : list (string * KiroEventStreamHeaderValue)) (payload : Bytes) : Z :=
  MIN_FRAME_BYTES + len (encode_headers hs) + len payload.

Definition encode_frame (frame : list (string * KiroEventStreamHeaderValue) * Bytes) : Bytes :=
  let '(hs, payload) := frame in
  let message := encode_prelude (frame_length hs payload) (len (encode_headers hs)) ++ encode_headers hs ++ payload in
  message ++ be_bytes 4 (crc32 message).

Definition signed_ok (bits v : Z) : Prop := - 2 ^ (bits - 1) <= v < 2 ^ (bits - 1).

Definition value_ok (v : KiroEventStreamHeaderValue) : Prop :=
  match v with
  | BoolTrue | BoolFalse => True
  | HByte z => signed_ok 8 z
  | Int16 z => signed_ok 16 z
  | Int32 z => signed_ok 32 z
  | Int64 z | Timestamp z => signed_ok 64 z
  | ByteArray b => len b < 65536
  | HString s => len (text_bytes s) < 65536 /\ utf8_valid s = true
  | Uuid b => len b = 16
  end.

Definition header_ok (h : string * KiroEventStreamHeaderValue) : Prop :=
  1 <= len (text_bytes h.1) < 256 /\ utf8_valid h.1 = true /\ value_ok h.2.

Definition frame_ok (frame : list (string * KiroEventStreamHeaderValue) * Bytes) : Prop :=
  NoDup frame.1.*1 /\ Forall header_ok frame.1 /\ frame_length frame.1 frame.2 <= MAX_FRAME_BYTES.

Definition decoded (frame : list (string * KiroEventStreamHeaderValue) * Bytes) : KiroEventStreamFrame :=
  mkFrame (list_to_map frame.1) frame.2.

(** ** Encodings of integers *)

Lemma cast_signed_mod bits v : 0 < bits -> signed_ok bits v -> cast_signed bits (v mod 2 ^ bits) = v.
Proof.
  unfold signed_ok, cast_signed. intros Hb Hv.
  assert (2 ^ bits = 2 * 2 ^ (bits - 1)) as Hp by (rewrite <- Z.pow_succ_r by lia; f_equal; lia).
  pose proof (Z.pow_pos_nonneg 2 (bits - 1) ltac:(lia) ltac:(lia)).
  destruct (Z_lt_ge_dec v 0) as [Hneg|Hpos].
  - replace (v mod 2 ^ bits) with (v + 2 ^ bits) by (apply (Z.mod_unique v (2 ^ bits) (-1)); lia).
    replace (_ <? _) with false by (symmetry; apply Z.ltb_ge; lia). lia.
  - rewrite Z.mod_small by lia. replace (_ <? _) with true by (symmetry; apply Z.ltb_lt; lia). done.
Qed.

(** ** Readers read what was written *)

Definition reads {A} (m : Bytes -> Cursor A) (enc : Bytes) (v : A) : Prop :=
  forall pre post, len (pre ++ enc ++ post) < usize_modulus ->
    m (pre ++ enc ++ post) (len pre) = (Ok v, len (pre ++ enc)).

Lemma reads_bind {A B} (m : Bytes -> Cursor A) (f : A -> Bytes -> Cursor B) e1 e2 v w :
  reads m e1 v -> reads (f v) e2 w -> reads (fun b => let! a := m b in f a b) (e1 ++ e2) w.
Proof.
  intros Hm Hf pre post Hl. unfold bind. rewrite <- app_assoc in *. rewrite (Hm pre (e2 ++ post) Hl).
  specialize (Hf (pre ++ e1) post). rewrite <- !app_assoc in Hf. exact (Hf Hl).
Qed.

Lemma reads_ret {A} (v : A) : reads (fun _ => ret v) [] v.
Proof. intros pre post _. by rewrite app_nil_r. Qed.

Lemma reads_range x e : reads (fun b => read_range b (len x) e) x x.
Proof.
  intros pre post Hl. unfold read_range, slice. rewrite !len_app in *.
  assert (0 <= len pre /\ 0 <= len x /\ 0 <= len post) as (? & ? & ?) by (unfold len; lia).
  replace (usize_modulus <=? len pre + len x) with false by (symmetry; apply Z.leb_gt; lia).
  replace (len pre + (len x + len post) <? len pre + len x) with false by (symmetry; apply Z.ltb_ge; lia).
  replace (_ && _ && _) with true by (symmetry; rewrite !andb_true_iff, !Z.leb_le; lia).
  f_equal. f_equal. unfold len.
  replace (Z.of_nat (length pre) + Z.of_nat (length x) - Z.of_nat (length pre)) with (Z.of_nat (length x)) by lia.
  by rewrite !Nat2Z.id, drop_app_length, take_app_length.
Qed.

Lemma reads_map {A B} (m : Bytes -> Cursor A) (g : A -> B) enc v :
  reads m enc v -> reads (fun b => let! a := m b in ret (g a)) enc (g v).
Proof. intros Hm pre post Hl. unfold bind. by rewrite (Hm pre post Hl). Qed.

Lemma reads_fixed n z : reads (fun b => read_exact b (Z.of_nat n)) (be_bytes n z) (be_bytes n z).
Proof. intros pre post Hl. rewrite <- (len_be_bytes n z) at 1. by apply reads_range. Qed.

Lemma reads_byte z : 0 <= z < 256 -> reads read_byte (be_bytes 1 z) z.
Proof.
  intros Hz. pose proof (reads_map (fun b => read_exact b 1) be_value _ _ (reads_fixed 1 z)) as H.
  rewrite be_bytes_small in H by (simpl; lia). exact H.
Qed.

Lemma reads_signed n z :
  signed_ok (8 * Z.of_nat n) z -> (0 < n)%nat -> reads (fun b => read_signed b (Z.of_nat n)) (be_bytes n z) z.
Proof.
  intros Hz Hn. pose proof (reads_map (fun b => read_exact b (Z.of_nat n))
    (fun v => cast_signed (8 * Z.of_nat n) (be_value v)) _ _ (reads_fixed n z)) as H.
  cbv beta in H. rewrite be_value_bytes in H. replace (256 ^ Z.of_nat n) with (2 ^ (8 * Z.of_nat n)) in H by (rewrite Z.pow_mul_r by lia; done).
  rewrite cast_signed_mod in H by (done || lia). exact H.
Qed.

Lemma reads_variable b : len b < 65536 -> reads read_variable_bytes (be_bytes 2 (len b) ++ b) b.
Proof.
  intros Hb. unfold read_variable_bytes. apply (reads_bind (fun x => read_exact x 2) (fun l x => read_exact x (be_value l)) _ _ (be_bytes 2 (len b))).
  - apply reads_fixed.
  - rewrite be_bytes_small by (unfold len in *; simpl; lia). apply reads_range.
Qed.

Lemma reads_utf8 e s : utf8_valid s = true -> reads (fun _ => from_utf8 e (text_bytes s)) [] s.
Proof. intros Hs pre post _. unfold from_utf8. rewrite text_round, Hs. by rewrite app_nil_r. Qed.

Lemma reads_name e s : utf8_valid s = true -> reads (fun b => read_utf8 b (len (text_bytes s)) e) (text_bytes s) s.
Proof.
  intros Hs. pose proof (reads_bind (fun b => read_range b (len (text_bytes s)) e) (fun v _ => from_utf8 e v)
    (text_bytes s) [] (text_bytes s) s (reads_range _ e) (reads_utf8 e s Hs)) as H.
  rewrite app_nil_r in H. exact H.
Qed.

(** The content of a value after its type byte. *)
Lemma reads_value v :
  value_ok v ->
  exists t content, encode_value v = be_bytes 1 t ++ content /\ 0 <= t < 256
    /\ reads (fun b => parse_header_value b t) content v.
Proof.
  destruct v as [| |z|z|z|z|b|s|z|b]; intros Hv; unfold encode_value;
    [exists 0|exists 1|exists 2|exists 3|exists 4|exists 5|exists 6|exists 7|exists 8|exists 9];
    eexists; (split; [first [reflexivity|symmetry; apply app_nil_r]|]); (split; [lia|]).
  - apply reads_ret.
  - apply reads_ret.
  - pose proof (reads_map (fun b => read_byte b) (fun v => HByte (cast_signed 8 v)) (be_bytes 1 z) (z mod 256)) as H.
    cbv beta in H. rewrite (cast_signed_mod 8) in H by (done || lia). apply H.
    intros pre post Hl. pose proof (reads_map (fun b => read_exact b 1) be_value _ _ (reads_fixed 1 z) pre post Hl) as H1.
    rewrite be_value_bytes in H1. exact H1.
  - apply (reads_map read_i16 Int16). by apply (reads_signed 2); [|lia].
  - apply (reads_map read_i32 Int32). by apply (reads_signed 4); [|lia].
  - apply (reads_map read_i64 Int64). by apply (reads_signed 8); [|lia].
  - apply (reads_map read_variable_bytes ByteArray). by apply reads_variable.
  - destruct Hv as [Hl Hu]. rewrite <- (app_nil_r (_ ++ _)).
    apply (reads_bind read_variable_bytes
      (fun v _ => let! s := from_utf8 InvalidHeaderValue v in ret (HString s)) _ _ (text_bytes s)).
    + by apply reads_variable.
    + apply (reads_map (fun _ => from_utf8 InvalidHeaderValue (text_bytes s)) HString). by apply reads_utf8.
  - apply (reads_map read_i64 Timestamp). by apply (reads_signed 8); [|lia].
  - apply (reads_map (fun x => read_exact x 16) Uuid). simpl in Hv. rewrite <- Hv. apply reads_range.
Qed.

Lemma reads_header headers h :
  header_ok h -> headers !! h.1 = None ->
  reads (fun b => parse_header b headers) (encode_header h) (<[h.1 := h.2]> headers).
Proof.
  destruct h as [name v]. intros (Hn & Hu & Hv) Hfresh. simpl in *. destruct (reads_value v Hv) as (t & content & Henc & Ht & Hr).
  unfold encode_header. cbn [fst snd]. rewrite Henc.
  apply (reads_bind read_byte (fun n b => if n =? 0 then raise InvalidHeaderName else
    let! name := read_utf8 b n InvalidHeaderName in let! t := read_byte b in let! v := parse_header_value b t in
    if bool_decide (is_Some (headers !! name)) then raise DuplicateHeader else ret (<[name := v]> headers))
    _ _ (len (text_bytes name))); [apply reads_byte; lia|].
  replace (len (text_bytes name) =? 0) with false by (symmetry; apply Z.eqb_neq; lia).
  apply (reads_bind (fun b => read_utf8 b (len (text_bytes name)) InvalidHeaderName)
    (fun name b => let! t := read_byte b in let! v := parse_header_value b t in
      if bool_decide (is_Some (headers !! name)) then raise DuplicateHeader else ret (<[name := v]> headers))
    _ _ name); [by apply reads_name|].
  apply (reads_bind read_byte (fun t b => let! v := parse_header_value b t in
      if bool_decide (is_Some (headers !! name)) then raise DuplicateHeader else ret (<[name := v]> headers)) _ _ t);
    [by apply reads_byte|].
  rewrite Hfresh. rewrite bool_decide_eq_false_2 by (by intros [? ?]).
  apply (reads_map (fun b => parse_header_value b t) (fun v => <[name := v]> headers)). exact Hr.
Qed.

Lemma parse_headers_loop_encoded hs fuel pre headers :
  Forall header_ok hs -> NoDup hs.*1 -> (forall n, n ∈ hs.*1 -> headers !! n = None) ->
  len (pre ++ encode_headers hs) < usize_modulus -> (length (encode_headers hs) <= fuel)%nat ->
  (parse_headers_loop fuel (pre ++ encode_headers hs) headers (len pre)).1 = Ok (list_to_map hs ∪ headers).
Proof.
  revert fuel pre headers. induction hs as [|h hs IH]; intros fuel pre headers Hok Hnd Hfresh Hl Hfuel.
  - unfold encode_headers. simpl. rewrite app_nil_r, map_empty_union. destruct fuel; simpl; unfold bind, get;
      replace (len pre <=? len pre) with true by (symmetry; apply Z.leb_refl); done.
  - inversion_clear Hok as [|? ? Hh Hhs]. rewrite fmap_cons in Hnd. apply NoDup_cons in Hnd as [Hn Hnd].
    change (encode_headers (h :: hs)) with (encode_header h ++ encode_headers hs) in *.
    assert (1 <= len (encode_header h)) as Hone by (unfold encode_header; rewrite len_app, len_be_bytes; unfold len; lia).
    rewrite length_app in Hfuel. destruct fuel as [|fuel]; [unfold len in Hone; lia|].
    cbn [parse_headers_loop]. unfold bind, get.
    replace (_ <=? _) with false by (symmetry; apply Z.leb_gt; rewrite !len_app; unfold len in *; lia).
    rewrite (reads_header headers h Hh (Hfresh _ (list_elem_of_here _ _)) pre (encode_headers hs) Hl).
    rewrite app_assoc. rewrite IH; [|done|done| |by rewrite <- app_assoc|unfold len in Hone; lia].
    + f_equal. destruct h as [n v]. simpl in *.
      assert ((list_to_map hs : KiroEventStreamHeaders) !! n = None) as Hnone by (by apply not_elem_of_list_to_map_1).
      by rewrite <- insert_union_r, insert_union_l by done.
    + intros n Hin. rewrite lookup_insert_ne; [apply Hfresh; by right|]. intros <-. done.
Qed.

Lemma parse_headers_encoded hs :
  Forall header_ok hs -> NoDup hs.*1 -> len (encode_headers hs) < usize_modulus ->
  parse_headers (encode_headers hs) = Ok (list_to_map hs).
Proof.
  intros Hok Hnd Hl. unfold parse_headers. rewrite (parse_headers_loop_encoded hs _ [] ∅) by done.
  by rewrite map_union_empty.
Qed.

Lemma slice_app {E} (a b c : Bytes) lo hi :
  lo = len a -> hi = len a + len b -> @slice E lo hi (a ++ b ++ c) = Ok b.
Proof.
  intros -> ->. unfold slice. rewrite !len_app.
  replace (_ && _ && _) with true by (symmetry; rewrite !andb_true_iff, !Z.leb_le; unfold len; lia).
  f_equal. unfold len. replace (Z.of_nat (length a) + Z.of_nat (length b) - Z.of_nat (length a)) with (Z.of_nat (length b)) by lia.
  by rewrite !Nat2Z.id, drop_app_length, take_app_length.
Qed.

Lemma slice_head {E} (b c : Bytes) hi : hi = len b -> @slice E 0 hi (b ++ c) = Ok b.
Proof. intros ->. by apply (slice_app []). Qed.

Lemma slice_tail {E} (a b : Bytes) lo hi : lo = len a -> hi = len a + len b -> @slice E lo hi (a ++ b) = Ok b.
Proof. intros H1 H2. rewrite <- (app_nil_r b) at 1. by apply slice_app. Qed.

Lemma crc_range bytes : 0 <= crc32 bytes < 2 ^ 32.
Proof.
  assert (forall a, 0 <= a < 2 ^ 32 -> Z.log2 a < 32) as Hlog.
  { intros a Ha. destruct (decide (a = 0)) as [->|Hne]; [done|]. apply Z.log2_lt_pow2; lia. }
  assert (forall a b, 0 <= a < 2 ^ 32 -> 0 <= b < 2 ^ 32 -> 0 <= Z.lxor a b < 2 ^ 32) as Hx.
  { intros a b Ha Hb. pose proof (proj2 (Z.lxor_nonneg a b) ltac:(lia)) as Hpos. split; [done|].
    destruct (decide (Z.lxor a b = 0)) as [->|Hne]; [lia|].
    apply Z.log2_lt_pow2; [lia|]. eapply Z.le_lt_trans; [apply Z.log2_lxor; lia|]. apply Z.max_lub_lt; auto. }
  assert (forall c, 0 <= c < 2 ^ 32 -> 0 <= crc_shift c < 2 ^ 32) as Hs.
  { intros c Hc. unfold crc_shift. assert (0 <= Z.shiftr c 1 < 2 ^ 32) as Hr.
    { rewrite Z.shiftr_div_pow2 by lia. split; [apply Z.div_pos; lia|]. apply Z.div_lt_upper_bound; lia. }
    destruct (_ =? _); [done|]. apply Hx; [done|lia]. }
  assert (forall n c, 0 <= c < 2 ^ 32 -> 0 <= Nat.iter n crc_shift c < 2 ^ 32) as Hi.
  { intros n. induction n as [|n IH]; intros c Hc; [done|]. apply Hs. by apply IH. }
  unfold crc32. apply Hx; [|unfold u32_max; lia].
  assert (forall bs c, 0 <= c < 2 ^ 32 -> 0 <= fold_left crc_byte bs c < 2 ^ 32) as Hf.
  { intros bs. induction bs as [|b bs IH]; intros c Hc; [done|]. apply IH. apply Hi. apply Hx; [done|].
    pose proof (byte_val_range b). lia. }
  apply Hf. unfold u32_max. lia.
Qed.

Lemma crc_bytes bytes : be_value (be_bytes 4 (crc32 bytes)) = crc32 bytes.
Proof. apply be_bytes_small. apply (crc_range bytes). Qed.

Lemma parse_prelude_encoded total headers :
  MIN_FRAME_BYTES <= total <= MAX_FRAME_BYTES -> 0 <= headers <= total - MIN_FRAME_BYTES ->
  parse_prelude (encode_prelude total headers) = Ok (mkPrelude total headers).
Proof.
  intros Ht Hh. unfold parse_prelude, encode_prelude, result_bind, MIN_FRAME_BYTES, PRELUDE_BYTES, MESSAGE_CRC_BYTES, MAX_FRAME_BYTES in *.
  set (l1 := be_bytes 4 total). set (l2 := be_bytes 4 headers). set (c := be_bytes 4 _).
  assert (len l1 = 4 /\ len l2 = 4 /\ len c = 4) as (E1 & E2 & E3) by (unfold l1, l2, c; by rewrite !len_be_bytes).
  rewrite (slice_head (l1 ++ l2) c 8) by (by rewrite len_app, E1, E2).
  rewrite (slice_tail (l1 ++ l2) c 8 12) by (by rewrite len_app, E1, E2, ?E3).
  rewrite <- app_assoc, (slice_head l1 (l2 ++ c) 4), (slice_app l1 l2 c 4 8) by (by rewrite ?E1, ?E2).
  assert (be_value l1 = total) as -> by (apply be_bytes_small; change (256 ^ Z.of_nat 4) with 4294967296; lia).
  assert (be_value l2 = headers) as -> by (apply be_bytes_small; change (256 ^ Z.of_nat 4) with 4294967296; lia).
  assert (be_value c = crc32 (l1 ++ l2)) as -> by apply crc_bytes. rewrite Z.eqb_refl.
  replace (_ && _) with true by (symmetry; rewrite andb_true_iff, !Z.leb_le; lia).
  replace (_ <? _) with false by (symmetry; apply Z.ltb_ge; lia). done.
Qed.

(** ** Frames read back *)

#[local] Arguments be_bytes : simpl never.
#[local] Arguments encode_prelude : simpl never.
#[local] Arguments slice : simpl never.
#[local] Arguments crc32 : simpl never.
#[local] Arguments encode_frame : simpl never.

Lemma encode_frame_shape hs payload :
  exists message, encode_frame (hs, payload) = message ++ be_bytes 4 (crc32 message)
    /\ message = encode_prelude (frame_length hs payload) (len (encode_headers hs)) ++ encode_headers hs ++ payload
    /\ len message = frame_length hs payload - 4 /\ len (encode_frame (hs, payload)) = frame_length hs payload.
Proof.
  unfold encode_frame. set (m := _ ++ encode_headers hs ++ payload). exists m. split; [done|]. split; [done|].
  assert (len m = frame_length hs payload - 4) as Hm.
  { unfold m, encode_prelude, frame_length, MIN_FRAME_BYTES, PRELUDE_BYTES, MESSAGE_CRC_BYTES.
    rewrite !len_app, !len_be_bytes. lia. }
  split; [done|]. rewrite len_app, len_be_bytes, Hm. lia.
Qed.

Lemma frame_bounds hs payload :
  frame_ok (hs, payload) ->
  MIN_FRAME_BYTES <= frame_length hs payload <= MAX_FRAME_BYTES
  /\ 0 <= len (encode_headers hs) <= frame_length hs payload - MIN_FRAME_BYTES.
Proof. intros (_ & _ & H). simpl in H. unfold frame_length, len in *. lia. Qed.

(** A buffer that starts like an encoded frame, at least up to its prelude. *)
Lemma try_prelude_encoded hs payload rest errors :
  frame_ok (hs, payload) ->
  let d := mkDecoder (encode_prelude (frame_length hs payload) (len (encode_headers hs)) ++ rest) errors false in
  try_prelude d = (Ok (Some (mkPrelude (frame_length hs payload) (len (encode_headers hs)))), d).
Proof.
  intros Hf d. destruct (frame_bounds hs payload Hf) as [H1 H2]. subst d.
  set (p := encode_prelude (frame_length hs payload) (len (encode_headers hs))).
  unfold try_prelude, bind, get, lift. cbn [buffer]. assert (len p = PRELUDE_BYTES) as Hp.
  { unfold p, encode_prelude. rewrite !len_app, !len_be_bytes. done. }
  rewrite len_app, Hp. replace (_ <? _) with false by (symmetry; apply Z.ltb_ge; unfold len; lia).
  rewrite slice_head by done. unfold p. by rewrite parse_prelude_encoded by done.
Qed.

Lemma next_frame_encoded hs payload rest errors :
  frame_ok (hs, payload) ->
  next_frame (mkDecoder (encode_frame (hs, payload) ++ rest) errors false)
  = (Ok (Some (decoded (hs, payload))), mkDecoder rest 0 false).
Proof.
  intros Hf. destruct (frame_bounds hs payload Hf) as [H1 H2].
  destruct (encode_frame_shape hs payload) as (m & He & Hm & Hml & Hel).
  assert (encode_frame (hs, payload) ++ rest = encode_prelude (frame_length hs payload) (len (encode_headers hs))
    ++ (encode_headers hs ++ payload ++ be_bytes 4 (crc32 m) ++ rest)) as Hsplit
    by (rewrite He, Hm at 1; by rewrite <- !app_assoc).
  unfold next_frame. unfold bind at 1, get. cbn [stopped]. unfold bind at 1.
  rewrite Hsplit, (try_prelude_encoded hs payload _ errors Hf), <- Hsplit.
  unfold bind at 1, get. cbn [buffer total_length]. rewrite len_app, Hel.
  replace (_ <? _) with false by (symmetry; apply Z.ltb_ge; unfold len; lia).
  unfold decode_frame, bind, get, lift. cbn [buffer total_length headers_length].
  unfold MESSAGE_CRC_BYTES, PRELUDE_BYTES.
  rewrite He, <- (app_assoc m).
  rewrite (slice_app m (be_bytes 4 (crc32 m)) rest) by (rewrite ?len_be_bytes; lia).
  rewrite (slice_head m _ (frame_length hs payload - 4)) by lia.
  rewrite crc_bytes, Z.eqb_refl. cbn [negb].
  set (p := encode_prelude (frame_length hs payload) (len (encode_headers hs))) in Hm. assert (len p = 12) as Hp by (unfold p, encode_prelude; by rewrite !len_app, !len_be_bytes).
  set (tail := be_bytes 4 (crc32 m) ++ rest).
  assert (m ++ tail = p ++ encode_headers hs ++ payload ++ tail) as Hmt by (rewrite Hm; by rewrite <- !app_assoc).
  rewrite Hmt, (slice_app p (encode_headers hs) (payload ++ tail)) by lia.
  destruct Hf as (Hnd & Hok & Hmax). cbn [fst snd] in *.
  rewrite parse_headers_encoded by (done || (unfold usize_modulus, MAX_FRAME_BYTES, MIN_FRAME_BYTES, PRELUDE_BYTES, MESSAGE_CRC_BYTES in *; lia)).
  rewrite app_assoc. unfold frame_length, MIN_FRAME_BYTES, PRELUDE_BYTES, MESSAGE_CRC_BYTES in *.
  rewrite (slice_app (p ++ encode_headers hs) payload tail) by (rewrite len_app; lia).
  rewrite <- app_assoc, <- Hmt. unfold tail. rewrite app_assoc, <- He.
  unfold discard. cbn [buffer stopped consecutive_errors]. replace (_ && _) with true
    by (symmetry; rewrite andb_true_iff, !Z.leb_le, len_app, Hel; unfold len; lia).
  unfold put, ret. cbn [buffer stopped consecutive_errors]. unfold decoded. cbn [fst snd]. f_equal. f_equal.
  replace (Z.to_nat _) with (length (encode_frame (hs, payload))) by (unfold len in *; lia). apply drop_app_length.
Qed.

(** A proper prefix of an encoded frame is kept until more bytes arrive. *)
Lemma next_frame_partial hs payload part rest errors :
  frame_ok (hs, payload) -> encode_frame (hs, payload) = part ++ rest -> rest <> [] ->
  next_frame (mkDecoder part errors false) = (Ok None, mkDecoder part errors false).
Proof.
  intros Hf Hsplit Hne. destruct (encode_frame_shape hs payload) as (m & He & Hm & Hml & Hel).
  assert (len part < frame_length hs payload) as Hlt.
  { rewrite <- Hel, Hsplit, len_app. destruct rest; [done|]. unfold len. simpl. lia. }
  unfold next_frame. unfold bind at 1, get. simpl. unfold bind at 1.
  destruct (decide (len part < PRELUDE_BYTES)) as [Hshort|Hlong].
  - unfold try_prelude, bind, get. simpl. by replace (_ <? _) with true by (symmetry; by apply Z.ltb_lt).
  - set (p := encode_prelude (frame_length hs payload) (len (encode_headers hs))) in Hm.
    assert (len p = 12) as Hp by (unfold p, encode_prelude; by rewrite !len_app, !len_be_bytes).
    assert (exists more, part = p ++ more) as [more ->].
    { rewrite Hm, <- !app_assoc in He. rewrite He in Hsplit. apply app_eq_inv in Hsplit as [(k & Hk & _)|(k & -> & _)]; [|by exists k].
      exists []. rewrite app_nil_r. apply (f_equal len) in Hk as Hk'. rewrite len_app in Hk'.
      unfold PRELUDE_BYTES in Hlong. destruct k; [by rewrite app_nil_r in Hk|]. unfold len in *. simpl in *. lia. }
    unfold p. rewrite (try_prelude_encoded hs payload more errors Hf). unfold bind, get. simpl. fold p.
    by replace (_ <? _) with true by (symmetry; by apply Z.ltb_lt).
Qed.

(** Feed every chunk and drain after each. *)
Fixpoint pump (chunks : list Bytes) (d : KiroEventStreamDecoder)
  : option (list (KiroEventStreamError + KiroEventStreamFrame) * KiroEventStreamDecoder) :=
  match chunks with
  | [] => Some ([], d)
  | c :: rest =>
      match feed c d with
      | (Ok _, d1) =>
          '(out, d2) ← drain (S (S (length (buffer d1)))) d1;
          '(more, d3) ← pump rest d2;
          Some (out ++ more, d3)
      | (Err e, d1) => Some ([inl e], d1)
      | (Panic, _) => None
      end
  end.

(** What is left of the encoded frames: the buffer is a proper prefix of it. *)
Definition pending (buf rest : Bytes) (frames : list (list (string * KiroEventStreamHeaderValue) * Bytes)) : Prop :=
  buf ++ rest = concat (encode_frame <$> frames)
  /\ match frames with [] => buf = [] | f :: _ => len buf < len (encode_frame f) end.

Lemma encoded_nonempty f : 0 < len (encode_frame f).
Proof.
  destruct f as [hs payload]. destruct (encode_frame_shape hs payload) as (m & _ & _ & _ & ->).
  unfold frame_length, MIN_FRAME_BYTES, PRELUDE_BYTES, MESSAGE_CRC_BYTES, len. lia.
Qed.

Lemma concat_frames_cons f frames :
  concat (encode_frame <$> (f :: frames)) = encode_frame f ++ concat (encode_frame <$> frames).
Proof. reflexivity. Qed.

Lemma next_frame_empty : next_frame decoder_new = (Ok None, decoder_new).
Proof. done. Qed.

Lemma drain_encoded frames fuel buf rest :
  Forall frame_ok frames -> buf ++ rest = concat (encode_frame <$> frames) -> (length buf < fuel)%nat ->
  exists done todo buf', frames = done ++ todo /\ pending buf' rest todo
    /\ drain fuel (mkDecoder buf 0 false) = Some (inr <$> (decoded <$> done), mkDecoder buf' 0 false).
Proof.
  revert frames buf. induction fuel as [|fuel IH]; intros frames buf Hok Heq Hfuel; [lia|].
  destruct frames as [|f frames].
  - apply app_eq_nil in Heq as [-> ->]. exists [], [], []. split; [done|]. split; [done|].
    cbn [drain]. change (mkDecoder [] 0 false) with decoder_new. by rewrite next_frame_empty.
  - inversion_clear Hok as [|? ? Hf Hfs]. pose proof (encoded_nonempty f) as Hpos. cbn [drain].
    destruct (decide (len buf < len (encode_frame f))) as [Hlt|Hge].
    + exists [], (f :: frames), buf. split; [done|]. split; [done|].
      assert (exists more, encode_frame f = buf ++ more /\ more <> []) as (more & Hmore & Hne).
      { rewrite concat_frames_cons in Heq. apply app_eq_inv in Heq as [(k & Hk & _)|(k & Hk & _)].
        - rewrite Hk, len_app in Hlt. unfold len in Hlt. lia.
        - exists k. split; [done|]. intros ->. rewrite app_nil_r in Hk. rewrite Hk in Hlt. lia. }
      destruct f as [hs payload]. by rewrite (next_frame_partial hs payload buf more 0 Hf Hmore Hne).
    + assert (exists more, buf = encode_frame f ++ more) as [more ->].
      { rewrite concat_frames_cons in Heq. apply app_eq_inv in Heq as [(k & Hk & _)|(k & Hk & _)]; [by exists k|].
        exists []. rewrite app_nil_r. rewrite Hk, len_app in Hge. destruct k; [by rewrite app_nil_r in Hk|].
        unfold len in Hge. simpl in Hge. lia. }
      destruct f as [hs payload]. rewrite (next_frame_encoded hs payload more 0 Hf).
      rewrite concat_frames_cons, <- app_assoc in Heq. apply app_inv_head in Heq.
      rewrite length_app in Hfuel. unfold len in Hpos.
      destruct (IH frames more Hfs Heq) as (fin & todo & buf' & -> & Hpend & ->); [lia|].
      exists ((hs, payload) :: fin), todo, buf'. done.
Qed.

Lemma pump_encoded chunks frames buf :
  Forall frame_ok frames -> Forall (fun c => len c <= MAX_FRAME_BYTES) chunks -> pending buf (concat chunks) frames ->
  exists done todo buf', frames = done ++ todo /\ pending buf' [] todo
    /\ pump chunks (mkDecoder buf 0 false) = Some (inr <$> (decoded <$> done), mkDecoder buf' 0 false).
Proof.
  revert frames buf. induction chunks as [|c chunks IH]; intros frames buf Hok Hc [Heq Hshort].
  - exists [], frames, buf. done.
  - inversion_clear Hc as [|? ? Hlen Hcs]. cbn [pump]. unfold feed. cbn [stopped buffer].
    assert (len buf <= MAX_FRAME_BYTES) as Hb.
    { destruct frames as [|[hs payload] frames]; [by subst|]. inversion_clear Hok as [|? ? (_ & _ & Hmax) _].
      destruct (encode_frame_shape hs payload) as (_ & _ & _ & _ & Hel). simpl in Hmax. lia. }
    replace (usize_modulus <=? _) with false by (symmetry; apply Z.leb_gt; unfold usize_modulus, MAX_FRAME_BYTES in *; lia).
    replace (MAX_BUFFER_BYTES <? _) with false by (symmetry; apply Z.ltb_ge; unfold MAX_BUFFER_BYTES; lia).
    cbn [consecutive_errors stopped buffer]. simpl concat in Heq. rewrite app_assoc in Heq.
    destruct (drain_encoded frames (S (S (length (buf ++ c)))) (buf ++ c) (concat chunks) Hok Heq) as (d1 & t1 & b1 & -> & Hp1 & ->); [lia|].
    apply Forall_app in Hok as [_ Hok]. destruct (IH t1 b1 Hok Hcs Hp1) as (d2 & t2 & b2 & -> & Hp2 & Hpump).
    exists (d1 ++ d2), t2, b2. rewrite app_assoc. split; [done|]. split; [done|]. simpl. rewrite Hpump. simpl.
    by rewrite !fmap_app.
Qed.

(** C39: Decoding inverts encoding under any chunking.  A response body made of
    well-formed frames, cut into transport chunks at arbitrary places (each at most
    one maximal frame), is decoded to exactly those frames, in order, with the
    headers and payload they were written with and without a single error; nothing
    is left over and the end of input is clean. *)
Theorem frames_survive_chunking frames chunks :
  Forall frame_ok frames -> concat chunks = concat (encode_frame <$> frames) ->
  Forall (fun c => len c <= MAX_FRAME_BYTES) chunks ->
  pump chunks decoder_new = Some (inr <$> (decoded <$> frames), decoder_new)
  /\ finish decoder_new = (Ok tt, decoder_new).
Proof.
  intros Hok Heq Hc. split; [|done].
  destruct (pump_encoded chunks frames [] Hok Hc) as (fin & todo & buf & -> & [Hbuf Hshort] & Hpump).
  { split; [done|]. destruct frames as [|f frames]; [done|]. apply encoded_nonempty. }
  assert (todo = []) as ->.
  { destruct todo as [|f todo]; [done|]. rewrite app_nil_r in Hbuf. rewrite Hbuf, concat_frames_cons in Hshort.
    rewrite len_app in Hshort. unfold len in Hshort. lia. }
  subst buf. rewrite app_nil_r. exact Hpump.
Qed.

(** ** Witnesses *)

Definition ex_frame : list (string * KiroEventStreamHeaderValue) * Bytes :=
  ([(":event-type", HString "assistantResponseEvent"); ("n", Int16 (-2))], text_bytes "{}").

Lemma ex_frame_ok : frame_ok ex_frame.
Proof.
  split; [|split].
  - apply (bool_decide_unpack _). vm_compute. done.
  - repeat constructor; vm_compute; congruence.
  - vm_compute. congruence.
Qed.

Lemma frames_survive_chunking_witness :
  pump [take 9 (encode_frame ex_frame); drop 9 (encode_frame ex_frame) ++ take 20 (encode_frame ex_frame);
        drop 20 (encode_frame ex_frame)] decoder_new
  = Some ([inr (decoded ex_frame); inr (decoded ex_frame)], decoder_new).
Proof.
  apply (frames_survive_chunking [ex_frame; ex_frame]).
  - apply Forall_cons; split; [apply ex_frame_ok|]. apply Forall_cons; split; [apply ex_frame_ok|apply Forall_nil_2].
  - vm_compute. reflexivity.
  - repeat constructor; vm_compute; congruence.
Defined.

Lemma drain_terminates_witness :
  exists reports d', drain 40 (mkDecoder (text_bytes "not an event stream at all") 0 false) = Some (reports, d')
    /\ decoder_ok d'.
Proof.
  destruct (drain_terminates (mkDecoder (text_bytes "not an event stream at all") 0 false) 40) as (r & d' & H & Hok & _).
  - split; simpl; try done; vm_compute; intuition congruence.
  - vm_compute. reflexivity.
  - exists r, d'. split; [exact H|exact Hok].
Defined.
