(* ===== verification/EgressPolicy.v ===== *)
(** * Egress admission

    Models [crates/gateway-upstream/src/egress_policy.rs]: CIDR blocks, the
    immutable outbound policy, admission of a URL with the DNS answer pinned for
    one attempt, and re-admission of redirects.

    The [url] crate is a parameter ([UrlCrate]): parsing, the component accessors,
    joining a redirect Location and host parsing.  The DNS resolver is an argument.
    A [BTreeSet] that is only tested for membership, emptiness or [any] is a list. *)

From S2P Require Import Prelude Text Core.
Local Open Scope string_scope.
Local Open Scope list_scope.
Local Open Scope Z_scope.

Definition MAX_REDIRECTS : Z := 10.

Inductive EgressScheme : Type := Http | Https.

#[export] Instance EgressScheme_eq_dec : EqDecision EgressScheme.
Proof. solve_decision. Defined.

Inductive EgressHost : Type := Domain (domain : string) | Ip (address : IpAddr).

#[export] Instance EgressHost_eq_dec : EqDecision EgressHost.
Proof. solve_decision. Defined.

Inductive EgressCidrError : Type := CidrFormat | CidrPrefixLength | CidrHost.

Inductive EgressPolicyErrorCode : Type :=
| EmptyPolicyName | EmptyAllowedSchemes | EmptyAllowedHosts | EmptyAllowedPorts | InvalidAllowedPort
| InvalidRedirectLimit.

Inductive EgressAdmissionErrorCode : Type :=
| InvalidUrl | UnsupportedScheme | UrlContainsUserInfo | MissingHost | HostNotAllowed | PortNotAllowed
| DnsUnavailable | DnsReturnedNoAddresses | AddressOutsideAllowedCidr | AddressDenied
| RedirectDisabled | RedirectLimitExceeded | RedirectOriginMismatch.

(** [EgressAdmissionError::gateway_error]. *)
Definition gateway_error (code : EgressAdmissionErrorCode) : GatewayError :=
  match code with
  | DnsUnavailable | DnsReturnedNoAddresses => mkError EgressUnavailable ScopeEgress
  | _ => mkError EgressRejected ScopeEgress
  end.

Definition try_from_url_scheme (value : string) : result EgressAdmissionErrorCode EgressScheme :=
  if bool_decide (value = "http") then Ok Http
  else if bool_decide (value = "https") then Ok Https
  else Err UnsupportedScheme.

(** ** Masks and blocks *)

Definition u32_max : Z := 2 ^ 32 - 1.
Definition u128_max : Z := 2 ^ 128 - 1.

(** [MAX << shift] at the width of [MAX]. *)
Definition shl_max (max shift : Z) : Z := Z.land (Z.shiftl max shift) max.

Definition mask_v4 (value prefix_length : Z) : Z :=
  if prefix_length =? 0 then 0 else Z.land value (shl_max u32_max (32 - prefix_length)).

Definition mask_v6 (value prefix_length : Z) : Z :=
  if prefix_length =? 0 then 0 else Z.land value (shl_max u128_max (128 - prefix_length)).

Definition matches_v4_prefix (value network prefix_length : Z) : bool :=
  if prefix_length =? 0 then true
  else let mask := shl_max u32_max (32 - prefix_length) in Z.land value mask =? Z.land network mask.

Definition matches_v6_prefix (value network prefix_length : Z) : bool :=
  if prefix_length =? 0 then true
  else let mask := shl_max u128_max (128 - prefix_length) in Z.land value mask =? Z.land network mask.

Record EgressCidr : Type := mkCidr { network : IpAddr; prefix_length : Z }.

Definition cidr_try_new (address : IpAddr) (prefix_length : Z) : result EgressCidrError EgressCidr :=
  match address with
  | V4 v => if 32 <? prefix_length then Err CidrPrefixLength
            else Ok (mkCidr (V4 (mask_v4 v prefix_length)) prefix_length)
  | V6 v => if 128 <? prefix_length then Err CidrPrefixLength
            else Ok (mkCidr (V6 (mask_v6 v prefix_length)) prefix_length)
  end.

Definition cidr_try_parse (value : string) : result EgressCidrError EgressCidr :=
  match split_once "/" value with
  | None => Err CidrFormat
  | Some (address, prefix_length) =>
      if contains "/" prefix_length then Err CidrFormat
      else
        let? address := ok_or CidrFormat (parse_ip address) in
        let? prefix_length := ok_or CidrFormat (parse_u8 prefix_length) in
        cidr_try_new address prefix_length
  end.

Definition cidr_contains (cidr : EgressCidr) (address : IpAddr) : bool :=
  match network cidr, address with
  | V4 n, V4 v => mask_v4 v (prefix_length cidr) =? n
  | V6 n, V6 v => mask_v6 v (prefix_length cidr) =? n
  | _, _ => false
  end.

Definition DEFAULT_DENIED_V4 : list (Z * Z) :=
  [(0x00000000, 8); (0x0A000000, 8); (0x64400000, 10); (0x7F000000, 8); (0xA9FE0000, 16); (0xAC100000, 12);
   (0xC0000000, 24); (0xC0000200, 24); (0xC0A80000, 16); (0xC0586300, 24); (0xC6120000, 15); (0xC6336400, 24);
   (0xCB007100, 24); (0xE0000000, 4); (0xF0000000, 4)].

Definition DEFAULT_DENIED_V6 : list (Z * Z) :=
  [(0x00000000000000000000000000000000, 96); (0x01000000000000000000000000000000, 64);
   (0xFC000000000000000000000000000000, 7); (0xFE800000000000000000000000000000, 10);
   (0xFF000000000000000000000000000000, 8); (0x20010000000000000000000000000000, 32);
   (0x20010010000000000000000000000000, 28); (0x20010020000000000000000000000000, 28);
   (0x20010DB8000000000000000000000000, 32); (0x0064FF9B000000000000000000000000, 96);
   (0x0064FF9B000100000000000000000000, 48); (0x20020000000000000000000000000000, 16)].

Definition EXCEPTIONABLE_PRIVATE_OR_LOCAL_V4 : list (Z * Z) :=
  [(0x0A000000, 8); (0x7F000000, 8); (0xAC100000, 12); (0xC0A80000, 16)].

Definition EXCEPTIONABLE_PRIVATE_OR_LOCAL_V6 : list (Z * Z) :=
  [(0x00000000000000000000000000000001, 128); (0xFC000000000000000000000000000000, 7)].

Definition METADATA_V4 : list Z := [0x646464C8; 0xA9FEA9FE].
Definition METADATA_V6 : list Z := [0xFD000EC2000000000000000000000254].

Definition is_default_denied_v4 (value : Z) : bool :=
  existsb (fun b => matches_v4_prefix value b.1 b.2) DEFAULT_DENIED_V4.

Definition is_default_denied_v6 (value : Z) : bool :=
  (Z.shiftr value 32 =? 65535) || existsb (fun b => matches_v6_prefix value b.1 b.2) DEFAULT_DENIED_V6.

Definition is_default_denied_address (address : IpAddr) : bool :=
  match address with V4 v => is_default_denied_v4 v | V6 v => is_default_denied_v6 v end.

Definition is_metadata_address (address : IpAddr) : bool :=
  match address with
  | V4 v => existsb (Z.eqb v) METADATA_V4
  | V6 v => existsb (Z.eqb v) METADATA_V6
  end.

Definition is_narrow_private_or_local_exception (cidr : EgressCidr) : bool :=
  match network cidr with
  | V4 n => existsb (fun b => (b.2 <=? prefix_length cidr) && matches_v4_prefix n b.1 b.2)
              EXCEPTIONABLE_PRIVATE_OR_LOCAL_V4
  | V6 n => existsb (fun b => (b.2 <=? prefix_length cidr) && matches_v6_prefix n b.1 b.2)
              EXCEPTIONABLE_PRIVATE_OR_LOCAL_V6
  end.

(** ** Policies *)

Inductive RedirectPolicy : Type :=
| Deny
| SameOrigin (max_redirects : Z)
| Revalidate (max_redirects : Z).

Definition maximum_redirects (p : RedirectPolicy) : option Z :=
  match p with Deny => None | SameOrigin m | Revalidate m => Some m end.

(** [EgressPolicyInput] and [EgressPolicy] have the same fields. *)
Record EgressPolicy : Type := mkPolicy {
  policy_id : Id KEgressPolicy;
  policy_name : string;
  allowed_schemes : list EgressScheme;
  allowed_hosts : list EgressHost;
  allowed_ports : list Z;
  allowed_cidrs : list EgressCidr;
  redirect_policy : RedirectPolicy;
}.

Definition policy_try_new (input : EgressPolicy) : result EgressPolicyErrorCode EgressPolicy :=
  if is_blank (policy_name input) then Err EmptyPolicyName
  else if bool_decide (allowed_schemes input = []) then Err EmptyAllowedSchemes
  else if bool_decide (allowed_hosts input = []) then Err EmptyAllowedHosts
  else if bool_decide (allowed_ports input = []) then Err EmptyAllowedPorts
  else if bool_decide (0 ∈ allowed_ports input) then Err InvalidAllowedPort
  else match maximum_redirects (redirect_policy input) with
       | Some m => if (m =? 0) || (MAX_REDIRECTS <? m) then Err InvalidRedirectLimit else Ok input
       | None => Ok input
       end.

Definition has_narrow_private_or_local_exception_for (p : EgressPolicy) (address : IpAddr) : bool :=
  existsb (fun c => cidr_contains c address && is_narrow_private_or_local_exception c) (allowed_cidrs p).

Definition validate_address (p : EgressPolicy) (address : IpAddr) : result EgressAdmissionErrorCode unit :=
  if is_metadata_address address then Err AddressDenied
  else if negb (match allowed_cidrs p with
                | [] => true
                | _ => existsb (fun c => cidr_contains c address) (allowed_cidrs p)
                end)
  then Err AddressOutsideAllowedCidr
  else if is_default_denied_address address && negb (has_narrow_private_or_local_exception_for p address)
  then Err AddressDenied
  else Ok tt.

(** [BTreeSet<IpAddr>] of a list, in iteration order. *)
Fixpoint ip_insert (a : IpAddr) (l : list IpAddr) : list IpAddr :=
  match l with
  | [] => [a]
  | b :: rest => if ip_ltb a b then a :: l else if ip_ltb b a then b :: ip_insert a rest else l
  end.
Definition ip_set (l : list IpAddr) : list IpAddr := foldr ip_insert [] l.

Fixpoint validate_addresses (p : EgressPolicy) (l : list IpAddr) : result EgressAdmissionErrorCode unit :=
  match l with
  | [] => Ok tt
  | a :: rest => let? _ := validate_address p a in validate_addresses p rest
  end.

(** ** URLs *)

Inductive Host : Type := HostDomain (domain : string) | HostIpv4 (v : Z) | HostIpv6 (v : Z).

(** What the code uses of the [url] crate. *)
Class UrlCrate (Url : Type) := {
  url_parse : string -> option Url;
  cannot_be_a_base : Url -> bool;
  url_username : Url -> string;
  url_password : Url -> option string;
  url_scheme : Url -> string;
  url_host_str : Url -> option string;
  port_or_known_default : Url -> option Z;
  url_as_str : Url -> string;
  url_join : Url -> string -> option Url;
  host_parse : string -> option Host;
}.

Section Admission.
Context {Url : Type} `{!UrlCrate Url}.

Definition host_try_new (value : string) : result EgressCidrError EgressHost :=
  let ip_literal := match strip_prefix_char "[" value with
                    | Some inner => default value (strip_suffix_char "]" inner)
                    | None => value
                    end in
  match parse_ip ip_literal with
  | Some address => Ok (Ip address)
  | None =>
      match host_parse value with
      | None => Err CidrHost
      | Some (HostDomain domain) => Ok (Domain domain)
      | Some (HostIpv4 v) => Ok (Ip (V4 v))
      | Some (HostIpv6 v) => Ok (Ip (V6 v))
      end
  end.

Record ParsedEgressUrl : Type := mkParsed {
  parsed_url : Url;
  parsed_scheme : EgressScheme;
  parsed_host : EgressHost;
  parsed_port : Z;
}.

Record AdmittedEgressTarget : Type := mkTarget {
  target_url : Url;
  target_scheme : EgressScheme;
  target_host : EgressHost;
  target_port : Z;
  resolved_addresses : list IpAddr;
}.

Definition parse_url (p : EgressPolicy) (raw_url : string) : result EgressAdmissionErrorCode ParsedEgressUrl :=
  let? url := ok_or InvalidUrl (url_parse raw_url) in
  if cannot_be_a_base url then Err InvalidUrl
  else if negb (bool_decide (url_username url = "")) || bool_decide (is_Some (url_password url))
  then Err UrlContainsUserInfo
  else
    let? scheme := try_from_url_scheme (url_scheme url) in
    if negb (bool_decide (scheme ∈ allowed_schemes p)) then Err UnsupportedScheme
    else
      let? host_text := ok_or MissingHost (url_host_str url) in
      let? host := map_err (fun _ => InvalidUrl) (host_try_new host_text) in
      if negb (bool_decide (host ∈ allowed_hosts p)) then Err HostNotAllowed
      else
        let? port := ok_or PortNotAllowed (port_or_known_default url) in
        if negb (bool_decide (port ∈ allowed_ports p)) then Err PortNotAllowed
        else Ok (mkParsed url scheme host port).

Definition validate_url_shape (p : EgressPolicy) (raw_url : string) : result EgressAdmissionErrorCode unit :=
  let? _ := parse_url p raw_url in Ok tt.

(** A resolver answers with addresses or with an opaque failure. *)
Abbreviation Resolver := (EgressHost -> option (list IpAddr)).

Definition admit_url (p : EgressPolicy) (raw_url : string) (resolve : Resolver)
  : result EgressAdmissionErrorCode AdmittedEgressTarget :=
  let? parsed := parse_url p raw_url in
  let? addresses :=
    match parsed_host parsed with
    | Ip address => Ok [address]
    | Domain _ => let? l := ok_or DnsUnavailable (resolve (parsed_host parsed)) in Ok (ip_set l)
    end in
  if bool_decide (addresses = []) then Err DnsReturnedNoAddresses
  else
    let? _ := validate_addresses p addresses in
    Ok (mkTarget (parsed_url parsed) (parsed_scheme parsed) (parsed_host parsed) (parsed_port parsed) addresses).

Definition has_same_origin (a b : AdmittedEgressTarget) : bool :=
  bool_decide (target_scheme a = target_scheme b) && bool_decide (target_host a = target_host b)
  && bool_decide (target_port a = target_port b).

Definition admit_redirect (p : EgressPolicy) (current : AdmittedEgressTarget) (location : string)
    (followed_redirects : Z) (resolve : Resolver) : result EgressAdmissionErrorCode AdmittedEgressTarget :=
  match maximum_redirects (redirect_policy p) with
  | None => Err RedirectDisabled
  | Some max_redirects =>
      if max_redirects <=? followed_redirects then Err RedirectLimitExceeded
      else
        let? redirected_url := ok_or InvalidUrl (url_join (target_url current) location) in
        let? redirected := admit_url p (url_as_str redirected_url) resolve in
        if match redirect_policy p with SameOrigin _ => true | _ => false end
           && negb (has_same_origin current redirected)
        then Err RedirectOriginMismatch
        else Ok redirected
  end.
End Admission.

(** ** Specification

    Address blocks by their interval of values, and the special-purpose registry
    in dotted and grouped notation, independent of masks. *)

Definition in_block (width : Z) (v : Z) (block : Z * Z) : Prop :=
  block.1 <= v < block.1 + 2 ^ (width - block.2).

Definition v4 (a b c d : Z) : Z := ((a * 256 + b) * 256 + c) * 256 + d.
Definition v6 (groups : list Z) : Z := groups_value (groups ++ replicate (8 - length groups) 0).

Definition special_v4 : list (Z * Z) :=
  [(v4 0 0 0 0, 8); (v4 10 0 0 0, 8); (v4 100 64 0 0, 10); (v4 127 0 0 0, 8); (v4 169 254 0 0, 16);
   (v4 172 16 0 0, 12); (v4 192 0 0 0, 24); (v4 192 0 2 0, 24); (v4 192 168 0 0, 16); (v4 192 88 99 0, 24);
   (v4 198 18 0 0, 15); (v4 198 51 100 0, 24); (v4 203 0 113 0, 24); (v4 224 0 0 0, 4); (v4 240 0 0 0, 4)].
Definition private_v4 : list (Z * Z) :=
  [(v4 10 0 0 0, 8); (v4 127 0 0 0, 8); (v4 172 16 0 0, 12); (v4 192 168 0 0, 16)].

Definition special_v6 : list (Z * Z) :=
  [(v6 [], 96); (v6 [0x100], 64); (v6 [0xfc00], 7); (v6 [0xfe80], 10); (v6 [0xff00], 8);
   (v6 [0x2001], 32); (v6 [0x2001; 0x10], 28); (v6 [0x2001; 0x20], 28); (v6 [0x2001; 0xdb8], 32);
   (v6 [0x64; 0xff9b], 96); (v6 [0x64; 0xff9b; 1], 48); (v6 [0x2002], 16)].
Definition mapped_v6 : Z * Z := (v6 [0; 0; 0; 0; 0; 0xffff], 96).
Definition private_v6 : list (Z * Z) := [(v6 [0; 0; 0; 0; 0; 0; 0; 1], 128); (v6 [0xfc00], 7)].

Definition metadata (a : IpAddr) : Prop :=
  a = V4 (v4 169 254 169 254) \/ a = V4 (v4 100 100 100 200)
  \/ a = V6 (v6 [0xfd00; 0xec2; 0; 0; 0; 0; 0; 0x254]).

Definition special (a : IpAddr) : Prop :=
  match a with
  | V4 v => Exists (in_block 32 v) special_v4
  | V6 v => Exists (in_block 128 v) (mapped_v6 :: special_v6)
  end.

Definition private_or_local (a : IpAddr) : Prop :=
  match a with
  | V4 v => Exists (in_block 32 v) private_v4
  | V6 v => Exists (in_block 128 v) private_v6
  end.

Definition width_of (a : IpAddr) : Z := match a with V4 _ => 32 | V6 _ => 128 end.
Definition value_of (a : IpAddr) : Z := match a with V4 v | V6 v => v end.
Definition same_family (a b : IpAddr) : Prop := width_of a = width_of b.

(** [a] and [b] agree on their first [len] bits. *)
Definition same_prefix (len : Z) (a b : IpAddr) : Prop :=
  same_family a b /\ value_of a / 2 ^ (width_of a - len) = value_of b / 2 ^ (width_of b - len).

(** CIDRs as the constructors make them. *)
Definition cidr_ok (c : EgressCidr) : Prop :=
  exists a len, ip_ok a /\ 0 <= len /\ cidr_try_new a len = Ok c.

(** The whole block lies inside one private or local block. *)
Definition narrow (c : EgressCidr) : Prop :=
  match network c with
  | V4 n => Exists (fun b => b.2 <= prefix_length c /\ in_block 32 n b) private_v4
  | V6 n => Exists (fun b => b.2 <= prefix_length c /\ in_block 128 n b) private_v6
  end.

Record address_permitted (p : EgressPolicy) (a : IpAddr) : Prop := {
  not_metadata : ~ metadata a;
  in_allowed_cidr : allowed_cidrs p = [] \/ Exists (fun c => cidr_contains c a = true) (allowed_cidrs p);
  special_excepted : special a -> Exists (fun c => cidr_contains c a = true /\ narrow c) (allowed_cidrs p);
}.

(** ** Masks as blocks *)

Lemma mask_floor w k v :
  0 <= k < w -> 0 <= v < 2 ^ w -> Z.land v (shl_max (2 ^ w - 1) k) = v / 2 ^ k * 2 ^ k.
Proof.
  intros Hk Hv. rewrite <- Z.shiftr_div_pow2, <- Z.shiftl_mul_pow2 by lia.
  unfold shl_max. replace (2 ^ w - 1) with (Z.ones w) by (rewrite Z.ones_equiv; lia).
  apply Z.bits_inj'. intros i Hi. rewrite !Z.land_spec, Z.testbit_ones_nonneg by lia.
  destruct (Z_lt_ge_dec i k) as [Hlt|Hge].
  { rewrite !Z.shiftl_spec_low by lia. by rewrite andb_false_r. }
  rewrite !Z.shiftl_spec, Z.shiftr_spec, Z.testbit_ones_nonneg by lia. replace (i - k + k) with i by lia.
  destruct (Z_lt_ge_dec i w) as [Hiw|Hiw].
  - replace (i - k <? w) with true by (symmetry; apply Z.ltb_lt; lia).
    replace (i <? w) with true by (symmetry; apply Z.ltb_lt; lia). by rewrite andb_true_r.
  - rewrite (Z.bits_above_log2 v i); [done|lia|]. destruct (decide (v = 0)) as [->|Hne]; [simpl; lia|].
    apply Z.log2_lt_pow2; [lia|]. eapply Z.lt_le_trans; [apply Hv|]. apply Z.pow_le_mono_r; lia.
Qed.

(** Masked values agree exactly when the kept bits do. *)
Lemma mask_eq_iff w len v n :
  0 < len <= w -> 0 <= v < 2 ^ w -> 0 <= n < 2 ^ w ->
  Z.land v (shl_max (2 ^ w - 1) (w - len)) = Z.land n (shl_max (2 ^ w - 1) (w - len))
  <-> v / 2 ^ (w - len) = n / 2 ^ (w - len).
Proof.
  intros Hlen Hv Hn. rewrite !mask_floor by lia. pose proof (Z.pow_pos_nonneg 2 (w - len)). nia.
Qed.

Lemma block_iff w len v n :
  0 <= len <= w -> n mod 2 ^ (w - len) = 0 ->
  v / 2 ^ (w - len) = n / 2 ^ (w - len) <-> in_block w v (n, len).
Proof.
  intros Hlen Hn. unfold in_block. simpl. pose proof (Z.pow_pos_nonneg 2 (w - len)) as Hp.
  set (d := 2 ^ (w - len)) in *. pose proof (Z.div_mod n d). pose proof (Z.div_mod v d). pose proof (Z.mod_pos_bound v d).
  split; [nia|]. intros Hv. symmetry. apply (Z.div_unique v d _ (v - n)); nia.
Qed.

Definition aligned (w : Z) (block : Z * Z) : bool :=
  (0 <? block.2) && (block.2 <=? w) && (0 <=? block.1) && (block.1 <? 2 ^ w)
  && (block.1 mod 2 ^ (w - block.2) =? 0).

(** Both prefix tests, for any aligned block of the width [w]. *)
Definition prefix_test (w : Z) (value network prefix_length : Z) : bool :=
  if prefix_length =? 0 then true
  else let mask := shl_max (2 ^ w - 1) (w - prefix_length) in Z.land value mask =? Z.land network mask.

Lemma prefix_test_iff w v b :
  aligned w b = true -> 0 <= v < 2 ^ w -> prefix_test w v b.1 b.2 = true <-> in_block w v b.
Proof.
  destruct b as [n len]. unfold aligned, prefix_test. simpl. intros Ha Hv. bool_simp.
  replace (len =? 0) with false by (symmetry; apply Z.eqb_neq; lia).
  rewrite Z.eqb_eq, mask_eq_iff by lia. apply block_iff; [lia|done].
Qed.

Lemma blocks_test_iff w v blocks (f : Z * Z -> bool) (P : Z * Z -> Prop) :
  forallb (aligned w) blocks = true -> 0 <= v < 2 ^ w ->
  (forall b, f b = true <-> P b) ->
  existsb (fun b => f b && prefix_test w v b.1 b.2) blocks = true <-> Exists (fun b => P b /\ in_block w v b) blocks.
Proof.
  intros Hal Hv Hf. rewrite existsb_exists, Exists_exists. rewrite forallb_forall in Hal.
  setoid_rewrite andb_true_iff. setoid_rewrite Hf.
  split; intros (b & Hin & Hb & Ht); exists b.
  - split; [by apply list_elem_of_In|]. split; [done|]. apply prefix_test_iff; auto.
  - apply list_elem_of_In in Hin. split; [done|]. split; [done|]. apply prefix_test_iff; auto.
Qed.

Lemma tables_agree :
  DEFAULT_DENIED_V4 = special_v4 /\ DEFAULT_DENIED_V6 = special_v6
  /\ EXCEPTIONABLE_PRIVATE_OR_LOCAL_V4 = private_v4 /\ EXCEPTIONABLE_PRIVATE_OR_LOCAL_V6 = private_v6.
Proof. split_and!; vm_compute; reflexivity. Qed.

Lemma tables_aligned :
  forallb (aligned 32) special_v4 = true /\ forallb (aligned 128) special_v6 = true
  /\ forallb (aligned 32) private_v4 = true /\ forallb (aligned 128) private_v6 = true.
Proof. split_and!; vm_compute; reflexivity. Qed.

Lemma blocks_any_iff w v blocks :
  forallb (aligned w) blocks = true -> 0 <= v < 2 ^ w ->
  existsb (fun b => prefix_test w v b.1 b.2) blocks = true <-> Exists (in_block w v) blocks.
Proof.
  intros Ha Hv. pose proof (blocks_test_iff w v blocks (fun _ => true) (fun _ => True) Ha Hv) as H.
  simpl in H. rewrite H by done. rewrite !Exists_exists. naive_solver.
Qed.

Lemma mapped_iff v : 0 <= v -> (Z.shiftr v 32 =? 65535) = true <-> in_block 128 v mapped_v6.
Proof.
  intros Hv. rewrite Z.eqb_eq, Z.shiftr_div_pow2 by lia.
  change 65535 with (mapped_v6.1 / 2 ^ (128 - mapped_v6.2)). change 32 with (128 - mapped_v6.2) at 1.
  apply (block_iff 128 96); [lia|reflexivity].
Qed.

Lemma default_denied_iff a : ip_ok a -> is_default_denied_address a = true <-> special a.
Proof.
  destruct tables_agree as (E4 & E6 & _), tables_aligned as (A4 & A6 & _).
  destruct a as [v|v]; simpl; intros Hv.
  - unfold is_default_denied_v4. rewrite E4. by apply (blocks_any_iff 32).
  - unfold is_default_denied_v6. rewrite orb_true_iff, mapped_iff, E6, Exists_cons by lia.
    pose proof (blocks_any_iff 128 v special_v6 A6 Hv) as H. unfold prefix_test in H.
    unfold matches_v6_prefix, u128_max. by rewrite H.
Qed.

Lemma metadata_iff a : is_metadata_address a = true <-> metadata a.
Proof.
  unfold metadata. destruct a as [v|v]; simpl; rewrite ?orb_true_iff, ?orb_false_r, ?Z.eqb_eq.
  - split; [intros [->|[->|?]]; auto; done|]. intros [[= ->]|[[= ->]|?]]; auto; done.
  - split; [intros [->|?]; auto; done|]. intros [?|[?|[= ->]]]; auto; done.
Qed.

Lemma narrow_iff c : ip_ok (network c) -> is_narrow_private_or_local_exception c = true <-> narrow c.
Proof.
  destruct tables_agree as (_ & _ & E4 & E6), tables_aligned as (_ & _ & A4 & A6).
  unfold is_narrow_private_or_local_exception, narrow. destruct (network c) as [n|n]; cbv beta iota; intros Hn.
  - rewrite E4. apply (blocks_test_iff 32 n private_v4); [done..|]. intros b. apply Z.leb_le.
  - rewrite E6. apply (blocks_test_iff 128 n private_v6); [done..|]. intros b. apply Z.leb_le.
Qed.

(** ** CIDRs *)

Lemma mask_v4_floor v len : 0 <= len <= 32 -> 0 <= v < 2 ^ 32 -> mask_v4 v len = v / 2 ^ (32 - len) * 2 ^ (32 - len).
Proof.
  intros Hl Hv. unfold mask_v4, u32_max. destruct (len =? 0) eqn:H0; bool_simp.
  - subst. rewrite Z.div_small by (simpl; lia). done.
  - apply mask_floor; lia.
Qed.

Lemma mask_v6_floor v len : 0 <= len <= 128 -> 0 <= v < 2 ^ 128 -> mask_v6 v len = v / 2 ^ (128 - len) * 2 ^ (128 - len).
Proof.
  intros Hl Hv. unfold mask_v6, u128_max. destruct (len =? 0) eqn:H0; bool_simp.
  - subst. rewrite Z.div_small by (simpl; lia). done.
  - apply mask_floor; lia.
Qed.

Lemma floor_bounds w k v : 0 <= k -> 0 <= v < 2 ^ w -> 0 <= v / 2 ^ k * 2 ^ k < 2 ^ w.
Proof. intros Hk Hv. pose proof (Z.pow_pos_nonneg 2 k). pose proof (Z.div_mod v (2 ^ k)). pose proof (Z.mod_pos_bound v (2 ^ k)).
  pose proof (Z.div_pos v (2 ^ k)). nia. Qed.

(** What a constructed CIDR holds: the first address of its block. *)
Lemma cidr_new_inv a len c :
  ip_ok a -> 0 <= len -> cidr_try_new a len = Ok c ->
  len <= width_of a /\ prefix_length c = len /\ ip_ok (network c) /\ same_family (network c) a
  /\ value_of (network c) = value_of a / 2 ^ (width_of a - len) * 2 ^ (width_of a - len).
Proof.
  destruct a as [v|v]; simpl; intros Ha Hl H.
  - destruct (32 <? len) eqn:H32; [done|]. bool_simp. simplify_eq/=. rewrite mask_v4_floor by lia.
    split_and!; try done; apply (floor_bounds 32); lia.
  - destruct (128 <? len) eqn:H128; [done|]. bool_simp. simplify_eq/=. rewrite mask_v6_floor by lia.
    split_and!; try done; apply (floor_bounds 128); lia.
Qed.

Lemma cidr_contains_iff a len c b :
  ip_ok a -> ip_ok b -> 0 <= len -> cidr_try_new a len = Ok c ->
  cidr_contains c b = true <-> same_prefix len a b.
Proof.
  intros Ha Hb Hl Hc. destruct (cidr_new_inv a len c Ha Hl Hc) as (Hw & Hp & _ & Hf & Hval).
  unfold cidr_contains, same_prefix, same_family in *. rewrite Hp.
  pose proof (Z.pow_pos_nonneg 2 (width_of a - len)) as Hpow.
  destruct (network c) as [n|n], a as [v|v], b as [x|x]; simpl in *; try done;
    try (split; [done|]; by intros [? _]); rewrite Z.eqb_eq.
  - rewrite mask_v4_floor by lia. nia.
  - rewrite mask_v6_floor by lia. nia.
Qed.

Lemma floor_div kc kb v : 0 <= kc <= kb -> v / 2 ^ kc * 2 ^ kc / 2 ^ kb = v / 2 ^ kb.
Proof.
  intros Hk. replace (2 ^ kb) with (2 ^ kc * 2 ^ (kb - kc)) by (rewrite <- Z.pow_add_r by lia; f_equal; lia).
  pose proof (Z.pow_pos_nonneg 2 kc). pose proof (Z.pow_pos_nonneg 2 (kb - kc)).
  rewrite <- !Z.div_div, Z.div_mul by lia. done.
Qed.

Lemma block_of_member w v n kc b :
  aligned w b = true -> 0 <= kc <= w - b.2 -> n = v / 2 ^ kc * 2 ^ kc -> in_block w n b -> in_block w v b.
Proof.
  destruct b as [b1 b2]. unfold aligned. simpl. intros Ha Hk -> Hin. bool_simp.
  apply block_iff; [lia|done|]. apply block_iff in Hin; [|lia|done]. rewrite floor_div in Hin by lia. done.
Qed.

Lemma narrow_contains_private c a :
  cidr_ok c -> ip_ok a -> cidr_contains c a = true -> narrow c -> private_or_local a.
Proof.
  intros (x & len & Hx & Hl & Hc) Ha Hin Hn. destruct tables_aligned as (_ & _ & A4 & A6).
  destruct (cidr_new_inv x len c Hx Hl Hc) as (Hw & Hp & _ & Hf & Hval).
  apply (cidr_contains_iff x len c a Hx Ha Hl Hc) in Hin as [Hfam Hpre].
  unfold narrow, private_or_local, same_family in *. rewrite forallb_forall in A4, A6.
  setoid_rewrite <- list_elem_of_In in A4. setoid_rewrite <- list_elem_of_In in A6.
  destruct (network c) as [n|n], x as [v|v], a as [y|y]; simpl in *; try done;
    rewrite Exists_exists in *; destruct Hn as (b & Hb & Hle & Hblock); exists b; (split; [done|]);
    rewrite Hpre in Hval.
  - apply (block_of_member 32 y n (32 - len) b); [by apply A4|lia|done|done].
  - apply (block_of_member 128 y n (128 - len) b); [by apply A6|lia|done|done].
Qed.

Lemma cidr_network_ok c : cidr_ok c -> ip_ok (network c).
Proof. intros (a & len & Ha & Hl & Hc). by apply (cidr_new_inv a len c Ha Hl Hc). Qed.

Lemma exception_iff p a :
  Forall cidr_ok (allowed_cidrs p) ->
  has_narrow_private_or_local_exception_for p a = true
  <-> Exists (fun c => cidr_contains c a = true /\ narrow c) (allowed_cidrs p).
Proof.
  intros Hok. unfold has_narrow_private_or_local_exception_for. rewrite existsb_exists, Exists_exists.
  rewrite Forall_forall in Hok. setoid_rewrite andb_true_iff. setoid_rewrite <- list_elem_of_In.
  split; intros (c & Hin & Hc & Hn); exists c; (split; [done|]); (split; [done|]);
    apply narrow_iff; auto using cidr_network_ok.
Qed.

Lemma validate_address_iff p a :
  ip_ok a -> Forall cidr_ok (allowed_cidrs p) -> validate_address p a = Ok tt <-> address_permitted p a.
Proof.
  intros Ha Hok. unfold validate_address.
  assert ((match allowed_cidrs p with [] => true | _ => existsb (fun c => cidr_contains c a) (allowed_cidrs p) end) = true
    <-> allowed_cidrs p = [] \/ Exists (fun c => cidr_contains c a = true) (allowed_cidrs p)) as Hcidr.
  { rewrite Exists_exists. setoid_rewrite list_elem_of_In. rewrite <- existsb_exists. destruct (allowed_cidrs p); naive_solver. }
  pose proof (metadata_iff a) as Hm. pose proof (default_denied_iff a Ha) as Hs. pose proof (exception_iff p a Hok) as Hx.
  destruct (is_metadata_address a).
  { split; [done|]. intros [H _ _]. by destruct H; apply Hm. }
  destruct (match allowed_cidrs p with [] => true | _ => existsb _ _ end); simpl.
  2:{ split; [done|]. intros [_ H _]. apply Hcidr in H. done. }
  assert (~ metadata a) as Hnm by (intros ?%Hm; done). specialize (proj1 Hcidr eq_refl) as Hin.
  destruct (is_default_denied_address a), (has_narrow_private_or_local_exception_for p a); simpl.
  - split; [|done]. intros _. split; [done..|]. intros _. by apply Hx.
  - split; [done|]. intros [_ _ Hexc]. by pose proof (proj2 Hx (Hexc (proj1 Hs eq_refl))).
  - split; [|done]. intros _. split; [done..|]. intros ?%Hs. done.
  - split; [|done]. intros _. split; [done..|]. intros ?%Hs. done.
Qed.

Lemma validate_addresses_ok p l : validate_addresses p l = Ok tt -> Forall (fun a => validate_address p a = Ok tt) l.
Proof.
  induction l as [|a l IH]; simpl; [constructor|]. unfold result_bind.
  destruct (validate_address p a) as [[]| |] eqn:Ha; [|done..]. intros H. constructor; auto.
Qed.

(** ** Admission *)

Lemma ip_insert_elem a l x : x ∈ ip_insert a l <-> x = a \/ x ∈ l.
Proof.
  induction l as [|b l IH]; simpl; [set_solver|]. destruct (ip_ltb a b) eqn:H1; [set_solver|].
  destruct (ip_ltb b a) eqn:H2; [set_solver|].
  assert (a = b) as -> by (destruct a, b; simpl in *; bool_simp; try done; f_equal; lia). set_solver.
Qed.

Lemma ip_set_elem l x : x ∈ ip_set l <-> x ∈ l.
Proof. unfold ip_set. induction l as [|a l IH]; simpl; [done|]. rewrite ip_insert_elem, IH. set_solver. Qed.

Lemma ip_insert_sorted a l :
  StronglySorted (fun x y => ip_ltb x y = true) l -> StronglySorted (fun x y => ip_ltb x y = true) (ip_insert a l).
Proof.
  assert (forall x y z, ip_ltb x y = true -> ip_ltb y z = true -> ip_ltb x z = true) as Htrans
    by (intros [x|x] [y|y] [z|z]; simpl; rewrite ?Z.ltb_lt; intros; lia || done).
  induction 1 as [|b l Hl IH Hb]; simpl; [by repeat constructor|].
  destruct (ip_ltb a b) eqn:H1; [|destruct (ip_ltb b a) eqn:H2].
  - constructor; [by constructor|]. constructor; [done|]. eapply Forall_impl; [exact Hb|]. eauto.
  - constructor; [done|]. apply Forall_forall. intros x [->|Hx]%ip_insert_elem; [done|].
    rewrite Forall_forall in Hb. by apply Hb.
  - by constructor.
Qed.

Lemma ip_set_sorted l : StronglySorted (fun x y => ip_ltb x y = true) (ip_set l).
Proof. unfold ip_set. induction l as [|a l IH]; simpl; [constructor|]. by apply ip_insert_sorted. Qed.

Definition scheme_str (s : EgressScheme) : string := match s with Http => "http" | Https => "https" end.

Section Properties.
Context {Url : Type} `{!UrlCrate Url}.

(** What admission by [p] promises of the target it returns. *)
Record admitted (p : EgressPolicy) (t : AdmittedEgressTarget (Url := Url)) : Prop := {
  adm_scheme : url_scheme (target_url t) = scheme_str (target_scheme t) /\ target_scheme t ∈ allowed_schemes p;
  adm_host : exists text, url_host_str (target_url t) = Some text /\ host_try_new text = Ok (target_host t)
    /\ target_host t ∈ allowed_hosts p;
  adm_port : port_or_known_default (target_url t) = Some (target_port t) /\ target_port t ∈ allowed_ports p;
  adm_no_user_info : url_username (target_url t) = "" /\ url_password (target_url t) = None;
  adm_hierarchical : cannot_be_a_base (target_url t) = false;
  adm_addresses : resolved_addresses t <> []
    /\ StronglySorted (fun x y => ip_ltb x y = true) (resolved_addresses t)
    /\ Forall (fun a => ip_ok a -> address_permitted p a /\ (special a -> private_or_local a)) (resolved_addresses t);
}.

Lemma parse_url_inv p raw parsed :
  parse_url p raw = Ok parsed ->
  url_parse raw = Some (parsed_url parsed) /\ cannot_be_a_base (parsed_url parsed) = false
  /\ (url_username (parsed_url parsed) = "" /\ url_password (parsed_url parsed) = None)
  /\ (url_scheme (parsed_url parsed) = scheme_str (parsed_scheme parsed) /\ parsed_scheme parsed ∈ allowed_schemes p)
  /\ (exists text, url_host_str (parsed_url parsed) = Some text /\ host_try_new text = Ok (parsed_host parsed)
       /\ parsed_host parsed ∈ allowed_hosts p)
  /\ (port_or_known_default (parsed_url parsed) = Some (parsed_port parsed) /\ parsed_port parsed ∈ allowed_ports p).
Proof.
  unfold parse_url, result_bind, ok_or, map_err, try_from_url_scheme. intros H.
  destruct (url_parse raw) as [url|]; [|done]. destruct (cannot_be_a_base url) eqn:Hb; [done|].
  destruct (negb (bool_decide (url_username url = "")) || _) eqn:Hu; [done|]. bool_simp.
  destruct (if bool_decide (url_scheme url = "http") then _ else _) as [scheme| |] eqn:Hs; [|done..].
  destruct (negb (bool_decide (scheme ∈ _))) eqn:Hsin; [done|]. bool_simp.
  destruct (url_host_str url) as [text|] eqn:Ht; [|done].
  destruct (host_try_new text) as [host| |] eqn:Hh; [|done..].
  destruct (negb (bool_decide (host ∈ _))) eqn:Hhin; [done|]. bool_simp.
  destruct (port_or_known_default url) as [port|] eqn:Hp; [|done].
  destruct (negb (bool_decide (port ∈ _))) eqn:Hpin; [done|]. bool_simp. simplify_eq. simpl.
  assert (url_scheme url = scheme_str scheme) by (repeat case_bool_decide; by simplify_eq).
  assert (url_password url = None) by (by apply eq_None_not_Some).
  split_and!; try done. by exists text.
Qed.

Lemma admit_url_inv p raw resolve t :
  Forall cidr_ok (allowed_cidrs p) -> admit_url p raw resolve = Ok t ->
  url_parse raw = Some (target_url t) /\ admitted p t
  /\ forall a, a ∈ resolved_addresses t <->
       match target_host t with
       | Ip literal => a = literal
       | Domain _ => exists answer, resolve (target_host t) = Some answer /\ a ∈ answer
       end.
Proof.
  intros Hok H. unfold admit_url, result_bind in H.
  destruct (parse_url p raw) as [parsed| |] eqn:Hp; [|done..].
  apply parse_url_inv in Hp as (Hparse & Hbase & Huser & Hscheme & Hhost & Hport).
  destruct (match parsed_host parsed with Domain _ => _ | Ip _ => _ end) as [addresses| |] eqn:Hadr; [|done..].
  case_bool_decide as Hne; [done|]. destruct (validate_addresses p addresses) as [[]| |] eqn:Hval; [|done..].
  simplify_eq. simpl. split; [done|].
  assert (StronglySorted (fun x y => ip_ltb x y = true) addresses) as Hsorted.
  { destruct (parsed_host parsed); simplify_eq; [|by repeat constructor].
    destruct (resolve _); simplify_eq/=. apply ip_set_sorted. }
  split; [split; simpl; try done|].
  - split_and!; [done..|]. apply validate_addresses_ok in Hval. eapply Forall_impl; [exact Hval|].
    intros a Ha Hip. apply validate_address_iff in Ha; [|done..]. split; [done|]. intros Hs.
    pose proof (special_excepted _ _ Ha Hs) as Hx. apply Exists_exists in Hx as (c & Hin & Hc & Hn). rewrite Forall_forall in Hok.
    by apply (narrow_contains_private c a (Hok c Hin)).
  - intros a. destruct (parsed_host parsed) as [d|lit]; simplify_eq; [|by rewrite list_elem_of_singleton].
    destruct (resolve (Domain d)) as [answer|]; simplify_eq/=. rewrite ip_set_elem. naive_solver.
Qed.

Lemma admitted_target_ok p raw resolve t :
  Forall cidr_ok (allowed_cidrs p) -> admit_url p raw resolve = Ok t -> admitted p t.
Proof. intros Hok H. by destruct (admit_url_inv p raw resolve t Hok H) as (_ & ? & _). Qed.

(** C38: A target that the policy admits has exactly one of the allowed schemes,
    hosts and ports and no user-info; its pinned addresses are the complete sorted
    DNS answer of this attempt (or the literal address), none is missing, and
    every one of them is permitted: never a cloud metadata address, inside the
    configured CIDRs if there are any, and a special-purpose address only if it is
    private or loopback and a configured CIDR inside that private range covers it.
    Link-local, multicast, mapped, translated and documentation addresses are
    refused whatever the configuration says. *)
Theorem admitted_target_is_safe p raw resolve t :
  Forall cidr_ok (allowed_cidrs p) -> admit_url p raw resolve = Ok t ->
  url_parse raw = Some (target_url t) /\ admitted p t
  /\ forall a, a ∈ resolved_addresses t <->
       match target_host t with
       | Ip literal => a = literal
       | Domain _ => exists answer, resolve (target_host t) = Some answer /\ a ∈ answer
       end.
Proof. apply admit_url_inv. Qed.

(** The address check is exact.  On every address and every policy whose CIDRs
    were constructed, [validate_address] accepts precisely the permitted ones,
    where blocks are intervals of addresses and the special-purpose registry is
    written in dotted notation, independently of the code's masks. *)
Lemma validate_address_exact p a :
  ip_ok a -> Forall cidr_ok (allowed_cidrs p) ->
  (validate_address p a = Ok tt <-> address_permitted p a)
  /\ (forall e, validate_address p a = Err e -> e = AddressDenied \/ e = AddressOutsideAllowedCidr).
Proof.
  intros Ha Hok. split; [by apply validate_address_iff|]. unfold validate_address.
  repeat case_match; intros ?; naive_solver.
Qed.

(** A constructed CIDR contains an address exactly if it is of the same family
    and agrees with the configured address on the prefix bits; construction fails
    exactly for a prefix longer than the address. *)
Lemma cidr_contains_exact a len b :
  ip_ok a -> ip_ok b -> 0 <= len ->
  match cidr_try_new a len with
  | Ok c => len <= width_of a /\ (cidr_contains c b = true <-> same_prefix len a b)
  | Err e => e = CidrPrefixLength /\ width_of a < len
  | Panic => False
  end.
Proof.
  intros Ha Hb Hl. destruct (cidr_try_new a len) as [c|e|] eqn:Hc.
  - split; [by apply (cidr_new_inv a len c)|by apply cidr_contains_iff].
  - destruct a; simpl in *; case_match; bool_simp; by simplify_eq.
  - destruct a; simpl in Hc; by case_match.
Qed.

(** ** Redirects *)

(** [t'] is reached from [t] by following redirects, [n'] of them in the end; each
    hop resolves names anew. *)
Inductive follows (p : EgressPolicy) (t : AdmittedEgressTarget (Url := Url)) : AdmittedEgressTarget -> Z -> Prop :=
| follow_start : follows p t t 0
| follow_hop t1 n location resolve t2 :
    follows p t t1 n -> admit_redirect p t1 location n resolve = Ok t2 -> follows p t t2 (n + 1).

Lemma policy_redirects input p m :
  policy_try_new input = Ok p -> maximum_redirects (redirect_policy p) = Some m -> 0 <= m -> 0 < m <= MAX_REDIRECTS.
Proof.
  unfold policy_try_new. intros H Hm Hpos. repeat case_match; simplify_eq; bool_simp; simplify_eq; lia.
Qed.

(** Following redirects is bounded and cannot leave the policy: under an
    accepted policy at most ten hops are possible, none if redirects are denied;
    every target reached is admitted like the first one, and under the same-origin
    policy it has the scheme, host and port of the first one. *)
Lemma redirects_stay_admitted input p raw resolve t0 t n :
  policy_try_new input = Ok p -> Forall cidr_ok (allowed_cidrs p) ->
  (forall m, maximum_redirects (redirect_policy p) = Some m -> 0 <= m) ->
  admit_url p raw resolve = Ok t0 -> follows p t0 t n ->
  0 <= n <= MAX_REDIRECTS /\ admitted p t
  /\ match redirect_policy p with
     | Deny => n = 0
     | SameOrigin m => n <= m /\ target_scheme t = target_scheme t0 /\ target_host t = target_host t0
                       /\ target_port t = target_port t0
     | Revalidate m => n <= m
     end.
Proof.
  intros Hp Hok Hm H0 Hf. assert (admitted p t0) as Ha0 by (by eapply admitted_target_ok).
  induction Hf as [|t1 n location res t2 Hf IH Hred].
  - split; [done|]. split; [done|]. destruct (redirect_policy p) as [|m|m]; [done|..]; specialize (Hm m eq_refl); done.
  - destruct IH as (Hn & Ha & Hpol). unfold admit_redirect in Hred.
    destruct (maximum_redirects (redirect_policy p)) as [m|] eqn:Hmax; [|done].
    pose proof (policy_redirects input p m Hp Hmax (Hm m eq_refl)) as Hb.
    destruct (m <=? n) eqn:Hle; [done|]. bool_simp. unfold result_bind, ok_or in Hred.
    destruct (url_join _ _) as [u|]; [|done]. destruct (admit_url p _ res) as [r| |] eqn:Hadm; [|done..].
    destruct (_ && _) eqn:Horg; [done|]. simplify_eq. split; [lia|]. split; [by eapply admitted_target_ok|].
    destruct (redirect_policy p) as [|m'|m']; simplify_eq/=; [|lia].
    apply negb_false_iff in Horg. unfold has_same_origin in Horg. bool_simp. destruct Hpol as (_ & E1 & E2 & E3).
    split; [lia|]. split_and!; congruence.
Qed.
End Properties.

(** ** Witnesses *)

Section Witnesses.

(** A URL crate that knows three URLs. *)
Record TableUrl : Type := mkUrl { u_text : string; u_host : string; u_port : Z }.

Definition ex_urls : list TableUrl :=
  [mkUrl "https://relay.example/v1" "relay.example" 443; mkUrl "https://relay.example/v2" "relay.example" 443;
   mkUrl "https://10.1.2.3/" "10.1.2.3" 443].

Definition ex_url_parse (s : string) : option TableUrl := List.find (fun u => bool_decide (u_text u = s)) ex_urls.

#[local] Instance ex_crate : UrlCrate TableUrl := {
  url_parse := ex_url_parse;
  cannot_be_a_base := fun _ => false;
  url_username := fun _ => "";
  url_password := fun _ => None;
  url_scheme := fun _ => "https";
  url_host_str := fun u => Some (u_host u);
  port_or_known_default := fun u => Some (u_port u);
  url_as_str := u_text;
  url_join := fun _ location => ex_url_parse location;
  host_parse := fun s => Some (HostDomain s);
}.

Definition ex_cidr : EgressCidr := mkCidr (V4 (v4 10 1 0 0)) 16.
Definition ex_policy : EgressPolicy :=
  mkPolicy (mkId "policy") "default" [Https] [Domain "relay.example"; Ip (V4 (v4 10 1 2 3))] [443]
    [ex_cidr; mkCidr (V4 (v4 8 8 8 0)) 24] (SameOrigin 2).
Definition ex_resolve (h : EgressHost) : option (list IpAddr) := Some [V4 (v4 8 8 8 8); V4 (v4 8 8 8 4)].

Lemma ex_cidrs_ok : Forall cidr_ok (allowed_cidrs ex_policy).
Proof.
  repeat constructor; [exists (V4 (v4 10 1 7 7)), 16|exists (V4 (v4 8 8 8 8)), 24]; (split_and!; [split|lia|]);
    vm_compute; congruence.
Qed.

Definition ex_target : AdmittedEgressTarget (Url := TableUrl) :=
  mkTarget (mkUrl "https://relay.example/v1" "relay.example" 443) Https (Domain "relay.example") 443
    [V4 (v4 8 8 8 4); V4 (v4 8 8 8 8)].

Lemma admitted_target_is_safe_witness :
  admit_url ex_policy "https://relay.example/v1" ex_resolve = Ok ex_target /\ admitted ex_policy ex_target.
Proof.
  assert (admit_url ex_policy "https://relay.example/v1" ex_resolve = Ok ex_target) as H by (vm_compute; reflexivity).
  split; [exact H|]. exact (proj1 (proj2 (admitted_target_is_safe _ _ _ _ ex_cidrs_ok H))).
Defined.

Lemma validate_address_exact_witness :
  address_permitted ex_policy (V4 (v4 10 1 2 3)) /\ ~ address_permitted ex_policy (V4 (v4 169 254 169 254)).
Proof.
  split.
  - apply (validate_address_exact ex_policy (V4 (v4 10 1 2 3))); [vm_compute; intuition congruence|exact ex_cidrs_ok|].
    vm_compute. reflexivity.
  - intros H. apply (validate_address_exact ex_policy (V4 (v4 169 254 169 254))) in H;
      [vm_compute in H; discriminate H|vm_compute; intuition congruence|exact ex_cidrs_ok].
Defined.

Lemma cidr_contains_exact_witness :
  cidr_try_new (V4 (v4 10 1 7 7)) 16 = Ok ex_cidr /\ same_prefix 16 (V4 (v4 10 1 7 7)) (V4 (v4 10 1 2 3)).
Proof.
  pose proof (cidr_contains_exact (V4 (v4 10 1 7 7)) 16 (V4 (v4 10 1 2 3))
    ltac:(vm_compute; intuition congruence) ltac:(vm_compute; intuition congruence) ltac:(lia)) as H.
  assert (cidr_try_new (V4 (v4 10 1 7 7)) 16 = Ok ex_cidr) as E by (vm_compute; reflexivity).
  rewrite E in H. split; [exact E|]. apply (proj1 (proj2 H)). vm_compute. reflexivity.
Defined.

Definition ex_redirected : AdmittedEgressTarget (Url := TableUrl) :=
  mkTarget (mkUrl "https://relay.example/v2" "relay.example" 443) Https (Domain "relay.example") 443
    [V4 (v4 8 8 8 4); V4 (v4 8 8 8 8)].

Lemma redirects_stay_admitted_witness :
  follows ex_policy ex_target ex_redirected (0 + 1) /\ admitted ex_policy ex_redirected.
Proof.
  assert (follows ex_policy ex_target ex_redirected (0 + 1)) as Hf.
  { apply (follow_hop _ _ ex_target 0 "https://relay.example/v2" ex_resolve); [apply follow_start|]. vm_compute. reflexivity. }
  split; [exact Hf|].
  apply (redirects_stay_admitted ex_policy ex_policy "https://relay.example/v1" ex_resolve ex_target ex_redirected (0 + 1)).
  - vm_compute. reflexivity.
  - exact ex_cidrs_ok.
  - intros m [= <-]. lia.
  - vm_compute. reflexivity.
  - exact Hf.
Defined.
End Witnesses.
