(* ===== verification/EndpointUrl.v ===== *)
(** * Endpoint URL composition

    Models [crates/gateway-upstream/src/endpoint_url.rs]: joining a configured Base
    URL and an inference path into one request target, refusing anything that could
    leave the configured path.

    The [url] crate is the parameter [UrlCrate] of [EgressPolicy] with four more
    accessors; the one law the composition relies on is what [Url::set_path] is
    documented to do for a path made of characters that need no escaping. *)

From S2P Require Import Prelude Text Core EgressPolicy.
Local Open Scope string_scope.
Local Open Scope list_scope.
Local Open Scope Z_scope.

Inductive EndpointUrlError : Type := InvalidBaseUrl | InvalidInferencePath.

Class UrlPaths (Url : Type) `{!UrlCrate Url} := {
  url_path : Url -> string;
  url_query : Url -> option string;
  url_fragment : Url -> option string;
  url_set_path : Url -> string -> Url;
}.

(** ** Paths *)

Definition slash : ascii := "/".

(** Letters, digits and the few marks a path segment may hold. *)
Definition path_byte (a : ascii) : bool :=
  let n := char_code a in
  ((48 <=? n) && (n <=? 57)) || ((65 <=? n) && (n <=? 90)) || ((97 <=? n) && (n <=? 122))
  || existsb (Ascii.eqb a) ["/"%char; "-"%char; "_"%char; "."%char; "~"%char].

Definition is_valid_path (path : string) : bool :=
  if negb (starts_with_char slash path) || contains_str "//" path then false
  else if negb (all_chars path_byte path) then false
  else forallb (fun segment => negb (bool_decide (segment = ".") || bool_decide (segment = ".."))) (split_char slash path).

Definition is_valid_inference_path (path : string) : bool := is_valid_path path.

Definition path_stop (a : ascii) : bool := existsb (Ascii.eqb a) ["/"%char; "?"%char; "#"%char].
Definition suffix_stop (a : ascii) : bool := existsb (Ascii.eqb a) ["?"%char; "#"%char].

Definition raw_base_path (raw_url : string) : option string :=
  '(_, after_scheme) ← split_once_str "://" raw_url;
  '(_, path_with_suffix) ← find_char path_stop after_scheme;
  if starts_with_char slash path_with_suffix
  then Some (match find_char suffix_stop path_with_suffix with
             | Some (path, _) => path
             | None => path_with_suffix
             end)
  else None.

Definition raw_authority (raw_url : string) : option string :=
  '(_, after_scheme) ← split_once_str "://" raw_url;
  Some (match find_char path_stop after_scheme with
        | Some (authority, _) => authority
        | None => after_scheme
        end).

Section Compose.
Context {Url : Type} `{!UrlCrate Url} `{!UrlPaths Url}.

Definition is_valid_base_url (raw_url : string) (url : Url) : bool :=
  (bool_decide (url_scheme url = "http") || bool_decide (url_scheme url = "https"))
  && negb (cannot_be_a_base url)
  && bool_decide (is_Some (url_host_str url))
  && bool_decide (url_username url = "")
  && bool_decide (url_password url = None)
  && bool_decide (url_query url = None)
  && bool_decide (url_fragment url = None)
  && match raw_authority raw_url with Some authority => negb (contains "@" authority) | None => false end
  && negb (contains "%" raw_url || contains "\" raw_url)
  && is_valid_path (url_path url)
  && match raw_base_path raw_url with Some path => is_valid_path path | None => true end.

Definition compose (base_url inference_path : string) : result EndpointUrlError Url :=
  let? url := ok_or InvalidBaseUrl (url_parse base_url) in
  if negb (is_valid_base_url base_url url) then Err InvalidBaseUrl
  else if negb (is_valid_inference_path inference_path) then Err InvalidInferencePath
  else
    let base_path := trim_end_char slash (url_path url) in
    Ok (url_set_path url (base_path +:+ inference_path)).
End Compose.

(** ** Specification: a path is a rendered list of segments *)

Fixpoint render (segments : list string) : string :=
  match segments with
  | [] => ""
  | s :: rest => String slash (s +:+ render rest)
  end.

Definition segment_ok (s : string) : Prop :=
  all_chars path_byte s = true /\ contains slash s = false /\ s <> "." /\ s <> "..".

(** Only the last segment may be empty (a trailing slash). *)
Definition segments_ok (segments : list string) : Prop :=
  segments <> [] /\ Forall segment_ok segments /\ Forall (fun s => s <> "") (removelast segments).

(** ** Lemmas on splitting *)

Lemma append_assoc (a b c : string) : (a +:+ b) +:+ c = a +:+ (b +:+ c).
Proof. induction a as [|x a IH]; [done|]. change (String x ((a +:+ b) +:+ c) = String x (a +:+ (b +:+ c))). by rewrite IH. Qed.

Lemma append_cons a (s t : string) : String a s +:+ t = String a (s +:+ t).
Proof. done. Qed.

Lemma append_nil_l (s : string) : "" +:+ s = s.
Proof. done. Qed.

Lemma append_nil_r (s : string) : s +:+ "" = s.
Proof. induction s as [|a s IH]; [done|]. rewrite append_cons. by rewrite IH. Qed.

Lemma all_chars_app f (a b : string) : all_chars f (a +:+ b) = all_chars f a && all_chars f b.
Proof.
  induction a as [|x a IH]; [done|]. rewrite append_cons. simpl. by rewrite IH, andb_assoc.
Qed.

Lemma split_char_spec c s :
  exists piece pieces, split_char c s = piece :: pieces
    /\ s = piece +:+ foldr (fun p acc => String c (p +:+ acc)) "" pieces
    /\ Forall (fun p => contains c p = false) (piece :: pieces).
Proof.
  induction s as [|a s (piece & pieces & Heq & Hs & Hno)]; simpl; [|rewrite Heq].
  - exists "", []. split_and!; [done..|]. by repeat constructor.
  - destruct (Ascii.eqb_spec a c) as [->|Hne].
    + exists "", (piece :: pieces). split_and!; [done| |by constructor]. simpl. rewrite append_nil_l. by rewrite <- Hs.
    + exists (String a piece), pieces. inversion_clear Hno as [|? ? Hp Hps]. split_and!; [done| |].
      * rewrite append_cons. by rewrite <- Hs.
      * constructor; [|done]. unfold contains in *. simpl. destruct (Ascii.eqb_spec a c); [done|]. done.
Qed.

Lemma foldr_render pieces : foldr (fun p acc => String slash (p +:+ acc)) "" pieces = render pieces.
Proof. induction pieces as [|p pieces IH]; [done|]. simpl. by rewrite IH. Qed.

Lemma split_char_no c s rest :
  contains c s = false -> split_char c (s +:+ rest) = match split_char c rest with
                                                     | [] => []
                                                     | p :: ps => (s +:+ p) :: ps end.
Proof.
  unfold contains. rewrite negb_false_iff. destruct (split_char_spec c rest) as (p & ps & Hr & _).
  induction s as [|a s IH]; intros Hs; [by rewrite append_nil_l, Hr|]. simpl in Hs.
  apply andb_true_iff in Hs as [Ha Hs]. rewrite append_cons. simpl. rewrite (IH Hs), Hr.
  by destruct (Ascii.eqb a c).
Qed.

Lemma split_render segments :
  Forall (fun s => contains slash s = false) segments -> split_char slash (render segments) = "" :: segments.
Proof.
  induction 1 as [|s segments Hs _ IH]; [done|]. simpl. rewrite (split_char_no slash s _ Hs), IH.
  by rewrite append_nil_r.
Qed.

(** [contains("//")] finds an empty piece strictly between two separators. *)
Lemma double_slash_spec s :
  contains_str "//" s = existsb (fun p => bool_decide (p = "")) (removelast (tail (split_char slash s))).
Proof.
  induction s as [|a s IH]; [done|]. destruct (split_char_spec slash s) as (p & ps & Hsp & Hs & Hno).
  apply Forall_inv in Hno. rewrite Hsp in IH. simpl in IH. cbn [split_char]. rewrite Hsp.
  change (contains_str "//" (String a s)) with
    (match (if Ascii.eqb "/" a then strip_prefix "/" s else None) with Some _ => true | None => contains_str "//" s end).
  rewrite IH. destruct (Ascii.eqb_spec a slash) as [->|Hne].
  - rewrite Ascii.eqb_refl. cbn [tail]. destruct p as [|x p].
    + destruct ps as [|q ps]; rewrite Hs; [done|]. cbn. done.
    + rewrite Hs, append_cons. unfold contains in Hno. simpl in Hno. cbn [strip_prefix].
      destruct (Ascii.eqb_spec x slash) as [->|Hx]; [done|].
      destruct (Ascii.eqb_spec "/" x) as [<-|]; [done|]. by destruct ps.
  - destruct (Ascii.eqb_spec "/" a) as [<-|]; [done|]. done.
Qed.

Lemma no_slash_chars s : contains slash s = false -> all_chars path_byte s = true -> segment_ok s \/ s = "." \/ s = "..".
Proof.
  intros Hs Hc. destruct (decide (s = ".")); [auto|]. destruct (decide (s = "..")); [auto|]. by left.
Qed.

Lemma all_chars_render segments :
  all_chars path_byte (render segments) = forallb (all_chars path_byte) segments.
Proof. induction segments as [|s segments IH]; [done|]. simpl. by rewrite all_chars_app, IH. Qed.

(** A valid path is exactly a rendered list of well-formed segments. *)
Lemma is_valid_path_iff path :
  is_valid_path path = true <-> exists segments, path = render segments /\ segments_ok segments.
Proof.
  unfold is_valid_path, segments_ok. rewrite double_slash_spec.
  destruct (split_char_spec slash path) as (p & ps & Hsp & Hs & Hno). inversion_clear Hno as [|? ? Hp Hps].
  split.
  - intros H. destruct (negb (starts_with_char slash path) || _) eqn:H1; [done|]. bool_simp.
    destruct (negb (all_chars path_byte path)) eqn:H2; [done|]. bool_simp. rewrite Hsp in *. cbn [tail forallb] in *.
    apply andb_true_iff in H as [_ H]. assert (p = "") as ->.
    { destruct p as [|x p]; [done|]. rewrite Hs, append_cons in H0. simpl in *. unfold contains in Hp. simpl in Hp.
      by rewrite H0 in Hp. }
    rewrite append_nil_l, foldr_render in Hs. exists ps. split; [done|].
    assert (ps <> []) as Hne by (intros ->; by subst). split; [done|]. rewrite Hs, all_chars_render in H2. split.
    + apply Forall_forall. intros s Hin. rewrite forallb_forall in H2, H.
      pose proof (proj1 (list_elem_of_In _ _) Hin) as Hin'. rewrite Forall_forall in Hps.
      specialize (H s Hin'). bool_simp. split_and!; auto.
    + apply Forall_forall. intros s Hin ->. rewrite <- not_true_iff_false in H1. apply H1, existsb_exists.
      exists "". split; [by apply list_elem_of_In|done].
  - intros (segs & -> & Hne & Hok & Hlast).
    assert (Forall (fun s => contains slash s = false) segs) as Hns by (eapply Forall_impl; [exact Hok|]; by intros s (_ & ? & _)).
    rewrite (split_render segs Hns), all_chars_render. cbn [tail].
    assert (starts_with_char slash (render segs) = true) as -> by (destruct segs; [done|]; apply Ascii.eqb_refl).
    assert (existsb (fun s => bool_decide (s = "")) (removelast segs) = false) as ->.
    { apply not_true_iff_false. intros (s & Hin & Hs')%existsb_exists. bool_simp. rewrite Forall_forall in Hlast.
      by apply (Hlast s); [apply list_elem_of_In|]. }
    assert (forallb (all_chars path_byte) segs = true) as -> by (apply forallb_forall; intros s Hin;
      rewrite Forall_forall in Hok; apply (Hok s); by apply list_elem_of_In).
    simpl. apply forallb_forall. intros s Hin. rewrite Forall_forall in Hok.
    destruct (Hok s) as (_ & _ & H1 & H2); [by apply list_elem_of_In|]. by rewrite !bool_decide_eq_false_2.
Qed.

(** ** Joining *)

Lemma trim_app c (a b : string) :
  trim_end_char c (a +:+ b) = match trim_end_char c b with "" => trim_end_char c a | t => a +:+ t end.
Proof.
  induction a as [|x a IH]; [by rewrite append_nil_l; destruct (trim_end_char c b)|].
  rewrite append_cons. simpl. rewrite IH. destruct (trim_end_char c b) as [|y t] eqn:Ht; [done|].
  destruct a; [by rewrite append_nil_l|]. by rewrite append_cons.
Qed.

Lemma trim_no c s : contains c s = false -> trim_end_char c s = s.
Proof.
  unfold contains. rewrite negb_false_iff. induction s as [|a s IH]; [done|]. simpl.
  intros [Ha Hs]%andb_true_iff. rewrite (IH Hs). destruct s; [|done]. by destruct (Ascii.eqb a c).
Qed.

Lemma render_app l1 l2 : render (l1 ++ l2) = render l1 +:+ render l2.
Proof. induction l1 as [|s l1 IH]; [by rewrite append_nil_l|]. simpl. by rewrite IH, append_cons, append_assoc. Qed.

(** The segments of a base path without its trailing slash. *)
Definition base_segments (segments : list string) : list string :=
  filter (fun s => s <> "") segments.

Lemma trim_render_full segments :
  Forall segment_ok segments -> Forall (fun s => s <> "") segments ->
  trim_end_char slash (render segments) = render segments.
Proof.
  intros Hok Hne. induction segments as [|s l IH] using rev_ind; [done|].
  apply Forall_app in Hok as [Hok Hs]. apply Forall_app in Hne as [Hne Hs'].
  apply Forall_inv in Hs as (_ & Hno & _). apply Forall_inv in Hs'.
  rewrite render_app. simpl. rewrite append_nil_r, trim_app. simpl. rewrite (trim_no _ _ Hno). by destruct s.
Qed.

Lemma trim_render segments :
  segments_ok segments -> trim_end_char slash (render segments) = render (base_segments segments).
Proof.
  intros (Hne & Hok & Hlast). destruct segments as [|s l _] using rev_ind; [done|].
  rewrite removelast_last in Hlast. apply Forall_app in Hok as [Hok Hs].
  unfold base_segments. rewrite filter_app, (filter_all (fun s => s <> "") l Hlast).
  rewrite filter_cons. case_decide as Hd; rewrite filter_nil.
  - apply trim_render_full; apply Forall_app; split; try done; by constructor.
  - subst s. rewrite app_nil_r, render_app. simpl. rewrite trim_app. simpl.
    by apply trim_render_full.
Qed.

Lemma segments_join l1 l2 : segments_ok l1 -> segments_ok l2 -> segments_ok (base_segments l1 ++ l2).
Proof.
  intros (_ & Hok1 & _) (Hne & Hok2 & Hlast). unfold segments_ok, base_segments. split_and!.
  - intros [_ ?]%app_eq_nil. done.
  - apply Forall_app. split; [|done]. rewrite Forall_forall in *. intros x [_ Hx]%list_elem_of_filter. auto.
  - rewrite removelast_app by done. apply Forall_app. split; [|done].
    apply Forall_forall. by intros x [? _]%list_elem_of_filter.
Qed.

Section Properties.
Context {Url : Type} `{!UrlCrate Url} `{!UrlPaths Url}.

(** [Url::set_path] with a path that needs no escaping replaces the path and
    nothing else. *)
Class SetPathLaw : Prop := {
  set_path_path u p : is_valid_path p = true -> url_path (url_set_path u p) = p;
  set_path_rest u p : is_valid_path p = true ->
    let u' := url_set_path u p in
    url_scheme u' = url_scheme u /\ url_host_str u' = url_host_str u
    /\ port_or_known_default u' = port_or_known_default u /\ url_username u' = url_username u
    /\ url_password u' = url_password u /\ url_query u' = url_query u /\ url_fragment u' = url_fragment u;
}.

(** A composed Endpoint URL stays at the configured origin and strictly below
    the configured base path: its path is the base path's segments followed by the
    inference path's segments, all of plain characters and none of them a dot
    segment; it carries no user-info, query or fragment. *)
Lemma composed_url_stays_below_base `{!SetPathLaw} base_url inference_path u :
  compose base_url inference_path = Ok u ->
  exists url base inference, url_parse base_url = Some url
    /\ url_path url = render base /\ segments_ok base
    /\ inference_path = render inference /\ segments_ok inference
    /\ url_path u = render (base_segments base ++ inference) /\ segments_ok (base_segments base ++ inference)
    /\ url_scheme u = url_scheme url /\ url_host_str u = url_host_str url
    /\ port_or_known_default u = port_or_known_default url
    /\ url_username u = "" /\ url_password u = None /\ url_query u = None /\ url_fragment u = None.
Proof.
  intros Hcomp. unfold compose, result_bind, ok_or in Hcomp. destruct (url_parse base_url) as [url|] eqn:Hp; [|done].
  destruct (negb (is_valid_base_url base_url url)) eqn:Hb; [done|].
  destruct (negb (is_valid_inference_path inference_path)) eqn:Hi; [done|]. bool_simp. simplify_eq.
  unfold is_valid_base_url in Hb. bool_simp.
  match goal with Hv : is_valid_path (url_path url) = true |- _ => apply is_valid_path_iff in Hv as (base & Hbase & Hok) end.
  apply is_valid_path_iff in Hi as (inference & -> & Hiok). pose proof (segments_join _ _ Hok Hiok) as Hjoin.
  rewrite Hbase, (trim_render base Hok), <- render_app.
  assert (is_valid_path (render (base_segments base ++ inference)) = true) as Hv by (apply is_valid_path_iff; eauto).
  exists url, base, inference. rewrite (set_path_path url _ Hv).
  destruct (set_path_rest url _ Hv) as (E1 & E2 & E3 & E4 & E5 & E6 & E7). split_and!; congruence.
Qed.
End Properties.

(** ** Witness *)

Section Witness.

Record PathUrl : Type := mkPathUrl { pu_scheme : string; pu_host : string; pu_path : string }.

(** A crate that parses [scheme://host/path]. *)
#[local] Instance ex_path_crate : UrlCrate PathUrl := {
  url_parse := fun s =>
    '(scheme, rest) ← split_once_str "://" s;
    '(host, path) ← find_char (Ascii.eqb slash) rest;
    Some (mkPathUrl scheme host path);
  cannot_be_a_base := fun _ => false;
  url_username := fun _ => "";
  url_password := fun _ => None;
  url_scheme := pu_scheme;
  url_host_str := fun u => Some (pu_host u);
  port_or_known_default := fun _ => Some 443;
  url_as_str := fun u => pu_scheme u +:+ "://" +:+ pu_host u +:+ pu_path u;
  url_join := fun _ _ => None;
  host_parse := fun s => Some (HostDomain s);
}.
#[local] Instance ex_paths : UrlPaths PathUrl := {
  url_path := pu_path;
  url_query := fun _ => None;
  url_fragment := fun _ => None;
  url_set_path := fun u p => mkPathUrl (pu_scheme u) (pu_host u) p;
}.
#[local] Instance ex_law : SetPathLaw.
Proof. split; intros; [done|]. repeat split. Qed.

Lemma composed_url_stays_below_base_witness :
  compose "https://relay.example/v1/" "/responses" = Ok (mkPathUrl "https" "relay.example" "/v1/responses")
  /\ compose "https://relay.example/v1" "/../admin" = Err InvalidInferencePath
  /\ exists segments, "/v1/responses" = render segments /\ segments_ok segments.
Proof.
  assert (compose "https://relay.example/v1/" "/responses" = Ok (mkPathUrl "https" "relay.example" "/v1/responses"))
    as H by (vm_compute; reflexivity).
  split; [exact H|]. split; [vm_compute; reflexivity|].
  destruct (composed_url_stays_below_base _ _ _ H) as (url & base & inference & _ & _ & _ & _ & _ & Hp & Hok & _).
  eexists. split; [exact Hp|exact Hok].
Defined.
End Witness.
