(* ===== verification/Sharded.v ===== *)
(** * Sharded registries

    [runtime_health.rs] and [runtime_quota.rs] keep their state in the same
    shape: a fixed boxed slice of [RwLock<BTreeMap<Key, State>>] plus atomic
    ticket counters, a key living in the shard its hash selects.  This file is
    that shape once: shard selection, locking (a poisoned lock is an error, not
    a lost state), bounded insertion, and the map from keys to states that the
    shards together represent. *)

From S2P Require Import Prelude.
Local Open Scope Z_scope.

Record Shard (K V : Type) `{Countable K} : Type := mkShard {
  poisoned : bool;
  states : gmap K V;
}.
Arguments mkShard {K V _ _} poisoned states.
Arguments poisoned {K V _ _} _.
Arguments states {K V _ _} _.

(** [C] is the record of atomic counters beside the shards. *)
Record Registry (K V C : Type) `{Countable K} : Type := mkRegistry {
  shards : list (Shard K V);
  counters : C;
}.
Arguments mkRegistry {K V C _ _} shards counters.
Arguments shards {K V C _ _} _.
Arguments counters {K V C _ _} _.

(** The standard library documents [DefaultHasher] only as some fixed hash: its
    output is a parameter, one function per key type. *)
Class ShardHash (K : Type) : Type := shard_hash : K -> Z.

Inductive ShardCountError : Type := ZeroShardCount | NonPowerOfTwoShardCount | TooManyShards.

Definition is_power_of_two (n : Z) : bool := (0 <? n) && (Z.land n (n - 1) =? 0).

Definition MAX_SHARD_COUNT : Z := 1024.
Definition MAX_ENTRIES_PER_SHARD : Z := 1024.
Definition DEFAULT_SHARD_COUNT : Z := 64.

Definition validate_shard_count (shard_count : Z) : result ShardCountError unit :=
  if shard_count =? 0 then Err ZeroShardCount
  else if negb (is_power_of_two shard_count) then Err NonPowerOfTwoShardCount
  else if MAX_SHARD_COUNT <? shard_count then Err TooManyShards
  else Ok tt.

Section Operations.
Context {K V C E : Type} `{Countable K} `{!ShardHash K}.

Definition build_shards (shard_count : Z) : list (Shard K V) :=
  replicate (Z.to_nat shard_count) (mkShard false ∅).

(** [hasher.finish() & (shards.len() - 1)]. *)
Definition shard_index (count : nat) (key : K) : nat :=
  Z.to_nat (Z.land (shard_hash key) (Z.of_nat count - 1)).

Definition index_in (reg : Registry K V C) (key : K) : nat :=
  shard_index (length (shards reg)) key.

(** [read_shard]; indexing the slice out of bounds would panic. *)
Definition read_shard (lock_error : E) (reg : Registry K V C) (key : K)
  : result E (gmap K V) :=
  match shards reg !! index_in reg key with
  | None => Panic
  | Some s => if poisoned s then Err lock_error else Ok (states s)
  end.

(** [write_shard] followed by [body] under the guard. *)
Definition with_write_shard {A} (lock_error : E) (key : K) (body : M (gmap K V * C) E A)
  : M (Registry K V C) E A :=
  fun reg =>
    match shards reg !! index_in reg key with
    | None => (Panic, reg)
    | Some s =>
        if poisoned s then (Err lock_error, reg)
        else match body (states s, counters reg) with
             | (r, (m', c')) =>
                 (r, mkRegistry (<[index_in reg key := mkShard false m']> (shards reg)) c')
             end
    end.

(** Operations on the locked map. *)
Definition get_state (key : K) : M (gmap K V * C) E (option V) :=
  fun mc => (Ok (mc.1 !! key), mc).
Definition insert_state (key : K) (v : V) : M (gmap K V * C) E unit :=
  fun mc => (Ok tt, (<[key := v]> mc.1, mc.2)).
Definition remove_state (key : K) : M (gmap K V * C) E unit :=
  fun mc => (Ok tt, (delete key mc.1, mc.2)).

(** [ensure_insert_capacity], with the reclaim predicate of the registry. *)
Definition ensure_capacity (capacity_error : E) (reclaimable : V -> bool)
  : M (gmap K V * C) E unit :=
  fun mc =>
    if Z.of_nat (size mc.1) <? MAX_ENTRIES_PER_SHARD then (Ok tt, mc)
    else
      let kept := filter (fun kv : K * V => reclaimable kv.2 = false) mc.1 in
      if MAX_ENTRIES_PER_SHARD <=? Z.of_nat (size kept) then (Err capacity_error, (kept, mc.2))
      else (Ok tt, (kept, mc.2)).

(** [entry_count]: the first poisoned shard is an error. *)
Fixpoint count_entries (lock_error : E) (l : list (Shard K V)) (count : Z) : result E Z :=
  match l with
  | [] => Ok count
  | s :: rest =>
      if poisoned s then Err lock_error
      else count_entries lock_error rest
             (usize_saturating_add count (Z.of_nat (size (states s))))
  end.

Definition entry_count (lock_error : E) (reg : Registry K V C) : result E Z :=
  count_entries lock_error (shards reg) 0.

(** ** What the shards represent *)

Definition view (reg : Registry K V C) (key : K) : option V :=
  shards reg !! index_in reg key ≫= fun s => states s !! key.

Definition healthy_lock (reg : Registry K V C) (key : K) : Prop :=
  exists s, shards reg !! index_in reg key = Some s /\ poisoned s = false.

(** Keys live where their hash says, shards are bounded. *)
Record registry_wf (reg : Registry K V C) : Prop := {
  wf_nonempty : (0 < length (shards reg))%nat;
  wf_bounded : forall i s, shards reg !! i = Some s -> (Z.of_nat (size (states s)) <= MAX_ENTRIES_PER_SHARD);
  wf_placed : forall i s k, shards reg !! i = Some s -> is_Some (states s !! k) -> index_in reg k = i;
}.

(** A body that only touches [key] (beyond reclaiming states) and respects the
    bound is what every mutation of the two registries is. *)
Definition local_body {A} (key : K) (reclaimable : V -> bool) (body : M (gmap K V * C) E A) : Prop :=
  forall m c r m' c', body (m, c) = (r, (m', c')) ->
    (Z.of_nat (size m) <= MAX_ENTRIES_PER_SHARD) ->
    (Z.of_nat (size m') <= MAX_ENTRIES_PER_SHARD)
    /\ forall k, k <> key ->
         m' !! k = m !! k
         \/ (exists v, m !! k = Some v /\ reclaimable v = true /\ m' !! k = None).
End Operations.

(** An operation whose result is reported in a common output type. *)
Definition map_out {S E A B} (f : A -> B) (m : M S E A) : M S E B :=
  let! a := m in ret (f a).

(** The state after a sequence of operations, whatever each returned. *)
Fixpoint run_all {S E Op Out} (exec : Op -> M S E Out) (ops : list Op) (s : S) : S :=
  match ops with
  | [] => s
  | op :: rest => run_all exec rest (exec op s).2
  end.

(** ** Interface of a keyed registry

    [step] is what the component promises about the one key an operation names:
    the result, the key's next state and the next counters. *)
Section Interface.
Context {K V C E Op Out : Type} `{Countable K} `{!ShardHash K}.

Definition KeyStep : Type := Op -> option V -> C -> result E Out * option V * C.

(** A locked body respects the bound, touches no other key beyond dropping
    reclaimable states, and acts on its own key as [step] says unless the shard
    is full. *)
Definition good_body (key_of : Op -> K) (reclaim : Op -> V -> bool) (step : KeyStep)
    (inv : C -> Prop) (cap : E) (op : Op) (body : M (gmap K V * C) E Out) : Prop :=
  forall m n r m' n', body (m, n) = (r, (m', n')) ->
    Z.of_nat (size m) <= MAX_ENTRIES_PER_SHARD ->
    (Z.of_nat (size m') <= MAX_ENTRIES_PER_SHARD
     /\ forall k, k <> key_of op ->
          m' !! k = m !! k
          \/ (exists v, m !! k = Some v /\ reclaim op v = true /\ m' !! k = None))
    /\ (inv n ->
        (r = Err cap /\ m !! key_of op = None /\ m' !! key_of op = None /\ n' = n)
        \/ (r, m' !! key_of op, n') = step op (m !! key_of op) n).

Class KeyedRegistry (exec : Op -> M (Registry K V C) E Out) (key_of : Op -> K)
    (reclaim : Op -> V -> bool) (step : KeyStep) (inv : C -> Prop) (le : relation C)
    (lock cap : E) : Prop := {
  (** An operation stops before it takes the lock, as [step] says it must, or
      is a good body under the lock. *)
  keyed_cases op reg r reg' :
    exec op reg = (r, reg') ->
    (reg' = reg /\ (exists e, r = Err e) /\ forall st n, step op st n = (r, st, n))
    \/ (exists body, good_body key_of reclaim step inv cap op body
          /\ with_write_shard lock (key_of op) body reg = (r, reg'));
  keyed_counters op st n r st' n' :
    inv n -> step op st n = (r, st', n') -> inv n' /\ le n n' /\ r <> Panic;
  keyed_le :: PreOrder le;
}.
End Interface.
Arguments KeyStep : clear implicits.

Section Lemmas.
Context {K V C E : Type} `{Countable K} `{!ShardHash K}.
Implicit Types (reg : Registry K V C) (m : gmap K V).

Lemma shard_index_lt (count : nat) (key : K) :
  (0 < count)%nat -> (shard_index count key < count)%nat.
Proof.
  intros Hc. unfold shard_index.
  assert (0 <= Z.land (shard_hash key) (Z.of_nat count - 1)) by (apply Z.land_nonneg; lia).
  assert (Z.land (shard_hash key) (Z.of_nat count - 1) <= Z.of_nat count - 1); [|lia].
  apply Z.ldiff_le; [lia|]. apply Z.bits_inj'. intros n Hn.
  rewrite Z.ldiff_spec, Z.land_spec, Z.bits_0.
  by destruct (Z.testbit _ n), (Z.testbit _ n).
Qed.

Lemma registry_new_wf (shard_count : Z) (c : C) :
  validate_shard_count shard_count = Ok tt ->
  registry_wf (mkRegistry (K := K) (V := V) (build_shards shard_count) c).
Proof.
  unfold validate_shard_count, is_power_of_two, build_shards.
  intros H1. repeat case_match; try done. bool_simp. split; simpl.
  - rewrite length_replicate. lia.
  - intros i s [-> _]%lookup_replicate. simpl. rewrite map_size_empty. unfold MAX_ENTRIES_PER_SHARD. lia.
  - intros i s k [-> _]%lookup_replicate. simpl. rewrite lookup_empty. by intros [].
Qed.

Lemma wf_shard reg key :
  registry_wf reg -> exists s, shards reg !! index_in reg key = Some s.
Proof. intros Hwf. apply lookup_lt_is_Some, shard_index_lt, Hwf. Qed.

(** What a write-locked body does to the registry as a whole. *)
Lemma with_write_inv {A} (lock_error : E) (key : K) (body : M (gmap K V * C) E A) reg r reg' :
  registry_wf reg ->
  with_write_shard lock_error key body reg = (r, reg') ->
  (r = Err lock_error /\ reg' = reg /\ ~ healthy_lock reg key)
  \/ (healthy_lock reg key /\ exists m m' c',
       body (m, counters reg) = (r, (m', c'))
       /\ (Z.of_nat (size m) <= MAX_ENTRIES_PER_SHARD)
       /\ shards reg !! index_in reg key = Some (mkShard false m)
       /\ reg' = mkRegistry (<[index_in reg key := mkShard false m']> (shards reg)) c').
Proof.
  intros Hwf Hw. destruct (wf_shard reg key Hwf) as [[p m] Hs].
  unfold with_write_shard in Hw. rewrite Hs in Hw. simpl in Hw. destruct p.
  - left. simplify_eq. split_and!; [done..|]. intros (s & Hs' & Hp). by simplify_eq.
  - right. destruct (body _) as [r1 [m' c']] eqn:Hb. simplify_eq. split; [by eexists|].
    exists m, m', c'. split_and!; [done| |done..]. by apply (wf_bounded _ Hwf _ _ Hs).
Qed.

Lemma index_in_insert reg i s c k :
  index_in (mkRegistry (C := C) (<[i := s]> (shards reg)) c) k = index_in reg k.
Proof. unfold index_in. simpl. by rewrite length_insert. Qed.

Lemma view_insert reg key m' c' k :
  registry_wf reg ->
  view (mkRegistry (C := C) (<[index_in reg key := mkShard false m']> (shards reg)) c') k
  = if decide (index_in reg k = index_in reg key) then m' !! k else view reg k.
Proof.
  intros Hwf. unfold view. rewrite index_in_insert. cbn [shards]. case_decide as Hi.
  - rewrite Hi, list_lookup_insert_eq; [done|]. apply shard_index_lt, Hwf.
  - by rewrite list_lookup_insert_ne.
Qed.

Lemma view_shard reg key k m :
  shards reg !! index_in reg key = Some (mkShard false m) ->
  index_in reg k = index_in reg key -> view reg k = m !! k.
Proof. intros Hs Hi. unfold view. by rewrite Hi, Hs. Qed.

Lemma with_write_wf {A} lock_error key reclaimable (body : M (gmap K V * C) E A) reg r reg' :
  local_body key reclaimable body -> registry_wf reg ->
  with_write_shard lock_error key body reg = (r, reg') ->
  registry_wf reg' /\ length (shards reg') = length (shards reg).
Proof.
  intros Hl Hwf Hw. destruct (with_write_inv _ _ _ _ _ _ Hwf Hw) as
    [(_ & -> & _)|(_ & m & m' & c' & Hb & Hm & Hs & ->)]; [done|].
  destruct (Hl _ _ _ _ _ Hb Hm) as [Hm' Hother]. simpl. rewrite length_insert.
  split; [|done]. split; simpl.
  - rewrite length_insert. apply Hwf.
  - intros i s [(_ & <- & _)|[_ Hi]]%list_lookup_insert_Some; [done|]. by eapply wf_bounded.
  - intros i s k Hi Hk. rewrite index_in_insert.
    apply list_lookup_insert_Some in Hi as [(<- & <- & _)|[_ Hi]]; [|by eapply wf_placed].
    destruct (decide (k = key)) as [->|Hne]; [done|]. simpl in Hk.
    eapply wf_placed; [done..|]. simpl.
    destruct (Hother k Hne) as [<-|(v & _ & _ & Hn)]; [done|]. rewrite Hn in Hk. by destruct Hk.
Qed.

Lemma with_write_view_other {A} lock_error key reclaimable (body : M (gmap K V * C) E A) reg r reg' k :
  local_body key reclaimable body -> registry_wf reg ->
  with_write_shard lock_error key body reg = (r, reg') -> k <> key ->
  view reg' k = view reg k
  \/ (exists v, view reg k = Some v /\ reclaimable v = true /\ view reg' k = None).
Proof.
  intros Hl Hwf Hw Hne. destruct (with_write_inv _ _ _ _ _ _ Hwf Hw) as
    [(_ & -> & _)|(_ & m & m' & c' & Hb & Hm & Hs & ->)]; [by left|].
  destruct (Hl _ _ _ _ _ Hb Hm) as [_ Hother]. rewrite view_insert by done.
  case_decide as Hi; [|by left]. rewrite (view_shard _ _ _ _ Hs Hi). by apply Hother.
Qed.

Lemma with_write_view_key {A} lock_error key (body : M (gmap K V * C) E A) reg r reg' :
  registry_wf reg -> healthy_lock reg key ->
  with_write_shard lock_error key body reg = (r, reg') ->
  exists m m' c', view reg key = m !! key /\ body (m, counters reg) = (r, (m', c'))
    /\ (Z.of_nat (size m) <= MAX_ENTRIES_PER_SHARD)
    /\ view reg' key = m' !! key /\ counters reg' = c'.
Proof.
  intros Hwf Hlock Hw. destruct (with_write_inv _ _ _ _ _ _ Hwf Hw) as
    [(_ & _ & Hn)|(_ & m & m' & c' & Hb & Hm & Hs & ->)]; [done|].
  exists m, m', c'. rewrite view_insert by done. rewrite decide_True by done.
  split_and!; [|done..]. by apply (view_shard _ _ _ _ Hs).
Qed.

(** Releasing a guard never poisons a lock. *)
Lemma with_write_healthy {A} lock_error key (body : M (gmap K V * C) E A) reg r reg' k :
  registry_wf reg -> with_write_shard lock_error key body reg = (r, reg') ->
  healthy_lock reg k -> healthy_lock reg' k.
Proof.
  intros Hwf Hw (s & Hs & Hp). destruct (with_write_inv _ _ _ _ _ _ Hwf Hw) as
    [(_ & -> & _)|(_ & m & m' & c' & _ & _ & _ & ->)]; [by exists s|].
  unfold healthy_lock. rewrite index_in_insert. simpl.
  destruct (decide (index_in reg k = index_in reg key)) as [->|Hi].
  - eexists. rewrite list_lookup_insert_eq; [done|]. apply shard_index_lt, Hwf.
  - exists s. by rewrite list_lookup_insert_ne.
Qed.

Lemma with_write_no_panic {A} lock_error key (body : M (gmap K V * C) E A) reg :
  registry_wf reg -> (forall mc, (body mc).1 <> Panic) ->
  (with_write_shard lock_error key body reg).1 <> Panic.
Proof.
  intros Hwf Hb. destruct (wf_shard reg key Hwf) as [s Hs].
  unfold with_write_shard. rewrite Hs. destruct (poisoned s); [done|].
  specialize (Hb (states s, counters reg)). by destruct (body _) as [r [m' c']].
Qed.

Lemma ensure_capacity_spec capacity_error reclaimable m (c : C) r m' c' :
  ensure_capacity (E := E) capacity_error reclaimable (m, c) = (r, (m', c')) ->
  (Z.of_nat (size m) <= MAX_ENTRIES_PER_SHARD) ->
  c' = c /\ (Z.of_nat (size m') <= MAX_ENTRIES_PER_SHARD)
  /\ (r = Ok tt -> (Z.of_nat (size m') < MAX_ENTRIES_PER_SHARD))
  /\ (r = Ok tt \/ r = Err capacity_error)
  /\ (forall k, m' !! k = m !! k
        \/ (exists v, m !! k = Some v /\ reclaimable v = true /\ m' !! k = None)).
Proof.
  unfold ensure_capacity. simpl. intros He Hm.
  assert (forall k, filter (fun kv : K * V => reclaimable kv.2 = false) m !! k = m !! k
    \/ (exists v, m !! k = Some v /\ reclaimable v = true
         /\ filter (fun kv : K * V => reclaimable kv.2 = false) m !! k = None)) as Hf.
  { intros k. destruct (m !! k) as [v|] eqn:Hk.
    - destruct (reclaimable v) eqn:Hv.
      + right. exists v. split_and!; [done..|]. apply map_lookup_filter_None. right.
        intros x Hx. simplify_eq/=. by rewrite Hv.
      + left. by apply map_lookup_filter_Some.
    - left. apply map_lookup_filter_None. by left. }
  assert (size (filter (fun kv : K * V => reclaimable kv.2 = false) m) <= size m)%nat
    by (apply map_size_filter || apply map_subseteq_size, map_filter_subseteq).
  destruct (Z.of_nat (size m) <? MAX_ENTRIES_PER_SHARD) eqn:Hlt; [|case_match eqn:Hge];
    simplify_eq; bool_simp; split_and!; auto; try lia; done.
Qed.

Lemma size_insert_bound m k v :
  (is_Some (m !! k) -> Z.of_nat (size m) <= MAX_ENTRIES_PER_SHARD) ->
  (m !! k = None -> Z.of_nat (size m) < MAX_ENTRIES_PER_SHARD) ->
  Z.of_nat (size (<[k := v]> m)) <= MAX_ENTRIES_PER_SHARD.
Proof.
  intros H1 H2. destruct (m !! k) as [v'|] eqn:Hk.
  - rewrite map_size_insert_Some by (by eexists). by apply H1.
  - rewrite map_size_insert_None by done. specialize (H2 eq_refl). lia.
Qed.

Lemma size_delete_bound m k :
  Z.of_nat (size m) <= MAX_ENTRIES_PER_SHARD ->
  Z.of_nat (size (delete k m)) <= MAX_ENTRIES_PER_SHARD.
Proof.
  intros Hm. destruct (m !! k) as [v|] eqn:Hk.
  - rewrite map_size_delete_Some by (by eexists). lia.
  - by rewrite map_size_delete_None.
Qed.

(** A fresh insertion: room is made by dropping reclaimable states only. *)
Lemma fresh_insert_cases cap reclaimable key v m (n : C) (r : result E unit) m' n' :
  (ensure_capacity cap reclaimable ;;; insert_state key v) (m, n) = (r, (m', n')) ->
  m !! key = None -> Z.of_nat (size m) <= MAX_ENTRIES_PER_SHARD ->
  Z.of_nat (size m') <= MAX_ENTRIES_PER_SHARD /\ n' = n
  /\ (forall k, k <> key ->
       m' !! k = m !! k
       \/ (exists v, m !! k = Some v /\ reclaimable v = true /\ m' !! k = None))
  /\ ((r = Err cap /\ m' !! key = None) \/ (r = Ok tt /\ m' !! key = Some v)).
Proof.
  intros H1 Hk Hm. unfold bind in H1.
  destruct (ensure_capacity cap reclaimable (m, n)) as [r1 [m1 n1]] eqn:He.
  apply ensure_capacity_spec in He as (-> & Hs & Hok & Hr & Hf); [|done].
  assert (m1 !! key = None) as Hk1 by (destruct (Hf key) as [->|(? & ? & ? & ?)]; congruence).
  destruct Hr as [-> | ->]; unfold insert_state in H1; simpl in H1; simplify_eq/=.
  - split_and!; [|done| |by right; simplify_map_eq].
    + apply size_insert_bound; auto.
    + intros k Hne. rewrite lookup_insert_ne by done. apply Hf.
  - split_and!; auto.
Qed.

Lemma bind_get_state {A} key (k : option V -> M (gmap K V * C) E A) m (n : C) :
  bind (get_state key) k (m, n) = k (m !! key) (m, n).
Proof. done. Qed.

Lemma map_out_with_write {A B} (f : A -> B) lock key (body : M (gmap K V * C) E A) reg :
  map_out f (with_write_shard lock key body) reg = with_write_shard lock key (map_out f body) reg.
Proof.
  unfold map_out, bind, ret, with_write_shard.
  destruct (shards reg !! index_in reg key) as [sh|]; [|done].
  destruct (poisoned sh); [done|].
  destruct (body (states sh, counters reg)) as [[a|e|] [m' c']]; done.
Qed.

Lemma new_registry_facts (shard_count : Z) (c : C) :
  validate_shard_count shard_count = Ok tt ->
  let reg := mkRegistry (K := K) (V := V) (build_shards shard_count) c in
  registry_wf reg /\ (forall key, view reg key = None) /\ (forall key, healthy_lock reg key).
Proof.
  intros Hv reg. assert (registry_wf reg) as Hwf by (by apply registry_new_wf).
  split; [done|]. split; intros key; destruct (wf_shard _ key Hwf) as [sh Hs];
    unfold view, healthy_lock; rewrite Hs; simpl in *; apply lookup_replicate in Hs as [-> _];
    [apply lookup_empty|by eexists].
Qed.
End Lemmas.

Lemma map_out_inv {S E A B} (f : A -> B) (b : M S E A) s r s' :
  map_out f b s = (r, s') ->
  exists r0, b s = (r0, s') /\ r = match r0 with Ok a => Ok (f a) | Err e => Err e | Panic => Panic end.
Proof.
  unfold map_out, bind, ret. destruct (b s) as [[a|e|] s1]; intros; simplify_eq; eauto.
Qed.

Lemma u64_add_one n :
  1 <= n <= u64_max ->
  u64_checked_add n 1 = if u64_max <=? n then None else Some (n + 1).
Proof.
  intros Hn. unfold u64_checked_add, u64_try_from, in_u64.
  destruct (Z.leb_spec u64_max n), (Z.leb_spec 0 (n + 1)), (Z.leb_spec (n + 1) u64_max); simpl; try done; lia.
Qed.

Lemma run_all_app {S E Op Out} (exec : Op -> M S E Out) ops ops' s :
  run_all exec (ops ++ ops') s = run_all exec ops' (run_all exec ops s).
Proof. revert s. induction ops as [|op ops IH]; intros s; [done|apply IH]. Qed.

(** ** What the interface gives every keyed registry *)
Section Keyed.
Context {K V C E Op Out : Type} `{Countable K} `{!ShardHash K}.
Context {exec : Op -> M (Registry K V C) E Out} {key_of : Op -> K}
  {reclaim : Op -> V -> bool} {step : KeyStep V C E Op Out} {inv : C -> Prop} {le : relation C}
  {lock cap : E}.
Context `{HK : !KeyedRegistry exec key_of reclaim step inv le lock cap}.
Implicit Types (reg : Registry K V C) (op : Op).

Lemma good_local op body :
  good_body key_of reclaim step inv cap op body -> local_body (key_of op) (reclaim op) body.
Proof. intros Hg m n r m' n' Hb Hm. by apply (Hg _ _ _ _ _ Hb Hm). Qed.

Lemma keyed_other op reg r reg' k :
  registry_wf reg -> exec op reg = (r, reg') -> k <> key_of op ->
  view reg' k = view reg k
  \/ (exists v, view reg k = Some v /\ reclaim op v = true /\ view reg' k = None).
Proof.
  intros Hwf He Hne. destruct (keyed_cases _ _ _ _ He) as [(-> & _)|(body & Hg & Hw)]; [by left|].
  eapply with_write_view_other; eauto using good_local.
Qed.

Lemma keyed_own op reg r reg' :
  registry_wf reg -> inv (counters reg) -> exec op reg = (r, reg') ->
  (r = Err lock /\ reg' = reg /\ ~ healthy_lock reg (key_of op))
  \/ (r = Err cap /\ view reg (key_of op) = None
      /\ view reg' (key_of op) = None /\ counters reg' = counters reg)
  \/ (r, view reg' (key_of op), counters reg') = step op (view reg (key_of op)) (counters reg).
Proof.
  intros Hwf Hc He. destruct (keyed_cases _ _ _ _ He) as [(-> & _ & Hk)|(body & Hg & Hw)].
  { right. right. by rewrite Hk. }
  destruct (with_write_inv _ _ _ _ _ _ Hwf Hw) as [?|(Hl & _)]; [by left|right].
  destruct (with_write_view_key _ _ _ _ _ _ Hwf Hl Hw) as (m & m' & n' & -> & Hb & Hm & -> & ->).
  destruct (Hg _ _ _ _ _ Hb Hm) as [_ Hstep]. by apply Hstep.
Qed.

Lemma keyed_wf op reg r reg' :
  registry_wf reg -> exec op reg = (r, reg') ->
  registry_wf reg' /\ length (shards reg') = length (shards reg).
Proof.
  intros Hwf He. destruct (keyed_cases _ _ _ _ He) as [(-> & _)|(body & Hg & Hw)]; [done|].
  eapply with_write_wf; eauto using good_local.
Qed.

Lemma keyed_healthy op reg r reg' k :
  registry_wf reg -> exec op reg = (r, reg') -> healthy_lock reg k -> healthy_lock reg' k.
Proof.
  intros Hwf He. destruct (keyed_cases _ _ _ _ He) as [(-> & _)|(body & _ & Hw)]; [done|].
  by eapply with_write_healthy.
Qed.

Lemma keyed_inv op reg r reg' :
  registry_wf reg -> inv (counters reg) -> exec op reg = (r, reg') ->
  registry_wf reg' /\ inv (counters reg') /\ le (counters reg) (counters reg') /\ r <> Panic.
Proof.
  intros Hwf Hc He. destruct (keyed_wf _ _ _ _ Hwf He) as [? _]. split; [done|].
  pose proof (keyed_le (KeyedRegistry := HK)) as Hpre.
  destruct (keyed_own _ _ _ _ Hwf Hc He) as [(-> & -> & _)|[(-> & _ & _ & ->)|Hk]];
    [split_and!; done..|].
  symmetry in Hk. by apply keyed_counters in Hk.
Qed.

Lemma run_all_inv ops reg :
  registry_wf reg -> inv (counters reg) ->
  registry_wf (run_all exec ops reg) /\ inv (counters (run_all exec ops reg)).
Proof.
  revert reg. induction ops as [|op ops IH]; intros reg Hwf Hc; [done|]. simpl.
  destruct (exec op reg) as [r reg'] eqn:He. destruct (keyed_inv _ _ _ _ Hwf Hc He) as (? & ? & _).
  by apply IH.
Qed.

Lemma run_all_healthy ops reg k :
  registry_wf reg -> inv (counters reg) -> healthy_lock reg k ->
  healthy_lock (run_all exec ops reg) k.
Proof.
  revert reg. induction ops as [|op ops IH]; intros reg Hwf Hc Hl; [done|]. simpl.
  destruct (exec op reg) as [r reg'] eqn:He. destruct (keyed_inv _ _ _ _ Hwf Hc He) as (? & ? & _).
  apply IH; eauto using keyed_healthy.
Qed.

(** A fact about one key's state and the counters that every step on the key,
    every growth of the counters and every reclaim respects holds along any
    sequence of operations. *)
Lemma run_all_key (P : option V -> C -> Prop) key ops reg :
  registry_wf reg -> inv (counters reg) ->
  (forall op st n r st' n', op ∈ ops -> key_of op = key -> inv n ->
     step op st n = (r, st', n') -> P st n -> P st' n') ->
  (forall st n n', P st n -> le n n' -> P st n') ->
  (forall op v n, reclaim op v = true -> P (Some v) n -> P None n) ->
  P (view reg key) (counters reg) ->
  P (view (run_all exec ops reg) key) (counters (run_all exec ops reg)).
Proof.
  intros Hwf Hc Hstep Hmono Hdrop. revert reg Hwf Hc.
  induction ops as [|op ops IH]; intros reg Hwf Hc HP; [done|]. simpl.
  destruct (exec op reg) as [r reg'] eqn:He.
  destruct (keyed_inv _ _ _ _ Hwf Hc He) as (? & ? & ? & _). apply IH; try done.
  { intros op0 st n r0 st' n' Hin. by apply (Hstep op0 st n r0 st' n'), list_elem_of_further. }
  simpl. destruct (decide (key = key_of op)) as [->|Hne].
  - destruct (keyed_own _ _ _ _ Hwf Hc He) as [(_ & -> & _)|[(_ & Hv & -> & ->)|Hk]]; [done| |].
    + by rewrite <- Hv.
    + symmetry in Hk. by apply (Hstep _ _ _ _ _ _ (list_elem_of_here op ops) eq_refl Hc Hk).
  - eapply Hmono; [|done..].
    destruct (keyed_other _ _ _ _ key Hwf He Hne) as [-> |(v & Hv & Hx & ->)]; [done|].
    rewrite Hv in HP. by eapply Hdrop.
Qed.

(** The same for a boolean fact that the reclaimable states do not satisfy,
    with the operations of one kind excluded. *)
Lemma run_all_keeps (P : option V -> bool) (skip : Op -> bool) key ops reg :
  registry_wf reg -> inv (counters reg) ->
  (forall op st n r st' n', key_of op = key -> skip op = false ->
     step op st n = (r, st', n') -> P st = true -> P st' = true) ->
  (forall op v, reclaim op v = true -> P (Some v) = false) ->
  forallb (fun op => negb (skip op)) ops = true ->
  P (view reg key) = true -> P (view (run_all exec ops reg) key) = true.
Proof.
  intros Hwf Hc Hstep Hdrop Hops. apply (run_all_key (fun st _ => P st = true)); try done.
  - intros op st n r st' n' Hin Hk _ Hs. rewrite forallb_forall in Hops.
    apply list_elem_of_In, Hops, negb_true_iff in Hin. by eapply Hstep.
  - intros op v n Hr. by rewrite (Hdrop op).
Qed.
End Keyed.

Ltac size_tac :=
  first [ done | apply size_insert_bound; [done | congruence] | by apply size_delete_bound ].

Ltac unfold_shard_ops := unfold get_state, insert_state, remove_state in *.
