(* ===== verification/RuntimeHealth.v ===== *)
(** * Runtime health registry

    Models [crates/gateway-router/src/runtime_health.rs]: Cooldown, Circuit and
    account state per Endpoint, Endpoint/Credential and
    Endpoint/Credential/model, kept in bounded shards, with half-open probe and
    account-recovery tickets.

    Every operation reads the injected clock at most once, before it takes the
    shard lock; that reading is the argument [clk], so that an interleaving of
    callers is a sequence of operations with arbitrary readings. *)

From S2P Require Import Prelude Core Sharded.
Local Open Scope Z_scope.

(** ** Data *)

Inductive RuntimeHealthKey : Type :=
| HEndpoint (endpoint_id : EndpointId)
| HEndpointCredential (endpoint_id : EndpointId) (credential_id : CredentialId)
| HEndpointCredentialModel (endpoint_id : EndpointId) (credential_id : CredentialId)
    (upstream_model : string).

#[export] Instance RuntimeHealthKey_eq_dec : EqDecision RuntimeHealthKey.
Proof. solve_decision. Defined.

#[export] Instance RuntimeHealthKey_countable : Countable RuntimeHealthKey.
Proof.
  apply (inj_countable'
    (fun k => match k with
              | HEndpoint e => inl e
              | HEndpointCredential e c => inr (inl (e, c))
              | HEndpointCredentialModel e c m => inr (inr (e, c, m))
              end)
    (fun x => match x with
              | inl e => HEndpoint e
              | inr (inl (e, c)) => HEndpointCredential e c
              | inr (inr (e, c, m)) => HEndpointCredentialModel e c m
              end)).
  by intros [].
Defined.

Definition hkey_endpoint_id (k : RuntimeHealthKey) : EndpointId :=
  match k with
  | HEndpoint e | HEndpointCredential e _ | HEndpointCredentialModel e _ _ => e
  end.

Definition hkey_credential_id (k : RuntimeHealthKey) : option CredentialId :=
  match k with
  | HEndpoint _ => None
  | HEndpointCredential _ c | HEndpointCredentialModel _ c _ => Some c
  end.

Definition hkey_upstream_model (k : RuntimeHealthKey) : option string :=
  match k with
  | HEndpoint _ | HEndpointCredential _ _ => None
  | HEndpointCredentialModel _ _ m => Some m
  end.

Inductive RuntimeHealthAvailability : Type :=
| AvAvailable
| AvCoolingDown (until_ms : Z)
| AvCircuitOpen (retry_after_ms : Z)
| AvAccountForbidden
| AvCredentialUnauthorized
| AvAccountRecoveryInFlight (expires_at_ms : Z).

Definition av_is_available (a : RuntimeHealthAvailability) : bool :=
  match a with AvAvailable => true | _ => false end.

Inductive RuntimeCredentialAccountStatus : Type :=
| StAvailable | StForbidden | StUnauthorized | StRecoveryInFlight (expires_at_ms : Z).

Inductive RuntimeHealthClockError : Type := ClockUnavailable.

Inductive RuntimeHealthError : Type :=
| HClock (e : RuntimeHealthClockError)
| DeadlineNotInFuture
| HShardLockPoisoned
| HShardCapacityExceeded
| CircuitProbeIdOverflow
| StaleCircuitProbe
| AccountRecoveryProbeIdOverflow
| StaleAccountRecoveryProbe.

Inductive RuntimeHealthState : Type :=
| CoolingDown (until_ms : Z)
| CircuitOpen (retry_after_ms : Z)
| CircuitHalfOpen (retry_after_ms probe_id probe_expires_at_ms : Z)
| AccountForbidden
| StateCredentialUnauthorized
| AccountRecoveryInFlight (probe_id recovery_expires_at_ms : Z).

(** Tickets; in Rust they cannot be cloned and completion consumes them. *)
Record RuntimeHealthCircuitProbe : Type := mkCircuitProbe {
  cp_key : RuntimeHealthKey;
  cp_probe_id : Z;
  cp_expires_at_ms : Z;
}.
Record RuntimeHealthAccountRecoveryProbe : Type := mkRecoveryProbe {
  rp_key : RuntimeHealthKey;
  rp_probe_id : Z;
  rp_expires_at_ms : Z;
}.

Inductive RuntimeHealthCircuitProbeResult : Type :=
| ProbeHealthy
| ProbeUnhealthy (retry_after_ms : Z).

Inductive RuntimeHealthAccountRecoveryResult : Type := RecoveryAllowed | RecoveryForbidden.

Record HealthCounters : Type := mkHealthCounters {
  next_circuit_probe_id : Z;
  next_account_recovery_probe_id : Z;
}.

Abbreviation HealthRegistry := (Registry RuntimeHealthKey RuntimeHealthState HealthCounters).
Abbreviation HealthM A := (M HealthRegistry RuntimeHealthError A).
Abbreviation HealthBody A :=
  (M (gmap RuntimeHealthKey RuntimeHealthState * HealthCounters) RuntimeHealthError A).
(** A reading of the injected clock; [None] is [RuntimeHealthClockError::Unavailable]. *)
Abbreviation ClockReading := (option Z).

(** ** [impl RuntimeHealthState] *)

Definition state_availability_at (s : RuntimeHealthState) (now_ms : Z) : RuntimeHealthAvailability :=
  match s with
  | CoolingDown until_ms => if now_ms <? until_ms then AvCoolingDown until_ms else AvAvailable
  | CircuitOpen retry_after_ms | CircuitHalfOpen retry_after_ms _ _ => AvCircuitOpen retry_after_ms
  | AccountRecoveryInFlight _ expires =>
      if now_ms <? expires then AvAccountRecoveryInFlight expires else AvAccountForbidden
  | StateCredentialUnauthorized => AvCredentialUnauthorized
  | AccountForbidden => AvAccountForbidden
  end.

Definition state_account_status_at (s : RuntimeHealthState) (now_ms : Z)
  : RuntimeCredentialAccountStatus :=
  match s with
  | AccountRecoveryInFlight _ expires =>
      if now_ms <? expires then StRecoveryInFlight expires else StForbidden
  | StateCredentialUnauthorized => StUnauthorized
  | AccountForbidden => StForbidden
  | CoolingDown _ | CircuitOpen _ | CircuitHalfOpen _ _ _ => StAvailable
  end.

Definition is_expired_cooldown (now_ms : Z) (s : RuntimeHealthState) : bool :=
  match s with
  | CoolingDown until_ms => until_ms <=? now_ms
  | _ => false
  end.

Definition state_retry_after_ms (s : RuntimeHealthState) : Z :=
  match s with
  | CircuitOpen retry_after_ms | CircuitHalfOpen retry_after_ms _ _ => retry_after_ms
  | CoolingDown until_ms => until_ms
  | AccountForbidden | StateCredentialUnauthorized => 0
  | AccountRecoveryInFlight _ expires => expires
  end.

(** ** Helpers *)

Definition validate_deadline (until_ms now_ms : Z) : result RuntimeHealthError unit :=
  if until_ms <=? now_ms then Err DeadlineNotInFuture else Ok tt.

Definition ensure_insert_capacity (now_ms : Z) : HealthBody unit :=
  ensure_capacity HShardCapacityExceeded (is_expired_cooldown now_ms).

(** [clock.now_ms()?] *)
Definition read_clock (clk : ClockReading) : result RuntimeHealthError Z :=
  ok_or (HClock ClockUnavailable) clk.

(** [fetch_update(.., |current| current.checked_add(1))] returns the old value. *)
Definition take_circuit_probe_id : HealthBody Z :=
  fun mc => match u64_checked_add (next_circuit_probe_id mc.2) 1 with
            | None => (Err CircuitProbeIdOverflow, mc)
            | Some next =>
                (Ok (next_circuit_probe_id mc.2),
                 (mc.1, mkHealthCounters next (next_account_recovery_probe_id mc.2)))
            end.

Definition take_account_recovery_probe_id : HealthBody Z :=
  fun mc => match u64_checked_add (next_account_recovery_probe_id mc.2) 1 with
            | None => (Err AccountRecoveryProbeIdOverflow, mc)
            | Some next =>
                (Ok (next_account_recovery_probe_id mc.2),
                 (mc.1, mkHealthCounters (next_circuit_probe_id mc.2) next))
            end.

Section Operations.
Context `{!ShardHash RuntimeHealthKey}.

Definition health_with_clock : HealthRegistry :=
  mkRegistry (build_shards DEFAULT_SHARD_COUNT) (mkHealthCounters 1 1).

Definition try_with_clock_and_shards (shard_count : Z) : result ShardCountError HealthRegistry :=
  let? _ := validate_shard_count shard_count in
  Ok (mkRegistry (build_shards shard_count) (mkHealthCounters 1 1)).

(** ** Queries *)

Definition availability_at (reg : HealthRegistry) (key : RuntimeHealthKey) (now_ms : Z)
  : result RuntimeHealthError RuntimeHealthAvailability :=
  let? m := read_shard HShardLockPoisoned reg key in
  Ok (match m !! key with
      | None => AvAvailable
      | Some s => state_availability_at s now_ms
      end).

Definition availability (reg : HealthRegistry) (key : RuntimeHealthKey) (clk : ClockReading)
  : result RuntimeHealthError RuntimeHealthAvailability :=
  let? now_ms := read_clock clk in
  availability_at reg key now_ms.

Definition endpoint_is_available (reg : HealthRegistry) (e : EndpointId) (clk : ClockReading) : bool :=
  is_ok_and av_is_available (availability reg (HEndpoint e) clk).

Definition endpoint_credential_is_available (reg : HealthRegistry) (e : EndpointId)
    (c : CredentialId) (clk : ClockReading) : bool :=
  is_ok_and av_is_available (availability reg (HEndpointCredential e c) clk).

Definition endpoint_credential_model_is_available (reg : HealthRegistry) (e : EndpointId)
    (c : CredentialId) (upstream_model : string) (clk : ClockReading) : bool :=
  is_ok_and av_is_available (availability reg (HEndpointCredentialModel e c upstream_model) clk).

Definition credential_account_status_at (reg : HealthRegistry) (e : EndpointId)
    (c : CredentialId) (now_ms : Z) : result RuntimeHealthError RuntimeCredentialAccountStatus :=
  let key := HEndpointCredential e c in
  let? m := read_shard HShardLockPoisoned reg key in
  Ok (match m !! key with
      | None => StAvailable
      | Some s => state_account_status_at s now_ms
      end).

Definition health_entry_count (reg : HealthRegistry) : result RuntimeHealthError Z :=
  entry_count HShardLockPoisoned reg.

(** ** Mutations: the part that runs under the shard's write guard, then the
    operation that reads the clock, checks its deadline and takes the guard. *)

Definition set_account_state_body (key : RuntimeHealthKey) (state : RuntimeHealthState)
    (now_ms : Z) : HealthBody unit :=
  let! st := get_state key in
  match st with
  | Some _ => insert_state key state
  | None => ensure_insert_capacity now_ms ;;; insert_state key state
  end.

Definition mark_credential_forbidden (e : EndpointId) (c : CredentialId) (clk : ClockReading)
  : HealthM unit :=
  let key := HEndpointCredential e c in
  let! now_ms := lift (read_clock clk) in
  with_write_shard HShardLockPoisoned key (set_account_state_body key AccountForbidden now_ms).

Definition mark_credential_unauthorized (e : EndpointId) (c : CredentialId) (clk : ClockReading)
  : HealthM unit :=
  let key := HEndpointCredential e c in
  let! now_ms := lift (read_clock clk) in
  with_write_shard HShardLockPoisoned key
    (set_account_state_body key StateCredentialUnauthorized now_ms).

Definition begin_account_recovery_body (key : RuntimeHealthKey) (recovery_expires_at_ms now_ms : Z)
  : HealthBody (option RuntimeHealthAccountRecoveryProbe) :=
  let! st := get_state key in
  match st with
  | None => ret None
  | Some state =>
      let due_for_recovery :=
        match state with
        | AccountForbidden | StateCredentialUnauthorized => true
        | AccountRecoveryInFlight _ existing => existing <=? now_ms
        | CoolingDown _ | CircuitOpen _ | CircuitHalfOpen _ _ _ => false
        end in
      if negb due_for_recovery then ret None
      else
        let! probe_id := take_account_recovery_probe_id in
        let! _ := insert_state key (AccountRecoveryInFlight probe_id recovery_expires_at_ms) in
        ret (Some (mkRecoveryProbe key probe_id recovery_expires_at_ms))
  end.

Definition begin_account_recovery (e : EndpointId) (c : CredentialId)
    (recovery_expires_at_ms : Z) (clk : ClockReading)
  : HealthM (option RuntimeHealthAccountRecoveryProbe) :=
  let key := HEndpointCredential e c in
  let! now_ms := lift (read_clock clk) in
  let! _ := lift (validate_deadline recovery_expires_at_ms now_ms) in
  with_write_shard HShardLockPoisoned key
    (begin_account_recovery_body key recovery_expires_at_ms now_ms).

Definition complete_account_recovery_body (probe : RuntimeHealthAccountRecoveryProbe)
    (outcome : RuntimeHealthAccountRecoveryResult) (now_ms : Z) : HealthBody unit :=
  let! st := get_state (rp_key probe) in
  match st with
  | Some (AccountRecoveryInFlight probe_id expires) =>
      if negb (probe_id =? rp_probe_id probe) || negb (expires =? rp_expires_at_ms probe)
         || (expires <=? now_ms)
      then raise StaleAccountRecoveryProbe
      else match outcome with
           | RecoveryAllowed => remove_state (rp_key probe)
           | RecoveryForbidden => insert_state (rp_key probe) AccountForbidden
           end
  | _ => raise StaleAccountRecoveryProbe
  end.

Definition complete_account_recovery (probe : RuntimeHealthAccountRecoveryProbe)
    (outcome : RuntimeHealthAccountRecoveryResult) (clk : ClockReading) : HealthM unit :=
  let! now_ms := lift (read_clock clk) in
  with_write_shard HShardLockPoisoned (rp_key probe)
    (complete_account_recovery_body probe outcome now_ms).

Definition cool_down_body (key : RuntimeHealthKey) (until_ms now_ms : Z) : HealthBody unit :=
  let! st := get_state key in
  match st with
  | Some (CircuitOpen _) | Some (CircuitHalfOpen _ _ _) | Some StateCredentialUnauthorized
  | Some AccountForbidden | Some (AccountRecoveryInFlight _ _) => ret tt
  | Some (CoolingDown existing) => insert_state key (CoolingDown (Z.max existing until_ms))
  | None => ensure_insert_capacity now_ms ;;; insert_state key (CoolingDown until_ms)
  end.

Definition cool_down_until (key : RuntimeHealthKey) (until_ms : Z) (clk : ClockReading)
  : HealthM unit :=
  let! now_ms := lift (read_clock clk) in
  let! _ := lift (validate_deadline until_ms now_ms) in
  with_write_shard HShardLockPoisoned key (cool_down_body key until_ms now_ms).

Definition open_circuit_body (key : RuntimeHealthKey) (retry_after_ms now_ms : Z) : HealthBody unit :=
  let! st := get_state key in
  match st with
  | Some (CircuitOpen existing) | Some (CircuitHalfOpen existing _ _) =>
      insert_state key (CircuitOpen (Z.max existing retry_after_ms))
  | Some (CoolingDown _) => insert_state key (CircuitOpen retry_after_ms)
  | Some StateCredentialUnauthorized | Some AccountForbidden
  | Some (AccountRecoveryInFlight _ _) => ret tt
  | None => ensure_insert_capacity now_ms ;;; insert_state key (CircuitOpen retry_after_ms)
  end.

Definition open_circuit_until (key : RuntimeHealthKey) (retry_after_ms : Z) (clk : ClockReading)
  : HealthM unit :=
  let! now_ms := lift (read_clock clk) in
  let! _ := lift (validate_deadline retry_after_ms now_ms) in
  with_write_shard HShardLockPoisoned key (open_circuit_body key retry_after_ms now_ms).

Definition mark_healthy_body (key : RuntimeHealthKey) : HealthBody unit :=
  let! st := get_state key in
  match st with
  | Some AccountForbidden | Some StateCredentialUnauthorized
  | Some (AccountRecoveryInFlight _ _) => ret tt
  | _ => remove_state key
  end.

Definition mark_healthy (key : RuntimeHealthKey) : HealthM unit :=
  with_write_shard HShardLockPoisoned key (mark_healthy_body key).

Definition begin_circuit_probe_body (key : RuntimeHealthKey) (probe_expires_at_ms now_ms : Z)
  : HealthBody (option RuntimeHealthCircuitProbe) :=
  let! st := get_state key in
  match st with
  | None => ret None
  | Some state =>
      let due_for_probe :=
        match state with
        | CircuitOpen retry_after_ms => retry_after_ms <=? now_ms
        | CircuitHalfOpen _ _ expires => expires <=? now_ms
        | CoolingDown _ | StateCredentialUnauthorized | AccountForbidden
        | AccountRecoveryInFlight _ _ => false
        end in
      if negb due_for_probe then ret None
      else
        let! probe_id := take_circuit_probe_id in
        let! _ := insert_state key
           (CircuitHalfOpen (state_retry_after_ms state) probe_id probe_expires_at_ms) in
        ret (Some (mkCircuitProbe key probe_id probe_expires_at_ms))
  end.

Definition begin_circuit_probe (key : RuntimeHealthKey) (probe_expires_at_ms : Z)
    (clk : ClockReading) : HealthM (option RuntimeHealthCircuitProbe) :=
  let! now_ms := lift (read_clock clk) in
  let! _ := lift (validate_deadline probe_expires_at_ms now_ms) in
  with_write_shard HShardLockPoisoned key
    (begin_circuit_probe_body key probe_expires_at_ms now_ms).

Definition complete_circuit_probe_body (probe : RuntimeHealthCircuitProbe)
    (outcome : RuntimeHealthCircuitProbeResult) (now_ms : Z) : HealthBody unit :=
  let! st := get_state (cp_key probe) in
  match st with
  | Some (CircuitHalfOpen _ probe_id expires) =>
      if negb (probe_id =? cp_probe_id probe) || negb (expires =? cp_expires_at_ms probe)
         || (expires <=? now_ms)
      then raise StaleCircuitProbe
      else match outcome with
           | ProbeHealthy => remove_state (cp_key probe)
           | ProbeUnhealthy retry_after_ms =>
               let! _ := lift (validate_deadline retry_after_ms now_ms) in
               insert_state (cp_key probe) (CircuitOpen retry_after_ms)
           end
  | _ => raise StaleCircuitProbe
  end.

Definition complete_circuit_probe (probe : RuntimeHealthCircuitProbe)
    (outcome : RuntimeHealthCircuitProbeResult) (clk : ClockReading) : HealthM unit :=
  let! now_ms := lift (read_clock clk) in
  with_write_shard HShardLockPoisoned (cp_key probe)
    (complete_circuit_probe_body probe outcome now_ms).
End Operations.

(** ** Operation sequences

    A caller's step: one public mutation with its arguments and clock reading. *)

Inductive HealthOp : Type :=
| OpForbidden (e : EndpointId) (c : CredentialId) (clk : ClockReading)
| OpUnauthorized (e : EndpointId) (c : CredentialId) (clk : ClockReading)
| OpBeginRecovery (e : EndpointId) (c : CredentialId) (expires : Z) (clk : ClockReading)
| OpCompleteRecovery (probe : RuntimeHealthAccountRecoveryProbe)
    (outcome : RuntimeHealthAccountRecoveryResult) (clk : ClockReading)
| OpCoolDown (key : RuntimeHealthKey) (until_ms : Z) (clk : ClockReading)
| OpOpenCircuit (key : RuntimeHealthKey) (retry_after_ms : Z) (clk : ClockReading)
| OpMarkHealthy (key : RuntimeHealthKey)
| OpBeginProbe (key : RuntimeHealthKey) (expires : Z) (clk : ClockReading)
| OpCompleteProbe (probe : RuntimeHealthCircuitProbe)
    (outcome : RuntimeHealthCircuitProbeResult) (clk : ClockReading).

Inductive HealthOut : Type :=
| OutUnit
| OutRecovery (ticket : option RuntimeHealthAccountRecoveryProbe)
| OutCircuit (ticket : option RuntimeHealthCircuitProbe).

Definition op_key (op : HealthOp) : RuntimeHealthKey :=
  match op with
  | OpForbidden e c _ | OpUnauthorized e c _ | OpBeginRecovery e c _ _ => HEndpointCredential e c
  | OpCompleteRecovery p _ _ => rp_key p
  | OpCoolDown k _ _ | OpOpenCircuit k _ _ | OpMarkHealthy k | OpBeginProbe k _ _ => k
  | OpCompleteProbe p _ _ => cp_key p
  end.

(** The reading the operation used, if it reads the clock. *)
Definition op_clock (op : HealthOp) : option ClockReading :=
  match op with
  | OpForbidden _ _ clk | OpUnauthorized _ _ clk | OpBeginRecovery _ _ _ clk
  | OpCompleteRecovery _ _ clk | OpCoolDown _ _ clk | OpOpenCircuit _ _ clk
  | OpBeginProbe _ _ clk | OpCompleteProbe _ _ clk => Some clk
  | OpMarkHealthy _ => None
  end.

Section Exec.
Context `{!ShardHash RuntimeHealthKey}.

Definition exec (op : HealthOp) : HealthM HealthOut :=
  match op with
  | OpForbidden e c clk => map_out (fun _ => OutUnit) (mark_credential_forbidden e c clk)
  | OpUnauthorized e c clk => map_out (fun _ => OutUnit) (mark_credential_unauthorized e c clk)
  | OpBeginRecovery e c expires clk => map_out OutRecovery (begin_account_recovery e c expires clk)
  | OpCompleteRecovery p o clk => map_out (fun _ => OutUnit) (complete_account_recovery p o clk)
  | OpCoolDown k until_ms clk => map_out (fun _ => OutUnit) (cool_down_until k until_ms clk)
  | OpOpenCircuit k retry clk => map_out (fun _ => OutUnit) (open_circuit_until k retry clk)
  | OpMarkHealthy k => map_out (fun _ => OutUnit) (mark_healthy k)
  | OpBeginProbe k expires clk => map_out OutCircuit (begin_circuit_probe k expires clk)
  | OpCompleteProbe p o clk => map_out (fun _ => OutUnit) (complete_circuit_probe p o clk)
  end.
End Exec.

Abbreviation exec_all := (run_all exec).

(** ** Abstract specification: one key, no shards

    What the registry promises about one key: a state machine over
    [option RuntimeHealthState] and the two ticket counters. *)

Definition account_blocked (st : option RuntimeHealthState) : bool :=
  match st with
  | Some AccountForbidden | Some StateCredentialUnauthorized
  | Some (AccountRecoveryInFlight _ _) => true
  | _ => false
  end.

Definition recovery_due (now_ms : Z) (st : option RuntimeHealthState) : bool :=
  match st with
  | Some AccountForbidden | Some StateCredentialUnauthorized => true
  | Some (AccountRecoveryInFlight _ expires) => expires <=? now_ms
  | _ => false
  end.

Definition probe_due (now_ms : Z) (st : option RuntimeHealthState) : bool :=
  match st with
  | Some (CircuitOpen retry) => retry <=? now_ms
  | Some (CircuitHalfOpen _ _ expires) => expires <=? now_ms
  | _ => false
  end.

Definition owns_recovery (p : RuntimeHealthAccountRecoveryProbe) (now_ms : Z)
    (st : option RuntimeHealthState) : bool :=
  match st with
  | Some (AccountRecoveryInFlight id expires) =>
      (id =? rp_probe_id p) && (expires =? rp_expires_at_ms p) && (now_ms <? expires)
  | _ => false
  end.

Definition owns_circuit (p : RuntimeHealthCircuitProbe) (now_ms : Z)
    (st : option RuntimeHealthState) : bool :=
  match st with
  | Some (CircuitHalfOpen _ id expires) =>
      (id =? cp_probe_id p) && (expires =? cp_expires_at_ms p) && (now_ms <? expires)
  | _ => false
  end.

(** The longest known Cooldown / Circuit deadline wins. *)
Definition cooled (until_ms : Z) (st : option RuntimeHealthState) : option RuntimeHealthState :=
  match st with
  | None => Some (CoolingDown until_ms)
  | Some (CoolingDown existing) => Some (CoolingDown (Z.max existing until_ms))
  | Some _ => st
  end.

Definition opened (retry : Z) (st : option RuntimeHealthState) : option RuntimeHealthState :=
  match st with
  | Some (CircuitOpen existing) | Some (CircuitHalfOpen existing _ _) =>
      Some (CircuitOpen (Z.max existing retry))
  | None | Some (CoolingDown _) => Some (CircuitOpen retry)
  | Some _ => st
  end.

(** The effect of [op] at time [now_ms] on the state [st] of its own key. *)
Definition key_step_at (op : HealthOp) (now_ms : Z) (st : option RuntimeHealthState)
    (n : HealthCounters)
  : result RuntimeHealthError HealthOut * option RuntimeHealthState * HealthCounters :=
  match op with
  | OpForbidden _ _ _ => (Ok OutUnit, Some AccountForbidden, n)
  | OpUnauthorized _ _ _ => (Ok OutUnit, Some StateCredentialUnauthorized, n)
  | OpBeginRecovery e c expires _ =>
      if expires <=? now_ms then (Err DeadlineNotInFuture, st, n)
      else if negb (recovery_due now_ms st) then (Ok (OutRecovery None), st, n)
      else if u64_max <=? next_account_recovery_probe_id n
      then (Err AccountRecoveryProbeIdOverflow, st, n)
      else (Ok (OutRecovery (Some (mkRecoveryProbe (HEndpointCredential e c)
                  (next_account_recovery_probe_id n) expires))),
            Some (AccountRecoveryInFlight (next_account_recovery_probe_id n) expires),
            mkHealthCounters (next_circuit_probe_id n) (next_account_recovery_probe_id n + 1))
  | OpCompleteRecovery p outcome _ =>
      if owns_recovery p now_ms st
      then (Ok OutUnit, match outcome with
                        | RecoveryAllowed => None
                        | RecoveryForbidden => Some AccountForbidden
                        end, n)
      else (Err StaleAccountRecoveryProbe, st, n)
  | OpCoolDown _ until_ms _ =>
      if until_ms <=? now_ms then (Err DeadlineNotInFuture, st, n)
      else (Ok OutUnit, cooled until_ms st, n)
  | OpOpenCircuit _ retry _ =>
      if retry <=? now_ms then (Err DeadlineNotInFuture, st, n)
      else (Ok OutUnit, opened retry st, n)
  | OpMarkHealthy _ => (Ok OutUnit, if account_blocked st then st else None, n)
  | OpBeginProbe k expires _ =>
      if expires <=? now_ms then (Err DeadlineNotInFuture, st, n)
      else if negb (probe_due now_ms st) then (Ok (OutCircuit None), st, n)
      else if u64_max <=? next_circuit_probe_id n then (Err CircuitProbeIdOverflow, st, n)
      else (Ok (OutCircuit (Some (mkCircuitProbe k (next_circuit_probe_id n) expires))),
            Some (CircuitHalfOpen (default 0 (state_retry_after_ms <$> st))
                    (next_circuit_probe_id n) expires),
            mkHealthCounters (next_circuit_probe_id n + 1) (next_account_recovery_probe_id n))
  | OpCompleteProbe p outcome _ =>
      if negb (owns_circuit p now_ms st) then (Err StaleCircuitProbe, st, n)
      else match outcome with
           | ProbeHealthy => (Ok OutUnit, None, n)
           | ProbeUnhealthy retry =>
               if retry <=? now_ms then (Err DeadlineNotInFuture, st, n)
               else (Ok OutUnit, Some (CircuitOpen retry), n)
           end
  end.

(** A failed clock reading stops every operation that reads the clock. *)
Definition key_step : KeyStep RuntimeHealthState HealthCounters RuntimeHealthError HealthOp HealthOut :=
  fun op st n => match op_clock op with
  | None => key_step_at op 0 st n
  | Some (Some now_ms) => key_step_at op now_ms st n
  | Some None => (Err (HClock ClockUnavailable), st, n)
  end.

(** Ticket counters stay in the [u64] range, starting at one. *)
Definition counters_ok (n : HealthCounters) : Prop :=
  1 <= next_circuit_probe_id n <= u64_max /\ 1 <= next_account_recovery_probe_id n <= u64_max.

Definition op_now (op : HealthOp) : Z :=
  match op_clock op with
  | Some (Some now_ms) => now_ms
  | _ => 0
  end.

(** The operations that may lift an account block, or close a Circuit, of [key]. *)
Definition releases_account (key : RuntimeHealthKey) (op : HealthOp) : bool :=
  match op with
  | OpCompleteRecovery p RecoveryAllowed _ => bool_decide (rp_key p = key)
  | _ => false
  end.

Definition releases_circuit (key : RuntimeHealthKey) (op : HealthOp) : bool :=
  match op with
  | OpMarkHealthy k => bool_decide (k = key)
  | OpCompleteProbe p ProbeHealthy _ => bool_decide (cp_key p = key)
  | OpCompleteRecovery p RecoveryAllowed _ => bool_decide (rp_key p = key)
  | _ => false
  end.

Definition unavailable_forever (st : option RuntimeHealthState) : bool :=
  match st with
  | None | Some (CoolingDown _) => false
  | _ => true
  end.

(** Outstanding tickets carry ids the counters have passed. *)
Definition ticket_below (st : option RuntimeHealthState) (n : HealthCounters) : Prop :=
  match st with
  | Some (AccountRecoveryInFlight id _) => id < next_account_recovery_probe_id n
  | Some (CircuitHalfOpen _ id _) => id < next_circuit_probe_id n
  | _ => True
  end.

(** A recovery (Circuit) ticket that no state of its key matches any more. *)
Definition recovery_dead (id : Z) (st : option RuntimeHealthState) (n : HealthCounters) : Prop :=
  id < next_account_recovery_probe_id n
  /\ match st with Some (AccountRecoveryInFlight id' _) => id' <> id | _ => True end.
Definition circuit_dead (id : Z) (st : option RuntimeHealthState) (n : HealthCounters) : Prop :=
  id < next_circuit_probe_id n
  /\ match st with Some (CircuitHalfOpen _ id' _) => id' <> id | _ => True end.

(** ** A concrete registry, for the witnesses *)

Definition ex_hash : ShardHash RuntimeHealthKey 
  := fun k => Z.of_nat (String.length (as_str (hkey_endpoint_id k))).

Section Example.
#[local] Existing Instance ex_hash.

Definition ex_endpoint : EndpointId := mkId "endpoint-a".
Definition ex_credential : CredentialId := mkId "credential-a".
Definition ex_registry : HealthRegistry := mkRegistry (build_shards 4) (mkHealthCounters 1 1).
Definition ex_key : RuntimeHealthKey := HEndpointCredential ex_endpoint ex_credential.
Definition ex_other : RuntimeHealthKey := HEndpoint ex_endpoint.
Definition ex_blocked : HealthRegistry :=
  exec_all [OpForbidden ex_endpoint ex_credential (Some 5)] ex_registry.
Definition ex_opened : HealthRegistry := exec_all [OpOpenCircuit ex_other 20 (Some 5)] ex_registry.
End Example.

(** ** Lemmas *)

(** What an operation may drop from a full shard. *)
Definition op_reclaims (op : HealthOp) : RuntimeHealthState -> bool := is_expired_cooldown (op_now op).

Definition counters_le (n n' : HealthCounters) : Prop :=
  next_circuit_probe_id n <= next_circuit_probe_id n'
  /\ next_account_recovery_probe_id n <= next_account_recovery_probe_id n'.

#[export] Instance counters_le_preorder : PreOrder counters_le.
Proof. unfold counters_le. split; [by intros|intros ???; lia]. Qed.

Abbreviation good op body :=
  (good_body op_key op_reclaims key_step counters_ok
     HShardCapacityExceeded op body).

(** Case analysis of a locked body [Hb : body (m, n) = (r, (m', n'))]: every
    branch leaves the map alone, writes or drops the key, or makes room first. *)
Ltac body_cases Hb :=
  rewrite bind_get_state in Hb;
  match type of Hb with
  | context [?m !! ?k] => destruct (m !! k) as [st|] eqn:Hk; [destruct st|]
  end; cbv beta iota zeta in Hb;
  first
  [ apply fresh_insert_cases in Hb as (? & -> & ? & [[-> ?]|[-> ?]]); [| |done..]
  | unfold_shard_ops; unfold bind, lift, ret, raise, take_circuit_probe_id,
    take_account_recovery_probe_id, validate_deadline in Hb; simpl in Hb;
  repeat (first
    [ match type of Hb with
      | context [u64_checked_add ?a ?b] => destruct (u64_checked_add a b) as [next|] eqn:Hadd
      end
    | case_match ]; simpl in Hb; simplify_eq; bool_simp); simplify_eq ].

Ltac step_tac :=
  unfold key_step; simpl;
  repeat match goal with
  | H : u64_checked_add _ 1 = _ |- _ => rewrite u64_add_one in H by done
  | |- context [if ?b then _ else _] => destruct b eqn:?; bool_simp; simpl
  | H : context [if ?b then _ else _] |- _ => destruct b eqn:?; bool_simp; simpl in H
  end; simplify_map_eq; try congruence; try lia.

Ltac good_tac body :=
  let m := fresh "m" in let n := fresh "n" in let r := fresh "r" in
  let m' := fresh "m'" in let n' := fresh "n'" in let Hb := fresh "Hb" in
  let Hb1 := fresh "Hb" in let Hm := fresh "Hm" in
  intros m n r m' n' Hb1 Hm; apply map_out_inv in Hb1; destruct Hb1 as [? [Hb ->]];
  simpl op_key in *; unfold body in Hb; body_cases Hb;
  (split; [split; [size_tac | intros k Hne; first [by auto | left; by simplify_map_eq]]
          | intros [? ?]; first [left; by split_and! | right; step_tac]]).

Section GoodBodies.
Context `{!ShardHash RuntimeHealthKey}.

Lemma good_forbidden e c now_ms :
  good (OpForbidden e c (Some now_ms))
    (map_out (fun _ => OutUnit)
       (set_account_state_body (HEndpointCredential e c) AccountForbidden now_ms)).
Proof. good_tac set_account_state_body. Qed.

Lemma good_unauthorized e c now_ms :
  good (OpUnauthorized e c (Some now_ms))
    (map_out (fun _ => OutUnit)
       (set_account_state_body (HEndpointCredential e c) StateCredentialUnauthorized now_ms)).
Proof. good_tac set_account_state_body. Qed.

Lemma good_begin_recovery e c expires now_ms :
  now_ms < expires ->
  good (OpBeginRecovery e c expires (Some now_ms))
    (map_out OutRecovery (begin_account_recovery_body (HEndpointCredential e c) expires now_ms)).
Proof. intros Hd. good_tac begin_account_recovery_body. Qed.

Lemma good_complete_recovery p o now_ms :
  good (OpCompleteRecovery p o (Some now_ms))
    (map_out (fun _ => OutUnit) (complete_account_recovery_body p o now_ms)).
Proof. good_tac complete_account_recovery_body. Qed.

Lemma good_cool_down key until_ms now_ms :
  now_ms < until_ms ->
  good (OpCoolDown key until_ms (Some now_ms))
    (map_out (fun _ => OutUnit) (cool_down_body key until_ms now_ms)).
Proof. intros Hd. good_tac cool_down_body. Qed.

Lemma good_open_circuit key retry now_ms :
  now_ms < retry ->
  good (OpOpenCircuit key retry (Some now_ms))
    (map_out (fun _ => OutUnit) (open_circuit_body key retry now_ms)).
Proof. intros Hd. good_tac open_circuit_body. Qed.

Lemma good_mark_healthy key :
  good (OpMarkHealthy key) (map_out (fun _ => OutUnit) (mark_healthy_body key)).
Proof. good_tac mark_healthy_body. Qed.

Lemma good_begin_probe key expires now_ms :
  now_ms < expires ->
  good (OpBeginProbe key expires (Some now_ms))
    (map_out OutCircuit (begin_circuit_probe_body key expires now_ms)).
Proof. intros Hd. good_tac begin_circuit_probe_body. Qed.

Lemma good_complete_probe p o now_ms :
  good (OpCompleteProbe p o (Some now_ms))
    (map_out (fun _ => OutUnit) (complete_circuit_probe_body p o now_ms)).
Proof. good_tac complete_circuit_probe_body. Qed.
End GoodBodies.

Section Registry.
Context `{!ShardHash RuntimeHealthKey}.
Implicit Types (reg : HealthRegistry) (op : HealthOp).

(** An operation either stops before it takes the lock, as the
    specification says it must, or is a good body under the lock. *)
Lemma exec_cases op reg r reg' :
  exec op reg = (r, reg') ->
  (reg' = reg /\ (exists e, r = Err e) /\ forall st n, key_step op st n = (r, st, n))
  \/ (exists body, good op body
        /\ with_write_shard HShardLockPoisoned (op_key op) body reg = (r, reg')).
Proof.
  intros He.
  destruct op as [e c [now|]|e c [now|]|e c x [now|]|p o [now|]|k x [now|]|k x [now|]|k|k x [now|]|p o [now|]];
    unfold exec, mark_credential_forbidden, mark_credential_unauthorized, begin_account_recovery,
      complete_account_recovery, cool_down_until, open_circuit_until, begin_circuit_probe,
      complete_circuit_probe, mark_healthy, read_clock, validate_deadline in He;
    try (left; unfold map_out, bind, lift, key_step in *; simpl in *; simplify_eq;
         split_and!; [done|by eexists|done]);
    try (destruct (x <=? now) eqn:Hx;
         [left; unfold map_out, bind, lift, key_step in *; simpl in *; rewrite Hx in He; simplify_eq;
          split_and!; [done|by eexists|intros; simpl; by rewrite ?Hx]
         | apply Z.leb_gt in Hx as Hlt]);
    right; eexists;
    (split;
     [ first [ apply good_forbidden | apply good_unauthorized | by apply good_begin_recovery
             | apply good_complete_recovery | by apply good_cool_down | by apply good_open_circuit
             | apply good_mark_healthy | by apply good_begin_probe | apply good_complete_probe ]
     | rewrite <- map_out_with_write, <- He; unfold map_out, bind, lift; simpl;
       rewrite ?Hx; reflexivity ]).
Qed.

Lemma key_step_counters op st n r st' n' :
  counters_ok n -> key_step op st n = (r, st', n') ->
  counters_ok n' /\ counters_le n n' /\ r <> Panic.
Proof.
  unfold key_step, key_step_at, counters_ok, counters_le.
  intros [? ?] Hs. repeat (case_match; simplify_eq/=; bool_simp); simplify_eq/=; split_and!; lia || done.
Qed.

#[export] Instance health_keyed :
  KeyedRegistry exec op_key op_reclaims key_step counters_ok
    counters_le HShardLockPoisoned HShardCapacityExceeded.
Proof. split; [apply exec_cases|apply key_step_counters|apply _]. Qed.

Lemma new_registry_ok shard_count reg :
  try_with_clock_and_shards shard_count = Ok reg ->
  registry_wf reg /\ counters_ok (counters reg) /\ (forall key, view reg key = None)
  /\ (forall key, healthy_lock reg key).
Proof.
  unfold try_with_clock_and_shards, result_bind.
  destruct (validate_shard_count shard_count) as [[]| |] eqn:Hv; intros; simplify_eq.
  destruct (new_registry_facts (K := RuntimeHealthKey) (V := RuntimeHealthState) _
    (mkHealthCounters 1 1) Hv) as (Hwf & Hn & Hl).
  split; [done|]. split; [unfold counters_ok, u64_max; simpl; lia|done].
Qed.

Lemma availability_at_view reg key now_ms :
  registry_wf reg -> healthy_lock reg key ->
  availability_at reg key now_ms
  = Ok (default AvAvailable ((fun s => state_availability_at s now_ms) <$> view reg key)).
Proof.
  intros Hwf (s & Hs & Hp). unfold availability_at, read_shard, result_bind, view.
  rewrite Hs, Hp. simpl. by destruct (states s !! key).
Qed.

Lemma unavailable_forever_at reg key now_ms :
  registry_wf reg -> unavailable_forever (view reg key) = true ->
  is_ok_and av_is_available (availability_at reg key now_ms) = false.
Proof.
  intros Hwf Hb. destruct (wf_shard _ key Hwf) as [[p m] Hs].
  unfold availability_at, read_shard, view in *. rewrite Hs in *. simpl in *.
  destruct p; [done|]. simpl. destruct (m !! key) as [[]|]; try done. simpl. by case_match.
Qed.

Lemma account_block_survives key ops reg :
  registry_wf reg -> counters_ok (counters reg) -> account_blocked (view reg key) = true ->
  forallb (fun op => negb (releases_account key op)) ops = true -> account_blocked (view (exec_all ops reg) key) = true.
Proof.
  intros Hwf Hc Hb Hops. apply (run_all_keeps account_blocked (releases_account key)); try done.
  - intros op st n r st' n' <- Hk Hs HP. destruct st as [[]|]; try done;
      unfold key_step, key_step_at in Hs; repeat (case_match; simplify_eq/=; bool_simp); done.
  - by intros op [].
Qed.

Lemma account_block_kept key ops reg now_ms :
  registry_wf reg -> counters_ok (counters reg) ->
  account_blocked (view reg key) = true ->
  forallb (fun op => negb (releases_account key op)) ops = true ->
  is_ok_and av_is_available (availability_at (exec_all ops reg) key now_ms) = false.
Proof.
  intros Hwf Hc Hb Hops. apply unavailable_forever_at; [by apply run_all_inv|].
  pose proof (account_block_survives key ops reg Hwf Hc Hb Hops) as Hb'. revert Hb'. by destruct (view (exec_all ops reg) key) as [[]|].
Qed.

Lemma ticket_below_all ops reg key :
  registry_wf reg -> counters_ok (counters reg) -> view reg key = None ->
  ticket_below (view (exec_all ops reg) key) (counters (exec_all ops reg)).
Proof.
  intros Hwf Hc Hn. apply (run_all_key ticket_below); try done.
  - intros op st n r st' n' _ _ _ Hs HP. unfold key_step, key_step_at in Hs.
    repeat (case_match; simplify_eq/=; bool_simp); simplify_eq/=;
      unfold cooled, opened, ticket_below in *; repeat case_match; simplify_eq/=; try done; lia.
  - unfold counters_le. intros [[]|] n n'; simpl; try done; lia.
  - by rewrite Hn.
Qed.

Lemma recovery_dead_all id ops reg key :
  registry_wf reg -> counters_ok (counters reg) -> recovery_dead id (view reg key) (counters reg) ->
  recovery_dead id (view (exec_all ops reg) key) (counters (exec_all ops reg)).
Proof.
  intros Hwf Hc. apply (run_all_key (recovery_dead id)); try done.
  - intros op st n r st' n' _ _ _ Hs [? HP]. unfold key_step, key_step_at in Hs.
    repeat (case_match; simplify_eq/=; bool_simp); simplify_eq/=;
      unfold cooled, opened, recovery_dead in *; repeat case_match; simplify_eq/=;
      (split; try done; lia).
  - intros st n n' [? ?] [? ?]. split; [lia|done].
  - intros op v n _ [? _]. by split.
Qed.

Lemma circuit_dead_all id ops reg key :
  registry_wf reg -> counters_ok (counters reg) -> circuit_dead id (view reg key) (counters reg) ->
  circuit_dead id (view (exec_all ops reg) key) (counters (exec_all ops reg)).
Proof.
  intros Hwf Hc. apply (run_all_key (circuit_dead id)); try done.
  - intros op st n r st' n' _ _ _ Hs [? HP]. unfold key_step, key_step_at in Hs.
    repeat (case_match; simplify_eq/=; bool_simp); simplify_eq/=;
      unfold cooled, opened, circuit_dead in *; repeat case_match; simplify_eq/=;
      (split; try done; lia).
  - intros st n n' [? ?] [? ?]. split; [lia|done].
  - intros op v n _ [? _]. by split.
Qed.

Lemma complete_recovery_inv p o clk reg reg' :
  registry_wf reg -> counters_ok (counters reg) ->
  exec (OpCompleteRecovery p o clk) reg = (Ok OutUnit, reg') ->
  exists x, view reg (rp_key p) = Some (AccountRecoveryInFlight (rp_probe_id p) x)
    /\ match view reg' (rp_key p) with Some (AccountRecoveryInFlight _ _) => False | _ => True end
    /\ counters reg' = counters reg.
Proof.
  intros Hwf Hc He. apply keyed_own in He as [[? ?]|[[? ?]|Hk]]; [done..| |done|done].
  destruct clk as [now|]; [|done]. unfold key_step in Hk. simpl in Hk.
  destruct (view reg (rp_key p)) as [[]|]; simpl in Hk; try done.
  case_match; [|done]. bool_simp. subst. injection Hk as -> ->.
  eexists. split_and!; [done| |done]. by destruct o.
Qed.

Lemma complete_probe_inv p o clk reg reg' :
  registry_wf reg -> counters_ok (counters reg) ->
  exec (OpCompleteProbe p o clk) reg = (Ok OutUnit, reg') ->
  exists x y, view reg (cp_key p) = Some (CircuitHalfOpen x (cp_probe_id p) y)
    /\ match view reg' (cp_key p) with Some (CircuitHalfOpen _ _ _) => False | _ => True end
    /\ counters reg' = counters reg.
Proof.
  intros Hwf Hc He. apply keyed_own in He as [[? ?]|[[? ?]|Hk]]; [done..| |done|done].
  destruct clk as [now|]; [|done]. unfold key_step in Hk. simpl in Hk.
  destruct (view reg (cp_key p)) as [[]|]; simpl in Hk; try done.
  case_match; [done|]. bool_simp. subst. eexists _, _. split; [done|].
  destruct o as [|retry]; [|destruct (retry <=? now); [done|]]; by injection Hk as -> ->.
Qed.
End Registry.

(** ** Properties *)

Section Properties.
Context `{!ShardHash RuntimeHealthKey}.
Implicit Types (reg : HealthRegistry) (op : HealthOp).

(** C31: Every public mutation of the health registry, run on a well-formed
    registry whose shard lock is not poisoned, does to its own key exactly
    what the one-key state machine says: same returned value or error, same
    new state, same ticket counters.  The one exception is a full shard,
    which is reported and leaves an untracked key untracked. *)
Theorem health_refines_key_spec op reg r reg' :
  registry_wf reg -> counters_ok (counters reg) -> healthy_lock reg (op_key op) ->
  exec op reg = (r, reg') ->
  (r, view reg' (op_key op), counters reg') = key_step op (view reg (op_key op)) (counters reg)
  \/ (r = Err HShardCapacityExceeded /\ view reg (op_key op) = None
      /\ view reg' (op_key op) = None /\ counters reg' = counters reg).
Proof.
  intros Hwf Hc Hl He.
  destruct (keyed_own _ _ _ _ Hwf Hc He) as [(_ & _ & Hn)|[?|?]]; [done|by right|by left].
Qed.

(** A mutation of one key is invisible through every other key, at every
    time from the operation's own clock reading on: the only states it may
    drop from a full shard are Cooldowns that have already expired. *)
Lemma health_op_isolated op reg r reg' k now_ms :
  registry_wf reg -> exec op reg = (r, reg') -> k <> op_key op ->
  healthy_lock reg k -> op_now op <= now_ms ->
  availability_at reg' k now_ms = availability_at reg k now_ms.
Proof.
  intros Hwf He Hne Hl Hle. pose proof (keyed_healthy _ _ _ _ k Hwf He Hl) as Hl'.
  assert (registry_wf reg') as Hwf'.
  { destruct (exec_cases _ _ _ _ He) as [(-> & _)|(body & Hg & Hw)]; [done|].
    eapply with_write_wf; eauto using good_local. }
  rewrite !availability_at_view by done.
  destruct (keyed_other _ _ _ _ k Hwf He Hne) as [-> |(v & -> & Hx & ->)]; [done|].
  destruct v; simpl in Hx; try done. bool_simp. simpl. case_match; [|done]. bool_simp. lia.
Qed.

(** From construction on, whatever sequence of operations runs, no
    operation panics, every key stays in the shard its hash selects, every
    shard holds at most [MAX_ENTRIES_PER_SHARD] states, and both ticket
    counters stay inside [u64] without wrapping. *)
Lemma health_invariant shard_count reg ops op :
  try_with_clock_and_shards shard_count = Ok reg ->
  registry_wf (exec_all ops reg) /\ counters_ok (counters (exec_all ops reg))
  /\ (exec op (exec_all ops reg)).1 <> Panic.
Proof.
  intros Hn. destruct (new_registry_ok _ _ Hn) as (Hwf & Hc & _).
  destruct (run_all_inv ops reg Hwf Hc) as [Hwf' Hc']. split_and!; [done..|].
  destruct (exec op _) as [r reg'] eqn:He. by apply (keyed_inv _ _ _ _ Hwf' Hc' He).
Qed.

(** A credential blocked by the account state (forbidden, unauthorized or
    under recovery) is never reported available again, at any later time and
    after any operations, until a recovery ticket of its own is completed as
    Allowed.  In particular a generic success ([mark_healthy]), a Cooldown or
    a Circuit probe cannot lift the block. *)
Lemma account_block_sticky key ops reg now_ms :
  registry_wf reg -> counters_ok (counters reg) ->
  account_blocked (view reg key) = true ->
  forallb (fun op => negb (releases_account key op)) ops = true ->
  is_ok_and av_is_available (availability_at (exec_all ops reg) key now_ms) = false.
Proof. apply account_block_kept. Qed.

(** An open or half-open Circuit does not close by the passage of time or
    by expiry of a half-open ticket: its key stays unavailable until
    [mark_healthy], a Healthy probe completion, or (if the account was blocked
    meanwhile) an Allowed recovery on that key. *)
Lemma circuit_stays_open key ops reg now_ms :
  registry_wf reg -> counters_ok (counters reg) ->
  unavailable_forever (view reg key) = true ->
  forallb (fun op => negb (releases_circuit key op)) ops = true ->
  is_ok_and av_is_available (availability_at (exec_all ops reg) key now_ms) = false.
Proof.
  intros Hwf Hc Hb Hops. apply unavailable_forever_at; [by apply run_all_inv|].
  apply (run_all_keeps unavailable_forever (releases_circuit key)); try done.
  - intros op st n r st' n' <- Hk Hs HP. destruct st as [[]|]; try done;
      unfold key_step, key_step_at in Hs; repeat (case_match; simplify_eq/=; bool_simp); done.
  - by intros op [].
Qed.

(** A recovery ticket of a reachable registry that has been completed
    successfully once can never complete again, whatever runs in between:
    ticket ids are fresh and are never reissued. *)
Lemma recovery_ticket_single_use shard_count reg0 ops0 p o clk ops o' clk' :
  try_with_clock_and_shards shard_count = Ok reg0 ->
  (exec (OpCompleteRecovery p o clk) (exec_all ops0 reg0)).1 = Ok OutUnit ->
  (exec (OpCompleteRecovery p o' clk') (exec_all (ops0 ++ OpCompleteRecovery p o clk :: ops) reg0)).1 <> Ok OutUnit.
Proof.
  intros Hn Hok. rewrite run_all_app. cbn [run_all].
  destruct (exec _ (exec_all ops0 reg0)) as [r reg1] eqn:He. cbn [fst snd] in *. subst r. destruct (new_registry_ok _ _ Hn) as (Hwf0 & Hc0 & Hv0 & _).
  destruct (run_all_inv ops0 _ Hwf0 Hc0) as [Hwf Hc].
  destruct (keyed_inv _ _ _ _ Hwf Hc He) as (Hwf1 & Hc1 & _).
  pose proof (ticket_below_all ops0 _ (rp_key p) Hwf0 Hc0 (Hv0 _)) as Hb.
  destruct (complete_recovery_inv _ _ _ _ _ Hwf Hc He) as (x & Hx & Hnone & Hcnt).
  rewrite Hx in Hb. simpl in Hb.
  assert (recovery_dead (rp_probe_id p) (view reg1 (rp_key p)) (counters reg1)) as Hd.
  { rewrite Hcnt. split; [done|]. by destruct (view reg1 _) as [[]|]. }
  apply (recovery_dead_all _ ops) in Hd as [_ Hd]; [|done..].
  destruct (run_all_inv ops _ Hwf1 Hc1) as [Hwf2 Hc2].
  destruct (exec _ (exec_all ops _)) as [r2 reg2] eqn:He2. cbn [fst]. intros ->.
  destruct (complete_recovery_inv _ _ _ _ _ Hwf2 Hc2 He2) as (y & Hy & _). by rewrite Hy in Hd.
Qed.

(** The same for half-open Circuit tickets: a ticket completed once never
    completes again. *)
Lemma circuit_ticket_single_use shard_count reg0 ops0 p o clk ops o' clk' :
  try_with_clock_and_shards shard_count = Ok reg0 ->
  (exec (OpCompleteProbe p o clk) (exec_all ops0 reg0)).1 = Ok OutUnit ->
  (exec (OpCompleteProbe p o' clk') (exec_all (ops0 ++ OpCompleteProbe p o clk :: ops) reg0)).1 <> Ok OutUnit.
Proof.
  intros Hn Hok. rewrite run_all_app. cbn [run_all].
  destruct (exec _ (exec_all ops0 reg0)) as [r reg1] eqn:He. cbn [fst snd] in *. subst r. destruct (new_registry_ok _ _ Hn) as (Hwf0 & Hc0 & Hv0 & _).
  destruct (run_all_inv ops0 _ Hwf0 Hc0) as [Hwf Hc].
  destruct (keyed_inv _ _ _ _ Hwf Hc He) as (Hwf1 & Hc1 & _).
  pose proof (ticket_below_all ops0 _ (cp_key p) Hwf0 Hc0 (Hv0 _)) as Hb.
  destruct (complete_probe_inv _ _ _ _ _ Hwf Hc He) as (x & z & Hx & Hnone & Hcnt).
  rewrite Hx in Hb. simpl in Hb.
  assert (circuit_dead (cp_probe_id p) (view reg1 (cp_key p)) (counters reg1)) as Hd.
  { rewrite Hcnt. split; [done|]. by destruct (view reg1 _) as [[]|]. }
  apply (circuit_dead_all _ ops) in Hd as [_ Hd]; [|done..].
  destruct (run_all_inv ops _ Hwf1 Hc1) as [Hwf2 Hc2].
  destruct (exec _ (exec_all ops _)) as [r2 reg2] eqn:He2. cbn [fst]. intros ->.
  destruct (complete_probe_inv _ _ _ _ _ Hwf2 Hc2 He2) as (y & ? & Hy & _). by rewrite Hy in Hd.
Qed.
End Properties.

(** ** Witnesses *)

#[local] Existing Instance ex_hash.

Lemma ex_registry_new : try_with_clock_and_shards 4 = Ok ex_registry.
Proof. reflexivity. Qed.

Lemma ex_registry_ok ops :
  registry_wf (exec_all ops ex_registry) /\ counters_ok (counters (exec_all ops ex_registry))
  /\ (forall k, healthy_lock (exec_all ops ex_registry) k).
Proof.
  destruct (new_registry_ok _ _ ex_registry_new) as (Hwf & Hc & _ & Hl).
  destruct (run_all_inv ops _ Hwf Hc) as [? ?]. split; [done|]. split; [done|].
  intros k. by apply run_all_healthy.
Qed.

Lemma ex_blocked_ok :
  registry_wf ex_blocked /\ counters_ok (counters ex_blocked) /\ (forall k, healthy_lock ex_blocked k).
Proof. apply ex_registry_ok. Qed.

Lemma ex_opened_ok :
  registry_wf ex_opened /\ counters_ok (counters ex_opened) /\ (forall k, healthy_lock ex_opened k).
Proof. apply ex_registry_ok. Qed.

Lemma health_refines_key_spec_witness :
  (exec (OpBeginRecovery ex_endpoint ex_credential 30 (Some 10)) ex_blocked).1
  = Ok (OutRecovery (Some (mkRecoveryProbe ex_key 1 30))).
Proof.
  destruct (exec _ ex_blocked) as [r reg'] eqn:He.
  destruct ex_blocked_ok as (Hwf & Hc & Hl).
  destruct (health_refines_key_spec (OpBeginRecovery ex_endpoint ex_credential 30 (Some 10))
    ex_blocked r reg' Hwf Hc) as [Hk|(_ & Hn & _)];
    [apply Hl|exact He| |by vm_compute in Hn].
  apply (f_equal (fun x => x.1.1)) in Hk. cbn [fst] in *. rewrite Hk. vm_compute. reflexivity.
Defined.

Lemma health_op_isolated_witness :
  availability_at (exec (OpForbidden ex_endpoint ex_credential (Some 9)) ex_opened).2 ex_other 12
  = Ok (AvCircuitOpen 20).
Proof.
  destruct (exec _ ex_opened) as [r reg'] eqn:He. simpl.
  destruct ex_opened_ok as (Hwf & Hc & Hl).
  rewrite (health_op_isolated (OpForbidden ex_endpoint ex_credential (Some 9)) ex_opened r reg' ex_other 12);
    [vm_compute; reflexivity|exact Hwf|exact He|discriminate
    |apply Hl|vm_compute; discriminate].
Defined.

Lemma health_invariant_witness :
  (exec (OpCoolDown ex_other 20 (Some 5)) (exec_all [OpMarkHealthy ex_key] ex_registry)).1 <> Panic.
Proof.
  apply (health_invariant 4 ex_registry [OpMarkHealthy ex_key]). reflexivity.
Defined.

Lemma account_block_sticky_witness :
  is_ok_and av_is_available
    (availability_at (exec_all [OpMarkHealthy ex_key; OpCoolDown ex_key 40 (Some 30)] ex_blocked)
       ex_key 1000) = false.
Proof.
  destruct ex_blocked_ok as (Hwf & Hc & _).
  apply account_block_sticky; [exact Hwf|exact Hc|reflexivity|reflexivity].
Defined.

Lemma circuit_stays_open_witness :
  is_ok_and av_is_available
    (availability_at (exec_all [OpBeginProbe ex_other 40 (Some 30)] ex_opened) ex_other 1000) = false.
Proof.
  destruct ex_opened_ok as (Hwf & Hc & _).
  apply circuit_stays_open; [exact Hwf|exact Hc|reflexivity|reflexivity].
Defined.

Lemma recovery_ticket_single_use_witness :
  (exec (OpCompleteRecovery (mkRecoveryProbe ex_key 1 30) RecoveryAllowed (Some 12))
     (exec_all [OpForbidden ex_endpoint ex_credential (Some 5);
                OpBeginRecovery ex_endpoint ex_credential 30 (Some 10);
                OpCompleteRecovery (mkRecoveryProbe ex_key 1 30) RecoveryAllowed (Some 11);
                OpForbidden ex_endpoint ex_credential (Some 12)]
        ex_registry)).1 <> Ok OutUnit.
Proof.
  apply (recovery_ticket_single_use 4 ex_registry
    [OpForbidden ex_endpoint ex_credential (Some 5);
     OpBeginRecovery ex_endpoint ex_credential 30 (Some 10)]
    (mkRecoveryProbe ex_key 1 30) RecoveryAllowed (Some 11)
    [OpForbidden ex_endpoint ex_credential (Some 12)]); [reflexivity|vm_compute; reflexivity].
Defined.

Lemma circuit_ticket_single_use_witness :
  (exec (OpCompleteProbe (mkCircuitProbe ex_other 1 40) ProbeHealthy (Some 33))
     (exec_all [OpOpenCircuit ex_other 20 (Some 5); OpBeginProbe ex_other 40 (Some 30);
                OpCompleteProbe (mkCircuitProbe ex_other 1 40) (ProbeUnhealthy 60) (Some 31)]
        ex_registry)).1 <> Ok OutUnit.
Proof.
  apply (circuit_ticket_single_use 4 ex_registry
    [OpOpenCircuit ex_other 20 (Some 5); OpBeginProbe ex_other 40 (Some 30)]
    (mkCircuitProbe ex_other 1 40) (ProbeUnhealthy 60) (Some 31) []); [reflexivity|vm_compute; reflexivity].
Defined.
