(* ===== verification/RuntimeProbe.v ===== *)
(** * Runtime probe registry

    Models [crates/gateway-router/src/runtime_probe.rs]: bounded, sharded
    measurements of health probes.  Each target keeps one snapshot with the
    fixed-point moving averages (EWMA) of its success and latency samples, and a
    half-open Circuit recovery is recorded and applied to the runtime health
    registry as one operation.

    The registry is the sharded store of [Sharded] with the policy beside the
    shards; the completion of a Circuit probe also takes the health registry of
    [RuntimeHealth], so its state is the pair of both. *)

From Stdlib Require Import QArith Qabs Lqa.
From S2P Require Import Prelude Core Sharded RuntimeHealth.
Local Open Scope Z_scope.

Module Probes.

(** ** Data *)

Definition RUNTIME_HEALTH_PROBE_EWMA_SCALE_PER_MILLE : Z := 1000.
Definition DEFAULT_RUNTIME_HEALTH_PROBE_EWMA_ALPHA_PER_MILLE : Z := 200.

Inductive RuntimeHealthProbeTarget : Type :=
| TEndpoint (endpoint_id : EndpointId)
| TEndpointCredential (endpoint_id : EndpointId) (credential_id : CredentialId)
| TEndpointCredentialModel (endpoint_id : EndpointId) (credential_id : CredentialId)
    (upstream_model : string).

(** [runtime_health_key]. *)
Definition runtime_health_key (t : RuntimeHealthProbeTarget) : RuntimeHealthKey :=
  match t with
  | TEndpoint e => HEndpoint e
  | TEndpointCredential e c => HEndpointCredential e c
  | TEndpointCredentialModel e c m => HEndpointCredentialModel e c m
  end.

#[export] Instance RuntimeHealthProbeTarget_eq_dec : EqDecision RuntimeHealthProbeTarget.
Proof. solve_decision. Defined.

#[export] Instance RuntimeHealthProbeTarget_countable : Countable RuntimeHealthProbeTarget.
Proof.
  apply (inj_countable' runtime_health_key
    (fun k => match k with
              | HEndpoint e => TEndpoint e
              | HEndpointCredential e c => TEndpointCredential e c
              | HEndpointCredentialModel e c m => TEndpointCredentialModel e c m
              end)).
  by intros [].
Defined.

Inductive RuntimeHealthProbeTargetError : Type := EmptyUpstreamModel.

Definition endpoint (e : EndpointId) : RuntimeHealthProbeTarget := TEndpoint e.

Definition endpoint_credential (e : EndpointId) (c : CredentialId) : RuntimeHealthProbeTarget :=
  TEndpointCredential e c.

Definition endpoint_credential_model (e : EndpointId) (c : CredentialId) (upstream_model : string)
  : result RuntimeHealthProbeTargetError RuntimeHealthProbeTarget :=
  if bool_decide (upstream_model = ""%string) then Err EmptyUpstreamModel
  else Ok (TEndpointCredentialModel e c upstream_model).

Definition target_endpoint_id (t : RuntimeHealthProbeTarget) : EndpointId :=
  match t with
  | TEndpoint e | TEndpointCredential e _ | TEndpointCredentialModel e _ _ => e
  end.

Definition target_credential_id (t : RuntimeHealthProbeTarget) : option CredentialId :=
  match t with
  | TEndpoint _ => None
  | TEndpointCredential _ c | TEndpointCredentialModel _ c _ => Some c
  end.

Definition target_upstream_model (t : RuntimeHealthProbeTarget) : option string :=
  match t with
  | TEndpoint _ | TEndpointCredential _ _ => None
  | TEndpointCredentialModel _ _ m => Some m
  end.

Inductive RuntimeHealthProbeOutcome : Type :=
| POSucceeded (latency_ms : Z)
| POFailed (latency_ms : Z).

Definition latency_ms (o : RuntimeHealthProbeOutcome) : Z :=
  match o with POSucceeded l | POFailed l => l end.

Definition success_sample_per_mille (o : RuntimeHealthProbeOutcome) : Z :=
  match o with
  | POSucceeded _ => RUNTIME_HEALTH_PROBE_EWMA_SCALE_PER_MILLE
  | POFailed _ => 0
  end.

Inductive RuntimeHealthCircuitProbeOutcome : Type :=
| CPSucceeded (latency_ms : Z)
| CPFailed (latency_ms retry_after_ms : Z).

Definition probe_outcome (o : RuntimeHealthCircuitProbeOutcome) : RuntimeHealthProbeOutcome :=
  match o with
  | CPSucceeded l => POSucceeded l
  | CPFailed l _ => POFailed l
  end.

Definition circuit_result (o : RuntimeHealthCircuitProbeOutcome) : RuntimeHealthCircuitProbeResult :=
  match o with
  | CPSucceeded _ => ProbeHealthy
  | CPFailed _ retry_after_ms => ProbeUnhealthy retry_after_ms
  end.

Record RuntimeHealthProbeSnapshot : Type := mkProbeSnapshot {
  target : RuntimeHealthProbeTarget;
  observations : Z;
  last_observed_at_ms : Z;
  last_outcome : RuntimeHealthProbeOutcome;
  success_ewma_per_mille : Z;
  latency_ewma_ms : Z;
}.

Record RuntimeHealthProbePolicy : Type := mkProbePolicy { ewma_alpha_per_mille : Z }.

Inductive RuntimeHealthProbePolicyError : Type := ZeroEwmaAlpha | EwmaAlphaTooLarge.

Definition probe_policy_try_new (alpha : Z) : result RuntimeHealthProbePolicyError RuntimeHealthProbePolicy :=
  if alpha =? 0 then Err ZeroEwmaAlpha
  else if RUNTIME_HEALTH_PROBE_EWMA_SCALE_PER_MILLE <? alpha then Err EwmaAlphaTooLarge
  else Ok (mkProbePolicy alpha).

Definition probe_policy_default : RuntimeHealthProbePolicy :=
  mkProbePolicy DEFAULT_RUNTIME_HEALTH_PROBE_EWMA_ALPHA_PER_MILLE.

Inductive RuntimeHealthProbeError : Type :=
| ObservationTimeRegressed
| ObservationCountOverflow
| PShardLockPoisoned
| PShardCapacityExceeded.

Inductive RuntimeHealthProbeCompletionError : Type :=
| TargetDoesNotMatchCircuitProbe
| CompletionCircuit (e : RuntimeHealthError)
| CompletionMetrics (e : RuntimeHealthProbeError).

Abbreviation ProbeMap := (gmap RuntimeHealthProbeTarget RuntimeHealthProbeSnapshot).
Abbreviation ProbeRegistry :=
  (Registry RuntimeHealthProbeTarget RuntimeHealthProbeSnapshot RuntimeHealthProbePolicy).

(** [self.policy]. *)
Definition policy (reg : ProbeRegistry) : RuntimeHealthProbePolicy := counters reg.

(** ** Fixed-point averages *)

Definition u128_max : Z := 2 ^ 128 - 1.
Definition u128_saturating_add (a b : Z) : Z := Z.min (a + b) u128_max.
Definition u128_saturating_mul (a b : Z) : Z := Z.min (a * b) u128_max.

(** [1000 - alpha] is a checked subtraction on [u128]: it panics below zero. *)
Definition ewma_u64 {E} (previous sample alpha_per_mille : Z) : result E Z :=
  if RUNTIME_HEALTH_PROBE_EWMA_SCALE_PER_MILLE <? alpha_per_mille then Panic
  else
    let retained := RUNTIME_HEALTH_PROBE_EWMA_SCALE_PER_MILLE - alpha_per_mille in
    let numerator := u128_saturating_add (u128_saturating_mul previous retained)
                       (u128_saturating_mul sample alpha_per_mille) in
    let rounded := u128_saturating_add numerator (RUNTIME_HEALTH_PROBE_EWMA_SCALE_PER_MILLE / 2)
                     / RUNTIME_HEALTH_PROBE_EWMA_SCALE_PER_MILLE in
    Ok (default u64_max (u64_try_from rounded)).

Definition u16_max : Z := 2 ^ 16 - 1.
Definition u16_try_from (z : Z) : option Z :=
  if (0 <=? z) && (z <=? u16_max) then Some z else None.

Definition ewma_u16 {E} (previous sample alpha_per_mille : Z) : result E Z :=
  let? value := ewma_u64 previous sample alpha_per_mille in
  Ok (default RUNTIME_HEALTH_PROBE_EWMA_SCALE_PER_MILLE (u16_try_from value)).

(** ** Registry operations *)

Definition ensure_insert_capacity (snapshots : ProbeMap) : result RuntimeHealthProbeError unit :=
  if MAX_ENTRIES_PER_SHARD <=? Z.of_nat (size snapshots) then Err PShardCapacityExceeded else Ok tt.

(** The first observation of a target. *)
Definition first_snapshot (t : RuntimeHealthProbeTarget) (outcome : RuntimeHealthProbeOutcome)
    (observed_at_ms : Z) : RuntimeHealthProbeSnapshot :=
  mkProbeSnapshot t 1 observed_at_ms outcome (success_sample_per_mille outcome) (latency_ms outcome).

(** A later observation of a target. *)
Definition later_snapshot (previous : RuntimeHealthProbeSnapshot) (t : RuntimeHealthProbeTarget)
    (outcome : RuntimeHealthProbeOutcome) (observed_at_ms : Z) (p : RuntimeHealthProbePolicy)
  : result RuntimeHealthProbeError RuntimeHealthProbeSnapshot :=
  if observed_at_ms <? last_observed_at_ms previous then Err ObservationTimeRegressed
  else
    let? count := ok_or ObservationCountOverflow (u64_checked_add (observations previous) 1) in
    let? success := ewma_u16 (success_ewma_per_mille previous) (success_sample_per_mille outcome)
                      (ewma_alpha_per_mille p) in
    let? latency := ewma_u64 (latency_ewma_ms previous) (latency_ms outcome)
                      (ewma_alpha_per_mille p) in
    Ok (mkProbeSnapshot t count observed_at_ms outcome success latency).

Definition next_snapshot (snapshots : ProbeMap) (t : RuntimeHealthProbeTarget)
    (outcome : RuntimeHealthProbeOutcome) (observed_at_ms : Z) (p : RuntimeHealthProbePolicy)
  : result RuntimeHealthProbeError RuntimeHealthProbeSnapshot :=
  match snapshots !! t with
  | Some previous => later_snapshot previous t outcome observed_at_ms p
  | None =>
      let? _ := ensure_insert_capacity snapshots in
      Ok (first_snapshot t outcome observed_at_ms)
  end.

Section Operations.
Context `{!ShardHash RuntimeHealthProbeTarget} `{!ShardHash RuntimeHealthKey}.

Definition with_policy (p : RuntimeHealthProbePolicy) : ProbeRegistry :=
  mkRegistry (build_shards DEFAULT_SHARD_COUNT) p.

Definition new : ProbeRegistry := with_policy probe_policy_default.

Definition try_with_policy_and_shards (p : RuntimeHealthProbePolicy) (shard_count : Z)
  : result ShardCountError ProbeRegistry :=
  let? _ := validate_shard_count shard_count in
  Ok (mkRegistry (build_shards shard_count) p).

(** What [record] does under the guard of the target's shard. *)
Definition record_body (t : RuntimeHealthProbeTarget) (outcome : RuntimeHealthProbeOutcome)
    (observed_at_ms : Z)
  : M (ProbeMap * RuntimeHealthProbePolicy) RuntimeHealthProbeError RuntimeHealthProbeSnapshot :=
  let! locked := get in
  let! next := lift (next_snapshot locked.1 t outcome observed_at_ms locked.2) in
  let! _ := insert_state t next in
  ret next.

Definition record (t : RuntimeHealthProbeTarget) (outcome : RuntimeHealthProbeOutcome)
    (observed_at_ms : Z) : M ProbeRegistry RuntimeHealthProbeError RuntimeHealthProbeSnapshot :=
  with_write_shard PShardLockPoisoned t (record_body t outcome observed_at_ms).

Definition begin_circuit_probe (t : RuntimeHealthProbeTarget) (probe_expires_at_ms : Z)
    (clk : ClockReading) : HealthM (option RuntimeHealthCircuitProbe) :=
  RuntimeHealth.begin_circuit_probe (runtime_health_key t) probe_expires_at_ms clk.

(** [snapshots.insert(target, next)] through the guard, which is then dropped. *)
Definition insert_through_guard (t : RuntimeHealthProbeTarget) (snapshots : ProbeMap)
    (next : RuntimeHealthProbeSnapshot) (probes : ProbeRegistry) : ProbeRegistry :=
  mkRegistry (<[index_in probes t := mkShard false (<[t := next]> snapshots)]> (shards probes))
    (counters probes).

(** The guard is held from [read_shard] to the insertion, so nothing changes
    the shard in between; the health registry locks a shard of its own. *)
Definition complete_circuit_probe (t : RuntimeHealthProbeTarget) (probe : RuntimeHealthCircuitProbe)
    (outcome : RuntimeHealthCircuitProbeOutcome) (observed_at_ms : Z) (clk : ClockReading)
  : M (ProbeRegistry * HealthRegistry) RuntimeHealthProbeCompletionError RuntimeHealthProbeSnapshot :=
  fun '(probes, health) =>
    if negb (bool_decide (cp_key probe = runtime_health_key t))
    then (Err TargetDoesNotMatchCircuitProbe, (probes, health))
    else
      match
        map_err CompletionMetrics
          (let? snapshots := read_shard PShardLockPoisoned probes t in
           let? next := next_snapshot snapshots t (probe_outcome outcome) observed_at_ms
                          (policy probes) in
           Ok (snapshots, next))
      with
      | Err e => (Err e, (probes, health))
      | Panic => (Panic, (probes, health))
      | Ok (snapshots, next) =>
          match RuntimeHealth.complete_circuit_probe probe (circuit_result outcome) clk health with
          | (Err e, health') => (Err (CompletionCircuit e), (probes, health'))
          | (Panic, health') => (Panic, (probes, health'))
          | (Ok _, health') => (Ok next, (insert_through_guard t snapshots next probes, health'))
          end
      end.

Definition snapshot (probes : ProbeRegistry) (t : RuntimeHealthProbeTarget)
  : result RuntimeHealthProbeError (option RuntimeHealthProbeSnapshot) :=
  let? m := read_shard PShardLockPoisoned probes t in
  Ok (m !! t).

Definition probe_entry_count (probes : ProbeRegistry) : result RuntimeHealthProbeError Z :=
  entry_count PShardLockPoisoned probes.
End Operations.

(** ** Operation sequences

    A step of the process: a plain measurement, the start or the completion of a
    Circuit probe, or any other mutation of the health registry. *)

Inductive ProbeOp : Type :=
| ProbeRecord (t : RuntimeHealthProbeTarget) (outcome : RuntimeHealthProbeOutcome) (at_ms : Z)
| ProbeBegin (t : RuntimeHealthProbeTarget) (expires : Z) (clk : ClockReading)
| ProbeComplete (t : RuntimeHealthProbeTarget) (probe : RuntimeHealthCircuitProbe)
    (outcome : RuntimeHealthCircuitProbeOutcome) (at_ms : Z) (clk : ClockReading)
| ProbeHealth (op : HealthOp).

Abbreviation World := (ProbeRegistry * HealthRegistry)%type.

(** The argument types of the source: latencies are [u64]. *)
Definition outcome_ok (o : RuntimeHealthProbeOutcome) : Prop := 0 <= latency_ms o <= u64_max.
Definition op_ok (op : ProbeOp) : Prop :=
  match op with
  | ProbeRecord _ o _ => outcome_ok o
  | ProbeComplete _ _ o _ _ => outcome_ok (probe_outcome o)
  | ProbeBegin _ _ _ | ProbeHealth _ => True
  end.

Definition probe_policy_ok (p : RuntimeHealthProbePolicy) : Prop :=
  1 <= ewma_alpha_per_mille p <= RUNTIME_HEALTH_PROBE_EWMA_SCALE_PER_MILLE.

Section Exec.
Context `{!ShardHash RuntimeHealthProbeTarget} `{!ShardHash RuntimeHealthKey}.

(** The next world, and the observation that was accepted, with its target. *)
Definition world_step (op : ProbeOp) (w : World)
  : World * option (RuntimeHealthProbeTarget * (RuntimeHealthProbeOutcome * Z)) :=
  match op with
  | ProbeRecord t o at_ms =>
      let '(r, probes') := record t o at_ms w.1 in
      ((probes', w.2), (fun _ => (t, (o, at_ms))) <$> to_option r)
  | ProbeBegin t expires clk => ((w.1, (begin_circuit_probe t expires clk w.2).2), None)
  | ProbeComplete t probe o at_ms clk =>
      let '(r, w') := complete_circuit_probe t probe o at_ms clk w in
      (w', (fun _ => (t, (probe_outcome o, at_ms))) <$> to_option r)
  | ProbeHealth op => ((w.1, (exec op w.2).2), None)
  end.

Definition world_run (ops : list ProbeOp) (w : World) : World :=
  foldl (fun w op => (world_step op w).1) w ops.

(** The observations of [t] that were accepted along a run, in order. *)
Fixpoint history (t : RuntimeHealthProbeTarget) (ops : list ProbeOp) (w : World)
  : list (RuntimeHealthProbeOutcome * Z) :=
  match ops with
  | [] => []
  | op :: rest =>
      match (world_step op w).2 with
      | Some (t', obs) => if bool_decide (t' = t) then [obs] else []
      | None => []
      end ++ history t rest (world_step op w).1
  end.
End Exec.

(** ** Abstract specification: what a history says of its target *)

(** The rounded average as mathematics, without saturation or ranges. *)
Definition ewma_round (alpha : Z) (previous sample : Z) : Z :=
  (previous * (1000 - alpha) + sample * alpha + 500) / 1000.

Definition ewma_of (alpha : Z) (samples : list Z) : Z :=
  match samples with
  | [] => 0
  | first :: rest => foldl (ewma_round alpha) first rest
  end.

(** The same average over the rationals, never rounded. *)
Definition exact_step (alpha : Z) (previous : Q) (sample : Z) : Q :=
  (previous * ((1000 - alpha) # 1000) + inject_Z sample * (alpha # 1000))%Q.
Definition exact_ewma (alpha : Z) (samples : list Z) : Q :=
  match samples with
  | [] => 0
  | first :: rest => foldl (exact_step alpha) (inject_Z first) rest
  end.

Definition successes (h : list (RuntimeHealthProbeOutcome * Z)) : list Z :=
  (fun obs => success_sample_per_mille obs.1) <$> h.
Definition latencies (h : list (RuntimeHealthProbeOutcome * Z)) : list Z :=
  (fun obs => latency_ms obs.1) <$> h.

Definition summary (p : RuntimeHealthProbePolicy) (t : RuntimeHealthProbeTarget)
    (h : list (RuntimeHealthProbeOutcome * Z)) : option RuntimeHealthProbeSnapshot :=
  (fun obs => mkProbeSnapshot t (Z.of_nat (length h)) obs.2 obs.1
     (ewma_of (ewma_alpha_per_mille p) (successes h))
     (ewma_of (ewma_alpha_per_mille p) (latencies h))) <$> last h.

(** ** Lemmas: the averages *)

Lemma ewma_round_between alpha previous sample lo hi :
  0 <= alpha <= 1000 -> lo <= previous <= hi -> lo <= sample <= hi ->
  lo <= ewma_round alpha previous sample <= hi.
Proof.
  intros Ha Hp Hs. unfold ewma_round. split.
  - apply Z.div_le_lower_bound; [lia|]. nia.
  - apply Z.lt_succ_r, Z.div_lt_upper_bound; [lia|]. nia.
Qed.

Lemma ewma_fold_between alpha samples first lo hi :
  0 <= alpha <= 1000 -> lo <= first <= hi -> Forall (fun s => lo <= s <= hi) samples ->
  lo <= foldl (ewma_round alpha) first samples <= hi.
Proof.
  intros Ha. revert first. induction samples as [|s samples IH]; intros first Hf Hs; [done|].
  apply Forall_cons in Hs as [? ?]. apply IH; [|done]. by apply ewma_round_between.
Qed.

Lemma ewma_of_between alpha samples lo hi :
  0 <= alpha <= 1000 -> samples <> [] -> Forall (fun s => lo <= s <= hi) samples ->
  lo <= ewma_of alpha samples <= hi.
Proof.
  intros Ha Hne Hs. destruct samples as [|s samples]; [done|].
  apply Forall_cons in Hs as [? ?]. by apply ewma_fold_between.
Qed.

(** The saturations of the code never trigger on [u64] inputs. *)
Lemma ewma_u64_round {E} previous sample alpha :
  0 <= alpha <= 1000 -> 0 <= previous <= u64_max -> 0 <= sample <= u64_max ->
  ewma_u64 (E := E) previous sample alpha = Ok (ewma_round alpha previous sample).
Proof.
  intros Ha Hp Hs. unfold ewma_u64, RUNTIME_HEALTH_PROBE_EWMA_SCALE_PER_MILLE.
  destruct (Z.ltb_spec 1000 alpha); [lia|].
  unfold u128_saturating_add, u128_saturating_mul.
  assert (0 <= previous * (1000 - alpha) <= u64_max * 1000) by nia.
  assert (0 <= sample * alpha <= u64_max * 1000) by nia.
  assert (u64_max * 1000 + u64_max * 1000 + 500 <= u128_max) by (unfold u64_max, u128_max; lia).
  change (1000 / 2) with 500. rewrite (Z.min_l (_ * _)), (Z.min_l (sample * _)), !Z.min_l by lia.
  pose proof (ewma_round_between alpha previous sample 0 u64_max Ha Hp Hs) as Hr.
  fold (ewma_round alpha previous sample).
  unfold u64_try_from, in_u64. destruct Hr as [Hlo Hhi].
  apply Z.leb_le in Hlo, Hhi. by rewrite Hlo, Hhi.
Qed.

Lemma ewma_u16_round {E} previous sample alpha :
  0 <= alpha <= 1000 -> 0 <= previous <= 1000 -> 0 <= sample <= 1000 ->
  ewma_u16 (E := E) previous sample alpha = Ok (ewma_round alpha previous sample).
Proof.
  intros Ha Hp Hs. unfold ewma_u16. rewrite ewma_u64_round by (unfold u64_max; lia). simpl.
  destruct (ewma_round_between alpha previous sample 0 1000 Ha Hp Hs) as [H1 H2].
  assert (ewma_round alpha previous sample <= u16_max) as H3 by (unfold u16_max; lia).
  unfold u16_try_from. apply Z.leb_le in H1, H3. by rewrite H1, H3.
Qed.

(** One rounding moves the value by at most a half. *)
Lemma ewma_round_error alpha previous sample :
  (Qabs (inject_Z (ewma_round alpha previous sample) - exact_step alpha (inject_Z previous) sample)
   <= 1 # 2)%Q.
Proof.
  unfold ewma_round. set (n := previous * (1000 - alpha) + sample * alpha).
  assert (exact_step alpha (inject_Z previous) sample == (n # 1000))%Q as ->.
  { unfold exact_step, inject_Z, n, Qeq. simpl. lia. }
  apply Qabs_Qle_condition. pose proof (Z.div_mod (n + 500) 1000) as Hd.
  pose proof (Z.mod_pos_bound (n + 500) 1000). set (q := (n + 500) / 1000) in *.
  split; unfold Qle, Qminus, Qplus, Qopp, inject_Z; simpl; lia.
Qed.

(** So the accumulated error of the fixed-point average stays below
    [500 / alpha]: the weight of old roundings decays with the average. *)
Lemma ewma_fold_error alpha samples v e :
  1 <= alpha <= 1000 ->
  (Qabs (inject_Z v - e) <= 500 # Z.to_pos alpha)%Q ->
  (Qabs (inject_Z (foldl (ewma_round alpha) v samples) - foldl (exact_step alpha) e samples)
   <= 500 # Z.to_pos alpha)%Q.
Proof.
  intros Ha. revert v e. induction samples as [|s samples IH]; intros v e He; [done|].
  simpl. apply IH. pose proof (ewma_round_error alpha v s) as Hr.
  assert (exact_step alpha (inject_Z v) s - exact_step alpha e s
          == ((1000 - alpha) # 1000) * (inject_Z v - e))%Q as Hlin
    by (unfold exact_step; ring).
  assert (((1000 - alpha) # 1000) * (500 # Z.to_pos alpha) + (1 # 2) == 500 # Z.to_pos alpha)%Q as Hfix.
  { unfold Qeq, Qmult, Qplus. simpl. rewrite !Pos2Z.inj_mul, Z2Pos.id by lia. lia. }
  assert (0 <= (1000 - alpha) # 1000)%Q by (unfold Qle; simpl; lia).
  set (k := ((1000 - alpha) # 1000)%Q) in *. set (b := (500 # Z.to_pos alpha)%Q) in *.
  apply Qabs_Qle_condition in He as [He1 He2]. apply Qabs_Qle_condition in Hr as [Hr1 Hr2].
  assert (k * - b <= k * (inject_Z v - e))%Q by (rewrite !(Qmult_comm k); by apply Qmult_le_compat_r).
  assert (k * (inject_Z v - e) <= k * b)%Q by (rewrite !(Qmult_comm k); by apply Qmult_le_compat_r).
  apply Qabs_Qle_condition. split; lra.
Qed.

Lemma ewma_of_error alpha samples :
  1 <= alpha <= 1000 -> samples <> [] ->
  (Qabs (inject_Z (ewma_of alpha samples) - exact_ewma alpha samples) <= 500 # Z.to_pos alpha)%Q.
Proof.
  intros Ha Hne. destruct samples as [|s samples]; [done|]. apply ewma_fold_error; [done|].
  assert (inject_Z s - inject_Z s == 0)%Q as -> by ring. done.
Qed.

Lemma ewma_of_snoc alpha samples s :
  samples <> [] -> ewma_of alpha (samples ++ [s]) = ewma_round alpha (ewma_of alpha samples) s.
Proof. destruct samples; [done|]. intros _. simpl. by rewrite foldl_app. Qed.

(** ** Lemmas: histories *)

Definition history_ok (h : list (RuntimeHealthProbeOutcome * Z)) : Prop :=
  Forall (fun obs => outcome_ok obs.1) h.

Lemma latencies_bounded h : history_ok h -> Forall (fun l => 0 <= l <= u64_max) (latencies h).
Proof. intros Hh. by apply Forall_fmap. Qed.

Lemma successes_bounded h : Forall (fun s => 0 <= s <= 1000) (successes h).
Proof.
  apply Forall_fmap, Forall_true. intros [[] at_ms]; simpl;
    unfold RUNTIME_HEALTH_PROBE_EWMA_SCALE_PER_MILLE; lia.
Qed.

Lemma fmap_not_nil {A B} (f : A -> B) l : l <> [] -> f <$> l <> [].
Proof. by destruct l. Qed.

Lemma summary_first p t obs : summary p t [obs] = Some (first_snapshot t obs.1 obs.2).
Proof. done. Qed.

Lemma summary_None p t h : summary p t h = None <-> h = [].
Proof. unfold summary. by rewrite fmap_None, last_None. Qed.

Lemma summary_later p t h obs previous next :
  probe_policy_ok p -> history_ok h -> outcome_ok obs.1 ->
  summary p t h = Some previous -> later_snapshot previous t obs.1 obs.2 p = Ok next ->
  summary p t (h ++ [obs]) = Some next.
Proof.
  intros Hp Hh Ho Hs Hl. unfold probe_policy_ok, RUNTIME_HEALTH_PROBE_EWMA_SCALE_PER_MILLE in Hp.
  assert (h <> []) as Hne by (intros ->; done).
  unfold summary in Hs. apply fmap_Some in Hs as ([o' at'] & Hlast & ->).
  unfold later_snapshot in Hl. cbn [last_observed_at_ms observations success_ewma_per_mille latency_ewma_ms] in Hl.
  case_match; [done|]. destruct (u64_checked_add _ _) as [n|] eqn:Hn; [|done]. simpl in Hl.
  rewrite ewma_u16_round in Hl; [|lia|apply ewma_of_between; [lia|by apply fmap_not_nil|apply successes_bounded]
    |destruct obs.1; simpl; unfold RUNTIME_HEALTH_PROBE_EWMA_SCALE_PER_MILLE; lia].
  simpl in Hl. rewrite ewma_u64_round in Hl; [|lia|apply ewma_of_between; [lia|by apply fmap_not_nil|by apply latencies_bounded]|done].
  simpl in Hl. injection Hl as <-. unfold summary. rewrite last_snoc. simpl.
  unfold successes, latencies. rewrite !fmap_app, !list_fmap_singleton.
  rewrite !ewma_of_snoc by (by apply fmap_not_nil). rewrite length_app. simpl. unfold u64_checked_add, u64_try_from in Hn. case_match; [|done].
  simplify_eq. repeat f_equal. lia.
Qed.

Lemma later_no_panic previous t o at_ms p : probe_policy_ok p -> later_snapshot previous t o at_ms p <> Panic.
Proof.
  unfold probe_policy_ok, later_snapshot, ewma_u16, ewma_u64. intros [_ Ha].
  apply Z.ltb_ge in Ha. rewrite Ha. case_match; [done|]. by destruct (u64_checked_add _ _).
Qed.

(** ** Lemmas: the registry *)

Section Registry.
Context `{!ShardHash RuntimeHealthProbeTarget} `{!ShardHash RuntimeHealthKey}.
Implicit Types (probes : ProbeRegistry) (health : HealthRegistry).

(** The value the next observation of [t] would be stored as, beside the
    capacity of the shard. *)
Definition advance (st : option RuntimeHealthProbeSnapshot) (t : RuntimeHealthProbeTarget)
    (o : RuntimeHealthProbeOutcome) (at_ms : Z) (p : RuntimeHealthProbePolicy)
  : result RuntimeHealthProbeError RuntimeHealthProbeSnapshot :=
  match st with
  | Some previous => later_snapshot previous t o at_ms p
  | None => Ok (first_snapshot t o at_ms)
  end.

Lemma next_snapshot_cases m t o at_ms p :
  next_snapshot m t o at_ms p = advance (m !! t) t o at_ms p
  \/ (m !! t = None /\ next_snapshot m t o at_ms p = Err PShardCapacityExceeded).
Proof.
  unfold next_snapshot, advance, ensure_insert_capacity.
  destruct (m !! t); [by left|]. case_match; [by right|by left].
Qed.

Lemma next_snapshot_room m t o at_ms p next :
  next_snapshot m t o at_ms p = Ok next -> m !! t = None -> Z.of_nat (size m) < MAX_ENTRIES_PER_SHARD.
Proof.
  unfold next_snapshot, ensure_insert_capacity. intros Hn Hk. rewrite Hk in Hn. case_match; [done|]. by bool_simp.
Qed.

Lemma record_body_eq t o at_ms m p :
  record_body t o at_ms (m, p)
  = match next_snapshot m t o at_ms p with
    | Ok next => (Ok next, (<[t := next]> m, p))
    | Err e => (Err e, (m, p))
    | Panic => (Panic, (m, p))
    end.
Proof. unfold record_body. unfold_m. simpl. by destruct (next_snapshot _ _ _ _ _). Qed.

Lemma record_body_local t o at_ms : local_body t (fun _ => false) (record_body t o at_ms).
Proof.
  intros m p r m' p' Hb Hm. rewrite record_body_eq in Hb.
  destruct (next_snapshot m t o at_ms p) as [next| |] eqn:Hn; simplify_eq; [|by auto..].
  split; [|intros k Hk; left; by rewrite lookup_insert_ne].
  apply size_insert_bound; [done|]. by eapply next_snapshot_room.
Qed.

(** Both registries as a process holds them. *)
Record world_ok (p : RuntimeHealthProbePolicy) (w : World) : Prop := {
  probes_wf : registry_wf w.1;
  probes_healthy : forall t, healthy_lock w.1 t;
  probes_policy : policy w.1 = p;
  health_wf : registry_wf w.2;
  health_counters : counters_ok (counters w.2);
}.

Lemma record_spec p t o at_ms probes health r probes' :
  probe_policy_ok p -> world_ok p (probes, health) -> record t o at_ms probes = (r, probes') ->
  world_ok p (probes', health)
  /\ (forall k, k <> t -> view probes' k = view probes k)
  /\ match r with
     | Ok next => view probes' t = Some next /\ advance (view probes t) t o at_ms p = Ok next
     | Err _ => probes' = probes
     | Panic => False
     end.
Proof.
  intros Hp [Hwf Hl Hpol Hhwf Hhc] Hr. simpl in *.
  destruct (with_write_wf _ _ _ _ _ _ _ (record_body_local t o at_ms) Hwf Hr) as [Hwf' _].
  pose proof (fun k => with_write_healthy _ _ _ _ _ _ k Hwf Hr (Hl k)) as Hl'.
  pose proof (fun k => with_write_view_other _ _ _ _ _ _ _ k (record_body_local t o at_ms) Hwf Hr) as Hother.
  destruct (with_write_inv _ _ _ _ _ _ Hwf Hr) as [(_ & _ & Hn)|(_ & m & m' & c' & Hb & Hm & Hs & Heq)];
    [by destruct Hn|].
  pose proof (view_shard _ _ t _ Hs eq_refl) as Hv.
  rewrite record_body_eq in Hb. unfold policy in Hpol. rewrite Hpol in Hb.
  assert (c' = p /\ (match r with Ok next => m' = <[t := next]> m /\ next_snapshot m t o at_ms p = Ok next
    | Err e => m' = m | Panic => next_snapshot m t o at_ms p = Panic end)) as [-> Hcase].
  { destruct (next_snapshot m t o at_ms p) eqn:Hx; by simplify_eq. }
  subst probes'. split; [by split|]. split.
  { intros k Hk. destruct (Hother k Hk) as [?|(v & _ & ? & _)]; done. }
  rewrite Hv. destruct r as [next|e|].
  - destruct Hcase as [-> Hx]. rewrite view_insert, decide_True, lookup_insert_eq by done. split; [done|].
    destruct (next_snapshot_cases m t o at_ms p) as [<-|[_ He]]; [done|congruence].
  - subst m'. destruct probes as [l c]. simpl in *. subst c. f_equal. by apply list_insert_id.
  - destruct (next_snapshot_cases m t o at_ms p) as [He|[_ He]]; [|congruence].
    rewrite Hcase in He. symmetry in He. unfold advance in He.
    destruct (m !! t); [by apply later_no_panic in He|done].
Qed.

(** A completion that fails leaves the health registry as it was. *)
Lemma health_complete_err probe result clk health e health' :
  registry_wf health ->
  RuntimeHealth.complete_circuit_probe probe result clk health = (Err e, health') -> health' = health.
Proof.
  intros Hwf Hc. unfold RuntimeHealth.complete_circuit_probe in Hc.
  destruct clk as [now|]; [|unfold bind, lift in Hc; simpl in Hc; by simplify_eq].
  change (with_write_shard HShardLockPoisoned (cp_key probe)
    (complete_circuit_probe_body probe result now) health = (Err e, health')) in Hc.
  destruct (with_write_inv _ _ _ _ _ _ Hwf Hc) as [(_ & -> & _)|(_ & m & m' & c' & Hb & _ & Hs & ->)]; [done|].
  assert (m' = m /\ c' = counters health) as [-> ->].
  { unfold complete_circuit_probe_body, validate_deadline, get_state, insert_state, remove_state in Hb.
    unfold_m. simpl in Hb. repeat (case_match; simplify_eq/=); done. }
  destruct health as [l c]. simpl in *. f_equal. by apply list_insert_id.
Qed.

Lemma health_complete_exec probe result clk health :
  exec (OpCompleteProbe probe result clk) health
  = match RuntimeHealth.complete_circuit_probe probe result clk health with
    | (Ok _, health') => (Ok OutUnit, health')
    | (Err e, health') => (Err e, health')
    | (Panic, health') => (Panic, health')
    end.
Proof. done. Qed.

(** A completion is a measurement and a ticket completion, both or neither. *)
Lemma complete_eq p t probe o at_ms clk probes health :
  probe_policy_ok p -> world_ok p (probes, health) ->
  complete_circuit_probe t probe o at_ms clk (probes, health)
  = if decide (cp_key probe = runtime_health_key t) then
      match record t (probe_outcome o) at_ms probes with
      | (Ok next, probes') =>
          match RuntimeHealth.complete_circuit_probe probe (circuit_result o) clk health with
          | (Ok _, health') => (Ok next, (probes', health'))
          | (Err e, _) => (Err (CompletionCircuit e), (probes, health))
          | (Panic, health') => (Panic, (probes, health'))
          end
      | (Err e, _) => (Err (CompletionMetrics e), (probes, health))
      | (Panic, _) => (Panic, (probes, health))
      end
    else (Err TargetDoesNotMatchCircuitProbe, (probes, health)).
Proof.
  intros Hp [Hwf Hl Hpol Hhwf Hhc]. simpl in *. unfold complete_circuit_probe.
  destruct (decide (cp_key probe = _)) as [Hk|Hk];
    [rewrite bool_decide_true by done|by rewrite bool_decide_false by done]. simpl.
  unfold record, read_shard, with_write_shard.
  destruct (Hl t) as (s & Hs & Hpo). rewrite Hs, Hpo. simpl. rewrite record_body_eq.
  unfold policy. destruct (next_snapshot (states s) t (probe_outcome o) at_ms (counters probes)) as [next| |]; simpl; [|done..].
  destruct (RuntimeHealth.complete_circuit_probe probe (circuit_result o) clk health) as [[?|e|] health'] eqn:Hc; [done| |done].
  by rewrite (health_complete_err _ _ _ _ _ _ Hhwf Hc).
Qed.

Lemma health_op_ok p probes health op health' r :
  world_ok p (probes, health) -> exec op health = (r, health') ->
  world_ok p (probes, health') /\ r <> Panic.
Proof.
  intros [Hwf Hl Hpol Hhwf Hhc] He. simpl in *.
  destruct (keyed_inv _ _ _ _ Hhwf Hhc He) as (? & ? & _ & ?). by split.
Qed.

(** What one step does to the measurements: it stores the accepted observation
    under its target and nothing else. *)
Lemma world_step_spec p op w :
  probe_policy_ok p -> world_ok p w ->
  world_ok p (world_step op w).1
  /\ match (world_step op w).2 with
     | Some (t, obs) =>
         (exists next, view (world_step op w).1.1 t = Some next
            /\ advance (view w.1 t) t obs.1 obs.2 p = Ok next)
         /\ (forall k, k <> t -> view (world_step op w).1.1 k = view w.1 k)
         /\ (op_ok op -> outcome_ok obs.1)
     | None => (world_step op w).1.1 = w.1
     end.
Proof.
  intros Hp Hw. destruct w as [probes health]. destruct op as [t o at_ms|t x clk|t probe o at_ms clk|hop].
  - cbn [world_step fst snd]. destruct (record t o at_ms probes) as [r probes'] eqn:Hr.
    destruct (record_spec _ _ _ _ _ _ _ _ Hp Hw Hr) as (Hw' & Ho & Hc).
    destruct r as [next|e|]; simpl; [|by subst|done]. split; [done|]. split; [by exists next|]. by split.
  - cbn [world_step fst snd]. unfold begin_circuit_probe.
    destruct (exec (OpBeginProbe (runtime_health_key t) x clk) health) as [r health'] eqn:He.
    destruct (health_op_ok _ _ _ _ _ _ Hw He) as [Hw' _].
    assert ((RuntimeHealth.begin_circuit_probe (runtime_health_key t) x clk health).2 = health') as ->; [|done].
    unfold exec in He. apply map_out_inv in He as (r0 & -> & _). done.
  - cbn [world_step fst snd]. rewrite (complete_eq p) by done.
    case_decide as Hk; [|done]. destruct (record t (probe_outcome o) at_ms probes) as [r probes'] eqn:Hr.
    destruct (record_spec _ _ _ _ _ _ _ _ Hp Hw Hr) as (Hw' & Ho & Hc).
    destruct r as [next|e|]; simpl; [|done|done].
    pose proof (health_complete_exec probe (circuit_result o) clk health) as He.
    destruct (RuntimeHealth.complete_circuit_probe _ _ _ _) as [[u|e|] health'] eqn:Hh; simpl.
    + destruct (health_op_ok _ _ _ _ _ _ Hw' He) as [? _]. split; [done|]. split; [by exists next|]. by split.
    + done.
    + by destruct (health_op_ok _ _ _ _ _ _ Hw He) as [_ ?].
  - cbn [world_step fst snd]. destruct (exec hop health) as [r health'] eqn:He.
    by destruct (health_op_ok _ _ _ _ _ _ Hw He).
Qed.

Lemma world_run_ok p ops w : probe_policy_ok p -> world_ok p w -> world_ok p (world_run ops w).
Proof.
  intros Hp. revert w. induction ops as [|op ops IH]; intros w Hw; [done|].
  apply IH. by apply world_step_spec.
Qed.

Lemma summary_advance p t h obs next :
  probe_policy_ok p -> history_ok h -> outcome_ok obs.1 ->
  advance (summary p t h) t obs.1 obs.2 p = Ok next -> summary p t (h ++ [obs]) = Some next.
Proof.
  intros Hp Hh Ho. destruct (summary p t h) as [previous|] eqn:Hs; simpl; intros Ha.
  - by eapply summary_later.
  - apply summary_None in Hs as ->. by simplify_eq.
Qed.

Lemma history_run p t ops w h :
  probe_policy_ok p -> world_ok p w -> Forall op_ok ops -> history_ok h ->
  view w.1 t = summary p t h ->
  history_ok (h ++ history t ops w)
  /\ view (world_run ops w).1 t = summary p t (h ++ history t ops w).
Proof.
  intros Hp. revert w h. induction ops as [|op ops IH]; intros w h Hw Hops Hh Hv.
  { simpl. by rewrite app_nil_r. }
  apply Forall_cons in Hops as [Hop Hops]. cbn [history]. rewrite app_assoc.
  destruct (world_step_spec p op w Hp Hw) as [Hw' Hs].
  change (world_run (op :: ops) w) with (world_run ops (world_step op w).1).
  apply IH; [done..| |].
  - destruct (world_step op w).2 as [[t' obs]|]; [|by rewrite app_nil_r].
    case_bool_decide; [|by rewrite app_nil_r]. apply Forall_app. split; [done|].
    apply Forall_singleton. by apply Hs.
  - destruct (world_step op w).2 as [[t' obs]|]; [|by rewrite app_nil_r, Hs].
    destruct Hs as ((next & Hn & Ha) & Ho & Hok).
    case_bool_decide as Ht; [|rewrite app_nil_r, <- Hv; by apply Ho].
    subst t'. rewrite Hn. symmetry. rewrite Hv in Ha. apply summary_advance; auto.
Qed.

Lemma new_world_ok alpha p shard_count probes health :
  0 <= alpha -> probe_policy_try_new alpha = Ok p -> try_with_policy_and_shards p shard_count = Ok probes ->
  registry_wf health -> counters_ok (counters health) ->
  probe_policy_ok p /\ world_ok p (probes, health) /\ (forall t, view probes t = None).
Proof.
  unfold probe_policy_try_new, try_with_policy_and_shards, probe_policy_ok, result_bind.
  intros Ha Hp Hn Hwf Hc. repeat case_match; simplify_eq. bool_simp.
  match goal with H : validate_shard_count _ = Ok ?u |- _ => destruct u; rename H into Hv end.
  destruct (new_registry_facts (K := RuntimeHealthProbeTarget) (V := RuntimeHealthProbeSnapshot) _
    (mkProbePolicy alpha) Hv) as (Hwf' & Hview & Hl).
  split; [simpl; lia|]. by split.
Qed.

Lemma snapshot_view probes t : healthy_lock probes t -> snapshot probes t = Ok (view probes t).
Proof.
  intros (s & Hs & Hp). unfold snapshot, read_shard, view. by rewrite Hs, Hp.
Qed.

Lemma snapshot_history alpha p shard_count probes health ops t :
  0 <= alpha -> probe_policy_try_new alpha = Ok p -> try_with_policy_and_shards p shard_count = Ok probes ->
  registry_wf health -> counters_ok (counters health) -> Forall op_ok ops ->
  probe_policy_ok p /\ history_ok (history t ops (probes, health))
  /\ snapshot (world_run ops (probes, health)).1 t = Ok (summary p t (history t ops (probes, health))).
Proof.
  intros Ha Hp Hn Hwf Hc Hops.
  destruct (new_world_ok _ _ _ _ _ Ha Hp Hn Hwf Hc) as (Hpol & Hw & Hv). split; [done|].
  destruct (history_run p t ops (probes, health) [] Hpol Hw Hops) as [Hh Hr];
    [by apply Forall_nil|by rewrite Hv|]. split; [done|].
  rewrite snapshot_view, Hr; [done|]. apply (probes_healthy p). by apply world_run_ok.
Qed.

(** Seen from the health registry a run is a sequence of its own operations. *)
Lemma world_health_trace p ops w :
  probe_policy_ok p -> world_ok p w -> exists hops, (world_run ops w).2 = exec_all hops w.2.
Proof.
  intros Hp. revert w. induction ops as [|op ops IH]; intros w Hw; [by exists []|].
  change (world_run (op :: ops) w) with (world_run ops (world_step op w).1).
  destruct (world_step_spec p op w Hp Hw) as [Hw' _].
  destruct (IH _ Hw') as [hops ->].
  assert (exists hops', (world_step op w).1.2 = exec_all hops' w.2) as [hops' ->];
    [|exists (hops' ++ hops); by rewrite run_all_app].
  destruct w as [probes health]. destruct op as [t o at_ms|t x clk|t probe o at_ms clk|hop]; cbn [world_step fst snd].
  - exists []. by destruct (record t o at_ms probes).
  - exists [OpBeginProbe (runtime_health_key t) x clk]. cbn [run_all exec].
    unfold begin_circuit_probe, map_out, bind, ret.
    by destruct (RuntimeHealth.begin_circuit_probe _ x clk health) as [[] ?].
  - rewrite (complete_eq p) by done. case_decide; [|by exists []].
    destruct (record _ _ _ _) as [[] ?]; [|by exists []..].
    exists [OpCompleteProbe probe (circuit_result o) clk]. cbn [run_all].
    rewrite health_complete_exec.
    destruct (RuntimeHealth.complete_circuit_probe _ _ _ health) as [[] health'] eqn:Hh; try done.
    by rewrite (health_complete_err _ _ _ _ _ _ (health_wf _ _ Hw) Hh).
  - by exists [hop].
Qed.

(** A ticket completed once never completes again. *)
Lemma spent_ticket p shard_count health0 hops probe res clk health' hops' probes t o at_ms clk' :
  probe_policy_ok p -> try_with_clock_and_shards shard_count = Ok health0 ->
  exec (OpCompleteProbe probe res clk) (exec_all hops health0) = (Ok OutUnit, health') ->
  world_ok p (probes, exec_all hops' health') ->
  exists e, (complete_circuit_probe t probe o at_ms clk' (probes, exec_all hops' health')).1 = Err e.
Proof.
  intros Hpol Hhn He Hw. rewrite (complete_eq p) by done. case_decide; [|by eexists].
  destruct (record t (probe_outcome o) at_ms probes) as [[next|e|] probes'] eqn:Hr; [|by eexists|].
  2: { by destruct (record_spec _ _ _ _ _ _ _ _ Hpol Hw Hr) as (_ & _ & []). }
  pose proof (circuit_ticket_single_use _ _ hops probe res clk hops' (circuit_result o) clk' Hhn) as Hs.
  rewrite run_all_app in Hs. cbn [run_all] in Hs. rewrite He in Hs. specialize (Hs eq_refl). cbn [snd] in Hs.
  rewrite health_complete_exec in Hs.
  pose proof (health_complete_exec probe (circuit_result o) clk' (exec_all hops' health')) as He2.
  destruct (RuntimeHealth.complete_circuit_probe _ _ _ _) as [[[]|e|] health3];
    [done|by eexists|by destruct (health_op_ok _ _ _ _ _ _ Hw He2)].
Qed.
End Registry.

(** ** Properties *)

Section Properties.
Context `{!ShardHash RuntimeHealthProbeTarget} `{!ShardHash RuntimeHealthKey}.

(** Whatever measurements, Circuit probes and other health operations run,
    in any order and over any targets, the snapshot of a target is exactly the
    summary of the observations of that target that were accepted: their number,
    the last outcome and time, and the rounded moving averages of their success
    and latency samples.  Rejected observations and other targets leave no
    trace, no shard eviction loses a target, and no saturation or clamp of the
    machine arithmetic ever changes a value. *)
Lemma probe_metrics_follow_history alpha p shard_count probes health ops t :
  0 <= alpha -> probe_policy_try_new alpha = Ok p -> try_with_policy_and_shards p shard_count = Ok probes ->
  registry_wf health -> counters_ok (counters health) -> Forall op_ok ops ->
  snapshot (world_run ops (probes, health)).1 t
  = Ok (summary p t (history t ops (probes, health))).
Proof. intros. by eapply snapshot_history. Qed.

(** The averages a probe snapshot reports are accurate for every history: the
    success average is a per-mille value, the latency average lies between the
    smallest and the largest latency observed, and each differs from the exact
    rational moving average by at most [500 / alpha], however many observations
    have been rounded in. *)
Lemma probe_averages_are_accurate alpha p shard_count probes health ops t s lo hi :
  0 <= alpha -> probe_policy_try_new alpha = Ok p -> try_with_policy_and_shards p shard_count = Ok probes ->
  registry_wf health -> counters_ok (counters health) -> Forall op_ok ops ->
  snapshot (world_run ops (probes, health)).1 t = Ok (Some s) ->
  Forall (fun l => lo <= l <= hi) (latencies (history t ops (probes, health))) ->
  0 <= success_ewma_per_mille s <= 1000 /\ lo <= latency_ewma_ms s <= hi
  /\ (Qabs (inject_Z (success_ewma_per_mille s)
            - exact_ewma alpha (successes (history t ops (probes, health)))) <= 500 # Z.to_pos alpha)%Q
  /\ (Qabs (inject_Z (latency_ewma_ms s)
            - exact_ewma alpha (latencies (history t ops (probes, health)))) <= 500 # Z.to_pos alpha)%Q.
Proof.
  intros Ha Hp Hn Hwf Hc Hops Hs Hl.
  destruct (snapshot_history _ _ _ _ _ _ t Ha Hp Hn Hwf Hc Hops) as (Hpol & Hh & Hr).
  rewrite Hr in Hs. injection Hs as Hs. set (h := history t ops (probes, health)) in *.
  assert (ewma_alpha_per_mille p = alpha) as Hal
    by (unfold probe_policy_try_new in Hp; repeat case_match; by simplify_eq).
  unfold probe_policy_ok, RUNTIME_HEALTH_PROBE_EWMA_SCALE_PER_MILLE in Hpol. rewrite Hal in Hpol.
  unfold summary in Hs. rewrite Hal in Hs. apply fmap_Some in Hs as (obs & Hlast & ->). simpl.
  assert (h <> []) as Hne by (by intros ->).
  split_and!; try (apply ewma_of_error; [done|by apply fmap_not_nil]);
    eapply ewma_of_between; eauto using successes_bounded; try lia; by apply fmap_not_nil.
Qed.

(** Completing a half-open Circuit probe is atomic over both registries in
    every reachable state: it returns an error and changes nothing, or the
    ticket was the target's own, the observation is recorded and the Circuit
    transition applied, both exactly as the two registries would do alone.  And
    a completed ticket is spent: under any further operations no later
    completion with it succeeds, so a ticket is measured at most once. *)
Lemma circuit_completion_is_atomic alpha p shard_count shard_count' probes0 health0 ops
    t probe o at_ms clk r w' :
  0 <= alpha -> probe_policy_try_new alpha = Ok p -> try_with_policy_and_shards p shard_count = Ok probes0 ->
  try_with_clock_and_shards shard_count' = Ok health0 ->
  let w := world_run ops (probes0, health0) in
  complete_circuit_probe t probe o at_ms clk w = (r, w') ->
  match r with
  | Panic => False
  | Err _ => w' = w
  | Ok next =>
      cp_key probe = runtime_health_key t
      /\ record t (probe_outcome o) at_ms w.1 = (Ok next, w'.1)
      /\ RuntimeHealth.complete_circuit_probe probe (circuit_result o) clk w.2 = (Ok tt, w'.2)
      /\ forall ops' t' o' at_ms' clk',
           exists e, (complete_circuit_probe t' probe o' at_ms' clk' (world_run ops' w')).1 = Err e
  end.
Proof.
  intros Ha Hp Hn Hhn w Hc.
  destruct (new_registry_ok _ _ Hhn) as (Hwf0 & Hc0 & _).
  destruct (new_world_ok _ _ _ _ _ Ha Hp Hn Hwf0 Hc0) as (Hpol & Hw0 & _).
  pose proof (world_run_ok p ops _ Hpol Hw0) as Hw. fold w in Hw.
  pose proof (world_step_spec p (ProbeComplete t probe o at_ms clk) w Hpol Hw) as [Hw' _].
  cbn [world_step] in Hw'. rewrite Hc in Hw'. cbn [fst] in Hw'.
  destruct (world_health_trace p ops _ Hpol Hw0) as [hops Hhops]. fold w in Hhops. cbn [snd] in Hhops.
  destruct w as [probes health] eqn:Hweq. rewrite (complete_eq p) in Hc by done. cbn [fst snd] in *.
  case_decide as Hk; [|by simplify_eq].
  destruct (record t (probe_outcome o) at_ms probes) as [[next|e|] probes'] eqn:Hr; [|by simplify_eq|].
  2: { by destruct (record_spec _ _ _ _ _ _ _ _ Hpol Hw Hr) as (_ & _ & []). }
  pose proof (health_complete_exec probe (circuit_result o) clk health) as He.
  destruct (RuntimeHealth.complete_circuit_probe probe (circuit_result o) clk health) as [[[]|e|] health'] eqn:Hh;
    [|by simplify_eq|by destruct (health_op_ok _ _ _ _ _ _ Hw He)].
  injection Hc as <- <-. cbn [fst snd].
  split_and!; [done..|]. intros ops' t' o' at_ms' clk'.
  destruct (world_health_trace p ops' _ Hpol Hw') as [hops' Hhops']. cbn [snd] in Hhops'.
  pose proof (world_run_ok p ops' _ Hpol Hw') as Hw2.
  destruct (world_run ops' (probes', health')) as [probes2 health2]. cbn [snd] in Hhops'.
  subst health2. rewrite Hhops in He. by eapply spent_ticket.
Qed.
End Properties.

(** ** Witnesses *)

Definition ex_target_hash : ShardHash RuntimeHealthProbeTarget :=
  fun t => Z.of_nat (String.length (as_str (target_endpoint_id t))).

Section Example.
#[local] Existing Instance ex_target_hash.
#[local] Existing Instance ex_hash.

Definition ex_policy : RuntimeHealthProbePolicy := mkProbePolicy 200.
Definition ex_probes : ProbeRegistry := mkRegistry (build_shards 4) ex_policy.
Definition ex_target : RuntimeHealthProbeTarget := TEndpoint ex_endpoint.
Definition ex_ticket : RuntimeHealthCircuitProbe := mkCircuitProbe ex_other 1 40.
Definition ex_ops : list ProbeOp :=
  [ProbeRecord ex_target (POSucceeded 100) 3; ProbeRecord ex_target (POFailed 900) 2;
   ProbeHealth (OpOpenCircuit ex_other 20 (Some 5)); ProbeBegin ex_target 40 (Some 30)].

Lemma probe_metrics_follow_history_witness :
  snapshot (world_run (ex_ops ++ [ProbeComplete ex_target ex_ticket (CPFailed 300 60) 31 (Some 31)])
    (ex_probes, ex_registry)).1 ex_target
  = Ok (Some (mkProbeSnapshot ex_target 2 31 (POFailed 300) 800 140)).
Proof.
  rewrite (probe_metrics_follow_history 200 ex_policy 4).
  - vm_compute. reflexivity.
  - lia.
  - reflexivity.
  - reflexivity.
  - apply (ex_registry_ok []).
  - apply (ex_registry_ok []).
  - repeat constructor; vm_compute; discriminate.
Defined.

Lemma probe_averages_are_accurate_witness :
  100 <= 140 <= 300
  /\ (Qabs (inject_Z 140%Z - exact_ewma 200 [100%Z; 300%Z]) <= 500 # 200)%Q.
Proof.
  pose proof (probe_averages_are_accurate 200 ex_policy 4 ex_probes ex_registry
    (ex_ops ++ [ProbeComplete ex_target ex_ticket (CPFailed 300 60) 31 (Some 31)]) ex_target
    (mkProbeSnapshot ex_target 2 31 (POFailed 300) 800 140) 100 300) as H.
  destruct H as (_ & Hl & _ & He).
  - lia.
  - reflexivity.
  - reflexivity.
  - apply (ex_registry_ok []).
  - apply (ex_registry_ok []).
  - repeat constructor; vm_compute; discriminate.
  - vm_compute. reflexivity.
  - apply (bool_decide_unpack _). vm_compute. exact I.
  - split; [exact Hl|]. exact He.
Defined.

Lemma circuit_completion_is_atomic_witness :
  exists e, (complete_circuit_probe ex_target ex_ticket (CPSucceeded 7) 32 (Some 32)
    (complete_circuit_probe ex_target ex_ticket (CPSucceeded 5) 31 (Some 31)
       (world_run ex_ops (ex_probes, ex_registry))).2).1 = Err e.
Proof.
  destruct (complete_circuit_probe ex_target ex_ticket (CPSucceeded 5) 31 (Some 31)
    (world_run ex_ops (ex_probes, ex_registry))) as [r w'] eqn:Hc.
  assert (r = (complete_circuit_probe ex_target ex_ticket (CPSucceeded 5) 31 (Some 31)
    (world_run ex_ops (ex_probes, ex_registry))).1) as Hr by (by rewrite Hc).
  vm_compute in Hr. subst r.
  destruct (circuit_completion_is_atomic 200 ex_policy 4 4 ex_probes ex_registry ex_ops ex_target
    ex_ticket (CPSucceeded 5) 31 (Some 31) _ w' ltac:(lia) eq_refl eq_refl eq_refl Hc) as (_ & _ & _ & H).
  exact (H [] ex_target (CPSucceeded 7) 32 (Some 32)).
Defined.
End Example.

End Probes.
