(* ===== verification/RuntimeQuota.v ===== *)
(** * Runtime quota registry

    Models [crates/gateway-router/src/runtime_quota.rs]: validated quota windows
    and snapshots, the registry of the latest snapshot per Endpoint/Credential
    (and model), 429 recording, and the one-at-a-time recovery tickets that alone
    reopen an exhausted target.  Like the health registry it implements the
    [KeyedRegistry] interface, with the ticket sequence as its only counter. *)

From S2P Require Import Prelude Core Sharded RuntimeHealth.
Local Open Scope string_scope.
Local Open Scope list_scope.
Local Open Scope Z_scope.

Module Quota.

(** ** Data *)

Inductive RuntimeQuotaTarget : Type :=
| EndpointCredential (endpoint_id : EndpointId) (credential_id : CredentialId)
| EndpointCredentialModel (endpoint_id : EndpointId) (credential_id : CredentialId)
    (upstream_model : string).

#[global] Instance RuntimeQuotaTarget_eq_dec : EqDecision RuntimeQuotaTarget.
Proof. solve_decision. Defined.

#[global] Instance RuntimeQuotaTarget_countable : Countable RuntimeQuotaTarget.
Proof.
  apply (inj_countable'
    (fun k => match k with
              | EndpointCredential e c => inl (e, c)
              | EndpointCredentialModel e c m => inr (e, c, m)
              end)
    (fun x => match x with
              | inl (e, c) => EndpointCredential e c
              | inr (e, c, m) => EndpointCredentialModel e c m
              end)).
  by intros [].
Defined.

Inductive RuntimeQuotaTargetError : Type := EmptyUpstreamModel.

Definition endpoint_credential_model (e : EndpointId) (c : CredentialId) (upstream_model : string)
  : result RuntimeQuotaTargetError RuntimeQuotaTarget :=
  if bool_decide (upstream_model = "") then Err EmptyUpstreamModel
  else Ok (EndpointCredentialModel e c upstream_model).

Inductive QuotaSource : Type := SrcHeader | SrcBilling | SrcRest | SrcGrpc | SrcEstimated.
Inductive QuotaConfidence : Type := ConfAuthoritative | ConfObserved | ConfEstimated.

#[global] Instance QuotaSource_eq_dec : EqDecision QuotaSource.
Proof. solve_decision. Defined.
#[global] Instance QuotaConfidence_eq_dec : EqDecision QuotaConfidence.
Proof. solve_decision. Defined.

Record QuotaWindow : Type := mkWindow {
  w_label : string;
  w_limit : option Z;
  w_remaining : option Z;
  w_reset_at_ms : option Z;
}.

Inductive QuotaWindowError : Type := EmptyLabel | LabelTooLong | RemainingExceedsLimit.

Definition MAX_QUOTA_WINDOWS_PER_SNAPSHOT : Z := 8.
Definition MAX_QUOTA_WINDOW_LABEL_BYTES : Z := 64.

Definition window_try_new (label : string) (limit remaining reset_at_ms : option Z)
  : result QuotaWindowError QuotaWindow :=
  if bool_decide (label = "") then Err EmptyLabel
  else if MAX_QUOTA_WINDOW_LABEL_BYTES <? Z.of_nat (String.length label) then Err LabelTooLong
  else match limit, remaining with
       | Some limit', Some remaining' =>
           if limit' <? remaining' then Err RemainingExceedsLimit
           else Ok (mkWindow label limit remaining reset_at_ms)
       | _, _ => Ok (mkWindow label limit remaining reset_at_ms)
       end.

Definition is_exhausted (w : QuotaWindow) : bool :=
  match w_remaining w with Some r => r =? 0 | None => false end.

Record QuotaSnapshot : Type := mkSnapshot {
  target : RuntimeQuotaTarget;
  windows : list QuotaWindow;
  source : QuotaSource;
  confidence : QuotaConfidence;
  observed_at_ms : Z;
}.

Inductive QuotaSnapshotError : Type :=
| TooManyWindows
| DuplicateWindowLabel
| ExhaustedWindowWithoutFutureReset
| EstimatedSourceConfidenceMismatch.

(** The loop over the windows, with the labels seen so far. *)
Fixpoint check_windows (ws : list QuotaWindow) (labels : gset string) (observed : Z)
  : result QuotaSnapshotError unit :=
  match ws with
  | [] => Ok tt
  | w :: rest =>
      if bool_decide (w_label w ∈ labels) then Err DuplicateWindowLabel
      else if is_exhausted w
              && match w_reset_at_ms w with None => true | Some reset => reset <=? observed end
      then Err ExhaustedWindowWithoutFutureReset
      else check_windows rest ({[ w_label w ]} ∪ labels) observed
  end.

Definition snapshot_try_new (tgt : RuntimeQuotaTarget) (ws : list QuotaWindow)
    (src : QuotaSource) (conf : QuotaConfidence) (observed : Z)
  : result QuotaSnapshotError QuotaSnapshot :=
  if MAX_QUOTA_WINDOWS_PER_SNAPSHOT <? Z.of_nat (length ws) then Err TooManyWindows
  else
    let? _ := check_windows ws ∅ observed in
    if negb (Bool.eqb (bool_decide (src = SrcEstimated)) (bool_decide (conf = ConfEstimated)))
    then Err EstimatedSourceConfidenceMismatch
    else Ok (mkSnapshot tgt ws src conf observed).

(** [Iterator::max]. *)
Fixpoint max_opt (l : list Z) : option Z :=
  match l with
  | [] => None
  | x :: rest => Some (match max_opt rest with None => x | Some y => Z.max x y end)
  end.

Definition blocking_reset_at_ms (s : QuotaSnapshot) : option Z :=
  max_opt (omap w_reset_at_ms (List.filter is_exhausted (windows s))).

Inductive RuntimeQuotaAvailability : Type :=
| QAvailable
| QExhausted (reset_at_ms : Z)
| QRecoveryRequired (reset_at_ms : Z)
| QRecoveryProbeInFlight (reset_at_ms expires_at_ms : Z).

Definition qav_is_available (a : RuntimeQuotaAvailability) : bool :=
  match a with QAvailable => true | _ => false end.

Record RuntimeQuotaRecoveryProbe : Type := mkProbe {
  p_target : RuntimeQuotaTarget;
  p_probe_id : Z;
  p_expires_at_ms : Z;
}.

Inductive RuntimeQuotaError : Type :=
| QClock (e : RuntimeHealthClockError)
| QShardLockPoisoned
| QShardCapacityExceeded
| ObservationTimeRegressed
| RecoveryProbeDeadlineNotInFuture
| RecoveryProbeIdOverflow
| StaleRecoveryProbe
| RecoverySnapshotTargetMismatch
| FallbackDurationOverflow
| FallbackDurationNotPositive.

Record RuntimeQuotaRecoveryProbeState : Type := mkProbeState {
  ps_probe_id : Z;
  ps_expires_at_ms : Z;
}.

Record RuntimeQuotaState : Type := mkQuotaState {
  q_snapshot : QuotaSnapshot;
  q_recovery_probe : option RuntimeQuotaRecoveryProbeState;
}.

Record RuntimeQuotaStatusSnapshot : Type := mkStatus {
  st_availability : RuntimeQuotaAvailability;
  st_snapshot : option QuotaSnapshot;
}.

Abbreviation QuotaRegistry := (Registry RuntimeQuotaTarget RuntimeQuotaState Z).
Abbreviation QuotaM A := (M QuotaRegistry RuntimeQuotaError A).
Abbreviation QuotaBody A := (M (gmap RuntimeQuotaTarget RuntimeQuotaState * Z) RuntimeQuotaError A).

(** ** [impl RuntimeQuotaState] and helpers *)

Definition qstate_availability_at (s : RuntimeQuotaState) (now_ms : Z) : RuntimeQuotaAvailability :=
  match blocking_reset_at_ms (q_snapshot s) with
  | None => QAvailable
  | Some reset =>
      if now_ms <? reset then QExhausted reset
      else match q_recovery_probe s with
           | Some probe =>
               if now_ms <? ps_expires_at_ms probe
               then QRecoveryProbeInFlight reset (ps_expires_at_ms probe)
               else QRecoveryRequired reset
           | None => QRecoveryRequired reset
           end
  end.

(** [retain] keeps the states that are not available at [now_ms]. *)
Definition reclaimable_at (now_ms : Z) (s : RuntimeQuotaState) : bool :=
  qav_is_available (qstate_availability_at s now_ms).

Definition quota_insert_capacity (now_ms : Z) : QuotaBody unit :=
  ensure_capacity QShardCapacityExceeded (reclaimable_at now_ms).

Definition add_duration_to_timestamp (now_ms : Z) (duration : Duration)
  : result RuntimeQuotaError Z :=
  let? duration_ms := ok_or FallbackDurationOverflow (i64_try_from (as_millis duration)) in
  ok_or FallbackDurationOverflow (i64_checked_add now_ms duration_ms).

Definition q_read_clock (clk : ClockReading) : result RuntimeQuotaError Z :=
  ok_or (QClock ClockUnavailable) clk.

(** [checked_add(1).filter(|next| *next != 0)] *)
Definition take_recovery_probe_id : QuotaBody Z :=
  fun mc => match u64_checked_add mc.2 1 with
            | Some next => if next =? 0 then (Err RecoveryProbeIdOverflow, mc)
                           else (Ok mc.2, (mc.1, next))
            | None => (Err RecoveryProbeIdOverflow, mc)
            end.

Section Operations.
Context `{!ShardHash RuntimeQuotaTarget}.

Definition quota_with_clock : QuotaRegistry :=
  mkRegistry (build_shards DEFAULT_SHARD_COUNT) 1.

Definition try_with_clock_and_shards (shard_count : Z) : result ShardCountError QuotaRegistry :=
  let? _ := validate_shard_count shard_count in
  Ok (mkRegistry (build_shards shard_count) 1).

(** ** Queries *)

Definition snapshot (reg : QuotaRegistry) (tgt : RuntimeQuotaTarget)
  : result RuntimeQuotaError (option QuotaSnapshot) :=
  let? m := read_shard QShardLockPoisoned reg tgt in
  Ok (q_snapshot <$> m !! tgt).

Definition availability_at (reg : QuotaRegistry) (tgt : RuntimeQuotaTarget) (now_ms : Z)
  : result RuntimeQuotaError RuntimeQuotaAvailability :=
  let? m := read_shard QShardLockPoisoned reg tgt in
  Ok (match m !! tgt with
      | None => QAvailable
      | Some s => qstate_availability_at s now_ms
      end).

Definition availability (reg : QuotaRegistry) (tgt : RuntimeQuotaTarget) (clk : ClockReading)
  : result RuntimeQuotaError RuntimeQuotaAvailability :=
  let? now_ms := q_read_clock clk in
  availability_at reg tgt now_ms.

Definition status_at (reg : QuotaRegistry) (tgt : RuntimeQuotaTarget) (now_ms : Z)
  : result RuntimeQuotaError RuntimeQuotaStatusSnapshot :=
  let? m := read_shard QShardLockPoisoned reg tgt in
  match m !! tgt with
  | None => Ok (mkStatus QAvailable None)
  | Some s => Ok (mkStatus (qstate_availability_at s now_ms) (Some (q_snapshot s)))
  end.

Definition endpoint_credential_is_available (reg : QuotaRegistry) (e : EndpointId)
    (c : CredentialId) (clk : ClockReading) : bool :=
  is_ok_and qav_is_available (availability reg (EndpointCredential e c) clk).

Definition endpoint_credential_model_is_available (reg : QuotaRegistry) (e : EndpointId)
    (c : CredentialId) (upstream_model : string) (clk : ClockReading) : bool :=
  is_ok_and (fun tgt => is_ok_and qav_is_available (availability reg tgt clk))
    (endpoint_credential_model e c upstream_model).

Definition quota_entry_count (reg : QuotaRegistry) : result RuntimeQuotaError Z :=
  entry_count QShardLockPoisoned reg.

(** ** Mutations *)

Definition record_snapshot_body (s : QuotaSnapshot) (now_ms : Z) : QuotaBody QuotaSnapshot :=
  let! st := get_state (target s) in
  match st with
  | Some previous =>
      if observed_at_ms s <? observed_at_ms (q_snapshot previous)
      then raise ObservationTimeRegressed
      else insert_state (target s) (mkQuotaState s None) ;;; ret s
  | None =>
      (quota_insert_capacity now_ms ;;; insert_state (target s) (mkQuotaState s None)) ;;; ret s
  end.

Definition record_snapshot (s : QuotaSnapshot) (clk : ClockReading) : QuotaM QuotaSnapshot :=
  let! now_ms := lift (q_read_clock clk) in
  with_write_shard QShardLockPoisoned (target s) (record_snapshot_body s now_ms).

(** The snapshot a 429 becomes. *)
Definition rate_limited_snapshot (tgt : RuntimeQuotaTarget) (observed : Z)
    (retry_after : option Duration) (fallback : Duration) : result RuntimeQuotaError QuotaSnapshot :=
  let '(duration, src, conf) :=
    match retry_after with
    | Some d => if negb (is_zero d) then (d, SrcHeader, ConfObserved)
                else (fallback, SrcEstimated, ConfEstimated)
    | None => (fallback, SrcEstimated, ConfEstimated)
    end in
  if is_zero duration then Err FallbackDurationNotPositive
  else
    let? reset := add_duration_to_timestamp observed duration in
    let? window := map_err (fun _ => FallbackDurationOverflow)
                     (window_try_new "rate_limit" None (Some 0) (Some reset)) in
    map_err (fun _ => FallbackDurationOverflow)
      (snapshot_try_new tgt [window] src conf observed).

Definition record_rate_limited (tgt : RuntimeQuotaTarget) (observed : Z)
    (retry_after : option Duration) (fallback : Duration) (clk : ClockReading)
  : QuotaM QuotaSnapshot :=
  let! s := lift (rate_limited_snapshot tgt observed retry_after fallback) in
  record_snapshot s clk.

Definition begin_recovery_body (tgt : RuntimeQuotaTarget) (expires_at_ms now_ms : Z)
  : QuotaBody (option RuntimeQuotaRecoveryProbe) :=
  let! st := get_state tgt in
  match st with
  | None => ret None
  | Some state =>
      match blocking_reset_at_ms (q_snapshot state) with
      | None => ret None
      | Some reset =>
          if now_ms <? reset then ret None
          else if match q_recovery_probe state with
                  | Some probe => now_ms <? ps_expires_at_ms probe
                  | None => false
                  end
          then ret None
          else
            let! probe_id := take_recovery_probe_id in
            let! _ := insert_state tgt
               (mkQuotaState (q_snapshot state) (Some (mkProbeState probe_id expires_at_ms))) in
            ret (Some (mkProbe tgt probe_id expires_at_ms))
      end
  end.

Definition begin_recovery_probe (tgt : RuntimeQuotaTarget) (expires_at_ms : Z)
    (clk : ClockReading) : QuotaM (option RuntimeQuotaRecoveryProbe) :=
  let! now_ms := lift (q_read_clock clk) in
  if expires_at_ms <=? now_ms then raise RecoveryProbeDeadlineNotInFuture
  else with_write_shard QShardLockPoisoned tgt (begin_recovery_body tgt expires_at_ms now_ms).

Definition complete_recovery_body (probe : RuntimeQuotaRecoveryProbe) (s : QuotaSnapshot)
    (now_ms : Z) : QuotaBody QuotaSnapshot :=
  let! st := get_state (p_target probe) in
  match st with
  | None => raise StaleRecoveryProbe
  | Some state =>
      match q_recovery_probe state with
      | None => raise StaleRecoveryProbe
      | Some current =>
          if negb (ps_probe_id current =? p_probe_id probe)
             || negb (ps_expires_at_ms current =? p_expires_at_ms probe)
             || (ps_expires_at_ms current <=? now_ms)
             || (observed_at_ms s <? observed_at_ms (q_snapshot state))
          then raise StaleRecoveryProbe
          else insert_state (p_target probe) (mkQuotaState s None) ;;; ret s
      end
  end.

Definition complete_recovery_probe (probe : RuntimeQuotaRecoveryProbe) (s : QuotaSnapshot)
    (clk : ClockReading) : QuotaM QuotaSnapshot :=
  if negb (bool_decide (p_target probe = target s)) then raise RecoverySnapshotTargetMismatch
  else
    let! now_ms := lift (q_read_clock clk) in
    with_write_shard QShardLockPoisoned (p_target probe) (complete_recovery_body probe s now_ms).
End Operations.

(** ** Operation sequences and the one-target specification *)

Inductive QuotaOp : Type :=
| OpRecord (s : QuotaSnapshot) (clk : ClockReading)
| OpRateLimited (tgt : RuntimeQuotaTarget) (observed : Z) (retry_after : option Duration)
    (fallback : Duration) (clk : ClockReading)
| OpBegin (tgt : RuntimeQuotaTarget) (expires : Z) (clk : ClockReading)
| OpComplete (probe : RuntimeQuotaRecoveryProbe) (s : QuotaSnapshot) (clk : ClockReading).

Inductive QuotaOut : Type :=
| OutSnapshot (s : QuotaSnapshot)
| OutProbe (ticket : option RuntimeQuotaRecoveryProbe).

Definition qop_key (op : QuotaOp) : RuntimeQuotaTarget :=
  match op with
  | OpRecord s _ => target s
  | OpRateLimited tgt _ _ _ _ | OpBegin tgt _ _ => tgt
  | OpComplete p _ _ => p_target p
  end.

Definition qop_clock (op : QuotaOp) : ClockReading :=
  match op with
  | OpRecord _ clk | OpRateLimited _ _ _ _ clk | OpBegin _ _ clk | OpComplete _ _ clk => clk
  end.

Definition qop_now (op : QuotaOp) : Z := default 0 (qop_clock op).
Definition qop_reclaims (op : QuotaOp) : RuntimeQuotaState -> bool := reclaimable_at (qop_now op).

Section Exec.
Context `{!ShardHash RuntimeQuotaTarget}.

Definition exec (op : QuotaOp) : QuotaM QuotaOut :=
  match op with
  | OpRecord s clk => map_out OutSnapshot (record_snapshot s clk)
  | OpRateLimited tgt observed retry fallback clk =>
      map_out OutSnapshot (record_rate_limited tgt observed retry fallback clk)
  | OpBegin tgt expires clk => map_out OutProbe (begin_recovery_probe tgt expires clk)
  | OpComplete p s clk => map_out OutSnapshot (complete_recovery_probe p s clk)
  end.
End Exec.

(** An observation replaces an equal-or-older one and drops its ticket. *)
Definition observe (s : QuotaSnapshot) (st : option RuntimeQuotaState) (n : Z)
  : result RuntimeQuotaError QuotaOut * option RuntimeQuotaState * Z :=
  match st with
  | Some previous =>
      if observed_at_ms s <? observed_at_ms (q_snapshot previous)
      then (Err ObservationTimeRegressed, st, n)
      else (Ok (OutSnapshot s), Some (mkQuotaState s None), n)
  | None => (Ok (OutSnapshot s), Some (mkQuotaState s None), n)
  end.

(** Due for a recovery ticket: exactly the targets that report [RecoveryRequired]. *)
Definition recovery_required (st : option RuntimeQuotaState) (now_ms : Z) : bool :=
  match st with
  | Some s => match qstate_availability_at s now_ms with QRecoveryRequired _ => true | _ => false end
  | None => false
  end.

Definition owns_ticket (p : RuntimeQuotaRecoveryProbe) (s : QuotaSnapshot)
    (st : option RuntimeQuotaState) (now_ms : Z) : bool :=
  match st with
  | Some (mkQuotaState previous (Some t)) =>
      (ps_probe_id t =? p_probe_id p) && (ps_expires_at_ms t =? p_expires_at_ms p)
      && (now_ms <? ps_expires_at_ms t) && (observed_at_ms previous <=? observed_at_ms s)
  | _ => false
  end.

Definition qkey_step : KeyStep RuntimeQuotaState Z RuntimeQuotaError QuotaOp QuotaOut :=
  fun op st n =>
  match op with
  | OpRecord s None => (Err (QClock ClockUnavailable), st, n)
  | OpRecord s (Some _) => observe s st n
  | OpRateLimited tgt observed retry fallback clk =>
      match rate_limited_snapshot tgt observed retry fallback, clk with
      | Ok s, Some _ => observe s st n
      | Ok _, None => (Err (QClock ClockUnavailable), st, n)
      | Err e, _ => (Err e, st, n)
      | Panic, _ => (Panic, st, n)
      end
  | OpBegin tgt expires None => (Err (QClock ClockUnavailable), st, n)
  | OpBegin tgt expires (Some now_ms) =>
      if expires <=? now_ms then (Err RecoveryProbeDeadlineNotInFuture, st, n)
      else if negb (recovery_required st now_ms) then (Ok (OutProbe None), st, n)
      else if u64_max <=? n then (Err RecoveryProbeIdOverflow, st, n)
      else (Ok (OutProbe (Some (mkProbe tgt n expires))),
            (fun s => mkQuotaState (q_snapshot s) (Some (mkProbeState n expires))) <$> st, n + 1)
  | OpComplete p s clk =>
      if negb (bool_decide (p_target p = target s)) then (Err RecoverySnapshotTargetMismatch, st, n)
      else match clk with
           | None => (Err (QClock ClockUnavailable), st, n)
           | Some now_ms =>
               if owns_ticket p s st now_ms then (Ok (OutSnapshot s), Some (mkQuotaState s None), n)
               else (Err StaleRecoveryProbe, st, n)
           end
  end.

Definition counter_ok (n : Z) : Prop := 1 <= n <= u64_max.

(** A target with a blocking snapshot; the operations that may unblock it. *)
Definition blocked (st : option RuntimeQuotaState) : bool :=
  match st with
  | Some s => match blocking_reset_at_ms (q_snapshot s) with Some _ => true | None => false end
  | None => false
  end.

Definition unblocks (tgt : RuntimeQuotaTarget) (op : QuotaOp) : bool :=
  match op with
  | OpRecord s _ | OpComplete _ s _ =>
      bool_decide (target s = tgt)
      && match blocking_reset_at_ms s with Some _ => false | None => true end
  | _ => false
  end.

Definition op_reports_snapshot (op : QuotaOp) : bool :=
  match op with OpBegin _ _ _ => false | _ => true end.

(** Ticket [id] was issued and no state of its target carries it any more. *)
Definition ticket_dead (id : Z) (st : option RuntimeQuotaState) (n : Z) : Prop :=
  id < n /\ forall t, st ≫= q_recovery_probe = Some t -> ps_probe_id t <> id.

Definition issued_below (st : option RuntimeQuotaState) (n : Z) : Prop :=
  forall t, st ≫= q_recovery_probe = Some t -> ps_probe_id t < n.

(** What [QuotaSnapshot::try_new] demands of the windows. *)
Definition window_ok (observed : Z) (w : QuotaWindow) : Prop :=
  is_exhausted w = true -> exists reset, w_reset_at_ms w = Some reset /\ observed < reset.

Abbreviation qgood op body :=
  (good_body qop_key qop_reclaims qkey_step counter_ok QShardCapacityExceeded op body).

(** ** A concrete registry, for the witnesses *)

Definition ex_qhash : ShardHash RuntimeQuotaTarget := fun _ => 1.
Definition ex_target : RuntimeQuotaTarget := EndpointCredential (mkId "endpoint-a") (mkId "credential-a").
Definition ex_other : RuntimeQuotaTarget :=
  EndpointCredentialModel (mkId "endpoint-a") (mkId "credential-a") "model-a".
Definition ex_healthy_snapshot : QuotaSnapshot := mkSnapshot ex_target [] SrcHeader ConfObserved 2400.
Definition ex_registry : QuotaRegistry := mkRegistry (build_shards 2) 1.

Section Example.
#[local] Existing Instance ex_qhash.
Definition ex_limited : QuotaRegistry :=
  run_all exec [OpRateLimited ex_target 1 (Some 1000000000) 5000000 (Some 1)] ex_registry.
End Example.

(** ** Lemmas *)

(** The evidence a 429 gives: how long, and how it is labelled. *)
Definition rate_evidence (retry_after : option Duration) (fallback : Duration)
  : Duration * QuotaSource * QuotaConfidence :=
  match retry_after with
  | Some d => if negb (is_zero d) then (d, SrcHeader, ConfObserved)
              else (fallback, SrcEstimated, ConfEstimated)
  | None => (fallback, SrcEstimated, ConfEstimated)
  end.

Definition rate_window (reset : Z) : QuotaWindow :=
  mkWindow "rate_limit" None (Some 0) (Some reset).

Lemma rate_limited_closed tgt observed retry fallback d src conf :
  rate_evidence retry fallback = (d, src, conf) ->
  rate_limited_snapshot tgt observed retry fallback =
    if is_zero d then Err FallbackDurationNotPositive
    else if in_i64 (as_millis d) && in_i64 (observed + as_millis d) && (0 <? as_millis d)
    then Ok (mkSnapshot tgt [rate_window (observed + as_millis d)] src conf observed)
    else Err FallbackDurationOverflow.
Proof.
  unfold rate_limited_snapshot. fold (rate_evidence retry fallback). intros He. rewrite He.
  destruct (is_zero d); [done|].
  unfold add_duration_to_timestamp, i64_checked_add, i64_try_from.
  destruct (in_i64 (as_millis d)); [|done]. simpl.
  destruct (in_i64 (observed + as_millis d)); [|done].
  assert (Bool.eqb (bool_decide (src = SrcEstimated)) (bool_decide (conf = ConfEstimated)) = true) as Hb.
  { unfold rate_evidence in He. repeat case_match; by simplify_eq. }
  unfold snapshot_try_new, map_err, window_try_new. simpl.
  destruct (Z.leb_spec (observed + as_millis d) observed), (Z.ltb_spec 0 (as_millis d)); try lia; [done|].
  simpl. by rewrite Hb.
Qed.

Lemma rate_limited_snapshot_target tgt observed retry fallback s :
  rate_limited_snapshot tgt observed retry fallback = Ok s -> target s = tgt.
Proof.
  destruct (rate_evidence retry fallback) as [[d src] conf] eqn:He.
  rewrite (rate_limited_closed _ _ _ _ _ _ _ He). repeat case_match; intros; by simplify_eq.
Qed.

Lemma rate_limited_no_panic tgt observed retry fallback :
  rate_limited_snapshot tgt observed retry fallback <> Panic.
Proof.
  destruct (rate_evidence retry fallback) as [[d src] conf] eqn:He.
  rewrite (rate_limited_closed _ _ _ _ _ _ _ He). by repeat case_match.
Qed.

Lemma good_record s now_ms :
  qgood (OpRecord s (Some now_ms)) (map_out OutSnapshot (record_snapshot_body s now_ms)).
Proof.
  intros m n r m' n' Hb Hm. apply map_out_inv in Hb as (r0 & Hb & ->). simpl qop_key.
  unfold record_snapshot_body in Hb. rewrite bind_get_state in Hb.
  destruct (m !! target s) as [previous|] eqn:Hk.
  - unfold_shard_ops. unfold bind, ret, raise in Hb. simpl in Hb.
    destruct (observed_at_ms s <? _) eqn:Ho; simplify_eq/=.
    + split; [split; [done|by left]|]. intros _. right. simpl. by rewrite Ho, Hk.
    + split; [split; [by size_tac|intros k Hne; left; by simplify_map_eq]|].
      intros _. right. simpl. rewrite Ho. by simplify_map_eq.
  - unfold bind at 1 in Hb. unfold quota_insert_capacity in Hb.
    destruct ((_ ;;; _) (m, n)) as [r1 [m1 n1]] eqn:Hi.
    apply fresh_insert_cases in Hi as (? & -> & ? & [[-> ?]|[-> ?]]); [| |done..];
      unfold ret in Hb; simplify_eq/=; (split; [done|]); intros _; [by left|].
    right. congruence.
Qed.

Lemma good_begin tgt expires now_ms :
  now_ms < expires ->
  qgood (OpBegin tgt expires (Some now_ms)) (map_out OutProbe (begin_recovery_body tgt expires now_ms)).
Proof.
  intros Hd m n r m' n' Hb Hm. apply map_out_inv in Hb as (r0 & Hb & ->). simpl qop_key.
  unfold begin_recovery_body in Hb. rewrite bind_get_state in Hb.
  assert ((expires <=? now_ms) = false) as Hx by (apply Z.leb_gt; lia).
  unfold qkey_step, recovery_required, qstate_availability_at. rewrite Hx.
  destruct (m !! tgt) as [state|] eqn:Hk;
    [|unfold ret in Hb; simplify_eq/=; split; [by auto|by rewrite Hk; right]].
  destruct (blocking_reset_at_ms _) as [reset|];
    [|unfold ret in Hb; simplify_eq/=; split; [by auto|by rewrite Hk; right]].
  destruct (now_ms <? reset);
    [unfold ret in Hb; simplify_eq/=; split; [by auto|by rewrite Hk; right]|].
  destruct (match q_recovery_probe state with Some _ => _ | None => _ end) eqn:Hp.
  { unfold ret in Hb; simplify_eq/=; split; [by auto|]. rewrite Hk.
    destruct (q_recovery_probe state); [|done]. rewrite Hp. by right. }
  unfold_shard_ops. unfold bind, ret, take_recovery_probe_id in Hb. simpl in Hb.
  assert ((match q_recovery_probe state with
           | Some probe => if now_ms <? ps_expires_at_ms probe
                           then QRecoveryProbeInFlight reset (ps_expires_at_ms probe)
                           else QRecoveryRequired reset
           | None => QRecoveryRequired reset end) = QRecoveryRequired reset) as ->.
  { destruct (q_recovery_probe state); [by rewrite Hp|done]. }
  simpl. destruct (u64_checked_add n 1) as [next|] eqn:Ha; [destruct (next =? 0) eqn:Hz|]; simplify_eq/=.
  - split; [by auto|]. intros Hc. rewrite u64_add_one in Ha by done.
    bool_simp. unfold counter_ok in Hc. case_match; simplify_eq. lia.
  - split; [split; [by size_tac|intros k Hne; left; by simplify_map_eq]|].
    intros Hc. rewrite u64_add_one in Ha by done. case_match; simplify_eq. right. by simplify_map_eq.
  - split; [by auto|]. intros Hc. rewrite u64_add_one in Ha by done. case_match; simplify_eq.
    right. by rewrite Hk.
Qed.

Lemma good_complete p s now_ms :
  p_target p = target s ->
  qgood (OpComplete p s (Some now_ms)) (map_out OutSnapshot (complete_recovery_body p s now_ms)).
Proof.
  intros Ht m n r m' n' Hb Hm. apply map_out_inv in Hb as (r0 & Hb & ->). simpl qop_key.
  unfold complete_recovery_body in Hb. rewrite bind_get_state in Hb.
  unfold qkey_step. rewrite bool_decide_true by done. simpl.
  destruct (m !! p_target p) as [[previous [t|]]|] eqn:Hk; simpl in Hb;
    [|unfold raise in Hb; simplify_eq/=; split; [by auto|rewrite Hk; by right]..].
  simpl. unfold_shard_ops. unfold bind, ret, raise in Hb. simpl in Hb.
  rewrite Z.ltb_antisym. rewrite (Z.leb_antisym (observed_at_ms s)).
  destruct (_ =? p_probe_id p), (_ =? p_expires_at_ms p), (_ <=? now_ms), (observed_at_ms s <? _);
    simplify_eq/=; (split; [split; [by size_tac|intros k Hne; left; by simplify_map_eq]|]);
    intros _; right; by simplify_map_eq.
Qed.

Section Registry.
Context `{!ShardHash RuntimeQuotaTarget}.
Implicit Types (reg : QuotaRegistry) (op : QuotaOp).

Lemma record_cases s clk reg r reg' :
  map_out OutSnapshot (record_snapshot s clk) reg = (r, reg') ->
  (clk = None /\ reg' = reg /\ r = Err (QClock ClockUnavailable))
  \/ (exists now_ms, clk = Some now_ms
       /\ with_write_shard QShardLockPoisoned (target s)
            (map_out OutSnapshot (record_snapshot_body s now_ms)) reg = (r, reg')).
Proof.
  intros He. destruct clk as [now|]; [right|left].
  - exists now. split; [done|]. by rewrite <- map_out_with_write, <- He.
  - unfold record_snapshot, map_out, bind, lift in He. simpl in He. by simplify_eq.
Qed.

Lemma qexec_cases op reg r reg' :
  exec op reg = (r, reg') ->
  (reg' = reg /\ (exists e, r = Err e) /\ forall st n, qkey_step op st n = (r, st, n))
  \/ (exists body, qgood op body
        /\ with_write_shard QShardLockPoisoned (qop_key op) body reg = (r, reg')).
Proof.
  destruct op as [s clk|tgt observed retry fallback clk|tgt x clk|p s clk]; intros He; unfold exec in He.
  - apply record_cases in He as [(-> & -> & ->)|(now & -> & Hw)]; [by left; eauto|right].
    eauto using good_record.
  - unfold record_rate_limited, map_out, bind at 2, lift in He.
    pose proof (rate_limited_no_panic tgt observed retry fallback) as Hnp.
    destruct (rate_limited_snapshot tgt observed retry fallback) as [s|e|] eqn:Hs; [| |done].
    + apply rate_limited_snapshot_target in Hs as Ht.
      change (map_out OutSnapshot (record_snapshot s clk) reg = (r, reg')) in He.
      apply record_cases in He as [(-> & -> & ->)|(now & -> & Hw)].
      { left. split_and!; [done|by eauto|]. intros st n. unfold qkey_step. by rewrite Hs. }
      right. eexists. subst tgt. split; [|exact Hw].
      intros m n r0 m' n' Hb Hm. pose proof (good_record s now _ _ _ _ _ Hb Hm) as Hg.
      unfold qkey_step, qop_key in *. rewrite Hs. exact Hg.
    + left. unfold bind in He. simplify_eq. split_and!; [done|by eauto|].
      intros st n. unfold qkey_step. by rewrite Hs.
  - unfold begin_recovery_probe in He. destruct clk as [now|];
      [|left; unfold map_out, bind, lift in He; simplify_eq/=; by eauto].
    destruct (x <=? now) eqn:Hx.
    + left. unfold map_out, bind, lift in He. simpl in *. rewrite Hx in *. simplify_eq/=. eauto.
    + right. eexists. split; [apply good_begin; by apply Z.leb_gt|].
      rewrite <- map_out_with_write, <- He. unfold map_out, bind, lift. simpl. by rewrite Hx.
  - unfold complete_recovery_probe in He. simpl. case_bool_decide as Ht; simpl in He.
    + destruct clk as [now|]; [right|left; unfold map_out, bind, lift in He; simplify_eq/=; by eauto].
      eexists. split; [by apply good_complete|]. by rewrite <- map_out_with_write, <- He.
    + left. unfold map_out, bind, raise in He. simplify_eq/=. eauto.
Qed.

Lemma qkey_step_counters op st n r st' n' :
  counter_ok n -> qkey_step op st n = (r, st', n') -> counter_ok n' /\ n <= n' /\ r <> Panic.
Proof.
  unfold counter_ok. intros Hc Hs. destruct op as [s []|tgt observed retry fallback clk|tgt x []|p s []];
    unfold qkey_step, observe in Hs; repeat (case_match; simplify_eq/=; bool_simp);
    simplify_eq/=; try (split_and!; lia || done).
  by destruct (rate_limited_no_panic tgt observed retry fallback).
Qed.

#[global] Instance quota_keyed :
  KeyedRegistry exec qop_key qop_reclaims qkey_step counter_ok Z.le
    QShardLockPoisoned QShardCapacityExceeded.
Proof. split; [apply qexec_cases|apply qkey_step_counters|apply _]. Qed.

Lemma qnew_registry_ok shard_count reg :
  try_with_clock_and_shards shard_count = Ok reg ->
  registry_wf reg /\ counter_ok (counters reg) /\ (forall key, view reg key = None)
  /\ (forall key, healthy_lock reg key).
Proof.
  unfold try_with_clock_and_shards, result_bind.
  destruct (validate_shard_count shard_count) as [[]| |] eqn:Hv; intros; simplify_eq.
  destruct (new_registry_facts (K := RuntimeQuotaTarget) (V := RuntimeQuotaState) _ 1 Hv)
    as (Hwf & Hn & Hl).
  split; [done|]. split; [unfold counter_ok, u64_max; simpl; lia|done].
Qed.

Lemma qavailability_at_view reg tgt now_ms :
  healthy_lock reg tgt ->
  availability_at reg tgt now_ms
  = Ok (default QAvailable ((fun s => qstate_availability_at s now_ms) <$> view reg tgt)).
Proof.
  intros (s & Hs & Hp). unfold availability_at, read_shard, result_bind, view.
  rewrite Hs, Hp. simpl. by destruct (states s !! tgt).
Qed.

Lemma reclaimable_available s now_ms t :
  reclaimable_at now_ms s = true -> qstate_availability_at s t = QAvailable.
Proof.
  unfold reclaimable_at, qstate_availability_at. by repeat case_match.
Qed.

Lemma rate_limited_blocks tgt observed retry fallback s :
  rate_limited_snapshot tgt observed retry fallback = Ok s ->
  blocking_reset_at_ms s = Some (observed + as_millis (rate_evidence retry fallback).1.1).
Proof.
  destruct (rate_evidence retry fallback) as [[d src] conf] eqn:He.
  rewrite (rate_limited_closed _ _ _ _ _ _ _ He). repeat case_match; intros; by simplify_eq.
Qed.

Lemma blocked_kept ops reg tgt :
  registry_wf reg -> counter_ok (counters reg) -> blocked (view reg tgt) = true ->
  forallb (fun op => negb (unblocks tgt op)) ops = true ->
  blocked (view (run_all exec ops reg) tgt) = true.
Proof.
  intros Hwf Hc Hb Hops. apply (run_all_keeps blocked (unblocks tgt)); try done.
  - intros op st n r st' n' <- Hk Hs HP.
    destruct op as [s []|tgt observed retry fallback []|tgt x []|p s []]; unfold qkey_step, observe in Hs;
      simpl in Hk; repeat (case_match; simplify_eq/=; bool_simp); simplify_eq/=; try done.
    all: try (match goal with H : rate_limited_snapshot _ _ _ _ = Ok _ |- _ =>
                apply rate_limited_blocks in H; congruence end).
    all: repeat (case_bool_decide; simplify_eq/=); try congruence.
    by destruct st.
  - intros op v. unfold qop_reclaims, reclaimable_at, qstate_availability_at.
    simpl. by repeat case_match.
Qed.

Lemma blocked_unavailable ops reg tgt now_ms :
  registry_wf reg -> counter_ok (counters reg) -> blocked (view reg tgt) = true ->
  forallb (fun op => negb (unblocks tgt op)) ops = true ->
  is_ok_and qav_is_available (availability_at (run_all exec ops reg) tgt now_ms) = false.
Proof.
  intros Hwf Hc Hb Hops. pose proof (blocked_kept _ _ _ Hwf Hc Hb Hops) as Hb'.
  destruct (run_all_inv ops reg Hwf Hc) as [Hwf' _]. destruct (wf_shard _ tgt Hwf') as [[p m] Hs].
  unfold availability_at, read_shard, view in *. rewrite Hs in *. simpl in *.
  destruct p; [done|]. simpl. destruct (m !! tgt) as [s|]; [|done]. simpl in Hb'.
  unfold qstate_availability_at. by repeat case_match.
Qed.

Lemma step_ticket op st n r st' n' t :
  counter_ok n -> qkey_step op st n = (r, st', n') -> st' ≫= q_recovery_probe = Some t ->
  (st ≫= q_recovery_probe = Some t /\ n <= n') \/ (ps_probe_id t = n /\ n' = n + 1).
Proof.
  intros Hc Hs Ht. destruct op as [s []|tgt observed retry fallback []|tgt x []|p s []];
    unfold qkey_step, observe in Hs; repeat (case_match; simplify_eq/=; bool_simp);
    simplify_eq/=; try (left; split; [done|lia]); try done.
  destruct st; simplify_eq/=. by right.
Qed.

Lemma issued_below_all ops reg tgt :
  registry_wf reg -> counter_ok (counters reg) -> view reg tgt = None ->
  issued_below (view (run_all exec ops reg) tgt) (counters (run_all exec ops reg)).
Proof.
  intros Hwf Hc Hn. apply (run_all_key issued_below); try done.
  - intros op st n r st' n' _ _ Hn' Hs HP t Ht.
    destruct (step_ticket _ _ _ _ _ _ _ Hn' Hs Ht) as [[Ho ?]|[-> ->]]; [|lia]. specialize (HP t Ho). lia.
  - intros st n n' HP Hle t Ht. specialize (HP t Ht). lia.
  - by rewrite Hn.
Qed.

Lemma ticket_dead_all id ops reg tgt :
  registry_wf reg -> counter_ok (counters reg) -> ticket_dead id (view reg tgt) (counters reg) ->
  ticket_dead id (view (run_all exec ops reg) tgt) (counters (run_all exec ops reg)).
Proof.
  intros Hwf Hc. apply (run_all_key (ticket_dead id)); try done.
  - intros op st n r st' n' _ _ Hn' Hs [? HP].
    pose proof (qkey_step_counters _ _ _ _ _ _ Hn' Hs) as (_ & ? & _). split; [lia|]. intros t Ht.
    destruct (step_ticket _ _ _ _ _ _ _ Hn' Hs Ht) as [[Ho ?]|[-> _]]; [|lia]. by apply HP.
  - intros st n n' [? ?] ?. split; [lia|done].
  - intros op v n _ [? _]. by split.
Qed.

(** Recording a snapshot, by whichever operation, drops the target's ticket. *)
Lemma reported_no_ticket op s reg reg' :
  registry_wf reg -> counter_ok (counters reg) -> op_reports_snapshot op = true ->
  exec op reg = (Ok (OutSnapshot s), reg') -> view reg' (qop_key op) ≫= q_recovery_probe = None.
Proof.
  intros Hwf Hc Hop He. apply keyed_own in He as [[? ?]|[[? ?]|Hk]]; [done..| |done|done].
  destruct op as [s0 []|tgt observed retry fallback []|tgt x []|p s0 []];
    unfold qkey_step, observe in Hk; cbn [qop_key] in *; try done;
    repeat (case_match; try done); by injection Hk as -> -> _.
Qed.

(** A successful completion owned the ticket and leaves none. *)
Lemma complete_inv p s clk s' reg reg' :
  registry_wf reg -> counter_ok (counters reg) ->
  exec (OpComplete p s clk) reg = (Ok (OutSnapshot s'), reg') ->
  (exists t, view reg (p_target p) ≫= q_recovery_probe = Some t /\ ps_probe_id t = p_probe_id p)
  /\ view reg' (p_target p) = Some (mkQuotaState s None) /\ counters reg' = counters reg.
Proof.
  intros Hwf Hc He. apply keyed_own in He as [[? ?]|[[? ?]|Hk]]; [done..| |done|done].
  simpl in Hk. repeat (case_match; simplify_eq/=; bool_simp); simplify_eq/=.
  destruct (view reg (p_target p)) as [[previous [t|]]|]; try done. simpl in *. bool_simp.
  split_and!; [by eexists|congruence..].
Qed.
End Registry.

Lemma check_windows_ok ws labels observed :
  check_windows ws labels observed = Ok tt <->
  NoDup (w_label <$> ws) /\ (forall w, w ∈ ws -> w_label w ∉ labels)
  /\ Forall (window_ok observed) ws.
Proof.
  revert labels. induction ws as [|w ws IH]; intros labels; simpl.
  { split; [|done]. intros _. split_and!; [constructor|set_solver|constructor]. }
  rewrite NoDup_cons, Forall_cons. case_bool_decide as Hl.
  { split; [done|]. intros (_ & Hn & _). destruct (Hn w); [left|done]. }
  destruct (is_exhausted w && _) eqn:Hx.
  - split; [done|]. intros (_ & _ & Hw & _). apply andb_true_iff in Hx as [Hex Hr].
    destruct (Hw Hex) as (reset & Hre & ?). rewrite Hre in Hr. bool_simp. lia.
  - rewrite IH. assert (window_ok observed w) as Hw.
    { intros Hex. rewrite Hex in Hx. simpl in Hx. destruct (w_reset_at_ms w) as [reset|]; [|done].
      bool_simp. eauto. }
    split.
    + intros (Hnd & Hn & Hf). split_and!; try done.
      * intros Hin. apply list_elem_of_fmap in Hin as (w' & Hl' & Hw'). set_solver.
      * intros w' [->|Hw']%elem_of_cons; set_solver.
    + intros ([Hni Hnd] & Hn & _ & Hf). split_and!; try done. intros w' Hw' Hin.
      apply elem_of_union in Hin as [Hin|Hin]; [|by eapply Hn; [right|]].
      apply elem_of_singleton in Hin. apply Hni. rewrite <- Hin. by apply list_elem_of_fmap_2.
Qed.

Lemma max_opt_spec l m : max_opt l = Some m -> m ∈ l /\ Forall (fun x => x <= m) l.
Proof.
  revert m. induction l as [|x l IH]; simpl; intros m Hm; [done|]. simplify_eq.
  destruct (max_opt l) as [y|] eqn:Hl.
  - destruct (IH y eq_refl) as [Hy Hf]. split.
    + destruct (Z.max_spec x y) as [[_ ->]|[_ ->]]; [by right|by left].
    + constructor; [lia|]. eapply Forall_impl; [done|]. simpl. lia.
  - destruct l; [|done]. split; [left|]. by repeat constructor.
Qed.

Lemma snapshot_accepted tgt ws src conf observed s :
  snapshot_try_new tgt ws src conf observed = Ok s ->
  Forall (window_ok observed) ws /\ s = mkSnapshot tgt ws src conf observed.
Proof.
  unfold snapshot_try_new, result_bind. case_match; [done|].
  destruct (check_windows ws ∅ observed) as [[]|e|] eqn:Hc; [|done..].
  apply check_windows_ok in Hc as (_ & _ & ?). case_match; [done|]. intros; by simplify_eq.
Qed.

(** ** Properties *)

(** [QuotaSnapshot::try_new] accepts exactly the snapshots with at most eight
    windows, distinct window labels, a reset strictly after the observation for
    every exhausted window, and Estimated source if and only if Estimated
    confidence; it returns the fields unchanged. *)
Lemma snapshot_try_new_accepts_iff tgt ws src conf observed s :
  snapshot_try_new tgt ws src conf observed = Ok s <->
  Z.of_nat (length ws) <= MAX_QUOTA_WINDOWS_PER_SNAPSHOT /\ NoDup (w_label <$> ws)
  /\ Forall (window_ok observed) ws /\ (src = SrcEstimated <-> conf = ConfEstimated)
  /\ s = mkSnapshot tgt ws src conf observed.
Proof.
  unfold snapshot_try_new, result_bind.
  destruct (Z.ltb_spec MAX_QUOTA_WINDOWS_PER_SNAPSHOT (Z.of_nat (length ws))).
  { split; [done|]. lia. }
  assert (Bool.eqb (bool_decide (src = SrcEstimated)) (bool_decide (conf = ConfEstimated)) = true
          <-> (src = SrcEstimated <-> conf = ConfEstimated)) as Hb.
  { rewrite Bool.eqb_true_iff. repeat case_bool_decide; naive_solver. }
  destruct (check_windows ws ∅ observed) as [[]|e|] eqn:Hc.
  - apply check_windows_ok in Hc as (? & _ & ?).
    destruct (Bool.eqb _ _); simpl; [|naive_solver].
    split; [intros; simplify_eq; split_and!; naive_solver|]. by intros (_ & _ & _ & _ & ->).
  - split; [done|]. intros (_ & Hnd & Hf & _). exfalso.
    assert (check_windows ws ∅ observed = Ok tt) by (apply check_windows_ok; set_solver). congruence.
  - split; [done|]. intros (_ & Hnd & Hf & _). exfalso.
    assert (check_windows ws ∅ observed = Ok tt) by (apply check_windows_ok; set_solver). congruence.
Qed.

(** For a snapshot that [try_new] accepted, a blocking reset instant exists
    exactly when some window is exhausted; it is then the latest reset among the
    exhausted windows, and strictly later than the observation, so a block is
    never empty and never unbounded. *)
Lemma blocking_reset_of_accepted tgt ws src conf observed s :
  snapshot_try_new tgt ws src conf observed = Ok s ->
  (blocking_reset_at_ms s = None <-> forall w, w ∈ ws -> is_exhausted w = false)
  /\ (forall reset, blocking_reset_at_ms s = Some reset ->
       observed < reset
       /\ (exists w, w ∈ ws /\ is_exhausted w = true /\ w_reset_at_ms w = Some reset)
       /\ (forall w r, w ∈ ws -> is_exhausted w = true -> w_reset_at_ms w = Some r -> r <= reset)).
Proof.
  intros Hs. apply snapshot_accepted in Hs as (Hf & ->). rewrite Forall_forall in Hf.
  unfold blocking_reset_at_ms. cbn [windows].
  assert (forall r, r ∈ omap w_reset_at_ms (List.filter is_exhausted ws) <->
    exists w, w ∈ ws /\ is_exhausted w = true /\ w_reset_at_ms w = Some r) as Hin.
  { intros r. rewrite list_elem_of_omap. setoid_rewrite list_elem_of_In.
    setoid_rewrite filter_In. naive_solver. }
  split.
  - destruct (max_opt _) as [m|] eqn:Hm.
    + apply max_opt_spec in Hm as [Hm _]. apply Hin in Hm as (w & Hw & He & _).
      split; [done|]. intros Hall. by rewrite (Hall w Hw) in He.
    + split; [|done]. intros _ w Hw. destruct (is_exhausted w) eqn:He; [|done]. exfalso.
      destruct (Hf w Hw He) as (reset & Hr & _).
      assert (reset ∈ omap w_reset_at_ms (List.filter is_exhausted ws)) as Hbad by (apply Hin; eauto).
      destruct (omap _ _); [by apply elem_of_nil in Hbad|done].
  - intros reset Hm. apply max_opt_spec in Hm as [Hm Hmax]. rewrite Forall_forall in Hmax.
    apply Hin in Hm as (w & Hw & He & Hr). split_and!.
    + destruct (Hf w Hw He) as (r & Hr' & ?). by simplify_eq.
    + eauto.
    + intros w' r Hw' He' Hr'. apply Hmax, Hin. eauto.
Qed.

Section Properties.
Context `{!ShardHash RuntimeQuotaTarget}.
Implicit Types (reg : QuotaRegistry) (op : QuotaOp).

(** Every public mutation of the quota registry acts on its own target as
    the one-target specification says (result or error, retained snapshot and
    ticket, ticket counter), unless a full shard refuses an untracked target. *)
Lemma quota_refines_key_spec op reg r reg' :
  registry_wf reg -> counter_ok (counters reg) -> healthy_lock reg (qop_key op) ->
  exec op reg = (r, reg') ->
  (r, view reg' (qop_key op), counters reg') = qkey_step op (view reg (qop_key op)) (counters reg)
  \/ (r = Err QShardCapacityExceeded /\ view reg (qop_key op) = None
      /\ view reg' (qop_key op) = None /\ counters reg' = counters reg).
Proof.
  intros Hwf Hc Hl He.
  destruct (keyed_own _ _ _ _ Hwf Hc He) as [(_ & _ & Hn)|[?|?]]; [done|by right|by left].
Qed.

(** A quota mutation of one target never changes the availability of
    another, at any time: making room drops only states without an exhausted
    window, which are available forever, so an absent entry cannot turn a
    blocked target into an available one. *)
Lemma quota_op_isolated op reg r reg' tgt now_ms :
  registry_wf reg -> exec op reg = (r, reg') -> tgt <> qop_key op -> healthy_lock reg tgt ->
  availability_at reg' tgt now_ms = availability_at reg tgt now_ms.
Proof.
  intros Hwf He Hne Hl. pose proof (keyed_healthy _ _ _ _ tgt Hwf He Hl) as Hl'.
  rewrite !qavailability_at_view by done.
  destruct (keyed_other _ _ _ _ tgt Hwf He Hne) as [-> |(v & -> & Hx & ->)]; [done|].
  simpl. by rewrite (reclaimable_available _ _ _ Hx).
Qed.

(** C32: An exhausted target never becomes available by the passage of time,
    by an expiring ticket, by starting a recovery, by further 429s or by
    traffic on other targets: only a snapshot of that same target without an
    exhausted window, recorded or delivered with a recovery ticket, reopens it. *)
Theorem exhausted_stays_blocked ops reg tgt now_ms :
  registry_wf reg -> counter_ok (counters reg) -> blocked (view reg tgt) = true ->
  forallb (fun op => negb (unblocks tgt op)) ops = true ->
  is_ok_and qav_is_available (availability_at (run_all exec ops reg) tgt now_ms) = false.
Proof. apply blocked_unavailable. Qed.

(** A 429 that is recorded blocks exactly its target: the retained
    evidence is Header/Observed for a positive retry-after and
    Estimated/Estimated otherwise, the target is Exhausted strictly before
    observation plus duration (in whole milliseconds) and awaits a recovery
    ticket from then on. *)
Lemma rate_limit_blocks_target tgt observed retry fallback now reg s reg' t d src conf :
  registry_wf reg -> counter_ok (counters reg) ->
  rate_evidence retry fallback = (d, src, conf) ->
  exec (OpRateLimited tgt observed retry fallback (Some now)) reg = (Ok (OutSnapshot s), reg') ->
  s = mkSnapshot tgt [rate_window (observed + as_millis d)] src conf observed
  /\ availability_at reg' tgt t
     = Ok (if t <? observed + as_millis d then QExhausted (observed + as_millis d)
           else QRecoveryRequired (observed + as_millis d)).
Proof.
  intros Hwf Hc Hev He.
  assert (healthy_lock reg tgt) as Hl.
  { destruct (keyed_cases _ _ _ _ He) as [(_ & [? ?] & _)|(body & _ & Hw)]; [done|].
    by destruct (with_write_inv _ _ _ _ _ _ Hwf Hw) as [[? _]|[? _]]. }
  pose proof (keyed_healthy _ _ _ _ tgt Hwf He Hl) as Hl'.
  apply keyed_own in He as [[? ?]|[[? ?]|Hk]]; [done..| |done|done].
  unfold qkey_step in Hk. cbn [qop_key] in Hk. rewrite (rate_limited_closed _ _ _ _ _ _ _ Hev) in Hk.
  destruct (is_zero d); [done|]. destruct (in_i64 _ && _ && _); [|done].
  assert (s = mkSnapshot tgt [rate_window (observed + as_millis d)] src conf observed
          /\ view reg' tgt = Some (mkQuotaState s None)) as [-> Hv].
  { unfold observe in Hk. repeat case_match; by simplify_eq. }
  split; [done|]. rewrite qavailability_at_view, Hv by done. simpl.
  unfold qstate_availability_at. simpl. by case_match.
Qed.

(** A positive retry-after (or fallback) below one millisecond is not
    recorded at all: the truncated reset equals the observation time, so the
    operation fails with [FallbackDurationOverflow] and the target keeps
    whatever state it had.  The documentation promises that a positive
    retry-after becomes reset evidence. *)
Lemma submillisecond_rate_limit_rejected tgt observed retry fallback clk reg d src conf :
  rate_evidence retry fallback = (d, src, conf) -> 0 < d < 1000000 -> i64_ok observed ->
  exec (OpRateLimited tgt observed retry fallback clk) reg = (Err FallbackDurationOverflow, reg).
Proof.
  intros Hev Hd Ho. simpl. unfold record_rate_limited, map_out, bind, lift.
  rewrite (rate_limited_closed _ _ _ _ _ _ _ Hev).
  assert (as_millis d = 0) as -> by (unfold as_millis; apply Z.div_small; lia).
  unfold is_zero. destruct (Z.eqb_spec d 0); [lia|]. by rewrite andb_false_r.
Qed.

(** A recovery ticket of a reachable quota registry completes at most
    once, and never after a newer observation of its target was recorded:
    a late probe cannot overwrite fresh evidence. *)
Lemma quota_ticket_dead_after shard_count reg0 ops0 op ops p s0 s clk :
  try_with_clock_and_shards shard_count = Ok reg0 ->
  op_reports_snapshot op = true -> qop_key op = p_target p ->
  p_probe_id p < counters (run_all exec ops0 reg0) ->
  (exec op (run_all exec ops0 reg0)).1 = Ok (OutSnapshot s0) ->
  forall s', (exec (OpComplete p s clk) (run_all exec (ops0 ++ op :: ops) reg0)).1
     <> Ok (OutSnapshot s').
Proof.
  intros Hn Hop Hkey Hid Hok s'. rewrite run_all_app. cbn [run_all].
  destruct (qnew_registry_ok _ _ Hn) as (Hwf0 & Hc0 & Hv0 & _).
  destruct (run_all_inv ops0 _ Hwf0 Hc0) as [Hwf Hc].
  destruct (exec op (run_all exec ops0 reg0)) as [r reg1] eqn:He. cbn [fst snd] in *. subst r.
  destruct (keyed_inv _ _ _ _ Hwf Hc He) as (Hwf1 & Hc1 & Hle & _).
  assert (ticket_dead (p_probe_id p) (view reg1 (p_target p)) (counters reg1)) as Hd.
  { split; [lia|]. rewrite <- Hkey. by rewrite (reported_no_ticket _ _ _ _ Hwf Hc Hop He). }
  apply (ticket_dead_all _ ops) in Hd as [_ Hd]; [|done..].
  destruct (run_all_inv ops _ Hwf1 Hc1) as [Hwf2 Hc2].
  destruct (exec _ (run_all exec ops reg1)) as [r2 reg2] eqn:He2. cbn [fst]. intros ->.
  destruct (complete_inv _ _ _ _ _ _ Hwf2 Hc2 He2) as ((t & Ht & Hid') & _). by apply (Hd t).
Qed.
End Properties.

(** ** Witnesses *)

#[local] Existing Instance ex_qhash.

Lemma ex_qregistry_new : try_with_clock_and_shards 2 = Ok ex_registry.
Proof. reflexivity. Qed.

Lemma ex_qregistry_ok ops :
  registry_wf (run_all exec ops ex_registry) /\ counter_ok (counters (run_all exec ops ex_registry))
  /\ (forall k, healthy_lock (run_all exec ops ex_registry) k).
Proof.
  destruct (qnew_registry_ok _ _ ex_qregistry_new) as (Hwf & Hc & _ & Hl).
  destruct (run_all_inv ops _ Hwf Hc) as [? ?]. split; [done|]. split; [done|].
  intros k. by apply run_all_healthy.
Qed.

Lemma ex_limited_ok :
  registry_wf ex_limited /\ counter_ok (counters ex_limited) /\ (forall k, healthy_lock ex_limited k).
Proof. apply ex_qregistry_ok. Qed.

Lemma blocking_reset_of_accepted_witness :
  blocking_reset_at_ms (mkSnapshot ex_target [rate_window 9; mkWindow "day" (Some 5) (Some 2) None]
    SrcHeader ConfObserved 4) = Some 9 /\ 4 < 9.
Proof.
  split; [reflexivity|].
  apply (blocking_reset_of_accepted ex_target [rate_window 9; mkWindow "day" (Some 5) (Some 2) None]
    SrcHeader ConfObserved 4 _ eq_refl). reflexivity.
Defined.

Lemma quota_refines_key_spec_witness :
  (exec (OpBegin ex_target 3000 (Some 2000)) ex_limited).1 = Ok (OutProbe (Some (mkProbe ex_target 1 3000))).
Proof.
  destruct (exec _ ex_limited) as [r reg'] eqn:He. destruct ex_limited_ok as (Hwf & Hc & Hl).
  destruct (quota_refines_key_spec (OpBegin ex_target 3000 (Some 2000)) ex_limited r reg' Hwf Hc)
    as [Hk|(_ & Hn & _)]; [apply Hl|exact He| |by vm_compute in Hn].
  apply (f_equal (fun x => x.1.1)) in Hk. cbn [fst] in *. rewrite Hk. vm_compute. reflexivity.
Defined.

Lemma quota_op_isolated_witness :
  availability_at (exec (OpRateLimited ex_other 1 None 5000000 (Some 1)) ex_limited).2 ex_target 5
  = Ok (QExhausted 1001).
Proof.
  destruct (exec _ ex_limited) as [r reg'] eqn:He. destruct ex_limited_ok as (Hwf & Hc & Hl). cbn [snd].
  rewrite (quota_op_isolated (OpRateLimited ex_other 1 None 5000000 (Some 1)) ex_limited r reg' ex_target 5);
    [vm_compute; reflexivity|exact Hwf|exact He|discriminate|apply Hl].
Defined.

Lemma exhausted_stays_blocked_witness :
  is_ok_and qav_is_available
    (availability_at (run_all exec [OpBegin ex_target 3000 (Some 2000)] ex_limited) ex_target 9000) = false.
Proof.
  destruct ex_limited_ok as (Hwf & Hc & _).
  apply exhausted_stays_blocked; [exact Hwf|exact Hc|reflexivity|reflexivity].
Defined.

Lemma rate_limit_blocks_target_witness :
  exists s reg', availability_at reg' ex_target 3 = Ok (QExhausted 1001)
    /\ s = mkSnapshot ex_target [rate_window 1001] SrcHeader ConfObserved 1.
Proof.
  destruct (exec (OpRateLimited ex_target 1 (Some 1000000000) 5000000 (Some 1)) ex_registry)
    as [r reg'] eqn:He.
  assert (r = Ok (OutSnapshot (mkSnapshot ex_target [rate_window 1001] SrcHeader ConfObserved 1))) as Hr.
  { apply (f_equal fst) in He. cbn [fst] in He. rewrite <- He. vm_compute. reflexivity. }
  subst r. destruct (ex_qregistry_ok []) as (Hwf & Hc & _).
  destruct (rate_limit_blocks_target ex_target 1 (Some 1000000000) 5000000 1 ex_registry _ reg' 3
    1000000000 SrcHeader ConfObserved Hwf Hc eq_refl He) as [Hs Ha].
  eexists _, reg'. split; [exact Ha|reflexivity].
Defined.

Lemma submillisecond_rate_limit_rejected_witness :
  exec (OpRateLimited ex_target 7 (Some 999999) 5000000 (Some 7)) ex_registry
  = (Err FallbackDurationOverflow, ex_registry).
Proof.
  apply (submillisecond_rate_limit_rejected ex_target 7 (Some 999999) 5000000 (Some 7) ex_registry
    999999 SrcHeader ConfObserved); [reflexivity|lia|unfold i64_ok, i64_min, i64_max; lia].
Defined.

Lemma quota_ticket_dead_after_witness :
  (exec (OpComplete (mkProbe ex_target 1 3000) ex_healthy_snapshot (Some 2500))
     (run_all exec ([OpRateLimited ex_target 1 (Some 1000000000) 5000000 (Some 1);
                    OpBegin ex_target 3000 (Some 2000)]
                  ++ OpRateLimited ex_target 2100 None 5000000 (Some 2100) :: []) ex_registry)).1
  <> Ok (OutSnapshot ex_healthy_snapshot).
Proof.
  apply (quota_ticket_dead_after 2 ex_registry
    [OpRateLimited ex_target 1 (Some 1000000000) 5000000 (Some 1); OpBegin ex_target 3000 (Some 2000)]
    (OpRateLimited ex_target 2100 None 5000000 (Some 2100)) [] (mkProbe ex_target 1 3000)
    (mkSnapshot ex_target [rate_window 2105] SrcEstimated ConfEstimated 2100));
    [reflexivity|reflexivity|reflexivity|vm_compute; reflexivity|vm_compute; reflexivity].
Defined.
End Quota.
