(* ===== verification/WeightedSchedule.v ===== *)
(** * Smooth weighted round-robin schedules

    [crates/gateway-upstream/src/credential_pool.rs] and
    [crates/gateway-router/src/route_snapshot.rs] each carry a
    [smooth_weighted_slots]: the same loop over bounded weights, the first with
    checked [i64] arithmetic, the second with plain operators that would panic.
    The loop is modelled once, with the two differences as arguments, and shown
    to compile an exact and never over-served cycle. *)

From S2P Require Import Prelude.
Local Open Scope Z_scope.

Definition MAX_SCHEDULE_SLOTS : Z := 1024.

Section Slots.
Context {E : Type}.
Context (too_large : E).
(** What an [i64] overflow in the scoring loop does: an error of the checked
    version, a panic of the unchecked one. *)
Context (overflow : result E Z).

Definition or_overflow (o : option Z) : result E Z :=
  match o with Some z => Ok z | None => overflow end.

(** First loop: read and bound the weights. *)
Fixpoint collect_weights (weight_of : nat -> result E Z) (indexes : list nat) (total_slots : Z)
  : result E (list Z * Z) :=
  match indexes with
  | [] => Ok ([], total_slots)
  | index :: rest =>
      let? weight := weight_of index in
      let? total := ok_or too_large (u64_checked_add total_slots weight) in
      if MAX_SCHEDULE_SLOTS <? total then Err too_large
      else
        let? weight' := ok_or too_large (i64_try_from weight) in
        let? acc := collect_weights weight_of rest total in
        Ok (weight' :: acc.1, acc.2)
  end.

(** [for (current, weight) in current_weights.iter_mut().zip(&weights)] *)
Fixpoint add_weights (current weights : list Z) : result E (list Z) :=
  match current, weights with
  | c :: cs, w :: ws =>
      let? c' := or_overflow (i64_checked_add c w) in
      let? cs' := add_weights cs ws in
      Ok (c' :: cs')
  | _, _ => Ok current
  end.

(** [for position in 1..current_weights.len()]: the first of the largest. *)
Fixpoint select_loop (current : list Z) (positions : list nat) (selected : nat) : result E nat :=
  match positions with
  | [] => Ok selected
  | position :: rest =>
      match current !! position, current !! selected with
      | Some a, Some b => select_loop current rest (if b <? a then position else selected)
      | _, _ => Panic
      end
  end.

Definition select_position (current : list Z) : result E nat :=
  select_loop current (seq 1 (length current - 1)) 0.

(** One round: add every weight, pick, charge the pick with the total. *)
Definition slot_round (weights : list Z) (total_weight : Z) (current : list Z)
  : result E (nat * list Z) :=
  let? added := add_weights current weights in
  let? selected := select_position added in
  match added !! selected with
  | None => Panic
  | Some c =>
      let? c' := or_overflow (i64_checked_sub c total_weight) in
      Ok (selected, <[selected := c']> added)
  end.

Fixpoint slot_rounds (rounds : nat) (weights : list Z) (total_weight : Z) (current : list Z)
    (indexes slots : list nat) : result E (list nat) :=
  match rounds with
  | O => Ok slots
  | S rounds' =>
      let? step := slot_round weights total_weight current in
      match indexes !! step.1 with
      | None => Panic
      | Some index =>
          slot_rounds rounds' weights total_weight step.2 indexes (slots ++ [index])
      end
  end.

Definition smooth_weighted_slots (weight_of : nat -> result E Z) (indexes : list nat)
  : result E (list nat) :=
  let? acc := collect_weights weight_of indexes 0 in
  let? total_weight := ok_or too_large (i64_try_from acc.2) in
  slot_rounds (Z.to_nat acc.2) acc.1 total_weight (replicate (length acc.1) 0) indexes [].
End Slots.

(** ** Specification *)

Definition Zsum (l : list Z) : Z := foldr Z.add 0 l.
Arguments Zsum : simpl never.

(** How often position [i] was picked. *)
Definition picks (history : list nat) (i : nat) : Z := Z.of_nat (count_occ Nat.eq_dec history i).

(** The scores after the rounds of [history]: each round adds the weight, each
    pick costs the total. *)
Definition score (weights : list Z) (total : Z) (history : list nat) (i : nat) : Z :=
  Z.of_nat (length history) * (weights !!! i) - total * picks history i.

Definition scores (weights : list Z) (total : Z) (history : list nat) : list Z :=
  score weights total history <$> seq 0 (length weights).

(** Positions in range, and no position more than one slot ahead of its share. *)
Definition fair (weights : list Z) (total : Z) (history : list nat) : Prop :=
  Forall (fun i => (i < length weights)%nat) history
  /\ forall i, (i < length weights)%nat -> - total < score weights total history i.

(** ** Lemmas *)

Lemma Zsum_cons x l : Zsum (x :: l) = x + Zsum l.
Proof. done. Qed.

Lemma Zsum_app l1 l2 : Zsum (l1 ++ l2) = Zsum l1 + Zsum l2.
Proof. induction l1 as [|x l1 IH]; [done|]. simpl app. rewrite !Zsum_cons. lia. Qed.

Lemma Zsum_linear (f g : nat -> Z) a b l :
  Zsum ((fun i => a * f i - b * g i) <$> l) = a * Zsum (f <$> l) - b * Zsum (g <$> l).
Proof. induction l as [|x l IH]; [unfold Zsum; simpl; lia|]. rewrite !fmap_cons, !Zsum_cons. lia. Qed.

Lemma Zsum_plus (f g : nat -> Z) l :
  Zsum ((fun i => f i + g i) <$> l) = Zsum (f <$> l) + Zsum (g <$> l).
Proof. induction l as [|x l IH]; [unfold Zsum; simpl; lia|]. rewrite !fmap_cons, !Zsum_cons. lia. Qed.

Lemma Zsum_lower (f : nat -> Z) c l :
  (forall i, i ∈ l -> c <= f i) -> c * Z.of_nat (length l) <= Zsum (f <$> l).
Proof.
  induction l as [|x l IH]; intros Hf; [unfold Zsum; simpl; lia|]. rewrite fmap_cons, Zsum_cons. simpl length.
  specialize (IH (fun i Hi => Hf i (list_elem_of_further _ _ _ Hi))).
  specialize (Hf x (list_elem_of_here _ _)). lia.
Qed.

Lemma Zsum_elem_le (f : nat -> Z) l i :
  (forall j, j ∈ l -> 0 <= f j) -> i ∈ l -> f i <= Zsum (f <$> l).
Proof.
  induction l as [|x l IH]; intros Hf Hi; [by apply elem_of_nil in Hi|]. rewrite fmap_cons, Zsum_cons.
  pose proof (Zsum_lower f 0 l (fun j Hj => Hf j (list_elem_of_further _ _ _ Hj))).
  pose proof (Hf x (list_elem_of_here _ _)).
  apply elem_of_cons in Hi as [->|Hi]; [lia|]. specialize (IH ltac:(set_solver) Hi). lia.
Qed.

Lemma Zsum_const (c : Z) (l : list nat) : Zsum ((fun _ => c) <$> l) = c * Z.of_nat (length l).
Proof. induction l as [|x l IH]; [unfold Zsum; simpl; lia|]. rewrite fmap_cons, Zsum_cons, IH. simpl length. lia. Qed.

Lemma Zsum_le_eq (f g : nat -> Z) l :
  (forall i, i ∈ l -> f i <= g i) -> Zsum (f <$> l) = Zsum (g <$> l) ->
  forall i, i ∈ l -> f i = g i.
Proof.
  induction l as [|x l IH]; intros Hle Hsum i Hi; [by apply elem_of_nil in Hi|].
  rewrite !fmap_cons, !Zsum_cons in Hsum.
  assert (Zsum (f <$> l) <= Zsum (g <$> l)) as Hl.
  { clear -Hle. induction l as [|y l IH]; [unfold Zsum; simpl; lia|]. rewrite !fmap_cons, !Zsum_cons.
    assert (f y <= g y) by (apply Hle; set_solver). 
    assert (Zsum (f <$> l) <= Zsum (g <$> l)) by (apply IH; set_solver). lia. }
  assert (f x <= g x) by (apply Hle; left).
  apply elem_of_cons in Hi as [->|Hi]; [lia|]. apply IH; [set_solver|lia|done].
Qed.

Lemma Zsum_seq_lookup (l : list Z) : Zsum ((fun i => l !!! i) <$> seq 0 (length l)) = Zsum l.
Proof.
  f_equal. apply list_eq. intros i. rewrite list_lookup_fmap.
  destruct (decide (i < length l)%nat) as [Hi|Hi].
  - rewrite lookup_seq_lt by done. simpl. symmetry. by apply list_lookup_lookup_total_lt.
  - rewrite lookup_seq_ge by lia. simpl. symmetry. apply lookup_ge_None. lia.
Qed.

Lemma picks_snoc history j i :
  picks (history ++ [j]) i = picks history i + (if decide (i = j) then 1 else 0).
Proof.
  unfold picks. rewrite count_occ_app. simpl. repeat case_match; subst; try done; lia.
Qed.

(** Every round is charged to exactly one position. *)
Lemma picks_sum n history :
  Forall (fun i => (i < n)%nat) history ->
  Zsum (picks history <$> seq 0 n) = Z.of_nat (length history).
Proof.
  induction history as [|j history IH] using rev_ind; intros Hall.
  { assert (forall l, Zsum (picks [] <$> l) = 0) as ->; [|done].
    induction l as [|x l IH]; [done|]. by rewrite fmap_cons, Zsum_cons, IH. }
  apply Forall_app in Hall as [Hall Hj]. rewrite Forall_singleton in Hj.
  rewrite (list_fmap_ext (picks (history ++ [j])) (fun i => picks history i + (if decide (i = j) then 1 else 0))
    (seq 0 n)) by (intros; apply picks_snoc).
  rewrite Zsum_plus, IH by done. rewrite length_app. simpl.
  assert (forall s k, Zsum ((fun i => if decide (i = j) then 1 else 0) <$> seq s k)
            = if decide (s <= j < s + k)%nat then 1 else 0) as ->.
  { intros s k. revert s. induction k as [|k IHk]; intros s.
    { simpl. by rewrite decide_False by lia. }
    simpl seq. rewrite fmap_cons, Zsum_cons, IHk. cbv beta. repeat case_decide; lia. }
  rewrite decide_True by lia. lia.
Qed.

Lemma scores_sum weights total history :
  Forall (fun i => (i < length weights)%nat) history -> Zsum weights = total ->
  Zsum (scores weights total history) = 0.
Proof.
  intros Hall Ht. unfold scores, score. rewrite Zsum_linear.
  rewrite Zsum_seq_lookup, picks_sum by done. lia.
Qed.

(** [select_position] picks an in-range position of maximal score. *)
Lemma select_loop_max {E} current positions selected :
  (selected < length current)%nat -> Forall (fun p => (p < length current)%nat) positions ->
  exists best, select_loop (E := E) current positions selected = Ok best
    /\ (best < length current)%nat
    /\ (forall p, p ∈ selected :: positions -> current !!! p <= current !!! best).
Proof.
  revert selected. induction positions as [|p positions IH]; intros selected Hs Hall; simpl.
  { exists selected. split_and!; [done..|]. intros p Hp. apply list_elem_of_singleton in Hp as ->. done. }
  apply Forall_cons in Hall as [Hp Hall].
  rewrite (list_lookup_lookup_total_lt current p), (list_lookup_lookup_total_lt current selected) by done.
  destruct (IH (if current !!! selected <? current !!! p then p else selected)) as (best & -> & Hb & Hmax);
    [by case_match|done|].
  exists best. split_and!; [done..|]. intros q Hq.
  destruct (Z.ltb_spec (current !!! selected) (current !!! p)).
  - apply elem_of_cons in Hq as [->|Hq]; [|by apply Hmax].
    specialize (Hmax p (list_elem_of_here _ _)). lia.
  - apply elem_of_cons in Hq as [->|[->|Hq]%elem_of_cons]; [apply Hmax; left| |apply Hmax; by right].
    specialize (Hmax selected (list_elem_of_here _ _)). lia.
Qed.

Lemma select_position_max {E} current :
  (0 < length current)%nat ->
  exists best, select_position (E := E) current = Ok best
    /\ (best < length current)%nat
    /\ (forall p, (p < length current)%nat -> current !!! p <= current !!! best).
Proof.
  intros Hlen. destruct (select_loop_max (E := E) current (seq 1 (length current - 1)) 0 Hlen)
    as (best & Hsel & Hb & Hmax).
  { apply Forall_forall. intros p Hp. apply elem_of_seq in Hp. lia. }
  exists best. split_and!; [done..|]. intros p Hp. apply Hmax.
  destruct p as [|p]; [left|right]. apply elem_of_seq. lia.
Qed.

Lemma Zsum_positive_max (l : list Z) best :
  0 < Zsum l -> (forall p, (p < length l)%nat -> l !!! p <= l !!! best) -> 0 < l !!! best.
Proof.
  intros Hs Hmax. destruct (Z_lt_le_dec 0 (l !!! best)); [done|]. exfalso.
  assert (Zsum l <= 0); [|lia]. clear Hs.
  assert (Forall (fun x => x <= 0) l) as Hall.
  { apply Forall_lookup. intros i x Hx. apply list_lookup_total_correct in Hx as Hx'.
    specialize (Hmax i (lookup_lt_Some _ _ _ Hx)). lia. }
  clear -Hall. induction Hall; [done|]. rewrite Zsum_cons. lia.
Qed.

Lemma add_weights_spec {E} (overflow : result E Z) current weights :
  length current = length weights ->
  (forall i, (i < length weights)%nat -> in_i64 (current !!! i + weights !!! i) = true) ->
  add_weights overflow current weights = Ok (zip_with Z.add current weights).
Proof.
  revert weights. induction current as [|c cs IH]; intros [|w ws] Hlen Hin; try done. simpl in *.
  pose proof (Hin 0%nat ltac:(lia)) as H0. simpl in H0.
  unfold i64_checked_add, i64_try_from. rewrite H0. simpl.
  rewrite IH; [done|lia|]. intros i Hi. apply (Hin (S i)). lia.
Qed.

Lemma scores_lookup weights total history i :
  (i < length weights)%nat -> scores weights total history !!! i = score weights total history i.
Proof.
  intros Hi. apply list_lookup_total_correct. unfold scores.
  rewrite list_lookup_fmap, lookup_seq_lt by done. done.
Qed.

(** The scores are bounded, so no [i64] operation of the loop overflows. *)
Lemma score_bounds weights total history i :
  Zsum weights = total -> 0 < total -> fair weights total history -> (i < length weights)%nat ->
  - total < score weights total history i <= total * Z.of_nat (length weights).
Proof.
  intros Ht Hp [Hall Hf] Hi. split; [by apply Hf|].
  pose proof (scores_sum weights total history Hall Ht) as Hs.
  assert (score weights total history i + total
          <= Zsum ((fun j => score weights total history j + total) <$> seq 0 (length weights))) as Hle.
  { apply (Zsum_elem_le (fun j => score weights total history j + total)); [|apply elem_of_seq; lia].
    intros j Hj%elem_of_seq. specialize (Hf j ltac:(lia)). cbv beta. lia. }
  rewrite Zsum_plus, Zsum_const, length_seq in Hle. unfold scores in Hs.
  rewrite Hs in Hle. specialize (Hf i Hi). lia.
Qed.

Lemma length_scores weights total history : length (scores weights total history) = length weights.
Proof. unfold scores. by rewrite length_fmap, length_seq. Qed.

Lemma Zsum_zip l1 l2 : length l1 = length l2 -> Zsum (zip_with Z.add l1 l2) = Zsum l1 + Zsum l2.
Proof.
  revert l2. induction l1 as [|x l1 IH]; intros [|y l2] Hl; try done. simpl zip_with.
  rewrite !Zsum_cons, IH by (simpl in Hl; lia). lia.
Qed.

Lemma length_le_total weights :
  Forall (fun w => 0 < w) weights -> Z.of_nat (length weights) <= Zsum weights.
Proof. induction 1; [done|]. rewrite Zsum_cons. simpl length. lia. Qed.

Lemma weight_le_total weights i :
  Forall (fun w => 0 < w) weights -> (i < length weights)%nat ->
  0 < weights !!! i <= Zsum weights.
Proof.
  intros Hall. revert i. induction Hall as [|w ws Hw Hall IH]; intros i Hi; [simpl in Hi; lia|].
  rewrite Zsum_cons. pose proof (length_le_total ws Hall).
  destruct i as [|i]; simpl; [lia|]. specialize (IH i ltac:(simpl in Hi; lia)). lia.
Qed.

Lemma small_in_i64 z : - 2000000 <= z <= 2000000 -> in_i64 z = true.
Proof. intros Hz. unfold in_i64, i64_min, i64_max. apply andb_true_iff. rewrite !Z.leb_le. lia. Qed.

(** One round keeps the scores closed form and the fairness bound. *)
Lemma slot_round_spec {E} (overflow : result E Z) weights total history :
  Forall (fun w => 0 < w) weights -> Zsum weights = total -> 0 < total <= MAX_SCHEDULE_SLOTS ->
  fair weights total history ->
  exists j, slot_round overflow weights total (scores weights total history)
            = Ok (j, scores weights total (history ++ [j]))
    /\ (j < length weights)%nat /\ fair weights total (history ++ [j]).
Proof.
  intros Hpos Ht Htot Hfair. pose proof Hfair as [Hall Hf].
  assert (Z.of_nat (length weights) <= total) as Hlen by (rewrite <- Ht; by apply length_le_total).
  assert (forall i, (i < length weights)%nat -> 0 < weights !!! i <= total) as Hw
    by (intros i Hi; rewrite <- Ht; by apply weight_le_total).
  set (added := zip_with Z.add (scores weights total history) weights).
  assert (length added = length weights) as Hla.
  { unfold added. rewrite length_zip_with, length_scores. lia. }
  assert (forall i, (i < length weights)%nat ->
            added !!! i = score weights total history i + weights !!! i) as Hadd.
  { intros i Hi. apply list_lookup_total_correct. unfold added. apply lookup_zip_with_Some.
    exists (score weights total history i), (weights !!! i). split_and!; [done| |].
    - rewrite <- scores_lookup by done. apply list_lookup_lookup_total_lt. by rewrite length_scores.
    - by apply list_lookup_lookup_total_lt. }
  unfold slot_round. rewrite add_weights_spec; [|by rewrite length_scores|].
  2:{ intros i Hi. rewrite scores_lookup by done. apply small_in_i64.
      pose proof (score_bounds _ _ _ _ Ht (proj1 Htot) Hfair Hi). specialize (Hw i Hi).
      unfold MAX_SCHEDULE_SLOTS in *. nia. }
  fold added. simpl.
  destruct (select_position_max (E := E) added) as (j & -> & Hj & Hmax).
  { rewrite Hla. destruct weights; unfold Zsum in *; simpl in *; lia. }
  rewrite Hla in Hj. simpl. rewrite (list_lookup_lookup_total_lt added j) by lia.
  assert (0 < added !!! j) as Hjpos.
  { apply Zsum_positive_max; [|done]. unfold added. rewrite Zsum_zip by apply length_scores.
    rewrite (scores_sum _ _ _ Hall Ht). lia. }
  rewrite Hadd in * by done. unfold i64_checked_sub, i64_try_from. rewrite small_in_i64.
  2:{ pose proof (score_bounds _ _ _ _ Ht (proj1 Htot) Hfair Hj). specialize (Hw j Hj).
      unfold MAX_SCHEDULE_SLOTS in *. nia. }
  simpl. exists j.
  assert (forall i, (i < length weights)%nat ->
    score weights total (history ++ [j]) i
    = score weights total history i + weights !!! i - (if decide (i = j) then total else 0)) as Hsc.
  { intros i Hi. unfold score. rewrite picks_snoc, length_app. simpl length. case_decide; lia. }
  split_and!; [|done|split].
  - do 2 f_equal. apply list_eq. intros i.
    destruct (decide (i < length weights)%nat) as [Hi|Hi].
    + rewrite (list_lookup_lookup_total_lt (scores _ _ _) i) by (by rewrite length_scores).
      rewrite scores_lookup, Hsc by done. destruct (decide (i = j)) as [->|Hne].
      * by rewrite list_lookup_insert_eq by lia.
      * rewrite list_lookup_insert_ne by done. rewrite (list_lookup_lookup_total_lt added i) by lia.
        rewrite Hadd by done. f_equal. lia.
    + rewrite !lookup_ge_None_2; [done|rewrite length_scores; lia|rewrite length_insert; lia].
  - apply Forall_app. by rewrite Forall_singleton.
  - intros i Hi. rewrite Hsc by done. specialize (Hf i Hi). specialize (Hw i Hi). case_decide; subst; lia.
Qed.

Lemma slot_rounds_spec {E} (overflow : result E Z) weights total indexes rounds history slots :
  Forall (fun w => 0 < w) weights -> Zsum weights = total -> 0 < total <= MAX_SCHEDULE_SLOTS ->
  length indexes = length weights -> fair weights total history ->
  exists new, slot_rounds overflow rounds weights total (scores weights total history) indexes slots
              = Ok (slots ++ ((fun j => indexes !!! j) <$> new))
    /\ length new = rounds /\ forall k, fair weights total (history ++ take k new).
Proof.
  intros Hpos Ht Htot Hlen. revert history slots.
  induction rounds as [|rounds IH]; intros history slots Hfair; simpl.
  { exists []. simpl. rewrite app_nil_r. split_and!; [done..|].
    intros k. by rewrite take_nil, app_nil_r. }
  destruct (slot_round_spec overflow weights total history Hpos Ht Htot Hfair) as (j & -> & Hj & Hfj).
  simpl. rewrite (list_lookup_lookup_total_lt indexes j) by lia.
  destruct (IH (history ++ [j]) (slots ++ [indexes !!! j]) Hfj) as (new & -> & Hnew & Hk).
  exists (j :: new). split_and!; [by rewrite <- app_assoc|simpl; lia|].
  intros [|k]; simpl; [by rewrite app_nil_r|]. specialize (Hk k). by rewrite <- app_assoc in Hk.
Qed.

Lemma scores_nil weights total : scores weights total [] = replicate (length weights) 0.
Proof.
  apply list_eq. intros i. unfold scores. rewrite list_lookup_fmap.
  destruct (decide (i < length weights)%nat) as [Hi|Hi].
  - rewrite lookup_seq_lt, lookup_replicate_2 by done. simpl. f_equal. unfold score, picks. simpl. lia.
  - rewrite lookup_seq_ge by lia. symmetry. apply lookup_replicate_None. lia.
Qed.

Lemma fair_nil weights total : 0 < total -> fair weights total [].
Proof. intros Ht. split; [done|]. intros i _. unfold score, picks. simpl. lia. Qed.

(** A fair full cycle serves every position exactly as often as its weight. *)
Lemma fair_cycle_exact weights total history :
  Zsum weights = total -> 0 < total -> Z.of_nat (length history) = total ->
  fair weights total history ->
  forall i, (i < length weights)%nat -> picks history i = weights !!! i.
Proof.
  intros Ht Hp Hl [Hall Hf] i Hi.
  apply (Zsum_le_eq (picks history) (fun j => weights !!! j) (seq 0 (length weights))).
  - intros j Hj%elem_of_seq. specialize (Hf j ltac:(lia)). unfold score in Hf. rewrite Hl in Hf. nia.
  - rewrite Zsum_seq_lookup, picks_sum by done. lia.
  - apply elem_of_seq. lia.
Qed.

Lemma collect_weights_spec {E} (too_large : E) weight_of indexes weights total_slots :
  Forall2 (fun index w => weight_of index = Ok w) indexes weights ->
  Forall (fun w => 0 < w <= i64_max) weights -> 0 <= total_slots <= MAX_SCHEDULE_SLOTS ->
  collect_weights too_large weight_of indexes total_slots
  = if total_slots + Zsum weights <=? MAX_SCHEDULE_SLOTS
    then Ok (weights, total_slots + Zsum weights) else Err too_large.
Proof.
  intros H2. revert total_slots. induction H2 as [|index w indexes weights Hw H2 IH];
    intros total Hall Htot; simpl.
  { unfold Zsum. simpl. rewrite Z.add_0_r. destruct (Z.leb_spec total MAX_SCHEDULE_SLOTS); [done|lia]. }
  apply Forall_cons in Hall as [Hb Hall]. rewrite Hw. simpl. rewrite Zsum_cons.
  assert (Forall (fun w => 0 < w) weights) as Hpos by (eapply Forall_impl; [done|]; simpl; lia).
  pose proof (length_le_total weights Hpos).
  unfold u64_checked_add, u64_try_from, in_u64, i64_try_from, in_i64.
  assert ((0 <=? total + w) && (total + w <=? u64_max) = true) as ->.
  { apply andb_true_iff. rewrite !Z.leb_le. unfold MAX_SCHEDULE_SLOTS, u64_max, i64_max in *. lia. }
  assert ((i64_min <=? w) && (w <=? i64_max) = true) as ->.
  { apply andb_true_iff. rewrite !Z.leb_le. unfold i64_min in *. lia. }
  simpl. destruct (Z.ltb_spec MAX_SCHEDULE_SLOTS (total + w)).
  { destruct (Z.leb_spec (total + (w + Zsum weights)) MAX_SCHEDULE_SLOTS); [lia|done]. }
  rewrite IH by (done || lia). rewrite Z.add_assoc.
  destruct (_ <=? MAX_SCHEDULE_SLOTS); done.
Qed.

(** Counting through a duplicate-free index table. *)
Lemma count_indexes (indexes history : list nat) i :
  NoDup indexes -> Forall (fun j => (j < length indexes)%nat) history -> (i < length indexes)%nat ->
  count_occ Nat.eq_dec ((fun j => indexes !!! j) <$> history) (indexes !!! i)
  = count_occ Nat.eq_dec history i.
Proof.
  intros Hnd Hall Hi. induction Hall as [|j history Hj Hall IH]; [done|]. rewrite fmap_cons. cbn [count_occ].
  rewrite IH. destruct (Nat.eq_dec (indexes !!! j) (indexes !!! i)) as [He|He],
    (Nat.eq_dec j i) as [Hji|Hji]; try congruence.
  exfalso. apply Hji. eapply NoDup_lookup; [done| |].
  - by apply list_lookup_lookup_total_lt.
  - rewrite He. by apply list_lookup_lookup_total_lt.
Qed.

(** What [smooth_weighted_slots] compiles: an exact cycle in which no index is
    ever served more than its proportional share plus one slot, or the size
    error; the loop's arithmetic neither overflows nor panics. *)
Definition exact_cycle (indexes : list nat) (weights : list Z) (slots : list nat) : Prop :=
  Z.of_nat (length slots) = Zsum weights
  /\ (forall slot, slot ∈ slots -> slot ∈ indexes)
  /\ forall i index w, indexes !! i = Some index -> weights !! i = Some w ->
       Z.of_nat (count_occ Nat.eq_dec slots index) = w
       /\ forall k, (k <= length slots)%nat ->
            Zsum weights * Z.of_nat (count_occ Nat.eq_dec (take k slots) index)
            < Z.of_nat k * w + Zsum weights.

Lemma smooth_weighted_spec {E} (too_large : E) overflow weight_of indexes weights :
  NoDup indexes -> Forall2 (fun index w => weight_of index = Ok w) indexes weights ->
  Forall (fun w => 0 < w <= i64_max) weights ->
  if Zsum weights <=? MAX_SCHEDULE_SLOTS
  then exists slots, smooth_weighted_slots too_large overflow weight_of indexes = Ok slots
         /\ exact_cycle indexes weights slots
  else smooth_weighted_slots too_large overflow weight_of indexes = Err too_large.
Proof.
  intros Hnd H2 Hall. unfold smooth_weighted_slots.
  rewrite (collect_weights_spec _ _ _ _ _ H2 Hall) by (unfold MAX_SCHEDULE_SLOTS; lia). rewrite Z.add_0_l.
  destruct (Z.leb_spec (Zsum weights) MAX_SCHEDULE_SLOTS) as [Hle|Hgt]; [|done].
  pose proof (Forall2_length _ _ _ H2) as Hlen.
  assert (Forall (fun w => 0 < w) weights) as Hpos by (eapply Forall_impl; [done|]; simpl; lia).
  pose proof (length_le_total weights Hpos) as Hlt.
  cbn [result_bind fst snd]. unfold i64_try_from.
  rewrite small_in_i64 by (unfold MAX_SCHEDULE_SLOTS in *; lia). cbn [ok_or result_bind].
  destruct (decide (Zsum weights = 0)) as [Hz|Hz].
  { exists []. rewrite Hz. simpl. split; [done|]. assert (weights = []) as -> by (destruct weights; [done|simpl length in Hlt; lia]).
    split_and!; [done|set_solver|]. by intros. }
  rewrite <- (scores_nil weights (Zsum weights)).
  destruct (slot_rounds_spec overflow weights (Zsum weights) indexes (Z.to_nat (Zsum weights)) [] [])
    as (new & -> & Hnew & Hfair); [done|done|lia|done|by apply fair_nil; lia|].
  exists ((fun j => indexes !!! j) <$> new). simpl in *. split; [done|].
  assert (fair weights (Zsum weights) new) as Hf.
  { specialize (Hfair (length new)). by rewrite take_ge in Hfair. }
  assert (forall k, Forall (fun j => (j < length indexes)%nat) (take k new)) as Hin.
  { intros k. rewrite Hlen. apply (Hfair k). }
  unfold exact_cycle. rewrite length_fmap. split_and!; [lia| |].
  - intros slot Hs. apply list_elem_of_fmap in Hs as (j & -> & Hj). rewrite Hlen in Hin.
    destruct Hf as [Hf _]. rewrite Forall_forall in Hf. apply Hf in Hj.
    apply list_elem_of_lookup_2 with j. apply list_lookup_lookup_total_lt. lia.
  - intros i index w Hi Hw. apply lookup_lt_Some in Hi as Hil.
    apply list_lookup_total_correct in Hi. apply list_lookup_total_correct in Hw. subst index w. split.
    + rewrite count_indexes; [|done| |done].
      * fold (picks new i). apply fair_cycle_exact with (Zsum weights); try done; lia.
      * specialize (Hin (length new)). by rewrite take_ge in Hin.
    + intros k Hk. rewrite <- fmap_take, count_indexes; [|done|apply Hin|done].
      destruct (Hfair k) as [_ Hk']. specialize (Hk' i ltac:(lia)). unfold score, picks in Hk'.
      rewrite length_take_le in Hk' by lia. lia.
Qed.

(** ** Priority tiers

    [BTreeMap<i64, Vec<usize>>] filled with [.entry(priority).or_default().push(index)]
    and then consumed in ascending key order: an association list kept sorted. *)

Fixpoint tier_push (priority : Z) (index : nat) (tiers : list (Z * list nat)) : list (Z * list nat) :=
  match tiers with
  | [] => [(priority, [index])]
  | (p, indexes) :: rest =>
      if priority <? p then (priority, [index]) :: tiers
      else if priority =? p then (p, indexes ++ [index]) :: rest
      else (p, indexes) :: tier_push priority index rest
  end.

(** The tiers of a list of priorities, indexes counted from [start]. *)
Fixpoint push_all (start : nat) (priorities : list Z) (tiers : list (Z * list nat)) : list (Z * list nat) :=
  match priorities with
  | [] => tiers
  | p :: rest => push_all (S start) rest (tier_push p start tiers)
  end.

Fixpoint tier_get (priority : Z) (tiers : list (Z * list nat)) : option (list nat) :=
  match tiers with
  | [] => None
  | (p, indexes) :: rest => if priority =? p then Some indexes else tier_get priority rest
  end.

Definition tiers_sorted (tiers : list (Z * list nat)) : Prop :=
  StronglySorted Z.lt (fst <$> tiers).

(** The indexes that carry one priority, in order. *)
Definition tier_indexes (priorities : list Z) (priority : Z) : list nat :=
  filter (fun i => priorities !! i = Some priority) (seq 0 (length priorities)).

Lemma tier_get_below p tiers :
  Forall (fun q => p < q) (fst <$> tiers) -> tier_get p tiers = None.
Proof.
  induction tiers as [|[q indexes] tiers IH]; simpl; [done|]. intros [Hq Hall]%Forall_cons.
  destruct (Z.eqb_spec p q); [lia|auto].
Qed.

Lemma tier_push_keys p i tiers :
  Forall (fun q => q ∈ p :: (fst <$> tiers)) (fst <$> tier_push p i tiers).
Proof.
  apply Forall_forall. induction tiers as [|[q indexes] tiers IH]; simpl; [set_solver|].
  destruct (p <? q); [set_solver|]. destruct (p =? q); [set_solver|]. simpl. set_solver.
Qed.

Lemma tier_push_sorted p i tiers : tiers_sorted tiers -> tiers_sorted (tier_push p i tiers).
Proof.
  unfold tiers_sorted. induction tiers as [|[q indexes] tiers IH]; simpl; intros Hs; [by repeat constructor|].
  apply StronglySorted_inv in Hs as [Hs Hq].
  destruct (Z.ltb_spec p q); [|destruct (Z.eqb_spec p q)]; simpl.
  - constructor; [by constructor|]. constructor; [done|]. eapply Forall_impl; [done|]. simpl. lia.
  - by constructor.
  - constructor; [by apply IH|]. pose proof (tier_push_keys p i tiers) as Hk.
    rewrite Forall_forall in *. intros x Hx. apply Hk, elem_of_cons in Hx as [->|Hx]; [lia|auto].
Qed.

Lemma tier_push_get p i tiers q :
  tiers_sorted tiers ->
  tier_get q (tier_push p i tiers)
  = if decide (q = p) then Some (default [] (tier_get p tiers) ++ [i]) else tier_get q tiers.
Proof.
  unfold tiers_sorted. induction tiers as [|[r indexes] tiers IH]; simpl; intros Hs.
  { case_decide; subst; [by rewrite Z.eqb_refl|]. by destruct (Z.eqb_spec q p). }
  apply StronglySorted_inv in Hs as [Hs Hr].
  destruct (Z.ltb_spec p r); [|destruct (Z.eqb_spec p r)]; simpl.
  - rewrite (tier_get_below p tiers) by (eapply Forall_impl; [done|]; simpl; lia).
    destruct (Z.eqb_spec p r); [lia|]. simpl.
    case_decide; subst; [by rewrite Z.eqb_refl|]. by destruct (Z.eqb_spec q p).
  - subst. case_decide; subst; [by rewrite Z.eqb_refl|]. by destruct (Z.eqb_spec q r).
  - rewrite IH by done. case_decide; subst; [|done]. by destruct (Z.eqb_spec p r).
Qed.

Lemma tier_get_elem tiers p indexes :
  tiers_sorted tiers -> (p, indexes) ∈ tiers <-> tier_get p tiers = Some indexes.
Proof.
  unfold tiers_sorted. induction tiers as [|[q xs] tiers IH]; simpl; intros Hs; [set_solver|].
  apply StronglySorted_inv in Hs as [Hs Hq]. rewrite elem_of_cons. destruct (Z.eqb_spec p q) as [->|Hne].
  - split; [|intros; simplify_eq; by left]. intros [?|Hin]; [by simplify_eq|].
    rewrite Forall_forall in Hq. specialize (Hq q (list_elem_of_fmap_2 fst _ _ Hin)). lia.
  - rewrite <- IH by done. split; [|by right]. intros [?|?]; [|done]. by simplify_eq.
Qed.

Lemma tier_indexes_snoc priorities p q :
  tier_indexes (priorities ++ [p]) q
  = tier_indexes priorities q ++ (if decide (q = p) then [length priorities] else []).
Proof.
  unfold tier_indexes. rewrite length_app. simpl. rewrite Nat.add_1_r, seq_S, filter_app. simpl. f_equal.
  - apply filter_ext_elem. intros i Hi%elem_of_seq. by rewrite lookup_app_l by lia.
  - rewrite filter_cons. rewrite lookup_app_r, Nat.sub_diag by lia. simpl.
    rewrite filter_nil. repeat case_decide; simplify_eq; done.
Qed.

(** Pushing the priorities one by one groups their indexes by priority. *)
Lemma push_all_spec priorities :
  tiers_sorted (push_all 0 priorities [])
  /\ forall p, tier_get p (push_all 0 priorities [])
       = if decide (tier_indexes priorities p = []) then None else Some (tier_indexes priorities p).
Proof.
  assert (forall priorities' start tiers rest, push_all start (priorities' ++ rest) tiers
            = push_all (start + length priorities') rest (push_all start priorities' tiers)) as Happ.
  { induction priorities' as [|p ps IH]; intros start tiers rest; simpl; [by rewrite Nat.add_0_r|].
    rewrite IH. f_equal. lia. }
  induction priorities as [|p priorities [IHs IHg]] using rev_ind; [split; [constructor|done]|].
  rewrite Happ. simpl. split; [by apply tier_push_sorted|]. intros q.
  rewrite tier_push_get, !IHg by done. rewrite tier_indexes_snoc.
  destruct (decide (q = p)) as [->|Hne].
  - destruct (decide (tier_indexes priorities p = [])) as [->|Hn]; simpl; [done|].
    rewrite decide_False; [done|]. intros Hbad. by apply app_nil in Hbad as [_ ?].
  - by rewrite app_nil_r.
Qed.

Lemma tier_indexes_facts priorities p :
  NoDup (tier_indexes priorities p)
  /\ Forall (fun i => (i < length priorities)%nat) (tier_indexes priorities p).
Proof.
  unfold tier_indexes. split; [apply NoDup_filter, NoDup_seq|].
  apply Forall_forall. intros i Hi. apply list_elem_of_filter in Hi as [_ Hi%elem_of_seq]. lia.
Qed.

Lemma tier_indexes_nonempty priorities p : tier_indexes priorities p <> [] <-> p ∈ priorities.
Proof.
  rewrite list_elem_of_lookup. split.
  - destruct (tier_indexes priorities p) as [|i l] eqn:Hi; [done|]. intros _.
    assert (i ∈ tier_indexes priorities p) as Hin by (rewrite Hi; left).
    apply list_elem_of_filter in Hin as [Hin _]. by eexists.
  - intros [i Hi] Hn. assert (i ∈ tier_indexes priorities p) as Hin; [|rewrite Hn in Hin; by apply elem_of_nil in Hin].
    apply list_elem_of_filter. split; [done|]. apply elem_of_seq. apply lookup_lt_Some in Hi. lia.
Qed.

Lemma pushed_tiers priorities pi :
  pi ∈ push_all 0 priorities [] <-> pi.2 = tier_indexes priorities pi.1 /\ pi.2 <> [].
Proof.
  destruct (push_all_spec priorities) as [Hs Hg]. destruct pi as [p indexes]. simpl.
  rewrite tier_get_elem, Hg by done. case_decide as Hd; [|naive_solver].
  split; [done|]. intros [-> ?]. done.
Qed.

Lemma pushed_tiers_ok priorities n :
  length priorities = n ->
  Forall (fun pi => NoDup pi.2 /\ Forall (fun i => (i < n)%nat) pi.2) (push_all 0 priorities []).
Proof.
  intros <-. apply Forall_forall. intros pi Hpi. apply pushed_tiers in Hpi as [-> _].
  apply tier_indexes_facts.
Qed.

(** ** Rotation

    A cursor walks a compiled schedule cyclically. *)

(** [fetch_add(1)] on a cursor. *)
Definition bump (cursor : Z) : Z := usize_wrapping_add cursor 1.

(** The slot a scan from [start] visits at [offset]. *)
Definition rotated (slots : list nat) (start : Z) (offset : nat) : nat :=
  slots !!! Z.to_nat ((start + Z.of_nat offset) mod Z.of_nat (length slots)).

Lemma rotated_lookup slots start o :
  (0 < length slots)%nat ->
  slots !! Z.to_nat ((start + Z.of_nat o) mod Z.of_nat (length slots)) = Some (rotated slots start o).
Proof.
  intros Hl. apply list_lookup_lookup_total_lt.
  pose proof (Z.mod_pos_bound (start + Z.of_nat o) (Z.of_nat (length slots)) ltac:(lia)). lia.
Qed.

(** Without wrap-around a full rotation visits every slot. *)
Lemma rotation_covers slots start i :
  0 <= start -> i ∈ slots -> exists o, (o < length slots)%nat /\ rotated slots start o = i.
Proof.
  intros H0 Hin. apply list_elem_of_lookup in Hin as [j Hj]. apply lookup_lt_Some in Hj as Hlt.
  set (n := Z.of_nat (length slots)). assert (0 < n) as Hn by (unfold n; lia).
  pose proof (Z.mod_pos_bound (Z.of_nat j - start) n Hn) as Hb.
  exists (Z.to_nat ((Z.of_nat j - start) mod n)). split; [unfold n in *; lia|].
  unfold rotated. rewrite Z2Nat.id by lia. fold n.
  rewrite Z.add_mod_idemp_r by lia. replace (start + (Z.of_nat j - start)) with (Z.of_nat j) by lia.
  rewrite Z.mod_small by (unfold n; lia). rewrite Nat2Z.id. by apply list_lookup_total_correct.
Qed.

(** A full rotation is the schedule cut at the cursor. *)
Lemma rotation_cut slots start :
  0 <= start ->
  rotated slots start <$> seq 0 (length slots)
  = drop (Z.to_nat (start mod Z.of_nat (length slots))) slots
    ++ take (Z.to_nat (start mod Z.of_nat (length slots))) slots.
Proof.
  intros H0. destruct (decide (length slots = 0)%nat) as [Hz|Hz]; [apply nil_length_inv in Hz as ->; by rewrite drop_nil, take_nil|].
  set (n := Z.of_nat (length slots)). assert (0 < n) as Hn by (unfold n; lia).
  pose proof (Z.mod_pos_bound start n Hn) as Hd. set (d := start mod n) in *.
  apply list_eq. intros k. rewrite list_lookup_fmap.
  destruct (decide (k < length slots)%nat) as [Hk|Hk].
  2:{ rewrite (lookup_ge_None_2 (seq 0 _)) by (rewrite length_seq; lia). simpl. symmetry.
      apply lookup_ge_None_2. rewrite length_app, length_drop, length_take. lia. }
  rewrite lookup_seq_lt by done. simpl. rewrite <- rotated_lookup by lia. fold n.
  assert ((start + Z.of_nat k) mod n = (d + Z.of_nat k) mod n) as ->
    by (unfold d; by rewrite Z.add_mod_idemp_l by lia).
  destruct (decide (d + Z.of_nat k < n)) as [Hlt|Hge].
  - rewrite Z.mod_small by lia. rewrite lookup_app_l by (rewrite length_drop; unfold n in *; lia).
    rewrite lookup_drop. f_equal. lia.
  - rewrite (Z.mod_eq (d + Z.of_nat k) n) by lia.
    replace ((d + Z.of_nat k) / n) with 1 by (apply (Z.div_unique _ _ _ (d + Z.of_nat k - n)); unfold n in *; lia).
    rewrite lookup_app_r by (rewrite length_drop; unfold n in *; lia).
    rewrite length_drop, lookup_take_lt by (unfold n in *; lia). f_equal. unfold n in *. lia.
Qed.

Lemma rotation_perm slots start : 0 <= start -> rotated slots start <$> seq 0 (length slots) ≡ₚ slots.
Proof. intros H0. rewrite rotation_cut by done. rewrite Permutation_app_comm. by rewrite take_drop. Qed.

Lemma rotated_shift slots start k : rotated slots (start + Z.of_nat k) 0 = rotated slots start k.
Proof. unfold rotated. do 3 f_equal. lia. Qed.

(** A scan position, wrapped or not, is always inside a non-empty schedule. *)
Lemma scan_index_valid (slots : list nat) (x : Z) :
  slots <> [] -> is_Some (slots !! Z.to_nat (x mod Z.of_nat (length slots))).
Proof.
  intros Hne. apply lookup_lt_is_Some_2. assert (0 < length slots)%nat by (destruct slots; simpl; [done|lia]).
  pose proof (Z.mod_pos_bound x (Z.of_nat (length slots)) ltac:(lia)). lia.
Qed.
