(* ===== verification/CredentialPool.v ===== *)
(** * Endpoint credential pools

    Models [crates/gateway-upstream/src/credential_pool.rs]: construction of an
    Endpoint's pool (validation, identity order, priority tiers, smooth weighted
    schedules), selection of a lease by rotating cursors, the atomic acquire and
    release of concurrency slots as steps of interleaved threads, and the
    Endpoint-indexed set of pools.

    A pool is immutable but for its atomics: [PoolState] holds the tier cursors
    and the active lease count of each credential. *)

From S2P Require Import Prelude Core WeightedSchedule.
Local Open Scope string_scope.
Local Open Scope list_scope.
Local Open Scope Z_scope.

(** ** Data *)

Inductive CredentialPoolBuildError : Type :=
| EmptyCredentialPool
| EmptyCredentialSecret
| EmptyCredentialKind
| DuplicateCredential
| InvalidCredentialRevision
| InvalidCredentialPriority
| InvalidCredentialWeight
| InvalidCredentialConcurrency
| InvalidCredentialExpiry
| CredentialScheduleTooLarge
| InconsistentCredentialPool
| DuplicateEndpointPool.

(** [CredentialSecret]: non-empty bytes. *)
Record CredentialSecret : Type := mkSecret { as_bytes : list Byte.byte }.

Definition secret_try_new (value : list Byte.byte) : result CredentialPoolBuildError CredentialSecret :=
  match value with
  | [] => Err EmptyCredentialSecret
  | _ => Ok (mkSecret value)
  end.

Record EndpointCredentialInput : Type := mkInput {
  in_credential_id : CredentialId;
  in_credential_kind : string;
  in_credential_revision : Z;
  in_priority : Z;
  in_weight : Z;
  in_concurrency : Z;
  in_expires_at_ms : option Z;
  in_secret : CredentialSecret;
}.

Record CredentialSlot : Type := mkSlot {
  credential_id : CredentialId;
  credential_kind : string;
  credential_revision : Z;
  priority : Z;
  weight : Z;
  maximum_concurrency : Z;
  expires_at_ms : option Z;
  secret : CredentialSecret;
}.

Record CredentialPriorityTier : Type := mkTier {
  tier_priority : Z;
  slot_indexes : list nat;
}.

Record EndpointCredentialPool : Type := mkPool {
  pool_endpoint_id : EndpointId;
  credentials : list CredentialSlot;
  priority_tiers : list CredentialPriorityTier;
}.

(** The atomics: one cursor per tier, one active lease count per credential. *)
Record PoolState : Type := mkPoolState {
  cursors : list Z;
  active_leases : list Z;
}.

Record CredentialPoolEntrySnapshot : Type := mkEntrySnapshot {
  snap_credential_id : CredentialId;
  snap_priority : Z;
  snap_weight : Z;
  snap_maximum_concurrency : Z;
  snap_active_leases : Z;
}.

Definition is_saturated (s : CredentialPoolEntrySnapshot) : bool :=
  snap_maximum_concurrency s <=? snap_active_leases s.

(** ** Construction *)

Definition validate_entry (entry : EndpointCredentialInput) : result CredentialPoolBuildError unit :=
  if bool_decide (in_credential_kind entry = "") then Err EmptyCredentialKind
  else if in_credential_revision entry <? 0 then Err InvalidCredentialRevision
  else if in_priority entry <? 0 then Err InvalidCredentialPriority
  else if in_weight entry <=? 0 then Err InvalidCredentialWeight
  else if in_concurrency entry <=? 0 then Err InvalidCredentialConcurrency
  else match in_expires_at_ms entry with
       | Some expires => if expires <? 0 then Err InvalidCredentialExpiry else Ok tt
       | None => Ok tt
       end.

Definition input_leb (left right : EndpointCredentialInput) : bool :=
  id_leb (in_credential_id left) (in_credential_id right).

(** [u64::try_from] and [usize::try_from] on the validated fields. *)
Definition slot_of_input (entry : EndpointCredentialInput)
  : result CredentialPoolBuildError CredentialSlot :=
  let? revision := ok_or InvalidCredentialRevision (u64_try_from (in_credential_revision entry)) in
  let? w := ok_or InvalidCredentialWeight (u64_try_from (in_weight entry)) in
  let? concurrency := ok_or InvalidCredentialConcurrency (u64_try_from (in_concurrency entry)) in
  Ok (mkSlot (in_credential_id entry) (in_credential_kind entry) revision (in_priority entry) w
        concurrency (in_expires_at_ms entry) (in_secret entry)).

(** The loop over the sorted entries. *)
Fixpoint build_slots (entries : list EndpointCredentialInput) (previous_id : option CredentialId)
    (slots : list CredentialSlot) (by_priority : list (Z * list nat))
  : result CredentialPoolBuildError (list CredentialSlot * list (Z * list nat)) :=
  match entries with
  | [] => Ok (slots, by_priority)
  | entry :: rest =>
      let? _ := validate_entry entry in
      if bool_decide (previous_id = Some (in_credential_id entry)) then Err DuplicateCredential
      else
        let? slot := slot_of_input entry in
        build_slots rest (Some (in_credential_id entry)) (slots ++ [slot])
          (tier_push (in_priority entry) (length slots) by_priority)
  end.

(** [smooth_weighted_slots] of this file: checked arithmetic, and a missing slot
    reference is an error. *)
Definition credential_weighted_slots (slots : list CredentialSlot) (indexes : list nat)
  : result CredentialPoolBuildError (list nat) :=
  smooth_weighted_slots CredentialScheduleTooLarge (Err CredentialScheduleTooLarge)
    (fun index => ok_or InconsistentCredentialPool (weight <$> slots !! index)) indexes.

Fixpoint build_tiers (slots : list CredentialSlot) (by_priority : list (Z * list nat))
  : result CredentialPoolBuildError (list CredentialPriorityTier) :=
  match by_priority with
  | [] => Ok []
  | (p, indexes) :: rest =>
      let? s := credential_weighted_slots slots indexes in
      let? tiers := build_tiers slots rest in
      Ok (mkTier p s :: tiers)
  end.

Definition pool_try_new (endpoint : EndpointId) (entries : list EndpointCredentialInput)
  : result CredentialPoolBuildError (EndpointCredentialPool * PoolState) :=
  match entries with
  | [] => Err EmptyCredentialPool
  | _ =>
      let? built := build_slots (sort_by input_leb entries) None [] [] in
      let? tiers := build_tiers built.1 built.2 in
      Ok (mkPool endpoint built.1 tiers,
          mkPoolState (replicate (length tiers) 0) (replicate (length built.1) 0))
  end.

(** ** Selection *)

(** [try_acquire] without interference: the loop ends in its first iteration. *)
Definition acquire (cred : CredentialSlot) (active : Z) : option Z :=
  if maximum_concurrency cred <=? active then None else Some (active + 1).

Inductive Scan : Type :=
| ScanFound (index : nat) (active' : list Z)
| ScanNone
(** [credentials.get(..)?] returned from the whole function. *)
| ScanReturn
| ScanPanic.

(** [for offset in 0..slot_indexes.len()] *)
Fixpoint scan_slots (pool : EndpointCredentialPool) (is_eligible : CredentialSlot -> bool)
    (slots : list nat) (start : Z) (offsets : list nat) (active : list Z) : Scan :=
  match offsets with
  | [] => ScanNone
  | offset :: rest =>
      let slot_index := usize_wrapping_add start (Z.of_nat offset) mod Z.of_nat (length slots) in
      match slots !! Z.to_nat slot_index with
      | None => ScanPanic
      | Some index =>
          match credentials pool !! index, active !! index with
          | Some cred, Some n =>
              if negb (is_eligible cred) then scan_slots pool is_eligible slots start rest active
              else match acquire cred n with
                   | Some n' => ScanFound index (<[index := n']> active)
                   | None => scan_slots pool is_eligible slots start rest active
                   end
          | _, _ => ScanReturn
          end
      end
  end.

(** [for (tier, cursor) in tiers.zip(cursors)]: each visited tier's cursor moves. *)
Fixpoint scan_tiers (pool : EndpointCredentialPool) (is_eligible : CredentialSlot -> bool)
    (tiers : list CredentialPriorityTier) (curs : list Z) (active : list Z)
  : result unit (option nat) * (list Z * list Z) :=
  match tiers, curs with
  | tier :: tiers', cursor :: curs' =>
      let cursor' := usize_wrapping_add cursor 1 in
      let slots := slot_indexes tier in
      match scan_slots pool is_eligible slots cursor (seq 0 (length slots)) active with
      | ScanFound index active' => (Ok (Some index), (cursor' :: curs', active'))
      | ScanReturn => (Ok None, (cursor' :: curs', active))
      | ScanPanic => (Panic, (cursor' :: curs', active))
      | ScanNone =>
          match scan_tiers pool is_eligible tiers' curs' active with
          | (r, (curs'', active')) => (r, (cursor' :: curs'', active'))
          end
      end
  | _, _ => (Ok None, (curs, active))
  end.

(** The leased credential is returned as its index in the pool. *)
Definition try_lease_slots (pool : EndpointCredentialPool) (is_eligible : CredentialSlot -> bool)
  : M PoolState unit (option nat) :=
  fun st =>
    match scan_tiers pool is_eligible (priority_tiers pool) (cursors st) (active_leases st) with
    | (r, (curs, active)) => (r, mkPoolState curs active)
    end.

Definition try_lease_eligible (pool : EndpointCredentialPool) (is_eligible : CredentialId -> bool)
  : M PoolState unit (option nat) :=
  try_lease_slots pool (fun cred => is_eligible (credential_id cred)).

Definition try_lease (pool : EndpointCredentialPool) : M PoolState unit (option nat) :=
  try_lease_eligible pool (fun _ => true).

Definition unexpired_at (now_ms : Z) (cred : CredentialSlot) : bool :=
  match expires_at_ms cred with
  | None => true
  | Some expires => now_ms <? expires
  end.

Definition try_lease_eligible_at (pool : EndpointCredentialPool) (now_ms : Z)
    (is_eligible : CredentialId -> bool) : M PoolState unit (option nat) :=
  try_lease_slots pool (fun cred => unexpired_at now_ms cred && is_eligible (credential_id cred)).

(** [Drop for CredentialLease]: [fetch_sub(1)]. *)
Definition release_lease (index : nat) (st : PoolState) : PoolState :=
  mkPoolState (cursors st)
    (alter (fun n => (n - 1) mod usize_modulus) index (active_leases st)).

Definition entry_snapshot (cred : CredentialSlot) (active : Z) : CredentialPoolEntrySnapshot :=
  mkEntrySnapshot (credential_id cred) (priority cred) (weight cred) (maximum_concurrency cred) active.

Definition diagnostic_entries (pool : EndpointCredentialPool) (st : PoolState)
  : list CredentialPoolEntrySnapshot :=
  zip_with entry_snapshot (credentials pool) (active_leases st).

Definition active_lease_count (pool : EndpointCredentialPool) (st : PoolState) (id : CredentialId)
  : option Z :=
  snd <$> List.find (fun ca : CredentialSlot * Z => bool_decide (credential_id ca.1 = id))
            (zip (credentials pool) (active_leases st)).

Definition has_capacity (cred : CredentialSlot) (active : Z) : bool := active <? maximum_concurrency cred.

(** [peek_eligible_from]: the same scan from an explicit start, nothing reserved. *)
Fixpoint peek_slots (pool : EndpointCredentialPool) (is_eligible : CredentialId -> bool)
    (slots : list nat) (start : Z) (offsets : list nat) (active : list Z)
  : result unit (option (option CredentialPoolEntrySnapshot)) :=
  match offsets with
  | [] => Ok None
  | offset :: rest =>
      let slot_index := usize_wrapping_add start (Z.of_nat offset) mod Z.of_nat (length slots) in
      match slots !! Z.to_nat slot_index with
      | None => Panic
      | Some index =>
          match credentials pool !! index, active !! index with
          | Some cred, Some n =>
              if is_eligible (credential_id cred) && has_capacity cred n
              then Ok (Some (Some (entry_snapshot cred n)))
              else peek_slots pool is_eligible slots start rest active
          | _, _ => Ok (Some None)
          end
      end
  end.

Fixpoint peek_tiers (pool : EndpointCredentialPool) (is_eligible : CredentialId -> bool)
    (tiers : list CredentialPriorityTier) (start : Z) (active : list Z)
  : result unit (option CredentialPoolEntrySnapshot) :=
  match tiers with
  | [] => Ok None
  | tier :: rest =>
      let slots := slot_indexes tier in
      let? found := peek_slots pool is_eligible slots start (seq 0 (length slots)) active in
      match found with
      | Some answer => Ok answer
      | None => peek_tiers pool is_eligible rest start active
      end
  end.

Definition peek_eligible_from (pool : EndpointCredentialPool) (st : PoolState) (start : Z)
    (is_eligible : CredentialId -> bool) : result unit (option CredentialPoolEntrySnapshot) :=
  peek_tiers pool is_eligible (priority_tiers pool) start (active_leases st).

(** ** Pools *)

Abbreviation Pools := (gmap EndpointId EndpointCredentialPool).

Fixpoint pools_try_new (pools : list EndpointCredentialPool) (indexed : Pools)
  : result CredentialPoolBuildError Pools :=
  match pools with
  | [] => Ok indexed
  | pool :: rest =>
      match indexed !! pool_endpoint_id pool with
      | Some _ => Err DuplicateEndpointPool
      | None => pools_try_new rest (<[pool_endpoint_id pool := pool]> indexed)
      end
  end.

(** [merge]: fold the other set's entries in key order. *)
Fixpoint merge_entries (entries : list (EndpointId * EndpointCredentialPool)) (pools : Pools)
  : result CredentialPoolBuildError Pools :=
  match entries with
  | [] => Ok pools
  | (endpoint, pool) :: rest =>
      match pools !! endpoint with
      | Some _ => Err DuplicateEndpointPool
      | None => merge_entries rest (<[endpoint := pool]> pools)
      end
  end.

Definition merge (self other : Pools) : result CredentialPoolBuildError Pools :=
  merge_entries (map_to_list other) self.

(** ** Concurrent acquisition

    [try_acquire] at the granularity of its atomic operations, one credential,
    any number of threads. *)

Inductive LeaseThread : Type :=
| TIdle
(** [try_acquire] holding its last observation of [active_leases]. *)
| TObserved (observed : Z)
| THolding.

Record LeaseWorld : Type := mkWorld { w_active : Z; w_threads : list LeaseThread }.

Inductive lease_step (maximum : Z) : LeaseWorld -> LeaseWorld -> Prop :=
| StepLoad active threads i :
    threads !! i = Some TIdle ->
    lease_step maximum (mkWorld active threads) (mkWorld active (<[i := TObserved active]> threads))
| StepSaturated active threads i observed :
    threads !! i = Some (TObserved observed) -> maximum <= observed ->
    lease_step maximum (mkWorld active threads) (mkWorld active (<[i := TIdle]> threads))
(** [compare_exchange_weak] succeeds only on the observed value. *)
| StepAcquire active threads i :
    threads !! i = Some (TObserved active) -> active < maximum ->
    lease_step maximum (mkWorld active threads)
      (mkWorld ((active + 1) mod usize_modulus) (<[i := THolding]> threads))
(** It may fail on a changed value or spuriously. *)
| StepRetry active threads i observed :
    threads !! i = Some (TObserved observed) -> observed < maximum ->
    lease_step maximum (mkWorld active threads) (mkWorld active (<[i := TObserved active]> threads))
| StepRelease active threads i :
    threads !! i = Some THolding ->
    lease_step maximum (mkWorld active threads)
      (mkWorld ((active - 1) mod usize_modulus) (<[i := TIdle]> threads)).

Definition is_holding (t : LeaseThread) : bool := match t with THolding => true | _ => false end.
Definition holders (threads : list LeaseThread) : Z :=
  Z.of_nat (length (List.filter is_holding threads)).

(** ** Specification *)

(** Fields that are [i64] in the source. *)
Definition input_typed (e : EndpointCredentialInput) : Prop :=
  i64_ok (in_credential_revision e) /\ i64_ok (in_priority e) /\ i64_ok (in_weight e)
  /\ i64_ok (in_concurrency e) /\ (forall x, in_expires_at_ms e = Some x -> i64_ok x).

Definition entry_ok (e : EndpointCredentialInput) : Prop :=
  in_credential_kind e <> "" /\ 0 <= in_credential_revision e /\ 0 <= in_priority e
  /\ 0 < in_weight e /\ 0 < in_concurrency e /\ (forall x, in_expires_at_ms e = Some x -> 0 <= x).

Definition to_slot (e : EndpointCredentialInput) : CredentialSlot :=
  mkSlot (in_credential_id e) (in_credential_kind e) (in_credential_revision e) (in_priority e)
    (in_weight e) (in_concurrency e) (in_expires_at_ms e) (in_secret e).

Definition tier_weights (slots : list CredentialSlot) (indexes : list nat) : list Z :=
  (fun i => default 0 (weight <$> slots !! i)) <$> indexes.

(** The weight configured at one priority. *)
Definition tier_total (slots : list CredentialSlot) (p : Z) : Z :=
  Zsum (tier_weights slots (tier_indexes (priority <$> slots) p)).

(** No identity equals its predecessor. *)
Fixpoint no_repeat (previous : option CredentialId) (ids : list CredentialId) : Prop :=
  match ids with
  | [] => True
  | id :: rest => previous <> Some id /\ no_repeat (Some id) rest
  end.

(** Credential [i] could be leased now. *)
Definition can_lease (pool : EndpointCredentialPool) (is_eligible : CredentialSlot -> bool)
    (active : list Z) (i : nat) : Prop :=
  exists cred n, credentials pool !! i = Some cred /\ active !! i = Some n
    /\ is_eligible cred = true /\ n < maximum_concurrency cred.

Record pool_wf (pool : EndpointCredentialPool) (st : PoolState) : Prop := {
  wf_cursors : length (cursors st) = length (priority_tiers pool);
  wf_active : length (active_leases st) = length (credentials pool);
  wf_slots : Forall (fun tier => Forall (fun i => (i < length (credentials pool))%nat) (slot_indexes tier))
               (priority_tiers pool);
}.

(** A cursor whose scan does not cross the [usize] wrap-around. *)
Definition cursor_ok (tier : CredentialPriorityTier) (cursor : Z) : Prop :=
  0 <= cursor /\ cursor + Z.of_nat (length (slot_indexes tier)) <= usize_modulus.

Definition lease_inv (maximum : Z) (w : LeaseWorld) : Prop :=
  w_active w = holders (w_threads w) /\ w_active w <= maximum.

(** ** Lemmas: construction *)

Lemma validate_entry_ok e : validate_entry e = Ok tt <-> entry_ok e.
Proof.
  unfold validate_entry, entry_ok. case_bool_decide; [naive_solver|].
  destruct (Z.ltb_spec (in_credential_revision e) 0); [naive_solver lia|].
  destruct (Z.ltb_spec (in_priority e) 0); [naive_solver lia|].
  destruct (Z.leb_spec (in_weight e) 0); [naive_solver lia|].
  destruct (Z.leb_spec (in_concurrency e) 0); [naive_solver lia|].
  destruct (in_expires_at_ms e) as [x|]; [|naive_solver].
  destruct (Z.ltb_spec x 0); [|naive_solver].
  split; [done|]. intros (_ & _ & _ & _ & _ & Hx). specialize (Hx x eq_refl). lia.
Qed.

Lemma validate_entry_cases e : validate_entry e = Ok tt \/ exists err, validate_entry e = Err err.
Proof. unfold validate_entry. repeat case_match; eauto. Qed.

Lemma u64_of_nonneg z : 0 <= z -> i64_ok z -> u64_try_from z = Some z.
Proof.
  intros H0 [_ H1]. unfold u64_try_from, in_u64.
  destruct (Z.leb_spec 0 z), (Z.leb_spec z u64_max); simpl; try done; unfold u64_max, i64_max in *; lia.
Qed.

Lemma slot_of_input_ok e : input_typed e -> entry_ok e -> slot_of_input e = Ok (to_slot e).
Proof.
  intros (H1 & _ & H3 & H4 & _) (_ & ? & _ & ? & ? & _). unfold slot_of_input.
  by rewrite !u64_of_nonneg by (done || lia).
Qed.

Lemma build_slots_spec entries previous slots tiers :
  Forall input_typed entries ->
  (Forall entry_ok entries /\ no_repeat previous (in_credential_id <$> entries) ->
   build_slots entries previous slots tiers
   = Ok (slots ++ (to_slot <$> entries), push_all (length slots) (in_priority <$> entries) tiers))
  /\ (forall r, build_slots entries previous slots tiers = Ok r ->
      Forall entry_ok entries /\ no_repeat previous (in_credential_id <$> entries)).
Proof.
  intros Ht. revert previous slots tiers.
  induction Ht as [|e entries He Ht IH]; intros previous slots tiers; simpl.
  { split; [by rewrite app_nil_r|]. intros. split; [constructor|done]. }
  rewrite Forall_cons.
  destruct (validate_entry_cases e) as [Hv|[err Hv]]; rewrite Hv; simpl.
  2:{ split; [|done]. intros [[Hok _] _]. apply validate_entry_ok in Hok. congruence. }
  apply validate_entry_ok in Hv. case_bool_decide as Hp; [split; naive_solver|].
  rewrite slot_of_input_ok by done. simpl.
  destruct (IH (Some (in_credential_id e)) (slots ++ [to_slot e]) (tier_push (in_priority e) (length slots) tiers))
    as [IH1 IH2].
  split.
  - intros [[_ Hall] [_ Hn]]. rewrite IH1 by done. rewrite <- app_assoc, length_app. simpl.
    by rewrite Nat.add_1_r.
  - intros r Hr. destruct (IH2 r Hr). split; [by constructor|done].
Qed.

Lemma build_slots_no_panic entries previous slots tiers : build_slots entries previous slots tiers <> Panic.
Proof.
  revert previous slots tiers. induction entries as [|e entries IH]; intros previous slots tiers; [done|]. simpl.
  destruct (validate_entry_cases e) as [->|[err ->]]; simpl; [|done]. case_bool_decide; [done|].
  apply bind_no_panic; [|intros; apply IH]. unfold slot_of_input.
  repeat (apply bind_no_panic; [apply ok_or_no_panic|intros]). done.
Qed.

Lemma sorted_no_repeat_nodup (ids : list CredentialId) previous :
  StronglySorted (fun a b => id_leb a b = true) ids -> no_repeat previous ids -> NoDup ids.
Proof.
  intros Hs. revert previous. induction Hs as [|x ids Hs IH Hx]; intros previous Hn; [constructor|].
  destruct Hn as [_ Hn].   constructor; [|by eapply IH]. intros Hin. destruct ids as [|y ids]; [by apply elem_of_nil in Hin|].
  destruct Hn as [Hne _]. apply Hne. f_equal. apply Forall_cons in Hx as [Hxy _].
  apply StronglySorted_inv in Hs as [_ Hy]. apply elem_of_cons in Hin as [->|Hin]; [done|].
  rewrite Forall_forall in Hy. apply id_leb_antisym; auto.
Qed.

Lemma nodup_no_repeat (ids : list CredentialId) previous :
  NoDup ids -> (forall id, previous = Some id -> id ∉ ids) -> no_repeat previous ids.
Proof.
  revert previous. induction ids as [|x ids IH]; intros previous Hnd Hp; simpl; [done|].
  apply NoDup_cons in Hnd as [Hx Hnd]. split.
  - intros ->. apply (Hp x eq_refl). left.
  - apply IH; [done|]. intros id ?. by simplify_eq.
Qed.

Lemma sorted_inputs entries :
  StronglySorted (fun a b => id_leb a b = true) (in_credential_id <$> sort_by input_leb entries).
Proof.
  assert (StronglySorted (fun a b => input_leb a b = true) (sort_by input_leb entries)) as Hs.
  { apply sort_by_sorted; intros *; [apply id_leb_total|apply id_leb_trans]. }
  induction Hs as [|x l Hs IH Hx]; simpl; constructor; [done|]. by apply Forall_fmap.
Qed.

Lemma no_repeat_sorted_iff entries :
  no_repeat None (in_credential_id <$> sort_by input_leb entries)
  <-> NoDup (in_credential_id <$> entries).
Proof.
  assert (in_credential_id <$> sort_by input_leb entries ≡ₚ in_credential_id <$> entries) as Hp.
  { by rewrite sort_by_perm. }
  rewrite <- Hp. split.
  - by apply sorted_no_repeat_nodup, sorted_inputs.
  - intros Hnd. by apply nodup_no_repeat.
Qed.

Lemma credential_weights_of slots indexes :
  Forall (fun i => (i < length slots)%nat) indexes ->
  Forall2 (fun i w => ok_or InconsistentCredentialPool (weight <$> slots !! i) = Ok w)
    indexes (tier_weights slots indexes).
Proof.
  induction 1 as [|i indexes Hi Hall IH]; [constructor|]. unfold tier_weights. rewrite fmap_cons.
  constructor; [|done]. destruct (slots !! i) eqn:Hs; [done|].
  apply lookup_ge_None in Hs. lia.
Qed.

Lemma tier_weights_bounds slots indexes :
  Forall (fun s => 0 < weight s <= i64_max) slots -> Forall (fun i => (i < length slots)%nat) indexes ->
  Forall (fun w => 0 < w <= i64_max) (tier_weights slots indexes).
Proof.
  intros Hs. induction 1 as [|i indexes Hi Hall IH]; [constructor|]. unfold tier_weights. rewrite fmap_cons.
  constructor; [|done]. destruct (lookup_lt_is_Some_2 _ _ Hi) as [s Hsi]. rewrite Hsi.
  rewrite Forall_lookup in Hs. by apply (Hs i).
Qed.

(** Each tier of [by_priority] compiles to its exact cycle, unless its total
    weight is too large. *)
Lemma build_tiers_decides slots by_priority :
  Forall (fun s => 0 < weight s <= i64_max) slots ->
  Forall (fun pi => NoDup pi.2 /\ Forall (fun i => (i < length slots)%nat) pi.2) by_priority ->
  decides (build_tiers slots by_priority)
    (Forall (fun pi => Zsum (tier_weights slots pi.2) <= MAX_SCHEDULE_SLOTS) by_priority)
    (Forall2 (fun pi tier => tier_priority tier = pi.1
       /\ exact_cycle pi.2 (tier_weights slots pi.2) (slot_indexes tier)) by_priority).
Proof.
  intros Hs. induction 1 as [|[p indexes] rest [Hnd Hin] Hall IH]; simpl in *; [by split; constructor|].
  pose proof (smooth_weighted_spec CredentialScheduleTooLarge (Err CredentialScheduleTooLarge)
    _ indexes _ Hnd (credential_weights_of slots indexes Hin) (tier_weights_bounds slots indexes Hs Hin)) as Hw.
  fold (credential_weighted_slots slots indexes) in Hw.
  destruct (Z.leb_spec (Zsum (tier_weights slots indexes)) MAX_SCHEDULE_SLOTS) as [Hle|Hgt].
  - destruct Hw as (s & -> & Hex). simpl. destruct (build_tiers slots rest) as [tiers|e|]; simpl in *; [|by intros [_ ?]%Forall_cons|done].
    destruct IH as [IH1 IH2]. split; by constructor.
  - rewrite Hw. simpl. intros [? _]%Forall_cons. simpl in *. lia.
Qed.

Definition inputs_ok (entries : list EndpointCredentialInput) : Prop :=
  entries <> [] /\ Forall entry_ok entries /\ NoDup (in_credential_id <$> entries)
  /\ forall p, tier_total (to_slot <$> sort_by input_leb entries) p <= MAX_SCHEDULE_SLOTS.

(** What a built pool looks like. *)
Record built_from (endpoint : EndpointId) (entries : list EndpointCredentialInput)
    (pool : EndpointCredentialPool) (st : PoolState) : Prop := {
  built_endpoint : pool_endpoint_id pool = endpoint;
  built_credentials : credentials pool = to_slot <$> sort_by input_leb entries;
  built_ids : StronglySorted (fun a b => id_leb a b = true /\ a <> b) (credential_id <$> credentials pool);
  built_tiers : StronglySorted Z.lt (tier_priority <$> priority_tiers pool);
  built_cover : forall p, (exists s, s ∈ credentials pool /\ priority s = p)
                          <-> p ∈ (tier_priority <$> priority_tiers pool);
  built_cycles : Forall (fun tier =>
      let indexes := tier_indexes (priority <$> credentials pool) (tier_priority tier) in
      exact_cycle indexes (tier_weights (credentials pool) indexes) (slot_indexes tier))
    (priority_tiers pool);
  built_state : st = mkPoolState (replicate (length (priority_tiers pool)) 0)
                       (replicate (length (credentials pool)) 0);
}.

Lemma pool_try_new_unfold endpoint entries :
  pool_try_new endpoint entries =
  if decide (entries = []) then Err EmptyCredentialPool
  else
    let? built := build_slots (sort_by input_leb entries) None [] [] in
    let? tiers := build_tiers built.1 built.2 in
    Ok (mkPool endpoint built.1 tiers,
        mkPoolState (replicate (length tiers) 0) (replicate (length built.1) 0)).
Proof. by destruct entries. Qed.

Lemma fst_tiers_fmap by_priority tiers (R : Z * list nat -> CredentialPriorityTier -> Prop) :
  (forall pi tier, R pi tier -> tier_priority tier = pi.1) ->
  Forall2 R by_priority tiers -> tier_priority <$> tiers = fst <$> by_priority.
Proof. intros HR. induction 1; [done|]. rewrite !fmap_cons. f_equal; auto. Qed.

Lemma slots_weights entries :
  Forall input_typed entries -> Forall entry_ok entries ->
  Forall (fun s => 0 < weight s <= i64_max) (to_slot <$> entries).
Proof.
  intros Ht Ho. apply Forall_fmap, Forall_forall. intros e He. simpl.
  rewrite Forall_forall in Ht, Ho. destruct (Ht e He) as (_ & _ & [_ ?] & _).
  destruct (Ho e He) as (_ & _ & _ & ? & _). lia.
Qed.

Lemma slots_priorities (entries : list EndpointCredentialInput) :
  priority <$> (to_slot <$> entries) = in_priority <$> entries.
Proof. by rewrite <- list_fmap_compose. Qed.

Lemma strict_ids (ids : list CredentialId) :
  StronglySorted (fun a b => id_leb a b = true) ids -> NoDup ids ->
  StronglySorted (fun a b => id_leb a b = true /\ a <> b) ids.
Proof.
  induction 1 as [|x ids Hs IH Hx]; intros Hnd; [constructor|]. apply NoDup_cons in Hnd as [Hni Hnd].
  constructor; [by apply IH|]. rewrite Forall_forall in *. intros y Hy. split; [auto|]. by intros ->.
Qed.

Lemma built_from_intro endpoint entries tiers :
  let l := sort_by input_leb entries in
  let slots := to_slot <$> l in
  NoDup (in_credential_id <$> entries) ->
  Forall2 (fun pi tier => tier_priority tier = pi.1
      /\ exact_cycle pi.2 (tier_weights slots pi.2) (slot_indexes tier))
    (push_all 0 (in_priority <$> l) []) tiers ->
  built_from endpoint entries (mkPool endpoint slots tiers)
    (mkPoolState (replicate (length tiers) 0) (replicate (length slots) 0)).
Proof.
  intros l slots Hnd H2. destruct (push_all_spec (in_priority <$> l)) as [Hsorted _].
  assert (tier_priority <$> tiers = fst <$> push_all 0 (in_priority <$> l) []) as Hkeys.
  { eapply fst_tiers_fmap; [|exact H2]. by intros pi tier []. }
  split; cbn [pool_endpoint_id credentials priority_tiers]; try done.
  - assert (credential_id <$> slots = in_credential_id <$> l) as ->.
    { unfold slots. by rewrite <- list_fmap_compose. }
    apply strict_ids; [apply sorted_inputs|]. unfold l. by rewrite sort_by_perm.
  - by rewrite Hkeys.
  - intros p. rewrite Hkeys. rewrite list_elem_of_fmap. setoid_rewrite pushed_tiers.
    assert ((exists s, s ∈ slots /\ priority s = p) <-> p ∈ (in_priority <$> l)) as ->.
    { rewrite <- slots_priorities. fold slots. rewrite list_elem_of_fmap. naive_solver. }
    rewrite <- tier_indexes_nonempty. split.
    + intros Hne. exists (p, tier_indexes (in_priority <$> l) p). done.
    + intros ([q xs] & -> & -> & Hne). done.
  - apply Forall_forall. intros tier Hin. apply list_elem_of_lookup in Hin as [k Hk].
    destruct (Forall2_lookup_r _ _ _ _ _ H2 Hk) as (pi & Hpi & Hp & Hex).
    apply list_elem_of_lookup_2, pushed_tiers in Hpi as [He _].
    cbv zeta. unfold slots. rewrite slots_priorities. fold slots. rewrite Hp, <- He. exact Hex.
Qed.

Lemma pool_try_new_decides endpoint entries :
  Forall input_typed entries ->
  decides (pool_try_new endpoint entries) (inputs_ok entries) (fun r => built_from endpoint entries r.1 r.2).
Proof.
  intros Ht. rewrite pool_try_new_unfold. set (l := sort_by input_leb entries).
  assert (Forall input_typed l) as Htl by (unfold l; by rewrite sort_by_perm).
  destruct (build_slots_spec l None [] [] Htl) as [Hb1 Hb2].
  assert ((Forall entry_ok l /\ no_repeat None (in_credential_id <$> l))
          <-> Forall entry_ok entries /\ NoDup (in_credential_id <$> entries)) as Hiff.
  { unfold l. by rewrite no_repeat_sorted_iff, sort_by_perm. }
  set (slots := to_slot <$> l) in *. set (tiers := push_all 0 (in_priority <$> l) []) in *.
  assert (Forall entry_ok entries ->
    (forall p, tier_total slots p <= MAX_SCHEDULE_SLOTS)
    <-> Forall (fun pi => Zsum (tier_weights slots pi.2) <= MAX_SCHEDULE_SLOTS) tiers) as Htot.
  { intros Ho. unfold tier_total, slots. rewrite slots_priorities. fold slots. rewrite Forall_forall. split.
    - intros Hp [p xs] Hpi. apply pushed_tiers in Hpi as [-> _]. apply Hp.
    - intros Hall p. destruct (decide (tier_indexes (in_priority <$> l) p = [])) as [->|Hne]; [done|].
      apply (Hall (p, tier_indexes (in_priority <$> l) p)). apply pushed_tiers. done. }
  assert (Forall entry_ok entries -> Forall (fun s => 0 < weight s <= i64_max) slots) as Hws.
  { intros Ho. apply slots_weights; [done|]. unfold l. by rewrite sort_by_perm. }
  assert (Forall (fun pi => NoDup pi.2 /\ Forall (fun i => (i < length slots)%nat) pi.2) tiers) as Hti.
  { apply pushed_tiers_ok. unfold slots. by rewrite !length_fmap. }
  case_decide as Hne; [by intros [? _]|]. destruct (build_slots l None [] []) as [b|e|] eqn:Hb; simpl.
  2:{ intros (_ & Ho & Hnd & _). by specialize (Hb1 (proj2 Hiff (conj Ho Hnd))). }
  2:{ by apply build_slots_no_panic in Hb. }
  destruct (proj1 Hiff (Hb2 _ eq_refl)) as [Ho Hnd].
  pose proof (Hb1 (proj2 Hiff (conj Ho Hnd))) as Hbe. injection Hbe as ->. cbn [app fst snd].
  change (build_tiers _ _) with (build_tiers slots tiers).
  pose proof (build_tiers_decides slots tiers (Hws Ho) Hti) as Hbt. destruct (build_tiers slots tiers) as [ts|e|]; simpl in *; [| |done].
  - destruct Hbt as [Hall H2]. split; [|by apply built_from_intro].
    split; [done|]. split; [done|]. split; [done|]. by apply Htot.
  - intros (_ & _ & _ & Hw). apply Hbt. by apply Htot.
Qed.

Lemma pool_try_new_spec endpoint entries :
  Forall input_typed entries ->
  (inputs_ok entries ->
   exists pool st, pool_try_new endpoint entries = Ok (pool, st) /\ built_from endpoint entries pool st)
  /\ (forall r, pool_try_new endpoint entries = Ok r -> inputs_ok entries).
Proof.
  intros Ht. pose proof (pool_try_new_decides endpoint entries Ht) as Hd.
  destruct (pool_try_new endpoint entries) as [[pool st]|e|]; simpl in Hd; [|done..].
  destruct Hd as [Hok Hb]. split; [by exists pool, st|done].
Qed.

(** ** Lemmas: selection *)

(** Tier [k], offset [o] is where the search stops: nothing before it, in an
    earlier tier or at a smaller offset, can be leased. *)
Record lease_choice (pool : EndpointCredentialPool) (is_eligible : CredentialSlot -> bool)
    (tiers : list CredentialPriorityTier) (curs active : list Z) (k o i : nat) : Prop := {
  choice_tier : exists tier cursor, tiers !! k = Some tier /\ curs !! k = Some cursor
    /\ (o < length (slot_indexes tier))%nat /\ rotated (slot_indexes tier) cursor o = i
    /\ (forall o', (o' < o)%nat ->
         ~ can_lease pool is_eligible active (rotated (slot_indexes tier) cursor o'));
  choice_free : can_lease pool is_eligible active i;
  choice_first : forall k' tier i', (k' < k)%nat -> tiers !! k' = Some tier -> i' ∈ slot_indexes tier ->
    ~ can_lease pool is_eligible active i';
}.

Lemma acquire_spec cred n :
  acquire cred n = if n <? maximum_concurrency cred then Some (n + 1) else None.
Proof. unfold acquire. rewrite Z.ltb_antisym. by destruct (_ <=? _). Qed.

Lemma scan_slots_spec pool is_eligible slots start active k m :
  length active = length (credentials pool) ->
  Forall (fun i => (i < length (credentials pool))%nat) slots -> (0 < length slots)%nat ->
  0 <= start -> start + Z.of_nat (k + m) <= usize_modulus ->
  (exists o n, (k <= o < k + m)%nat /\ can_lease pool is_eligible active (rotated slots start o)
     /\ active !! rotated slots start o = Some n
     /\ scan_slots pool is_eligible slots start (seq k m) active
        = ScanFound (rotated slots start o) (<[rotated slots start o := n + 1]> active)
     /\ (forall o', (k <= o' < o)%nat -> ~ can_lease pool is_eligible active (rotated slots start o')))
  \/ (scan_slots pool is_eligible slots start (seq k m) active = ScanNone
      /\ (forall o', (k <= o' < k + m)%nat -> ~ can_lease pool is_eligible active (rotated slots start o'))).
Proof.
  intros Hact Hall Hlen H0. revert k. induction m as [|m IH]; intros k Hbound; simpl.
  { right. split; [done|]. lia. }
  assert (usize_wrapping_add start (Z.of_nat k) = start + Z.of_nat k) as ->
    by (unfold usize_wrapping_add; rewrite Z.mod_small; lia).
  rewrite rotated_lookup by done. set (i := rotated slots start k).
  assert (i < length (credentials pool))%nat as Hi.
  { pose proof (rotated_lookup slots start k Hlen) as Hr. rewrite Forall_lookup in Hall. by eapply Hall. }
  destruct (lookup_lt_is_Some_2 _ _ Hi) as [cred Hcred]. rewrite Hcred.
  destruct (lookup_lt_is_Some_2 active i ltac:(lia)) as [n Hn]. rewrite Hn, acquire_spec.
  destruct (is_eligible cred && (n <? maximum_concurrency cred)) eqn:Hfree.
  - apply andb_true_iff in Hfree as [Hel Hlt]. rewrite Hel, Hlt. left. exists k, n. bool_simp.
    split_and!; [lia|lia|by exists cred, n|done|done|lia].
  - assert (~ can_lease pool is_eligible active i) as Hno.
    { intros (cred' & n' & Hc & Hn' & Hel & Hlt). simplify_eq. rewrite Hel in Hfree. simpl in Hfree.
      bool_simp. lia. }
    destruct (IH (S k) ltac:(lia)) as [(o & n' & Ho & Hcl & Ha & Hscan & Hbefore)|[Hscan Hnone]];
      [left; exists o, n'; split_and!; [lia|lia|done|done| |]|right; split].
    + destruct (is_eligible cred); simpl in *; [by rewrite Hfree|done].
    + intros o' Ho'. destruct (decide (o' = k)) as [->|]; [done|]. apply Hbefore. lia.
    + destruct (is_eligible cred); simpl in *; [by rewrite Hfree|done].
    + intros o' Ho'. destruct (decide (o' = k)) as [->|]; [done|]. apply Hnone. lia.
Qed.

Lemma scan_tiers_spec pool is_eligible tiers curs active :
  length active = length (credentials pool) ->
  Forall (fun tier => Forall (fun i => (i < length (credentials pool))%nat) (slot_indexes tier)) tiers ->
  Forall2 cursor_ok tiers curs ->
  (exists k o i n, lease_choice pool is_eligible tiers curs active k o i /\ active !! i = Some n
     /\ scan_tiers pool is_eligible tiers curs active
        = (Ok (Some i), ((bump <$> take (S k) curs) ++ drop (S k) curs, <[i := n + 1]> active)))
  \/ (scan_tiers pool is_eligible tiers curs active = (Ok None, (bump <$> curs, active))
      /\ forall tier i, tier ∈ tiers -> i ∈ slot_indexes tier -> ~ can_lease pool is_eligible active i).
Proof.
  intros Hact Hall H2. induction H2 as [|tier cursor tiers curs [H0 Hb] H2 IH]; simpl.
  { right. split; [done|]. intros tier i Ht. by apply elem_of_nil in Ht. }
  apply Forall_cons in Hall as [Htier Hall].
  assert ((exists o n, (o < length (slot_indexes tier))%nat
      /\ can_lease pool is_eligible active (rotated (slot_indexes tier) cursor o)
      /\ active !! rotated (slot_indexes tier) cursor o = Some n
      /\ scan_slots pool is_eligible (slot_indexes tier) cursor (seq 0 (length (slot_indexes tier))) active
         = ScanFound (rotated (slot_indexes tier) cursor o) (<[rotated (slot_indexes tier) cursor o := n + 1]> active)
      /\ (forall o', (o' < o)%nat -> ~ can_lease pool is_eligible active (rotated (slot_indexes tier) cursor o')))
    \/ (scan_slots pool is_eligible (slot_indexes tier) cursor (seq 0 (length (slot_indexes tier))) active = ScanNone
        /\ forall i, i ∈ slot_indexes tier -> ~ can_lease pool is_eligible active i))
    as [(o & n & Ho & Hcl & Hn & Hscan & Hbefore)|[Hscan Hnone]].
  { destruct (decide (length (slot_indexes tier) = 0)%nat) as [Hz|Hz].
    { right. rewrite Hz. split; [done|]. apply nil_length_inv in Hz as ->. intros i Hi. by apply elem_of_nil in Hi. }
    destruct (scan_slots_spec pool is_eligible (slot_indexes tier) cursor active 0 (length (slot_indexes tier)))
      as [(o & n & Ho & Hcl & Hn & Hscan & Hbefore)|[Hscan Hnone]]; [done|done|lia|done|simpl; lia| |].
    - left. exists o, n. split_and!; [lia|done..|]. intros o' ?. apply Hbefore. lia.
    - right. split; [done|]. intros i Hi. destruct (rotation_covers _ cursor i H0 Hi) as (o & Ho & <-).
      apply Hnone. lia. }
  - left. exists 0%nat, o, (rotated (slot_indexes tier) cursor o), n. rewrite Hscan.
    split_and!; [|done|by simpl; rewrite drop_0]. split; [|done|lia]. exists tier, cursor. done.
  - rewrite Hscan. destruct (IH Hall) as [(k & o & i & n & [Hc Hcl Hfirst] & Hn & ->)|[-> Hn]].
    + left. exists (S k), o, i, n. split_and!; [|done|done]. split; [done|done|].
      intros [|k'] tier' i' Hk Ht Hi'; simpl in Ht; [simplify_eq; auto|]. eapply Hfirst; [|done..]. lia.
    + right. split; [done|]. intros tier' i [->|Ht]%elem_of_cons Hi; eauto.
Qed.

(** Whatever the cursors are, what a search hands out could be leased, and only
    its count moves. *)
Lemma scan_slots_sound pool is_eligible slots start offsets active i active' :
  scan_slots pool is_eligible slots start offsets active = ScanFound i active' ->
  can_lease pool is_eligible active i
  /\ exists n, active !! i = Some n /\ active' = <[i := n + 1]> active.
Proof.
  induction offsets as [|o offsets IH]; simpl; [done|]. intros H.
  destruct (slots !! _) as [j|]; [|done].
  destruct (credentials pool !! j) as [cred|] eqn:Hc; [|done]. destruct (active !! j) as [n|] eqn:Hn; [|done].
  rewrite acquire_spec in H. destruct (is_eligible cred) eqn:He; simpl in H; [|auto].
  destruct (Z.ltb_spec n (maximum_concurrency cred)); [|auto]. simplify_eq. split; [by exists cred, n|eauto].
Qed.

Lemma try_lease_slots_sound pool is_eligible st :
  match try_lease_slots pool is_eligible st with
  | (Ok (Some i), st') =>
      can_lease pool is_eligible (active_leases st) i
      /\ exists n, active_leases st !! i = Some n /\ active_leases st' = <[i := n + 1]> (active_leases st)
  | (_, st') => active_leases st' = active_leases st
  end.
Proof.
  unfold try_lease_slots. generalize (priority_tiers pool), (cursors st), (active_leases st). clear st.
  intros tiers. induction tiers as [|tier tiers IH]; intros curs active; simpl; [done|].
  destruct curs as [|cursor curs]; simpl; [done|].
  destruct (scan_slots _ _ _ _ _ _) as [i active'| | |] eqn:Hs; simpl; [|clear Hs|done|done].
  - by apply scan_slots_sound in Hs.
  - specialize (IH curs active). by destruct (scan_tiers _ _ _ _ _) as [[[]|e|] [? ?]].
Qed.

(** The search never indexes out of range, whatever the cursors are. *)
Lemma scan_slots_no_panic pool is_eligible slots start offsets active :
  slots <> [] -> scan_slots pool is_eligible slots start offsets active <> ScanPanic.
Proof.
  intros Hne. induction offsets as [|o offsets IH]; simpl; [done|].
  destruct (scan_index_valid slots (usize_wrapping_add start (Z.of_nat o)) Hne) as [i ->].
  by repeat case_match.
Qed.

Lemma try_lease_no_panic pool is_eligible st : exists o, (try_lease_slots pool is_eligible st).1 = Ok o.
Proof.
  unfold try_lease_slots. generalize (priority_tiers pool), (cursors st), (active_leases st). clear st.
  intros tiers. induction tiers as [|tier tiers IH]; intros curs active; cbn [scan_tiers]; [by eexists|].
  destruct curs as [|cursor curs]; [by eexists|].
  assert (scan_slots pool is_eligible (slot_indexes tier) cursor (seq 0 (length (slot_indexes tier))) active <> ScanPanic) as Hnp.
  { destruct (decide (slot_indexes tier = [])) as [->|Hne]; [done|by apply scan_slots_no_panic]. }
  destruct (scan_slots _ _ _ _ _ _); [by eexists| |by eexists|done].
  specialize (IH curs active). by destruct (scan_tiers _ _ _ _ _) as [r [? ?]].
Qed.

(** ** Lemmas: concurrency *)

Lemma holders_insert threads i t t' :
  threads !! i = Some t ->
  holders (<[i := t']> threads)
  = holders threads - (if is_holding t then 1 else 0) + (if is_holding t' then 1 else 0).
Proof.
  unfold holders. revert i. induction threads as [|u threads IH]; intros [|i] Hi; simpl in *; [done|done| |].
  - simplify_eq. destruct (is_holding t), (is_holding t'); simpl; lia.
  - specialize (IH i Hi). destruct (is_holding u); simpl; lia.
Qed.

Lemma holders_nonneg threads : 0 <= holders threads.
Proof. unfold holders. lia. Qed.

Lemma holders_held threads i : threads !! i = Some THolding -> 0 < holders threads.
Proof.
  intros Hi. pose proof (holders_insert threads i THolding TIdle Hi) as Hh. simpl in Hh.
  pose proof (holders_nonneg (<[i := TIdle]> threads)). lia.
Qed.

Lemma lease_step_inv maximum w w' :
  0 < maximum < usize_modulus -> lease_inv maximum w -> lease_step maximum w w' -> lease_inv maximum w'.
Proof.
  intros Hm [Ha Hle] Hs. pose proof (holders_nonneg (w_threads w)).
  destruct Hs; simpl in *; unfold lease_inv; simpl;
    match goal with H : _ !! _ = Some _ |- _ => rewrite (holders_insert _ _ _ _ H) end; simpl; try lia.
  - rewrite Z.mod_small by lia. lia.
  - match goal with H : _ !! _ = Some THolding |- _ => apply holders_held in H end.
    rewrite Z.mod_small by lia. lia.
Qed.

Lemma merge_entries_spec entries pools :
  NoDup (fst <$> entries) ->
  merge_entries entries pools
  = if decide (Forall (fun kv => pools !! kv.1 = None) entries)
    then Ok (list_to_map entries ∪ pools) else Err DuplicateEndpointPool.
Proof.
  revert pools. induction entries as [|[k p] entries IH]; intros pools Hnd; cbn [merge_entries].
  { rewrite decide_True by done. simpl. by rewrite (left_id_L ∅ (∪)). }
  apply NoDup_cons in Hnd as [Hk Hnd]. destruct (pools !! k) as [q|] eqn:Hq.
  - rewrite decide_False; [done|]. intros [Hbad _]%Forall_cons. simpl in Hbad. congruence.
  - rewrite IH by done.
    assert (Forall (fun kv : EndpointId * EndpointCredentialPool => <[k:=p]> pools !! kv.1 = None) entries
            <-> Forall (fun kv => pools !! kv.1 = None) ((k, p) :: entries)) as Hiff.
    { rewrite Forall_cons, !Forall_forall. simpl. split.
      - intros Hf. split; [done|]. intros kv Hkv. specialize (Hf kv Hkv).
        by apply lookup_insert_None in Hf as [? _].
      - intros [_ Hf] kv Hkv. rewrite lookup_insert_ne; [by apply Hf|]. simpl. intros Heq.
        apply Hk. simpl. rewrite Heq. by apply (list_elem_of_fmap_2 fst). }
    destruct (decide (Forall _ entries)) as [Hf|Hf], (decide (Forall _ ((k, p) :: entries))) as [Hf'|Hf'];
      try tauto. f_equal. simpl.
    rewrite <- insert_union_r by (by apply not_elem_of_list_to_map_1). by rewrite insert_union_l.
Qed.

(** ** Properties *)

(** [EndpointCredentialPool::try_new] succeeds exactly on non-empty inputs
    whose entries are individually valid, carry distinct credential ids, and at
    every priority have a total weight of at most 1024; the order in which the
    control plane lists the entries does not matter. *)
Lemma pool_try_new_accepts_iff endpoint entries :
  Forall input_typed entries ->
  (exists pool st, pool_try_new endpoint entries = Ok (pool, st)) <-> inputs_ok entries.
Proof.
  intros Ht. destruct (pool_try_new_spec endpoint entries Ht) as [H1 H2]. split.
  - intros (pool & st & Hp). by eapply H2.
  - intros Hi. destruct (H1 Hi) as (pool & st & Hp & _). eauto.
Qed.

(** A constructed pool holds the entries in strictly increasing credential-id
    order, has its tiers in strictly increasing priority with exactly the
    priorities of its credentials, and each tier's schedule is an exact smooth
    weighted cycle: every credential of the tier occurs exactly as often as its
    weight, and in no prefix more than its share plus one slot.  All cursors and
    lease counts start at zero. *)
Lemma pool_try_new_schedules endpoint entries pool st :
  Forall input_typed entries -> pool_try_new endpoint entries = Ok (pool, st) ->
  built_from endpoint entries pool st.
Proof.
  intros Ht Hp. destruct (pool_try_new_spec endpoint entries Ht) as [H1 H2].
  destruct (H1 (H2 _ Hp)) as (pool' & st' & Hp' & Hb).
  rewrite Hp in Hp'. by injection Hp' as -> ->.
Qed.

(** The pool built from a permutation of the entries is the same pool. *)
Lemma pool_order_independent endpoint entries entries' pool st :
  Forall input_typed entries -> entries ≡ₚ entries' ->
  pool_try_new endpoint entries = Ok (pool, st) ->
  pool_try_new endpoint entries' = Ok (pool, st).
Proof.
  intros Ht Hperm Hp. destruct (pool_try_new_spec endpoint entries Ht) as [_ H2].
  destruct (H2 _ Hp) as (Hne & _ & Hnd & _). rewrite pool_try_new_unfold in *.
  assert (sort_by input_leb entries = sort_by input_leb entries') as <-.
  { apply (sorted_perm_unique input_leb).
    - intros x y Hx Hy Hxy Hyx. rewrite sort_by_perm in Hx, Hy.
      apply list_elem_of_lookup in Hx as [i Hi], Hy as [j Hj].
      assert (i = j) as ->; [|by simplify_eq].
      eapply NoDup_lookup; [exact Hnd|by rewrite list_lookup_fmap, Hi|].
      rewrite list_lookup_fmap, Hj. simpl. f_equal. by apply id_leb_antisym.
    - apply sort_by_sorted; intros *; [apply id_leb_total|apply id_leb_trans].
    - apply sort_by_sorted; intros *; [apply id_leb_total|apply id_leb_trans].
    - by rewrite !sort_by_perm. }
  case_decide; [done|]. rewrite decide_False; [done|]. intros ->. by apply Permutation_nil_r in Hperm.
Qed.

(** [try_lease_slots] on a well-formed pool never panics.  It leases a
    credential exactly when some scheduled credential is eligible and below its
    concurrency limit; the one it leases is the first such slot in rotation order
    of the best priority tier that has any, its count alone grows by one, and the
    cursors of exactly the tiers it visited advance by one. *)
Lemma lease_selects_first_available pool is_eligible st :
  pool_wf pool st -> Forall2 cursor_ok (priority_tiers pool) (cursors st) ->
  match try_lease_slots pool is_eligible st with
  | (Ok (Some i), st') =>
      exists k o n, lease_choice pool is_eligible (priority_tiers pool) (cursors st) (active_leases st) k o i
        /\ active_leases st !! i = Some n /\ active_leases st' = <[i := n + 1]> (active_leases st)
        /\ cursors st' = (bump <$> take (S k) (cursors st)) ++ drop (S k) (cursors st)
  | (Ok None, st') =>
      (forall tier i, tier ∈ priority_tiers pool -> i ∈ slot_indexes tier ->
         ~ can_lease pool is_eligible (active_leases st) i)
      /\ active_leases st' = active_leases st /\ cursors st' = bump <$> cursors st
  | _ => False
  end.
Proof.
  intros [_ Hact Hslots] Hcur. unfold try_lease_slots.
  destruct (scan_tiers_spec pool is_eligible _ _ _ Hact Hslots Hcur)
    as [(k & o & i & n & Hc & Hn & ->)|[-> Hnone]]; [|done].
  exists k, o, n. done.
Qed.

(** C34: Under any interleaving of the atomic steps of [try_acquire] and
    [release], with any number of threads and spurious compare-exchange failures,
    the active count of a credential equals the number of live leases, never
    exceeds the configured maximum, and is positive whenever a lease is released,
    so the counter never wraps. *)
Theorem leases_never_exceed_limit maximum n w :
  0 < maximum < usize_modulus -> rtc (lease_step maximum) (mkWorld 0 (replicate n TIdle)) w ->
  w_active w = holders (w_threads w) /\ 0 <= w_active w <= maximum
  /\ (forall i, w_threads w !! i = Some THolding -> 0 < w_active w).
Proof.
  intros Hm Hr. assert (lease_inv maximum w) as [Ha Hle].
  { assert (lease_inv maximum (mkWorld 0 (replicate n TIdle))) as H0.
    { split; simpl; [|lia]. unfold holders. clear Hr. induction n; [done|]. exact IHn. }
    clear -Hm Hr H0. induction Hr; [done|]. eauto using lease_step_inv. }
  split; [done|]. rewrite Ha. split; [|apply holders_held].
  split; [apply holders_nonneg|lia].
Qed.

(** Merging two pool sets succeeds exactly when they share no Endpoint, and
    then holds every pool of both unchanged. *)
Lemma pools_merge_spec (self other : Pools) :
  merge self other = if decide (self ##ₘ other) then Ok (self ∪ other) else Err DuplicateEndpointPool.
Proof.
  unfold merge. rewrite merge_entries_spec by apply NoDup_fst_map_to_list.
  assert (Forall (fun kv => self !! kv.1 = None) (map_to_list other) <-> self ##ₘ other) as Hiff.
  { rewrite Forall_forall, map_disjoint_spec. split.
    - intros Hf k x y Hx Hy. apply elem_of_map_to_list in Hy. specialize (Hf _ Hy). simpl in Hf. congruence.
    - intros Hd [k y] Hy%elem_of_map_to_list. simpl. destruct (self !! k) as [x|] eqn:Hx; [|done]. by destruct (Hd k x y). }
  destruct (decide (Forall _ _)) as [Hf|Hf], (decide (self ##ₘ other)) as [Hd|Hd]; try tauto.
  f_equal. rewrite list_to_map_to_list. by apply map_union_comm, map_disjoint_sym.
Qed.

(** When a cursor crosses the [usize] wrap-around, the scan of a tier may
    revisit one slot and skip another: here the only free credential is skipped
    and no lease is given, although the documentation says that every slot of a
    tier is tried. *)
Lemma lease_scan_wraps_past_free_slot :
  exists pool st is_eligible, pool_wf pool st
    /\ can_lease pool is_eligible (active_leases st) 2
    /\ Exists (fun tier => 2%nat ∈ slot_indexes tier) (priority_tiers pool)
    /\ (try_lease_slots pool is_eligible st).1 = Ok None.
Proof.
  set (c := fun id => mkSlot (mkId id) "api_key" 0 0 1 1 None (mkSecret [Byte.x01])).
  exists (mkPool (mkId "e") [c "a"; c "b"; c "c"] [mkTier 0 [0; 1; 2]%nat]),
    (mkPoolState [usize_modulus - 1] [1; 1; 0]), (fun _ => true).
  split_and!; [by repeat (constructor || simpl; try lia)|by exists (c "c"), 0| |vm_compute; reflexivity].
  constructor. simpl. set_solver.
Qed.

(** ** Witnesses *)

Definition ex_input (id : string) (p w c : Z) : EndpointCredentialInput :=
  mkInput (mkId id) "api_key" 1 p w c None (mkSecret [Byte.x01]).
Definition ex_inputs : list EndpointCredentialInput := [ex_input "b" 0 2 1; ex_input "a" 0 1 1; ex_input "c" 5 1 2].

Lemma ex_inputs_typed : Forall input_typed ex_inputs.
Proof.
  repeat constructor; simpl; unfold i64_min, i64_max; try lia; intros; done.
Qed.

Definition ex_pool : EndpointCredentialPool :=
  mkPool (mkId "endpoint-a") (to_slot <$> [ex_input "a" 0 1 1; ex_input "b" 0 2 1; ex_input "c" 5 1 2])
    [mkTier 0 [1; 0; 1]%nat; mkTier 5 [2]%nat].
Definition ex_pool_state : PoolState := mkPoolState [0; 0] [0; 0; 0].

Lemma ex_pool_built : pool_try_new (mkId "endpoint-a") ex_inputs = Ok (ex_pool, ex_pool_state).
Proof. vm_compute. reflexivity. Qed.

Lemma ex_pool_wf : pool_wf ex_pool ex_pool_state.
Proof. repeat constructor; simpl; lia. Qed.

Lemma pool_try_new_accepts_iff_witness : inputs_ok ex_inputs.
Proof.
  apply (proj1 (pool_try_new_accepts_iff (mkId "endpoint-a") ex_inputs ex_inputs_typed)).
  exists ex_pool, ex_pool_state. exact ex_pool_built.
Defined.

Lemma pool_try_new_schedules_witness : built_from (mkId "endpoint-a") ex_inputs ex_pool ex_pool_state.
Proof.
  apply (pool_try_new_schedules (mkId "endpoint-a") ex_inputs); [exact ex_inputs_typed|exact ex_pool_built].
Defined.

Lemma pool_order_independent_witness :
  pool_try_new (mkId "endpoint-a") (rev ex_inputs) = Ok (ex_pool, ex_pool_state).
Proof.
  apply (pool_order_independent (mkId "endpoint-a") ex_inputs);
    [exact ex_inputs_typed|apply Permutation_rev|exact ex_pool_built].
Defined.

Lemma lease_selects_first_available_witness :
  (try_lease_slots ex_pool (fun _ => true) ex_pool_state).1 = Ok (Some 1%nat)
  /\ exists k o n, lease_choice ex_pool (fun _ => true) (priority_tiers ex_pool) [0; 0] [0; 0; 0] k o 1
       /\ [0; 0; 0] !! 1%nat = Some n.
Proof.
  split; [reflexivity|].
  pose proof (lease_selects_first_available ex_pool (fun _ => true) ex_pool_state ex_pool_wf) as H.
  destruct H as (k & o & n & Hc & Hn & _); [repeat constructor; vm_compute; discriminate|].
  exists k, o, n. split; [exact Hc|exact Hn].
Defined.

Lemma leases_never_exceed_limit_witness :
  holders [THolding; TIdle] = 1
  /\ rtc (lease_step 1) (mkWorld 0 (replicate 2 TIdle)) (mkWorld 1 [THolding; TIdle]).
Proof.
  assert (rtc (lease_step 1) (mkWorld 0 (replicate 2 TIdle)) (mkWorld 1 [THolding; TIdle])) as Hr.
  { eapply rtc_l; [apply (StepLoad 1 0 [TIdle; TIdle] 0); reflexivity|].
    eapply rtc_l; [apply (StepAcquire 1 0 [TObserved 0; TIdle] 0); [reflexivity|lia]|].
    apply rtc_refl. }
  split; [|exact Hr]. symmetry.
  apply (leases_never_exceed_limit 1 2 (mkWorld 1 [THolding; TIdle])); [unfold usize_modulus; lia|exact Hr].
Defined.
