(* ===== verification/Catalog.v ===== *)
(** * Capability sets and catalog states

    The part of [crates/gateway-catalog/src/lib.rs] that routing depends on:
    semantic capability sets with their one implication (parallel tools require
    tools), which catalog states make a model hard-eligible, and the two immutable
    lookups the route compiler is given.  Discovery, snapshots and diffs of the
    same file are in [CatalogSync]. *)

From S2P Require Import Prelude Core.
Local Open Scope string_scope.

Inductive SemanticCapability : Type :=
| Tools | ParallelTools | Reasoning | JsonSchema | Vision | Streaming.

#[export] Instance SemanticCapability_eq_dec : EqDecision SemanticCapability.
Proof. solve_decision. Defined.

#[export] Instance SemanticCapability_countable : Countable SemanticCapability.
Proof.
  apply (inj_countable'
    (fun c => match c with Tools => 0 | ParallelTools => 1 | Reasoning => 2 | JsonSchema => 3
                         | Vision => 4 | Streaming => 5 end)%nat
    (fun n => match n with 0 => Tools | 1 => ParallelTools | 2 => Reasoning | 3 => JsonSchema
                         | 4 => Vision | _ => Streaming end)%nat).
  by intros [].
Defined.

Definition json_key (c : SemanticCapability) : string :=
  match c with
  | Tools => "tools"
  | ParallelTools => "parallel_tools"
  | Reasoning => "reasoning"
  | JsonSchema => "json_schema"
  | Vision => "vision"
  | Streaming => "streaming"
  end.

Definition from_json_key (value : string) : option SemanticCapability :=
  if bool_decide (value = "tools") then Some Tools
  else if bool_decide (value = "parallel_tools") then Some ParallelTools
  else if bool_decide (value = "reasoning") then Some Reasoning
  else if bool_decide (value = "json_schema") then Some JsonSchema
  else if bool_decide (value = "vision") then Some Vision
  else if bool_decide (value = "streaming") then Some Streaming
  else None.

Inductive CatalogViewError : Type :=
| EmptyUpstreamModel | DuplicateCatalogModel | DuplicateEndpointCapabilityProfile
| ParallelToolsRequiresTools.

Definition CapabilitySet : Type := (gset SemanticCapability).

Definition supports (s : CapabilitySet) (c : SemanticCapability) : bool := bool_decide (c ∈ s).

Definition validate (s : CapabilitySet) : result CatalogViewError unit :=
  if supports s ParallelTools && negb (supports s Tools) then Err ParallelToolsRequiresTools else Ok tt.

Definition capabilities_try_new (l : list SemanticCapability) : result CatalogViewError CapabilitySet :=
  let s : CapabilitySet := list_to_set l in
  let? _ := validate s in Ok s.

Definition supports_all (s required : CapabilitySet) : bool := bool_decide (required ⊆ s).

Fixpoint without (s : CapabilitySet) (removed : list SemanticCapability) : CapabilitySet :=
  match removed with
  | [] => s
  | c :: rest =>
      let s' := s ∖ {[ c ]} in
      without (if decide (c = Tools) then s' ∖ {[ ParallelTools ]} else s') rest
  end.

Inductive CatalogModelState : Type := CManual | CFresh | CStale | CExpired.

Definition state_is_hard_eligible (s : CatalogModelState) : bool :=
  match s with CManual | CFresh | CStale => true | CExpired => false end.

(** ** The injected lookups *)

Record CatalogModelEntry : Type := mkModelEntry {
  entry_endpoint_id : EndpointId;
  entry_upstream_model : string;
  entry_state : CatalogModelState;
}.

Definition entry_try_new (endpoint_id : EndpointId) (upstream_model : string) (state : CatalogModelState)
  : result CatalogViewError CatalogModelEntry :=
  if bool_decide (upstream_model = "") then Err EmptyUpstreamModel
  else Ok (mkModelEntry endpoint_id upstream_model state).

Definition CatalogView : Type := (gmap (EndpointId * string) CatalogModelState).

(** A map built by inserting each entry, refusing the first duplicate key. *)
Fixpoint insert_distinct {K V} `{Countable K} (duplicate : CatalogViewError) (entries : list (K * V)) (m : gmap K V)
  : result CatalogViewError (gmap K V) :=
  match entries with
  | [] => Ok m
  | (k, v) :: rest =>
      match m !! k with
      | Some _ => Err duplicate
      | None => insert_distinct duplicate rest (<[k := v]> m)
      end
  end.

Definition catalog_view_try_new (entries : list CatalogModelEntry) : result CatalogViewError CatalogView :=
  insert_distinct DuplicateCatalogModel
    ((fun e => ((entry_endpoint_id e, entry_upstream_model e), entry_state e)) <$> entries) ∅.

Definition model_state (view : CatalogView) (endpoint_id : EndpointId) (upstream_model : string)
  : option CatalogModelState := view !! (endpoint_id, upstream_model).

Record EndpointCapabilityEntry : Type := mkCapabilityEntry {
  profile_endpoint_id : EndpointId;
  profile_capabilities : CapabilitySet;
}.

Definition EndpointCapabilityView : Type := (gmap EndpointId CapabilitySet).

Definition capability_view_try_new (entries : list EndpointCapabilityEntry)
  : result CatalogViewError EndpointCapabilityView :=
  insert_distinct DuplicateEndpointCapabilityProfile
    ((fun e => (profile_endpoint_id e, profile_capabilities e)) <$> entries) ∅.

Definition capabilities_for (view : EndpointCapabilityView) (endpoint_id : EndpointId) : option CapabilitySet :=
  view !! endpoint_id.

(** ** Properties *)

Lemma insert_distinct_spec {K V} `{Countable K} duplicate (entries : list (K * V)) (m : gmap K V) :
  insert_distinct duplicate entries m
  = if bool_decide (NoDup entries.*1 /\ Forall (fun k => m !! k = None) entries.*1)
    then Ok (list_to_map entries ∪ m) else Err duplicate.
Proof.
  revert m. induction entries as [|[k v] entries IH]; intros m; cbn [insert_distinct].
  - rewrite bool_decide_eq_true_2 by (split; constructor). simpl.
    by rewrite (left_id_L ∅ (∪) m).
  - destruct (m !! k) eqn:Hk.
    + rewrite bool_decide_eq_false_2; [done|]. intros [_ Hf]. inversion Hf; congruence.
    + rewrite IH. assert ((NoDup entries.*1 /\ Forall (fun k' => <[k:=v]> m !! k' = None) entries.*1)
        <-> (NoDup (k :: entries.*1) /\ Forall (fun k' => m !! k' = None) (k :: entries.*1))) as Hiff.
      { rewrite NoDup_cons, Forall_cons, !Forall_forall. split.
        - intros [Hnd Hf]. split_and!; [|done|done|].
          + intros Hin. specialize (Hf k Hin). by rewrite lookup_insert_eq in Hf.
          + intros x Hx. specialize (Hf x Hx). by apply lookup_insert_None in Hf as [? _].
        - intros [[Hk' Hnd] [_ Hf]]. split; [done|]. intros x Hx. rewrite lookup_insert_ne; [by apply Hf|].
          by intros ->. }
      case_bool_decide as Hc; case_bool_decide as Hc'; try tauto. f_equal.
      destruct Hc' as [Hnd _]. simpl. rewrite <- insert_union_l, <- insert_union_r; [done|].
      apply NoDup_cons in Hnd as [Hnot _]. by apply not_elem_of_list_to_map_1.
Qed.

(** The catalog lookup is accepted exactly when no Endpoint/model pair is
    described twice, and then answers each pair with its own entry. *)
Lemma catalog_view_exact entries view :
  catalog_view_try_new entries = Ok view ->
  forall ep md st, model_state view ep md = Some st <-> mkModelEntry ep md st ∈ entries.
Proof.
  unfold catalog_view_try_new. rewrite insert_distinct_spec. case_bool_decide as Hc; [|done].
  intros [= <-] ep md st. unfold model_state, CatalogView. rewrite (right_id_L ∅ (∪)).
  rewrite <- elem_of_list_to_map by apply Hc. rewrite list_elem_of_fmap. split.
  - intros ([] & [= -> -> ->] & Hin). done.
  - intros Hin. by exists (mkModelEntry ep md st).
Qed.


Lemma validate_ok s : validate s = Ok tt <-> (ParallelTools ∈ s -> Tools ∈ s).
Proof. unfold validate, supports. repeat case_bool_decide; simpl; naive_solver. Qed.

Lemma without_spec s removed c :
  c ∈ without s removed <->
  (c ∈ s) /\ (c ∉ removed) /\ (c = ParallelTools -> Tools ∉ removed).
Proof.
  revert s. induction removed as [|r removed IH]; intros s; simpl; [set_solver|].
  rewrite IH. case_decide; set_solver.
Qed.

(** Narrowing a valid capability set removes exactly what was asked, drops
    parallel tools together with tools, adds nothing, and leaves a set that
    [try_new] would accept. *)
Lemma without_narrows_validly s removed :
  validate s = Ok tt ->
  validate (without s removed) = Ok tt /\ without s removed ⊆ s
  /\ forall c, c ∈ without s removed <->
       (c ∈ s) /\ (c ∉ removed) /\ (c = ParallelTools -> Tools ∉ removed).
Proof.
  rewrite !validate_ok. intros Hs. split_and!.
  - rewrite !without_spec. naive_solver.
  - intros c. rewrite without_spec. naive_solver.
  - intros c. apply without_spec.
Qed.

Lemma without_narrows_validly_witness :
  validate (without {[ Tools; ParallelTools; Vision ]} [Tools]) = Ok tt.
Proof. apply (without_narrows_validly {[ Tools; ParallelTools; Vision ]} [Tools]). reflexivity. Defined.

(** Every capability key parses back to its capability, and no other text
    parses. *)
Lemma json_key_roundtrip value c : from_json_key value = Some c <-> value = json_key c.
Proof.
  unfold from_json_key. split.
  - intros H. repeat case_bool_decide; by simplify_eq.
  - intros ->. by destruct c.
Qed.
