(* ===== verification/CatalogSync.v ===== *)
(** * Model discovery, catalog snapshots and catalog diffs

    The discovery half of [crates/gateway-catalog/src/lib.rs]: the scheduler that
    shares one running discovery per Endpoint/Credential target, the registry of
    last successful snapshots with their freshness, and the preview/apply registry
    that decides when a model that stopped being listed is removed. *)

From S2P Require Import Prelude Core Catalog.
Local Open Scope Z_scope.

(** ** Models and targets *)

Record DiscoveredModel : Type := mkModel { dm_upstream_model : string }.

#[export] Instance DiscoveredModel_eq_dec : EqDecision DiscoveredModel.
Proof. solve_decision. Defined.
#[export] Instance DiscoveredModel_countable : Countable DiscoveredModel.
Proof. apply (inj_countable' dm_upstream_model mkModel). by intros []. Defined.

Definition model_try_new (upstream_model : string) : result CatalogViewError DiscoveredModel :=
  if bool_decide (upstream_model = ""%string) then Err EmptyUpstreamModel else Ok (mkModel upstream_model).

Record ModelCatalogTarget : Type := mkCatalogTarget { tg_endpoint_id : EndpointId; tg_credential_id : CredentialId }.

#[export] Instance ModelCatalogTarget_eq_dec : EqDecision ModelCatalogTarget.
Proof. solve_decision. Defined.
#[export] Instance ModelCatalogTarget_countable : Countable ModelCatalogTarget.
Proof.
  apply (inj_countable' (fun t => (tg_endpoint_id t, tg_credential_id t)) (fun p => mkCatalogTarget p.1 p.2)).
  by intros [].
Defined.

(** The derived order of a model: the byte order of its name. *)
Definition model_leb (a b : DiscoveredModel) : bool := String.leb (dm_upstream_model a) (dm_upstream_model b).

(** [Vec::dedup]: of consecutive equal elements one is kept. *)
Fixpoint dedup (l : list DiscoveredModel) : list DiscoveredModel :=
  match l with
  | [] => []
  | x :: rest =>
      match rest with
      | [] => [x]
      | y :: _ => if decide (x = y) then dedup rest else x :: dedup rest
      end
  end.

Definition normalize_models (models : list DiscoveredModel) : list DiscoveredModel :=
  dedup (sort_by model_leb models).

(** ** Freshness *)

Inductive CatalogSnapshotError : Type :=
| FreshDurationNotPositive | RefreshDueBeforeFresh | ExpiryNotAfterRefreshDue
| SnapshotVersionZero | SnapshotVersionOverflow | TimestampBeforeUnixEpoch
| TimestampOverflow | ClockBeforeSnapshot | TimestampNotMonotonic | StoreLockPoisoned.

Record CatalogFreshnessPolicy : Type := mkFreshnessPolicy {
  fresh_for : Z;
  refresh_due_after : Z;
  expires_after : Z;
}.

Definition policy_default : CatalogFreshnessPolicy :=
  mkFreshnessPolicy (6 * 60 * 60 * 1000) (24 * 60 * 60 * 1000) (72 * 60 * 60 * 1000).

Definition freshness_policy_try_new (fresh_for_ms refresh_due_after_ms expires_after_ms : Z)
  : result CatalogSnapshotError CatalogFreshnessPolicy :=
  if fresh_for_ms <=? 0 then Err FreshDurationNotPositive
  else if refresh_due_after_ms <? fresh_for_ms then Err RefreshDueBeforeFresh
  else if expires_after_ms <=? refresh_due_after_ms then Err ExpiryNotAfterRefreshDue
  else Ok (mkFreshnessPolicy fresh_for_ms refresh_due_after_ms expires_after_ms).

Inductive CatalogSnapshotFreshness : Type := SFresh | SStale | SExpired.

Definition freshness_is_hard_eligible (f : CatalogSnapshotFreshness) : bool :=
  match f with SFresh | SStale => true | SExpired => false end.

Record CatalogSnapshot : Type := mkCatalogSnapshot {
  cs_target : ModelCatalogTarget;
  cs_models : list DiscoveredModel;
  cs_version : Z;
  cs_observed_at_ms : Z;
  cs_stale_at_ms : Z;
  cs_refresh_due_at_ms : Z;
  cs_expires_at_ms : Z;
}.

Definition checked_deadline (observed_at_ms duration_ms : Z) : result CatalogSnapshotError Z :=
  ok_or TimestampOverflow (i64_checked_add observed_at_ms duration_ms).

Definition catalog_snapshot_try_new (target : ModelCatalogTarget) (models : list DiscoveredModel)
    (version observed_at_ms : Z) (policy : CatalogFreshnessPolicy) : result CatalogSnapshotError CatalogSnapshot :=
  if version =? 0 then Err SnapshotVersionZero
  else if observed_at_ms <? 0 then Err TimestampBeforeUnixEpoch
  else
    let? stale_at_ms := checked_deadline observed_at_ms (fresh_for policy) in
    let? refresh_due_at_ms := checked_deadline observed_at_ms (refresh_due_after policy) in
    let? expires_at_ms := checked_deadline observed_at_ms (expires_after policy) in
    Ok (mkCatalogSnapshot target (normalize_models models) version observed_at_ms
          stale_at_ms refresh_due_at_ms expires_at_ms).

Definition validate_now_ms (s : CatalogSnapshot) (now_ms : Z) : result CatalogSnapshotError unit :=
  if now_ms <? cs_observed_at_ms s then Err ClockBeforeSnapshot else Ok tt.

Definition freshness_at (s : CatalogSnapshot) (now_ms : Z) : result CatalogSnapshotError CatalogSnapshotFreshness :=
  let? _ := validate_now_ms s now_ms in
  if now_ms <? cs_stale_at_ms s then Ok SFresh
  else if now_ms <? cs_expires_at_ms s then Ok SStale
  else Ok SExpired.

Definition is_refresh_due_at (s : CatalogSnapshot) (now_ms : Z) : result CatalogSnapshotError bool :=
  let? _ := validate_now_ms s now_ms in Ok (cs_refresh_due_at_ms s <=? now_ms).

Record CatalogSnapshotStatus : Type := mkSnapshotStatus {
  st_snapshot : CatalogSnapshot;
  st_freshness : CatalogSnapshotFreshness;
  st_refresh_due : bool;
}.

Definition snapshot_status_at (s : CatalogSnapshot) (now_ms : Z) : result CatalogSnapshotError CatalogSnapshotStatus :=
  let? freshness := freshness_at s now_ms in
  let? refresh_due := is_refresh_due_at s now_ms in
  Ok (mkSnapshotStatus s freshness refresh_due).

(** ** The registry of last successes *)

Record CatalogSnapshotStore : Type := mkSnapshotStore {
  store_policy : CatalogFreshnessPolicy;
  store_poisoned : bool;
  snapshots : gmap ModelCatalogTarget CatalogSnapshot;
}.

Definition store_new (policy : CatalogFreshnessPolicy) : CatalogSnapshotStore := mkSnapshotStore policy false ∅.

Definition lock_snapshots (st : CatalogSnapshotStore)
  : result CatalogSnapshotError (gmap ModelCatalogTarget CatalogSnapshot) :=
  if store_poisoned st then Err StoreLockPoisoned else Ok (snapshots st).

Definition next_version (previous : option CatalogSnapshot) (observed_at_ms : Z) : result CatalogSnapshotError Z :=
  match previous with
  | Some p =>
      if observed_at_ms <? cs_observed_at_ms p then Err TimestampNotMonotonic
      else ok_or SnapshotVersionOverflow (u64_checked_add (cs_version p) 1)
  | None => Ok 1
  end.

Definition record_success (target : ModelCatalogTarget) (models : list DiscoveredModel) (observed_at_ms : Z)
  : M CatalogSnapshotStore CatalogSnapshotError CatalogSnapshot :=
  let! st := get in
  let! retained := lift (lock_snapshots st) in
  let! version := lift (next_version (retained !! target) observed_at_ms) in
  let! snapshot := lift (catalog_snapshot_try_new target models version observed_at_ms (store_policy st)) in
  put (mkSnapshotStore (store_policy st) (store_poisoned st) (<[target := snapshot]> retained)) ;;;
  ret snapshot.

Definition last_success (st : CatalogSnapshotStore) (target : ModelCatalogTarget)
  : result CatalogSnapshotError (option CatalogSnapshot) :=
  let? retained := lock_snapshots st in Ok (retained !! target).

Definition retain_last_success_on_failure (st : CatalogSnapshotStore) (target : ModelCatalogTarget)
  : result CatalogSnapshotError (option CatalogSnapshot) :=
  let? retained := lock_snapshots st in Ok (retained !! target).

Definition catalog_status_at (st : CatalogSnapshotStore) (target : ModelCatalogTarget) (now_ms : Z)
  : result CatalogSnapshotError (option CatalogSnapshotStatus) :=
  let? last := last_success st target in
  match last with
  | None => Ok None
  | Some s => let? status := snapshot_status_at s now_ms in Ok (Some status)
  end.

(** ** Diffs *)

Definition MIN_CATALOG_SUCCESSFUL_MISSES_FOR_REMOVAL : Z := 3.
Definition MIN_CATALOG_REMOVAL_ISOLATION_MS : Z := 24 * 60 * 60 * 1000.

Inductive CatalogDiffEvent : Type :=
| Added (model : DiscoveredModel)
| SuspectedRemoved (model : DiscoveredModel) (misses first_missing_at_ms removal_eligible_at_ms : Z)
| Removed (model : DiscoveredModel) (misses first_missing_at_ms : Z).

Inductive CatalogDiffModelState : Type :=
| Present
| Suspected (misses first_missing_at_ms removal_eligible_at_ms : Z).

Record CatalogDiffTargetState : Type := mkDiffState {
  generation : Z;
  last_snapshot_version : Z;
  last_observed_at_ms : Z;
  diff_models : gmap DiscoveredModel CatalogDiffModelState;
}.

Record CatalogDiffPreview : Type := mkPreview {
  pv_target : ModelCatalogTarget;
  pv_snapshot_version : Z;
  base_generation : Z;
  pv_events : list CatalogDiffEvent;
  next_state : CatalogDiffTargetState;
}.

Record CatalogDiffApplyResult : Type := mkApplyResult {
  ar_target : ModelCatalogTarget;
  ar_snapshot_version : Z;
  ar_generation : Z;
  ar_events : list CatalogDiffEvent;
}.

Inductive CatalogDiffError : Type :=
| SnapshotVersionNotNewer | SnapshotObservedAtNotMonotonic | StalePreview
| GenerationOverflow | ConsecutiveMissingOverflow | RemovalDeadlineOverflow | RegistryLockPoisoned.

Record CatalogDiffRegistry : Type := mkDiffRegistry {
  registry_poisoned : bool;
  targets : gmap ModelCatalogTarget CatalogDiffTargetState;
}.

Definition diff_registry_new : CatalogDiffRegistry := mkDiffRegistry false ∅.

Definition lock_targets (r : CatalogDiffRegistry)
  : result CatalogDiffError (gmap ModelCatalogTarget CatalogDiffTargetState) :=
  if registry_poisoned r then Err RegistryLockPoisoned else Ok (targets r).

Definition validate_diff_snapshot (previous : option CatalogDiffTargetState) (snapshot : CatalogSnapshot)
  : result CatalogDiffError unit :=
  match previous with
  | Some p =>
      if cs_version snapshot <=? last_snapshot_version p then Err SnapshotVersionNotNewer
      else if cs_observed_at_ms snapshot <? last_observed_at_ms p then Err SnapshotObservedAtNotMonotonic
      else Ok tt
  | None => Ok tt
  end.

Abbreviation DiffModels := (gmap DiscoveredModel CatalogDiffModelState).
Abbreviation Diff := (DiffModels * list CatalogDiffEvent)%type.

(** The first loop: every listed model is [Present]; a new one is an [Added]. *)
Definition add_source_model (acc : Diff) (model : DiscoveredModel) : Diff :=
  (<[model := Present]> acc.1,
   match acc.1 !! model with
   | None => acc.2 ++ [Added model]
   | Some _ => acc.2
   end).

(** One round of the second loop: a retained model that is not listed. *)
Definition miss_model (observed_at_ms : Z) (model : DiscoveredModel) (state : CatalogDiffModelState) (acc : Diff)
  : result CatalogDiffError Diff :=
  match state with
  | Present =>
      let? eligible := ok_or RemovalDeadlineOverflow
                         (i64_checked_add observed_at_ms MIN_CATALOG_REMOVAL_ISOLATION_MS) in
      Ok (<[model := Suspected 1 observed_at_ms eligible]> acc.1,
          acc.2 ++ [SuspectedRemoved model 1 observed_at_ms eligible])
  | Suspected misses first eligible =>
      let? next_misses := ok_or ConsecutiveMissingOverflow (u64_checked_add misses 1) in
      if (MIN_CATALOG_SUCCESSFUL_MISSES_FOR_REMOVAL <=? next_misses) && (eligible <=? observed_at_ms)
      then Ok (delete model acc.1, acc.2 ++ [Removed model next_misses first])
      else Ok (<[model := Suspected next_misses first eligible]> acc.1,
               acc.2 ++ [SuspectedRemoved model next_misses first eligible])
  end.

Fixpoint miss_models (source : list DiscoveredModel) (observed_at_ms : Z)
    (retained : list (DiscoveredModel * CatalogDiffModelState)) (acc : Diff) : result CatalogDiffError Diff :=
  match retained with
  | [] => Ok acc
  | (model, state) :: rest =>
      if bool_decide (model ∈ source) then miss_models source observed_at_ms rest acc
      else let? acc' := miss_model observed_at_ms model state acc in
           miss_models source observed_at_ms rest acc'
  end.

(** A [BTreeMap] in iteration order. *)
Definition sorted_entries (m : DiffModels) : list (DiscoveredModel * CatalogDiffModelState) :=
  sort_by (fun a b => model_leb a.1 b.1) (map_to_list m).

(** The snapshot's models collected into a [BTreeSet] are their normal form. *)
Definition build_catalog_diff (previous : option CatalogDiffTargetState) (snapshot : CatalogSnapshot)
  : result CatalogDiffError Diff :=
  let source := normalize_models (cs_models snapshot) in
  let retained := default ∅ (diff_models <$> previous) in
  let added := fold_left add_source_model source (retained, []) in
  miss_models source (cs_observed_at_ms snapshot) (sorted_entries retained) added.

Definition diff_preview (r : CatalogDiffRegistry) (snapshot : CatalogSnapshot)
  : result CatalogDiffError CatalogDiffPreview :=
  let? tg := lock_targets r in
  let previous := tg !! cs_target snapshot in
  let? _ := validate_diff_snapshot previous snapshot in
  let base := default 0 (generation <$> previous) in
  let? diff := build_catalog_diff previous snapshot in
  Ok (mkPreview (cs_target snapshot) (cs_version snapshot) base diff.2
        (mkDiffState base (cs_version snapshot) (cs_observed_at_ms snapshot) diff.1)).

Definition diff_apply (preview : CatalogDiffPreview)
  : M CatalogDiffRegistry CatalogDiffError CatalogDiffApplyResult :=
  let! r := get in
  let! tg := lift (lock_targets r) in
  let current := default 0 (generation <$> tg !! pv_target preview) in
  if negb (current =? base_generation preview) then raise StalePreview
  else
    let! next := lift (ok_or GenerationOverflow (u64_checked_add current 1)) in
    let st := next_state preview in
    put (mkDiffRegistry (registry_poisoned r)
           (<[pv_target preview :=
                mkDiffState next (last_snapshot_version st) (last_observed_at_ms st) (diff_models st)]> tg)) ;;;
    ret (mkApplyResult (pv_target preview) (pv_snapshot_version preview) next (pv_events preview)).

(** ** Single-flight discovery

    Each caller of [synchronize] takes the lock once, joins the flight of its
    target or starts one, and then waits on the flight's watch channel.  The
    detached task calls the source, takes the lock to take its flight out of the
    table, and publishes.  A flight is the number of its creation, which is what
    [Arc::ptr_eq] compares. *)

Definition ModelCatalogResult : Type := result GatewayError (list DiscoveredModel).

Definition catalog_internal_error : GatewayError := mkError InternalError ScopeInternal.

(** Where the detached task of one flight is: inside the source call, holding its
    result, out of the table, done, or gone because the source panicked. *)
Inductive TaskPhase : Type :=
| Calling
| Returned (r : ModelCatalogResult)
| Unlisted (r : ModelCatalogResult)
| Published (r : ModelCatalogResult)
| Unwound.

Record Flight : Type := mkFlight { flight_target : ModelCatalogTarget; phase : TaskPhase }.

Record Caller : Type := mkCaller { caller_target : ModelCatalogTarget; joined : nat }.

Record SyncWorld : Type := mkSync {
  in_flight : gmap ModelCatalogTarget nat;
  flights : list Flight;
  callers : list Caller;
}.

Definition scheduler_new : SyncWorld := mkSync ∅ [] [].

(** The critical section of [synchronize]. *)
Definition synchronize (target : ModelCatalogTarget) (w : SyncWorld) : nat * SyncWorld :=
  match in_flight w !! target with
  | Some f => (f, mkSync (in_flight w) (flights w) (callers w ++ [mkCaller target f]))
  | None =>
      let f := length (flights w) in
      (f, mkSync (<[target := f]> (in_flight w)) (flights w ++ [mkFlight target Calling])
            (callers w ++ [mkCaller target f]))
  end.

Definition set_phase (f : nat) (p : TaskPhase) (w : SyncWorld) : SyncWorld :=
  mkSync (in_flight w) (alter (fun fl => mkFlight (flight_target fl) p) f (flights w)) (callers w).

(** [source.models(target).await.map(normalize_models)]; the vector is normalised
    only when the source succeeded. *)
Definition source_result (r : ModelCatalogResult) : ModelCatalogResult :=
  match r with
  | Ok models => Ok (normalize_models models)
  | Err e => Err e
  | Panic => Panic
  end.

(** The task's second critical section. *)
Definition unlist (f : nat) (r : ModelCatalogResult) (w : SyncWorld) : SyncWorld :=
  let target := flight_target <$> flights w !! f in
  let listed := t ← target; in_flight w !! t in
  set_phase f (Unlisted r)
    (match target with
     | Some t => if bool_decide (listed = Some f)
                 then mkSync (delete t (in_flight w)) (flights w) (callers w) else w
     | None => w
     end).

(** The steps of [synchronize] and of the detached task ([spawn_discovery]). *)
Inductive sync_step : SyncWorld -> SyncWorld -> Prop :=
| SSynchronize w target : sync_step w (synchronize target w).2
| SReturn w f t models :
    flights w !! f = Some (mkFlight t Calling) ->
    sync_step w (set_phase f (Returned (source_result (Ok models))) w)
| SFail w f t e :
    flights w !! f = Some (mkFlight t Calling) ->
    sync_step w (set_phase f (Returned (source_result (Err e))) w)
| SPanic w f t :
    flights w !! f = Some (mkFlight t Calling) ->
    sync_step w (set_phase f Unwound w)
| SUnlist w f t r :
    flights w !! f = Some (mkFlight t (Returned r)) ->
    sync_step w (unlist f r w)
| SPublish w f t r :
    flights w !! f = Some (mkFlight t (Unlisted r)) ->
    sync_step w (set_phase f (Published r) w).

(** The flight's sender is held by the running task and by the table. *)
Definition sender_exists (w : SyncWorld) (f : nat) : bool :=
  match flights w !! f with
  | Some (mkFlight t Unwound) | Some (mkFlight t (Published _)) => bool_decide (in_flight w !! t = Some f)
  | Some _ => true
  | None => false
  end.

(** [wait_for_result] polled by a caller of flight [f]; [None] is pending. *)
Definition wait_for_result (w : SyncWorld) (f : nat) : option ModelCatalogResult :=
  match flights w !! f with
  | Some (mkFlight _ (Published r)) => Some r
  | _ => if sender_exists w f then None else Some (Err catalog_internal_error)
  end.

(** ** Normal form of a model list *)

Definition model_lt (a b : DiscoveredModel) : Prop := model_leb a b = true /\ a <> b.

Lemma model_leb_total a b : model_leb a b = true \/ model_leb b a = true.
Proof. apply String.leb_total. Qed.

Lemma model_leb_trans a b c : model_leb a b = true -> model_leb b c = true -> model_leb a c = true.
Proof. apply string_leb_trans. Qed.

Lemma model_leb_antisym a b : model_leb a b = true -> model_leb b a = true -> a = b.
Proof. destruct a, b. unfold model_leb. simpl. intros. f_equal. by apply String.leb_antisym. Qed.

Lemma dedup_cons_cons x y l :
  dedup (x :: y :: l) = if decide (x = y) then dedup (y :: l) else x :: dedup (y :: l).
Proof. done. Qed.

Lemma elem_of_dedup x l : x ∈ dedup l <-> x ∈ l.
Proof.
  induction l as [|y [|z l] IH]; [done|done|]. rewrite dedup_cons_cons. case_decide as Hyz.
  - subst z. rewrite IH. set_solver.
  - by rewrite elem_of_cons, IH, <- elem_of_cons.
Qed.

Lemma dedup_sorted l : StronglySorted (fun a b => model_leb a b = true) l -> StronglySorted model_lt (dedup l).
Proof.
  induction 1 as [|x l Hl IH Hx]; [constructor|]. destruct l as [|y l]; [by repeat constructor|].
  rewrite dedup_cons_cons. case_decide as Hxy; [done|]. constructor; [done|].
  rewrite Forall_forall in Hx |- *. intros z Hz. rewrite elem_of_dedup in Hz. split; [by apply Hx|].
  intros ->. apply Hxy. apply model_leb_antisym; [apply Hx; by left|].
  apply elem_of_cons in Hz as [->|Hz]; [by destruct (model_leb_total y y)|].
  inversion_clear Hl as [|? ? _ Hy]. rewrite Forall_forall in Hy. by apply Hy.
Qed.

Lemma elem_of_normalize x l : x ∈ normalize_models l <-> x ∈ l.
Proof. unfold normalize_models. by rewrite elem_of_dedup, sort_by_perm. Qed.

Lemma normalize_sorted l : StronglySorted model_lt (normalize_models l).
Proof. apply dedup_sorted, sort_by_sorted; [apply model_leb_total|apply model_leb_trans]. Qed.

Lemma model_lt_nodup l : StronglySorted model_lt l -> NoDup l.
Proof.
  induction 1 as [|x l _ IH Hx]; constructor; [|done]. intros Hin. rewrite Forall_forall in Hx.
  by destruct (Hx x Hin).
Qed.

(** ** The registry of last successes refines the history of discoveries *)

Record Discovery : Type := mkDiscovery {
  d_target : ModelCatalogTarget;
  d_models : list DiscoveredModel;
  d_observed : Z;
}.

Definition record_one (st : CatalogSnapshotStore) (d : Discovery) : CatalogSnapshotStore :=
  (record_success (d_target d) (d_models d) (d_observed d) st).2.

Definition store_run (policy : CatalogFreshnessPolicy) (ds : list Discovery) : CatalogSnapshotStore :=
  fold_left record_one ds (store_new policy).

Definition policy_ok (p : CatalogFreshnessPolicy) : Prop :=
  0 < fresh_for p <= refresh_due_after p /\ refresh_due_after p < expires_after p <= i64_max.

Definition not_older (earlier : list Discovery) (d : Discovery) : bool :=
  match last earlier with Some p => d_observed p <=? d_observed d | None => true end.

(** What makes a discovery acceptable after the accepted ones of its target. *)
Definition acceptable (policy : CatalogFreshnessPolicy) (earlier : list Discovery) (d : Discovery) : bool :=
  (0 <=? d_observed d) && (d_observed d + expires_after policy <=? i64_max)
  && (Z.of_nat (length earlier) <? u64_max) && not_older earlier d.

Definition accept (policy : CatalogFreshnessPolicy) (t : ModelCatalogTarget) (acc : list Discovery) (d : Discovery)
  : list Discovery :=
  if bool_decide (d_target d = t) && acceptable policy acc d then acc ++ [d] else acc.

(** The accepted discoveries of one target, oldest first. *)
Definition accepted (policy : CatalogFreshnessPolicy) (t : ModelCatalogTarget) (ds : list Discovery) : list Discovery :=
  fold_left (accept policy t) ds [].

Definition snapshot_of (policy : CatalogFreshnessPolicy) (t : ModelCatalogTarget) (n : nat) (d : Discovery)
  : CatalogSnapshot :=
  mkCatalogSnapshot t (normalize_models (d_models d)) (Z.of_nat n) (d_observed d)
    (d_observed d + fresh_for policy) (d_observed d + refresh_due_after policy) (d_observed d + expires_after policy).

Definition retained_snapshot (policy : CatalogFreshnessPolicy) (t : ModelCatalogTarget) (acc : list Discovery)
  : option CatalogSnapshot :=
  snapshot_of policy t (length acc) <$> last acc.

Lemma freshness_policy_ok a b c p :
  freshness_policy_try_new a b c = Ok p -> c <= i64_max -> policy_ok p.
Proof. unfold freshness_policy_try_new, policy_ok. intros H Hc. repeat case_match; simplify_eq/=. bool_simp. lia. Qed.

Lemma snapshot_try_new_exact policy t models n obs :
  policy_ok policy ->
  to_option (catalog_snapshot_try_new t models (Z.of_nat (S n)) obs policy)
  = if (0 <=? obs) && (obs + expires_after policy <=? i64_max)
    then Some (snapshot_of policy t (S n) (mkDiscovery t models obs)) else None.
Proof.
  intros [Hf Hx]. unfold catalog_snapshot_try_new, checked_deadline, i64_checked_add, i64_try_from, in_i64, i64_min.
  replace (Z.of_nat (S n) =? 0) with false by (symmetry; apply Z.eqb_neq; lia).
  destruct (obs <? 0) eqn:H0; bool_simp.
  { by replace (0 <=? obs) with false by (symmetry; apply Z.leb_gt; lia). }
  replace (0 <=? obs) with true by (symmetry; apply Z.leb_le; lia).
  assert (forall d, 0 < d -> (- 2 ^ 63 <=? obs + d) = true) as Hlow by (intros d Hd; apply Z.leb_le; lia).
  rewrite !Hlow by lia. simpl. destruct (obs + expires_after policy <=? i64_max) eqn:He; bool_simp.
  - replace (obs + fresh_for policy <=? i64_max) with true by (symmetry; apply Z.leb_le; lia).
    by replace (obs + refresh_due_after policy <=? i64_max) with true by (symmetry; apply Z.leb_le; lia).
  - by repeat case_match; simplify_eq/=.
Qed.

Lemma record_one_retained policy acc st d t :
  policy_ok policy -> store_policy st = policy -> store_poisoned st = false ->
  snapshots st !! d_target d = retained_snapshot policy (d_target d) acc ->
  snapshots (record_one st d) !! t
  = if bool_decide (t = d_target d) && acceptable policy acc d
    then Some (snapshot_of policy t (S (length acc)) d) else snapshots st !! t.
Proof.
  intros Hp Hsp Hpo Hret. unfold record_one, record_success, lock_snapshots. unfold_m. rewrite Hpo, Hret, Hsp. simpl.
  pose proof (snapshot_try_new_exact policy (d_target d) (d_models d) (length acc) (d_observed d) Hp) as Hex.
  assert (next_version (retained_snapshot policy (d_target d) acc) (d_observed d)
    = if not_older acc d
      then if Z.of_nat (length acc) <? u64_max then Ok (Z.of_nat (S (length acc))) else Err SnapshotVersionOverflow
      else Err TimestampNotMonotonic) as ->.
  { unfold retained_snapshot, next_version, not_older. destruct (last acc) as [p|] eqn:Hl; simpl.
    - rewrite Z.ltb_antisym. destruct (d_observed p <=? d_observed d); [|done]. simpl.
      unfold u64_checked_add, u64_try_from, in_u64.
      destruct (Z.of_nat (length acc) <? u64_max) eqn:Hu; bool_simp.
      + replace (0 <=? _) with true by (symmetry; apply Z.leb_le; lia).
        replace (_ <=? u64_max) with true by (symmetry; apply Z.leb_le; lia). simpl. f_equal. lia.
      + replace (_ <=? u64_max) with false by (symmetry; apply Z.leb_gt; lia). by rewrite andb_false_r.
    - apply last_None in Hl as ->. done. }
  unfold acceptable. destruct (not_older acc d); [|by rewrite !andb_false_r].
  destruct (Z.of_nat (length acc) <? u64_max); [|by rewrite !andb_false_r]. rewrite !andb_true_r.
  destruct (catalog_snapshot_try_new _ _ _ _ _) as [s| |] eqn:Hs; simpl in *;
    destruct ((0 <=? d_observed d) && _); simplify_eq/=; try (by rewrite andb_false_r).
  try rewrite andb_true_r. destruct d as [dt dm dob]; simpl. destruct (decide (t = dt)) as [->|Hne].
  - by rewrite lookup_insert_eq, bool_decide_eq_true_2.
  - by rewrite lookup_insert_ne, bool_decide_eq_false_2.
Qed.

Lemma record_one_frame st d :
  store_policy (record_one st d) = store_policy st /\ store_poisoned (record_one st d) = store_poisoned st.
Proof. unfold record_one, record_success. unfold_m. by repeat case_match; simplify_eq/=. Qed.

Lemma store_run_retained policy ds :
  policy_ok policy ->
  store_policy (store_run policy ds) = policy /\ store_poisoned (store_run policy ds) = false
  /\ forall t, snapshots (store_run policy ds) !! t = retained_snapshot policy t (accepted policy t ds).
Proof.
  intros Hp. induction ds as [|d ds (Hsp & Hpo & IH)] using rev_ind; [done|].
  unfold store_run, accepted in *. rewrite !fold_left_app. simpl.
  destruct (record_one_frame (fold_left record_one ds (store_new policy)) d) as [-> ->]. split_and!; [done|done|].
  intros t. rewrite fold_left_app. simpl. rewrite (record_one_retained policy _ _ _ _ Hp Hsp Hpo (IH (d_target d))).
  set (prior := fun u => fold_left (accept policy u) ds []) in *.
  change (fold_left (accept policy (d_target d)) ds []) with (prior (d_target d)).
  change (fold_left (accept policy t) ds []) with (prior t). unfold accept.
  destruct (decide (t = d_target d)) as [->|Hne].
  - rewrite bool_decide_eq_true_2 by done. simpl. case_match; [|apply IH].
    unfold retained_snapshot. rewrite last_snoc, length_app. simpl. by rewrite Nat.add_1_r.
  - rewrite !bool_decide_eq_false_2 by congruence. apply IH.
Qed.

(** Freshness of a retained snapshot, stated on the discovery alone. *)
Definition freshness_of (policy : CatalogFreshnessPolicy) (d : Discovery) (now_ms : Z) : CatalogSnapshotFreshness :=
  if decide (now_ms < d_observed d + fresh_for policy) then SFresh
  else if decide (now_ms < d_observed d + expires_after policy) then SStale else SExpired.

Lemma snapshot_status_of policy t n d now_ms :
  d_observed d <= now_ms ->
  snapshot_status_at (snapshot_of policy t n d) now_ms
  = Ok (mkSnapshotStatus (snapshot_of policy t n d) (freshness_of policy d now_ms)
          (d_observed d + refresh_due_after policy <=? now_ms)).
Proof.
  intros Hn. unfold snapshot_status_at, freshness_at, is_refresh_due_at, validate_now_ms, freshness_of. simpl.
  replace (now_ms <? d_observed d) with false by (symmetry; apply Z.ltb_ge; lia). simpl.
  repeat case_match; bool_simp; simplify_eq/=; try lia; done.
Qed.

(** The snapshot registry keeps exactly the last accepted discovery of each
    target.  Whatever discoveries of whatever targets are recorded, a target holds
    the normalised models of its latest acceptable discovery (not before the epoch,
    not older than the previous one, deadlines and version representable), its
    version counts the accepted ones, a refused one changes nothing, targets do not
    influence one another, and the status read later is Fresh, Stale or Expired by
    the policy's windows counted from that discovery. *)
Lemma store_keeps_last_success fresh due expiry policy ds t :
  freshness_policy_try_new fresh due expiry = Ok policy -> expiry <= i64_max ->
  last_success (store_run policy ds) t = Ok (retained_snapshot policy t (accepted policy t ds))
  /\ forall d now_ms, last (accepted policy t ds) = Some d -> d_observed d <= now_ms ->
     catalog_status_at (store_run policy ds) t now_ms
     = Ok (Some (mkSnapshotStatus (snapshot_of policy t (length (accepted policy t ds)) d)
                   (freshness_of policy d now_ms) (d_observed d + refresh_due_after policy <=? now_ms))).
Proof.
  intros Hp Hx. pose proof (freshness_policy_ok _ _ _ _ Hp Hx) as Hok.
  destruct (store_run_retained policy ds Hok) as (_ & Hpo & Hret).
  assert (last_success (store_run policy ds) t = Ok (retained_snapshot policy t (accepted policy t ds))) as Hlast.
  { unfold last_success, lock_snapshots. by rewrite Hpo, <- Hret. }
  split; [done|]. intros d now_ms Hd Hn. unfold catalog_status_at. rewrite Hlast. unfold retained_snapshot.
  rewrite Hd. simpl. by rewrite (snapshot_status_of policy t _ d now_ms Hn).
Qed.

(** ** The diff of one snapshot *)

(** What a round of the second loop does to its model. *)
Definition miss_effect (obs : Z) (model : DiscoveredModel) (state : CatalogDiffModelState)
  : result CatalogDiffError (option CatalogDiffModelState * CatalogDiffEvent) :=
  match state with
  | Present =>
      let? eligible := ok_or RemovalDeadlineOverflow (i64_checked_add obs MIN_CATALOG_REMOVAL_ISOLATION_MS) in
      Ok (Some (Suspected 1 obs eligible), SuspectedRemoved model 1 obs eligible)
  | Suspected misses first eligible =>
      let? next := ok_or ConsecutiveMissingOverflow (u64_checked_add misses 1) in
      if (MIN_CATALOG_SUCCESSFUL_MISSES_FOR_REMOVAL <=? next) && (eligible <=? obs)
      then Ok (None, Removed model next first)
      else Ok (Some (Suspected next first eligible), SuspectedRemoved model next first eligible)
  end.

Lemma miss_model_effect obs model state acc acc' :
  miss_model obs model state acc = Ok acc' ->
  exists st' ev, miss_effect obs model state = Ok (st', ev)
    /\ acc'.2 = acc.2 ++ [ev] /\ acc'.1 !! model = st' /\ forall m, m <> model -> acc'.1 !! m = acc.1 !! m.
Proof.
  unfold miss_model, miss_effect. intros H. unfold result_bind in *.
  repeat (case_match; simplify_eq/=); eexists _, _; (split; [done|]); (split; [done|]);
    split; intros; by simplify_map_eq.
Qed.

Lemma miss_models_effect source obs l acc acc' :
  NoDup l.*1 -> miss_models source obs l acc = Ok acc' ->
  (forall m st, (m, st) ∈ l -> m ∉ source -> exists st' ev,
     miss_effect obs m st = Ok (st', ev) /\ acc'.1 !! m = st')
  /\ (forall m, (m ∉ l.*1) \/ (m ∈ source) -> acc'.1 !! m = acc.1 !! m)
  /\ (forall ev, ev ∈ acc'.2 <-> ev ∈ acc.2
        \/ exists m st st', ((m, st) ∈ l) /\ (m ∉ source) /\ miss_effect obs m st = Ok (st', ev)).
Proof.
  revert acc. induction l as [|[k st] l IH]; intros acc Hnd H; simpl in H.
  - simplify_eq. split; [intros m st Hm; by apply elem_of_nil in Hm|]. split; [done|]. intros ev.
    split; [by left|]. intros [?|(m & st & st' & Hm & _)]; [done|by apply elem_of_nil in Hm].
  - apply NoDup_cons in Hnd as [Hk Hnd]. case_bool_decide as Hsrc.
    + destruct (IH acc Hnd H) as (H1 & H2 & H3). split_and!.
      * intros m st0 [[= -> ->]|Hin]%elem_of_cons Hns; [done|by apply H1].
      * intros m [Hm|Hm]; apply H2; [left; set_solver|by right].
      * intros ev. rewrite H3. split.
        -- intros [?|(m & s & s' & Hin & Hns & Heq)]; [by left|]. right. exists m, s, s'. split; [by right|done].
        -- intros [?|(m & s & s' & [[= -> ->]|Hin]%elem_of_cons & Hns & Heq)]; [by left|done|]. right. by exists m, s, s'.
    + destruct (miss_model obs k st acc) as [acc1| |] eqn:Hmm; simplify_eq/=.
      destruct (miss_model_effect _ _ _ _ _ Hmm) as (st' & ev0 & Heff & Hev & Hkst & Hother).
      destruct (IH acc1 Hnd H) as (H1 & H2 & H3). split_and!.
      * intros m st0 [[= -> ->]|Hin]%elem_of_cons Hns; [|by apply H1].
        exists st', ev0. split; [done|]. rewrite H2; [done|by left].
      * intros m Hm. rewrite H2 by set_solver. apply Hother. set_solver.
      * intros ev. rewrite H3, Hev. setoid_rewrite elem_of_cons. rewrite elem_of_app, list_elem_of_singleton.
        split.
        -- intros [[?| ->]|(m & st0 & st1 & Hin & Hns & Heq)]; [by left| |]; right; eexists _, _, _; eauto.
        -- intros [?|(m & st0 & st1 & [[= -> ->]|Hin] & Hns & Heq)]; [by left; left| |]; [|right; by exists m, st0, st1].
           left. right. congruence.
Qed.

Lemma add_source_models source (retained : DiffModels) evs :
  NoDup source ->
  (forall m, (fold_left add_source_model source (retained, evs)).1 !! m
     = if bool_decide (m ∈ source) then Some Present else retained !! m)
  /\ (forall ev, ev ∈ (fold_left add_source_model source (retained, evs)).2
        <-> ev ∈ evs \/ exists m, ev = Added m /\ m ∈ source /\ retained !! m = None).
Proof.
  revert retained evs. induction source as [|x source IH]; intros retained evs Hnd; simpl.
  - split; [done|]. intros ev. split; [by left|]. intros [?|(m & _ & Hm & _)]; [done|]. by apply elem_of_nil in Hm.
  - apply NoDup_cons in Hnd as [Hx Hnd]. unfold add_source_model at 2 4. simpl.
    destruct (IH (<[x := Present]> retained) (match retained !! x with None => evs ++ [Added x] | Some _ => evs end) Hnd)
      as [Hm Hev]. split.
    + intros m. rewrite Hm. destruct (decide (m = x)) as [->|Hne].
      * rewrite (bool_decide_eq_true_2 (x ∈ x :: source)) by left. case_bool_decide; [done|]. by simplify_map_eq.
      * rewrite lookup_insert_ne by done. by rewrite (bool_decide_ext (m ∈ source) (m ∈ x :: source)) by set_solver.
    + intros ev. rewrite Hev. split.
      * intros [Hin|(m & -> & Hin & Hl)].
        -- destruct (retained !! x) eqn:Hrx; [by left|]. apply elem_of_app in Hin as [?|Hin%list_elem_of_singleton]; [by left|].
           right. exists x. split; [done|]. split; [by left|done].
        -- right. exists m. split; [done|]. apply lookup_insert_None in Hl as [Hl _]. split; [by right|done].
      * intros [Hin|(m & -> & [->|Hin]%elem_of_cons & Hl)].
        -- left. case_match; [done|]. apply elem_of_app. by left.
        -- left. rewrite Hl. apply elem_of_app. right. by apply list_elem_of_singleton.
        -- right. exists m. split; [done|]. split; [done|]. apply lookup_insert_None. split; [done|by intros ->].
Qed.

(** ** What the history of applied snapshots says of a model

    Histories are newest first. *)

Definition lists (m : DiscoveredModel) (s : CatalogSnapshot) : bool := bool_decide (m ∈ cs_models s).

(** The newest snapshots that omit the model, up to the last one that lists it. *)
Fixpoint missing (m : DiscoveredModel) (h : list CatalogSnapshot) : list CatalogSnapshot :=
  match h with
  | [] => []
  | s :: older => if lists m s then [] else s :: missing m older
  end.

Definition ever_listed (m : DiscoveredModel) (h : list CatalogSnapshot) : bool := existsb (lists m) h.

(** A model is retained once listed until it has been omitted by three snapshots
    that span at least a day. *)
Definition model_evidence (h : list CatalogSnapshot) (m : DiscoveredModel) : option CatalogDiffModelState :=
  if negb (ever_listed m h) then None
  else match missing m h, last (missing m h) with
       | newest :: _, Some oldest =>
           let misses := Z.of_nat (length (missing m h)) in
           let first := cs_observed_at_ms oldest in
           if (MIN_CATALOG_SUCCESSFUL_MISSES_FOR_REMOVAL <=? misses)
              && (first + MIN_CATALOG_REMOVAL_ISOLATION_MS <=? cs_observed_at_ms newest)
           then None
           else Some (Suspected misses first (first + MIN_CATALOG_REMOVAL_ISOLATION_MS))
       | _, _ => Some Present
       end.

(** Successive snapshots of a target have newer versions and no earlier times. *)
Definition newer (s s' : CatalogSnapshot) : Prop :=
  cs_version s' < cs_version s /\ cs_observed_at_ms s' <= cs_observed_at_ms s.

Lemma ever_listed_cons m s h : ever_listed m (s :: h) = lists m s || ever_listed m h.
Proof. done. Qed.

Lemma missing_cons m s h : missing m (s :: h) = if lists m s then [] else s :: missing m h.
Proof. done. Qed.

Lemma last_cons_some {A} (x : A) l y : last l = Some y -> last (x :: l) = Some y.
Proof. by destruct l. Qed.

Lemma missing_prefix m h : exists older, h = missing m h ++ older
  /\ (ever_listed m h = true -> exists s older', older = s :: older' /\ lists m s = true)
  /\ Forall (fun s => lists m s = false) (missing m h).
Proof.
  induction h as [|s h (older & Heq & Hlast & Hall)]; simpl; [by exists []|].
  destruct (lists m s) eqn:Hs; simpl.
  - exists (s :: h). split; [done|]. split; [|constructor]. intros _. by exists s, h.
  - exists older. rewrite Heq at 1. split; [done|]. split; [done|]. by constructor.
Qed.

(** One more snapshot moves the evidence of a model the way the diff does. *)
Lemma evidence_step h s m :
  StronglySorted newer (s :: h) ->
  model_evidence (s :: h) m
  = if lists m s then Some Present
    else match model_evidence h m with
         | None => None
         | Some Present => Some (Suspected 1 (cs_observed_at_ms s) (cs_observed_at_ms s + MIN_CATALOG_REMOVAL_ISOLATION_MS))
         | Some (Suspected misses first eligible) =>
             if (MIN_CATALOG_SUCCESSFUL_MISSES_FOR_REMOVAL <=? misses + 1) && (eligible <=? cs_observed_at_ms s)
             then None else Some (Suspected (misses + 1) first eligible)
         end.
Proof.
  intros [Hs Hnew]%StronglySorted_inv. unfold model_evidence. rewrite ever_listed_cons, missing_cons.
  destruct (lists m s); [done|]. simpl orb. destruct (ever_listed m h); [|done]. simpl negb. cbv iota.
  destruct (missing m h) as [|newest l] eqn:Hm; [done|].
  destruct (last (newest :: l)) as [oldest|] eqn:Hl; [|by apply last_None in Hl].
  rewrite (last_cons_some s _ _ Hl).
  replace (Z.of_nat (length (s :: newest :: l))) with (Z.of_nat (length (newest :: l)) + 1) by (simpl; lia).
  set (k := Z.of_nat (length (newest :: l))).
  assert (cs_observed_at_ms newest <= cs_observed_at_ms s) as Hle.
  { destruct (missing_prefix m h) as (older & Hh & _). rewrite Hm in Hh. rewrite Hh in Hnew.
    rewrite Forall_forall in Hnew. apply (Hnew newest). by left. }
  unfold MIN_CATALOG_SUCCESSFUL_MISSES_FOR_REMOVAL.
  destruct ((3 <=? k) && _) eqn:Hrm; [|done]. bool_simp.
  replace (3 <=? k + 1) with true by (symmetry; apply Z.leb_le; lia).
  by replace (_ <=? cs_observed_at_ms s) with true by (symmetry; apply Z.leb_le; lia).
Qed.

Lemma i64_checked_add_Some a b c : i64_checked_add a b = Some c -> c = a + b.
Proof. unfold i64_checked_add, i64_try_from. by case_match; intros; simplify_eq. Qed.

Lemma u64_checked_add_Some a b c : u64_checked_add a b = Some c -> c = a + b.
Proof. unfold u64_checked_add, u64_try_from. by case_match; intros; simplify_eq. Qed.

Lemma miss_effect_evidence obs m st st' ev :
  miss_effect obs m st = Ok (st', ev) ->
  match st with
  | Present => st' = Some (Suspected 1 obs (obs + MIN_CATALOG_REMOVAL_ISOLATION_MS))
  | Suspected misses first eligible =>
      st' = if (MIN_CATALOG_SUCCESSFUL_MISSES_FOR_REMOVAL <=? misses + 1) && (eligible <=? obs)
            then None else Some (Suspected (misses + 1) first eligible)
  end.
Proof.
  unfold miss_effect. destruct st as [|k f el]; simpl; intros H.
  - destruct (i64_checked_add _ _) as [c|] eqn:Hc; simplify_eq/=. by apply i64_checked_add_Some in Hc as ->.
  - destruct (u64_checked_add _ _) as [c|] eqn:Hc; simplify_eq/=. apply u64_checked_add_Some in Hc as ->.
    by case_match; simplify_eq.
Qed.

Lemma sorted_entries_spec (m : DiffModels) :
  NoDup (sorted_entries m).*1 /\ forall k st, (k, st) ∈ sorted_entries m <-> m !! k = Some st.
Proof.
  unfold sorted_entries. split.
  - rewrite sort_by_perm. apply NoDup_fst_map_to_list.
  - intros k st. by rewrite sort_by_perm, elem_of_map_to_list.
Qed.

Definition prior_models (previous : option CatalogDiffTargetState) : DiffModels := default ∅ (diff_models <$> previous).

Lemma lists_source m s : lists m s = bool_decide (m ∈ normalize_models (cs_models s)).
Proof. unfold lists. apply bool_decide_ext. by rewrite elem_of_normalize. Qed.

(** The diff of a snapshot computes the evidence of the longer history. *)
Lemma build_diff_evidence previous h s diff :
  (forall m, prior_models previous !! m = model_evidence h m) -> StronglySorted newer (s :: h) ->
  build_catalog_diff previous s = Ok diff ->
  forall m, diff.1 !! m = model_evidence (s :: h) m.
Proof.
  intros Hev Hs H m. unfold build_catalog_diff in H. fold (prior_models previous) in H.
  destruct (sorted_entries_spec (prior_models previous)) as [Hnd Hin].
  destruct (miss_models_effect _ _ _ _ _ Hnd H) as (H1 & H2 & _).
  destruct (add_source_models (normalize_models (cs_models s)) (prior_models previous) []) as [Hadd _].
  { apply model_lt_nodup, normalize_sorted. }
  rewrite (evidence_step h s m Hs), lists_source, <- Hev. case_bool_decide as Hl.
  - rewrite H2 by (by right). by rewrite Hadd, bool_decide_eq_true_2.
  - destruct (prior_models previous !! m) as [st|] eqn:Hm.
    + apply Hin in Hm as Hm'. destruct (H1 m st Hm' Hl) as (st' & ev & Heff & ->).
      apply miss_effect_evidence in Heff. by destruct st.
    + rewrite H2; [by rewrite Hadd, bool_decide_eq_false_2|]. left. intros ([k st] & -> & Hk)%list_elem_of_fmap.
      apply Hin in Hk. simpl in Hm. congruence.
Qed.

(** What a removal rests on: the snapshot and the applied ones right before it all
    omit the model, there are [k >= 3] of them, the oldest is at least a day older
    than the snapshot, and the one before listed the model. *)
Definition removal_evidence (h : list CatalogSnapshot) (s : CatalogSnapshot) (m : DiscoveredModel) (k first : Z) : Prop :=
  exists missed listing older,
    h = missed ++ listing :: older
    /\ lists m listing = true /\ Forall (fun x => lists m x = false) (s :: missed)
    /\ k = Z.of_nat (length (s :: missed)) /\ 3 <= k
    /\ (cs_observed_at_ms <$> last (s :: missed)) = Some first
    /\ first + 24 * 60 * 60 * 1000 <= cs_observed_at_ms s.

Lemma suspected_evidence h m k first eligible :
  model_evidence h m = Some (Suspected k first eligible) ->
  k = Z.of_nat (length (missing m h)) /\ (cs_observed_at_ms <$> last (missing m h)) = Some first
  /\ eligible = first + MIN_CATALOG_REMOVAL_ISOLATION_MS /\ ever_listed m h = true.
Proof.
  unfold model_evidence. destruct (ever_listed m h); [|done]. simpl negb. cbv iota. intros H.
  destruct (missing m h) as [|x l]; [done|]. destruct (last (x :: l)) as [oldest|] eqn:Hl; [|done].
  case_match; by simplify_eq.
Qed.

Lemma build_diff_removed previous h s diff m k first :
  (forall m, prior_models previous !! m = model_evidence h m) ->
  build_catalog_diff previous s = Ok diff -> Removed m k first ∈ diff.2 -> removal_evidence h s m k first.
Proof.
  intros Hev H Hr. unfold build_catalog_diff in H. fold (prior_models previous) in H.
  destruct (sorted_entries_spec (prior_models previous)) as [Hnd Hin].
  destruct (miss_models_effect _ _ _ _ _ Hnd H) as (_ & _ & H3).
  apply H3 in Hr as [Hr|(m' & st & st' & Hm & Hns & Heff)].
  { apply add_source_models in Hr as [Hr|(? & ? & _)]; [by apply elem_of_nil in Hr|done|].
    apply model_lt_nodup, normalize_sorted. }
  apply Hin in Hm. rewrite Hev in Hm. destruct st as [|k0 f0 el]; simpl in Heff;
    [by destruct (i64_checked_add _ _)|].
  destruct (u64_checked_add k0 1) as [next|] eqn:Hn; simplify_eq/=. apply u64_checked_add_Some in Hn as ->.
  case_match; simplify_eq/=. bool_simp. apply suspected_evidence in Hm as (-> & Hlast & -> & Hever).
  destruct (missing_prefix m h) as (older & Hh & Hlisted & Hall). destruct (Hlisted Hever) as (s' & older' & -> & Hs').
  exists (missing m h), s', older'. unfold MIN_CATALOG_SUCCESSFUL_MISSES_FOR_REMOVAL, MIN_CATALOG_REMOVAL_ISOLATION_MS in *.
  split; [done|]. split; [done|]. split.
  { constructor; [|done]. rewrite lists_source. by apply bool_decide_eq_false_2. }
  split; [simpl; lia|]. split; [done|]. split; [|lia].
  destruct (last (missing m h)) as [o|] eqn:Ho; [|done]. by rewrite (last_cons_some s _ _ Ho).
Qed.

(** ** Previews and applies in any order *)

Record DiffWorld : Type := mkDiffWorld {
  dw_registry : CatalogDiffRegistry;
  dw_previews : list (CatalogSnapshot * CatalogDiffPreview);
  dw_applied : list (CatalogSnapshot * CatalogDiffApplyResult);
}.

Definition diff_start : DiffWorld := mkDiffWorld diff_registry_new [] [].

(** Any caller may preview any snapshot, keep the preview, and apply any kept one
    later, any number of times. *)
Inductive diff_step : DiffWorld -> DiffWorld -> Prop :=
| DPreview r pvs done s p :
    diff_preview r s = Ok p -> diff_step (mkDiffWorld r pvs done) (mkDiffWorld r ((s, p) :: pvs) done)
| DApply r r' pvs done s p res :
    (s, p) ∈ pvs -> diff_apply p r = (Ok res, r') ->
    diff_step (mkDiffWorld r pvs done) (mkDiffWorld r' pvs ((s, res) :: done))
| DRefused r r' pvs done s p e :
    (s, p) ∈ pvs -> diff_apply p r = (Err e, r') -> diff_step (mkDiffWorld r pvs done) (mkDiffWorld r' pvs done).

(** The applied snapshots of one target, newest first. *)
Definition applied_to (t : ModelCatalogTarget) (l : list (CatalogSnapshot * CatalogDiffApplyResult))
  : list CatalogSnapshot := filter (fun s => cs_target s = t) l.*1.

Definition target_matches (h : list CatalogSnapshot) (st : option CatalogDiffTargetState) : Prop :=
  default 0 (generation <$> st) = Z.of_nat (length h)
  /\ (forall m, prior_models st !! m = model_evidence h m)
  /\ match h, st with
     | [], None => True
     | s :: _, Some x => last_snapshot_version x = cs_version s /\ last_observed_at_ms x = cs_observed_at_ms s
     | _, _ => False
     end.

Record diff_inv (w : DiffWorld) : Prop := {
  di_targets : forall t, target_matches (applied_to t (dw_applied w)) (targets (dw_registry w) !! t);
  di_sorted : forall t, StronglySorted newer (applied_to t (dw_applied w));
  di_previews : forall s p, (s, p) ∈ dw_previews w ->
    pv_target p = cs_target s
    /\ base_generation p <= Z.of_nat (length (applied_to (cs_target s) (dw_applied w)))
    /\ (base_generation p = Z.of_nat (length (applied_to (cs_target s) (dw_applied w))) ->
        diff_preview (dw_registry w) s = Ok p);
  di_events : forall later s res earlier m k first,
    dw_applied w = later ++ (s, res) :: earlier -> Removed m k first ∈ ar_events res ->
    removal_evidence (applied_to (cs_target s) earlier) s m k first;
}.

Lemma diff_preview_ext r r' s :
  registry_poisoned r = registry_poisoned r' -> targets r !! cs_target s = targets r' !! cs_target s ->
  diff_preview r s = diff_preview r' s.
Proof. intros Hp Ht. unfold diff_preview, lock_targets. rewrite Hp. case_match; [done|]. simpl. by rewrite Ht. Qed.

Lemma diff_preview_inv r s p :
  diff_preview r s = Ok p ->
  exists diff, validate_diff_snapshot (targets r !! cs_target s) s = Ok tt
    /\ build_catalog_diff (targets r !! cs_target s) s = Ok diff
    /\ p = mkPreview (cs_target s) (cs_version s) (default 0 (generation <$> targets r !! cs_target s)) diff.2
             (mkDiffState (default 0 (generation <$> targets r !! cs_target s)) (cs_version s) (cs_observed_at_ms s) diff.1).
Proof.
  unfold diff_preview, lock_targets. intros H. case_match; simplify_eq/=.
  destruct (validate_diff_snapshot _ _) as [[]| |] eqn:Hv; simplify_eq/=.
  destruct (build_catalog_diff _ _) as [diff| |] eqn:Hd; simplify_eq/=. by exists diff.
Qed.

Lemma applied_to_cons t s res l :
  applied_to t ((s, res) :: l) = if decide (cs_target s = t) then s :: applied_to t l else applied_to t l.
Proof. done. Qed.

Lemma diff_apply_cases p r res r' :
  diff_apply p r = (Ok res, r') ->
  default 0 (generation <$> targets r !! pv_target p) = base_generation p
  /\ ar_events res = pv_events p
  /\ registry_poisoned r' = registry_poisoned r
  /\ targets r' = <[pv_target p := mkDiffState (base_generation p + 1) (last_snapshot_version (next_state p))
                       (last_observed_at_ms (next_state p)) (diff_models (next_state p))]> (targets r).
Proof.
  unfold diff_apply, lock_targets. intros H. m_cases H. 
  match goal with Hg : ok_or _ _ = Ok _ |- _ => revert Hg end.
  destruct (u64_checked_add _ _) as [g|] eqn:Hg; simpl; intros [= <-]. apply u64_checked_add_Some in Hg as ->.
  split_and!; congruence.
Qed.

Lemma diff_apply_err p r e r' : diff_apply p r = (Err e, r') -> r' = r.
Proof. unfold diff_apply, lock_targets. intros H. m_cases H; done. Qed.

(** A snapshot the registry accepts is newer than everything applied before it. *)
Lemma validated_newer h st s :
  target_matches h st -> StronglySorted newer h -> validate_diff_snapshot st s = Ok tt ->
  StronglySorted newer (s :: h).
Proof.
  intros (_ & _ & Hlast) Hs Hv. constructor; [done|]. destruct h as [|s0 h]; [constructor|].
  destruct st as [x|]; [|done]. destruct Hlast as [Hlv Hlo]. unfold validate_diff_snapshot in Hv.
  repeat case_match; simplify_eq. bool_simp. apply StronglySorted_inv in Hs as [_ Hall].
  assert (newer s s0) as Hn by (unfold newer; lia). constructor; [done|].
  eapply Forall_impl; [exact Hall|]. unfold newer in *. intros. lia.
Qed.

Lemma diff_inv_preview r pvs done s p :
  diff_inv (mkDiffWorld r pvs done) -> diff_preview r s = Ok p -> diff_inv (mkDiffWorld r ((s, p) :: pvs) done).
Proof.
  intros [Ht Hs Hp He] H. split; simpl in *; [done|done| |done].
  intros s' p' [[= -> ->]|Hin]%elem_of_cons; [|by apply Hp].
  destruct (Ht (cs_target s)) as (Hg & _). apply diff_preview_inv in H as Hi. destruct Hi as (diff & _ & _ & ->).
  split; [done|]. split; [simpl; rewrite Hg; lia|done].
Qed.

Lemma diff_inv_apply r r' pvs done s p res :
  diff_inv (mkDiffWorld r pvs done) -> (s, p) ∈ pvs -> diff_apply p r = (Ok res, r') ->
  diff_inv (mkDiffWorld r' pvs ((s, res) :: done)).
Proof.
  intros [Ht Hs Hp He] Hin Happ. simpl in *. destruct (Hp s p Hin) as (Htg & Hle & Hcur).
  apply diff_apply_cases in Happ as (Hbase & Hevs & Hpo & Htargets). rewrite Htg in *.
  destruct (Ht (cs_target s)) as (Hg & Hm & Hlast). rewrite Hg in Hbase. specialize (Hcur (eq_sym Hbase)).
  destruct (diff_preview_inv _ _ _ Hcur) as (diff & Hv & Hd & Hpeq).
  pose proof (validated_newer _ _ _ (Ht (cs_target s)) (Hs (cs_target s)) Hv) as Hsorted.
  split; simpl.
  - intros t. rewrite applied_to_cons, Htargets. case_decide as Htt.
    + subst t. rewrite lookup_insert_eq. rewrite <- Hbase. split; [simpl; lia|]. split; [|by rewrite Hpeq].
      intros m. rewrite Hpeq. simpl. by apply (build_diff_evidence _ _ _ _ Hm Hsorted Hd).
    + rewrite lookup_insert_ne by done. apply Ht.
  - intros t. rewrite applied_to_cons. case_decide as Htt; [by subst t|apply Hs].
  - intros s' p' Hin'. destruct (Hp s' p' Hin') as (Htg' & Hle' & Hcur'). rewrite applied_to_cons.
    split; [done|]. case_decide as Htt.
    + simpl. split; lia.
    + split; [done|]. intros Heq. rewrite <- (Hcur' Heq). apply diff_preview_ext; [done|].
      by rewrite Htargets, lookup_insert_ne.
  - intros later s' res' earlier m k first Heq Hr. destruct later as [|x later]; simplify_eq/=; [|by eapply He].
    rewrite Hevs in Hr. by apply (build_diff_removed _ _ _ _ _ _ _ Hm Hd).
Qed.

Lemma diff_reachable_inv w : rtc diff_step diff_start w -> diff_inv w.
Proof.
  apply (rtc_preserves diff_inv).
  - intros a b Ha Hab. destruct Hab as [r pvs fin s p H|r r' pvs fin s p res Hin H|r r' pvs fin s p e Hin H].
    + by apply diff_inv_preview.
    + by eapply diff_inv_apply.
    + by apply diff_apply_err in H as ->.
  - split; simpl.
    + intros t. by rewrite lookup_empty.
    + intros t. constructor.
    + intros s p Hin. by apply elem_of_nil in Hin.
    + intros later s res earlier m k first Heq. by destruct later.
Qed.

(** The diff registry is exactly its history.  Under any interleaving of
    previews and applies, including previews that are kept and applied late or
    twice, what the registry holds for a target (how many applies it has seen, and
    whether each model is present, suspected with its count and first miss, or
    gone) is the evidence of the snapshots actually applied to that target: every
    apply was computed from the state left by the one before it. *)
Lemma diff_registry_is_history w t :
  rtc diff_step diff_start w ->
  let h := applied_to t (dw_applied w) in
  let st := targets (dw_registry w) !! t in
  default 0 (generation <$> st) = Z.of_nat (length h) /\ StronglySorted newer h
  /\ forall m, prior_models st !! m = model_evidence h m.
Proof. intros Hw%diff_reachable_inv h st. destruct (di_targets w Hw t) as (? & ? & _). split_and!; [done|by apply di_sorted|done]. Qed.

(** A model is removed only on sufficient evidence.  Whenever an applied diff
    reports a removal, the snapshot and the ones applied to the same target right
    before it omitted the model without exception, there were at least three, the
    first miss is at least a day old, and before that the model was listed.  A
    failed discovery or another credential's discovery can never contribute. *)
Lemma removal_needs_evidence w later s res earlier m k first :
  rtc diff_step diff_start w -> dw_applied w = later ++ (s, res) :: earlier ->
  Removed m k first ∈ ar_events res ->
  removal_evidence (applied_to (cs_target s) earlier) s m k first.
Proof. intros Hw%diff_reachable_inv. by apply di_events. Qed.

(** ** Single-flight discovery *)

(** The phases in which a flight is listed in the table. *)
Definition listed_phase (p : TaskPhase) : Prop :=
  match p with Calling | Returned _ | Unwound => True | Unlisted _ | Published _ => False end.

Definition phase_result (p : TaskPhase) : option ModelCatalogResult :=
  match p with Returned r | Unlisted r | Published r => Some r | Calling | Unwound => None end.

(** What a source call can have produced: its error, or its models normalised. *)
Definition discovered (r : ModelCatalogResult) : Prop :=
  match r with
  | Ok models => StronglySorted model_lt models
  | Err _ => True
  | Panic => False
  end.

Record sync_inv (w : SyncWorld) : Prop := {
  si_table : forall t f, in_flight w !! t = Some f <->
    exists p, flights w !! f = Some (mkFlight t p) /\ listed_phase p;
  si_callers : forall c, c ∈ callers w -> exists p, flights w !! joined c = Some (mkFlight (caller_target c) p);
  si_results : forall f t p r, flights w !! f = Some (mkFlight t p) -> phase_result p = Some r -> discovered r;
}.

Lemma sync_inv_phase w f t p p' :
  sync_inv w -> flights w !! f = Some (mkFlight t p) -> (listed_phase p <-> listed_phase p') ->
  (forall r, phase_result p' = Some r -> discovered r) -> sync_inv (set_phase f p' w).
Proof.
  intros [Ht Hc Hr] Hf Hp Hd. split; simpl.
  - intros u g. rewrite Ht. destruct (decide (g = f)) as [->|Hne].
    + rewrite list_lookup_alter_eq, Hf. simpl. naive_solver.
    + by rewrite list_lookup_alter_ne by done.
  - intros c Hin. destruct (Hc c Hin) as [q Hq]. destruct (decide (joined c = f)) as [<-|Hne].
    + exists p'. rewrite list_lookup_alter_eq, Hq. done.
    + exists q. by rewrite list_lookup_alter_ne.
  - intros g u q r Hg Hq. destruct (decide (g = f)) as [->|Hne].
    + rewrite list_lookup_alter_eq, Hf in Hg. simplify_eq/=. by apply Hd.
    + rewrite list_lookup_alter_ne in Hg by done. by eapply Hr.
Qed.

Lemma sync_inv_unlist w f t r :
  sync_inv w -> flights w !! f = Some (mkFlight t (Returned r)) -> sync_inv (unlist f r w).
Proof.
  intros Hinv Hf. pose proof Hinv as [Ht Hc Hr]. unfold unlist. rewrite Hf. simpl.
  assert (in_flight w !! t = Some f) as Hlist by (apply Ht; by exists (Returned r)).
  rewrite Hlist, bool_decide_eq_true_2 by done. unfold set_phase. simpl. split; simpl.
  - intros u g. destruct (decide (u = t)) as [->|Hu].
    + rewrite lookup_delete_eq. split; [done|]. intros (p & Hg & Hp). destruct (decide (g = f)) as [->|Hne].
      * rewrite list_lookup_alter_eq, Hf in Hg. by simplify_eq/=.
      * rewrite list_lookup_alter_ne in Hg by done. assert (in_flight w !! t = Some g) by (apply Ht; by exists p). congruence.
    + rewrite lookup_delete_ne by done. rewrite Ht. destruct (decide (g = f)) as [->|Hne].
      * rewrite list_lookup_alter_eq, Hf. simpl. naive_solver.
      * by rewrite list_lookup_alter_ne by done.
  - intros c Hin. destruct (Hc c Hin) as [q Hq]. destruct (decide (joined c = f)) as [<-|Hne].
    + exists (Unlisted r). rewrite list_lookup_alter_eq, Hq. done.
    + exists q. by rewrite list_lookup_alter_ne.
  - intros g u q r' Hg Hq. destruct (decide (g = f)) as [->|Hne].
    + rewrite list_lookup_alter_eq, Hf in Hg. simplify_eq/=. by eapply Hr.
    + rewrite list_lookup_alter_ne in Hg by done. by eapply Hr.
Qed.

Lemma sync_inv_synchronize w t : sync_inv w -> sync_inv (synchronize t w).2.
Proof.
  intros [Ht Hc Hr]. unfold synchronize. destruct (in_flight w !! t) as [f|] eqn:Hf; simpl.
  - split; simpl; [done| |done]. intros c [Hin| ->%list_elem_of_singleton]%elem_of_app; [by apply Hc|].
    apply Ht in Hf as (p & Hp & _). by exists p.
  - assert (forall g x, flights w !! g = Some x -> (flights w ++ [mkFlight t Calling]) !! g = Some x) as Hold.
    { intros g x Hg. rewrite lookup_app_l; [done|]. by eapply lookup_lt_Some. }
    assert (forall g x, (flights w ++ [mkFlight t Calling]) !! g = Some x ->
      flights w !! g = Some x \/ (g = length (flights w) /\ x = mkFlight t Calling)) as Hnew.
    { intros g x [?|[? Hx]]%lookup_app_Some; [by left|]. right. apply list_lookup_singleton_Some in Hx as [? <-]. split; [lia|done]. }
    split; simpl.
    + intros u g. destruct (decide (u = t)) as [->|Hu].
      * rewrite lookup_insert_eq. split.
        -- intros [= <-]. exists Calling. by rewrite lookup_app_r, Nat.sub_diag.
        -- intros (p & [Hg|[-> _]]%Hnew & Hp); [|done].
           assert (in_flight w !! t = Some g) by (apply Ht; by exists p). congruence.
      * rewrite lookup_insert_ne, Ht by done. split; intros (p & Hg & Hp); exists p; split; auto.
        apply Hnew in Hg as [?|[_ ?]]; [done|]. by simplify_eq.
    + intros c [Hin| ->%list_elem_of_singleton]%elem_of_app.
      * destruct (Hc c Hin) as [p Hp]. exists p. by apply Hold.
      * exists Calling. simpl. by rewrite lookup_app_r, Nat.sub_diag.
    + intros g u p r [Hg|[_ [= -> ->]]]%Hnew Hp; [by eapply Hr|done].
Qed.

Lemma sync_reachable_inv w w' : sync_inv w -> rtc sync_step w w' -> sync_inv w'.
Proof.
  apply rtc_preserves. intros a b Ha Hab. destruct Hab as [? t|? f t models|? f t e|? f t|? f t r|? f t r].
  - by apply sync_inv_synchronize.
  - eapply sync_inv_phase; [done|done|done|]. intros r [= <-]. apply normalize_sorted.
  - eapply sync_inv_phase; [done|done|done|]. by intros r [= <-].
  - by eapply sync_inv_phase.
  - by eapply sync_inv_unlist.
  - eapply sync_inv_phase; [done|done|done|]. intros r' [= <-]. by apply (si_results _ Ha f t (Unlisted r)).
Qed.

Lemma sync_inv_start : sync_inv scheduler_new.
Proof.
  split; simpl.
  - intros t f. rewrite lookup_empty. split; [done|]. by intros (p & Hp & _).
  - intros c Hin. by apply elem_of_nil in Hin.
  - done.
Qed.

(** A caller waits until its flight is published, also on a flight that unwound. *)
Lemma wait_exact w f t p :
  sync_inv w -> flights w !! f = Some (mkFlight t p) ->
  wait_for_result w f = match p with Published r => Some r | _ => None end.
Proof.
  intros Hinv Hf. unfold wait_for_result, sender_exists. rewrite Hf. destruct p; try done.
  rewrite bool_decide_eq_true_2; [done|]. apply (si_table w Hinv). by exists Unwound.
Qed.

Lemma set_phase_lookup w f t p p' :
  flights w !! f = Some (mkFlight t p) -> flights (set_phase f p' w) !! f = Some (mkFlight t p').
Proof. intros Hf. simpl. by rewrite list_lookup_alter_eq, Hf. Qed.

Lemma unlist_lookup w f t p r :
  flights w !! f = Some (mkFlight t p) -> flights (unlist f r w) !! f = Some (mkFlight t (Unlisted r)).
Proof.
  intros Hf. unfold unlist. rewrite Hf. simpl. case_match; simpl; by rewrite list_lookup_alter_eq, Hf.
Qed.

(** From any phase but a panic the task alone reaches publication. *)
Lemma flight_publishes w f t p :
  flights w !! f = Some (mkFlight t p) -> p <> Unwound ->
  exists w' r, rtc sync_step w w' /\ flights w' !! f = Some (mkFlight t (Published r)).
Proof.
  assert (forall w r, flights w !! f = Some (mkFlight t (Unlisted r)) ->
    exists w' r', rtc sync_step w w' /\ flights w' !! f = Some (mkFlight t (Published r'))) as Hun.
  { intros v r Hv. exists (set_phase f (Published r) v), r. split; [|by eapply set_phase_lookup].
    by eapply rtc_once, SPublish. }
  assert (forall w r, flights w !! f = Some (mkFlight t (Returned r)) ->
    exists w' r', rtc sync_step w w' /\ flights w' !! f = Some (mkFlight t (Published r'))) as Hret.
  { intros v r Hv. destruct (Hun (unlist f r v) r) as (w' & r' & Hs & Hp); [by eapply unlist_lookup|].
    exists w', r'. split; [|done]. eapply rtc_l; [by eapply SUnlist|done]. }
  intros Hf Hp. destruct p as [|r|r|r|]; [|by eapply Hret|by eapply Hun|by exists w, r|done].
  destruct (Hret (set_phase f (Returned (source_result (Ok []))) w) (source_result (Ok []))) as (w' & r' & Hs & Hpub).
  { by eapply set_phase_lookup. }
  exists w', r'. split; [|done]. eapply rtc_l; [by eapply SReturn|done].
Qed.

(** C35: Discovery is single-flight per target.  In every reachable state at most
    one source call is running for a target; a caller is answered only with the
    result of a discovery of exactly its own Endpoint and credential, sorted and
    without duplicates when it succeeded; and as long as the source does not panic
    every waiting caller can still be answered by its task alone. *)
Theorem discovery_is_single_flight w :
  rtc sync_step scheduler_new w ->
  (forall f g t, flights w !! f = Some (mkFlight t Calling) -> flights w !! g = Some (mkFlight t Calling) -> f = g)
  /\ (forall c r, c ∈ callers w -> wait_for_result w (joined c) = Some r ->
        flights w !! joined c = Some (mkFlight (caller_target c) (Published r)) /\ discovered r)
  /\ (forall c t, c ∈ callers w -> flights w !! joined c <> Some (mkFlight t Unwound) ->
        t = caller_target c ->
        exists w' r, rtc sync_step w w' /\ wait_for_result w' (joined c) = Some r).
Proof.
  intros Hw. pose proof (sync_reachable_inv _ _ sync_inv_start Hw) as Hinv. split_and!.
  - intros f g t Hf Hg. assert (in_flight w !! t = Some f) by (apply (si_table w Hinv); by exists Calling).
    assert (in_flight w !! t = Some g) by (apply (si_table w Hinv); by exists Calling). congruence.
  - intros c r Hc Hr. destruct (si_callers w Hinv c Hc) as [p Hp]. rewrite (wait_exact _ _ _ _ Hinv Hp) in Hr.
    destruct p; simplify_eq. split; [done|]. by eapply (si_results w Hinv).
  - intros c t Hc Hun ->. destruct (si_callers w Hinv c Hc) as [p Hp].
    destruct (flight_publishes w (joined c) (caller_target c) p Hp) as (w' & r & Hs & Hpub); [congruence|].
    exists w', r. split; [done|]. rewrite (wait_exact _ _ _ _ (sync_reachable_inv _ _ Hinv Hs) Hpub). done.
Qed.

Lemma unwound_stays w w' f t :
  rtc sync_step w w' -> flights w !! f = Some (mkFlight t Unwound) -> flights w' !! f = Some (mkFlight t Unwound).
Proof.
  intros Hs Hf. revert Hf. induction Hs as [|a b c Hab _ IH]; [done|]. intros Hf. apply IH. clear IH.
  assert (forall g q p, flights a !! g = Some q -> phase q <> Unwound ->
    flights (set_phase g p a) !! f = Some (mkFlight t Unwound)) as Hset.
  { intros g q p Hg Hq. simpl. rewrite list_lookup_alter_ne; [done|]. intros ->. by simplify_eq. }
  destruct Hab as [? u|? g u models|? g u e|? g u|? g u r|? g u r]; try (by eapply Hset).
  - unfold synchronize. case_match; simpl; [done|]. by apply lookup_app_l_Some.
  - unfold unlist. rewrite H. simpl. case_match; by eapply Hset.
Qed.

(** A discovery whose source panics blocks its target for good.  The task is
    gone without publishing, but the table keeps the flight and with it the sender:
    no caller that joined is ever answered, and every later caller of that target
    joins the dead flight instead of starting a discovery. *)
Lemma panicked_discovery_strands_target w f t w' :
  rtc sync_step scheduler_new w -> flights w !! f = Some (mkFlight t Unwound) -> rtc sync_step w w' ->
  wait_for_result w' f = None /\ (synchronize t w').1 = f.
Proof.
  intros Hw Hf Hs. assert (sync_inv w') as Hinv.
  { eapply sync_reachable_inv; [|exact Hs]. by eapply sync_reachable_inv; [apply sync_inv_start|]. }
  pose proof (unwound_stays _ _ _ _ Hs Hf) as Hf'. split; [by rewrite (wait_exact _ _ _ _ Hinv Hf')|].
  unfold synchronize. replace (in_flight w' !! t) with (Some f); [done|].
  symmetry. apply (si_table w' Hinv). by exists Unwound.
Qed.

(** ** Witnesses *)

Definition ex_target : ModelCatalogTarget := mkCatalogTarget (mkId "ep") (mkId "cred").
Definition ex_model : DiscoveredModel := mkModel "grok-4".
Definition ex_day : Z := 24 * 60 * 60 * 1000.

Lemma store_keeps_last_success_witness :
  exists s, last_success (store_run policy_default
       [mkDiscovery ex_target [ex_model; ex_model] 5; mkDiscovery ex_target [] 3; mkDiscovery ex_target [ex_model] 9])
       ex_target = Ok (Some s) /\ cs_version s = 2 /\ cs_models s = [ex_model].
Proof.
  eexists. split.
  - rewrite (proj1 (store_keeps_last_success (6 * 60 * 60 * 1000) (24 * 60 * 60 * 1000) (72 * 60 * 60 * 1000) policy_default
      _ ex_target ltac:(reflexivity) ltac:(vm_compute; congruence))).
    vm_compute. reflexivity.
  - done.
Defined.

Definition ex_snapshot (version observed : Z) (models : list DiscoveredModel) : CatalogSnapshot :=
  mkCatalogSnapshot ex_target models version observed (observed + 1) (observed + 2) (observed + 3).

Definition preview_of (w : DiffWorld) (s : CatalogSnapshot) : CatalogDiffPreview :=
  match diff_preview (dw_registry w) s with
  | Ok p => p
  | _ => mkPreview (cs_target s) 0 0 [] (mkDiffState 0 0 0 ∅)
  end.

(** Preview a snapshot and apply it at once. *)
Definition ex_round (w : DiffWorld) (s : CatalogSnapshot) : DiffWorld :=
  match diff_apply (preview_of w s) (dw_registry w) with
  | (Ok res, r') => mkDiffWorld r' ((s, preview_of w s) :: dw_previews w) ((s, res) :: dw_applied w)
  | _ => w
  end.

Definition round_ok (w : DiffWorld) (s : CatalogSnapshot) : bool :=
  match diff_preview (dw_registry w) s, (diff_apply (preview_of w s) (dw_registry w)).1 with
  | Ok _, Ok _ => true
  | _, _ => false
  end.

Lemma ex_round_steps w s : round_ok w s = true -> rtc diff_step w (ex_round w s).
Proof.
  destruct w as [r pvs fin]. unfold round_ok, ex_round, preview_of. simpl. intros H.
  destruct (diff_preview r s) as [p| |] eqn:Hp; [|done|done].
  destruct (diff_apply p r) as [[res| |] r'] eqn:Ha; simpl in *; [|done|done].
  eapply rtc_l; [by apply DPreview|]. eapply rtc_once, DApply; [by left|done].
Qed.

Definition ex_history : list CatalogSnapshot :=
  [ex_snapshot 1 0 [ex_model]; ex_snapshot 2 5 []; ex_snapshot 3 7 []; ex_snapshot 4 (5 + ex_day) []].

Definition ex_world : DiffWorld := fold_left ex_round ex_history diff_start.

Lemma ex_world_reachable : rtc diff_step diff_start ex_world.
Proof.
  unfold ex_world, ex_history. cbn [fold_left].
  repeat (etransitivity; [|apply ex_round_steps; vm_compute; reflexivity]). apply rtc_refl.
Qed.

Lemma diff_registry_is_history_witness :
  prior_models (targets (dw_registry ex_world) !! ex_target) !! ex_model = None
  /\ default 0 (generation <$> targets (dw_registry ex_world) !! ex_target) = 4.
Proof.
  destruct (diff_registry_is_history ex_world ex_target ex_world_reachable) as (Hg & _ & Hm).
  split; [rewrite Hm|rewrite Hg]; vm_compute; reflexivity.
Defined.

Definition ex_result : CatalogDiffApplyResult := mkApplyResult ex_target 4 4 [Removed ex_model 3 5].

Lemma removal_needs_evidence_witness :
  removal_evidence [ex_snapshot 3 7 []; ex_snapshot 2 5 []; ex_snapshot 1 0 [ex_model]]
    (ex_snapshot 4 (5 + ex_day) []) ex_model 3 5.
Proof.
  apply (removal_needs_evidence ex_world [] (ex_snapshot 4 (5 + ex_day) []) ex_result (drop 1 (dw_applied ex_world))).
  - apply ex_world_reachable.
  - vm_compute. reflexivity.
  - apply list_elem_of_singleton. reflexivity.
Defined.

Definition ex_sync : SyncWorld := (synchronize ex_target (synchronize ex_target scheduler_new).2).2.

Lemma ex_sync_reachable : rtc sync_step scheduler_new ex_sync.
Proof. eapply rtc_l; [apply (SSynchronize _ ex_target)|]. apply rtc_once, (SSynchronize _ ex_target). Qed.

Lemma discovery_is_single_flight_witness :
  exists w' r, rtc sync_step ex_sync w' /\ wait_for_result w' 0%nat = Some r.
Proof.
  apply (proj2 (proj2 (discovery_is_single_flight ex_sync ex_sync_reachable)) (mkCaller ex_target 0) ex_target).
  - vm_compute. left.
  - vm_compute. congruence.
  - reflexivity.
Defined.

Lemma panicked_discovery_strands_target_witness :
  (synchronize ex_target (set_phase 0 Unwound ex_sync)).1 = 0%nat.
Proof.
  apply (panicked_discovery_strands_target (set_phase 0 Unwound ex_sync) 0 ex_target (set_phase 0 Unwound ex_sync)).
  - eapply rtc_r; [apply ex_sync_reachable|]. by apply (SPanic _ 0%nat ex_target).
  - reflexivity.
  - apply rtc_refl.
Defined.
