(* ===== verification/ClientKey.v ===== *)
(** * Client keys

    Models [crates/gateway-auth/src/client_key.rs] and the in-memory
    authenticator of [lib.rs]: the canonical [rgw_<prefix>_<secret>] text, issuing
    a key from random bytes, and verifying a presented key against a stored
    record.

    HMAC-SHA256 (crates [hmac] and [sha2]) and the operating system's randomness
    are parameters: [hmac pepper text] is the digest, [None] when the MAC cannot
    be initialised, and the random bytes are arguments of [issue]. *)

From S2P Require Import Prelude Text Core.
From Stdlib Require Import Strings.Byte.
Local Open Scope string_scope.
Local Open Scope Z_scope.

(** ** Data *)

Abbreviation Bytes := (list Byte.byte).

Definition CLIENT_KEY_PEPPER_BYTES : Z := 32.
Definition CLIENT_KEY_DIGEST_BYTES : Z := 32.
Definition PUBLIC_PREFIX_RANDOM_BYTES : nat := 8.
Definition SECRET_RANDOM_BYTES : nat := 32.
Definition PUBLIC_PREFIX_HEX_LENGTH : nat := 16.
Definition SECRET_HEX_LENGTH : nat := 64.
Definition CLIENT_KEY_SCHEME : string := "rgw".
Definition CLIENT_KEY_SCHEME_SEPARATOR : ascii := "_"%char.

Inductive ClientKeyError : Type :=
| InvalidPepperLength (actual : Z)
| InvalidPepperFile
| PepperLoadIo
| InvalidClientKeyPrefix
| InvalidDigestLength (actual : Z)
| InvalidExpiryTimestamp
| InvalidCurrentTimestamp
| RandomnessUnavailable
| HmacInitializationFailed.

Record ClientKeyPepper : Type := mkPepper { pepper_bytes : Bytes }.

Definition pepper_try_from_bytes (bytes : Bytes) : result ClientKeyError ClientKeyPepper :=
  if negb (Z.of_nat (length bytes) =? CLIENT_KEY_PEPPER_BYTES)
  then Err (InvalidPepperLength (Z.of_nat (length bytes)))
  else Ok (mkPepper bytes).

Record ClientKeyPrefix : Type := mkPrefix { prefix_text : string }.

#[export] Instance ClientKeyPrefix_eq_dec : EqDecision ClientKeyPrefix.
Proof. solve_decision. Defined.
#[export] Instance ClientKeyPrefix_countable : Countable ClientKeyPrefix.
Proof. apply (inj_countable' prefix_text mkPrefix). by intros []. Defined.

Record ClientKeyDigest : Type := mkDigest { digest_bytes : Bytes }.

Definition digest_try_from_persisted (bytes : Bytes) : result ClientKeyError ClientKeyDigest :=
  if negb (Z.of_nat (length bytes) =? CLIENT_KEY_DIGEST_BYTES)
  then Err (InvalidDigestLength (Z.of_nat (length bytes)))
  else Ok (mkDigest bytes).

Inductive ClientKeyStatus : Type := KeyActive | KeyDisabled | KeyRevoked.

#[export] Instance ClientKeyStatus_eq_dec : EqDecision ClientKeyStatus.
Proof. solve_decision. Defined.

Record ClientKeyRecord : Type := mkRecord {
  rec_client_key_id : ClientKeyId;
  rec_access_group_id : AccessGroupId;
  rec_prefix : ClientKeyPrefix;
  rec_secret_digest : ClientKeyDigest;
  rec_status : ClientKeyStatus;
  rec_expires_at_ms : option Z;
}.

Record IssuedClientKey : Type := mkIssued {
  issued_record : ClientKeyRecord;
  issued_presented_key : string;
}.

(** ** Text *)

Definition hex_char (a : ascii) : bool :=
  let n := Z.of_N (N_of_ascii a) in ((48 <=? n) && (n <=? 57)) || ((97 <=? n) && (n <=? 102)).

Definition is_lower_hex (value : string) (expected_length : nat) : bool :=
  bool_decide (String.length value = expected_length) && all_chars hex_char value.

(** [HEX[nibble]] of [b"0123456789abcdef"]. *)
Definition hex_digit (nibble : Z) : ascii :=
  ascii_of_N (Z.to_N (if nibble <? 10 then 48 + nibble else 87 + nibble)).

Fixpoint encode_lower_hex (bytes : Bytes) : string :=
  match bytes with
  | [] => EmptyString
  | b :: rest =>
      let n := Z.of_N (Byte.to_N b) in
      String (hex_digit (Z.shiftr n 4)) (String (hex_digit (Z.land n 15)) (encode_lower_hex rest))
  end.

(** ** Prefixes and records *)

Definition prefix_try_new (value : string) : result ClientKeyError ClientKeyPrefix :=
  match strip_prefix CLIENT_KEY_SCHEME value with
  | None => Err InvalidClientKeyPrefix
  | Some segment =>
      match strip_prefix_char CLIENT_KEY_SCHEME_SEPARATOR segment with
      | None => Err InvalidClientKeyPrefix
      | Some segment' =>
          if negb (is_lower_hex segment' PUBLIC_PREFIX_HEX_LENGTH) then Err InvalidClientKeyPrefix
          else Ok (mkPrefix value)
      end
  end.

Definition scheme_text : string := CLIENT_KEY_SCHEME +:+ String CLIENT_KEY_SCHEME_SEPARATOR EmptyString.

Definition from_segment (segment : string) : result ClientKeyError ClientKeyPrefix :=
  prefix_try_new (scheme_text +:+ segment).

Definition parse_presented_key_prefix (presented_key : string) : result ClientKeyError ClientKeyPrefix :=
  match strip_prefix CLIENT_KEY_SCHEME presented_key with
  | None => Err InvalidClientKeyPrefix
  | Some remainder =>
      match strip_prefix_char CLIENT_KEY_SCHEME_SEPARATOR remainder with
      | None => Err InvalidClientKeyPrefix
      | Some remainder' =>
          match split_once CLIENT_KEY_SCHEME_SEPARATOR remainder' with
          | None => Err InvalidClientKeyPrefix
          | Some (prefix_segment, secret_segment) =>
              if contains CLIENT_KEY_SCHEME_SEPARATOR secret_segment
                 || negb (is_lower_hex prefix_segment PUBLIC_PREFIX_HEX_LENGTH)
                 || negb (is_lower_hex secret_segment SECRET_HEX_LENGTH)
              then Err InvalidClientKeyPrefix
              else from_segment prefix_segment
          end
      end
  end.

Definition validate_expiry (expires_at_ms : option Z) : result ClientKeyError unit :=
  match expires_at_ms with
  | Some value => if value <? 0 then Err InvalidExpiryTimestamp else Ok tt
  | None => Ok tt
  end.

Definition validate_now (now_ms : Z) : result ClientKeyError unit :=
  if now_ms <? 0 then Err InvalidCurrentTimestamp else Ok tt.

Definition record_try_new (id : ClientKeyId) (group : AccessGroupId) (prefix : ClientKeyPrefix)
    (digest : ClientKeyDigest) (status : ClientKeyStatus) (expires : option Z)
  : result ClientKeyError ClientKeyRecord :=
  let? _ := validate_expiry expires in
  Ok (mkRecord id group prefix digest status expires).

Definition set_status (r : ClientKeyRecord) (status : ClientKeyStatus) : ClientKeyRecord :=
  mkRecord (rec_client_key_id r) (rec_access_group_id r) (rec_prefix r) (rec_secret_digest r)
    status (rec_expires_at_ms r).

Definition permits_at (r : ClientKeyRecord) (now_ms : Z) : bool :=
  bool_decide (rec_status r = KeyActive)
  && match rec_expires_at_ms r with
     | Some expires => now_ms <? expires
     | None => true
     end.

(** ** [ClientKeyService] *)

Section Service.
Context (hmac : Bytes -> string -> option Bytes).
Context (pepper : ClientKeyPepper).

Definition digest (presented_key : string) : result ClientKeyError ClientKeyDigest :=
  let? output := ok_or HmacInitializationFailed (hmac (pepper_bytes pepper) presented_key) in
  Ok (mkDigest output).

Definition issue_from_random_bytes (id : ClientKeyId) (group : AccessGroupId) (expires : option Z)
    (prefix_bytes secret_bytes : Bytes) : result ClientKeyError IssuedClientKey :=
  let prefix_segment := encode_lower_hex prefix_bytes in
  let secret_segment := encode_lower_hex secret_bytes in
  let? prefix := from_segment prefix_segment in
  let presented_key := scheme_text +:+ prefix_segment
                       +:+ String CLIENT_KEY_SCHEME_SEPARATOR secret_segment in
  let? d := digest presented_key in
  let? r := record_try_new id group prefix d KeyActive expires in
  Ok (mkIssued r presented_key).

(** [getrandom::fill] fills both buffers or fails. *)
Definition issue (id : ClientKeyId) (group : AccessGroupId) (expires : option Z)
    (random_prefix random_secret : option Bytes) : result ClientKeyError IssuedClientKey :=
  let? _ := validate_expiry expires in
  let? prefix_bytes := ok_or RandomnessUnavailable random_prefix in
  let? secret_bytes := ok_or RandomnessUnavailable random_secret in
  issue_from_random_bytes id group expires prefix_bytes secret_bytes.

Definition verify (presented_key : string) (r : ClientKeyRecord) (now_ms : Z)
  : result ClientKeyError bool :=
  let? _ := validate_now now_ms in
  match parse_presented_key_prefix presented_key with
  | Ok parsed_prefix =>
      if negb (bool_decide (parsed_prefix = rec_prefix r)) then Ok false
      else
        let? presented_digest := digest presented_key in
        let digest_matches :=
          bool_decide (digest_bytes presented_digest = digest_bytes (rec_secret_digest r)) in
        Ok (digest_matches && permits_at r now_ms)
  | _ => Ok false
  end.
End Service.

(** ** In-memory authenticator (lib.rs) *)

Record AuthenticatedClient : Type := mkAuthenticated {
  auth_client_key_id : ClientKeyId;
  auth_access_group_id : option AccessGroupId;
}.

Inductive InMemoryClientKeyConfigError : Type := EmptyPresentedKey | DuplicatePresentedKey.

Record InMemoryClientKey : Type := mkInMemoryKey {
  mem_presented_key : string;
  mem_client_key_id : ClientKeyId;
  mem_enabled : bool;
}.

Definition in_memory_key_try_new (presented_key : string) (id : ClientKeyId) (enabled : bool)
  : result InMemoryClientKeyConfigError InMemoryClientKey :=
  if bool_decide (presented_key = "") then Err EmptyPresentedKey
  else Ok (mkInMemoryKey presented_key id enabled).

Abbreviation InMemoryEntries := (gmap string (ClientKeyId * bool)).

Fixpoint in_memory_try_new (records : list InMemoryClientKey) (entries : InMemoryEntries)
  : result InMemoryClientKeyConfigError InMemoryEntries :=
  match records with
  | [] => Ok entries
  | r :: rest =>
      match entries !! mem_presented_key r with
      | Some _ => Err DuplicatePresentedKey
      | None =>
          in_memory_try_new rest
            (<[mem_presented_key r := (mem_client_key_id r, mem_enabled r)]> entries)
      end
  end.

Definition client_unauthorized_error : GatewayError := mkError ClientUnauthorized ScopeRequest.

Definition in_memory_authenticate (entries : InMemoryEntries) (presented_key : string)
  : result GatewayError AuthenticatedClient :=
  match entries !! presented_key with
  | None => Err client_unauthorized_error
  | Some (id, enabled) =>
      if negb enabled then Err client_unauthorized_error else Ok (mkAuthenticated id None)
  end.

(** ** Specification *)

(** The canonical text of a key with the given hex segments. *)
Definition key_text (prefix_segment secret_segment : string) : string :=
  scheme_text +:+ prefix_segment +:+ String CLIENT_KEY_SCHEME_SEPARATOR secret_segment.

(** ** Lemmas *)

Lemma strip_scheme rest :
  strip_prefix CLIENT_KEY_SCHEME (scheme_text +:+ rest)
  = Some (String CLIENT_KEY_SCHEME_SEPARATOR rest).
Proof. done. Qed.

Lemma hex_char_not_separator a : hex_char a = true -> Ascii.eqb a CLIENT_KEY_SCHEME_SEPARATOR = false.
Proof.
  intros Ha. destruct (Ascii.eqb_spec a CLIENT_KEY_SCHEME_SEPARATOR) as [->|]; [|done]. by vm_compute in Ha.
Qed.

Lemma hex_no_separator s n : is_lower_hex s n = true -> contains CLIENT_KEY_SCHEME_SEPARATOR s = false.
Proof.
  unfold is_lower_hex, contains. intros [_ Hs]%andb_true_iff. apply negb_false_iff.
  induction s as [|a s IH]; simpl in *; [done|]. apply andb_true_iff in Hs as [Ha Hs].
  by rewrite (hex_char_not_separator a Ha), IH.
Qed.

Lemma from_segment_ok segment :
  is_lower_hex segment PUBLIC_PREFIX_HEX_LENGTH = true ->
  from_segment segment = Ok (mkPrefix (scheme_text +:+ segment)).
Proof. intros Hs. unfold from_segment, prefix_try_new. rewrite strip_scheme. simpl. by rewrite Hs. Qed.

Lemma parse_key_text prefix_segment secret_segment :
  is_lower_hex prefix_segment PUBLIC_PREFIX_HEX_LENGTH = true ->
  is_lower_hex secret_segment SECRET_HEX_LENGTH = true ->
  parse_presented_key_prefix (key_text prefix_segment secret_segment)
  = Ok (mkPrefix (scheme_text +:+ prefix_segment)).
Proof.
  intros Hp Hs. unfold parse_presented_key_prefix, key_text. rewrite strip_scheme.
  change (strip_prefix_char CLIENT_KEY_SCHEME_SEPARATOR (String CLIENT_KEY_SCHEME_SEPARATOR
    (prefix_segment +:+ String CLIENT_KEY_SCHEME_SEPARATOR secret_segment)))
    with (Some (prefix_segment +:+ String CLIENT_KEY_SCHEME_SEPARATOR secret_segment)). cbv beta iota.
  rewrite (proj2 (split_once_spec _ _ prefix_segment secret_segment)).
  - rewrite (hex_no_separator _ _ Hs), Hp, Hs. simpl. by apply from_segment_ok.
  - split; [done|]. by apply hex_no_separator with PUBLIC_PREFIX_HEX_LENGTH.
Qed.

Lemma parse_inv key prefix :
  parse_presented_key_prefix key = Ok prefix ->
  exists prefix_segment secret_segment,
    is_lower_hex prefix_segment PUBLIC_PREFIX_HEX_LENGTH = true
    /\ is_lower_hex secret_segment SECRET_HEX_LENGTH = true
    /\ key = key_text prefix_segment secret_segment
    /\ prefix = mkPrefix (scheme_text +:+ prefix_segment).
Proof.
  unfold parse_presented_key_prefix. intros H.
  destruct (strip_prefix CLIENT_KEY_SCHEME key) as [r1|] eqn:H1; [|done].
  destruct (strip_prefix_char CLIENT_KEY_SCHEME_SEPARATOR r1) as [r2|] eqn:H2; [|done].
  destruct (split_once CLIENT_KEY_SCHEME_SEPARATOR r2) as [[p s]|] eqn:H3; [|done].
  destruct (contains _ s || _ || _) eqn:H4; [done|]. bool_simp.
  apply strip_prefix_Some in H1. apply strip_prefix_Some in H2. apply split_once_spec in H3 as [H3 _].
  exists p, s. rewrite from_segment_ok in H by done. simplify_eq. by split_and!.
Qed.

Lemma hex_digit_char n : 0 <= n < 16 -> hex_char (hex_digit n) = true.
Proof.
  intros Hn. assert (n ∈ [0; 1; 2; 3; 4; 5; 6; 7; 8; 9; 10; 11; 12; 13; 14; 15]) as Hin.
  { rewrite !elem_of_cons. lia. }
  repeat (apply elem_of_cons in Hin as [->|Hin]; [by vm_compute|]). by apply elem_of_nil in Hin.
Qed.

Lemma byte_bounds b : 0 <= Z.of_N (Byte.to_N b) < 256.
Proof. pose proof (Byte.to_N_bounded b). lia. Qed.

Lemma nibbles b :
  0 <= Z.shiftr (Z.of_N (Byte.to_N b)) 4 < 16 /\ 0 <= Z.land (Z.of_N (Byte.to_N b)) 15 < 16.
Proof.
  pose proof (byte_bounds b) as Hb. rewrite Z.shiftr_div_pow2 by lia.
  change 15 with (Z.ones 4). rewrite Z.land_ones by lia. change (2 ^ 4) with 16. split.
  - split; [apply Z.div_pos; lia|apply Z.div_lt_upper_bound; lia].
  - apply Z.mod_pos_bound. lia.
Qed.

Lemma encode_hex bytes n :
  length bytes = n -> is_lower_hex (encode_lower_hex bytes) (2 * n) = true.
Proof.
  intros <-. unfold is_lower_hex. apply andb_true_iff. split.
  - apply bool_decide_eq_true. induction bytes as [|b bytes IH]; simpl; [done|]. rewrite IH. lia.
  - induction bytes as [|b bytes IH]; simpl; [done|]. destruct (nibbles b) as [H1 H2].
    by rewrite (hex_digit_char _ H1), (hex_digit_char _ H2), IH.
Qed.

Lemma hex_digit_inj n m : 0 <= n < 16 -> 0 <= m < 16 -> hex_digit n = hex_digit m -> n = m.
Proof.
  intros Hn Hm H. apply (f_equal (fun a => Z.of_N (N_of_ascii a))) in H. unfold hex_digit in H.
  rewrite !N_ascii_embedding in H by (repeat case_match; bool_simp; lia).
  repeat case_match; bool_simp; lia.
Qed.

Lemma encode_hex_inj b1 b2 : encode_lower_hex b1 = encode_lower_hex b2 -> b1 = b2.
Proof.
  revert b2. induction b1 as [|x b1 IH]; intros [|y b2] H; simpl in H; try done.
  injection H as H1 H2 H3. rewrite (IH b2 H3). f_equal.
  destruct (nibbles x) as [Hx1 Hx2], (nibbles y) as [Hy1 Hy2].
  apply hex_digit_inj in H1; [|done..]. apply hex_digit_inj in H2; [|done..].
  assert (Byte.to_N x = Byte.to_N y) as Hxy.
  { pose proof (byte_bounds x). pose proof (byte_bounds y).
    rewrite !Z.shiftr_div_pow2 in H1 by lia. change 15 with (Z.ones 4) in H2.
    rewrite !Z.land_ones in H2 by lia. change (2 ^ 4) with 16 in *.
    pose proof (Z.div_mod (Z.of_N (Byte.to_N x)) 16). pose proof (Z.div_mod (Z.of_N (Byte.to_N y)) 16). lia. }
  apply (f_equal Byte.of_N) in Hxy. rewrite !Byte.of_to_N in Hxy. by simplify_eq.
Qed.

(** ** Properties *)

(** A presented key parses exactly when it is the canonical text
    [rgw_<16 lower-case hex>_<64 lower-case hex>], and its public prefix is the
    part before the secret; no other text, however close, yields a prefix. *)
Lemma parse_accepts_canonical_keys key prefix :
  parse_presented_key_prefix key = Ok prefix <->
  exists prefix_segment secret_segment,
    is_lower_hex prefix_segment PUBLIC_PREFIX_HEX_LENGTH = true
    /\ is_lower_hex secret_segment SECRET_HEX_LENGTH = true
    /\ key = key_text prefix_segment secret_segment
    /\ prefix = mkPrefix (scheme_text +:+ prefix_segment).
Proof.
  split; [apply parse_inv|]. intros (p & s & Hp & Hs & -> & ->). by apply parse_key_text.
Qed.

(** What issuing yields. *)
Lemma issue_inv hmac pepper id group expires prefix_bytes secret_bytes issued :
  length prefix_bytes = PUBLIC_PREFIX_RANDOM_BYTES ->
  issue hmac pepper id group expires (Some prefix_bytes) (Some secret_bytes) = Ok issued ->
  exists d, hmac (pepper_bytes pepper) (key_text (encode_lower_hex prefix_bytes) (encode_lower_hex secret_bytes)) = Some d
    /\ issued = mkIssued (mkRecord id group (mkPrefix (scheme_text +:+ encode_lower_hex prefix_bytes)) (mkDigest d) KeyActive expires)
                  (key_text (encode_lower_hex prefix_bytes) (encode_lower_hex secret_bytes)).
Proof.
  intros Hp%encode_hex. unfold issue, issue_from_random_bytes, record_try_new.
  destruct (validate_expiry expires) as [[]|e|]; cbn [result_bind ok_or]; [|done..].
  rewrite from_segment_ok by done. cbn [result_bind]. fold (key_text (encode_lower_hex prefix_bytes) (encode_lower_hex secret_bytes)).
  unfold digest. destruct (hmac _ _) as [d|]; simpl; [|done]. intros [= <-]. eauto.
Qed.

Lemma issued_key_verifies hmac pepper id group expires prefix_bytes secret_bytes issued status now_ms :
  length prefix_bytes = PUBLIC_PREFIX_RANDOM_BYTES -> length secret_bytes = SECRET_RANDOM_BYTES -> 0 <= now_ms ->
  issue hmac pepper id group expires (Some prefix_bytes) (Some secret_bytes) = Ok issued ->
  verify hmac pepper (issued_presented_key issued) (set_status (issued_record issued) status) now_ms
  = Ok (bool_decide (status = KeyActive) && match expires with Some x => now_ms <? x | None => true end).
Proof.
  intros Hp Hs Hnow (d & Hd & ->)%issue_inv; [|done]. apply encode_hex in Hp. apply encode_hex in Hs.
  unfold verify, validate_now. destruct (Z.ltb_spec now_ms 0); [lia|]. cbn [result_bind issued_presented_key].
  rewrite parse_key_text by done. simpl rec_prefix. rewrite bool_decide_true by done. cbn [negb].
  unfold digest. rewrite Hd. cbn [ok_or result_bind digest_bytes rec_secret_digest set_status issued_record].
  by rewrite bool_decide_true.
Qed.

(** Issue then verify: a key issued from any random bytes with a valid expiry
    verifies against its own record exactly while the record is active and
    unexpired, and stops verifying as soon as its status is changed. *)
Lemma issue_verify_roundtrip hmac pepper id group expires prefix_bytes secret_bytes d status now_ms :
  length prefix_bytes = PUBLIC_PREFIX_RANDOM_BYTES -> length secret_bytes = SECRET_RANDOM_BYTES ->
  (forall x, expires = Some x -> 0 <= x) -> 0 <= now_ms ->
  hmac (pepper_bytes pepper) (key_text (encode_lower_hex prefix_bytes) (encode_lower_hex secret_bytes)) = Some d ->
  exists issued, issue hmac pepper id group expires (Some prefix_bytes) (Some secret_bytes) = Ok issued
    /\ verify hmac pepper (issued_presented_key issued) (set_status (issued_record issued) status) now_ms
       = Ok (bool_decide (status = KeyActive)
             && match expires with Some x => now_ms <? x | None => true end).
Proof.
  intros Hp Hs He Hnow Hd. assert (validate_expiry expires = Ok tt) as Hv.
  { unfold validate_expiry. destruct expires as [x|]; [|done]. specialize (He x eq_refl).
    destruct (Z.ltb_spec x 0); [lia|done]. }
  eassert (issue hmac pepper id group expires (Some prefix_bytes) (Some secret_bytes) = Ok _) as Hi.
  { unfold issue, issue_from_random_bytes, record_try_new. rewrite Hv. cbn [result_bind ok_or].
    rewrite from_segment_ok by (apply (encode_hex _ _ Hp)). cbn [result_bind].
    fold (key_text (encode_lower_hex prefix_bytes) (encode_lower_hex secret_bytes)). unfold digest. rewrite Hd. done. }
  eexists. split; [exact Hi|]. by eapply issued_key_verifies.
Qed.

(** A key is accepted only if it is canonical, its prefix is the record's
    prefix, its keyed digest is the stored one, and the record is active and not
    expired; every other presented text is refused without an error. *)
Lemma verify_accepts_only hmac pepper key r now_ms :
  verify hmac pepper key r now_ms = Ok true ->
  0 <= now_ms /\ parse_presented_key_prefix key = Ok (rec_prefix r)
  /\ hmac (pepper_bytes pepper) key = Some (digest_bytes (rec_secret_digest r))
  /\ rec_status r = KeyActive /\ (forall x, rec_expires_at_ms r = Some x -> now_ms < x).
Proof.
  unfold verify, validate_now, digest. destruct (Z.ltb_spec now_ms 0); [done|]. cbn [result_bind].
  destruct (parse_presented_key_prefix key) as [p| |] eqn:Hparse; [|done..].
  case_bool_decide as Hp; [|done]. subst p. cbn [negb].
  destruct (hmac _ key) as [d|] eqn:Hd; [|done]. cbn [ok_or result_bind digest_bytes].
  intros Hv. injection Hv as Hv. apply andb_true_iff in Hv as [Hdig Hperm]. bool_simp.
  unfold permits_at in Hperm. apply andb_true_iff in Hperm as [Hst Hex]. bool_simp. subst d.
  split_and!; try done. intros x Hx. rewrite Hx in Hex. by bool_simp.
Qed.

(** And such a key is accepted. *)
Lemma verify_accepts hmac pepper key r now_ms :
  0 <= now_ms -> parse_presented_key_prefix key = Ok (rec_prefix r) ->
  hmac (pepper_bytes pepper) key = Some (digest_bytes (rec_secret_digest r)) ->
  rec_status r = KeyActive -> (forall x, rec_expires_at_ms r = Some x -> now_ms < x) ->
  verify hmac pepper key r now_ms = Ok true.
Proof.
  intros Hnow Hp Hd Hs Hx. unfold verify, validate_now, digest, permits_at. rewrite (proj2 (Z.ltb_ge now_ms 0)) by lia.
  cbn [result_bind]. rewrite Hp, Hd, bool_decide_true by done. cbn [negb ok_or result_bind digest_bytes].
  rewrite !bool_decide_true by done. simpl. destruct (rec_expires_at_ms r) as [x|]; [|done].
  by rewrite (proj2 (Z.ltb_lt now_ms x)) by (by apply Hx).
Qed.

(** The text [rgw_<16 lower-case hex>_<64 lower-case hex>] and its public part. *)
Definition lower_hex (n : nat) (s : string) : Prop :=
  String.length s = n
  /\ Forall (fun a => a ∈ String.list_ascii_of_string "0123456789abcdef") (String.list_ascii_of_string s).

Definition presents (key prefix : string) : Prop :=
  exists public secret, lower_hex 16 public /\ lower_hex 64 secret /\ prefix = "rgw_" +:+ public
    /\ key = prefix +:+ "_" +:+ secret.

Lemma hex_char_iff a : hex_char a = true <-> a ∈ String.list_ascii_of_string "0123456789abcdef".
Proof.
  rewrite <- (bool_decide_eq_true (a ∈ String.list_ascii_of_string "0123456789abcdef")).
  assert (hex_char a = bool_decide (a ∈ String.list_ascii_of_string "0123456789abcdef")) as ->; [|done].
  destruct a as [[] [] [] [] [] [] [] []]; vm_compute; reflexivity.
Qed.

Lemma lower_hex_iff s n : is_lower_hex s n = true <-> lower_hex n s.
Proof.
  unfold is_lower_hex, lower_hex. rewrite andb_true_iff, bool_decide_eq_true. apply and_iff_compat_l.
  induction s as [|a s IH]; simpl; [by split|]. rewrite andb_true_iff, Forall_cons, IH, hex_char_iff. done.
Qed.

Lemma parse_iff_presents key prefix : parse_presented_key_prefix key = Ok prefix <-> presents key (prefix_text prefix).
Proof.
  rewrite parse_accepts_canonical_keys. unfold presents. setoid_rewrite lower_hex_iff.
  split; intros (p & x & Hp & Hx & Ha & Hb); exists p, x; (split_and!; [done..| |]).
  - by rewrite Hb.
  - by rewrite Ha, Hb.
  - by rewrite Hb, Ha.
  - destruct prefix as [text]. simpl in Ha. by rewrite Ha.
Qed.

(** Distinct random bytes give distinct key texts and distinct public
    prefixes: the hexadecimal encoding loses nothing. *)
Lemma issued_keys_distinct p1 s1 p2 s2 :
  length p1 = length p2 ->
  key_text (encode_lower_hex p1) (encode_lower_hex s1) = key_text (encode_lower_hex p2) (encode_lower_hex s2) ->
  p1 = p2 /\ s1 = s2.
Proof.
  intros Hl H. unfold key_text in H. apply (inj (String.append scheme_text)) in H.
  assert (split_once CLIENT_KEY_SCHEME_SEPARATOR
            (encode_lower_hex p1 +:+ String CLIENT_KEY_SCHEME_SEPARATOR (encode_lower_hex s1))
          = Some (encode_lower_hex p1, encode_lower_hex s1)) as H1.
  { apply split_once_spec. split; [done|]. eapply hex_no_separator. by apply encode_hex. }
  assert (split_once CLIENT_KEY_SCHEME_SEPARATOR
            (encode_lower_hex p2 +:+ String CLIENT_KEY_SCHEME_SEPARATOR (encode_lower_hex s2))
          = Some (encode_lower_hex p2, encode_lower_hex s2)) as H2.
  { apply split_once_spec. split; [done|]. eapply hex_no_separator. by apply encode_hex. }
  rewrite H, H2 in H1. injection H1 as He1 He2.
  split; symmetry; by apply encode_hex_inj.
Qed.

(** ** Witnesses *)

(** A stand-in digest: the key's length, padded. *)
Definition ex_hmac (pepper : Bytes) (text : string) : option Bytes :=
  Some (replicate (String.length text) Byte.x2a).
Definition ex_pepper : ClientKeyPepper := mkPepper (replicate 32 Byte.x01).

Lemma issue_verify_roundtrip_witness :
  exists issued,
    issue ex_hmac ex_pepper (mkId "key-1") (mkId "group-1") (Some 100)
      (Some (replicate 8 Byte.x5f)) (Some (replicate 32 Byte.xff)) = Ok issued
    /\ verify ex_hmac ex_pepper (issued_presented_key issued)
         (set_status (issued_record issued) KeyActive) 99 = Ok true.
Proof.
  apply (issue_verify_roundtrip ex_hmac ex_pepper (mkId "key-1") (mkId "group-1") (Some 100)
    (replicate 8 Byte.x5f) (replicate 32 Byte.xff) (replicate 85 Byte.x2a) KeyActive 99);
    [reflexivity|reflexivity|intros x Hx; injection Hx as <-; lia|lia|vm_compute; reflexivity].
Defined.

Definition ex_key : string := key_text (encode_lower_hex (replicate 8 Byte.x5f)) (encode_lower_hex (replicate 32 Byte.xff)).
Definition ex_record : ClientKeyRecord :=
  mkRecord (mkId "key-1") (mkId "group-1")
    (mkPrefix (scheme_text +:+ encode_lower_hex (replicate 8 Byte.x5f)))
    (mkDigest (replicate 85 Byte.x2a)) KeyActive None.

Lemma verify_accepts_only_witness :
  verify ex_hmac ex_pepper ex_key ex_record 7 = Ok true /\ rec_status ex_record = KeyActive.
Proof.
  split; [vm_compute; reflexivity|].
  apply (verify_accepts_only ex_hmac ex_pepper ex_key ex_record 7). vm_compute. reflexivity.
Defined.

Lemma issued_keys_distinct_witness : [Byte.x0a] = [Byte.x0a] /\ [Byte.xff] = [Byte.xff].
Proof. apply (issued_keys_distinct [Byte.x0a] [Byte.xff] [Byte.x0a] [Byte.xff]); reflexivity. Defined.
