(* ===== verification/ApiFormat.v ===== *)
(** * API formats and adapter bindings

    Models [crates/gateway-protocol/src/api_format.rs] (the wire format
    vocabulary, its parser and the registry from adapter id to binding) and the
    protocol formats of [crates/gateway-router/src/protocol_transform.rs]. *)

From S2P Require Import Prelude.
Local Open Scope string_scope.
Local Open Scope list_scope.

Inductive ApiFormat : Type := OpenAiChatCompletions | OpenAiResponses | AnthropicMessages.

#[export] Instance ApiFormat_eq_dec : EqDecision ApiFormat.
Proof. solve_decision. Defined.

Definition format_ALL : list ApiFormat := [OpenAiChatCompletions; OpenAiResponses; AnthropicMessages].

Definition format_as_str (f : ApiFormat) : string :=
  match f with
  | OpenAiChatCompletions => "openai/chat-completions"
  | OpenAiResponses => "openai/responses"
  | AnthropicMessages => "anthropic/messages"
  end.

Definition adapter_ids (f : ApiFormat) : list string :=
  match f with
  | OpenAiChatCompletions => ["openai-compatible.chat-completions"]
  | OpenAiResponses =>
      ["openai-compatible.responses"; "grok.build.responses"; "grok.console.responses";
       "grok.official.responses"; "grok.web.responses"]
  | AnthropicMessages => ["anthropic-compatible.messages"; "kiro.messages"]
  end.

Definition serves (f : ApiFormat) (adapter_id : string) : bool := bool_decide (adapter_id ∈ adapter_ids f).

Definition format_parse (api_format : string) : option ApiFormat :=
  List.find (fun f => bool_decide (format_as_str f = api_format)) format_ALL.

(** ** The adapter registry *)

Inductive ApiFormatAdapterRegistryError : Type :=
| DuplicateAdapterId (f : ApiFormat)
| UnsupportedAdapterId (f : ApiFormat).

Section Registry.
Context {A : Type}.

Fixpoint bind_adapters (bindings : list (ApiFormat * string * A)) (registry : gmap string A)
  : result ApiFormatAdapterRegistryError (gmap string A) :=
  match bindings with
  | [] => Ok registry
  | (f, adapter_id, adapter) :: rest =>
      if negb (serves f adapter_id) then Err (UnsupportedAdapterId f)
      else match registry !! adapter_id with
           | Some _ => Err (DuplicateAdapterId f)
           | None => bind_adapters rest (<[adapter_id := adapter]> registry)
           end
  end.

Definition adapter_registry_try_new (bindings : list (ApiFormat * string * A))
  : result ApiFormatAdapterRegistryError (gmap string A) := bind_adapters bindings ∅.

Definition adapter_resolve (registry : gmap string A) (api_format adapter_id : string) : option (ApiFormat * A) :=
  match format_parse api_format with
  | None => None
  | Some f =>
      if negb (serves f adapter_id) then None
      else (fun a => (f, a)) <$> registry !! adapter_id
  end.

Definition bound_formats (registry : gmap string A) : list ApiFormat :=
  List.filter (fun f => existsb (fun id => bool_decide (is_Some (registry !! id))) (adapter_ids f)) format_ALL.
End Registry.

(** ** Protocol formats *)

Inductive ProtocolFormat : Type := PChatCompletions | PResponses | PMessages.

#[export] Instance ProtocolFormat_eq_dec : EqDecision ProtocolFormat.
Proof. solve_decision. Defined.

Definition as_api_format (p : ProtocolFormat) : ApiFormat :=
  match p with
  | PChatCompletions => OpenAiChatCompletions
  | PResponses => OpenAiResponses
  | PMessages => AnthropicMessages
  end.

Definition from_api_format (api_format : string) : option ProtocolFormat :=
  match format_parse api_format with
  | Some OpenAiChatCompletions => Some PChatCompletions
  | Some OpenAiResponses => Some PResponses
  | Some AnthropicMessages => Some PMessages
  | None => None
  end.

(** ** Lemmas *)

Lemma format_parse_spec api_format f : format_parse api_format = Some f <-> format_as_str f = api_format.
Proof.
  unfold format_parse. split.
  - intros H. apply List.find_some in H as [_ H]. by apply bool_decide_eq_true in H.
  - intros <-. by destruct f.
Qed.

(** No adapter id serves two formats. *)
Lemma serves_functional f g adapter_id : serves f adapter_id = true -> serves g adapter_id = true -> f = g.
Proof.
  unfold serves. rewrite !bool_decide_eq_true. intros Hf Hg.
  destruct f, g; try done; exfalso; repeat (apply elem_of_cons in Hf as [->|Hf]); try (by apply elem_of_nil in Hf);
    repeat (apply elem_of_cons in Hg as [Hg|Hg]); by try apply elem_of_nil in Hg.
Qed.

Lemma bind_adapters_spec {A} (bindings : list (ApiFormat * string * A)) registry result :
  bind_adapters bindings registry = Ok result ->
  Forall (fun b => serves b.1.1 b.1.2 = true /\ registry !! b.1.2 = None) bindings
  /\ NoDup ((fun b => b.1.2) <$> bindings)
  /\ forall id a, result !! id = Some a <-> registry !! id = Some a \/ exists f, (f, id, a) ∈ bindings.
Proof.
  revert registry. induction bindings as [|[[f id] a] rest IH]; intros registry H; simpl in H.
  { simplify_eq. split; [constructor|]. split; [constructor|]. intros id a. split; [by left|].
    intros [?|[f []%elem_of_nil]]; done. }
  destruct (serves f id) eqn:Hs; simpl in H; [|done]. destruct (registry !! id) eqn:Hr; [done|].
  destruct (IH _ H) as (Hall & Hnd & Hiff). rewrite Forall_forall in Hall.
  assert (forall b, b ∈ rest -> b.1.2 <> id /\ registry !! b.1.2 = None) as Hrest.
  { intros b Hb. destruct (Hall b Hb) as [_ Hn]. by apply lookup_insert_None in Hn as [? ?]. }
  split; [|split].
  - constructor; [done|]. apply Forall_forall. intros b Hb. destruct (Hall b Hb), (Hrest b Hb). done.
  - rewrite fmap_cons. constructor; [|done]. intros ([[f' id'] a'] & He & Hb)%list_elem_of_fmap. simpl in He.
    by destruct (Hrest _ Hb).
  - intros id' a'. rewrite Hiff, lookup_insert_Some. setoid_rewrite elem_of_cons. split.
    + intros [[[<- <-]|[_ ?]]|[f' Hf']]; [right; eauto|by left|right; eauto].
    + intros [Hl|[f' [?|Hf']]]; [|simplify_eq; by left; left|right; eauto].
      left. right. split; [|done]. intros ->. congruence.
Qed.

(** ** Properties *)

(** A stored [(api_format, adapter_id)] pair resolves, in a registry that was
    accepted, exactly when the composition bound that adapter id and the format is
    the one it was bound under; what comes back is that very binding.  No binding is
    shadowed by a later one and none is reachable under another format. *)
Lemma adapter_resolution_is_exact {A} (bindings : list (ApiFormat * string * A)) registry api_format adapter_id f a :
  adapter_registry_try_new bindings = Ok registry ->
  adapter_resolve registry api_format adapter_id = Some (f, a)
  <-> format_as_str f = api_format /\ (f, adapter_id, a) ∈ bindings.
Proof.
  intros H. destruct (bind_adapters_spec _ _ _ H) as (Hall & Hnd & Hiff). rewrite Forall_forall in Hall.
  unfold adapter_resolve. rewrite <- format_parse_spec.
  assert (forall g, (g, adapter_id, a) ∈ bindings -> serves g adapter_id = true) as Hserve
    by (intros g Hg; by destruct (Hall _ Hg)).
  destruct (format_parse api_format) as [g|]; [|naive_solver].
  destruct (serves g adapter_id) eqn:Hs; simpl.
  - rewrite fmap_Some. setoid_rewrite Hiff. split.
    + intros (a' & [Hbad|[f' Hf']] & He); [by rewrite lookup_empty in Hbad|]. simplify_eq. split; [done|].
      by rewrite (serves_functional _ _ _ Hs (Hserve _ Hf')).
    + intros [[= ->] Hin]. exists a. eauto.
  - split; [done|]. intros [[= ->] Hin]. apply Hserve in Hin. congruence.
Qed.

(** ** Witness *)

Lemma adapter_resolution_is_exact_witness :
  exists registry : gmap string bool,
    adapter_registry_try_new [(OpenAiResponses, "grok.web.responses", true)] = Ok registry
    /\ adapter_resolve registry "openai/responses" "grok.web.responses" = Some (OpenAiResponses, true).
Proof.
  eexists. split; [reflexivity|].
  apply (adapter_resolution_is_exact [(OpenAiResponses, "grok.web.responses", true)]); [reflexivity|].
  split; [reflexivity|left].
Defined.
