(* ===== verification/ResponseTransform.v ===== *)
(** * Target-protocol projection of responses

    Models [crates/gateway-router/src/response_transform.rs]: a canonical event
    stream is narrowed to the vocabulary of the client protocol, event by event,
    with the lifecycle of both the input and the output checked by the validator
    of [CanonicalEvents]. *)

From S2P Require Import Prelude Core CanonicalEvents ApiFormat.
Local Open Scope string_scope.
Local Open Scope list_scope.

Module Response.

(** ** Data *)

Inductive ProtocolResponseRejection : Type :=
| ReasoningUnsupported
| UnknownExtensions
| StopReasonUnsupported
| StopSequenceUnsupported
| InvalidCanonicalLifecycle.

Record ProtocolResponseProjector : Type := mkProjector {
  target : ProtocolFormat;
  input_state : ResponseLifecycle;
  output_state : ResponseLifecycle;
}.

Definition projector_new (t : ProtocolFormat) : ProtocolResponseProjector := mkProjector t LInitial LInitial.

(** ** Projection of one event *)

Definition no_extensions (e : RawExtensions) : bool := bool_decide (e = ∅).

Definition reject_extensions (event : CanonicalEvent) : result ProtocolResponseRejection unit :=
  let empty :=
    match event with
    | EResponseStart v => no_extensions (rs_extensions v)
    | EMessageStart v => no_extensions (ms_extensions v)
    | ETextDelta v => no_extensions (td_extensions v)
    | EReasoningDelta v => no_extensions (rd_extensions v)
    | EToolCallStart v => no_extensions (ts_extensions v)
    | EToolCallArgumentsDelta v => no_extensions (ta_extensions v)
    | EToolCallEnd v => no_extensions (te_extensions v)
    | EUsageDelta v => no_extensions (ud_extensions v) && no_extensions (usage_extensions (ud_usage v))
    | EMessageEnd v => no_extensions (me_extensions v)
    | EResponseEnd v => no_extensions (re_extensions v)
    | EStreamError _ => true
    end in
  if empty then Ok tt else Err UnknownExtensions.

(** The [match reason] of one target. *)
Definition target_reason (t : ProtocolFormat) (reason : string) : option string :=
  let said := fun x => bool_decide (reason = x) in
  match t with
  | PChatCompletions =>
      if said "end_turn" || said "stop" then Some "stop"
      else if said "tool_use" || said "tool_calls" then Some "tool_calls"
      else if said "max_tokens" || said "length" then Some "length"
      else if said "refusal" || said "content_filter" then Some "content_filter"
      else None
  | PResponses =>
      if said "end_turn" || said "stop" then Some "end_turn"
      else if said "tool_use" || said "tool_calls" then Some "tool_use"
      else if said "max_tokens" || said "length" then Some "max_tokens"
      else if said "refusal" || said "content_filter" then Some "refusal"
      else None
  | PMessages =>
      if said "end_turn" || said "stop" then Some "end_turn"
      else if said "tool_use" || said "tool_calls" then Some "tool_use"
      else if said "max_tokens" || said "length" then Some "max_tokens"
      else if said "refusal" || said "content_filter" then Some "refusal"
      else if said "stop_sequence" then Some "stop_sequence"
      else if said "model_context_window_exceeded" then Some "model_context_window_exceeded"
      else if said "pause_turn" then Some "pause_turn"
      else None
  end.

Definition project_response_end (e : ResponseEnd) (t : ProtocolFormat)
  : result ProtocolResponseRejection ResponseEnd :=
  if bool_decide (is_Some (stop_sequence e)) && negb (bool_decide (t = PMessages))
  then Err StopSequenceUnsupported
  else
    let? reason := ok_or StopReasonUnsupported (stop_reason e) in
    let? reason := ok_or StopReasonUnsupported (target_reason t reason) in
    Ok (mkResponseEnd (Some reason) (stop_sequence e) (re_extensions e)).

(** The counters a target cannot name. *)
Definition narrow_usage (t : ProtocolFormat) (u : Usage) : Usage :=
  match t with
  | PChatCompletions | PResponses =>
      mkUsage (input_tokens u) (output_tokens u) (reasoning_tokens u) None None (cached_tokens u)
        (usage_extensions u)
  | PMessages =>
      mkUsage (input_tokens u) (output_tokens u) None (cache_read_tokens u) (cache_creation_tokens u) None
        (usage_extensions u)
  end.

(** [fn project_event]; [None] is an event the target leaves out. *)
Definition project_event (event : CanonicalEvent) (t : ProtocolFormat)
  : result ProtocolResponseRejection (option CanonicalEvent) :=
  let? _ := reject_extensions event in
  match event with
  | EReasoningDelta _ =>
      if bool_decide (t = PChatCompletions) then Err ReasoningUnsupported else Ok (Some event)
  | EUsageDelta delta =>
      let delta := mkUsageDelta (narrow_usage t (ud_usage delta)) (ud_is_final delta) (ud_extensions delta) in
      Ok (if negb (bool_decide (t = PChatCompletions)) || ud_is_final delta
          then Some (EUsageDelta delta) else None)
  | EResponseEnd e =>
      let? e := project_response_end e t in Ok (Some (EResponseEnd e))
  | _ => Ok (Some event)
  end.

(** [state.apply(event).map_err(..)] on a clone of the state. *)
Definition applied (event : CanonicalEvent) (s : ResponseLifecycle)
  : result ProtocolResponseRejection ResponseLifecycle :=
  match apply event s with
  | (Ok _, s') => Ok s'
  | (Err _, _) => Err InvalidCanonicalLifecycle
  | (Panic, _) => Panic
  end.

(** [ProtocolResponseProjector::project_event]. *)
Definition projector_step (event : CanonicalEvent)
  : M ProtocolResponseProjector ProtocolResponseRejection (option CanonicalEvent) :=
  let! self := get in
  let! next_input := lift (applied event (input_state self)) in
  let! projected := lift (project_event event (target self)) in
  let! next_output := lift (match projected with
                            | Some p => applied p (output_state self)
                            | None => Ok (output_state self)
                            end) in
  let! _ := put (mkProjector (target self) next_input next_output) in
  ret projected.

(** The loop of [project_protocol_response]. *)
Fixpoint project_events (events : list CanonicalEvent) (projected : list CanonicalEvent)
  : M ProtocolResponseProjector ProtocolResponseRejection (list CanonicalEvent) :=
  match events with
  | [] => ret projected
  | event :: rest =>
      let! p := projector_step event in
      project_events rest (projected ++ option_list p)
  end.

Definition project_protocol_response (response : list CanonicalEvent) (t : ProtocolFormat)
  : result ProtocolResponseRejection (list CanonicalEvent) :=
  match (project_events response [] (projector_new t)).1 with
  | Ok projected => map_err (fun _ => InvalidCanonicalLifecycle) (try_new projected)
  | Err e => Err e
  | Panic => Panic
  end.

(** ** Specification *)

(** Every event projects on its own; the first that does not decides the error. *)
Fixpoint project_each (t : ProtocolFormat) (events : list CanonicalEvent)
  : result ProtocolResponseRejection (list CanonicalEvent) :=
  match events with
  | [] => Ok []
  | event :: rest =>
      let? p := project_event event t in
      let? ps := project_each t rest in
      Ok (option_list p ++ ps)
  end.

(** No part of the event is opaque. *)
Definition opaque_free (e : CanonicalEvent) : Prop :=
  match e with
  | EResponseStart v => rs_extensions v = ∅
  | EMessageStart v => ms_extensions v = ∅
  | ETextDelta v => td_extensions v = ∅
  | EReasoningDelta v => rd_extensions v = ∅
  | EToolCallStart v => ts_extensions v = ∅
  | EToolCallArgumentsDelta v => ta_extensions v = ∅
  | EToolCallEnd v => te_extensions v = ∅
  | EUsageDelta v => ud_extensions v = ∅ /\ usage_extensions (ud_usage v) = ∅
  | EMessageEnd v => me_extensions v = ∅
  | EResponseEnd v => re_extensions v = ∅
  | EStreamError _ => True
  end.

(** Why a response ended, and what each protocol calls it. *)
Definition common_reasons (stop tools length refusal : string) : list (string * string) :=
  [("end_turn", stop); ("stop", stop); ("tool_use", tools); ("tool_calls", tools); ("max_tokens", length); ("length", length);
   ("refusal", refusal); ("content_filter", refusal)].

Definition reason_names (t : ProtocolFormat) : list (string * string) :=
  match t with
  | PChatCompletions => common_reasons "stop" "tool_calls" "length" "content_filter"
  | PResponses => common_reasons "end_turn" "tool_use" "max_tokens" "refusal"
  | PMessages => common_reasons "end_turn" "tool_use" "max_tokens" "refusal"
      ++ [("stop_sequence", "stop_sequence"); ("model_context_window_exceeded", "model_context_window_exceeded");
          ("pause_turn", "pause_turn")]
  end.

(** The totals stay; Messages names the cache reads and writes, the others the
    reasoning and the cached input. *)
Record usage_named (t : ProtocolFormat) (u u' : Usage) : Prop := {
  un_input : input_tokens u' = input_tokens u;
  un_output : output_tokens u' = output_tokens u;
  un_reasoning : reasoning_tokens u' = if decide (t = PMessages) then None else reasoning_tokens u;
  un_cached : cached_tokens u' = if decide (t = PMessages) then None else cached_tokens u;
  un_read : cache_read_tokens u' = if decide (t = PMessages) then cache_read_tokens u else None;
  un_creation : cache_creation_tokens u' = if decide (t = PMessages) then cache_creation_tokens u else None;
  un_extensions : usage_extensions u' = usage_extensions u;
}.

(** The parts of a response a client sees as content, in order. *)
Definition is_content (e : CanonicalEvent) : bool :=
  match e with
  | EUsageDelta _ | EResponseEnd _ => false
  | _ => true
  end.

(** What one event becomes: content stays itself, usage keeps the counters the target
    names and Chat sees only the final report, and the end states the same reason in
    the target's words. *)
Inductive becomes (t : ProtocolFormat) : CanonicalEvent -> list CanonicalEvent -> Prop :=
| becomes_itself e : is_content e = true -> becomes t e [e]
| becomes_usage d u :
    usage_named t (ud_usage d) u -> t <> PChatCompletions \/ ud_is_final d = true ->
    becomes t (EUsageDelta d) [EUsageDelta (mkUsageDelta u (ud_is_final d) (ud_extensions d))]
| becomes_nothing d : t = PChatCompletions -> ud_is_final d = false -> becomes t (EUsageDelta d) []
| becomes_end e r r' :
    stop_reason e = Some r -> (r, r') ∈ reason_names t ->
    becomes t (EResponseEnd e) [EResponseEnd (mkResponseEnd (Some r') (stop_sequence e) (re_extensions e))].

(** What the target can carry. *)
Definition representable (t : ProtocolFormat) (e : CanonicalEvent) : Prop :=
  opaque_free e
  /\ match e with
     | EReasoningDelta _ => t <> PChatCompletions
     | EResponseEnd e => (t <> PMessages -> stop_sequence e = None)
         /\ exists r, stop_reason e = Some r /\ r ∈ (reason_names t).*1
     | _ => True
     end.

(** The error an event that cannot be carried is refused with. *)
Definition refused_with (t : ProtocolFormat) (e : CanonicalEvent) (x : ProtocolResponseRejection) : Prop :=
  (~ opaque_free e /\ x = UnknownExtensions)
  \/ (opaque_free e
      /\ match e with
         | EReasoningDelta _ => t = PChatCompletions /\ x = ReasoningUnsupported
         | EResponseEnd e =>
             if decide (t <> PMessages /\ stop_sequence e <> None) then x = StopSequenceUnsupported
             else (forall r, stop_reason e = Some r -> r ∉ (reason_names t).*1) /\ x = StopReasonUnsupported
         | _ => False
         end).

(** The output lifecycle is the input's, except that Chat has not seen the
    interim usage reports. *)
Definition usage_related (t : ProtocolFormat) (i o : UsageLifecycle) : Prop :=
  o = i \/ (t = PChatCompletions /\ i = Interim /\ o = NotReported).

Definition states_related (t : ProtocolFormat) (i o : ResponseLifecycle) : Prop :=
  match i, o with
  | LInitial, LInitial | LCompleted, LCompleted => True
  | LFailed e, LFailed e' => e = e'
  | LOpen a, LOpen b => message_open a = message_open b /\ tool_calls a = tool_calls b
      /\ usage_related t (usage a) (usage b)
  | _, _ => False
  end.

(** ** Lemmas *)

Lemma target_reason_nonempty t r r' : target_reason t r = Some r' -> r' <> "".
Proof. unfold target_reason. intros H. destruct t; repeat (case_match; simplify_eq; try done). Qed.

Lemma narrow_final t d :
  ud_is_final (mkUsageDelta (narrow_usage t (ud_usage d)) (ud_is_final d) (ud_extensions d)) = ud_is_final d.
Proof. done. Qed.

(** What an event may become. *)
Lemma project_event_cases t event p :
  project_event event t = Ok p ->
  (is_content event = true /\ p = Some event /\ (forall d, event = EReasoningDelta d -> t <> PChatCompletions))
  \/ (exists d, event = EUsageDelta d
        /\ ((p = Some (EUsageDelta (mkUsageDelta (narrow_usage t (ud_usage d)) (ud_is_final d) (ud_extensions d)))
             /\ (t <> PChatCompletions \/ ud_is_final d = true))
            \/ (p = None /\ t = PChatCompletions /\ ud_is_final d = false)))
  \/ (exists e e', event = EResponseEnd e /\ project_response_end e t = Ok e' /\ p = Some (EResponseEnd e')).
Proof.
  unfold project_event. destruct (reject_extensions event) as [[]| |]; [|done..]. cbn [result_bind].
  destruct event as [?|?|?|?|?|?|?|d|?|e|?]; intros Hp; try (left; by simplify_eq).
  - case_bool_decide; [done|]. left. by simplify_eq.
  - right. left. exists d. split; [done|]. injection Hp as <-. cbn [ud_is_final].
    case_bool_decide; [destruct (ud_is_final d); simpl|left; split; [done|by left]].
    + left. split; [done|by right].
    + by right.
  - right. right. destruct (project_response_end e t) as [e'| |] eqn:He; simplify_eq/=. by exists e, e'.
Qed.

Lemma applied_open event a s' :
  applied event (LOpen a) = Ok s' -> apply event (LOpen a) = (Ok tt, s').
Proof. unfold applied. destruct (apply event (LOpen a)) as [[[]| |] ?]; intros; by simplify_eq. Qed.

(** The validator looks at usage only when usage is reported. *)
Lemma open_apply_usage event a b a' :
  (forall d, event <> EUsageDelta d) -> message_open a = message_open b -> tool_calls a = tool_calls b ->
  open_apply event a = (Ok tt, a') ->
  exists b', open_apply event b = (Ok tt, b') /\ message_open a' = message_open b'
    /\ tool_calls a' = tool_calls b' /\ usage a' = usage a /\ usage b' = usage b.
Proof.
  destruct a as [m tc u], b as [m2 tc2 u2]. simpl. intros Hu <- <- H.
  destruct event as [?|?|?|?|?|?|?|d|?|e|?]; try done; simpl in *;
    unfold start_tool_call, append_tool_arguments, end_tool_call, end_message, has_open_tool_call in *;
    unfold_m; simpl in *; repeat (case_match; simplify_eq/=); try (by eexists).
  by destruct (Hu d).
Qed.

Lemma end_projected t e e' :
  project_response_end e t = Ok e' -> end_ok e = true ->
  end_ok e' = true /\ stop_sequence e' = stop_sequence e.
Proof.
  unfold project_response_end, end_ok. intros H. case_match; [done|].
  destruct (stop_reason e) as [r|]; [|done]. simpl in H. destruct (target_reason t r) as [r'|] eqn:Hr; [|done].
  apply target_reason_nonempty in Hr. simplify_eq/=. intros Hok. bool_simp. split; [|done].
  rewrite bool_decide_false by done. simpl. by apply negb_true_iff.
Qed.

(** A projected event that the input accepts is accepted by the output. *)
Lemma output_accepts t event p i i' o :
  states_related t i o -> project_event event t = Ok p -> applied event i = Ok i' ->
  exists o', match p with Some q => applied q o | None => Ok o end = Ok o' /\ states_related t i' o'.
Proof.
  intros Hr Hp Ha. destruct i as [|a| |e0], o as [|b| |e1]; try done.
  { unfold applied, apply in Ha. unfold_m. simpl in Ha. destruct event as [s|?|?|?|?|?|?|?|?|?|?]; try done.
    unfold project_event in Hp. destruct (reject_extensions _); simplify_eq/=. exists (LOpen open_default).
    split; [done|]. split_and!; try done. by left. }
  apply applied_open in Ha. destruct Hr as (Hm & Ht & Hu).
  apply project_event_cases in Hp as [(Hc & -> & _)|[(d & -> & Hd)|(e & e' & -> & He & ->)]].
  - apply apply_open_ok in Ha as [(a' & -> & Ha)|[(re & -> & _)|(se & -> & ->)]]; [|done|].
    + destruct (open_apply_usage event a b a') as (b' & Hb & ? & ? & Hua & Hub); try done.
      { intros d ->. done. }
      exists (LOpen b'). unfold applied. rewrite (apply_open_step _ _ _ Hb). simpl. by rewrite Hua, Hub.
    + by eexists.
  - apply apply_open_ok in Ha as [(a' & -> & Ha)|[(re & ? & _)|(se & ? & _)]]; [|done..].
    simpl in Ha. unfold record_usage in Ha. unfold_m. simpl in Ha. case_bool_decide as Hf; [done|].
    injection Ha as <-. destruct Hd as [[-> Hd]|(-> & -> & Hd)].
    + exists (LOpen (set_usage (if ud_is_final d then Final else Interim) b)). unfold applied, apply. unfold_m. simpl.
      unfold record_usage. unfold_m. rewrite bool_decide_false by (destruct Hu as [->|(_ & _ & ->)]; done).
      split; [done|]. simpl. split_and!; try done. by left.
    + exists (LOpen b). split; [done|]. simpl. rewrite Hd. split_and!; try done.
      destruct Hu as [->|(_ & _ & ->)]; [|by right]. destruct (usage a); [by right|by left|done].
  - apply apply_open_ok in Ha as [(a' & -> & Ha)|[(re & Hre & -> & Hready & Hok)|(se & ? & _)]]; [done| |done].
    injection Hre as <-. destruct (end_projected t e e' He Hok) as [Hok' _].
    exists LCompleted. split; [|done]. unfold applied, apply. unfold_m. simpl.
    assert (is_ready_to_end b = true) as ->.
    { unfold is_ready_to_end, has_open_tool_call in *. by rewrite <- Hm, <- Ht. }
    unfold end_ok in Hok'. bool_simp.
    repeat match goal with H : is_some_empty _ = false |- _ => rewrite H end. done.
Qed.

Lemma apply_to_applied event i i' : apply event i = (Ok tt, i') -> applied event i = Ok i'.
Proof. unfold applied. by intros ->. Qed.

Lemma applied_to_apply event i i' : applied event i = Ok i' -> apply event i = (Ok tt, i').
Proof. unfold applied. destruct (apply event i) as [[[]| |] ?]; intros; by simplify_eq. Qed.

(** On an accepted input the projector is [project_each], and the output is
    accepted step by step. *)
Lemma project_events_each t events acc i i' o :
  states_related t i o -> apply_all events i = (Ok tt, i') ->
  match project_each t events with
  | Ok ps => exists o', project_events events acc (mkProjector t i o) = (Ok (acc ++ ps), mkProjector t i' o')
      /\ apply_all ps o = (Ok tt, o') /\ states_related t i' o'
  | Err e => (project_events events acc (mkProjector t i o)).1 = Err e
  | Panic => (project_events events acc (mkProjector t i o)).1 = Panic
  end.
Proof.
  revert acc i o. induction events as [|event events IH]; intros acc i o Hr Ha.
  { injection Ha as <-. exists o. by rewrite app_nil_r. }
  apply apply_all_cons_ok in Ha as (i1 & H1 & H2). apply apply_to_applied in H1.
  cbn [project_each project_events]. unfold bind at 1, projector_step. unfold_m. cbn [input_state target output_state].
  rewrite H1. destruct (project_event event t) as [p| |] eqn:Hp; cbn [result_bind]; [|done..].
  destruct (output_accepts t event p i i1 o Hr Hp H1) as (o1 & Ho & Hr1). rewrite Ho.
  specialize (IH (acc ++ option_list p) i1 o1 Hr1 H2).
  destruct (project_each t events) as [ps| |]; cbn [result_bind]; [|done..].
  destruct IH as (o' & He & Hps & Hr'). exists o'. rewrite <- app_assoc in He. split; [done|]. split; [|done].
  destruct p as [q|]; [|by simplify_eq/=]. apply applied_to_apply in Ho. simpl. unfold bind. by rewrite Ho.
Qed.

Lemma no_extensions_iff e : no_extensions e = true <-> e = ∅.
Proof. unfold no_extensions. by rewrite bool_decide_eq_true. Qed.

Lemma reject_extensions_decides event :
  (opaque_free event /\ reject_extensions event = Ok tt)
  \/ (~ opaque_free event /\ reject_extensions event = Err UnknownExtensions).
Proof.
  unfold reject_extensions. set (plain := match event with EResponseStart _ => _ | _ => _ end).
  assert (plain = true <-> opaque_free event) as Hp.
  { unfold plain. destruct event; simpl; rewrite ?andb_true_iff, ?no_extensions_iff; done. }
  destruct plain; [left|right]; (split; [|done]); naive_solver.
Qed.

Lemma target_reason_iff t r r' : target_reason t r = Some r' <-> (r, r') ∈ reason_names t.
Proof.
  split.
  - unfold target_reason. destruct t; cbn [reason_names common_reasons app];
      repeat (case_bool_decide; [subst; simpl; intros [= <-]; repeat first [apply list_elem_of_here|apply list_elem_of_further]|]); simpl; done.
  - destruct t; cbn [reason_names common_reasons app]; intros Hin;
      repeat (apply elem_of_cons in Hin as [[= -> ->]|Hin]; [reflexivity|]); by apply elem_of_nil in Hin.
Qed.

Lemma target_reason_named t r : is_Some (target_reason t r) <-> r ∈ (reason_names t).*1.
Proof.
  rewrite list_elem_of_fmap. split.
  - intros [r' Hr%target_reason_iff]. by exists (r, r').
  - intros ([x r'] & -> & Hr%target_reason_iff). by exists r'.
Qed.

Lemma narrow_named t u : usage_named t u (narrow_usage t u).
Proof. by destruct t. Qed.

(** One event: its image, or the error it is refused with. *)
Lemma project_event_exact t event :
  match project_event event t with
  | Ok p => representable t event /\ becomes t event (option_list p)
  | Err x => ~ representable t event /\ refused_with t event x
  | Panic => False
  end.
Proof.
  unfold project_event, representable, refused_with.
  destruct (reject_extensions_decides event) as [[Hx ->]|[Hx ->]]; cbn [result_bind]; [|split; [tauto|by left]].
  destruct event as [?|?|?|?|?|?|?|d|?|e|?]; try (split; [done|by constructor]).
  - case_bool_decide; [split; [tauto|]; by right|]. split; [done|by constructor].
  - split; [done|]. case_bool_decide as Ht; simpl; [|constructor; [apply narrow_named|by left]].
    destruct (ud_is_final d) eqn:Hf; simpl.
    + rewrite <- Hf. constructor; [apply narrow_named|by right].
    + by constructor.
  - unfold project_response_end. destruct (decide (t <> PMessages /\ stop_sequence e <> None)) as [[Ht Hs]|Hn].
    + rewrite bool_decide_true, bool_decide_false by (try done; by apply not_eq_None_Some). simpl.
      split; [by intros (_ & Hno & _); apply Hs, Hno|]. by right.
    + replace (_ && _) with false.
      2:{ symmetry. apply andb_false_iff. rewrite negb_false_iff, bool_decide_eq_false, bool_decide_eq_true, <- not_eq_None_Some.
          destruct (decide (t = PMessages)); [by right|left]. tauto. }
      destruct (stop_reason e) as [r|] eqn:Hr; simpl.
      * destruct (target_reason t r) as [r'|] eqn:Hrr; simpl.
        -- split; [|by eapply becomes_end; [|apply target_reason_iff]]. split; [done|]. split.
           ++ intros Ht. destruct (stop_sequence e); [|done]. destruct Hn. by split.
           ++ exists r. split; [done|]. apply target_reason_named. by eexists.
        -- assert (r ∉ (reason_names t).*1) as Hno.
           { intros [x Hx']%target_reason_named. congruence. }
           split; [intros (_ & _ & y & [= <-] & Hy); done|]. right. split; [done|]. split; [|done]. by intros y [= <-].
      * split; [by intros (_ & _ & y & ? & _)|]. right. split; [done|]. by split.
Qed.

Lemma refused_not_internal t event x : refused_with t event x -> x <> InvalidCanonicalLifecycle.
Proof. intros [[_ ->]|[_ Hx]]; [done|]. destruct event; try done; [by destruct Hx as [_ ->]|]. case_decide; [by subst|]. by destruct Hx as [_ ->]. Qed.

Lemma project_each_spec t events :
  match project_each t events with
  | Ok ps => Forall (representable t) events
      /\ exists images, Forall2 (becomes t) events images /\ ps = List.concat images
  | Err x => exists pre event post, events = pre ++ event :: post /\ Forall (representable t) pre
      /\ ~ representable t event /\ refused_with t event x
  | Panic => False
  end.
Proof.
  induction events as [|event events IH]; [split; [done|]; by exists []|]. cbn [project_each].
  pose proof (project_event_exact t event) as Hp.
  destruct (project_event event t) as [p|x|]; cbn [result_bind]; [|by exists [], event, events|done].
  destruct Hp as [Hrep Hb]. destruct (project_each t events) as [ps|x|]; cbn [result_bind]; [| |done].
  - destruct IH as (Hall & images & Hi & ->). split; [by constructor|]. exists (option_list p :: images). split; [by constructor|done].
  - destruct IH as (pre & ev & post & -> & Hpre & Hno & Hx). exists (event :: pre), ev, post. split_and!; try done. by constructor.
Qed.

Lemma try_new_iff events : try_new events = Ok events <-> apply_all events LInitial = (Ok tt, LCompleted).
Proof.
  unfold try_new. destruct (apply_all events LInitial) as [[[]| |] s]; [|split; intros; by simplify_eq..].
  destruct s; simpl; split; intros; by simplify_eq.
Qed.

(** ** Properties *)

(** C30: A complete canonical response is projected to a client protocol exactly
    when every event of it is representable there: no opaque extension, no
    reasoning for Chat, a stop reason the protocol names and a stop sequence only
    for Messages.  The result is again a complete response and is the event by event
    image of the original: content is unchanged and in order, a usage report keeps
    its totals and the counters the protocol names, with Chat given only the final
    report, and the end carries the same stop sequence and the same reason in the
    protocol's own words.  Otherwise the error is that of the first event that is
    not representable, and never an internal lifecycle error. *)
Theorem response_projection_exact response t :
  try_new response = Ok response ->
  match project_protocol_response response t with
  | Ok out => Forall (representable t) response /\ try_new out = Ok out
      /\ exists images, Forall2 (becomes t) response images /\ out = List.concat images
  | Err x => x <> InvalidCanonicalLifecycle
      /\ exists pre event post, response = pre ++ event :: post /\ Forall (representable t) pre
         /\ ~ representable t event /\ refused_with t event x
  | Panic => False
  end.
Proof.
  intros Hr%try_new_iff. pose proof (project_events_each t response [] LInitial LCompleted LInitial I Hr) as He.
  pose proof (project_each_spec t response) as Hs. unfold project_protocol_response, projector_new.
  destruct (project_each t response) as [ps|e|]; [|rewrite He|done].
  - destruct He as (o' & -> & Hps & Hrel). cbn [fst app]. destruct o'; try done.
    apply try_new_iff in Hps. rewrite Hps. simpl. split; [apply Hs|]. split; [done|apply Hs].
  - split; [|done]. destruct Hs as (_ & ev & _ & _ & _ & _ & Hev). by apply refused_not_internal in Hev.
Qed.

(** A rejected event leaves both lifecycles as they were. *)
Lemma projector_rejects_atomically event self r self' :
  projector_step event self = (r, self') -> (forall p, r <> Ok p) -> self' = self.
Proof.
  unfold projector_step. unfold_m. intros H Hr.
  repeat (case_match; simplify_eq/=); try done; exfalso; by eapply Hr.
Qed.

(** ** Witnesses *)

Definition ex_response : list CanonicalEvent :=
  [EResponseStart (mkResponseStart (mkId "resp-1") ∅); EMessageStart (mkMessageStart "assistant" ∅);
   ETextDelta (mkTextDelta "hi" ∅); EMessageEnd (mkMessageEnd ∅);
   EUsageDelta (mkUsageDelta (mkUsage (Some 3%Z) (Some 4%Z) (Some 1%Z) (Some 2%Z) None None ∅) true ∅);
   EResponseEnd (mkResponseEnd (Some "end_turn") None ∅)].

Lemma response_projection_exact_witness :
  exists out images, project_protocol_response ex_response PChatCompletions = Ok out /\ try_new out = Ok out
    /\ Forall2 (becomes PChatCompletions) ex_response images /\ out = List.concat images
    /\ last out = Some (EResponseEnd (mkResponseEnd (Some "stop") None ∅)).
Proof.
  pose proof (response_projection_exact ex_response PChatCompletions ltac:(vm_compute; reflexivity)) as H.
  destruct (project_protocol_response ex_response PChatCompletions) as [out| |] eqn:Hp;
    [|vm_compute in Hp; discriminate Hp..].
  destruct H as (_ & H1 & images & H2 & H3). exists out, images. split; [reflexivity|]. split; [exact H1|].
  split; [exact H2|]. split; [exact H3|]. vm_compute in Hp. injection Hp as <-. reflexivity.
Defined.

(** A Chat client gets no usage at all from a response that only ever reports
    interim usage, although such a response is complete. *)
Definition ex_interim_only : list CanonicalEvent :=
  [EResponseStart (mkResponseStart (mkId "resp-1") ∅);
   EUsageDelta (mkUsageDelta (mkUsage (Some 3%Z) (Some 4%Z) None None None None ∅) false ∅);
   EResponseEnd (mkResponseEnd (Some "stop") None ∅)].

Lemma chat_can_lose_all_usage :
  try_new ex_interim_only = Ok ex_interim_only
  /\ exists out, project_protocol_response ex_interim_only PChatCompletions = Ok out
     /\ Forall (fun e => forall d, e <> EUsageDelta d) out.
Proof. split; [by vm_compute|]. eexists. split; [by vm_compute|]. by repeat constructor. Qed.

End Response.
