(* ===== verification/SecretStore.v ===== *)
(** * The secret store

    Models [crates/gateway-store/src/secret_store.rs]: versioned master keys, the
    envelope [1 || nonce || ciphertext] of a sealed secret, and seal, open and
    rotate.  XChaCha20-Poly1305 (crate [chacha20poly1305]) is the class [Aead]; the
    random nonce of [seal] and the directory a ring is loaded from are arguments. *)

From S2P Require Import Prelude Text Core.
From Stdlib Require Import Strings.Byte.
Local Open Scope string_scope.
Local Open Scope list_scope.
Local Open Scope Z_scope.

Module Secrets.

Abbreviation Bytes := (list Byte.byte).

Definition MASTER_KEY_BYTES : nat := 32.
Definition NONCE_BYTES : nat := 24.
Definition ENVELOPE_FORMAT_VERSION : Byte.byte := x01.
Definition AEAD_TAG_BYTES : nat := 16.
Definition MINIMUM_ENVELOPE_BYTES : nat := 1 + NONCE_BYTES + AEAD_TAG_BYTES.

(** A [NonZeroU32]. *)
Abbreviation KeyVersion := Z.

Inductive SecretStoreError : Type :=
| InvalidKeyVersion
| InvalidMasterKeyLength (actual : nat)
| EmptyKeyRing
| DuplicateKeyVersion (key_version : KeyVersion)
| ActiveKeyMissing (key_version : KeyVersion)
| InvalidKeyDirectory
| KeyLoadIo
| InvalidKeyFileName
| SymbolicLinkKeyFile
| NonRegularKeyFile
| UnknownKeyVersion (key_version : KeyVersion)
| UnsupportedEnvelopeVersion
| TruncatedEnvelope
| EmptyAssociatedData
| SecretRandomnessUnavailable
| EncryptionFailed
| AuthenticationFailed
| CipherInitializationFailed.

Abbreviation SecretM A := (result SecretStoreError A).

Definition key_version_try_new (value : Z) : SecretM KeyVersion :=
  if value =? 0 then Err InvalidKeyVersion else Ok value.

Definition try_from_sqlite_i64 (value : Z) : SecretM KeyVersion :=
  if (0 <=? value) && (value <? 2 ^ 32) then key_version_try_new value else Err InvalidKeyVersion.

Record MasterKey : Type := mkMasterKey { key_bytes : Bytes }.

Definition try_from_bytes (bytes : Bytes) : SecretM MasterKey :=
  if negb (bool_decide (length bytes = MASTER_KEY_BYTES)) then Err (InvalidMasterKeyLength (length bytes))
  else Ok (mkMasterKey bytes).

Record MasterKeyRing : Type := mkRing {
  active_key_version : KeyVersion;
  keys : gmap Z MasterKey;
}.

Definition add_key (m : gmap Z MasterKey) (entry : KeyVersion * MasterKey) : SecretM (gmap Z MasterKey) :=
  if bool_decide (is_Some (m !! entry.1)) then Err (DuplicateKeyVersion entry.1) else Ok (<[entry.1 := entry.2]> m).

Definition ring_try_new (active : KeyVersion) (entries : list (KeyVersion * MasterKey)) : SecretM MasterKeyRing :=
  let? keys := try_fold add_key entries ∅ in
  if bool_decide (keys = ∅) then Err EmptyKeyRing
  else if negb (bool_decide (is_Some (keys !! active))) then Err (ActiveKeyMissing active)
  else Ok (mkRing active keys).

Definition key_for_version (ring : MasterKeyRing) (version : KeyVersion) : SecretM MasterKey :=
  ok_or (UnknownKeyVersion version) (keys ring !! version).

Definition active_key (ring : MasterKeyRing) : SecretM MasterKey := key_for_version ring (active_key_version ring).

(** ** Loading a ring

    A directory as the file system reports it: its own type, and its entries or a
    read error. *)

Inductive FileType : Type := FileSymlink | FileRegular | FileDirectory | FileOther.

Record DirEntry : Type := mkEntry {
  entry_type : option FileType;
  entry_name : option string;
  entry_bytes : option Bytes;
}.

Record KeyDirectory : Type := mkDirectory {
  directory_type : option FileType;
  directory_entries : option (list (option DirEntry));
}.

Fixpoint parse_u32_digits (acc : Z) (s : string) : option Z :=
  match s with
  | EmptyString => Some acc
  | String a rest =>
      match to_digit 10 a with
      | Some d => if 2 ^ 32 - 1 <? acc * 10 + d then None else parse_u32_digits (acc * 10 + d) rest
      | None => None
      end
  end.

(** [str::strip_suffix] with a literal. *)
Fixpoint strip_suffix (suffix s : string) : option string :=
  if bool_decide (s = suffix) then Some ""
  else match s with
       | EmptyString => None
       | String a rest => String a <$> strip_suffix suffix rest
       end.

Definition is_ascii_digit (a : ascii) : bool := (48 <=? char_code a) && (char_code a <=? 57).

Definition parse_key_file_name (file_name : option string) : SecretM KeyVersion :=
  let? file_name := ok_or InvalidKeyFileName file_name in
  let? version_text := ok_or InvalidKeyFileName (strip_suffix ".key" file_name) in
  if bool_decide (version_text = "") || negb (all_chars is_ascii_digit version_text)
     || (bool_decide (1 < String.length version_text)%nat
         && match version_text with String a _ => Ascii.eqb a "0" | EmptyString => false end)
  then Err InvalidKeyFileName
  else
    let? value := ok_or InvalidKeyFileName (parse_u32_digits 0 version_text) in
    let? key_version := map_err (fun _ => InvalidKeyFileName) (key_version_try_new value) in
    if negb (bool_decide (pretty (Z.to_N key_version) = version_text)) then Err InvalidKeyFileName
    else Ok key_version.

Definition load_entry (loaded : list (KeyVersion * MasterKey)) (entry : option DirEntry)
  : SecretM (list (KeyVersion * MasterKey)) :=
  let? entry := ok_or KeyLoadIo entry in
  let? file_type := ok_or KeyLoadIo (entry_type entry) in
  match file_type with
  | FileSymlink => Err SymbolicLinkKeyFile
  | FileRegular =>
      let? key_version := parse_key_file_name (entry_name entry) in
      let? bytes := ok_or KeyLoadIo (entry_bytes entry) in
      let? key := try_from_bytes bytes in
      Ok (loaded ++ [(key_version, key)])
  | _ => Err NonRegularKeyFile
  end.

Definition load_from_directory (directory : KeyDirectory) (active : KeyVersion) : SecretM MasterKeyRing :=
  let? file_type := ok_or KeyLoadIo (directory_type directory) in
  match file_type with
  | FileDirectory =>
      let? entries := ok_or KeyLoadIo (directory_entries directory) in
      let? loaded := try_fold load_entry entries [] in
      ring_try_new active loaded
  | _ => Err InvalidKeyDirectory
  end.

(** ** Envelopes *)

Record EncryptedSecret : Type := mkEncrypted { es_key_version : KeyVersion; es_ciphertext : Bytes }.

Definition validate_associated_data (associated_data : Bytes) : SecretM unit :=
  match associated_data with [] => Err EmptyAssociatedData | _ => Ok tt end.

Definition validate_envelope (ciphertext : Bytes) : SecretM unit :=
  match ciphertext with
  | [] => Err TruncatedEnvelope
  | format_version :: _ =>
      if negb (Byte.eqb format_version ENVELOPE_FORMAT_VERSION) then Err UnsupportedEnvelopeVersion
      else if bool_decide (length ciphertext < MINIMUM_ENVELOPE_BYTES)%nat then Err TruncatedEnvelope
      else Ok tt
  end.

(** [EncryptedSecret::new] and [try_from_persisted]. *)
Definition try_from_persisted (key_version : KeyVersion) (ciphertext : Bytes) : SecretM EncryptedSecret :=
  let? _ := validate_envelope ciphertext in Ok (mkEncrypted key_version ciphertext).

(** What the code uses of the AEAD: encryption and decryption under a 32-byte key
    and a 24-byte nonce with associated data. *)
Class Aead := {
  aead_encrypt : Bytes -> Bytes -> Bytes -> Bytes -> option Bytes;
  aead_decrypt : Bytes -> Bytes -> Bytes -> Bytes -> option Bytes;
}.

(** Documented of every AEAD of the crate: decryption inverts encryption, and the
    ciphertext carries a 16-byte tag. *)
Class AeadLaws `{Aead} : Prop := {
  decrypt_encrypt : forall key nonce plain aad c,
    aead_encrypt key nonce plain aad = Some c -> aead_decrypt key nonce c aad = Some plain;
  encrypt_length : forall key nonce plain aad c,
    aead_encrypt key nonce plain aad = Some c -> length c = (length plain + AEAD_TAG_BYTES)%nat;
}.

Section Store.
Context `{Aead}.

Definition encrypt (key : MasterKey) (nonce plaintext associated_data : Bytes) : SecretM Bytes :=
  if negb (bool_decide (length (key_bytes key) = MASTER_KEY_BYTES)) then Err CipherInitializationFailed
  else ok_or EncryptionFailed (aead_encrypt (key_bytes key) nonce plaintext associated_data).

Definition decrypt (key : MasterKey) (nonce ciphertext associated_data : Bytes) : SecretM Bytes :=
  if negb (bool_decide (length (key_bytes key) = MASTER_KEY_BYTES)) then Err CipherInitializationFailed
  else ok_or AuthenticationFailed (aead_decrypt (key_bytes key) nonce ciphertext associated_data).

(** [random] is what [getrandom::fill] writes, or its failure. *)
Definition seal (ring : MasterKeyRing) (random : option Bytes) (plaintext associated_data : Bytes)
  : SecretM EncryptedSecret :=
  let? _ := validate_associated_data associated_data in
  let? nonce := ok_or SecretRandomnessUnavailable random in
  let? key := active_key ring in
  let? ciphertext := encrypt key nonce plaintext associated_data in
  try_from_persisted (active_key_version ring) (ENVELOPE_FORMAT_VERSION :: nonce ++ ciphertext).

Definition open (ring : MasterKeyRing) (secret : EncryptedSecret) (associated_data : Bytes) : SecretM Bytes :=
  let? _ := validate_associated_data associated_data in
  let? _ := validate_envelope (es_ciphertext secret) in
  let? key := key_for_version ring (es_key_version secret) in
  let nonce_end := (1 + NONCE_BYTES)%nat in
  decrypt key (take NONCE_BYTES (drop 1 (es_ciphertext secret))) (drop nonce_end (es_ciphertext secret)) associated_data.

Definition rotate (ring : MasterKeyRing) (random : option Bytes) (secret : EncryptedSecret) (associated_data : Bytes)
  : SecretM EncryptedSecret :=
  let? plaintext := open ring secret associated_data in seal ring random plaintext associated_data.

(** ** Properties *)

Context `{!AeadLaws}.

(** What sealing produces. *)
Lemma seal_inv ring nonce plain aad secret :
  length nonce = NONCE_BYTES -> seal ring (Some nonce) plain aad = Ok secret ->
  exists key c, keys ring !! active_key_version ring = Some key /\ length (key_bytes key) = MASTER_KEY_BYTES /\ aad <> []
    /\ aead_encrypt (key_bytes key) nonce plain aad = Some c
    /\ secret = mkEncrypted (active_key_version ring) (ENVELOPE_FORMAT_VERSION :: nonce ++ c)
    /\ validate_envelope (es_ciphertext secret) = Ok tt.
Proof.
  intros Hn Hs. unfold seal, active_key, key_for_version, encrypt, try_from_persisted, result_bind in Hs.
  destruct aad as [|a aad]; [done|]. simpl in Hs. destruct (keys ring !! active_key_version ring) as [key|]; [|done].
  simpl in Hs. case_bool_decide as Hlen; simpl in Hs; [|done].
  destruct (aead_encrypt (key_bytes key) nonce plain (a :: aad)) as [c|] eqn:Hc; simpl in Hs; [|done].
  pose proof (encrypt_length _ _ _ _ _ Hc) as Hl. rewrite bool_decide_eq_false_2 in Hs.
  2:{ rewrite length_app. unfold MINIMUM_ENVELOPE_BYTES, NONCE_BYTES, AEAD_TAG_BYTES in *. lia. }
  simplify_eq. exists key, c. split_and!; try done. simpl. rewrite bool_decide_eq_false_2; [done|].
  rewrite length_app. unfold MINIMUM_ENVELOPE_BYTES, NONCE_BYTES, AEAD_TAG_BYTES in *. lia.
Qed.

Lemma open_sealed ring ring' nonce plain aad secret :
  length nonce = NONCE_BYTES -> seal ring (Some nonce) plain aad = Ok secret ->
  keys ring' !! es_key_version secret = keys ring !! es_key_version secret -> open ring' secret aad = Ok plain.
Proof.
  intros Hn Hs Hk. apply seal_inv in Hs as (key & c & Hkey & Hlen & Haad & Hc & -> & Hv); [|done].
  unfold open, key_for_version, decrypt, result_bind. destruct aad as [|a aad]; [done|]. simpl in Hk.
  rewrite Hv. cbn [validate_associated_data es_key_version es_ciphertext]. rewrite Hk, Hkey. cbn [ok_or].
  rewrite bool_decide_eq_true_2 by done. cbn [negb].
  change (drop 1 (ENVELOPE_FORMAT_VERSION :: nonce ++ c)) with (nonce ++ c).
  change (drop (1 + NONCE_BYTES) (ENVELOPE_FORMAT_VERSION :: nonce ++ c)) with (drop NONCE_BYTES (nonce ++ c)).
  rewrite <- Hn, take_app_length, drop_app_length. by rewrite (decrypt_encrypt _ _ _ _ _ Hc).
Qed.

(** Secrets survive storage and key rotation.  A sealed secret is a valid
    envelope, so it is accepted again when it is read back from storage; it opens
    to the plaintext under its ring and under any ring that still has its key; a
    rotation under such a ring yields a secret of the ring's active key that opens
    to the same plaintext; and once the old key is gone the old secret is refused
    as an unknown key version while the rotated one still opens. *)
Lemma sealed_secret_survives_rotation ring ring' ring'' nonce nonce' plain aad secret rotated :
  length nonce = NONCE_BYTES -> length nonce' = NONCE_BYTES ->
  seal ring (Some nonce) plain aad = Ok secret ->
  keys ring' !! es_key_version secret = keys ring !! es_key_version secret ->
  rotate ring' (Some nonce') secret aad = Ok rotated ->
  keys ring'' = delete (es_key_version secret) (keys ring') ->
  active_key_version ring' <> es_key_version secret ->
  try_from_persisted (es_key_version secret) (es_ciphertext secret) = Ok secret
  /\ open ring secret aad = Ok plain
  /\ es_key_version rotated = active_key_version ring'
  /\ try_from_persisted (es_key_version rotated) (es_ciphertext rotated) = Ok rotated
  /\ open ring' rotated aad = Ok plain /\ open ring'' rotated aad = Ok plain
  /\ open ring'' secret aad = Err (UnknownKeyVersion (es_key_version secret)).
Proof.
  intros Hn Hn' Hs Hk Hr Hdel Hact. pose proof (open_sealed ring ring' _ _ _ _ Hn Hs Hk) as Ho.
  unfold rotate in Hr. rewrite Ho in Hr. simpl in Hr.
  pose proof (seal_inv _ _ _ _ _ Hn' Hr) as (key' & c' & Hkey' & _ & _ & _ & Heq' & Hv').
  pose proof (seal_inv _ _ _ _ _ Hn Hs) as (key & c & Hkey & _ & Haad & _ & Heq & Hv).
  assert (es_key_version rotated = active_key_version ring') as Hrv by (by rewrite Heq').
  split; [unfold try_from_persisted; rewrite Hv; by destruct secret|].
  split; [eapply open_sealed; [exact Hn|exact Hs|done]|]. split; [done|].
  split; [unfold try_from_persisted; rewrite Hv'; by destruct rotated|].
  split; [eapply open_sealed; [exact Hn'|exact Hr|done]|]. split.
  - eapply open_sealed; [exact Hn'|exact Hr|]. rewrite Hdel, Hrv, lookup_delete_ne; [done|congruence].
  - unfold open, key_for_version. rewrite Hv, Hdel, lookup_delete_eq. by destruct aad.
Qed.
End Store.

(** ** Witness *)

Section Witness.
(** A keyed stand-in with the AEAD's shape: a zero tag before the plaintext. *)
#[local] Instance ex_aead : Aead := {
  aead_encrypt := fun _ _ plain _ => Some (replicate AEAD_TAG_BYTES x00 ++ plain);
  aead_decrypt := fun _ _ c _ => Some (drop AEAD_TAG_BYTES c);
}.

#[local] Instance ex_aead_laws : AeadLaws.
Proof.
  split; simpl; intros key nonce plain aad c Hc; injection Hc as <-; [reflexivity|]. unfold AEAD_TAG_BYTES. simpl. lia.
Defined.

Definition ex_key : MasterKey := mkMasterKey (replicate 32 x07).
Definition ex_old : MasterKeyRing := mkRing 1 {[ 1 := ex_key ]}.
Definition ex_both : MasterKeyRing := mkRing 2 {[ 1 := ex_key; 2 := ex_key ]}.
Definition ex_new : MasterKeyRing := mkRing 2 (delete 1 (keys ex_both)).
Definition ex_nonce : Bytes := replicate 24 x00.
Definition ex_secret : EncryptedSecret :=
  mkEncrypted 1 (x01 :: ex_nonce ++ replicate 16 x00 ++ [x68; x69]).
Definition ex_rotated : EncryptedSecret := mkEncrypted 2 (es_ciphertext ex_secret).

Lemma sealed_secret_survives_rotation_witness :
  seal ex_old (Some ex_nonce) [x68; x69] [x61] = Ok ex_secret
  /\ rotate ex_both (Some ex_nonce) ex_secret [x61] = Ok ex_rotated
  /\ open ex_new ex_rotated [x61] = Ok [x68; x69]
  /\ open ex_new ex_secret [x61] = Err (UnknownKeyVersion 1).
Proof.
  assert (seal ex_old (Some ex_nonce) [x68; x69] [x61] = Ok ex_secret) as Hs by (vm_compute; reflexivity).
  assert (rotate ex_both (Some ex_nonce) ex_secret [x61] = Ok ex_rotated) as Hr by (vm_compute; reflexivity).
  pose proof (sealed_secret_survives_rotation ex_old ex_both ex_new ex_nonce ex_nonce [x68; x69] [x61] ex_secret ex_rotated
    eq_refl eq_refl Hs ltac:(vm_compute; reflexivity) Hr eq_refl ltac:(discriminate)) as (_ & _ & _ & _ & _ & Ho & Hu).
  split; [exact Hs|]. split; [exact Hr|]. split; [exact Ho|exact Hu].
Defined.
End Witness.

(** Names that load to the same key version are the same name. *)
Lemma key_file_name_canonical name v :
  parse_key_file_name (Some name) = Ok v -> strip_suffix ".key" name = Some (pretty (Z.to_N v)).
Proof.
  unfold parse_key_file_name. simpl. destruct (strip_suffix ".key" name) as [text|]; simpl; [|done].
  case_match; [done|]. destruct (parse_u32_digits 0 text) as [value|]; simpl; [|done].
  unfold key_version_try_new. destruct (value =? 0); simpl; [done|].
  destruct (bool_decide (pretty _ = text)) eqn:Ht; simpl; [|done]. bool_simp. intros. by simplify_eq.
Qed.
End Secrets.
