(* ===== verification/ControlPlane.v ===== *)
(** * The stored control-plane configuration

    The version-scoped configuration graph of
    [crates/gateway-store/src/control_plane.rs]: one record per table row, the
    enumerated columns with their SQL spelling, and the aggregate the compilers
    of [crates/gateway-control] take.  JSON columns are kept as text; what the
    text means is read with [serde_json], the class [JsonText]. *)

From S2P Require Import Prelude Core SecretStore.
Local Open Scope string_scope.
Local Open Scope list_scope.

Record ConfigVersionId : Type := mkVersionId { version_text : string }.

#[export] Instance ConfigVersionId_eq_dec : EqDecision ConfigVersionId.
Proof. solve_decision. Defined.
#[export] Instance ConfigVersionId_countable : Countable ConfigVersionId.
Proof. apply (inj_countable' version_text mkVersionId). by intros []. Defined.

Definition version_id_try_new (value : string) : result InvalidIdentifier ConfigVersionId :=
  if bool_decide (value = "") then Err IdEmpty else Ok (mkVersionId value).

(** ** Enumerated columns *)

Inductive ConfigVersionStatus : Type := VersionDraft | VersionActive | VersionArchived.
Inductive CredentialStatus : Type := CredentialActive | CredentialCooling | CredentialUnauthorizedStatus | CredentialDisabled.
Inductive AdministrativeStatus : Type := AdminActive | AdminDisabled.
Inductive EndpointTransport : Type := TransportHttp | TransportSse | TransportWebsocket.
Inductive StoredEgressRedirectMode : Type := StoredDeny | StoredSameOrigin | StoredRevalidate.
Inductive StoredClientKeyStatus : Type := StoredKeyActive | StoredKeyDisabled | StoredKeyRevoked.
Inductive RoutePolicy : Type := PolicyRoundRobin | PolicySmoothWeightedRoundRobin | PolicyPriorityFailover.
Inductive CredentialScope : Type := EndpointBindings.
Inductive TransformMode : Type := ModePassthrough | ModeCanonical | ModeLosslessBridge | ModeCanonicalBridge.
Inductive ManagementAuditAction : Type := AuditCreated | AuditPublished | AuditRolledBack.

#[export] Instance ConfigVersionStatus_eq_dec : EqDecision ConfigVersionStatus.
Proof. solve_decision. Defined.
#[export] Instance CredentialStatus_eq_dec : EqDecision CredentialStatus.
Proof. solve_decision. Defined.
#[export] Instance AdministrativeStatus_eq_dec : EqDecision AdministrativeStatus.
Proof. solve_decision. Defined.
#[export] Instance ManagementAuditAction_eq_dec : EqDecision ManagementAuditAction.
Proof. solve_decision. Defined.

(** A [match] on string literals: the first arm that fits. *)
Fixpoint match_text {A} (arms : list (string * A)) (value : string) : option A :=
  match arms with
  | [] => None
  | (text, a) :: rest => if bool_decide (value = text) then Some a else match_text rest value
  end.

Definition version_status_as_sql (s : ConfigVersionStatus) : string :=
  match s with VersionDraft => "draft" | VersionActive => "active" | VersionArchived => "archived" end.
Definition version_status_from_sql : string -> option ConfigVersionStatus :=
  match_text [("draft", VersionDraft); ("active", VersionActive); ("archived", VersionArchived)].

Definition credential_status_as_sql (s : CredentialStatus) : string :=
  match s with
  | CredentialActive => "active" | CredentialCooling => "cooling"
  | CredentialUnauthorizedStatus => "unauthorized" | CredentialDisabled => "disabled"
  end.
Definition credential_status_from_sql : string -> option CredentialStatus :=
  match_text [("active", CredentialActive); ("cooling", CredentialCooling);
              ("unauthorized", CredentialUnauthorizedStatus); ("disabled", CredentialDisabled)].

Definition admin_status_as_sql (s : AdministrativeStatus) : string :=
  match s with AdminActive => "active" | AdminDisabled => "disabled" end.
Definition admin_status_from_sql : string -> option AdministrativeStatus :=
  match_text [("active", AdminActive); ("disabled", AdminDisabled)].

Definition transport_as_sql (t : EndpointTransport) : string :=
  match t with TransportHttp => "http" | TransportSse => "sse" | TransportWebsocket => "websocket" end.
Definition transport_from_sql : string -> option EndpointTransport :=
  match_text [("http", TransportHttp); ("sse", TransportSse); ("websocket", TransportWebsocket)].

Definition redirect_mode_as_sql (m : StoredEgressRedirectMode) : string :=
  match m with StoredDeny => "deny" | StoredSameOrigin => "same_origin" | StoredRevalidate => "revalidate" end.
Definition redirect_mode_from_sql : string -> option StoredEgressRedirectMode :=
  match_text [("deny", StoredDeny); ("same_origin", StoredSameOrigin); ("revalidate", StoredRevalidate)].

Definition key_status_as_sql (s : StoredClientKeyStatus) : string :=
  match s with StoredKeyActive => "active" | StoredKeyDisabled => "disabled" | StoredKeyRevoked => "revoked" end.
Definition key_status_from_sql : string -> option StoredClientKeyStatus :=
  match_text [("active", StoredKeyActive); ("disabled", StoredKeyDisabled); ("revoked", StoredKeyRevoked)].

Definition policy_as_sql (p : RoutePolicy) : string :=
  match p with
  | PolicyRoundRobin => "round_robin"
  | PolicySmoothWeightedRoundRobin => "smooth_weighted_round_robin"
  | PolicyPriorityFailover => "priority_failover"
  end.
Definition policy_from_sql : string -> option RoutePolicy :=
  match_text [("round_robin", PolicyRoundRobin); ("smooth_weighted_round_robin", PolicySmoothWeightedRoundRobin);
              ("priority_failover", PolicyPriorityFailover)].

Definition scope_as_sql (s : CredentialScope) : string := match s with EndpointBindings => "endpoint_bindings" end.
Definition scope_from_sql : string -> option CredentialScope := match_text [("endpoint_bindings", EndpointBindings)].

Definition transform_as_sql (m : TransformMode) : string :=
  match m with
  | ModePassthrough => "passthrough" | ModeCanonical => "canonical"
  | ModeLosslessBridge => "lossless_bridge" | ModeCanonicalBridge => "canonical_bridge"
  end.
Definition transform_from_sql : string -> option TransformMode :=
  match_text [("passthrough", ModePassthrough); ("canonical", ModeCanonical);
              ("lossless_bridge", ModeLosslessBridge); ("canonical_bridge", ModeCanonicalBridge)].

Definition audit_action_as_sql (a : ManagementAuditAction) : string :=
  match a with
  | AuditCreated => "config_created" | AuditPublished => "config_published" | AuditRolledBack => "config_rolled_back"
  end.
Definition audit_action_from_sql : string -> option ManagementAuditAction :=
  match_text [("config_created", AuditCreated); ("config_published", AuditPublished);
              ("config_rolled_back", AuditRolledBack)].

(** What the repository relies on for every enumerated column: a stored spelling
    is read back as the value that wrote it, and nothing else is accepted. *)
Class SqlColumn (A : Type) := {
  as_sql : A -> string;
  from_sql : string -> option A;
  sql_exact : forall text a, from_sql text = Some a <-> text = as_sql a;
}.

Ltac sql_column f :=
  intros text a; unfold f, match_text; split;
  [ intros H; repeat case_bool_decide; by simplify_eq/= | intros ->; by destruct a ].

#[export, refine] Instance version_status_column : SqlColumn ConfigVersionStatus :=
  {| as_sql := version_status_as_sql; from_sql := version_status_from_sql |}.
Proof. sql_column version_status_from_sql. Defined.
#[export, refine] Instance credential_status_column : SqlColumn CredentialStatus :=
  {| as_sql := credential_status_as_sql; from_sql := credential_status_from_sql |}.
Proof. sql_column credential_status_from_sql. Defined.
#[export, refine] Instance admin_status_column : SqlColumn AdministrativeStatus :=
  {| as_sql := admin_status_as_sql; from_sql := admin_status_from_sql |}.
Proof. sql_column admin_status_from_sql. Defined.
#[export, refine] Instance transport_column : SqlColumn EndpointTransport :=
  {| as_sql := transport_as_sql; from_sql := transport_from_sql |}.
Proof. sql_column transport_from_sql. Defined.
#[export, refine] Instance redirect_mode_column : SqlColumn StoredEgressRedirectMode :=
  {| as_sql := redirect_mode_as_sql; from_sql := redirect_mode_from_sql |}.
Proof. sql_column redirect_mode_from_sql. Defined.
#[export, refine] Instance key_status_column : SqlColumn StoredClientKeyStatus :=
  {| as_sql := key_status_as_sql; from_sql := key_status_from_sql |}.
Proof. sql_column key_status_from_sql. Defined.
#[export, refine] Instance policy_column : SqlColumn RoutePolicy :=
  {| as_sql := policy_as_sql; from_sql := policy_from_sql |}.
Proof. sql_column policy_from_sql. Defined.
#[export, refine] Instance scope_column : SqlColumn CredentialScope :=
  {| as_sql := scope_as_sql; from_sql := scope_from_sql |}.
Proof. sql_column scope_from_sql. Defined.
#[export, refine] Instance transform_column : SqlColumn TransformMode :=
  {| as_sql := transform_as_sql; from_sql := transform_from_sql |}.
Proof. sql_column transform_from_sql. Defined.
#[export, refine] Instance audit_action_column : SqlColumn ManagementAuditAction :=
  {| as_sql := audit_action_as_sql; from_sql := audit_action_from_sql |}.
Proof. sql_column audit_action_from_sql. Defined.

(** ** Rows *)

Record ConfigVersion : Type := mkConfigVersion {
  cv_id : ConfigVersionId;
  cv_parent_id : option ConfigVersionId;
  cv_status : ConfigVersionStatus;
  cv_revision : Z;
  cv_created_at_ms : Z;
  cv_description : string;
}.

Record UpstreamConfiguration : Type := mkUpstream {
  up_id : UpstreamId;
  up_name : string;
  up_kind : string;
  up_enabled : bool;
  up_tags_json : string;
  up_egress_policy_id : option (Id KEgressPolicy);
}.

Record EgressPolicyConfiguration : Type := mkEgressPolicyRow {
  ep_id : Id KEgressPolicy;
  ep_name : string;
  ep_allowed_schemes_json : string;
  ep_allowed_hosts_json : string;
  ep_allowed_ports_json : string;
  ep_allowed_cidrs_json : string;
  ep_redirect_mode : StoredEgressRedirectMode;
  ep_max_redirects : Z;
}.

Record EndpointConfiguration : Type := mkEndpoint {
  en_id : EndpointId;
  en_upstream_id : UpstreamId;
  en_adapter_id : string;
  en_api_format : string;
  en_base_url : string;
  en_inference_path : string;
  en_models_path : option string;
  en_transport : EndpointTransport;
  en_enabled : bool;
}.

Record CredentialConfiguration : Type := mkCredential {
  cr_id : CredentialId;
  cr_upstream_id : UpstreamId;
  cr_kind : string;
  cr_encrypted_secret : Secrets.EncryptedSecret;
  cr_status : CredentialStatus;
  cr_revision : Z;
}.

Record EndpointCredentialBindingConfiguration : Type := mkBinding {
  bn_endpoint_id : EndpointId;
  bn_credential_id : CredentialId;
  bn_upstream_id : UpstreamId;
  bn_enabled : bool;
  bn_priority : Z;
  bn_weight : Z;
  bn_concurrency : Z;
}.

Record PublicModelConfiguration : Type := mkPublicModelRow {
  pc_id : PublicModelId;
  pc_model_name : string;
  pc_status : AdministrativeStatus;
  pc_display_name : string;
  pc_capabilities_json : string;
}.

Record ModelAliasConfiguration : Type := mkAlias { al_alias : string; al_public_model_id : PublicModelId }.

Record ModelRouteConfiguration : Type := mkRouteRow {
  rt_id : RouteId;
  rt_public_model_id : PublicModelId;
  rt_policy : RoutePolicy;
  rt_max_attempts : Z;
  rt_bootstrap_timeout_ms : Z;
}.

Record RouteCandidateConfiguration : Type := mkCandidateRow {
  cn_id : RouteCandidateId;
  cn_route_id : RouteId;
  cn_endpoint_id : EndpointId;
  cn_upstream_model : string;
  cn_credential_scope : CredentialScope;
  cn_transform_mode : TransformMode;
  cn_enabled : bool;
  cn_priority : Z;
  cn_weight : Z;
  cn_capability_override_json : string;
}.

Record AccessGroupConfiguration : Type := mkAccessGroupRow {
  gr_id : AccessGroupId;
  gr_name : string;
  gr_status : AdministrativeStatus;
  gr_limits_json : string;
}.

Record AccessGroupRouteConfiguration : Type := mkGrant {
  gt_access_group_id : AccessGroupId;
  gt_route_id : RouteId;
  gt_enabled : bool;
}.

Record StoredClientKey : Type := mkStoredKey {
  sk_id : ClientKeyId;
  sk_access_group_id : AccessGroupId;
  sk_prefix : string;
  sk_secret_digest : list Byte.byte;
  sk_status : StoredClientKeyStatus;
  sk_expires_at_ms : option Z;
}.

Record ControlPlaneConfiguration : Type := mkConfiguration {
  cf_version : ConfigVersion;
  cf_egress_policies : list EgressPolicyConfiguration;
  cf_upstreams : list UpstreamConfiguration;
  cf_endpoints : list EndpointConfiguration;
  cf_credentials : list CredentialConfiguration;
  cf_bindings : list EndpointCredentialBindingConfiguration;
  cf_public_models : list PublicModelConfiguration;
  cf_aliases : list ModelAliasConfiguration;
  cf_routes : list ModelRouteConfiguration;
  cf_candidates : list RouteCandidateConfiguration;
  cf_access_groups : list AccessGroupConfiguration;
  cf_grants : list AccessGroupRouteConfiguration;
  cf_client_keys : list StoredClientKey;
}.

(** ** JSON text *)

#[local] Set Warnings "-register-all".

(** [serde_json::Value]; a number is its text. *)
Inductive Value : Type :=
| JNull
| JBool (b : bool)
| JNumber (text : string)
| JString (s : string)
| JArray (items : list Value)
| JObject (fields : list (string * Value)).

(** [serde_json::from_str] at the types the configuration uses; [None] is its
    error. *)
Class JsonText := {
  value_from_str : string -> option Value;
  strings_from_str : string -> option (list string);
  ports_from_str : string -> option (list Z);
}.

(** A [BTreeMap] over identifiers in iteration order. *)
Definition id_values {k A} (m : gmap (Id k) A) : list A :=
  snd <$> sort_by (fun a b => id_leb a.1 b.1) (map_to_list m).

Lemma elem_of_id_values {k A} (m : gmap (Id k) A) x : x ∈ id_values m <-> exists i, m !! i = Some x.
Proof.
  unfold id_values. rewrite list_elem_of_fmap. setoid_rewrite sort_by_perm. split.
  - intros ([i y] & -> & Hin%elem_of_map_to_list). by exists i.
  - intros [i Hi]. exists (i, x). split; [done|]. by apply elem_of_map_to_list.
Qed.

(** The rows of a table with unique identifiers, in identifier order. *)
Lemma id_values_perm {k A} (key : A -> Id k) l : NoDup (key <$> l) -> id_values (by_key key l) ≡ₚ l.
Proof.
  intros Hnd. unfold id_values. rewrite sort_by_perm.
  assert (by_key key l = list_to_map ((fun x => (key x, x)) <$> l)) as ->.
  { apply map_eq. intros i. apply option_eq. intros x. rewrite (by_key_Some key l Hnd), <- elem_of_list_to_map.
    - rewrite list_elem_of_fmap. split; [intros [Hin <-]; by exists x|]. intros (y & [= -> ->] & Hin). done.
    - by rewrite <- list_fmap_compose. }
  rewrite map_to_list_to_map; [by rewrite <- list_fmap_compose, list_fmap_id|].
  by rewrite <- list_fmap_compose.
Qed.
