(* ===== verification/StoreRows.v ===== *)
(** * Rows of the control-plane tables

    The column encoding of [crates/gateway-store/src/control_plane.rs]: for every
    table the values an INSERT binds ([to_row], in the order the SELECT of the
    loader lists the columns) and the decoding of one row by the loader
    ([from_row]), which fails closed on a malformed record.  The law of [SqlRow] is
    that a well-formed row is read back as it was written. *)

From S2P Require Import Prelude Text Core SecretStore ControlPlane.
From Stdlib Require Import Strings.Byte.
Local Open Scope string_scope.
Local Open Scope list_scope.
Local Open Scope Z_scope.

(** ** Errors and values *)

(** [Sqlite] is every failure of the database itself, constraints included. *)
Inductive StoreError : Type :=
| Sqlite
| InvalidPersistedControlPlaneRecord (table : string)
| InvalidClientKeyDigestLength (actual : nat)
| ControlPlaneMutationRequiresDraft
| ConfigVersionNotFound
| ConfigVersionAlreadyActive
| ConfigVersionRevisionConflict
| ControlPlaneResourceNotFound
| InvalidManagementAuditEvent
| InvalidPersistedGatewayEvent
| ConflictingGatewayEventReplay
| DiagnosticEventNotPersistable
| GatewayEventLogIntegrityCheckFailed.

Abbreviation StoreResult A := (result StoreError A).

Inductive SqlValue : Type :=
| SqlNull
| SqlInteger (value : Z)
| SqlText (value : string)
| SqlBlob (value : list Byte.byte).

Abbreviation SqlColumns := (list SqlValue).

Definition malformed (table : string) : StoreError := InvalidPersistedControlPlaneRecord table.

(** [row.get(index)] at the types the loaders ask for. *)
Definition get_integer (row : SqlColumns) (index : nat) : StoreResult Z :=
  match row !! index with Some (SqlInteger v) => Ok v | _ => Err Sqlite end.
Definition get_text (row : SqlColumns) (index : nat) : StoreResult string :=
  match row !! index with Some (SqlText v) => Ok v | _ => Err Sqlite end.
Definition get_blob (row : SqlColumns) (index : nat) : StoreResult (list Byte.byte) :=
  match row !! index with Some (SqlBlob v) => Ok v | _ => Err Sqlite end.
Definition get_optional_text (row : SqlColumns) (index : nat) : StoreResult (option string) :=
  match row !! index with Some (SqlText v) => Ok (Some v) | Some SqlNull => Ok None | _ => Err Sqlite end.
Definition get_optional_integer (row : SqlColumns) (index : nat) : StoreResult (option Z) :=
  match row !! index with Some (SqlInteger v) => Ok (Some v) | Some SqlNull => Ok None | _ => Err Sqlite end.

Definition read_identifier {T} (row : SqlColumns) (index : nat) (create : string -> result InvalidIdentifier T)
    (table : string) : StoreResult T :=
  let? value := get_text row index in map_err (fun _ => malformed table) (create value).

Definition read_optional_identifier {T} (row : SqlColumns) (index : nat)
    (create : string -> result InvalidIdentifier T) (table : string) : StoreResult (option T) :=
  let? value := get_optional_text row index in
  match value with
  | None => Ok None
  | Some value => let? id := map_err (fun _ => malformed table) (create value) in Ok (Some id)
  end.

Definition read_boolean (row : SqlColumns) (index : nat) (table : string) : StoreResult bool :=
  let? value := get_integer row index in
  if value =? 0 then Ok false else if value =? 1 then Ok true else Err (malformed table).

(** [from_sql(..).ok_or_else(|| malformed(table))]. *)
Definition read_column {A} `{SqlColumn A} (row : SqlColumns) (index : nat) (table : string) : StoreResult A :=
  let? value := get_text row index in ok_or (malformed table) (from_sql value).

Definition boolean_to_sql (value : bool) : Z := if value then 1 else 0.

Definition text_column {k} (i : Id k) : SqlValue := SqlText (as_str i).
Definition optional_text (value : option string) : SqlValue :=
  match value with Some s => SqlText s | None => SqlNull end.
Definition optional_integer (value : option Z) : SqlValue :=
  match value with Some z => SqlInteger z | None => SqlNull end.

(** What the loaders need of a row besides its type. *)
Definition id_ok {k} (i : Id k) : Prop := as_str i <> "".
Definition version_ok (v : ConfigVersionId) : Prop := version_text v <> "".

Class SqlRow (A : Type) := {
  to_row : A -> SqlColumns;
  from_row : SqlColumns -> StoreResult A;
  row_ok : A -> Prop;
  from_to_row : forall a, row_ok a -> from_row (to_row a) = Ok a;
}.

(** ** The tables *)

Definition version_to_row (v : ConfigVersion) : SqlColumns :=
  [SqlText (version_text (cv_id v)); optional_text (version_text <$> cv_parent_id v); SqlText (as_sql (cv_status v));
   SqlInteger (cv_revision v); SqlInteger (cv_created_at_ms v); SqlText (cv_description v)].

Definition config_version_from_row (row : SqlColumns) : StoreResult ConfigVersion :=
  let? id := read_identifier row 0 version_id_try_new "config_versions" in
  let? parent_id := read_optional_identifier row 1 version_id_try_new "config_versions" in
  let? status := read_column row 2 "config_versions" in
  let? revision := get_integer row 3 in
  if revision <? 0 then Err (malformed "config_versions")
  else
    let? created_at_ms := get_integer row 4 in
    if created_at_ms <? 0 then Err (malformed "config_versions")
    else
      let? description := get_text row 5 in
      Ok (mkConfigVersion id parent_id status revision created_at_ms description).

Definition policy_to_row (p : EgressPolicyConfiguration) : SqlColumns :=
  [text_column (ep_id p); SqlText (ep_name p); SqlText (ep_allowed_schemes_json p); SqlText (ep_allowed_hosts_json p);
   SqlText (ep_allowed_ports_json p); SqlText (ep_allowed_cidrs_json p); SqlText (as_sql (ep_redirect_mode p));
   SqlInteger (ep_max_redirects p)].

Definition policy_from_row (row : SqlColumns) : StoreResult EgressPolicyConfiguration :=
  let? redirect_mode := read_column row 6 "egress_policies" in
  let? max_redirects := get_integer row 7 in
  if max_redirects <? 0 then Err (malformed "egress_policies")
  else
    let? id := read_identifier row 0 (id_try_new KEgressPolicy) "egress_policies" in
    let? name := get_text row 1 in
    let? schemes := get_text row 2 in
    let? hosts := get_text row 3 in
    let? ports := get_text row 4 in
    let? cidrs := get_text row 5 in
    Ok (mkEgressPolicyRow id name schemes hosts ports cidrs redirect_mode max_redirects).

Definition upstream_to_row (u : UpstreamConfiguration) : SqlColumns :=
  [text_column (up_id u); SqlText (up_name u); SqlText (up_kind u); SqlInteger (boolean_to_sql (up_enabled u));
   SqlText (up_tags_json u); optional_text (as_str <$> up_egress_policy_id u)].

Definition upstream_from_row (row : SqlColumns) : StoreResult UpstreamConfiguration :=
  let? id := read_identifier row 0 (id_try_new KUpstream) "upstreams" in
  let? name := get_text row 1 in
  let? kind := get_text row 2 in
  let? enabled := read_boolean row 3 "upstreams" in
  let? tags_json := get_text row 4 in
  let? egress_policy_id := read_optional_identifier row 5 (id_try_new KEgressPolicy) "upstreams" in
  Ok (mkUpstream id name kind enabled tags_json egress_policy_id).

Definition endpoint_to_row (e : EndpointConfiguration) : SqlColumns :=
  [text_column (en_id e); text_column (en_upstream_id e); SqlText (en_adapter_id e); SqlText (en_api_format e);
   SqlText (en_base_url e); SqlText (en_inference_path e); optional_text (en_models_path e);
   SqlText (as_sql (en_transport e)); SqlInteger (boolean_to_sql (en_enabled e))].

Definition endpoint_from_row (row : SqlColumns) : StoreResult EndpointConfiguration :=
  let? id := read_identifier row 0 (id_try_new KEndpoint) "upstream_endpoints" in
  let? upstream_id := read_identifier row 1 (id_try_new KUpstream) "upstream_endpoints" in
  let? adapter_id := get_text row 2 in
  let? api_format := get_text row 3 in
  let? base_url := get_text row 4 in
  let? inference_path := get_text row 5 in
  let? models_path := get_optional_text row 6 in
  let? transport := read_column row 7 "upstream_endpoints" in
  let? enabled := read_boolean row 8 "upstream_endpoints" in
  Ok (mkEndpoint id upstream_id adapter_id api_format base_url inference_path models_path transport enabled).

Definition credential_to_row (c : CredentialConfiguration) : SqlColumns :=
  [text_column (cr_id c); text_column (cr_upstream_id c); SqlText (cr_kind c);
   SqlBlob (Secrets.es_ciphertext (cr_encrypted_secret c)); SqlInteger (Secrets.es_key_version (cr_encrypted_secret c));
   SqlText (as_sql (cr_status c)); SqlInteger (cr_revision c)].

Definition credential_from_row (row : SqlColumns) : StoreResult CredentialConfiguration :=
  let? stored_version := get_integer row 4 in
  let? key_version := map_err (fun _ => malformed "upstream_credentials") (Secrets.try_from_sqlite_i64 stored_version) in
  let? ciphertext := get_blob row 3 in
  let? encrypted_secret := map_err (fun _ => malformed "upstream_credentials")
                             (Secrets.try_from_persisted key_version ciphertext) in
  let? status := read_column row 5 "upstream_credentials" in
  let? revision := get_integer row 6 in
  if revision <? 0 then Err (malformed "upstream_credentials")
  else
    let? id := read_identifier row 0 (id_try_new KCredential) "upstream_credentials" in
    let? upstream_id := read_identifier row 1 (id_try_new KUpstream) "upstream_credentials" in
    let? kind := get_text row 2 in
    Ok (mkCredential id upstream_id kind encrypted_secret status revision).

Definition binding_to_row (b : EndpointCredentialBindingConfiguration) : SqlColumns :=
  [text_column (bn_endpoint_id b); text_column (bn_credential_id b); text_column (bn_upstream_id b);
   SqlInteger (boolean_to_sql (bn_enabled b)); SqlInteger (bn_priority b); SqlInteger (bn_weight b);
   SqlInteger (bn_concurrency b)].

Definition binding_from_row (row : SqlColumns) : StoreResult EndpointCredentialBindingConfiguration :=
  let? priority := get_integer row 4 in
  let? weight := get_integer row 5 in
  let? concurrency := get_integer row 6 in
  if (priority <? 0) || (weight <=? 0) || (concurrency <=? 0) then Err (malformed "endpoint_credential_bindings")
  else
    let? endpoint_id := read_identifier row 0 (id_try_new KEndpoint) "endpoint_credential_bindings" in
    let? credential_id := read_identifier row 1 (id_try_new KCredential) "endpoint_credential_bindings" in
    let? upstream_id := read_identifier row 2 (id_try_new KUpstream) "endpoint_credential_bindings" in
    let? enabled := read_boolean row 3 "endpoint_credential_bindings" in
    Ok (mkBinding endpoint_id credential_id upstream_id enabled priority weight concurrency).

Definition model_to_row (p : PublicModelConfiguration) : SqlColumns :=
  [text_column (pc_id p); SqlText (pc_model_name p); SqlText (as_sql (pc_status p)); SqlText (pc_display_name p);
   SqlText (pc_capabilities_json p)].

Definition model_from_row (row : SqlColumns) : StoreResult PublicModelConfiguration :=
  let? status := read_column row 2 "public_models" in
  let? id := read_identifier row 0 (id_try_new KPublicModel) "public_models" in
  let? model_name := get_text row 1 in
  let? display_name := get_text row 3 in
  let? capabilities_json := get_text row 4 in
  Ok (mkPublicModelRow id model_name status display_name capabilities_json).

Definition alias_to_row (a : ModelAliasConfiguration) : SqlColumns :=
  [SqlText (al_alias a); text_column (al_public_model_id a)].

Definition alias_from_row (row : SqlColumns) : StoreResult ModelAliasConfiguration :=
  let? alias := get_text row 0 in
  let? public_model_id := read_identifier row 1 (id_try_new KPublicModel) "model_aliases" in
  Ok (mkAlias alias public_model_id).

Definition route_to_row (r : ModelRouteConfiguration) : SqlColumns :=
  [text_column (rt_id r); text_column (rt_public_model_id r); SqlText (as_sql (rt_policy r));
   SqlInteger (rt_max_attempts r); SqlInteger (rt_bootstrap_timeout_ms r)].

Definition route_from_row (row : SqlColumns) : StoreResult ModelRouteConfiguration :=
  let? policy := read_column row 2 "model_routes" in
  let? max_attempts := get_integer row 3 in
  let? bootstrap_timeout_ms := get_integer row 4 in
  if (max_attempts <=? 0) || (bootstrap_timeout_ms <=? 0) then Err (malformed "model_routes")
  else
    let? id := read_identifier row 0 (id_try_new KRoute) "model_routes" in
    let? public_model_id := read_identifier row 1 (id_try_new KPublicModel) "model_routes" in
    Ok (mkRouteRow id public_model_id policy max_attempts bootstrap_timeout_ms).

Definition candidate_to_row (c : RouteCandidateConfiguration) : SqlColumns :=
  [text_column (cn_id c); text_column (cn_route_id c); text_column (cn_endpoint_id c); SqlText (cn_upstream_model c);
   SqlText (as_sql (cn_credential_scope c)); SqlText (as_sql (cn_transform_mode c));
   SqlInteger (boolean_to_sql (cn_enabled c)); SqlInteger (cn_priority c); SqlInteger (cn_weight c);
   SqlText (cn_capability_override_json c)].

Definition candidate_from_row (row : SqlColumns) : StoreResult RouteCandidateConfiguration :=
  let? credential_scope := read_column row 4 "route_candidates" in
  let? transform_mode := read_column row 5 "route_candidates" in
  let? priority := get_integer row 7 in
  let? weight := get_integer row 8 in
  if (priority <? 0) || (weight <=? 0) then Err (malformed "route_candidates")
  else
    let? id := read_identifier row 0 (id_try_new KRouteCandidate) "route_candidates" in
    let? route_id := read_identifier row 1 (id_try_new KRoute) "route_candidates" in
    let? endpoint_id := read_identifier row 2 (id_try_new KEndpoint) "route_candidates" in
    let? upstream_model := get_text row 3 in
    let? enabled := read_boolean row 6 "route_candidates" in
    let? capability_override_json := get_text row 9 in
    Ok (mkCandidateRow id route_id endpoint_id upstream_model credential_scope transform_mode enabled priority weight
          capability_override_json).

Definition group_to_row (g : AccessGroupConfiguration) : SqlColumns :=
  [text_column (gr_id g); SqlText (gr_name g); SqlText (as_sql (gr_status g)); SqlText (gr_limits_json g)].

Definition group_from_row (row : SqlColumns) : StoreResult AccessGroupConfiguration :=
  let? status := read_column row 2 "access_groups" in
  let? id := read_identifier row 0 (id_try_new KAccessGroup) "access_groups" in
  let? name := get_text row 1 in
  let? limits_json := get_text row 3 in
  Ok (mkAccessGroupRow id name status limits_json).

Definition grant_to_row (g : AccessGroupRouteConfiguration) : SqlColumns :=
  [text_column (gt_access_group_id g); text_column (gt_route_id g); SqlInteger (boolean_to_sql (gt_enabled g))].

Definition grant_from_row (row : SqlColumns) : StoreResult AccessGroupRouteConfiguration :=
  let? access_group_id := read_identifier row 0 (id_try_new KAccessGroup) "access_group_routes" in
  let? route_id := read_identifier row 1 (id_try_new KRoute) "access_group_routes" in
  let? enabled := read_boolean row 2 "access_group_routes" in
  Ok (mkGrant access_group_id route_id enabled).

Definition CLIENT_KEY_DIGEST_BYTES : nat := 32.

(** [StoredClientKey::try_new]. *)
Definition stored_key_try_new (id : ClientKeyId) (access_group_id : AccessGroupId) (prefix : string)
    (secret_digest : list Byte.byte) (status : StoredClientKeyStatus) (expires_at_ms : option Z)
  : StoreResult StoredClientKey :=
  if negb (bool_decide (length secret_digest = CLIENT_KEY_DIGEST_BYTES))
  then Err (InvalidClientKeyDigestLength (length secret_digest))
  else if match expires_at_ms with Some value => value <? 0 | None => false end
  then Err (InvalidPersistedControlPlaneRecord "client_keys")
  else Ok (mkStoredKey id access_group_id prefix secret_digest status expires_at_ms).

Definition key_to_row (k : StoredClientKey) : SqlColumns :=
  [text_column (sk_id k); text_column (sk_access_group_id k); SqlText (sk_prefix k); SqlBlob (sk_secret_digest k);
   SqlText (as_sql (sk_status k)); optional_integer (sk_expires_at_ms k)].

Definition key_from_row (row : SqlColumns) : StoreResult StoredClientKey :=
  let? status := read_column row 4 "client_keys" in
  let? digest := get_blob row 3 in
  let? id := read_identifier row 0 (id_try_new KClientKey) "client_keys" in
  let? access_group_id := read_identifier row 1 (id_try_new KAccessGroup) "client_keys" in
  let? prefix := get_text row 2 in
  let? expires_at_ms := get_optional_integer row 5 in
  stored_key_try_new id access_group_id prefix digest status expires_at_ms.

(** ** Reading back what was written *)

Lemma read_column_at {A} `{SqlColumn A} row index table a :
  row !! index = Some (SqlText (as_sql a)) -> read_column row index table = Ok a.
Proof.
  intros Hrow. unfold read_column, get_text. rewrite Hrow. simpl.
  by rewrite (proj2 (sql_exact (as_sql a) a)).
Qed.

Lemma read_id_at {k} row index table (i : Id k) :
  row !! index = Some (text_column i) -> id_ok i -> read_identifier row index (id_try_new k) table = Ok i.
Proof.
  intros Hrow Hi. unfold read_identifier, get_text, id_try_new. rewrite Hrow. destruct i as [s]. unfold id_ok in Hi.
  simpl in *. by rewrite bool_decide_eq_false_2.
Qed.

Lemma read_version_at row index table v :
  row !! index = Some (SqlText (version_text v)) -> version_ok v -> read_identifier row index version_id_try_new table = Ok v.
Proof.
  intros Hrow Hi. unfold read_identifier, get_text, version_id_try_new. rewrite Hrow. destruct v as [s].
  unfold version_ok in Hi. simpl in *. by rewrite bool_decide_eq_false_2.
Qed.

Lemma read_optional_id_at {k} row index table (i : option (Id k)) :
  row !! index = Some (optional_text (as_str <$> i)) -> (forall j, i = Some j -> id_ok j) ->
  read_optional_identifier row index (id_try_new k) table = Ok i.
Proof.
  intros Hrow Hi. unfold read_optional_identifier, get_optional_text, id_try_new. rewrite Hrow.
  destruct i as [[s]|]; simpl; [|done]. specialize (Hi _ eq_refl). unfold id_ok in Hi. simpl in Hi.
  by rewrite bool_decide_eq_false_2.
Qed.

Lemma read_optional_version_at row index table (i : option ConfigVersionId) :
  row !! index = Some (optional_text (version_text <$> i)) -> (forall j, i = Some j -> version_ok j) ->
  read_optional_identifier row index version_id_try_new table = Ok i.
Proof.
  intros Hrow Hi. unfold read_optional_identifier, get_optional_text, version_id_try_new. rewrite Hrow.
  destruct i as [[s]|]; simpl; [|done]. specialize (Hi _ eq_refl). unfold version_ok in Hi. simpl in Hi.
  by rewrite bool_decide_eq_false_2.
Qed.

Lemma read_boolean_at row index table b :
  row !! index = Some (SqlInteger (boolean_to_sql b)) -> read_boolean row index table = Ok b.
Proof. intros Hrow. unfold read_boolean, get_integer. rewrite Hrow. by destruct b. Qed.

Lemma get_optional_text_at row index v :
  row !! index = Some (optional_text v) -> get_optional_text row index = Ok v.
Proof. intros Hrow. unfold get_optional_text. rewrite Hrow. by destruct v. Qed.

Lemma get_optional_integer_at row index v :
  row !! index = Some (optional_integer v) -> get_optional_integer row index = Ok v.
Proof. intros Hrow. unfold get_optional_integer. rewrite Hrow. by destruct v. Qed.

Definition secret_ok (s : Secrets.EncryptedSecret) : Prop :=
  1 <= Secrets.es_key_version s < 2 ^ 32 /\ Secrets.validate_envelope (Secrets.es_ciphertext s) = Ok tt.

Ltac read_back :=
  repeat first
    [ erewrite read_column_at; [|reflexivity]
    | erewrite read_id_at; [|reflexivity|done]
    | erewrite read_version_at; [|reflexivity|done]
    | erewrite read_optional_id_at; [|reflexivity|done]
    | erewrite read_optional_version_at; [|reflexivity|done]
    | erewrite read_boolean_at; [|reflexivity]
    | erewrite get_optional_text_at; [|reflexivity]
    | erewrite get_optional_integer_at; [|reflexivity]
    | progress cbn [result_bind get_integer get_text get_blob lookup list_lookup] ].

Record version_row_ok (v : ConfigVersion) : Prop := {
  vr_id : version_ok (cv_id v);
  vr_parent : forall p, cv_parent_id v = Some p -> version_ok p;
  vr_revision : 0 <= cv_revision v;
  vr_created : 0 <= cv_created_at_ms v;
}.

#[export, refine] Instance version_row : SqlRow ConfigVersion :=
  {| to_row := version_to_row; from_row := config_version_from_row; row_ok := version_row_ok |}.
Proof.
  intros v []. unfold config_version_from_row, version_to_row. read_back.
  rewrite (proj2 (Z.ltb_ge _ _)) by done. read_back. rewrite (proj2 (Z.ltb_ge _ _)) by done. by destruct v.
Defined.

#[export, refine] Instance policy_row : SqlRow EgressPolicyConfiguration :=
  {| to_row := policy_to_row; from_row := policy_from_row;
     row_ok := fun p => id_ok (ep_id p) /\ 0 <= ep_max_redirects p |}.
Proof.
  intros p [Hid Hmax]. unfold policy_from_row, policy_to_row. read_back.
  rewrite (proj2 (Z.ltb_ge _ _)) by done. read_back. by destruct p.
Defined.

#[export, refine] Instance upstream_row : SqlRow UpstreamConfiguration :=
  {| to_row := upstream_to_row; from_row := upstream_from_row;
     row_ok := fun u => id_ok (up_id u) /\ forall i, up_egress_policy_id u = Some i -> id_ok i |}.
Proof. intros u [Hid Hpol]. unfold upstream_from_row, upstream_to_row. read_back. by destruct u. Defined.

#[export, refine] Instance endpoint_row : SqlRow EndpointConfiguration :=
  {| to_row := endpoint_to_row; from_row := endpoint_from_row;
     row_ok := fun e => id_ok (en_id e) /\ id_ok (en_upstream_id e) |}.
Proof. intros e [Hid Hup]. unfold endpoint_from_row, endpoint_to_row. read_back. by destruct e. Defined.

Record credential_row_ok (c : CredentialConfiguration) : Prop := {
  cd_id : id_ok (cr_id c);
  cd_upstream : id_ok (cr_upstream_id c);
  cd_secret : secret_ok (cr_encrypted_secret c);
  cd_revision : 0 <= cr_revision c;
}.

#[export, refine] Instance credential_row : SqlRow CredentialConfiguration :=
  {| to_row := credential_to_row; from_row := credential_from_row; row_ok := credential_row_ok |}.
Proof.
  intros c [Hid Hup [Hkv Henv] Hrev]. unfold credential_from_row, credential_to_row, Secrets.try_from_sqlite_i64.
  read_back. rewrite (proj2 (Z.leb_le _ _)), (proj2 (Z.ltb_lt _ _)) by lia. unfold Secrets.key_version_try_new.
  simpl andb. cbv iota. rewrite (proj2 (Z.eqb_neq _ _)) by lia. cbn [map_err]. read_back. unfold Secrets.try_from_persisted.
  rewrite Henv. cbn [result_bind map_err]. read_back. rewrite (proj2 (Z.ltb_ge _ _)) by done. read_back.
  by destruct c as [? ? ? [] ? ?].
Defined.

Record binding_row_ok (b : EndpointCredentialBindingConfiguration) : Prop := {
  bd_endpoint : id_ok (bn_endpoint_id b);
  bd_credential : id_ok (bn_credential_id b);
  bd_upstream : id_ok (bn_upstream_id b);
  bd_priority : 0 <= bn_priority b;
  bd_weight : 0 < bn_weight b;
  bd_concurrency : 0 < bn_concurrency b;
}.

#[export, refine] Instance binding_row : SqlRow EndpointCredentialBindingConfiguration :=
  {| to_row := binding_to_row; from_row := binding_from_row; row_ok := binding_row_ok |}.
Proof.
  intros b []. unfold binding_from_row, binding_to_row. read_back.
  rewrite (proj2 (Z.ltb_ge _ _)), !(proj2 (Z.leb_gt _ _)) by done. cbn [orb]. read_back. by destruct b.
Defined.

#[export, refine] Instance model_row : SqlRow PublicModelConfiguration :=
  {| to_row := model_to_row; from_row := model_from_row; row_ok := fun p => id_ok (pc_id p) |}.
Proof. intros p Hid. unfold model_from_row, model_to_row. read_back. by destruct p. Defined.

#[export, refine] Instance alias_row : SqlRow ModelAliasConfiguration :=
  {| to_row := alias_to_row; from_row := alias_from_row; row_ok := fun a => id_ok (al_public_model_id a) |}.
Proof. intros a Hid. unfold alias_from_row, alias_to_row. read_back. by destruct a. Defined.

Record route_row_ok (r : ModelRouteConfiguration) : Prop := {
  ro_id : id_ok (rt_id r);
  ro_model : id_ok (rt_public_model_id r);
  ro_attempts : 0 < rt_max_attempts r;
  ro_timeout : 0 < rt_bootstrap_timeout_ms r;
}.

#[export, refine] Instance route_row : SqlRow ModelRouteConfiguration :=
  {| to_row := route_to_row; from_row := route_from_row; row_ok := route_row_ok |}.
Proof.
  intros r []. unfold route_from_row, route_to_row. read_back.
  rewrite !(proj2 (Z.leb_gt _ _)) by done. cbn [orb]. read_back. by destruct r.
Defined.

Record candidate_row_ok (c : RouteCandidateConfiguration) : Prop := {
  ca_id : id_ok (cn_id c);
  ca_route : id_ok (cn_route_id c);
  ca_endpoint : id_ok (cn_endpoint_id c);
  ca_priority : 0 <= cn_priority c;
  ca_weight : 0 < cn_weight c;
}.

#[export, refine] Instance candidate_row : SqlRow RouteCandidateConfiguration :=
  {| to_row := candidate_to_row; from_row := candidate_from_row; row_ok := candidate_row_ok |}.
Proof.
  intros c []. unfold candidate_from_row, candidate_to_row. read_back.
  rewrite (proj2 (Z.ltb_ge _ _)), (proj2 (Z.leb_gt _ _)) by done. cbn [orb]. read_back. by destruct c.
Defined.

#[export, refine] Instance group_row : SqlRow AccessGroupConfiguration :=
  {| to_row := group_to_row; from_row := group_from_row; row_ok := fun g => id_ok (gr_id g) |}.
Proof. intros g Hid. unfold group_from_row, group_to_row. read_back. by destruct g. Defined.

#[export, refine] Instance grant_row : SqlRow AccessGroupRouteConfiguration :=
  {| to_row := grant_to_row; from_row := grant_from_row;
     row_ok := fun g => id_ok (gt_access_group_id g) /\ id_ok (gt_route_id g) |}.
Proof. intros g [Hg Hr]. unfold grant_from_row, grant_to_row. read_back. by destruct g. Defined.

Record key_row_ok (k : StoredClientKey) : Prop := {
  ky_id : id_ok (sk_id k);
  ky_group : id_ok (sk_access_group_id k);
  ky_digest : length (sk_secret_digest k) = CLIENT_KEY_DIGEST_BYTES;
  ky_expiry : forall t, sk_expires_at_ms k = Some t -> 0 <= t;
}.

#[export, refine] Instance key_row : SqlRow StoredClientKey :=
  {| to_row := key_to_row; from_row := key_from_row; row_ok := key_row_ok |}.
Proof.
  intros k []. unfold key_from_row, key_to_row. read_back. unfold stored_key_try_new.
  rewrite bool_decide_eq_true_2 by done. cbn [negb].
  destruct k as [? ? ? ? ? [t|]]; simpl in *; [|done]. by rewrite (proj2 (Z.ltb_ge _ _)) by (by apply ky_expiry0).
Defined.
