(* ===== verification/StoreSchema.v ===== *)
(** * The control-plane schema

    The tables of one Config Version and the constraints the migrations of
    [crates/gateway-store/migrations] put on them: primary keys, UNIQUE columns,
    foreign keys, CHECKs, the egress reference triggers and ON DELETE CASCADE; and
    the INSERT, UPDATE and DELETE statements of
    [crates/gateway-store/src/control_plane.rs] as functions on them.  A statement
    that violates a constraint has no result.  SQLite's JSON functions are a
    parameter ([SqliteJson]). *)

From S2P Require Import Prelude Text Core SecretStore ControlPlane StoreRows.
Local Open Scope string_scope.
Local Open Scope list_scope.
Local Open Scope Z_scope.

(** ** SQLite's text functions *)

(** [length(x)]: the characters before the first NUL. *)
Fixpoint sql_length (s : string) : Z :=
  match s with
  | EmptyString => 0
  | String a rest =>
      if char_code a =? 0 then 0
      else (if utf8_tail (char_code a) then 0 else 1) + sql_length rest
  end.

Fixpoint trim_start_char (c : ascii) (s : string) : string :=
  match s with
  | String a rest => if Ascii.eqb a c then trim_start_char c rest else s
  | EmptyString => EmptyString
  end.

(** [trim(x)] removes spaces from both ends. *)
Definition sql_trim (s : string) : string := trim_end_char " " (trim_start_char " " s).

(** [length(trim(x)) BETWEEN 1 AND n]. *)
Definition text_fits (n : Z) (s : string) : bool := (1 <=? sql_length (sql_trim s)) && (sql_length (sql_trim s) <=? n).

Definition optional_fits (n : Z) (s : option string) : bool :=
  match s with Some s => text_fits n s | None => true end.

(** [json_valid(x) AND json_type(x) = 'array'], and the same for ['object']. *)
Class SqliteJson := { json_array : string -> bool; json_object : string -> bool }.

(** ** The tables of one version *)

Definition binding_key (b : EndpointCredentialBindingConfiguration) : EndpointId * CredentialId :=
  (bn_endpoint_id b, bn_credential_id b).
Definition grant_key (g : AccessGroupRouteConfiguration) : AccessGroupId * RouteId :=
  (gt_access_group_id g, gt_route_id g).

Record Graph : Type := mkGraph {
  g_policies : gmap (Id KEgressPolicy) EgressPolicyConfiguration;
  g_upstreams : gmap UpstreamId UpstreamConfiguration;
  g_endpoints : gmap EndpointId EndpointConfiguration;
  g_credentials : gmap CredentialId CredentialConfiguration;
  g_bindings : gmap (EndpointId * CredentialId) EndpointCredentialBindingConfiguration;
  g_models : gmap PublicModelId PublicModelConfiguration;
  g_aliases : gmap string ModelAliasConfiguration;
  g_routes : gmap RouteId ModelRouteConfiguration;
  g_candidates : gmap RouteCandidateId RouteCandidateConfiguration;
  g_groups : gmap AccessGroupId AccessGroupConfiguration;
  g_grants : gmap (AccessGroupId * RouteId) AccessGroupRouteConfiguration;
  g_keys : gmap ClientKeyId StoredClientKey;
}.

Definition empty_graph : Graph := mkGraph ∅ ∅ ∅ ∅ ∅ ∅ ∅ ∅ ∅ ∅ ∅ ∅.

(** One table of the graph: how to read and replace it, and its primary key. *)
Class GraphTable (K A : Type) `{Countable K} := {
  table : Graph -> gmap K A;
  set_table : gmap K A -> Graph -> Graph;
  row_key : A -> K;
  table_set : forall m g, table (set_table m g) = m;
  set_set : forall m m' g, set_table m (set_table m' g) = set_table m g;
  set_id : forall g, set_table (table g) g = g;
}.

#[export, refine] Instance policies_table : GraphTable (Id KEgressPolicy) EgressPolicyConfiguration := {|
  table := g_policies;
  set_table := fun m g => mkGraph m (g_upstreams g) (g_endpoints g) (g_credentials g) (g_bindings g) (g_models
    g) (g_aliases g) (g_routes g) (g_candidates g) (g_groups g) (g_grants g) (g_keys g);
  row_key := ep_id;
|}.
Proof. all: by try intros []. Defined.
#[export, refine] Instance upstreams_table : GraphTable UpstreamId UpstreamConfiguration := {|
  table := g_upstreams;
  set_table := fun m g => mkGraph (g_policies g) m (g_endpoints g) (g_credentials g) (g_bindings g) (g_models
    g) (g_aliases g) (g_routes g) (g_candidates g) (g_groups g) (g_grants g) (g_keys g);
  row_key := up_id;
|}.
Proof. all: by try intros []. Defined.
#[export, refine] Instance endpoints_table : GraphTable EndpointId EndpointConfiguration := {|
  table := g_endpoints;
  set_table := fun m g => mkGraph (g_policies g) (g_upstreams g) m (g_credentials g) (g_bindings g) (g_models
    g) (g_aliases g) (g_routes g) (g_candidates g) (g_groups g) (g_grants g) (g_keys g);
  row_key := en_id;
|}.
Proof. all: by try intros []. Defined.
#[export, refine] Instance credentials_table : GraphTable CredentialId CredentialConfiguration := {|
  table := g_credentials;
  set_table := fun m g => mkGraph (g_policies g) (g_upstreams g) (g_endpoints g) m (g_bindings g) (g_models g)
    (g_aliases g) (g_routes g) (g_candidates g) (g_groups g) (g_grants g) (g_keys g);
  row_key := cr_id;
|}.
Proof. all: by try intros []. Defined.
#[export, refine] Instance bindings_table : GraphTable (EndpointId * CredentialId) EndpointCredentialBindingConfiguration := {|
  table := g_bindings;
  set_table := fun m g => mkGraph (g_policies g) (g_upstreams g) (g_endpoints g) (g_credentials g) m (g_models
    g) (g_aliases g) (g_routes g) (g_candidates g) (g_groups g) (g_grants g) (g_keys g);
  row_key := binding_key;
|}.
Proof. all: by try intros []. Defined.
#[export, refine] Instance models_table : GraphTable PublicModelId PublicModelConfiguration := {|
  table := g_models;
  set_table := fun m g => mkGraph (g_policies g) (g_upstreams g) (g_endpoints g) (g_credentials g) (g_bindings
    g) m (g_aliases g) (g_routes g) (g_candidates g) (g_groups g) (g_grants g) (g_keys g);
  row_key := pc_id;
|}.
Proof. all: by try intros []. Defined.
#[export, refine] Instance aliases_table : GraphTable string ModelAliasConfiguration := {|
  table := g_aliases;
  set_table := fun m g => mkGraph (g_policies g) (g_upstreams g) (g_endpoints g) (g_credentials g) (g_bindings
    g) (g_models g) m (g_routes g) (g_candidates g) (g_groups g) (g_grants g) (g_keys g);
  row_key := al_alias;
|}.
Proof. all: by try intros []. Defined.
#[export, refine] Instance routes_table : GraphTable RouteId ModelRouteConfiguration := {|
  table := g_routes;
  set_table := fun m g => mkGraph (g_policies g) (g_upstreams g) (g_endpoints g) (g_credentials g) (g_bindings
    g) (g_models g) (g_aliases g) m (g_candidates g) (g_groups g) (g_grants g) (g_keys g);
  row_key := rt_id;
|}.
Proof. all: by try intros []. Defined.
#[export, refine] Instance candidates_table : GraphTable RouteCandidateId RouteCandidateConfiguration := {|
  table := g_candidates;
  set_table := fun m g => mkGraph (g_policies g) (g_upstreams g) (g_endpoints g) (g_credentials g) (g_bindings
    g) (g_models g) (g_aliases g) (g_routes g) m (g_groups g) (g_grants g) (g_keys g);
  row_key := cn_id;
|}.
Proof. all: by try intros []. Defined.
#[export, refine] Instance groups_table : GraphTable AccessGroupId AccessGroupConfiguration := {|
  table := g_groups;
  set_table := fun m g => mkGraph (g_policies g) (g_upstreams g) (g_endpoints g) (g_credentials g) (g_bindings
    g) (g_models g) (g_aliases g) (g_routes g) (g_candidates g) m (g_grants g) (g_keys g);
  row_key := gr_id;
|}.
Proof. all: by try intros []. Defined.
#[export, refine] Instance grants_table : GraphTable (AccessGroupId * RouteId) AccessGroupRouteConfiguration := {|
  table := g_grants;
  set_table := fun m g => mkGraph (g_policies g) (g_upstreams g) (g_endpoints g) (g_credentials g) (g_bindings
    g) (g_models g) (g_aliases g) (g_routes g) (g_candidates g) (g_groups g) m (g_keys g);
  row_key := grant_key;
|}.
Proof. all: by try intros []. Defined.
#[export, refine] Instance keys_table : GraphTable ClientKeyId StoredClientKey := {|
  table := g_keys;
  set_table := fun m g => mkGraph (g_policies g) (g_upstreams g) (g_endpoints g) (g_credentials g) (g_bindings
    g) (g_models g) (g_aliases g) (g_routes g) (g_candidates g) (g_groups g) (g_grants g) m;
  row_key := sk_id;
|}.
Proof. all: by try intros []. Defined.

(** Reads and writes of tables reduced. *)
Ltac graph_cbn :=
  cbn [table set_table row_key policies_table upstreams_table endpoints_table credentials_table bindings_table
       models_table aliases_table routes_table candidates_table groups_table grants_table keys_table
       g_policies g_upstreams g_endpoints g_credentials g_bindings g_models g_aliases g_routes g_candidates g_groups
       g_grants g_keys].

(** ** CHECK constraints *)

Section Schema.
Context `{SqliteJson}.

Definition id_fits {k} (i : Id k) : bool := text_fits 128 (as_str i).

Definition version_fits (v : ConfigVersionId) : bool := text_fits 128 (version_text v).

Definition version_check (v : ConfigVersion) : bool :=
  version_fits (cv_id v) && optional_fits 128 (version_text <$> cv_parent_id v) && (0 <=? cv_revision v)
  && (0 <=? cv_created_at_ms v) && (sql_length (cv_description v) <=? 4096)
  && negb (bool_decide (cv_parent_id v = Some (cv_id v))).

Definition policy_check (p : EgressPolicyConfiguration) : bool :=
  id_fits (ep_id p) && text_fits 256 (ep_name p) && json_array (ep_allowed_schemes_json p)
  && json_array (ep_allowed_hosts_json p) && json_array (ep_allowed_ports_json p) && json_array (ep_allowed_cidrs_json p)
  && match ep_redirect_mode p with
     | StoredDeny => ep_max_redirects p =? 0
     | _ => (1 <=? ep_max_redirects p) && (ep_max_redirects p <=? 10)
     end.

Definition upstream_check (u : UpstreamConfiguration) : bool :=
  id_fits (up_id u) && text_fits 256 (up_name u) && text_fits 128 (up_kind u) && json_array (up_tags_json u)
  && optional_fits 128 (as_str <$> up_egress_policy_id u).

Definition endpoint_check (e : EndpointConfiguration) : bool :=
  id_fits (en_id e) && id_fits (en_upstream_id e) && text_fits 128 (en_adapter_id e) && text_fits 128 (en_api_format e)
  && text_fits 2048 (en_base_url e) && text_fits 1024 (en_inference_path e) && optional_fits 1024 (en_models_path e).

Definition credential_check (c : CredentialConfiguration) : bool :=
  id_fits (cr_id c) && id_fits (cr_upstream_id c) && text_fits 128 (cr_kind c)
  && negb (bool_decide (Secrets.es_ciphertext (cr_encrypted_secret c) = []))
  && (0 <? Secrets.es_key_version (cr_encrypted_secret c)) && (0 <=? cr_revision c).

Definition binding_check (b : EndpointCredentialBindingConfiguration) : bool :=
  id_fits (bn_endpoint_id b) && id_fits (bn_credential_id b) && id_fits (bn_upstream_id b)
  && (0 <=? bn_priority b) && (0 <? bn_weight b) && (0 <? bn_concurrency b).

Definition model_check (p : PublicModelConfiguration) : bool :=
  id_fits (pc_id p) && text_fits 256 (pc_model_name p) && text_fits 256 (pc_display_name p)
  && json_object (pc_capabilities_json p).

Definition alias_check (a : ModelAliasConfiguration) : bool :=
  text_fits 256 (al_alias a) && id_fits (al_public_model_id a).

Definition route_check (r : ModelRouteConfiguration) : bool :=
  id_fits (rt_id r) && id_fits (rt_public_model_id r) && (0 <? rt_max_attempts r) && (0 <? rt_bootstrap_timeout_ms r).

Definition candidate_check (c : RouteCandidateConfiguration) : bool :=
  id_fits (cn_id c) && id_fits (cn_route_id c) && id_fits (cn_endpoint_id c) && text_fits 256 (cn_upstream_model c)
  && (0 <=? cn_priority c) && (0 <? cn_weight c) && json_object (cn_capability_override_json c).

Definition group_check (g : AccessGroupConfiguration) : bool :=
  id_fits (gr_id g) && text_fits 256 (gr_name g) && json_object (gr_limits_json g).

Definition grant_check (g : AccessGroupRouteConfiguration) : bool :=
  id_fits (gt_access_group_id g) && id_fits (gt_route_id g).

Definition key_check (k : StoredClientKey) : bool :=
  id_fits (sk_id k) && text_fits 128 (sk_prefix k) && bool_decide (length (sk_secret_digest k) = 32%nat)
  && id_fits (sk_access_group_id k)
  && match sk_expires_at_ms k with Some t => 0 <=? t | None => true end.

(** ** UNIQUE columns and foreign keys *)

(** No other row has the value in the column. *)
Definition free {K A B} `{Countable K} `{EqDecision B} (column : A -> B) (k : K) (value : B) (m : gmap K A) : bool :=
  bool_decide (map_Forall (fun k' r => k' = k \/ column r <> value) m).

(** The referenced row exists and agrees on the shared columns. *)
Definition referenced {K A} `{Countable K} (agrees : A -> bool) (k : K) (m : gmap K A) : bool :=
  match m !! k with Some r => agrees r | None => false end.

Definition exists_in {K A} `{Countable K} (k : K) (m : gmap K A) : bool := referenced (fun _ : A => true) k m.

Definition candidate_columns (c : RouteCandidateConfiguration) : RouteId * EndpointId * string :=
  (cn_route_id c, cn_endpoint_id c, cn_upstream_model c).

(** Everything the schema requires of a row besides a new primary key. *)
Definition policy_fits (g : Graph) (p : EgressPolicyConfiguration) : bool :=
  policy_check p && free ep_name (ep_id p) (ep_name p) (g_policies g).
Definition upstream_fits (g : Graph) (u : UpstreamConfiguration) : bool :=
  upstream_check u && free up_name (up_id u) (up_name u) (g_upstreams g)
  && match up_egress_policy_id u with Some i => exists_in i (g_policies g) | None => true end.
Definition endpoint_fits (g : Graph) (e : EndpointConfiguration) : bool :=
  endpoint_check e && exists_in (en_upstream_id e) (g_upstreams g).
Definition credential_fits (g : Graph) (c : CredentialConfiguration) : bool :=
  credential_check c && exists_in (cr_upstream_id c) (g_upstreams g).
Definition binding_fits (g : Graph) (b : EndpointCredentialBindingConfiguration) : bool :=
  binding_check b
  && referenced (fun e => bool_decide (en_upstream_id e = bn_upstream_id b)) (bn_endpoint_id b) (g_endpoints g)
  && referenced (fun c => bool_decide (cr_upstream_id c = bn_upstream_id b)) (bn_credential_id b) (g_credentials g).
Definition model_fits (g : Graph) (p : PublicModelConfiguration) : bool :=
  model_check p && free pc_model_name (pc_id p) (pc_model_name p) (g_models g).
Definition alias_fits (g : Graph) (a : ModelAliasConfiguration) : bool :=
  alias_check a && exists_in (al_public_model_id a) (g_models g).
Definition route_fits (g : Graph) (r : ModelRouteConfiguration) : bool :=
  route_check r && free rt_public_model_id (rt_id r) (rt_public_model_id r) (g_routes g)
  && exists_in (rt_public_model_id r) (g_models g).
Definition candidate_fits (g : Graph) (c : RouteCandidateConfiguration) : bool :=
  candidate_check c && free candidate_columns (cn_id c) (candidate_columns c) (g_candidates g)
  && exists_in (cn_route_id c) (g_routes g) && exists_in (cn_endpoint_id c) (g_endpoints g).
Definition group_fits (g : Graph) (a : AccessGroupConfiguration) : bool :=
  group_check a && free gr_name (gr_id a) (gr_name a) (g_groups g).
Definition grant_fits (g : Graph) (a : AccessGroupRouteConfiguration) : bool :=
  grant_check a && exists_in (gt_access_group_id a) (g_groups g) && exists_in (gt_route_id a) (g_routes g).
Definition key_fits (g : Graph) (k : StoredClientKey) : bool :=
  key_check k && free sk_prefix (sk_id k) (sk_prefix k) (g_keys g)
  && free sk_secret_digest (sk_id k) (sk_secret_digest k) (g_keys g)
  && exists_in (sk_access_group_id k) (g_groups g).

(** ** Statements

    The affected rows and the new tables, or nothing when a constraint fails. *)

Definition put {K A} `{GraphTable K A} (r : A) (g : Graph) : Graph := set_table (<[row_key r := r]> (table g)) g.

Definition insert_stmt {K A} `{GraphTable K A} (fits : Graph -> A -> bool) (r : A) (g : Graph) : option (Z * Graph) :=
  if bool_decide (is_Some (table g !! row_key r)) || negb (fits g r) then None else Some (1, put r g).

(** [UPDATE .. SET (every column but the key) WHERE key AND owner]. *)
Definition update_stmt {K A} `{GraphTable K A} (fits : Graph -> A -> bool) (owned : A -> bool) (r : A) (g : Graph)
  : option (Z * Graph) :=
  match table g !! row_key r with
  | Some old => if owned old then if fits g r then Some (1, put r g) else None else Some (0, g)
  | None => Some (0, g)
  end.

(** ON DELETE CASCADE: rows whose parent row is gone are deleted with it.  Every
    row has its parents before a statement runs, so these are exactly the
    children of the rows the statement deleted. *)
Definition cascade (g : Graph) : Graph :=
  let endpoints := filter (fun e => exists_in (en_upstream_id e.2) (g_upstreams g) = true) (g_endpoints g) in
  let credentials := filter (fun c => exists_in (cr_upstream_id c.2) (g_upstreams g) = true) (g_credentials g) in
  let bindings := filter (fun b => exists_in (bn_endpoint_id b.2) endpoints && exists_in (bn_credential_id b.2) credentials = true)
                    (g_bindings g) in
  let aliases := filter (fun a => exists_in (al_public_model_id a.2) (g_models g) = true) (g_aliases g) in
  let routes := filter (fun r => exists_in (rt_public_model_id r.2) (g_models g) = true) (g_routes g) in
  let candidates := filter (fun c => exists_in (cn_route_id c.2) routes && exists_in (cn_endpoint_id c.2) endpoints = true)
                      (g_candidates g) in
  let grants := filter (fun a => exists_in (gt_access_group_id a.2) (g_groups g) && exists_in (gt_route_id a.2) routes = true)
                  (g_grants g) in
  let keys := filter (fun k => exists_in (sk_access_group_id k.2) (g_groups g) = true) (g_keys g) in
  mkGraph (g_policies g) (g_upstreams g) endpoints credentials bindings (g_models g) aliases routes candidates
    (g_groups g) grants keys.

Definition delete_stmt {K A} `{GraphTable K A} (k : K) (g : Graph) : option (Z * Graph) :=
  match table g !! k with
  | Some _ => Some (1, cascade (set_table (delete k (table g)) g))
  | None => Some (0, g)
  end.

(** The trigger [egress_policies_reference_delete] clears the references of the
    Upstreams before the policy is deleted. *)
Definition clear_policy (i : Id KEgressPolicy) (u : UpstreamConfiguration) : UpstreamConfiguration :=
  if bool_decide (up_egress_policy_id u = Some i)
  then mkUpstream (up_id u) (up_name u) (up_kind u) (up_enabled u) (up_tags_json u) None else u.

Definition delete_policy_stmt (i : Id KEgressPolicy) (g : Graph) : option (Z * Graph) :=
  match g_policies g !! i with
  | Some _ => Some (1, set_table (delete i (g_policies g)) (set_table (clear_policy i <$> g_upstreams g) g))
  | None => Some (0, g)
  end.

(** ** The schema invariant *)

Definition rows {K A} `{Countable K} (key : A -> K) (check : A -> bool) (m : gmap K A) : Prop :=
  forall k r, m !! k = Some r -> key r = k /\ check r = true.

Definition unique {K A B} `{Countable K} (column : A -> B) (m : gmap K A) : Prop :=
  forall k1 k2 r1 r2, m !! k1 = Some r1 -> m !! k2 = Some r2 -> column r1 = column r2 -> k1 = k2.

(** Where both rows exist they agree. *)
Definition agrees {K A K' B} `{Countable K} `{Countable K'} (ref : A -> option K') (ok : A -> B -> Prop)
    (m : gmap K A) (m' : gmap K' B) : Prop :=
  forall k r i r', m !! k = Some r -> ref r = Some i -> m' !! i = Some r' -> ok r r'.

(** A foreign key. *)
Definition refers {K A K' B} `{Countable K} `{Countable K'} (ref : A -> option K') (m : gmap K A) (m' : gmap K' B) : Prop :=
  forall k r i, m !! k = Some r -> ref r = Some i -> is_Some (m' !! i).

(** What a statement keeps whatever it deletes. *)
Record tables_ok (g : Graph) : Prop := {
  ok_policies : rows ep_id policy_check (g_policies g);
  ok_upstreams : rows up_id upstream_check (g_upstreams g);
  ok_endpoints : rows en_id endpoint_check (g_endpoints g);
  ok_credentials : rows cr_id credential_check (g_credentials g);
  ok_bindings : rows binding_key binding_check (g_bindings g);
  ok_models : rows pc_id model_check (g_models g);
  ok_aliases : rows al_alias alias_check (g_aliases g);
  ok_routes : rows rt_id route_check (g_routes g);
  ok_candidates : rows cn_id candidate_check (g_candidates g);
  ok_groups : rows gr_id group_check (g_groups g);
  ok_grants : rows grant_key grant_check (g_grants g);
  ok_keys : rows sk_id key_check (g_keys g);
  uq_policy_name : unique ep_name (g_policies g);
  uq_upstream_name : unique up_name (g_upstreams g);
  uq_model_name : unique pc_model_name (g_models g);
  uq_route_model : unique rt_public_model_id (g_routes g);
  uq_candidate : unique candidate_columns (g_candidates g);
  uq_group_name : unique gr_name (g_groups g);
  uq_key_prefix : unique sk_prefix (g_keys g);
  uq_key_digest : unique sk_secret_digest (g_keys g);
  ag_binding_endpoint : agrees (fun b => Some (bn_endpoint_id b)) (fun b e => en_upstream_id e = bn_upstream_id b)
                          (g_bindings g) (g_endpoints g);
  ag_binding_credential : agrees (fun b => Some (bn_credential_id b)) (fun b c => cr_upstream_id c = bn_upstream_id b)
                            (g_bindings g) (g_credentials g);
  fk_upstream_policy : refers up_egress_policy_id (g_upstreams g) (g_policies g);
}.

Record graph_ok (g : Graph) : Prop := {
  ok_tables :> tables_ok g;
  fk_endpoint_upstream : refers (fun e => Some (en_upstream_id e)) (g_endpoints g) (g_upstreams g);
  fk_credential_upstream : refers (fun c => Some (cr_upstream_id c)) (g_credentials g) (g_upstreams g);
  fk_binding_endpoint : refers (fun b => Some (bn_endpoint_id b)) (g_bindings g) (g_endpoints g);
  fk_binding_credential : refers (fun b => Some (bn_credential_id b)) (g_bindings g) (g_credentials g);
  fk_alias_model : refers (fun a => Some (al_public_model_id a)) (g_aliases g) (g_models g);
  fk_route_model : refers (fun r => Some (rt_public_model_id r)) (g_routes g) (g_models g);
  fk_candidate_route : refers (fun c => Some (cn_route_id c)) (g_candidates g) (g_routes g);
  fk_candidate_endpoint : refers (fun c => Some (cn_endpoint_id c)) (g_candidates g) (g_endpoints g);
  fk_grant_group : refers (fun a => Some (gt_access_group_id a)) (g_grants g) (g_groups g);
  fk_grant_route : refers (fun a => Some (gt_route_id a)) (g_grants g) (g_routes g);
  fk_key_group : refers (fun k => Some (sk_access_group_id k)) (g_keys g) (g_groups g);
}.

(** ** Tables under change *)

Section Tables.
Context {K A : Type} `{Countable K}.
Implicit Types m : gmap K A.

Lemma rows_sub (key : A -> K) check m m' : m' ⊆ m -> rows key check m -> rows key check m'.
Proof. intros Hs Hm k r Hk. apply Hm. by eapply lookup_weaken. Qed.

Lemma rows_put (key : A -> K) check m r : rows key check m -> check r = true -> rows key check (<[key r := r]> m).
Proof. intros Hm Hr k x [[<- <-]|[_ Hx]]%lookup_insert_Some; [done|]. by apply Hm. Qed.

Lemma unique_sub {B} (column : A -> B) m m' : m' ⊆ m -> unique column m -> unique column m'.
Proof. intros Hs Hm k1 k2 r1 r2 H1 H2. by apply Hm; eapply lookup_weaken. Qed.

Lemma unique_put {B} `{EqDecision B} (column : A -> B) m k r :
  unique column m -> free column k (column r) m = true -> unique column (<[k := r]> m).
Proof.
  intros Hm Hf. apply bool_decide_eq_true in Hf. intros k1 k2 r1 r2 H1 H2 Heq.
  apply lookup_insert_Some in H1 as [[<- <-]|[Hn1 H1]], H2 as [[<- <-]|[Hn2 H2]]; [done| | |by eapply Hm].
  - destruct (Hf k2 r2 H2) as [->|Hne]; [done|]. congruence.
  - destruct (Hf k1 r1 H1) as [->|Hne]; [done|]. congruence.
Qed.

Context {K' B : Type} `{Countable K'}.

Lemma agrees_sub (ref : A -> option K') ok m n (m' n' : gmap K' B) : n ⊆ m -> n' ⊆ m' -> agrees ref ok m m' -> agrees ref ok n n'.
Proof. intros Hs Hs' Hm k r i r' Hr Hi Hr'. eapply Hm; [by eapply lookup_weaken|done|by eapply lookup_weaken]. Qed.

Lemma agrees_put (ref : A -> option K') ok m (m' : gmap K' B) k r :
  agrees ref ok m m' -> (forall i r', ref r = Some i -> m' !! i = Some r' -> ok r r') -> agrees ref ok (<[k := r]> m) m'.
Proof. intros Hm Hr k' x i r' [[<- <-]|[_ Hx]]%lookup_insert_Some; [by apply Hr|]. by eapply Hm. Qed.

Lemma refers_sub (ref : A -> option K') m n (m' : gmap K' B) : n ⊆ m -> refers ref m m' -> refers ref n m'.
Proof. intros Hs Hm k r i Hr. eapply Hm. by eapply lookup_weaken. Qed.

Lemma refers_put (ref : A -> option K') m (m' : gmap K' B) k r :
  refers ref m m' -> (forall i, ref r = Some i -> is_Some (m' !! i)) -> refers ref (<[k := r]> m) m'.
Proof. intros Hm Hr k' x i [[<- <-]|[_ Hx]]%lookup_insert_Some; [by apply Hr|]. by eapply Hm. Qed.

Lemma refers_put_parent (ref : A -> option K') m (m' : gmap K' B) i r : refers ref m m' -> refers ref m (<[i := r]> m').
Proof.
  intros Hm k x j Hx Hj. destruct (decide (i = j)) as [->|Hne]; [rewrite lookup_insert_eq; eauto|].
  rewrite lookup_insert_ne by done. by eapply Hm.
Qed.

Lemma agrees_put_parent (ref : A -> option K') ok m (m' : gmap K' B) i r :
  agrees ref ok m m' -> refers ref m m' -> (forall old x, m' !! i = Some old -> ok x old -> ok x r) ->
  agrees ref ok m (<[i := r]> m').
Proof.
  intros Hm Hf Hok k x j r' Hx Hj [[<- <-]|[_ Hr']]%lookup_insert_Some; [|by eapply Hm].
  destruct (Hf k x i Hx Hj) as [old Hold]. apply (Hok old); [done|]. by eapply Hm.
Qed.

(** Deleting children without a parent restores a foreign key. *)
Lemma refers_filter (ref : A -> K') (P : K * A -> Prop) `{!forall x, Decision (P x)} m (m' : gmap K' B) :
  (forall k r, P (k, r) -> exists_in (ref r) m' = true) -> refers (fun r => Some (ref r)) (filter P m) m'.
Proof.
  intros HP k r i [_ Hp]%map_lookup_filter_Some [= <-]. specialize (HP k r Hp). unfold exists_in, referenced in HP.
  destruct (m' !! ref r); [eauto|done].
Qed.
End Tables.

Lemma exists_in_Some {K A} `{Countable K} (k : K) (m : gmap K A) : exists_in k m = true <-> is_Some (m !! k).
Proof. unfold exists_in, referenced. destruct (m !! k); [by split; eauto|]. split; [done|by intros []]. Qed.

Lemma referenced_Some {K A} `{Countable K} (f : A -> bool) (k : K) (m : gmap K A) r :
  referenced f k m = true -> m !! k = Some r -> f r = true.
Proof. unfold referenced. intros Hf Hk. by rewrite Hk in Hf. Qed.

Lemma referenced_is_Some {K A} `{Countable K} (f : A -> bool) (k : K) (m : gmap K A) :
  referenced f k m = true -> is_Some (m !! k).
Proof. unfold referenced. destruct (m !! k); [eauto|done]. Qed.

Ltac split_fits :=
  repeat match goal with
  | H : _ && _ = true |- _ => apply andb_true_iff in H as [? ?]
  | H : exists_in _ _ = true |- _ => apply exists_in_Some in H
  end.

Ltac put_field :=
  first
    [ assumption
    | by apply rows_put
    | by apply unique_put
    | by apply refers_put_parent
    | by apply refers_put; [assumption|intros ? [= <-]]
    | by apply refers_put; [assumption|intros ? Hpol; rewrite Hpol in *; apply exists_in_Some]
    | by apply agrees_put_parent; [assumption..|] ].

(** Every INSERT and UPDATE that passes its constraints keeps the schema. *)
Ltac put_table fits :=
  intros [[] ? ? ? ? ? ? ? ? ? ? ?] Hfits; unfold fits in Hfits; split_fits; unfold put; constructor; [constructor|..];
  graph_cbn; try put_field.

Lemma put_policy_ok g p : graph_ok g -> policy_fits g p = true -> graph_ok (put p g).
Proof. put_table policy_fits. Qed.
Lemma put_upstream_ok g u : graph_ok g -> upstream_fits g u = true -> graph_ok (put u g).
Proof. put_table upstream_fits. Qed.
Lemma put_endpoint_ok g e (Hown : forall old, g_endpoints g !! en_id e = Some old -> en_upstream_id old = en_upstream_id e) :
  graph_ok g -> endpoint_fits g e = true -> graph_ok (put e g).
Proof. put_table endpoint_fits. apply agrees_put_parent; [done..|]. intros old x Hold <-. symmetry. by apply Hown. Qed.
Lemma put_credential_ok g c
    (Hown : forall old, g_credentials g !! cr_id c = Some old -> cr_upstream_id old = cr_upstream_id c) :
  graph_ok g -> credential_fits g c = true -> graph_ok (put c g).
Proof. put_table credential_fits. apply agrees_put_parent; [done..|]. intros old x Hold <-. symmetry. by apply Hown. Qed.
Lemma put_binding_ok g b : graph_ok g -> binding_fits g b = true -> graph_ok (put b g).
Proof.
  put_table binding_fits.
  - apply agrees_put; [done|]. intros i e [= <-] He.
    match goal with Hr : referenced _ (bn_endpoint_id b) _ = true |- _ => pose proof (referenced_Some _ _ _ _ Hr He) as Heq end.
    by apply bool_decide_eq_true in Heq.
  - apply agrees_put; [done|]. intros i c [= <-] Hc.
    match goal with Hr : referenced _ (bn_credential_id b) _ = true |- _ => pose proof (referenced_Some _ _ _ _ Hr Hc) as Heq end.
    by apply bool_decide_eq_true in Heq.
  - apply refers_put; [done|]. intros i [= <-]. by eapply referenced_is_Some.
  - apply refers_put; [done|]. intros i [= <-]. by eapply referenced_is_Some.
Qed.
Lemma put_model_ok g p : graph_ok g -> model_fits g p = true -> graph_ok (put p g).
Proof. put_table model_fits. Qed.
Lemma put_alias_ok g a : graph_ok g -> alias_fits g a = true -> graph_ok (put a g).
Proof. put_table alias_fits. Qed.
Lemma put_route_ok g r : graph_ok g -> route_fits g r = true -> graph_ok (put r g).
Proof. put_table route_fits. Qed.
Lemma put_candidate_ok g c : graph_ok g -> candidate_fits g c = true -> graph_ok (put c g).
Proof. put_table candidate_fits. Qed.
Lemma put_group_ok g a : graph_ok g -> group_fits g a = true -> graph_ok (put a g).
Proof. put_table group_fits. Qed.
Lemma put_grant_ok g a : graph_ok g -> grant_fits g a = true -> graph_ok (put a g).
Proof. put_table grant_fits. Qed.
Lemma put_key_ok g k : graph_ok g -> key_fits g k = true -> graph_ok (put k g).
Proof. put_table key_fits. Qed.

(** Deleting rows of any table, and clearing policy references. *)
Record shrinks (g' g : Graph) : Prop := {
  sh_policies : g_policies g' = g_policies g;
  sh_upstreams : g_upstreams g' ⊆ g_upstreams g;
  sh_endpoints : g_endpoints g' ⊆ g_endpoints g;
  sh_credentials : g_credentials g' ⊆ g_credentials g;
  sh_bindings : g_bindings g' ⊆ g_bindings g;
  sh_models : g_models g' ⊆ g_models g;
  sh_aliases : g_aliases g' ⊆ g_aliases g;
  sh_routes : g_routes g' ⊆ g_routes g;
  sh_candidates : g_candidates g' ⊆ g_candidates g;
  sh_groups : g_groups g' ⊆ g_groups g;
  sh_grants : g_grants g' ⊆ g_grants g;
  sh_keys : g_keys g' ⊆ g_keys g;
}.

Lemma shrinks_ok g g' : tables_ok g -> shrinks g' g -> tables_ok g'.
Proof.
  intros [] []. constructor;
    first [by eapply rows_sub|by eapply unique_sub|by eapply agrees_sub|by rewrite sh_policies0|idtac].
  rewrite sh_policies0. by eapply refers_sub.
Qed.

Lemma cascade_shrinks g : shrinks (cascade g) g.
Proof. constructor; unfold cascade; graph_cbn; try done; apply map_filter_subseteq. Qed.

Lemma cascade_ok g : tables_ok g -> graph_ok (cascade g).
Proof.
  intros Hok. constructor; [by eapply shrinks_ok, cascade_shrinks|..]; unfold cascade; graph_cbn;
    apply refers_filter; simpl; intros k r Hp; by split_fits; apply exists_in_Some.
Qed.

Lemma delete_ok {K A} `{GraphTable K A} (k : K) g n g' :
  graph_ok g -> shrinks (set_table (delete k (table g)) g) g -> delete_stmt k g = Some (n, g') -> graph_ok g'.
Proof.
  intros Hok Hs. unfold delete_stmt. destruct (table g !! k); intros; simplify_eq; [|done].
  apply cascade_ok. eapply shrinks_ok; [apply Hok|done].
Qed.

Lemma delete_policy_ok i g n g' : graph_ok g -> delete_policy_stmt i g = Some (n, g') -> graph_ok g'.
Proof.
  intros Hok. unfold delete_policy_stmt. destruct (g_policies g !! i); intros; simplify_eq; [|done].
  assert (forall u, up_id (clear_policy i u) = up_id u /\ up_name (clear_policy i u) = up_name u) as Hclear.
  { intros u. unfold clear_policy. by case_bool_decide. }
  assert (forall u, upstream_check u = true -> upstream_check (clear_policy i u) = true) as Hcheck.
  { intros u. unfold clear_policy. case_bool_decide as Hu; [|done]. unfold upstream_check. simpl. intros Hc.
    apply andb_true_iff in Hc as [Hc _]. by rewrite Hc. }
  destruct Hok as [[] ? ? ? ? ? ? ? ? ? ? ?]. constructor; [constructor|..]; graph_cbn; try done.
  - eapply rows_sub; [apply delete_subseteq|done].
  - intros k u (v & <- & Hv)%lookup_fmap_Some. destruct (Hclear v) as [-> _]. destruct (ok_upstreams0 k v Hv). auto.
  - eapply unique_sub; [apply delete_subseteq|done].
  - intros k1 k2 u1 u2 (v1 & <- & Hv1)%lookup_fmap_Some (v2 & <- & Hv2)%lookup_fmap_Some.
    destruct (Hclear v1) as [_ ->], (Hclear v2) as [_ ->]. by apply uq_upstream_name0.
  - intros k u j (v & <- & Hv)%lookup_fmap_Some. unfold clear_policy. case_bool_decide as Hj; [done|]. intros Hpol.
    rewrite lookup_delete_ne by congruence. by eapply fk_upstream_policy0.
  - intros k en j He Hj. rewrite lookup_fmap, fmap_is_Some. by eapply fk_endpoint_upstream0.
  - intros k c j Hc Hj. rewrite lookup_fmap, fmap_is_Some. by eapply fk_credential_upstream0.
Qed.
End Schema.

Create HintDb schema.
#[export] Hint Resolve put_policy_ok put_upstream_ok put_binding_ok put_model_ok put_alias_ok put_route_ok put_candidate_ok
  put_group_ok put_grant_ok put_key_ok : schema.
