(* ===== verification/ControlStore.v ===== *)
(** * The control-plane repository

    Models [SqliteControlPlaneRepository] and [ControlPlaneTransaction] of
    [crates/gateway-store/src/control_plane.rs]: configuration versions, their
    graphs, the append-only audit tables, and every operation as the sequence of
    SQL statements it runs inside its transaction.

    SQLite is modelled by its tables ([StoreSchema]) and an oracle [sqlite_fails]
    that may fail any statement, BEGIN or COMMIT; a transaction that does not
    commit leaves the database as it was.  Rows are kept as the typed values that
    were bound; a read decodes their columns again ([StoreRows]). *)

From S2P Require Import Prelude Text Core SecretStore ControlPlane StoreRows StoreSchema.
Local Open Scope string_scope.
Local Open Scope list_scope.
Local Open Scope Z_scope.

(** ** Audit records *)

Record ManagementAuditEventDraft : Type := mkAuditDraft {
  ad_action : ManagementAuditAction;
  ad_actor : string;
  ad_occurred_at_ms : Z;
}.

Definition audit_draft_try_new (action : ManagementAuditAction) (actor : string) (occurred_at_ms : Z)
  : StoreResult ManagementAuditEventDraft :=
  if bool_decide (actor = "") || (128 <? char_count actor) || (occurred_at_ms <? 0)
  then Err InvalidManagementAuditEvent
  else Ok (mkAuditDraft action actor occurred_at_ms).

Record ManagementAuditEvent : Type := mkAuditEvent {
  ae_id : Z;
  ae_action : ManagementAuditAction;
  ae_actor : string;
  ae_occurred_at_ms : Z;
  ae_config_version_id : ConfigVersionId;
  ae_replaced_config_version_id : option ConfigVersionId;
}.

(** [ManagementAuditEvent::from_draft]. *)
Definition from_draft (id : Z) (draft : ManagementAuditEventDraft) (config_version_id : ConfigVersionId)
    (replaced : option ConfigVersionId) : StoreResult ManagementAuditEvent :=
  if id <=? 0 then Err (malformed "management_audit_events")
  else Ok (mkAuditEvent id (ad_action draft) (ad_actor draft) (ad_occurred_at_ms draft) config_version_id replaced).

Definition bounded_non_empty (value : string) (maximum_characters : Z) : bool :=
  negb (is_blank value) && (char_count value <=? maximum_characters).

Record ManagementResourceAuditEventDraft : Type := mkResourceDraft {
  rd_action : string;
  rd_actor : string;
  rd_occurred_at_ms : Z;
  rd_resource_kind : string;
  rd_resource_id : string;
}.

Definition resource_draft_try_new (action actor : string) (occurred_at_ms : Z) (resource_kind resource_id : string)
  : StoreResult ManagementResourceAuditEventDraft :=
  if negb (bounded_non_empty action 64) || negb (bounded_non_empty actor 128) || (occurred_at_ms <? 0)
     || negb (bounded_non_empty resource_kind 64) || negb (bounded_non_empty resource_id 128)
  then Err InvalidManagementAuditEvent
  else Ok (mkResourceDraft action actor occurred_at_ms resource_kind resource_id).

Record ManagementResourceAuditEvent : Type := mkResourceEvent {
  re_id : Z;
  re_draft : ManagementResourceAuditEventDraft;
  re_config_version_id : ConfigVersionId;
}.

Record ConfigVersionActivation : Type := mkActivation {
  activated_version_id : ConfigVersionId;
  replaced_active_version_id : option ConfigVersionId;
}.

(** ** The database *)

Record Database : Type := mkDb {
  db_versions : gmap ConfigVersionId ConfigVersion;
  db_graphs : gmap ConfigVersionId Graph;
  db_audit : list ManagementAuditEvent;
  db_resource_audit : list ManagementResourceAuditEvent;
}.

Definition empty_db : Database := mkDb ∅ ∅ [] [].

Definition graph_at (db : Database) (id : ConfigVersionId) : Graph := default empty_graph (db_graphs db !! id).

Definition set_graph (id : ConfigVersionId) (g : Graph) (db : Database) : Database :=
  mkDb (db_versions db) (<[id := g]> (db_graphs db)) (db_audit db) (db_resource_audit db).
Definition set_versions (versions : gmap ConfigVersionId ConfigVersion) (db : Database) : Database :=
  mkDb versions (db_graphs db) (db_audit db) (db_resource_audit db).

Definition set_status (status : ConfigVersionStatus) (v : ConfigVersion) : ConfigVersion :=
  mkConfigVersion (cv_id v) (cv_parent_id v) status (cv_revision v) (cv_created_at_ms v) (cv_description v).
Definition set_revision (revision : Z) (v : ConfigVersion) : ConfigVersion :=
  mkConfigVersion (cv_id v) (cv_parent_id v) (cv_status v) revision (cv_created_at_ms v) (cv_description v).

Definition is_active (v : ConfigVersion) : bool := bool_decide (cv_status v = VersionActive).

(** [SELECT id FROM config_versions WHERE status = 'active']: the first row. *)
Definition active_row (db : Database) : option ConfigVersion :=
  head (List.filter is_active (snd <$> map_to_list (db_versions db))).

Record Store : Type := mkStore { st_db : Database; st_clock : nat }.

Abbreviation StoreM A := (M Store StoreError A).

Section Repository.
Context `{SqliteJson}.
(** Whether SQLite fails the n-th call. *)
Variable sqlite_fails : nat -> bool.

Definition call : StoreM unit := fun s =>
  let s' := mkStore (st_db s) (S (st_clock s)) in
  if sqlite_fails (st_clock s) then (Err Sqlite, s') else (Ok tt, s').

Definition query {A} (f : Database -> A) : StoreM A := call ;;; (fun s => (Ok (f (st_db s)), s)).

(** [transaction.execute]: the number of affected rows. *)
Definition execute (f : Database -> option (Z * Database)) : StoreM Z :=
  call ;;; (fun s => match f (st_db s) with
                     | Some (n, db) => (Ok n, mkStore db (st_clock s))
                     | None => (Err Sqlite, s)
                     end).

(** BEGIN, the body, COMMIT; anything else rolls back. *)
Definition transaction {A} (body : StoreM A) : StoreM A := fun s =>
  match (call ;;; (let! a := body in call ;;; ret a)) s with
  | (Ok a, s') => (Ok a, s')
  | (r, s') => (r, mkStore (st_db s) (st_clock s'))
  end.

Fixpoint for_each {A} (f : A -> StoreM unit) (l : list A) : StoreM unit :=
  match l with
  | [] => ret tt
  | a :: rest => f a ;;; for_each f rest
  end.

(** ** Statements on the graph of a version *)

Definition version_exists (db : Database) (id : ConfigVersionId) : bool := bool_decide (is_Some (db_versions db !! id)).

(** UPDATE and DELETE affect no row of a version that does not exist. *)
Definition on_graph (id : ConfigVersionId) (stmt : Graph -> option (Z * Graph)) (db : Database) : option (Z * Database) :=
  if version_exists db id
  then match stmt (graph_at db id) with
       | Some (n, g) => Some (n, set_graph id g db)
       | None => None
       end
  else Some (0, db).

(** An INSERT needs the version its first column refers to. *)
Definition insert_into (id : ConfigVersionId) (stmt : Graph -> option (Z * Graph)) (db : Database) : option (Z * Database) :=
  if version_exists db id then on_graph id stmt db else None.

Definition resource_updated (affected_rows : Z) : StoreM unit :=
  if affected_rows =? 1 then ret tt else raise ControlPlaneResourceNotFound.

Definition ensure_draft_config_version (id : ConfigVersionId) : StoreM unit :=
  let! status := query (fun db => cv_status <$> db_versions db !! id) in
  if bool_decide (status = Some VersionDraft) then ret tt else raise ControlPlaneMutationRequiresDraft.

Definition insert_row {K A} `{GraphTable K A} (fits : Graph -> A -> bool) (id : ConfigVersionId) (r : A) : StoreM unit :=
  execute (insert_into id (insert_stmt fits r)) ;;; ret tt.

Definition insert_upstream := insert_row upstream_fits.
Definition insert_egress_policy := insert_row policy_fits.
Definition insert_endpoint := insert_row endpoint_fits.
Definition insert_endpoint_credential_binding := insert_row binding_fits.
Definition insert_credential (id : ConfigVersionId) (c : CredentialConfiguration) : StoreM unit :=
  ensure_draft_config_version id ;;; insert_row credential_fits id c.
Definition insert_client_key (id : ConfigVersionId) (k : StoredClientKey) : StoreM unit :=
  ensure_draft_config_version id ;;; insert_row key_fits id k.
Definition insert_public_model (id : ConfigVersionId) (p : PublicModelConfiguration) : StoreM unit :=
  ensure_draft_config_version id ;;; insert_row model_fits id p.
Definition insert_model_alias (id : ConfigVersionId) (a : ModelAliasConfiguration) : StoreM unit :=
  ensure_draft_config_version id ;;; insert_row alias_fits id a.
Definition insert_model_route (id : ConfigVersionId) (r : ModelRouteConfiguration) : StoreM unit :=
  ensure_draft_config_version id ;;; insert_row route_fits id r.
Definition insert_route_candidate (id : ConfigVersionId) (c : RouteCandidateConfiguration) : StoreM unit :=
  ensure_draft_config_version id ;;; insert_row candidate_fits id c.
Definition insert_access_group (id : ConfigVersionId) (a : AccessGroupConfiguration) : StoreM unit :=
  ensure_draft_config_version id ;;; insert_row group_fits id a.
Definition insert_access_group_route (id : ConfigVersionId) (a : AccessGroupRouteConfiguration) : StoreM unit :=
  ensure_draft_config_version id ;;; insert_row grant_fits id a.

Definition update_row {K A} `{GraphTable K A} (fits : Graph -> A -> bool) (owned : A -> bool) (id : ConfigVersionId) (r : A)
  : StoreM unit :=
  ensure_draft_config_version id ;;;
  (let! updated := execute (on_graph id (update_stmt fits owned r)) in resource_updated updated).

Definition update_egress_policy := update_row policy_fits (fun _ => true).
Definition update_upstream := update_row upstream_fits (fun _ => true).
Definition update_endpoint (id : ConfigVersionId) (e : EndpointConfiguration) : StoreM unit :=
  update_row endpoint_fits (fun old => bool_decide (en_upstream_id old = en_upstream_id e)) id e.
Definition update_credential (id : ConfigVersionId) (c : CredentialConfiguration) : StoreM unit :=
  update_row credential_fits (fun old => bool_decide (cr_upstream_id old = cr_upstream_id c)) id c.
Definition update_public_model := update_row model_fits (fun _ => true).
Definition update_model_route (id : ConfigVersionId) (r : ModelRouteConfiguration) : StoreM unit :=
  update_row route_fits (fun old => bool_decide (rt_public_model_id old = rt_public_model_id r)) id r.
Definition update_access_group := update_row group_fits (fun _ => true).

Definition delete_row {K A} `{GraphTable K A} (id : ConfigVersionId) (k : K) : StoreM unit :=
  ensure_draft_config_version id ;;;
  (let! deleted := execute (on_graph id (delete_stmt k)) in resource_updated deleted).

Definition delete_upstream (id : ConfigVersionId) (u : UpstreamId) : StoreM unit :=
  delete_row (A := UpstreamConfiguration) id u.
Definition delete_endpoint (id : ConfigVersionId) (e : EndpointId) : StoreM unit :=
  delete_row (A := EndpointConfiguration) id e.
Definition delete_credential (id : ConfigVersionId) (c : CredentialId) : StoreM unit :=
  delete_row (A := CredentialConfiguration) id c.
Definition delete_public_model (id : ConfigVersionId) (p : PublicModelId) : StoreM unit :=
  delete_row (A := PublicModelConfiguration) id p.
Definition delete_model_route (id : ConfigVersionId) (r : RouteId) : StoreM unit :=
  delete_row (A := ModelRouteConfiguration) id r.
Definition delete_access_group (id : ConfigVersionId) (a : AccessGroupId) : StoreM unit :=
  delete_row (A := AccessGroupConfiguration) id a.
Definition delete_egress_policy (id : ConfigVersionId) (p : Id KEgressPolicy) : StoreM unit :=
  ensure_draft_config_version id ;;;
  (let! deleted := execute (on_graph id (delete_policy_stmt p)) in resource_updated deleted).

(** UPDATEs of some columns of a client key. *)
Definition rewrite_key_stmt (k : ClientKeyId) (f : StoredClientKey -> StoredClientKey) (g : Graph) : option (Z * Graph) :=
  match g_keys g !! k with
  | Some old => if key_fits g (f old) then Some (1, put (f old) g) else None
  | None => Some (0, g)
  end.

Definition update_client_key_metadata (id : ConfigVersionId) (k : ClientKeyId) (group : AccessGroupId)
    (status : StoredClientKeyStatus) (expires_at_ms : option Z) : StoreM unit :=
  ensure_draft_config_version id ;;;
  (let! updated := execute (on_graph id (rewrite_key_stmt k (fun old =>
                     mkStoredKey (sk_id old) group (sk_prefix old) (sk_secret_digest old) status expires_at_ms))) in
   resource_updated updated).

Definition revoke_client_key (id : ConfigVersionId) (k : ClientKeyId) : StoreM unit :=
  ensure_draft_config_version id ;;;
  (let! updated := execute (on_graph id (rewrite_key_stmt k (fun old =>
                     mkStoredKey (sk_id old) (sk_access_group_id old) (sk_prefix old) (sk_secret_digest old)
                       StoredKeyRevoked (sk_expires_at_ms old)))) in
   resource_updated updated).

(** The credential rotation of an active version, guarded by the credential's own
    revision. *)
Definition rotate_active_credential (id : ConfigVersionId) (c : CredentialConfiguration) (expected : Z) : StoreM unit :=
  let! status := query (fun db => cv_status <$> db_versions db !! id) in
  match status with
  | None => raise ConfigVersionNotFound
  | Some status =>
      if negb (bool_decide (status = VersionActive)) then raise ControlPlaneMutationRequiresDraft
      else match i64_checked_add expected 1 with
           | None => raise ConfigVersionRevisionConflict
           | Some next_revision =>
               if (expected <? 0) || negb (cr_revision c =? next_revision) then raise ConfigVersionRevisionConflict
               else
                 let! updated := execute (on_graph id (update_stmt credential_fits
                   (fun old => bool_decide (cr_upstream_id old = cr_upstream_id c) && (cr_revision old =? expected)) c)) in
                 if updated =? 1 then ret tt else raise ConfigVersionRevisionConflict
           end
  end.

(** ** Versions *)

Definition insert_version_stmt (v : ConfigVersion) (db : Database) : option (Z * Database) :=
  if bool_decide (is_Some (db_versions db !! cv_id v)) || negb (version_check v)
     || match cv_parent_id v with Some p => negb (bool_decide (is_Some (db_versions db !! p))) | None => false end
     || (is_active v && bool_decide (is_Some (active_row db)))
  then None
  else Some (1, set_versions (<[cv_id v := v]> (db_versions db)) db).

Definition insert_config_version (v : ConfigVersion) : StoreM unit := execute (insert_version_stmt v) ;;; ret tt.

(** [UPDATE .. SET revision = revision + 1 WHERE id AND draft AND revision]; a sum
    that leaves the integer range is refused by the STRICT column. *)
Definition bump_stmt (id : ConfigVersionId) (expected : Z) (db : Database) : option (Z * Database) :=
  match db_versions db !! id with
  | Some v =>
      if bool_decide (cv_status v = VersionDraft) && (cv_revision v =? expected)
      then if in_i64 (expected + 1)
           then Some (1, set_versions (<[id := set_revision (expected + 1) v]> (db_versions db)) db)
           else None
      else Some (0, db)
  | None => Some (0, db)
  end.

Definition require_and_bump_draft_revision (id : ConfigVersionId) (expected : Z) : StoreM Z :=
  if expected <? 0 then raise ConfigVersionRevisionConflict
  else
    let! updated := execute (bump_stmt id expected) in
    if updated =? 1 then ret (expected + 1)
    else
      let! status := query (fun db => cv_status <$> db_versions db !! id) in
      match status with
      | None => raise ConfigVersionNotFound
      | Some VersionDraft => raise ConfigVersionRevisionConflict
      | Some _ => raise ControlPlaneMutationRequiresDraft
      end.

Definition write_configuration_tx (cf : ControlPlaneConfiguration) : StoreM unit :=
  if negb (bool_decide (cv_status (cf_version cf) = VersionDraft)) then raise ControlPlaneMutationRequiresDraft
  else
    let id := cv_id (cf_version cf) in
    insert_config_version (cf_version cf) ;;;
    for_each (insert_egress_policy id) (cf_egress_policies cf) ;;;
    for_each (insert_upstream id) (cf_upstreams cf) ;;;
    for_each (insert_endpoint id) (cf_endpoints cf) ;;;
    for_each (insert_credential id) (cf_credentials cf) ;;;
    for_each (insert_endpoint_credential_binding id) (cf_bindings cf) ;;;
    for_each (insert_public_model id) (cf_public_models cf) ;;;
    for_each (insert_model_alias id) (cf_aliases cf) ;;;
    for_each (insert_model_route id) (cf_routes cf) ;;;
    for_each (insert_route_candidate id) (cf_candidates cf) ;;;
    for_each (insert_access_group id) (cf_access_groups cf) ;;;
    for_each (insert_access_group_route id) (cf_grants cf) ;;;
    for_each (insert_client_key id) (cf_client_keys cf).

Definition archive_stmt (db : Database) : option (Z * Database) :=
  Some (Z.of_nat (length (List.filter is_active (snd <$> map_to_list (db_versions db)))),
        set_versions ((fun v => if is_active v then set_status VersionArchived v else v) <$> db_versions db) db).

(** The partial unique index allows one active version. *)
Definition activate_stmt (id : ConfigVersionId) (db : Database) : option (Z * Database) :=
  match db_versions db !! id with
  | Some v =>
      if match active_row db with Some a => negb (bool_decide (cv_id a = id)) | None => false end then None
      else Some (1, set_versions (<[id := set_status VersionActive v]> (db_versions db)) db)
  | None => Some (0, db)
  end.

Definition activate_version_tx (id : ConfigVersionId) : StoreM ConfigVersionActivation :=
  let! target_status := query (fun db => cv_status <$> db_versions db !! id) in
  match target_status with
  | None => raise ConfigVersionNotFound
  | Some VersionActive => raise ConfigVersionAlreadyActive
  | Some _ =>
      let! replaced := query (fun db => version_text ∘ cv_id <$> active_row db) in
      let! replaced := lift (match replaced with
                             | None => Ok None
                             | Some text => let? i := map_err (fun _ => malformed "config_versions") (version_id_try_new text) in
                                            Ok (Some i)
                             end) in
      execute archive_stmt ;;;
      (let! updated := execute (activate_stmt id) in
       if updated =? 1 then ret (mkActivation id replaced) else raise ConfigVersionNotFound)
  end.

(** ** Audit tables

    Rows are only appended and their row identifiers count from one. *)

Definition audit_stmt (draft : ManagementAuditEventDraft) (id : ConfigVersionId) (replaced : option ConfigVersionId)
    (db : Database) : option (Z * Database) :=
  if (1 <=? sql_length (ad_actor draft)) && (sql_length (ad_actor draft) <=? 128) && (0 <=? ad_occurred_at_ms draft)
     && version_exists db id && match replaced with Some r => version_exists db r | None => true end
  then Some (1, mkDb (db_versions db) (db_graphs db)
                  (db_audit db ++ [mkAuditEvent (Z.of_nat (length (db_audit db)) + 1) (ad_action draft) (ad_actor draft)
                                     (ad_occurred_at_ms draft) id replaced])
                  (db_resource_audit db))
  else None.

Definition last_insert_rowid (db : Database) : Z := Z.of_nat (length (db_audit db)).

Definition record_management_audit_event (draft : ManagementAuditEventDraft) (id : ConfigVersionId)
    (replaced : option ConfigVersionId) : StoreM ManagementAuditEvent :=
  execute (audit_stmt draft id replaced) ;;;
  (let! s := get in lift (from_draft (last_insert_rowid (st_db s)) draft id replaced)).

Definition resource_audit_stmt (draft : ManagementResourceAuditEventDraft) (id : ConfigVersionId) (db : Database)
  : option (Z * Database) :=
  if text_fits 64 (rd_action draft) && text_fits 128 (rd_actor draft) && (0 <=? rd_occurred_at_ms draft)
     && text_fits 64 (rd_resource_kind draft) && text_fits 128 (rd_resource_id draft) && version_exists db id
  then Some (1, mkDb (db_versions db) (db_graphs db) (db_audit db)
                  (db_resource_audit db
                   ++ [mkResourceEvent (Z.of_nat (length (db_resource_audit db)) + 1) draft id]))
  else None.

Definition record_management_resource_audit_event_tx (draft : ManagementResourceAuditEventDraft) (id : ConfigVersionId)
  : StoreM unit := execute (resource_audit_stmt draft id) ;;; ret tt.

(** ** Loading *)

Definition decode_rows {A} `{SqlRow A} (stored : list A) : StoreResult (list A) :=
  try_fold (fun loaded r => let? a := from_row (to_row r) in Ok (loaded ++ [a])) stored [].

Definition load_rows {A} `{SqlRow A} (select : Database -> list A) : StoreM (list A) :=
  let! stored := query select in lift (decode_rows stored).

(** [ORDER BY] the key columns. *)
Definition sorted_values {K A} `{Countable K} (leb : K -> K -> bool) (m : gmap K A) : list A :=
  snd <$> sort_by (fun a b => leb a.1 b.1) (map_to_list m).

Definition pair_leb {j k} (a b : Id j * Id k) : bool :=
  if bool_decide (a.1 = b.1) then id_leb a.2 b.2 else id_leb a.1 b.1.

Definition version_leb (a b : ConfigVersionId) : bool := String.leb (version_text a) (version_text b).

Definition load_config_version_tx (id : ConfigVersionId) : StoreM (option ConfigVersion) :=
  let! row := query (fun db => db_versions db !! id) in
  match row with
  | None => ret None
  | Some row => let! version := lift (from_row (to_row row)) in ret (Some version)
  end.

Definition load_configuration_tx (id : ConfigVersionId) : StoreM (option ControlPlaneConfiguration) :=
  let! version := load_config_version_tx id in
  match version with
  | None => ret None
  | Some version =>
      let! policies := load_rows (fun db => sorted_values id_leb (g_policies (graph_at db id))) in
      let! upstreams := load_rows (fun db => sorted_values id_leb (g_upstreams (graph_at db id))) in
      let! endpoints := load_rows (fun db => sorted_values id_leb (g_endpoints (graph_at db id))) in
      let! credentials := load_rows (fun db => sorted_values id_leb (g_credentials (graph_at db id))) in
      let! bindings := load_rows (fun db => sorted_values pair_leb (g_bindings (graph_at db id))) in
      let! models := load_rows (fun db => sorted_values id_leb (g_models (graph_at db id))) in
      let! aliases := load_rows (fun db => sorted_values String.leb (g_aliases (graph_at db id))) in
      let! routes := load_rows (fun db => sorted_values id_leb (g_routes (graph_at db id))) in
      let! candidates := load_rows (fun db => sorted_values id_leb (g_candidates (graph_at db id))) in
      let! groups := load_rows (fun db => sorted_values id_leb (g_groups (graph_at db id))) in
      let! grants := load_rows (fun db => sorted_values pair_leb (g_grants (graph_at db id))) in
      let! keys := load_rows (fun db => sorted_values id_leb (g_keys (graph_at db id))) in
      ret (Some (mkConfiguration version policies upstreams endpoints credentials bindings models aliases routes candidates
                   groups grants keys))
  end.

(** The newest published or rolled-back event of the version. *)
Definition is_transition (id : ConfigVersionId) (e : ManagementAuditEvent) : bool :=
  bool_decide (ae_config_version_id e = id)
  && (bool_decide (ae_action e = AuditPublished) || bool_decide (ae_action e = AuditRolledBack)).

Definition latest_transition (db : Database) (id : ConfigVersionId) : option ManagementAuditEvent :=
  last (List.filter (is_transition id) (db_audit db)).

Definition latest_rollback_predecessor_id (id : ConfigVersionId) : StoreM (option ConfigVersionId) :=
  let! row := query (fun db => latest_transition db id) in
  match row with
  | Some e =>
      match ae_replaced_config_version_id e with
      | Some replaced =>
          let! i := lift (map_err (fun _ => malformed "management_audit_events") (version_id_try_new (version_text replaced))) in
          ret (Some i)
      | None => ret None
      end
  | None => ret None
  end.

(** A row of [management_audit_events] as the loader reads it back. *)
Definition decode_audit_event (e : ManagementAuditEvent) : StoreResult ManagementAuditEvent :=
  let invalid := malformed "management_audit_events" in
  if ae_id e <=? 0 then Err invalid
  else
    let? action := ok_or invalid (audit_action_from_sql (audit_action_as_sql (ae_action e))) in
    let? draft := map_err (fun _ => invalid) (audit_draft_try_new action (ae_actor e) (ae_occurred_at_ms e)) in
    let? id := map_err (fun _ => invalid) (version_id_try_new (version_text (ae_config_version_id e))) in
    let? replaced := match ae_replaced_config_version_id e with
                     | None => Ok None
                     | Some r => let? i := map_err (fun _ => invalid) (version_id_try_new (version_text r)) in Ok (Some i)
                     end in
    from_draft (ae_id e) draft id replaced.

Definition load_management_audit_events : StoreM (list ManagementAuditEvent) :=
  let! stored := query db_audit in
  lift (try_fold (fun events e => let? event := decode_audit_event e in Ok (events ++ [event])) stored []).

(** A row of [management_resource_audit_events]. *)
Definition decode_resource_event (e : ManagementResourceAuditEvent) : StoreResult ManagementResourceAuditEvent :=
  let invalid := malformed "management_resource_audit_events" in
  let draft := re_draft e in
  let? id := map_err (fun _ => invalid) (version_id_try_new (version_text (re_config_version_id e))) in
  if (re_id e <=? 0) || (rd_occurred_at_ms draft <? 0) || negb (bounded_non_empty (rd_action draft) 64)
     || negb (bounded_non_empty (rd_actor draft) 128) || negb (bounded_non_empty (rd_resource_kind draft) 64)
     || negb (bounded_non_empty (rd_resource_id draft) 128)
  then Err invalid
  else Ok (mkResourceEvent (re_id e) draft id).

Definition load_management_resource_audit_events : StoreM (list ManagementResourceAuditEvent) :=
  let! stored := query db_resource_audit in
  lift (try_fold (fun events e => let? event := decode_resource_event e in Ok (events ++ [event])) stored []).

(** ** Repository operations *)

Definition load_configuration (id : ConfigVersionId) : StoreM (option ControlPlaneConfiguration) :=
  transaction (load_configuration_tx id).

Definition load_config_version (id : ConfigVersionId) : StoreM (option ConfigVersion) :=
  transaction (load_config_version_tx id).

Definition list_config_versions : StoreM (list ConfigVersion) :=
  transaction (load_rows (fun db => sorted_values version_leb (db_versions db))).

Definition write_configuration (cf : ControlPlaneConfiguration) : StoreM unit := transaction (write_configuration_tx cf).

Definition write_configuration_with_audit (cf : ControlPlaneConfiguration) (draft : ManagementAuditEventDraft)
  : StoreM ManagementAuditEvent :=
  if negb (bool_decide (ad_action draft = AuditCreated)) then raise InvalidManagementAuditEvent
  else transaction (write_configuration_tx cf ;;; record_management_audit_event draft (cv_id (cf_version cf)) None).

Definition load_active_configuration : StoreM (option ControlPlaneConfiguration) :=
  let! active := query (fun db => version_text ∘ cv_id <$> active_row db) in
  match active with
  | None => ret None
  | Some text =>
      let! id := lift (map_err (fun _ => malformed "config_versions") (version_id_try_new text)) in
      let! configuration := load_configuration id in
      let! configuration := lift (ok_or (malformed "config_versions") configuration) in
      if negb (bool_decide (cv_status (cf_version configuration) = VersionActive)) then raise (malformed "config_versions")
      else ret (Some configuration)
  end.

Definition load_rollback_predecessor (active : ConfigVersionId) : StoreM (option ControlPlaneConfiguration) :=
  let! predecessor := transaction (latest_rollback_predecessor_id active) in
  match predecessor with
  | None => ret None
  | Some predecessor_id =>
      let! predecessor := load_configuration predecessor_id in
      let! predecessor := lift (ok_or (malformed "management_audit_events") predecessor) in
      if negb (bool_decide (cv_status (cf_version predecessor) = VersionArchived))
      then raise (malformed "management_audit_events")
      else ret (Some predecessor)
  end.

Definition activate_version (id : ConfigVersionId) : StoreM ConfigVersionActivation := transaction (activate_version_tx id).

Definition activate_version_with_audit (id : ConfigVersionId) (draft : ManagementAuditEventDraft)
  : StoreM (ConfigVersionActivation * ManagementAuditEvent) :=
  if negb (bool_decide (ad_action draft = AuditPublished) || bool_decide (ad_action draft = AuditRolledBack))
  then raise InvalidManagementAuditEvent
  else transaction (
    let! activation := activate_version_tx id in
    let! event := record_management_audit_event draft (activated_version_id activation) (replaced_active_version_id activation) in
    ret (activation, event)).

Definition list_management_audit_events : StoreM (list ManagementAuditEvent) :=
  transaction load_management_audit_events.

Definition list_management_resource_audit_events : StoreM (list ManagementResourceAuditEvent) :=
  transaction load_management_resource_audit_events.

Definition mutate_draft_configuration {T} (id : ConfigVersionId) (expected : Z) (mutate : StoreM T) : StoreM (T * Z) :=
  transaction (
    let! next_revision := require_and_bump_draft_revision id expected in
    let! result := mutate in
    ret (result, next_revision)).

(** The replacement of a credential of the active version by a completed OAuth
    authorization and its event, in one transaction: that of
    [persist_oauth_credential_if_revision] of
    crates/gateway-control/src/management_mutation_service.rs. *)
Definition rotate_and_record (id : ConfigVersionId) (credential : CredentialConfiguration) (expected : Z)
    (draft : ManagementResourceAuditEventDraft) : StoreM unit :=
  transaction (
    rotate_active_credential id credential expected ;;;
    record_management_resource_audit_event_tx draft id).

Definition record_management_resource_audit_event (id : ConfigVersionId) (draft : ManagementResourceAuditEventDraft)
  : StoreM unit :=
  transaction (
    let! known := query (fun db => version_exists db id) in
    if negb known then raise ConfigVersionNotFound else record_management_resource_audit_event_tx draft id).

(** ** Draft mutations

    The operations a caller of [mutate_draft_configuration] composes. *)

Inductive GraphOp : Type :=
| InsertEgressPolicy (p : EgressPolicyConfiguration) | UpdateEgressPolicy (p : EgressPolicyConfiguration)
| DeleteEgressPolicy (i : Id KEgressPolicy)
| InsertUpstream (u : UpstreamConfiguration) | UpdateUpstream (u : UpstreamConfiguration) | DeleteUpstream (i : UpstreamId)
| InsertEndpoint (e : EndpointConfiguration) | UpdateEndpoint (e : EndpointConfiguration) | DeleteEndpoint (i : EndpointId)
| InsertCredential (c : CredentialConfiguration) | UpdateCredential (c : CredentialConfiguration)
| DeleteCredential (i : CredentialId)
| InsertBinding (b : EndpointCredentialBindingConfiguration)
| InsertPublicModel (p : PublicModelConfiguration) | UpdatePublicModel (p : PublicModelConfiguration)
| DeletePublicModel (i : PublicModelId)
| InsertAlias (a : ModelAliasConfiguration)
| InsertRoute (r : ModelRouteConfiguration) | UpdateRoute (r : ModelRouteConfiguration) | DeleteRoute (i : RouteId)
| InsertCandidate (c : RouteCandidateConfiguration)
| InsertAccessGroup (a : AccessGroupConfiguration) | UpdateAccessGroup (a : AccessGroupConfiguration)
| DeleteAccessGroup (i : AccessGroupId)
| InsertGrant (a : AccessGroupRouteConfiguration)
| InsertClientKey (k : StoredClientKey)
| UpdateClientKey (i : ClientKeyId) (group : AccessGroupId) (status : StoredClientKeyStatus) (expires_at_ms : option Z)
| RevokeClientKey (i : ClientKeyId)
| RecordResourceAudit (draft : ManagementResourceAuditEventDraft).

Definition apply_op (id : ConfigVersionId) (op : GraphOp) : StoreM unit :=
  match op with
  | InsertEgressPolicy p => insert_egress_policy id p
  | UpdateEgressPolicy p => update_egress_policy id p
  | DeleteEgressPolicy i => delete_egress_policy id i
  | InsertUpstream u => insert_upstream id u
  | UpdateUpstream u => update_upstream id u
  | DeleteUpstream i => delete_upstream id i
  | InsertEndpoint e => insert_endpoint id e
  | UpdateEndpoint e => update_endpoint id e
  | DeleteEndpoint i => delete_endpoint id i
  | InsertCredential c => insert_credential id c
  | UpdateCredential c => update_credential id c
  | DeleteCredential i => delete_credential id i
  | InsertBinding b => insert_endpoint_credential_binding id b
  | InsertPublicModel p => insert_public_model id p
  | UpdatePublicModel p => update_public_model id p
  | DeletePublicModel i => delete_public_model id i
  | InsertAlias a => insert_model_alias id a
  | InsertRoute r => insert_model_route id r
  | UpdateRoute r => update_model_route id r
  | DeleteRoute i => delete_model_route id i
  | InsertCandidate c => insert_route_candidate id c
  | InsertAccessGroup a => insert_access_group id a
  | UpdateAccessGroup a => update_access_group id a
  | DeleteAccessGroup i => delete_access_group id i
  | InsertGrant a => insert_access_group_route id a
  | InsertClientKey k => insert_client_key id k
  | UpdateClientKey i group status expires => update_client_key_metadata id i group status expires
  | RevokeClientKey i => revoke_client_key id i
  | RecordResourceAudit draft => record_management_resource_audit_event_tx draft id
  end.

(** The writing operations of the repository. *)
Inductive StoreOp : Type :=
| WriteConfiguration (cf : ControlPlaneConfiguration)
| WriteConfigurationWithAudit (cf : ControlPlaneConfiguration) (draft : ManagementAuditEventDraft)
| ActivateVersion (id : ConfigVersionId)
| ActivateVersionWithAudit (id : ConfigVersionId) (draft : ManagementAuditEventDraft)
| MutateDraft (id : ConfigVersionId) (expected : Z) (ops : list GraphOp)
| RecordResourceEvent (id : ConfigVersionId) (draft : ManagementResourceAuditEventDraft)
| RotateCredential (id : ConfigVersionId) (c : CredentialConfiguration) (expected : Z).

Definition discard {A} (m : StoreM A) : StoreM unit := let! _ := m in ret tt.

Definition run_op (op : StoreOp) : StoreM unit :=
  match op with
  | WriteConfiguration cf => write_configuration cf
  | WriteConfigurationWithAudit cf draft => discard (write_configuration_with_audit cf draft)
  | ActivateVersion id => discard (activate_version id)
  | ActivateVersionWithAudit id draft => discard (activate_version_with_audit id draft)
  | MutateDraft id expected ops => discard (mutate_draft_configuration id expected (for_each (apply_op id) ops))
  | RecordResourceEvent id draft => record_management_resource_audit_event id draft
  | RotateCredential id c expected => transaction (rotate_active_credential id c expected)
  end.

(** ** Reasoning about transactions *)

(** What a body establishes when it succeeds; a failed one is rolled back. *)
Definition triple {A} (P : Database -> Prop) (m : StoreM A) (Q : A -> Database -> Prop) : Prop :=
  forall s a s', P (st_db s) -> m s = (Ok a, s') -> Q a (st_db s').

Lemma triple_ret {A} (P : Database -> Prop) (a : A) (Q : A -> Database -> Prop) :
  (forall db, P db -> Q a db) -> triple P (ret a) Q.
Proof. intros HQ s b s' HP [= <- <-]. auto. Qed.

Lemma triple_raise {A} (P : Database -> Prop) e (Q : A -> Database -> Prop) : triple P (raise e) Q.
Proof. by intros s a s' _ [=]. Qed.

Lemma triple_lift {A} (P : Database -> Prop) (r : StoreResult A) (Q : A -> Database -> Prop) :
  (forall a db, r = Ok a -> P db -> Q a db) -> triple P (lift r) Q.
Proof. intros HQ s a s' HP [= -> <-]. auto. Qed.

Lemma triple_bind {A B} (P : Database -> Prop) (m : StoreM A) (k : A -> StoreM B) Q R :
  triple P m Q -> (forall a, triple (Q a) (k a) R) -> triple P (bind m k) R.
Proof.
  intros Hm Hk s b s' HP Hrun. unfold bind in Hrun. destruct (m s) as [[a|e|] s1] eqn:Hms; [|done..].
  eapply Hk; [by eapply Hm|done].
Qed.

Lemma triple_weaken {A} (P P' : Database -> Prop) (m : StoreM A) (Q Q' : A -> Database -> Prop) :
  triple P m Q -> (forall db, P' db -> P db) -> (forall a db, Q a db -> Q' a db) -> triple P' m Q'.
Proof. intros Hm HP HQ s a s' Hs Hrun. apply HQ. by eapply Hm; [apply HP|]. Qed.

Lemma call_db s r s' : call s = (r, s') -> st_db s' = st_db s.
Proof. unfold call. destruct (sqlite_fails (st_clock s)); by intros [= <- <-]. Qed.

Lemma triple_query {A} (P : Database -> Prop) (f : Database -> A) (Q : A -> Database -> Prop) :
  (forall db, P db -> Q (f db) db) -> triple P (query f) Q.
Proof.
  intros HQ s a s' HP Hrun. unfold query, bind in Hrun. destruct (call s) as [[[]|e|] s1] eqn:Hc; [|done..].
  apply call_db in Hc. injection Hrun as <- <-. rewrite Hc. auto.
Qed.

Lemma triple_execute (P : Database -> Prop) f (Q : Z -> Database -> Prop) :
  (forall db n db', P db -> f db = Some (n, db') -> Q n db') -> triple P (execute f) Q.
Proof.
  intros HQ s a s' HP Hrun. unfold execute, bind in Hrun. destruct (call s) as [[[]|e|] s1] eqn:Hc; [|done..].
  apply call_db in Hc. rewrite Hc in Hrun. destruct (f (st_db s)) as [[n db']|] eqn:Hf; [|done].
  injection Hrun as <- <-. eauto.
Qed.

Lemma triple_get (P : Database -> Prop) (Q : Store -> Database -> Prop) :
  (forall s, P (st_db s) -> Q s (st_db s)) -> triple P get Q.
Proof. intros HQ s a s' HP [= <- <-]. auto. Qed.

Lemma triple_for_each {A} (I : Database -> Prop) (f : A -> StoreM unit) l :
  (forall a, a ∈ l -> triple I (f a) (fun _ => I)) -> triple I (for_each f l) (fun _ => I).
Proof.
  intros Hf. induction l as [|a l IH]; simpl; [by apply triple_ret|].
  eapply triple_bind; [apply Hf; set_solver|]. intros []. apply IH. intros b Hb. apply Hf. set_solver.
Qed.

(** A transaction commits what its body established or changes nothing. *)
Lemma transaction_spec {A} (P : Database -> Prop) (body : StoreM A) Q s r s' :
  triple P body Q -> P (st_db s) -> transaction body s = (r, s') ->
  match r with Ok a => Q a (st_db s') | _ => st_db s' = st_db s end.
Proof.
  intros Hb HP Hrun. unfold transaction, bind in Hrun. destruct (call s) as [[[]|e|] s1] eqn:Hc1;
    [|by injection Hrun as <- <-..]. apply call_db in Hc1.
  destruct (body s1) as [[a|e|] s2] eqn:Hbody; [|by injection Hrun as <- <-..].
  destruct (call s2) as [[[]|e|] s3] eqn:Hc2; [|by injection Hrun as <- <-..].
  apply call_db in Hc2. unfold ret in Hrun. injection Hrun as <- <-. rewrite Hc2.
  eapply Hb; [|done]. by rewrite Hc1.
Qed.

(** The statement a draft mutation runs on its graph. *)
Definition op_stmt (op : GraphOp) : Graph -> option (Z * Graph) :=
  match op with
  | InsertEgressPolicy p => insert_stmt policy_fits p
  | UpdateEgressPolicy p => update_stmt policy_fits (fun _ => true) p
  | DeleteEgressPolicy i => delete_policy_stmt i
  | InsertUpstream u => insert_stmt upstream_fits u
  | UpdateUpstream u => update_stmt upstream_fits (fun _ => true) u
  | DeleteUpstream i => delete_stmt (A := UpstreamConfiguration) i
  | InsertEndpoint e => insert_stmt endpoint_fits e
  | UpdateEndpoint e => update_stmt endpoint_fits (fun old => bool_decide (en_upstream_id old = en_upstream_id e)) e
  | DeleteEndpoint i => delete_stmt (A := EndpointConfiguration) i
  | InsertCredential c => insert_stmt credential_fits c
  | UpdateCredential c => update_stmt credential_fits (fun old => bool_decide (cr_upstream_id old = cr_upstream_id c)) c
  | DeleteCredential i => delete_stmt (A := CredentialConfiguration) i
  | InsertBinding b => insert_stmt binding_fits b
  | InsertPublicModel p => insert_stmt model_fits p
  | UpdatePublicModel p => update_stmt model_fits (fun _ => true) p
  | DeletePublicModel i => delete_stmt (A := PublicModelConfiguration) i
  | InsertAlias a => insert_stmt alias_fits a
  | InsertRoute r => insert_stmt route_fits r
  | UpdateRoute r => update_stmt route_fits (fun old => bool_decide (rt_public_model_id old = rt_public_model_id r)) r
  | DeleteRoute i => delete_stmt (A := ModelRouteConfiguration) i
  | InsertCandidate c => insert_stmt candidate_fits c
  | InsertAccessGroup a => insert_stmt group_fits a
  | UpdateAccessGroup a => update_stmt group_fits (fun _ => true) a
  | DeleteAccessGroup i => delete_stmt (A := AccessGroupConfiguration) i
  | InsertGrant a => insert_stmt grant_fits a
  | InsertClientKey k => insert_stmt key_fits k
  | UpdateClientKey i group status expires => rewrite_key_stmt i (fun old =>
      mkStoredKey (sk_id old) group (sk_prefix old) (sk_secret_digest old) status expires)
  | RevokeClientKey i => rewrite_key_stmt i (fun old =>
      mkStoredKey (sk_id old) (sk_access_group_id old) (sk_prefix old) (sk_secret_digest old) StoredKeyRevoked
        (sk_expires_at_ms old))
  | RecordResourceAudit _ => fun g => Some (0, g)
  end.

(** An invariant that graph statements of the version and resource audits keep. *)
Record keeps (id : ConfigVersionId) (I : Database -> Prop) (stmt : Graph -> option (Z * Graph)) : Prop := {
  keeps_graph : forall db n g, I db -> is_Some (db_versions db !! id) -> stmt (graph_at db id) = Some (n, g) ->
    I (set_graph id g db);
}.

Definition keeps_audit (I : Database -> Prop) : Prop :=
  forall db id draft n db', I db -> resource_audit_stmt draft id db = Some (n, db') -> I db'.

Lemma ensure_draft_triple I id : triple I (ensure_draft_config_version id) (fun _ => I).
Proof.
  apply triple_bind with (Q := fun _ => I); [apply triple_query; auto|]. intros status.
  case_bool_decide; [by apply triple_ret|apply triple_raise].
Qed.

Lemma on_graph_keeps I id stmt db n db' : keeps id I stmt -> I db -> on_graph id stmt db = Some (n, db') -> I db'.
Proof.
  intros [Hk] HI. unfold on_graph, version_exists. case_bool_decide as Hv; [|by intros [= _ <-]].
  destruct (stmt (graph_at db id)) as [[m g]|] eqn:Hs; [|done]. intros [= _ <-]. eauto.
Qed.

Lemma insert_into_keeps I id stmt db n db' : keeps id I stmt -> I db -> insert_into id stmt db = Some (n, db') -> I db'.
Proof. intros Hk HI. unfold insert_into. case_match; [|done]. by eapply on_graph_keeps. Qed.

Lemma insert_row_triple {K A} `{GraphTable K A} I fits id (r : A) :
  keeps id I (insert_stmt fits r) -> triple I (insert_row fits id r) (fun _ => I).
Proof.
  intros Hk. apply triple_bind with (Q := fun _ => I); [|intros n; by apply triple_ret].
  apply triple_execute. intros db n db'. by eapply insert_into_keeps.
Qed.

Lemma guarded_triple I id stmt :
  keeps id I stmt ->
  triple I (ensure_draft_config_version id ;;;
            (let! n := execute (on_graph id stmt) in resource_updated n)) (fun _ => I).
Proof.
  intros Hk. eapply triple_bind; [apply ensure_draft_triple|]. intros [].
  eapply triple_bind with (Q := fun _ => I).
  - apply triple_execute. intros db n db'. by eapply on_graph_keeps.
  - intros n. unfold resource_updated. case_match; [by apply triple_ret|apply triple_raise].
Qed.

Lemma apply_op_triple I id op : keeps id I (op_stmt op) -> keeps_audit I -> triple I (apply_op id op) (fun _ => I).
Proof.
  intros Hk Ha. destruct op; simpl in *; try (by apply insert_row_triple); try (by apply guarded_triple);
    try (by eapply triple_bind; [apply ensure_draft_triple|intros []; apply insert_row_triple]).
  apply triple_bind with (Q := fun _ => I); [|intros n; by apply triple_ret]. apply triple_execute. intros db n db'. apply Ha.
Qed.

(** ** The database invariant *)

Record audit_ok (db : Database) (n : nat) (e : ManagementAuditEvent) : Prop := {
  ao_id : ae_id e = Z.of_nat n + 1;
  ao_version : is_Some (db_versions db !! ae_config_version_id e);
  ao_replaced : forall r, ae_replaced_config_version_id e = Some r -> is_Some (db_versions db !! r);
}.

Record db_ok (db : Database) : Prop := {
  do_versions : rows cv_id version_check (db_versions db);
  do_parents : refers cv_parent_id (db_versions db) (db_versions db);
  do_active : forall k1 k2 v1 v2, db_versions db !! k1 = Some v1 -> db_versions db !! k2 = Some v2 ->
    cv_status v1 = VersionActive -> cv_status v2 = VersionActive -> k1 = k2;
  do_graphs : forall id g, db_graphs db !! id = Some g -> is_Some (db_versions db !! id) /\ graph_ok g;
  do_secrets : forall id g i c, db_graphs db !! id = Some g -> g_credentials g !! i = Some c ->
    secret_ok (cr_encrypted_secret c);
  do_audit : forall n e, db_audit db !! n = Some e -> audit_ok db n e;
  do_resource_audit : forall n e, db_resource_audit db !! n = Some e ->
    re_id e = Z.of_nat n + 1 /\ is_Some (db_versions db !! re_config_version_id e);
}.

(** An [EncryptedSecret] is only made by its validating constructor. *)
Definition op_typed (op : GraphOp) : Prop :=
  match op with
  | InsertCredential c | UpdateCredential c => secret_ok (cr_encrypted_secret c)
  | _ => True
  end.

Definition graph_secrets (g : Graph) : Prop := forall i c, g_credentials g !! i = Some c -> secret_ok (cr_encrypted_secret c).

Lemma empty_graph_ok : graph_ok empty_graph.
Proof.
  constructor; [constructor|..]; intros k; intros; simpl in *;
    repeat match goal with Hl : ∅ !! _ = Some _ |- _ => by rewrite lookup_empty in Hl end.
Qed.

Lemma graph_at_ok db id : db_ok db -> graph_ok (graph_at db id) /\ graph_secrets (graph_at db id).
Proof.
  intros Hok. unfold graph_at. destruct (db_graphs db !! id) as [g|] eqn:Hg; simpl.
  - split; [by eapply do_graphs|]. intros i c. by eapply do_secrets.
  - split; [apply empty_graph_ok|]. intros i c. simpl. by rewrite lookup_empty.
Qed.

Lemma insert_stmt_inv {K A} `{GraphTable K A} fits (r : A) g n g' :
  insert_stmt fits r g = Some (n, g') -> n = 1 /\ g' = put r g /\ fits g r = true /\ table g !! row_key r = None.
Proof.
  unfold insert_stmt. case_bool_decide as Hk; simpl; [done|]. destruct (fits g r); simpl; [|done].
  intros. simplify_eq. split_and!; try done. by apply eq_None_not_Some.
Qed.

Lemma update_stmt_inv {K A} `{GraphTable K A} fits owned (r : A) g n g' :
  update_stmt fits owned r g = Some (n, g') ->
  (n = 0 /\ g' = g)
  \/ (n = 1 /\ g' = put r g /\ fits g r = true /\ exists old, table g !! row_key r = Some old /\ owned old = true).
Proof.
  unfold update_stmt. destruct (table g !! row_key r) as [old|]; [|intros; simplify_eq; auto].
  destruct (owned old) eqn:Ho; [|intros; simplify_eq; auto]. destruct (fits g r); [|done]. intros. simplify_eq. right.
  split_and!; [done..|]. by exists old.
Qed.

Lemma rewrite_key_inv k f g n g' :
  rewrite_key_stmt k f g = Some (n, g') ->
  g' = g \/ exists old, g_keys g !! k = Some old /\ key_fits g (f old) = true /\ g' = put (f old) g.
Proof.
  unfold rewrite_key_stmt. destruct (g_keys g !! k) as [old|]; [|intros; simplify_eq; auto].
  destruct (key_fits g (f old)) eqn:Hf; [|done]. intros. simplify_eq. right. eauto.
Qed.

Ltac shrink_table := constructor; graph_cbn; try done; apply delete_subseteq.

Lemma op_stmt_ok op g n g' : graph_ok g -> op_stmt op g = Some (n, g') -> graph_ok g'.
Proof.
  intros Hok. destruct op; simpl;
    try (intros (_ & -> & Hf & Hn)%insert_stmt_inv);
    try (intros [[_ ->]|(_ & -> & Hf & old & Hold & Hown)]%update_stmt_inv; [done|]);
    try (intros [->|(old & Hold & Hf & ->)]%rewrite_key_inv; [done|]);
    try (by auto with schema);
    try (apply put_endpoint_ok; [|done..]; intros old' Ho; simpl in *; bool_simp; congruence);
    try (apply put_credential_ok; [|done..]; intros old' Ho; simpl in *; bool_simp; congruence);
    try (apply delete_ok; [done|shrink_table]).
  - by apply delete_policy_ok.
  - by intros [= _ <-].
Qed.

Lemma cascade_secrets g : graph_secrets g -> graph_secrets (cascade g).
Proof. intros Hs i c Hc. apply (Hs i). unfold cascade in Hc. simpl in Hc. by apply map_lookup_filter_Some in Hc as [? _]. Qed.

Lemma op_stmt_secrets op g n g' : op_typed op -> graph_secrets g -> op_stmt op g = Some (n, g') -> graph_secrets g'.
Proof.
  intros Ht Hs. destruct op; simpl;
    try (intros (_ & -> & Hf & Hn)%insert_stmt_inv; try exact Hs);
    try (intros [[_ ->]|(_ & -> & Hf & old & Hold & Hown)]%update_stmt_inv; [exact Hs|]; try exact Hs);
    try (intros [->|(old & Hold & Hf & ->)]%rewrite_key_inv; exact Hs);
    try (unfold delete_stmt, delete_policy_stmt; simpl; case_match; intros; simplify_eq; try exact Hs;
         try (apply cascade_secrets; exact Hs)).
  - unfold put. intros i c'. graph_cbn. intros [[_ <-]|[_ Hi]]%lookup_insert_Some; [done|by eapply Hs].
  - unfold put. intros i c'. graph_cbn. intros [[_ <-]|[_ Hi]]%lookup_insert_Some; [done|by eapply Hs].
  - apply cascade_secrets. intros j c' Hc'. simpl in Hc'. apply lookup_delete_Some in Hc' as [_ Hc']. by eapply Hs.
  - by intros [= _ <-].
Qed.

Lemma db_ok_keeps id op : op_typed op -> keeps id db_ok (op_stmt op).
Proof.
  intros Ht. constructor. intros db n g Hok Hv Hs. destruct (graph_at_ok db id Hok) as [Hg Hsec].
  pose proof (op_stmt_ok _ _ _ _ Hg Hs) as Hg'. pose proof (op_stmt_secrets _ _ _ _ Ht Hsec Hs) as Hsec'.
  destruct Hok. constructor; simpl; try done.
  - intros k g0 [[<- <-]|[_ Hk]]%lookup_insert_Some; [done|]. by apply do_graphs0.
  - intros k g0 i c [[<- <-]|[_ Hk]]%lookup_insert_Some Hc; [by eapply Hsec'|]. by eapply do_secrets0.
  - intros m e He. destruct (do_audit0 m e He). by constructor.
Qed.

Lemma db_ok_audit : keeps_audit db_ok.
Proof.
  intros db id draft n db' Hok. unfold resource_audit_stmt. case_match eqn:Hc; [|done]. intros. simplify_eq.
  unfold version_exists in Hc. bool_simp. destruct Hok. constructor; simpl; try done.
  - intros m e He. destruct (do_audit0 m e He). by constructor.
  - intros m e [He|[Hm He]]%lookup_app_Some; [by apply do_resource_audit0|].
    apply list_lookup_singleton_Some in He as [Hz <-]. simpl. split; [lia|done].
Qed.

Lemma active_row_Some db v : active_row db = Some v -> exists k, db_versions db !! k = Some v /\ cv_status v = VersionActive.
Proof.
  unfold active_row. intros Hh. apply head_Some_elem_of in Hh. rewrite list_elem_of_In, filter_In in Hh.
  destruct Hh as [Hin Ha]. apply list_elem_of_In, list_elem_of_fmap in Hin as ([k w] & -> & Hkw%elem_of_map_to_list).
  exists k. split; [done|]. unfold is_active in Ha. by bool_simp.
Qed.

Lemma active_row_None db k v : active_row db = None -> db_versions db !! k = Some v -> cv_status v <> VersionActive.
Proof.
  unfold active_row. intros Hh Hv Ha. apply head_None in Hh.
  assert (In v (List.filter is_active (snd <$> map_to_list (db_versions db)))) as Hin; [|by rewrite Hh in Hin].
  apply filter_In. split; [|by apply bool_decide_eq_true]. apply list_elem_of_In, list_elem_of_fmap.
  exists (k, v). split; [done|]. by apply elem_of_map_to_list.
Qed.

(** Versions replaced pointwise: the rest of the invariant follows. *)
Lemma set_versions_ok db versions :
  db_ok db -> rows cv_id version_check versions -> refers cv_parent_id versions versions ->
  (forall k1 k2 v1 v2, versions !! k1 = Some v1 -> versions !! k2 = Some v2 ->
     cv_status v1 = VersionActive -> cv_status v2 = VersionActive -> k1 = k2) ->
  (forall k, is_Some (db_versions db !! k) -> is_Some (versions !! k)) -> db_ok (set_versions versions db).
Proof.
  intros [] Hrows Hrefs Hact Hdom. constructor; simpl; try done.
  - intros id g Hg. destruct (do_graphs0 id g Hg). auto.
  - intros n e He. destruct (do_audit0 n e He). constructor; auto.
  - intros n e He. destruct (do_resource_audit0 n e He). auto.
Qed.

Lemma is_Some_insert {K A} `{Countable K} (k i : K) (x : A) (m : gmap K A) : is_Some (m !! i) -> is_Some (<[k := x]> m !! i).
Proof. rewrite lookup_insert_is_Some'. auto. Qed.

Lemma insert_version_ok v db n db' : db_ok db -> insert_version_stmt v db = Some (n, db') -> db_ok db'.
Proof.
  intros Hok. unfold insert_version_stmt. case_match eqn:Hc; [done|]. intros. simplify_eq. bool_simp.
  apply set_versions_ok; [done|..]; [|..|intros k; apply is_Some_insert].
  - apply rows_put; [by destruct Hok|done].
  - apply refers_put; [apply refers_put_parent; by destruct Hok|]. intros p Hp. rewrite Hp in *. bool_simp.
    by apply is_Some_insert.
  - intros k1 k2 v1 v2 E1 E2 Ha1 Ha2.
    assert (forall k w, db_versions db !! k = Some w -> cv_status v = VersionActive -> cv_status w <> VersionActive) as Hno.
    { intros k w Hw Hv. unfold is_active in *. rewrite bool_decide_eq_true_2 in * by done. cbn [andb] in *.
      eapply active_row_None; [|done]. apply eq_None_not_Some. by bool_simp. }
    apply lookup_insert_Some in E1 as [[<- <-]|[_ E1]], E2 as [[<- <-]|[_ E2]]; [done|by destruct (Hno k2 v2)|by destruct (Hno k1 v1)|].
    by eapply (do_active db Hok).
Qed.

Lemma bump_ok id expected db n db' : 0 <= expected -> db_ok db -> bump_stmt id expected db = Some (n, db') -> db_ok db'.
Proof.
  intros Hnn Hok. unfold bump_stmt. destruct (db_versions db !! id) as [v|] eqn:Hv; [|by intros [= _ <-]].
  destruct (bool_decide (cv_status v = VersionDraft) && (cv_revision v =? expected)) eqn:Hc; [|by intros [= _ <-]].
  destruct (in_i64 (expected + 1)); [|done]. intros. simplify_eq. bool_simp. destruct (do_versions db Hok id v Hv) as [Hid Hcheck].
  apply set_versions_ok; [done|..]; [|..|intros k; apply is_Some_insert].
  - rewrite <- Hid at 1. change (cv_id v) with (cv_id (set_revision (expected + 1) v)). apply rows_put; [by destruct Hok|].
    unfold version_check in *. simpl. bool_simp. repeat first [done | apply andb_true_iff; split];
      try (by rewrite bool_decide_eq_false_2); apply Z.leb_le; lia.
  - apply refers_put; [apply refers_put_parent; by destruct Hok|]. simpl. intros p Hp. apply is_Some_insert.
    by eapply (do_parents db Hok).
  - intros k1 k2 v1 v2 E1 E2 Ha1 Ha2.
    apply lookup_insert_Some in E1 as [[<- <-]|[_ E1]], E2 as [[<- <-]|[_ E2]]; simpl in *; try congruence.
    by eapply (do_active db Hok).
Qed.

Lemma set_status_check status v : version_check (set_status status v) = version_check v.
Proof. done. Qed.

Lemma archive_ok db n db' : db_ok db -> archive_stmt db = Some (n, db') -> db_ok db' /\ active_row db' = None.
Proof.
  intros Hok [= _ <-]. set (f := fun v => if is_active v then set_status VersionArchived v else v).
  assert (forall v, cv_id (f v) = cv_id v /\ cv_parent_id (f v) = cv_parent_id v /\ version_check (f v) = version_check v
            /\ cv_status (f v) <> VersionActive) as Hf.
  { intros v. unfold f, is_active. by case_bool_decide. }
  split.
  - apply set_versions_ok; [done|..].
    + intros k v (w & <- & Hw)%lookup_fmap_Some. destruct (Hf w) as (-> & _ & -> & _). by apply (do_versions db Hok).
    + intros k v p (w & <- & Hw)%lookup_fmap_Some. destruct (Hf w) as (_ & -> & _). intros Hp.
      rewrite lookup_fmap, fmap_is_Some. by eapply (do_parents db Hok).
    + intros k1 k2 v1 v2 (w & <- & Hw)%lookup_fmap_Some _ Ha. destruct (Hf w) as (_ & _ & _ & Hn). done.
    + intros k Hk. by rewrite lookup_fmap, fmap_is_Some.
  - destruct (active_row _) as [v|] eqn:Ha; [|done]. apply active_row_Some in Ha as (k & Hk & Hact). simpl in Hk.
    apply lookup_fmap_Some in Hk as (w & <- & _). by destruct (Hf w) as (_ & _ & _ & Hn).
Qed.

Lemma activate_ok id db n db' :
  db_ok db -> activate_stmt id db = Some (n, db') -> db_ok db' /\ (n = 1 -> exists v, db_versions db !! id = Some v
    /\ db' = set_versions (<[id := set_status VersionActive v]> (db_versions db)) db).
Proof.
  intros Hok. unfold activate_stmt. destruct (db_versions db !! id) as [v|] eqn:Hv; [|intros [= <- <-]; by split].
  case_match eqn:Hc; [done|]. intros. simplify_eq. split; [|eauto]. destruct (do_versions db Hok id v Hv) as [Hid Hcheck].
  assert (forall k w, db_versions db !! k = Some w -> cv_status w = VersionActive -> k = id) as Hone.
  { intros k w Hw Ha. destruct (active_row db) as [a|] eqn:Har.
    - bool_simp. apply active_row_Some in Har as (j & Hj & Haj). destruct (do_versions db Hok j a Hj) as [<- _].
      transitivity (cv_id a); [|done]. by eapply (do_active db Hok).
    - by destruct (active_row_None db k w). }
  apply set_versions_ok; [done|..]; [|..|intros k; apply is_Some_insert].
  - rewrite <- Hid at 1. change (cv_id v) with (cv_id (set_status VersionActive v)). apply rows_put; [by destruct Hok|done].
  - apply refers_put; [apply refers_put_parent; by destruct Hok|]. simpl. intros p Hp. apply is_Some_insert.
    by eapply (do_parents db Hok).
  - intros k1 k2 v1 v2 E1 E2 Ha1 Ha2.
    apply lookup_insert_Some in E1 as [[<- <-]|[_ E1]], E2 as [[<- <-]|[_ E2]]; try done.
    + symmetry. by eapply Hone.
    + by eapply Hone.
    + by eapply (do_active db Hok).
Qed.

Lemma audit_stmt_ok draft id replaced db n db' : db_ok db -> audit_stmt draft id replaced db = Some (n, db') -> db_ok db'.
Proof.
  intros Hok. unfold audit_stmt. case_match eqn:Hc; [|done]. intros. simplify_eq. unfold version_exists in Hc. bool_simp.
  destruct Hok. constructor; simpl; try done. intros m e [He|[Hm He]]%lookup_app_Some.
  - destruct (do_audit0 m e He). by constructor.
  - apply list_lookup_singleton_Some in He as [Hz <-]. constructor; simpl; [lia|done|]. intros r ->. by bool_simp.
Qed.

(** ** Operations *)

Definition cf_typed (cf : ControlPlaneConfiguration) : Prop :=
  forall c, c ∈ cf_credentials cf -> secret_ok (cr_encrypted_secret c).

Lemma insert_loop_triple {A} I id (insert : ConfigVersionId -> A -> StoreM unit) (as_op : A -> GraphOp) l :
  (forall a, insert id a = apply_op id (as_op a)) -> (forall a, a ∈ l -> op_typed (as_op a)) ->
  (forall op, op_typed op -> keeps id I (op_stmt op)) -> keeps_audit I -> triple I (for_each (insert id) l) (fun _ => I).
Proof.
  intros Heq Ht Hk Ha. apply triple_for_each. intros a Hin. rewrite Heq. apply apply_op_triple; auto.
Qed.

Lemma write_tx_triple I cf :
  cf_typed cf -> (forall db n db', I db -> insert_version_stmt (cf_version cf) db = Some (n, db') -> I db') ->
  (forall op, op_typed op -> keeps (cv_id (cf_version cf)) I (op_stmt op)) -> keeps_audit I ->
  triple I (write_configuration_tx cf) (fun _ => I).
Proof.
  intros Ht Hv Hk Ha. unfold write_configuration_tx. case_match; [apply triple_raise|].
  apply triple_bind with (Q := fun _ => I).
  { apply triple_bind with (Q := fun _ => I); [apply triple_execute; auto|]. intros n. by apply triple_ret. }
  intros _.
  apply triple_bind with (Q := fun _ => I); [by apply (insert_loop_triple I _ _ InsertEgressPolicy)|intros _].
  apply triple_bind with (Q := fun _ => I); [by apply (insert_loop_triple I _ _ InsertUpstream)|intros _].
  apply triple_bind with (Q := fun _ => I); [by apply (insert_loop_triple I _ _ InsertEndpoint)|intros _].
  apply triple_bind with (Q := fun _ => I); [by apply (insert_loop_triple I _ _ InsertCredential)|intros _].
  apply triple_bind with (Q := fun _ => I); [by apply (insert_loop_triple I _ _ InsertBinding)|intros _].
  apply triple_bind with (Q := fun _ => I); [by apply (insert_loop_triple I _ _ InsertPublicModel)|intros _].
  apply triple_bind with (Q := fun _ => I); [by apply (insert_loop_triple I _ _ InsertAlias)|intros _].
  apply triple_bind with (Q := fun _ => I); [by apply (insert_loop_triple I _ _ InsertRoute)|intros _].
  apply triple_bind with (Q := fun _ => I); [by apply (insert_loop_triple I _ _ InsertCandidate)|intros _].
  apply triple_bind with (Q := fun _ => I); [by apply (insert_loop_triple I _ _ InsertAccessGroup)|intros _].
  apply triple_bind with (Q := fun _ => I); [by apply (insert_loop_triple I _ _ InsertGrant)|intros _].
  by apply (insert_loop_triple I _ _ InsertClientKey).
Qed.

Lemma record_audit_triple (P : Database -> Prop) draft id replaced (Q : Database -> Prop) :
  (forall db n db', P db -> audit_stmt draft id replaced db = Some (n, db') -> Q db') ->
  triple P (record_management_audit_event draft id replaced) (fun _ => Q).
Proof.
  intros HQ. apply triple_bind with (Q := fun _ => Q); [by apply triple_execute|]. intros n.
  apply triple_bind with (Q := fun _ => Q); [by apply triple_get|]. intros s. by apply triple_lift.
Qed.

Lemma bump_triple (P : Database -> Prop) id expected (Q : Database -> Prop) :
  (forall db db', 0 <= expected -> P db -> bump_stmt id expected db = Some (1, db') -> Q db') ->
  triple P (require_and_bump_draft_revision id expected) (fun next db => next = expected + 1 /\ Q db).
Proof.
  intros HQ. unfold require_and_bump_draft_revision. destruct (Z.ltb_spec expected 0); [apply triple_raise|].
  apply triple_bind with (Q := fun n db => n = 1 -> Q db).
  - apply triple_execute. intros db n db' HP Hb ->. by eapply HQ.
  - intros n. destruct (Z.eqb_spec n 1) as [->|Hne]; [apply triple_ret; auto|].
    apply triple_bind with (Q := fun _ _ => True); [by apply triple_query|]. intros status.
    destruct status as [[]|]; apply triple_raise.
Qed.

Lemma mutate_triple {T} (P Q R : Database -> Prop) id expected (mutate : StoreM T) :
  (forall db db', 0 <= expected -> P db -> bump_stmt id expected db = Some (1, db') -> Q db') ->
  triple Q mutate (fun _ => R) ->
  triple P (let! next := require_and_bump_draft_revision id expected in let! t := mutate in ret (t, next))
    (fun r db => r.2 = expected + 1 /\ R db).
Proof.
  intros HQ Hm. eapply triple_bind; [by apply bump_triple with (Q := Q)|]. intros next. simpl.
  apply triple_bind with (Q := fun _ db => next = expected + 1 /\ R db).
  - intros s t s' [-> Hs] Hrun. split; [done|]. by eapply Hm.
  - intros t. apply triple_ret. auto.
Qed.

Lemma activate_tx_triple (P Q R : Database -> Prop) id :
  (forall db n db', P db -> archive_stmt db = Some (n, db') -> Q db') ->
  (forall db db', Q db -> activate_stmt id db = Some (1, db') -> R db') ->
  triple P (activate_version_tx id) (fun a db => activated_version_id a = id /\ R db).
Proof.
  intros HQ HR. unfold activate_version_tx.
  apply triple_bind with (Q := fun _ => P); [by apply triple_query|]. intros status.
  assert (triple P
    (let! replaced := query (fun db => version_text ∘ cv_id <$> active_row db) in
     let! replaced := lift (match replaced with
                            | None => Ok None
                            | Some text => let? i := map_err (fun _ => malformed "config_versions") (version_id_try_new text) in
                                           Ok (Some i)
                            end) in
     execute archive_stmt ;;;
     (let! updated := execute (activate_stmt id) in
      if updated =? 1 then ret (mkActivation id replaced) else raise ConfigVersionNotFound))
    (fun a db => activated_version_id a = id /\ R db)) as Hmain.
  { apply triple_bind with (Q := fun _ => P); [by apply triple_query|]. intros text.
    apply triple_bind with (Q := fun _ => P); [by apply triple_lift|]. intros replaced.
    apply triple_bind with (Q := fun _ => Q); [by apply triple_execute|]. intros m.
    apply triple_bind with (Q := fun n db => n = 1 -> R db); [apply triple_execute; intros db n db' Hq Ha ->; by eapply HR|].
    intros n. destruct (Z.eqb_spec n 1) as [->|]; [by apply triple_ret; auto|apply triple_raise]. }
  destruct status as [[]|]; [exact Hmain|apply triple_raise|exact Hmain|apply triple_raise].
Qed.

Definition store_op_typed (op : StoreOp) : Prop :=
  match op with
  | WriteConfiguration cf | WriteConfigurationWithAudit cf _ => cf_typed cf
  | MutateDraft _ _ ops => Forall op_typed ops
  | RotateCredential _ c _ => secret_ok (cr_encrypted_secret c)
  | _ => True
  end.

Lemma discard_inv {A} (m : StoreM A) s r s' :
  discard m s = (r, s') -> exists r', m s = (r', s') /\ (r = Ok tt <-> exists a, r' = Ok a).
Proof.
  unfold discard, bind, ret. destruct (m s) as [[a|e|] s1]; intros [= <- <-]; eexists; (split; [done|]); naive_solver.
Qed.

(** The body of the transaction of an operation, and the operations that are
    refused before one is opened. *)
Definition op_body (op : StoreOp) : StoreM unit :=
  match op with
  | WriteConfiguration cf => write_configuration_tx cf
  | WriteConfigurationWithAudit cf draft =>
      discard (write_configuration_tx cf ;;; record_management_audit_event draft (cv_id (cf_version cf)) None)
  | ActivateVersion id => discard (activate_version_tx id)
  | ActivateVersionWithAudit id draft => discard (
      let! activation := activate_version_tx id in
      let! event := record_management_audit_event draft (activated_version_id activation) (replaced_active_version_id activation) in
      ret (activation, event))
  | MutateDraft id expected ops => discard (
      let! next := require_and_bump_draft_revision id expected in
      let! t := for_each (apply_op id) ops in ret (t, next))
  | RecordResourceEvent id draft =>
      let! known := query (fun db => version_exists db id) in
      if negb known then raise ConfigVersionNotFound else record_management_resource_audit_event_tx draft id
  | RotateCredential id c expected => rotate_active_credential id c expected
  end.

(** An operation commits what its body establishes or changes nothing. *)
Lemma run_op_spec (P : Database -> Prop) op (Q : Database -> Prop) s r s' :
  triple P (op_body op) (fun _ => Q) -> P (st_db s) -> run_op op s = (r, s') ->
  match r with Ok _ => Q (st_db s') | _ => st_db s' = st_db s end.
Proof.
  assert (forall A (body : StoreM A) r s', triple P (discard body) (fun _ => Q) -> P (st_db s) ->
    discard (transaction body) s = (r, s') -> match r with Ok _ => Q (st_db s') | _ => st_db s' = st_db s end) as Hdisc.
  { intros A body r' s1 Ht HP Hrun. apply discard_inv in Hrun as (r1 & Hrun & Hr).
    assert (triple P body (fun _ => Q)) as Hb.
    { intros s0 a s2 H0 Hbody. eapply (Ht s0 tt); [done|]. unfold discard, bind. by rewrite Hbody. }
    pose proof (transaction_spec P body (fun _ => Q) s r1 s1 Hb HP Hrun) as Hspec.
    destruct r1 as [a| |]; [by rewrite (proj2 Hr ltac:(eauto))|..];
      (destruct r' as [[]| |]; [|done..]; by destruct (proj1 Hr eq_refl)). }
  intros Ht HP Hrun. destruct op; simpl in Ht, Hrun.
  - by eapply (transaction_spec P _ (fun _ => Q)) in Hrun.
  - unfold write_configuration_with_audit in Hrun. destruct (negb (bool_decide (ad_action draft = AuditCreated))).
    + unfold discard, bind, raise in Hrun. by injection Hrun as <- <-.
    + by eapply Hdisc.
  - by eapply Hdisc.
  - unfold activate_version_with_audit in Hrun.
    destruct (negb (bool_decide (ad_action draft = AuditPublished) || bool_decide (ad_action draft = AuditRolledBack))).
    + unfold discard, bind, raise in Hrun. by injection Hrun as <- <-.
    + by eapply Hdisc.
  - by eapply Hdisc.
  - by eapply (transaction_spec P _ (fun _ => Q)) in Hrun.
  - by eapply (transaction_spec P _ (fun _ => Q)) in Hrun.
Qed.

Lemma apply_ops_triple I id ops :
  (forall op, op ∈ ops -> keeps id I (op_stmt op)) -> keeps_audit I -> triple I (for_each (apply_op id) ops) (fun _ => I).
Proof. intros Hk Ha. apply triple_for_each. intros op Hin. apply apply_op_triple; auto. Qed.

Lemma discard_triple {A} (P : Database -> Prop) (m : StoreM A) (Q : A -> Database -> Prop) (R : Database -> Prop) :
  triple P m Q -> (forall a db, Q a db -> R db) -> triple P (discard m) (fun _ => R).
Proof. intros Hm HQ. eapply triple_bind; [exact Hm|]. intros a. apply triple_ret. eauto. Qed.

(** A rotation that succeeds updated one row. *)
Lemma rotate_updates (P : Database -> Prop) id c expected (Q : Database -> Prop) :
  (forall db db', P db -> (exists v, db_versions db !! id = Some v /\ cv_status v = VersionActive) -> cr_revision c = expected + 1 ->
     on_graph id (update_stmt credential_fits
       (fun old => bool_decide (cr_upstream_id old = cr_upstream_id c) && (cr_revision old =? expected)) c) db = Some (1, db') ->
     Q db') ->
  triple P (rotate_active_credential id c expected) (fun _ => Q).
Proof.
  intros HQ. unfold rotate_active_credential.
  apply triple_bind with (Q := fun status db => status = cv_status <$> db_versions db !! id /\ P db); [by apply triple_query|].
  intros [status|]; [|apply triple_raise]. case_bool_decide as Hs; simpl; [|apply triple_raise]. subst.
  destruct (i64_checked_add expected 1) as [next|] eqn:Hnext; [|apply triple_raise]. case_match eqn:Hrev; [apply triple_raise|].
  bool_simp. assert (cr_revision c = expected + 1) as Hc by (unfold i64_checked_add, i64_try_from in Hnext; case_match; simplify_eq; lia).
  apply triple_bind with (Q := fun n db => n = 1 -> Q db).
  - apply triple_execute. intros db n db' [Hst HP] Hg ->. eapply HQ; [done| |done|done].
    destruct (db_versions db !! id) as [v|]; simpl in Hst; [|done]. exists v. split; [done|congruence].
  - intros n. destruct (Z.eqb_spec n 1) as [->|]; [apply triple_ret; auto|apply triple_raise].
Qed.

Lemma rotate_triple (P : Database -> Prop) id c expected (Q : Database -> Prop) :
  (forall db n db', P db -> (exists v, db_versions db !! id = Some v /\ cv_status v = VersionActive) ->
     on_graph id (update_stmt credential_fits
       (fun old => bool_decide (cr_upstream_id old = cr_upstream_id c) && (cr_revision old =? expected)) c) db = Some (n, db') ->
     Q db') ->
  triple P (rotate_active_credential id c expected) (fun _ => Q).
Proof. intros HQ. apply rotate_updates. eauto. Qed.

Lemma resource_event_triple (P : Database -> Prop) id draft (Q : Database -> Prop) :
  (forall db n db', P db -> resource_audit_stmt draft id db = Some (n, db') -> Q db') ->
  triple P (op_body (RecordResourceEvent id draft)) (fun _ => Q).
Proof.
  intros HQ. simpl. apply triple_bind with (Q := fun _ => P); [by apply triple_query|]. intros [].
  - apply triple_bind with (Q := fun _ => Q); [by apply triple_execute|]. intros n. by apply triple_ret.
  - apply triple_raise.
Qed.

Lemma op_body_db_ok op : store_op_typed op -> triple db_ok (op_body op) (fun _ => db_ok).
Proof.
  intros Ht. destruct op as [cf|cf draft|id|id draft|id expected ops|id draft|id c expected]; simpl in Ht.
  - apply write_tx_triple; [done|intros; by eapply insert_version_ok|intros; by apply db_ok_keeps|apply db_ok_audit].
  - eapply discard_triple; [eapply triple_bind; [apply (write_tx_triple db_ok)|]|].
    + done.
    + intros; by eapply insert_version_ok.
    + intros; by apply db_ok_keeps.
    + apply db_ok_audit.
    + intros []. apply record_audit_triple with (Q := db_ok). intros; by eapply audit_stmt_ok.
    + done.
  - eapply discard_triple; [eapply (activate_tx_triple db_ok db_ok db_ok)|].
    + intros db n db' Hok Ha. by eapply archive_ok.
    + intros db db' Hok Ha. by eapply activate_ok.
    + intros a db [_ Hok]. done.
  - eapply discard_triple with (Q := fun _ => db_ok); [|done]. eapply triple_bind; [eapply (activate_tx_triple db_ok db_ok db_ok)|].
    + intros db n db' Hok Ha. by eapply archive_ok.
    + intros db db' Hok Ha. by eapply activate_ok.
    + intros a. apply triple_bind with (Q := fun _ => db_ok); [|intros e; by apply triple_ret].
      apply record_audit_triple. intros db n db' [_ Hok]. by apply audit_stmt_ok.
  - eapply discard_triple; [eapply (mutate_triple db_ok db_ok db_ok)|].
    + intros db db' Hnn Hok Hb. by eapply bump_ok.
    + apply apply_ops_triple; [|apply db_ok_audit]. intros op Hin. apply db_ok_keeps. rewrite Forall_forall in Ht. by apply Ht.
    + intros a db [_ Hok]. done.
  - apply resource_event_triple. intros db n db'. apply db_ok_audit.
  - apply rotate_triple. intros db n db' Hok _ Hg. eapply on_graph_keeps; [|done|done]. constructor.
    intros db0 m g Hok0 Hv [[_ ->]|(_ & -> & Hf & old & Hold & Hown)]%update_stmt_inv.
    + by apply (keeps_graph _ _ _ (db_ok_keeps id (RecordResourceAudit (mkResourceDraft "" "" 0 "" "")) Logic.I) db0 0).
    + apply (keeps_graph _ _ _ (db_ok_keeps id (UpdateCredential c) Ht) db0 1); [done..|]. simpl. unfold update_stmt.
      apply andb_true_iff in Hown as [Hown _]. by rewrite Hold, Hown, Hf.
Qed.

(** ** What is stored *)

Definition configuration_at (db : Database) (version : ConfigVersion) : ControlPlaneConfiguration :=
  let g := graph_at db (cv_id version) in
  mkConfiguration version (sorted_values id_leb (g_policies g)) (sorted_values id_leb (g_upstreams g))
    (sorted_values id_leb (g_endpoints g)) (sorted_values id_leb (g_credentials g)) (sorted_values pair_leb (g_bindings g))
    (sorted_values id_leb (g_models g)) (sorted_values String.leb (g_aliases g)) (sorted_values id_leb (g_routes g))
    (sorted_values id_leb (g_candidates g)) (sorted_values id_leb (g_groups g)) (sorted_values pair_leb (g_grants g))
    (sorted_values id_leb (g_keys g)).

Lemma elem_of_sorted_values {K A} `{Countable K} leb (m : gmap K A) x : x ∈ sorted_values leb m <-> exists k, m !! k = Some x.
Proof.
  unfold sorted_values. rewrite list_elem_of_fmap. setoid_rewrite sort_by_perm. split.
  - intros ([k y] & -> & Hin%elem_of_map_to_list). by exists k.
  - intros [k Hk]. exists (k, x). split; [done|]. by apply elem_of_map_to_list.
Qed.

Lemma decode_rows_ok {A} `{SqlRow A} (l : list A) : (forall a, a ∈ l -> row_ok a) -> decode_rows l = Ok l.
Proof.
  unfold decode_rows. intros Hl. assert (forall acc, try_fold (fun loaded r => let? a := from_row (to_row r) in
    Ok (E := StoreError) (loaded ++ [a])) l acc = Ok (acc ++ l)) as Hgen; [|by rewrite (Hgen [])].
  induction l as [|a l IH]; intros acc; simpl; [by rewrite app_nil_r|].
  rewrite from_to_row by (apply Hl; set_solver). simpl. rewrite IH; [by rewrite <- app_assoc|]. intros b Hb. apply Hl. set_solver.
Qed.

Lemma text_fits_nonempty n s : text_fits n s = true -> s <> "".
Proof. by intros Hf ->. Qed.

Lemma id_fits_ok {k} (i : Id k) : id_fits i = true -> id_ok i.
Proof. apply text_fits_nonempty. Qed.

#[local] Hint Resolve id_fits_ok : schema.

Lemma version_check_ok v : version_check v = true -> row_ok v.
Proof.
  unfold version_check, version_fits. intros. bool_simp. constructor; [|intros p Hp; rewrite Hp in *|lia..];
    eapply text_fits_nonempty; simpl in *; eassumption.
Qed.

Ltac check_row := intros; bool_simp; simpl; split_and?; try constructor; auto with schema.

Lemma policy_check_ok p : policy_check p = true -> row_ok p.
Proof. unfold policy_check. intros. bool_simp. split; [auto with schema|]. destruct (ep_redirect_mode p); bool_simp; lia. Qed.
Lemma upstream_check_ok u : upstream_check u = true -> row_ok u.
Proof.
  unfold upstream_check. intros. bool_simp. split; [auto with schema|]. intros i Hi. rewrite Hi in *. eapply text_fits_nonempty; simpl in *; eassumption.
Qed.
Lemma endpoint_check_ok e : endpoint_check e = true -> row_ok e.
Proof. unfold endpoint_check. check_row. Qed.
Lemma credential_check_ok c : credential_check c = true -> secret_ok (cr_encrypted_secret c) -> row_ok c.
Proof. unfold credential_check. check_row. Qed.
Lemma binding_check_ok b : binding_check b = true -> row_ok b.
Proof. unfold binding_check. check_row. Qed.
Lemma model_check_ok p : model_check p = true -> row_ok p.
Proof. unfold model_check. check_row. Qed.
Lemma alias_check_ok a : alias_check a = true -> row_ok a.
Proof. unfold alias_check. check_row. Qed.
Lemma route_check_ok r : route_check r = true -> row_ok r.
Proof. unfold route_check. check_row. Qed.
Lemma candidate_check_ok c : candidate_check c = true -> row_ok c.
Proof. unfold candidate_check. check_row. Qed.
Lemma group_check_ok a : group_check a = true -> row_ok a.
Proof. unfold group_check. check_row. Qed.
Lemma grant_check_ok a : grant_check a = true -> row_ok a.
Proof. unfold grant_check. check_row. Qed.
Lemma key_check_ok k : key_check k = true -> row_ok k.
Proof. unfold key_check. intros. bool_simp. constructor; auto with schema. intros t Ht. rewrite Ht in *. by bool_simp. Qed.

(** ** Reading *)

(** A read gives the value of the database or fails because SQLite did. *)
Definition reads {A} (P : Database -> Prop) (m : StoreM A) (f : Database -> A) : Prop :=
  forall s r s', P (st_db s) -> m s = (r, s') ->
    st_db s' = st_db s /\ ((r = Err Sqlite /\ exists n, sqlite_fails n = true) \/ r = Ok (f (st_db s))).

Lemma call_reads P : reads P call (fun _ => tt).
Proof.
  intros s r s' _ Hc. split; [by eapply call_db|]. unfold call in Hc.
  destruct (sqlite_fails (st_clock s)) eqn:Hf; simplify_eq; eauto.
Qed.

Lemma store_reads_bind {A B} P (m : StoreM A) (k : A -> StoreM B) f g :
  reads P m f -> (forall db, P db -> reads (eq db) (k (f db)) g) -> reads P (bind m k) g.
Proof.
  intros Hm Hk s r s' HP Hrun. unfold bind in Hrun. destruct (m s) as [rm s1] eqn:Hms.
  destruct (Hm s rm s1 HP Hms) as [Hdb [[-> Hn]| ->]].
  - injection Hrun as <- <-. auto.
  - destruct (Hk (st_db s) HP s1 r s') as [Hdb' Hr]; [by rewrite Hdb|done|]. rewrite Hdb' in *. by rewrite Hdb in *.
Qed.

Lemma store_reads_ret {A} P (a : A) (f : Database -> A) : (forall db, P db -> a = f db) -> reads P (ret a) f.
Proof. intros Ha s r s' HP [= <- <-]. split; [done|]. right. f_equal. auto. Qed.

Lemma reads_lift {A} P (x : StoreResult A) (f : Database -> A) : (forall db, P db -> x = Ok (f db)) -> reads P (lift x) f.
Proof. intros Ha s r s' HP [= <- <-]. split; [done|]. right. auto. Qed.

Lemma reads_at {A} (P : Database -> Prop) (m : StoreM A) f db : reads P m f -> P db -> reads (eq db) m f.
Proof. intros Hm HP s r s' Heq. apply Hm. by rewrite <- Heq. Qed.

Lemma reads_query {A} P (f : Database -> A) : reads P (query f) f.
Proof.
  eapply store_reads_bind; [apply call_reads|]. intros db _ s r s' _ Hrun. injection Hrun as <- <-. split; [done|]. by right.
Qed.

Lemma reads_transaction {A} P (m : StoreM A) f : reads P m f -> reads P (transaction m) f.
Proof.
  intros Hm s r s' HP Hrun. unfold transaction in Hrun.
  assert (reads P (call ;;; (let! a := m in call ;;; ret a)) f) as Hr.
  { eapply store_reads_bind; [apply call_reads|]. intros db HPdb. eapply store_reads_bind; [by apply (reads_at P)|].
    intros db0 <-. eapply store_reads_bind; [apply call_reads|]. intros db1 <-. by apply store_reads_ret; intros ? <-. }
  destruct ((call ;;; (let! a := m in call ;;; ret a)) s) as [r1 s1] eqn:H1.
  destruct (Hr s r1 s1 HP H1) as [Hdb Hres]. destruct r1; injection Hrun as <- <-; auto.
Qed.

Lemma load_rows_reads {A} `{SqlRow A} P (select : Database -> list A) :
  (forall db a, P db -> a ∈ select db -> row_ok a) -> reads P (load_rows select) select.
Proof.
  intros Hl. eapply store_reads_bind; [apply reads_query|]. intros db HP. apply reads_lift. intros db' <-. apply decode_rows_ok. eauto.
Qed.

(** The rows of a graph that the schema keeps are decoded as they were bound. *)
Lemma graph_rows_load {K A} `{Countable K} `{SqlRow A} key check (m : gmap K A) leb a :
  rows key check m -> (forall k r, m !! k = Some r -> check r = true -> row_ok r) -> a ∈ sorted_values leb m -> row_ok a.
Proof.
  intros Hrows Hok [k Hk]%elem_of_sorted_values. destruct (Hrows k a Hk). eauto.
Qed.

Lemma load_version_reads id : reads db_ok (load_config_version_tx id) (fun db => db_versions db !! id).
Proof.
  eapply store_reads_bind; [apply reads_query|]. intros db Hok. simpl. destruct (db_versions db !! id) as [v|] eqn:Hv.
  - eapply store_reads_bind with (f := fun _ => v).
    + apply reads_lift. intros _ _. apply (from_to_row (SqlRow := version_row) v), version_check_ok. by eapply (do_versions db Hok).
    + intros db' <-. apply store_reads_ret. intros ? <-. by rewrite Hv.
  - apply store_reads_ret. intros ? <-. by rewrite Hv.
Qed.

Ltac load_step check_ok :=
  eapply store_reads_bind;
  [apply load_rows_reads; intros ? a <- Ha; eapply graph_rows_load; [eassumption|intros; by apply check_ok|exact Ha]|intros ? <-].

Lemma load_configuration_tx_reads id :
  reads db_ok (load_configuration_tx id) (fun db => configuration_at db <$> db_versions db !! id).
Proof.
  eapply store_reads_bind; [apply load_version_reads|]. intros db Hok. simpl. destruct (db_versions db !! id) as [v|] eqn:Hv.
  2:{ apply store_reads_ret. intros ? <-. by rewrite Hv. }
  destruct (graph_at_ok db id Hok) as [[[] ? ? ? ? ? ? ? ? ? ? ?] Hsec].
  assert (cv_id v = id) as Hid by (by eapply (do_versions db Hok)).
  load_step policy_check_ok. load_step upstream_check_ok. load_step endpoint_check_ok.
  eapply store_reads_bind; [apply load_rows_reads; intros ? a <- Ha; eapply graph_rows_load;
    [eassumption|intros; apply credential_check_ok; [done|by eapply Hsec]|exact Ha]|intros ? <-].
  load_step binding_check_ok. load_step model_check_ok. load_step alias_check_ok. load_step route_check_ok.
  load_step candidate_check_ok. load_step group_check_ok. load_step grant_check_ok. load_step key_check_ok.
  apply store_reads_ret. intros ? <-. rewrite Hv. simpl. unfold configuration_at. by rewrite Hid.
Qed.

Lemma load_configuration_reads id :
  reads db_ok (load_configuration id) (fun db => configuration_at db <$> db_versions db !! id).
Proof. apply reads_transaction, load_configuration_tx_reads. Qed.

(** ** Reachable stores *)

Definition run_ops (ops : list StoreOp) (s : Store) : Store := fold_left (fun s op => (run_op op s).2) ops s.

Lemma run_op_db_ok op s r s' : store_op_typed op -> db_ok (st_db s) -> run_op op s = (r, s') -> db_ok (st_db s').
Proof.
  intros Ht Hok Hrun. pose proof (run_op_spec db_ok op db_ok s r s' (op_body_db_ok op Ht) Hok Hrun) as Hs.
  destruct r; [done|by rewrite Hs..].
Qed.

Lemma run_ops_db_ok ops s : Forall store_op_typed ops -> db_ok (st_db s) -> db_ok (st_db (run_ops ops s)).
Proof.
  intros Ht. revert s. induction Ht as [|op ops Ht _ IH]; intros s Hok; simpl; [done|]. apply IH.
  destruct (run_op op s) as [r s'] eqn:Hrun. simpl. by eapply run_op_db_ok.
Qed.

Lemma empty_db_ok : db_ok empty_db.
Proof.
  constructor; simpl; try done; intros k; intros;
    repeat match goal with Hl : ∅ !! _ = Some _ |- _ => by rewrite lookup_empty in Hl end;
    by rewrite lookup_nil in *.
Qed.

(** C10: The store is always consistent and always readable.  Starting from an
    empty database, no sequence of repository operations breaks the schema,
    whatever statements, BEGINs or COMMITs SQLite fails: at most one version is
    active, every row satisfies its CHECKs and its UNIQUE columns, every reference
    resolves inside its own version (also after cascading deletes), and audit
    events are numbered without gaps and name existing versions.  Therefore the
    fail-closed decoding never fires: loading a version gives exactly the rows it
    stores, in key order, or reports that SQLite failed. *)
Theorem store_keeps_schema ops :
  Forall store_op_typed ops ->
  let s := run_ops ops (mkStore empty_db 0) in
  db_ok (st_db s) /\
  forall id r s', load_configuration id s = (r, s') ->
    st_db s' = st_db s /\
    ((r = Err Sqlite /\ exists n, sqlite_fails n = true)
     \/ r = Ok (configuration_at (st_db s) <$> db_versions (st_db s) !! id)).
Proof.
  intros Ht s. assert (db_ok (st_db s)) as Hok by (apply run_ops_db_ok; [done|apply empty_db_ok]). split; [done|].
  intros id r s' Hl. by eapply load_configuration_reads.
Qed.
End Repository.
