(* ===== verification/StoreProperties.v ===== *)
(** * What the control-plane repository promises

    Theorems about [ControlStore]: a written configuration is read back as it was
    written, published versions are frozen, a draft revision is committed once,
    and activation with its audit trail. *)

From S2P Require Import Prelude Text Core SecretStore ControlPlane StoreRows StoreSchema ControlStore.
Local Open Scope string_scope.
Local Open Scope list_scope.
Local Open Scope Z_scope.

(** ** Sorted tables *)

Record total_order {K} (leb : K -> K -> bool) : Prop := {
  to_total : forall a b, leb a b = true \/ leb b a = true;
  to_trans : forall a b c, leb a b = true -> leb b c = true -> leb a c = true;
  to_antisym : forall a b, leb a b = true -> leb b a = true -> a = b;
}.

Lemma id_order k : total_order (id_leb (k := k)).
Proof. constructor; [apply id_leb_total|apply id_leb_trans|apply id_leb_antisym]. Qed.

Lemma string_order : total_order String.leb.
Proof. constructor; [apply String.leb_total|apply string_leb_trans|apply String.leb_antisym]. Qed.

Lemma pair_order j k : total_order (pair_leb (j := j) (k := k)).
Proof.
  constructor; unfold pair_leb.
  - intros [a b] [c d]; simpl. repeat case_bool_decide; subst; try done; apply id_leb_total.
  - intros [a b] [c d] [e f]; simpl. repeat case_bool_decide; subst; try done; try (apply id_leb_trans).
    intros H1 H2. exfalso. apply H. by apply id_leb_antisym.
  - intros [a b] [c d]; simpl. repeat case_bool_decide; subst; try done; intros H1 H2; [f_equal; by apply id_leb_antisym|].
    exfalso. apply H. by apply id_leb_antisym.
Qed.

(** A table whose rows have distinct keys lists them in key order. *)
Lemma sorted_by_key {K A} `{Countable K} leb (key : A -> K) l :
  total_order leb -> NoDup (key <$> l) -> sorted_values leb (by_key key l) = sort_by (fun a b => leb (key a) (key b)) l.
Proof.
  intros [Htot Htr Hanti] Hnd.
  assert (map_to_list (by_key key l) ≡ₚ (fun x => (key x, x)) <$> l) as Hperm.
  { assert (by_key key l = list_to_map ((fun x => (key x, x)) <$> l)) as ->.
    { apply map_eq. intros i. apply option_eq. intros x. rewrite (by_key_Some key l Hnd), <- elem_of_list_to_map.
      - rewrite list_elem_of_fmap. split; [intros [Hin <-]; by exists x|]. intros (y & [= -> ->] & Hin). done.
      - by rewrite <- list_fmap_compose. }
    rewrite map_to_list_to_map; [done|]. by rewrite <- list_fmap_compose. }
  assert (forall x, x ∈ sorted_values leb (by_key key l) -> x ∈ l) as Hin.
  { intros x [k Hk]%elem_of_sorted_values. by apply by_key_Some in Hk as [? _]. }
  apply (sorted_perm_unique (fun a b => leb (key a) (key b))).
  - intros x y Hx Hy H1 H2. pose proof (Hanti _ _ H1 H2) as Hk.
    assert (by_key key l !! key x = Some x) as Ha by (apply by_key_Some; auto).
    assert (by_key key l !! key x = Some y) as Hb by (apply by_key_Some; auto). congruence.
  - unfold sorted_values. assert (StronglySorted (fun a b : K * A => leb a.1 b.1 = true) (sort_by (fun a b : K * A => leb a.1 b.1) (map_to_list (by_key key l)))) as Hs
      by (apply sort_by_sorted; [intros; apply Htot|intros ? ? ?; apply Htr]).
    assert (Forall (fun p => key p.2 = p.1) (sort_by (fun a b : K * A => leb a.1 b.1) (map_to_list (by_key key l)))) as Hf.
    { rewrite Forall_forall. intros [k x]. rewrite sort_by_perm, elem_of_map_to_list. intros Hk.
      by apply by_key_Some in Hk as [_ ?]. }
    induction Hs as [|p ps Hs IH Hp]; simpl; [constructor|]. apply Forall_cons in Hf as [Hfp Hf]. constructor; [by apply IH|].
    rewrite Forall_fmap. rewrite Forall_forall in *. intros q Hq. simpl. rewrite Hfp, (Hf q Hq). by apply Hp.
  - apply sort_by_sorted; [intros; apply Htot|intros ? ? ?; apply Htr].
  - unfold sorted_values. rewrite !sort_by_perm, Hperm, <- list_fmap_compose. simpl. by rewrite list_fmap_id.
Qed.

(** The rows of a configuration in the order the loaders give them. *)
Definition normalize (cf : ControlPlaneConfiguration) : ControlPlaneConfiguration :=
  let by_id {k A} (key : A -> Id k) := sort_by (fun a b => id_leb (key a) (key b)) in
  mkConfiguration (cf_version cf) (by_id ep_id (cf_egress_policies cf)) (by_id up_id (cf_upstreams cf))
    (by_id en_id (cf_endpoints cf)) (by_id cr_id (cf_credentials cf))
    (sort_by (fun a b => pair_leb (binding_key a) (binding_key b)) (cf_bindings cf))
    (by_id pc_id (cf_public_models cf)) (sort_by (fun a b => String.leb (al_alias a) (al_alias b)) (cf_aliases cf))
    (by_id rt_id (cf_routes cf)) (by_id cn_id (cf_candidates cf)) (by_id gr_id (cf_access_groups cf))
    (sort_by (fun a b => pair_leb (grant_key a) (grant_key b)) (cf_grants cf)) (by_id sk_id (cf_client_keys cf)).

Section Promises.
Context `{SqliteJson} (sqlite_fails : nat -> bool).

(** ** Writing a configuration *)

Definition holds (id : ConfigVersionId) (v : ConfigVersion) (g : Graph) (db : Database) : Prop :=
  db_versions db !! id = Some v /\ graph_at db id = g.

Lemma holds_set_graph id v g g' db : holds id v g db -> holds id v g' (set_graph id g' db).
Proof. intros [Hv _]. split; [done|]. unfold graph_at. simpl. by rewrite lookup_insert_eq. Qed.

Lemma insert_row_holds {K A} `{GraphTable K A} fits id v g (r : A) :
  triple (holds id v g) (insert_row sqlite_fails fits id r)
    (fun _ db => holds id v (put r g) db /\ table g !! row_key r = None).
Proof.
  apply triple_bind with (Q := fun _ db => holds id v (put r g) db /\ table g !! row_key r = None);
    [|intros n; by apply triple_ret].
  apply triple_execute. intros db n db' Hg. pose proof Hg as [Hv Heq]. unfold insert_into, on_graph, version_exists.
  rewrite bool_decide_eq_true_2 by eauto. rewrite Heq. destruct (insert_stmt fits r g) as [[m g']|] eqn:Hs; [|done].
  apply insert_stmt_inv in Hs as (_ & -> & _ & Hn). intros [= _ <-]. split; [by eapply holds_set_graph|done].
Qed.

(** A loop that fills an empty table. *)
Lemma insert_loop_holds {K A} `{GraphTable K A} fits id v g (f : A -> M Store StoreError unit) l :
  (forall r, f r = insert_row sqlite_fails fits id r
             \/ f r = (ensure_draft_config_version sqlite_fails id ;;; insert_row sqlite_fails fits id r)) ->
  table g = ∅ ->
  triple (holds id v g) (for_each f l)
    (fun _ db => holds id v (set_table (by_key row_key l) g) db /\ NoDup (row_key <$> l)).
Proof.
  intros Hf Hempty.
  assert (forall pre, triple (fun db => holds id v (set_table (by_key row_key pre) g) db /\ NoDup (row_key <$> pre))
    (for_each f l) (fun _ db => holds id v (set_table (by_key row_key (pre ++ l)) g) db /\ NoDup (row_key <$> (pre ++ l)))) as Hgen.
  { induction l as [|r l IH]; intros pre; simpl; [apply triple_ret; by rewrite app_nil_r|].
    apply triple_bind with (Q := fun _ db => holds id v (set_table (by_key row_key (pre ++ [r])) g) db /\ NoDup (row_key <$> (pre ++ [r]))).
    2:{ intros []. specialize (IH (pre ++ [r])). by rewrite <- app_assoc in IH. }
    assert (triple (fun db => holds id v (set_table (by_key row_key pre) g) db /\ NoDup (row_key <$> pre))
      (insert_row sqlite_fails fits id r)
      (fun _ db => holds id v (set_table (by_key row_key (pre ++ [r])) g) db /\ NoDup (row_key <$> (pre ++ [r])))) as Hins.
    { intros s a s' [Hh Hnd] Hrun. destruct (insert_row_holds fits id v _ r s a s' Hh Hrun) as [Hput Hnone].
      rewrite table_set in Hnone. split.
      - unfold put in Hput. by rewrite table_set, set_set, <- by_key_snoc in Hput.
      - rewrite fmap_app. apply NoDup_app. split; [done|]. apply by_key_None in Hnone. split; [set_solver|apply NoDup_singleton]. }
    destruct (Hf r) as [->| ->]; [done|]. eapply triple_bind; [apply ensure_draft_triple|]. by intros []. }
  eapply triple_weaken; [apply (Hgen [])| |done]. intros db Hh. split; [|apply NoDup_nil_2].
  unfold by_key. simpl. by rewrite <- Hempty, set_id.
Qed.

Record distinct_keys (cf : ControlPlaneConfiguration) : Prop := {
  dk_policies : NoDup (ep_id <$> cf_egress_policies cf);
  dk_upstreams : NoDup (up_id <$> cf_upstreams cf);
  dk_endpoints : NoDup (en_id <$> cf_endpoints cf);
  dk_credentials : NoDup (cr_id <$> cf_credentials cf);
  dk_bindings : NoDup (binding_key <$> cf_bindings cf);
  dk_models : NoDup (pc_id <$> cf_public_models cf);
  dk_aliases : NoDup (al_alias <$> cf_aliases cf);
  dk_routes : NoDup (rt_id <$> cf_routes cf);
  dk_candidates : NoDup (cn_id <$> cf_candidates cf);
  dk_groups : NoDup (gr_id <$> cf_access_groups cf);
  dk_grants : NoDup (grant_key <$> cf_grants cf);
  dk_keys : NoDup (sk_id <$> cf_client_keys cf);
}.

Definition graph_of (cf : ControlPlaneConfiguration) : Graph :=
  mkGraph (by_key ep_id (cf_egress_policies cf)) (by_key up_id (cf_upstreams cf)) (by_key en_id (cf_endpoints cf))
    (by_key cr_id (cf_credentials cf)) (by_key binding_key (cf_bindings cf)) (by_key pc_id (cf_public_models cf))
    (by_key al_alias (cf_aliases cf)) (by_key rt_id (cf_routes cf)) (by_key cn_id (cf_candidates cf))
    (by_key gr_id (cf_access_groups cf)) (by_key grant_key (cf_grants cf)) (by_key sk_id (cf_client_keys cf)).

(** A fact that does not depend on the database. *)
Lemma triple_pure_r {A} (P : Database -> Prop) (F : Prop) (m : M Store StoreError A) Q :
  (F -> triple P m Q) -> triple (fun db => P db /\ F) m Q.
Proof. intros Hm s a s' [HP HF]. by apply Hm. Qed.

Ltac fill_table :=
  eapply triple_bind; [eapply insert_loop_holds; [(by left) || (by right)|reflexivity]|];
  intros ?; cbv beta; apply triple_pure_r; intros ?.

Lemma write_tx_stores cf :
  triple db_ok (write_configuration_tx sqlite_fails cf)
    (fun _ db => holds (cv_id (cf_version cf)) (cf_version cf) (graph_of cf) db /\ distinct_keys cf
       /\ cv_status (cf_version cf) = VersionDraft).
Proof.
  unfold write_configuration_tx. case_bool_decide as Hd; simpl; [|apply triple_raise].
  apply triple_bind with (Q := fun _ => holds (cv_id (cf_version cf)) (cf_version cf) empty_graph).
  { eapply triple_bind with (Q := fun _ => holds (cv_id (cf_version cf)) (cf_version cf) empty_graph); [|intros n; by apply triple_ret].
    apply triple_execute. intros db n db' Hok. unfold insert_version_stmt. case_match eqn:Hc; [done|]. intros [= _ <-]. bool_simp.
    split; simpl; [by rewrite lookup_insert_eq|]. unfold graph_at. simpl.
    destruct (db_graphs db !! cv_id (cf_version cf)) as [g|] eqn:Hg; [|done]. by destruct (do_graphs db Hok _ _ Hg). }
  intros _. do 11 fill_table.
  refine (triple_weaken _ _ _ _ _ (insert_loop_holds key_fits _ _ _ _ _ _ _) (fun db Hdb => Hdb) _); [by right|reflexivity|].
  simpl. intros _ db [Hh Hk]. split; [exact Hh|]. split; [by constructor|done].
Qed.

Lemma stored_configuration cf db :
  holds (cv_id (cf_version cf)) (cf_version cf) (graph_of cf) db -> distinct_keys cf ->
  configuration_at db (cf_version cf) = normalize cf.
Proof.
  intros [_ Hg] []. unfold configuration_at. rewrite Hg. unfold normalize. simpl.
  f_equal; apply sorted_by_key; first [apply id_order|apply pair_order|apply string_order|done].
Qed.

(** ** Published versions are frozen *)

(** The version is not a draft, and apart from its status it and its graph are
    as given. *)
Definition published (id : ConfigVersionId) (v : ConfigVersion) (g : Graph) (db : Database) : Prop :=
  graph_at db id = g /\
  exists w, db_versions db !! id = Some w /\ cv_status w <> VersionDraft /\ w = set_status (cv_status w) v.

Lemma triple_false {A} (P : Database -> Prop) (m : M Store StoreError A) Q : (forall db, P db -> False) -> triple P m Q.
Proof. intros HP s a s' Hs. by destruct (HP _ Hs). Qed.

Lemma published_keeps id id' v g op : id' <> id -> keeps id' (published id v g) (op_stmt op).
Proof.
  intros Hne. constructor. intros db n g' [Hg Hw] _ _. split; [|done]. unfold graph_at. simpl.
  by rewrite lookup_insert_ne.
Qed.

Lemma published_audit id v g : keeps_audit (published id v g).
Proof.
  intros db id' draft n db' Hp. unfold resource_audit_stmt. case_match; [|done]. by intros [= _ <-].
Qed.

Lemma published_audit_stmt id v g draft id' replaced db n db' :
  published id v g db -> audit_stmt draft id' replaced db = Some (n, db') -> published id v g db'.
Proof. intros Hp. unfold audit_stmt. case_match; [|done]. by intros [= _ <-]. Qed.

Lemma published_archive id v g db n db' : published id v g db -> archive_stmt db = Some (n, db') -> published id v g db'.
Proof.
  intros [Hg (w & Hw & Hs & Heq)] [= _ <-]. split; [done|]. simpl. rewrite lookup_fmap, Hw. simpl. eexists. split; [done|].
  unfold is_active. case_bool_decide; [|done]. split; [done|]. by rewrite Heq.
Qed.

Lemma published_activate id v g id' db n db' : published id v g db -> activate_stmt id' db = Some (n, db') -> published id v g db'.
Proof.
  intros [Hg (w & Hw & Hs & Heq)]. unfold activate_stmt. destruct (db_versions db !! id') as [u|] eqn:Hu; [|by intros [= _ <-]; split; eauto].
  case_match; [done|]. intros [= _ <-]. split; [done|]. simpl. destruct (decide (id' = id)) as [->|Hne].
  - rewrite lookup_insert_eq. eexists. split; [done|]. split; [done|]. simplify_eq. by rewrite Heq.
  - rewrite lookup_insert_ne by done. eauto.
Qed.

Lemma published_write id v g cf :
  cf_typed cf -> triple (published id v g) (write_configuration_tx sqlite_fails cf) (fun _ => published id v g).
Proof.
  intros Ht. destruct (decide (cv_id (cf_version cf) = id)) as [Heq|Hne].
  - unfold write_configuration_tx. case_match; [apply triple_raise|].
    apply triple_bind with (Q := fun _ _ => False); [|intros _; by apply triple_false].
    apply triple_bind with (Q := fun _ _ => False); [|intros _; by apply triple_false].
    apply triple_execute. intros db n db' [_ (w & Hw & _)]. unfold insert_version_stmt. rewrite Heq.
    by rewrite bool_decide_eq_true_2 by eauto.
  - apply write_tx_triple; [done| |intros op _; by apply published_keeps|apply published_audit].
    intros db n db' [Hg (w & Hw & Hs & Heq)]. unfold insert_version_stmt. case_match; [done|]. intros [= _ <-]. split; [done|].
    simpl. rewrite lookup_insert_ne by done. eauto.
Qed.

Definition rotates (id : ConfigVersionId) (op : StoreOp) : Prop :=
  match op with RotateCredential id' _ _ => id' = id | _ => False end.

Lemma op_body_published id v g op :
  store_op_typed op -> ~ rotates id op ->
  triple (published id v g) (op_body sqlite_fails op) (fun _ => published id v g).
Proof.
  intros Ht Hr. destruct op as [cf|cf draft|i|i draft|i expected ops|i draft|i c expected]; simpl in Ht, Hr.
  - by apply published_write.
  - eapply discard_triple; [eapply triple_bind; [by apply (published_write id v g)|]|].
    + intros []. apply record_audit_triple with (Q := published id v g). intros; by eapply published_audit_stmt.
    + done.
  - eapply discard_triple; [eapply (activate_tx_triple _ (published id v g) _ (published id v g))|].
    + intros db n db'. apply published_archive.
    + intros db db'. apply published_activate.
    + by intros a db [_ Hp].
  - eapply discard_triple with (Q := fun _ => published id v g); [|done].
    eapply triple_bind; [eapply (activate_tx_triple _ (published id v g) _ (published id v g))|].
    + intros db n db'. apply published_archive.
    + intros db db'. apply published_activate.
    + intros a. apply triple_bind with (Q := fun _ => published id v g); [|intros e; by apply triple_ret].
      apply record_audit_triple. intros db n db' [_ Hp]. by apply published_audit_stmt.
  - eapply discard_triple; [eapply (mutate_triple _ (published id v g) (fun db => published id v g db /\ i <> id) (published id v g))|].
    + intros db db' _ [Hg (w & Hw & Hs & Heq)] Hb. unfold bump_stmt in Hb. destruct (decide (i = id)) as [->|Hne].
      * rewrite Hw, bool_decide_eq_false_2 in Hb by done. by simplify_eq/=.
      * split; [|done]. destruct (db_versions db !! i) as [u|] eqn:Hu; [|by simplify_eq].
        repeat case_match; simplify_eq. split; [done|]. simpl. rewrite lookup_insert_ne by done. eauto.
    + intros s a s' [Hp Hne]. eapply apply_ops_triple; [intros op _; by apply published_keeps|apply published_audit|done].
    + by intros a db [_ Hp].
  - apply resource_event_triple. intros db n db'. apply published_audit.
  - apply rotate_triple. intros db n db' Hp _. eapply on_graph_keeps; [|done]. constructor. intros db0 m g' Hp0 Hv Hs.
    destruct Hp0 as [Hg Hw]. split; [|done]. unfold graph_at. simpl. by rewrite lookup_insert_ne.
Qed.

Lemma run_ops_published id v g ops s :
  Forall (fun op => store_op_typed op /\ ~ rotates id op) ops -> published id v g (st_db s) ->
  published id v g (st_db (run_ops sqlite_fails ops s)).
Proof.
  intros Ht. revert s. induction Ht as [|op ops [Ht Hr] _ IH]; intros s Hp; simpl; [done|]. apply IH.
  destruct (run_op sqlite_fails op s) as [r s'] eqn:Hrun. simpl.
  pose proof (run_op_spec sqlite_fails _ op _ s r s' (op_body_published id v g op Ht Hr) Hp Hrun) as Hs.
  destruct r; [done|by rewrite Hs..].
Qed.

Lemma activate_publishes id v g s a s' :
  holds id v g (st_db s) -> activate_version sqlite_fails id s = (Ok a, s') -> published id v g (st_db s').
Proof.
  intros Hh Hrun. unfold activate_version in Hrun.
  eapply (transaction_spec sqlite_fails (holds id v g) _ (fun a db => activated_version_id a = id /\ published id v g db)) in Hrun.
  - by destruct Hrun.
  - apply (activate_tx_triple sqlite_fails _ (fun db => graph_at db id = g /\ exists w, db_versions db !! id = Some w
      /\ w = set_status (cv_status w) v) (published id v g)).
    + intros db n db' [Hv Hg] [= _ <-]. split; [done|]. simpl. rewrite lookup_fmap, Hv. simpl. eexists. split; [done|].
      by destruct (is_active v), v.
    + intros db db' [Hg (w & Hw & Heq)]. unfold activate_stmt. rewrite Hw. case_match; [done|]. intros [= <-]. split; [done|].
      simpl. rewrite lookup_insert_eq. eexists. split; [done|]. split; [done|]. by rewrite Heq.
  - done.
Qed.

(** C16: What is served is what was written.  After a configuration was written and
    its version activated, no sequence of further operations (writes, audited or
    not, activations of any version, draft mutations, audit records, and any
    failure of SQLite) changes its rows: loading the version gives back the written
    configuration, each table in key order and only the status of the version
    moved on, or reports that SQLite failed.  Only the dedicated credential
    rotation of that version is excepted. *)
Theorem published_configuration_is_frozen cf s s1 a s2 ops r s3 :
  db_ok (st_db s) -> cf_typed cf ->
  write_configuration sqlite_fails cf s = (Ok tt, s1) ->
  activate_version sqlite_fails (cv_id (cf_version cf)) s1 = (Ok a, s2) ->
  Forall (fun op => store_op_typed op /\ ~ rotates (cv_id (cf_version cf)) op) ops ->
  load_configuration sqlite_fails (cv_id (cf_version cf)) (run_ops sqlite_fails ops s2) = (r, s3) ->
  (r = Err Sqlite /\ exists n, sqlite_fails n = true)
  \/ exists status loaded, status <> VersionDraft /\ r = Ok (Some loaded)
       /\ loaded = normalize (mkConfiguration (set_status status (cf_version cf)) (cf_egress_policies cf) (cf_upstreams cf)
            (cf_endpoints cf) (cf_credentials cf) (cf_bindings cf) (cf_public_models cf) (cf_aliases cf) (cf_routes cf)
            (cf_candidates cf) (cf_access_groups cf) (cf_grants cf) (cf_client_keys cf)).
Proof.
  intros Hok Hty Hw Ha Hops Hl. set (id := cv_id (cf_version cf)) in *.
  pose proof (transaction_spec sqlite_fails db_ok _ _ s (Ok tt) s1 (write_tx_stores cf) Hok Hw) as (Hh & Hk & _).
  assert (db_ok (st_db s1)) as Hok1 by (by apply (run_op_db_ok sqlite_fails (WriteConfiguration cf) s (Ok tt) s1)).
  assert (db_ok (st_db s2)) as Hok2.
  { apply (run_op_db_ok sqlite_fails (ActivateVersion id) s1 (Ok tt) s2 Logic.I Hok1). simpl. unfold discard, bind. by rewrite Ha. }
  pose proof (activate_publishes _ _ _ _ _ _ Hh Ha) as Hp.
  pose proof (run_ops_published _ _ _ ops s2 Hops Hp) as [Hg (w & Hv & Hs & Heq)].
  assert (db_ok (st_db (run_ops sqlite_fails ops s2))) as Hok3.
  { apply run_ops_db_ok; [|done]. eapply Forall_impl; [exact Hops|]. by intros op [? _]. }
  destruct (load_configuration_reads sqlite_fails id _ _ _ Hok3 Hl) as [_ [Hf| ->]]; [by left|]. right.
  rewrite Hv. simpl. exists (cv_status w), (configuration_at (st_db (run_ops sqlite_fails ops s2)) w).
  split; [done|]. split; [done|].
  set (cf' := mkConfiguration (set_status (cv_status w) (cf_version cf)) (cf_egress_policies cf) (cf_upstreams cf)
            (cf_endpoints cf) (cf_credentials cf) (cf_bindings cf) (cf_public_models cf) (cf_aliases cf) (cf_routes cf)
            (cf_candidates cf) (cf_access_groups cf) (cf_grants cf) (cf_client_keys cf)).
  rewrite Heq at 1. apply (stored_configuration cf'); [|by destruct Hk]. split; [|exact Hg]. simpl. by rewrite <- Heq.
Qed.

(** ** A revision is committed once *)

Definition revised (id : ConfigVersionId) (n : Z) (db : Database) : Prop :=
  exists v, db_versions db !! id = Some v /\ n <= cv_revision v.

Lemma revised_keeps id id' n op : keeps id' (revised id n) (op_stmt op).
Proof. constructor. by intros. Qed.

Lemma revised_audit id n : keeps_audit (revised id n).
Proof. intros db id' draft m db' Hp. unfold resource_audit_stmt. case_match; [|done]. by intros [= _ <-]. Qed.

Lemma revised_audit_stmt id n draft id' replaced db m db' :
  revised id n db -> audit_stmt draft id' replaced db = Some (m, db') -> revised id n db'.
Proof. intros Hp. unfold audit_stmt. case_match; [|done]. by intros [= _ <-]. Qed.

Lemma revised_insert id n v db m db' : revised id n db -> insert_version_stmt v db = Some (m, db') -> revised id n db'.
Proof.
  intros (w & Hw & Hn). unfold insert_version_stmt. case_match eqn:Hc; [done|]. bool_simp. intros [= _ <-]. exists w. simpl.
  rewrite lookup_insert_ne; [done|]. intros <-. eauto.
Qed.

Lemma revised_archive id n db m db' : revised id n db -> archive_stmt db = Some (m, db') -> revised id n db'.
Proof.
  intros (w & Hw & Hn) [= _ <-]. unfold revised. simpl. rewrite lookup_fmap, Hw. simpl. eexists. split; [done|].
  by destruct (is_active w).
Qed.

Lemma revised_activate id n id' db m db' : revised id n db -> activate_stmt id' db = Some (m, db') -> revised id n db'.
Proof.
  intros (w & Hw & Hn). unfold activate_stmt. destruct (db_versions db !! id') as [u|] eqn:Hu; [|by intros [= _ <-]; exists w].
  case_match; [done|]. intros [= _ <-]. unfold revised. simpl. destruct (decide (id' = id)) as [->|Hne].
  - rewrite lookup_insert_eq. eexists. split; [done|]. simpl. congruence.
  - rewrite lookup_insert_ne by done. by exists w.
Qed.

Lemma bump_revises id n id' expected db db' :
  revised id n db \/ (id' = id /\ n = expected + 1) -> bump_stmt id' expected db = Some (1, db') -> revised id n db'.
Proof.
  intros Hr. unfold bump_stmt. destruct (db_versions db !! id') as [u|] eqn:Hu; [|done].
  destruct (bool_decide (cv_status u = VersionDraft) && (cv_revision u =? expected)) eqn:Hc; [|done].
  destruct (in_i64 (expected + 1)); [|done]. intros [= <-]. bool_simp. unfold revised. simpl.
  destruct (decide (id' = id)) as [->|Hne].
  - rewrite lookup_insert_eq. eexists. split; [done|]. simpl. destruct Hr as [(w & Hw & Hn)|[_ ->]]; [|done].
    assert (w = u) as -> by congruence. lia.
  - rewrite lookup_insert_ne by done. destruct Hr as [(w & Hw & Hn)|[-> _]]; [|done]. by exists w.
Qed.

Lemma op_body_revised id n op :
  store_op_typed op -> triple (revised id n) (op_body sqlite_fails op) (fun _ => revised id n).
Proof.
  intros Ht. destruct op as [cf|cf draft|i|i draft|i expected ops|i draft|i c expected]; simpl in Ht.
  - apply write_tx_triple; [done|intros; by eapply revised_insert|intros; apply revised_keeps|apply revised_audit].
  - eapply discard_triple; [eapply triple_bind; [apply (write_tx_triple sqlite_fails (revised id n))|]|].
    + done.
    + intros; by eapply revised_insert.
    + intros; apply revised_keeps.
    + apply revised_audit.
    + intros []. apply record_audit_triple with (Q := revised id n). intros; by eapply revised_audit_stmt.
    + done.
  - eapply discard_triple; [eapply (activate_tx_triple _ (revised id n) (revised id n) (revised id n))|].
    + intros db m db'. apply revised_archive.
    + intros db db'. apply revised_activate.
    + by intros a db [_ Hp].
  - eapply discard_triple with (Q := fun _ => revised id n); [|done].
    eapply triple_bind; [eapply (activate_tx_triple _ (revised id n) (revised id n) (revised id n))|].
    + intros db m db'. apply revised_archive.
    + intros db db'. apply revised_activate.
    + intros a. apply triple_bind with (Q := fun _ => revised id n); [|intros e; by apply triple_ret].
      apply record_audit_triple. intros db m db' [_ Hp]. by apply revised_audit_stmt.
  - eapply discard_triple; [eapply (mutate_triple _ (revised id n) (revised id n) (revised id n))|].
    + intros db db' _ Hp. apply bump_revises. by left.
    + apply apply_ops_triple; [intros op _; apply revised_keeps|apply revised_audit].
    + by intros a db [_ Hp].
  - apply resource_event_triple. intros db m db'. apply revised_audit.
  - apply rotate_triple. intros db m db' Hp _. eapply on_graph_keeps; [|done]. by constructor.
Qed.

Lemma run_ops_revised id n ops s :
  Forall store_op_typed ops -> revised id n (st_db s) -> revised id n (st_db (run_ops sqlite_fails ops s)).
Proof.
  intros Ht. revert s. induction Ht as [|op ops Ht _ IH]; intros s Hp; simpl; [done|]. apply IH.
  destruct (run_op sqlite_fails op s) as [r s'] eqn:Hrun. simpl.
  pose proof (run_op_spec sqlite_fails _ op _ s r s' (op_body_revised id n op Ht) Hp Hrun) as Hs.
  destruct r; [done|by rewrite Hs..].
Qed.

(** What a writer with a stale revision is told. *)
Definition stale_answer {A} (r : result StoreError A) : Prop :=
  r = Err Sqlite \/ r = Err ConfigVersionRevisionConflict \/ r = Err ControlPlaneMutationRequiresDraft.

Lemma stale_bump id expected s r s' :
  revised id (expected + 1) (st_db s) -> require_and_bump_draft_revision sqlite_fails id expected s = (r, s') -> stale_answer r.
Proof.
  intros (v & Hv & Hn). unfold require_and_bump_draft_revision, stale_answer.
  destruct (expected <? 0); [intros [= <- _]; auto|]. unfold execute, query, bind, call.
  destruct (sqlite_fails (st_clock s)); [intros [= <- _]; auto|]. cbn [st_db]. unfold bump_stmt. rewrite Hv.
  rewrite (proj2 (Z.eqb_neq (cv_revision v) expected)), andb_false_r by lia. cbn.
  destruct (sqlite_fails (S (st_clock s))); [intros [= <- _]; auto|]. cbn. rewrite Hv. cbn.
  destruct (cv_status v); intros [= <- _]; auto.
Qed.

(** Draft mutations do not overwrite each other.  Once a mutation of a draft
    was committed from a revision, no later mutation from the same revision is
    committed, whatever happens in between and whatever the two mutations do: the
    second writer is told of the conflict (or that the version is no longer a
    draft, or that SQLite failed) and the database is left as it was. *)
Lemma revision_commits_once id expected ops1 ops2 mid s s1 r s2 :
  Forall op_typed ops1 -> Forall store_op_typed mid ->
  run_op sqlite_fails (MutateDraft id expected ops1) s = (Ok tt, s1) ->
  run_op sqlite_fails (MutateDraft id expected ops2) (run_ops sqlite_fails mid s1) = (r, s2) ->
  stale_answer r /\ st_db s2 = st_db (run_ops sqlite_fails mid s1).
Proof.
  intros Ht1 Hmid H1 H2. assert (revised id (expected + 1) (st_db s1)) as Hr1.
  { pose proof (run_op_spec sqlite_fails (fun _ => True) (MutateDraft id expected ops1) (revised id (expected + 1)) s (Ok tt) s1) as Hs.
    apply Hs; [|done|done]. simpl. eapply discard_triple; [eapply (mutate_triple _ _ (revised id (expected + 1)) (revised id (expected + 1)))|].
    - intros db db' _ _. apply bump_revises. by right.
    - apply apply_ops_triple; [intros op _; apply revised_keeps|apply revised_audit].
    - by intros a db [_ Hp]. }
  pose proof (run_ops_revised id (expected + 1) mid s1 Hmid Hr1) as Hr. set (s' := run_ops sqlite_fails mid s1) in *.
  simpl in H2. unfold discard, mutate_draft_configuration, transaction, bind in H2.
  destruct (call sqlite_fails s') as [rc s3] eqn:Hc.
  pose proof (call_db _ _ _ _ Hc) as Hdb. destruct (call_reads sqlite_fails (fun _ => True) s' rc s3 Logic.I Hc) as [_ [[-> _]| ->]].
  { injection H2 as <- <-. split; [by left|done]. }
  rewrite <- Hdb in Hr. destruct (require_and_bump_draft_revision sqlite_fails id expected s3) as [rb s4] eqn:Hb.
  destruct (stale_bump _ _ _ _ _ Hr Hb) as [->|[->| ->]]; injection H2 as <- <-; (split; [unfold stale_answer; auto|done]).
Qed.
End Promises.

(** ** A concrete store *)

(** SQLite's JSON tests on the texts of the example. *)
#[local] Instance ex_sqlite_json : SqliteJson := {|
  json_array := fun s => bool_decide (s ∈ ["[]"; "[443]"]);
  json_object := fun s => bool_decide (s = "{}");
|}.

(** SQLite fails the thirtieth call and no other. *)
Definition ex_failures (n : nat) : bool := bool_decide (n = 30%nat).

Definition ex_stored_configuration : ControlPlaneConfiguration :=
  mkConfiguration (mkConfigVersion (mkVersionId "v1") None VersionDraft 0 10 "first")
    [mkEgressPolicyRow (mkId "policy") "default" "[]" "[]" "[443]" "[]" StoredDeny 0]
    [mkUpstream (mkId "up-b") "b" "openai" true "[]" None; mkUpstream (mkId "up-a") "a" "openai" true "[]" (Some (mkId "policy"))]
    [mkEndpoint (mkId "ep") (mkId "up-a") "openai" "openai-chat" "https://a.example" "/v1/chat" None TransportHttp true]
    [mkCredential (mkId "cred") (mkId "up-a") "api_key" (Secrets.mkEncrypted 1 (Byte.x01 :: replicate 41 Byte.x07)) CredentialActive 0]
    [mkBinding (mkId "ep") (mkId "cred") (mkId "up-a") true 0 1 4]
    [mkPublicModelRow (mkId "model") "grok" AdminActive "Grok" "{}"] [mkAlias "grok-latest" (mkId "model")]
    [mkRouteRow (mkId "route") (mkId "model") PolicyRoundRobin 3 1000]
    [mkCandidateRow (mkId "cand") (mkId "route") (mkId "ep") "grok-4" EndpointBindings ModePassthrough true 0 1 "{}"]
    [mkAccessGroupRow (mkId "group") "team" AdminActive "{}"] [mkGrant (mkId "group") (mkId "route") true]
    [mkStoredKey (mkId "key") (mkId "group") "gw_1" (replicate 32 Byte.x01) StoredKeyActive None].

Definition ex_write : StoreOp := WriteConfiguration ex_stored_configuration.
Definition ex_activate : StoreOp := ActivateVersion (mkVersionId "v1").
Definition ex_mutation : StoreOp := MutateDraft (mkVersionId "v1") 0 [DeleteUpstream (mkId "up-b")].

Lemma ex_typed : cf_typed ex_stored_configuration.
Proof. intros c. simpl. rewrite list_elem_of_singleton. intros ->. vm_compute. repeat split; done. Qed.

Lemma store_keeps_schema_witness :
  let s := run_ops ex_failures [ex_write; ex_mutation; ex_activate; ex_mutation] (mkStore empty_db 0) in
  g_upstreams (graph_at (st_db s) (mkVersionId "v1")) !! mkId "up-b" = None
  /\ g_upstreams (graph_at (st_db s) (mkVersionId "v1")) !! mkId "up-a" <> None /\ db_ok (st_db s).
Proof.
  split; [vm_compute; reflexivity|]. split; [vm_compute; discriminate|].
  apply (store_keeps_schema ex_failures [ex_write; ex_mutation; ex_activate; ex_mutation]).
  constructor; [exact ex_typed|]. repeat constructor.
Defined.

Definition ex_written : Store := (write_configuration ex_failures ex_stored_configuration (mkStore empty_db 0)).2.
Definition ex_activated : Store := (activate_version ex_failures (mkVersionId "v1") ex_written).2.

Lemma published_configuration_is_frozen_witness :
  match (load_configuration ex_failures (mkVersionId "v1") (run_ops ex_failures [ex_mutation; ex_write] ex_activated)).1 with
  | Ok (Some loaded) => cf_upstreams loaded = rev (cf_upstreams ex_stored_configuration)
  | _ => False
  end.
Proof.
  destruct (published_configuration_is_frozen ex_failures ex_stored_configuration (mkStore empty_db 0) ex_written
    (mkActivation (mkVersionId "v1") None) ex_activated [ex_mutation; ex_write]
    (load_configuration ex_failures (mkVersionId "v1") (run_ops ex_failures [ex_mutation; ex_write] ex_activated)).1
    (load_configuration ex_failures (mkVersionId "v1") (run_ops ex_failures [ex_mutation; ex_write] ex_activated)).2)
    as [[Hr _]|(status & loaded & _ & Hr & ->)].
  - apply empty_db_ok.
  - apply ex_typed.
  - vm_compute. reflexivity.
  - vm_compute. reflexivity.
  - constructor; [split; [repeat constructor|intros []]|]. constructor; [split; [exact ex_typed|intros []]|constructor].
  - apply surjective_pairing.
  - vm_compute in Hr. discriminate Hr.
  - rewrite Hr. vm_compute. reflexivity.
Defined.

Definition ex_mutated : Store := (run_op ex_failures ex_mutation ex_written).2.

Lemma revision_commits_once_witness :
  (run_op ex_failures (MutateDraft (mkVersionId "v1") 0 [DeleteUpstream (mkId "up-a")]) (run_ops ex_failures [ex_activate] ex_mutated)).1
    = Err ConfigVersionRevisionConflict
  /\ g_upstreams (graph_at (st_db (run_op ex_failures (MutateDraft (mkVersionId "v1") 0 [DeleteUpstream (mkId "up-a")])
       (run_ops ex_failures [ex_activate] ex_mutated)).2) (mkVersionId "v1"))
     = g_upstreams (graph_at (st_db (run_ops ex_failures [ex_activate] ex_mutated)) (mkVersionId "v1")).
Proof.
  split; [vm_compute; reflexivity|].
  destruct (revision_commits_once ex_failures (mkVersionId "v1") 0 [DeleteUpstream (mkId "up-b")] [DeleteUpstream (mkId "up-a")]
    [ex_activate] ex_written ex_mutated
    (run_op ex_failures (MutateDraft (mkVersionId "v1") 0 [DeleteUpstream (mkId "up-a")]) (run_ops ex_failures [ex_activate] ex_mutated)).1
    (run_op ex_failures (MutateDraft (mkVersionId "v1") 0 [DeleteUpstream (mkId "up-a")]) (run_ops ex_failures [ex_activate] ex_mutated)).2)
    as [_ ->].
  - repeat constructor.
  - repeat constructor.
  - vm_compute. reflexivity.
  - apply surjective_pairing.
  - reflexivity.
Defined.
