(* ===== verification/EgressCompiler.v ===== *)
(** * The egress policy compiler

    Models [crates/gateway-control/src/egress_policy_compiler.rs]: the stored
    allow-lists parsed into [EgressPolicy] values, and the static admission of
    every enabled Endpoint of an enabled Upstream by the policy of its Upstream. *)

From S2P Require Import Prelude Text Core EgressPolicy ControlPlane.
Local Open Scope list_scope.
Local Open Scope Z_scope.

Module Egress.

Inductive EgressPolicyCompileErrorCode : Type :=
| DuplicatePolicy | DuplicatePolicyName | DuplicateUpstream | DuplicateEndpoint | InvalidPolicyJson
| InvalidPolicyValue | EnabledUpstreamMissingPolicy | MissingReferencedPolicy | MissingEndpointUpstream
| EndpointUrlRejected.

Record EgressPolicyCompileError : Type :=
  egress_error { egress_code : EgressPolicyCompileErrorCode; egress_subject : string }.

Abbreviation EgressM A := (result EgressPolicyCompileError A).

Record CompiledEgressPolicies : Type := mkCompiledPolicies {
  ce_policies : gmap (Id KEgressPolicy) EgressPolicy;
  ce_policy_by_upstream : gmap UpstreamId (Id KEgressPolicy);
}.

Definition policy_for_upstream (c : CompiledEgressPolicies) (upstream : UpstreamId) : option EgressPolicy :=
  match ce_policy_by_upstream c !! upstream with
  | Some policy_id => ce_policies c !! policy_id
  | None => None
  end.

(** The body of an allow-list loop: the value is parsed and must be new. *)
Definition insert_parsed {E F A B} `{EqDecision B} (error : E) (parse : A -> result F B) (set : list B) (value : A)
  : result E (list B) :=
  let? x := map_err (fun _ => error) (parse value) in
  if bool_decide (x ∈ set) then Err error else Ok (set ++ [x]).

#[export] Instance EgressCidr_eq_dec : EqDecision EgressCidr.
Proof. solve_decision. Defined.

Section Compiler.
Context {Url : Type} `{!UrlCrate Url} `{!JsonText}.

Definition parse_string_array (encoded : string) (row : EgressPolicyConfiguration) : EgressM (list string) :=
  ok_or (egress_error InvalidPolicyJson (as_str (ep_id row))) (strings_from_str encoded).

Definition parse_schemes (row : EgressPolicyConfiguration) : EgressM (list EgressScheme) :=
  let? values := parse_string_array (ep_allowed_schemes_json row) row in
  try_fold (insert_parsed (egress_error InvalidPolicyValue (as_str (ep_id row))) try_from_url_scheme) values [].

Definition parse_hosts (row : EgressPolicyConfiguration) : EgressM (list EgressHost) :=
  let? values := parse_string_array (ep_allowed_hosts_json row) row in
  try_fold (insert_parsed (egress_error InvalidPolicyValue (as_str (ep_id row))) (host_try_new (Url := Url))) values [].

Definition parse_ports (row : EgressPolicyConfiguration) : EgressM (list Z) :=
  let? values := ok_or (egress_error InvalidPolicyJson (as_str (ep_id row))) (ports_from_str (ep_allowed_ports_json row)) in
  try_fold (insert_parsed (F := unit) (egress_error InvalidPolicyValue (as_str (ep_id row))) Ok) values [].

Definition parse_cidrs (row : EgressPolicyConfiguration) : EgressM (list EgressCidr) :=
  let? values := parse_string_array (ep_allowed_cidrs_json row) row in
  try_fold (insert_parsed (egress_error InvalidPolicyValue (as_str (ep_id row))) cidr_try_parse) values [].

Definition u8_try_from (z : Z) : option Z := if (0 <=? z) && (z <=? 255) then Some z else None.

Definition parse_redirect_policy (row : EgressPolicyConfiguration) : EgressM RedirectPolicy :=
  let error := egress_error InvalidPolicyValue (as_str (ep_id row)) in
  let? max_redirects := ok_or error (u8_try_from (ep_max_redirects row)) in
  match ep_redirect_mode row with
  | StoredDeny => if max_redirects =? 0 then Ok Deny else Err error
  | StoredSameOrigin => Ok (SameOrigin max_redirects)
  | StoredRevalidate => Ok (Revalidate max_redirects)
  end.

Definition compile_policy (row : EgressPolicyConfiguration) : EgressM EgressPolicy :=
  let? schemes := parse_schemes row in
  let? hosts := parse_hosts row in
  let? ports := parse_ports row in
  let? cidrs := parse_cidrs row in
  let? redirect := parse_redirect_policy row in
  map_err (fun _ => egress_error InvalidPolicyValue (as_str (ep_id row)))
    (policy_try_new (mkPolicy (ep_id row) (ep_name row) schemes hosts ports cidrs redirect)).

(** The three loops of [EgressPolicyCompiler::compile]. *)
Definition add_policy (acc : gmap (Id KEgressPolicy) EgressPolicy * gset string) (row : EgressPolicyConfiguration)
  : EgressM (gmap (Id KEgressPolicy) EgressPolicy * gset string) :=
  if bool_decide (is_Some (acc.1 !! ep_id row)) then Err (egress_error DuplicatePolicy (as_str (ep_id row)))
  else if bool_decide (ep_name row ∈ acc.2) then Err (egress_error DuplicatePolicyName (ep_name row))
  else
    let? compiled := compile_policy row in
    Ok (<[ep_id row := compiled]> acc.1, {[ ep_name row ]} ∪ acc.2).

Definition add_upstream (policies : gmap (Id KEgressPolicy) EgressPolicy)
    (acc : gmap UpstreamId UpstreamConfiguration * gmap UpstreamId (Id KEgressPolicy)) (u : UpstreamConfiguration)
  : EgressM (gmap UpstreamId UpstreamConfiguration * gmap UpstreamId (Id KEgressPolicy)) :=
  if bool_decide (is_Some (acc.1 !! up_id u)) then Err (egress_error DuplicateUpstream (as_str (up_id u)))
  else match up_egress_policy_id u with
       | Some policy_id =>
           if negb (bool_decide (is_Some (policies !! policy_id)))
           then Err (egress_error MissingReferencedPolicy (as_str (up_id u)))
           else Ok (<[up_id u := u]> acc.1, <[up_id u := policy_id]> acc.2)
       | None =>
           if up_enabled u then Err (egress_error EnabledUpstreamMissingPolicy (as_str (up_id u)))
           else Ok (<[up_id u := u]> acc.1, acc.2)
       end.

Definition add_endpoint (policies : gmap (Id KEgressPolicy) EgressPolicy)
    (upstreams : gmap UpstreamId UpstreamConfiguration) (policy_by_upstream : gmap UpstreamId (Id KEgressPolicy))
    (endpoint_ids : gset EndpointId) (e : EndpointConfiguration) : EgressM (gset EndpointId) :=
  if bool_decide (en_id e ∈ endpoint_ids) then Err (egress_error DuplicateEndpoint (as_str (en_id e)))
  else
    let? upstream := ok_or (egress_error MissingEndpointUpstream (as_str (en_id e))) (upstreams !! en_upstream_id e) in
    if negb (en_enabled e) || negb (up_enabled upstream) then Ok ({[ en_id e ]} ∪ endpoint_ids)
    else
      let? policy_id := ok_or (egress_error EnabledUpstreamMissingPolicy (as_str (up_id upstream)))
                          (policy_by_upstream !! en_upstream_id e) in
      let? policy := ok_or (egress_error MissingReferencedPolicy (as_str (up_id upstream))) (policies !! policy_id) in
      let? _ := map_err (fun _ => egress_error EndpointUrlRejected (as_str (en_id e)))
                  (validate_url_shape (Url := Url) policy (en_base_url e)) in
      Ok ({[ en_id e ]} ∪ endpoint_ids).

Definition compile (configuration : ControlPlaneConfiguration) : EgressM CompiledEgressPolicies :=
  let? policies := try_fold add_policy (cf_egress_policies configuration) (∅, ∅) in
  let? upstreams := try_fold (add_upstream policies.1) (cf_upstreams configuration) (∅, ∅) in
  let? _ := try_fold (add_endpoint policies.1 upstreams.1 upstreams.2) (cf_endpoints configuration) ∅ in
  Ok (mkCompiledPolicies policies.1 upstreams.2).

(** ** Specification *)

(** An allow-list text that lists the values [xs], each once. *)
Definition lists {F A} (parse : string -> result F A) (text : string) (xs : list A) : Prop :=
  exists values, strings_from_str text = Some values /\ Forall2 (fun v x => parse v = Ok x) values xs /\ NoDup xs.

Definition redirects_as (row : EgressPolicyConfiguration) (p : RedirectPolicy) : Prop :=
  match ep_redirect_mode row with
  | StoredDeny => ep_max_redirects row = 0 /\ p = Deny
  | StoredSameOrigin => 0 <= ep_max_redirects row <= 255 /\ p = SameOrigin (ep_max_redirects row)
  | StoredRevalidate => 0 <= ep_max_redirects row <= 255 /\ p = Revalidate (ep_max_redirects row)
  end.

(** What [EgressPolicy::try_new] requires. *)
Record policy_ok (p : EgressPolicy) : Prop := {
  po_name : is_blank (policy_name p) = false;
  po_schemes : allowed_schemes p <> [];
  po_hosts : allowed_hosts p <> [];
  po_ports : allowed_ports p <> [];
  po_port : 0 ∉ allowed_ports p;
  po_redirects : forall m, maximum_redirects (redirect_policy p) = Some m -> m <> 0 /\ m <= MAX_REDIRECTS;
}.

Record policy_compiles (row : EgressPolicyConfiguration) (p : EgressPolicy) : Prop := {
  pl_id : policy_id p = ep_id row;
  pl_name : policy_name p = ep_name row;
  pl_schemes : lists try_from_url_scheme (ep_allowed_schemes_json row) (allowed_schemes p);
  pl_hosts : lists (host_try_new (Url := Url)) (ep_allowed_hosts_json row) (allowed_hosts p);
  pl_ports : ports_from_str (ep_allowed_ports_json row) = Some (allowed_ports p) /\ NoDup (allowed_ports p);
  pl_cidrs : lists cidr_try_parse (ep_allowed_cidrs_json row) (allowed_cidrs p);
  pl_redirects : redirects_as row (redirect_policy p);
  pl_ok : policy_ok p;
}.

(** The policy that governs an Upstream. *)
Definition governs (cf : ControlPlaneConfiguration) (u : UpstreamConfiguration) (p : EgressPolicy) : Prop :=
  exists row, (row ∈ cf_egress_policies cf) /\ up_egress_policy_id u = Some (ep_id row) /\ policy_compiles row p.

Record egress_publishable (cf : ControlPlaneConfiguration) : Prop := {
  eg_policy_ids : NoDup (ep_id <$> cf_egress_policies cf);
  eg_policy_names : NoDup (ep_name <$> cf_egress_policies cf);
  eg_policies : forall row, row ∈ cf_egress_policies cf -> exists p, policy_compiles row p;
  eg_upstream_ids : NoDup (up_id <$> cf_upstreams cf);
  eg_upstream_policies : forall u, u ∈ cf_upstreams cf ->
    match up_egress_policy_id u with
    | Some i => i ∈ ep_id <$> cf_egress_policies cf
    | None => up_enabled u = false
    end;
  eg_endpoint_ids : NoDup (en_id <$> cf_endpoints cf);
  eg_endpoints : forall e, e ∈ cf_endpoints cf ->
    exists u, (u ∈ cf_upstreams cf) /\ up_id u = en_upstream_id e /\
      (en_enabled e = true -> up_enabled u = true ->
       forall p, governs cf u p -> validate_url_shape (Url := Url) p (en_base_url e) = Ok tt);
}.

Record egress_compiled_as (cf : ControlPlaneConfiguration) (c : CompiledEgressPolicies) : Prop := {
  ea_policies : forall i p, ce_policies c !! i = Some p <->
    exists row, (row ∈ cf_egress_policies cf) /\ ep_id row = i /\ policy_compiles row p;
  ea_upstreams : forall u i, ce_policy_by_upstream c !! u = Some i <->
    exists row, (row ∈ cf_upstreams cf) /\ up_id row = u /\ up_egress_policy_id row = Some i;
}.

(** ** Allow-lists *)

Lemma try_fold_distinct {E F A B} `{EqDecision B} (error : E) (parse : A -> result F B) values :
  (forall v, parse v <> Panic) ->
  decides (try_fold (insert_parsed error parse) values [])
    (exists xs, Forall2 (fun v x => parse v = Ok x) values xs /\ NoDup xs)
    (fun xs => Forall2 (fun v x => parse v = Ok x) values xs /\ NoDup xs).
Proof.
  intros Hpanic. assert (forall acc, NoDup acc -> decides (try_fold (insert_parsed error parse) values acc)
    (exists xs, Forall2 (fun v x => parse v = Ok x) values xs /\ NoDup (acc ++ xs))
    (fun ys => exists xs, ys = acc ++ xs /\ Forall2 (fun v x => parse v = Ok x) values xs /\ NoDup ys)) as Hgen.
  { induction values as [|v values IH]; intros acc Hacc; simpl.
    { split; exists []; rewrite app_nil_r; auto. }
    unfold insert_parsed at 1. specialize (Hpanic v). destruct (parse v) as [x|f|] eqn:Hv; simpl; [| |done].
    2:{ intros (xs & Hxs & _). apply Forall2_cons_inv_l in Hxs as (y & ? & Hy & _). congruence. }
    case_bool_decide as Hin; simpl.
    { intros (xs & Hxs & Hnd). apply Forall2_cons_inv_l in Hxs as (y & ys & Hy & _ & ->).
      rewrite Hv in Hy. simplify_eq. apply NoDup_app in Hnd as (_ & Hd & _). apply (Hd y Hin). set_solver. }
    assert (NoDup (acc ++ [x])) as Hacc'.
    { apply NoDup_app. split; [done|]. split; [set_solver|]. apply NoDup_singleton. }
    eapply decides_weaken; [exact (IH _ Hacc')| |].
    - split.
      + intros (xs & Hxs & Hnd). exists (x :: xs). rewrite <- app_assoc in Hnd. auto.
      + intros (xs & Hxs & Hnd). apply Forall2_cons_inv_l in Hxs as (y & ys & Hy & Hys & ->).
        rewrite Hv in Hy. simplify_eq. exists ys. by rewrite <- app_assoc.
    - intros ys _ (xs & -> & Hxs & Hnd). exists (x :: xs). rewrite <- app_assoc in *. auto. }
  eapply decides_weaken; [apply (Hgen []), NoDup_nil_2|done|]. intros ys _ (xs & -> & Hxs & Hnd). done.
Qed.

(** The parse loops of the string allow-lists. *)
Lemma parse_list_decides {F A} `{EqDecision A} (error e : EgressPolicyCompileError) (parse : string -> result F A) text :
  (forall v, parse v <> Panic) ->
  decides (let? values := ok_or e (strings_from_str text) in try_fold (insert_parsed error parse) values [])
    (exists xs, lists parse text xs) (lists parse text).
Proof.
  intros Hpanic. unfold lists. destruct (strings_from_str text) as [values|]; simpl.
  2:{ by intros (xs & values & Hv & _). }
  eapply decides_weaken; [by apply try_fold_distinct| |].
  - split; [intros (xs & Hxs & Hnd); by exists xs, values|]. intros (xs & vs & Hvs & Hxs & Hnd). simplify_eq. by exists xs.
  - intros xs _ [Hxs Hnd]. by exists values.
Qed.

Lemma scheme_no_panic v : try_from_url_scheme v <> Panic.
Proof. unfold try_from_url_scheme. by repeat case_bool_decide. Qed.

Lemma host_no_panic v : host_try_new (Url := Url) v <> Panic.
Proof. unfold host_try_new. destruct (parse_ip _); [done|]. by destruct (host_parse v) as [[]|]. Qed.

Lemma cidr_no_panic v : cidr_try_parse v <> Panic.
Proof.
  unfold cidr_try_parse. destruct (split_once "/" v) as [[a p]|]; [|done]. destruct (contains "/" p); [done|].
  destruct (parse_ip a) as [[]|]; [| |done]; (destruct (parse_u8 p); simpl; [|done]); by case_match.
Qed.

Lemma parse_ports_decides row :
  decides (parse_ports row)
    (exists xs, ports_from_str (ep_allowed_ports_json row) = Some xs /\ NoDup xs)
    (fun xs => ports_from_str (ep_allowed_ports_json row) = Some xs /\ NoDup xs).
Proof.
  unfold parse_ports. destruct (ports_from_str _) as [values|]; simpl; [|by intros (xs & ? & _)].
  assert (forall xs, Forall2 (fun v x : Z => Ok (E := unit) v = Ok x) values xs <-> values = xs) as Heq.
  { intros xs. split; [|intros ->; by apply Forall_Forall2_diag, Forall_true].
    induction 1 as [|v x vs xs [= ->] _ ->]; done. }
  eapply decides_weaken; [by apply try_fold_distinct| |].
  - setoid_rewrite Heq. naive_solver.
  - intros xs _. cbv beta. rewrite Heq. by intros [-> Hnd].
Qed.

Lemma parse_redirect_decides row :
  decides (parse_redirect_policy row) (exists p, redirects_as row p) (redirects_as row).
Proof.
  unfold parse_redirect_policy, u8_try_from, redirects_as.
  destruct (Z.leb_spec 0 (ep_max_redirects row)), (Z.leb_spec (ep_max_redirects row) 255); simpl;
    destruct (ep_redirect_mode row); simpl; try destruct (Z.eqb_spec (ep_max_redirects row) 0); simpl;
    try (intros (p & ? & _); lia); (split; [eexists|]; (split; [lia|done])).
Qed.

Lemma policy_try_new_decides p :
  decides (policy_try_new p) (policy_ok p) (fun q => q = p).
Proof.
  unfold policy_try_new. destruct (is_blank (policy_name p)) eqn:Hb; [intros []; congruence|].
  do 4 (case_bool_decide; [by intros []|]).
  assert ((forall m, maximum_redirects (redirect_policy p) = Some m -> m <> 0 /\ m <= MAX_REDIRECTS) -> policy_ok p) as Hok
    by (intros; by constructor).
  destruct (maximum_redirects (redirect_policy p)) as [m|] eqn:Hm; [|split; [by apply Hok|done]].
  unfold MAX_REDIRECTS in *. destruct (Z.eqb_spec m 0), (Z.ltb_spec 10 m); simpl;
    try (intros [_ _ _ _ _ Hred]; specialize (Hred m Hm); unfold MAX_REDIRECTS in Hred; lia).
  split; [|done]. apply Hok. intros m0 Hm0. simplify_eq. lia.
Qed.

Lemma lists_unique {F A} (parse : string -> result F A) text xs ys :
  lists parse text xs -> lists parse text ys -> xs = ys.
Proof.
  intros (vs & Hvs & Hxs & _) (ws & Hws & Hys & _). rewrite Hvs in Hws. simplify_eq. clear Hvs.
  revert ys Hys. induction Hxs as [|v x vs xs Hv _ IH]; intros ys Hys.
  - by apply Forall2_nil_inv_l in Hys.
  - apply Forall2_cons_inv_l in Hys as (y & zs & Hy & Hzs & ->). f_equal; [congruence|auto].
Qed.

Lemma redirects_unique row p q : redirects_as row p -> redirects_as row q -> p = q.
Proof. unfold redirects_as. destruct (ep_redirect_mode row); naive_solver. Qed.

Lemma policy_unique row p q : policy_compiles row p -> policy_compiles row q -> p = q.
Proof.
  intros [] []. destruct p, q; simpl in *. f_equal; try congruence; try (by eapply lists_unique).
  - naive_solver.
  - by eapply redirects_unique.
Qed.

Lemma compile_policy_decides row :
  decides (compile_policy row) (exists p, policy_compiles row p) (policy_compiles row).
Proof.
  unfold compile_policy.
  pose proof (parse_list_decides (egress_error InvalidPolicyValue (as_str (ep_id row)))
    (egress_error InvalidPolicyJson (as_str (ep_id row))) _ (ep_allowed_schemes_json row) scheme_no_panic) as Hs.
  pose proof (parse_list_decides (egress_error InvalidPolicyValue (as_str (ep_id row)))
    (egress_error InvalidPolicyJson (as_str (ep_id row))) _ (ep_allowed_hosts_json row) host_no_panic) as Hh.
  pose proof (parse_ports_decides row) as Hp.
  pose proof (parse_list_decides (egress_error InvalidPolicyValue (as_str (ep_id row)))
    (egress_error InvalidPolicyJson (as_str (ep_id row))) _ (ep_allowed_cidrs_json row) cidr_no_panic) as Hc.
  pose proof (parse_redirect_decides row) as Hr.
  fold (parse_string_array (ep_allowed_schemes_json row) row) (parse_schemes row) in Hs.
  fold (parse_string_array (ep_allowed_hosts_json row) row) (parse_hosts row) in Hh.
  fold (parse_string_array (ep_allowed_cidrs_json row) row) (parse_cidrs row) in Hc.
  destruct (parse_schemes row) as [schemes| |]; simpl in *; [|intros [p []]; eauto|done].
  destruct (parse_hosts row) as [hosts| |]; simpl in *; [|intros [p []]; eauto|done].
  destruct (parse_ports row) as [ports| |]; simpl in *; [|intros [p []]; eauto|done].
  destruct (parse_cidrs row) as [cidrs| |]; simpl in *; [|intros [p []]; eauto|done].
  destruct (parse_redirect_policy row) as [redirect| |]; simpl in *; [|intros [p []]; eauto|done].
  pose proof (policy_try_new_decides (mkPolicy (ep_id row) (ep_name row) schemes hosts ports cidrs redirect)) as Hnew.
  destruct (policy_try_new _) as [p| |]; simpl in *; [| |done].
  - destruct Hnew as [Hok ->]. assert (policy_compiles row (mkPolicy (ep_id row) (ep_name row) schemes hosts ports cidrs redirect))
      by (constructor; simpl; tauto). eauto.
  - intros [p [Hid Hname Hs' Hh' Hp' Hc' Hr' Hok]]. apply Hnew.
    assert (mkPolicy (ep_id row) (ep_name row) schemes hosts ports cidrs redirect = p) as ->; [|done].
    destruct Hp as [_ [Hp _]], Hp' as [Hp' _], Hs as [_ Hs], Hh as [_ Hh], Hc as [_ Hc], Hr as [_ Hr]. destruct p; simpl in *.
    f_equal; [done|done|by eapply lists_unique|by eapply lists_unique|congruence|by eapply lists_unique|].
    by eapply redirects_unique.
Qed.

(** ** The three loops *)

(** The policies of the rows seen so far. *)
Definition policies_of (rows : list EgressPolicyConfiguration) : gmap (Id KEgressPolicy) EgressPolicy :=
  omap (fun row => to_option (compile_policy row)) (by_key ep_id rows).

Definition policy_row_ok (pre : list EgressPolicyConfiguration) (row : EgressPolicyConfiguration) : Prop :=
  (ep_id row ∉ ep_id <$> pre) /\ (ep_name row ∉ ep_name <$> pre) /\ exists p, policy_compiles row p.

Lemma compile_policy_iff row p : to_option (compile_policy row) = Some p <-> policy_compiles row p.
Proof.
  pose proof (compile_policy_decides row) as Hd. destruct (compile_policy row) as [q| |]; simpl in *; [| |done].
  - destruct Hd as [_ Hq]. split; [by intros [= <-]|]. intros Hp. f_equal. by eapply policy_unique.
  - split; [done|]. intros Hp. exfalso. eauto.
Qed.

Lemma policies_of_lookup rows i p :
  NoDup (ep_id <$> rows) ->
  policies_of rows !! i = Some p <-> exists row, (row ∈ rows) /\ ep_id row = i /\ policy_compiles row p.
Proof.
  intros Hnd. unfold policies_of. rewrite lookup_omap, bind_Some. setoid_rewrite (by_key_Some ep_id rows Hnd).
  setoid_rewrite compile_policy_iff. naive_solver.
Qed.

Lemma policies_of_is_Some rows i :
  NoDup (ep_id <$> rows) -> (forall row, row ∈ rows -> exists p, policy_compiles row p) ->
  is_Some (policies_of rows !! i) <-> i ∈ ep_id <$> rows.
Proof.
  intros Hnd Hall. rewrite list_elem_of_fmap. unfold is_Some. setoid_rewrite (policies_of_lookup rows i); [|done]. split.
  - intros (p & row & Hin & <- & _). by exists row.
  - intros (row & -> & Hin). destruct (Hall row Hin) as [p Hp]. by exists p, row.
Qed.

Lemma policy_rows_spec rows :
  each_row policy_row_ok rows <->
  NoDup (ep_id <$> rows) /\ NoDup (ep_name <$> rows) /\ Forall (fun row => exists p, policy_compiles row p) rows.
Proof. unfold policy_row_ok. by rewrite !each_row_and, !each_row_nodup, each_row_Forall. Qed.

Lemma policies_decides rows :
  decides (try_fold add_policy rows (∅, ∅))
    (NoDup (ep_id <$> rows) /\ NoDup (ep_name <$> rows) /\ Forall (fun row => exists p, policy_compiles row p) rows)
    (fun acc => acc.1 = policies_of rows).
Proof.
  eapply decides_weaken; [|apply policy_rows_spec|].
  - assert ((∅, ∅) = (policies_of [], list_to_set (ep_name <$> []) : gset string)) as ->
      by (unfold policies_of, by_key; simpl; by rewrite omap_empty).
    apply (try_fold_decides add_policy policy_row_ok (fun pre => (policies_of pre, list_to_set (ep_name <$> pre)))).
    intros pre row post -> Hpre. apply policy_rows_spec in Hpre as (Hids & Hnames & Hall). rewrite Forall_forall in Hall.
    unfold add_policy. simpl. apply decides_guard.
    { rewrite bool_decide_eq_false, policies_of_is_Some by done. done. }
    intros Hnew. apply decides_guard.
    { rewrite bool_decide_eq_false, elem_of_list_to_set. done. }
    intros _. pose proof (compile_policy_decides row) as Hd.
    destruct (compile_policy row) as [p| |] eqn:Hp; simpl in *; [|done|done].
    split; [apply Hd|]. f_equal.
    + unfold policies_of. rewrite by_key_snoc. erewrite omap_insert_Some; [done|]. by rewrite Hp.
    + rewrite fmap_app, list_to_set_app_L. simpl. set_solver.
  - intros acc _ ->. done.
Qed.

Definition upstream_row_ok (policies : gmap (Id KEgressPolicy) EgressPolicy) (pre : list UpstreamConfiguration)
    (u : UpstreamConfiguration) : Prop :=
  (up_id u ∉ up_id <$> pre) /\
  match up_egress_policy_id u with Some i => is_Some (policies !! i) | None => up_enabled u = false end.

Lemma upstreams_decides policies rows :
  decides (try_fold (add_upstream policies) rows (∅, ∅))
    (NoDup (up_id <$> rows) /\
     Forall (fun u => match up_egress_policy_id u with Some i => is_Some (policies !! i) | None => up_enabled u = false end) rows)
    (fun acc => acc = (by_key up_id rows, omap up_egress_policy_id (by_key up_id rows))).
Proof.
  eapply decides_iff.
  - assert ((∅, ∅) = (by_key up_id [], omap up_egress_policy_id (by_key up_id []))) as ->
      by (unfold by_key; simpl; by rewrite omap_empty).
    apply (try_fold_decides (add_upstream policies) (upstream_row_ok policies)
             (fun pre => (by_key up_id pre, omap up_egress_policy_id (by_key up_id pre)))).
    intros pre u post -> _. unfold add_upstream. simpl. apply decides_guard.
    { rewrite bool_decide_eq_false, by_key_is_Some. done. }
    intros Hnew. rewrite by_key_snoc. destruct (up_egress_policy_id u) as [i|] eqn:Hi.
    + case_bool_decide; simpl; [|done]. split; [done|]. f_equal. by erewrite omap_insert_Some.
    + destruct (up_enabled u); simpl; [done|]. split; [done|]. f_equal.
      rewrite omap_insert, Hi. apply by_key_None in Hnew.
      by rewrite delete_id by (by rewrite lookup_omap, Hnew).
  - unfold upstream_row_ok. by rewrite each_row_and, each_row_nodup, each_row_Forall.
Qed.

Definition endpoint_row_ok (policies : gmap (Id KEgressPolicy) EgressPolicy)
    (upstreams : gmap UpstreamId UpstreamConfiguration) (e : EndpointConfiguration) : Prop :=
  exists u, upstreams !! en_upstream_id e = Some u /\
    (en_enabled e = true -> up_enabled u = true ->
     exists i p, up_egress_policy_id u = Some i /\ policies !! i = Some p
       /\ validate_url_shape (Url := Url) p (en_base_url e) = Ok tt).

Lemma shape_no_panic p raw : validate_url_shape (Url := Url) p raw <> Panic.
Proof.
  unfold validate_url_shape, parse_url. apply bind_no_panic; [|done]. apply bind_no_panic; [apply ok_or_no_panic|].
  intros url _. case_match; [done|]. case_match; [done|]. apply bind_no_panic; [apply scheme_no_panic|].
  intros scheme _. case_match; [done|]. apply bind_no_panic; [apply ok_or_no_panic|]. intros text _.
  apply bind_no_panic; [pose proof (host_no_panic text); by destruct (host_try_new text)|].
  intros host _. case_match; [done|]. apply bind_no_panic; [apply ok_or_no_panic|]. intros port _. by case_match.
Qed.

Lemma endpoint_decides policies upstreams ids e :
  decides (add_endpoint policies upstreams (omap up_egress_policy_id upstreams) ids e)
    ((en_id e ∉ ids) /\ endpoint_row_ok policies upstreams e) (fun ids' => ids' = {[ en_id e ]} ∪ ids).
Proof.
  unfold add_endpoint. apply decides_guard; [by rewrite bool_decide_eq_false|]. intros _. unfold endpoint_row_ok.
  rewrite lookup_omap. destruct (upstreams !! en_upstream_id e) as [u|]; simpl; [|by intros (u & ? & _)].
  destruct (en_enabled e), (up_enabled u) eqn:Hu; simpl;
    [|split; [exists u; split; [done|congruence]|done]..].
  destruct (up_egress_policy_id u) as [i|] eqn:Hi; simpl.
  2:{ intros (u' & [= <-] & He). destruct (He eq_refl Hu) as (i & p & ? & _). congruence. }
  destruct (policies !! i) as [p|] eqn:Hp; simpl.
  2:{ intros (u' & [= <-] & He). destruct (He eq_refl Hu) as (j & p & ? & Hj & _). congruence. }
  pose proof (shape_no_panic p (en_base_url e)). destruct (validate_url_shape p (en_base_url e)) as [[]| |] eqn:Hs; simpl; [| |done].
  - split; [|done]. exists u. split; [done|]. intros _ _. by exists i, p.
  - intros (u' & [= <-] & He). destruct (He eq_refl Hu) as (j & q & ? & Hj & Hq). simplify_eq. congruence.
Qed.

Lemma endpoints_decides policies upstreams rows :
  decides (try_fold (add_endpoint policies upstreams (omap up_egress_policy_id upstreams)) rows ∅)
    (NoDup (en_id <$> rows) /\ Forall (endpoint_row_ok policies upstreams) rows) (fun _ => True).
Proof.
  pose proof (try_fold_decides (add_endpoint policies upstreams (omap up_egress_policy_id upstreams))
    (fun pre e => (en_id e ∉ en_id <$> pre) /\ endpoint_row_ok policies upstreams e)
    (fun pre => list_to_set (en_id <$> pre) : gset EndpointId) rows) as Hd. simpl in Hd.
  eapply decides_weaken; [apply Hd| |].
  - intros pre e post -> _. eapply decides_weaken; [apply endpoint_decides|by rewrite elem_of_list_to_set|].
    intros ids _ ->. rewrite fmap_app, list_to_set_app_L. simpl. set_solver.
  - by rewrite each_row_and, each_row_nodup, each_row_Forall.
  - done.
Qed.

Lemma egress_publishable_iff cf :
  (NoDup (ep_id <$> cf_egress_policies cf) /\ NoDup (ep_name <$> cf_egress_policies cf)
   /\ Forall (fun row => exists p, policy_compiles row p) (cf_egress_policies cf)) /\
  (NoDup (up_id <$> cf_upstreams cf) /\
   Forall (fun u => match up_egress_policy_id u with
                    | Some i => is_Some (policies_of (cf_egress_policies cf) !! i)
                    | None => up_enabled u = false
                    end) (cf_upstreams cf)) /\
  (NoDup (en_id <$> cf_endpoints cf) /\
   Forall (endpoint_row_ok (policies_of (cf_egress_policies cf)) (by_key up_id (cf_upstreams cf))) (cf_endpoints cf)) <->
  egress_publishable cf.
Proof.
  split.
  - intros ((Hids & Hnames & Hall) & (Huids & Hups) & (Heids & Hends)).
    rewrite Forall_forall in Hall. rewrite Forall_forall in Hups. rewrite Forall_forall in Hends. constructor; try done.
    + intros u Hu. specialize (Hups u Hu). destruct (up_egress_policy_id u); [|done]. by rewrite policies_of_is_Some in Hups.
    + intros e He. destruct (Hends e He) as (u & Hu & Hen). apply by_key_Some in Hu as [Hu Hid]; [|done].
      exists u. split; [done|]. split; [done|]. intros H1 H2 p (row & Hrow & Hpol & Hcomp).
      destruct (Hen H1 H2) as (i & q & Hi & Hq & Hshape). simplify_eq. apply policies_of_lookup in Hq as (row' & Hr' & Heq & Hq); [|done].
      assert (row' = row) as ->.
      { assert (by_key ep_id (cf_egress_policies cf) !! ep_id row = Some row') as Ha by (by apply by_key_Some).
        assert (by_key ep_id (cf_egress_policies cf) !! ep_id row = Some row) as Hb by (by apply by_key_Some). congruence. }
      by rewrite (policy_unique row p q).
  - intros []. split; [|split]; [rewrite Forall_forall; done|split; [done|]|split; [done|]].
    + rewrite Forall_forall. intros u Hu. specialize (eg_upstream_policies0 u Hu). destruct (up_egress_policy_id u); [|done].
      by rewrite policies_of_is_Some.
    + rewrite Forall_forall. intros e He. destruct (eg_endpoints0 e He) as (u & Hu & Hid & Hen). exists u.
      split; [by apply by_key_Some|]. intros H1 H2. specialize (eg_upstream_policies0 u Hu).
      destruct (up_egress_policy_id u) as [i|] eqn:Hi; [|congruence]. apply list_elem_of_fmap in eg_upstream_policies0 as (row & -> & Hrow).
      destruct (eg_policies0 row Hrow) as [p Hp]. exists (ep_id row), p. split; [done|]. split.
      * apply policies_of_lookup; [done|]. by exists row.
      * apply Hen; [done..|]. by exists row.
Qed.

Lemma egress_compile_decides cf : decides (compile cf) (egress_publishable cf) (egress_compiled_as cf).
Proof.
  eapply decides_iff; [|apply egress_publishable_iff]. unfold compile.
  apply decides_bind with (Q := fun acc => acc.1 = policies_of (cf_egress_policies cf)); [apply policies_decides|].
  intros [policies names] (Hids & _) Hpol. simpl in Hpol. subst policies.
  eapply decides_bind; [apply upstreams_decides|]. intros acc [Huids _] ->. simpl.
  eapply decides_iff; [eapply decides_bind; [apply endpoints_decides|]|].
  - intros _ _ _. apply decides_ok. constructor; simpl.
    + intros i p. by apply policies_of_lookup.
    + intros u i. rewrite lookup_omap, bind_Some. setoid_rewrite (by_key_Some up_id (cf_upstreams cf) Huids). naive_solver.
  - tauto.
Qed.

(** The egress compiler accepts exactly the publishable graphs and never
    panics: policy identities and names are unique, each row's texts list valid
    distinct schemes, hosts, ports and blocks that form a policy, every Upstream
    reference resolves and an enabled Upstream has one, and the base URL of every
    enabled Endpoint of an enabled Upstream has the shape its policy admits.  What
    it returns is the policy of every row and the reference of every Upstream. *)
Lemma egress_compile_exact cf : decides (compile cf) (egress_publishable cf) (egress_compiled_as cf).
Proof. apply egress_compile_decides. Qed.

Lemma cidr_parse_ok v c : cidr_try_parse v = Ok c -> cidr_ok c.
Proof.
  unfold cidr_try_parse. destruct (split_once "/" v) as [[a l]|]; [|done]. destruct (contains "/" l); [done|].
  destruct (parse_ip a) as [ip|] eqn:Hip; simpl; [|done]. destruct (parse_u8 l) as [len|] eqn:Hlen; simpl; [|done].
  intros Hc. exists ip, len. split; [by eapply parse_ip_range|]. split; [|done]. apply parse_u8_range in Hlen. lia.
Qed.

Lemma compiled_cidrs_ok row p : policy_compiles row p -> Forall cidr_ok (allowed_cidrs p).
Proof.
  intros [_ _ _ _ _ (values & _ & Hall & _) _ _]. eapply Forall2_Forall_r; [exact Hall|].
  apply Forall_true. intros v c. apply cidr_parse_ok.
Qed.

(** Behind an accepted configuration every enabled Endpoint of an enabled
    Upstream is guarded: the runtime finds the policy of its Upstream, the policy
    is well formed and admits the shape of the Endpoint's base URL, and every
    target that policy ever admits, whatever the URL and the DNS answer, satisfies
    all of its scheme, host, port and address rules.  Nothing about the policy is
    assumed; the parser guarantees its blocks are canonical. *)
Lemma enabled_endpoint_is_guarded cf c e u :
  compile cf = Ok c -> e ∈ cf_endpoints cf -> u ∈ cf_upstreams cf -> up_id u = en_upstream_id e ->
  en_enabled e = true -> up_enabled u = true ->
  exists p, policy_for_upstream c (en_upstream_id e) = Some p /\ policy_ok p
    /\ validate_url_shape (Url := Url) p (en_base_url e) = Ok tt
    /\ forall raw resolve t, admit_url (Url := Url) p raw resolve = Ok t -> admitted p t.
Proof.
  intros Hc He Hu Hid Hee Hue. pose proof (egress_compile_decides cf) as Hd. rewrite Hc in Hd.
  destruct Hd as [[] []]. destruct (eg_endpoints0 e He) as (u' & Hu' & Hid' & Hshape).
  assert (u' = u) as ->.
  { assert (by_key up_id (cf_upstreams cf) !! en_upstream_id e = Some u') as Ha by (by apply by_key_Some).
    assert (by_key up_id (cf_upstreams cf) !! en_upstream_id e = Some u) as Hb by (by apply by_key_Some). congruence. }
  specialize (eg_upstream_policies0 u Hu). destruct (up_egress_policy_id u) as [i|] eqn:Hi; [|congruence].
  apply list_elem_of_fmap in eg_upstream_policies0 as (row & -> & Hrow). destruct (eg_policies0 row Hrow) as [p Hp].
  exists p. split; [|split; [by destruct Hp|split]].
  - unfold policy_for_upstream. rewrite (proj2 (ea_upstreams0 _ (ep_id row))) by (by exists u).
    apply ea_policies0. by exists row.
  - apply Hshape; [done..|]. by exists row.
  - intros raw resolve t Ht. eapply admitted_target_ok; [|exact Ht]. by eapply compiled_cidrs_ok.
Qed.
End Compiler.

(** ** Witness *)

Section Witness.
#[local] Instance ex_json : JsonText := {
  value_from_str := fun _ => None;
  strings_from_str := fun s => match_text [("schemes", ["https"]); ("hosts", ["relay.example"; "10.1.2.3"]);
                                           ("cidrs", ["10.1.7.7/16"; "8.8.8.0/24"])] s;
  ports_from_str := fun s => match_text [("ports", [443])] s;
}.
#[local] Existing Instance ex_crate.

Definition ex_policy_row : EgressPolicyConfiguration :=
  mkEgressPolicyRow (mkId "policy") "default" "schemes" "hosts" "ports" "cidrs" StoredSameOrigin 2.
Definition ex_upstream_row : UpstreamConfiguration :=
  mkUpstream (mkId "up") "relay" "relay" true "[]" (Some (mkId "policy")).
Definition ex_endpoint_row : EndpointConfiguration :=
  mkEndpoint (mkId "end") (mkId "up") "adapter" "openai" "https://relay.example/v1" "/chat" None TransportSse true.
Definition ex_egress_configuration : ControlPlaneConfiguration :=
  mkConfiguration (mkConfigVersion (mkVersionId "v1") None VersionDraft 0 0 "first") [ex_policy_row] [ex_upstream_row]
    [ex_endpoint_row] [] [] [] [] [] [] [] [] [].
Definition ex_compiled : CompiledEgressPolicies :=
  match compile (Url := TableUrl) ex_egress_configuration with Ok c => c | _ => mkCompiledPolicies ∅ ∅ end.

Lemma egress_compile_exact_witness :
  egress_publishable (Url := TableUrl) ex_egress_configuration
  /\ egress_compiled_as (Url := TableUrl) ex_egress_configuration ex_compiled.
Proof.
  pose proof (egress_compile_exact (Url := TableUrl) ex_egress_configuration) as H.
  unfold ex_compiled. destruct (compile (Url := TableUrl) ex_egress_configuration) as [c|e|] eqn:E;
    [exact H|vm_compute in E; discriminate E..].
Defined.

Lemma enabled_endpoint_is_guarded_witness :
  exists p, policy_for_upstream ex_compiled (mkId "up") = Some p
    /\ forall raw resolve t, admit_url (Url := TableUrl) p raw resolve = Ok t -> admitted p t.
Proof.
  destruct (enabled_endpoint_is_guarded (Url := TableUrl) ex_egress_configuration ex_compiled ex_endpoint_row ex_upstream_row)
    as (p & Hp & _ & _ & Hadm); [vm_compute; reflexivity|apply list_elem_of_singleton; reflexivity..|reflexivity|reflexivity|reflexivity|].
  exact (ex_intro _ p (conj Hp Hadm)).
Defined.
End Witness.
End Egress.
