(* ===== verification/RouteCompiler.v ===== *)
(** * The route compiler

    Models [crates/gateway-control/src/route_compiler.rs]: the validation of one
    stored configuration graph against catalog and capability evidence, and the
    secret-free routes, public models, aliases and access groups it compiles to.
    Each function of the file is a definition; a loop with early returns is a
    [try_fold] over its rows, so the first violation decides the error. *)

From S2P Require Import Prelude Core Catalog ApiFormat ControlPlane.
Local Open Scope string_scope.
Local Open Scope list_scope.
Local Open Scope Z_scope.

(** ** Results and errors *)

Inductive RouteCompileErrorCode : Type :=
| DuplicateUpstream | DuplicateEndpoint | DuplicateEndpointApiFormat | UnsupportedEndpointApiFormat
| MissingEndpointUpstream | DuplicateCredential | MissingCredentialUpstream | MissingBindingEndpoint
| MissingBindingCredential | BindingUpstreamMismatch | DuplicatePublicModel | DuplicatePublicModelName
| InvalidPublicModelCapabilities | DuplicateAlias | AliasConflictsPublicModel | MissingAliasPublicModel
| DuplicateRoute | DuplicateRouteForPublicModel | MissingRoutePublicModel | DuplicateCandidate
| DuplicateCandidateTarget | MissingCandidateRoute | MissingCandidateEndpoint | InvalidCandidateCapabilities
| ActiveCandidateDisabledEndpoint | ActiveCandidateDisabledUpstream | MissingEndpointCapabilityProfile
| CandidateCapabilityEscalation | CandidateCapabilityMismatch | CatalogModelNotEligible
| MissingActiveCredentialBinding | DuplicateAccessGroup | MissingAccessGroup | MissingAccessGroupRoute
| ActivePublicModelMissingRoute | RouteHasNoHardEligibleCandidate | AccessGroupRouteNotPublishable.

Record RouteCompileError : Type := route_error { error_code : RouteCompileErrorCode; error_subject : string }.

Inductive CatalogAdmission : Type := AdmissionListed (state : CatalogModelState) | AdmissionUnlisted.

Record CompiledRouteCandidate : Type := mkCompiledCandidate {
  cc_id : RouteCandidateId;
  cc_endpoint_id : EndpointId;
  cc_upstream_id : UpstreamId;
  cc_endpoint_api_format : string;
  cc_upstream_model : string;
  cc_transform_mode : TransformMode;
  cc_priority : Z;
  cc_weight : Z;
  cc_effective_capabilities : CapabilitySet;
  cc_catalog_admission : CatalogAdmission;
  cc_active_binding_count : Z;
}.

Record CompiledRoute : Type := mkCompiledRoute {
  cro_id : RouteId;
  cro_public_model_id : PublicModelId;
  cro_policy : RoutePolicy;
  cro_max_attempts : Z;
  cro_bootstrap_timeout_ms : Z;
  cro_candidates : list CompiledRouteCandidate;
}.

Record CompiledPublicModel : Type := mkCompiledModel {
  cm_id : PublicModelId;
  cm_model_name : string;
  cm_display_name : string;
  cm_required_capabilities : CapabilitySet;
  cm_route_id : RouteId;
}.

Record CompiledAccessGroup : Type := mkCompiledGroup {
  cg_id : AccessGroupId;
  cg_name : string;
  cg_allowed_route_ids : gset RouteId;
}.

Record CompiledRouteConfiguration : Type := mkCompiled {
  co_config_version_id : ConfigVersionId;
  co_public_models : gmap string CompiledPublicModel;
  co_aliases : gmap string PublicModelId;
  co_routes : gmap RouteId CompiledRoute;
  co_access_groups : gmap AccessGroupId CompiledAccessGroup;
}.

Record RouteIndex : Type := mkRouteIndex {
  ri_by_id : gmap RouteId ModelRouteConfiguration;
  ri_route_for_public_model : gmap PublicModelId RouteId;
}.

Record CandidateIndex : Type := mkCandidateIndex {
  ci_by_id : gmap RouteCandidateId RouteCandidateConfiguration;
  ci_by_route : gmap RouteId (list RouteCandidateConfiguration);
}.

Record CandidateOverride : Type := mkOverride {
  ov_asserted : gset SemanticCapability;
  ov_removed : gset SemanticCapability;
  ov_allow_unlisted_model : bool;
}.

Record CandidateCompilationContext : Type := mkContext {
  cx_candidates : CandidateIndex;
  cx_routes : RouteIndex;
  cx_public_models : gmap PublicModelId PublicModelConfiguration;
  cx_required_capabilities : gmap PublicModelId CapabilitySet;
  cx_endpoints : gmap EndpointId EndpointConfiguration;
  cx_upstreams : gmap UpstreamId UpstreamConfiguration;
  cx_bindings : gmap EndpointId (list EndpointCredentialBindingConfiguration);
  cx_credentials : gmap CredentialId CredentialConfiguration;
}.

Record RouteCompiler : Type := mkCompiler {
  compiler_catalog : CatalogView;
  compiler_endpoint_capabilities : EndpointCapabilityView;
}.

Abbreviation CompileM A := (result RouteCompileError A).

(** [entry(k).or_default().push(x)]. *)
Definition push_entry {K A} `{Countable K} (k : K) (x : A) (m : gmap K (list A)) : gmap K (list A) :=
  <[k := default [] (m !! k) ++ [x]]> m.

(** ** Indexing *)

Definition index_upstream (m : gmap UpstreamId UpstreamConfiguration) (u : UpstreamConfiguration)
  : CompileM (gmap UpstreamId UpstreamConfiguration) :=
  if bool_decide (is_Some (m !! up_id u)) then Err (route_error DuplicateUpstream (as_str (up_id u)))
  else Ok (<[up_id u := u]> m).

Definition index_upstreams (rows : list UpstreamConfiguration) : CompileM (gmap UpstreamId UpstreamConfiguration) :=
  try_fold index_upstream rows ∅.

Definition index_endpoint (upstreams : gmap UpstreamId UpstreamConfiguration)
    (acc : gmap EndpointId EndpointConfiguration * gset (UpstreamId * string)) (e : EndpointConfiguration)
  : CompileM (gmap EndpointId EndpointConfiguration * gset (UpstreamId * string)) :=
  if negb (bool_decide (is_Some (upstreams !! en_upstream_id e)))
  then Err (route_error MissingEndpointUpstream (as_str (en_id e)))
  else match format_parse (en_api_format e) with
       | None => Err (route_error UnsupportedEndpointApiFormat (as_str (en_id e)))
       | Some format =>
           if negb (serves format (en_adapter_id e))
           then Err (route_error UnsupportedEndpointApiFormat (as_str (en_id e)))
           else if bool_decide (is_Some (acc.1 !! en_id e))
           then Err (route_error DuplicateEndpoint (as_str (en_id e)))
           else if bool_decide ((en_upstream_id e, en_api_format e) ∈ acc.2)
           then Err (route_error DuplicateEndpointApiFormat (as_str (en_id e)))
           else Ok (<[en_id e := e]> acc.1, {[ (en_upstream_id e, en_api_format e) ]} ∪ acc.2)
       end.

Definition index_endpoints (rows : list EndpointConfiguration) (upstreams : gmap UpstreamId UpstreamConfiguration)
  : CompileM (gmap EndpointId EndpointConfiguration) :=
  let? acc := try_fold (index_endpoint upstreams) rows (∅, ∅) in Ok acc.1.

Definition index_credential (upstreams : gmap UpstreamId UpstreamConfiguration)
    (m : gmap CredentialId CredentialConfiguration) (c : CredentialConfiguration)
  : CompileM (gmap CredentialId CredentialConfiguration) :=
  if negb (bool_decide (is_Some (upstreams !! cr_upstream_id c)))
  then Err (route_error MissingCredentialUpstream (as_str (cr_id c)))
  else if bool_decide (is_Some (m !! cr_id c)) then Err (route_error DuplicateCredential (as_str (cr_id c)))
  else Ok (<[cr_id c := c]> m).

Definition index_credentials (rows : list CredentialConfiguration) (upstreams : gmap UpstreamId UpstreamConfiguration)
  : CompileM (gmap CredentialId CredentialConfiguration) := try_fold (index_credential upstreams) rows ∅.

Definition validate_binding (endpoints : gmap EndpointId EndpointConfiguration)
    (credentials : gmap CredentialId CredentialConfiguration)
    (m : gmap EndpointId (list EndpointCredentialBindingConfiguration)) (b : EndpointCredentialBindingConfiguration)
  : CompileM (gmap EndpointId (list EndpointCredentialBindingConfiguration)) :=
  let? endpoint := ok_or (route_error MissingBindingEndpoint (as_str (bn_endpoint_id b)))
                     (endpoints !! bn_endpoint_id b) in
  let? credential := ok_or (route_error MissingBindingCredential (as_str (bn_credential_id b)))
                       (credentials !! bn_credential_id b) in
  if negb (bool_decide (bn_upstream_id b = en_upstream_id endpoint))
     || negb (bool_decide (bn_upstream_id b = cr_upstream_id credential))
  then Err (route_error BindingUpstreamMismatch (as_str (bn_credential_id b)))
  else Ok (push_entry (bn_endpoint_id b) b m).

Definition validate_bindings (rows : list EndpointCredentialBindingConfiguration)
    (endpoints : gmap EndpointId EndpointConfiguration) (credentials : gmap CredentialId CredentialConfiguration)
  : CompileM (gmap EndpointId (list EndpointCredentialBindingConfiguration)) :=
  try_fold (validate_binding endpoints credentials) rows ∅.

Definition index_public_model (acc : gmap PublicModelId PublicModelConfiguration * gset string)
    (p : PublicModelConfiguration) : CompileM (gmap PublicModelId PublicModelConfiguration * gset string) :=
  if bool_decide (is_Some (acc.1 !! pc_id p)) then Err (route_error DuplicatePublicModel (as_str (pc_id p)))
  else if bool_decide (pc_model_name p ∈ acc.2) then Err (route_error DuplicatePublicModelName (pc_model_name p))
  else Ok (<[pc_id p := p]> acc.1, {[ pc_model_name p ]} ∪ acc.2).

Definition index_public_models (rows : list PublicModelConfiguration)
  : CompileM (gmap PublicModelId PublicModelConfiguration) :=
  let? acc := try_fold index_public_model rows (∅, ∅) in Ok acc.1.

Definition index_alias (public_models : gmap PublicModelId PublicModelConfiguration)
    (m : gmap string PublicModelId) (a : ModelAliasConfiguration) : CompileM (gmap string PublicModelId) :=
  if negb (bool_decide (is_Some (public_models !! al_public_model_id a)))
  then Err (route_error MissingAliasPublicModel (al_alias a))
  else if bool_decide (al_alias a ∈ (pc_model_name <$> id_values public_models))
  then Err (route_error AliasConflictsPublicModel (al_alias a))
  else if bool_decide (is_Some (m !! al_alias a)) then Err (route_error DuplicateAlias (al_alias a))
  else Ok (<[al_alias a := al_public_model_id a]> m).

Definition index_aliases (rows : list ModelAliasConfiguration)
    (public_models : gmap PublicModelId PublicModelConfiguration) : CompileM (gmap string PublicModelId) :=
  try_fold (index_alias public_models) rows ∅.

Definition index_route (public_models : gmap PublicModelId PublicModelConfiguration)
    (acc : RouteIndex) (r : ModelRouteConfiguration) : CompileM RouteIndex :=
  if negb (bool_decide (is_Some (public_models !! rt_public_model_id r)))
  then Err (route_error MissingRoutePublicModel (as_str (rt_id r)))
  else if bool_decide (is_Some (ri_by_id acc !! rt_id r)) then Err (route_error DuplicateRoute (as_str (rt_id r)))
  else if bool_decide (is_Some (ri_route_for_public_model acc !! rt_public_model_id r))
  then Err (route_error DuplicateRouteForPublicModel (as_str (rt_public_model_id r)))
  else Ok (mkRouteIndex (<[rt_id r := r]> (ri_by_id acc))
             (<[rt_public_model_id r := rt_id r]> (ri_route_for_public_model acc))).

Definition index_routes (rows : list ModelRouteConfiguration)
    (public_models : gmap PublicModelId PublicModelConfiguration) : CompileM RouteIndex :=
  try_fold (index_route public_models) rows (mkRouteIndex ∅ ∅).

Definition index_access_group (m : gmap AccessGroupId AccessGroupConfiguration) (g : AccessGroupConfiguration)
  : CompileM (gmap AccessGroupId AccessGroupConfiguration) :=
  if bool_decide (is_Some (m !! gr_id g)) then Err (route_error DuplicateAccessGroup (as_str (gr_id g)))
  else Ok (<[gr_id g := g]> m).

Definition index_access_groups (rows : list AccessGroupConfiguration)
  : CompileM (gmap AccessGroupId AccessGroupConfiguration) := try_fold index_access_group rows ∅.

Definition validate_grant (groups : gmap AccessGroupId AccessGroupConfiguration) (routes : RouteIndex)
    (m : gmap AccessGroupId (list AccessGroupRouteConfiguration)) (g : AccessGroupRouteConfiguration)
  : CompileM (gmap AccessGroupId (list AccessGroupRouteConfiguration)) :=
  if negb (bool_decide (is_Some (groups !! gt_access_group_id g)))
  then Err (route_error MissingAccessGroup (as_str (gt_access_group_id g)))
  else if negb (bool_decide (is_Some (ri_by_id routes !! gt_route_id g)))
  then Err (route_error MissingAccessGroupRoute (as_str (gt_route_id g)))
  else Ok (push_entry (gt_access_group_id g) g m).

Definition validate_access_group_routes (rows : list AccessGroupRouteConfiguration)
    (groups : gmap AccessGroupId AccessGroupConfiguration) (routes : RouteIndex)
  : CompileM (gmap AccessGroupId (list AccessGroupRouteConfiguration)) :=
  try_fold (validate_grant groups routes) rows ∅.

Section Compiler.
Context `{JsonText}.

(** ** Capability declarations *)

Definition as_object (v : Value) : option (list (string * Value)) :=
  match v with JObject fields => Some fields | _ => None end.

Definition as_bool (v : Value) : option bool :=
  match v with JBool b => Some b | _ => None end.

(** One field of a declaration: its value must be a boolean and its key a
    capability or, where it is allowed, [allow_unlisted_model]. *)
Definition declare_field (error : RouteCompileError) (allow_unlisted_model : bool) (acc : CandidateOverride)
    (field : string * Value) : CompileM CandidateOverride :=
  let? boolean := ok_or error (as_bool field.2) in
  if bool_decide (field.1 = "allow_unlisted_model") then
    if negb allow_unlisted_model then Err error
    else Ok (mkOverride (ov_asserted acc) (ov_removed acc) boolean)
  else
    let? capability := ok_or error (from_json_key field.1) in
    if boolean : bool
    then Ok (mkOverride ({[ capability ]} ∪ ov_asserted acc) (ov_removed acc) (ov_allow_unlisted_model acc))
    else Ok (mkOverride (ov_asserted acc) ({[ capability ]} ∪ ov_removed acc) (ov_allow_unlisted_model acc)).

Definition parse_capability_object (value subject : string) (code : RouteCompileErrorCode)
    (allow_unlisted_model : bool) : CompileM CandidateOverride :=
  let error := route_error code subject in
  let? parsed := ok_or error (value_from_str value) in
  let? object := ok_or error (as_object parsed) in
  let? declared := try_fold (declare_field error allow_unlisted_model) object (mkOverride ∅ ∅ false) in
  if bool_decide (ParallelTools ∈ ov_asserted declared) && bool_decide (Tools ∈ ov_removed declared)
  then Err error else Ok declared.

Definition parse_candidate_override (c : RouteCandidateConfiguration) : CompileM CandidateOverride :=
  parse_capability_object (cn_capability_override_json c) (as_str (cn_id c)) InvalidCandidateCapabilities true.

(** [CapabilitySet::try_new] of the asserted capabilities. *)
Definition required_capabilities_of (p : PublicModelConfiguration) : CompileM CapabilitySet :=
  let? capabilities := parse_capability_object (pc_capabilities_json p) (as_str (pc_id p))
                         InvalidPublicModelCapabilities false in
  map_err (fun _ => route_error InvalidPublicModelCapabilities (as_str (pc_id p)))
    (capabilities_try_new (elements (ov_asserted capabilities))).

Definition parse_public_model (m : gmap PublicModelId CapabilitySet) (p : PublicModelConfiguration)
  : CompileM (gmap PublicModelId CapabilitySet) :=
  let? required := required_capabilities_of p in Ok (<[pc_id p := required]> m).

Definition parse_public_model_capabilities (public_models : gmap PublicModelId PublicModelConfiguration)
  : CompileM (gmap PublicModelId CapabilitySet) :=
  try_fold parse_public_model (id_values public_models) ∅.

(** ** Candidate rows *)

Abbreviation CandidateAcc :=
  (gmap RouteCandidateId RouteCandidateConfiguration * gmap RouteId (list RouteCandidateConfiguration)
   * gset (RouteId * EndpointId * string))%type.

Definition candidate_target (c : RouteCandidateConfiguration) : RouteId * EndpointId * string :=
  (cn_route_id c, cn_endpoint_id c, cn_upstream_model c).

Definition index_candidate (routes : RouteIndex) (endpoints : gmap EndpointId EndpointConfiguration)
    (acc : CandidateAcc) (c : RouteCandidateConfiguration) : CompileM CandidateAcc :=
  if negb (bool_decide (is_Some (ri_by_id routes !! cn_route_id c)))
  then Err (route_error MissingCandidateRoute (as_str (cn_id c)))
  else if negb (bool_decide (is_Some (endpoints !! cn_endpoint_id c)))
  then Err (route_error MissingCandidateEndpoint (as_str (cn_id c)))
  else
    let? _ := parse_candidate_override c in
    if bool_decide (is_Some (acc.1.1 !! cn_id c)) then Err (route_error DuplicateCandidate (as_str (cn_id c)))
    else if bool_decide (candidate_target c ∈ acc.2)
    then Err (route_error DuplicateCandidateTarget (as_str (cn_id c)))
    else Ok (<[cn_id c := c]> acc.1.1, push_entry (cn_route_id c) c acc.1.2, {[ candidate_target c ]} ∪ acc.2).

Definition sort_candidates (l : list RouteCandidateConfiguration) : list RouteCandidateConfiguration :=
  sort_by (fun a b => id_leb (cn_id a) (cn_id b)) l.

Definition index_candidates (rows : list RouteCandidateConfiguration) (routes : RouteIndex)
    (endpoints : gmap EndpointId EndpointConfiguration) : CompileM CandidateIndex :=
  let? acc := try_fold (index_candidate routes endpoints) rows (∅, ∅, ∅) in
  Ok (mkCandidateIndex acc.1.1 (sort_candidates <$> acc.1.2)).

(** ** Active candidates *)

Definition candidate_model (c : RouteCandidateConfiguration) (cx : CandidateCompilationContext)
  : CompileM PublicModelConfiguration :=
  let? route := ok_or (route_error MissingCandidateRoute (as_str (cn_id c)))
                  (ri_by_id (cx_routes cx) !! cn_route_id c) in
  ok_or (route_error MissingRoutePublicModel (as_str (rt_id route))) (cx_public_models cx !! rt_public_model_id route).

Definition candidate_has_active_public_model (c : RouteCandidateConfiguration) (cx : CandidateCompilationContext)
  : CompileM bool :=
  let? public_model := candidate_model c cx in Ok (bool_decide (pc_status public_model = AdminActive)).

Definition required_capabilities_for_candidate (c : RouteCandidateConfiguration) (cx : CandidateCompilationContext)
  : CompileM CapabilitySet :=
  let? public_model := candidate_model c cx in
  ok_or (route_error InvalidPublicModelCapabilities (as_str (pc_id public_model)))
    (cx_required_capabilities cx !! pc_id public_model).

Definition active_candidate_target (c : RouteCandidateConfiguration) (cx : CandidateCompilationContext)
  : CompileM (EndpointConfiguration * UpstreamConfiguration) :=
  let? endpoint := ok_or (route_error MissingCandidateEndpoint (as_str (cn_id c))) (cx_endpoints cx !! cn_endpoint_id c) in
  if negb (en_enabled endpoint) then Err (route_error ActiveCandidateDisabledEndpoint (as_str (cn_id c)))
  else
    let? upstream := ok_or (route_error MissingEndpointUpstream (as_str (en_id endpoint)))
                       (cx_upstreams cx !! en_upstream_id endpoint) in
    if negb (up_enabled upstream) then Err (route_error ActiveCandidateDisabledUpstream (as_str (cn_id c)))
    else Ok (endpoint, upstream).

Definition effective_candidate_capabilities (c : RouteCandidateConfiguration) (required : CapabilitySet)
    (endpoint : EndpointConfiguration) (profiles : EndpointCapabilityView) (ov : CandidateOverride)
  : CompileM CapabilitySet :=
  let? profile := ok_or (route_error MissingEndpointCapabilityProfile (as_str (en_id endpoint)))
                    (capabilities_for profiles (en_id endpoint)) in
  if negb (forallb (supports profile) (elements (ov_asserted ov)))
  then Err (route_error CandidateCapabilityEscalation (as_str (cn_id c)))
  else
    let effective := without profile (elements (ov_removed ov)) in
    if negb (supports_all effective required)
    then Err (route_error CandidateCapabilityMismatch (as_str (cn_id c)))
    else Ok effective.

Definition catalog_admission (catalog : CatalogView) (endpoint : EndpointConfiguration)
    (c : RouteCandidateConfiguration) (allow_unlisted_model : bool) : CompileM CatalogAdmission :=
  match model_state catalog (en_id endpoint) (cn_upstream_model c) with
  | Some state =>
      if state_is_hard_eligible state then Ok (AdmissionListed state)
      else if allow_unlisted_model then Ok AdmissionUnlisted
      else Err (route_error CatalogModelNotEligible (as_str (cn_id c)))
  | None =>
      if allow_unlisted_model then Ok AdmissionUnlisted
      else Err (route_error CatalogModelNotEligible (as_str (cn_id c)))
  end.

(** The Endpoints whose credentials come from a provider-owned account pool. *)
Definition is_native_endpoint (endpoint : EndpointConfiguration) (upstream : UpstreamConfiguration) : bool :=
  (bool_decide (up_kind upstream = "grok-build-native") && bool_decide (en_adapter_id endpoint = "grok.build.responses"))
  || (bool_decide (up_kind upstream = "grok-console-native")
      && bool_decide (en_adapter_id endpoint = "grok.console.responses"))
  || (bool_decide (up_kind upstream = "grok-web-native") && bool_decide (en_adapter_id endpoint = "grok.web.responses")).

Definition binding_is_active (endpoint : EndpointConfiguration) (cx : CandidateCompilationContext)
    (b : EndpointCredentialBindingConfiguration) : bool :=
  bn_enabled b
  && match cx_credentials cx !! bn_credential_id b with
     | Some credential =>
         bool_decide (cr_status credential = CredentialActive)
         && bool_decide (cr_upstream_id credential = en_upstream_id endpoint)
     | None => false
     end.

Definition active_binding_count (endpoint : EndpointConfiguration) (upstream : UpstreamConfiguration)
    (cx : CandidateCompilationContext) : Z :=
  if is_native_endpoint endpoint upstream then 1
  else match cx_bindings cx !! en_id endpoint with
       | None => 0
       | Some bindings => Z.of_nat (length (List.filter (binding_is_active endpoint cx) bindings))
       end.

Definition compile_active_candidate (compiler : RouteCompiler) (c : RouteCandidateConfiguration)
    (cx : CandidateCompilationContext) : CompileM CompiledRouteCandidate :=
  let? required := required_capabilities_for_candidate c cx in
  let? target := active_candidate_target c cx in
  let '(endpoint, upstream) := target in
  let? ov := parse_candidate_override c in
  let? effective := effective_candidate_capabilities c required endpoint
                      (compiler_endpoint_capabilities compiler) ov in
  let? admission := catalog_admission (compiler_catalog compiler) endpoint c (ov_allow_unlisted_model ov) in
  let count := active_binding_count endpoint upstream cx in
  if count =? 0 then Err (route_error MissingActiveCredentialBinding (as_str (cn_id c)))
  else Ok (mkCompiledCandidate (cn_id c) (en_id endpoint) (up_id upstream) (en_api_format endpoint)
             (cn_upstream_model c) (cn_transform_mode c) (cn_priority c) (cn_weight c) effective admission count).

Definition compile_one_candidate (compiler : RouteCompiler) (cx : CandidateCompilationContext)
    (m : gmap RouteCandidateId CompiledRouteCandidate) (c : RouteCandidateConfiguration)
  : CompileM (gmap RouteCandidateId CompiledRouteCandidate) :=
  if negb (cn_enabled c) then Ok m
  else
    let? active := candidate_has_active_public_model c cx in
    if negb active then Ok m
    else let? compiled := compile_active_candidate compiler c cx in Ok (<[cn_id c := compiled]> m).

Definition compile_active_candidates (compiler : RouteCompiler) (cx : CandidateCompilationContext)
  : CompileM (gmap RouteCandidateId CompiledRouteCandidate) :=
  try_fold (compile_one_candidate compiler cx) (id_values (ci_by_id (cx_candidates cx))) ∅.

(** ** Active routes and access groups *)

(** Priority first, identifier second. *)
Definition compiled_leb (a b : CompiledRouteCandidate) : bool :=
  (cc_priority a <? cc_priority b)
  || ((cc_priority a =? cc_priority b) && id_leb (cc_id a) (cc_id b)).

Definition route_candidates_of (candidates : CandidateIndex) (compiled : gmap RouteCandidateId CompiledRouteCandidate)
    (r : RouteId) : list CompiledRouteCandidate :=
  sort_by compiled_leb
    (omap (fun c => compiled !! cn_id c) (List.filter cn_enabled (default [] (ci_by_route candidates !! r)))).

Definition compile_one_route (public_models : gmap PublicModelId PublicModelConfiguration) (candidates : CandidateIndex)
    (compiled_candidates : gmap RouteCandidateId CompiledRouteCandidate) (m : gmap RouteId CompiledRoute)
    (r : ModelRouteConfiguration) : CompileM (gmap RouteId CompiledRoute) :=
  let? public_model := ok_or (route_error MissingRoutePublicModel (as_str (rt_id r)))
                         (public_models !! rt_public_model_id r) in
  if negb (bool_decide (pc_status public_model = AdminActive)) then Ok m
  else
    match route_candidates_of candidates compiled_candidates (rt_id r) with
    | [] => Err (route_error RouteHasNoHardEligibleCandidate (as_str (rt_id r)))
    | route_candidates =>
        Ok (<[rt_id r := mkCompiledRoute (rt_id r) (rt_public_model_id r) (rt_policy r) (rt_max_attempts r)
                           (rt_bootstrap_timeout_ms r) route_candidates]> m)
    end.

Definition compile_active_routes (routes : RouteIndex) (public_models : gmap PublicModelId PublicModelConfiguration)
    (candidates : CandidateIndex) (compiled_candidates : gmap RouteCandidateId CompiledRouteCandidate)
  : CompileM (gmap RouteId CompiledRoute) :=
  try_fold (compile_one_route public_models candidates compiled_candidates) (id_values (ri_by_id routes)) ∅.

Definition allow_route (routes : gmap RouteId CompiledRoute) (allowed : gset RouteId)
    (g : AccessGroupRouteConfiguration) : CompileM (gset RouteId) :=
  if negb (gt_enabled g) then Ok allowed
  else if negb (bool_decide (is_Some (routes !! gt_route_id g)))
  then Err (route_error AccessGroupRouteNotPublishable (as_str (gt_route_id g)))
  else Ok ({[ gt_route_id g ]} ∪ allowed).

Definition compile_one_access_group (grants : gmap AccessGroupId (list AccessGroupRouteConfiguration))
    (routes : gmap RouteId CompiledRoute) (m : gmap AccessGroupId CompiledAccessGroup) (g : AccessGroupConfiguration)
  : CompileM (gmap AccessGroupId CompiledAccessGroup) :=
  if negb (bool_decide (gr_status g = AdminActive)) then Ok m
  else
    let? allowed := try_fold (allow_route routes) (default [] (grants !! gr_id g)) ∅ in
    Ok (<[gr_id g := mkCompiledGroup (gr_id g) (gr_name g) allowed]> m).

Definition compile_access_groups (groups : gmap AccessGroupId AccessGroupConfiguration)
    (grants : gmap AccessGroupId (list AccessGroupRouteConfiguration)) (routes : gmap RouteId CompiledRoute)
  : CompileM (gmap AccessGroupId CompiledAccessGroup) :=
  try_fold (compile_one_access_group grants routes) (id_values groups) ∅.

Definition compile_one_public_model (routes : RouteIndex) (required : gmap PublicModelId CapabilitySet)
    (m : gmap string CompiledPublicModel) (p : PublicModelConfiguration) : CompileM (gmap string CompiledPublicModel) :=
  if negb (bool_decide (pc_status p = AdminActive)) then Ok m
  else
    let? route_id := ok_or (route_error ActivePublicModelMissingRoute (as_str (pc_id p)))
                       (ri_route_for_public_model routes !! pc_id p) in
    let? caps := ok_or (route_error InvalidPublicModelCapabilities (as_str (pc_id p))) (required !! pc_id p) in
    Ok (<[pc_model_name p := mkCompiledModel (pc_id p) (pc_model_name p) (pc_display_name p) caps route_id]> m).

Definition compile_one_alias (public_models : gmap PublicModelId PublicModelConfiguration)
    (m : gmap string PublicModelId) (alias : string * PublicModelId) : CompileM (gmap string PublicModelId) :=
  let? public_model := ok_or (route_error MissingAliasPublicModel alias.1) (public_models !! alias.2) in
  if bool_decide (pc_status public_model = AdminActive) then Ok (<[alias.1 := alias.2]> m) else Ok m.

(** A [BTreeMap<String, _>] in iteration order. *)
Definition text_entries {A} (m : gmap string A) : list (string * A) :=
  sort_by (fun a b => String.leb a.1 b.1) (map_to_list m).

Definition compile (compiler : RouteCompiler) (cfg : ControlPlaneConfiguration) : CompileM CompiledRouteConfiguration :=
  let? upstreams := index_upstreams (cf_upstreams cfg) in
  let? endpoints := index_endpoints (cf_endpoints cfg) upstreams in
  let? credentials := index_credentials (cf_credentials cfg) upstreams in
  let? bindings := validate_bindings (cf_bindings cfg) endpoints credentials in
  let? public_models := index_public_models (cf_public_models cfg) in
  let? required := parse_public_model_capabilities public_models in
  let? aliases := index_aliases (cf_aliases cfg) public_models in
  let? routes := index_routes (cf_routes cfg) public_models in
  let? candidates := index_candidates (cf_candidates cfg) routes endpoints in
  let? access_groups := index_access_groups (cf_access_groups cfg) in
  let? grants := validate_access_group_routes (cf_grants cfg) access_groups routes in
  let cx := mkContext candidates routes public_models required endpoints upstreams bindings credentials in
  let? compiled_candidates := compile_active_candidates compiler cx in
  let? compiled_routes := compile_active_routes routes public_models candidates compiled_candidates in
  let? compiled_groups := compile_access_groups access_groups grants compiled_routes in
  let? compiled_models := try_fold (compile_one_public_model routes required) (id_values public_models) ∅ in
  let? compiled_aliases := try_fold (compile_one_alias public_models) (text_entries aliases) ∅ in
  Ok (mkCompiled (cv_id (cf_version cfg)) compiled_models compiled_aliases compiled_routes compiled_groups).
End Compiler.

(** ** Grouped rows *)

Definition group_by {A K} `{Countable K} (key : A -> K) (l : list A) : gmap K (list A) :=
  fold_left (fun m x => push_entry (key x) x m) l ∅.

Lemma group_by_snoc {A K} `{Countable K} (key : A -> K) l x :
  group_by key (l ++ [x]) = push_entry (key x) x (group_by key l).
Proof. unfold group_by. by rewrite fold_left_app. Qed.

Lemma group_by_lookup {A K} `{Countable K} (key : A -> K) l k :
  group_by key l !! k = if decide (k ∈ key <$> l) then Some (filter (fun x => key x = k) l) else None.
Proof.
  induction l as [|x l IH] using rev_ind; [done|]. rewrite group_by_snoc, filter_app. unfold push_entry.
  destruct (decide (k = key x)) as [->|Hne].
  - rewrite lookup_insert_eq, decide_True by (rewrite fmap_app; set_solver). rewrite IH. f_equal.
    rewrite filter_cons_True by done. f_equal. case_decide as Hin; [done|]. simpl. symmetry.
    apply filter_none, Forall_forall. intros y Hy Heq. apply Hin. rewrite <- Heq. by apply list_elem_of_fmap_2.
  - rewrite lookup_insert_ne, IH, filter_cons_False, app_nil_r by done.
    destruct (decide (k ∈ key <$> l)), (decide (k ∈ key <$> l ++ [x])); rewrite ?fmap_app in *; set_solver.
Qed.

Lemma elem_of_group {A K} `{Countable K} (key : A -> K) l k x :
  x ∈ default [] (group_by key l !! k) <-> (x ∈ l) /\ key x = k.
Proof.
  rewrite group_by_lookup. case_decide as Hk; simpl.
  - rewrite list_elem_of_filter. tauto.
  - split; [by intros ?%elem_of_nil|]. intros [Hx <-]. destruct Hk. by apply list_elem_of_fmap_2.
Qed.

(** ** What each index accepts *)

Lemma not_true_false (b : bool) : b = false <-> ~ b = true.
Proof. destruct b; naive_solver. Qed.

Lemma guard_negb (P : Prop) `{Decision P} : negb (bool_decide P) = false <-> P.
Proof. rewrite negb_false_iff. apply bool_decide_eq_true. Qed.

Lemma guard_lookup {A K} `{Countable K} (key : A -> K) l k :
  bool_decide (is_Some (by_key key l !! k)) = false <-> k ∉ key <$> l.
Proof. by rewrite bool_decide_eq_false, by_key_is_Some. Qed.

Lemma guard_present {A K} `{Countable K} (key : A -> K) l k :
  negb (bool_decide (is_Some (by_key key l !! k))) = false <-> k ∈ key <$> l.
Proof. by rewrite guard_negb, by_key_is_Some. Qed.

(** The set of keys of the rows seen so far. *)
Definition key_set {A K} `{Countable K} (key : A -> K) (l : list A) : gset K := list_to_set (key <$> l).

Lemma key_set_snoc {A K} `{Countable K} (key : A -> K) l x : {[ key x ]} ∪ key_set key l = key_set key (l ++ [x]).
Proof. unfold key_set. rewrite fmap_app, list_to_set_app_L. simpl. set_solver. Qed.

Lemma guard_key_set {A K} `{Countable K} (key : A -> K) l k :
  bool_decide (k ∈ key_set key l) = false <-> k ∉ key <$> l.
Proof. unfold key_set. by rewrite bool_decide_eq_false, elem_of_list_to_set. Qed.

(** A row check that is a sequence of guards before it adds its row. *)
Ltac row_guards :=
  eapply decides_iff;
  [ repeat (apply decides_guard;
            [ first [ apply guard_lookup | apply guard_present | apply guard_key_set | apply guard_negb
                    | reflexivity ] | intros _ ]);
    apply decides_ok; rewrite ?by_key_snoc, ?key_set_snoc; done
  | tauto ].

Ltac row_conditions := rewrite ?each_row_and, ?each_row_Forall, ?each_row_nodup, ?Forall_and; tauto.

Lemma index_upstreams_decides rows :
  decides (index_upstreams rows) (NoDup (up_id <$> rows)) (fun m => m = by_key up_id rows).
Proof.
  eapply decides_iff; [|apply each_row_nodup].
  apply (try_fold_decides index_upstream (fun pre x => up_id x ∉ up_id <$> pre) (by_key up_id)).
  intros pre x _ _ _. unfold index_upstream. row_guards.
Qed.

Lemma index_credentials_decides rows ups :
  decides (index_credentials rows (by_key up_id ups))
    (Forall (fun c => cr_upstream_id c ∈ up_id <$> ups) rows /\ NoDup (cr_id <$> rows))
    (fun m => m = by_key cr_id rows).
Proof.
  eapply decides_iff.
  - apply (try_fold_decides (index_credential (by_key up_id ups))
      (fun pre x => (cr_upstream_id x ∈ up_id <$> ups) /\ (cr_id x ∉ cr_id <$> pre)) (by_key cr_id)).
    intros pre x _ _ _. unfold index_credential. row_guards.
  - row_conditions.
Qed.

Definition endpoint_served (e : EndpointConfiguration) : Prop :=
  exists f, format_parse (en_api_format e) = Some f /\ serves f (en_adapter_id e) = true.

Lemma index_endpoints_decides rows ups :
  decides (index_endpoints rows (by_key up_id ups))
    (Forall (fun e => (en_upstream_id e ∈ up_id <$> ups) /\ endpoint_served e) rows
     /\ NoDup (en_id <$> rows) /\ NoDup ((fun e => (en_upstream_id e, en_api_format e)) <$> rows))
    (fun m => m = by_key en_id rows).
Proof.
  set (fmt := fun e => (en_upstream_id e, en_api_format e)). eapply decides_iff.
  - eapply (decides_bind _ _ _ (fun acc => acc = (by_key en_id rows, key_set fmt rows)) True).
    + apply (try_fold_decides (index_endpoint (by_key up_id ups))
        (fun pre x => ((en_upstream_id x ∈ up_id <$> ups) /\ endpoint_served x)
           /\ (en_id x ∉ en_id <$> pre) /\ (fmt x ∉ fmt <$> pre))
        (fun pre => (by_key en_id pre, key_set fmt pre))).
      intros pre x _ _ _. unfold index_endpoint. simpl. fold (fmt x). eapply decides_iff.
      { apply decides_guard; [apply guard_present|]. intros _.
        instantiate (1 := endpoint_served x /\ (en_id x ∉ en_id <$> pre) /\ (fmt x ∉ fmt <$> pre)).
        unfold endpoint_served. destruct (format_parse (en_api_format x)) as [f|]; [|intros [(f & ? & _) _]; done].
        eapply decides_iff.
        - apply decides_guard; [apply negb_false_iff|]. intros _.
          apply decides_guard; [apply guard_lookup|]. intros _.
          apply decides_guard; [apply guard_key_set|]. intros _.
          apply decides_ok. by rewrite by_key_snoc, <- key_set_snoc.
        - naive_solver. }
      tauto.
    + intros acc _ ->. by apply decides_ok.
  - row_conditions.
Qed.

Definition binding_sound (eps : list EndpointConfiguration) (creds : list CredentialConfiguration)
    (b : EndpointCredentialBindingConfiguration) : Prop :=
  exists e c, (e ∈ eps) /\ (c ∈ creds) /\ en_id e = bn_endpoint_id b /\ cr_id c = bn_credential_id b
    /\ bn_upstream_id b = en_upstream_id e /\ bn_upstream_id b = cr_upstream_id c.

Lemma validate_bindings_decides rows eps creds :
  NoDup (en_id <$> eps) -> NoDup (cr_id <$> creds) ->
  decides (validate_bindings rows (by_key en_id eps) (by_key cr_id creds))
    (Forall (binding_sound eps creds) rows) (fun m => m = group_by bn_endpoint_id rows).
Proof.
  intros He Hc. eapply decides_iff; [|apply each_row_Forall].
  apply (try_fold_decides (validate_binding (by_key en_id eps) (by_key cr_id creds))
    (fun _ b => binding_sound eps creds b) (group_by bn_endpoint_id)).
  intros pre b _ _ _. unfold validate_binding. eapply decides_iff.
  - eapply decides_bind; [apply decides_ok_or|]. simpl. intros e _ Hb.
    instantiate (1 := exists c, by_key cr_id creds !! bn_credential_id b = Some c
      /\ forall e, by_key en_id eps !! bn_endpoint_id b = Some e ->
         bn_upstream_id b = en_upstream_id e /\ bn_upstream_id b = cr_upstream_id c).
    destruct (by_key cr_id creds !! bn_credential_id b) as [c|] eqn:Hcr; [|intros (? & ? & _); done].
    simpl. eapply decides_iff.
    + apply decides_guard with (P' := bn_upstream_id b = en_upstream_id e /\ bn_upstream_id b = cr_upstream_id c).
      * by rewrite orb_false_iff, !guard_negb.
      * intros _. apply decides_ok. by rewrite group_by_snoc.
    + naive_solver.
  - split.
    + intros ([e Hb] & c & Hcr & Hall). destruct (Hall e Hb) as [H1 H2].
      apply (by_key_Some en_id eps He) in Hb as [? ?]. apply (by_key_Some cr_id creds Hc) in Hcr as [? ?].
      by exists e, c.
    + intros (e & c & Hei & Hci & Hke & Hkc & H1 & H2).
      assert (by_key en_id eps !! bn_endpoint_id b = Some e) as Hb by by apply by_key_Some.
      assert (by_key cr_id creds !! bn_credential_id b = Some c) as Hcr by by apply by_key_Some.
      split; [by eexists|]. exists c. split; [done|]. intros e' He'. by simplify_eq.
Qed.

Lemma index_public_models_decides rows :
  decides (index_public_models rows) (NoDup (pc_id <$> rows) /\ NoDup (pc_model_name <$> rows))
    (fun m => m = by_key pc_id rows).
Proof.
  eapply decides_iff.
  - eapply (decides_bind _ _ _ (fun acc => acc = (by_key pc_id rows, key_set pc_model_name rows)) True).
    + apply (try_fold_decides index_public_model
        (fun pre x => (pc_id x ∉ pc_id <$> pre) /\ (pc_model_name x ∉ pc_model_name <$> pre))
        (fun pre => (by_key pc_id pre, key_set pc_model_name pre))).
      intros pre x _ _ _. unfold index_public_model. simpl. row_guards.
    + intros acc _ ->. by apply decides_ok.
  - row_conditions.
Qed.

Lemma index_access_groups_decides rows :
  decides (index_access_groups rows) (NoDup (gr_id <$> rows)) (fun m => m = by_key gr_id rows).
Proof.
  eapply decides_iff; [|apply each_row_nodup].
  apply (try_fold_decides index_access_group (fun pre x => gr_id x ∉ gr_id <$> pre) (by_key gr_id)).
  intros pre x _ _ _. unfold index_access_group. row_guards.
Qed.

Lemma validate_grants_decides rows groups routes :
  decides (validate_access_group_routes rows (by_key gr_id groups) routes)
    (Forall (fun g => (gt_access_group_id g ∈ gr_id <$> groups) /\ is_Some (ri_by_id routes !! gt_route_id g)) rows)
    (fun m => m = group_by gt_access_group_id rows).
Proof.
  eapply decides_iff; [|apply each_row_Forall].
  apply (try_fold_decides (validate_grant (by_key gr_id groups) routes)
    (fun _ g => (gt_access_group_id g ∈ gr_id <$> groups) /\ is_Some (ri_by_id routes !! gt_route_id g))
    (group_by gt_access_group_id)).
  intros pre g _ _ _. unfold validate_grant. eapply decides_iff.
  - apply decides_guard; [apply guard_present|]. intros _. apply decides_guard; [apply guard_negb|]. intros _.
    apply decides_ok. by rewrite group_by_snoc.
  - tauto.
Qed.

Definition alias_map (rows : list ModelAliasConfiguration) : gmap string PublicModelId :=
  al_public_model_id <$> by_key al_alias rows.

Lemma index_aliases_decides rows models :
  NoDup (pc_id <$> models) ->
  decides (index_aliases rows (by_key pc_id models))
    (Forall (fun a => (al_public_model_id a ∈ pc_id <$> models) /\ (al_alias a ∉ pc_model_name <$> models)) rows
     /\ NoDup (al_alias <$> rows))
    (fun m => m = alias_map rows).
Proof.
  intros Hnd. eapply decides_iff.
  - apply (try_fold_decides (index_alias (by_key pc_id models))
      (fun pre a => ((al_public_model_id a ∈ pc_id <$> models) /\ (al_alias a ∉ pc_model_name <$> models))
         /\ (al_alias a ∉ al_alias <$> pre)) alias_map).
    intros pre a _ _ _. unfold index_alias. eapply decides_iff.
    + apply decides_guard; [apply guard_present|]. intros _.
      apply decides_guard; [rewrite bool_decide_eq_false, (id_values_perm pc_id models Hnd); reflexivity|]. intros _.
      apply decides_guard with (P' := al_alias a ∉ al_alias <$> pre).
      { unfold alias_map. by rewrite bool_decide_eq_false, lookup_fmap, fmap_is_Some, by_key_is_Some. }
      intros _. apply decides_ok. unfold alias_map. by rewrite by_key_snoc, fmap_insert.
    + tauto.
  - row_conditions.
Qed.

Definition route_index (rows : list ModelRouteConfiguration) : RouteIndex :=
  mkRouteIndex (by_key rt_id rows) (rt_id <$> by_key rt_public_model_id rows).

Lemma index_routes_decides rows models :
  decides (index_routes rows (by_key pc_id models))
    (Forall (fun r => rt_public_model_id r ∈ pc_id <$> models) rows
     /\ NoDup (rt_id <$> rows) /\ NoDup (rt_public_model_id <$> rows))
    (fun m => m = route_index rows).
Proof.
  eapply decides_iff.
  - apply (try_fold_decides (index_route (by_key pc_id models))
      (fun pre r => (rt_public_model_id r ∈ pc_id <$> models) /\ (rt_id r ∉ rt_id <$> pre)
         /\ (rt_public_model_id r ∉ rt_public_model_id <$> pre)) route_index).
    intros pre r _ _ _. unfold index_route. eapply decides_iff.
    + apply decides_guard; [apply guard_present|]. intros _. apply decides_guard; [apply guard_lookup|]. intros _.
      apply decides_guard with (P' := rt_public_model_id r ∉ rt_public_model_id <$> pre).
      { simpl. by rewrite bool_decide_eq_false, lookup_fmap, fmap_is_Some, by_key_is_Some. }
      intros _. apply decides_ok. unfold route_index. simpl. by rewrite !by_key_snoc, fmap_insert.
    + tauto.
  - row_conditions.
Qed.

Section Specification.
Context `{JsonText}.

Lemma parse_capability_no_panic value subject code allow : parse_capability_object value subject code allow <> Panic.
Proof.
  unfold parse_capability_object. apply bind_no_panic; [apply ok_or_no_panic|]. intros v _.
  apply bind_no_panic; [apply ok_or_no_panic|]. intros o _. apply bind_no_panic.
  - apply try_fold_no_panic. intros s x. unfold declare_field. apply bind_no_panic; [apply ok_or_no_panic|].
    intros b _. destruct (bool_decide _); [by destruct (negb allow)|].
    apply bind_no_panic; [apply ok_or_no_panic|]. by intros c _; destruct b.
  - intros d _. by case_match.
Qed.

Lemma required_capabilities_no_panic p : required_capabilities_of p <> Panic.
Proof.
  unfold required_capabilities_of. apply bind_no_panic; [apply parse_capability_no_panic|]. intros ov _.
  unfold capabilities_try_new, validate. by case_match.
Qed.

Definition required_entry (p : PublicModelConfiguration) : CompileM (option (PublicModelId * CapabilitySet)) :=
  let? caps := required_capabilities_of p in Ok (Some (pc_id p, caps)).

Lemma parse_capabilities_decides models :
  NoDup (pc_id <$> models) ->
  decides (parse_public_model_capabilities (by_key pc_id models))
    (Forall (fun p => exists caps, required_capabilities_of p = Ok caps) models)
    (fun m => forall k caps, m !! k = Some caps <-> exists p, (p ∈ models) /\ pc_id p = k /\ required_capabilities_of p = Ok caps).
Proof.
  intros Hnd. pose proof (id_values_perm pc_id models Hnd) as Hperm. eapply decides_weaken.
  - apply (try_fold_collect pc_id required_entry (fun p => exists caps, required_capabilities_of p = Ok caps) (fun _ _ => True)).
    + intros m p. unfold parse_public_model, required_entry. by destruct (required_capabilities_of p).
    + intros p _. unfold required_entry. pose proof (required_capabilities_no_panic p).
      destruct (required_capabilities_of p); simpl; [eauto| |done]. by intros [].
    + intros p k v _. unfold required_entry. destruct (required_capabilities_of p); simpl; congruence.
    + by rewrite Hperm.
  - by rewrite Hperm.
  - intros m _ Hm k caps. cbv beta in Hm. rewrite Hm. unfold required_entry. split.
    + intros (p & Hin & Hp). exists p. rewrite Hperm in Hin. destruct (required_capabilities_of p); naive_solver.
    + intros (p & Hin & <- & Hp). exists p. split; [by rewrite Hperm|]. by rewrite Hp.
Qed.

Definition candidate_index (rows : list RouteCandidateConfiguration) : CandidateIndex :=
  mkCandidateIndex (by_key cn_id rows) (sort_candidates <$> group_by cn_route_id rows).

Definition override_ok (c : RouteCandidateConfiguration) : Prop := exists ov, parse_candidate_override c = Ok ov.

Lemma index_candidates_decides rows routes eps :
  decides (index_candidates rows routes (by_key en_id eps))
    (Forall (fun c => is_Some (ri_by_id routes !! cn_route_id c) /\ (cn_endpoint_id c ∈ en_id <$> eps) /\ override_ok c) rows
     /\ NoDup (cn_id <$> rows) /\ NoDup (candidate_target <$> rows))
    (fun m => m = candidate_index rows).
Proof.
  eapply decides_iff.
  - eapply (decides_bind _ _ _ (fun acc => acc = (by_key cn_id rows, group_by cn_route_id rows, key_set candidate_target rows)) True).
    + apply (try_fold_decides (index_candidate routes (by_key en_id eps))
        (fun pre c => (is_Some (ri_by_id routes !! cn_route_id c) /\ (cn_endpoint_id c ∈ en_id <$> eps) /\ override_ok c)
           /\ (cn_id c ∉ cn_id <$> pre) /\ (candidate_target c ∉ candidate_target <$> pre))
        (fun pre => (by_key cn_id pre, group_by cn_route_id pre, key_set candidate_target pre))).
      intros pre c _ _ _. unfold index_candidate. simpl. eapply decides_iff.
      * apply decides_guard; [apply guard_negb|]. intros _. apply decides_guard; [apply guard_present|]. intros _.
        eapply decides_bind; [apply decides_self, parse_capability_no_panic|]. intros ov _ _.
        apply decides_guard; [apply guard_lookup|]. intros _. apply decides_guard; [apply guard_key_set|]. intros _.
        apply decides_ok. by rewrite by_key_snoc, group_by_snoc, <- key_set_snoc.
      * unfold override_ok. tauto.
    + intros acc _ ->. by apply decides_ok.
  - row_conditions.
Qed.
End Specification.

(** ** What may be published

    The conditions on the rows themselves, without the compiler's indexes. *)

Section Publishable.
Context `{JsonText} (compiler : RouteCompiler) (cfg : ControlPlaneConfiguration).

Definition model_active (id : PublicModelId) : Prop :=
  exists p, (p ∈ cf_public_models cfg) /\ pc_id p = id /\ pc_status p = AdminActive.

Definition route_active (r : ModelRouteConfiguration) : Prop := model_active (rt_public_model_id r).

(** The enabled bindings of an Endpoint to active credentials of its Upstream. *)
Definition active_bindings (e : EndpointConfiguration) : list EndpointCredentialBindingConfiguration :=
  filter (fun b => bn_endpoint_id b = en_id e /\ bn_enabled b = true
            /\ Exists (fun c => cr_id c = bn_credential_id b /\ cr_status c = CredentialActive
                                /\ cr_upstream_id c = en_upstream_id e) (cf_credentials cfg))
    (cf_bindings cfg).

Definition binding_count (e : EndpointConfiguration) (u : UpstreamConfiguration) : Z :=
  if is_native_endpoint e u then 1 else Z.of_nat (length (active_bindings e)).

(** Listed and eligible, or unlisted by explicit exception. *)
Definition admitted_as (e : EndpointConfiguration) (model : string) (unlisted : bool) (a : CatalogAdmission) : Prop :=
  match a with
  | AdmissionListed s => model_state (compiler_catalog compiler) (en_id e) model = Some s /\ state_is_hard_eligible s = true
  | AdmissionUnlisted =>
      unlisted = true
      /\ forall s, model_state (compiler_catalog compiler) (en_id e) model = Some s -> state_is_hard_eligible s = false
  end.

(** A candidate row and the compiled candidate it stands for. *)
Definition candidate_compiles (c : RouteCandidateConfiguration) (cc : CompiledRouteCandidate) : Prop :=
  exists r p caps e u ov profile admission,
    ((r ∈ cf_routes cfg) /\ rt_id r = cn_route_id c)
    /\ ((p ∈ cf_public_models cfg) /\ pc_id p = rt_public_model_id r) /\ required_capabilities_of p = Ok caps
    /\ ((e ∈ cf_endpoints cfg) /\ en_id e = cn_endpoint_id c) /\ en_enabled e = true
    /\ ((u ∈ cf_upstreams cfg) /\ up_id u = en_upstream_id e) /\ up_enabled u = true
    /\ parse_candidate_override c = Ok ov
    /\ capabilities_for (compiler_endpoint_capabilities compiler) (en_id e) = Some profile
    /\ ov_asserted ov ⊆ profile
    /\ caps ⊆ without profile (elements (ov_removed ov))
    /\ admitted_as e (cn_upstream_model c) (ov_allow_unlisted_model ov) admission
    /\ binding_count e u <> 0
    /\ cc = mkCompiledCandidate (cn_id c) (en_id e) (up_id u) (en_api_format e) (cn_upstream_model c)
              (cn_transform_mode c) (cn_priority c) (cn_weight c) (without profile (elements (ov_removed ov)))
              admission (binding_count e u).

(** The rows form a graph: identities are unique and references resolve. *)
Record graph_ok : Prop := {
  g_upstreams : NoDup (up_id <$> cf_upstreams cfg);
  g_endpoints : Forall (fun e => (en_upstream_id e ∈ up_id <$> cf_upstreams cfg) /\ endpoint_served e) (cf_endpoints cfg);
  g_endpoint_ids : NoDup (en_id <$> cf_endpoints cfg);
  g_endpoint_formats : NoDup ((fun e => (en_upstream_id e, en_api_format e)) <$> cf_endpoints cfg);
  g_credentials : Forall (fun c => cr_upstream_id c ∈ up_id <$> cf_upstreams cfg) (cf_credentials cfg);
  g_credential_ids : NoDup (cr_id <$> cf_credentials cfg);
  g_bindings : Forall (binding_sound (cf_endpoints cfg) (cf_credentials cfg)) (cf_bindings cfg);
  g_model_ids : NoDup (pc_id <$> cf_public_models cfg);
  g_model_names : NoDup (pc_model_name <$> cf_public_models cfg);
  g_model_capabilities : Forall (fun p => exists caps, required_capabilities_of p = Ok caps) (cf_public_models cfg);
  g_aliases : Forall (fun a => (al_public_model_id a ∈ pc_id <$> cf_public_models cfg)
                /\ (al_alias a ∉ pc_model_name <$> cf_public_models cfg)) (cf_aliases cfg);
  g_alias_names : NoDup (al_alias <$> cf_aliases cfg);
  g_routes : Forall (fun r => rt_public_model_id r ∈ pc_id <$> cf_public_models cfg) (cf_routes cfg);
  g_route_ids : NoDup (rt_id <$> cf_routes cfg);
  g_route_models : NoDup (rt_public_model_id <$> cf_routes cfg);
  g_candidates : Forall (fun c => is_Some (by_key rt_id (cf_routes cfg) !! cn_route_id c)
                   /\ (cn_endpoint_id c ∈ en_id <$> cf_endpoints cfg) /\ override_ok c) (cf_candidates cfg);
  g_candidate_ids : NoDup (cn_id <$> cf_candidates cfg);
  g_candidate_targets : NoDup (candidate_target <$> cf_candidates cfg);
  g_group_ids : NoDup (gr_id <$> cf_access_groups cfg);
  g_grants : Forall (fun g => (gt_access_group_id g ∈ gr_id <$> cf_access_groups cfg)
               /\ is_Some (by_key rt_id (cf_routes cfg) !! gt_route_id g)) (cf_grants cfg);
}.

(** The rows that go live are complete. *)
Record live_ok : Prop := {
  l_candidates : Forall (fun c => cn_enabled c = true ->
      (exists r, (r ∈ cf_routes cfg) /\ rt_id r = cn_route_id c /\ route_active r) ->
      exists cc, candidate_compiles c cc) (cf_candidates cfg);
  l_routes : Forall (fun r => route_active r ->
      exists c, (c ∈ cf_candidates cfg) /\ cn_enabled c = true /\ cn_route_id c = rt_id r) (cf_routes cfg);
  l_grants : Forall (fun g => gt_enabled g = true ->
      (exists gr, (gr ∈ cf_access_groups cfg) /\ gr_id gr = gt_access_group_id g /\ gr_status gr = AdminActive) ->
      exists r, (r ∈ cf_routes cfg) /\ rt_id r = gt_route_id g /\ route_active r) (cf_grants cfg);
  l_models : Forall (fun p => pc_status p = AdminActive ->
      exists r, (r ∈ cf_routes cfg) /\ rt_public_model_id r = pc_id p) (cf_public_models cfg);
}.

Definition publishable : Prop := graph_ok /\ live_ok.

(** The context the compiler builds from an accepted graph. *)
Definition context_of (required : gmap PublicModelId CapabilitySet) : CandidateCompilationContext :=
  mkContext (candidate_index (cf_candidates cfg)) (route_index (cf_routes cfg)) (by_key pc_id (cf_public_models cfg))
    required (by_key en_id (cf_endpoints cfg)) (by_key up_id (cf_upstreams cfg))
    (group_by bn_endpoint_id (cf_bindings cfg)) (by_key cr_id (cf_credentials cfg)).

Definition required_sound (required : gmap PublicModelId CapabilitySet) : Prop :=
  forall k caps, required !! k = Some caps <->
    exists p, (p ∈ cf_public_models cfg) /\ pc_id p = k /\ required_capabilities_of p = Ok caps.

Context (required : gmap PublicModelId CapabilitySet) (Hg : graph_ok) (Hreq : required_sound required).
Abbreviation cx := (context_of required).

Lemma cx_upstream k u : cx_upstreams cx !! k = Some u <-> (u ∈ cf_upstreams cfg) /\ up_id u = k.
Proof. apply by_key_Some, Hg. Qed.
Lemma cx_endpoint k e : cx_endpoints cx !! k = Some e <-> (e ∈ cf_endpoints cfg) /\ en_id e = k.
Proof. apply by_key_Some, Hg. Qed.
Lemma cx_credential k c : cx_credentials cx !! k = Some c <-> (c ∈ cf_credentials cfg) /\ cr_id c = k.
Proof. apply by_key_Some, Hg. Qed.
Lemma cx_model k p : cx_public_models cx !! k = Some p <-> (p ∈ cf_public_models cfg) /\ pc_id p = k.
Proof. apply by_key_Some, Hg. Qed.
Lemma cx_route k r : ri_by_id (cx_routes cx) !! k = Some r <-> (r ∈ cf_routes cfg) /\ rt_id r = k.
Proof. apply by_key_Some, Hg. Qed.

Lemma binding_is_active_iff e b :
  binding_is_active e cx b = true <->
  bn_enabled b = true
  /\ Exists (fun c => cr_id c = bn_credential_id b /\ cr_status c = CredentialActive
                      /\ cr_upstream_id c = en_upstream_id e) (cf_credentials cfg).
Proof.
  unfold binding_is_active. rewrite andb_true_iff, Exists_exists. apply and_iff_compat_l.
  destruct (cx_credentials cx !! bn_credential_id b) as [c|] eqn:Hc.
  - apply cx_credential in Hc as [Hin Hid]. rewrite andb_true_iff, !bool_decide_eq_true. split.
    + intros [? ?]. exists c. naive_solver.
    + intros (c' & Hin' & Hid' & Hs & Hu). assert (c' = c) as ->; [|done].
      assert (cx_credentials cx !! bn_credential_id b = Some c) as H1 by by apply cx_credential.
      assert (cx_credentials cx !! bn_credential_id b = Some c') as H2 by by apply cx_credential. congruence.
  - split; [done|]. intros (c & Hin & Hid & _).
    assert (cx_credentials cx !! bn_credential_id b = Some c) by by apply cx_credential. congruence.
Qed.

Lemma active_binding_count_eq e u : active_binding_count e u cx = binding_count e u.
Proof.
  unfold active_binding_count, binding_count. case_match; [done|]. simpl. rewrite group_by_lookup.
  assert (forall l, length (List.filter (binding_is_active e cx) (filter (fun b => bn_endpoint_id b = en_id e) l))
    = length (filter (fun b => bn_endpoint_id b = en_id e /\ bn_enabled b = true
            /\ Exists (fun c => cr_id c = bn_credential_id b /\ cr_status c = CredentialActive
                                /\ cr_upstream_id c = en_upstream_id e) (cf_credentials cfg)) l)) as Hlen.
  { induction l as [|b l IH]; [done|]. rewrite !filter_cons. pose proof (binding_is_active_iff e b) as Hb.
    destruct (decide (bn_endpoint_id b = en_id e)); [|rewrite decide_False by tauto; done].
    simpl. destruct (binding_is_active e cx b); [rewrite decide_True by (split; [done|by apply Hb])|rewrite decide_False by naive_solver].
    - simpl. by rewrite IH.
    - done. }
  unfold active_bindings. rewrite <- Hlen. case_decide as Hin; [done|].
  rewrite filter_none; [done|]. apply Forall_forall. intros b Hb Heq. apply Hin. rewrite <- Heq.
  by apply list_elem_of_fmap_2.
Qed.

Lemma catalog_admission_iff e c unlisted a :
  catalog_admission (compiler_catalog compiler) e c unlisted = Ok a <-> admitted_as e (cn_upstream_model c) unlisted a.
Proof.
  unfold catalog_admission, admitted_as. destruct (model_state _ _ _) as [s|].
  - destruct (state_is_hard_eligible s) eqn:Hs, unlisted, a as [s'|]; split; intros Ha; simplify_eq/=; try done;
      try (destruct Ha as [Ha1 Ha2]; simplify_eq/=; try congruence; by rewrite (Ha2 s eq_refl) in Hs);
      split; intros; by simplify_eq.
  - destruct unlisted, a as [s'|]; split; intros Ha; simplify_eq/=; try done; by destruct Ha.
Qed.

Lemma effective_capabilities_iff c caps e ov eff :
  effective_candidate_capabilities c caps e (compiler_endpoint_capabilities compiler) ov = Ok eff <->
  exists profile, capabilities_for (compiler_endpoint_capabilities compiler) (en_id e) = Some profile
    /\ ov_asserted ov ⊆ profile /\ caps ⊆ without profile (elements (ov_removed ov))
    /\ eff = without profile (elements (ov_removed ov)).
Proof.
  unfold effective_candidate_capabilities. destruct (capabilities_for _ _) as [profile|]; simpl; [|naive_solver].
  assert (forallb (supports profile) (elements (ov_asserted ov)) = true <-> ov_asserted ov ⊆ profile) as Hall.
  { rewrite forallb_forall. unfold supports. split.
    - intros Hx x Hin. specialize (Hx x). rewrite <- list_elem_of_In, elem_of_elements, bool_decide_eq_true in Hx. auto.
    - intros Hsub x Hin. rewrite <- list_elem_of_In, elem_of_elements in Hin. apply bool_decide_eq_true. auto. }
  destruct (forallb _ _); simpl; [|naive_solver]. unfold supports_all.
  case_bool_decide; simpl; naive_solver.
Qed.

Lemma candidate_model_iff c p :
  candidate_model c cx = Ok p <->
  exists r, ((r ∈ cf_routes cfg) /\ rt_id r = cn_route_id c) /\ (p ∈ cf_public_models cfg) /\ pc_id p = rt_public_model_id r.
Proof.
  unfold candidate_model. split.
  - destruct (ri_by_id (cx_routes cx) !! cn_route_id c) as [r|] eqn:Hr; simpl; [|done].
    destruct (by_key pc_id (cf_public_models cfg) !! rt_public_model_id r) as [p'|] eqn:Hp; simpl; [|done].
    intros [= ->]. apply cx_route in Hr. apply cx_model in Hp. by exists r.
  - intros (r & Hr & Hp). apply cx_route in Hr as ->. simpl. apply cx_model in Hp. simpl in Hp. by rewrite Hp.
Qed.

Lemma required_for_candidate_iff c caps :
  required_capabilities_for_candidate c cx = Ok caps <->
  exists r p, ((r ∈ cf_routes cfg) /\ rt_id r = cn_route_id c) /\ ((p ∈ cf_public_models cfg) /\ pc_id p = rt_public_model_id r)
    /\ required_capabilities_of p = Ok caps.
Proof.
  unfold required_capabilities_for_candidate. split.
  - destruct (candidate_model c cx) as [p| |] eqn:Hp; simpl; try done.
    destruct (required !! pc_id p) as [caps'|] eqn:Hr; simpl; [|done]. intros [= ->].
    apply candidate_model_iff in Hp as (r & Hr' & Hp). apply Hreq in Hr as (p' & Hp' & Hid & Hc).
    exists r, p. split; [done|]. split; [done|]. assert (p' = p) as <-; [|done].
    assert (cx_public_models cx !! pc_id p = Some p) by (apply cx_model; tauto).
    assert (cx_public_models cx !! pc_id p = Some p') by by apply cx_model. congruence.
  - intros (r & p & Hr & Hp & Hc). assert (candidate_model c cx = Ok p) as -> by (apply candidate_model_iff; eauto).
    simpl. assert (required !! pc_id p = Some caps) as ->; [|done]. apply Hreq. exists p. naive_solver.
Qed.

Lemma candidate_target_iff c e u :
  active_candidate_target c cx = Ok (e, u) <->
  ((e ∈ cf_endpoints cfg) /\ en_id e = cn_endpoint_id c) /\ en_enabled e = true
  /\ ((u ∈ cf_upstreams cfg) /\ up_id u = en_upstream_id e) /\ up_enabled u = true.
Proof.
  unfold active_candidate_target. split.
  - destruct (cx_endpoints cx !! cn_endpoint_id c) as [e'|] eqn:He; simpl; [|done].
    destruct (en_enabled e') eqn:Hen; simpl; [|done].
    destruct (by_key up_id (cf_upstreams cfg) !! en_upstream_id e') as [u'|] eqn:Hu; simpl; [|done].
    destruct (up_enabled u') eqn:Hun; simpl; [|done]. intros [= -> ->].
    apply cx_endpoint in He. apply cx_upstream in Hu. done.
  - intros (He & Hen & Hu & Hun). apply cx_endpoint in He as ->. simpl. rewrite Hen. simpl.
    apply cx_upstream in Hu. simpl in Hu. rewrite Hu. simpl. by rewrite Hun.
Qed.

Lemma compile_candidate_iff c cc :
  compile_active_candidate compiler c cx = Ok cc <-> candidate_compiles c cc.
Proof.
  unfold compile_active_candidate, candidate_compiles. split.
  - destruct (required_capabilities_for_candidate c cx) as [caps| |] eqn:H1; simpl; try done.
    destruct (active_candidate_target c cx) as [[e u]| |] eqn:H2; simpl; try done.
    destruct (parse_candidate_override c) as [ov| |] eqn:H3; simpl; try done.
    destruct (effective_candidate_capabilities _ _ _ _ _) as [eff| |] eqn:H4; simpl; try done.
    destruct (catalog_admission _ _ _ _) as [adm| |] eqn:H5; simpl; try done.
    rewrite active_binding_count_eq. case_match eqn:H6; [done|]. intros [= <-]. bool_simp.
    apply required_for_candidate_iff in H1 as (r & p & Hr & Hp & Hc).
    apply candidate_target_iff in H2 as (He & Hen & Hu & Hun).
    apply effective_capabilities_iff in H4 as (profile & Hpr & Ha & Hs & ->). apply catalog_admission_iff in H5.
    exists r, p, caps, e, u, ov, profile, adm. split_and!; tauto || done.
  - intros (r & p & caps & e & u & ov & profile & adm & Hr & Hp & Hc & He & Hen & Hu & Hun & Hov & Hpr & Ha & Hs & Hadm & Hb & ->).
    assert (required_capabilities_for_candidate c cx = Ok caps) as -> by (apply required_for_candidate_iff; eauto).
    assert (active_candidate_target c cx = Ok (e, u)) as -> by by apply candidate_target_iff. simpl. rewrite Hov. simpl.
    assert (effective_candidate_capabilities c caps e (compiler_endpoint_capabilities compiler) ov
      = Ok (without profile (elements (ov_removed ov)))) as -> by (apply effective_capabilities_iff; eauto). simpl.
    apply catalog_admission_iff in Hadm as ->. simpl. rewrite active_binding_count_eq.
    by replace (binding_count e u =? 0) with false by (symmetry; by apply Z.eqb_neq).
Qed.

Lemma compile_candidate_no_panic c : compile_active_candidate compiler c cx <> Panic.
Proof.
  unfold compile_active_candidate.
  assert (candidate_model c cx <> Panic) as Hm.
  { apply bind_no_panic; [apply ok_or_no_panic|]. intros. apply ok_or_no_panic. }
  apply bind_no_panic; [apply bind_no_panic; [done|]; intros; apply ok_or_no_panic|]. intros caps _.
  apply bind_no_panic.
  { apply bind_no_panic; [apply ok_or_no_panic|]. intros e _. case_match; [done|].
    apply bind_no_panic; [apply ok_or_no_panic|]. intros u _. by case_match. }
  intros [e u] _. apply bind_no_panic; [apply parse_capability_no_panic|]. intros ov _. apply bind_no_panic.
  { apply bind_no_panic; [apply ok_or_no_panic|]. intros pr _. destruct (negb (forallb _ _)); [done|].
    cbv zeta. by case_match. }
  intros eff _. apply bind_no_panic; [unfold catalog_admission; by repeat case_match|]. intros a _. by case_match.
Qed.

(** A row is compiled when it is enabled and its model is active. *)
Definition candidate_live (c : RouteCandidateConfiguration) : Prop :=
  cn_enabled c = true /\ exists r, (r ∈ cf_routes cfg) /\ rt_id r = cn_route_id c /\ route_active r.

Lemma candidate_active_iff c :
  c ∈ cf_candidates cfg ->
  exists b, candidate_has_active_public_model c cx = Ok b
    /\ (b = true <-> exists r, (r ∈ cf_routes cfg) /\ rt_id r = cn_route_id c /\ route_active r).
Proof.
  intros Hc. pose proof (g_candidates Hg) as Hall. rewrite Forall_forall in Hall.
  destruct (Hall c Hc) as ([r Hr] & _). pose proof Hr as Hr'. apply cx_route in Hr' as [Hrin Hrid].
  pose proof (g_routes Hg) as Hrm. rewrite Forall_forall in Hrm. specialize (Hrm r Hrin).
  apply list_elem_of_fmap in Hrm as (p & Hpid & Hp). symmetry in Hpid.
  assert (candidate_model c cx = Ok p) as Hm by (apply candidate_model_iff; eauto 10).
  unfold candidate_has_active_public_model. rewrite Hm. simpl. eexists. split; [done|]. rewrite bool_decide_eq_true. split.
  - intros Hs. exists r. split; [done|]. split; [done|]. exists p. done.
  - intros (r2 & Hr2 & Hid2 & p2 & Hp2 & Hpid2 & Hs).
    assert (r2 = r) as ->.
    { assert (ri_by_id (cx_routes cx) !! cn_route_id c = Some r2) by by apply cx_route. simpl in *. congruence. }
    assert (p2 = p) as ->; [|done].
    assert (cx_public_models cx !! rt_public_model_id r = Some p2) by by apply cx_model.
    assert (cx_public_models cx !! rt_public_model_id r = Some p) by (apply cx_model; done). congruence.
Qed.

Definition candidate_entry (c : RouteCandidateConfiguration) : CompileM (option (RouteCandidateId * CompiledRouteCandidate)) :=
  if negb (cn_enabled c) then Ok None
  else let? active := candidate_has_active_public_model c cx in
       if negb active then Ok None
       else let? compiled := compile_active_candidate compiler c cx in Ok (Some (cn_id c, compiled)).

Lemma candidate_entry_decides c :
  c ∈ cf_candidates cfg ->
  decides (candidate_entry c) (candidate_live c -> exists cc, candidate_compiles c cc)
    (fun y => forall k cc, y = Some (k, cc) <-> k = cn_id c /\ candidate_live c /\ candidate_compiles c cc).
Proof.
  intros Hc. unfold candidate_entry, candidate_live. destruct (cn_enabled c); simpl; [|split; [naive_solver|]; split; naive_solver].
  destruct (candidate_active_iff c Hc) as (b & -> & Hb). simpl. destruct b; simpl.
  - pose proof (compile_candidate_no_panic c) as Hnp. pose proof (compile_candidate_iff c) as Hiff.
    assert (exists r, (r ∈ cf_routes cfg) /\ rt_id r = cn_route_id c /\ route_active r) as Hlive by by apply Hb.
    destruct (compile_active_candidate compiler c cx) as [cc| |]; simpl; [| |done].
    + split; [intros _; exists cc; by apply Hiff|]. intros k cc'. rewrite <- Hiff. split; [|naive_solver]. intros [= <- <-]. done.
    + intros Hex. destruct Hex as [cc Hcc]; [done|]. by apply Hiff in Hcc.
  - split; [intros [_ Hl]; by apply Hb in Hl|]. intros k cc. split; [done|]. intros (_ & [_ Hl] & _). by apply Hb in Hl.
Qed.

Lemma compile_candidates_decides :
  decides (compile_active_candidates compiler cx)
    (Forall (fun c => candidate_live c -> exists cc, candidate_compiles c cc) (cf_candidates cfg))
    (fun m => forall k cc, m !! k = Some cc <->
       exists c, (c ∈ cf_candidates cfg) /\ k = cn_id c /\ candidate_live c /\ candidate_compiles c cc).
Proof.
  unfold compile_active_candidates. simpl. eapply decides_weaken.
  - apply (try_fold_rows cn_id candidate_entry (fun c => candidate_live c -> exists cc, candidate_compiles c cc)
      (fun c k cc => k = cn_id c /\ candidate_live c /\ candidate_compiles c cc) _ (cf_candidates cfg)).
    + apply id_values_perm, (g_candidate_ids Hg).
    + apply (g_candidate_ids Hg).
    + intros m c. unfold compile_one_candidate, candidate_entry. destruct (cn_enabled c); simpl; [|done].
      destruct (candidate_has_active_public_model c cx) as [[]| |]; simpl; try done.
      by destruct (compile_active_candidate compiler c cx).
    + apply candidate_entry_decides.
    + by intros c k cc _ [-> _].
    + intros c k cc _ (_ & _ & Hcc) _. by exists cc.
  - done.
  - done.
Qed.

(** ** Routes *)

Definition route_compiles (r : ModelRouteConfiguration) (cr : CompiledRoute) : Prop :=
  cro_id cr = rt_id r /\ cro_public_model_id cr = rt_public_model_id r /\ cro_policy cr = rt_policy r
  /\ cro_max_attempts cr = rt_max_attempts r /\ cro_bootstrap_timeout_ms cr = rt_bootstrap_timeout_ms r
  /\ cro_candidates cr <> [] /\ StronglySorted (fun a b => compiled_leb a b = true) (cro_candidates cr)
  /\ NoDup (cc_id <$> cro_candidates cr)
  /\ forall cc, cc ∈ cro_candidates cr <-> exists c, (c ∈ cf_candidates cfg) /\ cn_enabled c = true
       /\ cn_route_id c = rt_id r /\ candidate_compiles c cc.

Definition candidates_sound (compiled : gmap RouteCandidateId CompiledRouteCandidate) : Prop :=
  forall k cc, compiled !! k = Some cc <->
    exists c, (c ∈ cf_candidates cfg) /\ k = cn_id c /\ candidate_live c /\ candidate_compiles c cc.

Context (compiled : gmap RouteCandidateId CompiledRouteCandidate) (Hcomp : candidates_sound compiled).
Abbreviation candidates_of r := (route_candidates_of (candidate_index (cf_candidates cfg)) compiled r).

Lemma compiled_leb_total a b : compiled_leb a b = true \/ compiled_leb b a = true.
Proof.
  unfold compiled_leb. destruct (Z.lt_trichotomy (cc_priority a) (cc_priority b)) as [Hlt|[Heq|Hgt]].
  - left. apply orb_true_iff. left. by apply Z.ltb_lt.
  - rewrite Heq, Z.eqb_refl, Z.ltb_irrefl. simpl. apply id_leb_total.
  - right. apply orb_true_iff. left. by apply Z.ltb_lt.
Qed.

Lemma compiled_leb_trans a b c : compiled_leb a b = true -> compiled_leb b c = true -> compiled_leb a c = true.
Proof.
  unfold compiled_leb. rewrite !orb_true_iff, !andb_true_iff, !Z.ltb_lt, !Z.eqb_eq.
  intros [Hab|[Hab Hi]] [Hbc|[Hbc Hj]]; [left; lia|left; lia|left; lia|right]. split; [lia|]. by eapply id_leb_trans.
Qed.

Lemma compiles_id c cc : candidate_compiles c cc -> cc_id cc = cn_id c.
Proof. by intros (r & p & caps & e & u & ov & profile & adm & ? & ? & ? & ? & ? & ? & ? & ? & ? & ? & ? & ? & ? & ->). Qed.

Lemma compiles_fun c cc cc' : candidate_compiles c cc -> candidate_compiles c cc' -> cc = cc'.
Proof. rewrite <- !compile_candidate_iff. congruence. Qed.

Lemma candidate_row_unique c c' :
  c ∈ cf_candidates cfg -> c' ∈ cf_candidates cfg -> cn_id c = cn_id c' -> c = c'.
Proof.
  intros Hc Hc' Heq. pose proof (by_key_Some cn_id _ (g_candidate_ids Hg)) as Hk.
  assert (by_key cn_id (cf_candidates cfg) !! cn_id c = Some c) by by apply Hk.
  assert (by_key cn_id (cf_candidates cfg) !! cn_id c = Some c') by by apply Hk. congruence.
Qed.

Lemma elem_of_route_rows rid c :
  c ∈ List.filter cn_enabled (default [] (ci_by_route (candidate_index (cf_candidates cfg)) !! rid))
  <-> (c ∈ cf_candidates cfg) /\ cn_route_id c = rid /\ cn_enabled c = true.
Proof.
  rewrite list_elem_of_In, filter_In, <- list_elem_of_In. simpl. rewrite lookup_fmap.
  destruct (group_by cn_route_id (cf_candidates cfg) !! rid) as [l|] eqn:Hl; simpl.
  - unfold sort_candidates. rewrite sort_by_perm.
    pose proof (elem_of_group cn_route_id (cf_candidates cfg) rid c) as He. rewrite Hl in He. simpl in He. tauto.
  - pose proof (elem_of_group cn_route_id (cf_candidates cfg) rid c) as He. rewrite Hl in He. simpl in He. tauto.
Qed.

Lemma elem_of_candidates_of rid cc :
  cc ∈ candidates_of rid <-> exists c, (c ∈ cf_candidates cfg) /\ cn_route_id c = rid /\ candidate_live c /\ candidate_compiles c cc.
Proof.
  unfold route_candidates_of. rewrite sort_by_perm, list_elem_of_omap. setoid_rewrite elem_of_route_rows. split.
  - intros (c & (Hc & Hr & Hen) & Hl). apply Hcomp in Hl as (c' & Hc' & Hid & Hlive & Hcc).
    assert (c = c') as <- by by apply candidate_row_unique. by exists c.
  - intros (c & Hc & Hr & Hlive & Hcc). exists c. split; [split_and!; [done|done|apply Hlive]|]. apply Hcomp. by exists c.
Qed.

Lemma nodup_omap_ids (l : list RouteCandidateConfiguration) :
  NoDup (cn_id <$> l) -> (forall c, c ∈ l -> c ∈ cf_candidates cfg) -> NoDup (cc_id <$> omap (fun c => compiled !! cn_id c) l).
Proof.
  assert (forall c cc, compiled !! cn_id c = Some cc -> cc_id cc = cn_id c) as Hid.
  { intros c cc Hl. apply Hcomp in Hl as (c' & _ & -> & _ & Hcc). by apply compiles_id. }
  induction l as [|c l IH]; intros Hnd Hsub; [constructor|]. apply NoDup_cons in Hnd as [Hc Hnd]. cbn [omap list_omap].
  assert (NoDup (cc_id <$> omap (fun c => compiled !! cn_id c) l)) as IH' by (apply IH; [done|]; intros; apply Hsub; by right).
  destruct (compiled !! cn_id c) as [cc|] eqn:Hcc; [|done]. apply NoDup_cons. split; [|done].
  intros (cc' & Heq & Hin)%list_elem_of_fmap. apply list_elem_of_omap in Hin as (c' & Hc' & Hl).
  apply Hc. rewrite <- (Hid c cc Hcc), Heq, (Hid c' cc' Hl). by apply list_elem_of_fmap_2.
Qed.

Lemma route_rows_nodup rid :
  NoDup (cn_id <$> List.filter cn_enabled (default [] (ci_by_route (candidate_index (cf_candidates cfg)) !! rid))).
Proof.
  rewrite filterb_filter. apply nodup_fmap_filter. simpl. rewrite lookup_fmap, group_by_lookup.
  case_decide; simpl; [|constructor]. unfold sort_candidates. rewrite sort_by_perm.
  apply nodup_fmap_filter, (g_candidate_ids Hg).
Qed.

Lemma candidates_of_sorted rid :
  StronglySorted (fun a b => compiled_leb a b = true) (candidates_of rid) /\ NoDup (cc_id <$> candidates_of rid).
Proof.
  unfold route_candidates_of. split; [apply sort_by_sorted; [apply compiled_leb_total|apply compiled_leb_trans]|].
  rewrite sort_by_perm. apply nodup_omap_ids; [apply route_rows_nodup|]. intros c [Hc _]%elem_of_route_rows. done.
Qed.

Definition compiled_route (r : ModelRouteConfiguration) : CompiledRoute :=
  mkCompiledRoute (rt_id r) (rt_public_model_id r) (rt_policy r) (rt_max_attempts r) (rt_bootstrap_timeout_ms r)
    (candidates_of (rt_id r)).

Lemma live_of_route r c :
  r ∈ cf_routes cfg -> route_active r -> cn_route_id c = rt_id r -> cn_enabled c = true -> candidate_live c.
Proof. intros Hr Ha Hc He. split; [done|]. by exists r. Qed.

Lemma compiled_route_compiles r :
  r ∈ cf_routes cfg -> route_active r -> candidates_of (rt_id r) <> [] -> route_compiles r (compiled_route r).
Proof.
  intros Hr Ha Hne. destruct (candidates_of_sorted (rt_id r)) as [Hs Hnd]. unfold route_compiles. simpl.
  split_and!; try done. intros cc. rewrite elem_of_candidates_of. split.
  - intros (c & Hc & Hid & Hl & Hcc). exists c. split_and!; [done|apply Hl|done|done].
  - intros (c & Hc & He & Hid & Hcc). exists c. split_and!; [done|done|by eapply live_of_route|done].
Qed.

Definition route_entry (r : ModelRouteConfiguration) : CompileM (option (RouteId * CompiledRoute)) :=
  let? public_model := ok_or (route_error MissingRoutePublicModel (as_str (rt_id r)))
                         (by_key pc_id (cf_public_models cfg) !! rt_public_model_id r) in
  if negb (bool_decide (pc_status public_model = AdminActive)) then Ok None
  else match candidates_of (rt_id r) with
       | [] => Err (route_error RouteHasNoHardEligibleCandidate (as_str (rt_id r)))
       | _ => Ok (Some (rt_id r, compiled_route r))
       end.

Context (Hlive : Forall (fun c => candidate_live c -> exists cc, candidate_compiles c cc) (cf_candidates cfg)).

Lemma route_has_candidates r :
  r ∈ cf_routes cfg -> route_active r ->
  candidates_of (rt_id r) <> [] <-> exists c, (c ∈ cf_candidates cfg) /\ cn_enabled c = true /\ cn_route_id c = rt_id r.
Proof.
  intros Hr Ha. split.
  - destruct (candidates_of (rt_id r)) as [|cc l] eqn:Hl; [done|]. intros _.
    assert (cc ∈ candidates_of (rt_id r)) as Hin by (rewrite Hl; left).
    apply elem_of_candidates_of in Hin as (c & Hc & Hid & Hlv & _). exists c. split_and!; [done|apply Hlv|done].
  - intros (c & Hc & He & Hid). pose proof (live_of_route r c Hr Ha Hid He) as Hlv. rewrite Forall_forall in Hlive.
    destruct (Hlive c Hc Hlv) as [cc Hcc]. intros Hnil.
    assert (cc ∈ candidates_of (rt_id r)) as Hin by (apply elem_of_candidates_of; by exists c).
    rewrite Hnil in Hin. by apply elem_of_nil in Hin.
Qed.

Lemma route_model_status r :
  r ∈ cf_routes cfg ->
  exists p, by_key pc_id (cf_public_models cfg) !! rt_public_model_id r = Some p
    /\ (pc_status p = AdminActive <-> route_active r).
Proof.
  intros Hr. pose proof (g_routes Hg) as Hall. rewrite Forall_forall in Hall. specialize (Hall r Hr).
  apply list_elem_of_fmap in Hall as (p & Hid & Hp). exists p. pose proof (by_key_Some pc_id _ (g_model_ids Hg)) as Hk.
  assert (by_key pc_id (cf_public_models cfg) !! rt_public_model_id r = Some p) as Hl by by apply Hk.
  split; [done|]. split; [intros Hs; by exists p|]. intros (p' & Hp' & Hid' & Hs).
  assert (by_key pc_id (cf_public_models cfg) !! rt_public_model_id r = Some p') by by apply Hk. congruence.
Qed.

Lemma route_entry_decides r :
  r ∈ cf_routes cfg ->
  decides (route_entry r)
    (route_active r -> exists c, (c ∈ cf_candidates cfg) /\ cn_enabled c = true /\ cn_route_id c = rt_id r)
    (fun y => forall k cr, y = Some (k, cr) <->
       k = rt_id r /\ route_active r /\ candidates_of (rt_id r) <> [] /\ cr = compiled_route r).
Proof.
  intros Hr. unfold route_entry. destruct (route_model_status r Hr) as (p & -> & Hp). simpl.
  case_bool_decide as Hs; simpl; [|split; [tauto|]; intros; split; [done|tauto]].
  apply Hp in Hs. pose proof (route_has_candidates r Hr Hs) as Hc. destruct (candidates_of (rt_id r)) as [|cc l]; simpl.
  - intros Hex. by apply Hc in Hex.
  - split; [intros _; by apply Hc|]. intros k cr. split; [|naive_solver]. by intros [= <- <-].
Qed.

Lemma compile_routes_decides :
  decides (compile_active_routes (route_index (cf_routes cfg)) (by_key pc_id (cf_public_models cfg))
             (candidate_index (cf_candidates cfg)) compiled)
    (Forall (fun r => route_active r ->
       exists c, (c ∈ cf_candidates cfg) /\ cn_enabled c = true /\ cn_route_id c = rt_id r) (cf_routes cfg))
    (fun m => forall k cr, m !! k = Some cr <-> exists r, (r ∈ cf_routes cfg) /\ k = rt_id r /\ route_active r
       /\ candidates_of (rt_id r) <> [] /\ cr = compiled_route r).
Proof.
  unfold compile_active_routes. simpl.
  apply (try_fold_rows rt_id route_entry _
    (fun r k cr => k = rt_id r /\ route_active r /\ candidates_of (rt_id r) <> [] /\ cr = compiled_route r) _ (cf_routes cfg)).
  - apply id_values_perm, (g_route_ids Hg).
  - apply (g_route_ids Hg).
  - intros m r. unfold compile_one_route, route_entry, compiled_route. destruct (by_key _ _ !! _); simpl; [|done].
    destruct (negb _); simpl; [done|]. by destruct (candidates_of (rt_id r)).
  - apply route_entry_decides.
  - by intros r k cr _ [-> _].
  - intros r k cr Hr (_ & Ha & Hne & _) _. by apply (route_has_candidates r Hr Ha).
Qed.

(** ** Access groups, public models and aliases *)

Definition grants_route (gt : AccessGroupRouteConfiguration) : Prop :=
  exists r, (r ∈ cf_routes cfg) /\ rt_id r = gt_route_id gt /\ route_active r.

Definition enabled_grants (l : list AccessGroupRouteConfiguration) : gset RouteId :=
  list_to_set (gt_route_id <$> filter (fun gt => gt_enabled gt = true) l).

Definition group_compiles (g : AccessGroupConfiguration) (cg : CompiledAccessGroup) : Prop :=
  cg_id cg = gr_id g /\ cg_name cg = gr_name g
  /\ forall r, r ∈ cg_allowed_route_ids cg <-> exists gt, (gt ∈ cf_grants cfg) /\ gt_access_group_id gt = gr_id g
       /\ gt_enabled gt = true /\ gt_route_id gt = r.

Context (croutes : gmap RouteId CompiledRoute).
Context (Hcroutes : forall k, is_Some (croutes !! k) <-> exists r, (r ∈ cf_routes cfg) /\ rt_id r = k /\ route_active r).

Lemma allow_routes_decides l :
  decides (try_fold (allow_route croutes) l ∅)
    (Forall (fun gt => gt_enabled gt = true -> grants_route gt) l) (fun s => s = enabled_grants l).
Proof.
  eapply decides_iff; [|apply each_row_Forall].
  apply (try_fold_decides (allow_route croutes) (fun _ gt => gt_enabled gt = true -> grants_route gt) enabled_grants).
  intros pre gt _ _ _. unfold allow_route, enabled_grants. rewrite filter_app, filter_cons, filter_nil.
  destruct (gt_enabled gt) eqn:He; simpl.
  - eapply decides_iff.
    + apply decides_guard; [apply guard_negb|]. intros _. apply decides_ok.
      rewrite fmap_app, list_to_set_app_L. simpl. set_solver.
    + rewrite Hcroutes. unfold grants_route. tauto.
  - split; [done|]. by rewrite app_nil_r.
Qed.

Definition group_grants (g : AccessGroupConfiguration) : list AccessGroupRouteConfiguration :=
  default [] (group_by gt_access_group_id (cf_grants cfg) !! gr_id g).

Definition group_entry (g : AccessGroupConfiguration) : CompileM (option (AccessGroupId * CompiledAccessGroup)) :=
  if negb (bool_decide (gr_status g = AdminActive)) then Ok None
  else let? allowed := try_fold (allow_route croutes) (group_grants g) ∅ in
       Ok (Some (gr_id g, mkCompiledGroup (gr_id g) (gr_name g) allowed)).

Lemma compile_groups_decides :
  decides (compile_access_groups (by_key gr_id (cf_access_groups cfg)) (group_by gt_access_group_id (cf_grants cfg)) croutes)
    (Forall (fun g => gr_status g = AdminActive ->
       Forall (fun gt => gt_enabled gt = true -> grants_route gt) (group_grants g)) (cf_access_groups cfg))
    (fun m => forall k cg, m !! k = Some cg <-> exists g, (g ∈ cf_access_groups cfg)
       /\ k = gr_id g /\ gr_status g = AdminActive
       /\ Forall (fun gt => gt_enabled gt = true -> grants_route gt) (group_grants g)
       /\ cg = mkCompiledGroup (gr_id g) (gr_name g) (enabled_grants (group_grants g))).
Proof.
  unfold compile_access_groups.
  apply (try_fold_rows gr_id group_entry _
    (fun g k cg => k = gr_id g /\ gr_status g = AdminActive
       /\ Forall (fun gt => gt_enabled gt = true -> grants_route gt) (group_grants g)
       /\ cg = mkCompiledGroup (gr_id g) (gr_name g) (enabled_grants (group_grants g))) _ (cf_access_groups cfg)).
  - apply id_values_perm, (g_group_ids Hg).
  - apply (g_group_ids Hg).
  - intros m g. unfold compile_one_access_group, group_entry. fold (group_grants g). destruct (negb _); simpl; [done|].
    by destruct (try_fold _ _ _).
  - intros g _. unfold group_entry. case_bool_decide as Hs; simpl; [|split; [done|]; intros; split; [done|tauto]].
    pose proof (allow_routes_decides (group_grants g)) as Hd. destruct (try_fold _ _ _) as [s| |]; simpl in *; [|tauto|done].
    destruct Hd as [Hall ->]. split; [done|]. intros k cg. split; [|naive_solver]. by intros [= <- <-].
  - by intros g k cg _ [-> _].
  - by intros g k cg _ (_ & _ & ? & _).
Qed.

Lemma groups_live_iff :
  Forall (fun g => gr_status g = AdminActive ->
     Forall (fun gt => gt_enabled gt = true -> grants_route gt) (group_grants g)) (cf_access_groups cfg) <->
  Forall (fun gt => gt_enabled gt = true ->
      (exists gr, (gr ∈ cf_access_groups cfg) /\ gr_id gr = gt_access_group_id gt /\ gr_status gr = AdminActive) ->
      grants_route gt) (cf_grants cfg).
Proof.
  rewrite !Forall_forall. setoid_rewrite Forall_forall. unfold group_grants.
  setoid_rewrite (elem_of_group gt_access_group_id). split.
  - intros Hall gt Hgt He (gr & Hgr & Hid & Hs). by apply (Hall gr Hgr Hs gt).
  - intros Hall gr Hgr Hs gt [Hgt Hid] He. apply (Hall gt Hgt He). by exists gr.
Qed.

Lemma compiled_group_compiles g : group_compiles g (mkCompiledGroup (gr_id g) (gr_name g) (enabled_grants (group_grants g))).
Proof.
  clear Hcroutes croutes Hlive Hcomp Hreq Hg.
  split; [done|]. split; [done|]. intros r. simpl. unfold enabled_grants, group_grants.
  rewrite elem_of_list_to_set, list_elem_of_fmap. setoid_rewrite list_elem_of_filter.
  setoid_rewrite (elem_of_group gt_access_group_id). naive_solver.
Qed.

Definition model_entry (p : PublicModelConfiguration) : CompileM (option (string * CompiledPublicModel)) :=
  if negb (bool_decide (pc_status p = AdminActive)) then Ok None
  else
    let? route_id := ok_or (route_error ActivePublicModelMissingRoute (as_str (pc_id p)))
                       (ri_route_for_public_model (route_index (cf_routes cfg)) !! pc_id p) in
    let? caps := ok_or (route_error InvalidPublicModelCapabilities (as_str (pc_id p))) (required !! pc_id p) in
    Ok (Some (pc_model_name p, mkCompiledModel (pc_id p) (pc_model_name p) (pc_display_name p) caps route_id)).

Definition model_compiles (p : PublicModelConfiguration) (cm : CompiledPublicModel) : Prop :=
  exists r caps, ((r ∈ cf_routes cfg) /\ rt_public_model_id r = pc_id p) /\ required_capabilities_of p = Ok caps
    /\ cm = mkCompiledModel (pc_id p) (pc_model_name p) (pc_display_name p) caps (rt_id r).

Lemma route_for_model k rid :
  ri_route_for_public_model (route_index (cf_routes cfg)) !! k = Some rid <->
  exists r, ((r ∈ cf_routes cfg) /\ rt_public_model_id r = k) /\ rt_id r = rid.
Proof.
  simpl. rewrite lookup_fmap, fmap_Some. setoid_rewrite (by_key_Some rt_public_model_id _ (g_route_models Hg)). naive_solver.
Qed.

Lemma required_of_model p : p ∈ cf_public_models cfg -> exists caps, required !! pc_id p = Some caps /\ required_capabilities_of p = Ok caps.
Proof.
  intros Hp. pose proof (g_model_capabilities Hg) as Hall. rewrite Forall_forall in Hall.
  destruct (Hall p Hp) as [caps Hc]. exists caps. split; [|done]. apply Hreq. by exists p.
Qed.

Lemma compile_models_decides :
  decides (try_fold (compile_one_public_model (route_index (cf_routes cfg)) required)
             (id_values (by_key pc_id (cf_public_models cfg))) ∅)
    (Forall (fun p => pc_status p = AdminActive -> exists r, (r ∈ cf_routes cfg) /\ rt_public_model_id r = pc_id p)
       (cf_public_models cfg))
    (fun m => forall k cm, m !! k = Some cm <-> exists p, (p ∈ cf_public_models cfg)
       /\ k = pc_model_name p /\ pc_status p = AdminActive /\ model_compiles p cm).
Proof.
  apply (try_fold_rows pc_model_name model_entry _
    (fun p k cm => k = pc_model_name p /\ pc_status p = AdminActive /\ model_compiles p cm) _ (cf_public_models cfg)).
  - apply id_values_perm, (g_model_ids Hg).
  - apply (g_model_names Hg).
  - intros m p. unfold compile_one_public_model, model_entry. destruct (negb _); simpl; [done|].
    destruct (_ !! pc_id p); simpl; [|done]. by destruct (required !! pc_id p).
  - intros p Hp. unfold model_entry. case_bool_decide as Hs; simpl; [|split; [done|]; intros; split; [done|tauto]].
    destruct (required_of_model p Hp) as (caps & Hr & Hc). pose proof (route_for_model (pc_id p)) as Hrf. simpl in Hrf.
    destruct ((rt_id <$> by_key rt_public_model_id (cf_routes cfg)) !! pc_id p) as [rid|]; simpl.
    + rewrite Hr. simpl. destruct (proj1 (Hrf rid) eq_refl) as (r & Hrow & <-). split; [by eauto|]. intros k cm. split.
      * intros [= <- <-]. split; [done|]. split; [done|]. by exists r, caps.
      * intros (-> & _ & r' & caps' & Hrow' & Hc' & ->). assert (Some (rt_id r) = Some (rt_id r')) by (apply Hrf; eauto).
        naive_solver congruence.
    + intros Hex. destruct (Hex Hs) as (r & Hrow). assert (None = Some (rt_id r)) by (apply Hrf; eauto). done.
  - by intros p k cm _ [-> _].
  - intros p k cm _ (_ & _ & r & caps & Hr & _) _. by exists r.
Qed.

Definition alias_pair (a : ModelAliasConfiguration) : string * PublicModelId := (al_alias a, al_public_model_id a).

Lemma text_entries_perm : text_entries (alias_map (cf_aliases cfg)) ≡ₚ (alias_pair <$> cf_aliases cfg).
Proof.
  unfold text_entries. rewrite sort_by_perm. pose proof (g_alias_names Hg) as Hnd.
  assert ((alias_pair <$> cf_aliases cfg).*1 = al_alias <$> cf_aliases cfg) as Hfst by by rewrite <- list_fmap_compose.
  assert (alias_map (cf_aliases cfg) = list_to_map (alias_pair <$> cf_aliases cfg)) as ->.
  { apply map_eq. intros i. apply option_eq. intros id. unfold alias_map. rewrite lookup_fmap, fmap_Some.
    setoid_rewrite (by_key_Some al_alias _ Hnd). rewrite <- elem_of_list_to_map, list_elem_of_fmap by by rewrite Hfst.
    unfold alias_pair. naive_solver. }
  by rewrite map_to_list_to_map by by rewrite Hfst.
Qed.

Definition alias_entry (a : string * PublicModelId) : CompileM (option (string * PublicModelId)) :=
  let? public_model := ok_or (route_error MissingAliasPublicModel a.1) (by_key pc_id (cf_public_models cfg) !! a.2) in
  if bool_decide (pc_status public_model = AdminActive) then Ok (Some (a.1, a.2)) else Ok None.

Lemma compile_aliases_decides :
  decides (try_fold (compile_one_alias (by_key pc_id (cf_public_models cfg))) (text_entries (alias_map (cf_aliases cfg))) ∅)
    (Forall (fun _ => True) (alias_pair <$> cf_aliases cfg))
    (fun m => forall k id, m !! k = Some id <->
       exists a, (a ∈ alias_pair <$> cf_aliases cfg) /\ k = a.1 /\ id = a.2 /\ model_active a.2).
Proof.
  apply (try_fold_rows fst alias_entry _ (fun a k id => k = a.1 /\ id = a.2 /\ model_active a.2) _ (alias_pair <$> cf_aliases cfg)).
  - apply text_entries_perm.
  - rewrite <- list_fmap_compose. apply (g_alias_names Hg).
  - intros m a. unfold compile_one_alias, alias_entry. destruct (_ !! a.2); simpl; [|done]. by case_bool_decide.
  - intros a (row & -> & Hrow)%list_elem_of_fmap. unfold alias_entry. simpl.
    pose proof (g_aliases Hg) as Hall. rewrite Forall_forall in Hall. destruct (Hall row Hrow) as [Hid _].
    apply list_elem_of_fmap in Hid as (p & Hid & Hp). pose proof (by_key_Some pc_id _ (g_model_ids Hg)) as Hk.
    assert (by_key pc_id (cf_public_models cfg) !! al_public_model_id row = Some p) as Hl by by apply Hk.
    rewrite Hl. simpl. assert (pc_status p = AdminActive <-> model_active (al_public_model_id row)) as Hs.
    { split; [intros; by exists p|]. intros (p' & Hp' & Hid' & Hs).
      assert (by_key pc_id (cf_public_models cfg) !! al_public_model_id row = Some p') by by apply Hk. congruence. }
    case_bool_decide as Ha; simpl; (split; [done|]); intros k id; split; try done.
    + intros [= <- <-]. split_and!; [done|done|by apply Hs].
    + intros (-> & -> & _). done.
    + intros (_ & _ & Hm). by apply Hs in Hm.
  - by intros a k id _ [-> _].
  - done.
Qed.
End Publishable.

(** What a compiled configuration contains, in terms of the rows. *)
Record compiled_as `{JsonText} (compiler : RouteCompiler) (cfg : ControlPlaneConfiguration)
    (c : CompiledRouteConfiguration) : Prop := {
  as_version : co_config_version_id c = cv_id (cf_version cfg);
  as_route : forall k cr, co_routes c !! k = Some cr ->
    exists r, (r ∈ cf_routes cfg) /\ k = rt_id r /\ route_active cfg r /\ route_compiles compiler cfg r cr;
  as_every_route : forall r, r ∈ cf_routes cfg -> route_active cfg r -> is_Some (co_routes c !! rt_id r);
  as_model : forall k cm, co_public_models c !! k = Some cm <->
    exists p, (p ∈ cf_public_models cfg) /\ k = pc_model_name p /\ pc_status p = AdminActive /\ model_compiles cfg p cm;
  as_alias : forall k id, co_aliases c !! k = Some id <->
    exists a, (a ∈ cf_aliases cfg) /\ al_alias a = k /\ al_public_model_id a = id /\ model_active cfg id;
  as_group : forall k cg, co_access_groups c !! k = Some cg ->
    exists g, (g ∈ cf_access_groups cfg) /\ k = gr_id g /\ gr_status g = AdminActive /\ group_compiles cfg g cg;
  as_every_group : forall g, g ∈ cf_access_groups cfg -> gr_status g = AdminActive -> is_Some (co_access_groups c !! gr_id g);
}.

Section Compile.
Context `{JsonText} (compiler : RouteCompiler) (cfg : ControlPlaneConfiguration).

Definition live_conditions : Prop :=
  Forall (fun c => candidate_live cfg c -> exists cc, candidate_compiles compiler cfg c cc) (cf_candidates cfg)
  /\ (Forall (fun r => route_active cfg r ->
       exists c, (c ∈ cf_candidates cfg) /\ cn_enabled c = true /\ cn_route_id c = rt_id r) (cf_routes cfg))
  /\ (Forall (fun g => gr_status g = AdminActive ->
       Forall (fun gt => gt_enabled gt = true -> grants_route cfg gt) (group_grants cfg g)) (cf_access_groups cfg))
  /\ (Forall (fun p => pc_status p = AdminActive -> exists r, (r ∈ cf_routes cfg) /\ rt_public_model_id r = pc_id p)
       (cf_public_models cfg))
  /\ Forall (fun _ => True) (alias_pair <$> cf_aliases cfg) /\ True.

Lemma live_conditions_iff : live_conditions <-> live_ok compiler cfg.
Proof.
  unfold live_conditions. rewrite (groups_live_iff cfg). unfold candidate_live, grants_route. split.
  - intros (H1 & H2 & H3 & H4 & _). split; [|done|done|done]. eapply Forall_impl; [exact H1|]. simpl. intuition.
  - intros [H1 H2 H3 H4]. split_and!; try done; [|apply Forall_forall; done].
    eapply Forall_impl; [exact H1|]. simpl. intuition.
Qed.

(** The second half of [compile], over an accepted graph. *)
Lemma compile_live required :
  graph_ok cfg -> required_sound cfg required ->
  decides
    (let? compiled := compile_active_candidates compiler (context_of cfg required) in
     let? croutes := compile_active_routes (route_index (cf_routes cfg)) (by_key pc_id (cf_public_models cfg))
                       (candidate_index (cf_candidates cfg)) compiled in
     let? cgroups := compile_access_groups (by_key gr_id (cf_access_groups cfg))
                       (group_by gt_access_group_id (cf_grants cfg)) croutes in
     let? cmodels := try_fold (compile_one_public_model (route_index (cf_routes cfg)) required)
                       (id_values (by_key pc_id (cf_public_models cfg))) ∅ in
     let? caliases := try_fold (compile_one_alias (by_key pc_id (cf_public_models cfg)))
                        (text_entries (alias_map (cf_aliases cfg))) ∅ in
     Ok (mkCompiled (cv_id (cf_version cfg)) cmodels caliases croutes cgroups))
    live_conditions (compiled_as compiler cfg).
Proof.
  intros Hg Hreq. unfold live_conditions.
  eapply decides_bind; [by apply compile_candidates_decides|]. intros compiled Hlive Hcomp.
  eapply decides_bind; [by eapply compile_routes_decides|]. intros croutes Hrl Hroutes.
  assert (forall r, r ∈ cf_routes cfg -> route_active cfg r ->
    route_candidates_of (candidate_index (cf_candidates cfg)) compiled (rt_id r) <> []) as Hne.
  { intros r Hr Ha. eapply route_has_candidates; [done|done|done|done|done|].
    rewrite Forall_forall in Hrl. by apply Hrl. }
  assert (forall k, is_Some (croutes !! k) <-> exists r, (r ∈ cf_routes cfg) /\ rt_id r = k /\ route_active cfg r) as Hex.
  { intros k. split.
    - intros [cr (r & Hr & -> & Ha & _)%Hroutes]. by exists r.
    - intros (r & Hr & <- & Ha). eexists. apply Hroutes. exists r. split_and!; [done|done|done|by apply Hne|done]. }
  eapply decides_bind; [by eapply compile_groups_decides|]. intros cgroups Hgl Hgroups.
  eapply decides_bind; [by eapply compile_models_decides|]. intros cmodels Hml Hmodels.
  eapply decides_bind; [by eapply compile_aliases_decides|]. intros caliases _ Haliases.
  apply decides_ok. split; simpl; [done| | |done| | |].
  - intros k cr (r & Hr & -> & Ha & Hn & ->)%Hroutes. exists r. split_and!; [done|done|done|].
    by apply compiled_route_compiles.
  - intros r Hr Ha. apply Hex. by exists r.
  - intros k id. cbv beta in Haliases. rewrite Haliases. split.
    + intros (a & (row & -> & Hrow)%list_elem_of_fmap & -> & -> & Hm). by exists row.
    + intros (row & Hrow & <- & <- & Hm). exists (alias_pair row). split; [by apply list_elem_of_fmap_2|done].
  - intros k cg (g & Hgin & -> & Hs & _ & ->)%Hgroups. exists g. split_and!; [done|done|done|]. apply compiled_group_compiles.
  - intros g Hgin Hs. eexists. apply Hgroups. exists g. split_and!; [done|done|done| |done].
    rewrite Forall_forall in Hgl. by apply Hgl.
Qed.

Lemma compile_decides :
  decides (compile compiler cfg) (publishable compiler cfg) (compiled_as compiler cfg).
Proof.
  unfold compile. eapply decides_iff.
  - eapply decides_bind; [apply index_upstreams_decides|]. intros ups Hups ->.
    eapply decides_bind; [apply index_endpoints_decides|]. intros eps (He1 & He2 & He3) ->.
    eapply decides_bind; [apply index_credentials_decides|]. intros creds (Hc1 & Hc2) ->.
    eapply decides_bind; [by apply validate_bindings_decides|]. intros bns Hbn ->.
    eapply decides_bind; [apply index_public_models_decides|]. intros pms (Hp1 & Hp2) ->.
    eapply decides_bind; [by apply parse_capabilities_decides|]. intros required Hcap Hreq.
    eapply decides_bind; [by apply index_aliases_decides|]. intros als (Ha1 & Ha2) ->.
    eapply decides_bind; [apply index_routes_decides|]. intros rts (Hr1 & Hr2 & Hr3) ->.
    eapply decides_bind; [apply index_candidates_decides|]. intros cns (Hn1 & Hn2 & Hn3) ->.
    eapply decides_bind; [apply index_access_groups_decides|]. intros grs Hgr ->.
    eapply decides_bind; [apply validate_grants_decides|]. intros gts Hgt ->.
    apply (compile_live required); [|done]. by split.
  - rewrite live_conditions_iff. unfold publishable. split.
    + intros (? & (? & ? & ?) & (? & ?) & ? & (? & ?) & ? & (? & ?) & (? & ? & ?) & (? & ? & ?) & ? & ? & ?). split; [by split|done].
    + intros [[] ?]. split_and!; done.
Qed.

(** C9: The compiler accepts exactly the publishable configurations.  [compile]
    succeeds if and only if every identity is unique, every reference resolves, each
    Endpoint speaks a format its adapter serves, and everything that would go live
    is complete (an enabled candidate of an active model has an enabled Endpoint and
    Upstream, an eligible catalog entry, the promised capabilities without
    escalation and an active credential; an active model has a route, an active
    route a candidate, an active group only live routes).  What it then returns is
    exactly the live part of the rows: the compiled routes, models, aliases and
    access groups are those of the active rows and nothing else. *)
Theorem compile_exact :
  decides (compile compiler cfg) (publishable compiler cfg) (compiled_as compiler cfg).
Proof. apply compile_decides. Qed.
End Compile.
