(* ===== verification/RouteSnapshot.v ===== *)
(** * Route snapshots

    Models [crates/gateway-router/src/route_snapshot.rs]: the immutable runtime
    view of public models, aliases, routes with their compiled candidate
    schedules, access groups and client keys; its validation; model resolution
    under access control; the publication registry with its one-step rollback;
    and the authenticator that pins one snapshot per request.

    [BTreeMap]s are [gmap]s; where their ascending iteration order shows in a
    result, [btree_values] sorts by key. *)

From S2P Require Import Prelude Core WeightedSchedule Catalog ClientKey.
Local Open Scope string_scope.
Local Open Scope list_scope.
Local Open Scope Z_scope.

(** ** Data *)

Inductive SnapshotRoutePolicy : Type := RoundRobin | SmoothWeightedRoundRobin | PriorityFailover.
Inductive SnapshotTransformMode : Type := Passthrough | Canonical | LosslessBridge | CanonicalBridge.
Inductive SnapshotCatalogAdmission : Type := Listed (state : CatalogModelState) | AllowedUnlisted.

Record SnapshotPublicModel : Type := mkPublicModel {
  pm_id : PublicModelId;
  model_name : string;
  display_name : string;
  required_capabilities : CapabilitySet;
  pm_route_id : RouteId;
}.

Record SnapshotRouteCandidate : Type := mkCandidate {
  cand_id : RouteCandidateId;
  cand_endpoint_id : EndpointId;
  cand_upstream_id : UpstreamId;
  endpoint_api_format : string;
  upstream_model : string;
  transform_mode : SnapshotTransformMode;
  cand_priority : Z;
  cand_weight : Z;
  effective_capabilities : CapabilitySet;
  catalog_admission : SnapshotCatalogAdmission;
  active_binding_count : Z;
}.

Record SnapshotRoute : Type := mkRoute {
  route_id : RouteId;
  route_public_model_id : PublicModelId;
  policy : SnapshotRoutePolicy;
  max_attempts : Z;
  bootstrap_timeout_ms : Z;
  candidates : list SnapshotRouteCandidate;
}.

Record SnapshotPriorityTierSchedule : Type := mkTierSchedule {
  sched_priority : Z;
  sched_slot_indexes : list nat;
}.

Record SnapshotRouteSchedule : Type := mkSchedule { schedule_tiers : list SnapshotPriorityTierSchedule }.

Record SnapshotAccessGroup : Type := mkAccessGroup {
  ag_id : AccessGroupId;
  ag_name : string;
  ag_allowed_route_ids : gset RouteId;
}.

Record SnapshotClientKeyView : Type := mkKeyView {
  ck_record : ClientKeyRecord;
  ck_allowed_route_ids : gset RouteId;
}.

Record RouteSnapshotInput : Type := mkSnapshotInput {
  si_version : string;
  si_public_models : list SnapshotPublicModel;
  si_aliases : list (string * PublicModelId);
  si_routes : list SnapshotRoute;
  si_access_groups : list SnapshotAccessGroup;
  si_client_keys : list SnapshotClientKeyView;
}.

Record RouteSnapshot : Type := mkRouteSnapshot {
  version : string;
  public_models : gmap string SnapshotPublicModel;
  public_model_names_by_id : gmap PublicModelId string;
  aliases : gmap string PublicModelId;
  routes : gmap RouteId SnapshotRoute;
  route_schedules : gmap RouteId SnapshotRouteSchedule;
  access_groups : gmap AccessGroupId SnapshotAccessGroup;
  client_keys : gmap ClientKeyPrefix SnapshotClientKeyView;
}.

Inductive RouteSnapshotBuildError : Type :=
| DuplicatePublicModelName | DuplicatePublicModelId | DuplicateRoute | UnknownRoutePublicModel
| PublicModelMissingRoute | PublicModelRouteMismatch | RouteHasNoCandidates
| InvalidCandidatePriority | InvalidCandidateWeight | RouteScheduleTooLarge | DuplicateCandidate
| AliasConflictsPublicModel | DuplicateAlias | UnknownAliasPublicModel | DuplicateAccessGroup
| AccessGroupReferencesUnknownRoute | DuplicateClientKeyPrefix | DuplicateClientKeyId
| ClientKeyReferencesUnknownAccessGroup | ClientKeyRoutePermissionsMismatch.

(** Values of a [BTreeMap<String, _>] in key order. *)
Definition btree_values {A} (m : gmap string A) : list A :=
  snd <$> sort_by (fun a b => String.leb a.1 b.1) (map_to_list m).

(** ** Candidate eligibility and schedules *)

Definition is_hard_eligible (c : SnapshotRouteCandidate) : bool :=
  (0 <? active_binding_count c)
  && match catalog_admission c with
     | Listed state => state_is_hard_eligible state
     | AllowedUnlisted => true
     end.

Definition has_hard_eligible_candidate (r : SnapshotRoute) : bool := existsb is_hard_eligible (candidates r).

(** First loop of [try_compile]: validate and group by priority. *)
Fixpoint group_candidates (cands : list SnapshotRouteCandidate) (index : nat) (tiers : list (Z * list nat))
  : result RouteSnapshotBuildError (list (Z * list nat)) :=
  match cands with
  | [] => Ok tiers
  | c :: rest =>
      if cand_priority c <? 0 then Err InvalidCandidatePriority
      else if cand_weight c <=? 0 then Err InvalidCandidateWeight
      else group_candidates rest (S index) (tier_push (cand_priority c) index tiers)
  end.

(** [route.candidates()[*left].id().cmp(..)]; the indexes are in range, an index
    out of range would panic and compares here as the empty id. *)
Definition candidate_key (cands : list SnapshotRouteCandidate) (i : nat) : RouteCandidateId :=
  match cands !! i with Some c => cand_id c | None => mkId EmptyString end.

Definition sort_indexes (cands : list SnapshotRouteCandidate) (indexes : list nat) : list nat :=
  sort_by (fun l r => id_leb (candidate_key cands l) (candidate_key cands r)) indexes.

(** [smooth_weighted_slots] of this file: plain arithmetic, indexing may panic. *)
Definition route_weighted_slots (cands : list SnapshotRouteCandidate) (indexes : list nat)
  : result RouteSnapshotBuildError (list nat) :=
  smooth_weighted_slots RouteScheduleTooLarge Panic
    (fun index => match cands !! index with
                  | None => Panic
                  | Some c => ok_or RouteScheduleTooLarge (u64_try_from (cand_weight c))
                  end) indexes.

Definition tier_slots (r : SnapshotRoute) (indexes : list nat) : result RouteSnapshotBuildError (list nat) :=
  let sorted := sort_indexes (candidates r) indexes in
  match policy r with
  | RoundRobin | PriorityFailover =>
      if MAX_SCHEDULE_SLOTS <? Z.of_nat (length sorted) then Err RouteScheduleTooLarge else Ok sorted
  | SmoothWeightedRoundRobin => route_weighted_slots (candidates r) sorted
  end.

Fixpoint compile_tiers (r : SnapshotRoute) (tiers : list (Z * list nat))
  : result RouteSnapshotBuildError (list SnapshotPriorityTierSchedule) :=
  match tiers with
  | [] => Ok []
  | (p, indexes) :: rest =>
      let? slots := tier_slots r indexes in
      let? compiled := compile_tiers r rest in
      Ok (mkTierSchedule p slots :: compiled)
  end.

Definition try_compile (r : SnapshotRoute) : result RouteSnapshotBuildError SnapshotRouteSchedule :=
  let? tiers := group_candidates (candidates r) 0 [] in
  let? compiled := compile_tiers r tiers in
  Ok (mkSchedule compiled).

(** ** [RouteSnapshot::try_new] *)

Fixpoint add_public_models (l : list SnapshotPublicModel) (by_name : gmap string SnapshotPublicModel)
    (by_id : gmap PublicModelId string)
  : result RouteSnapshotBuildError (gmap string SnapshotPublicModel * gmap PublicModelId string) :=
  match l with
  | [] => Ok (by_name, by_id)
  | m :: rest =>
      if bool_decide (is_Some (by_name !! model_name m)) then Err DuplicatePublicModelName
      else if bool_decide (is_Some (by_id !! pm_id m)) then Err DuplicatePublicModelId
      else add_public_models rest (<[model_name m := m]> by_name) (<[pm_id m := model_name m]> by_id)
  end.

Fixpoint add_candidate_ids (l : list SnapshotRouteCandidate) (ids : gset RouteCandidateId)
  : result RouteSnapshotBuildError (gset RouteCandidateId) :=
  match l with
  | [] => Ok ids
  | c :: rest =>
      if bool_decide (cand_id c ∈ ids) then Err DuplicateCandidate
      else add_candidate_ids rest ({[ cand_id c ]} ∪ ids)
  end.

Fixpoint build_routes (input : list SnapshotRoute) (by_id : gmap PublicModelId string)
    (rs : gmap RouteId SnapshotRoute) (schedules : gmap RouteId SnapshotRouteSchedule)
    (candidate_ids : gset RouteCandidateId)
  : result RouteSnapshotBuildError (gmap RouteId SnapshotRoute * gmap RouteId SnapshotRouteSchedule) :=
  match input with
  | [] => Ok (rs, schedules)
  | r :: rest =>
      if bool_decide (is_Some (rs !! route_id r)) then Err DuplicateRoute
      else if negb (bool_decide (is_Some (by_id !! route_public_model_id r))) then Err UnknownRoutePublicModel
      else if bool_decide (candidates r = []) then Err RouteHasNoCandidates
      else
        let? ids := add_candidate_ids (candidates r) candidate_ids in
        let? schedule := try_compile r in
        build_routes rest by_id (<[route_id r := r]> rs) (<[route_id r := schedule]> schedules) ids
  end.

Fixpoint check_model_routes (l : list SnapshotPublicModel) (rs : gmap RouteId SnapshotRoute)
  : result RouteSnapshotBuildError unit :=
  match l with
  | [] => Ok tt
  | m :: rest =>
      match rs !! pm_route_id m with
      | None => Err PublicModelMissingRoute
      | Some r =>
          if negb (bool_decide (route_public_model_id r = pm_id m)) then Err PublicModelRouteMismatch
          else check_model_routes rest rs
      end
  end.

Fixpoint add_aliases (l : list (string * PublicModelId)) (by_name : gmap string SnapshotPublicModel)
    (by_id : gmap PublicModelId string) (als : gmap string PublicModelId)
  : result RouteSnapshotBuildError (gmap string PublicModelId) :=
  match l with
  | [] => Ok als
  | (alias, id) :: rest =>
      if bool_decide (is_Some (by_name !! alias)) then Err AliasConflictsPublicModel
      else if negb (bool_decide (is_Some (by_id !! id))) then Err UnknownAliasPublicModel
      else if bool_decide (is_Some (als !! alias)) then Err DuplicateAlias
      else add_aliases rest by_name by_id (<[alias := id]> als)
  end.

Fixpoint add_access_groups (l : list SnapshotAccessGroup) (rs : gmap RouteId SnapshotRoute)
    (groups : gmap AccessGroupId SnapshotAccessGroup)
  : result RouteSnapshotBuildError (gmap AccessGroupId SnapshotAccessGroup) :=
  match l with
  | [] => Ok groups
  | g :: rest =>
      if bool_decide (is_Some (groups !! ag_id g)) then Err DuplicateAccessGroup
      else if negb (bool_decide (ag_allowed_route_ids g ⊆ dom rs)) then Err AccessGroupReferencesUnknownRoute
      else add_access_groups rest rs (<[ag_id g := g]> groups)
  end.

Fixpoint add_client_keys (l : list SnapshotClientKeyView) (groups : gmap AccessGroupId SnapshotAccessGroup)
    (keys : gmap ClientKeyPrefix SnapshotClientKeyView) (ids : gset ClientKeyId)
  : result RouteSnapshotBuildError (gmap ClientKeyPrefix SnapshotClientKeyView) :=
  match l with
  | [] => Ok keys
  | k :: rest =>
      match groups !! rec_access_group_id (ck_record k) with
      | None => Err ClientKeyReferencesUnknownAccessGroup
      | Some g =>
          if negb (bool_decide (ck_allowed_route_ids k = ag_allowed_route_ids g))
          then Err ClientKeyRoutePermissionsMismatch
          else if bool_decide (rec_client_key_id (ck_record k) ∈ ids) then Err DuplicateClientKeyId
          else if bool_decide (is_Some (keys !! rec_prefix (ck_record k))) then Err DuplicateClientKeyPrefix
          else add_client_keys rest groups (<[rec_prefix (ck_record k) := k]> keys)
                 ({[ rec_client_key_id (ck_record k) ]} ∪ ids)
      end
  end.

Definition snapshot_try_new (input : RouteSnapshotInput) : result RouteSnapshotBuildError RouteSnapshot :=
  let? models := add_public_models (si_public_models input) ∅ ∅ in
  let? built := build_routes (si_routes input) models.2 ∅ ∅ ∅ in
  let? _ := check_model_routes (btree_values models.1) built.1 in
  let? als := add_aliases (si_aliases input) models.1 models.2 ∅ in
  let? groups := add_access_groups (si_access_groups input) built.1 ∅ in
  let? keys := add_client_keys (si_client_keys input) groups ∅ ∅ in
  Ok (mkRouteSnapshot (si_version input) models.1 models.2 als built.1 built.2 groups keys).

(** ** Resolution *)

Definition resolve_public_model (s : RouteSnapshot) (name_or_alias : string) : option SnapshotPublicModel :=
  match public_models s !! name_or_alias with
  | Some m => Some m
  | None =>
      aliases s !! name_or_alias ≫= fun id =>
      public_model_names_by_id s !! id ≫= fun name =>
      public_models s !! name
  end.

Definition permits_route (g : SnapshotAccessGroup) (r : RouteId) : bool := bool_decide (r ∈ ag_allowed_route_ids g).

Definition public_model_is_visible_to (s : RouteSnapshot) (g : SnapshotAccessGroup) (m : SnapshotPublicModel) : bool :=
  permits_route g (pm_route_id m)
  && match routes s !! pm_route_id m with
     | Some r => has_hard_eligible_candidate r
     | None => false
     end.

Definition resolve_public_model_for_access_group (s : RouteSnapshot) (group : AccessGroupId)
    (name_or_alias : string) : option SnapshotPublicModel :=
  access_groups s !! group ≫= fun g =>
  resolve_public_model s name_or_alias ≫= fun m =>
  if public_model_is_visible_to s g m then Some m else None.

Definition public_models_for_access_group (s : RouteSnapshot) (group : AccessGroupId) : list SnapshotPublicModel :=
  List.filter
    (fun m => match access_groups s !! group with
              | Some g => public_model_is_visible_to s g m
              | None => false
              end)
    (btree_values (public_models s)).

(** ** Publication registry *)

Inductive SnapshotRegistryError : Type := SameVersion | NoRollbackAvailable | PublicationLockPoisoned.

Record SnapshotRegistry : Type := mkSnapshotRegistry {
  current : RouteSnapshot;
  previous : option RouteSnapshot;
  publication_poisoned : bool;
}.

Record SnapshotTransition : Type := mkTransition { previous_version : string; current_version : string }.

Record PreparedSnapshotPublication : Type := mkPrepared { prepared_next : RouteSnapshot; prepared_previous : RouteSnapshot }.

Definition registry_new (initial : RouteSnapshot) : SnapshotRegistry := mkSnapshotRegistry initial None false.

Definition try_new_with_previous (initial : RouteSnapshot) (prev : option RouteSnapshot)
  : result SnapshotRegistryError SnapshotRegistry :=
  match prev with
  | Some candidate =>
      if bool_decide (version candidate = version initial) then Err SameVersion
      else Ok (mkSnapshotRegistry initial prev false)
  | None => Ok (mkSnapshotRegistry initial prev false)
  end.

Definition prepare_publication (reg : SnapshotRegistry) (next : RouteSnapshot)
  : result SnapshotRegistryError PreparedSnapshotPublication :=
  if publication_poisoned reg then Err PublicationLockPoisoned
  else if bool_decide (version (current reg) = version next) then Err SameVersion
  else Ok (mkPrepared next (current reg)).

Definition prepare_rollback (reg : SnapshotRegistry) : result SnapshotRegistryError PreparedSnapshotPublication :=
  if publication_poisoned reg then Err PublicationLockPoisoned
  else match previous reg with
       | None => Err NoRollbackAvailable
       | Some next =>
           if bool_decide (version (current reg) = version next) then Err SameVersion
           else Ok (mkPrepared next (current reg))
       end.

(** The reservation holds the publication mutex, so no publisher runs between
    [prepare_*] and [commit]; readers see the old or the new [current]. *)
Definition commit (p : PreparedSnapshotPublication) (reg : SnapshotRegistry) : SnapshotTransition * SnapshotRegistry :=
  (mkTransition (version (prepared_previous p)) (version (prepared_next p)),
   mkSnapshotRegistry (prepared_next p) (Some (prepared_previous p)) (publication_poisoned reg)).

Definition publish (next : RouteSnapshot) : M SnapshotRegistry SnapshotRegistryError SnapshotTransition :=
  fun reg => match prepare_publication reg next with
             | Ok p => let '(t, reg') := commit p reg in (Ok t, reg')
             | Err e => (Err e, reg)
             | Panic => (Panic, reg)
             end.

Definition rollback : M SnapshotRegistry SnapshotRegistryError SnapshotTransition :=
  fun reg => match prepare_rollback reg with
             | Ok p => let '(t, reg') := commit p reg in (Ok t, reg')
             | Err e => (Err e, reg)
             | Panic => (Panic, reg)
             end.

(** ** Pinned authentication *)

Record SnapshotAuthenticatedClient : Type := mkAuthenticatedClient {
  pinned_snapshot : RouteSnapshot;
  pinned_client : AuthenticatedClient;
  pinned_access_group_id : AccessGroupId;
}.

Definition internal_request_error : GatewayError := mkError InternalError ScopeRequest.

Section Authentication.
Context (hmac : Bytes -> string -> option Bytes) (pepper : ClientKeyPepper).

(** The clock is read only after the prefix lookup; [None] is its error. *)
Definition authenticate_snapshot (s : RouteSnapshot) (presented_key : string) (clock : option Z)
  : result GatewayError AuthenticatedClient :=
  let? prefix := map_err (fun _ => client_unauthorized_error) (parse_presented_key_prefix presented_key) in
  let? key := ok_or client_unauthorized_error (client_keys s !! prefix) in
  let? now_ms := ok_or internal_request_error clock in
  let? ok := map_err (fun _ => internal_request_error) (verify hmac pepper presented_key (ck_record key) now_ms) in
  if negb ok then Err client_unauthorized_error
  else Ok (mkAuthenticated (rec_client_key_id (ck_record key)) (Some (rec_access_group_id (ck_record key)))).

Definition authenticate_pinned (reg : SnapshotRegistry) (presented_key : string) (clock : option Z)
  : result GatewayError SnapshotAuthenticatedClient :=
  let s := current reg in
  let? client := authenticate_snapshot s presented_key clock in
  let? group := ok_or internal_request_error (auth_access_group_id client) in
  Ok (mkAuthenticatedClient s client group).

Definition authenticate (reg : SnapshotRegistry) (presented_key : string) (clock : option Z)
  : result GatewayError AuthenticatedClient :=
  let? pinned := authenticate_pinned reg presented_key clock in
  Ok (pinned_client pinned).
End Authentication.

Definition client_public_models (c : SnapshotAuthenticatedClient) : list SnapshotPublicModel :=
  public_models_for_access_group (pinned_snapshot c) (pinned_access_group_id c).

Definition client_resolve (c : SnapshotAuthenticatedClient) (name_or_alias : string) : option SnapshotPublicModel :=
  resolve_public_model_for_access_group (pinned_snapshot c) (pinned_access_group_id c) name_or_alias.

(** ** Specification *)

Definition candidate_typed (c : SnapshotRouteCandidate) : Prop := i64_ok (cand_weight c) /\ i64_ok (cand_priority c).
Definition candidate_ok (c : SnapshotRouteCandidate) : Prop := 0 <= cand_priority c /\ 0 < cand_weight c.

(** The candidates of one priority, in id order. *)
Definition tier_members (r : SnapshotRoute) (p : Z) : list nat :=
  sort_indexes (candidates r) (tier_indexes (cand_priority <$> candidates r) p).

Definition candidate_weights (r : SnapshotRoute) (indexes : list nat) : list Z :=
  (fun i => default 0 (cand_weight <$> candidates r !! i)) <$> indexes.

(** Slots one tier needs under the route's policy. *)
Definition tier_size (r : SnapshotRoute) (indexes : list nat) : Z :=
  match policy r with
  | SmoothWeightedRoundRobin => Zsum (candidate_weights r indexes)
  | RoundRobin | PriorityFailover => Z.of_nat (length indexes)
  end.

Definition tier_compiled (r : SnapshotRoute) (indexes slots : list nat) : Prop :=
  match policy r with
  | SmoothWeightedRoundRobin => exact_cycle indexes (candidate_weights r indexes) slots
  | RoundRobin | PriorityFailover => slots = indexes
  end.

Record compiled_from (r : SnapshotRoute) (s : SnapshotRouteSchedule) : Prop := {
  compiled_order : StronglySorted Z.lt (sched_priority <$> schedule_tiers s);
  compiled_cover : forall p, p ∈ (cand_priority <$> candidates r) <-> p ∈ (sched_priority <$> schedule_tiers s);
  compiled_tiers : Forall (fun t => tier_compiled r (tier_members r (sched_priority t)) (sched_slot_indexes t))
                     (schedule_tiers s);
}.

Definition route_ok (r : SnapshotRoute) : Prop :=
  Forall candidate_ok (candidates r)
  /\ forall p, tier_size r (tier_members r p) <= MAX_SCHEDULE_SLOTS.

(** Every reference of a snapshot resolves. *)
Record snapshot_wf (s : RouteSnapshot) : Prop := {
  wf_names : forall n m, public_models s !! n = Some m -> model_name m = n /\ public_model_names_by_id s !! pm_id m = Some n;
  wf_ids : forall i n, public_model_names_by_id s !! i = Some n -> exists m, public_models s !! n = Some m /\ pm_id m = i;
  wf_model_route : forall n m, public_models s !! n = Some m ->
    exists r, routes s !! pm_route_id m = Some r /\ route_public_model_id r = pm_id m;
  wf_routes : forall i r, routes s !! i = Some r ->
    route_id r = i /\ is_Some (public_model_names_by_id s !! route_public_model_id r) /\ candidates r <> []
    /\ exists sched, route_schedules s !! i = Some sched /\ try_compile r = Ok sched;
  wf_schedules : dom (route_schedules s) = dom (routes s);
  wf_aliases : forall a i, aliases s !! a = Some i ->
    public_models s !! a = None /\ is_Some (public_model_names_by_id s !! i);
  wf_groups : forall i g, access_groups s !! i = Some g -> ag_id g = i /\ ag_allowed_route_ids g ⊆ dom (routes s);
  wf_keys : forall p k, client_keys s !! p = Some k ->
    rec_prefix (ck_record k) = p
    /\ exists g, access_groups s !! rec_access_group_id (ck_record k) = Some g
         /\ ag_allowed_route_ids g = ck_allowed_route_ids k;
}.

(** The registry never offers a rollback to the version it already serves. *)
Definition registry_ok (reg : SnapshotRegistry) : Prop :=
  forall p, previous reg = Some p -> version p <> version (current reg).

(** ** Lemmas: schedules *)

Lemma group_candidates_spec cands index tiers :
  (Forall candidate_ok cands -> group_candidates cands index tiers = Ok (push_all index (cand_priority <$> cands) tiers))
  /\ (forall t, group_candidates cands index tiers = Ok t -> Forall candidate_ok cands)
  /\ group_candidates cands index tiers <> Panic.
Proof.
  revert index tiers. induction cands as [|c cands IH]; intros index tiers; simpl; [by split_and!|].
  rewrite Forall_cons. unfold candidate_ok at 1.
  destruct (Z.ltb_spec (cand_priority c) 0); [split_and!; [intros; lia|done|done]|].
  destruct (Z.leb_spec (cand_weight c) 0); [split_and!; [intros; lia|done|done]|].
  destruct (IH (S index) (tier_push (cand_priority c) index tiers)) as (H1 & H2 & H3).
  split_and!; [naive_solver| |done]. intros t Ht. constructor; [done|]. by eapply H2.
Qed.

Lemma sort_indexes_perm cands l : sort_indexes cands l ≡ₚ l.
Proof. apply sort_by_perm. Qed.

Lemma tier_members_facts r p :
  NoDup (tier_members r p) /\ Forall (fun i => (i < length (candidates r))%nat) (tier_members r p).
Proof.
  unfold tier_members. rewrite sort_indexes_perm.
  rewrite <- (length_fmap cand_priority (candidates r)). apply tier_indexes_facts.
Qed.

Lemma route_weights_of r indexes :
  Forall candidate_typed (candidates r) -> Forall candidate_ok (candidates r) ->
  Forall (fun i => (i < length (candidates r))%nat) indexes ->
  Forall2 (fun i w => match candidates r !! i with
                      | None => Panic
                      | Some c => ok_or RouteScheduleTooLarge (u64_try_from (cand_weight c))
                      end = Ok w) indexes (candidate_weights r indexes)
  /\ Forall (fun w => 0 < w <= i64_max) (candidate_weights r indexes).
Proof.
  intros Ht Ho. induction 1 as [|i indexes Hi Hall [IH1 IH2]]; [split; constructor|].
  unfold candidate_weights. rewrite fmap_cons.
  destruct (lookup_lt_is_Some_2 _ _ Hi) as [c Hc]. rewrite Forall_lookup in Ht, Ho.
  destruct (Ht i c Hc) as [[Hw1 Hw2] _], (Ho i c Hc) as [_ Hpos].
  split; constructor; try done; rewrite Hc; simpl; [|lia].
  unfold u64_try_from, in_u64.
  destruct (Z.leb_spec 0 (cand_weight c)), (Z.leb_spec (cand_weight c) u64_max); simpl; try done;
    unfold u64_max, i64_max in *; lia.
Qed.

Lemma tier_slots_spec r indexes :
  let sorted := sort_indexes (candidates r) indexes in
  Forall candidate_typed (candidates r) -> Forall candidate_ok (candidates r) ->
  NoDup indexes -> Forall (fun i => (i < length (candidates r))%nat) indexes ->
  if tier_size r sorted <=? MAX_SCHEDULE_SLOTS
  then exists slots, tier_slots r indexes = Ok slots /\ tier_compiled r sorted slots
  else tier_slots r indexes = Err RouteScheduleTooLarge.
Proof.
  intros sorted Ht Ho Hnd Hin. unfold tier_slots, tier_size, tier_compiled. fold sorted.
  assert (NoDup sorted) as Hnd' by (unfold sorted; by rewrite sort_indexes_perm).
  assert (Forall (fun i => (i < length (candidates r))%nat) sorted) as Hin'
    by (unfold sorted; by rewrite sort_indexes_perm).
  assert (forall (b : bool), b = (Z.of_nat (length sorted) <=? MAX_SCHEDULE_SLOTS) ->
    if b then exists slots, (if MAX_SCHEDULE_SLOTS <? Z.of_nat (length sorted) then Err RouteScheduleTooLarge
                             else Ok sorted) = Ok slots /\ slots = sorted
    else (if MAX_SCHEDULE_SLOTS <? Z.of_nat (length sorted) then Err RouteScheduleTooLarge else Ok sorted)
         = Err RouteScheduleTooLarge) as Hplain.
  { intros b ->. rewrite Z.ltb_antisym. destruct (_ <=? _); simpl; eauto. }
  destruct (policy r); [by apply Hplain| |by apply Hplain].
  destruct (route_weights_of r sorted Ht Ho Hin') as [H2 Hw].
  exact (smooth_weighted_spec RouteScheduleTooLarge Panic _ sorted _ Hnd' H2 Hw).
Qed.

Lemma compile_tiers_spec r tiers :
  Forall candidate_typed (candidates r) -> Forall candidate_ok (candidates r) ->
  Forall (fun pi => NoDup pi.2 /\ Forall (fun i => (i < length (candidates r))%nat) pi.2) tiers ->
  (Forall (fun pi => tier_size r (sort_indexes (candidates r) pi.2) <= MAX_SCHEDULE_SLOTS) tiers ->
   exists compiled, compile_tiers r tiers = Ok compiled
     /\ Forall2 (fun pi t => sched_priority t = pi.1
          /\ tier_compiled r (sort_indexes (candidates r) pi.2) (sched_slot_indexes t)) tiers compiled)
  /\ (forall c, compile_tiers r tiers = Ok c ->
      Forall (fun pi => tier_size r (sort_indexes (candidates r) pi.2) <= MAX_SCHEDULE_SLOTS) tiers)
  /\ compile_tiers r tiers <> Panic.
Proof.
  intros Ht Ho. induction 1 as [|[p indexes] rest [Hnd Hin] Hall IH]; simpl in *.
  { split_and!; [intros; by eexists|intros; constructor|done]. }
  pose proof (tier_slots_spec r indexes Ht Ho Hnd Hin) as Hs. cbv zeta in Hs. rewrite Forall_cons. simpl.
  destruct (Z.leb_spec (tier_size r (sort_indexes (candidates r) indexes)) MAX_SCHEDULE_SLOTS).
  - destruct Hs as (slots & -> & Hc). destruct IH as (IH1 & IH2 & IH3). simpl. split_and!.
    + intros [_ Hr]. destruct (IH1 Hr) as (compiled & -> & H2). simpl. eexists. split; [done|]. by constructor.
    + intros c Hcomp. destruct (compile_tiers r rest) as [c'| |]; try done. eauto.
    + by destruct (compile_tiers r rest).
  - rewrite Hs. simpl. split_and!; [intros [? _]; lia|done|done].
Qed.

Lemma try_compile_spec r :
  Forall candidate_typed (candidates r) ->
  (route_ok r -> exists s, try_compile r = Ok s /\ compiled_from r s)
  /\ (forall s, try_compile r = Ok s -> route_ok r) /\ try_compile r <> Panic.
Proof.
  intros Ht. unfold try_compile. destruct (group_candidates_spec (candidates r) 0 []) as (Hg1 & Hg2 & Hg3).
  set (priorities := cand_priority <$> candidates r) in *. set (tiers := push_all 0 priorities []) in *.
  assert (Forall (fun pi => NoDup pi.2 /\ Forall (fun i => (i < length (candidates r))%nat) pi.2) tiers) as Hti
    by (apply pushed_tiers_ok; unfold priorities; by rewrite length_fmap).
  assert ((forall p, tier_size r (tier_members r p) <= MAX_SCHEDULE_SLOTS)
    <-> Forall (fun pi => tier_size r (sort_indexes (candidates r) pi.2) <= MAX_SCHEDULE_SLOTS) tiers) as Hsz.
  { rewrite Forall_forall. split.
    - intros Hp [p xs] Hpi. apply pushed_tiers in Hpi as [-> _]. apply Hp.
    - intros Hall p. unfold tier_members. fold priorities.
      destruct (decide (tier_indexes priorities p = [])) as [->|Hne].
      + unfold tier_size, MAX_SCHEDULE_SLOTS, Zsum. by destruct (policy r).
      + apply (Hall (p, tier_indexes priorities p)), pushed_tiers. done. }
  destruct (group_candidates (candidates r) 0 []) as [t|e|] eqn:Hg; [|split_and!; try done|done].
  2:{ intros [Ho _]. by specialize (Hg1 Ho). }
  pose proof (Hg2 t eq_refl) as Ho. injection (Hg1 Ho) as ->. cbn [result_bind].
  destruct (compile_tiers_spec r tiers Ht Ho Hti) as (Hc1 & Hc2 & Hc3). split_and!.
  - intros [_ Hp]. destruct Hc1 as (compiled & -> & H2); [by apply Hsz|]. eexists. split; [done|].
    destruct (push_all_spec priorities) as [Hsorted _].
    assert (sched_priority <$> compiled = fst <$> tiers) as Hkeys.
    { clear -H2. induction H2 as [|pi t' ts cs [Hp _] H2 IH]; [done|]. rewrite !fmap_cons. by rewrite Hp, IH. }
    split; cbn [schedule_tiers].
    + by rewrite Hkeys.
    + intros p. fold priorities. rewrite Hkeys, (list_elem_of_fmap fst tiers).
      unfold tiers. setoid_rewrite pushed_tiers. rewrite <- tier_indexes_nonempty. split.
      * intros Hne. by exists (p, tier_indexes priorities p).
      * by intros ([q xs] & -> & -> & Hne).
    + apply Forall_forall. intros t' Hin. apply list_elem_of_lookup in Hin as [k Hk].
      destruct (Forall2_lookup_r _ _ _ _ _ H2 Hk) as (pi & Hpi & Hpp & Hex).
      apply list_elem_of_lookup_2, pushed_tiers in Hpi as [He _].
      unfold tier_members. fold priorities. by rewrite Hpp, <- He.
  - intros s Hs. destruct (compile_tiers r tiers) as [c| |]; try done. split; [done|]. apply Hsz. by eapply Hc2.
  - by destruct (compile_tiers r tiers).
Qed.

(** ** Lemmas: construction *)

Definition models_inv (by_name : gmap string SnapshotPublicModel) (by_id : gmap PublicModelId string) : Prop :=
  (forall n m, by_name !! n = Some m -> model_name m = n /\ by_id !! pm_id m = Some n)
  /\ (forall i n, by_id !! i = Some n -> exists m, by_name !! n = Some m /\ pm_id m = i).

Lemma add_public_models_inv l by_name by_id res :
  models_inv by_name by_id -> add_public_models l by_name by_id = Ok res -> models_inv res.1 res.2.
Proof.
  revert by_name by_id. induction l as [|m l IH]; intros by_name by_id [H1 H2] Hr; simpl in Hr; [by simplify_eq|].
  case_bool_decide as Hn; [done|]. case_bool_decide as Hi; [done|].
  apply eq_None_not_Some in Hn. apply eq_None_not_Some in Hi. eapply IH; [|exact Hr]. split.
  - intros n m' [[<- <-]|[Hne Hm]]%lookup_insert_Some; [by simplify_map_eq|].
    destruct (H1 n m' Hm) as [? Hid]. split; [done|]. rewrite lookup_insert_ne; [done|]. congruence.
  - intros i n [[<- <-]|[Hne Hin]]%lookup_insert_Some; [eexists; by simplify_map_eq|].
    destruct (H2 i n Hin) as (m' & Hm' & ?). exists m'. split; [|done].
    rewrite lookup_insert_ne; [done|]. congruence.
Qed.

Definition routes_inv (by_id : gmap PublicModelId string) (rs : gmap RouteId SnapshotRoute)
    (schedules : gmap RouteId SnapshotRouteSchedule) : Prop :=
  (forall i r, rs !! i = Some r ->
     route_id r = i /\ is_Some (by_id !! route_public_model_id r) /\ candidates r <> []
     /\ exists sched, schedules !! i = Some sched /\ try_compile r = Ok sched)
  /\ dom schedules = dom rs.

Lemma build_routes_inv l by_id rs schedules ids res :
  routes_inv by_id rs schedules -> build_routes l by_id rs schedules ids = Ok res ->
  routes_inv by_id res.1 res.2.
Proof.
  revert rs schedules ids. induction l as [|r l IH]; intros rs schedules ids [H1 H2] Hr; simpl in Hr; [by simplify_eq|].
  case_bool_decide as Hd; [done|]. case_bool_decide as Hm; [|done]. simpl in Hr. case_bool_decide as Hc; [done|].
  destruct (add_candidate_ids _ _) as [ids'| |]; [|done..]. simpl in Hr.
  destruct (try_compile r) as [sched| |] eqn:Hs; [|done..]. simpl in Hr. eapply IH; [|exact Hr]. split.
  - intros i r' [[<- <-]|[Hne Hi]]%lookup_insert_Some.
    + split_and!; try done. exists sched. by simplify_map_eq.
    + destruct (H1 i r' Hi) as (? & ? & ? & sched' & ? & ?). split_and!; try done.
      exists sched'. by simplify_map_eq.
  - rewrite !dom_insert_L. by rewrite H2.
Qed.

Lemma btree_values_elem {A} (m : gmap string A) x : x ∈ btree_values m <-> exists k, m !! k = Some x.
Proof.
  unfold btree_values. rewrite list_elem_of_fmap. setoid_rewrite sort_by_perm. split.
  - intros ([k y] & -> & Hy%elem_of_map_to_list). by exists k.
  - intros [k Hk]. exists (k, x). by rewrite elem_of_map_to_list.
Qed.

Lemma check_model_routes_ok l rs :
  check_model_routes l rs = Ok tt ->
  forall m, m ∈ l -> exists r, rs !! pm_route_id m = Some r /\ route_public_model_id r = pm_id m.
Proof.
  induction l as [|m l IH]; simpl; intros Hr m' Hm; [by apply elem_of_nil in Hm|].
  destruct (rs !! pm_route_id m) as [r|] eqn:Hrs; [|done]. case_bool_decide as Hid; [|done]. simpl in Hr.
  apply elem_of_cons in Hm as [->|Hm]; [by exists r|by apply IH].
Qed.

Lemma add_aliases_inv l by_name by_id als res :
  (forall a i, als !! a = Some i -> by_name !! a = None /\ is_Some (by_id !! i)) ->
  add_aliases l by_name by_id als = Ok res ->
  forall a i, res !! a = Some i -> by_name !! a = None /\ is_Some (by_id !! i).
Proof.
  revert als. induction l as [|[a i] l IH]; intros als Hals Hr; simpl in Hr; [by simplify_eq|].
  case_bool_decide as Hn; [done|]. case_bool_decide as Hi; [|done]. simpl in Hr. case_bool_decide; [done|].
  rewrite <- eq_None_not_Some in Hn. eapply IH; [|exact Hr].
  intros a' i' [[<- <-]|[_ Ha]]%lookup_insert_Some; [done|by apply Hals].
Qed.

Lemma add_access_groups_inv l rs groups res :
  (forall i g, groups !! i = Some g -> ag_id g = i /\ ag_allowed_route_ids g ⊆ dom rs) ->
  add_access_groups l rs groups = Ok res ->
  forall i g, res !! i = Some g -> ag_id g = i /\ ag_allowed_route_ids g ⊆ dom rs.
Proof.
  revert groups. induction l as [|g l IH]; intros groups Hg Hr; simpl in Hr; [by simplify_eq|].
  case_bool_decide as Hn; [done|]. case_bool_decide as Hd; [|done]. simpl in Hr. eapply IH; [|exact Hr].
  intros i g' [[<- <-]|[_ Hi]]%lookup_insert_Some; [done|by apply Hg].
Qed.

Lemma add_client_keys_inv l groups keys ids res :
  let ok := fun (p : ClientKeyPrefix) (k : SnapshotClientKeyView) =>
    rec_prefix (ck_record k) = p
    /\ exists g, groups !! rec_access_group_id (ck_record k) = Some g
         /\ ag_allowed_route_ids g = ck_allowed_route_ids k in
  (forall p k, keys !! p = Some k -> ok p k) ->
  add_client_keys l groups keys ids = Ok res -> forall p k, res !! p = Some k -> ok p k.
Proof.
  intros ok. revert keys ids. induction l as [|k l IH]; intros keys ids Hk Hr; simpl in Hr; [by simplify_eq|].
  destruct (groups !! _) as [g|] eqn:Hg; [|done]. case_bool_decide as Hp; [|done]. simpl in Hr.
  case_bool_decide; [done|]. case_bool_decide; [done|]. eapply IH; [|exact Hr].
  intros p k' [[<- <-]|[_ Hi]]%lookup_insert_Some; [|by apply Hk]. split; [done|]. by exists g.
Qed.

Lemma snapshot_try_new_ok input s : snapshot_try_new input = Ok s -> snapshot_wf s.
Proof.
  unfold snapshot_try_new. intros Hs.
  destruct (add_public_models _ ∅ ∅) as [models| |] eqn:Hm; [|done..]. cbn [result_bind] in Hs.
  destruct (build_routes _ _ ∅ ∅ ∅) as [built| |] eqn:Hb; [|done..]. cbn [result_bind] in Hs.
  destruct (check_model_routes _ _) as [[]| |] eqn:Hc; [|done..]. cbn [result_bind] in Hs.
  destruct (add_aliases _ _ _ ∅) as [als| |] eqn:Ha; [|done..]. cbn [result_bind] in Hs.
  destruct (add_access_groups _ _ ∅) as [groups| |] eqn:Hg; [|done..]. cbn [result_bind] in Hs.
  destruct (add_client_keys _ _ ∅ ∅) as [keys| |] eqn:Hk; [|done..]. cbn [result_bind] in Hs. injection Hs as <-.
  apply add_public_models_inv in Hm as [Hm1 Hm2]; [|by split; intros ??; rewrite lookup_empty].
  apply build_routes_inv in Hb as [Hb1 Hb2]; [|split; [intros ??; by rewrite lookup_empty|set_solver]].
  split; simpl; try done.
  - intros n m Hn. apply (check_model_routes_ok _ _ Hc), btree_values_elem. by exists n.
  - eapply add_aliases_inv; [|exact Ha]. intros ??. by rewrite lookup_empty.
  - eapply add_access_groups_inv; [|exact Hg]. intros ??. by rewrite lookup_empty.
  - eapply add_client_keys_inv; [|exact Hk]. intros ??. by rewrite lookup_empty.
Qed.

Lemma resolve_inv s name m :
  snapshot_wf s -> resolve_public_model s name = Some m ->
  public_models s !! model_name m = Some m
  /\ (name = model_name m \/ aliases s !! name = Some (pm_id m)).
Proof.
  intros Hwf. unfold resolve_public_model. destruct (public_models s !! name) as [m'|] eqn:Hm.
  - intros; simplify_eq. destruct (wf_names _ Hwf _ _ Hm) as [<- _]. auto.
  - destruct (aliases s !! name) as [i|] eqn:Ha; [|done]. simpl.
    destruct (public_model_names_by_id s !! i) as [n|] eqn:Hn; [|done]. simpl. intros Hmn.
    destruct (wf_names _ Hwf _ _ Hmn) as [<- Hid]. split; [done|right].
    destruct (wf_ids _ Hwf _ _ Hn) as (m'' & Hm'' & <-). by simplify_eq.
Qed.

Lemma resolve_name s m : public_models s !! model_name m = Some m -> resolve_public_model s (model_name m) = Some m.
Proof. unfold resolve_public_model. by intros ->. Qed.

(** ** Properties *)

(** A snapshot that [try_new] accepts is closed: every public model is indexed
    under its own name and id and has a route that points back to it; every alias
    points to a public model and shadows none; every route has candidates, a known
    public model and the schedule compiled from it; every access group permits
    only existing routes; every client key is indexed under its own prefix and
    carries exactly its group's permissions. *)
Lemma snapshot_try_new_closed input s : snapshot_try_new input = Ok s -> snapshot_wf s.
Proof. apply snapshot_try_new_ok. Qed.

(** In an accepted snapshot every public name and every alias resolves, and
    what it resolves to has a route, a non-empty candidate list and a compiled
    schedule: no request admitted by resolution can meet a dangling reference. *)
Lemma resolution_is_total input s name :
  snapshot_try_new input = Ok s ->
  is_Some (public_models s !! name) \/ is_Some (aliases s !! name) ->
  exists m r sched, resolve_public_model s name = Some m /\ routes s !! pm_route_id m = Some r
    /\ route_public_model_id r = pm_id m /\ candidates r <> []
    /\ route_schedules s !! pm_route_id m = Some sched /\ try_compile r = Ok sched.
Proof.
  intros Hs Hname. apply snapshot_try_new_ok in Hs as Hwf.
  assert (exists m, resolve_public_model s name = Some m) as [m Hm].
  { unfold resolve_public_model. destruct (public_models s !! name) as [m|] eqn:Hm; [by eexists|].
    destruct Hname as [[? ?]|[i Hi]]; [done|]. rewrite Hi. simpl.
    destruct (wf_aliases _ Hwf _ _ Hi) as [_ [n Hn]]. rewrite Hn. simpl.
    destruct (wf_ids _ Hwf _ _ Hn) as (m & Hm' & _). by exists m. }
  destruct (resolve_inv _ _ _ Hwf Hm) as [Hpm _].
  destruct (wf_model_route _ Hwf _ _ Hpm) as (r & Hr & Hid).
  destruct (wf_routes _ Hwf _ _ Hr) as (_ & _ & Hne & sched & Hsched & Hcomp). by exists m, r, sched.
Qed.

(** Access control.  A group resolves a name or alias to a public model
    exactly when the group exists, the name resolves, the group's allow-list
    contains the model's route and that route retains a hard-eligible candidate;
    and the models a group may resolve are exactly the models it is listed. *)
Lemma access_group_sees_what_it_may_use input s group :
  snapshot_try_new input = Ok s ->
  (forall name m, resolve_public_model_for_access_group s group name = Some m <->
     exists g r, access_groups s !! group = Some g /\ resolve_public_model s name = Some m
       /\ (pm_route_id m ∈ ag_allowed_route_ids g)
       /\ routes s !! pm_route_id m = Some r /\ has_hard_eligible_candidate r = true)
  /\ (forall m, m ∈ public_models_for_access_group s group <->
        resolve_public_model_for_access_group s group (model_name m) = Some m).
Proof.
  intros Hs. apply snapshot_try_new_ok in Hs as Hwf.
  assert (forall g m, public_model_is_visible_to s g m = true <->
    exists r, (pm_route_id m ∈ ag_allowed_route_ids g) /\ routes s !! pm_route_id m = Some r
      /\ has_hard_eligible_candidate r = true) as Hvis.
  { intros g m. unfold public_model_is_visible_to, permits_route. rewrite andb_true_iff, bool_decide_eq_true.
    destruct (routes s !! pm_route_id m); naive_solver. }
  split.
  - intros name m. unfold resolve_public_model_for_access_group.
    destruct (access_groups s !! group) as [g|]; simpl; [|naive_solver].
    destruct (resolve_public_model s name) as [m'|]; simpl; [|naive_solver].
    destruct (public_model_is_visible_to s g m') eqn:Hv.
    + apply Hvis in Hv. naive_solver.
    + split; [done|]. intros (g' & r & ? & ? & ? & ? & ?). simplify_eq.
      assert (public_model_is_visible_to s g' m = true) by (apply Hvis; eauto). congruence.
  - intros m. unfold public_models_for_access_group, resolve_public_model_for_access_group.
    rewrite list_elem_of_In, filter_In, <- list_elem_of_In, btree_values_elem.
    destruct (access_groups s !! group) as [g|]; simpl; [|naive_solver].
    split.
    + intros [[k Hk] Hv]. destruct (wf_names _ Hwf _ _ Hk) as [<- _]. by rewrite (resolve_name s m Hk); simpl; rewrite Hv.
    + destruct (resolve_public_model s (model_name m)) as [m'|] eqn:Hm; [|done]. simpl.
      destruct (public_model_is_visible_to s g m') eqn:Hv; [|done]. intros; simplify_eq.
      split; [|done]. destruct (resolve_inv _ _ _ Hwf Hm) as [Hpm _]. eauto.
Qed.

(** Compiling a route's schedule never panics and succeeds exactly when every
    candidate has a non-negative priority and positive weight and no tier needs
    more than 1024 slots; the tiers are then in strictly increasing priority, one
    per priority in use, each holding its candidates in id order once (round-robin
    and failover) or as an exact smooth weighted cycle. *)
Lemma try_compile_correct r :
  Forall candidate_typed (candidates r) ->
  try_compile r <> Panic
  /\ ((exists s, try_compile r = Ok s) <-> route_ok r)
  /\ (forall s, try_compile r = Ok s -> compiled_from r s).
Proof.
  intros Ht. destruct (try_compile_spec r Ht) as (H1 & H2 & H3). split_and!; [done| |].
  - split; [intros [s Hs]; by eapply H2|]. intros Hok. destruct (H1 Hok) as (s & Hs & _). by exists s.
  - intros s Hs. destruct (H1 (H2 s Hs)) as (s' & Hs' & Hc). rewrite Hs in Hs'. by injection Hs' as ->.
Qed.

(** Publishing then rolling back restores the snapshot that was served before,
    keeps the published one as the next rollback target, and the registry never
    offers a rollback to the version it already serves; a refused publication
    changes nothing. *)
Lemma publish_rollback_roundtrip reg next t reg' :
  registry_ok reg -> publish next reg = (Ok t, reg') ->
  current reg' = next /\ previous reg' = Some (current reg) /\ registry_ok reg'
  /\ t = mkTransition (version (current reg)) (version next)
  /\ rollback reg' = (Ok (mkTransition (version next) (version (current reg))),
       mkSnapshotRegistry (current reg) (Some next) (publication_poisoned reg)).
Proof.
  intros Hok. unfold publish, prepare_publication.
  destruct (publication_poisoned reg) eqn:Hp; [done|]. case_bool_decide as Hv; [done|]. simpl.
  intros; simplify_eq. unfold rollback, prepare_rollback. simpl. rewrite Hp.
  split_and!; try done.
  - intros p Hpr. simpl in Hpr. by simplify_eq.
  - rewrite bool_decide_false by (by intros ?). done.
Qed.

(** A pinned authentication that succeeds used one snapshot throughout: the
    presented key verified against the record stored under its own prefix in that
    snapshot, the client and group returned are that record's, and the group
    exists in the same snapshot, so the models the client is shown come from the
    configuration version that admitted it. *)
Lemma pinned_authentication_sound hmac pepper input reg key clock client :
  snapshot_try_new input = Ok (current reg) ->
  authenticate_pinned hmac pepper reg key clock = Ok client ->
  pinned_snapshot client = current reg
  /\ exists prefix view now_ms g,
       parse_presented_key_prefix key = Ok prefix /\ client_keys (current reg) !! prefix = Some view
       /\ clock = Some now_ms /\ verify hmac pepper key (ck_record view) now_ms = Ok true
       /\ pinned_client client = mkAuthenticated (rec_client_key_id (ck_record view))
                                   (Some (rec_access_group_id (ck_record view)))
       /\ access_groups (current reg) !! pinned_access_group_id client = Some g
       /\ ag_allowed_route_ids g = ck_allowed_route_ids view.
Proof.
  intros Hs. apply snapshot_try_new_ok in Hs as Hwf. unfold authenticate_pinned, authenticate_snapshot.
  destruct (parse_presented_key_prefix key) as [prefix| |]; [|done..]. cbn [map_err result_bind].
  destruct (client_keys (current reg) !! prefix) as [view|] eqn:Hk; [|done]. cbn [ok_or result_bind].
  destruct clock as [now_ms|]; [|done]. cbn [ok_or result_bind].
  destruct (verify hmac pepper key (ck_record view) now_ms) as [[]| |] eqn:Hv; [|done..]. simpl.
  intros; simplify_eq. simpl. split; [done|].
  destruct (wf_keys _ Hwf _ _ Hk) as (_ & g & Hg & Hr). by exists prefix, view, now_ms, g.
Qed.

(** ** Witnesses *)

Definition ex_cand (id : string) (w : Z) : SnapshotRouteCandidate :=
  mkCandidate (mkId id) (mkId "endpoint-a") (mkId "upstream-a") "openai" "m-up" Canonical 0 w ∅
    (Listed CFresh) 1.
Definition ex_route : SnapshotRoute :=
  mkRoute (mkId "route-a") (mkId "model-a") SmoothWeightedRoundRobin 3 1000 [ex_cand "c2" 1; ex_cand "c1" 2].
Definition ex_model : SnapshotPublicModel := mkPublicModel (mkId "model-a") "gpt" "GPT" ∅ (mkId "route-a").
Definition ex_group : SnapshotAccessGroup := mkAccessGroup (mkId "group-1") "default" {[ mkId "route-a" ]}.
Definition ex_input (v : string) : RouteSnapshotInput :=
  mkSnapshotInput v [ex_model] [("alias", mkId "model-a")] [ex_route] [ex_group]
    [mkKeyView ex_record {[ mkId "route-a" ]}].
Definition ex_empty : RouteSnapshot := mkRouteSnapshot "" ∅ ∅ ∅ ∅ ∅ ∅ ∅.
Definition ex_snapshot (v : string) : RouteSnapshot :=
  match snapshot_try_new (ex_input v) with Ok s => s | _ => ex_empty end.

Lemma ex_snapshot_built : snapshot_try_new (ex_input "v1") = Ok (ex_snapshot "v1").
Proof.
  assert (is_ok_and (fun _ => true) (snapshot_try_new (ex_input "v1")) = true) as H by (vm_compute; reflexivity).
  unfold ex_snapshot. destruct (snapshot_try_new (ex_input "v1")) as [s| |] eqn:Hs; [|simpl in H; discriminate..].
  reflexivity.
Qed.

Lemma snapshot_try_new_closed_witness : snapshot_wf (ex_snapshot "v1").
Proof. apply (snapshot_try_new_closed (ex_input "v1")). exact ex_snapshot_built. Defined.

Lemma resolution_is_total_witness :
  exists m r sched, resolve_public_model (ex_snapshot "v1") "alias" = Some m
    /\ routes (ex_snapshot "v1") !! pm_route_id m = Some r
    /\ route_public_model_id r = pm_id m /\ candidates r <> []
    /\ route_schedules (ex_snapshot "v1") !! pm_route_id m = Some sched /\ try_compile r = Ok sched.
Proof.
  apply (resolution_is_total (ex_input "v1") (ex_snapshot "v1") "alias"); [exact ex_snapshot_built|].
  right. exists (mkId "model-a"). vm_compute. reflexivity.
Defined.

Lemma access_group_sees_what_it_may_use_witness :
  ex_model ∈ public_models_for_access_group (ex_snapshot "v1") (mkId "group-1").
Proof.
  apply (access_group_sees_what_it_may_use (ex_input "v1")); [exact ex_snapshot_built|].
  vm_compute. reflexivity.
Defined.

Lemma try_compile_correct_witness :
  try_compile ex_route = Ok (mkSchedule [mkTierSchedule 0 [1; 0; 1]%nat])
  /\ compiled_from ex_route (mkSchedule [mkTierSchedule 0 [1; 0; 1]%nat]).
Proof.
  assert (try_compile ex_route = Ok (mkSchedule [mkTierSchedule 0 [1; 0; 1]%nat])) as H by (vm_compute; reflexivity).
  split; [exact H|]. apply (try_compile_correct ex_route); [|exact H].
  repeat constructor; simpl; unfold i64_min, i64_max; lia.
Defined.

Lemma publish_rollback_roundtrip_witness :
  rollback (publish (ex_snapshot "v2") (registry_new (ex_snapshot "v1"))).2
  = (Ok (mkTransition "v2" "v1"), mkSnapshotRegistry (ex_snapshot "v1") (Some (ex_snapshot "v2")) false).
Proof.
  assert (version (ex_snapshot "v1") = "v1") as H1 by (vm_compute; reflexivity).
  assert (version (ex_snapshot "v2") = "v2") as H2 by (vm_compute; reflexivity).
  destruct (publish (ex_snapshot "v2") (registry_new (ex_snapshot "v1"))) as [r reg'] eqn:Hp.
  assert (r = Ok (mkTransition "v1" "v2")) as ->.
  { apply (f_equal fst) in Hp. cbn [fst] in Hp. rewrite <- Hp. vm_compute. reflexivity. }
  destruct (publish_rollback_roundtrip (registry_new (ex_snapshot "v1")) (ex_snapshot "v2")
    (mkTransition "v1" "v2") reg') as (_ & _ & _ & _ & Hr); [intros p Hq; discriminate Hq|exact Hp|].
  cbn [snd]. rewrite Hr. cbn [current registry_new publication_poisoned]. rewrite H1, H2. reflexivity.
Defined.

Definition ex_pinned : SnapshotAuthenticatedClient :=
  mkAuthenticatedClient (ex_snapshot "v1") (mkAuthenticated (mkId "key-1") (Some (mkId "group-1"))) (mkId "group-1").

Lemma ex_pinned_ok :
  authenticate_pinned ex_hmac ex_pepper (registry_new (ex_snapshot "v1")) ex_key (Some 7) = Ok ex_pinned.
Proof.
  unfold authenticate_pinned, ex_pinned. cbn [current registry_new].
  assert (authenticate_snapshot ex_hmac ex_pepper (ex_snapshot "v1") ex_key (Some 7)
          = Ok (mkAuthenticated (mkId "key-1") (Some (mkId "group-1")))) as -> by (vm_compute; reflexivity).
  reflexivity.
Qed.

Lemma pinned_authentication_sound_witness : pinned_snapshot ex_pinned = ex_snapshot "v1".
Proof.
  apply (pinned_authentication_sound ex_hmac ex_pepper (ex_input "v1") (registry_new (ex_snapshot "v1"))
    ex_key (Some 7) ex_pinned); [exact ex_snapshot_built|exact ex_pinned_ok].
Defined.
