(* ===== verification/ProtocolTransform.v ===== *)
(** * Protocol transformation of requests

    Models [crates/gateway-router/src/protocol_transform.rs]: whether, and as
    what, a client request may be sent to an Endpoint that speaks one of the
    three wire protocols, under the transform mode of the route candidate.

    JSON text is read with [serde_json], the parameter [JsonText] of
    [ControlPlane] and the class [JsonRaw] here. *)

From S2P Require Import Prelude Core Catalog ClientKey RouteSnapshot ApiFormat ControlPlane CanonicalRequests.
Local Open Scope string_scope.
Local Open Scope list_scope.

(** More of [serde_json]: [Number::as_u64] of a number's text, and whether
    [RawValue::from_string] accepts a text. *)
Class JsonRaw := {
  as_u64 : string -> option Z;
  raw_accepts : string -> bool;
}.

Module Transform.

(** ** Data *)

Inductive NativePayloadAvailability : Type := Exact | Unavailable.

#[export] Instance NativePayloadAvailability_eq_dec : EqDecision NativePayloadAvailability.
Proof. solve_decision. Defined.

Record ProtocolTransformInput : Type := mkTransformInput {
  source : ProtocolFormat;
  target : ProtocolFormat;
  mode : SnapshotTransformMode;
  native_payload : NativePayloadAvailability;
  request : CanonicalRequest;
  streaming : bool;
  requires_json_schema : bool;
  requires_parallel_tools : bool;
  target_capabilities : CapabilitySet;
}.

Inductive ProtocolTransformRejection : Type :=
| PairUnregistered
| PassthroughProtocolMismatch
| PassthroughNativePayloadUnavailable
| CanonicalProtocolMismatch
| LosslessBridgeProtocolMatch
| UnknownRequestExtensions
| UnknownMessageExtensions
| UnknownContentExtensions
| UnknownToolDefinitionExtensions
| RejOpaqueContent
| ThinkingUnsupported
| CacheControlUnsupported
| OutputLimitMissing
| OutputLimitInvalid
| OutputLimitCollision
| ToolHistoryUnsupported
| IncompatibleRole
| StreamingUnsupported
| ToolsUnsupported
| JsonSchemaUnsupported
| ParallelToolsUnsupported
| RejReasoningUnsupported
| ResponseReasoningUnsupported.

Inductive ProtocolTransformAdmission : Type :=
| Approved
| Rejected (r : ProtocolTransformRejection).

Definition is_approved (a : ProtocolTransformAdmission) : bool :=
  match a with Approved => true | Rejected _ => false end.

Inductive ProjectedProtocolRequest : Type :=
| NativeExact
| ProjectedCanonical (r : CanonicalRequest).

Abbreviation Rej A := (result ProtocolTransformRejection A).

Definition REGISTERED_PROTOCOL_PAIRS : list (ProtocolFormat * ProtocolFormat) :=
  [(PChatCompletions, PChatCompletions); (PChatCompletions, PResponses); (PChatCompletions, PMessages);
   (PResponses, PChatCompletions); (PResponses, PResponses); (PResponses, PMessages);
   (PMessages, PChatCompletions); (PMessages, PResponses); (PMessages, PMessages)].

Definition protocol_pair_is_registered (s t : ProtocolFormat) : bool :=
  bool_decide ((s, t) ∈ REGISTERED_PROTOCOL_PAIRS).

Definition mode_fits (s t : ProtocolFormat) (m : SnapshotTransformMode) : bool :=
  match m with
  | Passthrough | Canonical => bool_decide (s = t)
  | LosslessBridge => negb (bool_decide (s = t))
  | CanonicalBridge => true
  end.

Definition protocol_pair_is_publishable (s t : ProtocolFormat) (m : SnapshotTransformMode)
    (capabilities : CapabilitySet) : bool :=
  protocol_pair_is_registered s t && mode_fits s t m
  && negb (bool_decide (s = PChatCompletions) && supports capabilities Reasoning).

(** ** Names *)

Definition CHAT_OUTPUT_LIMIT : string := "openai.chat.max_tokens".
Definition RESPONSES_OUTPUT_LIMIT : string := "openai.responses.max_output_tokens".
Definition MESSAGES_OUTPUT_LIMIT : string := "anthropic.messages.max_tokens".
Definition CHAT_TOOL_CHOICE : string := "openai.chat.tool_choice".
Definition RESPONSES_TOOL_CHOICE : string := "openai.responses.tool_choice".
Definition MESSAGES_TOOL_CHOICE : string := "anthropic.messages.tool_choice".
Definition ANTHROPIC_THINKING_BUDGET : string := "anthropic.thinking.budget_tokens".

Definition output_limit_name (p : ProtocolFormat) : string :=
  match p with
  | PChatCompletions => CHAT_OUTPUT_LIMIT
  | PResponses => RESPONSES_OUTPUT_LIMIT
  | PMessages => MESSAGES_OUTPUT_LIMIT
  end.

Definition tool_choice_name (p : ProtocolFormat) : string :=
  match p with
  | PChatCompletions => CHAT_TOOL_CHOICE
  | PResponses => RESPONSES_TOOL_CHOICE
  | PMessages => MESSAGES_TOOL_CHOICE
  end.

Definition is_output_limit_name (name : string) : bool :=
  bool_decide (name = CHAT_OUTPUT_LIMIT) || bool_decide (name = RESPONSES_OUTPUT_LIMIT)
  || bool_decide (name = MESSAGES_OUTPUT_LIMIT).

(** The fixed JSON texts of the code. *)
Definition quote : string := String (Ascii.ascii_of_nat 34) "".
Definition quoted (s : string) : string := quote +:+ s +:+ quote.
Definition REQUIRED_TEXT : string := quoted "required".
Definition ANY_TEXT : string := "{" +:+ quoted "type" +:+ ":" +:+ quoted "any" +:+ "}".

Definition no_ext (e : RawExtensions) : bool := bool_decide (e = ∅).
Definition has_tools (r : CanonicalRequest) : bool := negb (bool_decide (length (tools r) = 0%nat)).

Section Operations.
Context `{!JsonText} `{!JsonRaw}.

(** [RawJson::from_json_string]. *)
Definition from_json_string (text : string) : option RawJson := if raw_accepts text then Some text else None.

(** [Value::as_str], and the single field ["type"] of an object. *)
Definition value_as_str (v : Value) : option string :=
  match v with JString s => Some s | _ => None end.
Definition only_type (v : Value) : option string :=
  match v with
  | JObject [(name, x)] => if bool_decide (name = "type") then value_as_str x else None
  | _ => None
  end.

Definition positive_u64 (raw : RawJson) : option Z :=
  match value_from_str raw with
  | Some (JNumber text) =>
      match as_u64 text with
      | Some n => if (0 <? n)%Z then Some n else None
      | None => None
      end
  | _ => None
  end.

Definition validate_output_limit (raw : RawJson) : Rej unit :=
  match positive_u64 raw with Some _ => Ok tt | None => Err OutputLimitInvalid end.

(** ** Cross-protocol projection *)

Definition check_content (part : MessageContent) : Rej unit :=
  match part with
  | MText t => if no_ext (tx_extensions t) then Ok tt else Err UnknownContentExtensions
  | MToolCall c => if no_ext (tc_extensions c) then Ok tt else Err UnknownContentExtensions
  | MToolResult r => if no_ext (tr_extensions r) then Ok tt else Err UnknownContentExtensions
  | MOpaque _ => Err RejOpaqueContent
  end.

Fixpoint check_all {A} (f : A -> Rej unit) (l : list A) : Rej unit :=
  match l with
  | [] => Ok tt
  | x :: rest => let? _ := f x in check_all f rest
  end.

Definition check_message_extensions (m : CanonicalMessage) : Rej unit :=
  if negb (no_ext (msg_extensions m)) then Err UnknownMessageExtensions
  else check_all check_content (msg_content m).

Definition reject_nested_extensions_and_opaque (r : CanonicalRequest) : Rej unit :=
  let? _ := check_all check_message_extensions (messages r) in
  if existsb (fun t => negb (no_ext (tool_extensions t))) (tools r)
  then Err UnknownToolDefinitionExtensions else Ok tt.

(** The loop over the root extensions. *)
Fixpoint scan_root (s : ProtocolFormat) (l : list (string * RawJson)) (limit choice : option RawJson)
  : Rej (option RawJson * option RawJson) :=
  match l with
  | [] => Ok (limit, choice)
  | (name, raw) :: rest =>
      if bool_decide (name = output_limit_name s) then
        match limit with Some _ => Err OutputLimitCollision | None => scan_root s rest (Some raw) choice end
      else if bool_decide (name = tool_choice_name s) then
        match choice with Some _ => Err UnknownRequestExtensions | None => scan_root s rest limit (Some raw) end
      else if is_output_limit_name name then Err OutputLimitCollision
      else Err UnknownRequestExtensions
  end.

Definition is_forced (s : ProtocolFormat) (v : Value) : bool :=
  match s with
  | PChatCompletions | PResponses => bool_decide (value_as_str v = Some "required")
  | PMessages => bool_decide (only_type v = Some "any")
  end.

Definition forced_text (t : ProtocolFormat) : string :=
  match t with PChatCompletions | PResponses => REQUIRED_TEXT | PMessages => ANY_TEXT end.

Definition project_forced_tool_choice (raw : RawJson) (s t : ProtocolFormat) (tools_present : bool)
  : Rej RawJson :=
  if negb tools_present then Err UnknownRequestExtensions
  else
    let? v := ok_or UnknownRequestExtensions (value_from_str raw) in
    if negb (is_forced s v) then Err UnknownRequestExtensions
    else ok_or UnknownRequestExtensions (from_json_string (forced_text t)).

(** [projected.try_insert(name, raw).map_err(..)]. *)
Definition insert_ext (e : ProtocolTransformRejection) (name : string) (raw : RawJson) (ext : RawExtensions)
  : Rej RawExtensions :=
  match extensions_try_insert name raw ext with
  | (Ok _, ext') => Ok ext'
  | (Err _, _) => Err e
  | (Panic, _) => Panic
  end.

Definition project_root_extensions (ext : RawExtensions) (s t : ProtocolFormat) (tools_present : bool)
  : Rej RawExtensions :=
  let? found := scan_root s (ext_iter ext) None None in
  let? projected :=
    match found.1 with
    | Some raw => let? _ := validate_output_limit raw in
                  insert_ext OutputLimitCollision (output_limit_name t) raw ∅
    | None => if bool_decide (t = PMessages) then Err OutputLimitMissing else Ok ∅
    end in
  match found.2 with
  | Some raw =>
      let? mapped := project_forced_tool_choice raw s t tools_present in
      insert_ext UnknownRequestExtensions (tool_choice_name t) mapped projected
  | None => Ok projected
  end.

Fixpoint project_messages_roles (position : nat) (l : list CanonicalMessage) : Rej (list CanonicalMessage) :=
  match l with
  | [] => Ok []
  | m :: rest =>
      let? m' :=
        if bool_decide (msg_role m = "developer") then
          match position with
          | O => Ok (mkMessage "system" (msg_content m) (msg_extensions m))
          | S _ => Err IncompatibleRole
          end
        else Ok m in
      let? rest' := project_messages_roles (S position) rest in
      Ok (m' :: rest')
  end.

(** ** Thinking *)

Definition responses_levels : list (string * (string * option Z)) :=
  [("none", ("disabled", None)); ("auto", ("adaptive", None)); ("minimal", ("enabled", Some 512%Z));
   ("low", ("enabled", Some 1024%Z)); ("medium", ("enabled", Some 8192%Z)); ("high", ("enabled", Some 24576%Z));
   ("xhigh", ("enabled", Some 32768%Z)); ("max", ("enabled", Some 128000%Z))].

(** The first arm that matches the label. *)
Fixpoint level_of (label : string) (l : list (string * (string * option Z))) : option (string * option Z) :=
  match l with
  | [] => None
  | (name, level) :: rest => if bool_decide (label = name) then Some level else level_of label rest
  end.

Definition thinking_of (label : string) (ext : RawExtensions) : Rej Thinking :=
  match effort_try_new label with
  | Ok e => Ok (mkThinking e ext)
  | _ => Err ThinkingUnsupported
  end.

Definition responses_thinking_to_messages (th : Thinking) : Rej Thinking :=
  let? level := ok_or ThinkingUnsupported (level_of (effort_as_str (effort th)) responses_levels) in
  let? ext :=
    match level.2 with
    | Some budget =>
        let? raw := ok_or ThinkingUnsupported (from_json_string (pretty budget)) in
        insert_ext ThinkingUnsupported ANTHROPIC_THINKING_BUDGET raw ∅
    | None => Ok ∅
    end in
  thinking_of level.1 ext.

Definition budget_to_responses_effort (budget : Z) : string :=
  if (1 <=? budget)%Z && (budget <=? 512)%Z then "minimal"
  else if (513 <=? budget)%Z && (budget <=? 1024)%Z then "low"
  else if (1025 <=? budget)%Z && (budget <=? 8192)%Z then "medium"
  else if (8193 <=? budget)%Z && (budget <=? 24576)%Z then "high"
  else "xhigh".

Fixpoint scan_budget (l : list (string * RawJson)) (budget : option Z) : Rej (option Z) :=
  match l with
  | [] => Ok budget
  | (name, raw) :: rest =>
      if negb (bool_decide (name = ANTHROPIC_THINKING_BUDGET)) || bool_decide (is_Some budget)
      then Err ThinkingUnsupported
      else match positive_u64 raw with
           | Some n => scan_budget rest (Some n)
           | None => Err ThinkingUnsupported
           end
  end.

Definition messages_effort (label : string) (budget : option Z) : option string :=
  if bool_decide (label = "disabled") && bool_decide (budget = None) then Some "none"
  else if bool_decide (label = "adaptive") && bool_decide (budget = None) then Some "auto"
  else if bool_decide (label = "enabled") then
    Some (match budget with Some b => budget_to_responses_effort b | None => "auto" end)
  else None.

Definition messages_thinking_to_responses (th : Thinking) : Rej Thinking :=
  let? budget := scan_budget (ext_iter (th_extensions th)) None in
  let? label := ok_or ThinkingUnsupported (messages_effort (effort_as_str (effort th)) budget) in
  thinking_of label ∅.

Definition project_thinking (th : option Thinking) (s t : ProtocolFormat) : Rej (option Thinking) :=
  match th with
  | None => Ok None
  | Some th =>
      if bool_decide (s = PChatCompletions) || bool_decide (t = PChatCompletions) then Err ThinkingUnsupported
      else
        let? out :=
          match s, t with
          | PResponses, PMessages =>
              if negb (no_ext (th_extensions th)) then Err ThinkingUnsupported
              else responses_thinking_to_messages th
          | PMessages, PResponses => messages_thinking_to_responses th
          | _, _ => Err ThinkingUnsupported
          end in
        Ok (Some out)
  end.

Definition caches (r : CanonicalRequest) : bool :=
  bool_decide (is_Some (prompt_cache_key r)) || bool_decide (is_Some (prompt_cache_retention r)).

Definition project_cross_protocol (r : CanonicalRequest) (s t : ProtocolFormat) : Rej CanonicalRequest :=
  let? _ := reject_nested_extensions_and_opaque r in
  if caches r then Err CacheControlUnsupported
  else
    let? ext := project_root_extensions (extensions r) s t (has_tools r) in
    let? th := project_thinking (thinking r) s t in
    let? msgs := if bool_decide (t = PMessages) then project_messages_roles 0 (messages r) else Ok (messages r) in
    Ok (mkRequest (requested_model r) msgs (tools r) th (prompt_cache_key r) (prompt_cache_retention r) ext).

(** ** Validity for the target *)

Definition validate_tool_choice (raw : RawJson) (t : ProtocolFormat) (tools_present : bool) : Rej unit :=
  let? v := ok_or UnknownRequestExtensions (value_from_str raw) in
  let valid :=
    match t with
    | PChatCompletions => bool_decide (value_as_str v = Some "required") && tools_present
    | PResponses =>
        bool_decide (value_as_str v = Some "auto")
        || (bool_decide (value_as_str v = Some "required") && tools_present)
    | PMessages =>
        bool_decide (only_type v = Some "auto") || (bool_decide (only_type v = Some "any") && tools_present)
    end in
  if valid then Ok tt else Err UnknownRequestExtensions.

Definition check_root_extension (t : ProtocolFormat) (tools_present : bool) (entry : string * RawJson) : Rej unit :=
  if bool_decide (entry.1 = output_limit_name t) then validate_output_limit entry.2
  else if bool_decide (entry.1 = tool_choice_name t) then validate_tool_choice entry.2 t tools_present
  else if is_output_limit_name entry.1 then Err OutputLimitCollision
  else Err UnknownRequestExtensions.

Definition validate_target_root_extensions (r : CanonicalRequest) (t : ProtocolFormat) : Rej unit :=
  let? _ := check_all (check_root_extension t (has_tools r)) (ext_iter (extensions r)) in
  if bool_decide (t = PMessages) && bool_decide (extensions r !! output_limit_name t = None)
  then Err OutputLimitMissing else Ok tt.

Definition target_supports_role (t : ProtocolFormat) (role : string) : bool :=
  match t with
  | PChatCompletions | PResponses => bool_decide (role ∈ ["system"; "developer"; "user"; "assistant"; "tool"])
  | PMessages => bool_decide (role ∈ ["system"; "user"; "assistant"; "tool"])
  end.

Definition is_text (part : MessageContent) : bool := match part with MText _ => true | _ => false end.

Fixpoint assistant_parts (index : nat) (saw_text : bool) (l : list MessageContent) : bool :=
  match l with
  | [] => true
  | part :: rest =>
      match part with
      | MText _ =>
          if bool_decide (index = 0%nat) && negb saw_text then assistant_parts (S index) true rest else false
      | MToolCall c =>
          negb (bool_decide (tc_id c = "")) && negb (bool_decide (tc_name c = ""))
          && assistant_parts (S index) saw_text rest
      | _ => false
      end
  end.

Definition valid_assistant_tool_history (l : list MessageContent) : bool := assistant_parts 0 false l.

Definition json_is_string (raw : RawJson) : bool :=
  match value_from_str raw with Some (JString _) => true | _ => false end.
Definition json_is_object (raw : RawJson) : bool :=
  match value_from_str raw with Some (JObject _) => true | _ => false end.

Definition valid_tool_result_message (l : list MessageContent) (t : ProtocolFormat) : bool :=
  match l with
  | [MToolResult r] =>
      if bool_decide (tr_call_id r = "") then false
      else match t with
           | PChatCompletions | PResponses => negb (tr_is_error r) && json_is_string (tr_output r)
           | PMessages => true
           end
  | _ => false
  end.

Definition valid_responses_content (role : string) (l : list MessageContent) : bool :=
  if bool_decide (role ∈ ["system"; "developer"; "user"]) then forallb is_text l
  else if bool_decide (role = "assistant") then valid_assistant_tool_history l
  else if bool_decide (role = "tool") then valid_tool_result_message l PResponses
  else false.

Definition single_text (l : list MessageContent) : bool :=
  match l with [MText _] => true | _ => false end.

Definition validate_target_message (m : CanonicalMessage) (position : nat) (t : ProtocolFormat) : Rej unit :=
  let role := msg_role m in
  if bool_decide (msg_content m = []) then Err IncompatibleRole
  else match t with
       | PChatCompletions =>
           if (bool_decide (role ∈ ["system"; "developer"; "user"]) && single_text (msg_content m))
              || (bool_decide (role = "assistant") && valid_assistant_tool_history (msg_content m))
              || (bool_decide (role = "tool") && valid_tool_result_message (msg_content m) t)
           then Ok tt else Err ToolHistoryUnsupported
       | PResponses =>
           if valid_responses_content role (msg_content m) then Ok tt else Err ToolHistoryUnsupported
       | PMessages =>
           if bool_decide (role = "system") && negb (bool_decide (position = 0%nat)) then Err IncompatibleRole
           else if bool_decide (role = "tool") && negb (valid_tool_result_message (msg_content m) t)
           then Err ToolHistoryUnsupported
           else if bool_decide (role = "assistant") && negb (valid_assistant_tool_history (msg_content m))
           then Err ToolHistoryUnsupported
           else if bool_decide (role ∈ ["system"; "user"]) && existsb (fun p => negb (is_text p)) (msg_content m)
           then Err ToolHistoryUnsupported
           else Ok tt
       end.

Definition check_message (t : ProtocolFormat) (position : nat) (m : CanonicalMessage) : Rej unit :=
  let? _ := check_message_extensions m in
  if negb (target_supports_role t (msg_role m)) then Err IncompatibleRole
  else validate_target_message m position t.

Fixpoint check_messages (t : ProtocolFormat) (position : nat) (l : list CanonicalMessage) : Rej unit :=
  match l with
  | [] => Ok tt
  | m :: rest => let? _ := check_message t position m in check_messages t (S position) rest
  end.

Definition check_tool (tool : ToolDefinition) : Rej unit :=
  if negb (no_ext (tool_extensions tool)) then Err UnknownToolDefinitionExtensions
  else if bool_decide (tool_name tool = "") || negb (json_is_object (tool_input_schema tool))
  then Err ToolHistoryUnsupported else Ok tt.

Definition responses_efforts : list string := ["none"; "auto"; "minimal"; "low"; "medium"; "high"; "xhigh"; "max"].

Definition validate_target_thinking (th : option Thinking) (t : ProtocolFormat) : Rej unit :=
  match th with
  | None => Ok tt
  | Some th =>
      match t with
      | PChatCompletions => Err ThinkingUnsupported
      | PResponses =>
          if no_ext (th_extensions th) then
            if bool_decide (effort_as_str (effort th) ∈ responses_efforts) then Ok tt else Err ThinkingUnsupported
          else Err ThinkingUnsupported
      | PMessages => let? _ := messages_thinking_to_responses th in Ok tt
      end
  end.

Definition canonical_rejection (r : CanonicalRequest) (t : ProtocolFormat) : Rej unit :=
  let? _ := validate_target_root_extensions r t in
  if caches r then Err CacheControlUnsupported
  else if bool_decide (messages r = []) then Err IncompatibleRole
  else
    let? _ := check_messages t 0 (messages r) in
    let? _ := check_all check_tool (tools r) in
    validate_target_thinking (thinking r) t.

Definition uses_tools (r : CanonicalRequest) : bool :=
  has_tools r
  || existsb (fun m => existsb (fun p => match p with MToolCall _ | MToolResult _ => true | _ => false end)
                         (msg_content m)) (messages r).

Definition capability_rejection (input : ProtocolTransformInput) (r : CanonicalRequest) : Rej unit :=
  let caps := target_capabilities input in
  if streaming input && negb (supports caps Streaming) then Err StreamingUnsupported
  else if (uses_tools r || requires_parallel_tools input) && negb (supports caps Tools) then Err ToolsUnsupported
  else if (uses_tools r || requires_json_schema input) && negb (supports caps JsonSchema)
  then Err JsonSchemaUnsupported
  else if requires_parallel_tools input && negb (supports caps ParallelTools) then Err ParallelToolsUnsupported
  else if bool_decide (is_Some (thinking r)) && negb (supports caps Reasoning) then Err RejReasoningUnsupported
  else Ok tt.

(** ** Projection *)

Definition mode_rejection (input : ProtocolTransformInput) : option ProtocolTransformRejection :=
  let same := bool_decide (source input = target input) in
  match mode input with
  | Passthrough =>
      if negb same then Some PassthroughProtocolMismatch
      else if negb (bool_decide (native_payload input = Exact)) then Some PassthroughNativePayloadUnavailable
      else None
  | Canonical => if negb same then Some CanonicalProtocolMismatch else None
  | LosslessBridge => if same then Some LosslessBridgeProtocolMatch else None
  | CanonicalBridge => None
  end.

Definition project_protocol_request (input : ProtocolTransformInput) : Rej ProjectedProtocolRequest :=
  match mode_rejection input with
  | Some rejection => Err rejection
  | None =>
      match mode input with
      | Passthrough =>
          let? _ := capability_rejection input (request input) in Ok NativeExact
      | _ =>
          let? projected :=
            if bool_decide (source input = target input) then Ok (request input)
            else project_cross_protocol (request input) (source input) (target input) in
          let? _ := canonical_rejection projected (target input) in
          let? _ := capability_rejection input projected in
          Ok (ProjectedCanonical projected)
      end
  end.

Definition project_registered_protocol_request (input : ProtocolTransformInput) : Rej ProjectedProtocolRequest :=
  if negb (protocol_pair_is_registered (source input) (target input)) then Err PairUnregistered
  else if bool_decide (source input = PChatCompletions) && supports (target_capabilities input) Reasoning
  then Err ResponseReasoningUnsupported
  else project_protocol_request input.

Definition analyze_protocol_transform (input : ProtocolTransformInput)
  : result unit ProtocolTransformAdmission :=
  match project_protocol_request input with
  | Ok _ => Ok Approved
  | Err r => Ok (Rejected r)
  | Panic => Panic
  end.
End Operations.

(** ** Specification *)

Section Specification.
Context `{!JsonText} `{!JsonRaw}.

Definition content_plain (p : MessageContent) : Prop :=
  match p with
  | MText t => tx_extensions t = ∅
  | MToolCall c => tc_extensions c = ∅
  | MToolResult r => tr_extensions r = ∅
  | MOpaque _ => False
  end.

Definition message_plain (m : CanonicalMessage) : Prop :=
  msg_extensions m = ∅ /\ Forall content_plain (msg_content m).

(** Nothing opaque below the root of a request. *)
Definition nested_plain (r : CanonicalRequest) : Prop :=
  Forall message_plain (messages r) /\ Forall (fun t => tool_extensions t = ∅) (tools r).

Definition no_caches (r : CanonicalRequest) : Prop :=
  prompt_cache_key r = None /\ prompt_cache_retention r = None.

(** The fields of each protocol, and how it says that some Tool must be called. *)
Definition limit_field (t : ProtocolFormat) : string :=
  match t with
  | PChatCompletions => "openai.chat.max_tokens"
  | PResponses => "openai.responses.max_output_tokens"
  | PMessages => "anthropic.messages.max_tokens"
  end.

Definition choice_field (t : ProtocolFormat) : string :=
  match t with
  | PChatCompletions => "openai.chat.tool_choice"
  | PResponses => "openai.responses.tool_choice"
  | PMessages => "anthropic.messages.tool_choice"
  end.

Definition forced_words (t : ProtocolFormat) : string :=
  match t with
  | PChatCompletions | PResponses => quoted "required"
  | PMessages => "{" +:+ quoted "type" +:+ ":" +:+ quoted "any" +:+ "}"
  end.

Definition forces_tool (s : ProtocolFormat) (raw : RawJson) : Prop :=
  value_from_str raw = Some (match s with
                             | PChatCompletions | PResponses => JString "required"
                             | PMessages => JObject [("type", JString "any")]
                             end).

Definition chooses_auto (t : ProtocolFormat) (raw : RawJson) : Prop :=
  match t with
  | PChatCompletions => False
  | PResponses => value_from_str raw = Some (JString "auto")
  | PMessages => value_from_str raw = Some (JObject [("type", JString "auto")])
  end.

(** A JSON number that is a positive [u64]. *)
Definition positive (raw : RawJson) (n : Z) : Prop :=
  exists text, value_from_str raw = Some (JNumber text) /\ as_u64 text = Some n /\ (0 < n)%Z.

(** How much to think, in the words of Responses and of Messages. *)
Definition budgets : list (string * Z) :=
  [("minimal", 512%Z); ("low", 1024%Z); ("medium", 8192%Z); ("high", 24576%Z); ("xhigh", 32768%Z); ("max", 128000%Z)].

Inductive says_in_messages : string -> Thinking -> Prop :=
| says_disabled : says_in_messages "none" (mkThinking (mkEffort "disabled") ∅)
| says_adaptive : says_in_messages "auto" (mkThinking (mkEffort "adaptive") ∅)
| says_enabled label n :
    (label, n) ∈ budgets -> raw_accepts (pretty n) = true ->
    says_in_messages label (mkThinking (mkEffort "enabled") {[ "anthropic.thinking.budget_tokens" := pretty n ]}).

(** The level of a budget: the smallest that covers it, up to ["xhigh"]. *)
Definition budget_level (n : Z) (label : string) : Prop :=
  (label = "minimal" /\ (n <= 512)%Z) \/ (label = "low" /\ (512 < n <= 1024)%Z) \/ (label = "medium" /\ (1024 < n <= 8192)%Z)
  \/ (label = "high" /\ (8192 < n <= 24576)%Z) \/ (label = "xhigh" /\ (24576 < n)%Z).

Inductive reads_in_messages : Thinking -> string -> Prop :=
| reads_disabled : reads_in_messages (mkThinking (mkEffort "disabled") ∅) "none"
| reads_adaptive : reads_in_messages (mkThinking (mkEffort "adaptive") ∅) "auto"
| reads_enabled : reads_in_messages (mkThinking (mkEffort "enabled") ∅) "auto"
| reads_budget raw n label :
    positive raw n -> budget_level n label ->
    reads_in_messages (mkThinking (mkEffort "enabled") {[ "anthropic.thinking.budget_tokens" := raw ]}) label.

(** Thinking crosses between Responses and Messages only, and is never dropped. *)
Definition thinking_bridges (s t : ProtocolFormat) (a b : option Thinking) : Prop :=
  match a with
  | None => b = None
  | Some th => exists th', b = Some th'
      /\ ((s = PResponses /\ t = PMessages /\ th_extensions th = ∅ /\ says_in_messages (effort_as_str (effort th)) th')
          \/ (s = PMessages /\ t = PResponses
              /\ exists label, reads_in_messages th label /\ th' = mkThinking (mkEffort label) ∅))
  end.

(** At most one text, then Tool calls that can be correlated. *)
Definition assistant_shape (l : list MessageContent) : Prop :=
  exists texts calls, l = (MText <$> texts) ++ (MToolCall <$> calls) /\ (length texts <= 1)%nat
    /\ Forall (fun c => tc_id c <> "" /\ tc_name c <> "") calls.

Definition tool_shape (t : ProtocolFormat) (l : list MessageContent) : Prop :=
  exists r, l = [MToolResult r] /\ tr_call_id r <> ""
    /\ (t <> PMessages -> tr_is_error r = false /\ exists text, value_from_str (tr_output r) = Some (JString text)).

Definition text_shape (l : list MessageContent) : Prop := exists texts, l = MText <$> texts.

(** What a message of some role may contain in each protocol. *)
Definition role_shape (t : ProtocolFormat) (position : nat) (m : CanonicalMessage) : Prop :=
  (msg_role m ∈ ["system"; "developer"; "user"] /\ text_shape (msg_content m)
   /\ (t = PChatCompletions -> length (msg_content m) = 1%nat)
   /\ (t = PMessages -> msg_role m <> "developer" /\ (msg_role m = "system" -> position = 0%nat)))
  \/ (msg_role m = "assistant" /\ assistant_shape (msg_content m))
  \/ (msg_role m = "tool" /\ tool_shape t (msg_content m)).

Definition message_ok (t : ProtocolFormat) (position : nat) (m : CanonicalMessage) : Prop :=
  message_plain m /\ msg_content m <> [] /\ role_shape t position m.

Definition tool_ok (tool : ToolDefinition) : Prop :=
  tool_extensions tool = ∅ /\ tool_name tool <> ""
  /\ exists fields, value_from_str (tool_input_schema tool) = Some (JObject fields).

Definition thinking_ok (t : ProtocolFormat) (th : Thinking) : Prop :=
  match t with
  | PChatCompletions => False
  | PResponses => th_extensions th = ∅ /\ (effort_as_str (effort th) = "none" \/ effort_as_str (effort th) = "auto" \/ effort_as_str (effort th) ∈ budgets.*1)
  | PMessages => exists label, reads_in_messages th label
  end.

Definition root_entry_ok (t : ProtocolFormat) (r : CanonicalRequest) (name : string) (raw : RawJson) : Prop :=
  (name = limit_field t /\ (exists n, positive raw n))
  \/ (name = choice_field t /\ (chooses_auto t raw \/ (forces_tool t raw /\ tools r <> []))).

(** A request that can be written in protocol [t] without losing anything. *)
Record native_to (t : ProtocolFormat) (r : CanonicalRequest) : Prop := {
  nat_root : forall name raw, extensions r !! name = Some raw -> root_entry_ok t r name raw;
  nat_limit : t = PMessages -> is_Some (extensions r !! limit_field t);
  nat_caches : no_caches r;
  nat_messages : messages r <> [];
  nat_shapes : forall i m, messages r !! i = Some m -> message_ok t i m;
  nat_tools : Forall tool_ok (tools r);
  nat_thinking : forall th, thinking r = Some th -> thinking_ok t th;
}.

(** A leading developer message becomes the system message. *)
Definition as_system (m : CanonicalMessage) : CanonicalMessage :=
  if bool_decide (msg_role m = "developer") then mkMessage "system" (msg_content m) (msg_extensions m) else m.

Definition system_first (l : list CanonicalMessage) : list CanonicalMessage :=
  match l with [] => [] | m :: rest => as_system m :: rest end.

(** The root extensions of a bridged request: the output limit verbatim, a forced
    Tool choice in the words of the target, and nothing else. *)
Definition bridged_extensions (s t : ProtocolFormat) (ext : RawExtensions) : RawExtensions :=
  match ext !! choice_field s with Some _ => {[ choice_field t := forced_words t ]} | None => ∅ end
  ∪ match ext !! limit_field s with Some raw => {[ limit_field t := raw ]} | None => ∅ end.

Record bridges (s t : ProtocolFormat) (r p : CanonicalRequest) : Prop := {
  br_plain : nested_plain r;
  br_caches : no_caches r;
  br_names : forall name, is_Some (extensions r !! name) -> name = limit_field s \/ name = choice_field s;
  br_limit : forall raw, extensions r !! limit_field s = Some raw -> (exists n, positive raw n);
  br_limit_needed : t = PMessages -> is_Some (extensions r !! limit_field s);
  br_choice : forall raw, extensions r !! choice_field s = Some raw ->
    tools r <> [] /\ forces_tool s raw /\ raw_accepts (forced_words t) = true;
  br_roles : t = PMessages -> forall i m, messages r !! S i = Some m -> msg_role m <> "developer";
  br_model : requested_model p = requested_model r;
  br_messages : messages p = if decide (t = PMessages) then system_first (messages r) else messages r;
  br_tools : tools p = tools r;
  br_no_caches : no_caches p;
  br_extensions : extensions p = bridged_extensions s t (extensions r);
  br_thinking : thinking_bridges s t (thinking r) (thinking p);
}.

(** Tools are offered, called or answered. *)
Definition needs_tools (r : CanonicalRequest) : Prop :=
  tools r <> [] \/ exists m part, (m ∈ messages r) /\ (part ∈ msg_content m)
    /\ ((exists c, part = MToolCall c) \/ exists x, part = MToolResult x).

(** The capabilities a request needs of its Endpoint. *)
Definition capable (input : ProtocolTransformInput) (r : CanonicalRequest) : Prop :=
  let caps := target_capabilities input in
  (streaming input = true -> Streaming ∈ caps)
  /\ (needs_tools r -> Tools ∈ caps /\ JsonSchema ∈ caps)
  /\ (requires_json_schema input = true -> JsonSchema ∈ caps)
  /\ (requires_parallel_tools input = true -> Tools ∈ caps /\ ParallelTools ∈ caps)
  /\ (is_Some (thinking r) -> Reasoning ∈ caps).

(** What may be sent, and as what. *)
Definition sends (input : ProtocolTransformInput) (out : ProjectedProtocolRequest) : Prop :=
  ~ (source input = PChatCompletions /\ Reasoning ∈ target_capabilities input)
  /\ match out with
     | NativeExact => mode input = Passthrough /\ source input = target input /\ native_payload input = Exact
         /\ capable input (request input)
     | ProjectedCanonical p => mode input <> Passthrough
         /\ (mode input = Canonical -> source input = target input)
         /\ (mode input = LosslessBridge -> source input <> target input)
         /\ (if decide (source input = target input) then p = request input
             else bridges (source input) (target input) (request input) p)
         /\ native_to (target input) p /\ capable input p
     end.
End Specification.

(** ** Lemmas: the checks decide the specification *)

(** The code's names for the fields of a protocol. *)
Ltac field_names :=
  try (progress change limit_field with output_limit_name in * );
  try (progress change choice_field with tool_choice_name in * );
  try (progress change forced_words with forced_text in * ).

Abbreviation checks r P := (decides r P (fun _ => True)).

Section Checks.
Context `{!JsonText} `{!JsonRaw}.

Lemma no_ext_iff e : no_ext e = true <-> e = ∅.
Proof. unfold no_ext. by rewrite bool_decide_eq_true. Qed.

Lemma checks_if (b : bool) (e : ProtocolTransformRejection) P :
  (b = true <-> P) -> checks (if b then Ok tt else Err e) P.
Proof. destruct b; simpl; [naive_solver|]. intros Hb HP. by apply Hb in HP. Qed.

Lemma checks_unless (b : bool) (e : ProtocolTransformRejection) P :
  (b = false <-> P) -> checks (if b then Err e else Ok tt) P.
Proof. destruct b; simpl; [|naive_solver]. intros Hb HP. by apply Hb in HP. Qed.

Lemma check_all_decides {A} (f : A -> Rej unit) (P : A -> Prop) l :
  (forall x, x ∈ l -> checks (f x) (P x)) -> checks (check_all f l) (Forall P l).
Proof.
  induction l as [|x l IH]; intros Hf; [by split|]. cbn [check_all].
  eapply decides_iff; [apply decides_bind with (Q := fun _ => True) (P' := Forall P l)|by rewrite Forall_cons].
  - apply Hf. left.
  - intros _ _ _. apply IH. intros y Hy. apply Hf. by right.
Qed.

Lemma check_content_decides part : checks (check_content part) (content_plain part).
Proof. destruct part; simpl; try (apply checks_if, no_ext_iff). by intros []. Qed.

Lemma check_message_extensions_decides m : checks (check_message_extensions m) (message_plain m).
Proof.
  unfold check_message_extensions, message_plain. apply decides_guard.
  - by rewrite negb_false_iff, no_ext_iff.
  - intros _. apply check_all_decides. intros part _. apply check_content_decides.
Qed.

Lemma reject_nested_decides r : checks (reject_nested_extensions_and_opaque r) (nested_plain r).
Proof.
  unfold reject_nested_extensions_and_opaque, nested_plain.
  apply decides_bind with (Q := fun _ => True).
  - apply check_all_decides. intros m _. apply check_message_extensions_decides.
  - intros _ _ _. apply checks_unless. rewrite <- not_true_iff_false, existsb_exists, Forall_forall.
    setoid_rewrite <- list_elem_of_In. setoid_rewrite negb_true_iff. setoid_rewrite <- not_true_iff_false.
    setoid_rewrite no_ext_iff. split; [|naive_solver]. intros Hno t Ht.
    destruct (decide (tool_extensions t = ∅)); [done|]. destruct Hno. eauto.
Qed.

Lemma positive_iff raw n : positive_u64 raw = Some n <-> positive raw n.
Proof.
  unfold positive_u64, positive. destruct (value_from_str raw) as [[| |text| | |]|]; try (split; [done|]; by intros (? & ? & _)).
  destruct (as_u64 text) as [m|] eqn:Hm; [|split; [done|]; intros (? & [= <-] & ? & _); congruence].
  destruct (Z.ltb_spec 0 m); (split; [intros; simplify_eq; by exists text|]); intros (? & [= <-] & Hn & ?); [congruence|].
  assert (n = m) by congruence. lia.
Qed.

Lemma validate_output_limit_decides raw : checks (validate_output_limit raw) (exists n, positive raw n).
Proof.
  unfold validate_output_limit. destruct (positive_u64 raw) as [n|] eqn:Hn; simpl.
  - split; [|done]. exists n. by apply positive_iff.
  - intros [n Hp%positive_iff]. congruence.
Qed.

Lemma only_type_iff v x : only_type v = Some x <-> v = JObject [("type", JString x)].
Proof.
  split; [|by intros ->]. unfold only_type. destruct v as [| | | | |[|[name y] [|]]]; try done. case_bool_decide; [|done]. subst.
  destruct y; simpl; congruence.
Qed.

Lemma value_as_str_iff v x : value_as_str v = Some x <-> v = JString x.
Proof. split; [|by intros ->]. destruct v; simpl; congruence. Qed.

Lemma is_forced_iff s v :
  is_forced s v = true
  <-> v = match s with PChatCompletions | PResponses => JString "required" | PMessages => JObject [("type", JString "any")] end.
Proof. unfold is_forced. destruct s; rewrite bool_decide_eq_true, ?value_as_str_iff, ?only_type_iff; done. Qed.

Lemma has_tools_iff r : has_tools r = true <-> tools r <> [].
Proof.
  unfold has_tools. rewrite negb_true_iff, bool_decide_eq_false. split; intros H1 H2; apply H1; [by rewrite H2|].
  by apply nil_length_inv.
Qed.

Lemma caches_iff r : caches r = false <-> no_caches r.
Proof.
  unfold caches, no_caches. rewrite orb_false_iff, !bool_decide_eq_false, <- !eq_None_not_Some. done.
Qed.

Lemma limit_not_choice s t : output_limit_name s <> tool_choice_name t.
Proof. by destruct s, t. Qed.

Lemma validate_tool_choice_decides raw t b :
  checks (validate_tool_choice raw t b) (chooses_auto t raw \/ (forces_tool t raw /\ b = true)).
Proof.
  unfold validate_tool_choice, chooses_auto, forces_tool.
  destruct (value_from_str raw) as [v|]; cbn [ok_or result_bind]; [|intros Hx; destruct t; by destruct Hx as [?|[? _]]].
  assert (forall x, Some v = Some x <-> v = x) as Hv by (intros x; split; congruence).
  apply checks_if. destruct t; rewrite ?orb_true_iff, ?andb_true_iff, ?bool_decide_eq_true, ?value_as_str_iff, ?only_type_iff, ?Hv; tauto.
Qed.

Lemma check_root_extension_decides t r entry :
  checks (check_root_extension t (has_tools r) entry) (root_entry_ok t r entry.1 entry.2).
Proof.
  unfold check_root_extension, root_entry_ok. case_bool_decide as Hl.
  { eapply decides_iff; [apply validate_output_limit_decides|]. split; [by left|].
    intros [[_ ?]|[Hc _]]; [done|]. rewrite Hl in Hc. by apply limit_not_choice in Hc. }
  case_bool_decide as Hc.
  { eapply decides_iff; [apply validate_tool_choice_decides|]. rewrite has_tools_iff. tauto. }
  destruct (is_output_limit_name entry.1); simpl; tauto.
Qed.

Lemma validate_target_root_decides t r :
  checks (validate_target_root_extensions r t)
    ((forall name raw, extensions r !! name = Some raw -> root_entry_ok t r name raw)
     /\ (t = PMessages -> is_Some (extensions r !! output_limit_name t))).
Proof.
  unfold validate_target_root_extensions. apply decides_bind with (Q := fun _ => True).
  - eapply decides_iff; [apply check_all_decides; intros; apply check_root_extension_decides|].
    rewrite Forall_forall. setoid_rewrite <- ext_iter_elem. split; [intros Hx name raw Hin; apply (Hx (name, raw) Hin)|].
    intros Hx [name raw] Hin. by apply Hx.
  - intros _ _ _. apply checks_unless. rewrite <- not_true_iff_false, andb_true_iff, !bool_decide_eq_true.
    rewrite eq_None_not_Some. destruct (extensions r !! output_limit_name t); [naive_solver|].
    split; [|naive_solver]. intros Hx Ht. destruct Hx. split; [done|]. by apply is_Some_None.
Qed.

Lemma assistant_tail index saw l :
  (index <> 0%nat \/ saw = true) ->
  assistant_parts index saw l = true
  <-> exists calls, l = MToolCall <$> calls /\ Forall (fun c => tc_id c <> "" /\ tc_name c <> "") calls.
Proof.
  revert index saw. induction l as [|part l IH]; intros index saw Hi; simpl.
  { split; [by exists []|done]. }
  destruct part as [t|c|r|o]; [|..|split; [done|]; by intros ([] & ? & _)].
  - assert (bool_decide (index = 0%nat) && negb saw = false) as ->.
    { destruct Hi as [Hi| ->]; [by rewrite bool_decide_false|apply andb_false_r]. }
    split; [done|]. by intros ([] & ? & _).
  - rewrite !andb_true_iff, !negb_true_iff, !bool_decide_eq_false, IH by (left; done). split.
    + intros [[? ?] (calls & -> & ?)]. exists (c :: calls). by rewrite Forall_cons.
    + intros ([|c' calls] & Hl & Hall); [done|]. rewrite fmap_cons in Hl. injection Hl as -> ->.
      apply Forall_cons in Hall as [? ?]. split; [done|]. by exists calls.
  - split; [done|]. by intros ([] & ? & _).
Qed.

Lemma calls_only_shape l :
  (exists calls, l = MToolCall <$> calls /\ Forall (fun c => tc_id c <> "" /\ tc_name c <> "") calls) ->
  assistant_shape l.
Proof. intros (calls & -> & Hc). exists [], calls. split_and!; [done|simpl; lia|done]. Qed.

Lemma shape_of_calls part l :
  is_text part = false -> assistant_shape (part :: l) ->
  exists calls, part :: l = MToolCall <$> calls /\ Forall (fun c => tc_id c <> "" /\ tc_name c <> "") calls.
Proof. intros Hp ([|t texts] & calls & Hl & _ & Hc); [by exists calls|]. by simplify_eq/=. Qed.

Lemma valid_assistant_iff l : valid_assistant_tool_history l = true <-> assistant_shape l.
Proof.
  unfold valid_assistant_tool_history. destruct l as [|part l].
  { split; [|done]. intros _. apply calls_only_shape. by exists []. }
  destruct (is_text part) eqn:Hp.
  - destruct part as [t| | |]; try done. simpl. rewrite assistant_tail by (left; done). split.
    + intros (calls & -> & Hc). exists [t], calls. split_and!; [done|simpl; lia|done].
    + intros ([|t' [|? ?]] & calls & Hl & Hlen & Hc); simpl in *; [by destruct calls| |lia].
      simplify_eq. by exists calls.
  - assert (assistant_parts 0 false (part :: l) = assistant_parts 1 true (part :: l)) as Heq.
    { destruct part as [|c| |]; try done. simpl. f_equal. apply eq_true_iff_eq.
      by rewrite !assistant_tail by (left; done). }
    rewrite Heq, assistant_tail by (left; done). split; [apply calls_only_shape|by apply shape_of_calls].
Qed.

Lemma valid_tool_result_iff l t : valid_tool_result_message l t = true <-> tool_shape t l.
Proof.
  unfold valid_tool_result_message, tool_shape, json_is_string.
  destruct l as [|[?|?|r|?] [|? ?]]; try (split; [done|]; by intros (? & ? & _)).
  case_bool_decide as Hid; [split; [done|]; intros (? & ? & ? & _); by simplify_eq|].
  assert (forall P, (exists x, [MToolResult r] = [MToolResult x] /\ P x) <-> P r) as Hr
    by (intros P; split; [by intros (x & [= <-] & ?)|by exists r]).
  rewrite Hr.
  assert (negb (tr_is_error r) && match value_from_str (tr_output r) with Some (JString _) => true | _ => false end = true
    <-> tr_is_error r = false /\ exists text, value_from_str (tr_output r) = Some (JString text)) as Hj.
  { rewrite andb_true_iff, negb_true_iff. apply and_iff_compat_l.
    destruct (value_from_str (tr_output r)) as [[]|]; split; try done; try (by intros []); by eexists. }
  destruct t; rewrite ?Hj; split; try tauto; try (intros (_ & Hx); by apply Hx).
Qed.

Lemma forallb_text_iff l : forallb is_text l = true <-> text_shape l.
Proof.
  unfold text_shape. induction l as [|part l IH]; [split; [by exists []|done]|]. simpl. rewrite andb_true_iff, IH.
  split.
  - intros [Hp [texts ->]]. destruct part as [t| | |]; try done. by exists (t :: texts).
  - intros [[|t texts] Hl]; [done|]. simplify_eq/=. split; [done|]. by exists texts.
Qed.

Lemma single_text_iff l : single_text l = true <-> text_shape l /\ length l = 1%nat.
Proof.
  unfold single_text, text_shape. destruct l as [|[t| | |] [|? ?]]; split; try done;
    try (intros [[[|? [|? ?]] Hl] Hn]; by simplify_eq/=). intros _. split; [by exists [t]|done].
Qed.

Lemma not_text_iff l : existsb (fun p => negb (is_text p)) l = false <-> text_shape l.
Proof.
  rewrite <- forallb_text_iff. induction l as [|p l IH]; [done|]. simpl.
  rewrite orb_false_iff, negb_false_iff, andb_true_iff. tauto.
Qed.

Lemma text_role_iff role :
  role ∈ ["system"; "developer"; "user"] <-> role = "system" \/ role = "developer" \/ role = "user".
Proof. rewrite !elem_of_cons, elem_of_nil. tauto. Qed.

Lemma messages_role_iff role :
  role ∈ ["system"; "user"; "assistant"; "tool"]
  <-> role = "system" \/ role = "user" \/ role = "assistant" \/ role = "tool".
Proof. rewrite !elem_of_cons, elem_of_nil. tauto. Qed.

Lemma openai_role_iff role :
  role ∈ ["system"; "developer"; "user"; "assistant"; "tool"]
  <-> role = "system" \/ role = "developer" \/ role = "user" \/ role = "assistant" \/ role = "tool".
Proof. rewrite !elem_of_cons, elem_of_nil. tauto. Qed.

Lemma prose_role_iff role : role ∈ ["system"; "user"] <-> role = "system" \/ role = "user".
Proof. rewrite !elem_of_cons, elem_of_nil. tauto. Qed.

Lemma responses_content_iff m i :
  valid_responses_content (msg_role m) (msg_content m) = true <-> role_shape PResponses i m.
Proof.
  unfold valid_responses_content, role_shape.
  case_bool_decide as Hx; rewrite text_role_iff in Hx; rewrite text_role_iff.
  { rewrite forallb_text_iff.
    split; [intros; left; by split_and!|]. intros [(_ & ? & _)|[[? _]|[? _]]]; [done|naive_solver congruence..]. }
  case_bool_decide as Ha; [rewrite valid_assistant_iff; split; [by right; left|]; naive_solver congruence|].
  case_bool_decide as Ht; [rewrite valid_tool_result_iff; split; [by right; right|]; naive_solver congruence|].
  naive_solver.
Qed.

Lemma messages_shape_iff m i :
  target_supports_role PMessages (msg_role m) = true ->
  (bool_decide (msg_role m = "system") && negb (bool_decide (i = 0%nat)) = false
   /\ bool_decide (msg_role m = "tool") && negb (valid_tool_result_message (msg_content m) PMessages) = false
   /\ bool_decide (msg_role m = "assistant") && negb (valid_assistant_tool_history (msg_content m)) = false
   /\ bool_decide (msg_role m ∈ ["system"; "user"]) && existsb (fun p => negb (is_text p)) (msg_content m) = false)
  <-> role_shape PMessages i m.
Proof.
  unfold target_supports_role. rewrite bool_decide_eq_true, messages_role_iff. intros Hrole.
  rewrite !andb_false_iff, !bool_decide_eq_false, !negb_false_iff, bool_decide_eq_true, valid_tool_result_iff,
    valid_assistant_iff, not_text_iff. unfold role_shape. rewrite prose_role_iff, text_role_iff.
  destruct Hrole as [Hr|[Hr|[Hr|Hr]]]; rewrite Hr; split; intros; destruct_and?; destruct_or?; destruct_and?;
    simplify_eq; try tauto; intuition congruence.
Qed.

Lemma role_shape_supported t i m : role_shape t i m -> target_supports_role t (msg_role m) = true.
Proof.
  unfold role_shape, target_supports_role. rewrite text_role_iff. intros Hr.
  destruct t; apply bool_decide_eq_true; rewrite ?openai_role_iff, ?messages_role_iff; intuition congruence.
Qed.

Lemma validate_target_message_decides t i m :
  target_supports_role t (msg_role m) = true ->
  checks (validate_target_message m i t) (msg_content m <> [] /\ role_shape t i m).
Proof.
  intros Hrole. unfold validate_target_message. apply decides_guard; [by rewrite bool_decide_eq_false|]. intros _.
  destruct t.
  - apply checks_if. rewrite !orb_true_iff, !andb_true_iff, !bool_decide_eq_true, single_text_iff,
      valid_assistant_iff, valid_tool_result_iff. unfold role_shape. naive_solver.
  - apply checks_if, responses_content_iff.
  - eapply decides_iff; [|by apply messages_shape_iff].
    repeat (apply decides_guard; [done|intros _]). by apply checks_unless.
Qed.

Lemma check_message_decides t i m : checks (check_message t i m) (message_ok t i m).
Proof.
  unfold check_message, message_ok. apply decides_bind with (Q := fun _ => True);
    [apply check_message_extensions_decides|]. intros _ _ _.
  destruct (target_supports_role t (msg_role m)) eqn:Hs; simpl; [by apply validate_target_message_decides|].
  intros [_ Hr%role_shape_supported]. congruence.
Qed.

Lemma check_messages_decides t k l :
  checks (check_messages t k l) (forall i m, l !! i = Some m -> message_ok t (k + i) m).
Proof.
  revert k. induction l as [|m l IH]; intros k; cbn [check_messages].
  { apply decides_weaken with (P := True) (Q := fun _ => True); [by split| |done]. by split. }
  eapply decides_iff; [apply decides_bind with (Q := fun _ => True); [apply check_message_decides|intros _ _ _; apply IH]|].
  split.
  - intros [Hm Hl] [|i] x Hx; simpl in Hx; [simplify_eq; by rewrite Nat.add_0_r|].
    rewrite Nat.add_succ_r. by apply Hl.
  - intros Hall. split; [rewrite <- (Nat.add_0_r k); by apply (Hall 0%nat)|].
    intros i x Hx. specialize (Hall (S i) x Hx). by rewrite Nat.add_succ_r in Hall.
Qed.

Lemma check_tool_decides tool : checks (check_tool tool) (tool_ok tool).
Proof.
  unfold check_tool, tool_ok. apply decides_guard; [by rewrite negb_false_iff, no_ext_iff|]. intros _.
  apply checks_unless. rewrite orb_false_iff, bool_decide_eq_false, negb_false_iff. apply and_iff_compat_l.
  unfold json_is_object. destruct (value_from_str (tool_input_schema tool)) as [[]|]; split; try done;
    try (by intros []); by eexists.
Qed.

Lemma effort_no_panic label : effort_try_new label <> Panic.
Proof. unfold effort_try_new. by case_match. Qed.

Lemma thinking_of_no_panic label ext : thinking_of label ext <> Panic.
Proof. unfold thinking_of. by destruct (effort_try_new label). Qed.

Lemma scan_budget_no_panic l b : scan_budget l b <> Panic.
Proof. revert b. induction l as [|[name raw] l IH]; intros b; simpl; [done|]. repeat case_match; try done; apply IH. Qed.

Lemma messages_thinking_no_panic th : messages_thinking_to_responses th <> Panic.
Proof.
  unfold messages_thinking_to_responses. apply bind_no_panic; [apply scan_budget_no_panic|]. intros b _.
  apply bind_no_panic; [apply ok_or_no_panic|]. intros. apply thinking_of_no_panic.
Qed.

Lemma ext_iter_map e : list_to_map (ext_iter e) = e.
Proof.
  apply map_eq. intros name. apply option_eq. intros raw.
  by rewrite <- elem_of_list_to_map, ext_iter_elem by apply ext_iter_nodup.
Qed.

Lemma insert_ext_empty e name raw : insert_ext e name raw ∅ = Ok {[ name := raw ]}.
Proof. reflexivity. Qed.

Lemma ext_iter_singleton name raw : ext_iter {[ name := raw ]} = [(name, raw)].
Proof. unfold ext_iter. by rewrite map_to_list_singleton. Qed.

Lemma scan_budget_iff ext b :
  scan_budget (ext_iter ext) None = Ok b
  <-> (ext = ∅ /\ b = None) \/ exists raw n, ext = {[ ANTHROPIC_THINKING_BUDGET := raw ]} /\ positive raw n /\ b = Some n.
Proof.
  split.
  - intros Hs. rewrite <- (ext_iter_map ext). destruct (ext_iter ext) as [|[name raw] l]; simpl in *; [left; by simplify_eq|].
    case_bool_decide; simpl in Hs; [|done]. destruct (positive_u64 raw) as [n|] eqn:Hn; [|done].
    destruct l as [|[name2 raw2] l]; simpl in Hs; [|by rewrite orb_true_r in Hs].
    right. exists raw, n. simplify_eq. split; [done|]. split; [by apply positive_iff|done].
  - intros [[-> ->]|(raw & n & -> & Hn%positive_iff & ->)]; [done|]. rewrite ext_iter_singleton. cbn [scan_budget].
    rewrite bool_decide_true by done. simpl. by rewrite Hn.
Qed.

Lemma budget_level_iff n label : (0 < n)%Z -> budget_to_responses_effort n = label <-> budget_level n label.
Proof.
  intros Hn. unfold budget_to_responses_effort, budget_level. split.
  - intros <-. repeat case_match; bool_simp; try lia; naive_solver lia.
  - intros Hl. repeat case_match; bool_simp; naive_solver lia.
Qed.

Lemma thinking_of_ok label ext : label <> "" -> thinking_of label ext = Ok (mkThinking (mkEffort label) ext).
Proof. intros Hl. unfold thinking_of, effort_try_new. by rewrite bool_decide_false. Qed.

Lemma read_label_nonempty th label : reads_in_messages th label -> label <> "".
Proof. destruct 1 as [| | |raw n label _ Hl]; [done..|]. unfold budget_level in Hl. naive_solver. Qed.

Lemma messages_thinking_iff th th' :
  messages_thinking_to_responses th = Ok th' <-> exists label, reads_in_messages th label /\ th' = mkThinking (mkEffort label) ∅.
Proof.
  destruct th as [[w] ext]. unfold messages_thinking_to_responses. cbn [th_extensions effort effort_as_str]. split.
  - destruct (scan_budget (ext_iter ext) None) as [b| |] eqn:Hb; cbn [result_bind]; [|done..]. apply scan_budget_iff in Hb.
    destruct (messages_effort w b) as [label|] eqn:Hm; cbn [ok_or result_bind]; [|done]. intros Ht. exists label.
    assert (reads_in_messages (mkThinking (mkEffort w) ext) label) as Hr.
    { unfold messages_effort in Hm. destruct Hb as [[-> ->]|(raw & n & -> & Hn & ->)].
      - rewrite (bool_decide_true (@None Z = None)), !andb_true_r in Hm by done. repeat case_bool_decide; simplify_eq/=; constructor.
      - rewrite (bool_decide_false (Some n = None)), !andb_false_r in Hm by done. case_bool_decide; simplify_eq/=.
        econstructor; [done|]. apply budget_level_iff; [by destruct Hn as (? & _ & _ & ?)|done]. }
    split; [done|]. rewrite thinking_of_ok in Ht by (by eapply read_label_nonempty). by injection Ht as <-.
  - intros (label & Hr & ->). pose proof (read_label_nonempty _ _ Hr) as Hne.
    assert (exists b, scan_budget (ext_iter ext) None = Ok b /\ messages_effort w b = Some label) as (b & -> & Hm).
    { inversion Hr as [| | |raw n l Hn Hl]; subst; [by exists None..|]. exists (Some n). split.
      - apply scan_budget_iff. right. by exists raw, n.
      - unfold messages_effort. simpl. f_equal. apply budget_level_iff; [by destruct Hn as (? & _ & _ & ?)|done]. }
    cbn [result_bind]. rewrite Hm. cbn [ok_or result_bind]. by apply thinking_of_ok.
Qed.

Lemma level_of_iff label level :
  level_of label responses_levels = Some level
  <-> (label = "none" /\ level = ("disabled", None)) \/ (label = "auto" /\ level = ("adaptive", None))
      \/ exists n, (label, n) ∈ budgets /\ level = ("enabled", Some n).
Proof.
  split.
  - unfold responses_levels. cbn [level_of]. intros Hl.
    repeat (case_bool_decide; [simplify_eq; first [by left|by right; left|right; right; eexists; split; [|done]; unfold budgets; set_solver]|]). done.
  - intros [[-> ->]|[[-> ->]|(n & Hin & ->)]]; [done..|]. unfold budgets in Hin.
    repeat (apply elem_of_cons in Hin as [[= -> ->]|Hin]; [reflexivity|]). by apply elem_of_nil in Hin.
Qed.

Lemma responses_thinking_iff th th' :
  responses_thinking_to_messages th = Ok th' <-> says_in_messages (effort_as_str (effort th)) th'.
Proof.
  unfold responses_thinking_to_messages. set (label := effort_as_str (effort th)). split.
  - destruct (level_of label responses_levels) as [level|] eqn:Hl; cbn [ok_or result_bind]; [|done].
    apply level_of_iff in Hl as [[-> ->]|[[-> ->]|(n & Hin & ->)]]; cbn [fst snd result_bind];
      [intros [= <-]; constructor..|].
    unfold from_json_string. destruct (raw_accepts (pretty n)) eqn:Ha; cbn [ok_or result_bind]; [|done].
    rewrite insert_ext_empty. cbn [result_bind]. rewrite thinking_of_ok by done. intros [= <-]. by constructor.
  - intros Hs. assert (exists level, level_of label responses_levels = Some level /\ says_in_messages label th'
      /\ ((level.2 = None /\ th' = mkThinking (mkEffort level.1) ∅) \/ exists n, level = ("enabled", Some n)
          /\ raw_accepts (pretty n) = true /\ th' = mkThinking (mkEffort "enabled") {[ ANTHROPIC_THINKING_BUDGET := pretty n ]}))
      as (level & -> & _ & Hc).
    { clearbody label. destruct Hs as [| |l n Hin Ha].
      - exists ("disabled", None). split; [done|]. split; [constructor|by left].
      - exists ("adaptive", None). split; [done|]. split; [constructor|by left].
      - exists ("enabled", Some n). split; [apply level_of_iff; eauto|]. split; [by constructor|]. right. by exists n. }
    cbn [ok_or result_bind]. destruct Hc as [[-> ->]|(n & -> & Ha & ->)]; cbn [snd result_bind].
    + apply thinking_of_ok. inversion Hs; done.
    + unfold from_json_string. rewrite Ha. cbn [ok_or result_bind]. rewrite insert_ext_empty. cbn [result_bind fst].
      by apply thinking_of_ok.
Qed.

Lemma project_thinking_iff a b s t : project_thinking a s t = Ok b <-> thinking_bridges s t a b.
Proof.
  unfold project_thinking, thinking_bridges. destruct a as [th|]; [|split; congruence].
  destruct s, t; simpl; try (split; [done|]; intros (? & _ & [(? & ? & _)|(? & ? & _)]); done).
  - destruct (no_ext (th_extensions th)) eqn:Hx; simpl.
    + apply no_ext_iff in Hx. split.
      * intros (th' & Hr%responses_thinking_iff & [= <-])%result_bind_ok. exists th'. split; [done|]. by left.
      * intros (th' & -> & [(_ & _ & _ & Hr%responses_thinking_iff)|(? & _)]); [by rewrite Hr|done].
    + split; [done|]. intros (th' & _ & [(_ & _ & He & _)|(? & _)]); [|done]. apply no_ext_iff in He. congruence.
  - split.
    + intros (th' & Hr%messages_thinking_iff & [= <-])%result_bind_ok. exists th'. split; [done|]. by right.
    + intros (th' & -> & [(? & _)|(_ & _ & Hr%messages_thinking_iff)]); [done|by rewrite Hr].
Qed.

Lemma responses_efforts_iff label :
  label ∈ responses_efforts <-> label = "none" \/ label = "auto" \/ label ∈ budgets.*1.
Proof. unfold responses_efforts, budgets. simpl. rewrite !elem_of_cons. tauto. Qed.

Lemma validate_target_thinking_decides o t :
  checks (validate_target_thinking o t) (forall th, o = Some th -> thinking_ok t th).
Proof.
  unfold validate_target_thinking. destruct o as [th|]; [|by split].
  assert (forall P : Thinking -> Prop, (forall x, Some th = Some x -> P x) <-> P th) as Hth by naive_solver.
  rewrite Hth || (eapply decides_iff; [|symmetry; apply Hth]). destruct t; unfold thinking_ok.
  - by intros [].
  - destruct (no_ext (th_extensions th)) eqn:He; simpl.
    + apply no_ext_iff in He. apply checks_if. rewrite bool_decide_eq_true, responses_efforts_iff. tauto.
    + intros [Hx _]. apply no_ext_iff in Hx. congruence.
  - pose proof (messages_thinking_no_panic th).
    pose proof (messages_thinking_iff th) as Hiff.
    destruct (messages_thinking_to_responses th) as [th'| |]; simpl; [| |done].
    + split; [|done]. destruct (proj1 (Hiff th') eq_refl) as (label & Hl & _). by exists label.
    + intros (label & Hl). by assert (Err _ = Ok (mkThinking (mkEffort label) ∅)) by (apply Hiff; eauto).
Qed.

Lemma canonical_rejection_decides r t : checks (canonical_rejection r t) (native_to t r).
Proof.
  unfold canonical_rejection. eapply decides_iff.
  - apply decides_bind with (Q := fun _ => True); [apply validate_target_root_decides|]. intros _ _ _.
    apply decides_guard; [apply caches_iff|]. intros _.
    apply decides_guard; [by rewrite bool_decide_eq_false|]. intros _.
    apply decides_bind with (Q := fun _ => True); [apply check_messages_decides|]. intros _ _ _.
    apply decides_bind with (Q := fun _ => True); [apply check_all_decides; intros; apply check_tool_decides|].
    intros _ _ _. apply validate_target_thinking_decides.
  - split; [intros ((? & ?) & ? & ? & ? & ? & ?); by split|]. intros []. done.
Qed.

Lemma supports_iff c caps : negb (supports caps c) = false <-> c ∈ caps.
Proof. unfold supports. by rewrite negb_false_iff, bool_decide_eq_true. Qed.

Lemma uses_tools_iff r : uses_tools r = true <-> needs_tools r.
Proof.
  unfold uses_tools, needs_tools. rewrite orb_true_iff, has_tools_iff, existsb_exists. apply or_iff_compat_l. split.
  - intros (m & Hm%list_elem_of_In & (part & Hp%list_elem_of_In & Ht)%existsb_exists). exists m, part. split_and!; [done..|].
    destruct part; try done; eauto.
  - intros (m & part & Hm & Hp & Ht). exists m. split; [by apply list_elem_of_In|]. apply existsb_exists. exists part.
    split; [by apply list_elem_of_In|]. by destruct Ht as [[c ->]|[x ->]].
Qed.

Lemma capability_rejection_decides input r : checks (capability_rejection input r) (capable input r).
Proof.
  unfold capability_rejection. eapply decides_iff.
  - repeat (apply decides_guard; [apply andb_false_iff|intros _]). by apply decides_ok.
  - unfold capable. rewrite <- uses_tools_iff, !supports_iff, !orb_false_iff, bool_decide_eq_false.
    destruct (streaming input), (uses_tools r), (requires_json_schema input), (requires_parallel_tools input);
      destruct (thinking r); split; intros; destruct_and?; split_and?; naive_solver eauto using is_Some_None.
Qed.

(** ** Lemmas: the bridge *)

Lemma scan_root_decides s l limit choice :
  NoDup l.*1 -> (is_Some limit -> output_limit_name s ∉ l.*1) -> (is_Some choice -> tool_choice_name s ∉ l.*1) ->
  decides (scan_root s l limit choice)
    (Forall (fun e => e.1 = output_limit_name s \/ e.1 = tool_choice_name s) l)
    (fun found => found = (match limit with Some x => Some x | None => (list_to_map l : RawExtensions) !! output_limit_name s end,
                           match choice with Some x => Some x | None => (list_to_map l : RawExtensions) !! tool_choice_name s end)).
Proof.
  revert limit choice. induction l as [|[name raw] l IH]; intros limit choice Hnd Hl Hc; cbn [scan_root].
  { split; [constructor|]. by destruct limit, choice. }
  rewrite fmap_cons in Hnd, Hl, Hc. apply NoDup_cons in Hnd as [Hn Hnd]. cbn [fst] in *.
  case_bool_decide as H1.
  { subst name. destruct limit; [destruct (Hl ltac:(by eexists)); left|].
    eapply decides_weaken; [apply (IH (Some raw) choice Hnd)| |].
    - done.
    - intros Hx. specialize (Hc Hx). by apply not_elem_of_cons in Hc as [_ ?].
    - rewrite Forall_cons. naive_solver.
    - intros found _ ->. simpl. rewrite lookup_insert_eq, lookup_insert_ne by (apply limit_not_choice). done. }
  case_bool_decide as H2.
  { subst name. destruct choice; [destruct (Hc ltac:(by eexists)); left|].
    eapply decides_weaken; [apply (IH limit (Some raw) Hnd)| |].
    - intros Hx. specialize (Hl Hx). by apply not_elem_of_cons in Hl as [_ ?].
    - done.
    - rewrite Forall_cons. naive_solver.
    - intros found _ ->. simpl. rewrite lookup_insert_eq, lookup_insert_ne by done. done. }
  destruct (is_output_limit_name name); simpl; rewrite Forall_cons; naive_solver.
Qed.

Lemma scan_root_ext s ext :
  decides (scan_root s (ext_iter ext) None None)
    (forall name, is_Some (ext !! name) -> name = output_limit_name s \/ name = tool_choice_name s)
    (fun found => found = (ext !! output_limit_name s, ext !! tool_choice_name s)).
Proof.
  eapply decides_weaken; [apply scan_root_decides; [apply ext_iter_nodup|by intros []..]| |].
  - rewrite Forall_forall. split.
    + intros Hall name [raw Hraw]. apply (Hall (name, raw)). by apply ext_iter_elem.
    + intros Hall [name raw] Hin%ext_iter_elem. apply Hall. by eexists.
  - intros found _ ->. by rewrite ext_iter_map.
Qed.

Lemma project_forced_decides raw s t b :
  decides (project_forced_tool_choice raw s t b)
    (b = true /\ forces_tool s raw /\ raw_accepts (forced_text t) = true) (fun m => m = forced_text t).
Proof.
  unfold project_forced_tool_choice, forces_tool. apply decides_guard; [by rewrite negb_false_iff|]. intros _.
  destruct (value_from_str raw) as [v|]; cbn [ok_or result_bind]; [|by intros [? _]].
  pose proof (is_forced_iff s v) as Hf. destruct (is_forced s v); cbn [negb]; [|intros [Hv _]; injection Hv as Hv; by apply Hf in Hv].
  unfold from_json_string. destruct (raw_accepts (forced_text t)); cbn [ok_or]; [|by intros [_ Hx]].
  split; [|done]. split; [|done]. f_equal. by apply Hf.
Qed.

Definition limit_part (s t : ProtocolFormat) (ext : RawExtensions) : RawExtensions :=
  match ext !! output_limit_name s with Some raw => {[ output_limit_name t := raw ]} | None => ∅ end.

Lemma project_root_decides ext s t b :
  decides (project_root_extensions ext s t b)
    ((forall name, is_Some (ext !! name) -> name = output_limit_name s \/ name = tool_choice_name s)
     /\ ((forall raw, ext !! output_limit_name s = Some raw -> (exists n, positive raw n))
         /\ (t = PMessages -> is_Some (ext !! output_limit_name s)))
     /\ (forall raw, ext !! tool_choice_name s = Some raw ->
           b = true /\ forces_tool s raw /\ raw_accepts (forced_text t) = true))
    (fun ext' => ext' = bridged_extensions s t ext).
Proof.
  unfold project_root_extensions. apply decides_bind with (1 := scan_root_ext s ext). intros found _ ->. cbn [fst snd].
  apply decides_bind with (Q := fun e => e = limit_part s t ext); unfold limit_part.
  { destruct (ext !! output_limit_name s) as [raw|].
    - eapply decides_weaken with (P := (exists n, positive raw n) /\ True) (Q := fun e => e = {[output_limit_name t := raw]}).
      + apply decides_bind with (1 := validate_output_limit_decides raw). intros _ _ _. by split.
      + naive_solver.
      + done.
    - case_bool_decide; simpl; [|naive_solver]. intros [_ Hn]. by destruct (Hn H1). }
  intros e _ ->. unfold bridged_extensions. field_names. destruct (ext !! tool_choice_name s) as [raw|].
  - eapply decides_weaken with (P := (b = true /\ forces_tool s raw /\ raw_accepts (forced_text t) = true) /\ True).
    + apply decides_bind with (1 := project_forced_decides raw s t b). intros m _ ->.
      unfold insert_ext, extensions_try_insert. unfold_m.
      assert (limit_part s t ext !! tool_choice_name t = None) as Hn.
      { unfold limit_part. destruct (ext !! output_limit_name s); [|apply lookup_empty].
        apply lookup_singleton_ne, limit_not_choice. }
      unfold limit_part in Hn. rewrite Hn. simpl. split; [done|]. exact (eq_refl _).
    + naive_solver.
    + intros e _ <-. by rewrite insert_union_singleton_l.
  - split; [done|]. by rewrite (left_id ∅ (∪)).
Qed.

Lemma roles_later k l :
  decides (project_messages_roles (S k) l) (Forall (fun m => msg_role m <> "developer") l) (fun l' => l' = l).
Proof.
  revert k. induction l as [|m l IH]; intros k; cbn [project_messages_roles]; [by split|].
  case_bool_decide as Hd; cbn [result_bind]; [intros Hall; by apply Forall_cons in Hall as [Hm _]|].
  eapply decides_weaken with (P := Forall (fun m => msg_role m <> "developer") l /\ True);
    [apply decides_bind with (1 := IH (S k)); intros l' _ ->; apply decides_ok; exact (eq_refl (m :: l))| |].
  - rewrite Forall_cons. tauto.
  - by intros l' _ <-.
Qed.

Lemma project_roles_decides l :
  decides (project_messages_roles 0 l) (forall i m, l !! S i = Some m -> msg_role m <> "developer")
    (fun l' => l' = system_first l).
Proof.
  destruct l as [|m l]; cbn [project_messages_roles]; [by split|].
  assert ((if bool_decide (msg_role m = "developer") then Ok (mkMessage "system" (msg_content m) (msg_extensions m))
           else Ok m) = Ok (E := ProtocolTransformRejection) (as_system m)) as -> by (unfold as_system; by case_bool_decide).
  cbn [result_bind]. eapply decides_weaken with (P := Forall (fun m => msg_role m <> "developer") l /\ True);
    [apply decides_bind with (1 := roles_later 0 l); intros l' _ ->; apply decides_ok; exact (eq_refl (as_system m :: l))| |].
  - rewrite Forall_lookup. tauto.
  - by intros l' _ <-.
Qed.

Lemma responses_thinking_no_panic th : responses_thinking_to_messages th <> Panic.
Proof.
  unfold responses_thinking_to_messages. apply bind_no_panic; [apply ok_or_no_panic|]. intros [label [budget|]] _; simpl.
  - apply bind_no_panic; [|intros; apply thinking_of_no_panic]. apply bind_no_panic; [apply ok_or_no_panic|].
    intros raw _. by rewrite insert_ext_empty.
  - apply thinking_of_no_panic.
Qed.

Lemma project_thinking_no_panic o s t : project_thinking o s t <> Panic.
Proof.
  unfold project_thinking. destruct o as [th|]; [|done]. case_match; [done|]. apply bind_no_panic; [|done].
  destruct s, t; try done; [case_match; [done|]; apply responses_thinking_no_panic|apply messages_thinking_no_panic].
Qed.

Lemma cross_iff r s t p : project_cross_protocol r s t = Ok p <-> bridges s t r p.
Proof.
  unfold project_cross_protocol.
  pose proof (reject_nested_decides r) as H1. pose proof (caches_iff r) as H2.
  pose proof (project_root_decides (extensions r) s t (has_tools r)) as H3.
  pose proof (project_roles_decides (messages r)) as H4. pose proof (has_tools_iff r) as H5.
  split.
  - destruct (reject_nested_extensions_and_opaque r) as [[]| |]; cbn [result_bind]; [|done..].
    destruct (caches r) eqn:Hc; [done|].
    destruct (project_root_extensions _ _ _ _) as [ext| |]; cbn [result_bind]; [|done..].
    destruct (project_thinking (thinking r) s t) as [th| |] eqn:Hth; cbn [result_bind]; [|done..].
    destruct H1 as [H1 _], H3 as [(? & [? ?] & Hch) ->].
    assert (forall raw, extensions r !! tool_choice_name s = Some raw ->
      tools r <> [] /\ forces_tool s raw /\ raw_accepts (forced_text t) = true) by (intros raw Hraw; rewrite <- H5; auto).
    case_bool_decide as Ht.
    + destruct (project_messages_roles 0 (messages r)) as [msgs| |]; cbn [result_bind]; [|done..].
      intros [= <-]. destruct H4 as [? ->]. split; simpl; try done; try (by apply H2); [by rewrite decide_True|].
      by apply project_thinking_iff.
    + cbn [result_bind]. intros [= <-]. split; simpl; try done; try (by apply H2); [by rewrite decide_False|].
      by apply project_thinking_iff.
  - intros [Hpl Hca Hna Hli Hne Hch Hro Hmo Hme Hto [Hk Hre] Hex Hth].
    destruct (reject_nested_extensions_and_opaque r) as [[]| |]; cbn [result_bind]; [|done..].
    apply H2 in Hca as Hc. rewrite Hc.
    assert (forall raw, extensions r !! tool_choice_name s = Some raw ->
      has_tools r = true /\ forces_tool s raw /\ raw_accepts (forced_text t) = true) by (intros raw Hraw; rewrite H5; auto).
    destruct (project_root_extensions _ _ _ _) as [ext| |]; cbn [result_bind]; [|by destruct H3|done].
    destruct H3 as [_ ->]. apply project_thinking_iff in Hth. rewrite Hth. cbn [result_bind]. destruct Hca as [Hk' Hre'].
    destruct p as [mo me to th ke re ex]. simpl in *. subst. case_bool_decide as Ht.
    + destruct (project_messages_roles 0 (messages r)) as [msgs| |]; cbn [result_bind]; [|destruct H4; by apply Hro|done].
      destruct H4 as [_ ->]. rewrite decide_True by done. by rewrite Hk', Hre'.
    + rewrite decide_False by done. cbn [result_bind]. by rewrite Hk', Hre'.
Qed.
Lemma decides_no_panic {A} (r : Rej A) P Q : decides r P Q -> r <> Panic.
Proof. by destruct r. Qed.

Lemma cross_no_panic r s t : project_cross_protocol r s t <> Panic.
Proof.
  unfold project_cross_protocol. apply bind_no_panic; [apply (decides_no_panic _ _ _ (reject_nested_decides r))|].
  intros _ _. destruct (caches r); [done|].
  apply bind_no_panic; [apply (decides_no_panic _ _ _ (project_root_decides _ s t _))|]. intros ext _.
  apply bind_no_panic; [apply project_thinking_no_panic|]. intros th _.
  apply bind_no_panic; [|done]. case_bool_decide; [|done].
  apply (decides_no_panic _ _ _ (project_roles_decides _)).
Qed.

Lemma registered s t : protocol_pair_is_registered s t = true.
Proof. by destruct s, t. Qed.

Lemma mode_rejection_iff input :
  mode_rejection input = None
  <-> (mode input = Passthrough -> source input = target input /\ native_payload input = Exact)
      /\ (mode input = Canonical -> source input = target input)
      /\ (mode input = LosslessBridge -> source input <> target input).
Proof.
  unfold mode_rejection. destruct (mode input); repeat case_bool_decide; simpl; split; try done; try tauto;
    intros (? & ? & ?); exfalso; intuition.
Qed.

(** The request that is sent, before its checks. *)
Definition translated (input : ProtocolTransformInput) : Rej CanonicalRequest :=
  if bool_decide (source input = target input) then Ok (request input)
  else project_cross_protocol (request input) (source input) (target input).

Lemma translated_iff input p :
  translated input = Ok p
  <-> if decide (source input = target input) then p = request input
      else bridges (source input) (target input) (request input) p.
Proof.
  unfold translated. case_bool_decide; [rewrite decide_True by done|rewrite decide_False by done; apply cross_iff].
  split; [by intros [= <-]|by intros ->].
Qed.

Lemma checked_iff input p out :
  (let? _ := canonical_rejection p (target input) in
   let? _ := capability_rejection input p in Ok (ProjectedCanonical p)) = Ok (E := ProtocolTransformRejection) out
  <-> native_to (target input) p /\ capable input p /\ out = ProjectedCanonical p.
Proof.
  pose proof (canonical_rejection_decides p (target input)) as Hn.
  pose proof (capability_rejection_decides input p) as Hc.
  destruct (canonical_rejection p (target input)); cbn [result_bind]; [|by split; [|intros []]|done].
  destruct (capability_rejection input p); cbn [result_bind]; [|split; [done|]; by intros (_ & ? & _)|done].
  destruct Hn, Hc. split; [by intros [= <-]|by intros (_ & _ & ->)].
Qed.

Lemma canonical_mode_iff input out :
  (let? p := translated input in
   let? _ := canonical_rejection p (target input) in
   let? _ := capability_rejection input p in Ok (ProjectedCanonical p)) = Ok (E := ProtocolTransformRejection) out
  <-> exists p, out = ProjectedCanonical p /\ translated input = Ok p /\ native_to (target input) p /\ capable input p.
Proof.
  destruct (translated input) as [p| |]; cbn [result_bind]; [|split; [done|]; by intros (? & _ & ? & _)..].
  rewrite checked_iff. split; [intros (? & ? & ->); by exists p|]. by intros (q & -> & [= <-] & ? & ?).
Qed.

Lemma passthrough_iff input out :
  (let? _ := capability_rejection input (request input) in Ok NativeExact) = Ok (E := ProtocolTransformRejection) out
  <-> out = NativeExact /\ capable input (request input).
Proof.
  pose proof (capability_rejection_decides input (request input)) as Hc.
  destruct (capability_rejection input (request input)); cbn [result_bind]; [|split; [done|by intros []]|done].
  destruct Hc. split; [by intros [= <-]|by intros [-> _]].
Qed.

Lemma project_iff input out :
  project_protocol_request input = Ok out
  <-> mode_rejection input = None
      /\ match out with
         | NativeExact => mode input = Passthrough /\ capable input (request input)
         | ProjectedCanonical p => mode input <> Passthrough /\ translated input = Ok p
             /\ native_to (target input) p /\ capable input p
         end.
Proof.
  unfold project_protocol_request. fold (translated input).
  destruct (mode_rejection input); [split; [done|by intros []]|].
  assert (forall P : CanonicalRequest -> Prop,
    (exists p, out = ProjectedCanonical p /\ P p)
    <-> match out with NativeExact => False | ProjectedCanonical p => P p end) as Hout.
  { intros P. destruct out as [|p]; [split; [by intros (? & ? & _)|done]|].
    split; [by intros (? & [= <-] & ?)|by exists p]. }
  destruct (mode input); rewrite ?passthrough_iff, ?canonical_mode_iff, ?Hout; destruct out; intuition congruence.
Qed.

Lemma project_registered_iff input out : project_registered_protocol_request input = Ok out <-> sends input out.
Proof.
  unfold project_registered_protocol_request. rewrite registered. cbn [negb].
  destruct (bool_decide (source input = PChatCompletions) && supports (target_capabilities input) Reasoning) eqn:Hr.
  - apply andb_true_iff in Hr as [H1 H2]. unfold supports in H2. apply bool_decide_eq_true in H1, H2.
    split; [done|]. by intros [[] _].
  - assert (~ (source input = PChatCompletions /\ Reasoning ∈ target_capabilities input)) as Hn.
    { intros [H1 H2]. apply not_true_iff_false in Hr. apply Hr. unfold supports.
      apply andb_true_iff. by rewrite !bool_decide_eq_true. }
    rewrite project_iff, mode_rejection_iff. unfold sends. destruct out as [|p].
    + intuition congruence.
    + rewrite translated_iff. split; [intros ((_ & ? & ?) & ? & ? & ? & ?)|intros (_ & ? & ? & ? & ? & ? & ?)];
        split_and!; done.
Qed.

Lemma project_no_panic input : project_protocol_request input <> Panic.
Proof.
  unfold project_protocol_request. fold (translated input).
  destruct (mode_rejection input); [done|].
  assert (translated input <> Panic) as Ht by (unfold translated; case_bool_decide; [done|apply cross_no_panic]).
  assert (forall p, capability_rejection input p <> Panic) as Hc
    by (intros p; apply (decides_no_panic _ _ _ (capability_rejection_decides input p))).
  destruct (mode input); apply bind_no_panic; try apply Hc; try done; intros p _;
    (apply bind_no_panic; [apply (decides_no_panic _ _ _ (canonical_rejection_decides p _))|]; intros _ _;
     by apply bind_no_panic).
Qed.
End Checks.

(** ** Lemmas: there and back *)

(** The thinking budgets the code writes. *)
Definition written_budgets : list Z := [512%Z; 1024%Z; 8192%Z; 24576%Z; 32768%Z; 128000%Z].

(** What the code relies on of [serde_json] for the texts it writes itself: each
    is JSON, and reads as the value it denotes. *)
Class JsonRawLaws `{!JsonText} `{!JsonRaw} : Prop := {
  required_reads : value_from_str REQUIRED_TEXT = Some (JString "required");
  any_reads : value_from_str ANY_TEXT = Some (JObject [("type", JString "any")]);
  required_accepted : raw_accepts REQUIRED_TEXT = true;
  any_accepted : raw_accepts ANY_TEXT = true;
  number_reads n : n ∈ written_budgets -> value_from_str (pretty n) = Some (JNumber (pretty n));
  number_value n : n ∈ written_budgets -> as_u64 (pretty n) = Some n;
  number_accepted n : n ∈ written_budgets -> raw_accepts (pretty n) = true;
}.

Section RoundTrip.
Context `{!JsonText} `{!JsonRaw} `{!JsonRawLaws}.

(** Messages has no level above ["xhigh"]. *)
Definition capped (label : string) : string := if bool_decide (label = "max") then "xhigh" else label.

(** How much a request thinks, whatever the words of its protocol. *)
Definition thinking_level (s : ProtocolFormat) (th : Thinking) : option string :=
  match s with
  | PChatCompletions => None
  | PResponses => Some (capped (effort_as_str (effort th)))
  | PMessages => match messages_thinking_to_responses th with Ok th' => Some (effort_as_str (effort th')) | _ => None end
  end.

Lemma forced_reads s : forces_tool s (forced_text s).
Proof.
  destruct s; unfold forces_tool; simpl; apply required_reads || apply any_reads.
Qed.

Lemma forced_accepted s : raw_accepts (forced_text s) = true.
Proof. destruct s; simpl; [apply required_accepted..|apply any_accepted]. Qed.

Lemma written_positive n : n ∈ written_budgets -> (0 < n)%Z.
Proof. unfold written_budgets. rewrite !elem_of_cons, elem_of_nil. lia. Qed.

Lemma positive_number n : n ∈ written_budgets -> positive_u64 (pretty n) = Some n.
Proof.
  intros Hn. unfold positive_u64. rewrite number_reads, number_value by done.
  by rewrite (proj2 (Z.ltb_lt 0 n)) by (by apply written_positive).
Qed.

Lemma budget_returns label n :
  n ∈ written_budgets -> messages_effort "enabled" (Some n) = Some label -> label <> "" ->
  messages_thinking_to_responses (mkThinking (mkEffort "enabled") {[ ANTHROPIC_THINKING_BUDGET := pretty n ]})
  = Ok (mkThinking (mkEffort label) ∅).
Proof.
  intros Hn Hl Hne. unfold messages_thinking_to_responses. cbn [th_extensions effort effort_as_str].
  rewrite ext_iter_singleton. cbn [scan_budget]. rewrite bool_decide_true, positive_number by done.
  cbn [negb orb]. rewrite bool_decide_false by apply is_Some_None. cbn [result_bind]. rewrite Hl. cbn [ok_or result_bind].
  unfold thinking_of, effort_try_new. by rewrite bool_decide_false.
Qed.

Lemma level_roundtrip label :
  label ∈ responses_efforts ->
  exists th, responses_thinking_to_messages (mkThinking (mkEffort label) ∅) = Ok th
    /\ messages_thinking_to_responses th = Ok (mkThinking (mkEffort (capped label)) ∅).
Proof.
  assert (forall n label', n ∈ written_budgets -> level_of label' responses_levels = Some ("enabled", Some n) ->
    messages_effort "enabled" (Some n) = Some (capped label') -> capped label' <> "" ->
    exists th, responses_thinking_to_messages (mkThinking (mkEffort label') ∅) = Ok th
    /\ messages_thinking_to_responses th = Ok (mkThinking (mkEffort (capped label')) ∅)) as Hb.
  { intros n label' Hn Hl He Hne. eexists. split; [|by apply (budget_returns _ n)].
    unfold responses_thinking_to_messages. cbn [effort effort_as_str]. rewrite Hl. cbn [ok_or result_bind fst snd].
    unfold from_json_string. rewrite number_accepted by done. cbn [ok_or result_bind].
    by rewrite insert_ext_empty. }
  unfold responses_efforts. rewrite !elem_of_cons, elem_of_nil.
  intros [->|[->|[->|[->|[->|[->|[->|[->|[]]]]]]]]].
  - eexists. split; vm_compute; reflexivity.
  - eexists. split; vm_compute; reflexivity.
  - apply (Hb 512%Z); [set_solver|done..].
  - apply (Hb 1024%Z); [set_solver|done..].
  - apply (Hb 8192%Z); [set_solver|done..].
  - apply (Hb 24576%Z); [set_solver|done..].
  - apply (Hb 32768%Z); [set_solver|done..].
  - apply (Hb 128000%Z); [set_solver|done..].
Qed.

Lemma budget_label b : budget_to_responses_effort b ∈ responses_efforts /\ budget_to_responses_effort b <> "max".
Proof. unfold budget_to_responses_effort. repeat case_match; (split; [set_solver|done]). Qed.

Lemma messages_label th th' :
  messages_thinking_to_responses th = Ok th' ->
  th_extensions th' = ∅ /\ effort_as_str (effort th') ∈ responses_efforts /\ effort_as_str (effort th') <> "max".
Proof.
  unfold messages_thinking_to_responses. destruct (scan_budget _ _) as [b| |]; cbn [result_bind]; [|done..].
  destruct (messages_effort (effort_as_str (effort th)) b) as [label|] eqn:Hm; cbn [ok_or result_bind]; [|done].
  unfold thinking_of, effort_try_new. case_bool_decide; [done|]. intros [= <-]. cbn [th_extensions effort effort_as_str].
  split; [done|]. revert Hm. unfold messages_effort.
  repeat case_match; intros [= <-]; try (apply budget_label); (split; [set_solver|done]).
Qed.

Lemma thinking_to_messages label :
  project_thinking (Some (mkThinking (mkEffort label) ∅)) PResponses PMessages
  = let? out := responses_thinking_to_messages (mkThinking (mkEffort label) ∅) in Ok (Some out).
Proof. reflexivity. Qed.

Lemma thinking_to_responses th :
  project_thinking (Some th) PMessages PResponses
  = let? out := messages_thinking_to_responses th in Ok (Some out).
Proof. reflexivity. Qed.

(** Thinking that crosses to another protocol comes back at its level. *)
Lemma thinking_roundtrip s t th out :
  s <> t -> thinking_ok s th -> project_thinking (Some th) s t = Ok out ->
  exists th', project_thinking out t s = Ok (Some th') /\ thinking_ok s th'
    /\ thinking_level s th' = thinking_level s th.
Proof.
  intros Hst Hok Hp. destruct s, t; try done.
  - destruct th as [[label] ext]. destruct Hok as [Hext Hin%responses_efforts_iff]. simpl in Hext, Hin. subst ext.
    destruct (level_roundtrip label Hin) as (th1 & Hgo & Hback).
    rewrite thinking_to_messages, Hgo in Hp. injection Hp as <-.
    exists (mkThinking (mkEffort (capped label)) ∅). rewrite thinking_to_responses, Hback.
    split_and!; [done|..]; unfold thinking_ok, thinking_level; cbn [effort effort_as_str th_extensions].
    + split; [done|]. apply responses_efforts_iff. unfold capped. case_bool_decide; [set_solver|done].
    + f_equal. unfold capped. by repeat case_bool_decide.
  - rewrite thinking_to_responses in Hp.
    destruct (messages_thinking_to_responses th) as [th1| |] eqn:Hm; cbn [result_bind] in Hp; [|done..].
    injection Hp as <-. destruct (messages_label th th1 Hm) as (Hext & Hin & Hne).
    destruct th1 as [[label] ext]. simpl in Hext, Hin, Hne. subst ext.
    destruct (level_roundtrip label Hin) as (th2 & Hgo & Hback).
    assert (capped label = label) as Hcap by (unfold capped; by rewrite bool_decide_false).
    exists th2. rewrite thinking_to_messages, Hgo. unfold thinking_ok, thinking_level.
    split_and!; [done| |by rewrite Hback, Hm, Hcap].
    apply messages_thinking_iff in Hback as (l & Hl & _). by exists l.
Qed.

Lemma bridged_limit s t ext : bridged_extensions s t ext !! output_limit_name t = ext !! output_limit_name s.
Proof.
  unfold bridged_extensions. field_names. rewrite lookup_union_r.
  - destruct (ext !! output_limit_name s); [apply lookup_singleton_eq|apply lookup_empty].
  - destruct (ext !! tool_choice_name s); [|apply lookup_empty].
    apply lookup_singleton_ne. intros Hx. by apply (limit_not_choice t t).
Qed.

Lemma bridged_choice s t ext :
  bridged_extensions s t ext !! tool_choice_name t = (fun _ => forced_text t) <$> (ext !! tool_choice_name s).
Proof.
  unfold bridged_extensions. field_names. rewrite lookup_union_l.
  - destruct (ext !! tool_choice_name s); [apply lookup_singleton_eq|apply lookup_empty].
  - destruct (ext !! output_limit_name s); [|apply lookup_empty]. apply lookup_singleton_ne, limit_not_choice.
Qed.

Lemma bridged_names s t ext name :
  is_Some (bridged_extensions s t ext !! name) -> name = output_limit_name t \/ name = tool_choice_name t.
Proof.
  unfold bridged_extensions. field_names. rewrite lookup_union_is_Some.
  intros [Hx|Hx]; [right|left]; case_match; try (by rewrite lookup_empty in Hx; destruct Hx);
    destruct Hx as [raw Hx]; by apply lookup_singleton_Some in Hx as [? _].
Qed.

Lemma bridged_twice s t ext : bridged_extensions t s (bridged_extensions s t ext) = bridged_extensions s s ext.
Proof.
  unfold bridged_extensions at 1 3. field_names. rewrite bridged_limit, bridged_choice. by destruct (ext !! tool_choice_name s).
Qed.

Lemma as_system_plain m : message_plain m -> message_plain (as_system m).
Proof. unfold as_system. by case_bool_decide. Qed.

Lemma system_first_lookup l i m :
  system_first l !! i = Some m -> exists m0, l !! i = Some m0 /\ (m = m0 \/ (i = 0%nat /\ m = as_system m0)).
Proof. destruct l as [|x l]; [done|]. destruct i as [|i]; simpl; intros Hm; [simplify_eq|]; eauto. Qed.

Lemma system_first_plain l : Forall message_plain l -> Forall message_plain (system_first l).
Proof.
  destruct l as [|m l]; [done|]. simpl. rewrite !Forall_cons. intros [? ?]. split; [by apply as_system_plain|done].
Qed.

Lemma as_system_ok s m : s <> PMessages -> message_ok s 0 m -> message_ok s 0 (as_system m).
Proof.
  unfold as_system. case_bool_decide as Hd; [|done]. intros Hs (Hp & Hne & Hr). split_and!; [done|done|].
  destruct Hr as [(_ & Ht & Hl & _)|[[Hr _]|[Hr _]]]; [|congruence..].
  left. split_and!; [rewrite text_role_iff; by left|done|done|done].
Qed.

Lemma native_no_developer r : native_to PMessages r -> system_first (messages r) = messages r.
Proof.
  intros Hn. destruct (messages r) as [|m l] eqn:Hm; [done|]. simpl. f_equal.
  destruct (nat_shapes _ _ Hn 0%nat m) as (_ & _ & Hr); [by rewrite Hm|].
  unfold as_system. case_bool_decide as Hd; [|done].
  destruct Hr as [(_ & _ & _ & Hx)|[[Hr _]|[Hr _]]]; [|congruence..]. by destruct (Hx eq_refl).
Qed.

(** [q] says in protocol [s] what [r] said, after a stay in protocol [t]. *)
Record returns_as (s t : ProtocolFormat) (r q : CanonicalRequest) : Prop := {
  rt_model : requested_model q = requested_model r;
  rt_messages : messages q = if decide (t = PMessages) then system_first (messages r) else messages r;
  rt_tools : tools q = tools r;
  rt_limit : extensions q !! output_limit_name s = extensions r !! output_limit_name s;
  rt_choice : is_Some (extensions q !! tool_choice_name s) <-> is_Some (extensions r !! tool_choice_name s);
  rt_thinking : is_Some (thinking q) <-> is_Some (thinking r);
  rt_level : thinking q ≫= thinking_level s = thinking r ≫= thinking_level s;
  rt_native : native_to s q;
}.

(** The request that comes back, given its thinking. *)
Definition returned (s t : ProtocolFormat) (r : CanonicalRequest) (th : option Thinking) : CanonicalRequest :=
  mkRequest (requested_model r) (if decide (t = PMessages) then system_first (messages r) else messages r) (tools r)
    th None None (bridged_extensions s s (extensions r)).

Lemma returned_native s t r p th :
  s <> t -> native_to s r -> bridges s t r p -> (forall x, th = Some x -> thinking_ok s x) ->
  native_to s (returned s t r th).
Proof.
  intros Hst Hn Hb Hth. split; cbn [returned extensions messages tools thinking].
  - intros name raw Hx.
    destruct (bridged_names s s (extensions r) name) as [->| ->]; [by eexists| |].
    + rewrite bridged_limit in Hx. left. split; [done|]. by apply (br_limit _ _ _ _ Hb).
    + rewrite bridged_choice in Hx. apply fmap_Some in Hx as (raw0 & Hraw & ->).
      destruct (br_choice _ _ _ _ Hb raw0 Hraw) as (Htools & _ & _).
      right. split; [done|]. right. split; [apply forced_reads|done].
  - intros ->. rewrite bridged_limit. by apply (nat_limit _ _ Hn).
  - done.
  - pose proof (nat_messages _ _ Hn). destruct (decide (t = PMessages)); [|done]. by destruct (messages r).
  - intros i m Hm. destruct (decide (t = PMessages)) as [->|Ht]; [|by apply (nat_shapes _ _ Hn)].
    apply system_first_lookup in Hm as (m0 & Hm0 & [->|[-> ->]]); [by apply (nat_shapes _ _ Hn)|].
    apply as_system_ok; [done|]. by apply (nat_shapes _ _ Hn).
  - apply (nat_tools _ _ Hn).
  - exact Hth.
Qed.

Lemma returned_bridges s t r p th :
  s <> t -> native_to s r -> bridges s t r p -> project_thinking (thinking p) t s = Ok th ->
  bridges t s p (returned s t r th).
Proof.
  intros Hst Hn Hb Hth%project_thinking_iff. pose proof (br_extensions _ _ _ _ Hb) as Hext.
  assert (messages p = if decide (t = PMessages) then system_first (messages r) else messages r) as Hm
    by apply (br_messages _ _ _ _ Hb).
  split; cbn [returned requested_model messages tools thinking extensions].
  - destruct (br_plain _ _ _ _ Hb) as [Hp1 Hp2]. split; [|by rewrite (br_tools _ _ _ _ Hb)].
    rewrite Hm. destruct (decide (t = PMessages)); [by apply system_first_plain|done].
  - apply (br_no_caches _ _ _ _ Hb).
  - intros name. rewrite Hext. apply bridged_names.
  - intros raw. rewrite Hext, bridged_limit. apply (br_limit _ _ _ _ Hb).
  - intros ->. rewrite Hext, bridged_limit. by apply (nat_limit _ _ Hn).
  - intros raw. rewrite Hext, bridged_choice. intros (raw0 & Hraw & ->)%fmap_Some.
    destruct (br_choice _ _ _ _ Hb raw0 Hraw) as (Htools & _ & _). rewrite (br_tools _ _ _ _ Hb).
    split_and!; [done|apply forced_reads|apply forced_accepted].
  - intros -> i m. rewrite Hm, decide_False by congruence. intros Hx Hd.
    destruct (nat_shapes _ _ Hn _ _ Hx) as (_ & _ & [(_ & _ & _ & Hr)|[[Hr _]|[Hr _]]]); [|congruence..].
    by destruct (Hr eq_refl).
  - symmetry. apply (br_model _ _ _ _ Hb).
  - rewrite Hm. destruct (decide (s = PMessages)) as [->|Hs]; [|done].
    rewrite decide_False by congruence. symmetry. by apply native_no_developer.
  - symmetry. apply (br_tools _ _ _ _ Hb).
  - done.
  - by rewrite Hext, bridged_twice.
  - exact Hth.
Qed.

Lemma thinking_returns s t r p :
  s <> t -> native_to s r -> bridges s t r p ->
  exists th, project_thinking (thinking p) t s = Ok th /\ (forall x, th = Some x -> thinking_ok s x)
    /\ (is_Some th <-> is_Some (thinking r)) /\ th ≫= thinking_level s = thinking r ≫= thinking_level s.
Proof.
  intros Hst Hn Hb. pose proof (proj2 (project_thinking_iff _ _ _ _) (br_thinking _ _ _ _ Hb)) as Hp.
  destruct (thinking r) as [x|] eqn:Hr.
  - destruct (thinking_roundtrip s t x (thinking p)) as (y & Hy & Hok & Hl); [done|by apply (nat_thinking _ _ Hn)|done|].
    exists (Some y). split_and!; [done|by intros z [= <-]|by split; eexists|done].
  - injection Hp as <-. exists None. by split_and!.
Qed.

Lemma bridge_returns s t r p :
  s <> t -> canonical_rejection r s = Ok tt -> project_cross_protocol r s t = Ok p ->
  exists q, project_cross_protocol p t s = Ok q /\ returns_as s t r q.
Proof.
  intros Hst Hn Hb%cross_iff. pose proof (canonical_rejection_decides r s) as Hd. rewrite Hn in Hd.
  destruct Hd as [Hnat _]. destruct (thinking_returns s t r p Hst Hnat Hb) as (th & Hth & Hok & Hsome & Hl).
  exists (returned s t r th). split; [by apply cross_iff, returned_bridges|].
  split; cbn [returned requested_model messages tools thinking extensions]; try done.
  - apply bridged_limit.
  - rewrite bridged_choice. apply fmap_is_Some.
  - by apply returned_native with p.
Qed.
End RoundTrip.

(** ** Properties *)

Section Properties.
Context `{!JsonText} `{!JsonRaw}.

(** The rejections that depend on the route candidate alone. *)
Definition structural (e : ProtocolTransformRejection) : bool :=
  match e with
  | PairUnregistered | PassthroughProtocolMismatch | CanonicalProtocolMismatch | LosslessBridgeProtocolMatch
  | ResponseReasoningUnsupported => true
  | _ => false
  end.

(** A candidate the compiler publishes is never refused for its protocols or its
    mode; the admission analysis agrees with the projection. *)
Lemma publishable_candidate_fits input :
  protocol_pair_is_publishable (source input) (target input) (mode input) (target_capabilities input) = true <->
  (bool_decide (source input = PChatCompletions) && supports (target_capabilities input) Reasoning = false
   /\ forall e, mode_rejection input = Some e -> structural e = false).
Proof.
  unfold protocol_pair_is_publishable. rewrite registered. cbn [andb]. rewrite andb_true_iff, negb_true_iff.
  rewrite (and_comm (mode_fits _ _ _ = true)). apply and_iff_compat_l. unfold mode_fits, mode_rejection.
  destruct (mode input); repeat case_bool_decide; simpl; split; try done; try (by intros _ e [= <-]);
    intros Hx; by specialize (Hx _ eq_refl).
Qed.

Lemma analysis_agrees input :
  (exists a, analyze_protocol_transform input = Ok a
    /\ (is_approved a = true <-> exists out, project_protocol_request input = Ok out)).
Proof.
  unfold analyze_protocol_transform. pose proof (project_no_panic input).
  destruct (project_protocol_request input) as [out|e|]; [|..|done].
  - exists Approved. split; [done|]. split; [by exists out|done].
  - exists (Rejected e). split; [done|]. split; [done|by intros []].
Qed.

(** C28: the projection of a request for a route candidate is exact. It never
    panics, and it returns a request precisely when one may be sent: pass-through
    only for the same protocol with the client's own bytes; otherwise a request
    that is the client's own (same protocol) or its bridge ([bridges]: model,
    messages and Tools unchanged but for a leading developer message that Messages
    calls system, the output limit verbatim, a forced Tool choice and the thinking
    level in the target's own words; a request with thinking is refused by Chat and
    anything else that cannot be said is refused too, nothing is dropped), that the
    target protocol can say in full ([native_to]), and whose every need the
    Endpoint's capabilities meet. *)
Theorem request_projection_exact input :
  project_registered_protocol_request input <> Panic
  /\ forall out, project_registered_protocol_request input = Ok out <-> sends input out.
Proof.
  split; [|intros out; apply project_registered_iff].
  unfold project_registered_protocol_request. repeat case_match; try done. apply project_no_panic.
Qed.

(** C29: a bridge loses nothing it lets through. A request its own protocol accepts
    and that bridges to another protocol bridges back, to a request its own
    protocol accepts, with the same model, Tools, output limit and messages (a
    leading developer message aside, which Messages turns into the system
    message), forcing a Tool if and only if it did, and thinking at the same
    level (["max"], which no budget reads as, comes back as ["xhigh"]). *)
Theorem bridge_roundtrip (HL : JsonRawLaws) s t r p :
  s <> t -> canonical_rejection r s = Ok tt -> project_cross_protocol r s t = Ok p ->
  exists q, project_cross_protocol p t s = Ok q /\ returns_as s t r q.
Proof. apply bridge_returns. Qed.
End Properties.

(** ** Examples *)

(** A reader of the texts the example uses. *)
Definition ex_numbers : list string := pretty <$> (4096%Z :: written_budgets).

#[local] Instance ex_transform_text : JsonText := {|
  value_from_str text :=
    if bool_decide (text = REQUIRED_TEXT) then Some (JString "required")
    else if bool_decide (text = ANY_TEXT) then Some (JObject [("type", JString "any")])
    else if bool_decide (text = "{}") then Some (JObject [])
    else if bool_decide (text ∈ ex_numbers) then Some (JNumber text)
    else None;
  strings_from_str _ := None;
  ports_from_str _ := None;
|}.

#[local] Instance ex_transform_raw : JsonRaw := {|
  as_u64 text := List.find (fun n => bool_decide (pretty n = text)) (4096%Z :: written_budgets);
  raw_accepts text := bool_decide (is_Some (value_from_str text));
|}.

Lemma ex_transform_laws : JsonRawLaws.
Proof.
  split; try reflexivity; intros n; unfold written_budgets; rewrite !elem_of_cons, elem_of_nil;
    (intros [->|[->|[->|[->|[->|[->|[]]]]]]]; vm_compute; reflexivity).
Qed.

(** A Responses request with a developer message, one Tool it must call, an
    output limit and the highest effort. *)
Definition ex_tool : ToolDefinition := mkTool "lookup" None "{}" ∅.
Definition ex_responses_request : CanonicalRequest :=
  mkRequest "m" [mkMessage "developer" [MText (mkText "be brief" ∅)] ∅; mkMessage "user" [MText (mkText "hi" ∅)] ∅]
    [ex_tool] (Some (mkThinking (mkEffort "max") ∅)) None None
    {[ RESPONSES_OUTPUT_LIMIT := pretty 4096%Z; RESPONSES_TOOL_CHOICE := REQUIRED_TEXT ]}.

Definition ex_messages_request : CanonicalRequest :=
  mkRequest "m" [mkMessage "system" [MText (mkText "be brief" ∅)] ∅; mkMessage "user" [MText (mkText "hi" ∅)] ∅]
    [ex_tool] (Some (mkThinking (mkEffort "enabled") {[ ANTHROPIC_THINKING_BUDGET := pretty 128000%Z ]})) None None
    {[ MESSAGES_OUTPUT_LIMIT := pretty 4096%Z; MESSAGES_TOOL_CHOICE := ANY_TEXT ]}.

Lemma bridge_roundtrip_witness :
  exists q, project_cross_protocol ex_messages_request PMessages PResponses = Ok q
    /\ returns_as PResponses PMessages ex_responses_request q.
Proof.
  apply (bridge_roundtrip ex_transform_laws PResponses PMessages ex_responses_request ex_messages_request);
    [discriminate|vm_compute; reflexivity|vm_compute; reflexivity].
Defined.

End Transform.
