(* ===== verification/SnapshotPublisher.v ===== *)
(** * Publication of configuration versions

    Models [crates/gateway-control/src/snapshot_publisher.rs]: a stored version is
    compiled, built into a route snapshot, activated in SQLite and made visible in
    the registry, with the reservation of the registry held across the
    transaction; rollback to the retained predecessor; and the bootstrap of a
    process from the stored active version and its audited predecessor.

    The state is the store and the service with its registry. *)

From S2P Require Import Prelude Text Core Catalog ClientKey EgressPolicy SecretStore ControlPlane StoreRows StoreSchema ControlStore StoreProperties EgressCompiler RouteCompiler RouteSnapshot.
Local Open Scope string_scope.
Local Open Scope list_scope.
Local Open Scope Z_scope.

Module Publisher.

Definition SYNTHETIC_BOOTSTRAP_VERSION : string := "bootstrap-empty".

Inductive SnapshotPublicationError : Type :=
| VersionNotFound
| Compile (error : RouteCompileError)
| EgressPolicy (error : Egress.EgressPolicyCompileError)
| SnapshotBuild (error : RouteSnapshotBuildError)
| Registry (error : SnapshotRegistryError)
| StoreFailure (error : StoreError)
| InvalidSnapshotVersion
| NoPersistedRollbackTarget
| ClientKeyMaterial (error : ClientKeyError)
| ClientKeyAccessGroupMissing.

Record SnapshotPublicationService : Type := mkService {
  compiler : RouteCompiler;
  registry : SnapshotRegistry;
  synthetic_bootstrap_version : option string;
}.

Record SnapshotValidation : Type := mkValidation {
  validated_config_version_id : ConfigVersionId;
  validated_snapshot_version : string;
}.

Record SnapshotPublication : Type := mkPublication {
  activation : ConfigVersionActivation;
  transition : SnapshotTransition;
  audit_event : option ManagementAuditEvent;
}.

Abbreviation PublishR A := (result SnapshotPublicationError A).

(** ** From compiler output to a snapshot *)

Definition snapshot_client_key_status (status : StoredClientKeyStatus) : ClientKeyStatus :=
  match status with
  | StoredKeyActive => KeyActive
  | StoredKeyDisabled => KeyDisabled
  | StoredKeyRevoked => KeyRevoked
  end.

Definition snapshot_route_policy (policy : RoutePolicy) : SnapshotRoutePolicy :=
  match policy with
  | PolicyRoundRobin => RoundRobin
  | PolicySmoothWeightedRoundRobin => SmoothWeightedRoundRobin
  | PolicyPriorityFailover => PriorityFailover
  end.

Definition snapshot_transform_mode (mode : TransformMode) : SnapshotTransformMode :=
  match mode with
  | ModePassthrough => Passthrough
  | ModeCanonical => Canonical
  | ModeLosslessBridge => LosslessBridge
  | ModeCanonicalBridge => CanonicalBridge
  end.

Definition snapshot_catalog_admission (admission : CatalogAdmission) : SnapshotCatalogAdmission :=
  match admission with
  | AdmissionListed state => Listed state
  | AdmissionUnlisted => AllowedUnlisted
  end.

Definition snapshot_route_candidate (c : CompiledRouteCandidate) : SnapshotRouteCandidate :=
  mkCandidate (cc_id c) (cc_endpoint_id c) (cc_upstream_id c) (cc_endpoint_api_format c) (cc_upstream_model c)
    (snapshot_transform_mode (cc_transform_mode c)) (cc_priority c) (cc_weight c) (cc_effective_capabilities c)
    (snapshot_catalog_admission (cc_catalog_admission c)) (cc_active_binding_count c).

Definition client_key_record (k : StoredClientKey) : PublishR ClientKeyRecord :=
  map_err ClientKeyMaterial (
    let? prefix := prefix_try_new (sk_prefix k) in
    let? digest := digest_try_from_persisted (sk_secret_digest k) in
    record_try_new (sk_id k) (sk_access_group_id k) prefix digest (snapshot_client_key_status (sk_status k))
      (sk_expires_at_ms k)).

Definition snapshot_client_key (compiled : CompiledRouteConfiguration) (configuration : ControlPlaneConfiguration)
    (keys : list SnapshotClientKeyView) (k : StoredClientKey) : PublishR (list SnapshotClientKeyView) :=
  if negb (existsb (fun g => bool_decide (gr_id g = sk_access_group_id k)) (cf_access_groups configuration))
  then Err ClientKeyAccessGroupMissing
  else match co_access_groups compiled !! sk_access_group_id k with
       | None => Ok keys
       | Some g => let? record := client_key_record k in Ok (keys ++ [mkKeyView record (cg_allowed_route_ids g)])
       end.

Definition snapshot_client_keys_from_configuration (compiled : CompiledRouteConfiguration)
    (configuration : ControlPlaneConfiguration) : PublishR (list SnapshotClientKeyView) :=
  try_fold (snapshot_client_key compiled configuration) (cf_client_keys configuration) [].

(** [SnapshotVersion::try_new]. *)
Definition snapshot_version_try_new (value : string) : result InvalidIdentifier string :=
  if bool_decide (value = "") then Err IdEmpty else Ok value.

Definition snapshot_public_model (m : CompiledPublicModel) : SnapshotPublicModel :=
  mkPublicModel (cm_id m) (cm_model_name m) (cm_display_name m) (cm_required_capabilities m) (cm_route_id m).

Definition snapshot_route (r : CompiledRoute) : SnapshotRoute :=
  mkRoute (cro_id r) (cro_public_model_id r) (snapshot_route_policy (cro_policy r)) (cro_max_attempts r)
    (cro_bootstrap_timeout_ms r) (snapshot_route_candidate <$> cro_candidates r).

Definition snapshot_access_group (g : CompiledAccessGroup) : SnapshotAccessGroup :=
  mkAccessGroup (cg_id g) (cg_name g) (cg_allowed_route_ids g).

Definition snapshot_input (version : string) (compiled : CompiledRouteConfiguration)
    (keys : list SnapshotClientKeyView) : RouteSnapshotInput :=
  mkSnapshotInput version (snapshot_public_model <$> btree_values (co_public_models compiled))
    (text_entries (co_aliases compiled)) (snapshot_route <$> id_values (co_routes compiled))
    (snapshot_access_group <$> id_values (co_access_groups compiled)) keys.

Definition route_snapshot_from_compiled (compiled : CompiledRouteConfiguration)
    (configuration : ControlPlaneConfiguration) : PublishR RouteSnapshot :=
  let? version := map_err (fun _ => InvalidSnapshotVersion)
                    (snapshot_version_try_new (version_text (co_config_version_id compiled))) in
  let? keys := snapshot_client_keys_from_configuration compiled configuration in
  map_err SnapshotBuild (snapshot_try_new (snapshot_input version compiled keys)).

Definition empty_bootstrap_snapshot : PublishR RouteSnapshot :=
  let? version := map_err (fun _ => InvalidSnapshotVersion) (snapshot_version_try_new SYNTHETIC_BOOTSTRAP_VERSION) in
  map_err SnapshotBuild (snapshot_try_new (mkSnapshotInput version [] [] [] [] [])).

Section Service.
Context {Url : Type} `{!UrlCrate Url} `{!JsonText} `{!SqliteJson} (sqlite_fails : nat -> bool).

Definition compiled_snapshot (c : RouteCompiler) (configuration : ControlPlaneConfiguration) : PublishR RouteSnapshot :=
  let? _ := map_err EgressPolicy (Egress.compile (Url := Url) configuration) in
  let? compiled := map_err Compile (RouteCompiler.compile c configuration) in
  route_snapshot_from_compiled compiled configuration.

(** ** Bootstrap *)

Abbreviation BootM A := (M Store SnapshotPublicationError A).

(** [?] on a repository call. *)
Definition stored {A} (m : M Store StoreError A) : BootM A :=
  fun s => let '(r, s') := m s in (map_err StoreFailure r, s').

Definition bootstrap (c : RouteCompiler) : BootM SnapshotPublicationService :=
  let! active := stored (load_active_configuration sqlite_fails) in
  match active with
  | Some active_configuration =>
      let! current := lift (compiled_snapshot c active_configuration) in
      let! predecessor := stored (load_rollback_predecessor sqlite_fails (cv_id (cf_version active_configuration))) in
      let! previous := lift (match predecessor with
                             | Some configuration => let? p := compiled_snapshot c configuration in Ok (Some p)
                             | None => Ok None
                             end) in
      let! registry := lift (map_err Registry (try_new_with_previous current previous)) in
      ret (mkService c registry None)
  | None =>
      let! current := lift empty_bootstrap_snapshot in
      let! registry := lift (map_err Registry (try_new_with_previous current None)) in
      ret (mkService c registry (Some (version current)))
  end.

(** ** Publication and rollback *)

Record World : Type := mkWorld { w_store : Store; w_service : SnapshotPublicationService }.

Abbreviation PublishM A := (M World SnapshotPublicationError A).

Definition repository {A} (m : M Store StoreError A) : PublishM A :=
  fun w => let '(r, s) := stored m (w_store w) in (r, mkWorld s (w_service w)).

Definition w_registry (w : World) : SnapshotRegistry := registry (w_service w).

(** The mutex of the registry is held by the reservation. *)
Definition reserve (f : SnapshotRegistry -> result SnapshotRegistryError PreparedSnapshotPublication)
  : PublishM PreparedSnapshotPublication :=
  fun w => (map_err Registry (f (w_registry w)), w).

Definition commit_prepared (p : PreparedSnapshotPublication) : PublishM SnapshotTransition :=
  fun w => let '(t, reg) := commit p (w_registry w) in
           (Ok t, mkWorld (w_store w) (mkService (compiler (w_service w)) reg (synthetic_bootstrap_version (w_service w)))).

Definition validate_version (id : ConfigVersionId) : PublishM SnapshotValidation :=
  let! configuration := repository (load_configuration sqlite_fails id) in
  let! configuration := lift (ok_or VersionNotFound configuration) in
  let! w := get in
  let! snapshot := lift (compiled_snapshot (compiler (w_service w)) configuration) in
  ret (mkValidation (cv_id (cf_version configuration)) (version snapshot)).

(** The durable half of both transitions. *)
Definition activate (id : ConfigVersionId) (audit_draft : option ManagementAuditEventDraft)
  : PublishM (ConfigVersionActivation * option ManagementAuditEvent) :=
  match audit_draft with
  | Some audit_draft =>
      let! r := repository (activate_version_with_audit sqlite_fails id audit_draft) in ret (r.1, Some r.2)
  | None => let! a := repository (activate_version sqlite_fails id) in ret (a, None)
  end.

Definition publish_version_with_optional_audit (id : ConfigVersionId) (audit_draft : option ManagementAuditEventDraft)
  : PublishM SnapshotPublication :=
  let! configuration := repository (load_configuration sqlite_fails id) in
  let! configuration := lift (ok_or VersionNotFound configuration) in
  let! w := get in
  let! replacement := lift (compiled_snapshot (compiler (w_service w)) configuration) in
  let! prepared := reserve (fun reg => prepare_publication reg replacement) in
  let! activated := activate id audit_draft in
  let! transition := commit_prepared prepared in
  ret (mkPublication activated.1 transition activated.2).

Definition publish_version (id : ConfigVersionId) : PublishM SnapshotPublication :=
  publish_version_with_optional_audit id None.

Definition publish_version_with_audit (id : ConfigVersionId) (audit_draft : ManagementAuditEventDraft)
  : PublishM SnapshotPublication :=
  if negb (bool_decide (ad_action audit_draft = AuditPublished)) then raise (StoreFailure InvalidManagementAuditEvent)
  else publish_version_with_optional_audit id (Some audit_draft).

Definition rollback_with_optional_audit (audit_draft : option ManagementAuditEventDraft) : PublishM SnapshotPublication :=
  let! prepared := reserve prepare_rollback in
  let! w := get in
  if bool_decide (synthetic_bootstrap_version (w_service w) = Some (version (prepared_next prepared)))
  then raise NoPersistedRollbackTarget
  else
    let! target := lift (map_err (fun _ => InvalidSnapshotVersion) (version_id_try_new (version (prepared_next prepared)))) in
    let! activated := activate target audit_draft in
    let! transition := commit_prepared prepared in
    ret (mkPublication activated.1 transition activated.2).

Definition rollback : PublishM SnapshotPublication := rollback_with_optional_audit None.

Definition rollback_with_audit (audit_draft : ManagementAuditEventDraft) : PublishM SnapshotPublication :=
  if negb (bool_decide (ad_action audit_draft = AuditRolledBack)) then raise (StoreFailure InvalidManagementAuditEvent)
  else rollback_with_optional_audit (Some audit_draft).

End Service.
End Publisher.
