(* ===== verification/CredentialRotation.v ===== *)
(** * Credential rotation and the compiled snapshot

    A completed OAuth authorization replaces a credential of the active version in
    place ([rotate_active_credential] of crates/gateway-store/src/control_plane.rs)
    and writes it as active whatever its status was, without a publication.  This
    file shows what that can change: the rows with renewed credentials compile to
    the same snapshot up to the binding counts of its candidates, which can only
    grow ([compiled_snapshot_renewed]). *)

From S2P Require Import Prelude Text Core Catalog ClientKey EgressPolicy SecretStore ControlPlane StoreRows StoreSchema ControlStore StoreProperties EgressCompiler WeightedSchedule RouteCompiler RouteSnapshot SnapshotPublisher.
Import Publisher.
Local Open Scope string_scope.
Local Open Scope list_scope.
Local Open Scope Z_scope.

(** ** Related runs *)

Lemma sorted_keys {K A} `{Countable K} leb (m : gmap K A) :
  total_order leb -> StronglySorted (fun a b => leb a b = true) (sort_by (fun a b => leb a.1 b.1) (map_to_list m)).*1.
Proof.
  intros [Htot Htr _].
  assert (StronglySorted (fun a b : K * A => leb a.1 b.1 = true) (sort_by (fun a b : K * A => leb a.1 b.1) (map_to_list m))) as Hs
    by (apply sort_by_sorted; [intros; apply Htot|intros ? ? ?; apply Htr]).
  induction Hs as [|p ps _ IH Hp]; simpl; constructor; [done|]. by rewrite Forall_fmap.
Qed.

(** Two maps with related values list them in the same order. *)
Lemma sorted_values_related {K A B} `{Countable K} leb (R : A -> B -> Prop) (m : gmap K A) (m' : gmap K B) :
  total_order leb -> map_Forall2 (fun _ => R) m m' -> Forall2 R (sorted_values leb m) (sorted_values leb m').
Proof.
  intros Hord Hm. unfold sorted_values. set (l := sort_by _ (map_to_list m)). set (l' := sort_by _ (map_to_list m')).
  assert (l.*1 = l'.*1) as Hkeys.
  { apply (sorted_perm_unique leb); [intros; by apply (to_antisym _ Hord)|by apply sorted_keys..|].
    subst l l'. rewrite !sort_by_perm. apply list.NoDup_Permutation; [apply NoDup_fst_map_to_list..|]. intros k.
    rewrite !list_elem_of_fmap. specialize (Hm k).
    split; intros ([? x] & -> & Hx%elem_of_map_to_list); simpl in *; rewrite Hx in Hm; inversion Hm; subst;
      eexists (_, _); (split; [|apply elem_of_map_to_list; symmetry; eassumption]); done. }
  apply Forall2_same_length_lookup_2.
  { rewrite !length_fmap. by rewrite <- (length_fmap fst l), Hkeys, length_fmap. }
  intros i x y. rewrite !list_lookup_fmap. destruct (l !! i) as [[k a]|] eqn:Ha, (l' !! i) as [[k' b]|] eqn:Hb; simpl; [|done..].
  intros [= ->] [= ->]. assert (k = k') as <-.
  { apply (f_equal (fun z => z !! i)) in Hkeys. rewrite !list_lookup_fmap, Ha, Hb in Hkeys. by injection Hkeys. }
  apply list_elem_of_lookup_2 in Ha, Hb. subst l l'. rewrite sort_by_perm, elem_of_map_to_list in Ha. rewrite sort_by_perm, elem_of_map_to_list in Hb.
  specialize (Hm k). rewrite Ha, Hb in Hm. by inversion Hm.
Qed.

Lemma id_values_related {k A B} (R : A -> B -> Prop) (m : gmap (Id k) A) (m' : gmap (Id k) B) :
  map_Forall2 (fun _ => R) m m' -> Forall2 R (id_values m) (id_values m').
Proof. intros Hm. apply (sorted_values_related id_leb R m m' (id_order k) Hm). Qed.

Lemma related_lookup {K A B} `{Countable K} (R : A -> B -> Prop) (m : gmap K A) (m' : gmap K B) k :
  map_Forall2 (fun _ => R) m m' -> option_Forall2 R (m !! k) (m' !! k).
Proof. intros Hm. apply (Hm k). Qed.

Lemma related_dom {K A B} `{Countable K} (R : A -> B -> Prop) (m : gmap K A) (m' : gmap K B) k :
  map_Forall2 (fun _ => R) m m' -> is_Some (m !! k) <-> is_Some (m' !! k).
Proof. intros Hm. destruct (related_lookup R m m' k Hm); [split; eauto|done]. Qed.

(** ** Renewed credentials *)

(** What rotations make of a credential: the row itself, or a newer revision of it,
    sealed again and active. *)
Definition renewed (old new : CredentialConfiguration) : Prop :=
  new = old \/ cr_id new = cr_id old /\ cr_upstream_id new = cr_upstream_id old /\ cr_status new = CredentialActive
               /\ cr_revision old < cr_revision new.

#[export] Instance renewed_refl : Reflexive renewed.
Proof. by left. Qed.

#[export] Instance renewed_trans : Transitive renewed.
Proof.
  intros a b c [->|(H1 & H2 & H3 & H4)]; [done|]. intros [->|(H1' & H2' & H3' & H4')]; [by right|]. right.
  split_and!; [congruence|congruence|done|lia].
Qed.

(** How the credentials of a snapshot may be behind the stored ones: not at all where
    nothing rotates ([eq]), by renewals where rotations happen ([renewed]). *)
Class Renewal (K : relation CredentialConfiguration) : Prop := {
  #[global] renewal_refl :: Reflexive K;
  renewal_renews : forall old new, K old new -> renewed old new;
}.

#[export] Instance eq_renewal : Renewal eq.
Proof. constructor; [apply _|by intros ? ? ->]. Qed.

#[export] Instance renewed_renewal : Renewal renewed.
Proof. by constructor; [apply _|]. Qed.

(** What the compilers see of that: the identity is kept and an active credential
    stays active. *)
Definition covers (old new : CredentialConfiguration) : Prop :=
  cr_id new = cr_id old /\ cr_upstream_id new = cr_upstream_id old
  /\ (cr_status old = CredentialActive -> cr_status new = CredentialActive).

Lemma renewed_covers a b : renewed a b -> covers a b.
Proof. by intros [->|(? & ? & ? & _)]. Qed.

Definition with_credentials (credentials : list CredentialConfiguration) (cf : ControlPlaneConfiguration) : ControlPlaneConfiguration :=
  mkConfiguration (cf_version cf) (cf_egress_policies cf) (cf_upstreams cf) (cf_endpoints cf) credentials (cf_bindings cf)
    (cf_public_models cf) (cf_aliases cf) (cf_routes cf) (cf_candidates cf) (cf_access_groups cf) (cf_grants cf) (cf_client_keys cf).

(** ** Recounted bindings *)

Definition with_binding_count (n : Z) (c : SnapshotRouteCandidate) : SnapshotRouteCandidate :=
  mkCandidate (cand_id c) (cand_endpoint_id c) (cand_upstream_id c) (endpoint_api_format c) (upstream_model c) (transform_mode c)
    (cand_priority c) (cand_weight c) (effective_capabilities c) (catalog_admission c) n.

(** The same candidate, with at least as many active bindings. *)
Definition recounted_candidate (c c' : SnapshotRouteCandidate) : Prop :=
  1 <= active_binding_count c <= active_binding_count c' /\ c' = with_binding_count (active_binding_count c') c.

Definition recounted_route (r r' : SnapshotRoute) : Prop :=
  Forall2 recounted_candidate (candidates r) (candidates r')
  /\ r' = mkRoute (route_id r) (route_public_model_id r) (policy r) (max_attempts r) (bootstrap_timeout_ms r) (candidates r').

(** The same snapshot up to the binding counts of its candidates, which grew or stayed. *)
Record recounted (s s' : RouteSnapshot) : Prop := {
  rn_version : version s' = version s;
  rn_models : public_models s' = public_models s /\ public_model_names_by_id s' = public_model_names_by_id s;
  rn_aliases : aliases s' = aliases s;
  rn_routes : map_Forall2 (fun _ => recounted_route) (routes s) (routes s');
  rn_schedules : route_schedules s' = route_schedules s;
  rn_groups : access_groups s' = access_groups s;
  rn_keys : client_keys s' = client_keys s;
}.

(** ** The route compiler *)

Definition recounted_compiled (c c' : CompiledRouteCandidate) : Prop :=
  1 <= cc_active_binding_count c <= cc_active_binding_count c'
  /\ c' = mkCompiledCandidate (cc_id c) (cc_endpoint_id c) (cc_upstream_id c) (cc_endpoint_api_format c) (cc_upstream_model c)
            (cc_transform_mode c) (cc_priority c) (cc_weight c) (cc_effective_capabilities c) (cc_catalog_admission c)
            (cc_active_binding_count c').

Definition recounted_compiled_route (r r' : CompiledRoute) : Prop :=
  Forall2 recounted_compiled (cro_candidates r) (cro_candidates r')
  /\ r' = mkCompiledRoute (cro_id r) (cro_public_model_id r) (cro_policy r) (cro_max_attempts r) (cro_bootstrap_timeout_ms r)
            (cro_candidates r').

Abbreviation recounted_routes := (map_Forall2 (fun _ : RouteId => recounted_compiled_route)).

Lemma index_credentials_covered upstreams l l' m :
  Forall2 covers l l' -> index_credentials l upstreams = Ok m ->
  exists m', index_credentials l' upstreams = Ok m' /\ map_Forall2 (fun _ => covers) m m'.
Proof.
  intros Hl. apply (try_fold_simulates _ _ _ _ _ _ Hl); [|apply map_Forall2_empty].
  intros x x' s s' t _ Hx Hs. unfold index_credential. destruct Hx as (Hid & Hup & Hact). rewrite Hid, Hup.
  rewrite (bool_decide_ext _ _ (related_dom _ s s' (cr_id x) Hs)). repeat (case_match; [done|]). intros [= <-].
  eexists. split; [done|]. by apply map_Forall2_insert_2.
Qed.

Lemma validate_bindings_covered rows endpoints m m' b :
  map_Forall2 (fun _ => covers) m m' -> validate_bindings rows endpoints m = Ok b -> validate_bindings rows endpoints m' = Ok b.
Proof.
  intros Hm Hb. eapply (try_fold_simulates eq eq) in Hb as (b' & Hb & <-); [exact Hb|reflexivity| |done].
  intros x ? s ? t _ <- <- (e & He & (c & Hc & Ht)%result_bind_ok)%result_bind_ok. unfold validate_binding. rewrite He. simpl.
  destruct (related_lookup _ _ _ (bn_credential_id x) Hm) as [c0 c0' Hr|]; [|done]. simpl in Hc |- *. injection Hc as ->.
  destruct Hr as (_ & -> & _). eauto.
Qed.

Section Compiler.
Context `{!JsonText} (compiler : RouteCompiler).

(** The rows of a compilation with other credentials. *)
Definition recredential (m : gmap CredentialId CredentialConfiguration) (cx : CandidateCompilationContext) : CandidateCompilationContext :=
  mkContext (cx_candidates cx) (cx_routes cx) (cx_public_models cx) (cx_required_capabilities cx) (cx_endpoints cx) (cx_upstreams cx)
    (cx_bindings cx) m.

Lemma active_binding_count_covered endpoint upstream cx m :
  map_Forall2 (fun _ => covers) (cx_credentials cx) m ->
  0 <= RouteCompiler.active_binding_count endpoint upstream cx
    <= RouteCompiler.active_binding_count endpoint upstream (recredential m cx).
Proof.
  intros Hm. unfold RouteCompiler.active_binding_count. case_match; [lia|]. simpl.
  destruct (cx_bindings cx !! en_id endpoint) as [l|]; [|lia].
  assert (forall b, binding_is_active endpoint cx b = true -> binding_is_active endpoint (recredential m cx) b = true) as Himp.
  { intros b. unfold binding_is_active. simpl. destruct (bn_enabled b); [|done]. simpl.
    destruct (related_lookup _ _ _ (bn_credential_id b) Hm) as [c c' Hr|]; [|done]. rewrite !andb_true_iff, !bool_decide_eq_true.
    destruct Hr as (_ & -> & Hact). tauto. }
  split; [lia|]. apply Nat2Z.inj_le. induction l as [|b l IH]; simpl; [lia|]. specialize (Himp b).
  destruct (binding_is_active endpoint cx b); [rewrite Himp by done; simpl; lia|]. case_match; simpl; lia.
Qed.

Lemma compile_candidates_covered cx m compiled :
  map_Forall2 (fun _ => covers) (cx_credentials cx) m -> compile_active_candidates compiler cx = Ok compiled ->
  exists compiled', compile_active_candidates compiler (recredential m cx) = Ok compiled'
    /\ map_Forall2 (fun _ => recounted_compiled) compiled compiled'.
Proof.
  intros Hm. eapply (try_fold_simulates _ eq); [reflexivity| |apply map_Forall2_empty].
  intros x ? s s' t _ <- Hs. unfold compile_one_candidate. case_match; [intros [= <-]; eauto|].
  intros (active & Ha & Ht)%result_bind_ok. unfold candidate_has_active_public_model, candidate_model in *. simpl in *. rewrite Ha. simpl.
  destruct active; simpl in Ht |- *; [|injection Ht as <-; eauto].
  apply result_bind_ok in Ht as (c & Hc & [= <-]). unfold compile_active_candidate in *.
  apply result_bind_ok in Hc as (required & Hreq & ([endpoint upstream] & Htar & Hc)%result_bind_ok).
  unfold required_capabilities_for_candidate, candidate_model, active_candidate_target in *. simpl in *. rewrite Hreq, Htar. simpl.
  apply result_bind_ok in Hc as (ov & -> & Hc). simpl. apply result_bind_ok in Hc as (effective & -> & Hc). simpl.
  apply result_bind_ok in Hc as (admission & -> & Hc). simpl.
  pose proof (active_binding_count_covered endpoint upstream cx m Hm) as Hn.
  destruct (Z.eqb_spec (RouteCompiler.active_binding_count endpoint upstream cx) 0); [done|]. injection Hc as <-.
  destruct (Z.eqb_spec (RouteCompiler.active_binding_count endpoint upstream (recredential m cx)) 0); [lia|].
  eexists. split; [done|]. apply map_Forall2_insert_2; [|done]. split; simpl; [lia|done].
Qed.

Lemma route_candidates_recounted index compiled compiled' r :
  map_Forall2 (fun _ => recounted_compiled) compiled compiled' ->
  Forall2 recounted_compiled (route_candidates_of index compiled r) (route_candidates_of index compiled' r).
Proof.
  intros Hm. apply sort_by_related.
  - intros a b a' b' [_ ->] [_ ->]. done.
  - induction (List.filter _ _) as [|c l IH]; simpl; [constructor|].
    destruct (related_lookup _ _ _ (cn_id c) Hm); [by constructor|done].
Qed.

Lemma compile_routes_recounted routes models index compiled compiled' rs :
  map_Forall2 (fun _ => recounted_compiled) compiled compiled' -> compile_active_routes routes models index compiled = Ok rs ->
  exists rs', compile_active_routes routes models index compiled' = Ok rs' /\ recounted_routes rs rs'.
Proof.
  intros Hm. eapply (try_fold_simulates _ eq); [reflexivity| |apply map_Forall2_empty].
  intros x ? s s' t _ <- Hs (model & Hp & Ht)%result_bind_ok. unfold compile_one_route. rewrite Hp. simpl.
  destruct (negb _); [injection Ht as <-; eauto|].
  pose proof (route_candidates_recounted index compiled compiled' (rt_id x) Hm) as Hc.
  destruct (route_candidates_of index compiled (rt_id x)) as [|a l]; [done|]. injection Ht as <-.
  inversion Hc as [|? a' ? l' Ha Hl]; subst. eexists. split; [done|]. apply map_Forall2_insert_2; [|done]. split; simpl; [by constructor|done].
Qed.

Lemma compile_groups_recounted groups grants rs rs' :
  recounted_routes rs rs' -> compile_access_groups groups grants rs' = compile_access_groups groups grants rs.
Proof.
  intros Hr. unfold compile_access_groups. generalize (id_values groups), (∅ : gmap AccessGroupId CompiledAccessGroup).
  intros l. induction l as [|g l IH]; intros m; simpl; [done|].
  assert (compile_one_access_group grants rs' m g = compile_one_access_group grants rs m g) as ->.
  { unfold compile_one_access_group. case_match; [done|]. f_equal. generalize (default [] (grants !! gr_id g)), (∅ : gset RouteId).
    intros k. induction k as [|x k IHk]; intros a; simpl; [done|].
    assert (allow_route rs' a x = allow_route rs a x) as ->.
    { unfold allow_route. by rewrite (bool_decide_ext _ _ (related_dom _ rs rs' (gt_route_id x) Hr)). }
    destruct (allow_route rs a x); simpl; auto. }
  destruct (compile_one_access_group grants rs m g); simpl; auto.
Qed.

Lemma compile_covered cf credentials co :
  Forall2 covers (cf_credentials cf) credentials -> RouteCompiler.compile compiler cf = Ok co ->
  exists rs, RouteCompiler.compile compiler (with_credentials credentials cf)
      = Ok (mkCompiled (co_config_version_id co) (co_public_models co) (co_aliases co) rs (co_access_groups co))
    /\ recounted_routes (co_routes co) rs.
Proof.
  intros Hcr Hco. unfold RouteCompiler.compile in Hco |- *. cbn [with_credentials cf_version cf_egress_policies cf_upstreams cf_endpoints cf_credentials cf_bindings cf_public_models cf_aliases cf_routes cf_candidates cf_access_groups cf_grants cf_client_keys].
  apply result_bind_ok in Hco as (upstreams & -> & Hco). cbn [result_bind].
  apply result_bind_ok in Hco as (endpoints & -> & Hco). cbn [result_bind].
  apply result_bind_ok in Hco as (m & Hm & Hco).
  destruct (index_credentials_covered _ _ _ _ Hcr Hm) as (m' & -> & Hr). cbn [result_bind].
  apply result_bind_ok in Hco as (bindings & Hb & Hco). rewrite (validate_bindings_covered _ _ _ _ _ Hr Hb). cbn [result_bind].
  do 7 (apply result_bind_ok in Hco as (? & -> & Hco); cbn [result_bind]). cbv zeta in Hco |- *.
  apply result_bind_ok in Hco as (compiled & Hc & Hco).
  pose proof (compile_candidates_covered _ m' _ (Hr : map_Forall2 _ (cx_credentials (mkContext _ _ _ _ _ _ _ m)) m') Hc) as (compiled' & Hc' & Hcc). unfold recredential in Hc'. cbn in Hc'. rewrite Hc'. cbn [result_bind].
  apply result_bind_ok in Hco as (rs & Hrs & Hco). destruct (compile_routes_recounted _ _ _ _ _ _ Hcc Hrs) as (rs' & -> & Hrr). cbn [result_bind].
  rewrite (compile_groups_recounted _ _ _ _ Hrr).
  do 3 (apply result_bind_ok in Hco as (? & -> & Hco); cbn [result_bind]). injection Hco as <-. simpl. eauto.
Qed.
End Compiler.

(** ** The snapshot *)

Lemma collect_weights_ext {E} (too_large : E) f g indexes n :
  (forall i, f i = g i) -> collect_weights too_large f indexes n = collect_weights too_large g indexes n.
Proof. intros Hfg. revert n. induction indexes as [|i l IH]; intros n; simpl; [done|]. rewrite Hfg. destruct (g i); simpl; [|done..].
  destruct (ok_or too_large (u64_checked_add n a)); simpl; [|done..]. case_match; [done|]. by rewrite IH.
Qed.

Lemma smooth_weighted_slots_ext {E} (too_large : E) overflow f g indexes :
  (forall i, f i = g i) -> smooth_weighted_slots too_large overflow f indexes = smooth_weighted_slots too_large overflow g indexes.
Proof. intros Hfg. unfold smooth_weighted_slots. by rewrite (collect_weights_ext too_large f g). Qed.

Lemma related_index {A B} (R : A -> B -> Prop) l l' i : Forall2 R l l' -> option_Forall2 R (l !! i) (l' !! i).
Proof. intros Hl. by apply Forall2_lookup. Qed.

(** Schedules do not look at binding counts. *)
Lemma try_compile_recounted r r' : recounted_route r r' -> try_compile r' = try_compile r.
Proof.
  intros [Hc Hr]. assert (policy r' = policy r) as Hp by by rewrite Hr. clear Hr. unfold try_compile.
  assert (forall l l' i tiers, Forall2 recounted_candidate l l' -> group_candidates l' i tiers = group_candidates l i tiers) as Hg.
  { intros l l' i tiers Hl. revert i tiers. induction Hl as [|c c' l l' [_ ->] _ IH]; intros i tiers; simpl; [done|]. by rewrite IH. }
  rewrite (Hg _ _ _ _ Hc). destruct (group_candidates (candidates r) 0 []) as [tiers| |]; simpl; [|done..]. f_equal.
  induction tiers as [|[p indexes] tiers IH]; simpl; [done|]. rewrite IH. f_equal. unfold tier_slots. rewrite Hp.
  assert (sort_indexes (candidates r') indexes = sort_indexes (candidates r) indexes) as ->.
  { symmetry. apply list_eq_Forall2, sort_by_related; [|reflexivity]. intros a b ? ? <- <-. unfold candidate_key.
    destruct (related_index _ _ _ a Hc) as [? ? [_ ->]|], (related_index _ _ _ b Hc) as [? ? [_ ->]|]; done. }
  destruct (policy r); [done| |done]. apply smooth_weighted_slots_ext. intros i.
  by destruct (related_index _ _ _ i Hc) as [? ? [_ ->]|].
Qed.

Lemma build_routes_recounted input input' by_id rs rs' schedules ids out :
  Forall2 recounted_route input input' -> map_Forall2 (fun _ => recounted_route) rs rs' ->
  build_routes input by_id rs schedules ids = Ok out ->
  exists rs1, build_routes input' by_id rs' schedules ids = Ok (rs1, out.2) /\ map_Forall2 (fun _ => recounted_route) out.1 rs1.
Proof.
  intros Hi. revert rs rs' schedules ids. induction Hi as [|r r' l l' Hr _ IH]; intros rs rs' schedules ids Hrs; simpl.
  { intros [= <-]. simpl. eauto. }
  rewrite (try_compile_recounted r r' Hr). pose proof Hr as [Hc Heq]. assert (route_id r' = route_id r /\ route_public_model_id r' = route_public_model_id r) as [-> ->] by by rewrite Heq.
  rewrite (bool_decide_ext _ _ (related_dom _ rs rs' (route_id r) Hrs)). case_match; [done|]. case_match; [done|].
  assert (forall l l' ids, Forall2 recounted_candidate l l' -> add_candidate_ids l' ids = add_candidate_ids l ids) as Hids.
  { intros k k' n Hk. revert n. induction Hk as [|c c' k k' [_ ->] _ IHk]; intros n; simpl; [done|]. by rewrite IHk. }
  rewrite (Hids _ _ _ Hc). assert (candidates r' = [] <-> candidates r = []) as Hnil by (destruct Hc; split; done).
  rewrite (bool_decide_ext _ _ Hnil). case_match; [done|].
  intros (n & -> & (sched & -> & Hout)%result_bind_ok)%result_bind_ok. simpl.
  eapply IH; [|exact Hout]. by apply map_Forall2_insert_2.
Qed.

Lemma check_model_routes_recounted l rs rs' :
  map_Forall2 (fun _ => recounted_route) rs rs' -> check_model_routes l rs' = check_model_routes l rs.
Proof.
  intros Hr. induction l as [|m l IH]; simpl; [done|]. destruct (related_lookup _ _ _ (pm_route_id m) Hr) as [r r' [_ ->]|]; [|done].
  simpl. by rewrite IH.
Qed.

Lemma add_access_groups_dom l (rs rs' : gmap RouteId SnapshotRoute) groups :
  dom rs' = dom rs -> add_access_groups l rs' groups = add_access_groups l rs groups.
Proof. intros Hd. revert groups. induction l as [|g l IH]; intros groups; simpl; [done|]. rewrite Hd. by rewrite IH. Qed.

Lemma snapshot_try_new_recounted input routes s :
  Forall2 recounted_route (si_routes input) routes -> snapshot_try_new input = Ok s ->
  exists s', snapshot_try_new (mkSnapshotInput (si_version input) (si_public_models input) (si_aliases input) routes
                                 (si_access_groups input) (si_client_keys input)) = Ok s' /\ recounted s s'.
Proof.
  intros Hr Hs. unfold snapshot_try_new in Hs |- *. cbn [si_version si_public_models si_aliases si_routes si_access_groups si_client_keys].
  apply result_bind_ok in Hs as (models & -> & Hs). cbn [result_bind]. apply result_bind_ok in Hs as (built & Hb & Hs).
  destruct (build_routes_recounted _ _ _ _ ∅ _ _ _ Hr (map_Forall2_empty _) Hb) as (rs & -> & Hrs). cbn [result_bind fst snd].
  rewrite (check_model_routes_recounted _ _ _ Hrs). apply result_bind_ok in Hs as (? & -> & Hs). cbn [result_bind].
  apply result_bind_ok in Hs as (als & -> & Hs). cbn [result_bind].
  rewrite (add_access_groups_dom _ built.1).
  2:{ apply set_eq. intros i. rewrite !elem_of_dom. symmetry. by apply (related_dom recounted_route built.1 rs). }
  apply result_bind_ok in Hs as (groups & -> & Hs). cbn [result_bind]. apply result_bind_ok in Hs as (keys & -> & [= <-]).
  eexists. split; [reflexivity|]. by constructor.
Qed.

Lemma snapshot_route_recounted r r' : recounted_compiled_route r r' -> recounted_route (snapshot_route r) (snapshot_route r').
Proof.
  intros [Hc Hr]. split; [|by rewrite Hr]. simpl. apply Forall2_fmap_2. eapply Forall2_impl; [exact Hc|].
  intros c c' [Hn ->]. by split.
Qed.

Section Snapshot.
Context {Url : Type} `{!UrlCrate Url} `{!JsonText}.

(** Covered credentials compile, and to the same snapshot up to binding counts. *)
Lemma compiled_snapshot_covered c cf credentials s :
  Forall2 covers (cf_credentials cf) credentials -> compiled_snapshot (Url := Url) c cf = Ok s ->
  exists s', compiled_snapshot (Url := Url) c (with_credentials credentials cf) = Ok s' /\ recounted s s'.
Proof.
  intros Hcr Hs. unfold compiled_snapshot in Hs |- *. apply result_bind_ok in Hs as (e & He & Hs).
  assert (Egress.compile (Url := Url) (with_credentials credentials cf) = Egress.compile cf) as -> by done. rewrite He. cbn [result_bind].
  apply result_bind_ok in Hs as (co & Hco & Hs). destruct (RouteCompiler.compile c cf) as [co0| |] eqn:Hc; [|done..].
  injection Hco as ->. destruct (compile_covered _ _ _ _ Hcr Hc) as (rs & -> & Hrs). cbn [map_err result_bind].
  unfold route_snapshot_from_compiled in Hs |- *. cbn [co_config_version_id].
  apply result_bind_ok in Hs as (v & -> & Hs). cbn [result_bind]. apply result_bind_ok in Hs as (keys & Hk & Hs).
  assert (snapshot_client_keys_from_configuration
    (mkCompiled (co_config_version_id co) (co_public_models co) (co_aliases co) rs (co_access_groups co)) (with_credentials credentials cf)
    = Ok keys) as -> by exact Hk. cbn [result_bind].
  destruct (snapshot_try_new (snapshot_input v co keys)) as [s0| |] eqn:Hn; [|done..]. injection Hs as ->.
  assert (Forall2 recounted_route (si_routes (snapshot_input v co keys)) (snapshot_route <$> id_values rs)) as Hroutes.
  { simpl. apply Forall2_fmap_2. eapply Forall2_impl; [by apply id_values_related|apply snapshot_route_recounted]. }
  destruct (snapshot_try_new_recounted _ _ _ Hroutes Hn) as (s' & Hs' & Hrec).
  unfold snapshot_input in Hs' |- *. cbn in Hs' |- *. rewrite Hs'. eauto.
Qed.

Lemma recounted_candidates_antisym l l' : Forall2 recounted_candidate l l' -> Forall2 recounted_candidate l' l -> l' = l.
Proof.
  induction 1 as [|c c' l l' [Hn Hc] _ IH]; intros Hl; inversion Hl as [|? ? ? ? [Hn' _] ?]; subst; [done|].
  f_equal; [|by apply IH]. rewrite Hc. replace (active_binding_count c') with (active_binding_count c) by lia. by destruct c.
Qed.

Lemma recounted_antisym s s' : recounted s s' -> recounted s' s -> s' = s.
Proof.
  intros [H1 [H2 H2'] H3 Hr H5 H6 H7] [_ _ _ Hr' _ _ _]. assert (routes s' = routes s) as H4.
  { apply map_eq. intros i. pose proof (Hr i) as Hi. pose proof (Hr' i) as Hi'.
    destruct (routes s !! i) as [r|] eqn:Ha, (routes s' !! i) as [r'|] eqn:Hb; inversion Hi as [? ? [Hc Heq]|]; subst; [|done].
    inversion Hi' as [? ? [Hc' _]|]; subst. f_equal. rewrite Heq, (recounted_candidates_antisym _ _ Hc Hc'). by destruct r. }
  destruct s, s'. simpl in *. congruence.
Qed.

(** Renewed credentials: the same snapshot up to binding counts, and the very same
    when every status is what it was. *)
Lemma compiled_snapshot_renewed c cf credentials s :
  Forall2 renewed (cf_credentials cf) credentials -> compiled_snapshot (Url := Url) c cf = Ok s ->
  exists s', compiled_snapshot (Url := Url) c (with_credentials credentials cf) = Ok s' /\ recounted s s'
    /\ (cr_status <$> cf_credentials cf = cr_status <$> credentials -> s' = s).
Proof.
  intros Hr Hs. assert (Forall2 covers (cf_credentials cf) credentials) as Hcov by (eapply Forall2_impl; [exact Hr|apply renewed_covers]).
  destruct (compiled_snapshot_covered c cf credentials s Hcov Hs) as (s' & Hs' & Hrec). exists s'. split_and!; [done..|].
  intros Heq. assert (Forall2 covers credentials (cf_credentials cf)) as Hback.
  { clear Hs Hs' Hrec Hr. induction Hcov as [|a b l l' (H1 & H2 & _) _ IH]; [constructor|]. injection Heq as Hst Heq.
    constructor; [|by apply IH]. split_and!; congruence. }
  destruct (compiled_snapshot_covered c (with_credentials credentials cf) (cf_credentials cf) s' Hback Hs') as (s0 & Hs0 & Hrec').
  assert (with_credentials (cf_credentials cf) (with_credentials credentials cf) = cf) as Hid by by destruct cf.
  rewrite Hid, Hs in Hs0. injection Hs0 as <-. by apply recounted_antisym.
Qed.
End Snapshot.
