(* ===== verification/PublisherProperties.v ===== *)
(** * What the publisher promises

    Theorems about [SnapshotPublisher] together with the store, the two compilers
    and the snapshot registry: what is served is the active stored version in every
    reachable state, errors change neither, and a restart restores the registry.

    [frozen] is what a management operation (one that activates and rotates nothing)
    leaves alone: the published versions, their rows and the audited transitions.
    [rotation] is what an OAuth rotation changes: one credential of the active
    version, which it makes active.  The served snapshot does not follow it, so
    [serves] relates a snapshot to the rows with the credentials it was built from. *)

From S2P Require Import Prelude Text Core Catalog ClientKey EgressPolicy SecretStore ControlPlane StoreRows StoreSchema ControlStore StoreProperties EgressCompiler RouteCompiler RouteSnapshot SnapshotPublisher CredentialRotation.
Import Publisher.
Local Open Scope string_scope.
Local Open Scope list_scope.
Local Open Scope Z_scope.

(** ** Management operations *)

Definition is_draft (v : ConfigVersion) : Prop := cv_status v = VersionDraft.

Record frozen (db0 db : Database) : Prop := {
  fz_keep : forall id v, db_versions db0 !! id = Some v -> ~ is_draft v ->
    db_versions db !! id = Some v /\ graph_at db id = graph_at db0 id;
  fz_new : forall id v, db_versions db !! id = Some v -> ~ is_draft v -> db_versions db0 !! id = Some v;
  fz_audit : forall id, latest_transition db id = latest_transition db0 id;
}.

Lemma frozen_refl db : frozen db db.
Proof. by constructor. Qed.

(** While a draft is written or edited. *)
Definition drafting (id : ConfigVersionId) (db0 db : Database) : Prop :=
  frozen db0 db /\ forall v, db_versions db !! id = Some v -> is_draft v.

(** Operations that activate and rotate nothing. *)
Definition manages (op : StoreOp) : Prop :=
  match op with
  | ActivateVersion _ | ActivateVersionWithAudit _ _ | RotateCredential _ _ _ => False
  | _ => store_op_typed op
  end.

Section Management.
Context `{!SqliteJson} (sqlite_fails : nat -> bool).

Lemma drafting_keeps id db0 stmt : keeps id (drafting id db0) stmt.
Proof.
  constructor. intros db n g [[Hk Hn Ha] Hd] _ _. split; [|done]. constructor; [|done|done].
  intros i v Hv Hs. destruct (Hk i v Hv Hs) as [Hi Hg]. split; [done|]. rewrite <- Hg. unfold graph_at. simpl.
  rewrite lookup_insert_ne; [done|]. intros <-. by apply Hs, Hd.
Qed.

Lemma drafting_audit id db0 : keeps_audit (drafting id db0).
Proof.
  intros db i draft n db' [[] ?]. unfold resource_audit_stmt. case_match; [|done]. intros [= _ <-].
  by split; [constructor|].
Qed.

Lemma drafting_insert db0 v db n db' :
  is_draft v -> drafting (cv_id v) db0 db -> insert_version_stmt v db = Some (n, db') -> drafting (cv_id v) db0 db'.
Proof.
  intros Hv [[Hk Hn Ha] Hd]. unfold insert_version_stmt. case_match eqn:Hc; [done|]. bool_simp. intros [= _ <-].
  split; [constructor|]; simpl.
  - intros i w Hw Hs. destruct (Hk i w Hw Hs) as [Hi Hg]. split; [|done]. rewrite lookup_insert_ne; [done|]. intros <-. eauto.
  - intros i w [[<- <-]|[_ Hw]]%lookup_insert_Some Hs; [done|by apply Hn].
  - done.
  - intros w Hw. rewrite lookup_insert_eq in Hw. by simplify_eq.
Qed.

Lemma write_frozen cf db0 :
  cf_typed cf -> triple (eq db0) (write_configuration_tx sqlite_fails cf) (fun _ => frozen db0).
Proof.
  intros Ht. destruct (decide (cv_status (cf_version cf) = VersionDraft)) as [Hd|Hd].
  2:{ unfold write_configuration_tx. rewrite bool_decide_eq_false_2 by done. apply triple_raise. }
  destruct (db_versions db0 !! cv_id (cf_version cf)) as [v|] eqn:Hv.
  - unfold write_configuration_tx. rewrite bool_decide_eq_true_2 by done. simpl.
    apply triple_bind with (Q := fun _ _ => False); [|intros _; by apply triple_false].
    apply triple_bind with (Q := fun _ _ => False); [|intros _; by apply triple_false].
    apply triple_execute. intros db n db' <-. unfold insert_version_stmt. by rewrite bool_decide_eq_true_2 by eauto.
  - eapply triple_weaken; [apply (write_tx_triple sqlite_fails (drafting (cv_id (cf_version cf)) db0)); [done|..]| |].
    + intros db n db'. by apply drafting_insert.
    + intros op _. apply drafting_keeps.
    + apply drafting_audit.
    + intros db <-. split; [apply frozen_refl|]. intros v. by rewrite Hv.
    + by intros a db [Hf _].
Qed.

Lemma created_frozen db0 draft id replaced db n db' :
  ad_action draft = AuditCreated -> frozen db0 db -> audit_stmt draft id replaced db = Some (n, db') -> frozen db0 db'.
Proof.
  intros Hc [Hk Hn Ha]. unfold audit_stmt. case_match; [|done]. intros [= _ <-]. constructor; [done|done|].
  intros i. rewrite <- Ha. unfold latest_transition. simpl. rewrite List.filter_app. simpl. unfold is_transition at 2. simpl.
  rewrite Hc, andb_false_r. by rewrite app_nil_r.
Qed.

Lemma bump_drafting id expected db0 db' : bump_stmt id expected db0 = Some (1, db') -> drafting id db0 db'.
Proof.
  unfold bump_stmt. destruct (db_versions db0 !! id) as [u|] eqn:Hu; [|done].
  destruct (bool_decide (cv_status u = VersionDraft) && (cv_revision u =? expected)) eqn:Hc; [|done].
  destruct (in_i64 (expected + 1)); [|done]. intros [= <-]. bool_simp. split; [constructor|]; simpl.
  - intros i w Hw Hs. split; [|done]. rewrite lookup_insert_ne; [done|]. intros <-. by simplify_eq.
  - intros i w [[<- <-]|[_ Hw]]%lookup_insert_Some Hs; [by destruct Hs|done].
  - done.
  - intros w Hw. rewrite lookup_insert_eq in Hw. by simplify_eq.
Qed.

Lemma op_body_frozen op db0 :
  manages op -> (forall cf draft, op = WriteConfigurationWithAudit cf draft -> ad_action draft = AuditCreated) ->
  triple (eq db0) (op_body sqlite_fails op) (fun _ => frozen db0).
Proof.
  intros Hm Hc. destruct op as [cf|cf draft|i|i draft|i expected ops|i draft|i c expected]; simpl in Hm; try done.
  - by apply write_frozen.
  - apply discard_triple with (Q := fun _ => frozen db0); [|done].
    apply triple_bind with (Q := fun _ => frozen db0); [by apply write_frozen|]. intros []. apply record_audit_triple with (Q := frozen db0). intros db n db'. apply created_frozen. by eapply Hc.
  - eapply discard_triple; [eapply (mutate_triple _ _ (drafting i db0) (drafting i db0))|].
    + intros db db' _ <-. apply bump_drafting.
    + apply apply_ops_triple; [intros op _; apply drafting_keeps|apply drafting_audit].
    + by intros a db [_ [Hf _]].
  - apply resource_event_triple. intros db n db' <-. unfold resource_audit_stmt. case_match; [|done]. intros [= _ <-].
    by constructor.
Qed.

(** Whatever a management operation does, the published versions stay. *)
Lemma management_op_frozen op s r s' :
  manages op -> run_op sqlite_fails op s = (r, s') -> frozen (st_db s) (st_db s').
Proof.
  intros Hm Hrun.
  assert ((forall cf draft, op = WriteConfigurationWithAudit cf draft -> ad_action draft = AuditCreated)
          \/ st_db s' = st_db s) as [Hc| ->]; [| |apply frozen_refl].
  { destruct op as [|cf draft| | | | |]; try (left; naive_solver). simpl in Hrun.
    unfold write_configuration_with_audit in Hrun. case_bool_decide; [left; naive_solver|]. right. by injection Hrun as _ <-. }
  pose proof (run_op_spec sqlite_fails _ op _ s r s' (op_body_frozen op (st_db s) Hm Hc) eq_refl Hrun) as Hs.
  destruct r; [done|rewrite Hs; apply frozen_refl..].
Qed.
End Management.

(** ** Activation *)

Definition archive_row (v : ConfigVersion) : ConfigVersion := if is_active v then set_status VersionArchived v else v.

(** The database after a version was activated with its audit event. *)
Definition activated_db (id : ConfigVersionId) (v : ConfigVersion) (events : list ManagementAuditEvent) (db : Database) : Database :=
  mkDb (<[id := set_status VersionActive v]> (archive_row <$> db_versions db)) (db_graphs db) (db_audit db ++ events)
    (db_resource_audit db).

Lemma version_id_inv text i : version_id_try_new text = Ok i -> i = mkVersionId text.
Proof. unfold version_id_try_new. case_bool_decide; [done|]. by intros [= <-]. Qed.

Section Activation.
Context `{!SqliteJson} (sqlite_fails : nat -> bool).

Lemma active_row_is db id v :
  db_ok db -> db_versions db !! id = Some v -> cv_status v = VersionActive -> active_row db = Some v.
Proof.
  intros Hok Hv Ha. destruct (active_row db) as [w|] eqn:Hr; [|by destruct (active_row_None db id v Hr Hv)].
  apply active_row_Some in Hr as (k & Hk & Hw). assert (k = id) as -> by by eapply (do_active db Hok). congruence.
Qed.

Lemma active_row_key db a : db_ok db -> active_row db = Some a -> db_versions db !! cv_id a = Some a /\ cv_status a = VersionActive.
Proof.
  intros Hok (k & Hk & Ha)%active_row_Some. destruct (do_versions db Hok k a Hk) as [<- _]. done.
Qed.

Lemma activate_tx_exact id db0 :
  triple (eq db0) (activate_version_tx sqlite_fails id) (fun a db => exists v, db_versions db0 !! id = Some v
    /\ cv_status v <> VersionActive /\ a = mkActivation id (cv_id <$> active_row db0) /\ db = activated_db id v [] db0).
Proof.
  unfold activate_version_tx.
  apply triple_bind with (Q := fun st db => st = cv_status <$> db_versions db0 !! id /\ db = db0);
    [by apply triple_query; intros db <-|].
  intros st. set (main := bind _ _).
  assert (forall v, db_versions db0 !! id = Some v -> cv_status v <> VersionActive ->
    triple (eq db0) main (fun a db => exists v, db_versions db0 !! id = Some v
    /\ cv_status v <> VersionActive /\ a = mkActivation id (cv_id <$> active_row db0) /\ db = activated_db id v [] db0)) as Hmain.
  { intros v Hv Hs. unfold main.
    apply triple_bind with (Q := fun text db => text = version_text ∘ cv_id <$> active_row db0 /\ db = db0);
      [by apply triple_query; intros db <-|]. intros text.
    apply triple_bind with (Q := fun replaced db => replaced = cv_id <$> active_row db0 /\ db = db0).
    { apply triple_lift. intros r db Hr [-> ->]. split; [|done]. destruct (active_row db0) as [a|]; simpl in Hr |- *; [|by injection Hr as <-].
      unfold result_bind in Hr. destruct (map_err _ _) as [i| |] eqn:Hi; [|done..]. injection Hr as <-. f_equal.
      unfold version_id_try_new in Hi. case_bool_decide; [done|]. injection Hi as <-. by destruct (cv_id a). }
    intros replaced.
    apply triple_bind with (Q := fun _ db => replaced = cv_id <$> active_row db0 /\ db = set_versions (archive_row <$> db_versions db0) db0).
    { apply triple_execute. intros db n db' [-> ->] [= _ <-]. done. }
    intros n. apply triple_bind with (Q := fun m db => replaced = cv_id <$> active_row db0 /\ (m = 1 -> db = activated_db id v [] db0)).
    { apply triple_execute. intros db m db' [-> ->]. unfold activate_stmt. simpl. rewrite lookup_fmap, Hv. simpl.
      case_match; [done|]. intros [= <- <-]. split; [done|]. intros _. unfold activated_db, set_versions. simpl.
      rewrite app_nil_r. do 2 f_equal. unfold archive_row, is_active. by rewrite bool_decide_eq_false_2. }
    intros m. destruct (Z.eqb_spec m 1) as [->|]; [|apply triple_raise]. apply triple_ret. intros db [-> Hdb]. exists v. auto. }
  assert (forall (P : Prop), (P -> triple (eq db0) main (fun a db => exists v, db_versions db0 !! id = Some v
    /\ cv_status v <> VersionActive /\ a = mkActivation id (cv_id <$> active_row db0) /\ db = activated_db id v [] db0)) ->
    triple (fun db => P /\ db = db0) main (fun a db => exists v, db_versions db0 !! id = Some v
    /\ cv_status v <> VersionActive /\ a = mkActivation id (cv_id <$> active_row db0) /\ db = activated_db id v [] db0)) as Hpure.
  { intros P HP s a s' [Hp Hdb]. by apply HP. }
  destruct st as [[]|]; try apply triple_raise; apply Hpure; intros Hst;
    (destruct (db_versions db0 !! id) as [v|] eqn:Hv; [|done]); simpl in Hst; (apply (Hmain v); [done|congruence]).
Qed.

(** An activation with its audit event, exactly. *)
Lemma activate_with_audit_exact id draft s a e s' :
  activate_version_with_audit sqlite_fails id draft s = (Ok (a, e), s') ->
  exists v, db_versions (st_db s) !! id = Some v /\ cv_status v <> VersionActive
    /\ a = mkActivation id (cv_id <$> active_row (st_db s))
    /\ exists ev, st_db s' = activated_db id v [ev] (st_db s) /\ ae_config_version_id ev = id
         /\ ae_replaced_config_version_id ev = cv_id <$> active_row (st_db s) /\ ae_action ev = ad_action draft
         /\ (ad_action draft = AuditPublished \/ ad_action draft = AuditRolledBack).
Proof.
  unfold activate_version_with_audit.
  destruct (bool_decide (ad_action draft = AuditPublished) || bool_decide (ad_action draft = AuditRolledBack)) eqn:Hact; [|done].
  simpl. intros Hrun. apply orb_true_iff in Hact.
  eapply (transaction_spec sqlite_fails (eq (st_db s)) _ (fun r db => exists v, db_versions (st_db s) !! id = Some v
    /\ cv_status v <> VersionActive /\ r.1 = mkActivation id (cv_id <$> active_row (st_db s))
    /\ exists ev, db = activated_db id v [ev] (st_db s) /\ ae_config_version_id ev = id
         /\ ae_replaced_config_version_id ev = cv_id <$> active_row (st_db s) /\ ae_action ev = ad_action draft)) in Hrun; [|clear Hrun|done].
  - destruct Hrun as (v & Hv & Hs & Ha & ev & Hdb & He1 & He2 & He3). exists v. split_and!; [done|done|done|].
    exists ev. split_and!; [done..|]. by destruct Hact as [->%bool_decide_eq_true| ->%bool_decide_eq_true]; auto.
  - eapply triple_bind; [apply activate_tx_exact|]. intros act. cbv beta.
    eapply triple_bind with (Q := fun _ db => exists v, db_versions (st_db s) !! id = Some v
      /\ cv_status v <> VersionActive /\ act = mkActivation id (cv_id <$> active_row (st_db s))
      /\ exists ev, db = activated_db id v [ev] (st_db s) /\ ae_config_version_id ev = id
         /\ ae_replaced_config_version_id ev = cv_id <$> active_row (st_db s) /\ ae_action ev = ad_action draft).
    + apply record_audit_triple. intros db n db' (v & Hv & Hs & -> & ->). unfold audit_stmt. case_match; [|done].
      intros [= _ <-]. exists v. split_and!; [done..|]. unfold activated_db. simpl. rewrite app_nil_r.
      eexists. split; [reflexivity|]. by simpl.
    + intros e'. apply triple_ret. done.
Qed.

(** A failed activation is rolled back. *)
Lemma activate_failed_keeps id draft s r s' :
  activate_version_with_audit sqlite_fails id draft s = (r, s') -> (forall x, r <> Ok x) -> st_db s' = st_db s.
Proof.
  unfold activate_version_with_audit. case_match; [by intros [= _ <-]|]. intros Hrun Hr.
  eapply (transaction_spec sqlite_fails (fun _ => True) _ (fun _ _ => True)) in Hrun; [|by intros ?|done].
  destruct r; [by destruct (Hr a)|done..].
Qed.

Lemma activate_plain_failed id s r s' :
  activate_version sqlite_fails id s = (r, s') -> (forall x, r <> Ok x) -> st_db s' = st_db s.
Proof.
  unfold activate_version. intros Hrun Hr.
  eapply (transaction_spec sqlite_fails (fun _ => True) _ (fun _ _ => True)) in Hrun; [|by intros ?|done].
  destruct r; [by destruct (Hr a)|done..].
Qed.
End Activation.

(** ** Credential rotation *)

(** One credential of one version was renewed, and nothing else that is served. *)
Record rotation (id : ConfigVersionId) (credential : CredentialConfiguration) (db0 db : Database) : Prop := {
  ro_versions : db_versions db = db_versions db0;
  ro_audit : db_audit db = db_audit db0;
  ro_row : exists old, StoreSchema.g_credentials (graph_at db0 id) !! cr_id credential = Some old /\ cr_id credential = cr_id old
    /\ cr_upstream_id credential = cr_upstream_id old /\ cr_revision old < cr_revision credential;
  ro_graph : graph_at db id = put credential (graph_at db0 id);
  ro_others : forall i, i <> id -> graph_at db i = graph_at db0 i;
}.

Section Rotation.
Context `{!SqliteJson} (sqlite_fails : nat -> bool).

Lemma rotate_and_record_inv id credential expected draft s r s' :
  db_ok (st_db s) -> secret_ok (cr_encrypted_secret credential) ->
  rotate_and_record sqlite_fails id credential expected draft s = (r, s') ->
  db_ok (st_db s') /\ (st_db s' = st_db s \/ rotation id credential (st_db s) (st_db s')).
Proof.
  intros Hok Hsec Hrun. set (db0 := st_db s) in *.
  assert (triple (eq db0) (rotate_active_credential sqlite_fails id credential expected)
            (fun _ db => db_ok db /\ rotation id credential db0 db)) as Hrot.
  { intros s0 a s1 Hs0 Hr. split; [apply (op_body_db_ok sqlite_fails (RotateCredential id credential expected) Hsec s0 a s1); [by rewrite <- Hs0|done]|].
    refine (rotate_updates sqlite_fails (eq db0) id credential expected (rotation id credential db0) _ s0 a s1 Hs0 Hr). intros db db' <- (v & Hv & _) Hrev. unfold on_graph.
    replace (version_exists db0 id) with true by (symmetry; apply bool_decide_eq_true_2; by exists v).
    destruct (update_stmt _ _ _ _) as [[n g]|] eqn:Hs; [|done]. intros [= -> <-].
    apply update_stmt_inv in Hs as [[? _]|(_ & -> & Hf & old & Hold & Hown)]; [done|]. bool_simp.
    constructor; [done|done| | |].
    - exists old. split_and!; [done| |done|lia].
      by destruct (ok_credentials _ (proj1 (graph_at_ok db0 id Hok)) _ _ Hold).
    - unfold graph_at. simpl. by rewrite lookup_insert_eq.
    - intros i Hi. unfold graph_at. simpl. by rewrite lookup_insert_ne. }
  apply (transaction_spec sqlite_fails (eq db0) _ (fun _ db => db_ok db /\ rotation id credential db0 db)) in Hrun; [| |done].
  - destruct r; [by destruct Hrun; auto|rewrite Hrun; auto..].
  - eapply triple_bind; [exact Hrot|]. intros []. apply triple_bind with (Q := fun _ db => db_ok db /\ rotation id credential db0 db);
      [|intros n; by apply triple_ret].
    apply triple_execute. intros db n db' [Hd [H1 H2 H3 H4 H5]] Ha. split; [by eapply db_ok_audit|].
    unfold resource_audit_stmt in Ha. case_match; [|done]. injection Ha as _ <-. by constructor.
Qed.

(** The renewed rows, in the order the loader gives them. *)
Lemma rotation_renews id credential db0 db v :
  cr_status credential = CredentialActive -> rotation id credential db0 db -> cv_id v = id ->
  Forall2 renewed (cf_credentials (configuration_at db0 v)) (cf_credentials (configuration_at db v))
  /\ forall l, with_credentials l (configuration_at db v) = with_credentials l (configuration_at db0 v).
Proof.
  intros Hact [_ _ (old & Hold & Hcr & Hup & Hrev) Hg _] Hid. unfold configuration_at. rewrite Hid, Hg. split; [|done].
  apply sorted_values_related; [apply id_order|]. intros k. simpl. destruct (decide (k = cr_id credential)) as [->|Hne].
  - rewrite lookup_insert_eq, Hold. constructor. by right.
  - rewrite lookup_insert_ne by done. destruct (_ !! k); constructor. reflexivity.
Qed.
End Rotation.

(** ** What the rows of a version serve *)

(** The version a rollback of the active version would restore. *)
Definition predecessor (db : Database) (id : ConfigVersionId) : option ConfigVersionId :=
  latest_transition db id ≫= ae_replaced_config_version_id.

Section Serving.
Context {Url : Type} `{!UrlCrate Url} `{!JsonText} `{!SqliteJson} (c : RouteCompiler).
Context (K : relation CredentialConfiguration) `{!Renewal K}.

(** What the rows of a version serve: a snapshot that the compilers built from them,
    with the credentials as they were when it was built. *)
Definition built (db : Database) (v : ConfigVersion) (snapshot : RouteSnapshot) : Prop :=
  exists credentials, Forall2 K credentials (cf_credentials (configuration_at db v))
    /\ compiled_snapshot (Url := Url) c (with_credentials credentials (configuration_at db v)) = Ok snapshot.

(** A published version and a snapshot built from its rows. *)
Definition serves (db : Database) (id : ConfigVersionId) (snapshot : RouteSnapshot) : Prop :=
  exists v, db_versions db !! id = Some v /\ ~ is_draft v /\ built db v snapshot.

(** The snapshot of the rows as they are. *)
Definition compiles (db : Database) (id : ConfigVersionId) (snapshot : RouteSnapshot) : Prop :=
  exists v, db_versions db !! id = Some v /\ ~ is_draft v
    /\ compiled_snapshot (Url := Url) c (configuration_at db v) = Ok snapshot.

Lemma built_now db v snapshot : compiled_snapshot (Url := Url) c (configuration_at db v) = Ok snapshot -> built db v snapshot.
Proof. intros Hc. exists (cf_credentials (configuration_at db v)). by split. Qed.

Lemma built_recounted db v snapshot :
  built db v snapshot -> exists s, compiled_snapshot (Url := Url) c (configuration_at db v) = Ok s /\ recounted snapshot s.
Proof.
  intros (credentials & Hr & Hc). eapply Forall2_impl in Hr; [|apply renewal_renews].
  destruct (compiled_snapshot_renewed c (with_credentials credentials (configuration_at db v)) (cf_credentials (configuration_at db v)) _ Hr Hc)
    as (s & Hs & Hrec & _). by exists s.
Qed.

(** Of the version row only the identifier reaches the snapshot. *)
Lemma built_rows db db' v v' snapshot :
  cv_id v = cv_id v' -> graph_at db (cv_id v) = graph_at db' (cv_id v) -> built db v snapshot -> built db' v' snapshot.
Proof.
  intros Hid Hg (credentials & Hr & Hc). unfold built, configuration_at in *. rewrite <- Hid, <- Hg. exists credentials. split; [done|].
  rewrite <- Hc. unfold compiled_snapshot, RouteCompiler.compile. cbn [cf_version with_credentials]. by rewrite <- Hid.
Qed.

Lemma compiled_snapshot_version cf snapshot :
  compiled_snapshot (Url := Url) c cf = Ok snapshot -> version snapshot = version_text (cv_id (cf_version cf)).
Proof.
  unfold compiled_snapshot. destruct (Egress.compile cf) as [e| |]; [|done..]. cbn [map_err result_bind].
  pose proof (compile_decides c cf) as Hd. destruct (RouteCompiler.compile c cf) as [compiled| |]; [|done..].
  destruct Hd as [_ Has]. apply as_version in Has. cbn [map_err result_bind]. unfold route_snapshot_from_compiled.
  destruct (snapshot_version_try_new _) as [v| |] eqn:Hv; [|done..]. cbn [map_err result_bind].
  unfold snapshot_version_try_new in Hv. case_bool_decide; [done|]. injection Hv as <-.
  destruct (snapshot_client_keys_from_configuration compiled cf) as [keys| |]; [|done..]. cbn [result_bind].
  destruct (snapshot_try_new _) as [s| |] eqn:Hs; [|done..]. intros [= <-]. rewrite <- Has.
  unfold snapshot_try_new in Hs. repeat (case_match; [|done..]; cbn [result_bind] in Hs).
  repeat match type of Hs with (result_bind ?r _ = _) => destruct r; [cbn [result_bind] in Hs|done..] end.
  by injection Hs as <-.
Qed.

Lemma serves_version db id snapshot : db_ok db -> serves db id snapshot -> version snapshot = version_text id.
Proof.
  intros Hok (v & Hv & _ & credentials & _ & Hc). apply compiled_snapshot_version in Hc. by destruct (do_versions db Hok id v Hv) as [<- _].
Qed.

Lemma serves_compiles db id s : serves db id s -> exists s', compiles db id s' /\ recounted s s'.
Proof. intros (v & Hv & Hd & Hb). destruct (built_recounted _ _ _ Hb) as (s' & Hs' & Hr). exists s'. split; [by exists v|done]. Qed.

Lemma compiles_serves db id s : compiles db id s -> serves db id s.
Proof. intros (v & Hv & Hd & Hc). exists v. split_and!; [done..|]. by apply built_now. Qed.

Lemma compiles_unique db id s1 s2 : compiles db id s1 -> compiles db id s2 -> s1 = s2.
Proof. intros (v & Hv & _ & H1) (w & Hw & _ & H2). simplify_eq. by rewrite H1 in H2; simplify_eq. Qed.

Lemma serves_frozen db0 db id s : db_ok db0 -> frozen db0 db -> serves db0 id s -> serves db id s.
Proof.
  intros Hok [Hk _ _] (v & Hv & Hs & Hc). destruct (Hk id v Hv Hs) as [Hv' Hg]. exists v. split_and!; [done..|].
  eapply built_rows; [done| |exact Hc]. by destruct (do_versions db0 Hok id v Hv) as [-> _].
Qed.

(** Activation changes only statuses. *)
Lemma serves_activated db id v events i s :
  db_ok db -> db_versions db !! id = Some v -> serves db i s -> serves (activated_db id v events db) i s.
Proof.
  intros Hok Hv (w & Hw & Hs & Hc). unfold serves. simpl. destruct (decide (id = i)) as [->|Hne].
  - rewrite lookup_insert_eq. simplify_eq. eexists. split; [done|]. split; [done|]. by eapply built_rows; [..|exact Hc].
  - rewrite lookup_insert_ne, lookup_fmap, Hw by done. simpl. eexists. split; [done|]. split.
    + unfold archive_row, is_draft. by case_match.
    + apply (built_rows db _ w); [unfold archive_row; by case_match|done|exact Hc].
Qed.

(** ** The published version and the served snapshot *)

Record in_step (w : World) : Prop := {
  is_ok : db_ok (st_db (w_store w));
  is_compiler : compiler (w_service w) = c;
  is_open : publication_poisoned (w_registry w) = false;
  is_distinct : registry_ok (w_registry w);
  is_serving :
    let db := st_db (w_store w) in
    match active_row db with
    | None => empty_bootstrap_snapshot = Ok (current (w_registry w)) /\ previous (w_registry w) = None
              /\ synthetic_bootstrap_version (w_service w) = Some (version (current (w_registry w)))
    | Some a =>
        serves db (cv_id a) (current (w_registry w)) /\
        match previous (w_registry w) with
        | None => predecessor db (cv_id a) = None
        | Some p =>
            (predecessor db (cv_id a) = None /\ empty_bootstrap_snapshot = Ok p
             /\ synthetic_bootstrap_version (w_service w) = Some (version p))
            \/ exists i, predecessor db (cv_id a) = Some i /\ i <> cv_id a /\ serves db i p
        end
    end;
}.

(** A transition of the store that is committed to the registry keeps step. *)
Lemma transition_in_step w next id v ev s' :
  in_step w -> version (current (w_registry w)) <> version next ->
  db_versions (st_db (w_store w)) !! id = Some v -> cv_status v <> VersionActive ->
  built (st_db (w_store w)) v next ->
  st_db s' = activated_db id v [ev] (st_db (w_store w)) -> db_ok (st_db s') ->
  ae_config_version_id ev = id -> ae_replaced_config_version_id ev = cv_id <$> active_row (st_db (w_store w)) ->
  ae_action ev = AuditPublished \/ ae_action ev = AuditRolledBack ->
  in_step (mkWorld s' (mkService c (mkSnapshotRegistry next (Some (current (w_registry w))) false)
                         (synthetic_bootstrap_version (w_service w)))).
Proof.
  intros [Hok Hc Hopen _ Hserv] Hver Hv Hs Hnext Hdb Hok' He1 He2 He3.
  constructor; [done|done|done|by intros p [= <-]|]. simpl.
  destruct (do_versions _ Hok id v Hv) as [Hid _].
  assert (active_row (st_db s') = Some (set_status VersionActive v)) as ->.
  { apply (active_row_is _ id); [done| |done]. rewrite Hdb. simpl. by rewrite lookup_insert_eq. }
  assert (predecessor (st_db s') id = cv_id <$> active_row (st_db (w_store w))) as Hpred.
  { unfold predecessor, latest_transition. rewrite Hdb. simpl. rewrite List.filter_app. simpl. unfold is_transition at 2.
    rewrite He1, bool_decide_eq_true_2 by done. simpl.
    assert (bool_decide (ae_action ev = AuditPublished) || bool_decide (ae_action ev = AuditRolledBack) = true) as ->
      by (destruct He3 as [-> | ->]; done). by rewrite last_snoc. }
  simpl. rewrite Hid. split.
  - rewrite Hdb. unfold serves. simpl. rewrite lookup_insert_eq. eexists. split; [done|]. split; [done|].
    by eapply built_rows; [..|exact Hnext].
  - rewrite Hpred. cbv zeta in Hserv. destruct (active_row (st_db (w_store w))) as [a|] eqn:Ha; simpl.
    + right. exists (cv_id a). destruct Hserv as [Hserv _]. destruct (active_row_key _ _ Hok Ha) as [Hka Hact]. split_and!; [done| |].
      * intros Heq. rewrite Heq in Hka. by simplify_eq.
      * rewrite Hdb. by apply serves_activated.
    + left. by destruct Hserv as (? & ? & ?).
Qed.
End Serving.

(** ** The steps of the service *)

(** Neither the database nor the registry moved. *)
Definition unchanged (w w' : World) : Prop := st_db (w_store w') = st_db (w_store w) /\ w_service w' = w_service w.

Definition failed {E A} (r : result E A) : Prop := forall a, r <> Ok a.

Section Steps.
Context {Url : Type} `{!UrlCrate Url} `{!JsonText} `{!SqliteJson} (sqlite_fails : nat -> bool).

Lemma repository_inv {A} (m : M Store StoreError A) w r w' :
  repository m w = (r, w') ->
  exists r0 s, m (w_store w) = (r0, s) /\ r = map_err StoreFailure r0 /\ w' = mkWorld s (w_service w).
Proof. unfold repository, stored. destruct (m (w_store w)) as [r0 s]. intros [= <- <-]. by exists r0, s. Qed.

(** The durable half: the activation that was committed. *)
Definition activated_by (audit : option ManagementAuditEventDraft) (id : ConfigVersionId) (s : Store)
    (a : ConfigVersionActivation) (e : option ManagementAuditEvent) (s' : Store) : Prop :=
  match audit with
  | Some draft => exists ev, e = Some ev /\ activate_version_with_audit sqlite_fails id draft s = (Ok (a, ev), s')
  | None => e = None /\ activate_version sqlite_fails id s = (Ok a, s')
  end.

Lemma activate_inv id audit w r w' :
  activate sqlite_fails id audit w = (r, w') ->
  (exists a e s', r = Ok (a, e) /\ w' = mkWorld s' (w_service w) /\ activated_by audit id (w_store w) a e s')
  \/ (unchanged w w' /\ failed r).
Proof.
  unfold activate, bind, ret. destruct audit as [draft|].
  - destruct (repository _ w) as [r1 w1] eqn:Hr. apply repository_inv in Hr as (r0 & s & Hm & -> & ->).
    destruct r0 as [[a ev]|e|]; simpl; intros [= <- <-]; [left; by exists a, (Some ev), s; eauto|right..];
      (split; [|done]); (split; [|done]); by eapply activate_failed_keeps.
  - destruct (repository _ w) as [r1 w1] eqn:Hr. apply repository_inv in Hr as (r0 & s & Hm & -> & ->).
    destruct r0 as [a|e|]; simpl; intros [= <- <-]; [left; by exists a, None, s|right..];
      (split; [|done]); (split; [|done]); by eapply activate_plain_failed.
Qed.

(** Publication: refused without a trace, or the whole transition. *)
Lemma publish_inv id audit w r w' :
  db_ok (st_db (w_store w)) ->
  publish_version_with_optional_audit (Url := Url) sqlite_fails id audit w = (r, w') ->
  (unchanged w w' /\ failed r)
  \/ exists v next a e s1 s2, db_versions (st_db (w_store w)) !! id = Some v
       /\ compiled_snapshot (Url := Url) (compiler (w_service w)) (configuration_at (st_db (w_store w)) v) = Ok next
       /\ prepare_publication (w_registry w) next = Ok (mkPrepared next (current (w_registry w)))
       /\ st_db s1 = st_db (w_store w) /\ activated_by audit id s1 a e s2
       /\ r = Ok (mkPublication a (mkTransition (version (current (w_registry w))) (version next)) e)
       /\ w' = mkWorld s2 (mkService (compiler (w_service w))
                 (mkSnapshotRegistry next (Some (current (w_registry w))) (publication_poisoned (w_registry w)))
                 (synthetic_bootstrap_version (w_service w))).
Proof.
  intros Hok Hrun. unfold publish_version_with_optional_audit in Hrun. unfold bind at 1 in Hrun.
  destruct (repository _ w) as [r1 w1] eqn:Hl. apply repository_inv in Hl as (r0 & s1 & Hl & -> & ->).
  destruct (load_configuration_reads sqlite_fails id _ _ _ Hok Hl) as [Hdb [[-> _]| ->]].
  { injection Hrun as <- <-. left. by split. }
  cbn [map_err] in Hrun. destruct (db_versions (st_db (w_store w)) !! id) as [v|] eqn:Hv; [|injection Hrun as <- <-; left; by split].
  unfold bind at 1, lift at 1, get at 1 in Hrun. simpl in Hrun. unfold bind at 1, get in Hrun. simpl in Hrun.
  unfold bind at 1, lift at 1 in Hrun.
  destruct (compiled_snapshot _ _) as [next|e|] eqn:Hc; [|injection Hrun as <- <-; left; by split..].
  unfold bind at 1, reserve in Hrun. unfold w_registry at 1 in Hrun. cbn [w_service] in Hrun.
  destruct (prepare_publication (registry (w_service w)) next) as [p|e|] eqn:Hp; [|injection Hrun as <- <-; left; by split..].
  assert (p = mkPrepared next (current (w_registry w))) as ->.
  { unfold prepare_publication in Hp. repeat case_match; simplify_eq. done. }
  cbn [map_err] in Hrun. unfold bind at 1 in Hrun. destruct (activate sqlite_fails id audit _) as [r2 w2] eqn:Ha.
  destruct (activate_inv _ _ _ _ _ Ha) as [(a & e & s2 & -> & -> & Hby)|[[Hu1 Hu2] Hf]].
  - right. simpl in Hby. simpl in Hrun. injection Hrun as <- <-. exists v, next, a, e, s1, s2. by split_and!.
  - left. simpl in Hu1, Hu2. destruct r2 as [x|e|]; [by destruct (Hf x)|..]; injection Hrun as <- <-;
      (split; [split; [by rewrite Hu1|done]|done]).
Qed.

(** Rollback: likewise. *)
Lemma rollback_inv audit w r w' :
  rollback_with_optional_audit sqlite_fails audit w = (r, w') ->
  (unchanged w w' /\ failed r)
  \/ exists next a e s2, previous (w_registry w) = Some next /\ version (current (w_registry w)) <> version next
       /\ synthetic_bootstrap_version (w_service w) <> Some (version next)
       /\ activated_by audit (mkVersionId (version next)) (w_store w) a e s2
       /\ r = Ok (mkPublication a (mkTransition (version (current (w_registry w))) (version next)) e)
       /\ w' = mkWorld s2 (mkService (compiler (w_service w))
                 (mkSnapshotRegistry next (Some (current (w_registry w))) (publication_poisoned (w_registry w)))
                 (synthetic_bootstrap_version (w_service w))).
Proof.
  intros Hrun. unfold rollback_with_optional_audit in Hrun. unfold bind at 1, reserve in Hrun.
  destruct (prepare_rollback (w_registry w)) as [p|e|] eqn:Hp; [|injection Hrun as <- <-; left; by split..].
  assert (exists next, previous (w_registry w) = Some next /\ version (current (w_registry w)) <> version next
    /\ p = mkPrepared next (current (w_registry w))) as (next & Hprev & Hver & ->).
  { unfold prepare_rollback in Hp. repeat (case_match; simplify_eq). bool_simp. eauto. }
  cbn [map_err] in Hrun. unfold bind at 1, get in Hrun. cbn [prepared_next] in Hrun.
  case_bool_decide as Hsyn; [injection Hrun as <- <-; left; by split|].
  unfold bind at 1, lift in Hrun. destruct (version_id_try_new (version next)) as [i|e|] eqn:Hi;
    [|injection Hrun as <- <-; left; by split..].
  apply version_id_inv in Hi as ->. cbn [map_err] in Hrun. unfold bind at 1 in Hrun.
  destruct (activate sqlite_fails _ audit w) as [r2 w2] eqn:Ha.
  destruct (activate_inv _ _ _ _ _ Ha) as [(a & e & s2 & -> & -> & Hby)|[Hu Hf]].
  - right. simpl in Hrun. injection Hrun as <- <-. exists next, a, e, s2. by split_and!.
  - left. destruct r2 as [x|e|]; [by destruct (Hf x)|..]; injection Hrun as <- <-; (split; [exact Hu|done]).
Qed.

Context (c : RouteCompiler) (K : relation CredentialConfiguration) `{!Renewal K}.

Abbreviation in_step := (in_step (Url := Url) c K).

Lemma unchanged_in_step w w' : unchanged w w' -> in_step w -> in_step w'.
Proof.
  destruct w as [s sv], w' as [s' sv']. intros [Hdb Hsv] [H1 H2 H3 H4 H5]. simpl in *. subst sv'.
  constructor; simpl; rewrite ?Hdb; assumption.
Qed.

Lemma audited_ok id draft s a ev s' :
  db_ok (st_db s) -> activate_version_with_audit sqlite_fails id draft s = (Ok (a, ev), s') -> db_ok (st_db s').
Proof.
  intros Hok Ha. apply (run_op_db_ok sqlite_fails (ActivateVersionWithAudit id draft) s (Ok tt) s' Logic.I Hok).
  simpl. unfold discard, bind. by rewrite Ha.
Qed.

Lemma publish_in_step id draft w r w' :
  in_step w -> publish_version_with_audit (Url := Url) sqlite_fails id draft w = (r, w') -> in_step w'.
Proof.
  intros Hw. unfold publish_version_with_audit. case_match; [by intros [= _ <-]|]. intros Hrun. pose proof Hw as [Hok Hc Hopen _ _].
  destruct (publish_inv _ _ _ _ _ Hok Hrun) as [[Hu _]|(v & next & a & e & s1 & s2 & Hv & Hnext & Hp & Hdb & (ev & -> & Hact) & _ & ->)].
  { by eapply unchanged_in_step. }
  assert (db_ok (st_db s2)) as Hok2 by (eapply audited_ok; [|done]; by rewrite Hdb).
  destruct (activate_with_audit_exact _ _ _ _ _ _ _ Hact) as (v' & Hv' & Hs & _ & ev' & Hdb2 & He1 & He2 & He3 & Hact').
  rewrite Hdb in *. assert (v' = v) as -> by congruence. rewrite Hopen. rewrite Hc in Hnext |- *.
  assert (version (current (w_registry w)) <> version next) as Hdist.
  { unfold prepare_publication in Hp. repeat (case_match; simplify_eq). by bool_simp. }
  eapply transition_in_step; try done; [by apply built_now|by rewrite He3].
Qed.

Lemma rollback_in_step draft w r w' :
  in_step w -> rollback_with_audit sqlite_fails draft w = (r, w') -> in_step w'.
Proof.
  intros Hw. unfold rollback_with_audit. case_match; [by intros [= _ <-]|]. intros Hrun. pose proof Hw as [Hok Hc Hopen _ Hserv].
  destruct (rollback_inv _ _ _ _ Hrun) as [[Hu _]|(next & a & e & s2 & Hprev & Hdist & Hsyn & (ev & -> & Hact) & _ & ->)].
  { by eapply unchanged_in_step. }
  assert (db_ok (st_db s2)) as Hok2 by by eapply audited_ok.
  destruct (activate_with_audit_exact _ _ _ _ _ _ _ Hact) as (v & Hv & Hs & _ & ev' & Hdb2 & He1 & He2 & He3 & Hact').
  rewrite Hopen, Hc. eapply (transition_in_step (Url := Url)); try done; [|by rewrite He3].
  cbv zeta in Hserv. rewrite Hprev in Hserv. destruct (active_row (st_db (w_store w))) as [act|]; [|by destruct Hserv as (_ & ? & _)].
  destruct Hserv as [_ [(_ & _ & ?)|(i & _ & _ & Hi)]]; [done|].
  pose proof (serves_version c K _ _ _ Hok Hi) as Hver. destruct Hi as (u & Hu & _ & Hcu).
  rewrite Hver in Hv. destruct i. simpl in Hv. by simplify_eq.
Qed.

Lemma validate_in_step id w r w' :
  in_step w -> validate_version (Url := Url) sqlite_fails id w = (r, w') -> unchanged w w'.
Proof.
  intros Hw Hrun. pose proof Hw as [Hok _ _ _ _]. unfold validate_version in Hrun. unfold bind at 1 in Hrun.
  destruct (repository _ w) as [r1 w1] eqn:Hl. apply repository_inv in Hl as (r0 & s1 & Hl & -> & ->).
  destruct (load_configuration_reads sqlite_fails id _ _ _ Hok Hl) as [Hdb _].
  unfold_m. unfold ok_or, map_err in Hrun. repeat (case_match; simplify_eq/=); by split.
Qed.

(** A step of the store that moves no published version keeps step. *)
Lemma store_in_step w s :
  in_step w -> db_ok (st_db s) -> active_row (st_db s) = active_row (st_db (w_store w)) ->
  (forall i, latest_transition (st_db s) i = latest_transition (st_db (w_store w)) i) ->
  (forall i snapshot, serves (Url := Url) c K (st_db (w_store w)) i snapshot -> serves (Url := Url) c K (st_db s) i snapshot) ->
  in_step (mkWorld s (w_service w)).
Proof.
  intros [Hok Hc Hopen Hdist Hserv] Hok' Hact Haudit Hkeep. constructor; [done..|]. cbv zeta in *. unfold w_registry, predecessor in *.
  cbn [w_store w_service] in *. rewrite Hact. destruct (active_row (st_db (w_store w))) as [a|]; [|done]. rewrite Haudit.
  destruct Hserv as [Hcur Hprev]. split; [auto|]. destruct (previous _) as [p|]; [|done].
  destruct Hprev as [?|(i & ? & ? & Hi)]; [by left|]. right. exists i. auto.
Qed.

Lemma manage_in_step op w r s :
  in_step w -> manages op -> run_op sqlite_fails op (w_store w) = (r, s) -> in_step (mkWorld s (w_service w)).
Proof.
  intros Hw Hm Hrun. pose proof (is_ok _ _ _ Hw) as Hok. pose proof (management_op_frozen sqlite_fails op _ _ _ Hm Hrun) as Hf.
  assert (db_ok (st_db s)) as Hok'.
  { eapply run_op_db_ok; [|done|done]. destruct op; simpl in Hm |- *; done. }
  apply store_in_step; [done|done| |apply (fz_audit _ _ Hf)|by intros i snapshot; apply serves_frozen].
  destruct (active_row (st_db (w_store w))) as [a|] eqn:Ha.
  - destruct (active_row_key _ _ Hok Ha) as [Hk Hact]. apply (active_row_is _ (cv_id a)); [done| |done].
    apply (fz_keep _ _ Hf); [done|]. unfold is_draft. congruence.
  - destruct (active_row (st_db s)) as [b|] eqn:Hb; [|done]. destruct (active_row_key _ _ Hok' Hb) as [Hk Hact].
    apply (fz_new _ _ Hf) in Hk; [|unfold is_draft; congruence]. by destruct (active_row_None _ _ _ Ha Hk).
Qed.

End Steps.

(** ** Steps of a rotation *)

Section Rotating.
Context {Url : Type} `{!UrlCrate Url} `{!JsonText} `{!SqliteJson} (sqlite_fails : nat -> bool) (c : RouteCompiler).

(** Rotation renews credentials, and what was built before stays built. *)
Lemma serves_rotated db0 db id credential i s :
  db_ok db0 -> cr_status credential = CredentialActive -> rotation id credential db0 db -> serves (Url := Url) c renewed db0 i s -> serves (Url := Url) c renewed db i s.
Proof.
  intros Hok Hact Hrot (v & Hv & Hd & Hb). exists v. rewrite (ro_versions _ _ _ _ Hrot). split_and!; [done..|].
  destruct (do_versions db0 Hok i v Hv) as [Hid _]. destruct (decide (i = id)) as [->|Hne].
  - destruct (rotation_renews id credential db0 db v Hact Hrot Hid) as [Hren Hwith]. destruct Hb as (credentials & Hr & Hc).
    exists credentials. rewrite Hwith. split; [by etrans|done].
  - eapply built_rows; [done| |exact Hb]. rewrite Hid. symmetry. by apply (ro_others _ _ _ _ Hrot).
Qed.

Lemma rotate_in_step id credential expected draft w r s :
  in_step (Url := Url) c renewed w -> cr_status credential = CredentialActive -> secret_ok (cr_encrypted_secret credential) ->
  rotate_and_record sqlite_fails id credential expected draft (w_store w) = (r, s) -> in_step (Url := Url) c renewed (mkWorld s (w_service w)).
Proof.
  intros Hw Hact Hsec Hrun. pose proof (is_ok _ _ _ Hw) as Hok.
  destruct (rotate_and_record_inv sqlite_fails _ _ _ _ _ _ _ Hok Hsec Hrun) as [Hok' [Hsame|Hrot]].
  - apply store_in_step; [done|done|by rewrite Hsame|by rewrite Hsame|by rewrite Hsame].
  - apply store_in_step; [done|done| | |by intros i snapshot; apply (serves_rotated _ _ id credential)].
    + unfold active_row. by rewrite (ro_versions _ _ _ _ Hrot).
    + intros i. unfold latest_transition. by rewrite (ro_audit _ _ _ _ Hrot).
Qed.
End Rotating.

(** ** Bootstrap *)

Section Restart.
Context {Url : Type} `{!UrlCrate Url} `{!JsonText} `{!SqliteJson} (sqlite_fails : nat -> bool).

Lemma version_id_stored db id v : db_ok db -> db_versions db !! id = Some v -> version_id_try_new (version_text id) = Ok id.
Proof.
  intros Hok Hv. destruct (do_versions db Hok id v Hv) as [<- Hc%version_check_ok]. destruct Hc as [Hne _ _ _].
  unfold version_id_try_new. rewrite bool_decide_eq_false_2 by done. by destruct (cv_id v).
Qed.

Lemma load_active_reads :
  reads sqlite_fails db_ok (load_active_configuration sqlite_fails) (fun db => configuration_at db <$> active_row db).
Proof.
  eapply store_reads_bind; [apply reads_query|]. intros db Hok. simpl. destruct (active_row db) as [a|] eqn:Ha; simpl.
  2:{ apply store_reads_ret. intros ? <-. by rewrite Ha. }
  destruct (active_row_key db a Hok Ha) as [Hk Hact].
  eapply store_reads_bind with (f := fun _ => cv_id a).
  { apply reads_lift. intros ? <-. by rewrite (version_id_stored db _ _ Hok Hk). }
  intros ? <-. eapply store_reads_bind; [eapply reads_at; [apply load_configuration_reads|done]|]. intros ? <-. rewrite Hk. simpl.
  eapply store_reads_bind with (f := fun _ => configuration_at db a); [by apply reads_lift|]. intros ? <-.
  rewrite bool_decide_eq_true_2 by done. simpl. apply store_reads_ret. intros ? <-. by rewrite Ha.
Qed.

(** The audited predecessor of the active version is archived. *)
Definition restorable (id : ConfigVersionId) (db : Database) : Prop :=
  db_ok db /\ forall i, predecessor db id = Some i -> exists v, db_versions db !! i = Some v /\ cv_status v = VersionArchived.

Lemma predecessor_reads id :
  reads sqlite_fails (restorable id) (transaction sqlite_fails (latest_rollback_predecessor_id sqlite_fails id)) (fun db => predecessor db id).
Proof.
  apply reads_transaction. eapply store_reads_bind; [apply reads_query|]. intros db [Hok Hpred]. simpl. unfold predecessor in *.
  destruct (latest_transition db id) as [e|] eqn:He; simpl in *; [|apply store_reads_ret; intros ? <-; by rewrite He].
  destruct (ae_replaced_config_version_id e) as [i|] eqn:Hi; [|apply store_reads_ret; intros ? <-; by rewrite He].
  destruct (Hpred i eq_refl) as (v & Hv & _). eapply store_reads_bind with (f := fun _ => i).
  - apply reads_lift. intros ? <-. by rewrite (version_id_stored db i v).
  - intros ? <-. apply store_reads_ret. intros ? <-. by rewrite He.
Qed.

Lemma load_predecessor_reads id :
  reads sqlite_fails (restorable id) (load_rollback_predecessor sqlite_fails id)
    (fun db => predecessor db id ≫= fun i => configuration_at db <$> db_versions db !! i).
Proof.
  eapply store_reads_bind; [apply predecessor_reads|]. intros db [Hok Hpred]. simpl.
  destruct (predecessor db id) as [i|] eqn:Hi; [|apply store_reads_ret; intros ? <-; by rewrite Hi].
  destruct (Hpred i eq_refl) as (v & Hv & Hs).
  eapply store_reads_bind; [eapply reads_at; [apply load_configuration_reads|done]|]. intros ? <-. rewrite Hv. simpl.
  eapply store_reads_bind with (f := fun _ => configuration_at db v); [by apply reads_lift|]. intros ? <-.
  rewrite bool_decide_eq_true_2 by done. simpl. apply store_reads_ret. intros ? <-. rewrite Hi. simpl. by rewrite Hv.
Qed.

Context (c : RouteCompiler).

(** A database a process can be started from. *)
Definition startable (db : Database) : Prop :=
  db_ok db /\
  forall a, active_row db = Some a ->
    (exists s, compiles (Url := Url) c db (cv_id a) s)
    /\ forall i, predecessor db (cv_id a) = Some i -> i <> cv_id a /\ exists p, compiles (Url := Url) c db i p.

Lemma in_step_startable K `{!Renewal K} w : in_step (Url := Url) c K w -> startable (st_db (w_store w)).
Proof.
  intros [Hok _ _ _ Hserv]. split; [done|]. intros a Ha. cbv zeta in Hserv. rewrite Ha in Hserv. destruct Hserv as [Hcur Hprev].
  destruct (serves_compiles c K _ _ _ Hcur) as (s & Hs & _). split; [by exists s|]. intros i Hi. destruct (previous _) as [p|]; [|congruence].
  destruct Hprev as [(? & _)|(j & Hj & Hne & Hp)]; [congruence|]. rewrite Hi in Hj. injection Hj as <-.
  destruct (serves_compiles c K _ _ _ Hp) as (q & Hq & _). eauto.
Qed.

Lemma startable_restorable db a : startable db -> active_row db = Some a -> restorable (cv_id a) db.
Proof.
  intros [Hok Hst] Ha. split; [done|]. intros i Hi. destruct (Hst a Ha) as [_ Hp]. destruct (Hp i Hi) as [Hne (p & v & Hv & Hd & _)].
  exists v. split; [done|]. destruct (cv_status v) eqn:Hs; [done| |done].
  destruct (active_row_key db a Hok Ha) as [Hk Hact]. destruct Hne. by eapply (do_active db Hok).
Qed.

(** Starting a process reads the database or fails with SQLite; the registry is
    in step and retains the predecessor. *)
Lemma bootstrap_inv K `{!Renewal K} s r s' :
  startable (st_db s) -> bootstrap (Url := Url) sqlite_fails c s = (r, s') ->
  st_db s' = st_db s /\
  ((r = Err (StoreFailure Sqlite) /\ exists n, sqlite_fails n = true)
   \/ exists svc, r = Ok svc /\ in_step (Url := Url) c K (mkWorld s' svc)
        /\ forall a, active_row (st_db s) = Some a -> synthetic_bootstrap_version svc = None
             /\ compiles (Url := Url) c (st_db s) (cv_id a) (current (registry svc))
             /\ match previous (registry svc) with
                | Some p => exists i, predecessor (st_db s) (cv_id a) = Some i /\ compiles (Url := Url) c (st_db s) i p
                | None => predecessor (st_db s) (cv_id a) = None
                end).
Proof.
  intros Hst Hrun. pose proof Hst as [Hok Hserv]. unfold bootstrap in Hrun. unfold bind at 1, stored at 1 in Hrun.
  destruct (load_active_configuration sqlite_fails s) as [r1 s1] eqn:Hl.
  destruct (load_active_reads s r1 s1 Hok Hl) as [Hdb1 [[-> Hn]| ->]]; [injection Hrun as <- <-; auto|]. cbn [map_err] in Hrun.
  destruct (active_row (st_db s)) as [a|] eqn:Ha; cbn [fmap option_fmap option_map] in Hrun.
  - destruct (Hserv a eq_refl) as [(cur & v & Hv & Hd & Hc) Hpred]. destruct (active_row_key _ _ Hok Ha) as [Hk Hact].
    assert (v = a) as -> by congruence. unfold bind at 1, lift at 1 in Hrun. rewrite Hc in Hrun.
    unfold bind at 1, stored at 1 in Hrun. cbn [cf_version configuration_at] in Hrun.
    destruct (load_rollback_predecessor sqlite_fails (cv_id a) s1) as [r2 s2] eqn:Hl2.
    rewrite <- Hdb1 in Hst, Ha. pose proof (startable_restorable _ _ Hst Ha) as Hrest.
    destruct (load_predecessor_reads _ _ _ _ Hrest Hl2) as [Hdb2 [[-> Hn]| ->]];
      [injection Hrun as <- <-; split; [congruence|auto]|]. cbn [map_err] in Hrun. rewrite Hdb1 in *.
    assert (compiles (Url := Url) c (st_db s) (cv_id a) cur) as Hnow by (exists a; auto). pose proof (compiles_serves c K _ _ _ Hnow) as Hcur.
    destruct (predecessor (st_db s) (cv_id a)) as [i|] eqn:Hi; simpl in Hrun.
    + destruct (Hpred i eq_refl) as [Hne [p Hnp]]. pose proof (compiles_serves c K _ _ _ Hnp) as Hp.
      pose proof (serves_version c K _ _ _ Hok Hp) as Hver. pose proof (serves_version c K _ _ _ Hok Hcur) as Hver'. pose proof Hnp as (u & Hu & _ & Hcu).
      rewrite Hu in Hrun. simpl in Hrun. unfold_m. rewrite Hcu in Hrun. unfold try_new_with_previous in Hrun.
      rewrite bool_decide_eq_false_2 in Hrun.
      2:{ rewrite Hver, Hver'. intros Heq. apply Hne. destruct i, (cv_id a). simpl in Heq. by subst. }
      injection Hrun as <- <-. split; [done|]. right. eexists. split; [done|]. split; [|intros ? [= <-]; split_and!; [done|done|by exists i]].
      constructor; simpl; rewrite ?Hdb2; [done..| |].
      * intros q [= <-]. simpl. rewrite Hver, Hver'. intros Heq. apply Hne. destruct i, (cv_id a). simpl in Heq. by subst.
      * rewrite Ha. split; [done|]. right. by exists i.
    + unfold_m. simpl in Hrun. injection Hrun as <- <-. split; [done|]. right. eexists. split; [done|]. split; [|by intros ? [= <-]].
      constructor; simpl; rewrite ?Hdb2; [done..|]. by rewrite Ha.
  - unfold_m. destruct empty_bootstrap_snapshot as [cur| |] eqn:Hb; [|vm_compute in Hb; discriminate Hb..].
    simpl in Hrun. injection Hrun as <- <-. split; [done|]. right. eexists. split; [done|]. split; [|done].
    constructor; simpl; rewrite ?Hdb1; [done..|]. by rewrite Ha.
Qed.

Lemma empty_bootstrap_is : empty_bootstrap_snapshot = Ok (mkRouteSnapshot SYNTHETIC_BOOTSTRAP_VERSION ∅ ∅ ∅ ∅ ∅ ∅ ∅).
Proof. vm_compute. reflexivity. Qed.

Lemma empty_startable : startable empty_db.
Proof. split; [apply empty_db_ok|]. by intros a Ha. Qed.

(** The worlds of a process and its restarts: any interleaving of management
    operations, OAuth rotations, audited publications and rollbacks and validations,
    with any failures of SQLite.  A rotation writes an active credential. *)
Inductive reachable : World -> Prop :=
| reach_first clock s svc :
    bootstrap (Url := Url) sqlite_fails c (mkStore empty_db clock) = (Ok svc, s) -> reachable (mkWorld s svc)
| reach_restart w clock s svc :
    reachable w -> bootstrap (Url := Url) sqlite_fails c (mkStore (st_db (w_store w)) clock) = (Ok svc, s) ->
    reachable (mkWorld s svc)
| reach_manage w op r s :
    reachable w -> manages op -> run_op sqlite_fails op (w_store w) = (r, s) -> reachable (mkWorld s (w_service w))
| reach_rotate w id credential expected draft r s :
    reachable w -> cr_status credential = CredentialActive -> secret_ok (cr_encrypted_secret credential) ->
    rotate_and_record sqlite_fails id credential expected draft (w_store w) = (r, s) -> reachable (mkWorld s (w_service w))
| reach_publish w id draft r w' :
    reachable w -> publish_version_with_audit (Url := Url) sqlite_fails id draft w = (r, w') -> reachable w'
| reach_rollback w draft r w' :
    reachable w -> rollback_with_audit sqlite_fails draft w = (r, w') -> reachable w'
| reach_validate w id r w' :
    reachable w -> validate_version (Url := Url) sqlite_fails id w = (r, w') -> reachable w'.

Lemma reachable_in_step w : reachable w -> in_step (Url := Url) c renewed w.
Proof.
  induction 1 as [clock s svc Hb|w clock s svc _ IH Hb|w op r s _ IH Hm Hrun|w id credential expected draft r s _ IH Ha Hsec Hrun|w id draft r w' _ IH Hrun|w draft r w' _ IH Hrun|w id r w' _ IH Hrun].
  - destruct (bootstrap_inv renewed (mkStore empty_db clock) _ _ empty_startable Hb) as [_ [[? _]|(svc' & [= <-] & ? & _)]]; done.
  - destruct (bootstrap_inv renewed (mkStore (st_db (w_store w)) clock) _ _ (in_step_startable renewed w IH) Hb) as [_ [[? _]|(svc' & [= <-] & ? & _)]]; done.
  - by eapply (manage_in_step sqlite_fails c renewed).
  - by eapply rotate_in_step.
  - by eapply (publish_in_step sqlite_fails c renewed).
  - by eapply (rollback_in_step sqlite_fails c renewed).
  - eapply unchanged_in_step; [|exact IH]. by eapply (validate_in_step sqlite_fails c renewed).
Qed.

(** ** Properties *)

(** C8: What is served is what is stored.  In every state a gateway process can
    reach, through any sequence of management operations, OAuth rotations of
    credentials of the active version, publications, rollbacks, validations and
    restarts and with any failures of SQLite, the registry serves the snapshot that
    the two compilers build from the rows of the active stored version, with its
    credential rows as they were when the snapshot was built: each was since then
    left alone or renewed (same identifier and upstream, active, a later revision).
    From the rows as they are now the compilers build the same snapshot up to the
    binding counts of its candidates, each served count being at least one and at
    most the current one, and the very same snapshot when no rotation changed the
    status of a credential.  When no version was ever published the registry
    serves the synthetic snapshot, which exposes no model, alias, route, group or
    key, and a rollback is refused. *)
Theorem served_is_stored w :
  reachable w ->
  match active_row (st_db (w_store w)) with
  | Some a =>
      let rows := configuration_at (st_db (w_store w)) a in
      version (current (w_registry w)) = version_text (cv_id a)
      /\ exists credentials now,
           Forall2 renewed credentials (cf_credentials rows)
           /\ compiled_snapshot (Url := Url) c (with_credentials credentials rows) = Ok (current (w_registry w))
           /\ compiled_snapshot (Url := Url) c rows = Ok now /\ recounted (current (w_registry w)) now
           /\ (cr_status <$> credentials = cr_status <$> cf_credentials rows -> now = current (w_registry w))
  | None => current (w_registry w) = mkRouteSnapshot SYNTHETIC_BOOTSTRAP_VERSION ∅ ∅ ∅ ∅ ∅ ∅ ∅
            /\ rollback_with_optional_audit sqlite_fails None w = (Err (Registry NoRollbackAvailable), w)
  end.
Proof.
  intros [Hok Hc Hopen _ Hserv]%reachable_in_step. cbv zeta in Hserv. destruct (active_row _) as [a|] eqn:Ha.
  - destruct Hserv as [Hs _]. split; [by eapply serves_version|]. destruct Hs as (v & Hv & _ & credentials & Hr & Hcomp).
    destruct (active_row_key _ _ Hok Ha) as [Hk _]. assert (v = a) as -> by congruence. set (rows := configuration_at _ _) in *.
    destruct (compiled_snapshot_renewed c (with_credentials credentials rows) (cf_credentials rows) _ Hr Hcomp) as (now & Hnow & Hrec & Heq).
    by exists credentials, now.
  - destruct Hserv as (Hb & Hp & _). rewrite empty_bootstrap_is in Hb. injection Hb as <-. split; [done|].
    unfold rollback_with_optional_audit, bind, reserve, prepare_rollback. by rewrite Hopen, Hp.
Qed.

(** A transition is all or nothing, and durable before it is visible.  A
    publication or a rollback, audited or not, that reports an error leaves both
    the database and the registry exactly as they were, whatever failed and
    whenever; one that succeeds committed the activation of the version that it
    then made visible, and the durable and the in-memory evidence name the same
    version. *)
Lemma transition_is_atomic w id audit r w' :
  reachable w ->
  publish_version_with_optional_audit (Url := Url) sqlite_fails id audit w = (r, w')
  \/ rollback_with_optional_audit sqlite_fails audit w = (r, w') ->
  (failed r /\ unchanged w w')
  \/ exists p, r = Ok p /\ current_version (transition p) = version (current (w_registry w'))
       /\ previous (w_registry w') = Some (current (w_registry w))
       /\ exists s1 s2, st_db s1 = st_db (w_store w) /\ w_store w' = s2
            /\ activated_by sqlite_fails audit (mkVersionId (version (current (w_registry w')))) s1 (activation p) (audit_event p) s2.
Proof.
  intros [Hok _ _ _ _]%reachable_in_step [Hrun|Hrun].
  - destruct (publish_inv _ _ _ _ _ _ Hok Hrun) as [[? ?]|(v & next & a & e & s1 & s2 & Hv & Hn & _ & Hdb & Hby & -> & ->)]; [by left|].
    right. eexists. split; [done|]. split; [done|]. split; [done|]. exists s1, s2. split_and!; [done..|]. simpl.
    apply compiled_snapshot_version in Hn. rewrite Hn. simpl. destruct (do_versions _ Hok id v Hv) as [-> _]. by destruct id.
  - destruct (rollback_inv _ _ _ _ _ Hrun) as [[? ?]|(next & a & e & s2 & _ & _ & _ & Hby & -> & ->)]; [by left|].
    right. eexists. split; [done|]. split; [done|]. split; [done|]. by exists (w_store w), s2.
Qed.

(** C11: A restart restores the registry.  Starting a process on the database of
    any reachable state, with the same catalog evidence, either fails because SQLite
    did, or serves the snapshot the compilers build from the stored rows of the
    active version.  That is the snapshot served before up to the binding counts of
    its candidates, which a rotation may have raised since, and likewise for the
    rollback target; a snapshot that was built from the rows as they are is served
    again unchanged.  Only the synthetic snapshot is no longer retained as a target,
    and a rollback to it would have been refused.  The database is only read. *)
Theorem restart_restores_registry w clock r s :
  reachable w ->
  bootstrap (Url := Url) sqlite_fails c (mkStore (st_db (w_store w)) clock) = (r, s) ->
  st_db s = st_db (w_store w) /\
  ((r = Err (StoreFailure Sqlite) /\ exists n, sqlite_fails n = true)
   \/ exists svc, r = Ok svc
        /\ match active_row (st_db (w_store w)) with
           | Some a => compiled_snapshot (Url := Url) c (configuration_at (st_db (w_store w)) a) = Ok (current (registry svc))
                       /\ recounted (current (w_registry w)) (current (registry svc))
           | None => current (registry svc) = current (w_registry w)
           end
        /\ match previous (w_registry w), previous (registry svc) with
           | Some before, Some after => recounted before after
           | None, None => True
           | Some _, None => rollback_with_optional_audit sqlite_fails None w = (Err NoPersistedRollbackTarget, w)
           | None, Some _ => False
           end).
Proof.
  intros Hr%reachable_in_step Hb.
  destruct (bootstrap_inv renewed (mkStore (st_db (w_store w)) clock) _ _ (in_step_startable renewed w Hr) Hb) as [Hdb [?|(svc & -> & Hsvc & Hsyn)]];
    [by split; [|left]|]. split; [done|]. right. exists svc. split; [done|]. simpl in Hdb, Hsyn.
  destruct Hr as [Hok Hc Hopen Hdist Hserv]. cbv zeta in *. destruct (active_row (st_db (w_store w))) as [a|] eqn:Ha.
  2:{ destruct Hsvc as [_ _ _ _ Hserv']. cbv zeta in *. unfold w_registry in Hserv'. simpl in Hserv'. rewrite Hdb, Ha in Hserv'.
      destruct Hserv as (H1 & H2 & _), Hserv' as (H1' & H2' & _). rewrite H1 in H1'. injection H1' as ->. by rewrite H2, H2'. }
  destruct (Hsyn a eq_refl) as (_ & Hcur' & Hprev'), Hserv as [Hcur Hprev]. split.
  - destruct (serves_compiles c renewed _ _ _ Hcur) as (s1 & Hs1 & Hrec). rewrite (compiles_unique c _ _ _ _ Hcur' Hs1). split; [|done].
    destruct Hs1 as (v & Hv & _ & Hcv). destruct (active_row_key _ _ Hok Ha) as [Hk _]. by simplify_eq.
  - destruct (previous (registry svc)) as [q|], (previous (w_registry w)) as [p|] eqn:Hpw; [| | |done].
    + destruct Hprev' as (j & Hj & Hq), Hprev as [(? & _)|(i & Hi & _ & Hp)]; [congruence|]. assert (j = i) as -> by congruence.
      destruct (serves_compiles c renewed _ _ _ Hp) as (p1 & Hp1 & Hrec). by rewrite (compiles_unique c _ _ _ _ Hq Hp1).
    + destruct Hprev' as (j & Hj & _). congruence.
    + destruct Hprev as [(_ & Hp & Hsy)|(i & Hi & _)]; [|congruence].
      unfold rollback_with_optional_audit, bind, reserve, prepare_rollback. rewrite Hopen, Hpw.
      rewrite bool_decide_eq_false_2 by (by intros Hv; apply (Hdist p)).
      simpl. unfold get. by rewrite bool_decide_eq_true_2.
Qed.
End Restart.

(** ** A gateway with two published versions *)

Section Witnesses.
#[local] Existing Instance ex_crate.

#[local] Instance ex_json_text : JsonText := {|
  value_from_str := fun s => if bool_decide (s = "{}") then Some (JObject []) else None;
  strings_from_str := fun s => match_text [("schemes", ["https"]); ("hosts", ["relay.example"]); ("cidrs", ["8.8.8.0/24"])] s;
  ports_from_str := fun s => match_text [("ports", [443])] s;
|}.

#[local] Instance ex_columns : SqliteJson := {|
  json_array := fun s => bool_decide (s ∈ ["[]"; "schemes"; "hosts"; "ports"; "cidrs"]);
  json_object := fun s => bool_decide (s = "{}");
|}.

(** SQLite fails one call in the middle of the history. *)
Definition ex_outage (n : nat) : bool := bool_decide (n = 70%nat).

Definition ex_evidence : RouteCompiler :=
  mkCompiler {[ (mkId "ep", "grok-4") := CFresh ]} {[ mkId "ep" := ∅ ]}.

Definition ex_live (id : string) : ControlPlaneConfiguration :=
  mkConfiguration (mkConfigVersion (mkVersionId id) None VersionDraft 0 10 "first")
    [mkEgressPolicyRow (mkId "policy") "default" "schemes" "hosts" "ports" "cidrs" StoredDeny 0]
    [mkUpstream (mkId "up") "relay" "relay" true "[]" (Some (mkId "policy"))]
    [mkEndpoint (mkId "ep") (mkId "up") "openai-compatible.chat-completions" "openai/chat-completions"
       "https://relay.example/v1" "/chat" None TransportHttp true]
    [mkCredential (mkId "cred") (mkId "up") "api_key" (Secrets.mkEncrypted 1 (Byte.x01 :: replicate 41 Byte.x07)) CredentialActive 0]
    [mkBinding (mkId "ep") (mkId "cred") (mkId "up") true 0 1 4]
    [mkPublicModelRow (mkId "model") "grok" AdminActive "Grok" "{}"] [mkAlias "grok-latest" (mkId "model")]
    [mkRouteRow (mkId "route") (mkId "model") PolicyRoundRobin 3 1000]
    [mkCandidateRow (mkId "cand") (mkId "route") (mkId "ep") "grok-4" EndpointBindings ModePassthrough true 0 1 "{}"]
    [mkAccessGroupRow (mkId "group") "team" AdminActive "{}"] [mkGrant (mkId "group") (mkId "route") true]
    [mkStoredKey (mkId "key") (mkId "group") "rgw_0000000000000000" (replicate 32 Byte.x01) StoredKeyActive None].

Definition ex_published : ManagementAuditEventDraft := mkAuditDraft AuditPublished "admin" 20.
Definition ex_rolled_back : ManagementAuditEventDraft := mkAuditDraft AuditRolledBack "admin" 30.

Definition ex_boot : World :=
  match bootstrap (Url := TableUrl) ex_outage ex_evidence (mkStore empty_db 0) with
  | (Ok svc, s) => mkWorld s svc
  | (_, s) => mkWorld s (mkService ex_evidence (registry_new ex_empty) None)
  end.
Definition ex_do_write (id : string) (w : World) : World :=
  mkWorld (run_op ex_outage (WriteConfiguration (ex_live id)) (w_store w)).2 (w_service w).
Definition ex_do_publish (id : string) (w : World) : World :=
  (publish_version_with_audit (Url := TableUrl) ex_outage (mkVersionId id) ex_published w).2.
Definition ex_do_rollback (w : World) : World := (rollback_with_audit ex_outage ex_rolled_back w).2.

Abbreviation ex_reachable := (reachable (Url := TableUrl) ex_outage ex_evidence).

Lemma ex_boot_reachable : ex_reachable ex_boot.
Proof.
  unfold ex_boot. destruct (bootstrap (Url := TableUrl) ex_outage ex_evidence (mkStore empty_db 0)) as [r s] eqn:Hb.
  destruct r as [svc|e|]; [by eapply reach_first|apply (f_equal fst) in Hb; vm_compute in Hb; discriminate Hb..].
Qed.

Lemma ex_live_typed id : cf_typed (ex_live id).
Proof. intros x. simpl. rewrite list_elem_of_singleton. intros ->. vm_compute. repeat split; done. Qed.

Lemma ex_do_write_reachable id w : ex_reachable w -> ex_reachable (ex_do_write id w).
Proof.
  intros Hw. apply (reach_manage _ _ w (WriteConfiguration (ex_live id)) (run_op ex_outage (WriteConfiguration (ex_live id)) (w_store w)).1);
    [exact Hw|exact (ex_live_typed id)|apply surjective_pairing].
Qed.

Lemma ex_do_publish_reachable id w : ex_reachable w -> ex_reachable (ex_do_publish id w).
Proof. intros Hw. eapply reach_publish; [exact Hw|apply surjective_pairing]. Qed.

Lemma ex_do_rollback_reachable w : ex_reachable w -> ex_reachable (ex_do_rollback w).
Proof. intros Hw. eapply reach_rollback; [exact Hw|apply surjective_pairing]. Qed.

#[local] Hint Resolve ex_boot_reachable ex_do_write_reachable ex_do_publish_reachable ex_do_rollback_reachable : core.

(** The publication of the second version meets the outage and is retried. *)
Definition ex_two_versions : World :=
  ex_do_publish "v2" (ex_do_publish "v2" (ex_do_write "v2" (ex_do_publish "v1" (ex_do_write "v1" ex_boot)))).
Definition ex_back : World := ex_do_rollback ex_two_versions.

Lemma compile_exact_witness : publishable ex_evidence (ex_live "v1").
Proof.
  pose proof (compile_exact ex_evidence (ex_live "v1")) as H.
  destruct (RouteCompiler.compile ex_evidence (ex_live "v1")) as [compiled|e|] eqn:E;
    [exact (proj1 H)|vm_compute in E; discriminate E..].
Defined.

(** A third version has a second bound credential, which is disabled. *)
Definition ex_spare (status : CredentialStatus) (revision : Z) : CredentialConfiguration :=
  mkCredential (mkId "spare") (mkId "up") "oauth_json" (Secrets.mkEncrypted 1 (Byte.x01 :: replicate 41 Byte.x07)) status revision.
Definition ex_paired : ControlPlaneConfiguration :=
  let cf := ex_live "v3" in
  mkConfiguration (cf_version cf) (cf_egress_policies cf) (cf_upstreams cf) (cf_endpoints cf)
    (cf_credentials cf ++ [ex_spare CredentialDisabled 0])
    (cf_bindings cf ++ [mkBinding (mkId "ep") (mkId "spare") (mkId "up") true 0 1 4]) (cf_public_models cf) (cf_aliases cf) (cf_routes cf)
    (cf_candidates cf) (cf_access_groups cf) (cf_grants cf) (cf_client_keys cf).
Definition ex_do_paired (w : World) : World :=
  mkWorld (run_op ex_outage (WriteConfiguration ex_paired) (w_store w)).2 (w_service w).
Definition ex_rotation : StoreM unit :=
  rotate_and_record ex_outage (mkVersionId "v3") (ex_spare CredentialActive 1) 0
    (mkResourceDraft "credential_oauth_rotated" "admin" 40 "credential" "spare").
Definition ex_do_rotate (w : World) : World := mkWorld (ex_rotation (w_store w)).2 (w_service w).
Definition ex_rotated : World := ex_do_rotate (ex_do_publish "v3" (ex_do_paired ex_back)).

Lemma ex_paired_typed : cf_typed ex_paired.
Proof. intros x. simpl. rewrite elem_of_cons, list_elem_of_singleton. intros [-> | ->]; vm_compute; repeat split; done. Qed.

Lemma ex_do_paired_reachable w : ex_reachable w -> ex_reachable (ex_do_paired w).
Proof.
  intros Hw. apply (reach_manage _ _ w (WriteConfiguration ex_paired) (run_op ex_outage (WriteConfiguration ex_paired) (w_store w)).1);
    [exact Hw|exact ex_paired_typed|apply surjective_pairing].
Qed.

Lemma ex_do_rotate_reachable w : ex_reachable w -> ex_reachable (ex_do_rotate w).
Proof.
  intros Hw. apply (reach_rotate _ _ w (mkVersionId "v3") (ex_spare CredentialActive 1) 0
    (mkResourceDraft "credential_oauth_rotated" "admin" 40 "credential" "spare") (ex_rotation (w_store w)).1);
    [exact Hw|reflexivity|vm_compute; repeat split; done|apply surjective_pairing].
Qed.

Lemma ex_rotated_reachable : ex_reachable ex_rotated.
Proof. apply ex_do_rotate_reachable, ex_do_publish_reachable, ex_do_paired_reachable. unfold ex_back, ex_two_versions. auto 10. Qed.

Definition binding_counts (s : RouteSnapshot) : list Z :=
  concat ((fun r => active_binding_count <$> candidates r) <$> id_values (routes s)).

(** The registry of a process keeps the binding count of the publication when a
    rotation reactivates a credential; the compilers and a restart count it. *)
Lemma rotation_reactivates_credential :
  binding_counts (current (w_registry ex_rotated)) = [1]
  /\ (binding_counts <$> match active_row (st_db (w_store ex_rotated)) with
       | Some a => match compiled_snapshot (Url := TableUrl) ex_evidence (configuration_at (st_db (w_store ex_rotated)) a) with
                   | Ok now => Some now | _ => None end
       | None => None
       end) = Some [2].
Proof. split; vm_compute; reflexivity. Qed.

Lemma served_is_stored_witness :
  match active_row (st_db (w_store ex_rotated)) with
  | Some a => cv_id a = mkVersionId "v3" /\ version (current (w_registry ex_rotated)) = version_text (cv_id a)
  | None => False
  end.
Proof.
  pose proof (served_is_stored (Url := TableUrl) ex_outage ex_evidence ex_rotated ex_rotated_reachable) as H.
  destruct (active_row (st_db (w_store ex_rotated))) as [a|] eqn:Ha.
  - split; [|exact (proj1 H)]. vm_compute in Ha. injection Ha as <-. reflexivity.
  - vm_compute in Ha. discriminate Ha.
Defined.

Lemma transition_is_atomic_witness :
  let w := ex_do_write "v2" (ex_do_publish "v1" (ex_do_write "v1" ex_boot)) in
  let step := publish_version_with_audit (Url := TableUrl) ex_outage (mkVersionId "v2") ex_published w in
  step.1 = Err (StoreFailure Sqlite) /\ unchanged w step.2.
Proof.
  intros w step.
  assert (step.1 = Err (StoreFailure Sqlite)) as Hfail by (vm_compute; reflexivity). split; [exact Hfail|].
  assert (ex_reachable w) as Hr by (unfold w; auto 10).
  destruct (transition_is_atomic (Url := TableUrl) ex_outage ex_evidence w (mkVersionId "v2") (Some ex_published) step.1 step.2 Hr)
    as [[_ Hu]|(p & Hp & _)]; [left; apply surjective_pairing|exact Hu|].
  rewrite Hfail in Hp. discriminate Hp.
Defined.

Lemma restart_restores_registry_witness :
  match (bootstrap (Url := TableUrl) ex_outage ex_evidence (mkStore (st_db (w_store ex_rotated)) 300)).1 with
  | Ok svc => recounted (current (w_registry ex_rotated)) (current (registry svc)) /\ version <$> previous (registry svc) = Some "v1"
  | _ => False
  end.
Proof.
  destruct (bootstrap (Url := TableUrl) ex_outage ex_evidence (mkStore (st_db (w_store ex_rotated)) 300)) as [r s] eqn:Hb. cbn [fst].
  destruct (restart_restores_registry (Url := TableUrl) ex_outage ex_evidence ex_rotated 300 r s ex_rotated_reachable Hb)
    as [_ [[Hf _]|(svc & Hf & Hcur & _)]]; subst r; apply (f_equal fst) in Hb; cbn [fst] in Hb.
  - vm_compute in Hb. discriminate Hb.
  - split.
    + destruct (active_row (st_db (w_store ex_rotated))) eqn:Ha; [exact (proj2 Hcur)|vm_compute in Ha; discriminate Ha].
    + assert ((version <$> match (bootstrap (Url := TableUrl) ex_outage ex_evidence (mkStore (st_db (w_store ex_rotated)) 300)).1 with
        Ok x => previous (registry x) | _ => None end) = Some "v1") as Hv by (vm_compute; reflexivity).
      rewrite Hb in Hv. exact Hv.
Defined.

(** ** A stored version with the synthetic name *)

Definition ex_bare (id : string) : ControlPlaneConfiguration :=
  mkConfiguration (mkConfigVersion (mkVersionId id) None VersionDraft 0 10 "") [] [] [] [] [] [] [] [] [] [] [] [].
Definition ex_do_bare (id : string) (w : World) : World :=
  let w' := mkWorld (run_op (fun _ => false) (WriteConfiguration (ex_bare id)) (w_store w)).2 (w_service w) in
  (publish_version_with_audit (Url := TableUrl) (fun _ => false) (mkVersionId id) ex_published w').2.

(** A stored version may carry the name of the synthetic snapshot.  In a
    process started on an empty database, publish the versions v1, bootstrap-empty
    and v2 in turn: the rollback to the stored and archived version bootstrap-empty
    is refused as if no persisted version existed, although it is the registry's
    predecessor and SQLite holds it; and on a fresh process such a version cannot
    be published at all. *)
Lemma synthetic_name_blocks_rollback :
  exists svc s, bootstrap (Url := TableUrl) (fun _ => false) ex_evidence (mkStore empty_db 0) = (Ok svc, s) /\
  let w := mkWorld s svc in
  let w3 := ex_do_bare "v2" (ex_do_bare SYNTHETIC_BOOTSTRAP_VERSION (ex_do_bare "v1" w)) in
  version (current (w_registry w3)) = "v2"
  /\ (version <$> previous (w_registry w3)) = Some SYNTHETIC_BOOTSTRAP_VERSION
  /\ (cv_status <$> db_versions (st_db (w_store w3)) !! mkVersionId SYNTHETIC_BOOTSTRAP_VERSION) = Some VersionArchived
  /\ (rollback (fun _ => false) w3).1 = Err NoPersistedRollbackTarget
  /\ active_row (st_db (w_store (ex_do_bare SYNTHETIC_BOOTSTRAP_VERSION w))) = None.
Proof.
  eexists _, _. split; [vm_compute; reflexivity|]. cbv zeta.
  split; [vm_compute; reflexivity|]. split; [vm_compute; reflexivity|]. split; [vm_compute; reflexivity|].
  split; vm_compute; reflexivity.
Qed.
End Witnesses.
