(* ===== verification/ManagementService.v ===== *)
(** * The management service

    Models [crates/gateway-control/src/management_service.rs]: the facade that
    creates, validates, publishes and rolls back configuration versions, each
    change with its durable audit event. Its state is the world of the publisher
    (repository and registry), the actor it records and the clock it reads.

    The clock is a parameter, one reading per call, which may fail. *)

From S2P Require Import Prelude Text Core Catalog ClientKey EgressPolicy SecretStore ControlPlane StoreRows StoreSchema ControlStore StoreProperties EgressCompiler RouteCompiler RouteSnapshot SnapshotPublisher CredentialRotation PublisherProperties.
Import Publisher.
Local Open Scope string_scope.
Local Open Scope list_scope.
Local Open Scope Z_scope.

Module Management.

(** ** Data *)

Inductive ManagementActorError : Type := ActorEmpty | ActorTooLong.

Record ManagementActor : Type := mkActor { actor_as_str : string }.

Definition actor_try_new (value : string) : result ManagementActorError ManagementActor :=
  if bool_decide (value = "") then Err ActorEmpty
  else if 128 <? char_count value then Err ActorTooLong
  else Ok (mkActor value).

Inductive ManagementClockError : Type := ClockUnavailable.

(** [SystemManagementClock::now_ms]: the time since the Unix epoch, absent when the
    clock is set before it. *)
Definition system_now_ms (since_epoch : option Duration) : result ManagementClockError Z :=
  let? elapsed := ok_or ClockUnavailable since_epoch in
  if in_i64 (as_millis elapsed) then Ok (as_millis elapsed) else Err ClockUnavailable.

Inductive ManagementServiceError : Type :=
| ServiceStore (error : StoreError)
| ServicePublication (error : SnapshotPublicationError)
| ServiceClock (error : ManagementClockError).

Inductive ManagementLifecycleFailure : Type := Conflict | LifecycleUnavailable.

Definition lifecycle_failure (error : ManagementServiceError) : ManagementLifecycleFailure :=
  match error with
  | ServiceStore (ConfigVersionNotFound | ConfigVersionAlreadyActive | ConfigVersionRevisionConflict
                 | ControlPlaneMutationRequiresDraft)
  | ServicePublication (VersionNotFound | Compile _ | EgressPolicy _ | SnapshotBuild _ | InvalidSnapshotVersion
                       | NoPersistedRollbackTarget | ClientKeyMaterial _ | ClientKeyAccessGroupMissing) => Conflict
  | ServiceStore _ | ServicePublication _ | ServiceClock _ => LifecycleUnavailable
  end.

Record ManagementConfigurationCreated : Type := mkCreated {
  created_config_version_id : ConfigVersionId;
  created_audit_event : ManagementAuditEvent;
}.

Record ManagementService : Type := mkManagement {
  ms_world : World;
  ms_actor : ManagementActor;
  ms_readings : nat;
}.

Abbreviation ServiceM A := (M ManagementService ManagementServiceError A).

(** [ControlPlaneConfiguration::new]. *)
Definition configuration_new (version : ConfigVersion) : ControlPlaneConfiguration :=
  mkConfiguration version [] [] [] [] [] [] [] [] [] [] [] [].

Section Operations.
Context {Url : Type} `{!UrlCrate Url} `{!JsonText} `{!SqliteJson} (sqlite_fails : nat -> bool)
  (now_ms : nat -> result ManagementClockError Z).

(** [?] on the repository, the publisher and the clock. *)
Definition on_repository {A} (m : StoreM A) : ServiceM A :=
  fun s => let '(r, st) := m (w_store (ms_world s)) in
           (map_err ServiceStore r, mkManagement (mkWorld st (w_service (ms_world s))) (ms_actor s) (ms_readings s)).

Definition on_publisher {A} (m : M World SnapshotPublicationError A) : ServiceM A :=
  fun s => let '(r, w) := m (ms_world s) in
           (map_err ServicePublication r, mkManagement w (ms_actor s) (ms_readings s)).

Definition read_clock : ServiceM Z :=
  fun s => (map_err ServiceClock (now_ms (ms_readings s)),
            mkManagement (ms_world s) (ms_actor s) (S (ms_readings s))).

(** ** Construction *)

Definition bootstrap_with_clock (c : RouteCompiler) (actor : ManagementActor)
  : M Store ManagementServiceError ManagementService :=
  fun st => let '(r, st') := bootstrap (Url := Url) sqlite_fails c st in
            (let? svc := map_err ServicePublication r in Ok (mkManagement (mkWorld st' svc) actor 0), st').

(** [open_local] on the result of opening and migrating the database. *)
Definition open_local (opened : StoreResult Store) (actor : ManagementActor)
  : result ManagementServiceError ManagementService :=
  let? st := map_err ServiceStore opened in
  (bootstrap_with_clock (mkCompiler ∅ ∅) actor st).1.

(** ** Operations *)

Definition draft_for (action : ManagementAuditAction) (occurred_at_ms : Z) : ServiceM ManagementAuditEventDraft :=
  let! s := get in
  lift (map_err ServiceStore (audit_draft_try_new action (actor_as_str (ms_actor s)) occurred_at_ms)).

Definition create_configuration_at (configuration : ControlPlaneConfiguration) (occurred_at_ms : Z)
  : ServiceM ManagementConfigurationCreated :=
  let! audit_draft := draft_for AuditCreated occurred_at_ms in
  let! audit_event := on_repository (write_configuration_with_audit sqlite_fails configuration audit_draft) in
  ret (mkCreated (cv_id (cf_version configuration)) audit_event).

Definition create_empty_configuration (config_version_id : ConfigVersionId) (parent_id : option ConfigVersionId)
    (description : string) : ServiceM ManagementConfigurationCreated :=
  let! occurred_at_ms := read_clock in
  create_configuration_at
    (configuration_new (mkConfigVersion config_version_id parent_id VersionDraft 0 occurred_at_ms description))
    occurred_at_ms.

Definition create_configuration (configuration : ControlPlaneConfiguration)
  : ServiceM ManagementConfigurationCreated :=
  let! occurred_at_ms := read_clock in
  create_configuration_at configuration occurred_at_ms.

Definition validate_configuration (id : ConfigVersionId) : ServiceM SnapshotValidation :=
  on_publisher (validate_version (Url := Url) sqlite_fails id).

Definition config_versions : ServiceM (list ConfigVersion) := on_repository (list_config_versions sqlite_fails).

Definition config_version (id : ConfigVersionId) : ServiceM (option ConfigVersion) :=
  on_repository (load_config_version sqlite_fails id).

Definition audit_draft (action : ManagementAuditAction) : ServiceM ManagementAuditEventDraft :=
  let! now := read_clock in draft_for action now.

Definition publish_configuration (id : ConfigVersionId) : ServiceM SnapshotPublication :=
  let! draft := audit_draft AuditPublished in
  on_publisher (publish_version_with_audit (Url := Url) sqlite_fails id draft).

Definition rollback_configuration : ServiceM SnapshotPublication :=
  let! draft := audit_draft AuditRolledBack in
  on_publisher (rollback_with_audit sqlite_fails draft).

Definition audit_events : ServiceM (list ManagementAuditEvent) :=
  on_repository (list_management_audit_events sqlite_fails).
End Operations.

Definition ms_db (s : ManagementService) : Database := st_db (w_store (ms_world s)).
Definition ms_registry (s : ManagementService) : SnapshotRegistry := w_registry (ms_world s).

(** ** Specification: the history an audit log tells *)

Record Journal : Type := mkJournal {
  j_status : gmap ConfigVersionId ConfigVersionStatus;
  j_active : option ConfigVersionId;
}.

Definition archived (s : ConfigVersionStatus) : ConfigVersionStatus :=
  if bool_decide (s = VersionActive) then VersionArchived else s.

(** One event: a creation names a new version; a transition names a version that
    is not active and the version it replaces. *)
Definition replay_event (j : Journal) (e : ManagementAuditEvent) : option Journal :=
  let id := ae_config_version_id e in
  match ae_action e with
  | AuditCreated =>
      if bool_decide (j_status j !! id = None) && bool_decide (ae_replaced_config_version_id e = None)
      then Some (mkJournal (<[id := VersionDraft]> (j_status j)) (j_active j)) else None
  | AuditPublished | AuditRolledBack =>
      if bool_decide (is_Some (j_status j !! id)) && negb (bool_decide (j_active j = Some id))
         && bool_decide (ae_replaced_config_version_id e = j_active j)
      then Some (mkJournal (<[id := VersionActive]> (archived <$> j_status j)) (Some id)) else None
  end.

Fixpoint replay (j : Journal) (events : list ManagementAuditEvent) : option Journal :=
  match events with
  | [] => Some j
  | e :: rest => j' ← replay_event j e; replay j' rest
  end.

Definition empty_journal : Journal := mkJournal ∅ None.

Definition journal_of (db : Database) : Journal := mkJournal (cv_status <$> db_versions db) (cv_id <$> active_row db).

(** What the log of a database tells is what the database holds. *)
Definition journaled (db : Database) : Prop := replay empty_journal (db_audit db) = Some (journal_of db).

(** ** Lemmas: the events that are appended *)

Definition event_of (draft : ManagementAuditEventDraft) (id : ConfigVersionId) (replaced : option ConfigVersionId)
    (db : Database) : ManagementAuditEvent :=
  mkAuditEvent (Z.of_nat (length (db_audit db)) + 1) (ad_action draft) (ad_actor draft) (ad_occurred_at_ms draft) id replaced.

Definition logged (e : ManagementAuditEvent) (db : Database) : Database :=
  mkDb (db_versions db) (db_graphs db) (db_audit db ++ [e]) (db_resource_audit db).

Lemma triple_and {A} (P P' : Database -> Prop) (m : StoreM A) Q Q' :
  triple P m Q -> triple P' m Q' -> triple (fun db => P db /\ P' db) m (fun a db => Q a db /\ Q' a db).
Proof. intros H1 H2 s a s' [HP HP'] Hrun. split; [by eapply H1|by eapply H2]. Qed.

Section Events.
Context `{!SqliteJson} (sqlite_fails : nat -> bool).

Lemma record_audit_exact draft id replaced (I : Database -> Prop) db0 :
  triple (fun db => I db /\ db_audit db = db_audit db0) (record_management_audit_event sqlite_fails draft id replaced)
    (fun e db => e = event_of draft id replaced db0 /\ exists db1, I db1 /\ db_audit db1 = db_audit db0 /\ db = logged e db1).
Proof.
  set (e0 := event_of draft id replaced db0). unfold record_management_audit_event.
  apply triple_bind with (Q := fun _ db => exists db1, I db1 /\ db_audit db1 = db_audit db0 /\ db = logged e0 db1).
  { apply triple_execute. intros db n db' [HI Ha]. unfold audit_stmt. case_match; [|done]. intros [= _ <-].
    exists db. split_and!; [done|done|]. unfold logged, e0, event_of. by rewrite Ha. }
  intros n. apply triple_bind with (Q := fun s db => st_db s = db
    /\ exists db1, I db1 /\ db_audit db1 = db_audit db0 /\ db = logged e0 db1); [by apply triple_get|].
  intros s. apply triple_lift. intros e db He [Hs (db1 & HI & Ha & Hdb)].
  assert (e = e0) as ->; [|split; [done|by exists db1]].
  revert He. unfold from_draft, last_insert_rowid. rewrite Hs, Hdb. case_match; [done|]. intros [= <-].
  unfold e0, event_of, logged. simpl. rewrite length_app, Ha. simpl. f_equal. lia.
Qed.

(** An activation appends the event it returns. *)
Lemma activate_logs id draft s a e s' :
  activate_version_with_audit sqlite_fails id draft s = (Ok (a, e), s') ->
  exists v, db_versions (st_db s) !! id = Some v /\ cv_status v <> VersionActive
    /\ e = event_of draft id (cv_id <$> active_row (st_db s)) (st_db s)
    /\ st_db s' = activated_db id v [e] (st_db s).
Proof.
  unfold activate_version_with_audit. case_match; [done|]. intros Hrun.
  eapply (transaction_spec sqlite_fails (eq (st_db s)) _ (fun r db => exists v, db_versions (st_db s) !! id = Some v
    /\ cv_status v <> VersionActive /\ r.2 = event_of draft id (cv_id <$> active_row (st_db s)) (st_db s)
    /\ db = activated_db id v [r.2] (st_db s))) in Hrun; [exact Hrun|clear Hrun|done].
  eapply triple_bind; [apply activate_tx_exact|]. intros act. cbv beta.
  eapply triple_bind with (Q := fun e db => exists v, db_versions (st_db s) !! id = Some v
    /\ cv_status v <> VersionActive /\ e = event_of draft id (cv_id <$> active_row (st_db s)) (st_db s)
    /\ db = activated_db id v [e] (st_db s)); [|intros e'; by apply triple_ret].
  intros s0 e' s0' (v & Hv & Hst & -> & Hdb) Hrec. cbn [activated_version_id replaced_active_version_id] in Hrec.
  apply (record_audit_exact draft id _ (eq (st_db s0)) (st_db s)) in Hrec as (-> & db1 & <- & _ & ->);
    [|split; [done|]; rewrite Hdb; simpl; apply app_nil_r].
  exists v. split_and!; [done..|]. rewrite Hdb. unfold logged, activated_db. simpl. by rewrite app_nil_r.
Qed.

Definition statuses (db : Database) : gmap ConfigVersionId ConfigVersionStatus := cv_status <$> db_versions db.

(** While the rows of a new version are inserted. *)
Definition writing (id : ConfigVersionId) (db0 db : Database) : Prop :=
  db_audit db = db_audit db0 /\ (statuses db = statuses db0 \/ statuses db = <[id := VersionDraft]> (statuses db0)).

Lemma writing_keeps id db0 i stmt : keeps i (writing id db0) stmt.
Proof. constructor. by intros db n g Hw _ _. Qed.

Lemma writing_audit id db0 : keeps_audit (writing id db0).
Proof. intros db i draft n db' Hw. unfold resource_audit_stmt. case_match; [|done]. by intros [= _ <-]. Qed.

Lemma writing_insert v db0 db n db' :
  cv_status v = VersionDraft -> writing (cv_id v) db0 db -> insert_version_stmt v db = Some (n, db') ->
  writing (cv_id v) db0 db'.
Proof.
  intros Hd [Ha Hs]. unfold insert_version_stmt. case_match; [done|]. intros [= _ <-]. split; [done|]. right.
  unfold statuses. simpl. rewrite fmap_insert, Hd. fold (statuses db). destruct Hs as [->| ->]; [done|].
  apply insert_insert_eq.
Qed.

Lemma write_fresh cf db0 v :
  db_versions db0 !! cv_id (cf_version cf) = Some v ->
  triple (eq db0) (write_configuration_tx sqlite_fails cf) (fun _ _ => False).
Proof.
  intros Hv. unfold write_configuration_tx. case_match; [apply triple_raise|].
  apply triple_bind with (Q := fun _ _ => False); [|intros _; by apply triple_false].
  apply triple_bind with (Q := fun _ _ => False); [|intros _; by apply triple_false].
  apply triple_execute. intros db n db' <-. unfold insert_version_stmt. by rewrite bool_decide_eq_true_2 by eauto.
Qed.

Lemma write_statuses cf db0 :
  cf_typed cf -> db_ok db0 ->
  triple (eq db0) (write_configuration_tx sqlite_fails cf) (fun _ db =>
    db_versions db0 !! cv_id (cf_version cf) = None
    /\ statuses db = <[cv_id (cf_version cf) := VersionDraft]> (statuses db0) /\ db_audit db = db_audit db0).
Proof.
  intros Ht Hok. destruct (decide (cv_status (cf_version cf) = VersionDraft)) as [Hd|Hd].
  2:{ unfold write_configuration_tx. rewrite bool_decide_eq_false_2 by done. apply triple_raise. }
  destruct (db_versions db0 !! cv_id (cf_version cf)) as [v|] eqn:Hv.
  { eapply triple_weaken; [by eapply write_fresh|done|]. done. }
  eapply triple_weaken; [apply triple_and; [apply write_tx_stores|apply (write_tx_triple sqlite_fails (writing (cv_id (cf_version cf)) db0))]| |];
    [done|by intros db n db'; apply writing_insert|by intros; apply writing_keeps|apply writing_audit| |].
  - intros db <-. split; [done|]. split; [done|by left].
  - intros a db [[[Hrow _] _] [Ha Hs]]. split_and!; [done| |done]. destruct Hs as [Hs|Hs]; [|done].
    apply (f_equal (lookup (cv_id (cf_version cf)))) in Hs. unfold statuses in Hs.
    by rewrite !lookup_fmap, Hrow, Hv in Hs.
Qed.

(** A creation appends the event it returns. *)
Lemma write_logs cf draft s e s' :
  cf_typed cf -> db_ok (st_db s) -> write_configuration_with_audit sqlite_fails cf draft s = (Ok e, s') ->
  db_versions (st_db s) !! cv_id (cf_version cf) = None
  /\ statuses (st_db s') = <[cv_id (cf_version cf) := VersionDraft]> (statuses (st_db s))
  /\ e = event_of draft (cv_id (cf_version cf)) None (st_db s) /\ ad_action draft = AuditCreated
  /\ db_audit (st_db s') = db_audit (st_db s) ++ [e].
Proof.
  intros Ht Hok. unfold write_configuration_with_audit. case_bool_decide as Ha; [|done]. cbn [negb]. intros Hrun.
  eapply (transaction_spec sqlite_fails (eq (st_db s)) _ (fun e db =>
    db_versions (st_db s) !! cv_id (cf_version cf) = None
    /\ statuses db = <[cv_id (cf_version cf) := VersionDraft]> (statuses (st_db s))
    /\ e = event_of draft (cv_id (cf_version cf)) None (st_db s)
    /\ db_audit db = db_audit (st_db s) ++ [e])) in Hrun; [|clear Hrun|done].
  { destruct Hrun as (? & ? & ? & ?). by split_and!. }
  eapply triple_bind; [by apply write_statuses|]. intros u. cbv beta.
  eapply triple_weaken; [apply (record_audit_exact draft (cv_id (cf_version cf)) None (fun db =>
    db_versions (st_db s) !! cv_id (cf_version cf) = None
    /\ statuses db = <[cv_id (cf_version cf) := VersionDraft]> (statuses (st_db s))) (st_db s))|by intros db (? & ? & ?)|].
  intros e' db (-> & db1 & [Hn Hs] & Hau & ->). split_and!; [done|done|done|]. unfold logged. simpl. by rewrite Hau.
Qed.
End Events.

(** ** Lemmas: the log follows the database *)

Lemma replay_app j events e : replay j (events ++ [e]) = replay j events ≫= fun j' => replay_event j' e.
Proof.
  revert j. induction events as [|e' events IH]; intros j; simpl.
  - by destruct (replay_event j e).
  - destruct (replay_event j e'); simpl; [apply IH|done].
Qed.

Section Log.
Context `{!SqliteJson}.

Lemma active_status db i :
  db_ok db -> cv_id <$> active_row db = Some i <-> statuses db !! i = Some VersionActive.
Proof.
  intros Hok. unfold statuses. rewrite lookup_fmap. split.
  - intros (a & Ha & ->)%fmap_Some. destruct (active_row_key _ _ Hok Ha) as [-> ?]. simpl. by f_equal.
  - intros (v & Hv & Hs)%fmap_Some. rewrite (active_row_is _ i v) by done. simpl. f_equal.
    by destruct (do_versions db Hok i v Hv) as [-> _].
Qed.

Lemma active_ext db db' :
  db_ok db -> db_ok db' ->
  (forall i, statuses db' !! i = Some VersionActive <-> statuses db !! i = Some VersionActive) ->
  cv_id <$> active_row db' = cv_id <$> active_row db.
Proof.
  intros Hok Hok' Hs. apply option_eq. intros i. by rewrite !active_status.
Qed.

Lemma journaled_same db db' :
  db_ok db -> db_ok db' -> statuses db' = statuses db -> db_audit db' = db_audit db -> journaled db -> journaled db'.
Proof.
  intros Hok Hok' Hs Ha Hj. unfold journaled, journal_of in *. rewrite Ha, Hj. fold (statuses db) (statuses db').
  rewrite Hs. do 2 f_equal. symmetry. apply active_ext; [done..|]. intros i. by rewrite Hs.
Qed.

Lemma journaled_created db db' id e :
  db_ok db -> db_ok db' -> journaled db -> db_versions db !! id = None ->
  statuses db' = <[id := VersionDraft]> (statuses db) -> db_audit db' = db_audit db ++ [e] ->
  ae_action e = AuditCreated -> ae_config_version_id e = id -> ae_replaced_config_version_id e = None ->
  journaled db'.
Proof.
  intros Hok Hok' Hj Hn Hs Ha H1 H2 H3. unfold journaled in *. rewrite Ha, replay_app, Hj. simpl.
  unfold replay_event, journal_of. simpl. rewrite H1, H2, H3. fold (statuses db) (statuses db').
  assert (statuses db !! id = None) as Hnone by (unfold statuses; by rewrite lookup_fmap, Hn).
  rewrite !bool_decide_eq_true_2 by done. simpl. rewrite Hs. do 2 f_equal. symmetry. apply active_ext; [done..|].
  intros i. rewrite Hs. destruct (decide (i = id)) as [->|Hne]; [by rewrite lookup_insert_eq, Hnone|].
  by rewrite lookup_insert_ne by congruence.
Qed.

Lemma statuses_activated id v events db :
  statuses (activated_db id v events db) = <[id := VersionActive]> (archived <$> statuses db).
Proof.
  unfold statuses, activated_db. simpl. rewrite fmap_insert. f_equal. rewrite <- !map_fmap_compose.
  apply map_fmap_ext. intros i w _. simpl. unfold archive_row, archived, is_active. by case_bool_decide.
Qed.

Lemma journaled_transition db db' id v e :
  db_ok db -> db_ok db' -> journaled db -> db_versions db !! id = Some v -> cv_status v <> VersionActive ->
  db' = activated_db id v [e] db -> ae_config_version_id e = id ->
  ae_action e = AuditPublished \/ ae_action e = AuditRolledBack ->
  ae_replaced_config_version_id e = cv_id <$> active_row db -> journaled db'.
Proof.
  intros Hok Hok' Hj Hv Hs Hdb H1 H2 H3. unfold journaled in *. rewrite Hdb at 1. simpl.
  rewrite replay_app, Hj. simpl. unfold replay_event, journal_of. simpl. rewrite H1, H3.
  fold (statuses db) (statuses db').
  assert (statuses db !! id = Some (cv_status v)) as Hst by (unfold statuses; by rewrite lookup_fmap, Hv).
  rewrite Hst. rewrite (bool_decide_eq_true_2 (is_Some (Some (cv_status v)))) by by eexists.
  rewrite (bool_decide_eq_false_2 (cv_id <$> active_row db = Some id)).
  2:{ rewrite active_status by done. rewrite Hst. congruence. }
  rewrite (bool_decide_eq_true_2 (cv_id <$> active_row db = cv_id <$> active_row db)) by done. simpl.
  assert (cv_id <$> active_row db' = Some id) as ->.
  { apply active_status; [done|]. rewrite Hdb, statuses_activated. by rewrite lookup_insert_eq. }
  rewrite <- statuses_activated with (v := v) (events := [e]), <- Hdb.
  by destruct H2 as [H2|H2]; rewrite H2.
Qed.
End Log.

(** ** Lemmas: the steps of the service *)

(** What an operation that changes something did: everything, with the event it
    returns as the next one of the log, or nothing. *)
Definition audited {E A} (action : ManagementAuditAction) (now_ms : nat -> result ManagementClockError Z)
    (evidence : A -> option ManagementAuditEvent) (m : ManagementService) (r : result E A) (m' : ManagementService) : Prop :=
  match r with
  | Ok a => exists e, evidence a = Some e /\ db_audit (ms_db m') = db_audit (ms_db m) ++ [e] /\ ae_action e = action
      /\ ae_actor e = actor_as_str (ms_actor m) /\ now_ms (ms_readings m) = Ok (ae_occurred_at_ms e)
      /\ decode_audit_event e = Ok e
  | _ => ms_db m' = ms_db m /\ ms_registry m' = ms_registry m
  end.

Definition readable (db : Database) : Prop := Forall (fun e => decode_audit_event e = Ok e) (db_audit db).

Lemma audit_draft_inv action actor now draft :
  audit_draft_try_new action actor now = Ok draft -> draft = mkAuditDraft action actor now.
Proof. unfold audit_draft_try_new. case_match; [done|]. by intros [= <-]. Qed.

Lemma event_decodes action actor now draft id replaced db :
  audit_draft_try_new action actor now = Ok draft -> version_id_try_new (version_text id) = Ok id ->
  (forall i, replaced = Some i -> version_id_try_new (version_text i) = Ok i) ->
  decode_audit_event (event_of draft id replaced db) = Ok (event_of draft id replaced db).
Proof.
  intros Hd Hid Hr. pose proof Hd as ->%audit_draft_inv. unfold decode_audit_event, event_of. cbn [ae_id ae_action ae_actor
    ae_occurred_at_ms ae_config_version_id ae_replaced_config_version_id ad_action ad_actor ad_occurred_at_ms].
  rewrite (proj2 (Z.leb_gt _ 0)) by lia.
  assert (audit_action_from_sql (audit_action_as_sql action) = Some action) as -> by by destruct action.
  cbn [ok_or result_bind]. rewrite Hd. cbn [map_err result_bind]. rewrite Hid. cbn [map_err result_bind].
  assert ((match replaced with
           | None => Ok None
           | Some r => let? i := map_err (fun _ => malformed "management_audit_events") (version_id_try_new (version_text r)) in Ok (Some i)
           end : StoreResult (option ConfigVersionId)) = Ok replaced) as ->.
  { destruct replaced as [i|]; [|done]. by rewrite (Hr i). }
  cbn [result_bind]. unfold from_draft. by rewrite (proj2 (Z.leb_gt _ 0)) by lia.
Qed.

Section Steps.
Context {Url : Type} `{!UrlCrate Url} `{!JsonText} `{!SqliteJson} (sqlite_fails : nat -> bool)
  (now_ms : nat -> result ManagementClockError Z) (c : RouteCompiler).

Record sound (m : ManagementService) : Prop := {
  so_step : in_step (Url := Url) c eq (ms_world m);
  so_log : journaled (ms_db m);
  so_readable : readable (ms_db m);
}.

Lemma sound_ok m : sound m -> db_ok (ms_db m).
Proof. intros [Hs _ _]. apply (is_ok _ _ _ Hs). Qed.

Lemma stored_id m id : sound m -> is_Some (db_versions (ms_db m) !! id) -> version_id_try_new (version_text id) = Ok id.
Proof. intros Hm [v Hv]. by apply (version_id_stored _ _ v (sound_ok m Hm)). Qed.

Lemma active_id m id : sound m -> cv_id <$> active_row (ms_db m) = Some id -> version_id_try_new (version_text id) = Ok id.
Proof.
  intros Hm (a & Ha & ->)%fmap_Some. destruct (active_row_key _ _ (sound_ok m Hm) Ha) as [Hk _].
  apply (stored_id m _ Hm). by eexists.
Qed.

Lemma readable_snoc db db' e :
  readable db -> db_audit db' = db_audit db ++ [e] -> decode_audit_event e = Ok e -> readable db'.
Proof. intros Hr Ha He. unfold readable. rewrite Ha. apply Forall_app. split; [done|]. by repeat constructor. Qed.

Lemma draft_for_inv action now m r m' :
  draft_for action now m = (r, m') ->
  m' = m /\ r = map_err ServiceStore (audit_draft_try_new action (actor_as_str (ms_actor m)) now).
Proof. unfold draft_for, bind, get, lift. by intros [= <- <-]. Qed.

Lemma audit_draft_steps action m r m' :
  audit_draft now_ms action m = (r, m') ->
  m' = mkManagement (ms_world m) (ms_actor m) (S (ms_readings m))
  /\ match r with
     | Ok draft => exists now, now_ms (ms_readings m) = Ok now
         /\ audit_draft_try_new action (actor_as_str (ms_actor m)) now = Ok draft
     | _ => True
     end.
Proof.
  unfold audit_draft, bind, read_clock. destruct (now_ms (ms_readings m)) as [now|e|] eqn:Hn; simpl; [|by intros [= <- <-]..].
  intros [-> ->]%draft_for_inv. split; [done|]. simpl.
  destruct (audit_draft_try_new _ _ _) as [draft| |] eqn:Hd; simpl; [|done..]. by exists now.
Qed.

Lemma sound_world m m' : sound m -> ms_db m' = ms_db m -> w_service (ms_world m') = w_service (ms_world m) -> sound m'.
Proof.
  intros [Hs Hl Hr] Hdb Hsv. constructor; [|by rewrite Hdb..]. by eapply unchanged_in_step; [|exact Hs].
Qed.

Lemma write_failed_keeps cf draft st r st' :
  write_configuration_with_audit sqlite_fails cf draft st = (r, st') -> failed r -> st_db st' = st_db st.
Proof.
  unfold write_configuration_with_audit. case_match; [by intros [= _ <-]|]. intros Hrun Hr.
  eapply (transaction_spec sqlite_fails (fun _ => True) _ (fun _ _ => True)) in Hrun; [|by intros ?|done].
  destruct r; [by destruct (Hr a)|done..].
Qed.

Lemma write_in_step cf draft m r st :
  sound m -> cf_typed cf -> write_configuration_with_audit sqlite_fails cf draft (w_store (ms_world m)) = (r, st) ->
  in_step (Url := Url) c eq (mkWorld st (w_service (ms_world m))).
Proof.
  intros Hm Ht Hw. destruct (run_op sqlite_fails (WriteConfigurationWithAudit cf draft) (w_store (ms_world m))) as [r' st'] eqn:Hrun.
  assert (st' = st) as ->.
  { revert Hrun. simpl. unfold discard, bind, ret. rewrite Hw. destruct r; by intros [= _ <-]. }
  exact (manage_in_step sqlite_fails c eq (WriteConfigurationWithAudit cf draft) _ _ _ (so_step m Hm) Ht Hrun).
Qed.

(** A stored creation. *)
Lemma created_sound cf draft now m e st :
  sound m -> cf_typed cf -> audit_draft_try_new AuditCreated (actor_as_str (ms_actor m)) now = Ok draft ->
  write_configuration_with_audit sqlite_fails cf draft (w_store (ms_world m)) = (Ok e, st) ->
  sound (mkManagement (mkWorld st (w_service (ms_world m))) (ms_actor m) (ms_readings m))
  /\ db_audit (st_db st) = db_audit (ms_db m) ++ [e] /\ decode_audit_event e = Ok e
  /\ e = event_of (mkAuditDraft AuditCreated (actor_as_str (ms_actor m)) now) (cv_id (cf_version cf)) None (ms_db m).
Proof.
  intros Hm Ht Hd Hw. pose proof Hd as Hdraft%audit_draft_inv. pose proof (write_in_step _ _ _ _ _ Hm Ht Hw) as Hstep.
  pose proof (is_ok _ _ _ Hstep) as Hok'. cbn [w_store] in Hok'.
  destruct (write_logs sqlite_fails cf draft _ _ _ Ht (sound_ok m Hm) Hw) as (Hn & Hs & He & Ha & Hl).
  assert (decode_audit_event e = Ok e) as Hdec.
  { rewrite He. apply (event_decodes AuditCreated (actor_as_str (ms_actor m)) now); [done| |done].
    pose proof (f_equal (lookup (cv_id (cf_version cf))) Hs) as Hl'. unfold statuses in Hl'.
    rewrite lookup_insert_eq, lookup_fmap in Hl'. apply fmap_Some in Hl' as (v & Hv & _).
    by eapply version_id_stored. }
  split_and!; [|exact Hl|exact Hdec|by rewrite He, Hdraft].
  constructor; [exact Hstep| |eapply readable_snoc; [apply Hm|exact Hl|exact Hdec]].
  eapply (journaled_created (ms_db m) _ (cv_id (cf_version cf)) e);
    [by apply sound_ok|exact Hok'|apply Hm|exact Hn|exact Hs|exact Hl|by rewrite He..].
Qed.

Lemma create_step cf now m r m' :
  sound m -> cf_typed cf -> create_configuration_at sqlite_fails cf now m = (r, m') ->
  sound m' /\ ms_registry m' = ms_registry m
  /\ match r with
     | Ok a => let e := created_audit_event a in db_audit (ms_db m') = db_audit (ms_db m) ++ [e]
         /\ ae_action e = AuditCreated /\ ae_actor e = actor_as_str (ms_actor m) /\ ae_occurred_at_ms e = now
         /\ decode_audit_event e = Ok e
     | _ => ms_db m' = ms_db m
     end.
Proof.
  intros Hm Ht. unfold create_configuration_at, bind. destruct (draft_for AuditCreated now m) as [rd m1] eqn:Hd.
  apply draft_for_inv in Hd as [-> ->]. destruct (audit_draft_try_new _ _ _) as [draft|e|] eqn:Hd; simpl;
    [|by intros [= <- <-]..].
  unfold on_repository. destruct (write_configuration_with_audit sqlite_fails cf draft (w_store (ms_world m))) as [rw st] eqn:Hw.
  destruct rw as [e|e|]; simpl; intros [= <- <-];
    [|pose proof (write_failed_keeps _ _ _ _ _ Hw ltac:(done)) as Hdb;
      (split_and!; [by apply (sound_world m)|done|exact Hdb])..].
  destruct (created_sound _ _ _ _ _ _ Hm Ht Hd Hw) as (Hs & Hl & Hdec & He).
  split_and!; [done|done|exact Hl|by rewrite He|by rewrite He|by rewrite He|exact Hdec].
Qed.

(** A committed transition. *)
Lemma transition_sound action now draft id m s1 a e s2 w' :
  sound m -> action = AuditPublished \/ action = AuditRolledBack ->
  audit_draft_try_new action (actor_as_str (ms_actor m)) now = Ok draft -> st_db s1 = ms_db m ->
  activate_version_with_audit sqlite_fails id draft s1 = (Ok (a, e), s2) -> in_step (Url := Url) c eq w' -> w_store w' = s2 ->
  sound (mkManagement w' (ms_actor m) (S (ms_readings m)))
  /\ db_audit (st_db s2) = db_audit (ms_db m) ++ [e] /\ decode_audit_event e = Ok e
  /\ ae_action e = action /\ ae_actor e = actor_as_str (ms_actor m) /\ ae_occurred_at_ms e = now.
Proof.
  intros Hm Hact Hd Hdb Ha Hstep Hw. pose proof Hd as Hdraft%audit_draft_inv.
  destruct (activate_logs sqlite_fails _ _ _ _ _ _ Ha) as (v & Hv & Hs & He & Hdb2). rewrite Hdb in Hv, He, Hdb2.
  assert (decode_audit_event e = Ok e) as Hdec.
  { rewrite He. eapply event_decodes; [exact Hd| |].
    - apply (stored_id m); [done|]. by eexists.
    - intros i. by apply active_id. }
  pose proof (is_ok _ _ _ Hstep) as Hok'. rewrite Hw in Hok'.
  assert (db_audit (st_db s2) = db_audit (ms_db m) ++ [e]) as Hl by by rewrite Hdb2.
  split_and!; [|exact Hl|exact Hdec|by rewrite He, Hdraft..].
  constructor; [exact Hstep|..]; unfold ms_db; cbn [ms_world]; rewrite Hw.
  - eapply (journaled_transition (ms_db m) _ id v e);
      [by apply sound_ok|done|apply Hm|done|done|exact Hdb2|by rewrite He|by rewrite He, Hdraft|by rewrite He].
  - eapply readable_snoc; [apply Hm|exact Hl|exact Hdec].
Qed.

(** Reading the clock and failing to draft an event changes nothing. *)
Lemma ticked_sound m : sound m -> sound (mkManagement (ms_world m) (ms_actor m) (S (ms_readings m))).
Proof. intros Hm. by apply (sound_world m). Qed.

Lemma publish_step id m r m' :
  sound m -> publish_configuration (Url := Url) sqlite_fails now_ms id m = (r, m') ->
  sound m' /\ audited AuditPublished now_ms audit_event m r m'.
Proof.
  intros Hm. unfold publish_configuration, bind. destruct (audit_draft now_ms AuditPublished m) as [rd m1] eqn:Hd.
  apply audit_draft_steps in Hd as [-> Hd]. pose proof (ticked_sound m Hm) as Hm1.
  destruct rd as [draft|e|]; [|by intros [= <- <-]..]. destruct Hd as (now & Hnow & Hd).
  pose proof Hd as Hdraft%audit_draft_inv. unfold on_publisher.
  destruct (publish_version_with_audit (Url := Url) sqlite_fails id draft _) as [rp w'] eqn:Hp.
  pose proof (publish_in_step sqlite_fails c eq _ _ _ _ _ (so_step _ Hm1) Hp) as Hstep.
  unfold publish_version_with_audit in Hp. rewrite Hdraft in Hp. simpl in Hp. rewrite <- Hdraft in Hp. cbn [ms_world].
  intros [= <- <-].
  destruct (publish_inv sqlite_fails _ _ _ _ _ (sound_ok m Hm) Hp)
    as [[[Hdb Hsv] Hf]|(v & next & a & e & s1 & s2 & _ & _ & _ & Hdb & (ev & -> & Ha) & -> & Hw')].
  - split; [by apply (sound_world m)|]. destruct rp; [by destruct (Hf a)|..]; simpl; split; try exact Hdb;
      unfold ms_registry, w_registry; cbn [ms_world]; by rewrite Hsv.
  - destruct (transition_sound AuditPublished now draft id m s1 a ev s2 w') as (Hs & Hl & Hdec & H1 & H2 & H3);
      [done|by left|done|done|done|done|by rewrite Hw'|]. split; [exact Hs|]. simpl. exists ev.
    split_and!; [done| |done|done|by rewrite Hnow, H3|done]. unfold ms_db at 1. cbn [ms_world]. by rewrite Hw'.
Qed.

Lemma rollback_step m r m' :
  sound m -> rollback_configuration sqlite_fails now_ms m = (r, m') ->
  sound m' /\ audited AuditRolledBack now_ms audit_event m r m'.
Proof.
  intros Hm. unfold rollback_configuration, bind. destruct (audit_draft now_ms AuditRolledBack m) as [rd m1] eqn:Hd.
  apply audit_draft_steps in Hd as [-> Hd]. pose proof (ticked_sound m Hm) as Hm1.
  destruct rd as [draft|e|]; [|by intros [= <- <-]..]. destruct Hd as (now & Hnow & Hd).
  pose proof Hd as Hdraft%audit_draft_inv. unfold on_publisher.
  destruct (rollback_with_audit sqlite_fails draft _) as [rp w'] eqn:Hp.
  pose proof (rollback_in_step sqlite_fails c eq _ _ _ _ (so_step _ Hm1) Hp) as Hstep.
  unfold rollback_with_audit in Hp. rewrite Hdraft in Hp. simpl in Hp. rewrite <- Hdraft in Hp. cbn [ms_world].
  intros [= <- <-].
  destruct (rollback_inv sqlite_fails _ _ _ _ Hp)
    as [[[Hdb Hsv] Hf]|(next & a & e & s2 & _ & _ & _ & (ev & -> & Ha) & -> & Hw')].
  - split; [by apply (sound_world m)|]. destruct rp; [by destruct (Hf a)|..]; simpl; split; try exact Hdb;
      unfold ms_registry, w_registry; cbn [ms_world]; by rewrite Hsv.
  - destruct (transition_sound AuditRolledBack now draft (mkVersionId (version next)) m (w_store (ms_world m)) a ev s2 w')
      as (Hs & Hl & Hdec & H1 & H2 & H3);
      [done|by right|done|done|done|done|by rewrite Hw'|]. split; [exact Hs|]. simpl. exists ev.
    split_and!; [done| |done|done|by rewrite Hnow, H3|done]. unfold ms_db at 1. cbn [ms_world]. by rewrite Hw'.
Qed.

Lemma timed_create_step (build : Z -> ControlPlaneConfiguration) m r m' :
  sound m -> (forall now, cf_typed (build now)) ->
  (let! now := read_clock now_ms in create_configuration_at sqlite_fails (build now) now) m = (r, m') ->
  sound m' /\ audited AuditCreated now_ms (fun a => Some (created_audit_event a)) m r m'.
Proof.
  intros Hm Ht. unfold bind, read_clock.
  destruct (now_ms (ms_readings m)) as [now|e|] eqn:Hnow; simpl; [|by intros [= <- <-]; (split; [apply ticked_sound|])..].
  intros (Hs & Hreg & Hr)%(create_step _ _ _ _ _ (ticked_sound m Hm) (Ht now)). split; [done|]. unfold audited.
  destruct r as [a| |]; [|by split..]. destruct Hr as (Hl & H1 & H2 & H3 & Hdec). exists (created_audit_event a).
  by rewrite Hnow, H3.
Qed.

Lemma create_configuration_step cf m r m' :
  sound m -> cf_typed cf -> create_configuration sqlite_fails now_ms cf m = (r, m') ->
  sound m' /\ audited AuditCreated now_ms (fun a => Some (created_audit_event a)) m r m'.
Proof. intros Hm Ht. by apply (timed_create_step (fun _ => cf)). Qed.

Lemma create_empty_step id parent description m r m' :
  sound m -> create_empty_configuration sqlite_fails now_ms id parent description m = (r, m') ->
  sound m' /\ audited AuditCreated now_ms (fun a => Some (created_audit_event a)) m r m'.
Proof.
  intros Hm. apply (timed_create_step (fun now =>
    configuration_new (mkConfigVersion id parent VersionDraft 0 now description))); [done|]. by intros now ? ?%elem_of_nil.
Qed.

(** Edits of drafts and resource events leave the log and the versions alone. *)
Definition edits (op : StoreOp) : Prop :=
  match op with
  | MutateDraft _ _ ops => Forall op_typed ops
  | RecordResourceEvent _ _ => True
  | _ => False
  end.

Definition same_log (db0 db : Database) : Prop := statuses db = statuses db0 /\ db_audit db = db_audit db0.

Lemma same_log_keeps db0 id stmt : keeps id (same_log db0) stmt.
Proof. constructor. by intros db n g Hs _ _. Qed.

Lemma same_log_audit db0 : keeps_audit (same_log db0).
Proof. intros db id draft n db' Hs. unfold resource_audit_stmt. case_match; [|done]. by intros [= _ <-]. Qed.

Lemma bump_same_log id expected db db' : bump_stmt id expected db = Some (1, db') -> same_log db db'.
Proof.
  unfold bump_stmt. destruct (db_versions db !! id) as [u|] eqn:Hu; [|done].
  destruct (bool_decide (cv_status u = VersionDraft) && (cv_revision u =? expected)); [|done].
  destruct (in_i64 (expected + 1)); [|done]. intros [= <-]. split; [|done]. unfold statuses. simpl.
  rewrite fmap_insert. simpl. apply insert_id. by rewrite lookup_fmap, Hu.
Qed.

Lemma edits_same_log op db0 : edits op -> triple (eq db0) (op_body sqlite_fails op) (fun _ => same_log db0).
Proof.
  intros He. destruct op as [cf|cf draft|i|i draft|i expected ops|i draft|i c' expected]; simpl in He; try done.
  - eapply discard_triple; [eapply (mutate_triple _ _ (same_log db0) (same_log db0))|].
    + intros db db' _ <-. apply bump_same_log.
    + apply apply_ops_triple; [intros op _; apply same_log_keeps|apply same_log_audit].
    + by intros a db [_ Hf].
  - apply resource_event_triple. intros db n db' <-. unfold resource_audit_stmt. case_match; [|done]. by intros [= _ <-].
Qed.

Lemma edit_step op m r st :
  sound m -> edits op -> run_op sqlite_fails op (w_store (ms_world m)) = (r, st) ->
  sound (mkManagement (mkWorld st (w_service (ms_world m))) (ms_actor m) (ms_readings m)).
Proof.
  intros Hm He Hrun.
  assert (manages op) as Hman by (by destruct op).
  pose proof (manage_in_step sqlite_fails c eq op _ _ _ (so_step m Hm) Hman Hrun) as Hstep.
  pose proof (is_ok _ _ _ Hstep) as Hok'.
  assert (same_log (ms_db m) (st_db st)) as [Hs Ha].
  { pose proof (run_op_spec sqlite_fails _ op _ _ r st (edits_same_log op (ms_db m) He) eq_refl Hrun) as Hr.
    destruct r; [done|by rewrite Hr..]. }
  constructor; [exact Hstep| |].
  - eapply (journaled_same (ms_db m)); [by apply sound_ok|exact Hok'|exact Hs|exact Ha|apply Hm].
  - unfold readable, ms_db. cbn [ms_world w_store]. rewrite Ha. apply Hm.
Qed.
End Steps.

(** ** Lemmas: reads *)

Section Reads.
Context {Url : Type} `{!UrlCrate Url} `{!JsonText} `{!SqliteJson} (sqlite_fails : nat -> bool) (c : RouteCompiler).

Lemma decode_events_ok l :
  Forall (fun e => decode_audit_event e = Ok e) l ->
  try_fold (fun events e => let? event := decode_audit_event e in Ok (E := StoreError) (events ++ [event])) l [] = Ok l.
Proof.
  intros Hl. assert (forall acc, try_fold (fun events e => let? event := decode_audit_event e in
    Ok (E := StoreError) (events ++ [event])) l acc = Ok (acc ++ l)) as Hgen; [|by rewrite (Hgen [])].
  induction Hl as [|e l He _ IH]; intros acc; simpl; [by rewrite app_nil_r|]. rewrite He. simpl.
  rewrite IH. by rewrite <- app_assoc.
Qed.

Lemma audit_log_reads : reads sqlite_fails readable (list_management_audit_events sqlite_fails) db_audit.
Proof.
  apply reads_transaction. eapply store_reads_bind; [apply reads_query|]. intros db Hr. apply reads_lift.
  intros ? <-. by apply decode_events_ok.
Qed.

Lemma versions_reads :
  reads sqlite_fails db_ok (list_config_versions sqlite_fails) (fun db => sorted_values version_leb (db_versions db)).
Proof.
  apply reads_transaction, load_rows_reads. intros db v Hok [k Hk]%elem_of_sorted_values.
  apply version_check_ok. by eapply (do_versions db Hok).
Qed.

Lemma version_reads id :
  reads sqlite_fails db_ok (load_config_version sqlite_fails id) (fun db => db_versions db !! id).
Proof. apply reads_transaction, load_version_reads. Qed.

(** A read of the repository gives what the database holds, or SQLite failed. *)
Lemma on_repository_reads {A} P (read : StoreM A) f m r m' :
  reads sqlite_fails P read f -> P (ms_db m) -> on_repository read m = (r, m') ->
  ms_db m' = ms_db m /\ w_service (ms_world m') = w_service (ms_world m)
  /\ ((r = Err (ServiceStore Sqlite) /\ exists n, sqlite_fails n = true) \/ r = Ok (f (ms_db m))).
Proof.
  intros Hr HP. unfold on_repository. destruct (read (w_store (ms_world m))) as [r0 st] eqn:Hm.
  destruct (Hr _ _ _ HP Hm) as [Hdb Hres]. intros [= <- <-]. split_and!; [exact Hdb|done|].
  destruct Hres as [[-> Hn]| ->]; [by left|by right].
Qed.

Lemma read_sound {A} P (read : StoreM A) f m r m' :
  sound (Url := Url) c m -> reads sqlite_fails P read f -> P (ms_db m) -> on_repository read m = (r, m') ->
  sound (Url := Url) c m'.
Proof. intros Hm Hr HP Hrun. destruct (on_repository_reads _ _ _ _ _ _ Hr HP Hrun) as (? & ? & _). by apply (sound_world _ m). Qed.
End Reads.

(** ** The life of a management service *)

Section Reachable.
Context {Url : Type} `{!UrlCrate Url} `{!JsonText} `{!SqliteJson} (sqlite_fails : nat -> bool)
  (now_ms : nat -> result ManagementClockError Z) (c : RouteCompiler).

(** A service on an empty database, its operations in any order with any failures
    of SQLite and of the clock, edits of drafts in between, and restarts under any
    actor. *)
Inductive managed : ManagementService -> Prop :=
| managed_first clock actor m st :
    bootstrap_with_clock (Url := Url) sqlite_fails c actor (mkStore empty_db clock) = (Ok m, st) -> managed m
| managed_restart m0 clock actor m st :
    managed m0 -> bootstrap_with_clock (Url := Url) sqlite_fails c actor (mkStore (ms_db m0) clock) = (Ok m, st) -> managed m
| managed_create m cf r m' :
    managed m -> cf_typed cf -> create_configuration sqlite_fails now_ms cf m = (r, m') -> managed m'
| managed_create_empty m id parent description r m' :
    managed m -> create_empty_configuration sqlite_fails now_ms id parent description m = (r, m') -> managed m'
| managed_validate m id r m' :
    managed m -> validate_configuration (Url := Url) sqlite_fails id m = (r, m') -> managed m'
| managed_versions m r m' : managed m -> config_versions sqlite_fails m = (r, m') -> managed m'
| managed_version m id r m' : managed m -> config_version sqlite_fails id m = (r, m') -> managed m'
| managed_publish m id r m' :
    managed m -> publish_configuration (Url := Url) sqlite_fails now_ms id m = (r, m') -> managed m'
| managed_rollback m r m' : managed m -> rollback_configuration sqlite_fails now_ms m = (r, m') -> managed m'
| managed_events m r m' : managed m -> audit_events sqlite_fails m = (r, m') -> managed m'
| managed_edit m op r st :
    managed m -> edits op -> run_op sqlite_fails op (w_store (ms_world m)) = (r, st) ->
    managed (mkManagement (mkWorld st (w_service (ms_world m))) (ms_actor m) (ms_readings m)).

Lemma bootstrap_sound db clock actor m st :
  startable (Url := Url) c db -> journaled db -> readable db ->
  bootstrap_with_clock (Url := Url) sqlite_fails c actor (mkStore db clock) = (Ok m, st) -> sound (Url := Url) c m.
Proof.
  intros Hs Hj Hr. unfold bootstrap_with_clock.
  destruct (bootstrap (Url := Url) sqlite_fails c (mkStore db clock)) as [r s] eqn:Hb.
  destruct (bootstrap_inv sqlite_fails c eq (mkStore db clock) _ _ Hs Hb) as [Hdb [[-> _]|(svc & -> & Hstep & _)]]; [done|].
  intros [= <- _]. constructor; [exact Hstep|..]; unfold ms_db; cbn [ms_world w_store]; by rewrite Hdb.
Qed.

Lemma validate_sound m id r m' :
  sound (Url := Url) c m -> validate_configuration (Url := Url) sqlite_fails id m = (r, m') -> sound (Url := Url) c m'.
Proof.
  intros Hm. unfold validate_configuration, on_publisher.
  destruct (validate_version (Url := Url) sqlite_fails id (ms_world m)) as [r0 w] eqn:Hv. intros [= _ <-].
  destruct (validate_in_step sqlite_fails c eq _ _ _ _ (so_step _ m Hm) Hv) as [Hdb Hsv]. by apply (sound_world _ m).
Qed.

Lemma managed_sound m : managed m -> sound (Url := Url) c m.
Proof.
  induction 1.
  - eapply bootstrap_sound; [apply empty_startable|reflexivity|constructor|eassumption].
  - eapply bootstrap_sound; [| | |eassumption]; [apply (in_step_startable c eq); apply IHmanaged|apply IHmanaged|apply IHmanaged].
  - by eapply create_configuration_step.
  - by eapply create_empty_step.
  - by eapply validate_sound.
  - eapply (read_sound sqlite_fails c db_ok); [done|apply versions_reads|by apply (sound_ok c)|eassumption].
  - eapply (read_sound sqlite_fails c db_ok); [done|apply version_reads|by apply (sound_ok c)|eassumption].
  - by eapply publish_step.
  - by eapply rollback_step.
  - eapply (read_sound sqlite_fails c readable); [done|apply audit_log_reads|by destruct IHmanaged|eassumption].
  - by eapply edit_step.
Qed.

(** ** Properties *)

(** C12: The audit log is the history. In every state a management service can
    reach, through any operations, restarts, edits of drafts and failures of
    SQLite and of the clock, the log reads back unless SQLite fails, and replaying
    it from nothing, each event checked against the state the events before it
    left, succeeds and yields exactly the stored versions with their statuses and
    the version that the registry serves. *)
Theorem audit_log_is_history m r m' :
  managed m -> audit_events sqlite_fails m = (r, m') ->
  (r = Err (ServiceStore Sqlite) /\ exists n, sqlite_fails n = true)
  \/ exists events j, r = Ok events /\ replay empty_journal events = Some j
       /\ j_status j = cv_status <$> db_versions (ms_db m)
       /\ match j_active j with
          | Some id => version (current (ms_registry m)) = version_text id
              /\ exists v, db_versions (ms_db m) !! id = Some v
                   /\ compiled_snapshot (Url := Url) c (configuration_at (ms_db m) v) = Ok (current (ms_registry m))
          | None => current (ms_registry m) = mkRouteSnapshot SYNTHETIC_BOOTSTRAP_VERSION ∅ ∅ ∅ ∅ ∅ ∅ ∅
          end.
Proof.
  intros Hm%managed_sound Hrun. pose proof Hm as [Hstep Hj Hr].
  destruct (on_repository_reads sqlite_fails _ _ _ _ _ _ (audit_log_reads sqlite_fails) Hr Hrun) as (_ & _ & [?| ->]); [by left|].
  right. exists (db_audit (ms_db m)), (journal_of (ms_db m)). split_and!; [done|exact Hj|done|].
  destruct Hstep as [Hok _ _ _ Hserv]. cbv zeta in Hserv. unfold journal_of, ms_db, ms_registry. cbn [j_active].
  destruct (active_row (st_db (w_store (ms_world m)))) as [a|] eqn:Ha; simpl.
  - destruct Hserv as [Hs _]. split; [by eapply serves_version|]. destruct Hs as (v & Hv & _ & credentials & ->%list_eq_Forall2 & Hc). by exists v.
  - destruct Hserv as (Hb & _ & _). rewrite empty_bootstrap_is in Hb. by injection Hb as <-.
Qed.

(** C13: Every change is audited, and nothing else changes anything. A creation, a
    publication or a rollback that reports success appended exactly the event that
    it returns, with its own action, the actor of the service, the reading of the
    clock it started with, and readable; one that reports an error left the
    database and the registry as they were. *)
Theorem every_change_is_audited m :
  managed m ->
  (forall cf r m', cf_typed cf -> create_configuration sqlite_fails now_ms cf m = (r, m') ->
     audited AuditCreated now_ms (fun a => Some (created_audit_event a)) m r m')
  /\ (forall id parent description r m',
     create_empty_configuration sqlite_fails now_ms id parent description m = (r, m') ->
     audited AuditCreated now_ms (fun a => Some (created_audit_event a)) m r m')
  /\ (forall id r m', publish_configuration (Url := Url) sqlite_fails now_ms id m = (r, m') ->
     audited AuditPublished now_ms audit_event m r m')
  /\ (forall r m', rollback_configuration sqlite_fails now_ms m = (r, m') ->
     audited AuditRolledBack now_ms audit_event m r m').
Proof.
  intros Hm%managed_sound. split_and!; intros.
  - by eapply create_configuration_step.
  - by eapply create_empty_step.
  - by eapply publish_step.
  - by eapply rollback_step.
Qed.
End Reachable.

(** ** A service with two published versions *)

Section Witnesses.
#[local] Existing Instance ex_crate.
#[local] Existing Instance ex_json_text.
#[local] Existing Instance ex_columns.

(** The clock cannot be read the first time. *)
Definition ex_now (n : nat) : result ManagementClockError Z :=
  match n with O => Err ClockUnavailable | _ => Ok (100 + Z.of_nat n) end.

Definition ex_admin : ManagementActor := mkActor "admin".

Abbreviation ex_managed := (managed (Url := TableUrl) ex_outage ex_now ex_evidence).

Definition ex_service : ManagementService :=
  match bootstrap_with_clock (Url := TableUrl) ex_outage ex_evidence ex_admin (mkStore empty_db 0) with
  | (Ok m, _) => m
  | (_, st) => mkManagement (mkWorld st (mkService ex_evidence (registry_new ex_empty) None)) ex_admin 0
  end.
Definition ex_create (id : string) (m : ManagementService) : ManagementService :=
  (create_configuration ex_outage ex_now (ex_live id) m).2.
Definition ex_publish (id : string) (m : ManagementService) : ManagementService :=
  (publish_configuration (Url := TableUrl) ex_outage ex_now (mkVersionId id) m).2.
Definition ex_roll_back (m : ManagementService) : ManagementService := (rollback_configuration ex_outage ex_now m).2.

Lemma ex_service_managed : ex_managed ex_service.
Proof.
  unfold ex_service. destruct (bootstrap_with_clock (Url := TableUrl) ex_outage ex_evidence ex_admin (mkStore empty_db 0)) as [r st] eqn:Hb.
  destruct r as [m|e|]; [by eapply managed_first|apply (f_equal fst) in Hb; vm_compute in Hb; discriminate Hb..].
Qed.

Lemma ex_create_managed id m : ex_managed m -> ex_managed (ex_create id m).
Proof. intros Hm. eapply managed_create; [exact Hm|exact (ex_live_typed id)|apply surjective_pairing]. Qed.

Lemma ex_publish_managed id m : ex_managed m -> ex_managed (ex_publish id m).
Proof. intros Hm. eapply managed_publish; [exact Hm|apply surjective_pairing]. Qed.

Lemma ex_roll_back_managed m : ex_managed m -> ex_managed (ex_roll_back m).
Proof. intros Hm. eapply managed_rollback; [exact Hm|apply surjective_pairing]. Qed.

#[local] Hint Resolve ex_service_managed ex_create_managed ex_publish_managed ex_roll_back_managed : core.

(** The first creation fails with the clock, the first one of the second version
    with SQLite. *)
Definition ex_history : ManagementService :=
  ex_roll_back (ex_publish "v2" (ex_create "v2" (ex_create "v2" (ex_publish "v1" (ex_create "v1" (ex_create "v1" ex_service)))))).

Lemma audit_log_is_history_witness :
  version (current (ms_registry ex_history)) = "v1"
  /\ (ae_action <$> db_audit (ms_db ex_history))
     = [AuditCreated; AuditPublished; AuditCreated; AuditPublished; AuditRolledBack].
Proof.
  assert (ex_managed ex_history) as Hm by (unfold ex_history; auto 10).
  destruct (audit_events ex_outage ex_history) as [r m'] eqn:Hr.
  destruct (audit_log_is_history (Url := TableUrl) ex_outage ex_now ex_evidence ex_history r m' Hm Hr)
    as [[He _]|(events & j & He & Hj & _ & Hact)].
  - apply (f_equal fst) in Hr. rewrite He in Hr. vm_compute in Hr. discriminate Hr.
  - apply (f_equal fst) in Hr. rewrite He in Hr. cbn [fst] in Hr.
    assert (j_active <$> replay empty_journal events = Some (Some (mkVersionId "v1"))) as Hv1.
    { assert (match (audit_events ex_outage ex_history).1 with
              | Ok events => j_active <$> replay empty_journal events
              | _ => None
              end = Some (Some (mkVersionId "v1"))) as Hc by (vm_compute; reflexivity).
      rewrite Hr in Hc. exact Hc. }
    rewrite Hj in Hv1. injection Hv1 as Hv1. rewrite Hv1 in Hact. split; [exact (proj1 Hact)|].
    vm_compute. reflexivity.
Defined.

Lemma every_change_is_audited_witness :
  let m := ex_create "v1" (ex_create "v1" ex_service) in
  audited AuditPublished ex_now audit_event m
    (publish_configuration (Url := TableUrl) ex_outage ex_now (mkVersionId "v1") m).1 (ex_publish "v1" m).
Proof.
  intros m. assert (ex_managed m) as Hm by (unfold m; auto 10).
  apply (every_change_is_audited (Url := TableUrl) ex_outage ex_now ex_evidence m Hm) with (id := mkVersionId "v1").
  apply surjective_pairing.
Defined.
End Witnesses.

End Management.
