(* ===== verification/ManagementSecurity.v ===== *)
(** * Admission of management requests

    Models [crates/gateway-http-actix/src/management_security.rs]: the guard in
    front of every [/admin] route. A request is admitted by its peer address, by
    the management key, and, when a browser sent it, by its origin and its CSRF
    token.

    The [url] crate is the parameter [UrlCrate], extended here by what an origin
    needs. A header value is given as the text [to_str] reads from it, absent when
    it is not visible ASCII. *)

From S2P Require Import Prelude Text EgressPolicy ManagementService.
Import Management.
Local Open Scope string_scope.
Local Open Scope list_scope.
Local Open Scope Z_scope.

Class OriginUrl (Url : Type) := {
  url_query : Url -> option string;
  url_fragment : Url -> option string;
  url_path : Url -> string;
  ascii_serialization : Url -> string;
}.

Module Security.

(** ** Secrets *)

Definition MANAGEMENT_KEY_HEADER : string := "x-management-key".
Definition CSRF_HEADER : string := "x-management-csrf-token".
Definition MANAGEMENT_ACTOR_LABEL : string := "management-key".

Definition is_ascii_alphanumeric (c : ascii) : bool :=
  let n := char_code c in
  ((48 <=? n) && (n <=? 57)) || ((65 <=? n) && (n <=? 90)) || ((97 <=? n) && (n <=? 122)).

Definition secret_char (c : ascii) : bool :=
  is_ascii_alphanumeric c || bool_decide (c = "_"%char) || bool_decide (c = "-"%char).

Definition valid_secret (value prefix : string) : bool :=
  let len := Z.of_nat (String.length value) in
  (32 <=? len) && (len <=? 512) && String.prefix prefix value && all_chars secret_char value.

Inductive ManagementKeyError : Type := KeyInvalidFormat.
Record ManagementKey : Type := mkManagementKey { key_text : string }.

Definition key_try_new (value : string) : result ManagementKeyError ManagementKey :=
  if negb (valid_secret value "mgmt_") then Err KeyInvalidFormat else Ok (mkManagementKey value).

Definition key_matches (k : ManagementKey) (candidate : string) : bool := bool_decide (key_text k = candidate).

Inductive ManagementCsrfTokenError : Type := TokenInvalidFormat.
Record ManagementCsrfToken : Type := mkCsrfToken { token_text : string }.

Definition token_try_new (value : string) : result ManagementCsrfTokenError ManagementCsrfToken :=
  if negb (valid_secret value "csrf_") then Err TokenInvalidFormat else Ok (mkCsrfToken value).

Definition token_matches (t : ManagementCsrfToken) (candidate : string) : bool := bool_decide (token_text t = candidate).

(** ** Policies *)

Inductive ManagementOriginError : Type := OriginInvalid.
Record ManagementOrigin : Type := mkOrigin { origin_text : string }.

#[export] Instance ManagementOrigin_eq_dec : EqDecision ManagementOrigin.
Proof. solve_decision. Defined.

Inductive ManagementNetworkPolicy : Type := LoopbackOnly | LoopbackOrPrivate.

(** [IpAddr::is_loopback], [Ipv4Addr::is_private] and [octets]. *)
Definition v4_octet (n : Z) (v : Z) : Z := Z.land (Z.shiftr v (24 - 8 * n)) 255.
Definition v6_octet0 (v : Z) : Z := Z.land (Z.shiftr v 120) 255.

Definition is_loopback (a : IpAddr) : bool :=
  match a with V4 v => v4_octet 0 v =? 127 | V6 v => v =? 1 end.

Definition is_private_v4 (v : Z) : bool :=
  (v4_octet 0 v =? 10)
  || ((v4_octet 0 v =? 172) && (16 <=? v4_octet 1 v) && (v4_octet 1 v <=? 31))
  || ((v4_octet 0 v =? 192) && (v4_octet 1 v =? 168)).

Definition admits (p : ManagementNetworkPolicy) (a : IpAddr) : bool :=
  is_loopback a
  || (match p with LoopbackOrPrivate => true | LoopbackOnly => false end
      && match a with V4 v => is_private_v4 v | V6 v => Z.land (v6_octet0 v) 254 =? 252 end).

Inductive ManagementBrowserPolicy : Type :=
| DenyBrowserOrigins
| SameOrigin (origin : ManagementOrigin) (csrf_token : ManagementCsrfToken).

Record ManagementHttpState : Type := mkHttpState {
  hs_key : ManagementKey;
  hs_network_policy : ManagementNetworkPolicy;
  hs_browser_policy : ManagementBrowserPolicy;
  hs_actor : ManagementActor;
}.

Inductive ManagementHttpStateError : Type := AuditActorUnavailable.

Definition http_state_new (key : ManagementKey) (network : ManagementNetworkPolicy) (browser : ManagementBrowserPolicy)
  : result ManagementHttpStateError ManagementHttpState :=
  let? actor := map_err (fun _ => AuditActorUnavailable) (actor_try_new MANAGEMENT_ACTOR_LABEL) in
  Ok (mkHttpState key network browser actor).

(** ** Requests *)

Inductive Method : Type := GET | HEAD | OPTIONS | OtherMethod (name : string).

#[export] Instance Method_eq_dec : EqDecision Method.
Proof. solve_decision. Defined.

Abbreviation HeaderValue := (option string).

Record HttpRequest : Type := mkHttpRequest {
  peer_addr : option IpAddr;
  method : Method;
  get_all : string -> list HeaderValue;
}.

Record ManagementRequestPrincipal : Type := mkPrincipal { principal_actor : ManagementActor }.

Abbreviation Admit A := (result unit A).

Definition single_header (request : HttpRequest) (name : string) : Admit (option HeaderValue) :=
  match get_all request name with
  | [] => Ok None
  | [value] => Ok (Some value)
  | _ :: _ :: _ => Err tt
  end.

Definition unsafe_method (m : Method) : bool := negb (bool_decide (m = GET) || bool_decide (m = HEAD)).

(** What the middleware answers: the fixed refusal or the answer of the service. *)
Inductive Response (B : Type) : Type :=
| NotFoundDenied
| Served (body : B).
Arguments NotFoundDenied {B}.
Arguments Served {B} body.

Section Guard.
Context {Url : Type} `{!UrlCrate Url} `{!OriginUrl Url}.

Definition origin_try_new (value : string) : result ManagementOriginError ManagementOrigin :=
  let? parsed := ok_or OriginInvalid (url_parse value) in
  if negb (bool_decide (url_scheme parsed ∈ ["http"; "https"])) || bool_decide (url_host_str parsed = None)
     || negb (bool_decide (url_username parsed = "")) || bool_decide (is_Some (url_password parsed))
     || bool_decide (is_Some (url_query parsed)) || bool_decide (is_Some (url_fragment parsed))
     || negb (bool_decide (url_path parsed ∈ [""; "/"]))
  then Err OriginInvalid
  else
    let origin := ascii_serialization parsed in
    if bool_decide (origin = "null") || negb (bool_decide (value = origin)) then Err OriginInvalid
    else Ok (mkOrigin origin).

Definition check_browser_boundary (s : ManagementHttpState) (request : HttpRequest) : Admit unit :=
  let? origin := single_header request "origin" in
  match origin with
  | None => Ok tt
  | Some origin =>
      let? origin := ok_or tt origin in
      let? origin := map_err (fun _ => tt) (origin_try_new origin) in
      match hs_browser_policy s with
      | DenyBrowserOrigins => Err tt
      | SameOrigin admitted_origin csrf_token =>
          if negb (bool_decide (origin = admitted_origin)) || bool_decide (method request = OPTIONS) then Err tt
          else if unsafe_method (method request) then
            let? presented := single_header request CSRF_HEADER in
            let? presented := ok_or tt presented in
            let? presented := ok_or tt presented in
            if negb (token_matches csrf_token presented) then Err tt else Ok tt
          else Ok tt
      end
  end.

Definition authenticate (s : ManagementHttpState) (request : HttpRequest) : Admit ManagementRequestPrincipal :=
  let? peer := ok_or tt (peer_addr request) in
  if negb (admits (hs_network_policy s) peer) then Err tt
  else
    let? presented := single_header request MANAGEMENT_KEY_HEADER in
    let? presented := ok_or tt presented in
    let? presented := ok_or tt presented in
    if negb (key_matches (hs_key s) presented) then Err tt
    else
      let? _ := check_browser_boundary s request in
      Ok (mkPrincipal (hs_actor s)).

(** ** The middleware around a service that acts on a state *)

Definition call {St B} (app_data : option ManagementHttpState)
    (service : HttpRequest -> ManagementRequestPrincipal -> St -> B * St) (request : HttpRequest) (st : St)
  : Response B * St :=
  match app_data with
  | None => (NotFoundDenied, st)
  | Some s =>
      match authenticate s request with
      | Ok principal => let '(body, st') := service request principal st in (Served body, st')
      | _ => (NotFoundDenied, st)
      end
  end.
End Guard.

(** ** Specification *)

Definition between (low high v : Z) : Prop := low <= v < high.

(** The peers of each policy, as ranges of addresses: 127.0.0.0/8 and ::1, and with
    private peers 10.0.0.0/8, 172.16.0.0/12, 192.168.0.0/16 and fc00::/7. *)
Definition peer_admitted (p : ManagementNetworkPolicy) (a : IpAddr) : Prop :=
  match a with
  | V4 v => between (127 * 2 ^ 24) (128 * 2 ^ 24) v
      \/ (p = LoopbackOrPrivate
          /\ (between (10 * 2 ^ 24) (11 * 2 ^ 24) v
              \/ between (172 * 2 ^ 24 + 16 * 2 ^ 16) (172 * 2 ^ 24 + 32 * 2 ^ 16) v
              \/ between (192 * 2 ^ 24 + 168 * 2 ^ 16) (192 * 2 ^ 24 + 169 * 2 ^ 16) v))
  | V6 v => v = 1 \/ (p = LoopbackOrPrivate /\ between (252 * 2 ^ 120) (254 * 2 ^ 120) v)
  end.

Definition presents (request : HttpRequest) (name secret : string) : Prop := get_all request name = [Some secret].

(** A request no browser page sent, or one that the admitted page sent. *)
Definition browser_admitted (policy : ManagementBrowserPolicy) (request : HttpRequest) : Prop :=
  get_all request "origin" = []
  \/ exists origin token, policy = SameOrigin origin token /\ presents request "origin" (origin_text origin)
       /\ method request <> OPTIONS
       /\ (method request <> GET -> method request <> HEAD -> presents request CSRF_HEADER (token_text token)).

Definition request_admitted (s : ManagementHttpState) (request : HttpRequest) : Prop :=
  (exists peer, peer_addr request = Some peer /\ peer_admitted (hs_network_policy s) peer)
  /\ presents request MANAGEMENT_KEY_HEADER (key_text (hs_key s))
  /\ browser_admitted (hs_browser_policy s) request.

(** ** Lemmas: addresses *)

Lemma v4_octet0 v : 0 <= v < 2 ^ 32 -> v4_octet 0 v = v / 2 ^ 24.
Proof.
  intros Hv. unfold v4_octet. rewrite Z.shiftr_div_pow2 by lia. change 255 with (Z.ones 8).
  rewrite Z.land_ones by lia. apply Z.mod_small. split; [apply Z.div_pos; lia|]. apply Z.div_lt_upper_bound; lia.
Qed.

Lemma v4_octet1 v : 0 <= v < 2 ^ 32 -> v4_octet 1 v = v / 2 ^ 16 - 256 * (v / 2 ^ 24).
Proof.
  intros Hv. unfold v4_octet. rewrite Z.shiftr_div_pow2 by lia. change 255 with (Z.ones 8).
  rewrite Z.land_ones by lia. change (24 - 8 * 1) with 16. change (2 ^ 8) with 256. change (2 ^ 16) with 65536.
  change (2 ^ 24) with 16777216. change (2 ^ 32) with 4294967296 in Hv. Z.to_euclidean_division_equations. lia.
Qed.

Lemma unique_local_octet x : 0 <= x < 256 -> Z.land x 254 = 252 <-> x = 252 \/ x = 253.
Proof.
  intros Hx.
  assert (Forall (fun n => Z.land (Z.of_nat n) 254 = 252 <-> Z.of_nat n = 252 \/ Z.of_nat n = 253) (seq 0 256)) as Hall.
  { apply (bool_decide_unpack _). vm_compute. exact Logic.I. }
  rewrite Forall_forall in Hall. specialize (Hall (Z.to_nat x)). rewrite Z2Nat.id in Hall by lia.
  apply Hall, elem_of_seq. lia.
Qed.

Lemma v6_octet0_div v : 0 <= v < 2 ^ 128 -> v6_octet0 v = v / 2 ^ 120.
Proof.
  intros Hv. unfold v6_octet0. rewrite Z.shiftr_div_pow2 by lia. change 255 with (Z.ones 8).
  rewrite Z.land_ones by lia. apply Z.mod_small. split; [apply Z.div_pos; lia|]. apply Z.div_lt_upper_bound; lia.
Qed.

Lemma div_between v k n : 0 < k -> v / k = n <-> between (n * k) ((n + 1) * k) v.
Proof.
  intros Hk. unfold between. split.
  - intros <-. pose proof (Z.mul_div_le v k Hk). pose proof (Z.mul_succ_div_gt v k Hk). lia.
  - intros Hv. symmetry. apply (Z.div_unique_pos v k n (v - n * k)); lia.
Qed.

Lemma admits_iff p a : ip_ok a -> admits p a = true <-> peer_admitted p a.
Proof.
  intros Ha. unfold admits, is_loopback. destruct a as [v|v]; simpl in Ha; cbn [peer_admitted].
  - unfold is_private_v4. rewrite v4_octet0, v4_octet1 by done.
    rewrite !orb_true_iff, !andb_true_iff, !orb_true_iff, !andb_true_iff, !Z.eqb_eq, !Z.leb_le.
    assert (forall n, v / 2 ^ 24 = n <-> between (n * 2 ^ 24) ((n + 1) * 2 ^ 24) v) as Hd by (intros n; by apply div_between).
    rewrite !Hd. unfold between. change (2 ^ 24) with 16777216. change (2 ^ 16) with 65536.
    destruct p; split; intros Hx; (destruct Hx as [Hx|[Hx Hy]]; [left; lia|right]); try done;
      (split; [done|]); Z.to_euclidean_division_equations; lia.
  - rewrite v6_octet0_div by done. rewrite orb_true_iff, andb_true_iff, !Z.eqb_eq.
    assert (0 <= v / 2 ^ 120 < 256) as Hb by (split; [apply Z.div_pos; lia|apply Z.div_lt_upper_bound; lia]).
    rewrite unique_local_octet, !div_between by lia. unfold between. destruct p; split; intros [Hx|[Hx Hy]];
      try (by left); try done; right; (split; [done|lia]).
Qed.

(** ** Lemmas: the guard decides the specification *)

Section Decides.
Context {Url : Type} `{!UrlCrate Url} `{!OriginUrl Url}.

(** A state as its constructors make it. *)
Definition origin_ok (o : ManagementOrigin) : Prop := origin_try_new (Url := Url) (origin_text o) = Ok o.

Definition state_ok (s : ManagementHttpState) : Prop :=
  match hs_browser_policy s with DenyBrowserOrigins => True | SameOrigin origin _ => origin_ok origin end.

Lemma origin_try_new_inv value o : origin_try_new (Url := Url) value = Ok o -> origin_text o = value.
Proof.
  unfold origin_try_new. destruct (url_parse value) as [u|]; simpl; [|done]. case_match; [done|].
  case_match eqn:Hc; [done|]. intros [= <-]. apply orb_false_iff in Hc as [_ Hc].
  apply negb_false_iff, bool_decide_eq_true in Hc. by simpl.
Qed.

(** [single_header(..)?], [to_str] and a comparison, as both secrets are checked. *)
Lemma presented_iff {A} request name secret (k : Admit A) (a : A) :
  (let? presented := single_header request name in
   let? presented := ok_or tt presented in
   let? presented := ok_or tt presented in
   if negb (bool_decide (secret = presented)) then Err tt else k) = Ok a
  <-> presents request name secret /\ k = Ok a.
Proof.
  unfold single_header, presents. destruct (get_all request name) as [|[value|] [|? ?]]; simpl;
    try (split; [done|by intros [? _]]). case_bool_decide as Hs; simpl; [subst; tauto|].
  split; [done|]. intros [[= <-] _]. done.
Qed.

Lemma boundary_iff s request :
  state_ok s -> check_browser_boundary (Url := Url) s request = Ok tt <-> browser_admitted (hs_browser_policy s) request.
Proof.
  intros Hs. unfold check_browser_boundary, browser_admitted. unfold single_header at 1. unfold presents at 1.
  destruct (get_all request "origin") as [|[value|] [|? ?]]; simpl;
    [split; [by left|done]| |split; [done|]; by intros [?|(? & ? & _ & ? & _)]..].
  destruct (origin_try_new value) as [o|e|] eqn:Ho; simpl.
  2,3: split; [done|]; intros [?|(origin & token & Hp & [= ->] & _)]; [done|];
       unfold state_ok in Hs; rewrite Hp in Hs; unfold origin_ok in Hs; congruence.
  pose proof (origin_try_new_inv _ _ Ho) as Hv. unfold state_ok in Hs.
  destruct (hs_browser_policy s) as [|admitted token]; [split; [done|]; by intros [?|(? & ? & ? & _)]|].
  unfold origin_ok in Hs. unfold unsafe_method, token_matches.
  destruct (bool_decide (o = admitted)) eqn:Heq; simpl.
  2:{ split; [done|]. intros [?|(o' & t' & [= <- <-] & [= ->] & _)]; [done|]. apply bool_decide_eq_false in Heq. congruence. }
  apply bool_decide_eq_true in Heq. subst admitted.
  pose proof (presented_iff request CSRF_HEADER (token_text token) (Ok tt) tt) as Hp.
  destruct (decide (method request = OPTIONS)) as [Hm|Hm]; [rewrite bool_decide_eq_true_2 by done|rewrite bool_decide_eq_false_2 by done].
  { split; [done|]. by intros [?|(? & ? & _ & _ & ? & _)]. }
  destruct (decide (method request = GET \/ method request = HEAD)) as [Hg|Hg].
  - assert (bool_decide (method request = GET) || bool_decide (method request = HEAD) = true) as ->
      by (destruct Hg as [-> | ->]; done).
    split; [|done]. intros _. right. exists o, token. rewrite Hv. split_and!; [done..|]. tauto.
  - rewrite !bool_decide_eq_false_2 by tauto. cbn [orb negb]. rewrite Hp. split.
    + intros [? _]. right. exists o, token. by rewrite Hv.
    + intros [?|(o' & t' & [= <- <-] & _ & _ & Ht)]; [done|]. split; [apply Ht; tauto|done].
Qed.

Lemma authenticate_iff s request principal :
  state_ok s -> (forall a, peer_addr request = Some a -> ip_ok a) ->
  authenticate (Url := Url) s request = Ok principal
  <-> request_admitted s request /\ principal = mkPrincipal (hs_actor s).
Proof.
  intros Hs Hip. unfold authenticate, request_admitted. destruct (peer_addr request) as [a|]; simpl.
  2:{ split; [done|]. by intros [[(? & ? & _) _] _]. }
  specialize (Hip a eq_refl).
  assert (forall P : IpAddr -> Prop, (exists peer, Some a = Some peer /\ P peer) <-> P a) as Ha
    by (intros P; split; [by intros (? & [= <-] & ?)|by exists a]).
  rewrite Ha. rewrite <- admits_iff by done. destruct (admits (hs_network_policy s) a); simpl; [|split; [done|by intros [[? _] _]]].
  unfold key_matches. rewrite presented_iff, <- boundary_iff by done.
  destruct (check_browser_boundary s request) as [[]|e|]; simpl; split;
    try (intros [? Hx]; try discriminate Hx); try (by intros [(_ & _ & ?) _]).
  - by injection Hx as <-.
  - destruct H as (_ & ? & _). by subst.
  - naive_solver.
  - naive_solver.
Qed.
End Decides.

(** ** Properties *)

Section Properties.
Context {Url : Type} `{!UrlCrate Url} `{!OriginUrl Url}.

(** C37: The guard lets through exactly the admitted requests. A management handler
    runs precisely when the peer address lies in the ranges of the network policy,
    the request carries the management key in one header and nothing else there,
    and no browser page sent it or the one admitted page did, with the CSRF token
    for every method but GET and HEAD; it then runs once, as the fixed audit actor.
    Every other request, and every request of an application without admission
    state, gets the same refusal, and no handler has run. *)
Theorem management_guard_exact {St B} app_data (service : HttpRequest -> ManagementRequestPrincipal -> St -> B * St)
    request st :
  (forall s, app_data = Some s -> state_ok (Url := Url) s) -> (forall a, peer_addr request = Some a -> ip_ok a) ->
  (exists s, app_data = Some s /\ request_admitted s request
     /\ call (Url := Url) app_data service request st
        = let '(body, st') := service request (mkPrincipal (hs_actor s)) st in (Served body, st'))
  \/ ((forall s, app_data = Some s -> ~ request_admitted s request)
      /\ call (Url := Url) app_data service request st = (NotFoundDenied, st)).
Proof.
  intros Hs Hip. unfold call. destruct app_data as [s|]; [|by right]. specialize (Hs s eq_refl).
  pose proof (fun p => authenticate_iff s request p Hs Hip) as Hauth.
  destruct (authenticate s request) as [p|e|].
  - left. exists s. destruct (proj1 (Hauth p) eq_refl) as [Hr ->]. done.
  - right. split; [|done]. intros s' [= <-] Hr. by pose proof (proj2 (Hauth (mkPrincipal (hs_actor s))) (conj Hr eq_refl)).
  - right. split; [|done]. intros s' [= <-] Hr. by pose proof (proj2 (Hauth (mkPrincipal (hs_actor s))) (conj Hr eq_refl)).
Qed.
End Properties.

(** ** An admitted browser request and one without its token *)

#[local] Instance ex_ui_crate : UrlCrate string := {|
  url_parse := fun s => if bool_decide (s = "https://ui.local") then Some s else None;
  cannot_be_a_base := fun _ => false;
  url_username := fun _ => "";
  url_password := fun _ => None;
  url_scheme := fun _ => "https";
  url_host_str := fun _ => Some "ui.local";
  port_or_known_default := fun _ => Some 443;
  url_as_str := fun s => s;
  url_join := fun _ _ => None;
  host_parse := fun _ => None;
|}.

#[local] Instance ex_ui_origin : OriginUrl string := {|
  url_query := fun _ => None;
  url_fragment := fun _ => None;
  url_path := fun _ => "/";
  ascii_serialization := fun s => s;
|}.

Definition ex_key : string := "mgmt_0123456789abcdef0123456789abcdef".
Definition ex_token : string := "csrf_0123456789abcdef0123456789abcdef".

Definition ex_http_state : ManagementHttpState :=
  match key_try_new ex_key, token_try_new ex_token, origin_try_new (Url := string) "https://ui.local" with
  | Ok key, Ok token, Ok origin =>
      match http_state_new key LoopbackOrPrivate (SameOrigin origin token) with
      | Ok s => s
      | _ => mkHttpState key LoopbackOnly DenyBrowserOrigins (mkActor "")
      end
  | _, _, _ => mkHttpState (mkManagementKey "") LoopbackOnly DenyBrowserOrigins (mkActor "")
  end.

(** A POST from 192.168.1.2 by the page of the origin. *)
Definition ex_post (token : option string) : HttpRequest :=
  mkHttpRequest (Some (V4 3232235778)) (OtherMethod "POST") (fun name =>
    if bool_decide (name = MANAGEMENT_KEY_HEADER) then [Some ex_key]
    else if bool_decide (name = "origin") then [Some "https://ui.local"]
    else if bool_decide (name = CSRF_HEADER) then match token with Some t => [Some t] | None => [] end
    else []).

Definition ex_handler (request : HttpRequest) (p : ManagementRequestPrincipal) (runs : nat) : string * nat :=
  (actor_as_str (principal_actor p), S runs).

Lemma management_guard_exact_witness :
  request_admitted ex_http_state (ex_post (Some ex_token))
  /\ call (Url := string) (Some ex_http_state) ex_handler (ex_post (Some ex_token)) 0%nat = (Served "management-key", 1%nat)
  /\ ~ request_admitted ex_http_state (ex_post None)
  /\ call (Url := string) (Some ex_http_state) ex_handler (ex_post None) 0%nat = (NotFoundDenied, 0%nat).
Proof.
  assert (forall s, Some ex_http_state = Some s -> state_ok (Url := string) s) as Hs
    by (intros s [= <-]; vm_compute; reflexivity).
  assert (forall t a, peer_addr (ex_post t) = Some a -> ip_ok a) as Hip by (intros t a [= <-]; simpl; lia).
  destruct (management_guard_exact (Some ex_http_state) ex_handler (ex_post (Some ex_token)) 0%nat Hs (Hip _))
    as [(s & [= <-] & Hr & Hc)|[_ Hc]]; [|vm_compute in Hc; discriminate Hc].
  destruct (management_guard_exact (Some ex_http_state) ex_handler (ex_post None) 0%nat Hs (Hip _))
    as [(s & _ & _ & Hd)|[Hn Hd]]; [vm_compute in Hd; discriminate Hd|].
  split; [exact Hr|]. split; [exact Hc|]. split; [by apply Hn|exact Hd].
Defined.

End Security.
