(* ===== verification/ServedAccess.v ===== *)
(** * From stored rows to what a client may use

    Theorems that follow a configuration through both compilers, the publisher and
    the snapshot: which model names an access group can resolve and which client
    keys authenticate, in terms of the stored rows; and that what the compiler
    accepts meets the router's snapshot boundary. *)

From S2P Require Import Prelude Text Core WeightedSchedule Catalog ClientKey EgressPolicy SecretStore ControlPlane StoreRows StoreSchema ControlStore StoreProperties EgressCompiler RouteCompiler RouteSnapshot SnapshotPublisher CredentialRotation PublisherProperties.
Import Publisher.
Local Open Scope string_scope.
Local Open Scope list_scope.
Local Open Scope Z_scope.

(** ** The contents of an accepted snapshot *)

Lemma add_public_models_contents l by_name by_id res :
  add_public_models l by_name by_id = Ok res ->
  forall n m, res.1 !! n = Some m <-> by_name !! n = Some m \/ (m ∈ l /\ model_name m = n).
Proof.
  revert by_name by_id. induction l as [|x l IH]; intros by_name by_id Hr n m; simpl in Hr; [set_solver|].
  case_bool_decide as Hn; [done|]. case_bool_decide; [done|]. rewrite <- eq_None_not_Some in Hn.
  rewrite (IH _ _ Hr), lookup_insert_Some, elem_of_cons. destruct (decide (n = model_name x)); naive_solver congruence.
Qed.

Lemma build_routes_contents l by_id rs schedules ids res :
  build_routes l by_id rs schedules ids = Ok res ->
  forall i r, res.1 !! i = Some r <-> rs !! i = Some r \/ (r ∈ l /\ route_id r = i).
Proof.
  revert rs schedules ids. induction l as [|x l IH]; intros rs schedules ids Hr i r; simpl in Hr; [set_solver|].
  case_bool_decide as Hn; [done|]. case_bool_decide; [|done]. simpl in Hr. case_bool_decide; [done|].
  destruct (add_candidate_ids _ _); [|done..]. simpl in Hr. destruct (try_compile x); [|done..]. simpl in Hr.
  rewrite <- eq_None_not_Some in Hn. rewrite (IH _ _ _ Hr), lookup_insert_Some, elem_of_cons.
  destruct (decide (i = route_id x)); naive_solver congruence.
Qed.

Lemma add_aliases_contents l by_name by_id als res :
  add_aliases l by_name by_id als = Ok res ->
  forall a i, res !! a = Some i <-> als !! a = Some i \/ (a, i) ∈ l.
Proof.
  revert als. induction l as [|[b j] l IH]; intros als Hr a i; simpl in Hr; [set_solver|].
  case_bool_decide; [done|]. case_bool_decide; [|done]. simpl in Hr. case_bool_decide as Hn; [done|].
  rewrite <- eq_None_not_Some in Hn. rewrite (IH _ Hr), lookup_insert_Some, elem_of_cons.
  destruct (decide (a = b)); naive_solver congruence.
Qed.

Lemma add_access_groups_contents l rs groups res :
  add_access_groups l rs groups = Ok res ->
  forall i g, res !! i = Some g <-> groups !! i = Some g \/ (g ∈ l /\ ag_id g = i).
Proof.
  revert groups. induction l as [|x l IH]; intros groups Hr i g; simpl in Hr; [set_solver|].
  case_bool_decide as Hn; [done|]. case_bool_decide; [|done]. simpl in Hr. rewrite <- eq_None_not_Some in Hn.
  rewrite (IH _ Hr), lookup_insert_Some, elem_of_cons. destruct (decide (i = ag_id x)); naive_solver congruence.
Qed.

Lemma add_client_keys_contents l groups keys ids res :
  add_client_keys l groups keys ids = Ok res ->
  forall p k, res !! p = Some k <-> keys !! p = Some k \/ (k ∈ l /\ rec_prefix (ck_record k) = p).
Proof.
  revert keys ids. induction l as [|x l IH]; intros keys ids Hr p k; simpl in Hr; [set_solver|].
  destruct (groups !! _); [|done]. case_bool_decide; [|done]. simpl in Hr. case_bool_decide; [done|].
  case_bool_decide as Hn; [done|]. rewrite <- eq_None_not_Some in Hn.
  rewrite (IH _ _ Hr), lookup_insert_Some, elem_of_cons. destruct (decide (p = rec_prefix (ck_record x))); naive_solver congruence.
Qed.

Record contents (input : RouteSnapshotInput) (s : RouteSnapshot) : Prop := {
  ct_models : forall n m, public_models s !! n = Some m <-> (m ∈ si_public_models input) /\ model_name m = n;
  ct_routes : forall i r, routes s !! i = Some r <-> (r ∈ si_routes input) /\ route_id r = i;
  ct_aliases : forall a i, aliases s !! a = Some i <-> (a, i) ∈ si_aliases input;
  ct_groups : forall i g, access_groups s !! i = Some g <-> (g ∈ si_access_groups input) /\ ag_id g = i;
  ct_keys : forall p k, client_keys s !! p = Some k <-> (k ∈ si_client_keys input) /\ rec_prefix (ck_record k) = p;
}.

Lemma snapshot_contents input s : snapshot_try_new input = Ok s -> contents input s.
Proof.
  unfold snapshot_try_new. intros Hs.
  destruct (add_public_models _ ∅ ∅) as [models| |] eqn:Hm; [|done..]. cbn [result_bind] in Hs.
  destruct (build_routes _ _ ∅ ∅ ∅) as [built| |] eqn:Hb; [|done..]. cbn [result_bind] in Hs.
  destruct (check_model_routes _ _) as [[]| |]; [|done..]. cbn [result_bind] in Hs.
  destruct (add_aliases _ _ _ ∅) as [als| |] eqn:Ha; [|done..]. cbn [result_bind] in Hs.
  destruct (add_access_groups _ _ ∅) as [groups| |] eqn:Hg; [|done..]. cbn [result_bind] in Hs.
  destruct (add_client_keys _ _ ∅ ∅) as [keys| |] eqn:Hk; [|done..]. cbn [result_bind] in Hs. injection Hs as <-.
  constructor; simpl; intros.
  - rewrite (add_public_models_contents _ _ _ _ Hm), lookup_empty. naive_solver.
  - rewrite (build_routes_contents _ _ _ _ _ _ Hb), lookup_empty. naive_solver.
  - rewrite (add_aliases_contents _ _ _ _ _ Ha), lookup_empty. naive_solver.
  - rewrite (add_access_groups_contents _ _ _ _ Hg), lookup_empty. naive_solver.
  - rewrite (add_client_keys_contents _ _ _ _ _ Hk), lookup_empty. naive_solver.
Qed.

(** ** When an input is accepted *)

Lemma add_public_models_total l by_name by_id :
  (forall m, m ∈ l -> by_name !! model_name m = None /\ by_id !! pm_id m = None) ->
  NoDup (model_name <$> l) -> NoDup (pm_id <$> l) -> exists res, add_public_models l by_name by_id = Ok res.
Proof.
  revert by_name by_id. induction l as [|x l IH]; intros by_name by_id Hl Hn Hi; simpl; [by eexists|].
  rewrite fmap_cons in Hn. rewrite fmap_cons in Hi. apply NoDup_cons in Hn as [Hxn Hn], Hi as [Hxi Hi].
  destruct (Hl x) as [-> ->]; [set_solver|]. rewrite !bool_decide_eq_false_2 by by intros [? ?]. apply IH; [|done|done].
  intros m Hm. destruct (Hl m) as [H1 H2]; [set_solver|].
  rewrite !lookup_insert_ne; [done| |]; intros Heq; [apply Hxi|apply Hxn]; rewrite Heq; by apply list_elem_of_fmap_2.
Qed.

Lemma add_candidate_ids_total l ids :
  NoDup (cand_id <$> l) -> (forall c, c ∈ l -> cand_id c ∉ ids) ->
  add_candidate_ids l ids = Ok (list_to_set (cand_id <$> l) ∪ ids).
Proof.
  revert ids. induction l as [|x l IH]; intros ids Hnd Hl; simpl; [f_equal; set_solver|].
  rewrite fmap_cons in Hnd. apply NoDup_cons in Hnd as [Hx Hnd]. rewrite bool_decide_eq_false_2 by (apply Hl; set_solver).
  rewrite IH; [f_equal; set_solver|done|]. intros c Hc. specialize (Hl c). apply not_elem_of_union. split; [|set_solver].
  rewrite elem_of_singleton. intros Heq. apply Hx. rewrite <- Heq. by apply list_elem_of_fmap_2.
Qed.

Lemma compile_tiers_answer r tiers :
  Forall candidate_typed (candidates r) -> Forall candidate_ok (candidates r) ->
  Forall (fun pi => NoDup pi.2 /\ Forall (fun i => (i < length (candidates r))%nat) pi.2) tiers ->
  (exists compiled, compile_tiers r tiers = Ok compiled) \/ compile_tiers r tiers = Err RouteScheduleTooLarge.
Proof.
  intros Ht Ho. induction 1 as [|[p indexes] rest [Hnd Hin] Hall IH]; simpl in *; [by left; eexists|].
  pose proof (tier_slots_spec r indexes Ht Ho Hnd Hin) as Hs. cbv zeta in Hs. case_match.
  - destruct Hs as (slots & -> & _). simpl. destruct IH as [[compiled ->]| ->]; simpl; eauto.
  - rewrite Hs. auto.
Qed.

Lemma try_compile_answer r :
  Forall candidate_typed (candidates r) -> Forall candidate_ok (candidates r) ->
  (exists s, try_compile r = Ok s) \/ try_compile r = Err RouteScheduleTooLarge.
Proof.
  intros Ht Ho. unfold try_compile. destruct (group_candidates_spec (candidates r) 0 []) as (Hg & _). rewrite (Hg Ho). simpl.
  destruct (compile_tiers_answer r (push_all 0 (cand_priority <$> candidates r) []) Ht Ho) as [[compiled ->]| ->]; simpl; [|eauto..].
  apply pushed_tiers_ok. by rewrite length_fmap.
Qed.

Record route_acceptable (by_id : gmap PublicModelId string) (r : SnapshotRoute) : Prop := {
  ra_model : is_Some (by_id !! route_public_model_id r);
  ra_candidates : candidates r <> [];
  ra_typed : Forall candidate_typed (candidates r);
  ra_ok : Forall candidate_ok (candidates r);
  ra_ids : NoDup (cand_id <$> candidates r);
}.

Lemma build_routes_total l by_id rs schedules ids :
  Forall (route_acceptable by_id) l -> NoDup (route_id <$> l) -> (forall r, r ∈ l -> rs !! route_id r = None) ->
  (forall r r' x x', r ∈ l -> r' ∈ l -> x ∈ candidates r -> x' ∈ candidates r' -> cand_id x = cand_id x' -> route_id r = route_id r') ->
  (forall r x, r ∈ l -> x ∈ candidates r -> cand_id x ∉ ids) ->
  (exists res, build_routes l by_id rs schedules ids = Ok res) \/ build_routes l by_id rs schedules ids = Err RouteScheduleTooLarge.
Proof.
  revert rs schedules ids. induction l as [|r l IH]; intros rs schedules ids Hall Hnd Hrs Hcross Hids; simpl; [eauto|].
  apply Forall_cons in Hall as [[Hm Hne Ht Ho Hi] Hall]. rewrite fmap_cons in Hnd. apply NoDup_cons in Hnd as [Hr Hnd].
  rewrite (Hrs r) by set_solver. rewrite (bool_decide_eq_false_2 (is_Some None)) by by intros [? ?].
  rewrite (bool_decide_eq_true_2 _ Hm). simpl. rewrite bool_decide_eq_false_2 by done.
  rewrite add_candidate_ids_total; [|done|intros x Hx; eapply (Hids r); set_solver]. simpl.
  destruct (try_compile_answer r Ht Ho) as [[sched ->]| ->]; [|auto]. simpl.
  assert (forall r', r' ∈ l -> route_id r' <> route_id r) as Hother.
  { intros r' Hin Heq. apply Hr. rewrite <- Heq. by apply list_elem_of_fmap_2. }
  apply IH; [done|done| | |].
  - intros r' Hin. rewrite lookup_insert_ne; [apply Hrs; set_solver|]. intros Heq. by apply (Hother r').
  - intros r1 r2 x1 x2 H1 H2. apply Hcross; set_solver.
  - intros r' x Hin Hx. apply not_elem_of_union. split; [|apply (Hids r'); set_solver].
    rewrite elem_of_list_to_set, list_elem_of_fmap. intros (x' & Heq & Hx'). apply (Hother r' Hin).
    apply (Hcross r' r x x'); set_solver.
Qed.

Lemma check_model_routes_total l rs :
  (forall m, m ∈ l -> exists r, rs !! pm_route_id m = Some r /\ route_public_model_id r = pm_id m) ->
  check_model_routes l rs = Ok tt.
Proof.
  induction l as [|m l IH]; intros Hl; simpl; [done|]. destruct (Hl m) as (r & -> & Hid); [set_solver|].
  rewrite bool_decide_eq_true_2 by done. apply IH. intros m' Hm'. apply Hl. set_solver.
Qed.

Lemma add_aliases_total l by_name by_id als :
  (forall a i, (a, i) ∈ l -> by_name !! a = None /\ is_Some (by_id !! i) /\ als !! a = None) -> NoDup l.*1 ->
  exists res, add_aliases l by_name by_id als = Ok res.
Proof.
  revert als. induction l as [|[a i] l IH]; intros als Hl Hnd; simpl; [by eexists|].
  simpl in Hnd. apply NoDup_cons in Hnd as [Ha Hnd]. destruct (Hl a i) as (-> & Hi & ->); [set_solver|].
  rewrite !(bool_decide_eq_false_2 (is_Some None)) by by intros [? ?]. rewrite bool_decide_eq_true_2 by done. apply IH; [|done].
  intros b j Hin. destruct (Hl b j) as (? & ? & ?); [set_solver|]. split_and!; [done..|].
  rewrite lookup_insert_ne; [done|]. intros ->. apply Ha. by apply (list_elem_of_fmap_2 fst l (b, j)).
Qed.

Lemma add_access_groups_total l rs groups :
  (forall g, g ∈ l -> groups !! ag_id g = None /\ ag_allowed_route_ids g ⊆ dom rs) -> NoDup (ag_id <$> l) ->
  exists res, add_access_groups l rs groups = Ok res.
Proof.
  revert groups. induction l as [|g l IH]; intros groups Hl Hnd; simpl; [by eexists|].
  rewrite fmap_cons in Hnd. apply NoDup_cons in Hnd as [Hg Hnd]. destruct (Hl g) as [-> Hs]; [set_solver|].
  rewrite bool_decide_eq_false_2 by by intros [? ?]. rewrite bool_decide_eq_true_2 by done. apply IH; [|done].
  intros g' Hin. destruct (Hl g') as [? ?]; [set_solver|]. split; [|done]. rewrite lookup_insert_ne; [done|].
  intros Heq. apply Hg. rewrite Heq. by apply list_elem_of_fmap_2.
Qed.

Lemma add_client_keys_total l groups keys ids :
  (forall k, k ∈ l -> (exists g, groups !! rec_access_group_id (ck_record k) = Some g
                          /\ ag_allowed_route_ids g = ck_allowed_route_ids k)
     /\ (rec_client_key_id (ck_record k) ∉ ids) /\ keys !! rec_prefix (ck_record k) = None) ->
  NoDup ((fun k => rec_client_key_id (ck_record k)) <$> l) -> NoDup ((fun k => rec_prefix (ck_record k)) <$> l) ->
  exists res, add_client_keys l groups keys ids = Ok res.
Proof.
  revert keys ids. induction l as [|k l IH]; intros keys ids Hl Hi Hp; simpl; [by eexists|].
  rewrite fmap_cons in Hi. rewrite fmap_cons in Hp. apply NoDup_cons in Hi as [Hki Hi], Hp as [Hkp Hp].
  destruct (Hl k) as ((g & -> & Hal) & Hid & ->); [set_solver|]. rewrite bool_decide_eq_true_2 by done. simpl.
  rewrite bool_decide_eq_false_2 by done. apply IH; [|done|done].
  intros k' Hin. destruct (Hl k') as (? & ? & ?); [set_solver|]. split_and!; [done| |].
  - apply not_elem_of_union. split; [|done]. rewrite elem_of_singleton. intros Heq. apply Hki. rewrite <- Heq.
    by apply (list_elem_of_fmap_2 (fun k => rec_client_key_id (ck_record k))).
  - rewrite lookup_insert_ne; [done|]. intros Heq. apply Hkp. rewrite Heq.
    by apply (list_elem_of_fmap_2 (fun k => rec_prefix (ck_record k))).
Qed.

(** The values of a map, with distinct keys. *)
Lemma values_keys_NoDup {K A} `{Countable K} (f : A -> K) (m : gmap K A) l :
  (forall k x, m !! k = Some x -> f x = k) -> l ≡ₚ map_to_list m -> NoDup (f <$> (snd <$> l)).
Proof.
  intros Hf Hl. rewrite <- list_fmap_compose, Hl. rewrite (Forall_fmap_ext_1 (f ∘ snd) fst).
  - apply NoDup_fst_map_to_list.
  - apply Forall_forall. intros [k x] Hin%elem_of_map_to_list. simpl. by apply Hf.
Qed.

Lemma btree_keys_NoDup {A} (f : A -> string) m : (forall k x, m !! k = Some x -> f x = k) -> NoDup (f <$> btree_values m).
Proof. intros Hf. by apply (values_keys_NoDup f m); [|apply sort_by_perm]. Qed.

Lemma id_keys_NoDup {k A} (f : A -> Id k) m : (forall i x, m !! i = Some x -> f x = i) -> NoDup (f <$> id_values m).
Proof. intros Hf. by apply (values_keys_NoDup f m); [|apply sort_by_perm]. Qed.

Lemma NoDup_key_inj {A B} (f : A -> B) l x y : NoDup (f <$> l) -> x ∈ l -> y ∈ l -> f x = f y -> x = y.
Proof.
  intros Hnd [i Hi]%list_elem_of_lookup [j Hj]%list_elem_of_lookup Heq.
  assert (i = j) as -> by (eapply (NoDup_lookup (f <$> l)); [done|by rewrite list_lookup_fmap, Hi|by rewrite list_lookup_fmap, Hj, Heq]).
  congruence.
Qed.

Lemma resolve_iff s name m :
  snapshot_wf s ->
  resolve_public_model s name = Some m <->
  public_models s !! model_name m = Some m /\ (name = model_name m \/ aliases s !! name = Some (pm_id m)).
Proof.
  intros Hwf. split; [by apply resolve_inv|]. intros [Hm [->|Ha]]; [by apply resolve_name|].
  unfold resolve_public_model. destruct (wf_aliases _ Hwf _ _ Ha) as [-> _]. rewrite Ha. simpl.
  destruct (wf_names _ Hwf _ _ Hm) as [_ Hid]. by rewrite Hid.
Qed.

Section Served.
Context {Url : Type} `{!UrlCrate Url} `{!JsonText} (c : RouteCompiler).

Lemma built_inv cf s :
  compiled_snapshot (Url := Url) c cf = Ok s ->
  exists co keys, publishable c cf /\ compiled_as c cf co /\ snapshot_client_keys_from_configuration co cf = Ok keys
    /\ snapshot_try_new (snapshot_input (version_text (cv_id (cf_version cf))) co keys) = Ok s.
Proof.
  unfold compiled_snapshot. destruct (Egress.compile cf) as [e| |]; [|done..]. cbn [map_err result_bind].
  pose proof (compile_decides c cf) as Hd. destruct (RouteCompiler.compile c cf) as [co| |]; [|done..].
  destruct Hd as [Hpub Has]. cbn [map_err result_bind]. unfold route_snapshot_from_compiled.
  destruct (snapshot_version_try_new _) as [v| |] eqn:Hv; [|done..]. cbn [map_err result_bind].
  unfold snapshot_version_try_new in Hv. case_bool_decide; [done|]. injection Hv as <-. rewrite (as_version _ _ _ Has).
  destruct (snapshot_client_keys_from_configuration co cf) as [keys| |] eqn:Hk; [|done..]. cbn [result_bind].
  destruct (snapshot_try_new _) as [s'| |] eqn:Hs; [|done..]. intros [= <-]. by exists co, keys.
Qed.

Lemma client_keys_contents co cf keys :
  snapshot_client_keys_from_configuration co cf = Ok keys ->
  forall view, view ∈ keys <-> exists k g record, (k ∈ cf_client_keys cf) /\ co_access_groups co !! sk_access_group_id k = Some g
    /\ client_key_record k = Ok record /\ view = mkKeyView record (cg_allowed_route_ids g).
Proof.
  unfold snapshot_client_keys_from_configuration.
  assert (forall l acc, try_fold (snapshot_client_key co cf) l acc = Ok keys ->
    forall view, view ∈ keys <-> view ∈ acc \/ exists k g record, (k ∈ l) /\ co_access_groups co !! sk_access_group_id k = Some g
      /\ client_key_record k = Ok record /\ view = mkKeyView record (cg_allowed_route_ids g)) as Hgen.
  2:{ intros Hr view. rewrite (Hgen _ _ Hr). set_solver. }
  induction l as [|k l IH]; intros acc Hr view; simpl in Hr; [injection Hr as <-; set_solver|].
  destruct (snapshot_client_key co cf acc k) as [acc'| |] eqn:Hstep; [|done..]. simpl in Hr. rewrite (IH _ Hr). clear IH Hr.
  unfold snapshot_client_key in Hstep. destruct (negb _); [done|]. setoid_rewrite elem_of_cons.
  destruct (co_access_groups co !! sk_access_group_id k) as [g|] eqn:Hg; [|injection Hstep as <-; naive_solver].
  destruct (client_key_record k) as [record| |] eqn:Hk; [|done..]. simpl in Hstep. injection Hstep as <-.
  rewrite elem_of_app, list_elem_of_singleton. split.
  - intros [[Hin| ->]|(k' & g' & rec' & Hin & Hrest)]; [by left|right; exists k, g, record; auto|].
    right. exists k', g', rec'. auto.
  - intros [Hin|(k' & g' & rec' & [->|Hin] & Hg' & Hk' & ->)]; [by left; left|left; right; congruence|].
    right. exists k', g', rec'. auto.
Qed.

Lemma text_entries_elem {A} (m : gmap string A) k x : (k, x) ∈ text_entries m <-> m !! k = Some x.
Proof. unfold text_entries. by rewrite sort_by_perm, elem_of_map_to_list. Qed.

(** The served public models, aliases and groups are those of the active rows. *)
Lemma served_model cf co keys s n m :
  publishable c cf -> compiled_as c cf co -> contents (snapshot_input (version_text (cv_id (cf_version cf))) co keys) s ->
  public_models s !! n = Some m <->
  exists p caps r, (p ∈ cf_public_models cf) /\ pc_status p = AdminActive /\ n = pc_model_name p
    /\ required_capabilities_of p = Ok caps /\ (r ∈ cf_routes cf) /\ rt_public_model_id r = pc_id p
    /\ m = mkPublicModel (pc_id p) (pc_model_name p) (pc_display_name p) caps (rt_id r).
Proof.
  intros Hpub Has Hct. rewrite (ct_models _ _ Hct). simpl. rewrite list_elem_of_fmap. setoid_rewrite btree_values_elem.
  setoid_rewrite (as_model _ _ _ Has). split.
  - intros [(cm & -> & k & p & Hp & -> & Hst & r & caps & [Hr Hid] & Hcaps & ->) <-]. by exists p, caps, r.
  - intros (p & caps & r & Hp & Hst & -> & Hcaps & Hr & Hid & ->). split; [|done].
    exists (mkCompiledModel (pc_id p) (pc_model_name p) (pc_display_name p) caps (rt_id r)). split; [done|].
    exists (pc_model_name p), p. split_and!; [done..|]. by exists r, caps.
Qed.

Lemma served_alias cf co keys s a i :
  compiled_as c cf co -> contents (snapshot_input (version_text (cv_id (cf_version cf))) co keys) s ->
  aliases s !! a = Some i <-> exists row, (row ∈ cf_aliases cf) /\ al_alias row = a /\ al_public_model_id row = i /\ model_active cf i.
Proof. intros Has Hct. rewrite (ct_aliases _ _ Hct). simpl. rewrite text_entries_elem. apply (as_alias _ _ _ Has). Qed.

Lemma served_group cf co keys s i :
  publishable c cf -> compiled_as c cf co -> contents (snapshot_input (version_text (cv_id (cf_version cf))) co keys) s ->
  (forall g, access_groups s !! i = Some g -> exists row, (row ∈ cf_access_groups cf) /\ gr_id row = i /\ gr_status row = AdminActive
     /\ forall r, r ∈ ag_allowed_route_ids g <-> exists gt, (gt ∈ cf_grants cf) /\ gt_access_group_id gt = i
          /\ gt_enabled gt = true /\ gt_route_id gt = r)
  /\ (forall row, row ∈ cf_access_groups cf -> gr_id row = i -> gr_status row = AdminActive -> is_Some (access_groups s !! i)).
Proof.
  intros Hpub Has Hct. split.
  - intros g. rewrite (ct_groups _ _ Hct). simpl. rewrite list_elem_of_fmap. setoid_rewrite elem_of_id_values.
    intros [(cg & -> & k & Hk) <-]. apply (as_group _ _ _ Has) in Hk as (row & Hrow & -> & Hst & Hid & _ & Hal).
    exists row. simpl. rewrite Hid. by split_and!.
  - intros row Hrow <- Hst. destruct (as_every_group _ _ _ Has row Hrow Hst) as [cg Hcg].
    exists (snapshot_access_group cg). apply (ct_groups _ _ Hct). simpl.
    pose proof (as_group _ _ _ Has _ _ Hcg) as (row' & _ & Heq & _ & Hid & _). split; [|simpl; congruence].
    apply list_elem_of_fmap_2, elem_of_id_values. eauto.
Qed.

(** Every compiled candidate has an admitted model and an active binding. *)
Lemma compiled_candidate_eligible cf row cc :
  candidate_compiles c cf row cc -> is_hard_eligible (snapshot_route_candidate cc) = true.
Proof.
  intros (r & p & caps & e & u & ov & profile & adm & _ & _ & _ & _ & _ & _ & _ & _ & _ & _ & _ & Hadm & Hcount & ->).
  unfold is_hard_eligible. simpl. apply andb_true_iff. split.
  - apply Z.ltb_lt. unfold binding_count in *. case_match; lia.
  - destruct adm; [|done]. by destruct Hadm.
Qed.

Lemma served_route_eligible cf co keys s i r :
  compiled_as c cf co -> contents (snapshot_input (version_text (cv_id (cf_version cf))) co keys) s ->
  routes s !! i = Some r -> has_hard_eligible_candidate r = true.
Proof.
  intros Has Hct. rewrite (ct_routes _ _ Hct). simpl. rewrite list_elem_of_fmap. setoid_rewrite elem_of_id_values.
  intros [(cr & -> & k & Hk) _]. apply (as_route _ _ _ Has) in Hk as (row & _ & _ & _ & _ & _ & _ & _ & _ & Hne & _ & _ & Hcand).
  unfold has_hard_eligible_candidate. simpl. destruct (cro_candidates cr) as [|cc l]; [done|]. simpl.
  destruct (proj1 (Hcand cc)) as (crow & _ & _ & _ & Hcc); [set_solver|]. by rewrite (compiled_candidate_eligible cf crow cc).
Qed.

Lemma client_key_record_exact k record :
  client_key_record k = Ok record ->
  record = mkRecord (sk_id k) (sk_access_group_id k) (mkPrefix (sk_prefix k)) (mkDigest (sk_secret_digest k))
             (snapshot_client_key_status (sk_status k)) (sk_expires_at_ms k).
Proof.
  unfold client_key_record, record_try_new. destruct (prefix_try_new (sk_prefix k)) as [prefix| |] eqn:Hp; [|done..]. simpl.
  assert (prefix = mkPrefix (sk_prefix k)) as -> by (unfold prefix_try_new in Hp; repeat (case_match; simplify_eq); done).
  unfold digest_try_from_persisted. destruct (negb _); simpl; [done|]. destruct (validate_expiry _); [|done..]. simpl. by intros [= <-].
Qed.

Lemma client_key_record_fields k record :
  client_key_record k = Ok record ->
  rec_client_key_id record = sk_id k /\ prefix_text (rec_prefix record) = sk_prefix k
  /\ rec_access_group_id record = sk_access_group_id k.
Proof. by intros ->%client_key_record_exact. Qed.

Lemma active_status_iff st : snapshot_client_key_status st = KeyActive <-> st = StoredKeyActive.
Proof. by destruct st. Qed.

(** A compiled configuration has a record for each key of an active group. *)
Lemma client_keys_readable co cf keys :
  snapshot_client_keys_from_configuration co cf = Ok keys ->
  forall k, k ∈ cf_client_keys cf -> is_Some (co_access_groups co !! sk_access_group_id k) -> exists record, client_key_record k = Ok record.
Proof.
  unfold snapshot_client_keys_from_configuration. generalize (@nil SnapshotClientKeyView).
  induction (cf_client_keys cf) as [|x l IH]; intros acc Hr k Hk [g Hg]; [by apply elem_of_nil in Hk|]. simpl in Hr.
  destruct (snapshot_client_key co cf acc x) as [acc'| |] eqn:Hstep; [|done..]. simpl in Hr.
  apply elem_of_cons in Hk as [->|Hk]; [|by eapply IH]. unfold snapshot_client_key in Hstep. destruct (negb _); [done|].
  rewrite Hg in Hstep. destruct (client_key_record x) as [record| |]; [by exists record|done..].
Qed.

Lemma client_keys_sublist co cf keys :
  snapshot_client_keys_from_configuration co cf = Ok keys ->
  (fun v => rec_client_key_id (ck_record v)) <$> keys `sublist_of` (sk_id <$> cf_client_keys cf)
  /\ (fun v => prefix_text (rec_prefix (ck_record v))) <$> keys `sublist_of` (sk_prefix <$> cf_client_keys cf).
Proof.
  unfold snapshot_client_keys_from_configuration.
  assert (forall l acc, try_fold (snapshot_client_key co cf) l acc = Ok keys -> exists views, keys = acc ++ views
    /\ (fun v => rec_client_key_id (ck_record v)) <$> views `sublist_of` (sk_id <$> l)
    /\ (fun v => prefix_text (rec_prefix (ck_record v))) <$> views `sublist_of` (sk_prefix <$> l)) as Hgen.
  2:{ intros Hr. by destruct (Hgen _ _ Hr) as (views & -> & ? & ?). }
  induction l as [|k l IH]; intros acc Hr; simpl in Hr; [injection Hr as <-; exists []; by rewrite app_nil_r|].
  destruct (snapshot_client_key co cf acc k) as [acc'| |] eqn:Hstep; [|done..]. simpl in Hr.
  destruct (IH _ Hr) as (views & -> & H1 & H2). clear IH Hr. unfold snapshot_client_key in Hstep. destruct (negb _); [done|].
  rewrite !fmap_cons. destruct (co_access_groups co !! _); [|injection Hstep as <-; exists views; split_and!; [done|by constructor..]].
  destruct (client_key_record k) as [record| |] eqn:Hk; [|done..]. simpl in Hstep. injection Hstep as <-.
  destruct (client_key_record_fields k record Hk) as (Hi & Hp & _). exists (mkKeyView record (cg_allowed_route_ids c0) :: views).
  rewrite <- app_assoc. rewrite !fmap_cons. simpl. rewrite Hi, Hp. split_and!; [done|by constructor..].
Qed.

(** The rows the schema guarantees besides the compiler's conditions. *)
Record storable (cf : ControlPlaneConfiguration) : Prop := {
  sb_candidates : Forall (fun x => 0 <= cn_priority x <= i64_max /\ 0 < cn_weight x <= i64_max) (cf_candidates cf);
  sb_key_ids : NoDup (sk_id <$> cf_client_keys cf);
  sb_key_prefixes : NoDup (sk_prefix <$> cf_client_keys cf);
}.

Lemma served_models_distinct cf co :
  publishable c cf -> compiled_as c cf co ->
  NoDup (model_name <$> (snapshot_public_model <$> btree_values (co_public_models co)))
  /\ NoDup (pm_id <$> (snapshot_public_model <$> btree_values (co_public_models co))).
Proof.
  intros [Hg _] Has. rewrite <- !list_fmap_compose.
  assert (NoDup ((model_name ∘ snapshot_public_model) <$> btree_values (co_public_models co))) as Hn.
  { apply btree_keys_NoDup. intros k cm (p & _ & -> & _ & r & caps & _ & _ & ->)%(as_model _ _ _ Has). done. }
  split; [done|]. apply NoDup_fmap_2_strong; [|by eapply NoDup_fmap_1].
  intros x y [k Hx]%btree_values_elem [k' Hy]%btree_values_elem Heq.
  apply (as_model _ _ _ Has) in Hx as (p & Hp & _ & _ & r & caps & [Hr Hrp] & Hcaps & ->).
  apply (as_model _ _ _ Has) in Hy as (p' & Hp' & _ & _ & r' & caps' & [Hr' Hrp'] & Hcaps' & ->). simpl in Heq.
  assert (p = p') as -> by (eapply NoDup_key_inj; [apply (g_model_ids _ Hg)|done..]).
  assert (r = r') as -> by (eapply NoDup_key_inj; [apply (g_route_models _ Hg)|done|done|congruence]). congruence.
Qed.

(** The public model of an active row is known to the snapshot. *)
Lemma active_model_known cf co models i :
  publishable c cf -> compiled_as c cf co -> add_public_models (snapshot_public_model <$> btree_values (co_public_models co)) ∅ ∅ = Ok models ->
  model_active cf i -> is_Some (models.2 !! i).
Proof.
  intros [Hg Hl] Has Hm (p & Hp & <- & Hst). pose proof (l_models _ _ Hl) as Hlm. rewrite Forall_forall in Hlm.
  destruct (Hlm p Hp Hst) as (r & Hr & Hrp). pose proof (g_model_capabilities _ Hg) as Hcaps. rewrite Forall_forall in Hcaps.
  destruct (Hcaps p Hp) as [caps Hc].
  pose proof (add_public_models_inv _ ∅ ∅ models ltac:(by split; intros ??; rewrite lookup_empty) Hm) as [H1 _].
  set (cm := mkCompiledModel (pc_id p) (pc_model_name p) (pc_display_name p) caps (rt_id r)).
  destruct (H1 (pc_model_name p) (snapshot_public_model cm)) as [_ Hid]; [|simpl in Hid; by rewrite Hid].
  apply (add_public_models_contents _ _ _ _ Hm). right. split; [|done]. apply list_elem_of_fmap_2, btree_values_elem.
  exists (pc_model_name p). apply (as_model _ _ _ Has). exists p. split_and!; [done..|]. by exists r, caps.
Qed.

Lemma compiled_routes_acceptable cf co models :
  publishable c cf -> compiled_as c cf co -> storable cf ->
  add_public_models (snapshot_public_model <$> btree_values (co_public_models co)) ∅ ∅ = Ok models ->
  Forall (route_acceptable models.2) (snapshot_route <$> id_values (co_routes co)).
Proof.
  intros Hpub Has Hsb Hm. rewrite Forall_fmap. apply Forall_forall. intros cr [k Hk]%elem_of_id_values.
  apply (as_route _ _ _ Has) in Hk as (row & Hrow & _ & Ha & Hi & Hmod & _ & _ & _ & Hne & _ & Hnd & Hcand).
  pose proof (sb_candidates _ Hsb) as Hrows. rewrite Forall_forall in Hrows. unfold compose.
  assert (Forall (fun x => 0 <= cand_priority x <= i64_max /\ 0 < cand_weight x <= i64_max)
            (snapshot_route_candidate <$> cro_candidates cr)) as Hall.
  { rewrite Forall_fmap. apply Forall_forall. intros cc Hcc. apply Hcand in Hcc as (x & Hx & _ & _ & Hcomp).
    destruct Hcomp as (r & p & caps & e & u & ov & profile & adm & _ & _ & _ & _ & _ & _ & _ & _ & _ & _ & _ & _ & _ & ->).
    simpl. by apply Hrows. }
  constructor; simpl.
  - rewrite Hmod. by eapply active_model_known.
  - intros Hnil%fmap_nil_inv. done.
  - eapply Forall_impl; [exact Hall|]. unfold candidate_typed, i64_ok, i64_min, i64_max. simpl. lia.
  - eapply Forall_impl; [exact Hall|]. unfold candidate_ok. simpl. lia.
  - by rewrite <- list_fmap_compose.
Qed.

Lemma candidate_routes_distinct cf co r r' x x' :
  publishable c cf -> compiled_as c cf co ->
  r ∈ snapshot_route <$> id_values (co_routes co) -> r' ∈ snapshot_route <$> id_values (co_routes co) ->
  x ∈ candidates r -> x' ∈ candidates r' -> cand_id x = cand_id x' -> route_id r = route_id r'.
Proof.
  intros [Hg _] Has.
  assert (forall r x, r ∈ snapshot_route <$> id_values (co_routes co) -> x ∈ candidates r ->
    exists row, (row ∈ cf_candidates cf) /\ cn_id row = cand_id x /\ cn_route_id row = route_id r) as Hrow.
  { intros s y (cr & -> & [k Hk]%elem_of_id_values)%list_elem_of_fmap Hy. simpl in Hy. apply list_elem_of_fmap in Hy as (cc & -> & Hcc).
    apply (as_route _ _ _ Has) in Hk as (rr & _ & _ & _ & Hi & _ & _ & _ & _ & _ & _ & _ & Hcand).
    apply Hcand in Hcc as (row & Hin & _ & Hid & Hcomp). exists row. split; [done|]. simpl. rewrite (compiles_id _ _ _ _ Hcomp). by rewrite Hi. }
  intros Hr Hr' Hx Hx' Heq. destruct (Hrow r x Hr Hx) as (row & H1 & H2 & H3), (Hrow r' x' Hr' Hx') as (row' & H1' & H2' & H3').
  assert (row = row') as -> by (eapply NoDup_key_inj; [apply (g_candidate_ids _ Hg)|done|done|congruence]). congruence.
Qed.

(** The remaining loops of [try_new] on the compiler's output. *)
Section Input.
Context (cf : ControlPlaneConfiguration) (co : CompiledRouteConfiguration).
Context (Hpub : publishable c cf) (Has : compiled_as c cf co).
Context (models : gmap string SnapshotPublicModel * gmap PublicModelId string).
Context (Hm : add_public_models (snapshot_public_model <$> btree_values (co_public_models co)) ∅ ∅ = Ok models).
Context (rs : gmap RouteId SnapshotRoute)
  (Hbuilt : forall k cr, co_routes co !! k = Some cr -> rs !! k = Some (snapshot_route cr)).

(** A model of the snapshot comes from an active row. *)
Lemma added_model_row n m :
  models.1 !! n = Some m ->
  exists p r caps, (p ∈ cf_public_models cf) /\ pc_status p = AdminActive /\ n = pc_model_name p
    /\ ((r ∈ cf_routes cf) /\ rt_public_model_id r = pc_id p)
    /\ m = mkPublicModel (pc_id p) (pc_model_name p) (pc_display_name p) caps (rt_id r).
Proof.
  rewrite (add_public_models_contents _ _ _ _ Hm), lookup_empty. intros [Hl|[Hin <-]]; [done|].
  apply list_elem_of_fmap in Hin as (cm & -> & [k Hcm]%btree_values_elem).
  apply (as_model _ _ _ Has) in Hcm as (p & Hp & _ & Hst & r & caps & [Hr Hrp] & _ & ->). by exists p, r, caps.
Qed.

Lemma compiled_model_routes : check_model_routes (btree_values models.1) rs = Ok tt.
Proof.
  apply check_model_routes_total. intros m [k Hk]%btree_values_elem.
  apply added_model_row in Hk as (p & r & caps & Hp & Hst & -> & [Hr Hrp] & ->). simpl.
  destruct (as_every_route _ _ _ Has r Hr) as [cr Hcr]; [by exists p|]. exists (snapshot_route cr). split; [by apply Hbuilt|].
  apply (as_route _ _ _ Has) in Hcr as (r' & Hr' & Heq & _ & _ & Hmod & _). simpl. rewrite Hmod.
  assert (r = r') as -> by (eapply NoDup_key_inj; [apply (g_route_ids _ (proj1 Hpub))|done..]). done.
Qed.

Lemma compiled_aliases_accepted : exists als, add_aliases (text_entries (co_aliases co)) models.1 models.2 ∅ = Ok als.
Proof.
  apply add_aliases_total; [|unfold text_entries; rewrite sort_by_perm; apply NoDup_fst_map_to_list].
  intros a i Ha. apply text_entries_elem, (as_alias _ _ _ Has) in Ha as (row & Hrow & <- & Hid & Hact).
  split_and!; [|by eapply active_model_known|apply lookup_empty].
  destruct (models.1 !! al_alias row) as [m|] eqn:Hl; [|done].
  apply added_model_row in Hl as (p & r & caps & Hp & _ & Hname & _ & ->).
  pose proof (g_aliases _ (proj1 Hpub)) as Hal. rewrite Forall_forall in Hal. destruct (Hal row Hrow) as [_ Hnot].
  destruct Hnot. rewrite Hname. by apply list_elem_of_fmap_2.
Qed.

Lemma compiled_group_id k cg : co_access_groups co !! k = Some cg -> cg_id cg = k.
Proof. by intros (g & _ & -> & _ & Hid & _)%(as_group _ _ _ Has). Qed.

Lemma compiled_groups_accepted :
  exists groups, add_access_groups (snapshot_access_group <$> id_values (co_access_groups co)) rs ∅ = Ok groups.
Proof.
  apply add_access_groups_total.
  - intros g (cg & -> & [k Hk]%elem_of_id_values)%list_elem_of_fmap. split; [apply lookup_empty|]. simpl.
    apply (as_group _ _ _ Has) in Hk as (row & Hrow & -> & Hst & _ & _ & Hal). intros rid (gt & Hgt & Hgg & He & <-)%Hal.
    pose proof (l_grants _ _ (proj2 Hpub)) as Hlg. rewrite Forall_forall in Hlg.
    destruct (Hlg gt Hgt He) as (r & Hr & <- & Hact); [by exists row|].
    destruct (as_every_route _ _ _ Has r Hr Hact) as [cr Hcr]. apply elem_of_dom. eexists. by apply Hbuilt.
  - rewrite <- list_fmap_compose. apply (id_keys_NoDup (ag_id ∘ snapshot_access_group)). intros k cg Hk. by apply compiled_group_id.
Qed.

Lemma compiled_keys_accepted keys groups :
  storable cf -> snapshot_client_keys_from_configuration co cf = Ok keys ->
  add_access_groups (snapshot_access_group <$> id_values (co_access_groups co)) rs ∅ = Ok groups ->
  exists ks, add_client_keys keys groups ∅ ∅ = Ok ks.
Proof.
  intros Hsb Hkeys Hgr. destruct (client_keys_sublist co cf keys Hkeys) as [Hs1 Hs2]. apply add_client_keys_total.
  - intros view Hv. apply (client_keys_contents co cf keys Hkeys) in Hv as (k & cg & record & Hk & Hcg & Hrec & ->). simpl.
    destruct (client_key_record_fields k record Hrec) as (_ & _ & ->). split_and!; [|apply not_elem_of_empty|apply lookup_empty].
    exists (snapshot_access_group cg). split; [|done]. apply (add_access_groups_contents _ _ _ _ Hgr). right.
    split; [|simpl; by apply compiled_group_id]. apply list_elem_of_fmap_2, elem_of_id_values. eauto.
  - eapply sublist_NoDup; [apply (sb_key_ids _ Hsb)|exact Hs1].
  - apply (NoDup_fmap_1 prefix_text). rewrite <- list_fmap_compose. eapply sublist_NoDup; [apply (sb_key_prefixes _ Hsb)|exact Hs2].
Qed.
End Input.

(** What the compiler accepts, the snapshot accepts, schedules apart. *)
Lemma compiled_input_accepted cf co keys version :
  publishable c cf -> compiled_as c cf co -> storable cf -> snapshot_client_keys_from_configuration co cf = Ok keys ->
  (exists s, snapshot_try_new (snapshot_input version co keys) = Ok s)
  \/ snapshot_try_new (snapshot_input version co keys) = Err RouteScheduleTooLarge.
Proof.
  intros Hpub Has Hsb Hkeys. unfold snapshot_try_new. cbn [snapshot_input si_public_models si_routes si_aliases si_access_groups si_client_keys].
  destruct (served_models_distinct cf co Hpub Has) as [Hn Hi].
  destruct (add_public_models_total (snapshot_public_model <$> btree_values (co_public_models co)) ∅ ∅) as [models Hm];
    [intros m _; by rewrite !lookup_empty|done|done|]. rewrite Hm. cbn [result_bind].
  assert (forall k cr, co_routes co !! k = Some cr -> cro_id cr = k) as Hrid
    by (by intros k cr (row & _ & -> & _ & Hid & _)%(as_route _ _ _ Has)).
  destruct (build_routes_total (snapshot_route <$> id_values (co_routes co)) models.2 ∅ ∅ ∅) as [[built Hb]| ->]; [..|by right].
  { by eapply compiled_routes_acceptable. }
  { rewrite <- list_fmap_compose. apply (id_keys_NoDup (route_id ∘ snapshot_route)). intros k cr Hk. by apply Hrid. }
  { intros r _. by rewrite lookup_empty. }
  { intros r r' x x'. by apply (candidate_routes_distinct cf). }
  { set_solver. }
  rewrite Hb. cbn [result_bind]. left.
  assert (forall k cr, co_routes co !! k = Some cr -> built.1 !! k = Some (snapshot_route cr)) as Hbuilt.
  { intros k cr Hk. apply (build_routes_contents _ _ _ _ _ _ Hb). right. split; [|simpl; by apply Hrid].
    apply list_elem_of_fmap_2, elem_of_id_values. eauto. }
  rewrite (compiled_model_routes cf co Hpub Has models Hm built.1 Hbuilt). cbn [result_bind].
  destruct (compiled_aliases_accepted cf co Hpub Has models Hm) as [als ->]. cbn [result_bind].
  destruct (compiled_groups_accepted cf co Hpub Has built.1 Hbuilt) as [groups Hgr]. rewrite Hgr. cbn [result_bind].
  destruct (compiled_keys_accepted cf co Has built.1 keys groups Hsb Hkeys Hgr) as [ks ->]. by eexists.
Qed.

(** ** Properties *)

(** The rows that let an access group use a model through a name or an alias. *)
Definition granted (cf : ControlPlaneConfiguration) (group : AccessGroupId) (name : string)
    (p : PublicModelConfiguration) (r : ModelRouteConfiguration) : Prop :=
  (exists g, (g ∈ cf_access_groups cf) /\ gr_id g = group /\ gr_status g = AdminActive)
  /\ ((p ∈ cf_public_models cf) /\ pc_status p = AdminActive)
  /\ (name = pc_model_name p \/ exists a, (a ∈ cf_aliases cf) /\ al_alias a = name /\ al_public_model_id a = pc_id p)
  /\ ((r ∈ cf_routes cf) /\ rt_public_model_id r = pc_id p)
  /\ exists gt, (gt ∈ cf_grants cf) /\ gt_access_group_id gt = group /\ gt_route_id gt = rt_id r /\ gt_enabled gt = true.

(** The row of a client key that a presented key authenticates as: its prefix, its
    keyed digest, an active group, not disabled, not revoked, not expired. *)
Record key_row_admits (cf : ControlPlaneConfiguration) (hmac : Bytes -> string -> option Bytes) (pepper : ClientKeyPepper)
    (key : string) (now_ms : Z) (k : StoredClientKey) : Prop := {
  kr_stored : k ∈ cf_client_keys cf;
  kr_group : exists g, (g ∈ cf_access_groups cf) /\ gr_id g = sk_access_group_id k /\ gr_status g = AdminActive;
  kr_prefix : presents key (sk_prefix k);
  kr_digest : hmac (pepper_bytes pepper) key = Some (sk_secret_digest k);
  kr_status : sk_status k = StoredKeyActive;
  kr_expiry : forall x, sk_expires_at_ms k = Some x -> now_ms < x;
}.

Lemma authenticates_iff cf co keys s hmac pepper key now_ms client :
  compiled_as c cf co -> snapshot_client_keys_from_configuration co cf = Ok keys ->
  contents (snapshot_input (version_text (cv_id (cf_version cf))) co keys) s -> 0 <= now_ms ->
  authenticate_snapshot hmac pepper s key (Some now_ms) = Ok client
  <-> exists k, key_row_admits cf hmac pepper key now_ms k
        /\ client = mkAuthenticated (sk_id k) (Some (sk_access_group_id k)).
Proof.
  intros Has Hkeys Hct Hnow. unfold authenticate_snapshot. split.
  - destruct (parse_presented_key_prefix key) as [prefix| |] eqn:Hp; [|done..]. cbn [map_err result_bind].
    destruct (client_keys s !! prefix) as [view|] eqn:Hv; [|done]. cbn [ok_or result_bind].
    destruct (verify hmac pepper key (ck_record view) now_ms) as [[]| |] eqn:Hver; [|done..]. simpl. intros [= <-].
    apply (ct_keys _ _ Hct) in Hv as [Hin _]. simpl in Hin.
    apply (client_keys_contents co cf keys Hkeys) in Hin as (k & cg & record & Hk & Hcg & Hrec%client_key_record_exact & ->).
    apply verify_accepts_only in Hver as (_ & Hpre & Hdig & Hst & Hex). simpl in *. subst record. simpl in *. rewrite Hpre in Hp.
    injection Hp as <-. exists k. split; [|done]. apply (as_group _ _ _ Has) in Hcg as (g & Hg & Heq & Hact & _).
    constructor; [done|by exists g| |done|by apply active_status_iff|done]. by apply parse_iff_presents in Hpre.
  - intros (k & [Hk (g & Hg & Hid & Hact) Hpre Hdig Hst Hex] & ->).
    destruct (as_every_group _ _ _ Has g Hg Hact) as [cg Hcg]. rewrite Hid in Hcg.
    destruct (client_keys_readable co cf keys Hkeys k Hk) as [record Hrec]; [by eexists|].
    pose proof (client_key_record_exact k record Hrec) as Heq.
    assert (client_keys s !! mkPrefix (sk_prefix k) = Some (mkKeyView record (cg_allowed_route_ids cg))) as Hl.
    { apply (ct_keys _ _ Hct). simpl. split; [|by rewrite Heq]. apply (client_keys_contents co cf keys Hkeys). by exists k, cg, record. }
    rewrite (proj2 (parse_iff_presents key (mkPrefix (sk_prefix k))) Hpre). cbn [map_err result_bind]. rewrite Hl. cbn [ok_or result_bind ck_record].
    subst record. rewrite verify_accepts; [done|done|by apply parse_iff_presents|done|by apply active_status_iff|done].
Qed.

(** C7: Stored rows decide access, end to end.  When a stored configuration
    becomes a snapshot, an access group resolves a requested name to a model and
    route exactly when the rows grant it: the group and the model are active, the
    name is the model's own or one of its aliases, and an enabled grant names the
    model's route; and a presented key authenticates as a client exactly when a
    stored key row admits it: the text is a canonical key with that row's prefix and
    its keyed digest is the stored one, the row is active (not disabled or revoked)
    and not expired, and its group is active.  Compilation, publication,
    authentication and resolution neither widen nor narrow this. *)
Theorem stored_rows_decide_access cf s :
  compiled_snapshot (Url := Url) c cf = Ok s ->
  (forall group name id route,
     (exists m, resolve_public_model_for_access_group s group name = Some m /\ pm_id m = id /\ pm_route_id m = route)
     <-> exists p r, pc_id p = id /\ rt_id r = route /\ granted cf group name p r)
  /\ (forall hmac pepper key now_ms client, 0 <= now_ms ->
        authenticate_snapshot hmac pepper s key (Some now_ms) = Ok client
        <-> exists k, key_row_admits cf hmac pepper key now_ms k
              /\ client = mkAuthenticated (sk_id k) (Some (sk_access_group_id k))).
Proof.
  intros (co & keys & Hpub & Has & Hkeys & Hs)%built_inv. pose proof (snapshot_contents _ _ Hs) as Hct.
  pose proof (snapshot_try_new_ok _ _ Hs) as Hwf. split.
  - intros group name id route. destruct (served_group cf co keys s group Hpub Has Hct) as [Hg1 Hg2]. split.
    + intros (m & Hres & <- & <-). unfold resolve_public_model_for_access_group in Hres.
      destruct (access_groups s !! group) as [g|]; [|done]. simpl in Hres.
      destruct (resolve_public_model s name) as [m'|] eqn:Hm; [|done]. simpl in Hres.
      destruct (public_model_is_visible_to s g m') eqn:Hv; [|done]. injection Hres as ->.
      apply (resolve_iff s name m Hwf) in Hm as [Hm Hname].
      apply (served_model cf co keys s _ m Hpub Has Hct) in Hm as (p & caps & r & Hp & Hst & Hn & _ & Hr & Hid & ->).
      exists p, r. split; [done|]. split; [done|]. destruct (Hg1 g eq_refl) as (row & Hrow & Hrid & Hrst & Hal).
      split_and!; [by exists row|done|done| |done|done|].
      * simpl in Hname. destruct Hname as [->|Ha]; [by left|right].
        apply (served_alias cf co keys s _ _ Has Hct) in Ha as (a & Ha & ? & ? & _). by exists a.
      * unfold public_model_is_visible_to, permits_route in Hv. apply andb_true_iff in Hv as [Hv _]. apply bool_decide_eq_true in Hv.
        simpl in Hv. apply Hal in Hv as (gt & Hgt & ? & ? & ?). by exists gt.
    + intros (p & r & <- & <- & (row & Hrow & Hrid & Hrst) & [Hp Hst] & Hname & [Hr Hid] & gt & Hgt & Hgg & Hgr & He).
      destruct (Hg2 row Hrow Hrid Hrst) as [g Hg]. destruct (Hg1 g Hg) as (_ & _ & _ & _ & Hal).
      pose proof (g_model_capabilities _ (proj1 Hpub)) as Hcaps. rewrite Forall_forall in Hcaps.
      destruct (Hcaps p Hp) as [caps Hc].
      set (m := mkPublicModel (pc_id p) (pc_model_name p) (pc_display_name p) caps (rt_id r)).
      assert (public_models s !! pc_model_name p = Some m) as Hm.
      { apply (served_model cf co keys s _ m Hpub Has Hct). exists p, caps, r. by split_and!. }
      exists m. split; [|done]. unfold resolve_public_model_for_access_group. rewrite Hg. simpl.
      assert (resolve_public_model s name = Some m) as ->.
      { apply (resolve_iff s name m Hwf). split; [done|]. destruct Hname as [->|(a & Ha & <- & Hai)]; [by left|right].
        apply (served_alias cf co keys s _ _ Has Hct). exists a. split_and!; [done..|]. by exists p. }
      simpl. destruct (wf_model_route _ Hwf _ _ Hm) as (sr & Hsr & _). unfold public_model_is_visible_to, permits_route.
      rewrite bool_decide_eq_true_2 by (apply Hal; exists gt; by split_and!). rewrite Hsr. simpl.
      by rewrite (served_route_eligible cf co keys s _ sr Has Hct Hsr).
  - intros hmac pepper key now_ms client Hnow. by eapply authenticates_iff.
Qed.

(** Rows of a stored version. *)
Lemma stored_storable `{!SqliteJson} db v :
  db_ok db -> (forall i x, StoreSchema.g_candidates (graph_at db (cv_id v)) !! i = Some x -> cn_priority x <= i64_max /\ cn_weight x <= i64_max) ->
  storable (configuration_at db v).
Proof.
  intros Hok Hty. destruct (graph_at_ok db (cv_id v) Hok) as [Hg _]. constructor; simpl.
  - apply Forall_forall. intros x [i Hx]%elem_of_sorted_values. destruct (ok_candidates _ Hg i x Hx) as [_ Hc].
    destruct (Hty i x Hx). unfold candidate_check in Hc. bool_simp. lia.
  - apply (values_keys_NoDup sk_id (StoreSchema.g_keys (graph_at db (cv_id v)))); [|apply sort_by_perm].
    intros i k Hk. by destruct (ok_keys _ Hg i k Hk).
  - unfold sorted_values. rewrite <- list_fmap_compose, sort_by_perm. apply NoDup_fmap_2_strong; [|apply NoDup_map_to_list].
    intros [i k] [i' k'] Hk%elem_of_map_to_list Hk'%elem_of_map_to_list Heq. simpl in Heq.
    assert (i = i') as -> by (eapply (uq_key_prefix _ Hg); [done..|exact Heq]). congruence.
Qed.

Lemma client_key_record_answer k :
  match client_key_record k with Ok _ | Err (ClientKeyMaterial _) => True | _ => False end.
Proof.
  unfold client_key_record, record_try_new. destruct (prefix_try_new (sk_prefix k)) as [prefix| |] eqn:Hp; simpl; [|done|].
  - unfold digest_try_from_persisted. destruct (negb _); simpl; [done|]. unfold validate_expiry.
    destruct (sk_expires_at_ms k) as [t|]; [|done]. by destruct (t <? 0).
  - unfold prefix_try_new in Hp. by repeat case_match.
Qed.

Lemma stored_keys_answer `{!SqliteJson} db v co :
  db_ok db -> compiled_as c (configuration_at db v) co ->
  match snapshot_client_keys_from_configuration co (configuration_at db v) with
  | Ok _ | Err (ClientKeyMaterial _) => True
  | _ => False
  end.
Proof.
  intros Hok Has. destruct (graph_at_ok db (cv_id v) Hok) as [Hg _]. unfold snapshot_client_keys_from_configuration.
  set (cf := configuration_at db v) in *.
  assert (forall l acc, (forall k, k ∈ l -> k ∈ cf_client_keys cf) ->
    match try_fold (snapshot_client_key co cf) l acc with Ok _ | Err (ClientKeyMaterial _) => True | _ => False end) as Hgen; [|by apply Hgen].
  induction l as [|k l IH]; intros acc Hl; simpl; [done|].
  assert (existsb (fun g => bool_decide (gr_id g = sk_access_group_id k)) (cf_access_groups cf) = true) as Hex.
  { assert (k ∈ cf_client_keys cf) as Hk by (apply Hl; set_solver). simpl in Hk. apply elem_of_sorted_values in Hk as [i Hk].
    destruct (fk_key_group _ Hg i k _ Hk eq_refl) as [g Hgk]. apply existsb_exists. exists g. split.
    - apply list_elem_of_In. simpl. apply elem_of_sorted_values. eauto.
    - apply bool_decide_eq_true. by destruct (ok_groups _ Hg _ _ Hgk). }
  unfold snapshot_client_key at 1. rewrite Hex. simpl. destruct (co_access_groups co !! _); [|apply IH; set_solver].
  pose proof (client_key_record_answer k) as Hk. destruct (client_key_record k) as [record|e|]; simpl; [apply IH; set_solver|done|done].
Qed.

(** A snapshot of the version, or one of the four documented refusals. *)
Definition built_or_refused (id : ConfigVersionId) (r : PublishR RouteSnapshot) : Prop :=
  match r with
  | Ok s => version s = version_text id
  | Err (EgressPolicy _) | Err (Compile _) | Err (ClientKeyMaterial _) | Err (SnapshotBuild RouteScheduleTooLarge) => True
  | _ => False
  end.

(** Nothing passes the compiler and then fails at the router.  Building the
    snapshot of any stored version ends in a snapshot or in one of four documented
    refusals: the egress compiler's, the route compiler's, a client key whose
    stored prefix or digest is malformed, or a candidate schedule with more than
    1024 slots.  All other checks of the snapshot boundary (duplicates, dangling
    references, permission mismatches, invalid priorities and weights, missing
    groups) never fire on compiled rows, and nothing panics. *)
Lemma stored_version_builds `{!SqliteJson} db id v :
  db_ok db -> db_versions db !! id = Some v ->
  (forall i x, StoreSchema.g_candidates (graph_at db (cv_id v)) !! i = Some x -> cn_priority x <= i64_max /\ cn_weight x <= i64_max) ->
  built_or_refused id (compiled_snapshot (Url := Url) c (configuration_at db v)).
Proof.
  unfold built_or_refused. intros Hok Hv Hty. pose proof (stored_storable db v Hok Hty) as Hsb. destruct (do_versions db Hok id v Hv) as [Hid Hc].
  destruct (compiled_snapshot c (configuration_at db v)) as [s| |] eqn:Hs.
  { apply compiled_snapshot_version in Hs. by rewrite Hs, <- Hid. }
  all: unfold compiled_snapshot in Hs; pose proof (Egress.egress_compile_decides (Url := Url) (configuration_at db v)) as He;
    (destruct (Egress.compile (configuration_at db v)); [|by simplify_eq/=..]); cbn [map_err result_bind] in Hs; clear He;
    pose proof (compile_decides c (configuration_at db v)) as Hd;
    (destruct (RouteCompiler.compile c (configuration_at db v)) as [co| |]; [|by simplify_eq/=..]); destruct Hd as [Hpub Has];
    cbn [map_err result_bind] in Hs; unfold route_snapshot_from_compiled in Hs; rewrite (as_version _ _ _ Has) in Hs;
    pose proof (version_check_ok v Hc) as [Hne _ _ _]; unfold snapshot_version_try_new in Hs; simpl in Hs;
    (rewrite bool_decide_eq_false_2 in Hs by done); cbn [map_err result_bind] in Hs;
    pose proof (stored_keys_answer db v co Hok Has) as Hk;
    (destruct (snapshot_client_keys_from_configuration co (configuration_at db v)) as [keys|e'|] eqn:Hkeys;
      [|by destruct e'; simplify_eq/=|done]);
    cbn [map_err result_bind] in Hs;
    destruct (compiled_input_accepted _ co keys (version_text (cv_id v)) Hpub Has Hsb Hkeys) as [[s' Hb]|Hb];
    simpl in Hs; rewrite Hb in Hs; by simplify_eq/=.
Qed.
End Served.

(** ** A concrete configuration *)

Section Witnesses.
#[local] Existing Instance ex_crate.
#[local] Existing Instance ex_json_text.

Definition ex_presented : string := "rgw_0000000000000000_" +:+ encode_lower_hex (replicate 32 Byte.x00).

(** The alias resolves and the stored key authenticates. *)
Lemma stored_rows_decide_access_witness :
  match compiled_snapshot (Url := TableUrl) ex_evidence (ex_live "v1") with
  | Ok s => (exists m, resolve_public_model_for_access_group s (mkId "group") "grok-latest" = Some m
                 /\ pm_id m = mkId "model" /\ pm_route_id m = mkId "route")
            /\ authenticate_snapshot (fun _ _ => Some (replicate 32 Byte.x01)) ex_pepper s ex_presented (Some 5)
               = Ok (mkAuthenticated (mkId "key") (Some (mkId "group")))
  | _ => False
  end.
Proof.
  destruct (compiled_snapshot (Url := TableUrl) ex_evidence (ex_live "v1")) as [s|e|] eqn:Hs;
    [|vm_compute in Hs; discriminate Hs..].
  destruct (stored_rows_decide_access (Url := TableUrl) ex_evidence (ex_live "v1") s Hs) as [Hgrant Hauth]. split.
  - apply Hgrant.
    exists (mkPublicModelRow (mkId "model") "grok" AdminActive "Grok" "{}"), (mkRouteRow (mkId "route") (mkId "model") PolicyRoundRobin 3 1000).
    unfold granted. simpl. setoid_rewrite list_elem_of_singleton. split; [reflexivity|]. split; [reflexivity|].
    split; [eexists; split; [reflexivity|split; reflexivity]|]. split; [split; reflexivity|].
    split; [right; eexists; split; [reflexivity|split; reflexivity]|]. split; [split; reflexivity|].
    eexists. split; [reflexivity|]. split; [reflexivity|]. split; reflexivity.
  - apply Hauth; [lia|].
    exists (mkStoredKey (mkId "key") (mkId "group") "rgw_0000000000000000" (replicate 32 Byte.x01) StoredKeyActive None).
    split; [|reflexivity]. constructor; simpl.
    + apply list_elem_of_singleton. reflexivity.
    + eexists. split; [apply list_elem_of_singleton; reflexivity|split; reflexivity].
    + apply (parse_iff_presents ex_presented (mkPrefix "rgw_0000000000000000")). vm_compute. reflexivity.
    + reflexivity.
    + reflexivity.
    + discriminate.
Defined.

#[local] Existing Instance ex_columns.

Definition ex_stored_db : Database := st_db (w_store (ex_do_write "v1" ex_boot)).
Definition ex_stored_row : ConfigVersion := mkConfigVersion (mkVersionId "v1") None VersionDraft 0 10 "first".

Lemma stored_version_builds_witness :
  match compiled_snapshot (Url := TableUrl) ex_evidence (configuration_at ex_stored_db ex_stored_row) with
  | Ok s => version s = "v1"
  | _ => False
  end.
Proof.
  assert (db_ok ex_stored_db) as Hok.
  { apply (is_ok (Url := TableUrl) ex_evidence renewed (ex_do_write "v1" ex_boot)).
    apply (reachable_in_step (Url := TableUrl) ex_outage ex_evidence), ex_do_write_reachable, ex_boot_reachable. }
  assert (StoreSchema.g_candidates (graph_at ex_stored_db (mkVersionId "v1"))
    = {[ mkId "cand" := mkCandidateRow (mkId "cand") (mkId "route") (mkId "ep") "grok-4" EndpointBindings ModePassthrough true 0 1 "{}" ]})
    as Hg by (vm_compute; reflexivity).
  pose proof (stored_version_builds (Url := TableUrl) ex_evidence ex_stored_db (mkVersionId "v1") ex_stored_row Hok) as H.
  destruct (compiled_snapshot (Url := TableUrl) ex_evidence (configuration_at ex_stored_db ex_stored_row)) as [s|e|] eqn:Hs;
    [|vm_compute in Hs; discriminate Hs..].
  apply H; [vm_compute; reflexivity|]. cbn [ex_stored_row cv_id]. rewrite Hg. intros i x Hx.
  apply lookup_singleton_Some in Hx as [_ <-]. simpl. unfold i64_max. lia.
Defined.
End Witnesses.
