(* ===== verification/ControlPlaneService.v ===== *)
(** * Provisioning of credentials and client keys

    Models [crates/gateway-control/src/control_plane_service.rs]: the associated
    data that ties an encrypted credential to its row, and the transaction that
    stores a sealed credential together with a freshly issued client key.

    The HMAC, the AEAD and the random bytes of the key and of the nonce are
    parameters, as in [ClientKey] and [SecretStore]. *)

From S2P Require Import Prelude Text Octets Core ClientKey SecretStore ControlPlane StoreRows StoreSchema ControlStore RouteSnapshot EgressPolicy SnapshotPublisher PublisherProperties.
Import Publisher.
Local Open Scope string_scope.
Local Open Scope list_scope.
Local Open Scope Z_scope.

Module Provisioning.
Import Secrets.

(** ** Associated data *)

Inductive ControlPlaneServiceError : Type :=
| ServiceStore (e : StoreError)
| ServiceSecretStore (e : SecretStoreError)
| ServiceClientKey (e : ClientKeyError)
| ClientKeyRecordIdentityMismatch
| AssociatedDataSegmentTooLong.

Definition CREDENTIAL_AAD_DOMAIN : list Byte.byte := text_bytes "cpa-rust-gateway/control-plane/credential-aad/v1".

(** [u32::try_from(segment.len())], the length and the segment. *)
Definition add_segment (associated_data segment : list Byte.byte) : result ControlPlaneServiceError (list Byte.byte) :=
  if len segment <? 2 ^ 32 then Ok (associated_data ++ be_bytes 4 (len segment) ++ segment)
  else Err AssociatedDataSegmentTooLong.

Definition credential_associated_data (config_version_id : ConfigVersionId) (credential_id : CredentialId)
    (upstream_id : UpstreamId) : result ControlPlaneServiceError (list Byte.byte) :=
  try_fold add_segment
    [text_bytes (version_text config_version_id); text_bytes (as_str credential_id); text_bytes (as_str upstream_id)]
    CREDENTIAL_AAD_DOMAIN.

(** ** Provisioning *)

Record CredentialAndClientKeyProvisionRequest : Type := mkRequest {
  rq_config_version_id : ConfigVersionId;
  rq_credential_id : CredentialId;
  rq_upstream_id : UpstreamId;
  rq_credential_kind : string;
  rq_client_key_id : ClientKeyId;
  rq_access_group_id : AccessGroupId;
  rq_client_key_expires_at_ms : option Z;
}.

Record ProvisionedCredentialAndClientKey : Type := mkProvisioned {
  pv_credential_id : CredentialId;
  pv_client_key_id : ClientKeyId;
  pv_presented_client_key : string;
}.

Definition stored_client_key_status (status : ClientKeyStatus) : StoredClientKeyStatus :=
  match status with
  | KeyActive => StoredKeyActive
  | KeyDisabled => StoredKeyDisabled
  | KeyRevoked => StoredKeyRevoked
  end.

Definition stored_client_key_from_record (r : ClientKeyRecord) : result ControlPlaneServiceError StoredClientKey :=
  map_err ServiceStore
    (stored_key_try_new (rec_client_key_id r) (rec_access_group_id r) (prefix_text (rec_prefix r))
       (digest_bytes (rec_secret_digest r)) (stored_client_key_status (rec_status r)) (rec_expires_at_ms r)).

Section Service.
Context `{Aead} `{SqliteJson} (sqlite_fails : nat -> bool).
Context (hmac : list Byte.byte -> string -> option (list Byte.byte)) (pepper : ClientKeyPepper) (ring : MasterKeyRing).

Abbreviation ServiceM A := (M Store ControlPlaneServiceError A).

(** [?] on a repository call. *)
Definition repository {A} (m : M Store StoreError A) : ServiceM A :=
  fun s => let '(r, s') := m s in (map_err ServiceStore r, s').

Definition provisioned_credential (request : CredentialAndClientKeyProvisionRequest) (secret : EncryptedSecret)
  : CredentialConfiguration :=
  mkCredential (rq_credential_id request) (rq_upstream_id request) (rq_credential_kind request) secret CredentialActive 0.

Definition provision_with_client_key_record (nonce : option (list Byte.byte))
    (request : CredentialAndClientKeyProvisionRequest) (plaintext_credential : list Byte.byte) (r : ClientKeyRecord)
  : ServiceM unit :=
  if negb (bool_decide (rec_client_key_id r = rq_client_key_id request))
     || negb (bool_decide (rec_access_group_id r = rq_access_group_id request))
  then raise ClientKeyRecordIdentityMismatch
  else
    let! associated_data := lift (credential_associated_data (rq_config_version_id request)
                                    (rq_credential_id request) (rq_upstream_id request)) in
    let! encrypted_secret := lift (map_err ServiceSecretStore (seal ring nonce plaintext_credential associated_data)) in
    let! stored_client_key := lift (stored_client_key_from_record r) in
    repository (transaction sqlite_fails (
      insert_credential sqlite_fails (rq_config_version_id request) (provisioned_credential request encrypted_secret) ;;;
      insert_client_key sqlite_fails (rq_config_version_id request) stored_client_key)).

Definition provision_credential_and_client_key (random_prefix random_secret nonce : option (list Byte.byte))
    (request : CredentialAndClientKeyProvisionRequest) (plaintext_credential : list Byte.byte)
  : ServiceM ProvisionedCredentialAndClientKey :=
  let! issued := lift (map_err ServiceClientKey
                   (issue hmac pepper (rq_client_key_id request) (rq_access_group_id request)
                      (rq_client_key_expires_at_ms request) random_prefix random_secret)) in
  provision_with_client_key_record nonce request plaintext_credential (issued_record issued) ;;;
  ret (mkProvisioned (rq_credential_id request) (rq_client_key_id request) (issued_presented_key issued)).

(** ** Associated data is injective *)

Lemma associated_data_inv version credential upstream aad :
  credential_associated_data version credential upstream = Ok aad ->
  let seg x := be_bytes 4 (len (text_bytes x)) ++ text_bytes x in
  aad = CREDENTIAL_AAD_DOMAIN ++ seg (version_text version) ++ seg (as_str credential) ++ seg (as_str upstream)
  /\ len (text_bytes (version_text version)) < 2 ^ 32 /\ len (text_bytes (as_str credential)) < 2 ^ 32
  /\ len (text_bytes (as_str upstream)) < 2 ^ 32.
Proof.
  unfold credential_associated_data. cbn [try_fold]. unfold add_segment, result_bind.
  destruct (Z.ltb_spec (len (text_bytes (version_text version))) (2 ^ 32)); [|done].
  destruct (Z.ltb_spec (len (text_bytes (as_str credential))) (2 ^ 32)); [|done].
  destruct (Z.ltb_spec (len (text_bytes (as_str upstream))) (2 ^ 32)); [|done].
  intros [= <-]. split; [by rewrite <- !app_assoc|done].
Qed.

(** The associated data of two credential rows differ unless version, credential
    and Upstream are the same, and they are never empty. *)
Lemma credential_associated_data_injective v c u v' c' u' aad :
  credential_associated_data v c u = Ok aad -> credential_associated_data v' c' u' = Ok aad ->
  v = v' /\ c = c' /\ u = u' /\ aad <> [].
Proof.
  intros (-> & Hv & Hc & Hu)%associated_data_inv (Heq & Hv' & Hc' & Hu')%associated_data_inv.
  assert (2 ^ 32 = 256 ^ Z.of_nat 4) as H32 by done. rewrite H32 in *.
  apply app_inv_head in Heq. rewrite <- !(app_assoc (be_bytes _ _)) in Heq.
  apply prefixed_inj in Heq as [Ev Heq]; [|done..]. apply prefixed_inj in Heq as [Ec Heq]; [|done..].
  destruct (prefixed_inj 4 (text_bytes (as_str u)) (text_bytes (as_str u')) [] []) as [Eu _]; [done..|by rewrite !app_nil_r|].
  apply text_bytes_inj in Ev, Ec, Eu. destruct v, v', c, c', u, u'. simpl in *. by subst.
Qed.

(** ** What a provisioning leaves behind *)

Lemma ensure_draft_exact id db0 :
  triple (eq db0) (ensure_draft_config_version sqlite_fails id)
    (fun _ db => db0 = db /\ cv_status <$> db_versions db0 !! id = Some VersionDraft).
Proof.
  apply triple_bind with (Q := fun status db => db0 = db /\ status = cv_status <$> db_versions db0 !! id).
  - apply triple_query. by intros ? ->.
  - intros status. case_bool_decide as Hs; [|apply triple_raise]. apply triple_ret. intros db [-> ->]. done.
Qed.

Lemma insert_row_exact {K A} `{GraphTable K A} fits id (r : A) db0 :
  triple (eq db0) (insert_row sqlite_fails fits id r)
    (fun _ db => db = set_graph id (put r (graph_at db0 id)) db0 /\ table (graph_at db0 id) !! row_key r = None).
Proof.
  apply triple_bind with
    (Q := fun _ db => db = set_graph id (put r (graph_at db0 id)) db0 /\ table (graph_at db0 id) !! row_key r = None);
    [|intros n; by apply triple_ret].
  apply triple_execute. intros db n db' <-. unfold insert_into, on_graph. destruct (version_exists db0 id); [|done].
  destruct (insert_stmt fits r (graph_at db0 id)) as [[m g']|] eqn:Hs; [|done].
  apply insert_stmt_inv in Hs as (_ & -> & _ & Hn). by intros [= _ <-].
Qed.

(** A row behind the draft check. *)
Lemma insert_draft_exact {K A} `{GraphTable K A} fits id (r : A) db0 :
  triple (eq db0) (ensure_draft_config_version sqlite_fails id ;;; insert_row sqlite_fails fits id r)
    (fun _ db => db = set_graph id (put r (graph_at db0 id)) db0 /\ table (graph_at db0 id) !! row_key r = None
                 /\ cv_status <$> db_versions db0 !! id = Some VersionDraft).
Proof.
  eapply triple_bind; [apply ensure_draft_exact|]. intros [] s a s' [Heq Hd] Hrun.
  destruct (insert_row_exact fits id r db0 s a s' Heq Hrun) as [Hdb Hn]. done.
Qed.

Lemma set_graph_twice id g g' db : set_graph id g' (set_graph id g db) = set_graph id g' db.
Proof. unfold set_graph. simpl. by rewrite insert_insert_eq. Qed.

Lemma graph_at_set id g db : graph_at (set_graph id g db) id = g.
Proof. unfold graph_at. simpl. by rewrite lookup_insert_eq. Qed.

(** The two rows of a provisioning, added to the draft and nothing else. *)
Record provisioned_rows (id : ConfigVersionId) (c : CredentialConfiguration) (k : StoredClientKey) (db db' : Database) : Prop := {
  pr_draft : cv_status <$> db_versions db !! id = Some VersionDraft;
  pr_new_credential : g_credentials (graph_at db id) !! cr_id c = None;
  pr_new_key : g_keys (graph_at db id) !! sk_id k = None;
  pr_rows : db' = set_graph id (put k (put c (graph_at db id))) db;
}.

Lemma provision_rows id c k s r s' :
  transaction sqlite_fails (insert_credential sqlite_fails id c ;;; insert_client_key sqlite_fails id k) s = (r, s') ->
  match r with Ok _ => provisioned_rows id c k (st_db s) (st_db s') | _ => st_db s' = st_db s end.
Proof.
  intros Hrun. apply (transaction_spec sqlite_fails (eq (st_db s)) (insert_credential sqlite_fails id c ;;; insert_client_key sqlite_fails id k)
    (fun _ db => provisioned_rows id c k (st_db s) db) s r s'); [|done|done]. clear Hrun r s'.
  eapply triple_bind; [apply insert_draft_exact|]. intros [] s1 [] s2 (H1 & Hc & Hd) Hrun.
  destruct (insert_draft_exact key_fits id k _ s1 tt s2 eq_refl Hrun) as (H2 & Hk & _).
  rewrite H1, graph_at_set in H2, Hk. rewrite set_graph_twice in H2. by constructor.
Qed.

(** A key that was just issued is stored as the record that verifies it. *)
Lemma stored_key_record r k :
  (forall x, prefix_text (rec_prefix r) = x -> prefix_try_new x = Ok (rec_prefix r)) ->
  stored_client_key_from_record r = Ok k -> client_key_record k = Ok r.
Proof.
  intros Hp. unfold stored_client_key_from_record, stored_key_try_new. case_bool_decide as Hl; [|done]. simpl.
  destruct (match rec_expires_at_ms r with Some value => value <? 0 | None => false end) eqn:He; [done|].
  intros [= <-]. unfold client_key_record. cbn [sk_prefix sk_secret_digest sk_id sk_access_group_id sk_status sk_expires_at_ms].
  rewrite (Hp _ eq_refl). cbn [result_bind]. unfold digest_try_from_persisted. rewrite Hl. cbn [negb Z.eqb].
  unfold record_try_new, validate_expiry. destruct r as [i g p d st e], d, st, e as [e|]; simpl in *; try rewrite He; done.
Qed.

Context `{!AeadLaws}.

(** The stored rows of a provisioning and what they are good for. *)
Record usable (request : CredentialAndClientKeyProvisionRequest) (plaintext : list Byte.byte) (presented : string)
    (c : CredentialConfiguration) (k : StoredClientKey) : Prop := {
  us_credential : cr_id c = rq_credential_id request /\ cr_upstream_id c = rq_upstream_id request
                  /\ cr_kind c = rq_credential_kind request /\ cr_status c = CredentialActive /\ cr_revision c = 0;
  us_secret : exists aad, credential_associated_data (rq_config_version_id request) (cr_id c) (cr_upstream_id c) = Ok aad
    /\ forall ring', keys ring' !! es_key_version (cr_encrypted_secret c) = keys ring !! es_key_version (cr_encrypted_secret c) ->
         open ring' (cr_encrypted_secret c) aad = Ok plaintext;
  us_key : exists record, client_key_record k = Ok record
    /\ rec_client_key_id record = rq_client_key_id request /\ rec_access_group_id record = rq_access_group_id request
    /\ forall now_ms, 0 <= now_ms -> verify hmac pepper presented record now_ms
         = Ok (match rq_client_key_expires_at_ms request with Some x => now_ms <? x | None => true end);
}.

Lemma provision_record_spec nonce request plaintext record s r s' :
  length nonce = NONCE_BYTES ->
  provision_with_client_key_record (Some nonce) request plaintext record s = (r, s') ->
  match r with
  | Ok _ => exists secret k aad,
      provisioned_rows (rq_config_version_id request) (provisioned_credential request secret) k (st_db s) (st_db s')
      /\ credential_associated_data (rq_config_version_id request) (rq_credential_id request) (rq_upstream_id request) = Ok aad
      /\ seal ring (Some nonce) plaintext aad = Ok secret /\ stored_client_key_from_record record = Ok k
  | _ => st_db s' = st_db s
  end.
Proof.
  intros Hn. unfold provision_with_client_key_record. destruct (_ || _); [by intros [= <- <-]|].
  unfold bind, lift. destruct (credential_associated_data _ _ _) as [aad|e|] eqn:Haad; [|by intros [= <- <-]..].
  destruct (seal ring (Some nonce) plaintext aad) as [secret|e|] eqn:Hs; simpl; [|by intros [= <- <-]..].
  destruct (stored_client_key_from_record record) as [k|e|] eqn:Hk; [|by intros [= <- <-]..].
  unfold repository. destruct (transaction _ _ _) as [r1 s1] eqn:Ht. intros [= <- <-].
  pose proof (provision_rows (rq_config_version_id request) (provisioned_credential request secret) k s r1 s1 Ht).
  destruct r1; [|done..]. exists secret, k, aad. done.
Qed.

(** C18: Provisioning is all or nothing, and what it stores works.  If it fails,
    for whatever reason and whenever, the database is as before and no key is
    handed out.  If it succeeds, exactly one credential and one client key were
    added to a draft; the credential's ciphertext opens to the plaintext under the
    associated data computed from the row itself and under every ring that still
    has the sealing key; and the key handed out verifies against the record that a
    snapshot later builds from the stored row, until its expiry. *)
Theorem provisioning_is_all_or_nothing random_prefix random_secret nonce request plaintext s r s' :
  length random_prefix = PUBLIC_PREFIX_RANDOM_BYTES -> length random_secret = SECRET_RANDOM_BYTES ->
  length nonce = NONCE_BYTES ->
  provision_credential_and_client_key (Some random_prefix) (Some random_secret) (Some nonce) request plaintext s = (r, s') ->
  match r with
  | Ok p => exists c k,
      provisioned_rows (rq_config_version_id request) c k (st_db s) (st_db s')
      /\ usable request plaintext (pv_presented_client_key p) c k
  | _ => st_db s' = st_db s
  end.
Proof.
  intros Hp Hsec Hn. unfold provision_credential_and_client_key, bind, lift.
  destruct (issue hmac pepper _ _ _ _ _) as [issued|e|] eqn:Hi; simpl; [|by intros [= <- <-]..].
  destruct (provision_with_client_key_record _ _ _ _ s) as [r1 s1] eqn:Hpr. apply provision_record_spec in Hpr; [|done].
  destruct r1 as [[]|e|]; [|by intros [= <- <-]..]. intros [= <- <-]. destruct Hpr as (secret & k & aad & Hrows & Haad & Hs & Hk).
  exists (provisioned_credential request secret), k. split; [done|]. pose proof Hi as (d & _ & Heq)%issue_inv; [|done].
  split; [done| |].
  - exists aad. split; [done|]. intros ring' Hkey. by eapply open_sealed.
  - exists (issued_record issued). subst issued. simpl in *. split_and!; [|done..|].
    + apply (stored_key_record _ _); [|done]. intros x <-. apply from_segment_ok, (encode_hex _ _ Hp).
    + intros now_ms Hnow. pose proof (issued_key_verifies _ _ _ _ _ _ _ _ KeyActive now_ms Hp Hsec Hnow Hi) as Hv. exact Hv.
Qed.
End Service.

(** ** Witness *)

Section Witness.
#[local] Existing Instance ex_aead.
#[local] Existing Instance ex_aead_laws.
#[local] Existing Instance ex_columns.

(** A stand-in digest of the right length. *)
Definition ex_service_hmac (_ : list Byte.byte) (_ : string) : option (list Byte.byte) := Some (replicate 32 Byte.x2a).

Definition ex_request : CredentialAndClientKeyProvisionRequest :=
  mkRequest (mkVersionId "v1") (mkId "cred-2") (mkId "up") "api_key" (mkId "key-2") (mkId "group") (Some 900).

Definition ex_provisioned :=
  provision_credential_and_client_key (fun _ => false) ex_service_hmac ex_pepper ex_old (Some (replicate 8 Byte.x5f))
    (Some (replicate 32 Byte.xff)) (Some ex_nonce) ex_request [Byte.x68; Byte.x69] (w_store (ex_do_write "v1" ex_boot)).

Lemma provisioning_is_all_or_nothing_witness :
  match ex_provisioned.1 with
  | Ok p => exists c k, provisioned_rows (mkVersionId "v1") c k (st_db (w_store (ex_do_write "v1" ex_boot))) (st_db ex_provisioned.2)
              /\ usable ex_service_hmac ex_pepper ex_old ex_request [Byte.x68; Byte.x69] (pv_presented_client_key p) c k
  | _ => False
  end.
Proof.
  pose proof (provisioning_is_all_or_nothing (fun _ => false) ex_service_hmac ex_pepper ex_old (replicate 8 Byte.x5f)
    (replicate 32 Byte.xff) ex_nonce ex_request [Byte.x68; Byte.x69] (w_store (ex_do_write "v1" ex_boot))
    ex_provisioned.1 ex_provisioned.2 eq_refl eq_refl eq_refl (surjective_pairing ex_provisioned)) as H.
  destruct (ex_provisioned.1) as [p|e|] eqn:E; [exact H|vm_compute in E; discriminate E..].
Defined.
End Witness.
End Provisioning.
