(* ===== verification/ManagementMutation.v ===== *)
(** * Edits of draft configurations

    Models [crates/gateway-control/src/management_mutation_service.rs]: the reads
    and conditional writes of the resources of one configuration version. Every
    write names the revision of the draft it was made from and records who made it
    in the same transaction; credentials are sealed on the way in and opened only
    for an export; an OAuth rotation is the one write an active version admits.

    The state is the repository and the number of clock readings. The clock, the
    AEAD, the HMAC and the random bytes are parameters, as before. *)

From S2P Require Import Prelude Text Octets Core ClientKey SecretStore ControlPlane StoreRows StoreSchema ControlStore StoreProperties RouteSnapshot EgressPolicy SnapshotPublisher CredentialRotation PublisherProperties ControlPlaneService ManagementService.
Local Open Scope string_scope.
Local Open Scope list_scope.
Local Open Scope Z_scope.

Module Mutation.
Import Secrets Management.
Abbreviation credential_associated_data := Provisioning.credential_associated_data.
Abbreviation ControlPlaneServiceError := Provisioning.ControlPlaneServiceError.

(** ** Data *)

Inductive ManagementResourceError : Type :=
| ResourceStore (error : StoreError)
| ResourceSecretStore (error : SecretStoreError)
| ResourceControlPlane (error : ControlPlaneServiceError)
| ResourceClock (error : ManagementClockError)
| ResourceClientKey (error : ClientKeyError)
| ClientKeyIssuerUnavailable
| ResourceVersionNotFound
| ResourceNotFound
| InvalidRevision
| InvalidCredentialInput
| CredentialRevisionConflict.

Record ConfigRevision : Type := mkRevision { as_i64 : Z }.

Definition initial : ConfigRevision := mkRevision 0.

Definition revision_try_new (value : Z) : result ManagementResourceError ConfigRevision :=
  if value <? 0 then Err InvalidRevision else Ok (mkRevision value).

Definition as_token (r : ConfigRevision) : string := "rev-" +:+ pretty (as_i64 r).

Definition is_digit (c : ascii) : bool := (48 <=? char_code c) && (char_code c <=? 57).

Definition from_token (value : string) : result ManagementResourceError ConfigRevision :=
  match strip_prefix "rev-" value with
  | None => Err InvalidRevision
  | Some decimal =>
      if bool_decide (decimal = "") || ((1 <? String.length decimal)%nat && starts_with_char "0" decimal)
         || negb (all_chars is_digit decimal)
      then Err InvalidRevision
      else
        let? value := ok_or InvalidRevision (parse_digits i64_max 0 decimal) in
        revision_try_new value
  end.

Record Revisioned (T : Type) : Type := mkRevisioned {
  rv_value : T;
  rv_revision : ConfigRevision;
}.
Arguments mkRevisioned {T} rv_value rv_revision.
Arguments rv_value {T} r.
Arguments rv_revision {T} r.

Record CredentialView : Type := mkCredentialView {
  vw_id : CredentialId;
  vw_upstream_id : UpstreamId;
  vw_kind : string;
  vw_status : CredentialStatus;
  vw_revision : Z;
  vw_secret_present : bool;
}.

(** [From<CredentialConfiguration>]. *)
Definition view_of_credential (c : CredentialConfiguration) : CredentialView :=
  mkCredentialView (cr_id c) (cr_upstream_id c) (cr_kind c) (cr_status c) (cr_revision c) true.

Record CredentialUpsert : Type := mkUpsert {
  ups_id : CredentialId;
  ups_kind : string;
  ups_plaintext_secret : list Byte.byte;
  ups_status : CredentialStatus;
}.

Record ClientKeyView : Type := mkKeyView {
  kv_id : ClientKeyId;
  kv_access_group_id : AccessGroupId;
  kv_prefix : string;
  kv_status : StoredClientKeyStatus;
  kv_expires_at_ms : option Z;
}.

(** [From<&StoredClientKey>]. *)
Definition view_of_key (k : StoredClientKey) : ClientKeyView :=
  mkKeyView (sk_id k) (sk_access_group_id k) (sk_prefix k) (sk_status k) (sk_expires_at_ms k).

Record ClientKeyIssue : Type := mkKeyIssue {
  ki_id : ClientKeyId;
  ki_access_group_id : AccessGroupId;
  ki_status : StoredClientKeyStatus;
  ki_expires_at_ms : option Z;
}.

Record ClientKeyUpdate : Type := mkKeyUpdate {
  ku_access_group_id : AccessGroupId;
  ku_status : StoredClientKeyStatus;
  ku_expires_at_ms : option Z;
}.

Record IssuedClientKeyView : Type := mkIssuedView {
  iv_metadata : ClientKeyView;
  iv_presented_key : string;
}.

Record ManagementRouteValidation : Type := mkRouteValidation {
  rv_valid : bool;
  rv_error_codes : list string;
}.

Record ResourceAction : Type := mkAction {
  ra_action : string;
  ra_resource_kind : string;
  ra_resource_id : string;
}.

Definition issued_client_key_status (value : StoredClientKeyStatus) : ClientKeyStatus :=
  match value with
  | StoredKeyActive => KeyActive
  | StoredKeyDisabled => KeyDisabled
  | StoredKeyRevoked => KeyRevoked
  end.

Record MutationService : Type := mkMutation {
  mu_store : Store;
  mu_readings : nat;
}.

Abbreviation ResourceM A := (M MutationService ManagementResourceError A).

Section Operations.
Context `{!Aead} `{!SqliteJson} (sqlite_fails : nat -> bool) (now_ms : nat -> result ManagementClockError Z).
Context (hmac : list Byte.byte -> string -> option (list Byte.byte)) (client_key_service : option ClientKeyPepper)
  (ring : MasterKeyRing).

(** [?] on a repository call. *)
Definition on_store {A} (m : StoreM A) : ResourceM A :=
  fun s => let '(r, st) := m (mu_store s) in (map_err ResourceStore r, mkMutation st (mu_readings s)).

Definition clock_reading : ResourceM Z :=
  fun s => (map_err ResourceClock (now_ms (mu_readings s)), mkMutation (mu_store s) (S (mu_readings s))).

Definition configuration (id : ConfigVersionId) : ResourceM ControlPlaneConfiguration :=
  let! cf := on_store (load_configuration sqlite_fails id) in
  lift (ok_or ResourceVersionNotFound cf).

Definition audit (action : string) (actor : ManagementActor) (resource_kind resource_id : string)
  : ResourceM ManagementResourceAuditEventDraft :=
  let! now := clock_reading in
  lift (map_err ResourceStore (resource_draft_try_new action (actor_as_str actor) now resource_kind resource_id)).

(** The transaction of every draft write: the mutation, then its event. *)
Definition mutate_and_record (id : ConfigVersionId) (expected : ConfigRevision)
    (draft : ManagementResourceAuditEventDraft) (mutate : StoreM unit) : ResourceM Z :=
  let! r := on_store (mutate_draft_configuration sqlite_fails id (as_i64 expected)
                        (mutate ;;; record_management_resource_audit_event_tx sqlite_fails draft id)) in
  ret r.2.

(** The revision of a loaded version, and one resource of it. *)
Definition current_revision (cf : ControlPlaneConfiguration) : ResourceM ConfigRevision :=
  lift (revision_try_new (cv_revision (cf_version cf))).

Definition get_resource {A} (select : ControlPlaneConfiguration -> list A) (found : A -> bool) (id : ConfigVersionId)
  : ResourceM (Revisioned A) :=
  let! cf := configuration id in
  let! revision := current_revision cf in
  let! a := lift (ok_or ResourceNotFound (List.find found (select cf))) in
  ret (mkRevisioned a revision).

Definition list_resources {A} (select : ControlPlaneConfiguration -> list A) (id : ConfigVersionId)
  : ResourceM (Revisioned (list A)) :=
  let! cf := configuration id in
  let! revision := current_revision cf in
  ret (mkRevisioned (select cf) revision).

(** A create or update that returns what it was given. *)
Definition write_resource {A} (action kind resource_id : string) (mutate : StoreM unit) (value : A)
    (actor : ManagementActor) (id : ConfigVersionId) (expected : ConfigRevision) : ResourceM (Revisioned A) :=
  let! draft := audit action actor kind resource_id in
  let! next := mutate_and_record id expected draft mutate in
  let! revision := lift (revision_try_new next) in
  ret (mkRevisioned value revision).

Definition delete_resource (actor : ManagementActor) (id : ConfigVersionId) (expected : ConfigRevision)
    (action : ResourceAction) (delete : StoreM unit) : ResourceM ConfigRevision :=
  let! draft := audit (ra_action action) actor (ra_resource_kind action) (ra_resource_id action) in
  let! next := mutate_and_record id expected draft delete in
  lift (revision_try_new next).

(** ** Egress policies *)

Definition get_egress_policy (id : ConfigVersionId) (i : Id KEgressPolicy) :=
  get_resource cf_egress_policies (fun candidate => bool_decide (ep_id candidate = i)) id.

Definition list_egress_policies (id : ConfigVersionId) := list_resources cf_egress_policies id.

Definition create_egress_policy (actor : ManagementActor) (id : ConfigVersionId) (expected : ConfigRevision) (value : EgressPolicyConfiguration)
  : ResourceM (Revisioned EgressPolicyConfiguration) :=
  write_resource "egress_policy_created" "egress_policy" (as_str (ep_id value)) (ControlStore.insert_egress_policy sqlite_fails id value) value actor id expected.

Definition update_egress_policy (actor : ManagementActor) (id : ConfigVersionId) (expected : ConfigRevision) (value : EgressPolicyConfiguration)
  : ResourceM (Revisioned EgressPolicyConfiguration) :=
  write_resource "egress_policy_updated" "egress_policy" (as_str (ep_id value)) (ControlStore.update_egress_policy sqlite_fails id value) value actor id expected.

Definition delete_egress_policy (actor : ManagementActor) (id : ConfigVersionId) (expected : ConfigRevision) (i : Id KEgressPolicy)
  : ResourceM ConfigRevision :=
  delete_resource actor id expected (mkAction "egress_policy_deleted" "egress_policy" (as_str i)) (ControlStore.delete_egress_policy sqlite_fails id i).

(** ** Upstreams and Endpoints *)

Definition get_upstream (id : ConfigVersionId) (i : UpstreamId) :=
  get_resource cf_upstreams (fun candidate => bool_decide (up_id candidate = i)) id.

Definition list_upstreams (id : ConfigVersionId) := list_resources cf_upstreams id.

Definition create_upstream (actor : ManagementActor) (id : ConfigVersionId) (expected : ConfigRevision) (value : UpstreamConfiguration)
  : ResourceM (Revisioned UpstreamConfiguration) :=
  write_resource "upstream_created" "upstream" (as_str (up_id value)) (ControlStore.insert_upstream sqlite_fails id value) value actor id expected.

Definition update_upstream (actor : ManagementActor) (id : ConfigVersionId) (expected : ConfigRevision) (value : UpstreamConfiguration)
  : ResourceM (Revisioned UpstreamConfiguration) :=
  write_resource "upstream_updated" "upstream" (as_str (up_id value)) (ControlStore.update_upstream sqlite_fails id value) value actor id expected.

Definition delete_upstream (actor : ManagementActor) (id : ConfigVersionId) (expected : ConfigRevision) (i : UpstreamId)
  : ResourceM ConfigRevision :=
  delete_resource actor id expected (mkAction "upstream_deleted" "upstream" (as_str i)) (ControlStore.delete_upstream sqlite_fails id i).

Definition create_endpoint (actor : ManagementActor) (id : ConfigVersionId) (expected : ConfigRevision) (value : EndpointConfiguration)
  : ResourceM (Revisioned EndpointConfiguration) :=
  write_resource "endpoint_created" "endpoint" (as_str (en_id value)) (ControlStore.insert_endpoint sqlite_fails id value) value actor id expected.

Definition get_endpoint (id : ConfigVersionId) (i : EndpointId) :=
  get_resource cf_endpoints (fun candidate => bool_decide (en_id candidate = i)) id.

Definition update_endpoint (actor : ManagementActor) (id : ConfigVersionId) (expected : ConfigRevision) (value : EndpointConfiguration)
  : ResourceM (Revisioned EndpointConfiguration) :=
  write_resource "endpoint_updated" "endpoint" (as_str (en_id value)) (ControlStore.update_endpoint sqlite_fails id value) value actor id expected.

Definition delete_endpoint (actor : ManagementActor) (id : ConfigVersionId) (expected : ConfigRevision) (i : EndpointId)
  : ResourceM ConfigRevision :=
  delete_resource actor id expected (mkAction "endpoint_deleted" "endpoint" (as_str i)) (ControlStore.delete_endpoint sqlite_fails id i).

(** ** Credentials *)

Definition seal_credential (nonce : option (list Byte.byte)) (id : ConfigVersionId) (upstream_id : UpstreamId)
    (input : CredentialUpsert) (revision : Z) : ResourceM CredentialConfiguration :=
  if bool_decide (ups_plaintext_secret input = []) || (revision <? 0) then raise InvalidCredentialInput
  else
    let! associated_data := lift (map_err ResourceControlPlane (credential_associated_data id (ups_id input) upstream_id)) in
    let! encrypted_secret := lift (map_err ResourceSecretStore (seal ring nonce (ups_plaintext_secret input) associated_data)) in
    ret (mkCredential (ups_id input) upstream_id (ups_kind input) encrypted_secret (ups_status input) revision).

Definition find_credential (cf : ControlPlaneConfiguration) (i : CredentialId) : ResourceM CredentialConfiguration :=
  lift (ok_or ResourceNotFound (List.find (fun candidate => bool_decide (cr_id candidate = i)) (cf_credentials cf))).

Definition credential_view (id : ConfigVersionId) (i : CredentialId) : ResourceM CredentialView :=
  let! cf := configuration id in
  let! c := find_credential cf i in
  ret (view_of_credential c).

(** The stored credential is read back after its transaction. *)
Definition write_credential (action : string) (actor : ManagementActor) (id : ConfigVersionId) (expected : ConfigRevision)
    (credential : CredentialConfiguration) (mutate : StoreM unit) : ResourceM (Revisioned CredentialView) :=
  let! draft := audit action actor "credential" (as_str (cr_id credential)) in
  let! next := mutate_and_record id expected draft mutate in
  let! view := credential_view id (cr_id credential) in
  let! revision := lift (revision_try_new next) in
  ret (mkRevisioned view revision).

Definition create_credential (nonce : option (list Byte.byte)) (actor : ManagementActor) (id : ConfigVersionId)
    (expected : ConfigRevision) (upstream_id : UpstreamId) (input : CredentialUpsert)
  : ResourceM (Revisioned CredentialView) :=
  let! credential := seal_credential nonce id upstream_id input 0 in
  write_credential "credential_created" actor id expected credential
    (ControlStore.insert_credential sqlite_fails id credential).

Definition get_credential (id : ConfigVersionId) (i : CredentialId) : ResourceM (Revisioned CredentialView) :=
  let! c := get_resource cf_credentials (fun candidate => bool_decide (cr_id candidate = i)) id in
  ret (mkRevisioned (view_of_credential (rv_value c)) (rv_revision c)).

Definition open_credential_for_export (id : ConfigVersionId) (i : CredentialId) : ResourceM (list Byte.byte) :=
  let! cf := configuration id in
  let! credential := find_credential cf i in
  let! associated_data := lift (map_err ResourceControlPlane
                            (credential_associated_data id (cr_id credential) (cr_upstream_id credential))) in
  lift (map_err ResourceSecretStore (open ring (cr_encrypted_secret credential) associated_data)).

Definition update_credential (nonce : option (list Byte.byte)) (actor : ManagementActor) (id : ConfigVersionId)
    (expected : ConfigRevision) (input : CredentialUpsert) : ResourceM (Revisioned CredentialView) :=
  let! cf := configuration id in
  let! current := find_credential cf (ups_id input) in
  let! next_revision := lift (ok_or InvalidRevision (i64_checked_add (cr_revision current) 1)) in
  let! credential := seal_credential nonce id (cr_upstream_id current) input next_revision in
  write_credential "credential_updated" actor id expected credential
    (ControlStore.update_credential sqlite_fails id credential).

Definition update_credential_if_revision (nonce : option (list Byte.byte)) (actor : ManagementActor) (id : ConfigVersionId)
    (expected : ConfigRevision) (expected_credential_revision : Z) (input : CredentialUpsert)
  : ResourceM (Revisioned CredentialView) :=
  let! cf := configuration id in
  let! current := find_credential cf (ups_id input) in
  if negb (cr_revision current =? expected_credential_revision) then raise CredentialRevisionConflict
  else update_credential nonce actor id expected input.

Definition persist_oauth_credential_if_revision (nonce : option (list Byte.byte)) (actor : ManagementActor)
    (id : ConfigVersionId) (expected : ConfigRevision) (credential_id : CredentialId) (expected_credential_revision : Z)
    (oauth_envelope : list Byte.byte) : ResourceM (Revisioned CredentialView) :=
  let! cf := configuration id in
  let! current := find_credential cf credential_id in
  if negb (cr_revision current =? expected_credential_revision) then raise CredentialRevisionConflict
  else
    let! next_revision := lift (ok_or InvalidRevision (i64_checked_add (cr_revision current) 1)) in
    let! credential := seal_credential nonce id (cr_upstream_id current)
                         (mkUpsert credential_id "oauth_json" oauth_envelope CredentialActive) next_revision in
    if bool_decide (cv_status (cf_version cf) = VersionActive) then
      let! draft := audit "credential_oauth_rotated" actor "credential" (as_str (cr_id credential)) in
      on_store (rotate_and_record sqlite_fails id credential expected_credential_revision draft) ;;;
      (let! view := credential_view id (cr_id credential) in
       ret (mkRevisioned view expected))
    else write_credential "credential_oauth_completed" actor id expected credential
           (ControlStore.update_credential sqlite_fails id credential).

Definition delete_credential (actor : ManagementActor) (id : ConfigVersionId) (expected : ConfigRevision) (i : CredentialId)
  : ResourceM ConfigRevision :=
  delete_resource actor id expected (mkAction "credential_deleted" "credential" (as_str i)) (ControlStore.delete_credential sqlite_fails id i).

Definition list_endpoint_credential_bindings (id : ConfigVersionId) (endpoint_id : EndpointId)
  : ResourceM (Revisioned (list EndpointCredentialBindingConfiguration)) :=
  let! cf := configuration id in
  if negb (existsb (fun candidate => bool_decide (en_id candidate = endpoint_id)) (cf_endpoints cf)) then raise ResourceNotFound
  else
    let! revision := current_revision cf in
    ret (mkRevisioned (List.filter (fun candidate => bool_decide (bn_endpoint_id candidate = endpoint_id)) (cf_bindings cf))
           revision).

Definition create_endpoint_credential_binding (actor : ManagementActor) (id : ConfigVersionId) (expected : ConfigRevision) (value : EndpointCredentialBindingConfiguration)
  : ResourceM (Revisioned EndpointCredentialBindingConfiguration) :=
  write_resource "endpoint_credential_binding_created" "endpoint_credential_binding" (as_str (bn_credential_id value)) (ControlStore.insert_endpoint_credential_binding sqlite_fails id value) value actor id expected.

(** ** Public models, aliases and routes *)

Definition list_public_models (id : ConfigVersionId) := list_resources cf_public_models id.

Definition get_public_model (id : ConfigVersionId) (i : PublicModelId) :=
  get_resource cf_public_models (fun candidate => bool_decide (pc_id candidate = i)) id.

Definition create_public_model (actor : ManagementActor) (id : ConfigVersionId) (expected : ConfigRevision) (value : PublicModelConfiguration)
  : ResourceM (Revisioned PublicModelConfiguration) :=
  write_resource "public_model_created" "public_model" (as_str (pc_id value)) (ControlStore.insert_public_model sqlite_fails id value) value actor id expected.

Definition update_public_model (actor : ManagementActor) (id : ConfigVersionId) (expected : ConfigRevision) (value : PublicModelConfiguration)
  : ResourceM (Revisioned PublicModelConfiguration) :=
  write_resource "public_model_updated" "public_model" (as_str (pc_id value)) (ControlStore.update_public_model sqlite_fails id value) value actor id expected.

Definition delete_public_model (actor : ManagementActor) (id : ConfigVersionId) (expected : ConfigRevision) (i : PublicModelId)
  : ResourceM ConfigRevision :=
  delete_resource actor id expected (mkAction "public_model_deleted" "public_model" (as_str i)) (ControlStore.delete_public_model sqlite_fails id i).

Definition create_model_alias (actor : ManagementActor) (id : ConfigVersionId) (expected : ConfigRevision) (value : ModelAliasConfiguration)
  : ResourceM (Revisioned ModelAliasConfiguration) :=
  write_resource "model_alias_created" "model_alias" (al_alias value) (ControlStore.insert_model_alias sqlite_fails id value) value actor id expected.

Definition get_model_route (id : ConfigVersionId) (i : RouteId) :=
  get_resource cf_routes (fun candidate => bool_decide (rt_id candidate = i)) id.

Definition create_model_route (actor : ManagementActor) (id : ConfigVersionId) (expected : ConfigRevision) (value : ModelRouteConfiguration)
  : ResourceM (Revisioned ModelRouteConfiguration) :=
  write_resource "route_created" "route" (as_str (rt_id value)) (ControlStore.insert_model_route sqlite_fails id value) value actor id expected.

Definition update_model_route (actor : ManagementActor) (id : ConfigVersionId) (expected : ConfigRevision) (value : ModelRouteConfiguration)
  : ResourceM (Revisioned ModelRouteConfiguration) :=
  write_resource "route_updated" "route" (as_str (rt_id value)) (ControlStore.update_model_route sqlite_fails id value) value actor id expected.

Definition delete_model_route (actor : ManagementActor) (id : ConfigVersionId) (expected : ConfigRevision) (i : RouteId)
  : ResourceM ConfigRevision :=
  delete_resource actor id expected (mkAction "route_deleted" "route" (as_str i)) (ControlStore.delete_model_route sqlite_fails id i).

Definition create_route_candidate (actor : ManagementActor) (id : ConfigVersionId) (expected : ConfigRevision) (value : RouteCandidateConfiguration)
  : ResourceM (Revisioned RouteCandidateConfiguration) :=
  write_resource "route_candidate_created" "route_candidate" (as_str (cn_id value)) (ControlStore.insert_route_candidate sqlite_fails id value) value actor id expected.

(** The labels one enabled candidate adds. *)
Definition has_active_binding (cf : ControlPlaneConfiguration) (candidate : RouteCandidateConfiguration) : bool :=
  existsb (fun binding => existsb (fun credential =>
             bool_decide (cr_id credential = bn_credential_id binding) && bool_decide (cr_status credential = CredentialActive))
             (cf_credentials cf))
    (List.filter (fun binding => bool_decide (bn_endpoint_id binding = cn_endpoint_id candidate) && bn_enabled binding)
       (cf_bindings cf)).

Definition native_grok_account_pool (cf : ControlPlaneConfiguration) (endpoint : EndpointConfiguration) : bool :=
  match List.find (fun upstream => bool_decide (up_id upstream = en_upstream_id endpoint)) (cf_upstreams cf) with
  | None => false
  | Some upstream =>
      (bool_decide (up_kind upstream = "grok-build-native") && bool_decide (en_adapter_id endpoint = "grok.build.responses"))
      || (bool_decide (up_kind upstream = "grok-console-native")
          && bool_decide (en_adapter_id endpoint = "grok.console.responses"))
      || (bool_decide (up_kind upstream = "grok-web-native") && bool_decide (en_adapter_id endpoint = "grok.web.responses"))
  end.

Definition candidate_codes (cf : ControlPlaneConfiguration) (candidate : RouteCandidateConfiguration) : list string :=
  match List.find (fun endpoint => bool_decide (en_id endpoint = cn_endpoint_id candidate)) (cf_endpoints cf) with
  | None => ["route_candidate_endpoint_missing"]
  | Some endpoint =>
      (if negb (en_enabled endpoint) then ["route_candidate_endpoint_disabled"] else [])
      ++ (if negb (has_active_binding cf candidate) && negb (native_grok_account_pool cf endpoint)
          then ["route_candidate_missing_active_credential"] else [])
  end.

(** [Vec::dedup]: one of each run of equal elements. *)
Fixpoint dedup_labels (l : list string) : list string :=
  match l with
  | [] => []
  | x :: rest => match rest with
                 | y :: _ => if bool_decide (x = y) then dedup_labels rest else x :: dedup_labels rest
                 | [] => [x]
                 end
  end.

Definition validate_model_route (id : ConfigVersionId) (route_id : RouteId) : ResourceM ManagementRouteValidation :=
  let! cf := configuration id in
  if negb (existsb (fun candidate => bool_decide (rt_id candidate = route_id)) (cf_routes cf)) then raise ResourceNotFound
  else
    let active_candidates :=
      List.filter (fun candidate => bool_decide (cn_route_id candidate = route_id) && cn_enabled candidate) (cf_candidates cf) in
    let codes := (if bool_decide (active_candidates = []) then ["route_missing_active_candidate"] else [])
                 ++ List.concat (candidate_codes cf <$> active_candidates) in
    let codes := dedup_labels (sort_by String.leb codes) in
    ret (mkRouteValidation (bool_decide (codes = [])) codes).

(** ** Access groups and client keys *)

Definition list_access_groups (id : ConfigVersionId) := list_resources cf_access_groups id.

Definition get_access_group (id : ConfigVersionId) (i : AccessGroupId) :=
  get_resource cf_access_groups (fun candidate => bool_decide (gr_id candidate = i)) id.

Definition create_access_group (actor : ManagementActor) (id : ConfigVersionId) (expected : ConfigRevision) (value : AccessGroupConfiguration)
  : ResourceM (Revisioned AccessGroupConfiguration) :=
  write_resource "access_group_created" "access_group" (as_str (gr_id value)) (ControlStore.insert_access_group sqlite_fails id value) value actor id expected.

Definition update_access_group (actor : ManagementActor) (id : ConfigVersionId) (expected : ConfigRevision) (value : AccessGroupConfiguration)
  : ResourceM (Revisioned AccessGroupConfiguration) :=
  write_resource "access_group_updated" "access_group" (as_str (gr_id value)) (ControlStore.update_access_group sqlite_fails id value) value actor id expected.

Definition delete_access_group (actor : ManagementActor) (id : ConfigVersionId) (expected : ConfigRevision) (i : AccessGroupId)
  : ResourceM ConfigRevision :=
  delete_resource actor id expected (mkAction "access_group_deleted" "access_group" (as_str i)) (ControlStore.delete_access_group sqlite_fails id i).

Definition list_access_group_routes (id : ConfigVersionId) (access_group_id : AccessGroupId)
  : ResourceM (Revisioned (list AccessGroupRouteConfiguration)) :=
  let! cf := configuration id in
  if negb (existsb (fun candidate => bool_decide (gr_id candidate = access_group_id)) (cf_access_groups cf))
  then raise ResourceNotFound
  else
    let! revision := current_revision cf in
    ret (mkRevisioned
           (List.filter (fun candidate => bool_decide (gt_access_group_id candidate = access_group_id)) (cf_grants cf)) revision).

Definition create_access_group_route (actor : ManagementActor) (id : ConfigVersionId) (expected : ConfigRevision) (value : AccessGroupRouteConfiguration)
  : ResourceM (Revisioned AccessGroupRouteConfiguration) :=
  write_resource "access_group_route_granted" "access_group_route" (as_str (gt_route_id value)) (ControlStore.insert_access_group_route sqlite_fails id value) value actor id expected.

Definition list_client_keys (id : ConfigVersionId) : ResourceM (Revisioned (list ClientKeyView)) :=
  list_resources (fun cf => view_of_key <$> cf_client_keys cf) id.

Definition get_client_key (id : ConfigVersionId) (i : ClientKeyId) : ResourceM (Revisioned ClientKeyView) :=
  let! k := get_resource cf_client_keys (fun candidate => bool_decide (sk_id candidate = i)) id in
  ret (mkRevisioned (view_of_key (rv_value k)) (rv_revision k)).

Definition issue_client_key (random_prefix random_secret : option (list Byte.byte)) (actor : ManagementActor)
    (id : ConfigVersionId) (expected : ConfigRevision) (input : ClientKeyIssue)
  : ResourceM (Revisioned IssuedClientKeyView) :=
  let! pepper := lift (ok_or ClientKeyIssuerUnavailable client_key_service) in
  let! issued := lift (map_err ResourceClientKey
                   (issue hmac pepper (ki_id input) (ki_access_group_id input) (ki_expires_at_ms input)
                      random_prefix random_secret)) in
  let record := ClientKey.set_status (issued_record issued) (issued_client_key_status (ki_status input)) in
  let! stored := lift (map_err ResourceStore
                   (stored_key_try_new (rec_client_key_id record) (rec_access_group_id record) (prefix_text (rec_prefix record))
                      (digest_bytes (rec_secret_digest record)) (ki_status input) (rec_expires_at_ms record))) in
  write_resource "client_key_issued" "client_key" (as_str (sk_id stored))
    (ControlStore.insert_client_key sqlite_fails id stored)
    (mkIssuedView (view_of_key stored) (issued_presented_key issued)) actor id expected.

Definition update_client_key (actor : ManagementActor) (id : ConfigVersionId) (expected : ConfigRevision) (i : ClientKeyId)
    (input : ClientKeyUpdate) : ResourceM (Revisioned ClientKeyView) :=
  let! cf := configuration id in
  let! current := lift (ok_or ResourceNotFound (List.find (fun k => bool_decide (sk_id k = i)) (cf_client_keys cf))) in
  let view := mkKeyView (sk_id current) (ku_access_group_id input) (sk_prefix current) (ku_status input)
                (ku_expires_at_ms input) in
  write_resource "client_key_updated" "client_key" (as_str i)
    (ControlStore.update_client_key_metadata sqlite_fails id i (ku_access_group_id input) (ku_status input)
       (ku_expires_at_ms input))
    view actor id expected.

Definition revoke_client_key (actor : ManagementActor) (id : ConfigVersionId) (expected : ConfigRevision) (i : ClientKeyId)
  : ResourceM ConfigRevision :=
  delete_resource actor id expected (mkAction "client_key_revoked" "client_key" (as_str i)) (ControlStore.revoke_client_key sqlite_fails id i).

(** ** Audit *)

Definition resource_audit_events : ResourceM (list ManagementResourceAuditEvent) :=
  on_store (list_management_resource_audit_events sqlite_fails).

Definition record_resource_action (actor : ManagementActor) (id : ConfigVersionId)
    (action resource_kind resource_id : string) : ResourceM unit :=
  let! draft := audit action actor resource_kind resource_id in
  on_store (record_management_resource_audit_event sqlite_fails id draft).

Definition record_draft_resource_action (actor : ManagementActor) (id : ConfigVersionId) (expected : ConfigRevision)
    (action resource_kind resource_id : string) : ResourceM ConfigRevision :=
  let! draft := audit action actor resource_kind resource_id in
  let! r := on_store (mutate_draft_configuration sqlite_fails id (as_i64 expected)
                        (record_management_resource_audit_event_tx sqlite_fails draft id)) in
  lift (revision_try_new r.2).
End Operations.

(** ** Specification: one edit of a draft *)

(** The draft at the expected revision, its one statement applied, the revision one
    further, one event appended, and nothing else. *)
Record edited `{!SqliteJson} (id : ConfigVersionId) (expected : Z) (op : GraphOp) (e : ManagementResourceAuditEvent) (db db' : Database)
  : Prop := {
  ed_version : exists v, db_versions db !! id = Some v /\ cv_status v = VersionDraft /\ cv_revision v = expected
    /\ db_versions db' = <[id := set_revision (expected + 1) v]> (db_versions db);
  ed_graph : exists g, op_stmt op (graph_at db id) = Some (1, g) /\ db_graphs db' = <[id := g]> (db_graphs db);
  ed_event : db_resource_audit db' = db_resource_audit db ++ [e];
  ed_audit : db_audit db' = db_audit db;
}.

Definition mu_db (s : MutationService) : Database := st_db (mu_store s).

(** The event of an edit: its label, the actor, and the reading of the clock. *)
Definition event_for (now_ms : nat -> result ManagementClockError Z) (label : ResourceAction) (actor : ManagementActor)
    (id : ConfigVersionId) (s : MutationService) (e : ManagementResourceAuditEvent) : Prop :=
  exists now, now_ms (mu_readings s) = Ok now
    /\ e = mkResourceEvent (Z.of_nat (length (db_resource_audit (mu_db s))) + 1)
             (mkResourceDraft (ra_action label) (actor_as_str actor) now (ra_resource_kind label) (ra_resource_id label)) id.

(** The label under which an edit is recorded. *)
Definition op_label (op : GraphOp) : ResourceAction :=
  match op with
  | InsertEgressPolicy p => mkAction "egress_policy_created" "egress_policy" (as_str (ep_id p))
  | UpdateEgressPolicy p => mkAction "egress_policy_updated" "egress_policy" (as_str (ep_id p))
  | DeleteEgressPolicy i => mkAction "egress_policy_deleted" "egress_policy" (as_str i)
  | InsertUpstream u => mkAction "upstream_created" "upstream" (as_str (up_id u))
  | UpdateUpstream u => mkAction "upstream_updated" "upstream" (as_str (up_id u))
  | DeleteUpstream i => mkAction "upstream_deleted" "upstream" (as_str i)
  | InsertEndpoint e => mkAction "endpoint_created" "endpoint" (as_str (en_id e))
  | UpdateEndpoint e => mkAction "endpoint_updated" "endpoint" (as_str (en_id e))
  | DeleteEndpoint i => mkAction "endpoint_deleted" "endpoint" (as_str i)
  | InsertCredential c => mkAction "credential_created" "credential" (as_str (cr_id c))
  | UpdateCredential c => mkAction "credential_updated" "credential" (as_str (cr_id c))
  | DeleteCredential i => mkAction "credential_deleted" "credential" (as_str i)
  | InsertBinding b =>
      mkAction "endpoint_credential_binding_created" "endpoint_credential_binding" (as_str (bn_credential_id b))
  | InsertPublicModel p => mkAction "public_model_created" "public_model" (as_str (pc_id p))
  | UpdatePublicModel p => mkAction "public_model_updated" "public_model" (as_str (pc_id p))
  | DeletePublicModel i => mkAction "public_model_deleted" "public_model" (as_str i)
  | InsertAlias a => mkAction "model_alias_created" "model_alias" (al_alias a)
  | InsertRoute r => mkAction "route_created" "route" (as_str (rt_id r))
  | UpdateRoute r => mkAction "route_updated" "route" (as_str (rt_id r))
  | DeleteRoute i => mkAction "route_deleted" "route" (as_str i)
  | InsertCandidate c => mkAction "route_candidate_created" "route_candidate" (as_str (cn_id c))
  | InsertAccessGroup a => mkAction "access_group_created" "access_group" (as_str (gr_id a))
  | UpdateAccessGroup a => mkAction "access_group_updated" "access_group" (as_str (gr_id a))
  | DeleteAccessGroup i => mkAction "access_group_deleted" "access_group" (as_str i)
  | InsertGrant a => mkAction "access_group_route_granted" "access_group_route" (as_str (gt_route_id a))
  | InsertClientKey k => mkAction "client_key_issued" "client_key" (as_str (sk_id k))
  | UpdateClientKey i _ _ _ => mkAction "client_key_updated" "client_key" (as_str i)
  | RevokeClientKey i => mkAction "client_key_revoked" "client_key" (as_str i)
  | RecordResourceAudit d => mkAction (rd_action d) (rd_resource_kind d) (rd_resource_id d)
  end.

(** ** Lemmas: exactly one edit *)

Section Exact.
Context `{!SqliteJson} (sqlite_fails : nat -> bool) (now_ms : nat -> result ManagementClockError Z).

Definition is_record (op : GraphOp) : bool := match op with RecordResourceAudit _ => true | _ => false end.

Lemma insert_stmt_exact {K A} `{GraphTable K A} fits id (r : A) db0 :
  triple (eq db0) (insert_row sqlite_fails fits id r)
    (fun _ db => exists g, insert_stmt fits r (graph_at db0 id) = Some (1, g) /\ db = set_graph id g db0).
Proof.
  apply triple_bind with
    (Q := fun _ db => exists g, insert_stmt fits r (graph_at db0 id) = Some (1, g) /\ db = set_graph id g db0);
    [|intros n; by apply triple_ret].
  apply triple_execute. intros db n db' <-. unfold insert_into, on_graph. destruct (version_exists db0 id); [|done].
  destruct (insert_stmt fits r (graph_at db0 id)) as [[m g']|] eqn:Hs; [|done].
  pose proof Hs as (-> & _)%insert_stmt_inv. intros [= _ <-]. by exists g'.
Qed.

Lemma guarded_exact id stmt db0 :
  triple (eq db0) (ensure_draft_config_version sqlite_fails id ;;;
                   (let! n := execute sqlite_fails (on_graph id stmt) in resource_updated n))
    (fun _ db => exists g, stmt (graph_at db0 id) = Some (1, g) /\ db = set_graph id g db0).
Proof.
  eapply triple_bind; [apply (Provisioning.ensure_draft_exact sqlite_fails)|]. intros [].
  eapply triple_bind with (Q := fun n db => n = 1 -> exists g, stmt (graph_at db0 id) = Some (1, g) /\ db = set_graph id g db0).
  - apply triple_execute. intros db n db' [-> Hd]. unfold on_graph. destruct (version_exists db id) eqn:Hv; [|by intros [= <- <-]].
    destruct (stmt (graph_at db id)) as [[m g]|] eqn:Hs; [|done]. intros [= <- <-] ->. by exists g.
  - intros n. unfold resource_updated. destruct (Z.eqb_spec n 1) as [->|]; [|apply triple_raise]. apply triple_ret. auto.
Qed.

Lemma draft_insert_exact {K A} `{GraphTable K A} fits id (r : A) db0 :
  triple (eq db0) (ensure_draft_config_version sqlite_fails id ;;; insert_row sqlite_fails fits id r)
    (fun _ db => exists g, insert_stmt fits r (graph_at db0 id) = Some (1, g) /\ db = set_graph id g db0).
Proof.
  eapply triple_bind; [apply (Provisioning.ensure_draft_exact sqlite_fails)|]. intros [].
  eapply triple_weaken; [apply insert_stmt_exact|by intros db [-> _]|]. done.
Qed.

Lemma apply_op_exact id op db0 :
  is_record op = false ->
  triple (eq db0) (apply_op sqlite_fails id op)
    (fun _ db => exists g, op_stmt op (graph_at db0 id) = Some (1, g) /\ db = set_graph id g db0).
Proof.
  intros Hr. destruct op; try discriminate Hr; simpl;
    first [apply insert_stmt_exact|apply guarded_exact|apply draft_insert_exact].
Qed.

Lemma record_resource_exact draft id db0 :
  triple (eq db0) (record_management_resource_audit_event_tx sqlite_fails draft id)
    (fun _ db => db = mkDb (db_versions db0) (db_graphs db0) (db_audit db0)
       (db_resource_audit db0 ++ [mkResourceEvent (Z.of_nat (length (db_resource_audit db0)) + 1) draft id])).
Proof.
  eapply triple_bind with (Q := fun _ db => _); [|intros n; by apply triple_ret].
  apply triple_execute. intros db n db' <-. unfold resource_audit_stmt. case_match; [|done]. by intros [= _ <-].
Qed.

Lemma bump_exact id expected db0 db' :
  bump_stmt id expected db0 = Some (1, db') ->
  exists v, db_versions db0 !! id = Some v /\ cv_status v = VersionDraft /\ cv_revision v = expected
    /\ db' = set_versions (<[id := set_revision (expected + 1) v]> (db_versions db0)) db0.
Proof.
  unfold bump_stmt. destruct (db_versions db0 !! id) as [u|] eqn:Hu; [|done].
  destruct (bool_decide (cv_status u = VersionDraft) && (cv_revision u =? expected)) eqn:Hc; [|done].
  destruct (in_i64 (expected + 1)); [|done]. intros [= <-]. bool_simp. exists u. by split_and!.
Qed.

(** The transaction of an edit, exactly. *)
Lemma mutate_exact id expected op draft s r s' :
  is_record op = false ->
  mutate_draft_configuration sqlite_fails id expected
    (apply_op sqlite_fails id op ;;; record_management_resource_audit_event_tx sqlite_fails draft id) s = (r, s') ->
  match r with
  | Ok x => 0 <= expected /\ x.2 = expected + 1
      /\ edited id expected op (mkResourceEvent (Z.of_nat (length (db_resource_audit (st_db s))) + 1) draft id) (st_db s) (st_db s')
  | _ => st_db s' = st_db s
  end.
Proof.
  intros Hop Hrun. set (db0 := st_db s).
  set (bumped := fun db => 0 <= expected /\ exists v, db_versions db0 !! id = Some v /\ cv_status v = VersionDraft
    /\ cv_revision v = expected /\ db = set_versions (<[id := set_revision (expected + 1) v]> (db_versions db0)) db0).
  set (e := mkResourceEvent (Z.of_nat (length (db_resource_audit db0)) + 1) draft id).
  apply (transaction_spec sqlite_fails (eq db0) _ (fun x db => x.2 = expected + 1
    /\ (0 <= expected /\ edited id expected op e db0 db))) in Hrun; [|clear Hrun|done].
  { destruct r; [|done..]. by destruct Hrun as (? & ? & ?). }
  apply (mutate_triple sqlite_fails (eq db0) bumped (fun db => 0 <= expected /\ edited id expected op e db0 db)).
  { intros db db' Hpos <- Hb. split; [done|]. by apply bump_exact. }
  eapply triple_bind with (Q := fun _ db => exists db1 g, bumped db1 /\ op_stmt op (graph_at db1 id) = Some (1, g)
    /\ db = set_graph id g db1).
  { intros s0 a s0' Hb Hrun. destruct (apply_op_exact id op (st_db s0) Hop _ _ _ eq_refl Hrun) as (g & Hg & ->).
    by exists (st_db s0), g. }
  intros [] s0 a s0' (db1 & g & Hb & Hg & Hs0) Hrun.
  pose proof (record_resource_exact draft id (st_db s0) _ _ _ eq_refl Hrun) as ->. destruct Hb as (Hpos & v & Hv & Hd & Hrev & ->).
  rewrite Hs0. split; [done|]. constructor; simpl.
  - by exists v.
  - by exists g.
  - done.
  - done.
Qed.
(** ** Lemmas: an admissible edit is made *)

(** A run without SQLite failures. *)
Definition runs {A} (m : StoreM A) (db : Database) (a : A) (db' : Database) : Prop :=
  forall s, st_db s = db -> exists s', m s = (Ok a, s') /\ st_db s' = db'.

Lemma runs_bind {A B} (m : StoreM A) (f : A -> StoreM B) db a db1 b db2 :
  runs m db a db1 -> runs (f a) db1 b db2 -> runs (bind m f) db b db2.
Proof. intros Hm Hf s Hs. destruct (Hm s Hs) as (s1 & H1 & Hs1). unfold bind. rewrite H1. auto. Qed.

Lemma runs_ret {A} (a : A) db : runs (ret a) db a db.
Proof. intros s Hs. by exists s. Qed.

Section Healthy.
Hypothesis healthy : forall n, sqlite_fails n = false.

Lemma runs_call db : runs (call sqlite_fails) db tt db.
Proof. intros s Hs. unfold call. rewrite healthy. by eexists. Qed.

Lemma runs_query {A} (f : Database -> A) db : runs (query sqlite_fails f) db (f db) db.
Proof. eapply runs_bind; [apply runs_call|]. intros s Hs. exists s. by rewrite Hs. Qed.

Lemma runs_execute f db n db' : f db = Some (n, db') -> runs (execute sqlite_fails f) db n db'.
Proof. intros Hf. eapply runs_bind; [apply runs_call|]. intros s Hs. rewrite Hs, Hf. by eexists. Qed.

Lemma runs_transaction {A} (m : StoreM A) db a db' : runs m db a db' -> runs (transaction sqlite_fails m) db a db'.
Proof.
  intros Hm s Hs.
  assert (runs (call sqlite_fails ;;; (let! x := m in call sqlite_fails ;;; ret x)) db a db') as Hr.
  { eapply runs_bind; [apply runs_call|]. eapply runs_bind; [exact Hm|]. eapply runs_bind; [apply runs_call|]. apply runs_ret. }
  destruct (Hr s Hs) as (s1 & H1 & Hs1). exists s1. unfold transaction. by rewrite H1.
Qed.

Lemma runs_draft id db : cv_status <$> db_versions db !! id = Some VersionDraft ->
  runs (ensure_draft_config_version sqlite_fails id) db tt db.
Proof.
  intros Hd. eapply runs_bind; [apply runs_query|]. rewrite bool_decide_eq_true_2 by done. apply runs_ret.
Qed.

Lemma draft_exists id db : cv_status <$> db_versions db !! id = Some VersionDraft -> version_exists db id = true.
Proof. intros (v & Hv & _)%fmap_Some. apply bool_decide_eq_true_2. by exists v. Qed.

Lemma runs_insert {K A} `{GraphTable K A} fits id (r : A) db g :
  version_exists db id = true -> insert_stmt fits r (graph_at db id) = Some (1, g) ->
  runs (insert_row sqlite_fails fits id r) db tt (set_graph id g db).
Proof.
  intros Hv Hs. eapply runs_bind; [|apply runs_ret]. apply runs_execute with (n := 1). unfold insert_into, on_graph.
  by rewrite Hv, Hs.
Qed.

Lemma runs_guarded id stmt db g :
  cv_status <$> db_versions db !! id = Some VersionDraft -> stmt (graph_at db id) = Some (1, g) ->
  runs (ensure_draft_config_version sqlite_fails id ;;;
        (let! n := execute sqlite_fails (on_graph id stmt) in resource_updated n)) db tt (set_graph id g db).
Proof.
  intros Hd Hs. eapply runs_bind; [by apply runs_draft|]. eapply runs_bind with (a := 1); [|apply runs_ret].
  apply runs_execute. unfold on_graph. by rewrite (draft_exists _ _ Hd), Hs.
Qed.

Lemma runs_apply_op id op db g :
  cv_status <$> db_versions db !! id = Some VersionDraft -> is_record op = false ->
  op_stmt op (graph_at db id) = Some (1, g) -> runs (apply_op sqlite_fails id op) db tt (set_graph id g db).
Proof.
  intros Hd Hr Hs. pose proof (draft_exists _ _ Hd) as Hv.
  destruct op; try discriminate Hr; simpl in *;
    first [by apply runs_guarded|by apply runs_insert|eapply runs_bind; [by apply runs_draft|by apply runs_insert]].
Qed.

Lemma runs_mutate {T} id expected (m : StoreM T) v t db db' :
  db_versions db !! id = Some v -> cv_status v = VersionDraft -> cv_revision v = expected -> 0 <= expected < i64_max ->
  runs m (set_versions (<[id := set_revision (expected + 1) v]> (db_versions db)) db) t db' ->
  runs (mutate_draft_configuration sqlite_fails id expected m) db (t, expected + 1) db'.
Proof.
  intros Hv Hd Hrev Hr Hm. apply runs_transaction. eapply runs_bind; [|eapply runs_bind; [exact Hm|apply runs_ret]].
  unfold require_and_bump_draft_revision. rewrite (proj2 (Z.ltb_ge _ _)) by lia.
  eapply runs_bind with (a := 1); [|apply runs_ret]. apply runs_execute. unfold bump_stmt. rewrite Hv.
  rewrite bool_decide_eq_true_2, Hrev, Z.eqb_refl by done. simpl.
  replace (in_i64 (expected + 1)) with true; [done|]. symmetry. unfold in_i64, i64_min, i64_max in *.
  apply andb_true_intro. rewrite !Z.leb_le. lia.
Qed.
End Healthy.
End Exact.

(** ** Draft edits *)

Definition revision_of {A} (m : ResourceM (Revisioned A)) : ResourceM ConfigRevision :=
  let! r := m in ret (rv_revision r).

(** The service call that makes an edit. Credentials and new keys carry secrets the
    service seals or issues itself. *)
Definition edit `{!SqliteJson} (sqlite_fails : nat -> bool) (now_ms : nat -> result ManagementClockError Z) (op : GraphOp)
    (actor : ManagementActor) (id : ConfigVersionId) (expected : ConfigRevision) : option (ResourceM ConfigRevision) :=
  match op with
  | InsertEgressPolicy p => Some (revision_of (create_egress_policy sqlite_fails now_ms actor id expected p))
  | UpdateEgressPolicy p => Some (revision_of (update_egress_policy sqlite_fails now_ms actor id expected p))
  | DeleteEgressPolicy i => Some (delete_egress_policy sqlite_fails now_ms actor id expected i)
  | InsertUpstream u => Some (revision_of (create_upstream sqlite_fails now_ms actor id expected u))
  | UpdateUpstream u => Some (revision_of (update_upstream sqlite_fails now_ms actor id expected u))
  | DeleteUpstream i => Some (delete_upstream sqlite_fails now_ms actor id expected i)
  | InsertEndpoint e => Some (revision_of (create_endpoint sqlite_fails now_ms actor id expected e))
  | UpdateEndpoint e => Some (revision_of (update_endpoint sqlite_fails now_ms actor id expected e))
  | DeleteEndpoint i => Some (delete_endpoint sqlite_fails now_ms actor id expected i)
  | DeleteCredential i => Some (delete_credential sqlite_fails now_ms actor id expected i)
  | InsertBinding b => Some (revision_of (create_endpoint_credential_binding sqlite_fails now_ms actor id expected b))
  | InsertPublicModel p => Some (revision_of (create_public_model sqlite_fails now_ms actor id expected p))
  | UpdatePublicModel p => Some (revision_of (update_public_model sqlite_fails now_ms actor id expected p))
  | DeletePublicModel i => Some (delete_public_model sqlite_fails now_ms actor id expected i)
  | InsertAlias a => Some (revision_of (create_model_alias sqlite_fails now_ms actor id expected a))
  | InsertRoute r => Some (revision_of (create_model_route sqlite_fails now_ms actor id expected r))
  | UpdateRoute r => Some (revision_of (update_model_route sqlite_fails now_ms actor id expected r))
  | DeleteRoute i => Some (delete_model_route sqlite_fails now_ms actor id expected i)
  | InsertCandidate c => Some (revision_of (create_route_candidate sqlite_fails now_ms actor id expected c))
  | InsertAccessGroup a => Some (revision_of (create_access_group sqlite_fails now_ms actor id expected a))
  | UpdateAccessGroup a => Some (revision_of (update_access_group sqlite_fails now_ms actor id expected a))
  | DeleteAccessGroup i => Some (delete_access_group sqlite_fails now_ms actor id expected i)
  | InsertGrant a => Some (revision_of (create_access_group_route sqlite_fails now_ms actor id expected a))
  | RevokeClientKey i => Some (revoke_client_key sqlite_fails now_ms actor id expected i)
  | UpdateClientKey i group status expires =>
      Some (revision_of (update_client_key sqlite_fails now_ms actor id expected i (mkKeyUpdate group status expires)))
  | InsertCredential _ | UpdateCredential _ | InsertClientKey _ | RecordResourceAudit _ => None
  end.

(** The event of an edit, as its constructor accepts it and as its row fits. *)
Definition label_draft (label : ResourceAction) (actor : ManagementActor) (now : Z) : ManagementResourceAuditEventDraft :=
  mkResourceDraft (ra_action label) (actor_as_str actor) now (ra_resource_kind label) (ra_resource_id label).

(** What an edit needs: a reading of the clock, an event that can be recorded, the
    draft at the expected revision, and a statement its graph admits. *)
Record admissible `{!SqliteJson} (now_ms : nat -> result ManagementClockError Z) (label : ResourceAction) (op : GraphOp)
    (actor : ManagementActor) (id : ConfigVersionId) (expected : ConfigRevision) (s : MutationService) : Prop := {
  ad_event : exists now, now_ms (mu_readings s) = Ok now
    /\ resource_draft_try_new (ra_action label) (actor_as_str actor) now (ra_resource_kind label)
         (ra_resource_id label) = Ok (label_draft label actor now)
    /\ is_Some (resource_audit_stmt (label_draft label actor now) id (mu_db s));
  ad_version : exists v, db_versions (mu_db s) !! id = Some v /\ cv_status v = VersionDraft
    /\ cv_revision v = as_i64 expected;
  ad_revision : 0 <= as_i64 expected < i64_max;
  ad_stmt : exists g, op_stmt op (graph_at (mu_db s) id) = Some (1, g);
}.

Section Edits.
Context `{!SqliteJson} (sqlite_fails : nat -> bool) (now_ms : nat -> result ManagementClockError Z).
Context (actor : ManagementActor) (id : ConfigVersionId) (expected : ConfigRevision).

(** Success is exactly one edit; failure changes nothing. *)
Definition performed (label : ResourceAction) (op : GraphOp) (s : MutationService) (r : result ManagementResourceError ConfigRevision)
    (s' : MutationService) : Prop :=
  match r with
  | Ok revision => as_i64 revision = as_i64 expected + 1
      /\ exists e, event_for now_ms label actor id s e /\ edited id (as_i64 expected) op e (mu_db s) (mu_db s')
  | _ => mu_db s' = mu_db s
  end.

(** The writes of the service as one shape: label, edit, revision. *)
Definition labelled (label : ResourceAction) (op : GraphOp) : ResourceM ConfigRevision :=
  delete_resource sqlite_fails now_ms actor id expected label (apply_op sqlite_fails id op).

Lemma write_labelled {A} label op (value : A) s :
  write_resource sqlite_fails now_ms (ra_action label) (ra_resource_kind label)
    (ra_resource_id label) (apply_op sqlite_fails id op) value actor id expected s
  = (let! revision := labelled label op in ret (mkRevisioned value revision)) s.
Proof.
  unfold labelled, write_resource, delete_resource, bind, ret.
  destruct (audit _ _ _ _ _ _) as [[]]; [|done..]. destruct (mutate_and_record _ _ _ _ _ _) as [[]]; [|done..].
  by destruct (lift _ _) as [[]].
Qed.

Lemma revision_labelled {A} op (value : A) s :
  revision_of (write_resource sqlite_fails now_ms (ra_action (op_label op)) (ra_resource_kind (op_label op))
                 (ra_resource_id (op_label op)) (apply_op sqlite_fails id op) value actor id expected) s = labelled (op_label op) op s.
Proof.
  unfold revision_of. unfold bind at 1. rewrite write_labelled. unfold bind, ret. by destruct (labelled _ _ _) as [[]].
Qed.

Lemma draft_of_label action who now kind resource d :
  resource_draft_try_new action who now kind resource = Ok d -> d = mkResourceDraft action who now kind resource.
Proof. unfold resource_draft_try_new. destruct (_ || _); [done|]. by intros [= <-]. Qed.

Lemma labelled_performs label op s r s' : is_record op = false -> labelled label op s = (r, s') -> performed label op s r s'.
Proof.
  intros Hop Hrun. unfold labelled, delete_resource, audit, clock_reading, mutate_and_record, on_store, lift, bind, ret in Hrun.
  destruct (now_ms (mu_readings s)) as [now|err|] eqn:Hnow; simpl in Hrun; [|by injection Hrun as <- <-..].
  destruct (resource_draft_try_new _ _ _ _ _) as [d|err|] eqn:Hd; simpl in Hrun; [|by injection Hrun as <- <-..].
  destruct (mutate_draft_configuration _ _ _ _ _) as [x st] eqn:Hm.
  pose proof (mutate_exact _ _ _ _ _ _ _ _ Hop Hm) as Hx. destruct x as [x|err|]; simpl in Hrun; [|by injection Hrun as <- <-..].
  destruct Hx as (Hpos & Hnext & Hed). unfold revision_try_new in Hrun. rewrite (proj2 (Z.ltb_ge x.2 0)) in Hrun by lia.
  injection Hrun as <- <-. split; [done|]. eexists. split; [|exact Hed]. exists now. split; [done|].
  by rewrite (draft_of_label _ _ _ _ _ _ Hd).
Qed.

Lemma configuration_same j s r s' : db_ok (mu_db s) -> configuration sqlite_fails j s = (r, s') ->
  mu_db s' = mu_db s /\ mu_readings s' = mu_readings s.
Proof.
  intros Hok Hrun. unfold configuration, on_store, bind, lift in Hrun.
  destruct (load_configuration sqlite_fails j (mu_store s)) as [x st] eqn:Hl.
  destruct (load_configuration_reads sqlite_fails j _ _ _ Hok Hl) as [Hdb _].
  destruct x as [[cf|]|err|]; injection Hrun as <- <-; done.
Qed.

Lemma labelled_complete label op s :
  (forall n, sqlite_fails n = false) -> is_record op = false -> admissible now_ms label op actor id expected s ->
  exists revision s', labelled label op s = (Ok revision, s').
Proof.
  intros Hh Hop [(now & Hnow & Hd & Hfit) (v & Hv & Hdraft & Hrev) Hr (g & Hg)].
  set (d := label_draft label actor now) in *.
  set (db1 := set_versions (<[id := set_revision (as_i64 expected + 1) v]> (db_versions (mu_db s))) (mu_db s)).
  assert (Hdr : cv_status <$> db_versions db1 !! id = Some VersionDraft) by (simpl; rewrite lookup_insert_eq; simpl; congruence).
  assert (Hst : exists db2, resource_audit_stmt d id (set_graph id g db1) = Some (1, db2)).
  { unfold resource_audit_stmt in *. destruct Hfit as [x Hx]. case_match eqn:Hc; [|done].
    change (version_exists (set_graph id g db1) id) with (version_exists db1 id). rewrite (draft_exists _ _ Hdr).
    apply andb_true_iff in Hc as [-> _]. by eexists. }
  destruct Hst as [db2 Hst].
  destruct (runs_mutate sqlite_fails Hh id (as_i64 expected)
    (apply_op sqlite_fails id op ;;; record_management_resource_audit_event_tx sqlite_fails d id) v tt (mu_db s) db2
    Hv Hdraft Hrev Hr) with (s := mu_store s) as (st & Hrun & _); [|done|].
  { eapply runs_bind; [by apply (runs_apply_op sqlite_fails Hh id op db1 g)|].
    eapply runs_bind; [by apply (runs_execute sqlite_fails Hh)|apply runs_ret]. }
  unfold labelled, delete_resource, audit, clock_reading, mutate_and_record, on_store, lift, bind, ret. unfold bind in Hrun.
  rewrite Hnow. simpl. rewrite Hd. simpl. rewrite Hrun. simpl. unfold revision_try_new.
  rewrite (proj2 (Z.ltb_ge _ _)) by lia. by do 2 eexists.
Qed.

(** Every edit but that of a key is the labelled write itself. *)
Lemma edit_labelled op m :
  edit sqlite_fails now_ms op actor id expected = Some m ->
  is_record op = false /\ ((forall s, m s = labelled (op_label op) op s) \/ exists i group status expires,
    op = UpdateClientKey i group status expires
    /\ m = revision_of (update_client_key sqlite_fails now_ms actor id expected i (mkKeyUpdate group status expires))).
Proof.
  destruct op; simpl; intros [= <-]; (split; [done|]);
    lazymatch goal with
    | |- context [labelled _ (UpdateClientKey _ _ _ _)] => right; by do 4 eexists
    | |- context [labelled _ ?op] => left; intros s; (exact (revision_labelled op _ s) || done)
    end.
Qed.

Lemma performed_moved label op s1 s r s' :
  mu_db s1 = mu_db s -> mu_readings s1 = mu_readings s -> performed label op s1 r s' -> performed label op s r s'.
Proof. intros Hdb Hc. unfold performed, event_for. by rewrite Hdb, Hc. Qed.

Lemma admissible_moved label op s1 s :
  mu_db s1 = mu_db s -> mu_readings s1 = mu_readings s -> admissible now_ms label op actor id expected s ->
  admissible now_ms label op actor id expected s1.
Proof. intros Hdb Hc [Ha1 Ha2 Ha3 Ha4]. constructor; [|..]; rewrite ?Hdb, ?Hc; done. Qed.

(** The keys of a version, once it is loaded. *)
Lemma key_found s s1 x i :
  (forall n, sqlite_fails n = false) -> db_ok (mu_db s) -> is_Some (db_versions (mu_db s) !! id) ->
  is_Some (g_keys (graph_at (mu_db s) id) !! i) -> configuration sqlite_fails id s = (x, s1) ->
  exists cf k, x = Ok cf /\ List.find (fun k => bool_decide (sk_id k = i)) (cf_client_keys cf) = Some k.
Proof.
  intros Hh Hok [v Hv] [k Hk] Hrun. unfold configuration, on_store, bind, lift in Hrun.
  destruct (load_configuration sqlite_fails id (mu_store s)) as [y st] eqn:Hl.
  destruct (load_configuration_reads sqlite_fails id _ _ _ Hok Hl) as [_ [[_ [n Hn]]|Hy]]; [by rewrite Hh in Hn|].
  fold (mu_db s) in Hy. rewrite Hv in Hy. subst y. injection Hrun as <- _.
  exists (configuration_at (mu_db s) v). destruct (List.find _ _) as [k'|] eqn:Hf; [by exists k'|]. exfalso.
  destruct (graph_at_ok _ id Hok) as [Hg _]. destruct (ok_keys _ Hg _ _ Hk) as [Hi _].
  assert (Hin : k ∈ cf_client_keys (configuration_at (mu_db s) v)).
  { apply elem_of_sorted_values. exists i. by rewrite (proj1 (do_versions _ Hok _ _ Hv)). }
  apply list_elem_of_In in Hin. pose proof (List.find_none _ _ Hf _ Hin) as Hn. simpl in Hn.
  by rewrite bool_decide_eq_true_2 in Hn.
Qed.

Lemma update_key_unfolds i group status expires s :
  revision_of (update_client_key sqlite_fails now_ms actor id expected i (mkKeyUpdate group status expires)) s
  = match configuration sqlite_fails id s with
    | (Ok cf, s1) => match List.find (fun k => bool_decide (sk_id k = i)) (cf_client_keys cf) with
                     | Some _ => labelled (op_label (UpdateClientKey i group status expires)) (UpdateClientKey i group status expires) s1
                     | None => (Err ResourceNotFound, s1)
                     end
    | (Err e, s1) => (Err e, s1)
    | (Panic, s1) => (Panic, s1)
    end.
Proof.
  unfold update_client_key. unfold revision_of at 1, bind at 1 2. destruct (configuration sqlite_fails id s) as [[cf|e|] s1]; [|done..].
  unfold bind at 1, lift. destruct (List.find _ _) as [k|]; simpl; [|done].
  exact (revision_labelled (UpdateClientKey i group status expires) _ s1).
Qed.

Lemma edit_performs op m s r s' :
  edit sqlite_fails now_ms op actor id expected = Some m -> db_ok (mu_db s) -> m s = (r, s') ->
  performed (op_label op) op s r s'
  /\ ((forall n, sqlite_fails n = false) -> admissible now_ms (op_label op) op actor id expected s -> exists revision, r = Ok revision).
Proof.
  intros [Hop He]%edit_labelled Hok Hrun. destruct He as [Hm|(i & group & status & expires & -> & ->)].
  - rewrite Hm in Hrun. split; [by apply labelled_performs|]. intros Hh Had.
    destruct (labelled_complete (op_label op) op s Hh Hop Had) as (rev & s2 & Hl). exists rev. congruence.
  - rewrite update_key_unfolds in Hrun. destruct (configuration sqlite_fails id s) as [x s1] eqn:Hc.
    destruct (configuration_same _ _ _ _ Hok Hc) as [Hdb Hclock].
    set (op := UpdateClientKey i group status expires) in *. split.
    + destruct x as [cf|e|]; [|by injection Hrun as <- <-..].
      destruct (List.find _ _); [|by injection Hrun as <- <-].
      eapply performed_moved; [done..|]. by apply labelled_performs.
    + intros Hh Had. destruct (ad_version _ _ _ _ _ _ _ Had) as (v & Hv & _). destruct (ad_stmt _ _ _ _ _ _ _ Had) as [g Hg].
      destruct (key_found s s1 x i Hh Hok) as (cf & k & -> & Hf); [by exists v| |done|].
      { simpl in Hg. unfold rewrite_key_stmt in Hg. by case_match. }
      rewrite Hf in Hrun. destruct (labelled_complete (op_label op) op s1 Hh Hop) as (rev & s2 & Hl); [by apply (admissible_moved _ op s1 s)|].
      exists rev. congruence.
Qed.
End Edits.

(** ** Credentials *)

(** The writes that seal a secret. *)
Inductive CredentialWrite : Type :=
| CreateCredential (upstream_id : UpstreamId) (input : CredentialUpsert)
| ReplaceCredential (input : CredentialUpsert)
| ReplaceCredentialIf (expected_credential_revision : Z) (input : CredentialUpsert)
| PersistOauth (credential_id : CredentialId) (expected_credential_revision : Z) (oauth_envelope : list Byte.byte).

Definition write_id (w : CredentialWrite) : CredentialId :=
  match w with
  | CreateCredential _ input | ReplaceCredential input | ReplaceCredentialIf _ input => ups_id input
  | PersistOauth credential_id _ _ => credential_id
  end.

Definition write_secret (w : CredentialWrite) : list Byte.byte :=
  match w with
  | CreateCredential _ input | ReplaceCredential input | ReplaceCredentialIf _ input => ups_plaintext_secret input
  | PersistOauth _ _ oauth_envelope => oauth_envelope
  end.

Definition write_kind (w : CredentialWrite) : string :=
  match w with
  | CreateCredential _ input | ReplaceCredential input | ReplaceCredentialIf _ input => ups_kind input
  | PersistOauth _ _ _ => "oauth_json"
  end.

Definition write_status (w : CredentialWrite) : CredentialStatus :=
  match w with
  | CreateCredential _ input | ReplaceCredential input | ReplaceCredentialIf _ input => ups_status input
  | PersistOauth _ _ _ => CredentialActive
  end.

Section Credentials.
Context `{!Aead} `{!AeadLaws} `{!SqliteJson} (sqlite_fails : nat -> bool) (now_ms : nat -> result ManagementClockError Z).
Context (ring : MasterKeyRing) (nonce : list Byte.byte) (actor : ManagementActor) (id : ConfigVersionId).
(** A key version is a non-zero [u32], a nonce has the AEAD's length. *)
Hypothesis key_version : 1 <= active_key_version ring < 2 ^ 32.
Hypothesis nonce_length : length nonce = NONCE_BYTES.

Definition call_write (expected : ConfigRevision) (w : CredentialWrite) : ResourceM (Revisioned CredentialView) :=
  match w with
  | CreateCredential upstream_id input =>
      create_credential sqlite_fails now_ms ring (Some nonce) actor id expected upstream_id input
  | ReplaceCredential input => update_credential sqlite_fails now_ms ring (Some nonce) actor id expected input
  | ReplaceCredentialIf revision input =>
      update_credential_if_revision sqlite_fails now_ms ring (Some nonce) actor id expected revision input
  | PersistOauth credential_id revision oauth_envelope =>
      persist_oauth_credential_if_revision sqlite_fails now_ms ring (Some nonce) actor id expected credential_id revision
        oauth_envelope
  end.

(** The secret of a credential that was sealed here. *)
Definition sealed_from (plaintext : list Byte.byte) (c : CredentialConfiguration) : Prop :=
  exists aad, credential_associated_data id (cr_id c) (cr_upstream_id c) = Ok aad
    /\ seal ring (Some nonce) plaintext aad = Ok (cr_encrypted_secret c).

(** What sealing an input makes of it. *)
Record sealed_as (upstream_id : UpstreamId) (input : CredentialUpsert) (revision : Z) (c : CredentialConfiguration) : Prop := {
  sa_id : cr_id c = ups_id input;
  sa_upstream : cr_upstream_id c = upstream_id;
  sa_kind : cr_kind c = ups_kind input;
  sa_status : cr_status c = ups_status input;
  sa_revision : cr_revision c = revision /\ 0 <= revision;
  sa_secret : ups_plaintext_secret input <> [] /\ sealed_from (ups_plaintext_secret input) c;
}.

Lemma seal_credential_exact upstream_id input revision s r s' :
  seal_credential ring (Some nonce) id upstream_id input revision s = (r, s') ->
  s' = s /\ forall c, r = Ok c <-> sealed_as upstream_id input revision c.
Proof.
  unfold seal_credential. destruct (bool_decide (ups_plaintext_secret input = []) || (revision <? 0)) eqn:Hg.
  { intros [= <- <-]. split; [done|]. intros c. split; [done|]. intros [_ _ _ _ [_ Hr] [Hp _]]. exfalso.
    apply orb_true_iff in Hg as [Hg|Hg]; bool_simp; [done|lia]. }
  bool_simp. unfold bind, lift, ret.
  destruct (credential_associated_data id (ups_id input) upstream_id) as [aad|e|] eqn:Ha; simpl.
  2,3: intros [= <- <-]; (split; [done|]); intros c; (split; [done|]); intros [Hi Hu _ _ _ [_ (aad & Haad & _)]];
       rewrite Hi, Hu in Haad; congruence.
  destruct (seal ring (Some nonce) (ups_plaintext_secret input) aad) as [secret|e|] eqn:Hs; simpl.
  2,3: intros [= <- <-]; (split; [done|]); intros c; (split; [done|]); intros [Hi Hu _ _ _ [_ (aad' & Haad & Hse)]];
       rewrite Hi, Hu, Ha in Haad; injection Haad as <-; congruence.
  intros [= <- <-]. split; [done|]. intros c. split.
  - intros [= <-]. constructor; simpl; [done..|split; [done|lia]|]. split; [done|]. by exists aad.
  - intros [Hi Hu Hk Ht [Hr _] [_ (aad' & Haad & Hse)]]. rewrite Hi, Hu, Ha in Haad. injection Haad as <-. rewrite Hs in Hse.
    injection Hse as ->. destruct c. simpl in *. by subst.
Qed.

Lemma sealed_secret_ok plaintext c : sealed_from plaintext c -> secret_ok (cr_encrypted_secret c).
Proof.
  intros (aad & _ & Hs). apply seal_inv in Hs as (key & ct & _ & _ & _ & _ & -> & Hv); [|done]. by split.
Qed.

Definition stored_in (c : CredentialConfiguration) (db : Database) : Prop :=
  db_ok db /\ is_Some (db_versions db !! id) /\ g_credentials (graph_at db id) !! cr_id c = Some c.

(** Reading a version. *)
Lemma configuration_reads s r s' :
  db_ok (mu_db s) -> configuration sqlite_fails id s = (r, s') ->
  (mu_db s' = mu_db s /\ mu_readings s' = mu_readings s)
  /\ ((r = Err (ResourceStore Sqlite) /\ exists n, sqlite_fails n = true)
      \/ r = ok_or ResourceVersionNotFound (configuration_at (mu_db s) <$> db_versions (mu_db s) !! id)).
Proof.
  intros Hok Hrun. split; [by eapply configuration_same|]. unfold configuration, on_store, bind, lift in Hrun.
  destruct (load_configuration sqlite_fails id (mu_store s)) as [y st] eqn:Hl.
  destruct (load_configuration_reads sqlite_fails id _ _ _ Hok Hl) as [_ [[-> Hn]|Hy]]; [left; by injection Hrun as <- _|].
  right. fold (mu_db s) in Hy. subst y. by injection Hrun as <- _.
Qed.

Lemma find_credential_at db v i :
  db_ok db -> db_versions db !! id = Some v ->
  List.find (fun candidate => bool_decide (cr_id candidate = i)) (cf_credentials (configuration_at db v))
  = g_credentials (graph_at db id) !! i.
Proof.
  intros Hok Hv. destruct (graph_at_ok _ id Hok) as [Hg _].
  assert (Hat : cf_credentials (configuration_at db v) = sorted_values id_leb (g_credentials (graph_at db id)))
    by (unfold configuration_at; simpl; by rewrite (proj1 (do_versions _ Hok _ _ Hv))).
  rewrite Hat. destruct (List.find _ _) as [k|] eqn:Hf.
  - apply List.find_some in Hf as [Hin Hk]. apply list_elem_of_In, elem_of_sorted_values in Hin as [j Hj].
    destruct (ok_credentials _ Hg _ _ Hj) as [Hid _]. bool_simp. by subst.
  - destruct (g_credentials (graph_at db id) !! i) as [c|] eqn:Hc; [|done]. exfalso.
    assert (Hin : c ∈ sorted_values id_leb (g_credentials (graph_at db id))) by (apply elem_of_sorted_values; by exists i).
    apply list_elem_of_In in Hin. pose proof (List.find_none _ _ Hf _ Hin) as Hn. simpl in Hn.
    destruct (ok_credentials _ Hg _ _ Hc) as [Hid _]. by rewrite bool_decide_eq_true_2 in Hn.
Qed.

(** Reading a version a credential is stored in finds it. *)
Lemma stored_found c s r s' :
  stored_in c (mu_db s) -> configuration sqlite_fails id s = (r, s') ->
  (mu_db s' = mu_db s /\ mu_readings s' = mu_readings s)
  /\ ((r = Err (ResourceStore Sqlite) /\ exists n, sqlite_fails n = true)
      \/ exists cf, r = Ok cf /\ List.find (fun k => bool_decide (cr_id k = cr_id c)) (cf_credentials cf) = Some c).
Proof.
  intros (Hok & [v Hv] & Hc) Hrun. destruct (configuration_reads s r s' Hok Hrun) as [Hsame [?|Hr]]; (split; [done|]); [by left|].
  right. rewrite Hv in Hr. exists (configuration_at (mu_db s) v). split; [done|]. by rewrite (find_credential_at _ v).
Qed.

Lemma record_resource_ok draft : triple db_ok (record_management_resource_audit_event_tx sqlite_fails draft id) (fun _ => db_ok).
Proof.
  apply triple_bind with (Q := fun _ => db_ok); [|intros n; by apply triple_ret].
  apply triple_execute. intros db n db'. apply db_ok_audit.
Qed.

Lemma mutate_ok expected op draft s r s' :
  op_typed op -> db_ok (st_db s) ->
  mutate_draft_configuration sqlite_fails id expected
    (apply_op sqlite_fails id op ;;; record_management_resource_audit_event_tx sqlite_fails draft id) s = (r, s') ->
  db_ok (st_db s').
Proof.
  intros Ht Hok Hrun. apply (transaction_spec sqlite_fails db_ok _ (fun x db => x.2 = expected + 1 /\ db_ok db)) in Hrun; [|clear Hrun|done].
  { destruct r; [by destruct Hrun|by rewrite Hrun..]. }
  apply (mutate_triple sqlite_fails db_ok db_ok db_ok); [intros db db' ? ? Hb; by eapply bump_ok|].
  eapply triple_bind; [apply apply_op_triple; [by apply db_ok_keeps|apply db_ok_audit]|]. intros []. apply record_resource_ok.
Qed.

(** A statement that puts the credential's row. *)
Definition puts (op : GraphOp) (c : CredentialConfiguration) : Prop := op = InsertCredential c \/ op = UpdateCredential c.

Lemma puts_row op c g g' : puts op c -> op_stmt op g = Some (1, g') -> g_credentials g' !! cr_id c = Some c.
Proof.
  intros [-> | ->]; simpl.
  - intros (_ & -> & _)%insert_stmt_inv. simpl. by rewrite lookup_insert_eq.
  - intros [[? _]|(_ & -> & _)]%update_stmt_inv; [done|]. simpl. by rewrite lookup_insert_eq.
Qed.

(** A stored credential and the view of it. *)
Lemma credential_view_reads c s r s' :
  stored_in c (mu_db s) -> credential_view sqlite_fails id (cr_id c) s = (r, s') ->
  mu_db s' = mu_db s
  /\ ((r = Err (ResourceStore Sqlite) /\ exists n, sqlite_fails n = true) \/ r = Ok (view_of_credential c)).
Proof.
  intros Hst Hrun. unfold credential_view, find_credential, bind, lift, ret in Hrun.
  destruct (configuration sqlite_fails id s) as [x s1] eqn:Hc.
  destruct (stored_found c s x s1 Hst Hc) as [[Hdb _] [[-> Hn]|(cf & -> & Hf)]]; [injection Hrun as <- <-; auto|].
  rewrite Hf in Hrun. injection Hrun as <- <-. auto.
Qed.

(** ** Specification: the row a credential write makes *)

(** The row has the requested identifier, kind and status and the sealed secret; a
    new one has the given upstream and revision 0, a replacement keeps the upstream
    of the stored row and is its next revision. *)
Record planned (w : CredentialWrite) (db : Database) (c : CredentialConfiguration) : Prop := {
  pl_id : cr_id c = write_id w;
  pl_kind : cr_kind c = write_kind w;
  pl_status : cr_status c = write_status w;
  pl_secret : write_secret w <> [] /\ sealed_from (write_secret w) c;
  pl_revision : 0 <= cr_revision c <= i64_max;
  pl_row : match w with
           | CreateCredential upstream_id _ => cr_upstream_id c = upstream_id /\ cr_revision c = 0
           | _ => exists old, g_credentials (graph_at db id) !! write_id w = Some old
                    /\ cr_upstream_id c = cr_upstream_id old /\ cr_revision c = cr_revision old + 1
                    /\ match w with
                       | ReplaceCredentialIf revision _ | PersistOauth _ revision _ => cr_revision old = revision
                       | _ => True
                       end
           end;
}.

Definition put_op (w : CredentialWrite) (c : CredentialConfiguration) : GraphOp :=
  match w with CreateCredential _ _ => InsertCredential c | _ => UpdateCredential c end.

(** A completed OAuth authorization of a draft has its own label. *)
Definition write_label (w : CredentialWrite) (op : GraphOp) : ResourceAction :=
  match w with
  | PersistOauth credential_id _ _ => mkAction "credential_oauth_completed" "credential" (as_str credential_id)
  | _ => op_label op
  end.

(** An OAuth write on the active version is a rotation, not an edit of a draft. *)
Definition rotates (w : CredentialWrite) (db : Database) : Prop :=
  match w with
  | PersistOauth _ _ _ => cv_status <$> db_versions db !! id = Some VersionActive
  | _ => False
  end.

#[export] Instance rotates_dec w db : Decision (rotates w db).
Proof. destruct w; simpl; apply _. Defined.

Lemma put_puts w c : puts (put_op w c) c.
Proof. by destruct w; [left|right..]. Qed.



(** ** Lemmas: preparing the row *)

(** A write stops before its transaction, and only when there is nothing to write,
    or it runs the transaction of its row. *)
Definition prepared (expected : ConfigRevision) (w : CredentialWrite) (s : MutationService)
    (r : result ManagementResourceError (Revisioned CredentialView)) (s' : MutationService) : Prop :=
  (failed r /\ mu_db s' = mu_db s
   /\ ((forall n, sqlite_fails n = false) -> is_Some (db_versions (mu_db s) !! id) -> forall c, ~ planned w (mu_db s) c))
  \/ exists c s1, planned w (mu_db s) c /\ mu_db s1 = mu_db s /\ mu_readings s1 = mu_readings s
       /\ write_credential sqlite_fails now_ms (ra_action (write_label w (put_op w c))) actor id expected c
            (apply_op sqlite_fails id (put_op w c)) s1 = (r, s').

Lemma seal_step expected w upstream_id input revision s s1 (next : CredentialConfiguration -> ResourceM (Revisioned CredentialView)) r s' :
  (forall c, planned w (mu_db s) c <-> sealed_as upstream_id input revision c) ->
  mu_db s1 = mu_db s -> mu_readings s1 = mu_readings s ->
  (forall c, next c = write_credential sqlite_fails now_ms (ra_action (write_label w (put_op w c))) actor id expected c
                        (apply_op sqlite_fails id (put_op w c))) ->
  bind (seal_credential ring (Some nonce) id upstream_id input revision) next s1 = (r, s') -> prepared expected w s r s'.
Proof.
  intros Hpl Hdb Hrd Hnext Hrun. unfold bind in Hrun.
  destruct (seal_credential _ _ _ _ _ _ _) as [x s2] eqn:Hs. apply seal_credential_exact in Hs as [-> Hx].
  destruct x as [c|e|].
  - right. exists c, s1. rewrite Hnext in Hrun. split_and!; [by apply Hpl, Hx|done..].
  - left. injection Hrun as <- <-. split_and!; [done..|]. intros _ _ c Hc%Hpl%Hx. done.
  - left. injection Hrun as <- <-. split_and!; [done..|]. intros _ _ c Hc%Hpl%Hx. done.
Qed.

(** A replacement of a stored row. *)
Lemma planned_replacement w cur input db :
  write_id w = ups_id input -> write_kind w = ups_kind input -> write_status w = ups_status input ->
  write_secret w = ups_plaintext_secret input -> g_credentials (graph_at db id) !! write_id w = Some cur ->
  in_i64 (cr_revision cur + 1) = true ->
  match w with
  | CreateCredential _ _ => False
  | ReplaceCredentialIf revision _ | PersistOauth _ revision _ => cr_revision cur = revision
  | ReplaceCredential _ => True
  end ->
  forall c, planned w db c <-> sealed_as (cr_upstream_id cur) input (cr_revision cur + 1) c.
Proof.
  intros Hi Hk Ht Hs Hcur Hin Hw c. unfold in_i64 in Hin. bool_simp. split.
  - intros [P1 P2 P3 P4 P5 P6]. rewrite Hs in P4. assert (cr_upstream_id c = cr_upstream_id cur /\ cr_revision c = cr_revision cur + 1) as [Q1 Q2].
    { destruct w; [done|..]; destruct P6 as (old & Hold & E1 & E2 & _); simpl in *; rewrite Hold in Hcur; injection Hcur as ->; done. }
    constructor; [congruence..|split; [done|lia]|done].
  - intros [P1 P2 P3 P4 [P5 P6] P7]. constructor; [congruence..|by rewrite Hs|lia|].
    destruct w; [done|..]; by exists cur.
Qed.

Lemma checked_next a : i64_checked_add a 1 = if in_i64 (a + 1) then Some (a + 1) else None.
Proof. done. Qed.

Lemma planned_revision w db c cur :
  planned w db c -> g_credentials (graph_at db id) !! write_id w = Some cur ->
  match w with CreateCredential _ _ => False | _ => True end -> in_i64 (cr_revision cur + 1) = true.
Proof.
  intros [_ _ _ _ P5 P6] Hcur Hw. assert (cr_revision c = cr_revision cur + 1) as Hc.
  { destruct w; [done|..]; destruct P6 as (old & Hold & _ & E2 & _); simpl in *; rewrite Hold in Hcur; injection Hcur as ->; done. }
  unfold in_i64, i64_min, i64_max in *. apply andb_true_iff. rewrite !Z.leb_le. lia.
Qed.

(** The stored row is looked up first. *)
Lemma loaded_step expected w s s0 (body : ControlPlaneConfiguration -> CredentialConfiguration -> ResourceM (Revisioned CredentialView)) r s' :
  db_ok (mu_db s) -> match w with CreateCredential _ _ => False | _ => True end ->
  mu_db s0 = mu_db s -> mu_readings s0 = mu_readings s ->
  (let! cf := configuration sqlite_fails id in let! cur := find_credential cf (write_id w) in body cf cur) s0 = (r, s') ->
  (forall s1 v cur, mu_db s1 = mu_db s -> mu_readings s1 = mu_readings s -> db_versions (mu_db s) !! id = Some v ->
     g_credentials (graph_at (mu_db s) id) !! write_id w = Some cur ->
     body (configuration_at (mu_db s) v) cur s1 = (r, s') -> prepared expected w s r s') ->
  prepared expected w s r s'.
Proof.
  intros Hok Hw Hdb Hrd Hrun Hbody. unfold bind at 1 in Hrun. destruct (configuration sqlite_fails id s0) as [x s1] eqn:Hc.
  destruct (configuration_reads s0 x s1 ltac:(by rewrite Hdb) Hc) as [[Hdb1 Hrd1] Hx]. rewrite Hdb in Hdb1, Hx. rewrite Hrd in Hrd1.
  destruct Hx as [[-> [n Hn]]|Hx].
  { left. injection Hrun as <- <-. split_and!; [done..|]. intros Hh. by rewrite Hh in Hn. }
  destruct (db_versions (mu_db s) !! id) as [v|] eqn:Hv; simpl in Hx; subst x.
  2:{ left. injection Hrun as <- <-. split_and!; [done..|]. by rewrite Hv; intros _ [? ?]. }
  unfold bind at 1, find_credential, lift in Hrun. rewrite (find_credential_at _ v) in Hrun by done.
  destruct (g_credentials (graph_at (mu_db s) id) !! write_id w) as [cur|] eqn:Hcur; simpl in Hrun.
  - by eapply (Hbody s1 v cur).
  - left. injection Hrun as <- <-. split_and!; [done..|]. intros _ _ c [_ _ _ _ _ P6].
    destruct w; [done|..]; destruct P6 as (old & Hold & _); simpl in *; congruence.
Qed.

(** Then the next revision is sealed. *)
Lemma next_step expected w cur input s s1 (next : CredentialConfiguration -> ResourceM (Revisioned CredentialView)) r s' :
  write_id w = ups_id input -> write_kind w = ups_kind input -> write_status w = ups_status input ->
  write_secret w = ups_plaintext_secret input -> g_credentials (graph_at (mu_db s) id) !! write_id w = Some cur ->
  match w with
  | CreateCredential _ _ => False
  | ReplaceCredentialIf revision _ | PersistOauth _ revision _ => cr_revision cur = revision
  | ReplaceCredential _ => True
  end ->
  mu_db s1 = mu_db s -> mu_readings s1 = mu_readings s ->
  (forall c, next c = write_credential sqlite_fails now_ms (ra_action (write_label w (put_op w c))) actor id expected c
                        (apply_op sqlite_fails id (put_op w c))) ->
  (let! next_revision := lift (ok_or InvalidRevision (i64_checked_add (cr_revision cur) 1)) in
   let! c := seal_credential ring (Some nonce) id (cr_upstream_id cur) input next_revision in next c) s1 = (r, s') ->
  prepared expected w s r s'.
Proof.
  intros Hi Hk Ht Hs Hcur Hw Hdb Hrd Hnext Hrun. unfold bind at 1, lift in Hrun. rewrite checked_next in Hrun.
  destruct (in_i64 (cr_revision cur + 1)) eqn:Hin; simpl in Hrun.
  - eapply seal_step; [by apply planned_replacement|exact Hdb|exact Hrd|exact Hnext|exact Hrun].
  - left. injection Hrun as <- <-. split_and!; [done..|]. intros _ _ c Hc.
    rewrite (planned_revision w _ c cur Hc Hcur) in Hin; [done|]. by destruct w.
Qed.

(** The revision the caller has seen is no longer stored. *)
Lemma stale_step expected w revision cur s s1 :
  g_credentials (graph_at (mu_db s) id) !! write_id w = Some cur -> cr_revision cur <> revision ->
  match w with ReplaceCredentialIf n _ | PersistOauth _ n _ => n = revision | _ => False end ->
  mu_db s1 = mu_db s -> prepared expected w s (Err CredentialRevisionConflict) s1.
Proof.
  intros Hcur Hne Hw Hdb. left. split_and!; [done..|]. intros _ _ c [_ _ _ _ _ P6].
  destruct w; try done; destruct P6 as (old & Hold & _ & _ & Hrev); simpl in *; congruence.
Qed.

Lemma call_write_prepared expected w s r s' :
  db_ok (mu_db s) -> ~ rotates w (mu_db s) -> call_write expected w s = (r, s') -> prepared expected w s r s'.
Proof.
  intros Hok Hrot Hrun. destruct w as [up input|input|rev input|i rev envelope]; simpl in Hrun.
  - eapply (seal_step expected (CreateCredential up input)); [|done|done|done|exact Hrun]. intros c. split.
    + intros [P1 P2 P3 P4 P5 [P6 P7]]. constructor; [done..|split; [done|lia]|done].
    + intros [P1 P2 P3 P4 [P5 _] P6]. constructor; [done..|unfold i64_max; lia|done].
  - eapply (loaded_step expected (ReplaceCredential input)); [done|done|done|done|exact Hrun|].
    intros s1 v cur Hdb Hrd Hv Hcur Hbody. by eapply (next_step expected (ReplaceCredential input) cur input).
  - eapply (loaded_step expected (ReplaceCredentialIf rev input)); [done|done|done|done|exact Hrun|].
    intros s1 v cur Hdb Hrd Hv Hcur Hbody. cbv beta in Hbody. destruct (cr_revision cur =? rev) eqn:Hr; [apply Z.eqb_eq in Hr|apply Z.eqb_neq in Hr]; cbn [negb] in Hbody.
    2:{ unfold raise in Hbody. injection Hbody as <- <-. by eapply stale_step. }
    eapply (loaded_step expected (ReplaceCredentialIf rev input)); [done|done|exact Hdb|exact Hrd|exact Hbody|].
    intros s2 v' cur' Hdb2 Hrd2 Hv' Hcur' Hbody'. rewrite Hcur in Hcur'. injection Hcur' as <-.
    by eapply (next_step expected (ReplaceCredentialIf rev input) cur input).
  - eapply (loaded_step expected (PersistOauth i rev envelope)); [done|done|done|done|exact Hrun|].
    intros s1 v cur Hdb Hrd Hv Hcur Hbody. cbv beta in Hbody. destruct (cr_revision cur =? rev) eqn:Hr; [apply Z.eqb_eq in Hr|apply Z.eqb_neq in Hr]; cbn [negb] in Hbody.
    2:{ unfold raise in Hbody. injection Hbody as <- <-. by eapply stale_step. }
    rewrite (bool_decide_eq_false_2 (cv_status v = VersionActive)) in Hbody
      by (intros Ha; apply Hrot; simpl; rewrite Hv; simpl; congruence).
    by eapply (next_step expected (PersistOauth i rev envelope) cur (mkUpsert i "oauth_json" envelope CredentialActive)).
Qed.

(** ** Lemmas: writing the row *)

Lemma write_credential_labelled action expected op c s :
  is_record op = false ->
  write_credential sqlite_fails now_ms action actor id expected c (apply_op sqlite_fails id op) s
  = (let! revision := labelled sqlite_fails now_ms actor id expected (mkAction action "credential" (as_str (cr_id c))) op in
     let! view := credential_view sqlite_fails id (cr_id c) in ret (mkRevisioned view revision)) s.
Proof.
  intros Hop. unfold write_credential, labelled, delete_resource, bind, lift, ret. cbn [ra_action ra_resource_kind ra_resource_id].
  destruct (audit now_ms action actor "credential" (as_str (cr_id c)) s) as [[draft|e|] s1] eqn:Ha; [|done..].
  destruct (mutate_and_record _ _ _ _ _ _) as [[next|e|] s2] eqn:Hm; [|done..].
  assert (0 <= next) as Hpos.
  { unfold mutate_and_record, on_store, bind, ret in Hm. destruct (mutate_draft_configuration _ _ _ _ _) as [x st] eqn:Hx.
    pose proof (mutate_exact _ _ _ _ _ _ _ _ Hop Hx) as Hex. destruct x as [x|e|]; simpl in Hm; [|done..].
    destruct Hex as (? & ? & _). injection Hm as <- _. lia. }
  unfold revision_try_new. rewrite (proj2 (Z.ltb_ge next 0)) by lia.
  by destruct (credential_view _ _ _ _) as [[]].
Qed.

(** The edit that was committed. *)
Definition committed (expected : ConfigRevision) (label : ResourceAction) (op : GraphOp) (s s' : MutationService) : Prop :=
  exists e, event_for now_ms label actor id s e /\ edited id (as_i64 expected) op e (mu_db s) (mu_db s').

Lemma edited_stored expected op e c plaintext db db' :
  puts op c -> sealed_from plaintext c -> db_ok db' -> edited id expected op e db db' -> stored_in c db'.
Proof.
  intros Hp Hseal Hok [(v & Hv & _ & _ & Hvs) (g & Hg & Hgs) _ _].
  split_and!; [done|rewrite Hvs, lookup_insert_eq; by eexists|]. unfold graph_at. rewrite Hgs, lookup_insert_eq. simpl.
  by eapply puts_row.
Qed.

Lemma labelled_ok expected label op s r s' :
  op_typed op -> db_ok (mu_db s) -> labelled sqlite_fails now_ms actor id expected label op s = (r, s') -> db_ok (mu_db s').
Proof.
  intros Ht Hok Hrun. unfold labelled, delete_resource, audit, clock_reading, mutate_and_record, on_store, lift, bind, ret in Hrun.
  destruct (now_ms (mu_readings s)) as [now|err|]; simpl in Hrun; [|by injection Hrun as <- <-..].
  destruct (resource_draft_try_new _ _ _ _ _) as [d|err|]; simpl in Hrun; [|by injection Hrun as <- <-..].
  destruct (mutate_draft_configuration _ _ _ _ _) as [x st] eqn:Hm. apply (mutate_ok _ _ _ _ _ _ Ht Hok) in Hm.
  destruct x as [x|err|]; simpl in Hrun; [|by injection Hrun as <- <-..].
  by destruct (revision_try_new x.2); injection Hrun as _ <-.
Qed.

(** The transaction is exactly the edit; only the read that follows it can fail. *)
Lemma written action expected op c plaintext s r s' :
  puts op c -> sealed_from plaintext c -> db_ok (mu_db s) ->
  write_credential sqlite_fails now_ms action actor id expected c (apply_op sqlite_fails id op) s = (r, s') ->
  let label := mkAction action "credential" (as_str (cr_id c)) in
  match r with
  | Ok view => as_i64 (rv_revision view) = as_i64 expected + 1 /\ rv_value view = view_of_credential c
      /\ stored_in c (mu_db s') /\ committed expected label op s s'
  | _ => mu_db s' = mu_db s
         \/ r = Err (ResourceStore Sqlite) /\ (exists n, sqlite_fails n = true) /\ committed expected label op s s'
  end
  /\ ((forall n, sqlite_fails n = false) -> admissible now_ms label op actor id expected s -> exists view, r = Ok view).
Proof.
  intros Hp Hseal Hok Hrun label. assert (Hop : is_record op = false) by (by destruct Hp as [-> | ->]).
  assert (Ht : op_typed op) by (pose proof (sealed_secret_ok _ _ Hseal); by destruct Hp as [-> | ->]).
  rewrite (write_credential_labelled _ _ _ _ _ Hop) in Hrun. fold label in Hrun. unfold bind at 1 in Hrun.
  destruct (labelled sqlite_fails now_ms actor id expected label op s) as [x s1] eqn:Hl.
  pose proof (labelled_performs _ _ _ _ _ _ _ _ _ _ Hop Hl) as Hper. pose proof (labelled_ok _ _ _ _ _ _ Ht Hok Hl) as Hok1.
  assert (Hcomp : (forall n, sqlite_fails n = false) -> admissible now_ms label op actor id expected s -> exists revision, x = Ok revision).
  { intros Hh Had. destruct (labelled_complete sqlite_fails now_ms actor id expected label op s Hh Hop Had) as (rev & s2 & H2).
    exists rev. congruence. }
  destruct x as [revision|e|]; simpl in Hper.
  2,3: injection Hrun as <- <-; (split; [by left|]); intros Hh Had; destruct (Hcomp Hh Had); done.
  destruct Hper as (Hrev & e & Hev & Hed). pose proof (edited_stored _ _ _ _ _ _ _ Hp Hseal Hok1 Hed) as Hst.
  unfold bind in Hrun. destruct (credential_view sqlite_fails id (cr_id c) s1) as [y s2] eqn:Hy.
  destruct (credential_view_reads c s1 y s2 Hst Hy) as [Hdb [[-> [n Hn]]| ->]]; injection Hrun as <- <-.
  - split; [|intros Hh; by rewrite Hh in Hn]. right. split_and!; [done|by exists n|]. exists e. by rewrite Hdb.
  - split; [|by eexists]. split_and!; [done|done|by rewrite Hdb|]. exists e. by rewrite Hdb.
Qed.

Lemma rotate_stores expected c plaintext :
  sealed_from plaintext c -> triple db_ok (rotate_active_credential sqlite_fails id c expected) (fun _ => stored_in c).
Proof.
  intros Hseal. apply rotate_updates. intros db db' Hok (v & Hv & _) _. unfold on_graph.
  replace (version_exists db id) with true by (symmetry; apply bool_decide_eq_true_2; by exists v).
  destruct (update_stmt _ _ _ _) as [[n g]|] eqn:Hs; [|done]. intros [= -> <-].
  apply update_stmt_inv in Hs as [[? _]|(_ & -> & Hf & old & Hold & Hown)]; [done|]. apply andb_true_iff in Hown as [Hown _].
  split_and!; [|by exists v|unfold graph_at; simpl; rewrite lookup_insert_eq; simpl; by rewrite lookup_insert_eq].
  apply (keeps_graph _ _ _ (db_ok_keeps id (UpdateCredential c) (sealed_secret_ok _ _ Hseal)) db 1); [done|by exists v|].
  simpl. unfold update_stmt. by rewrite Hold, Hown, Hf.
Qed.

Lemma rotate_and_record_stores c expected draft plaintext s s' :
  sealed_from plaintext c -> db_ok (st_db s) -> rotate_and_record sqlite_fails id c expected draft s = (Ok tt, s') ->
  stored_in c (st_db s').
Proof.
  intros Hseal Hok Hrun. apply (transaction_spec sqlite_fails db_ok _ (fun _ => stored_in c)) in Hrun; [done| |done].
  eapply triple_bind; [by eapply rotate_stores|]. intros [] s0 a s0' (Hok0 & Hv & Hc) Hrec.
  pose proof (record_resource_ok draft s0 a s0' Hok0 Hrec) as Hok1.
  pose proof (record_resource_exact sqlite_fails draft id (st_db s0) _ _ _ eq_refl Hrec) as Hdb.
  split; [done|]. rewrite Hdb. done.
Qed.

(** A credential that is stored opens under its own identity. *)
Lemma stored_opens ring' plaintext c s r s' :
  keys ring ⊆ keys ring' -> sealed_from plaintext c -> stored_in c (mu_db s) ->
  open_credential_for_export sqlite_fails ring' id (cr_id c) s = (r, s') ->
  mu_db s' = mu_db s /\ ((r = Err (ResourceStore Sqlite) /\ exists n, sqlite_fails n = true) \/ r = Ok plaintext).
Proof.
  intros Hsub (aad & Haad & Hseal) Hst Hrun. unfold open_credential_for_export, find_credential, bind, lift in Hrun.
  destruct (configuration sqlite_fails id s) as [x s1] eqn:Hc.
  destruct (stored_found c s x s1 Hst Hc) as [[Hdb _] [[-> Hn]|(cf & -> & Hf)]]; [injection Hrun as <- <-; auto|].
  rewrite Hf in Hrun. simpl in Hrun. rewrite Haad in Hrun. simpl in Hrun.
  pose proof (seal_inv _ _ _ _ _ nonce_length Hseal) as (key & ct & Hkey & _ & _ & _ & Heq & _).
  assert (Hk : keys ring' !! es_key_version (cr_encrypted_secret c) = keys ring !! es_key_version (cr_encrypted_secret c)).
  { rewrite Heq. simpl. rewrite Hkey. by eapply lookup_weaken. }
  rewrite (open_sealed ring ring' nonce plaintext aad _ nonce_length Hseal Hk) in Hrun. injection Hrun as <- <-. auto.
Qed.
(** ** Lemmas: what any successful write leaves *)

(** A rotation of the active version. *)
Lemma oauth_rotates expected i revision envelope s view s' :
  db_ok (mu_db s) -> rotates (PersistOauth i revision envelope) (mu_db s) ->
  call_write expected (PersistOauth i revision envelope) s = (Ok view, s') ->
  exists c, planned (PersistOauth i revision envelope) (mu_db s) c /\ stored_in c (mu_db s') /\ rv_value view = view_of_credential c.
Proof.
  intros Hok Hrot Hrun. simpl in Hrun, Hrot. unfold persist_oauth_credential_if_revision in Hrun. unfold bind at 1 in Hrun.
  destruct (configuration sqlite_fails id s) as [x s1] eqn:Hc. apply fmap_Some in Hrot as (v & Hv & Hact).
  destruct (configuration_reads s x s1 Hok Hc) as [[Hdb _] [[-> _]| ->]]; [done|]. rewrite Hv in Hrun. simpl in Hrun.
  unfold bind at 1, find_credential, lift at 1 in Hrun. rewrite (find_credential_at _ v) in Hrun by done.
  destruct (g_credentials (graph_at (mu_db s) id) !! i) as [cur|] eqn:Hcur; [|done]. simpl in Hrun.
  destruct (cr_revision cur =? revision) eqn:Hr; [apply Z.eqb_eq in Hr|done]. simpl in Hrun.
  unfold bind at 1, lift at 1 in Hrun. rewrite checked_next in Hrun. destruct (in_i64 (cr_revision cur + 1)) eqn:Hin; [|done]. simpl in Hrun.
  unfold bind at 1 in Hrun. destruct (seal_credential _ _ _ _ _ _ _) as [x s2] eqn:Hs. apply seal_credential_exact in Hs as [-> Hx].
  destruct x as [c|e|]; [|done..]. rewrite bool_decide_eq_true_2 in Hrun by done. unfold bind at 1 in Hrun.
  destruct (audit _ _ _ _ _ _) as [[draft|e|] s3] eqn:Ha; [|done..].
  assert (Hs3 : mu_store s3 = mu_store s1).
  { unfold audit, clock_reading, bind, lift in Ha. by destruct (now_ms _); injection Ha as _ <-. }
  pose proof (proj1 (Hx c) eq_refl) as Hsa. pose proof (proj2 (sa_secret _ _ _ _ Hsa)) as Hseal. simpl in Hseal.
  unfold bind at 1, on_store in Hrun. rewrite Hs3 in Hrun. destruct (rotate_and_record _ _ _ _ _ _) as [[[]|e|] st] eqn:Hrr; [|done..].
  apply (rotate_and_record_stores _ _ _ _ _ _ Hseal) in Hrr; [|unfold mu_db in *; by rewrite Hdb].
  simpl in Hrun. unfold bind at 1 in Hrun. destruct (credential_view _ _ _ _) as [y s4] eqn:Hv4.
  destruct (credential_view_reads c (mkMutation st (mu_readings s3)) y s4 Hrr Hv4) as [Hdb4 [[-> _]| ->]]; [done|]. injection Hrun as <- <-.
  exists c. split_and!; [|by rewrite Hdb4|done]. by eapply (planned_replacement _ cur (mkUpsert i "oauth_json" envelope CredentialActive)).
Qed.

Lemma call_write_wrote expected w s view s' :
  db_ok (mu_db s) -> call_write expected w s = (Ok view, s') ->
  exists c, planned w (mu_db s) c /\ stored_in c (mu_db s') /\ rv_value view = view_of_credential c.
Proof.
  intros Hok Hrun. 
  destruct (decide (rotates w (mu_db s))) as [Hrot|Hrot].
  { destruct w as [?|?|?|i revision envelope]; [done..|]. by apply (oauth_rotates expected i revision envelope). }
  destruct (call_write_prepared expected w s _ s' Hok Hrot Hrun) as [[Hf _]|(c & s1 & Hpl & Hdb & _ & Hw)]; [by destruct (Hf view)|].
  destruct (written _ _ _ _ _ _ _ _ (put_puts w c) (proj2 (pl_secret _ _ _ Hpl)) ltac:(by rewrite Hdb) Hw) as [(_ & Hview & Hst & _) _].
  by exists c.
Qed.
End Credentials.

(** ** Client keys *)

Section Keys.
Context `{!SqliteJson} (sqlite_fails : nat -> bool) (now_ms : nat -> result ManagementClockError Z).
Context (hmac : list Byte.byte -> string -> option (list Byte.byte)) (service : option ClientKeyPepper).
Context (actor : ManagementActor) (id : ConfigVersionId) (expected : ConfigRevision).






End Keys.

(** ** Requests *)

(** Every call of the service that edits a draft.  The random bytes of a new key are
    drawn into two fixed arrays. *)
Inductive DraftRequest : Type :=
| PlainEdit (op : GraphOp)
| CredentialEdit (w : CredentialWrite)
| KeyIssue (prefix secret : list Byte.byte) (input : ClientKeyIssue).

(** What the caller gets beside the revision. *)
Inductive Reply : Type :=
| NoReply
| CredentialReply (view : CredentialView)
| KeyReply (view : IssuedClientKeyView).

Section Requests.
Context `{!Aead} `{!SqliteJson} (sqlite_fails : nat -> bool) (now_ms : nat -> result ManagementClockError Z).
Context (hmac : list Byte.byte -> string -> option (list Byte.byte)) (service : option ClientKeyPepper) (ring : MasterKeyRing)
  (nonce : list Byte.byte) (actor : ManagementActor) (id : ConfigVersionId).

Definition answer {A} (reply : A -> Reply) (m : ResourceM (Revisioned A)) : ResourceM (ConfigRevision * Reply) :=
  let! r := m in ret (rv_revision r, reply (rv_value r)).

Definition submit (expected : ConfigRevision) (q : DraftRequest) : option (ResourceM (ConfigRevision * Reply)) :=
  match q with
  | PlainEdit op => (fun m => let! revision := m in ret (revision, NoReply)) <$> edit sqlite_fails now_ms op actor id expected
  | CredentialEdit w => Some (answer CredentialReply (call_write sqlite_fails now_ms ring nonce actor id expected w))
  | KeyIssue prefix secret input =>
      Some (answer KeyReply (issue_client_key sqlite_fails now_ms hmac service (Some prefix) (Some secret) actor id expected input))
  end.

(** ** Specification: what a request writes and answers *)







End Requests.

(** ** Theorems *)

Section Theorems.
Context `{!SqliteJson} (sqlite_fails : nat -> bool) (now_ms : nat -> result ManagementClockError Z).


(** C15: What is stored can be exported. After any successful credential write - a
    creation, a replacement, a conditional replacement, an OAuth rotation of a draft or
    of the active version - the version holds one row under the written identifier, with
    the requested kind and status, the given upstream and revision 0 when it is new and
    the upstream and the next revision of the row it replaces otherwise; the view that
    was returned shows exactly this row and that it has a secret; and an export under
    the same or a larger key ring yields exactly the secret that was written, unless
    SQLite fails the read; it changes nothing. *)
Theorem stored_credential_exports `{!Aead} `{!AeadLaws} ring ring' nonce actor id expected w s view s' s1 r s2 :
  1 <= active_key_version ring < 2 ^ 32 -> length nonce = NONCE_BYTES -> keys ring ⊆ keys ring' -> db_ok (mu_db s) ->
  call_write sqlite_fails now_ms ring nonce actor id expected w s = (Ok view, s') -> mu_db s1 = mu_db s' ->
  open_credential_for_export sqlite_fails ring' id (write_id w) s1 = (r, s2) ->
  (exists c, g_credentials (graph_at (mu_db s') id) !! write_id w = Some c /\ planned ring nonce id w (mu_db s) c
     /\ rv_value view = mkCredentialView (write_id w) (cr_upstream_id c) (write_kind w) (write_status w) (cr_revision c) true)
  /\ mu_db s2 = mu_db s1
  /\ ((r = Err (ResourceStore Sqlite) /\ exists n, sqlite_fails n = true) \/ r = Ok (write_secret w)).
Proof.
  intros Hkv Hn Hsub Hok Hw Hdb Hopen.
  destruct (call_write_wrote sqlite_fails now_ms ring nonce actor id Hkv Hn expected w s view s' Hok Hw)
    as (c & Hpl & Hst & Hview). pose proof Hpl as [Hid Hkind Hstatus [_ Hseal] _ _]. split.
  - exists c. destruct Hst as (_ & _ & Hc). rewrite Hid in Hc. split_and!; [done..|]. rewrite Hview. unfold view_of_credential. congruence.
  - rewrite <- Hid in Hopen. rewrite <- Hdb in Hst. exact (stored_opens sqlite_fails ring nonce id Hn ring' _ c s1 r s2 Hsub Hseal Hst Hopen).
Qed.
End Theorems.

(** ** Witnesses *)

Section Witnesses.
#[local] Existing Instance ex_aead.
#[local] Existing Instance ex_aead_laws.
#[local] Existing Instance ex_columns.

Definition ex_clock (n : nat) : result ManagementClockError Z := Ok (200 + Z.of_nat n).
Definition ex_draft : MutationService :=
  mkMutation (run_op (fun _ => false) (WriteConfiguration (ex_live "v1")) (mkStore empty_db 0)).2 0.
Definition ex_key_edit : GraphOp := UpdateClientKey (mkId "key") (mkId "group") StoredKeyDisabled (Some 900).

Lemma ex_draft_ok : db_ok (mu_db ex_draft).
Proof.
  eapply (run_op_db_ok _ (WriteConfiguration (ex_live "v1")) (mkStore empty_db 0));
    [exact (ex_live_typed "v1")|exact empty_db_ok|apply surjective_pairing].
Qed.

Lemma ex_key_edit_admitted : admissible ex_clock (op_label ex_key_edit) ex_key_edit ex_admin (mkVersionId "v1") initial ex_draft.
Proof.
  constructor.
  - exists 200. split_and!; [done|vm_compute; reflexivity|]. vm_compute. by eexists.
  - vm_compute. by eexists.
  - vm_compute. split; congruence.
  - vm_compute. by eexists.
Qed.

Definition ex_hmac (pepper : list Byte.byte) (text : string) : option (list Byte.byte) := Some (replicate 32 Byte.x05).
Definition ex_service : option ClientKeyPepper := Some (mkPepper (replicate 32 Byte.x09)).


(** The admissibility of a plain edit. *)
Lemma plain_edit_succeeds :
  exists m revision s', submit (fun _ => false) ex_clock ex_hmac ex_service ex_old ex_nonce ex_admin (mkVersionId "v1") initial
      (PlainEdit ex_key_edit) = Some m /\ m ex_draft = (Ok (revision, NoReply), s').
Proof.
  destruct (edit (fun _ => false) ex_clock ex_key_edit ex_admin (mkVersionId "v1") initial) as [m|] eqn:He; [|discriminate He].
  destruct (m ex_draft) as [r s'] eqn:Hr.
  destruct (edit_performs (fun _ => false) ex_clock ex_admin (mkVersionId "v1") initial ex_key_edit m ex_draft r s' He ex_draft_ok Hr) as [_ Hc].
  destruct (Hc (fun _ => eq_refl) ex_key_edit_admitted) as [revision ->]. do 3 eexists. split; [unfold submit; by rewrite He|].
  unfold bind. rewrite Hr. reflexivity.
Qed.

(** The version is active and its credential is disabled. *)
Definition ex_disabled (c : CredentialConfiguration) : CredentialConfiguration :=
  mkCredential (cr_id c) (cr_upstream_id c) (cr_kind c) (cr_encrypted_secret c) CredentialDisabled (cr_revision c).
Definition ex_active : MutationService :=
  mkMutation (run_ops (fun _ => false)
    [WriteConfiguration (ex_live "v1");
     MutateDraft (mkVersionId "v1") 0 (UpdateCredential ∘ ex_disabled <$> cf_credentials (ex_live "v1"));
     ActivateVersion (mkVersionId "v1")] (mkStore empty_db 0)) 0.
Definition ex_oauth : CredentialWrite := PersistOauth (mkId "cred") 0 [Byte.x68; Byte.x69].

Lemma ex_active_ok : db_ok (mu_db ex_active).
Proof.
  apply run_ops_db_ok; [|exact empty_db_ok]. apply Forall_cons; split; [exact (ex_live_typed "v1")|].
  apply Forall_cons; split; [|by apply Forall_cons]. apply Forall_cons; split; [|by apply Forall_nil].
  vm_compute. repeat split; done.
Qed.

(** The rotation enables the disabled credential of the active version. *)
Lemma stored_credential_exports_witness :
  (cr_status <$> g_credentials (graph_at (mu_db ex_active) (mkVersionId "v1")) !! mkId "cred") = Some CredentialDisabled
  /\ exists view s', call_write (fun _ => false) ex_clock ex_old ex_nonce ex_admin (mkVersionId "v1") initial ex_oauth ex_active = (Ok view, s')
       /\ vw_status (rv_value view) = CredentialActive
       /\ (open_credential_for_export (fun _ => false) ex_old (mkVersionId "v1") (mkId "cred") s').1 = Ok [Byte.x68; Byte.x69].
Proof.
  split; [vm_compute; reflexivity|].
  destruct (call_write (fun _ => false) ex_clock ex_old ex_nonce ex_admin (mkVersionId "v1") initial ex_oauth ex_active) as [r s'] eqn:Hw.
  destruct r as [view|e|]; [|apply (f_equal fst) in Hw; vm_compute in Hw; discriminate Hw..].
  exists view, s'. split; [reflexivity|].
  destruct (open_credential_for_export (fun _ => false) ex_old (mkVersionId "v1") (write_id ex_oauth) s') as [x s2] eqn:Ho.
  destruct (stored_credential_exports (fun _ => false) ex_clock ex_old ex_old ex_nonce ex_admin (mkVersionId "v1") initial ex_oauth
    ex_active view s' s' x s2) as ((c & _ & _ & Hview) & _ & [[_ [n Hn]]|Hx]);
    [vm_compute; split; congruence|reflexivity|reflexivity|exact ex_active_ok|exact Hw|reflexivity|exact Ho|discriminate Hn|].
  split; [rewrite Hview; reflexivity|]. simpl in Ho. rewrite Ho. exact Hx.
Defined.

(** SQLite fails the call after the commit: the write is reported as failed, and
    the credential is stored. *)
Definition ex_late_failure (n : nat) : bool := bool_decide (n = st_clock (mu_store ex_draft) + 7)%nat.

Lemma committed_credential_reported_failed :
  let '(r, s') := call_write ex_late_failure ex_clock ex_old ex_nonce ex_admin (mkVersionId "v1") initial
                    (CreateCredential (mkId "up") (mkUpsert (mkId "cred-2") "api_key" [Byte.x68] CredentialActive)) ex_draft in
  r = Err (ResourceStore Sqlite) /\ is_Some (g_credentials (graph_at (mu_db s') (mkVersionId "v1")) !! mkId "cred-2").
Proof. vm_compute. split; [reflexivity|by eexists]. Qed.
End Witnesses.

End Mutation.
