(* ===== verification/RouteScheduler.v ===== *)
(** * Route candidate scheduling

    Models [crates/gateway-router/src/route_scheduler.rs]: the per-route, per-tier
    cursors over the schedules compiled in a snapshot and [select_eligible].

    The caller's predicate is an [FnMut]: here an operation on a state [W] of the
    caller, so that a predicate that acquires a credential lease is covered. *)

From S2P Require Import Prelude Core WeightedSchedule Catalog ClientKey RouteSnapshot.
Local Open Scope string_scope.
Local Open Scope list_scope.
Local Open Scope Z_scope.

(** [cursors : BTreeMap<RouteId, Vec<AtomicUsize>>] *)
Abbreviation RouteCursors := (gmap RouteId (list Z)).

(** [RouteCandidateScheduler::new]: a zero cursor per tier of each route. *)
Definition scheduler_new (s : RouteSnapshot) : RouteCursors :=
  list_to_map
    ((fun kr : RouteId * SnapshotRoute =>
        (route_id kr.2,
         match route_schedules s !! route_id kr.2 with
         | Some schedule => (fun _ => 0) <$> schedule_tiers schedule
         | None => []
         end)) <$> map_to_list (routes s)).

Section Select.
Context {W : Type} (is_eligible : SnapshotRouteCandidate -> M W unit bool).

(** [for offset in 0..slot_indexes.len()]; [Some None] is the early return of
    [candidates().get(..)?]. *)
Fixpoint scan_candidates (r : SnapshotRoute) (slots : list nat) (start : Z) (offsets : list nat)
  : M W unit (option (option SnapshotRouteCandidate)) :=
  match offsets with
  | [] => ret None
  | offset :: rest =>
      let slot_index := usize_wrapping_add start (Z.of_nat offset) mod Z.of_nat (length slots) in
      match slots !! Z.to_nat slot_index with
      | None => panic
      | Some candidate_index =>
          match candidates r !! candidate_index with
          | None => ret (Some None)
          | Some candidate =>
              let! ok := is_eligible candidate in
              if ok then ret (Some (Some candidate)) else scan_candidates r slots start rest
          end
      end
  end.

(** [for tier in schedule.priority_tiers()] with the cursor iterator. *)
Fixpoint select_tiers (r : SnapshotRoute) (tiers : list SnapshotPriorityTierSchedule) (curs : list Z)
    (w : W) : result unit (option SnapshotRouteCandidate) * (list Z * W) :=
  match tiers with
  | [] => (Ok None, (curs, w))
  | tier :: tiers' =>
      match curs with
      | [] => (Ok None, ([], w))
      | cursor :: curs' =>
          match sched_slot_indexes tier with
          | [] => (Ok None, (curs, w))
          | slots =>
              match scan_candidates r slots cursor (seq 0 (length slots)) w with
              | (Ok (Some found), w') => (Ok found, (bump cursor :: curs', w'))
              | (Ok None, w') =>
                  match select_tiers r tiers' curs' w' with
                  | (res, (curs'', w'')) => (res, (bump cursor :: curs'', w''))
                  end
              | (Err e, w') => (Err e, (bump cursor :: curs', w'))
              | (Panic, w') => (Panic, (bump cursor :: curs', w'))
              end
          end
      end
  end.

Definition select_eligible (s : RouteSnapshot) (rid : RouteId)
  : M (RouteCursors * W) unit (option SnapshotRouteCandidate) :=
  fun cw =>
    match routes s !! rid, route_schedules s !! rid, cw.1 !! rid with
    | Some r, Some schedule, Some curs =>
        match select_tiers r (schedule_tiers schedule) curs cw.2 with
        | (res, (curs', w')) => (res, (<[rid := curs']> cw.1, w'))
        end
    | _, _, _ => (Ok None, cw)
    end.
End Select.

(** [select]: every candidate is accepted. *)
Definition select (s : RouteSnapshot) (rid : RouteId) (cursors : RouteCursors)
  : result unit (option SnapshotRouteCandidate) * RouteCursors :=
  match select_eligible (W := unit) (fun _ => ret true) s rid (cursors, tt) with
  | (res, (cursors', _)) => (res, cursors')
  end.

(** ** Specification *)

(** The candidates one tier offers from a cursor, in order. *)
Definition tier_visits (r : SnapshotRoute) (tier : SnapshotPriorityTierSchedule) (cursor : Z)
  : list SnapshotRouteCandidate :=
  let slots := sched_slot_indexes tier in
  omap (fun o => candidates r !! rotated slots cursor o) (seq 0 (length slots)).

Definition visit_order (r : SnapshotRoute) (tiers : list SnapshotPriorityTierSchedule) (curs : list Z)
  : list SnapshotRouteCandidate := concat (zip_with (tier_visits r) tiers curs).

(** Offer candidates in order until one is accepted. *)
Fixpoint first_accepted {W} (is_eligible : SnapshotRouteCandidate -> M W unit bool)
    (l : list SnapshotRouteCandidate) : M W unit (option SnapshotRouteCandidate) :=
  match l with
  | [] => ret None
  | c :: rest => let! ok := is_eligible c in if ok then ret (Some c) else first_accepted is_eligible rest
  end.

(** A cursor whose scan stays clear of the [usize] wrap-around. *)
Definition route_cursor_ok (tier : SnapshotPriorityTierSchedule) (cursor : Z) : Prop :=
  0 <= cursor /\ cursor + Z.of_nat (length (sched_slot_indexes tier)) <= usize_modulus.

Definition tier_in_range (r : SnapshotRoute) (tier : SnapshotPriorityTierSchedule) : Prop :=
  sched_slot_indexes tier <> []
  /\ Forall (fun i => (i < length (candidates r))%nat) (sched_slot_indexes tier).

(** [n] calls of [select]. *)
Fixpoint select_many (n : nat) (s : RouteSnapshot) (rid : RouteId) (cursors : RouteCursors)
  : list (result unit (option SnapshotRouteCandidate)) :=
  match n with
  | O => []
  | S n => let step := select s rid cursors in step.1 :: select_many n s rid step.2
  end.

(** ** Lemmas *)

Section Scan.
Context {W : Type} (is_eligible : SnapshotRouteCandidate -> M W unit bool).

Lemma first_accepted_app l1 l2 w :
  first_accepted is_eligible (l1 ++ l2) w
  = (let! x := first_accepted is_eligible l1 in
     match x with Some c => ret (Some c) | None => first_accepted is_eligible l2 end) w.
Proof.
  revert w. induction l1 as [|c l1 IH]; intros w; [done|]. simpl. unfold bind in *.
  destruct (is_eligible c w) as [[[]|e|] w']; [done|apply IH|done|done].
Qed.

Lemma scan_candidates_visits r slots start k m w :
  Forall (fun i => (i < length (candidates r))%nat) slots -> slots <> [] ->
  0 <= start -> start + Z.of_nat (k + m) <= usize_modulus ->
  scan_candidates is_eligible r slots start (seq k m) w
  = (let! x := first_accepted is_eligible (omap (fun o => candidates r !! rotated slots start o) (seq k m)) in
     ret (match x with Some c => Some (Some c) | None => None end)) w.
Proof.
  intros Hall Hne H0. revert k w. induction m as [|m IH]; intros k w Hb; [done|]. simpl.
  assert (usize_wrapping_add start (Z.of_nat k) = start + Z.of_nat k) as ->
    by (unfold usize_wrapping_add; rewrite Z.mod_small; lia).
  assert (0 < length slots)%nat as Hl by (destruct slots; simpl; [done|lia]).
  pose proof (rotated_lookup slots start k Hl) as Hr. rewrite Hr.
  destruct (lookup_lt_is_Some_2 (candidates r) (rotated slots start k)) as [c Hc].
  { rewrite Forall_lookup in Hall. by eapply Hall. }
  rewrite Hc. simpl. unfold bind at 1 2 3.
  destruct (is_eligible c w) as [[[]|e|] w']; [done| |done|done]. apply IH. lia.
Qed.

Lemma select_tiers_visits r tiers curs w :
  Forall (tier_in_range r) tiers -> Forall2 route_cursor_ok tiers curs ->
  exists curs', select_tiers is_eligible r tiers curs w
    = ((first_accepted is_eligible (visit_order r tiers curs) w).1,
       (curs', (first_accepted is_eligible (visit_order r tiers curs) w).2)).
Proof.
  intros Hr H2. revert w. induction H2 as [|tier cursor tiers curs [H0 Hb] H2 IH]; intros w; cbn [select_tiers].
  { by eexists. }
  apply Forall_cons in Hr as [[Hne Hin] Hr].
  unfold visit_order. cbn [zip_with concat]. rewrite first_accepted_app.
  pose proof (scan_candidates_visits r (sched_slot_indexes tier) cursor 0
    (length (sched_slot_indexes tier)) w Hin Hne H0 Hb) as Hscan.
  fold (tier_visits r tier cursor) in Hscan. unfold bind in *.
  destruct (sched_slot_indexes tier) as [|i slots]; [done|].
  rewrite Hscan. destruct (first_accepted is_eligible (tier_visits r tier cursor) w) as [[[c|]|e|] w'];
    simpl; try (by eexists).
  destruct (IH Hr w') as [curs' ->]. by eexists.
Qed.
(** Hoare rule for [select_tiers]: what every rejecting call keeps holds at the
    end, or the accepting call's postcondition does. *)
Lemma scan_candidates_hoare (P : W -> Prop) (Q : SnapshotRouteCandidate -> W -> Prop) r slots start offsets w :
  (forall c w, c ∈ candidates r -> P w ->
     match is_eligible c w with (Ok true, w') => Q c w' | (_, w') => P w' end) ->
  P w ->
  match scan_candidates is_eligible r slots start offsets w with
  | (Ok (Some (Some c)), w') => c ∈ candidates r /\ Q c w'
  | (_, w') => P w'
  end.
Proof.
  intros Hstep. revert w. induction offsets as [|o offsets IH]; intros w Hw; simpl; [done|].
  destruct (slots !! _) as [i|]; [|done]. destruct (candidates r !! i) as [c|] eqn:Hc; [|done].
  apply list_elem_of_lookup_2 in Hc. specialize (Hstep c w Hc Hw) as Hs. unfold bind.
  destruct (is_eligible c w) as [[[]|e|] w']; [done|by apply IH|done|done].
Qed.

Lemma select_tiers_hoare (P : W -> Prop) (Q : SnapshotRouteCandidate -> W -> Prop) r tiers curs w :
  (forall c w, c ∈ candidates r -> P w ->
     match is_eligible c w with (Ok true, w') => Q c w' | (_, w') => P w' end) ->
  P w ->
  match select_tiers is_eligible r tiers curs w with
  | (Ok (Some c), (_, w')) => c ∈ candidates r /\ Q c w'
  | (_, (_, w')) => P w'
  end.
Proof.
  intros Hstep. revert curs w. induction tiers as [|tier tiers IH]; intros curs w Hw; cbn [select_tiers]; [done|].
  destruct curs as [|cursor curs]; [done|]. destruct (sched_slot_indexes tier) as [|i slots]; [done|].
  pose proof (scan_candidates_hoare P Q r (i :: slots) cursor (seq 0 (length (i :: slots))) w Hstep Hw) as Hs.
  destruct (scan_candidates is_eligible r (i :: slots) cursor _ w) as [[[[c|]|]|e|] w']; [done|done| |done|done].
  specialize (IH curs w' Hs). by destruct (select_tiers is_eligible r tiers curs w') as [[[]|e|] [? ?]].
Qed.

(** The search panics only if the predicate does. *)
Lemma scan_candidates_no_panic r slots start offsets w :
  (forall c w, exists b, (is_eligible c w).1 = Ok b) -> slots <> [] ->
  exists o, (scan_candidates is_eligible r slots start offsets w).1 = Ok o.
Proof.
  intros Hel Hne. revert w. induction offsets as [|o offsets IH]; intros w; simpl; [by eexists|].
  destruct (scan_index_valid slots (usize_wrapping_add start (Z.of_nat o)) Hne) as [i ->].
  destruct (candidates r !! i) as [c|]; [|by eexists]. unfold bind. destruct (Hel c w) as [b Hb].
  destruct (is_eligible c w) as [res w']. simpl in Hb. subst. destruct b; [by eexists|apply IH].
Qed.

Lemma select_tiers_no_panic r tiers curs w :
  (forall c w, exists b, (is_eligible c w).1 = Ok b) ->
  exists o, (select_tiers is_eligible r tiers curs w).1 = Ok o.
Proof.
  intros Hel. revert curs w. induction tiers as [|tier tiers IH]; intros curs w; cbn [select_tiers]; [by eexists|].
  destruct curs as [|cursor curs]; [by eexists|]. destruct (sched_slot_indexes tier) as [|i slots]; [by eexists|].
  destruct (scan_candidates_no_panic r (i :: slots) cursor (seq 0 (length (i :: slots))) w Hel) as [o Ho]; [done|].
  destruct (scan_candidates is_eligible r (i :: slots) cursor _ w) as [res w']. simpl in Ho. subst.
  destruct o; [by eexists|]. specialize (IH curs w').
  by destruct (select_tiers is_eligible r tiers curs w') as [res [? ?]].
Qed.
End Scan.

(** Every compiled tier is non-empty and holds exactly the candidates of its
    priority. *)
Lemma compiled_tier_facts r sched tier :
  Forall candidate_ok (candidates r) -> compiled_from r sched -> tier ∈ schedule_tiers sched ->
  tier_in_range r tier
  /\ forall i c, candidates r !! i = Some c ->
       i ∈ sched_slot_indexes tier <-> cand_priority c = sched_priority tier.
Proof.
  intros Hok [_ Hcover Hcomp] Hin. rewrite Forall_forall in Hcomp. specialize (Hcomp tier Hin).
  set (members := tier_members r (sched_priority tier)) in *.
  destruct (tier_members_facts r (sched_priority tier)) as [Hnd Hrange]. fold members in Hnd, Hrange.
  assert (forall i, i ∈ sched_slot_indexes tier <-> i ∈ members) as Hsame.
  { unfold tier_compiled in Hcomp. destruct (policy r); [by rewrite Hcomp| |by rewrite Hcomp].
    destruct Hcomp as (_ & Hsub & Hcount). intros i. split; [apply Hsub|]. intros Hi.
    apply list_elem_of_lookup in Hi as [k Hk]. rewrite Forall_lookup in Hrange.
    destruct (lookup_lt_is_Some_2 _ _ (Hrange k i Hk)) as [c Hc].
    destruct (Hcount k i (cand_weight c) Hk) as [Hw _].
    { unfold candidate_weights. by rewrite list_lookup_fmap, Hk; simpl; rewrite Hc. }
    rewrite Forall_lookup in Hok. destruct (Hok i c Hc) as [_ Hpos].
    apply list_elem_of_In, (count_occ_In Nat.eq_dec). lia. }
  assert (forall i c, candidates r !! i = Some c -> i ∈ members <-> cand_priority c = sched_priority tier) as Hmem.
  { intros i c Hc. unfold members, tier_members. rewrite sort_indexes_perm.
    unfold tier_indexes. rewrite list_elem_of_filter, list_lookup_fmap, Hc. simpl.
    rewrite length_fmap. apply lookup_lt_Some in Hc. rewrite elem_of_seq.
    split; [intros [? _]; congruence|]. intros ->. split; [done|lia]. }
  split; [split|intros i c Hc; rewrite Hsame; by apply Hmem].
  - assert (sched_priority tier ∈ (cand_priority <$> candidates r)) as Hp
      by (apply Hcover; by apply list_elem_of_fmap_2).
    apply list_elem_of_fmap in Hp as (c & Hpc & Hc). apply list_elem_of_lookup in Hc as [i Hi].
    intros Hnil. assert (i ∈ sched_slot_indexes tier) as Hbad by (apply Hsame, (Hmem i c Hi); done).
    rewrite Hnil in Hbad. by apply elem_of_nil in Hbad.
  - apply Forall_forall. intros i Hi%Hsame. rewrite Forall_forall in Hrange. by apply Hrange.
Qed.

(** A compiled route: valid, with bounded tiers built from it. *)
Lemma route_compiles_from r sched :
  Forall candidate_typed (candidates r) -> try_compile r = Ok sched ->
  route_ok r /\ compiled_from r sched
  /\ forall tier, tier ∈ schedule_tiers sched ->
       Z.of_nat (length (sched_slot_indexes tier)) <= MAX_SCHEDULE_SLOTS.
Proof.
  intros Ht Hc. destruct (try_compile_spec r Ht) as (H1 & H2 & _). pose proof (H2 _ Hc) as Hok.
  destruct (H1 Hok) as (sched' & Hc' & Hfrom). rewrite Hc in Hc'. injection Hc' as <-.
  split_and!; [done|done|]. intros tier Hin. destruct Hok as [_ Hsize]. specialize (Hsize (sched_priority tier)).
  pose proof (compiled_tiers _ _ Hfrom) as Hall. rewrite Forall_forall in Hall. specialize (Hall tier Hin).
  unfold tier_compiled, tier_size in *. destruct (policy r); [by rewrite Hall| |by rewrite Hall].
  destruct Hall as [-> _]. done.
Qed.

Lemma visit_order_elem r tiers curs c :
  Forall2 route_cursor_ok tiers curs ->
  c ∈ visit_order r tiers curs <->
  exists tier i, tier ∈ tiers /\ i ∈ sched_slot_indexes tier /\ candidates r !! i = Some c.
Proof.
  intros H2. unfold visit_order. induction H2 as [|tier cursor tiers curs [H0 _] H2 IH]; cbn [zip_with concat].
  { split; [intros Hc; by apply elem_of_nil in Hc|]. intros (t & i & Ht & _). by apply elem_of_nil in Ht. }
  rewrite elem_of_app, IH. unfold tier_visits. rewrite list_elem_of_omap. split.
  - intros [(o & Ho%elem_of_seq & Hc)|(t & i & Ht & Hi)].
    + exists tier, (rotated (sched_slot_indexes tier) cursor o). split_and!; [left| |done].
      eapply list_elem_of_lookup_2, rotated_lookup. lia.
    + exists t, i. split; [by right|done].
  - intros (t & i & [->|Ht]%elem_of_cons & Hi & Hc); [left|right; eauto].
    destruct (rotation_covers _ cursor i H0 Hi) as (o & Ho & <-). exists o. split; [|done].
    apply elem_of_seq. lia.
Qed.

(** A full search of a compiled route offers every candidate. *)
Lemma visited_all r sched curs c :
  Forall candidate_ok (candidates r) -> compiled_from r sched ->
  Forall2 route_cursor_ok (schedule_tiers sched) curs -> c ∈ candidates r ->
  c ∈ visit_order r (schedule_tiers sched) curs.
Proof.
  intros Hok Hfrom Hcur Hin. apply visit_order_elem; [done|].
  assert (cand_priority c ∈ (sched_priority <$> schedule_tiers sched)) as Hp
    by (apply (compiled_cover _ _ Hfrom), list_elem_of_fmap; eauto).
  apply list_elem_of_fmap in Hp as (tier & Hp & Htier). apply list_elem_of_lookup in Hin as [i Hi].
  exists tier, i. split_and!; [done| |done].
  by apply (proj2 (compiled_tier_facts r sched tier Hok Hfrom Htier) i c Hi).
Qed.

(** Candidates are offered in ascending priority. *)
Lemma visit_order_sorted r tiers curs :
  StronglySorted Z.lt (sched_priority <$> tiers) ->
  (forall tier i c, tier ∈ tiers -> i ∈ sched_slot_indexes tier -> candidates r !! i = Some c ->
     cand_priority c = sched_priority tier) ->
  Forall2 route_cursor_ok tiers curs ->
  StronglySorted (fun a b => cand_priority a <= cand_priority b) (visit_order r tiers curs).
Proof.
  intros Hs Hp H2. revert Hs Hp.
  induction H2 as [|tier cursor tiers curs Hc H2 IH]; intros Hs Hp; [constructor|].
  rewrite fmap_cons in Hs. apply StronglySorted_inv in Hs as [Hs Hlt]. rewrite Forall_fmap, Forall_forall in Hlt.
  unfold visit_order. cbn [zip_with concat]. fold (visit_order r tiers curs).
  assert (Forall (fun c => cand_priority c = sched_priority tier) (tier_visits r tier cursor)) as Hhead.
  { apply Forall_forall. intros c Hin.
    assert (c ∈ visit_order r [tier] [cursor]) as Hin'
      by (unfold visit_order; cbn [zip_with concat]; by rewrite app_nil_r).
    apply visit_order_elem in Hin' as (t & i & Ht & Hi & Hx); [|by constructor; [|constructor]].
    apply list_elem_of_singleton in Ht as ->.
    eapply Hp; [left|done..]. }
  assert (Forall (fun c => sched_priority tier < cand_priority c) (visit_order r tiers curs)) as Htail.
  { apply Forall_forall. intros c (t & i & Ht & Hi & Hx)%visit_order_elem; [|done].
    rewrite (Hp t i c); [|by right|done..]. by apply Hlt. }
  specialize (IH Hs ltac:(intros; eapply Hp; [by right|done..])).
  induction Hhead as [|c l Hc' Hhead IHl]; [done|]. simpl. constructor; [done|].
  apply Forall_app. split; eapply Forall_impl; try done; simpl; lia.
Qed.

Lemma visit_order_length r tiers curs :
  (length (visit_order r tiers curs) <= sum_list_with (fun t => length (sched_slot_indexes t)) tiers)%nat.
Proof.
  revert curs. induction tiers as [|tier tiers IH]; intros [|c curs]; try (unfold visit_order; simpl; lia).
  unfold visit_order. cbn [zip_with concat]. rewrite length_app. fold (visit_order r tiers curs).
  specialize (IH curs). unfold tier_visits.
  assert (forall l, length (omap (fun o => candidates r !! rotated (sched_slot_indexes tier) c o) l) <= length l)%nat as H.
  { induction l as [|x l IHl]; simpl; [lia|]. destruct (candidates r !! _); simpl; [apply le_n_S|apply le_S]; exact IHl. }
  specialize (H (seq 0 (length (sched_slot_indexes tier)))). rewrite length_seq in H. simpl. lia.
Qed.

Section Fairness.
Context (s : RouteSnapshot) (rid : RouteId) (r : SnapshotRoute) (sched : SnapshotRouteSchedule).
Context (tier : SnapshotPriorityTierSchedule) (rest : list SnapshotPriorityTierSchedule).
Context (Hr : routes s !! rid = Some r) (Hs : route_schedules s !! rid = Some sched).
Context (Ht : schedule_tiers sched = tier :: rest) (Hin : tier_in_range r tier).

Lemma select_step cursors c cs :
  cursors !! rid = Some (c :: cs) -> route_cursor_ok tier c ->
  select s rid cursors
  = (Ok (candidates r !! rotated (sched_slot_indexes tier) c 0), <[rid := bump c :: cs]> cursors).
Proof.
  intros Hc [H0 Hb]. destruct Hin as [Hne Hall]. unfold select, select_eligible. simpl.
  rewrite Hr, Hs, Hc, Ht. cbn [select_tiers].
  pose proof (scan_candidates_visits (W := unit) (fun _ => ret true) r (sched_slot_indexes tier) c 0
    (length (sched_slot_indexes tier)) tt Hall Hne H0 Hb) as Hscan.
  destruct (lookup_lt_is_Some_2 (candidates r) (rotated (sched_slot_indexes tier) c 0)) as [x Hx].
  { rewrite Forall_lookup in Hall. eapply Hall, rotated_lookup. by destruct (sched_slot_indexes tier); simpl; [|lia]. }
  rewrite Hx. destruct (sched_slot_indexes tier) as [|i slots]; [done|].
  rewrite Hscan. cbn [length seq omap list_omap]. by rewrite Hx.
Qed.

Lemma select_many_rotates n cursors c cs :
  cursors !! rid = Some (c :: cs) -> 0 <= c ->
  c + Z.of_nat n + Z.of_nat (length (sched_slot_indexes tier)) <= usize_modulus ->
  select_many n s rid cursors
  = (fun k => Ok (candidates r !! rotated (sched_slot_indexes tier) c k)) <$> seq 0 n.
Proof.
  revert cursors c. induction n as [|n IH]; intros cursors c Hc H0 Hb; [done|]. cbn [select_many].
  rewrite (select_step cursors c cs Hc) by (split; lia). cbn [fst snd seq]. rewrite fmap_cons. f_equal.
  assert (0 < length (sched_slot_indexes tier))%nat as Hlen
    by (destruct Hin as [Hne _]; by destruct (sched_slot_indexes tier); simpl; [|lia]).
  assert (bump c = c + 1) as Hbump by (unfold bump, usize_wrapping_add; rewrite Z.mod_small; lia).
  rewrite (IH _ (bump c)); [|by rewrite lookup_insert_eq|lia|lia].
  rewrite <- (fmap_S_seq 0 n), <- list_fmap_compose. apply list_fmap_ext. intros _ k _. simpl.
  do 2 f_equal. rewrite <- (rotated_shift _ (bump c)), <- (rotated_shift _ c). f_equal. lia.
Qed.
End Fairness.

(** A fresh scheduler has a zero cursor for every tier of every route. *)
Lemma scheduler_new_lookup s rid r sched :
  snapshot_wf s -> routes s !! rid = Some r -> route_schedules s !! rid = Some sched ->
  scheduler_new s !! rid = Some ((fun _ => 0) <$> schedule_tiers sched).
Proof.
  intros Hwf Hr Hs. unfold scheduler_new. apply elem_of_list_to_map.
  - rewrite <- list_fmap_compose.
    rewrite (list_fmap_ext _ fst); [apply NoDup_fst_map_to_list|].
    intros i [k x] Hx. apply list_elem_of_lookup_2, elem_of_map_to_list in Hx.
    simpl. by apply (wf_routes s Hwf k x).
  - apply list_elem_of_fmap. exists (rid, r). rewrite elem_of_map_to_list. split; [|done]. simpl.
    destruct (wf_routes s Hwf rid r Hr) as [-> _]. by rewrite Hs.
Qed.

(** ** Properties *)

(** With every candidate acceptable, one cycle of consecutive [select] calls
    on a route of a published snapshot, from any cursor position, hands out the
    slots of the best priority tier exactly once each, in some order: under
    smooth weighting each candidate of that tier is chosen exactly as often as
    its weight, under the other policies exactly once, and no other candidate is
    chosen. *)
Lemma select_cycle_is_exact input s rid r sched tier rest cursors c cs :
  snapshot_try_new input = Ok s -> routes s !! rid = Some r -> route_schedules s !! rid = Some sched ->
  Forall candidate_typed (candidates r) -> schedule_tiers sched = tier :: rest ->
  cursors !! rid = Some (c :: cs) -> 0 <= c -> c + 2 * MAX_SCHEDULE_SLOTS <= usize_modulus ->
  tier_compiled r (tier_members r (sched_priority tier)) (sched_slot_indexes tier)
  /\ exists order, order ≡ₚ sched_slot_indexes tier
       /\ select_many (length (sched_slot_indexes tier)) s rid cursors
          = (fun i => Ok (candidates r !! i)) <$> order
       /\ Forall (fun i => exists x, candidates r !! i = Some x /\ cand_priority x = sched_priority tier) order.
Proof.
  intros Hsnap Hr Hs Ht Htiers Hc H0 Hb. apply snapshot_try_new_ok in Hsnap.
  destruct (wf_routes s Hsnap rid r Hr) as (_ & _ & _ & sched' & Hs' & Hcomp). simplify_eq.
  destruct (route_compiles_from r sched Ht Hcomp) as (Hok & Hfrom & Hsize).
  assert (tier ∈ schedule_tiers sched) as Htier by (rewrite Htiers; left).
  destruct (compiled_tier_facts r sched tier (proj1 Hok) Hfrom Htier) as [Hin Hmem].
  split.
  { pose proof (compiled_tiers _ _ Hfrom) as Hall. rewrite Forall_forall in Hall. by apply (Hall tier). }
  exists (rotated (sched_slot_indexes tier) c <$> seq 0 (length (sched_slot_indexes tier))).
  pose proof (rotation_perm (sched_slot_indexes tier) c H0) as Hperm. split; [done|]. split.
  - rewrite <- list_fmap_compose. eapply (select_many_rotates s rid r sched tier rest); try done.
    specialize (Hsize tier Htier). lia.
  - rewrite Hperm. apply Forall_forall. intros i Hi. destruct Hin as [_ Hin]. rewrite Forall_forall in Hin.
    destruct (lookup_lt_is_Some_2 _ _ (Hin i Hi)) as [x Hx]. exists x. split; [done|]. by apply (Hmem i x Hx).
Qed.

(** ** Witnesses *)

Definition ex_schedule : SnapshotRouteSchedule := mkSchedule [mkTierSchedule 0 [1; 0; 1]%nat].

Lemma ex_route_found :
  routes (ex_snapshot "v1") !! (mkId "route-a" : RouteId) = Some ex_route
  /\ route_schedules (ex_snapshot "v1") !! (mkId "route-a" : RouteId) = Some ex_schedule.
Proof. split; vm_compute; reflexivity. Qed.

Lemma ex_route_typed : Forall candidate_typed (candidates ex_route).
Proof. repeat constructor; simpl; unfold i64_min, i64_max; lia. Qed.

Lemma select_cycle_is_exact_witness :
  exists order, order ≡ₚ [1; 0; 1]%nat
    /\ select_many 3 (ex_snapshot "v1") (mkId "route-a") {[ mkId "route-a" := [1] ]}
       = (fun i => Ok (candidates ex_route !! i)) <$> order.
Proof.
  destruct (select_cycle_is_exact (ex_input "v1") (ex_snapshot "v1") (mkId "route-a") ex_route ex_schedule
    (mkTierSchedule 0 [1; 0; 1]%nat) [] {[ mkId "route-a" := [1] ]} 1 []) as (_ & order & Hp & Hm & _).
  - exact ex_snapshot_built.
  - apply ex_route_found.
  - apply ex_route_found.
  - exact ex_route_typed.
  - reflexivity.
  - apply lookup_singleton_eq.
  - lia.
  - unfold MAX_SCHEDULE_SLOTS, usize_modulus. lia.
  - exists order. split; [exact Hp|exact Hm].
Defined.
