(* ===== verification/CredentialScheduler.v ===== *)
(** * Two-stage candidate and credential selection

    Models [crates/gateway-router/src/credential_scheduler.rs]: a route candidate
    is offered by [select_eligible]; the closure given to it checks the candidate
    and leases a credential from the candidate's Endpoint pool, so a rejected
    candidate and a saturated pool both make the search go on.

    Health and quota are read through the queries of [RuntimeHealth] and
    [RuntimeQuota].  [RuntimeView] fixes what one selection observes: both
    registries and the readings of their clocks. *)

From S2P Require Import Prelude Core WeightedSchedule Sharded RuntimeHealth RuntimeQuota CredentialPool Catalog ClientKey RouteSnapshot RouteScheduler.
Local Open Scope string_scope.
Local Open Scope list_scope.
Local Open Scope Z_scope.

(** ** Leases from an indexed pool set *)

Abbreviation PoolStates := (gmap EndpointId PoolState).

Record CredentialLease : Type := mkLease {
  lease_endpoint : EndpointId;
  lease_index : nat;
  lease_credential : CredentialSlot;
}.

Definition lease_credential_id (l : CredentialLease) : CredentialId := credential_id (lease_credential l).

(** [self.pool(endpoint_id)?.<op>()] *)
Definition pools_lease (pools : Pools) (endpoint : EndpointId)
    (op : EndpointCredentialPool -> M PoolState unit (option nat))
  : M PoolStates unit (option CredentialLease) :=
  fun states =>
    match pools !! endpoint, states !! endpoint with
    | Some pool, Some st =>
        match op pool st with
        | (Ok (Some index), st') =>
            match credentials pool !! index with
            | Some cred => (Ok (Some (mkLease endpoint index cred)), <[endpoint := st']> states)
            | None => (Panic, <[endpoint := st']> states)
            end
        | (Ok None, st') => (Ok None, <[endpoint := st']> states)
        | (Err e, st') => (Err e, <[endpoint := st']> states)
        | (Panic, st') => (Panic, <[endpoint := st']> states)
        end
    | _, _ => (Ok None, states)
    end.

Definition pools_try_lease (pools : Pools) (endpoint : EndpointId) : M PoolStates unit (option CredentialLease) :=
  pools_lease pools endpoint try_lease.

Definition pools_try_lease_eligible (pools : Pools) (endpoint : EndpointId) (is_eligible : CredentialId -> bool)
  : M PoolStates unit (option CredentialLease) :=
  pools_lease pools endpoint (fun pool => try_lease_eligible pool is_eligible).

Definition pools_try_lease_eligible_at (pools : Pools) (endpoint : EndpointId) (now_ms : Z)
    (is_eligible : CredentialId -> bool) : M PoolStates unit (option CredentialLease) :=
  pools_lease pools endpoint (fun pool => try_lease_eligible_at pool now_ms is_eligible).

(** Dropping a lease. *)
Definition drop_lease (l : CredentialLease) (states : PoolStates) : PoolStates :=
  alter (release_lease (lease_index l)) (lease_endpoint l) states.

(** ** The scheduler *)

Record RouteCredentialScheduler : Type := mkRouteScheduler {
  rs_snapshot : RouteSnapshot;
  credential_pools : Pools;
}.

(** Its atomics: candidate cursors, and the pools' cursors and lease counts. *)
Record SchedulerState : Type := mkSchedulerState {
  route_cursors : RouteCursors;
  pool_states : PoolStates;
}.

Record SelectedRouteCredential : Type := mkSelected {
  sel_candidate : SnapshotRouteCandidate;
  sel_lease : CredentialLease;
}.

Definition credential_unavailable_error : GatewayError := mkError CredentialUnavailable ScopeCredential.
Definition LEGACY_NO_EXPIRY_OBSERVATION_MS : Z := i64_min.

(** The closure over [lease]: [Ok true] once a lease is stored. *)
Definition lease_closure (is_candidate_eligible : SnapshotRouteCandidate -> bool)
    (acquire : SnapshotRouteCandidate -> M PoolStates unit (option CredentialLease))
    (candidate : SnapshotRouteCandidate) : M (PoolStates * option CredentialLease) unit bool :=
  fun w =>
    if negb (is_candidate_eligible candidate) then (Ok false, w)
    else match acquire candidate w.1 with
         | (Ok (Some acquired), states) => (Ok true, (states, Some acquired))
         | (Ok None, states) => (Ok false, (states, w.2))
         | (Err e, states) => (Err e, (states, w.2))
         | (Panic, states) => (Panic, (states, w.2))
         end.

(** [let mut lease = None; let candidate = ...; match (candidate, lease)]: a
    stored lease that is not returned is dropped. *)
Definition select_with (sched : RouteCredentialScheduler) (rid : RouteId)
    (closure : SnapshotRouteCandidate -> M (PoolStates * option CredentialLease) unit bool)
  : M SchedulerState GatewayError SelectedRouteCredential :=
  fun st =>
    match select_eligible closure (rs_snapshot sched) rid (route_cursors st, (pool_states st, None)) with
    | (Ok (Some candidate), (cursors, (states, Some lease))) =>
        (Ok (mkSelected candidate lease), mkSchedulerState cursors states)
    | (Ok _, (cursors, (states, lease))) =>
        (Err credential_unavailable_error,
         mkSchedulerState cursors (match lease with Some l => drop_lease l states | None => states end))
    | (_, (cursors, (states, _))) => (Panic, mkSchedulerState cursors states)
    end.

Definition select_eligible_and_lease (sched : RouteCredentialScheduler) (rid : RouteId)
    (is_candidate_eligible : SnapshotRouteCandidate -> bool)
  : M SchedulerState GatewayError SelectedRouteCredential :=
  select_with sched rid
    (lease_closure is_candidate_eligible
       (fun c => pools_try_lease (credential_pools sched) (cand_endpoint_id c))).

Definition select_and_lease (sched : RouteCredentialScheduler) (rid : RouteId)
  : M SchedulerState GatewayError SelectedRouteCredential :=
  select_eligible_and_lease sched rid (fun _ => true).

(** What one selection observes of the runtime registries. *)
Record RuntimeView : Type := mkView {
  view_health : HealthRegistry;
  view_health_clock : ClockReading;
  view_quota : Quota.QuotaRegistry;
  view_quota_clock : ClockReading;
}.

Section Views.
Context `{!ShardHash RuntimeHealthKey, !ShardHash Quota.RuntimeQuotaTarget}.

Definition binding_quota_is_recovery_due (v : RuntimeView) (e : EndpointId) (c : CredentialId) : bool :=
  is_ok_and (fun a => match a with Quota.QRecoveryRequired _ => true | _ => false end)
    (Quota.availability (view_quota v) (Quota.EndpointCredential e c) (view_quota_clock v)).

Definition candidate_healthy (v : RuntimeView) (c : SnapshotRouteCandidate) : bool :=
  endpoint_is_available (view_health v) (cand_endpoint_id c) (view_health_clock v).

Definition binding_healthy (v : RuntimeView) (c : SnapshotRouteCandidate) (id : CredentialId) : bool :=
  endpoint_credential_is_available (view_health v) (cand_endpoint_id c) id (view_health_clock v)
  && endpoint_credential_model_is_available (view_health v) (cand_endpoint_id c) id (upstream_model c)
       (view_health_clock v).

Definition binding_within_quota (v : RuntimeView) (c : SnapshotRouteCandidate) (id : CredentialId) : bool :=
  Quota.endpoint_credential_is_available (view_quota v) (cand_endpoint_id c) id (view_quota_clock v)
  && Quota.endpoint_credential_model_is_available (view_quota v) (cand_endpoint_id c) id (upstream_model c)
       (view_quota_clock v).

Definition binding_recovery_due (v : RuntimeView) (c : SnapshotRouteCandidate) (id : CredentialId) : bool :=
  binding_quota_is_recovery_due v (cand_endpoint_id c) id
  && Quota.endpoint_credential_model_is_available (view_quota v) (cand_endpoint_id c) id (upstream_model c)
       (view_quota_clock v).

Section Selections.
Context (sched : RouteCredentialScheduler) (rid : RouteId) (v : RuntimeView).
Context (observed_at_ms : Z).
Context (is_candidate_eligible : SnapshotRouteCandidate -> bool).
Context (is_binding_eligible : SnapshotRouteCandidate -> CredentialId -> bool).

Definition select_bindings (binding_ok : SnapshotRouteCandidate -> CredentialId -> bool)
  : M SchedulerState GatewayError SelectedRouteCredential :=
  select_with sched rid
    (lease_closure (fun c => is_candidate_eligible c && candidate_healthy v c)
       (fun c => pools_try_lease_eligible_at (credential_pools sched) (cand_endpoint_id c) observed_at_ms
                   (binding_ok c))).

Definition select_eligible_and_lease_with_runtime_health_and_binding_at
  : M SchedulerState GatewayError SelectedRouteCredential :=
  select_bindings (fun c id => is_binding_eligible c id && binding_healthy v c id).

Definition select_eligible_and_lease_with_runtime_health_quota_and_binding_at
  : M SchedulerState GatewayError SelectedRouteCredential :=
  select_bindings (fun c id => is_binding_eligible c id && binding_healthy v c id && binding_within_quota v c id).

Definition select_eligible_and_lease_for_quota_recovery_at
  : M SchedulerState GatewayError SelectedRouteCredential :=
  select_bindings (fun c id => is_binding_eligible c id && binding_healthy v c id && binding_recovery_due v c id).
End Selections.

(** The variants without an expiry observation. *)
Definition select_eligible_and_lease_with_runtime_health_and_binding sched rid v fc fb :=
  select_eligible_and_lease_with_runtime_health_and_binding_at sched rid v LEGACY_NO_EXPIRY_OBSERVATION_MS fc fb.

Definition select_eligible_and_lease_with_runtime_health sched rid v fc :=
  select_eligible_and_lease_with_runtime_health_and_binding sched rid v fc (fun _ _ => true).

Definition select_runtime_eligible_and_lease sched rid v :=
  select_eligible_and_lease_with_runtime_health sched rid v (fun _ => true).

Definition select_eligible_and_lease_with_runtime_health_quota_and_binding sched rid v fc fb :=
  select_eligible_and_lease_with_runtime_health_quota_and_binding_at sched rid v
    LEGACY_NO_EXPIRY_OBSERVATION_MS fc fb.

Definition select_eligible_and_lease_for_quota_recovery sched rid v fc fb :=
  select_eligible_and_lease_for_quota_recovery_at sched rid v LEGACY_NO_EXPIRY_OBSERVATION_MS fc fb.
End Views.

(** ** Specification *)

(** The lease counts of the pools, cursors ignored. *)
Definition lease_counts (states : PoolStates) : gmap EndpointId (list Z) := active_leases <$> states.

(** The counts after one more lease of [l]. *)
Definition leased (l : CredentialLease) (counts : gmap EndpointId (list Z)) : gmap EndpointId (list Z) :=
  alter (alter (fun n => n + 1) (lease_index l)) (lease_endpoint l) counts.

(** Credential [i] of Endpoint [e] is one of the pool, accepted by [ok], below its limit. *)
Definition free_credential (pools : Pools) (counts : gmap EndpointId (list Z)) (e : EndpointId)
    (ok : CredentialSlot -> bool) (i : nat) : Prop :=
  exists pool active, pools !! e = Some pool /\ counts !! e = Some active /\ can_lease pool ok active i.

Definition leasable (pools : Pools) (counts : gmap EndpointId (list Z))
    (cand_ok : SnapshotRouteCandidate -> bool) (slot_ok : SnapshotRouteCandidate -> CredentialSlot -> bool)
    (c : SnapshotRouteCandidate) : Prop :=
  cand_ok c = true /\ exists i, free_credential pools counts (cand_endpoint_id c) (slot_ok c) i.

(** Pools as [pool_try_new] leaves them: consistent, every credential scheduled. *)
Record pool_ready (pool : EndpointCredentialPool) (st : PoolState) : Prop := {
  ready_wf : pool_wf pool st;
  ready_cover : forall i, (i < length (credentials pool))%nat ->
    exists tier, tier ∈ priority_tiers pool /\ i ∈ slot_indexes tier;
}.

(** [k] more scans of each pool stay clear of the cursor wrap-around. *)
Definition cursor_room (k : nat) (tier : CredentialPriorityTier) (cursor : Z) : Prop :=
  0 <= cursor /\ cursor + Z.of_nat (length (slot_indexes tier)) + Z.of_nat k <= usize_modulus.

Definition pools_ready (k : nat) (pools : Pools) (states : PoolStates) : Prop :=
  forall e pool, pools !! e = Some pool ->
    exists st, states !! e = Some st /\ pool_ready pool st
      /\ Forall2 (cursor_room k) (priority_tiers pool) (cursors st).

(** The slots a full search of a route visits. *)
Definition total_slots (schedule : SnapshotRouteSchedule) : nat :=
  sum_list_with (fun t => length (sched_slot_indexes t)) (schedule_tiers schedule).

(** What a returned selection satisfied when it was leased. *)
Record accepted (pools : Pools) (counts : gmap EndpointId (list Z))
    (cand_ok : SnapshotRouteCandidate -> bool) (slot_ok : SnapshotRouteCandidate -> CredentialSlot -> bool)
    (c : SnapshotRouteCandidate) (l : CredentialLease) : Prop := {
  acc_candidate : cand_ok c = true;
  acc_endpoint : lease_endpoint l = cand_endpoint_id c;
  acc_slot : slot_ok c (lease_credential l) = true;
  acc_lease : exists pool active n, pools !! lease_endpoint l = Some pool
    /\ counts !! lease_endpoint l = Some active
    /\ credentials pool !! lease_index l = Some (lease_credential l)
    /\ active !! lease_index l = Some n /\ n < maximum_concurrency (lease_credential l);
}.

(** ** Lemmas *)

Lemma lease_counts_insert states e st :
  lease_counts (<[e := st]> states) = <[e := active_leases st]> (lease_counts states).
Proof. apply fmap_insert. Qed.

Lemma lease_counts_same states e st st' :
  states !! e = Some st -> active_leases st' = active_leases st ->
  lease_counts (<[e := st']> states) = lease_counts states.
Proof.
  intros He Ha. rewrite lease_counts_insert, Ha. apply insert_id.
  unfold lease_counts. by rewrite lookup_fmap, He.
Qed.

Section Closure.
Context (pools : Pools) (cand_ok : SnapshotRouteCandidate -> bool).
Context (slot_ok : SnapshotRouteCandidate -> CredentialSlot -> bool).

Definition slot_closure : SnapshotRouteCandidate -> M (PoolStates * option CredentialLease) unit bool :=
  lease_closure cand_ok
    (fun c => pools_lease pools (cand_endpoint_id c) (fun pool => try_lease_slots pool (slot_ok c))).

Lemma closure_sound c states lease :
  match slot_closure c (states, lease) with
  | (Ok true, (states', lease')) => exists l, lease' = Some l
      /\ accepted pools (lease_counts states) cand_ok slot_ok c l
      /\ lease_counts states' = leased l (lease_counts states)
  | (_, (states', lease')) => lease' = lease /\ lease_counts states' = lease_counts states
  end.
Proof.
  unfold slot_closure, lease_closure. simpl. destruct (cand_ok c) eqn:Hok; simpl; [|done].
  unfold pools_lease. destruct (pools !! cand_endpoint_id c) as [pool|] eqn:Hp; [|done].
  destruct (states !! cand_endpoint_id c) as [st|] eqn:Hst; [|done].
  pose proof (try_lease_slots_sound pool (slot_ok c) st) as Hs.
  destruct (try_lease_slots pool (slot_ok c) st) as [[[i|]|e|] st'];
    [|split; [done|by eapply lease_counts_same]..].
  destruct Hs as ((cred & n & Hc & Hn & Hel & Hlt) & n' & Hn' & Ha). simplify_eq. rewrite Hc. simpl.
  eexists. split; [done|].
  assert (lease_counts states !! cand_endpoint_id c = Some (active_leases st)) as Hcount
    by (unfold lease_counts; by rewrite lookup_fmap, Hst).
  split; [split; simpl; try done; by exists pool, (active_leases st), n|].
  rewrite lease_counts_insert, Ha. unfold leased. simpl.
  apply map_eq. intros e. destruct (decide (e = cand_endpoint_id c)) as [->|Hne].
  - rewrite lookup_insert_eq, lookup_alter_eq, Hcount. simpl. f_equal.
    apply list_eq. intros j. destruct (decide (j = i)) as [->|Hj].
    + rewrite list_lookup_insert_eq by (by eapply lookup_lt_Some). by rewrite list_lookup_alter_eq, Hn.
    + by rewrite list_lookup_insert_ne, list_lookup_alter_ne by congruence.
  - by rewrite lookup_insert_ne, lookup_alter_ne by congruence.
Qed.

Lemma closure_no_panic c w : exists b, (slot_closure c w).1 = Ok b.
Proof.
  unfold slot_closure, lease_closure. destruct (cand_ok c); simpl; [|by eexists].
  unfold pools_lease. destruct (pools !! _) as [pool|]; [|by eexists]. destruct (w.1 !! _) as [st|]; [|by eexists].
  pose proof (try_lease_slots_sound pool (slot_ok c) st) as Hs. destruct (try_lease_no_panic pool (slot_ok c) st) as [o Ho].
  destruct (try_lease_slots pool (slot_ok c) st) as [r st']. simpl in Ho. subst. destruct o as [i|]; [|by eexists].
  destruct Hs as [(cred & n & Hc & _) _]. rewrite Hc. by eexists.
Qed.

Lemma select_with_sound snapshot rid st :
  match select_with (mkRouteScheduler snapshot pools) rid slot_closure st with
  | (Ok sel, st') => exists r, routes snapshot !! rid = Some r /\ sel_candidate sel ∈ candidates r
      /\ accepted pools (lease_counts (pool_states st)) cand_ok slot_ok (sel_candidate sel) (sel_lease sel)
      /\ lease_counts (pool_states st') = leased (sel_lease sel) (lease_counts (pool_states st))
  | (Err e, st') => e = credential_unavailable_error
      /\ lease_counts (pool_states st') = lease_counts (pool_states st)
  | (Panic, _) => False
  end.
Proof.
  unfold select_with, select_eligible. cbn [rs_snapshot fst snd].
  destruct (routes snapshot !! rid) as [r|] eqn:Hr; [|done].
  destruct (route_schedules snapshot !! rid) as [sched|]; [|done].
  destruct (route_cursors st !! rid) as [curs|]; [|done].
  pose proof (select_tiers_hoare slot_closure
    (fun w => w.2 = None /\ lease_counts w.1 = lease_counts (pool_states st))
    (fun c w => exists l, w.2 = Some l
       /\ accepted pools (lease_counts (pool_states st)) cand_ok slot_ok c l
       /\ lease_counts w.1 = leased l (lease_counts (pool_states st)))
    r (schedule_tiers sched) curs (pool_states st, None)) as H.
  destruct (select_tiers_no_panic slot_closure r (schedule_tiers sched) curs (pool_states st, None) closure_no_panic) as [o Ho].
  lapply H; clear H; [intros H; lapply H; clear H; [intros H|done]|].
  - destruct (select_tiers _ _ _ _ _) as [[[c|]|e|] [curs' [states' lease']]]; simpl in *.
    + destruct H as (Hc & l & -> & Hacc & Hcount). exists r. done.
    + by destruct H as [-> ?].
    + done.
    + done.
  - intros c [states lease] _ [Hl Hc]. simpl in Hl, Hc. subst. pose proof (closure_sound c states None) as Hs.
    rewrite Hc in Hs. by destruct (slot_closure c (states, None)) as [[[]|e|] [? ?]].
Qed.
Lemma room_bump k tier c : cursor_room (S k) tier c -> cursor_room k tier (bump c) /\ cursor_ok tier c.
Proof.
  intros [H0 Hb]. unfold cursor_room, cursor_ok, bump, usize_wrapping_add.
  destruct (decide (c + 1 = usize_modulus)) as [He|He].
  - rewrite He, Z.mod_same by done. unfold usize_modulus in *. lia.
  - rewrite Z.mod_small by lia. lia.
Qed.

Lemma pools_ready_mono k k' states : (k' <= k)%nat -> pools_ready k pools states -> pools_ready k' pools states.
Proof.
  intros Hk Hr e pool Hp. destruct (Hr e pool Hp) as (st & Hst & Hready & H2). exists st. split_and!; [done..|].
  eapply Forall2_impl; [exact H2|]. intros t c [? ?]. split; lia.
Qed.

(** A rejection on ready pools means the candidate was not leasable. *)
Lemma closure_complete k c states :
  pools_ready (S k) pools states ->
  match slot_closure c (states, None) with
  | (Ok true, _) => leasable pools (lease_counts states) cand_ok slot_ok c
  | (Ok false, (states', lease')) => lease' = None /\ pools_ready k pools states'
      /\ lease_counts states' = lease_counts states
      /\ ~ leasable pools (lease_counts states) cand_ok slot_ok c
  | _ => False
  end.
Proof.
  intros Hr. pose proof (closure_sound c states None) as Hsound. pose proof (pools_ready_mono (S k) k states ltac:(lia) Hr) as Hk.
  unfold slot_closure, lease_closure, pools_lease in *. cbn [fst snd] in *.
  destruct (cand_ok c) eqn:Hok; cbn [negb] in *; [|split_and!; try done; intros [? _]; congruence].
  destruct (pools !! cand_endpoint_id c) as [pool|] eqn:Hp.
  2:{ split_and!; try done. intros (_ & i & p & a & ? & _). congruence. }
  destruct (Hr _ pool Hp) as (st & Hst & [[Hlc Hla Hls] Hcover] & H2). rewrite Hst in *.
  assert (Forall2 cursor_ok (priority_tiers pool) (cursors st)) as Hcur
    by (eapply Forall2_impl; [exact H2|]; intros t x Hx; by apply (room_bump k)).
  unfold try_lease_slots in *.
  destruct (scan_tiers_spec pool (slot_ok c) _ _ _ Hla Hls Hcur)
    as [(k' & o & i & n & Hch & Hn & Hscan)|[Hscan Hnone]]; rewrite Hscan in *.
  - destruct (choice_free _ _ _ _ _ _ _ _ Hch) as (cred & n' & Hc & Hrest). rewrite Hc in *.
    split; [done|]. exists i, pool, (active_leases st). split_and!; [done| |by exists cred, n'].
    unfold lease_counts. by rewrite lookup_fmap, Hst.
  - split_and!; [done| |by apply Hsound|].
    + intros e p He. destruct (decide (e = cand_endpoint_id c)) as [->|Hne].
      * simplify_eq. rewrite lookup_insert_eq. eexists. split; [done|]. split; [split; [split|]; simpl; try done|].
        -- by rewrite length_fmap.
        -- simpl. apply Forall2_fmap_r. eapply Forall2_impl; [exact H2|]. intros t x Hx. by apply room_bump.
      * rewrite lookup_insert_ne by done. by apply Hk.
    + intros (_ & i & p & a & Hpe & Ha & Hcl). unfold lease_counts in Ha. rewrite lookup_fmap, Hst in Ha.
      simplify_eq/=. destruct Hcl as (cred & n & Hc & Hrest).
      destruct (Hcover i) as (tier & Ht & Hi); [by eapply lookup_lt_Some|].
      apply (Hnone tier i Ht Hi). by exists cred, n.
Qed.

Lemma first_accepted_leases l states :
  pools_ready (length l) pools states ->
  match first_accepted slot_closure l (states, None) with
  | (Ok (Some c), _) => exists l1 l2, l = l1 ++ c :: l2
      /\ Forall (fun x => ~ leasable pools (lease_counts states) cand_ok slot_ok x) l1
      /\ leasable pools (lease_counts states) cand_ok slot_ok c
  | (Ok None, (_, lease)) => lease = None
      /\ Forall (fun x => ~ leasable pools (lease_counts states) cand_ok slot_ok x) l
  | _ => False
  end.
Proof.
  revert states. induction l as [|c l IH]; intros states Hr; cbn [first_accepted]; [by split|].
  pose proof (closure_complete (length l) c states Hr) as Hc. unfold bind.
  destruct (slot_closure c (states, None)) as [[[]|e|] [states' lease']]; cbn [ret]; [|destruct Hc as (-> & Hr' & Heq & Hno)|done|done].
  - exists [], l. done.
  - specialize (IH states' Hr'). rewrite Heq in IH.
    destruct (first_accepted slot_closure l (states', None)) as [[[x|]|e|] [s'' l'']]; [| |done|done].
    + destruct IH as (l1 & l2 & -> & Hall & Hx). exists (c :: l1), l2. split_and!; [done|by constructor|done].
    + destruct IH as [-> Hall]. split; [done|by constructor].
Qed.

(** An accepted candidate comes with its lease. *)
Lemma select_with_lease_kept l states :
  match first_accepted slot_closure l (states, None) with
  | (Ok (Some _), (_, lease)) => is_Some lease
  | _ => True
  end.
Proof.
  generalize (None : option CredentialLease). revert states.
  induction l as [|c l IH]; intros states lease; cbn [first_accepted]; [done|].
  pose proof (closure_sound c states lease) as Hc. unfold bind.
  destruct (slot_closure c (states, lease)) as [[[]|e|] [states' lease']]; [|apply IH|done|done].
  cbn [ret]. destruct Hc as (x & -> & _). by eexists.
Qed.

(** The search finds the best leasable candidate, or there is none. *)
Lemma select_with_complete snapshot rid r sched curs st :
  snapshot_wf snapshot -> routes snapshot !! rid = Some r -> route_schedules snapshot !! rid = Some sched ->
  Forall candidate_typed (candidates r) ->
  route_cursors st !! rid = Some curs -> Forall2 route_cursor_ok (schedule_tiers sched) curs ->
  pools_ready (total_slots sched) pools (pool_states st) ->
  match (select_with (mkRouteScheduler snapshot pools) rid slot_closure st).1 with
  | Ok sel => leasable pools (lease_counts (pool_states st)) cand_ok slot_ok (sel_candidate sel)
      /\ forall c, c ∈ candidates r -> leasable pools (lease_counts (pool_states st)) cand_ok slot_ok c ->
           cand_priority (sel_candidate sel) <= cand_priority c
  | Err e => forall c, c ∈ candidates r -> ~ leasable pools (lease_counts (pool_states st)) cand_ok slot_ok c
  | Panic => False
  end.
Proof.
  intros Hwf Hr Hs Ht Hc Hcur Hready.
  destruct (wf_routes _ Hwf rid r Hr) as (_ & _ & _ & sched' & Hs' & Hcomp). simplify_eq.
  destruct (route_compiles_from r sched Ht Hcomp) as (Hok & Hfrom & _).
  assert (Forall (tier_in_range r) (schedule_tiers sched)) as Hrange
    by (apply Forall_forall; intros t Hin; by apply (compiled_tier_facts r sched t (proj1 Hok) Hfrom Hin)).
  unfold select_with, select_eligible. cbn [rs_snapshot fst snd]. rewrite Hr, Hs, Hc.
  destruct (select_tiers_visits slot_closure r _ curs (pool_states st, None) Hrange Hcur) as [curs' ->].
  set (order := visit_order r (schedule_tiers sched) curs).
  assert (pools_ready (length order) pools (pool_states st)) as Hready'
    by (eapply pools_ready_mono; [apply visit_order_length|done]).
  assert (forall c, c ∈ candidates r -> c ∈ order) as Hall by (intros c Hin; apply visited_all; [apply Hok|done..]).
  pose proof (first_accepted_leases order _ Hready') as Hfirst.
  pose proof (select_with_lease_kept order (pool_states st)) as Hlease.
  destruct (first_accepted slot_closure order (pool_states st, None)) as [[[c|]|e|] [states' lease']];
    cbn [fst snd] in *; [| |done|done].
  - destruct Hlease as [l ->]. cbn [sel_candidate]. destruct Hfirst as (l1 & l2 & Ho & Hno & Hyes).
    split; [done|]. intros x Hx Hleas. specialize (Hall x Hx).
    assert (StronglySorted (fun a b => cand_priority a <= cand_priority b) order) as Hsorted.
    { apply visit_order_sorted; [apply Hfrom| |done]. intros t i y Hin Hi Hy.
      by apply (proj2 (compiled_tier_facts r sched t (proj1 Hok) Hfrom Hin) i y Hy). }
    rewrite Ho in Hall, Hsorted. apply elem_of_app in Hall as [Hall|[->|Hall]%elem_of_cons]; [|simpl; lia|].
    + rewrite Forall_forall in Hno. by destruct (Hno x Hall).
    + apply sorted_app_tail, StronglySorted_inv in Hsorted as [_ Hle].
      rewrite Forall_forall in Hle. by apply Hle.
  - destruct Hfirst as [_ Hno]. rewrite Forall_forall in Hno. auto.
Qed.
End Closure.

(** Pools fresh from [pool_try_new] are ready. *)
Lemma built_pool_ready endpoint entries pool st :
  Forall input_typed entries -> built_from endpoint entries pool st -> Forall entry_ok entries -> pool_ready pool st.
Proof.
  intros Ht Hb Hok. pose proof (built_credentials _ _ _ _ Hb) as Hcreds.
  assert (Forall (fun x => 0 < weight x) (credentials pool)) as Hw.
  { rewrite Hcreds, Forall_fmap, sort_by_perm. eapply Forall_impl; [exact Hok|]. intros e (_ & _ & _ & ? & _). done. }
  assert (forall tier, tier ∈ priority_tiers pool -> forall i,
    i ∈ slot_indexes tier <-> i ∈ tier_indexes (priority <$> credentials pool) (tier_priority tier)) as Hsame.
  { intros tier Hin i. pose proof (built_cycles _ _ _ _ Hb) as Hc. rewrite Forall_forall in Hc.
    destruct (Hc tier Hin) as (_ & Hsub & Hcount). split; [apply Hsub|]. intros Hi.
    destruct (tier_indexes_facts (priority <$> credentials pool) (tier_priority tier)) as [_ Hr].
    rewrite Forall_forall in Hr. specialize (Hr i Hi). rewrite length_fmap in Hr.
    destruct (lookup_lt_is_Some_2 _ _ Hr) as [x Hx]. apply list_elem_of_lookup in Hi as [k Hk].
    destruct (Hcount k i (weight x) Hk) as [Hn _].
    { unfold tier_weights. rewrite list_lookup_fmap, Hk. simpl. by rewrite Hx. }
    rewrite Forall_lookup in Hw. specialize (Hw i x Hx). apply list_elem_of_In, (count_occ_In Nat.eq_dec). lia. }
  split; [split|].
  - rewrite (built_state _ _ _ _ Hb). simpl. by rewrite length_replicate.
  - rewrite (built_state _ _ _ _ Hb). simpl. by rewrite length_replicate.
  - apply Forall_forall. intros tier Hin. apply Forall_forall. intros i Hi%Hsame; [|done].
    destruct (tier_indexes_facts (priority <$> credentials pool) (tier_priority tier)) as [_ Hr].
    rewrite Forall_forall in Hr. specialize (Hr i Hi). by rewrite length_fmap in Hr.
  - intros i Hi. destruct (lookup_lt_is_Some_2 _ _ Hi) as [x Hx].
    assert (priority x ∈ (tier_priority <$> priority_tiers pool)) as Hp
      by (apply (built_cover _ _ _ _ Hb); exists x; split; [by eapply list_elem_of_lookup_2|done]).
    apply list_elem_of_fmap in Hp as (tier & Hp & Hin). exists tier. split; [done|]. apply Hsame; [done|].
    unfold tier_indexes. apply list_elem_of_filter. rewrite list_lookup_fmap, Hx. simpl. split; [by rewrite Hp|].
    apply elem_of_seq. rewrite length_fmap. lia.
Qed.

(** ** Properties *)

Section Properties.
Context `{!ShardHash RuntimeHealthKey, !ShardHash Quota.RuntimeQuotaTarget}.

(** What [observed_at_ms], the caller's predicate and the registries ask of a
    credential of candidate [c]. *)
Definition ordinary_slot_ok (v : RuntimeView) (now_ms : Z)
    (fb : SnapshotRouteCandidate -> CredentialId -> bool) (c : SnapshotRouteCandidate) (x : CredentialSlot) : bool :=
  unexpired_at now_ms x
  && (fb c (credential_id x) && binding_healthy v c (credential_id x) && binding_within_quota v c (credential_id x)).

Definition candidate_admitted (v : RuntimeView) (fc : SnapshotRouteCandidate -> bool)
    (c : SnapshotRouteCandidate) : bool := fc c && candidate_healthy v c.

(** The documented conditions, read off the registries.  A health key or quota
    target counts as open only if the clock could be read and the registry
    answered [Available] for it at that instant. *)
Definition key_open (v : RuntimeView) (k : RuntimeHealthKey) : Prop :=
  exists now_ms, view_health_clock v = Some now_ms /\ availability_at (view_health v) k now_ms = Ok AvAvailable.

Definition target_open (v : RuntimeView) (k : Quota.RuntimeQuotaTarget) : Prop :=
  exists now_ms, view_quota_clock v = Some now_ms
    /\ Quota.availability_at (view_quota v) k now_ms = Ok Quota.QAvailable.

Record usable (v : RuntimeView) (now_ms : Z) (fc : SnapshotRouteCandidate -> bool)
    (fb : SnapshotRouteCandidate -> CredentialId -> bool) (c : SnapshotRouteCandidate) (x : CredentialSlot) : Prop := {
  usable_admitted : fc c = true /\ fb c (credential_id x) = true;
  usable_unexpired : forall t, expires_at_ms x = Some t -> now_ms < t;
  usable_endpoint : key_open v (HEndpoint (cand_endpoint_id c));
  usable_binding : key_open v (HEndpointCredential (cand_endpoint_id c) (credential_id x));
  usable_model : key_open v (HEndpointCredentialModel (cand_endpoint_id c) (credential_id x) (upstream_model c));
  usable_quota : target_open v (Quota.EndpointCredential (cand_endpoint_id c) (credential_id x));
  usable_model_quota : upstream_model c <> ""
    /\ target_open v (Quota.EndpointCredentialModel (cand_endpoint_id c) (credential_id x) (upstream_model c));
}.

(** Slot [i] of the candidate's Endpoint holds [x] and is below its limit. *)
Definition has_free_slot (pools : Pools) (counts : gmap EndpointId (list Z)) (e : EndpointId) (i : nat)
    (x : CredentialSlot) : Prop :=
  exists pool active n, pools !! e = Some pool /\ counts !! e = Some active
    /\ credentials pool !! i = Some x /\ active !! i = Some n /\ n < maximum_concurrency x.

Definition can_serve (pools : Pools) (st : SchedulerState) (v : RuntimeView) (now_ms : Z)
    (fc : SnapshotRouteCandidate -> bool) (fb : SnapshotRouteCandidate -> CredentialId -> bool)
    (c : SnapshotRouteCandidate) : Prop :=
  exists i x, usable v now_ms fc fb c x
    /\ has_free_slot pools (lease_counts (pool_states st)) (cand_endpoint_id c) i x.

Lemma key_open_iff v k :
  is_ok_and av_is_available (availability (view_health v) k (view_health_clock v)) = true <-> key_open v k.
Proof.
  unfold key_open, availability. destruct (view_health_clock v) as [now|]; simpl.
  - split; [|by intros (? & [= <-] & ->)]. intros H. exists now. split; [done|].
    by destruct (availability_at _ _ _) as [[]| |].
  - split; [done|]. by intros (? & ? & _).
Qed.

Lemma target_open_iff v k :
  is_ok_and Quota.qav_is_available (Quota.availability (view_quota v) k (view_quota_clock v)) = true <-> target_open v k.
Proof.
  unfold target_open, Quota.availability. destruct (view_quota_clock v) as [now|]; simpl.
  - split; [|by intros (? & [= <-] & ->)]. intros H. exists now. split; [done|].
    by destruct (Quota.availability_at _ _ _) as [[]| |].
  - split; [done|]. by intros (? & ? & _).
Qed.

Lemma unexpired_at_iff now_ms x :
  unexpired_at now_ms x = true <-> forall t, expires_at_ms x = Some t -> now_ms < t.
Proof.
  unfold unexpired_at. destruct (expires_at_ms x) as [t|]; [|by split].
  rewrite Z.ltb_lt. split; [by intros H ? [= <-]|]. intros H. by apply H.
Qed.

Lemma usable_iff v now_ms fc fb c x :
  candidate_admitted v fc c = true /\ ordinary_slot_ok v now_ms fb c x = true <-> usable v now_ms fc fb c x.
Proof.
  unfold candidate_admitted, candidate_healthy, ordinary_slot_ok, binding_healthy, binding_within_quota,
    endpoint_is_available, endpoint_credential_is_available, endpoint_credential_model_is_available,
    Quota.endpoint_credential_is_available, Quota.endpoint_credential_model_is_available,
    Quota.endpoint_credential_model.
  rewrite !andb_true_iff, unexpired_at_iff, !key_open_iff, target_open_iff.
  case_bool_decide as Hm; simpl; [|rewrite target_open_iff].
  - split; [naive_solver|]. intros []. naive_solver.
  - split; [intros; split; naive_solver|]. intros []. naive_solver.
Qed.

Lemma leasable_iff pools v now_ms fc fb st c :
  leasable pools (lease_counts (pool_states st)) (candidate_admitted v fc) (ordinary_slot_ok v now_ms fb) c
  <-> can_serve pools st v now_ms fc fb c.
Proof.
  unfold leasable, can_serve, free_credential, has_free_slot, can_lease. setoid_rewrite <- usable_iff. naive_solver.
Qed.

(** C5: Whatever the cursors, registries and clocks are, a selection never
    panics, and one that is returned names a candidate of the requested route
    that the caller admits, together with a lease on a credential of that very
    Endpoint that is unexpired and admitted by the caller; the health registry
    answers Available for the Endpoint, for the binding and for the binding with
    the candidate's model, the quota registry for the binding and for the
    binding with the model, and the slot was below its concurrency limit;
    exactly that slot's count grows by one.  A failed selection reports only
    [CredentialUnavailable] and leaves every lease count as it was. *)
Theorem selection_is_sound sched rid v now_ms fc fb st :
  match select_eligible_and_lease_with_runtime_health_quota_and_binding_at sched rid v now_ms fc fb st with
  | (Ok sel, st') =>
      let c := sel_candidate sel in let l := sel_lease sel in
      exists r, routes (rs_snapshot sched) !! rid = Some r /\ c ∈ candidates r
        /\ lease_endpoint l = cand_endpoint_id c /\ usable v now_ms fc fb c (lease_credential l)
        /\ has_free_slot (credential_pools sched) (lease_counts (pool_states st)) (lease_endpoint l)
             (lease_index l) (lease_credential l)
        /\ lease_counts (pool_states st') = leased l (lease_counts (pool_states st))
  | (Err e, st') => e = credential_unavailable_error
      /\ lease_counts (pool_states st') = lease_counts (pool_states st)
  | (Panic, _) => False
  end.
Proof.
  destruct sched as [snapshot pools].
  pose proof (select_with_sound pools (candidate_admitted v fc) (ordinary_slot_ok v now_ms fb) snapshot rid st) as H.
  change (select_with _ _ _ st) with (select_eligible_and_lease_with_runtime_health_quota_and_binding_at
    (mkRouteScheduler snapshot pools) rid v now_ms fc fb st) in H.
  destruct (select_eligible_and_lease_with_runtime_health_quota_and_binding_at _ _ _ _ _ _ _) as [[sel|e|] st']; [|done..].
  destruct H as (r & Hr & Hc & [Hcand Hend Hslot Hlease] & Hcount). exists r. split_and!; try done.
  by apply usable_iff.
Qed.

(** C6: On a published snapshot and consistent pools, as long as no cursor is
    within one search of the [usize] wrap-around, a selection never panics, fails
    only when no candidate of the route has a usable credential with a free
    slot, and otherwise returns a candidate of the smallest priority value among
    those that have one: a worse tier is used only when every better one is
    exhausted. *)
Theorem selection_is_complete input snapshot pools rid r sched curs v now_ms fc fb st :
  snapshot_try_new input = Ok snapshot -> routes snapshot !! rid = Some r ->
  route_schedules snapshot !! rid = Some sched -> Forall candidate_typed (candidates r) ->
  route_cursors st !! rid = Some curs -> Forall2 route_cursor_ok (schedule_tiers sched) curs ->
  pools_ready (total_slots sched) pools (pool_states st) ->
  let can := can_serve pools st v now_ms fc fb in
  match (select_eligible_and_lease_with_runtime_health_quota_and_binding_at
           (mkRouteScheduler snapshot pools) rid v now_ms fc fb st).1 with
  | Ok sel => can (sel_candidate sel)
      /\ forall c, c ∈ candidates r -> can c -> cand_priority (sel_candidate sel) <= cand_priority c
  | Err _ => forall c, c ∈ candidates r -> ~ can c
  | Panic => False
  end.
Proof.
  intros Hsnap Hr Hs Ht Hc Hcur Hready can. apply snapshot_try_new_ok in Hsnap. subst can.
  pose proof (select_with_complete pools (candidate_admitted v fc) (ordinary_slot_ok v now_ms fb)
    snapshot rid r sched curs st Hsnap Hr Hs Ht Hc Hcur Hready) as H.
  change (select_with _ _ _ st) with (select_eligible_and_lease_with_runtime_health_quota_and_binding_at
    (mkRouteScheduler snapshot pools) rid v now_ms fc fb st) in H.
  destruct (select_eligible_and_lease_with_runtime_health_quota_and_binding_at _ _ _ _ _ _ _).1 as [sel|e|]; [|..|done].
  - destruct H as [Hsel Hbest]. split; [by apply leasable_iff|]. intros c Hin Hcan%leasable_iff. by apply Hbest.
  - intros c Hin Hcan%leasable_iff. by apply (H c).
Qed.

(** A quota-recovery selection returns only a binding whose quota reset has
    passed and awaits a controlled probe, never one that ordinary traffic could
    use at the same observation; Endpoint, binding and model health and the
    model's own quota are required exactly as for ordinary traffic. *)
Lemma recovery_selects_only_due_bindings sched rid v now_ms fc fb st sel st' :
  select_eligible_and_lease_for_quota_recovery_at sched rid v now_ms fc fb st = (Ok sel, st') ->
  let c := sel_candidate sel in let id := lease_credential_id (sel_lease sel) in
  (exists reset, Quota.availability (view_quota v) (Quota.EndpointCredential (cand_endpoint_id c) id)
                   (view_quota_clock v) = Ok (Quota.QRecoveryRequired reset))
  /\ ~ usable v now_ms fc fb c (lease_credential (sel_lease sel))
  /\ fc c = true /\ fb c id = true
  /\ key_open v (HEndpoint (cand_endpoint_id c)) /\ key_open v (HEndpointCredential (cand_endpoint_id c) id)
  /\ key_open v (HEndpointCredentialModel (cand_endpoint_id c) id (upstream_model c))
  /\ target_open v (Quota.EndpointCredentialModel (cand_endpoint_id c) id (upstream_model c))
  /\ lease_endpoint (sel_lease sel) = cand_endpoint_id c.
Proof.
  intros Hsel c id. subst c id. destruct sched as [snapshot pools].
  pose proof (select_with_sound pools (candidate_admitted v fc)
    (fun c x => unexpired_at now_ms x
       && (fb c (credential_id x) && binding_healthy v c (credential_id x) && binding_recovery_due v c (credential_id x)))
    snapshot rid st) as H.
  change (select_with _ _ _ st) with
    (select_eligible_and_lease_for_quota_recovery_at (mkRouteScheduler snapshot pools) rid v now_ms fc fb st) in H.
  rewrite Hsel in H. destruct H as (r & _ & _ & [Hcand Hend Hslot _] & _).
  fold (lease_credential_id (sel_lease sel)) in *.
  unfold candidate_admitted, candidate_healthy, binding_recovery_due, binding_healthy, endpoint_is_available,
    endpoint_credential_is_available, endpoint_credential_model_is_available,
    Quota.endpoint_credential_model_is_available, Quota.endpoint_credential_model in *.
  rewrite !andb_true_iff, !key_open_iff in *. destruct Hslot as (_ & (Hfb & Hk1 & Hk2) & Hdue & Hm).
  case_bool_decide; simpl in Hm; [done|]. rewrite target_open_iff in Hm.
  unfold binding_quota_is_recovery_due in Hdue.
  destruct (Quota.availability _ _ _) as [[]| |] eqn:Hav; try done.
  assert (~ target_open v (Quota.EndpointCredential (cand_endpoint_id (sel_candidate sel))
    (lease_credential_id (sel_lease sel)))) as Hclosed by (rewrite <- target_open_iff, Hav; done).
  destruct Hcand. split_and!; try done; [by eexists|]. intros [_ _ _ _ _ Hq _]. by apply Hclosed.
Qed.

(** Once a credential is blocked, either by its account state (forbidden,
    unauthorized, under recovery) or by an exhausted quota of its binding, no
    ordinary selection on any route returns a lease on it for that Endpoint,
    whatever runtime operations follow and whatever the clocks read, until the
    block is lifted by an Allowed recovery of that account, respectively by a
    snapshot of that binding without an exhausted window. *)
Lemma blocked_binding_is_not_selected e id hreg hops qreg qops hclk qclk sched rid now_ms fc fb st sel st' :
  registry_wf hreg -> counters_ok (counters hreg) ->
  registry_wf qreg -> Quota.counter_ok (counters qreg) ->
  account_blocked (view hreg (HEndpointCredential e id)) = true
    /\ forallb (fun op => negb (releases_account (HEndpointCredential e id) op)) hops = true
  \/ Quota.blocked (view qreg (Quota.EndpointCredential e id)) = true
    /\ forallb (fun op => negb (Quota.unblocks (Quota.EndpointCredential e id) op)) qops = true ->
  select_eligible_and_lease_with_runtime_health_quota_and_binding_at sched rid
    (mkView (run_all exec hops hreg) hclk (run_all Quota.exec qops qreg) qclk) now_ms fc fb st = (Ok sel, st') ->
  ~ (lease_endpoint (sel_lease sel) = e /\ lease_credential_id (sel_lease sel) = id).
Proof.
  intros Hh Hhc Hq Hqc Hblocked Hsel [<- <-]. destruct sched as [snapshot pools].
  set (v := mkView _ _ _ _) in Hsel.
  pose proof (select_with_sound pools (candidate_admitted v fc) (ordinary_slot_ok v now_ms fb) snapshot rid st) as H.
  change (select_with _ _ _ st) with (select_eligible_and_lease_with_runtime_health_quota_and_binding_at
    (mkRouteScheduler snapshot pools) rid v now_ms fc fb st) in H.
  rewrite Hsel in H. destruct H as (r & _ & _ & [_ Hend Hslot _] & _).
  unfold ordinary_slot_ok, binding_healthy, binding_within_quota in Hslot. bool_simp.
  fold (lease_credential_id (sel_lease sel)) in *. rewrite <- Hend in *.
  destruct Hblocked as [[Hb Hops]|[Hb Hops]].
  - unfold endpoint_credential_is_available, availability in *. simpl in *.
    destruct hclk as [now|]; [|done]. simpl in *.
    rewrite account_block_kept in * by done. done.
  - unfold Quota.endpoint_credential_is_available, Quota.availability in *. simpl in *.
    destruct qclk as [now|]; [|done]. simpl in *.
    rewrite Quota.blocked_unavailable in * by done. done.
Qed.
End Properties.

(** ** Witnesses *)

Section Witnesses.
#[local] Existing Instance ex_hash.
#[local] Existing Instance Quota.ex_qhash.

Definition ex_pools : Pools := {[ mkId "endpoint-a" := ex_pool ]}.
Definition ex_scheduler : RouteCredentialScheduler := mkRouteScheduler (ex_snapshot "v1") ex_pools.
Definition ex_state : SchedulerState :=
  mkSchedulerState {[ mkId "route-a" := [0] ]} {[ mkId "endpoint-a" := ex_pool_state ]}.
Definition ex_view : RuntimeView := mkView ex_registry (Some 5) Quota.ex_registry (Some 5).

Definition ex_limit_a : list Quota.QuotaOp :=
  [Quota.OpRateLimited (Quota.EndpointCredential (mkId "endpoint-a") (mkId "a")) 1 (Some 1000000000) 5000000 (Some 1)].
Definition ex_due_view : RuntimeView :=
  mkView ex_registry (Some 5000) (run_all Quota.exec ex_limit_a Quota.ex_registry) (Some 5000).

Definition ex_forbid_b : list HealthOp := [OpForbidden (mkId "endpoint-a") (mkId "b") (Some 5)].

Lemma ex_pools_ready : pools_ready (total_slots ex_schedule) ex_pools (pool_states ex_state).
Proof.
  intros e pool He. unfold ex_pools in He. apply lookup_singleton_Some in He as [<- <-]. exists ex_pool_state. split; [apply lookup_singleton_eq|].
  split; [split; [exact ex_pool_wf|]|].
  - intros i Hi. simpl in Hi. destruct i as [|[|[|i]]]; [| | |lia].
    + exists (mkTier 0 [1; 0; 1]%nat). split; [left|right; left].
    + exists (mkTier 0 [1; 0; 1]%nat). split; left.
    + exists (mkTier 5 [2]%nat). split; [right; left|left].
  - simpl. rewrite !Forall2_cons. split_and!; try apply Forall2_nil; try done; split; vm_compute; congruence.
Qed.

Lemma selection_is_complete_witness :
  is_ok_and (fun _ => true) (select_eligible_and_lease_with_runtime_health_quota_and_binding_at
    ex_scheduler (mkId "route-a") ex_view 5 (fun _ => true) (fun _ _ => true) ex_state).1 = true
  /\ exists c, can_serve ex_pools ex_state ex_view 5 (fun _ => true) (fun _ _ => true) c.
Proof.
  assert (is_ok_and (fun _ => true) (select_eligible_and_lease_with_runtime_health_quota_and_binding_at
    ex_scheduler (mkId "route-a") ex_view 5 (fun _ => true) (fun _ _ => true) ex_state).1 = true) as Hok
    by (vm_compute; reflexivity).
  split; [exact Hok|].
  pose proof (selection_is_complete (ex_input "v1") (ex_snapshot "v1") ex_pools (mkId "route-a") ex_route ex_schedule
    [0] ex_view 5 (fun _ => true) (fun _ _ => true) ex_state ex_snapshot_built (proj1 ex_route_found)
    (proj2 ex_route_found) ex_route_typed) as H.
  specialize (H (lookup_singleton_eq _ _)).
  assert (Forall2 route_cursor_ok (schedule_tiers ex_schedule) [0]) as Hcur
    by (constructor; [split; vm_compute; congruence|constructor]).
  specialize (H Hcur ex_pools_ready).
  unfold ex_scheduler in Hok.
  destruct (select_eligible_and_lease_with_runtime_health_quota_and_binding_at _ _ _ _ _ _ _) as [[sel|e|] st'];
    cbn [fst is_ok_and] in *; [|discriminate Hok|discriminate Hok].
  exists (sel_candidate sel). exact (proj1 H).
Defined.

Lemma recovery_selects_only_due_bindings_witness :
  exists sel st', select_eligible_and_lease_for_quota_recovery_at ex_scheduler (mkId "route-a") ex_due_view 5000
      (fun _ => true) (fun _ _ => true) ex_state = (Ok sel, st')
    /\ ~ usable ex_due_view 5000 (fun _ => true) (fun _ _ => true) (sel_candidate sel) (lease_credential (sel_lease sel)).
Proof.
  assert (is_ok_and (fun _ => true) (select_eligible_and_lease_for_quota_recovery_at
    ex_scheduler (mkId "route-a") ex_due_view 5000 (fun _ => true) (fun _ _ => true) ex_state).1 = true) as Hok
    by (vm_compute; reflexivity).
  destruct (select_eligible_and_lease_for_quota_recovery_at ex_scheduler (mkId "route-a") ex_due_view 5000
    (fun _ => true) (fun _ _ => true) ex_state) as [[sel|e|] st'] eqn:Hsel;
    cbn [fst is_ok_and] in Hok; [|discriminate Hok|discriminate Hok].
  exists sel, st'. split; [reflexivity|].
  destruct (recovery_selects_only_due_bindings ex_scheduler (mkId "route-a") ex_due_view 5000 (fun _ => true)
    (fun _ _ => true) ex_state sel st' Hsel) as (_ & H & _). exact H.
Defined.

Lemma blocked_binding_is_not_selected_witness :
  exists sel st', select_eligible_and_lease_with_runtime_health_quota_and_binding_at ex_scheduler (mkId "route-a")
      (mkView (run_all exec [OpMarkHealthy (HEndpointCredential (mkId "endpoint-a") (mkId "b"))]
                 (run_all exec ex_forbid_b ex_registry)) (Some 9)
         (run_all Quota.exec [] Quota.ex_registry) (Some 9)) 9 (fun _ => true) (fun _ _ => true) ex_state = (Ok sel, st')
    /\ ~ (lease_endpoint (sel_lease sel) = mkId "endpoint-a" /\ lease_credential_id (sel_lease sel) = mkId "b").
Proof.
  destruct (select_eligible_and_lease_with_runtime_health_quota_and_binding_at ex_scheduler (mkId "route-a")
      (mkView (run_all exec [OpMarkHealthy (HEndpointCredential (mkId "endpoint-a") (mkId "b"))]
                 (run_all exec ex_forbid_b ex_registry)) (Some 9)
         (run_all Quota.exec [] Quota.ex_registry) (Some 9)) 9 (fun _ => true) (fun _ _ => true) ex_state)
    as [[sel|e|] st'] eqn:Hsel.
  2,3: exfalso; apply (f_equal (fun x => is_ok_and (fun _ => true) x.1)) in Hsel; cbn [fst is_ok_and] in Hsel;
    vm_compute in Hsel; discriminate Hsel.
  exists sel, st'. split; [reflexivity|].
  apply (blocked_binding_is_not_selected (mkId "endpoint-a") (mkId "b") (run_all exec ex_forbid_b ex_registry)
    [OpMarkHealthy (HEndpointCredential (mkId "endpoint-a") (mkId "b"))] Quota.ex_registry [] (Some 9) (Some 9)
    ex_scheduler (mkId "route-a") 9 (fun _ => true) (fun _ _ => true) ex_state sel st').
  - apply (ex_registry_ok ex_forbid_b).
  - apply (ex_registry_ok ex_forbid_b).
  - apply (Quota.ex_qregistry_ok []).
  - apply (Quota.ex_qregistry_ok []).
  - left. split; vm_compute; reflexivity.
  - exact Hsel.
Defined.
End Witnesses.
