(* ===== verification/PoolCompiler.v ===== *)
(** * The credential-pool compiler

    Models [crates/gateway-control/src/credential_pool_compiler.rs]: the bridge
    from a stored configuration to the Endpoint-local credential pools the
    scheduler leases from.  Every live binding is decrypted with the associated
    data of its own row; Endpoints with a provider-owned account pool are left out.

    A pool's atomics start at zero, so the compiler returns the pools together
    with their initial states, as [CredentialPool] does. *)

From S2P Require Import Prelude Text Octets Core WeightedSchedule CredentialPool CredentialScheduler SecretStore ControlPlane EgressPolicy RouteCompiler PublisherProperties ControlPlaneService.
Local Open Scope string_scope.
Local Open Scope list_scope.
Local Open Scope Z_scope.

Module PoolCompile.
Import Secrets Provisioning.

Inductive CredentialPoolCompileError : Type :=
| DuplicateUpstream
| DuplicateEndpoint
| DuplicateCredential
| DuplicateBinding
| MissingBindingEndpoint
| MissingBindingCredential
| MissingEndpointUpstream
| MissingCredentialUpstream
| BindingUpstreamMismatch
| AssociatedData (e : ControlPlaneServiceError)
| SecretFailure (e : SecretStoreError)
| Pool (e : CredentialPoolBuildError).

Abbreviation PoolM A := (result CredentialPoolCompileError A).

(** ** Indexes *)

Definition index_upstream (m : gmap UpstreamId UpstreamConfiguration) (u : UpstreamConfiguration)
  : PoolM (gmap UpstreamId UpstreamConfiguration) :=
  if bool_decide (is_Some (m !! up_id u)) then Err DuplicateUpstream else Ok (<[up_id u := u]> m).

Definition index_upstreams (upstreams : list UpstreamConfiguration) : PoolM (gmap UpstreamId UpstreamConfiguration) :=
  try_fold index_upstream upstreams ∅.

Definition index_endpoint (upstreams : gmap UpstreamId UpstreamConfiguration)
    (m : gmap EndpointId EndpointConfiguration) (e : EndpointConfiguration) : PoolM (gmap EndpointId EndpointConfiguration) :=
  if negb (bool_decide (is_Some (upstreams !! en_upstream_id e))) then Err MissingEndpointUpstream
  else if bool_decide (is_Some (m !! en_id e)) then Err DuplicateEndpoint else Ok (<[en_id e := e]> m).

Definition index_endpoints (endpoints : list EndpointConfiguration) (upstreams : gmap UpstreamId UpstreamConfiguration)
  : PoolM (gmap EndpointId EndpointConfiguration) :=
  try_fold (index_endpoint upstreams) endpoints ∅.

Definition index_credential (upstreams : gmap UpstreamId UpstreamConfiguration)
    (m : gmap CredentialId CredentialConfiguration) (c : CredentialConfiguration)
  : PoolM (gmap CredentialId CredentialConfiguration) :=
  if negb (bool_decide (is_Some (upstreams !! cr_upstream_id c))) then Err MissingCredentialUpstream
  else if bool_decide (is_Some (m !! cr_id c)) then Err DuplicateCredential else Ok (<[cr_id c := c]> m).

Definition index_credentials (credentials : list CredentialConfiguration) (upstreams : gmap UpstreamId UpstreamConfiguration)
  : PoolM (gmap CredentialId CredentialConfiguration) :=
  try_fold (index_credential upstreams) credentials ∅.

Definition validate_binding_ownership (binding : EndpointCredentialBindingConfiguration)
    (endpoint : EndpointConfiguration) (credential : CredentialConfiguration) : PoolM unit :=
  if negb (bool_decide (bn_upstream_id binding = en_upstream_id endpoint))
     || negb (bool_decide (bn_upstream_id binding = cr_upstream_id credential))
  then Err BindingUpstreamMismatch else Ok tt.

(** ** Bindings *)

Section Compiler.
Context `{Aead} (ring : MasterKeyRing).

(** Decrypt a credential for one binding. *)
Definition pool_input (version : ConfigVersionId) (binding : EndpointCredentialBindingConfiguration)
    (credential : CredentialConfiguration) : PoolM EndpointCredentialInput :=
  let? associated_data := map_err AssociatedData
                            (credential_associated_data version (cr_id credential) (cr_upstream_id credential)) in
  let? plaintext := map_err SecretFailure (open ring (cr_encrypted_secret credential) associated_data) in
  let? secret := map_err Pool (secret_try_new plaintext) in
  Ok (mkInput (cr_id credential) (cr_kind credential) (cr_revision credential) (bn_priority binding) (bn_weight binding)
        (bn_concurrency binding) None secret).

Abbreviation LoopState :=
  (gmap EndpointId (list EndpointCredentialInput) * gset (EndpointId * CredentialId))%type.

Definition binding_pair (b : EndpointCredentialBindingConfiguration) : EndpointId * CredentialId :=
  (bn_endpoint_id b, bn_credential_id b).

(** One turn of the loop over the bindings. *)
Definition add_binding (version : ConfigVersionId) (excluded_endpoints : gset EndpointId)
    (upstreams : gmap UpstreamId UpstreamConfiguration) (endpoints : gmap EndpointId EndpointConfiguration)
    (credentials : gmap CredentialId CredentialConfiguration) (st : LoopState)
    (binding : EndpointCredentialBindingConfiguration) : PoolM LoopState :=
  let? endpoint := ok_or MissingBindingEndpoint (endpoints !! bn_endpoint_id binding) in
  let? credential := ok_or MissingBindingCredential (credentials !! bn_credential_id binding) in
  let? endpoint_upstream := ok_or MissingEndpointUpstream (upstreams !! en_upstream_id endpoint) in
  let? credential_upstream := ok_or MissingCredentialUpstream (upstreams !! cr_upstream_id credential) in
  if bool_decide (binding_pair binding ∈ st.2) then Err DuplicateBinding
  else
    let pairs := {[ binding_pair binding ]} ∪ st.2 in
    let? _ := validate_binding_ownership binding endpoint credential in
    if bool_decide (bn_endpoint_id binding ∈ excluded_endpoints) then Ok (st.1, pairs)
    else if negb (up_enabled endpoint_upstream) || negb (up_enabled credential_upstream) || negb (en_enabled endpoint)
            || negb (bn_enabled binding) || negb (bool_decide (cr_status credential = CredentialActive))
    then Ok (st.1, pairs)
    else
      let? input := pool_input version binding credential in
      Ok (push_entry (en_id endpoint) input st.1, pairs).

(** [into_iter().map(..).collect::<Result<Vec<_>, _>>()], in key order. *)
Definition add_pool (pools : list (EndpointCredentialPool * PoolState))
    (entry : EndpointId * list EndpointCredentialInput) : PoolM (list (EndpointCredentialPool * PoolState)) :=
  let? pool := map_err Pool (pool_try_new entry.1 entry.2) in Ok (pools ++ [pool]).

Definition id_entries {k A} (m : gmap (Id k) A) : list (Id k * A) := sort_by (fun a b => id_leb a.1 b.1) (map_to_list m).

Definition compile_excluding_endpoints (configuration : ControlPlaneConfiguration) (excluded_endpoints : gset EndpointId)
  : PoolM (Pools * gmap EndpointId PoolState) :=
  let? upstreams := index_upstreams (cf_upstreams configuration) in
  let? endpoints := index_endpoints (cf_endpoints configuration) upstreams in
  let? credentials := index_credentials (cf_credentials configuration) upstreams in
  let? inputs := try_fold (add_binding (cv_id (cf_version configuration)) excluded_endpoints upstreams endpoints credentials)
                   (cf_bindings configuration) (∅, ∅) in
  let? pools := try_fold add_pool (id_entries inputs.1) [] in
  let? indexed := map_err Pool (pools_try_new (fst <$> pools) ∅) in
  Ok (indexed, list_to_map ((fun p => (pool_endpoint_id p.1, p.2)) <$> pools)).

Definition compile (configuration : ControlPlaneConfiguration) : PoolM (Pools * gmap EndpointId PoolState) :=
  compile_excluding_endpoints configuration ∅.

(** ** What the compiler accepts and returns *)

Section Specification.
Context (cf : ControlPlaneConfiguration) (excluded : gset EndpointId).

(** The binding, its Endpoint, Upstream and credential are all switched on, and
    the Endpoint is not left to a provider-owned pool. *)
Definition binding_live (b : EndpointCredentialBindingConfiguration) : Prop :=
  (bn_endpoint_id b ∉ excluded) /\ bn_enabled b = true
  /\ Exists (fun e => en_id e = bn_endpoint_id b /\ en_enabled e = true) (cf_endpoints cf)
  /\ Exists (fun u => up_id u = bn_upstream_id b /\ up_enabled u = true) (cf_upstreams cf)
  /\ Exists (fun c => cr_id c = bn_credential_id b /\ cr_status c = CredentialActive) (cf_credentials cf).

#[export] Instance binding_live_dec b : Decision (binding_live b).
Proof. unfold binding_live. apply _. Defined.

(** The secret of a credential, opened under the associated data of its own row and
    not empty. *)
Definition row_secret (c : CredentialConfiguration) : option (list Byte.byte) :=
  match credential_associated_data (cv_id (cf_version cf)) (cr_id c) (cr_upstream_id c) with
  | Ok aad => match open ring (cr_encrypted_secret c) aad with
              | Ok (x :: rest) => Some (x :: rest)
              | _ => None
              end
  | _ => None
  end.

(** The input of a live binding: identity, kind, revision and secret of its
    credential's row; priority, weight and concurrency of its own; no expiry. *)
Definition live_input (b : EndpointCredentialBindingConfiguration) : option EndpointCredentialInput :=
  if decide (binding_live b)
  then c ← by_key cr_id (cf_credentials cf) !! bn_credential_id b;
       secret ← row_secret c;
       Some {| in_credential_id := cr_id c; in_credential_kind := cr_kind c; in_credential_revision := cr_revision c;
               in_priority := bn_priority b; in_weight := bn_weight b; in_concurrency := bn_concurrency b;
               in_expires_at_ms := None; in_secret := mkSecret secret |}
  else None.

Lemma pool_input_row b c :
  to_option (pool_input (cv_id (cf_version cf)) b c)
  = secret ← row_secret c;
    Some (mkInput (cr_id c) (cr_kind c) (cr_revision c) (bn_priority b) (bn_weight b) (bn_concurrency b) None (mkSecret secret)).
Proof.
  unfold pool_input, row_secret. destruct (credential_associated_data _ _ _) as [aad| |]; simpl; [|done..].
  by destruct (open _ _ _) as [[]| |].
Qed.

Definition inputs_of (bindings : list EndpointCredentialBindingConfiguration) (i : EndpointId) : list EndpointCredentialInput :=
  omap live_input (filter (fun b => bn_endpoint_id b = i) bindings).

Definition gather (bindings : list EndpointCredentialBindingConfiguration) : gmap EndpointId (list EndpointCredentialInput) :=
  fold_left (fun m b => match live_input b with Some x => push_entry (bn_endpoint_id b) x m | None => m end) bindings ∅.

(** The rows form a graph and every live credential can be decrypted. *)
Record rows_sound : Prop := {
  rs_upstreams : NoDup (up_id <$> cf_upstreams cf);
  rs_endpoints : Forall (fun e => en_upstream_id e ∈ up_id <$> cf_upstreams cf) (cf_endpoints cf);
  rs_endpoint_ids : NoDup (en_id <$> cf_endpoints cf);
  rs_credentials : Forall (fun c => cr_upstream_id c ∈ up_id <$> cf_upstreams cf) (cf_credentials cf);
  rs_credential_ids : NoDup (cr_id <$> cf_credentials cf);
  rs_bindings : Forall (binding_sound (cf_endpoints cf) (cf_credentials cf)) (cf_bindings cf);
  rs_pairs : NoDup (binding_pair <$> cf_bindings cf);
  rs_secrets : Forall (fun b => binding_live b -> is_Some (live_input b)) (cf_bindings cf);
}.

Definition poolable : Prop :=
  rows_sound /\ forall i, inputs_of (cf_bindings cf) i <> [] -> inputs_ok (inputs_of (cf_bindings cf) i).

(** Exactly the live bindings, each Endpoint's in a pool of its own. *)
Definition pooled_as (r : Pools * gmap EndpointId PoolState) : Prop :=
  forall i, match inputs_of (cf_bindings cf) i with
            | [] => r.1 !! i = None /\ r.2 !! i = None
            | inputs => exists pool st, r.1 !! i = Some pool /\ r.2 !! i = Some st /\ built_from i inputs pool st
            end.

(** Columns are [i64]. *)
Definition rows_typed : Prop :=
  Forall (fun c => i64_ok (cr_revision c)) (cf_credentials cf)
  /\ Forall (fun b => i64_ok (bn_priority b) /\ i64_ok (bn_weight b) /\ i64_ok (bn_concurrency b)) (cf_bindings cf).

(** *** The loops *)

Lemma pool_upstreams_decides :
  decides (index_upstreams (cf_upstreams cf)) (NoDup (up_id <$> cf_upstreams cf)) (fun m => m = by_key up_id (cf_upstreams cf)).
Proof.
  eapply decides_iff; [|apply each_row_nodup].
  apply (try_fold_decides index_upstream (fun pre x => up_id x ∉ up_id <$> pre) (by_key up_id)).
  intros pre x _ _ _. unfold index_upstream. row_guards.
Qed.

Lemma pool_endpoints_decides :
  decides (index_endpoints (cf_endpoints cf) (by_key up_id (cf_upstreams cf)))
    (Forall (fun e => en_upstream_id e ∈ up_id <$> cf_upstreams cf) (cf_endpoints cf) /\ NoDup (en_id <$> cf_endpoints cf))
    (fun m => m = by_key en_id (cf_endpoints cf)).
Proof.
  eapply decides_iff.
  - apply (try_fold_decides (index_endpoint (by_key up_id (cf_upstreams cf)))
      (fun pre x => (en_upstream_id x ∈ up_id <$> cf_upstreams cf) /\ (en_id x ∉ en_id <$> pre)) (by_key en_id)).
    intros pre x _ _ _. unfold index_endpoint. row_guards.
  - row_conditions.
Qed.

Lemma pool_credentials_decides :
  decides (index_credentials (cf_credentials cf) (by_key up_id (cf_upstreams cf)))
    (Forall (fun c => cr_upstream_id c ∈ up_id <$> cf_upstreams cf) (cf_credentials cf) /\ NoDup (cr_id <$> cf_credentials cf))
    (fun m => m = by_key cr_id (cf_credentials cf)).
Proof.
  eapply decides_iff.
  - apply (try_fold_decides (index_credential (by_key up_id (cf_upstreams cf)))
      (fun pre x => (cr_upstream_id x ∈ up_id <$> cf_upstreams cf) /\ (cr_id x ∉ cr_id <$> pre)) (by_key cr_id)).
    intros pre x _ _ _. unfold index_credential. row_guards.
  - row_conditions.
Qed.

Lemma gather_snoc pre b :
  gather (pre ++ [b]) = match live_input b with Some x => push_entry (bn_endpoint_id b) x (gather pre) | None => gather pre end.
Proof. unfold gather. by rewrite fold_left_app. Qed.

Lemma gather_lookup bindings i :
  gather bindings !! i = match inputs_of bindings i with [] => None | l => Some l end.
Proof.
  unfold inputs_of. induction bindings as [|b bindings IH] using rev_ind; [done|].
  rewrite gather_snoc, filter_app, omap_app. destruct (decide (bn_endpoint_id b = i)) as [Hi|Hi].
  - rewrite filter_cons_True by done. simpl. destruct (live_input b) as [x|]; [|by rewrite app_nil_r].
    unfold push_entry. rewrite Hi, lookup_insert_eq, IH. destruct (omap _ _); done.
  - rewrite filter_cons_False by done. simpl. rewrite app_nil_r.
    destruct (live_input b) as [x|]; [|done]. unfold push_entry. by rewrite lookup_insert_ne.
Qed.

Section Rows.
Context (Hups : NoDup (up_id <$> cf_upstreams cf)).
Context (Heps : Forall (fun e => en_upstream_id e ∈ up_id <$> cf_upstreams cf) (cf_endpoints cf)).
Context (Hepi : NoDup (en_id <$> cf_endpoints cf)).
Context (Hcrs : Forall (fun c => cr_upstream_id c ∈ up_id <$> cf_upstreams cf) (cf_credentials cf)).
Context (Hcri : NoDup (cr_id <$> cf_credentials cf)).

Lemma sound_iff b e c :
  by_key en_id (cf_endpoints cf) !! bn_endpoint_id b = Some e -> by_key cr_id (cf_credentials cf) !! bn_credential_id b = Some c ->
  binding_sound (cf_endpoints cf) (cf_credentials cf) b
  <-> bn_upstream_id b = en_upstream_id e /\ bn_upstream_id b = cr_upstream_id c.
Proof.
  intros He Hc. split.
  - intros (e' & c' & Hei & Hci & Hke & Hkc & H1 & H2).
    assert (by_key en_id (cf_endpoints cf) !! bn_endpoint_id b = Some e') by by apply by_key_Some.
    assert (by_key cr_id (cf_credentials cf) !! bn_credential_id b = Some c') by by apply by_key_Some. by simplify_eq.
  - intros [H1 H2]. apply (by_key_Some en_id _ Hepi) in He as [? ?]. apply (by_key_Some cr_id _ Hcri) in Hc as [? ?].
    by exists e, c.
Qed.

(** An [Exists] over keyed rows is a test of the row. *)
Lemma keyed_exists {A K} `{Countable K} (key : A -> K) (l : list A) k x (P : A -> Prop) :
  NoDup (key <$> l) -> by_key key l !! k = Some x -> Exists (fun y => key y = k /\ P y) l <-> P x.
Proof.
  intros Hnd Hx. rewrite Exists_exists. split.
  - intros (y & Hy & Hk & HP). assert (by_key key l !! k = Some y) by by apply by_key_Some. by simplify_eq.
  - intros HP. apply (by_key_Some key l Hnd) in Hx as [Hin Hk]. by exists x.
Qed.

Lemma live_iff b e c u :
  by_key en_id (cf_endpoints cf) !! bn_endpoint_id b = Some e -> by_key cr_id (cf_credentials cf) !! bn_credential_id b = Some c ->
  by_key up_id (cf_upstreams cf) !! bn_upstream_id b = Some u ->
  binding_live b <-> (bn_endpoint_id b ∉ excluded) /\ bn_enabled b = true /\ en_enabled e = true /\ up_enabled u = true
                     /\ cr_status c = CredentialActive.
Proof.
  intros He Hc Hu. unfold binding_live. rewrite (keyed_exists en_id _ _ e _ Hepi He).
  rewrite (keyed_exists up_id _ _ u _ Hups Hu), (keyed_exists cr_id _ _ c _ Hcri Hc). done.
Qed.

Lemma pool_input_no_panic v b c : pool_input v b c <> Panic.
Proof.
  assert (forall {E F A} (f : E -> F) (r : result E A), r <> Panic -> map_err f r <> Panic) as Hm by by intros E F A f [].
  unfold pool_input. repeat (apply bind_no_panic; [apply Hm|intros]); [| | |done].
  - unfold credential_associated_data. apply try_fold_no_panic. intros s x. unfold add_segment. by case_match.
  - unfold open, validate_associated_data, validate_envelope, key_for_version, decrypt.
    repeat first [apply bind_no_panic; [|intros]|apply ok_or_no_panic|case_match|done].
  - by destruct a0.
Qed.

(** What the loop requires of one row after the rows before it. *)
Definition row_ok (pre : list EndpointCredentialBindingConfiguration) (b : EndpointCredentialBindingConfiguration) : Prop :=
  binding_sound (cf_endpoints cf) (cf_credentials cf) b /\ (binding_pair b ∉ binding_pair <$> pre)
  /\ (binding_live b -> is_Some (live_input b)).

Lemma add_binding_decides pre b :
  decides (add_binding (cv_id (cf_version cf)) excluded (by_key up_id (cf_upstreams cf)) (by_key en_id (cf_endpoints cf))
             (by_key cr_id (cf_credentials cf)) (gather pre, key_set binding_pair pre) b)
    (row_ok pre b) (fun st => st = (gather (pre ++ [b]), key_set binding_pair (pre ++ [b]))).
Proof.
  unfold add_binding, row_ok.
  destruct (by_key en_id (cf_endpoints cf) !! bn_endpoint_id b) as [e|] eqn:He; simpl.
  2:{ intros ((e & c & Hei & _ & Hk & _) & _). apply by_key_None in He. apply He. rewrite <- Hk. by apply list_elem_of_fmap_2. }
  destruct (by_key cr_id (cf_credentials cf) !! bn_credential_id b) as [c|] eqn:Hc; simpl.
  2:{ intros ((e' & c & _ & Hci & _ & Hk & _) & _). apply by_key_None in Hc. apply Hc. rewrite <- Hk. by apply list_elem_of_fmap_2. }
  pose proof (sound_iff b e c He Hc) as Hs.
  assert (is_Some (by_key up_id (cf_upstreams cf) !! en_upstream_id e)) as [u Hu].
  { apply by_key_is_Some. apply (by_key_Some en_id _ Hepi) in He as [He _]. rewrite Forall_forall in Heps. by apply Heps. }
  assert (is_Some (by_key up_id (cf_upstreams cf) !! cr_upstream_id c)) as [u' Hu'].
  { apply by_key_is_Some. apply (by_key_Some cr_id _ Hcri) in Hc as [Hc _]. rewrite Forall_forall in Hcrs. by apply Hcrs. }
  rewrite Hu, Hu'. cbn [ok_or result_bind fst snd].
  case_bool_decide as Hp; [|assert (binding_pair b ∉ binding_pair <$> pre) as Hp' by (by unfold key_set in Hp; rewrite elem_of_list_to_set in Hp)].
  { intros (_ & Hn & _). apply Hn. unfold key_set in Hp. by apply elem_of_list_to_set in Hp. }
  unfold validate_binding_ownership. case_bool_decide as H1; simpl; [|by intros ([? _]%Hs & _)].
  case_bool_decide as H2; simpl; [|by intros ([_ ?]%Hs & _)].
  rewrite <- H1 in Hu. rewrite <- H2, Hu in Hu'. injection Hu' as <-. pose proof (live_iff b e c u He Hc Hu) as Hlive.
  rewrite key_set_snoc. assert (~ binding_live b -> live_input b = None) as Hdead by (intros; unfold live_input; by rewrite decide_False).
  case_bool_decide as Hex; [split; [|rewrite gather_snoc, Hdead by tauto; done]; tauto|].
  destruct (_ || _) eqn:Hoff.
  - assert (~ binding_live b) as Hn.
    { rewrite Hlive. intros (_ & Hb & Hee & Huu & Hcc). rewrite Hb, Hee, Huu in Hoff. simpl in Hoff. bool_simp. done. }
    split; [tauto|]. by rewrite gather_snoc, Hdead.
  - bool_simp. assert (binding_live b) as Hl by (apply Hlive; done).
    assert (live_input b = to_option (pool_input (cv_id (cf_version cf)) b c)) as Hin.
    { unfold live_input. rewrite decide_True by done. rewrite Hc. by rewrite pool_input_row. }
    pose proof (pool_input_no_panic (cv_id (cf_version cf)) b c) as Hnp.
    destruct (pool_input (cv_id (cf_version cf)) b c) as [x|err|]; simpl in *; [|intros (_ & _ & Hsome); by destruct (Hsome Hl); congruence|done].
    split; [split; [by apply Hs|]; split; [done|by rewrite Hin]|]. rewrite gather_snoc, Hin. apply (by_key_Some en_id _ Hepi) in He as [_ ->]. done.
Qed.

Lemma bindings_decide :
  decides (try_fold (add_binding (cv_id (cf_version cf)) excluded (by_key up_id (cf_upstreams cf)) (by_key en_id (cf_endpoints cf))
             (by_key cr_id (cf_credentials cf))) (cf_bindings cf) (∅, ∅))
    (Forall (binding_sound (cf_endpoints cf) (cf_credentials cf)) (cf_bindings cf)
     /\ NoDup (binding_pair <$> cf_bindings cf) /\ Forall (fun b => binding_live b -> is_Some (live_input b)) (cf_bindings cf))
    (fun st => st.1 = gather (cf_bindings cf)).
Proof.
  eapply decides_weaken.
  - apply (try_fold_decides _ row_ok (fun pre => (gather pre, key_set binding_pair pre))).
    intros pre b post _ _. apply add_binding_decides.
  - unfold row_ok. row_conditions.
  - by intros st _ ->.
Qed.
End Rows.

(** *** The pools *)

Lemma live_input_typed b x : rows_typed -> b ∈ cf_bindings cf -> live_input b = Some x -> input_typed x.
Proof.
  intros [Hc Hb] Hin. unfold live_input. case_decide; [|done].
  destruct (by_key cr_id (cf_credentials cf) !! bn_credential_id b) as [c|] eqn:Hk; simpl; [|done].
  assert (c ∈ cf_credentials cf) as Hci.
  { clear -Hk. revert Hk. generalize (bn_credential_id b). induction (cf_credentials cf) as [|y l IH] using rev_ind; intros i; [done|].
    rewrite by_key_snoc, lookup_insert_Some, elem_of_app, list_elem_of_singleton. intros [[_ <-]|[_ ?]]; [by right|left; eauto]. }
  rewrite Forall_forall in Hc. rewrite Forall_forall in Hb. specialize (Hc c Hci). specialize (Hb b Hin) as (Hp & Hw & Hm).
  destruct (row_secret c); simpl; [|done]. intros [= <-]. by split_and!.
Qed.

Lemma inputs_typed i : rows_typed -> Forall input_typed (inputs_of (cf_bindings cf) i).
Proof.
  intros Ht. apply Forall_forall. intros x. unfold inputs_of. rewrite list_elem_of_omap.
  intros (b & [_ Hb]%list_elem_of_filter & Hx). by eapply live_input_typed.
Qed.
End Specification.

(** Building one pool per entry, in the order of the entries. *)
Lemma add_pools_decides {E} (wrap : CredentialPoolBuildError -> E) add (entries : list (EndpointId * list EndpointCredentialInput)) :
  (forall pools e, add pools e = let? pool := map_err wrap (pool_try_new e.1 e.2) in Ok (pools ++ [pool])) ->
  Forall (fun e => Forall input_typed e.2) entries ->
  decides (try_fold add entries []) (Forall (fun e => inputs_ok e.2) entries)
    (fun pools => Forall2 (fun e p => built_from e.1 e.2 p.1 p.2) entries pools).
Proof.
  intros Hadd. assert (forall entries pools, Forall (fun e => Forall input_typed e.2) entries ->
    decides (try_fold add entries pools) (Forall (fun e => inputs_ok e.2) entries)
      (fun r => exists more, r = pools ++ more /\ Forall2 (fun e p => built_from e.1 e.2 p.1 p.2) entries more)) as Hgen.
  { clear entries. induction entries as [|[i l] entries IH]; intros pools Ht; simpl.
    - split; [constructor|]. exists []. split; [by rewrite app_nil_r|constructor].
    - apply Forall_cons in Ht as [Hl Ht]. simpl in Hl. rewrite Hadd. simpl.
      pose proof (pool_try_new_decides i l Hl) as Hd. destruct (pool_try_new i l) as [p|e|]; simpl in *; [|by intros [? _]%Forall_cons|done].
      destruct Hd as [Hok Hb]. specialize (IH (pools ++ [p]) Ht). unfold decides in *.
      destruct (try_fold add entries (pools ++ [p])) as [r|e|]; [|by intros [_ ?]%Forall_cons|done].
      destruct IH as (IH & more & -> & H2). split; [by constructor|]. exists (p :: more). split; [by rewrite <- app_assoc|by constructor]. }
  intros Ht. specialize (Hgen entries [] Ht). unfold decides in *. destruct (try_fold add entries []) as [r|e|]; [|done..].
  destruct Hgen as (? & more & -> & ?). done.
Qed.

Lemma id_entries_spec {k A} (m : gmap (Id k) A) :
  NoDup ((id_entries m).*1) /\ forall i x, (i, x) ∈ id_entries m <-> m !! i = Some x.
Proof.
  unfold id_entries. split; [rewrite sort_by_perm; apply NoDup_fst_map_to_list|].
  intros i x. rewrite sort_by_perm. apply elem_of_map_to_list.
Qed.

(** Pools of distinct Endpoints are indexed without an error. *)
Lemma pools_try_new_distinct pools m :
  NoDup (pool_endpoint_id <$> pools) -> (forall p, p ∈ pools -> m !! pool_endpoint_id p = None) ->
  pools_try_new pools m = Ok (list_to_map ((fun p => (pool_endpoint_id p, p)) <$> pools) ∪ m).
Proof.
  revert m. induction pools as [|p pools IH]; intros m Hnd Hm; simpl; [by rewrite (left_id_L ∅ (∪))|].
  apply NoDup_cons in Hnd as [Hp Hnd]. rewrite Hm by set_solver. rewrite IH; [|done|].
  - f_equal. rewrite <- insert_union_r, insert_union_l; [done|]. apply not_elem_of_list_to_map_1.
    rewrite <- list_fmap_compose. done.
  - intros q Hq. rewrite lookup_insert_ne; [apply Hm; set_solver|]. intros Heq. apply Hp. rewrite Heq. by apply list_elem_of_fmap_2.
Qed.

Lemma built_endpoints entries pools :
  Forall2 (fun e p => built_from e.1 e.2 p.1 p.2) entries pools -> pool_endpoint_id <$> (fst <$> pools) = entries.*1.
Proof. induction 1 as [|e p entries pools Hb _ IH]; [done|]. rewrite !fmap_cons, IH. f_equal. by destruct Hb. Qed.

(** A list with distinct keys, read as a map. *)
Lemma list_to_map_elem {A B} (key : A -> EndpointId) (value : A -> B) l i v :
  NoDup (key <$> l) ->
  (list_to_map ((fun a => (key a, value a)) <$> l) : gmap EndpointId B) !! i = Some v <-> exists a, (a ∈ l) /\ key a = i /\ value a = v.
Proof.
  intros Hnd. rewrite <- elem_of_list_to_map by (rewrite <- list_fmap_compose; done). rewrite list_elem_of_fmap. naive_solver.
Qed.

(** One pool per entry of a map, built from it. *)
Definition pooled_by (inputs : gmap EndpointId (list EndpointCredentialInput)) (r : Pools * gmap EndpointId PoolState) : Prop :=
  forall i, match inputs !! i with
            | None => r.1 !! i = None /\ r.2 !! i = None
            | Some l => exists pool st, r.1 !! i = Some pool /\ r.2 !! i = Some st /\ built_from i l pool st
            end.

Lemma pools_index inputs pools :
  Forall2 (fun e p => built_from e.1 e.2 p.1 p.2) (id_entries inputs) pools ->
  exists indexed, pools_try_new (fst <$> pools) ∅ = Ok indexed
    /\ pooled_by inputs (indexed, list_to_map ((fun p => (pool_endpoint_id p.1, p.2)) <$> pools)).
Proof.
  intros H2. pose proof (built_endpoints _ _ H2) as Hids. destruct (id_entries_spec inputs) as [Hids_nd Hentry].
  assert (NoDup ((fun p : EndpointCredentialPool * PoolState => pool_endpoint_id p.1) <$> pools)) as Hnd.
  { rewrite <- list_fmap_compose in Hids. unfold compose in Hids. by rewrite Hids. }
  rewrite pools_try_new_distinct; [|by rewrite <- list_fmap_compose|done]. eexists. split; [done|].
  intros i. cbn [fst snd]. rewrite (right_id_L ∅ (∪)), <- list_fmap_compose. destruct (inputs !! i) as [l|] eqn:Hi.
  - apply Hentry, list_elem_of_lookup in Hi as [n Hn]. destruct (Forall2_lookup_l _ _ _ _ _ H2 Hn) as (p & Hpn & Hb). simpl in Hb.
    exists p.1, p.2. pose proof (built_endpoint _ _ _ _ Hb) as Hend. apply list_elem_of_lookup_2 in Hpn.
    split_and!; [| |done]; apply list_to_map_elem; try done; by exists p.
  - assert (forall p, p ∈ pools -> pool_endpoint_id p.1 <> i) as Hp.
    { intros p [n Hn]%list_elem_of_lookup Hk. destruct (Forall2_lookup_r _ _ _ _ _ H2 Hn) as ([j l] & Hj & Hb).
      apply built_endpoint in Hb. apply list_elem_of_lookup_2, Hentry in Hj. simpl in Hb. congruence. }
    split; apply eq_None_ne_Some; intros v (p & Hin & Hk & _)%list_to_map_elem; try done; by apply (Hp p).
Qed.

Section Compile.
Context (cf : ControlPlaneConfiguration) (excluded : gset EndpointId).

Lemma gather_entries i inputs :
  (i, inputs) ∈ id_entries (gather cf excluded (cf_bindings cf))
  <-> inputs = inputs_of cf excluded (cf_bindings cf) i /\ inputs <> [].
Proof.
  rewrite (proj2 (id_entries_spec _)), gather_lookup. destruct (inputs_of cf excluded (cf_bindings cf) i) eqn:Hi; naive_solver.
Qed.

Lemma gathered_as r : pooled_by (gather cf excluded (cf_bindings cf)) r -> pooled_as cf excluded r.
Proof.
  intros Hp i. specialize (Hp i). rewrite gather_lookup in Hp. destruct (inputs_of cf excluded (cf_bindings cf) i); exact Hp.
Qed.

Lemma pools_compile_decides :
  rows_typed cf -> decides (compile_excluding_endpoints cf excluded) (poolable cf excluded) (pooled_as cf excluded).
Proof.
  intros Ht. unfold compile_excluding_endpoints. eapply decides_iff.
  - eapply decides_bind; [apply pool_upstreams_decides|]. intros ups Hups ->.
    eapply decides_bind; [apply pool_endpoints_decides|]. intros eps [He1 He2] ->.
    eapply decides_bind; [apply pool_credentials_decides|]. intros creds [Hc1 Hc2] ->.
    eapply decides_bind; [by apply bindings_decide|]. intros st _ Hst. rewrite Hst.
    eapply decides_bind; [apply (add_pools_decides Pool); [done|]|].
    { apply Forall_forall. intros [i l] [-> _]%gather_entries. by apply inputs_typed. }
    intros pools _ H2. destruct (pools_index _ pools H2) as (indexed & -> & Hp). apply decides_ok. by apply gathered_as.
  - unfold poolable. assert (Forall (fun e => inputs_ok e.2) (id_entries (gather cf excluded (cf_bindings cf)))
      <-> forall i, inputs_of cf excluded (cf_bindings cf) i <> [] -> inputs_ok (inputs_of cf excluded (cf_bindings cf) i)) as ->.
    { rewrite Forall_forall. split.
      - intros Hall i Hne. apply (Hall (i, inputs_of cf excluded (cf_bindings cf) i)). by apply gather_entries.
      - intros Hall [i l] [-> Hne]%gather_entries. by apply Hall. }
    split.
    + intros (? & (? & ?) & (? & ?) & (? & ? & ?) & ? & _). split; [by split|done].
    + intros [[] ?]. by split_and!.
Qed.

(** C17: The pool compiler accepts exactly the poolable configurations and never
    panics: identities and binding pairs are unique, references resolve inside one
    Upstream, every live binding's secret opens under the associated data of its
    own row, and the decrypted inputs of each Endpoint form a bounded pool.  Rows
    that are switched off are still checked, but only live bindings enter a pool:
    an Endpoint has a pool exactly when it has a live binding, and the pool is
    built from exactly those, each with the identity, kind, revision and secret of
    its credential's row, the priority, weight and concurrency of the binding's own
    row, and no expiry. *)
Theorem pools_compile_exact :
  rows_typed cf -> decides (compile_excluding_endpoints cf excluded) (poolable cf excluded) (pooled_as cf excluded).
Proof. apply pools_compile_decides. Qed.

(** *** Pools behind compiled routes *)

Lemma built_room k i inputs pool st :
  Z.of_nat k + MAX_SCHEDULE_SLOTS <= usize_modulus -> inputs_ok inputs -> built_from i inputs pool st ->
  Forall2 (cursor_room k) (priority_tiers pool) (cursors st).
Proof.
  intros Hk (_ & _ & _ & Htot) Hb. rewrite (built_state _ _ _ _ Hb). simpl. apply Forall2_replicate_r; [done|].
  pose proof (built_cycles _ _ _ _ Hb) as Hc. eapply Forall_impl; [exact Hc|]. intros tier [Hlen _]. simpl in Hlen.
  specialize (Htot (tier_priority tier)). unfold tier_total in Htot. rewrite <- (built_credentials _ _ _ _ Hb) in Htot.
  cbv zeta in Hlen. unfold cursor_room, flip. split; lia.
Qed.

Lemma compiled_pools_ready pools states k :
  rows_typed cf -> compile_excluding_endpoints cf excluded = Ok (pools, states) ->
  Z.of_nat k + MAX_SCHEDULE_SLOTS <= usize_modulus -> pools_ready k pools states.
Proof.
  intros Ht Hc Hk i pool Hi. pose proof (pools_compile_decides Ht) as Hd. rewrite Hc in Hd. destruct Hd as [[_ Hok] Has].
  specialize (Has i). specialize (Hok i). destruct (inputs_of cf excluded (cf_bindings cf) i) as [|x l] eqn:Hl.
  { destruct Has as [Hn _]. simpl in Hn. congruence. }
  destruct Has as (pool' & st & Hp & Hs & Hb). simpl in Hp, Hs. assert (pool' = pool) as -> by congruence.
  specialize (Hok ltac:(done)). exists st. split; [done|]. split; [|by eapply built_room].
  eapply built_pool_ready; [|exact Hb|apply Hok]. rewrite <- Hl. by apply inputs_typed.
Qed.

(** The route compiler counts the bindings that the pool compiler decrypts. *)
Lemma live_bindings_count e u :
  rows_sound cf excluded -> e ∈ cf_endpoints cf -> u ∈ cf_upstreams cf -> up_id u = en_upstream_id e ->
  en_enabled e = true -> up_enabled u = true -> en_id e ∉ excluded ->
  length (inputs_of cf excluded (cf_bindings cf) (en_id e)) = length (active_bindings cf e).
Proof.
  intros Hr He Hu Hid Hee Hue Hex. unfold inputs_of, active_bindings.
  assert (filter (fun b => bn_endpoint_id b = en_id e /\ binding_live cf excluded b) (cf_bindings cf)
    = filter (fun b => bn_endpoint_id b = en_id e /\ bn_enabled b = true
        /\ Exists (fun c => cr_id c = bn_credential_id b /\ cr_status c = CredentialActive /\ cr_upstream_id c = en_upstream_id e)
             (cf_credentials cf)) (cf_bindings cf)) as <-.
  { apply filter_ext_elem. intros b Hb. assert (forall P Q R : Prop, (P -> Q <-> R) -> P /\ Q <-> P /\ R) as Hand by tauto.
    apply Hand. intros Hbe. clear Hand.
    pose proof (rs_bindings _ _ Hr) as Hs. rewrite Forall_forall in Hs. destruct (Hs b Hb) as (e' & c & He' & Hc & Hke & Hkc & H1 & H2).
    assert (by_key en_id (cf_endpoints cf) !! bn_endpoint_id b = Some e') as Le' by (apply by_key_Some; [apply Hr|done]).
    assert (by_key en_id (cf_endpoints cf) !! bn_endpoint_id b = Some e) as Le by (apply by_key_Some; [apply Hr|done]).
    assert (e' = e) as -> by congruence.
    assert (by_key cr_id (cf_credentials cf) !! bn_credential_id b = Some c) as Lc by (apply by_key_Some; [apply Hr|done]).
    assert (by_key up_id (cf_upstreams cf) !! bn_upstream_id b = Some u) as Lu by (apply by_key_Some; [apply Hr|by rewrite H1]).
    rewrite (live_iff _ _ (rs_upstreams _ _ Hr) (rs_endpoint_ids _ _ Hr) (rs_credential_ids _ _ Hr) b e c u Le Lc Lu).
    rewrite (keyed_exists cr_id _ _ c (fun c => cr_status c = CredentialActive /\ cr_upstream_id c = en_upstream_id e)
      (rs_credential_ids _ _ Hr) Lc). rewrite Hbe, Hee, Hue. rewrite <- H2, H1. tauto. }
  pose proof (rs_secrets _ _ Hr) as Hsec. clear -Hsec. induction (cf_bindings cf) as [|b l IH]; [done|].
  apply Forall_cons in Hsec as [Hb Hsec]. specialize (IH Hsec). rewrite !filter_cons.
  destruct (decide (bn_endpoint_id b = en_id e)) as [Hbe|Hbe]; [|by rewrite decide_False by tauto].
  simpl. destruct (decide (binding_live cf excluded b)) as [Hlive|Hdead].
  - rewrite decide_True by done. destruct (Hb Hlive) as [x Hx]. rewrite Hx. simpl. f_equal. exact IH.
  - rewrite decide_False by tauto. assert (live_input cf excluded b = None) as -> by (unfold live_input; by rewrite decide_False).
    done.
Qed.

(** Routes and pools agree.  When the route compiler and the pool compiler
    accept the same rows, and the Endpoints left out of the pools include the ones
    with provider-owned accounts, every candidate of every compiled route whose
    Endpoint is not left out has a pool: it holds exactly as many credentials as
    the candidate was admitted with, at least one, and all pools start in the state
    the scheduler relies on (schedules complete, cursors far from wrapping). *)
Lemma compiled_candidates_have_pools `{JsonText} compiler co pools states k :
  rows_typed cf ->
  RouteCompiler.compile compiler cf = Ok co -> compile_excluding_endpoints cf excluded = Ok (pools, states) ->
  (forall e u, e ∈ cf_endpoints cf -> u ∈ cf_upstreams cf -> up_id u = en_upstream_id e ->
     is_native_endpoint e u = true -> en_id e ∈ excluded) ->
  Z.of_nat k + MAX_SCHEDULE_SLOTS <= usize_modulus ->
  pools_ready k pools states
  /\ forall rid r cc, co_routes co !! rid = Some r -> cc ∈ cro_candidates r -> cc_endpoint_id cc ∉ excluded ->
       exists pool, pools !! cc_endpoint_id cc = Some pool
         /\ Z.of_nat (length (credentials pool)) = cc_active_binding_count cc /\ credentials pool <> [].
Proof.
  intros Ht Hco Hc Hnative Hk. split; [by eapply compiled_pools_ready|]. intros rid r cc Hr Hcc Hex.
  pose proof (compile_decides compiler cf) as Hd. rewrite Hco in Hd. destruct Hd as [_ Has].
  destruct (as_route _ _ _ Has rid r Hr) as (row & _ & _ & _ & Hrow). destruct Hrow as (_ & _ & _ & _ & _ & _ & _ & _ & Hin).
  apply Hin in Hcc as (c & _ & _ & _ & Hcand).
  destruct Hcand as (r' & p & caps & e & u & ov & profile & adm & _ & _ & _ & [He _] & Hee & [Hu Hid] & Hue & _ & _ & _ & _ & _ & Hn & ->).
  simpl in *. pose proof (pools_compile_decides Ht) as Hp. rewrite Hc in Hp. destruct Hp as [[Hrows _] Hpool].
  assert (is_native_endpoint e u = false) as Hnat.
  { destruct (is_native_endpoint e u) eqn:Hnat; [|done]. destruct Hex. by eapply Hnative. }
  unfold binding_count in *. rewrite Hnat in *. pose proof (live_bindings_count e u Hrows He Hu Hid Hee Hue Hex) as Hlen.
  specialize (Hpool (en_id e)). destruct (inputs_of cf excluded (cf_bindings cf) (en_id e)) as [|x l] eqn:Hl; [simpl in Hlen; lia|].
  destruct Hpool as (pool & st & Hp & _ & Hb). exists pool. split; [done|].
  assert (length (credentials pool) = length (x :: l)) as Hcr.
  { rewrite (built_credentials _ _ _ _ Hb), length_fmap. by rewrite sort_by_perm. }
  split; [lia|]. intros Hnil. rewrite Hnil in Hcr. done.
Qed.
End Compile.
End Compiler.

(** ** Witnesses *)

Section Witnesses.
#[local] Existing Instance ex_json_text.
#[local] Existing Instance ex_aead.

Lemma ex_rows_typed : rows_typed (ex_live "v1").
Proof. split; apply Forall_singleton; vm_compute; repeat split; discriminate. Qed.

Lemma ex_pools_compile : exists pools states, compile_excluding_endpoints ex_old (ex_live "v1") ∅ = Ok (pools, states).
Proof.
  assert (match compile_excluding_endpoints ex_old (ex_live "v1") ∅ with Ok _ => true | _ => false end = true) as H
    by (vm_compute; reflexivity).
  destruct (compile_excluding_endpoints ex_old (ex_live "v1") ∅) as [[pools states]|e|]; [by exists pools, states|discriminate H..].
Qed.

Lemma pools_compile_exact_witness : poolable ex_old (ex_live "v1") ∅.
Proof.
  pose proof (pools_compile_exact ex_old (ex_live "v1") ∅ ex_rows_typed) as H.
  destruct ex_pools_compile as (pools & states & E). rewrite E in H. exact (proj1 H).
Defined.

Lemma compiled_candidates_have_pools_witness :
  match RouteCompiler.compile ex_evidence (ex_live "v1"), compile_excluding_endpoints ex_old (ex_live "v1") ∅ with
  | Ok co, Ok (pools, states) => pools_ready 9 pools states
      /\ exists pool, pools !! mkId "ep" = Some pool /\ credentials pool <> []
  | _, _ => False
  end.
Proof.
  assert (match RouteCompiler.compile ex_evidence (ex_live "v1") with
          | Ok co => match co_routes co !! mkId "route" with
                     | Some r => match cro_candidates r with cc :: _ => cc_endpoint_id cc = mkId "ep" | [] => False end
                     | None => False
                     end
          | _ => False
          end) as Hroute by (vm_compute; reflexivity).
  destruct (RouteCompiler.compile ex_evidence (ex_live "v1")) as [co|e|] eqn:E1; [|destruct Hroute..].
  destruct ex_pools_compile as (pools & states & E2). rewrite E2.
  destruct (compiled_candidates_have_pools ex_old (ex_live "v1") ∅ ex_evidence co pools states 9 ex_rows_typed E1 E2)
    as [Hready Hpools].
  - intros e u He Hu _ Hn. apply list_elem_of_singleton in He, Hu. subst. vm_compute in Hn. discriminate Hn.
  - vm_compute. discriminate.
  - split; [exact Hready|]. destruct (co_routes co !! mkId "route") as [r|] eqn:Hr; [|destruct Hroute].
    destruct (cro_candidates r) as [|cc rest] eqn:Hcc; [destruct Hroute|].
    destruct (Hpools (mkId "route") r cc Hr) as (pool & Hp & _ & Hne); [rewrite Hcc; apply list_elem_of_here|apply not_elem_of_empty|].
    exists pool. rewrite <- Hroute. split; [exact Hp|exact Hne].
Defined.
End Witnesses.
End PoolCompile.
