(* ===== verification/AttemptOrchestrator.v ===== *)
(** * Attempt orchestration

    Models [crates/gateway-router/src/attempt_orchestrator.rs]: the retry budget,
    the classification of failures, the request-local exclusion set, what each
    failure writes to the runtime registries, the controlled quota-recovery probe
    and the retry loop [start_inner] with its Attempt events.

    Everything outside the module is an oracle indexed by a tick that every
    interaction advances: clock readings, the retry gate, the driver's answer and,
    at every tick, an arbitrary change [env_interfere] that concurrent requests may
    make to the shared scheduler, health and quota state.  The driver calls are
    recorded in a trace. *)

From S2P Require Import Prelude Core WeightedSchedule Sharded RuntimeHealth RuntimeQuota CredentialPool Catalog ClientKey ApiFormat RouteSnapshot RouteScheduler CredentialScheduler.
Local Open Scope string_scope.
Local Open Scope list_scope.
Local Open Scope Z_scope.

(** ** Errors *)

Definition egress_unavailable_error : GatewayError := mkError EgressUnavailable ScopeEgress.
Definition provider_rate_limited_error : GatewayError := mkError ProviderRateLimited ScopeProvider.
Definition provider_transient_error : GatewayError := mkError ProviderTransient ScopeProvider.
Definition stream_truncated_error : GatewayError := mkError StreamTruncated ScopeStream.
Definition request_cancelled_error : GatewayError := mkError Cancelled ScopeRequest.
Definition internal_error : GatewayError := mkError InternalError ScopeInternal.

(** ** Configuration *)

Definition DEFAULT_RATE_LIMIT_COOLDOWN : Duration := from_secs 30.
Definition DEFAULT_TRANSIENT_COOLDOWN : Duration := from_secs 5.
Definition QUOTA_RECOVERY_PROBE_GRACE : Duration := from_secs 30.

Inductive AttemptOrchestratorConfigError : Type := ZeroRateLimitCooldown | ZeroTransientCooldown.

Record AttemptOrchestratorConfig : Type := mkConfig {
  rate_limit_fallback_cooldown : Duration;
  transient_cooldown : Duration;
}.

Definition config_try_new (rate_limit transient : Duration)
  : result AttemptOrchestratorConfigError AttemptOrchestratorConfig :=
  if is_zero rate_limit then Err ZeroRateLimitCooldown
  else if is_zero transient then Err ZeroTransientCooldown
  else Ok (mkConfig rate_limit transient).

Definition config_default : AttemptOrchestratorConfig :=
  mkConfig DEFAULT_RATE_LIMIT_COOLDOWN DEFAULT_TRANSIENT_COOLDOWN.

(** ** Failures *)

Inductive AttemptFailure : Type :=
| AFConnection
| AFRateLimited (retry_after : option Duration)
| AFServerError
| AFBootstrapTruncated
| AFCancelled
| AFNonRetryable (e : GatewayError).

Definition is_retryable (f : AttemptFailure) : bool :=
  match f with
  | AFConnection | AFRateLimited _ | AFServerError | AFBootstrapTruncated => true
  | AFCancelled | AFNonRetryable _ => false
  end.

Definition safe_error (f : AttemptFailure) : GatewayError :=
  match f with
  | AFConnection => egress_unavailable_error
  | AFRateLimited _ => provider_rate_limited_error
  | AFServerError => provider_transient_error
  | AFBootstrapTruncated => stream_truncated_error
  | AFCancelled => request_cancelled_error
  | AFNonRetryable e => e
  end.

(** [CooldownScope] has the one variant [Endpoint(duration)]. *)
Definition failure_cooldown (f : AttemptFailure) (config : AttemptOrchestratorConfig) : option Duration :=
  match f with
  | AFConnection | AFServerError | AFBootstrapTruncated => Some (transient_cooldown config)
  | AFRateLimited _ | AFCancelled | AFNonRetryable _ => None
  end.

(** ** Exclusions *)

Abbreviation AttemptExclusionSet := (gset (RouteCandidateId * CredentialId)).

Definition attempt_binding (c : SnapshotRouteCandidate) (id : CredentialId) : RouteCandidateId * CredentialId :=
  (cand_id c, id).
Definition exclusion_insert (c : SnapshotRouteCandidate) (id : CredentialId) (x : AttemptExclusionSet)
  : AttemptExclusionSet := {[ attempt_binding c id ]} ∪ x.
Definition exclusion_contains (x : AttemptExclusionSet) (c : SnapshotRouteCandidate) (id : CredentialId) : bool :=
  bool_decide (attempt_binding c id ∈ x).

(** ** Retry budget *)

Record RetryBudget : Type := mkBudget {
  budget_max_attempts : Z;
  attempts_started : Z;
  deadline_ms : Z;
}.

Definition budget_from_route (r : SnapshotRoute) (now_ms : Z) : result GatewayError RetryBudget :=
  let? maximum := ok_or internal_error (u64_try_from (max_attempts r)) in
  let? timeout := ok_or internal_error (u64_try_from (bootstrap_timeout_ms r)) in
  let? timeout_ms := ok_or internal_error (i64_try_from timeout) in
  let? deadline := ok_or internal_error (i64_checked_add now_ms timeout_ms) in
  Ok (mkBudget maximum 0 deadline).

Definition can_start_at (b : RetryBudget) (now_ms : Z) : bool :=
  (attempts_started b <? budget_max_attempts b) && (now_ms <? deadline_ms b).

Definition remaining_at (b : RetryBudget) (now_ms : Z) : result GatewayError Duration :=
  let? remaining_ms := ok_or egress_unavailable_error
    (match i64_checked_sub (deadline_ms b) now_ms with
     | Some ms => if 0 <? ms then Some ms else None
     | None => None
     end) in
  let? remaining_ms := ok_or internal_error (u64_try_from remaining_ms) in
  Ok (from_millis remaining_ms).

Definition record_start (b : RetryBudget) : RetryBudget :=
  mkBudget (budget_max_attempts b) (usize_saturating_add (attempts_started b) 1) (deadline_ms b).

Definition add_duration_to_timestamp (now_ms : Z) (duration : Duration) : result GatewayError Z :=
  let? duration_ms := ok_or internal_error (i64_try_from (as_millis duration)) in
  ok_or internal_error (i64_checked_add now_ms duration_ms).

(** ** State, environment and trace *)

(** What concurrent requests share. *)
Record Shared : Type := mkShared {
  sh_scheduler : SchedulerState;
  sh_health : HealthRegistry;
  sh_quota : Quota.QuotaRegistry;
}.

(** One call of [AttemptDriver::start]. *)
Record DriverCall : Type := mkCall {
  dc_selection : SelectedRouteCredential;
  dc_started_at_ms : Z;
  dc_remaining : Duration;
}.

Record OrchState : Type := mkOrch {
  o_shared : Shared;
  o_tick : nat;
  o_calls : list DriverCall;
  o_events : list AttemptEvent;
}.

(** How the [tokio::select!] over cancellation and the timed driver call ends. *)
Inductive AwaitOutcome (T : Type) : Type :=
| AwaitCancelled
| AwaitTimedOut
| AwaitSucceeded (output : T)
| AwaitFailed (f : AttemptFailure).
Arguments AwaitCancelled {T}.
Arguments AwaitTimedOut {T}.
Arguments AwaitSucceeded {T} output.
Arguments AwaitFailed {T} f.

Record Env (T : Type) : Type := mkEnv {
  env_clock : nat -> ClockReading;
  env_cancelled : nat -> bool;
  env_allows_retry : nat -> bool;
  env_start_timeout : Duration -> Duration;
  env_attempt : nat -> DriverCall -> AwaitOutcome T;
  env_interfere : nat -> Shared -> Shared;
}.
Arguments env_clock {T} e _.
Arguments env_cancelled {T} e _.
Arguments env_allows_retry {T} e _.
Arguments env_start_timeout {T} e _.
Arguments env_attempt {T} e _ _.
Arguments env_interfere {T} e _ _.

Record StartedAttempt (T : Type) : Type := mkStarted {
  started_selection : SelectedRouteCredential;
  started_output : T;
  started_attempts : Z;
}.
Arguments mkStarted {T} _ _ _.
Arguments started_selection {T} _.
Arguments started_output {T} _.
Arguments started_attempts {T} _.

Abbreviation OrchM A := (M OrchState GatewayError A).

(** The loop's variables. *)
Record LoopVars : Type := mkVars {
  lv_budget : RetryBudget;
  lv_exclusions : AttemptExclusionSet;
  lv_last_failure : option GatewayError;
}.

Definition selection_credential_id (s : SelectedRouteCredential) : CredentialId := lease_credential_id (sel_lease s).

Definition set_shared (s : OrchState) (sh : Shared) : OrchState :=
  mkOrch sh (o_tick s) (o_calls s) (o_events s).
Definition set_scheduler (sh : Shared) (st : SchedulerState) : Shared :=
  mkShared st (sh_health sh) (sh_quota sh).
Definition set_health (sh : Shared) (h : HealthRegistry) : Shared := mkShared (sh_scheduler sh) h (sh_quota sh).
Definition set_quota (sh : Shared) (q : Quota.QuotaRegistry) : Shared := mkShared (sh_scheduler sh) (sh_health sh) q.

(** Dropping a selection. *)
Definition drop_selection (sel : SelectedRouteCredential) (s : OrchState) : OrchState :=
  let sh := o_shared s in
  set_shared s (set_scheduler sh
    (mkSchedulerState (route_cursors (sh_scheduler sh))
       (drop_lease (sel_lease sel) (pool_states (sh_scheduler sh))))).

(** A selection owned by a scope: dropped on every exit but a started attempt. *)
Definition scoped_selection {A B} (sel : SelectedRouteCredential) (m : OrchM (A + B)) : OrchM (A + B) :=
  fun s => match m s with
           | (Ok (inl a), s') => (Ok (inl a), s')
           | (r, s') => (r, drop_selection sel s')
           end.

(** A [Result] kept as a value. *)
Definition attempt_result {A} (m : OrchM A) : OrchM (result GatewayError A) :=
  fun s => match m s with
           | (Ok a, s') => (Ok (Ok a), s')
           | (Err e, s') => (Ok (Err e), s')
           | (Panic, s') => (Panic, s')
           end.

Section Orchestrator.
Context `{!ShardHash RuntimeHealthKey, !ShardHash Quota.RuntimeQuotaTarget}.
Context {T : Type} (env : Env T) (config : AttemptOrchestratorConfig).
Context (sched : RouteCredentialScheduler) (request_id : option RequestId) (rid : RouteId).
Context (is_candidate_eligible : SnapshotRouteCandidate -> bool).

(** Any interaction with the outside: time moves and others may act. *)
Definition tick : OrchM nat :=
  fun s => (Ok (o_tick s),
            mkOrch (env_interfere env (o_tick s) (o_shared s)) (S (o_tick s)) (o_calls s) (o_events s)).

Definition read_env_clock : OrchM ClockReading := let! t := tick in ret (env_clock env t).
Definition clock_now_ms : OrchM Z :=
  let! reading := read_env_clock in lift (ok_or internal_error reading).
Definition is_cancelled : OrchM bool := let! t := tick in ret (env_cancelled env t).
Definition allows_transparent_retry : OrchM bool := let! t := tick in ret (env_allows_retry env t).

(** A registry operation under the registry's own clock; its error is kept. *)
Definition on_health {A} (op : ClockReading -> HealthM A) : OrchM (result RuntimeHealthError A) :=
  let! reading := read_env_clock in
  fun s => match op reading (sh_health (o_shared s)) with
           | (Panic, h) => (Panic, set_shared s (set_health (o_shared s) h))
           | (r, h) => (Ok r, set_shared s (set_health (o_shared s) h))
           end.
Definition on_quota {A} (op : ClockReading -> Quota.QuotaM A) : OrchM (result Quota.RuntimeQuotaError A) :=
  let! reading := read_env_clock in
  fun s => match op reading (sh_quota (o_shared s)) with
           | (Panic, q) => (Panic, set_shared s (set_quota (o_shared s) q))
           | (r, q) => (Ok r, set_shared s (set_quota (o_shared s) q))
           end.

(** A selection on the current view of the registries. *)
Definition on_scheduler
    (select : RuntimeView -> M SchedulerState GatewayError SelectedRouteCredential)
  : OrchM (result GatewayError SelectedRouteCredential) :=
  let! hclk := read_env_clock in
  let! qclk := read_env_clock in
  fun s =>
    let sh := o_shared s in
    match select (mkView (sh_health sh) hclk (sh_quota sh) qclk) (sh_scheduler sh) with
    | (Panic, st) => (Panic, set_shared s (set_scheduler sh st))
    | (r, st) => (Ok r, set_shared s (set_scheduler sh st))
    end.

Definition emit_attempt (sel : SelectedRouteCredential) (attempt_number : N) (started_at_ms : Z)
    (outcome : AttemptOutcome) (decision : AttemptRetryDecision) : OrchM unit :=
  match request_id with
  | None => ret tt
  | Some req =>
      let! reading := read_env_clock in
      let ended_at_ms := default started_at_ms reading in
      let c := sel_candidate sel in
      let event := attempt_event_new req attempt_number rid (cand_id c) (selection_credential_id sel)
        (cand_endpoint_id c) (cand_upstream_id c) (upstream_model c) started_at_ms ended_at_ms outcome decision in
      fun s => (Ok tt, mkOrch (o_shared s) (o_tick s) (o_calls s) (o_events s ++ [event]))
  end.

Definition keep_internal {E A} (r : result E A) : result GatewayError A := map_err (fun _ => internal_error) r.

Definition record_runtime_state (sel : SelectedRouteCredential) (f : AttemptFailure) : OrchM unit :=
  let endpoint := cand_endpoint_id (sel_candidate sel) in
  let credential := selection_credential_id sel in
  match f with
  | AFNonRetryable e =>
      if bool_decide (code e = CredentialUnauthorized) then
        let! r := on_health (mark_credential_unauthorized endpoint credential) in lift (keep_internal r)
      else if bool_decide (code e = CredentialForbidden) then
        let! r := on_health (mark_credential_forbidden endpoint credential) in lift (keep_internal r)
      else ret tt
  | AFRateLimited retry_after =>
      let! now_ms := clock_now_ms in
      let! r := on_quota (Quota.record_rate_limited (Quota.EndpointCredential endpoint credential) now_ms
                            retry_after (rate_limit_fallback_cooldown config)) in
      let! _ := lift (keep_internal r) in ret tt
  | _ =>
      match failure_cooldown f config with
      | None => ret tt
      | Some duration =>
          let! now_ms := clock_now_ms in
          let! until_ms := lift (add_duration_to_timestamp now_ms duration) in
          let! r := on_health (cool_down_until (HEndpoint endpoint) until_ms) in lift (keep_internal r)
      end
  end.

(** [None] is every fail-closed exit; a selection held there is dropped. *)
Definition begin_quota_recovery_probe_selection (exclusions : AttemptExclusionSet) (now_ms : Z)
    (start_ceiling : Duration)
  : OrchM (option (SelectedRouteCredential * Quota.RuntimeQuotaRecoveryProbe)) :=
  let! r := on_scheduler (fun v =>
    select_eligible_and_lease_for_quota_recovery_at sched rid v now_ms is_candidate_eligible
      (fun c id => negb (exclusion_contains exclusions c id))) in
  match r with
  | Ok sel =>
      let! kept := scoped_selection sel (A := SelectedRouteCredential * Quota.RuntimeQuotaRecoveryProbe) (B := unit)
        (let target := Quota.EndpointCredential (cand_endpoint_id (sel_candidate sel)) (selection_credential_id sel) in
         match add_duration_to_timestamp now_ms (duration_saturating_add start_ceiling QUOTA_RECOVERY_PROBE_GRACE) with
         | Ok expires_at_ms =>
             let! begun := on_quota (Quota.begin_recovery_probe target expires_at_ms) in
             match begun with
             | Ok (Some probe) => ret (inl (sel, probe))
             | _ => ret (inr tt)
             end
         | _ => ret (inr tt)
         end) in
      ret (match kept with inl found => Some found | inr _ => None end)
  | _ => ret None
  end.

Definition complete_quota_recovery_probe (probe : Quota.RuntimeQuotaRecoveryProbe) : OrchM unit :=
  let! reading := read_env_clock in
  match reading with
  | None => ret tt
  | Some observed_at_ms =>
      match Quota.snapshot_try_new (Quota.p_target probe) [] Quota.SrcEstimated Quota.ConfEstimated observed_at_ms with
      | Ok snapshot =>
          let! _completion := on_quota (Quota.complete_recovery_probe probe snapshot) in ret tt
      | _ => ret tt
      end
  end.

(** The selection of one iteration, ordinary first, then a recovery probe. *)
Definition pick (vars : LoopVars) (now_ms : Z)
  : OrchM (SelectedRouteCredential * option Quota.RuntimeQuotaRecoveryProbe) :=
  let! r := on_scheduler (fun v =>
    select_eligible_and_lease_with_runtime_health_quota_and_binding_at sched rid v now_ms is_candidate_eligible
      (fun c id => negb (exclusion_contains (lv_exclusions vars) c id))) in
  match r with
  | Ok sel => ret (sel, None)
  | Err error =>
      let! recovery :=
        match to_option (remaining_at (lv_budget vars) now_ms) with
        | Some remaining =>
            begin_quota_recovery_probe_selection (lv_exclusions vars) now_ms (env_start_timeout env remaining)
        | None => ret None
        end in
      match recovery with
      | Some (sel, probe) => ret (sel, Some probe)
      | None => raise (default error (lv_last_failure vars))
      end
  | Panic => panic
  end.

(** The biased [select!]: the driver call is recorded, then its end observed. *)
Definition run_attempt (call : DriverCall) : OrchM (result AttemptFailure T) :=
  let! _ := (fun s => (Ok tt, mkOrch (o_shared s) (o_tick s) (o_calls s ++ [call]) (o_events s))) in
  let! t := tick in
  ret (match env_attempt env t call with
       | AwaitCancelled => Err AFCancelled
       | AwaitTimedOut => Err AFConnection
       | AwaitSucceeded output => Ok output
       | AwaitFailed f => Err f
       end).

(** A recorded failure: leave the loop or prepare the next iteration. *)
Definition decide_retry (sel : SelectedRouteCredential) (attempt_number : N) (started_at_ms : Z)
    (budget : RetryBudget) (exclusions : AttemptExclusionSet) (f : AttemptFailure)
  : OrchM (StartedAttempt T + LoopVars) :=
  let emit := emit_attempt sel attempt_number started_at_ms in
  let safe_failure := safe_error f in
  if negb (is_retryable f) then
    let! cancelled := is_cancelled in
    if cancelled then emit (Failed safe_failure) CancelledDecision ;;; raise request_cancelled_error
    else emit (Failed safe_failure) NonRetryableDecision ;;; raise safe_failure
  else
    let exclusions' := exclusion_insert (sel_candidate sel) (selection_credential_id sel) exclusions in
    let! cancelled := is_cancelled in
    if cancelled then emit (Failed safe_failure) CancelledDecision ;;; raise request_cancelled_error
    else
      let! allowed := allows_transparent_retry in
      if negb allowed then emit (Failed safe_failure) RetryClosed ;;; raise safe_failure
      else
        emit (Failed safe_failure) RetryEligible ;;;
        ret (inr (mkVars budget exclusions' (Some safe_failure))).

(** After a failure other than cancellation. *)
Definition record_and_decide (sel : SelectedRouteCredential) (attempt_number : N) (started_at_ms : Z)
    (budget : RetryBudget) (exclusions : AttemptExclusionSet) (f : AttemptFailure)
  : OrchM (StartedAttempt T + LoopVars) :=
  let! recorded := attempt_result (record_runtime_state sel f) in
  match recorded with
  | Err error =>
      emit_attempt sel attempt_number started_at_ms (Failed error) InfrastructureFailure ;;; raise error
  | Panic => panic
  | Ok _ => decide_retry sel attempt_number started_at_ms budget exclusions f
  end.

Definition after_failure (sel : SelectedRouteCredential) (attempt_number : N) (started_at_ms : Z)
    (budget : RetryBudget) (exclusions : AttemptExclusionSet) (f : AttemptFailure)
  : OrchM (StartedAttempt T + LoopVars) :=
  match f with
  | AFCancelled =>
      emit_attempt sel attempt_number started_at_ms (Failed request_cancelled_error) CancelledDecision ;;;
      raise request_cancelled_error
  | _ => record_and_decide sel attempt_number started_at_ms budget exclusions f
  end.

Definition after_success (sel : SelectedRouteCredential) (attempt_number : N) (started_at_ms : Z)
    (budget : RetryBudget) (probe : option Quota.RuntimeQuotaRecoveryProbe) (output : T)
  : OrchM (StartedAttempt T + LoopVars) :=
  let! _ := match probe with Some p => complete_quota_recovery_probe p | None => ret tt end in
  let! cancelled := is_cancelled in
  if cancelled then
    emit_attempt sel attempt_number started_at_ms (Failed request_cancelled_error) CancelledDecision ;;;
    raise request_cancelled_error
  else
    emit_attempt sel attempt_number started_at_ms Succeeded Completed ;;;
    ret (inl (mkStarted sel output (attempts_started budget))).

(** From the second clock reading to the end of the loop body. *)
Definition start_selected (vars : LoopVars) (sel : SelectedRouteCredential)
    (probe : option Quota.RuntimeQuotaRecoveryProbe) : OrchM (StartedAttempt T + LoopVars) :=
  let! started_at_ms := clock_now_ms in
  if negb (can_start_at (lv_budget vars) started_at_ms)
  then raise (default egress_unavailable_error (lv_last_failure vars))
  else
    let! remaining := lift (remaining_at (lv_budget vars) started_at_ms) in
    let budget := record_start (lv_budget vars) in
    let! number := lift (ok_or internal_error (u64_try_from (attempts_started budget))) in
    let! outcome := run_attempt (mkCall sel started_at_ms remaining) in
    match outcome with
    | Ok output => after_success sel (Z.to_N number) started_at_ms budget probe output
    | Err f => after_failure sel (Z.to_N number) started_at_ms budget (lv_exclusions vars) f
    | Panic => panic
    end.

(** One iteration of the loop: a started attempt, the next iteration's
    variables, or the error it returns. *)
Definition iteration (vars : LoopVars) : OrchM (StartedAttempt T + LoopVars) :=
  let! cancelled := is_cancelled in
  if cancelled then raise request_cancelled_error
  else
    let! now_ms := clock_now_ms in
    if negb (can_start_at (lv_budget vars) now_ms) then raise (default egress_unavailable_error (lv_last_failure vars))
    else
      let! picked := pick vars now_ms in
      scoped_selection picked.1 (start_selected vars picked.1 picked.2).

(** [loop]; [None] when the fuel runs out. *)
Fixpoint attempt_loop (fuel : nat) (vars : LoopVars) : OrchM (option (StartedAttempt T)) :=
  match fuel with
  | O => ret None
  | S fuel =>
      let! next := iteration vars in
      match next with
      | inl started => ret (Some started)
      | inr vars' => attempt_loop fuel vars'
      end
  end.

Definition start_inner (fuel : nat) : OrchM (option (StartedAttempt T)) :=
  let! cancelled := is_cancelled in
  if cancelled then raise request_cancelled_error
  else
    let! r := lift (ok_or credential_unavailable_error (routes (rs_snapshot sched) !! rid)) in
    let! now_ms := clock_now_ms in
    let! budget := lift (budget_from_route r now_ms) in
    attempt_loop fuel (mkVars budget ∅ None).
End Orchestrator.

(** ** Entry points *)

Definition candidate_matches_protocol (c : SnapshotRouteCandidate) (protocol : option ProtocolFormat) : bool :=
  match protocol with
  | None => true
  | Some p =>
      bool_decide (from_api_format (endpoint_api_format c) = Some p)
      && match transform_mode c with
         | Canonical | CanonicalBridge => true
         | Passthrough | LosslessBridge => false
         end
  end.

Section EntryPoints.
Context `{!ShardHash RuntimeHealthKey, !ShardHash Quota.RuntimeQuotaTarget}.
Context {T : Type} (env : Env T) (config : AttemptOrchestratorConfig) (sched : RouteCredentialScheduler).

Definition start (rid : RouteId) (fuel : nat) : OrchM (option (StartedAttempt T)) :=
  start_inner env config sched None rid (fun _ => true) fuel.

Definition start_for_protocol (rid : RouteId) (protocol : ProtocolFormat) (fuel : nat)
  : OrchM (option (StartedAttempt T)) :=
  start_inner env config sched None rid (fun c => candidate_matches_protocol c (Some protocol)) fuel.

Definition start_with_event_sink (req : RequestId) (rid : RouteId) (fuel : nat)
  : OrchM (option (StartedAttempt T)) :=
  start_inner env config sched (Some req) rid (fun _ => true) fuel.

Definition start_with_event_sink_for_protocol (req : RequestId) (rid : RouteId) (protocol : ProtocolFormat)
    (fuel : nat) : OrchM (option (StartedAttempt T)) :=
  start_inner env config sched (Some req) rid (fun c => candidate_matches_protocol c (Some protocol)) fuel.

Definition start_with_event_sink_matching (req : RequestId) (rid : RouteId)
    (is_candidate_eligible : SnapshotRouteCandidate -> bool) (fuel : nat) : OrchM (option (StartedAttempt T)) :=
  start_inner env config sched (Some req) rid is_candidate_eligible fuel.
End EntryPoints.

(** ** Specification: the runs of the retry loop *)

(** Errors returned without a driver call in that iteration. *)
Definition no_call_error (vars : LoopVars) (e : GatewayError) : Prop :=
  e = request_cancelled_error \/ e = internal_error \/ e = egress_unavailable_error
  \/ lv_last_failure vars = Some e \/ (lv_last_failure vars = None /\ e = credential_unavailable_error).

(** How the error [e] follows from the last event of a failed run. *)
Definition final_decision (x : GatewayError) (d : AttemptRetryDecision) (e : GatewayError) : Prop :=
  match d with
  | CancelledDecision => e = request_cancelled_error
  | NonRetryableDecision | RetryClosed | InfrastructureFailure => e = x
  | Completed | RetryEligible => False
  end.

Section Runs.
Context {T : Type} (env : Env T) (sched : RouteCredentialScheduler) (request_id : option RequestId).
Context (rid : RouteId) (is_candidate_eligible : SnapshotRouteCandidate -> bool).

Definition call_binding (call : DriverCall) : RouteCandidateId * CredentialId :=
  attempt_binding (sel_candidate (dc_selection call)) (selection_credential_id (dc_selection call)).

(** A call the loop may make with these variables. *)
Record call_ok (vars : LoopVars) (call : DriverCall) : Prop := {
  call_route : exists r, routes (rs_snapshot sched) !! rid = Some r /\ sel_candidate (dc_selection call) ∈ candidates r;
  call_admitted : is_candidate_eligible (sel_candidate (dc_selection call)) = true;
  call_endpoint : lease_endpoint (sel_lease (dc_selection call)) = cand_endpoint_id (sel_candidate (dc_selection call));
  call_fresh : call_binding call ∉ lv_exclusions vars;
  call_budget : can_start_at (lv_budget vars) (dc_started_at_ms call) = true;
  call_remaining : dc_remaining call = from_millis (deadline_ms (lv_budget vars) - dc_started_at_ms call);
}.

(** The event of attempt [number]; none is emitted without a request id. *)
Definition events_for (call : DriverCall) (number : Z) (outcome : AttemptOutcome) (d : AttemptRetryDecision)
    (events : list AttemptEvent) : Prop :=
  match request_id with
  | None => events = []
  | Some req => exists ended_at_ms,
      let c := sel_candidate (dc_selection call) in
      events = [attempt_event_new req (Z.to_N number) rid (cand_id c)
        (selection_credential_id (dc_selection call)) (cand_endpoint_id c) (cand_upstream_id c) (upstream_model c)
        (dc_started_at_ms call) ended_at_ms outcome d]
  end.

Definition next_number (vars : LoopVars) : Z := attempts_started (lv_budget vars) + 1.

Definition next_vars (vars : LoopVars) (call : DriverCall) (f : AttemptFailure) : LoopVars :=
  mkVars (record_start (lv_budget vars))
    (exclusion_insert (sel_candidate (dc_selection call)) (selection_credential_id (dc_selection call))
       (lv_exclusions vars))
    (Some (safe_error f)).

Inductive attempt_run : nat -> LoopVars -> list DriverCall -> list AttemptEvent ->
    result GatewayError (option (StartedAttempt T)) -> Prop :=
| run_out_of_fuel vars : attempt_run 0 vars [] [] (Ok None)
| run_no_call n vars e : no_call_error vars e -> attempt_run (S n) vars [] [] (Err e)
| run_panic_before n vars : attempt_run (S n) vars [] [] Panic
| run_success n vars call events output :
    call_ok vars call -> events_for call (next_number vars) Succeeded Completed events ->
    attempt_run (S n) vars [call] events (Ok (Some (mkStarted (dc_selection call) output (next_number vars))))
| run_failure n vars call events x d e :
    call_ok vars call -> events_for call (next_number vars) (Failed x) d events -> final_decision x d e ->
    attempt_run (S n) vars [call] events (Err e)
| run_panic_after n vars call : call_ok vars call -> attempt_run (S n) vars [call] [] Panic
| run_retry n vars call events f t calls events' r :
    call_ok vars call -> is_retryable f = true -> env_allows_retry env t = true ->
    events_for call (next_number vars) (Failed (safe_error f)) RetryEligible events ->
    attempt_run n (next_vars vars call f) calls events' r ->
    attempt_run (S n) vars (call :: calls) (events ++ events') r.
End Runs.

(** Budgets reachable from [budget_from_route]. *)
Definition budget_ok (b : RetryBudget) : Prop :=
  0 <= attempts_started b <= budget_max_attempts b /\ budget_max_attempts b <= u64_max.

(** ** Lemmas: what operations keep *)

(** From every state the operation ends in a related one. *)
Definition keeps {A} (R : relation OrchState) (m : OrchM A) : Prop := forall s, R s (m s).2.

Create HintDb orch.

Section Keeps.
Context (R : relation OrchState) `{!PreOrder R}.

Lemma keeps_bind {A B} (m : OrchM A) (k : A -> OrchM B) :
  keeps R m -> (forall a, keeps R (k a)) -> keeps R (bind m k).
Proof.
  intros Hm Hk s. unfold bind. specialize (Hm s). destruct (m s) as [[a|e|] s1]; [|done..].
  etransitivity; [exact Hm|apply Hk].
Qed.
Lemma keeps_ret {A} (a : A) : keeps R (ret a).
Proof. intros s. reflexivity. Qed.
Lemma keeps_lift {A} (r : result GatewayError A) : keeps R (lift r).
Proof. intros s. reflexivity. Qed.
Lemma keeps_raise {A} e : keeps R (raise (A := A) e).
Proof. intros s. reflexivity. Qed.
Lemma keeps_panic {A} : keeps R (panic (A := A)).
Proof. intros s. reflexivity. Qed.
Lemma keeps_result {A} (m : OrchM A) : keeps R m -> keeps R (attempt_result m).
Proof. intros Hm s. unfold attempt_result. specialize (Hm s). by destruct (m s) as [[a|e|] s1]. Qed.
End Keeps.
#[export] Hint Resolve keeps_bind keeps_ret keeps_lift keeps_raise keeps_panic keeps_result : orch.

(** Walk through an operation, casing on its branches. *)
Ltac keeps_solve :=
  repeat first
    [ solve [eauto with orch nocore]
    | apply keeps_bind; [done| |intros ?]
    | apply keeps_result
    | progress (cbv zeta)
    | case_match ].

(** A relation that time and registry updates respect. *)
Section Passive.
Context `{!ShardHash RuntimeHealthKey, !ShardHash Quota.RuntimeQuotaTarget}.
Context {T : Type} (env : Env T) (config : AttemptOrchestratorConfig) (R : relation OrchState) `{!PreOrder R}.
Context (Htick : keeps R (tick env)).
Context (Hregistries : forall s h q, R s (set_shared s (mkShared (sh_scheduler (o_shared s)) h q))).

Lemma keeps_clock_reading : keeps R (read_env_clock env).
Proof. unfold read_env_clock. keeps_solve. Qed.
Lemma keeps_cancelled : keeps R (is_cancelled env).
Proof. unfold is_cancelled. keeps_solve. Qed.
Lemma keeps_allows : keeps R (allows_transparent_retry env).
Proof. unfold allows_transparent_retry. keeps_solve. Qed.
#[local] Hint Resolve keeps_clock_reading : orch.
Lemma keeps_clock : keeps R (clock_now_ms env).
Proof. unfold clock_now_ms. keeps_solve. Qed.
Lemma keeps_health {A} (op : ClockReading -> HealthM A) : keeps R (on_health env op).
Proof.
  apply keeps_bind; [done|apply keeps_clock_reading|]. intros clk s. destruct (op _ _) as [[] h]; apply Hregistries.
Qed.
Lemma keeps_quota {A} (op : ClockReading -> Quota.QuotaM A) : keeps R (on_quota env op).
Proof.
  apply keeps_bind; [done|apply keeps_clock_reading|]. intros clk s. destruct (op _ _) as [[] q]; apply Hregistries.
Qed.
#[local] Hint Resolve keeps_clock keeps_health keeps_quota : orch.

Lemma keeps_record sel f : keeps R (record_runtime_state env config sel f).
Proof. unfold record_runtime_state. keeps_solve. Qed.
Lemma keeps_complete probe : keeps R (complete_quota_recovery_probe env probe).
Proof. unfold complete_quota_recovery_probe. keeps_solve. Qed.
End Passive.

(** *** The driver calls and events so far *)

Definition same_trace (s s' : OrchState) : Prop := o_calls s' = o_calls s /\ o_events s' = o_events s.
#[export] Instance same_trace_preorder : PreOrder same_trace.
Proof. split; [done|]. intros s1 s2 s3 [H1 H2] [H3 H4]. split; congruence. Qed.

(** The operation neither calls the driver nor emits an event. *)
Abbreviation quiet m := (keeps same_trace m).

Section Quiet.
Context `{!ShardHash RuntimeHealthKey, !ShardHash Quota.RuntimeQuotaTarget}.
Context {T : Type} (env : Env T) (config : AttemptOrchestratorConfig).
Context (sched : RouteCredentialScheduler) (rid : RouteId).
Context (is_candidate_eligible : SnapshotRouteCandidate -> bool).

Lemma quiet_tick : quiet (tick env).
Proof. intros s. done. Qed.
Lemma quiet_registries s h q : same_trace s (set_shared s (mkShared (sh_scheduler (o_shared s)) h q)).
Proof. done. Qed.

Lemma quiet_record sel f : quiet (record_runtime_state env config sel f).
Proof. apply keeps_record; [apply _|apply quiet_tick|apply quiet_registries]. Qed.
Lemma quiet_complete probe : quiet (complete_quota_recovery_probe env probe).
Proof. apply keeps_complete; [apply _|apply quiet_tick|apply quiet_registries]. Qed.
Lemma quiet_scheduler select : quiet (on_scheduler env select).
Proof.
  apply keeps_bind; [apply _|done|]. intros hclk. apply keeps_bind; [apply _|done|]. intros qclk s. cbv zeta.
  by destruct (select _ _) as [[]].
Qed.
Lemma quiet_scoped {A B} sel (m : OrchM (A + B)) : quiet m -> quiet (scoped_selection sel m).
Proof. intros Hm s. unfold scoped_selection. specialize (Hm s). by destruct (m s) as [[[a|b]|e|] s1]. Qed.
Lemma quiet_quota {A} (op : ClockReading -> Quota.QuotaM A) : quiet (on_quota env op).
Proof. apply keeps_quota; [apply _|apply quiet_tick|apply quiet_registries]. Qed.
#[local] Hint Resolve quiet_scheduler quiet_quota quiet_scoped : orch.

Lemma quiet_begin excl now ceiling :
  quiet (begin_quota_recovery_probe_selection env sched rid is_candidate_eligible excl now ceiling).
Proof.
  unfold begin_quota_recovery_probe_selection. apply keeps_bind; [apply _|apply quiet_scheduler|].
  intros [sel| |]; try (apply keeps_ret; apply _). apply keeps_bind; [apply _| |intros; apply keeps_ret; apply _].
  apply quiet_scoped. cbv zeta. case_match; try (apply keeps_ret; apply _).
  apply keeps_bind; [apply _|apply quiet_quota|]. intros [[]| |]; apply keeps_ret; apply _.
Qed.

Lemma quiet_pick vars now : quiet (pick env sched rid is_candidate_eligible vars now).
Proof.
  unfold pick. apply keeps_bind; [apply _|apply quiet_scheduler|]. intros [sel| |]; [apply keeps_ret; apply _| |done].
  apply keeps_bind; [apply _| |intros [[]|]; [apply keeps_ret; apply _|done]].
  case_match; [apply quiet_begin|apply keeps_ret; apply _].
Qed.
End Quiet.

(** ** Lemmas: one iteration *)

Section Iteration.
Context `{!ShardHash RuntimeHealthKey, !ShardHash Quota.RuntimeQuotaTarget}.
Context {T : Type} (env : Env T) (config : AttemptOrchestratorConfig).
Context (sched : RouteCredentialScheduler) (request_id : option RequestId) (rid : RouteId).
Context (is_candidate_eligible : SnapshotRouteCandidate -> bool).

(** A selection the loop may start. *)
Definition sel_ok (excl : AttemptExclusionSet) (sel : SelectedRouteCredential) : Prop :=
  (exists r, routes (rs_snapshot sched) !! rid = Some r /\ sel_candidate sel ∈ candidates r)
  /\ is_candidate_eligible (sel_candidate sel) = true
  /\ lease_endpoint (sel_lease sel) = cand_endpoint_id (sel_candidate sel)
  /\ attempt_binding (sel_candidate sel) (selection_credential_id sel) ∉ excl.

Lemma select_bindings_ok v now excl binding_ok st sel st' :
  (forall c id, binding_ok c id = true -> exclusion_contains excl c id = false) ->
  select_bindings sched rid v now is_candidate_eligible binding_ok st = (Ok sel, st') -> sel_ok excl sel.
Proof.
  intros Hb Hsel. destruct sched as [snapshot pools] eqn:Hsched.
  pose proof (select_with_sound pools (candidate_admitted v is_candidate_eligible)
    (fun c x => unexpired_at now x && binding_ok c (credential_id x)) snapshot rid st) as H.
  change (select_with _ _ _ st) with
    (select_bindings (mkRouteScheduler snapshot pools) rid v now is_candidate_eligible binding_ok st) in H.
  rewrite Hsel in H. destruct H as (r & Hr & Hin & [Hc He Hs _] & _).
  unfold candidate_admitted in Hc. bool_simp. unfold sel_ok. rewrite Hsched. split_and!; [by exists r|done|done|].
  match goal with H : binding_ok _ _ = true |- _ => apply Hb in H; unfold exclusion_contains in H end.
  by bool_simp.
Qed.

Lemma selection_error v now binding_ok st e st' :
  select_bindings sched rid v now is_candidate_eligible binding_ok st = (Err e, st') ->
  e = credential_unavailable_error.
Proof.
  intros Hsel. destruct sched as [snapshot pools].
  pose proof (select_with_sound pools (candidate_admitted v is_candidate_eligible)
    (fun c x => unexpired_at now x && binding_ok c (credential_id x)) snapshot rid st) as H.
  change (select_with _ _ _ st) with
    (select_bindings (mkRouteScheduler snapshot pools) rid v now is_candidate_eligible binding_ok st) in H.
  rewrite Hsel in H. by destruct H.
Qed.

Lemma begin_no_error excl now ceiling s e s' :
  begin_quota_recovery_probe_selection env sched rid is_candidate_eligible excl now ceiling s <> (Err e, s').
Proof.
  unfold begin_quota_recovery_probe_selection, on_scheduler, read_env_clock, tick, scoped_selection, on_quota, bind, ret.
  intros H. repeat (case_match; simplify_eq/=).
Qed.

Lemma complete_no_error probe s e s' : complete_quota_recovery_probe env probe s <> (Err e, s').
Proof.
  unfold complete_quota_recovery_probe, on_quota, read_env_clock, tick, bind, ret.
  intros H. repeat (case_match; simplify_eq/=).
Qed.

Lemma on_scheduler_inv select s r s' :
  on_scheduler env select s = (r, s') ->
  match r with
  | Ok (Ok sel) => exists v st st', select v st = (Ok sel, st')
  | Ok (Err e) => exists v st st', select v st = (Err e, st')
  | Ok Panic | Err _ => False
  | Panic => True
  end.
Proof.
  unfold on_scheduler, read_env_clock, tick, bind, ret. cbn [o_shared].
  intros H. destruct (select _ _) as [[sel|e|] st] eqn:Hs; simplify_eq; eauto.
Qed.

Lemma begin_inv excl now ceiling s sel probe s' :
  begin_quota_recovery_probe_selection env sched rid is_candidate_eligible excl now ceiling s
  = (Ok (Some (sel, probe)), s') -> sel_ok excl sel.
Proof.
  unfold begin_quota_recovery_probe_selection, bind at 1.
  destruct (on_scheduler env _ s) as [r1 s1] eqn:H1. apply on_scheduler_inv in H1.
  destruct r1 as [[sel'|e'|]|e|]; try done. destruct H1 as (v & st & st' & Hsel).
  unfold bind at 1. destruct (scoped_selection _ _ s1) as [r2 s2] eqn:H2. intros H.
  assert (r2 = Ok (inl (sel, probe))) as ->.
  { destruct r2 as [[[]|]| |]; unfold ret in H; by simplify_eq. }
  clear H. unfold scoped_selection in H2.
  assert (sel = sel') as ->; [|eapply select_bindings_ok; [|exact Hsel]; intros c id Hok; simpl in Hok; by bool_simp].
  revert H2. unfold bind, ret. repeat case_match; intros; by simplify_eq.
Qed.

Lemma pick_inv vars now s r s' :
  pick env sched rid is_candidate_eligible vars now s = (r, s') ->
  match r with
  | Ok picked => sel_ok (lv_exclusions vars) picked.1
  | Err e => no_call_error vars e
  | Panic => True
  end.
Proof.
  unfold pick, bind at 1. destruct (on_scheduler env _ s) as [r1 s1] eqn:H1. apply on_scheduler_inv in H1.
  destruct r1 as [[sel|e|]|e|]; try done.
  - destruct H1 as (v & st & st' & Hsel). unfold ret. intros ?. simplify_eq. simpl.
    eapply select_bindings_ok; [|exact Hsel]. intros c id Hok. simpl in Hok. by bool_simp.
  - destruct H1 as (v & st & st' & Hsel). unfold bind at 1.
    pose proof (selection_error _ _ _ _ _ _ Hsel) as ->.
    assert (no_call_error vars (default credential_unavailable_error (lv_last_failure vars))) as Hlast
      by (unfold no_call_error; destruct (lv_last_failure vars); simpl; eauto 10).
    destruct (to_option (remaining_at (lv_budget vars) now)) as [remaining|]; intros H.
    + destruct (begin_quota_recovery_probe_selection _ _ _ _ _ _ _ s1) as [[[[sel probe]|]|e2|] s2] eqn:H2;
        unfold ret, raise in H; simplify_eq; [by eapply begin_inv|exact Hlast|by apply begin_no_error in H2|done].
    + unfold ret, raise in H. simplify_eq. exact Hlast.
  - intros. by simplify_eq.
Qed.
Lemma quiet_step {A} (m : OrchM A) s r s' :
  quiet m -> m s = (r, s') -> o_calls s' = o_calls s /\ o_events s' = o_events s.
Proof. intros Hq Hm. specialize (Hq s). by rewrite Hm in Hq. Qed.

Lemma scoped_inv {A B} sel (m : OrchM (A + B)) s r s' :
  scoped_selection sel m s = (r, s') ->
  exists s1, m s = (r, s1) /\ o_calls s' = o_calls s1 /\ o_events s' = o_events s1.
Proof.
  unfold scoped_selection. intros H. destruct (m s) as [[[a|b]|e|] s1]; simplify_eq; by eexists.
Qed.

Abbreviation emit sel z started := (emit_attempt env request_id rid sel (Z.to_N z) started).
Abbreviation event_of sel started z outcome d :=
  (events_for request_id rid (mkCall sel started 0) z outcome d).

(** An exit that emits one event and returns [r]. *)
Lemma emit_then {A} sel z started outcome d (k : OrchM A) s r s' :
  (emit sel z started outcome d ;;; k) s = (r, s') ->
  exists s1 events, k s1 = (r, s') /\ o_calls s1 = o_calls s /\ o_events s1 = o_events s ++ events
    /\ event_of sel started z outcome d events.
Proof.
  unfold emit_attempt, events_for. destruct request_id as [req|].
  - unfold read_env_clock, tick, bind, ret. cbn. intros H. eexists _, _. split; [exact H|]. split_and!; [done|done|].
    by eexists.
  - unfold bind, ret. intros H. exists s, []. rewrite app_nil_r. done.
Qed.

(** Ways to leave an iteration after the driver call of [sel], from [s] to [s']. *)
Definition failed_exit (sel : SelectedRouteCredential) (started z : Z) (s s' : OrchState) (e : GatewayError) : Prop :=
  exists events x d, o_events s' = o_events s ++ events /\ event_of sel started z (Failed x) d events
    /\ final_decision x d e.

Definition retry_exit (sel : SelectedRouteCredential) (started z : Z) (budget : RetryBudget)
    (excl : AttemptExclusionSet) (s s' : OrchState) (vars' : LoopVars) : Prop :=
  exists f t events, is_retryable f = true /\ env_allows_retry env t = true
    /\ vars' = mkVars budget (exclusion_insert (sel_candidate sel) (selection_credential_id sel) excl)
                 (Some (safe_error f))
    /\ o_events s' = o_events s ++ events /\ event_of sel started z (Failed (safe_error f)) RetryEligible events.

Definition success_exit (sel : SelectedRouteCredential) (started z : Z) (budget : RetryBudget)
    (s s' : OrchState) (a : StartedAttempt T) : Prop :=
  exists events output, a = mkStarted sel output (attempts_started budget)
    /\ o_events s' = o_events s ++ events /\ event_of sel started z Succeeded Completed events.

Definition exit_ok (sel : SelectedRouteCredential) (started z : Z) (budget : RetryBudget)
    (excl : AttemptExclusionSet) (s s' : OrchState) (r : result GatewayError (StartedAttempt T + LoopVars)) : Prop :=
  o_calls s' = o_calls s
  /\ match r with
     | Ok (inl a) => success_exit sel started z budget s s' a
     | Ok (inr vars') => retry_exit sel started z budget excl s s' vars'
     | Err e => failed_exit sel started z s s' e
     | Panic => o_events s' = o_events s
     end.

Lemma emit_and_fail sel started z budget excl s s0 x d e r s' :
  o_calls s0 = o_calls s -> o_events s0 = o_events s -> final_decision x d e ->
  (emit sel z started (Failed x) d ;;; raise e) s0 = (r, s') -> exit_ok sel started z budget excl s s' r.
Proof.
  intros Hc0 He0 Hd (s1 & events & Hk & Hc & He & Hev)%emit_then. unfold raise in Hk. simplify_eq.
  split; [congruence|]. exists events, x, d. by rewrite He, He0.
Qed.

Lemma record_and_decide_spec sel z started budget excl f s r s' :
  record_and_decide env config request_id rid sel (Z.to_N z) started budget excl f s = (r, s') ->
  exit_ok sel started z budget excl s s' r.
Proof.
  intros H. unfold record_and_decide, bind at 1 in H.
  destruct (attempt_result _ s) as [r1 s1] eqn:H1.
  pose proof (quiet_step _ _ _ _ (keeps_result _ _ (quiet_record env config sel f)) H1) as [Hc1 He1].
  destruct r1 as [[[]|error|]|e|]; [| |unfold panic in H; simplify_eq; by split|exfalso|simplify_eq; by split].
  3:{ unfold attempt_result in H1. by destruct (record_runtime_state _ _ _ _ _) as [[]]. }
  2:{ by eapply emit_and_fail; [| | |exact H]. }
  unfold decide_retry in H. cbv zeta in H.
  destruct (is_retryable f) eqn:Hf; cbn [negb] in H; unfold is_cancelled, tick, bind at 1 2, ret in H;
    cbn [o_tick o_shared o_calls o_events] in H; destruct (env_cancelled env (o_tick s1));
    try (by eapply emit_and_fail; [| | |exact H]).
  unfold allows_transparent_retry, tick, bind at 1 2, ret in H. cbn [o_tick o_shared o_calls o_events] in H.
  destruct (env_allows_retry env (S (o_tick s1))) eqn:Ha; cbn [negb] in H; [|by eapply emit_and_fail; [| | |exact H]].
  apply emit_then in H as (s2 & events & Hk & Hc & He & Hev). simplify_eq. cbn [o_calls o_events] in Hc, He.
  split; [congruence|]. exists f, (S (o_tick s1)), events. split_and!; [done..|congruence|done].
Qed.

Lemma after_failure_spec sel z started budget excl f s r s' :
  after_failure env config request_id rid sel (Z.to_N z) started budget excl f s = (r, s') ->
  exit_ok sel started z budget excl s s' r.
Proof.
  intros H. destruct f; try (by eapply record_and_decide_spec). by eapply emit_and_fail; [| | |exact H].
Qed.

Lemma after_success_spec sel z started budget excl probe output s r s' :
  after_success env request_id rid sel (Z.to_N z) started budget probe output s = (r, s') ->
  exit_ok sel started z budget excl s s' r.
Proof.
  intros H. unfold after_success, bind at 1 in H.
  destruct (match probe with Some p => complete_quota_recovery_probe env p | None => ret tt end s) as [r1 s1] eqn:H1.
  assert (o_calls s1 = o_calls s /\ o_events s1 = o_events s) as [Hc1 He1].
  { destruct probe; [eapply quiet_step; [apply (quiet_complete env)|exact H1]|unfold ret in H1; by simplify_eq]. }
  destruct r1 as [[]|e|]; [|exfalso; destruct probe; [by apply complete_no_error in H1|done]|simplify_eq; by split].
  unfold is_cancelled, tick, bind at 1 2, ret in H. cbn [o_tick o_shared o_calls o_events] in H.
  destruct (env_cancelled env (o_tick s1)); [by eapply emit_and_fail; [| | |exact H]|].
  apply emit_then in H as (s2 & events & Hk & Hc & He & Hev). simplify_eq. cbn [o_calls o_events] in Hc, He.
  split; [congruence|]. exists events, output. split_and!; [done|congruence|done].
Qed.

Abbreviation run := (attempt_run env sched request_id rid is_candidate_eligible).
Abbreviation iterate := (iteration env config sched request_id rid is_candidate_eligible).
Abbreviation callable := (call_ok sched rid is_candidate_eligible).

Lemma remaining_at_ok b now d : remaining_at b now = Ok d -> d = from_millis (deadline_ms b - now).
Proof.
  unfold remaining_at, i64_checked_sub, i64_try_from, u64_try_from, result_bind, ok_or.
  intros H. by repeat (case_match; simplify_eq/=).
Qed.

Lemma remaining_at_err b now e : remaining_at b now = Err e -> e = egress_unavailable_error \/ e = internal_error.
Proof. unfold remaining_at, result_bind, ok_or. intros H. repeat (case_match; simplify_eq/=); eauto. Qed.

Lemma record_start_started b now :
  budget_ok b -> can_start_at b now = true ->
  attempts_started (record_start b) = attempts_started b + 1 /\ budget_ok (record_start b)
  /\ u64_try_from (attempts_started b + 1) = Some (attempts_started b + 1).
Proof.
  unfold can_start_at, record_start, budget_ok, usize_saturating_add, u64_try_from, in_u64. intros [? ?] ?. bool_simp. simpl.
  rewrite Z.min_l by lia. split_and!; [done|lia|lia|lia|].
  destruct (Z.leb_spec 0 (attempts_started b + 1)), (Z.leb_spec (attempts_started b + 1) u64_max); simpl; done || lia.
Qed.

Lemma clock_cases s r s' :
  clock_now_ms env s = (r, s') ->
  o_calls s' = o_calls s /\ o_events s' = o_events s /\ (r = Err internal_error \/ exists now, r = Ok now).
Proof.
  unfold clock_now_ms, read_env_clock, tick, bind, ret, lift, ok_or. intros H. case_match; simplify_eq; eauto.
Qed.

(** The error of an iteration that stops before its driver call. *)
Lemma last_or_egress vars : no_call_error vars (default egress_unavailable_error (lv_last_failure vars)).
Proof. unfold no_call_error. destruct (lv_last_failure vars); simpl; eauto 10. Qed.

(** No driver call and an error, or one admissible call and one of the exits. *)
Definition iteration_ok (vars : LoopVars) (s s' : OrchState) (r : result GatewayError (StartedAttempt T + LoopVars)) : Prop :=
  (same_trace s s' /\ match r with Ok _ => False | Err e => no_call_error vars e | Panic => True end)
  \/ exists call s0, callable vars call /\ o_calls s0 = o_calls s ++ [call] /\ o_events s0 = o_events s
       /\ exit_ok (dc_selection call) (dc_started_at_ms call) (next_number vars) (record_start (lv_budget vars))
            (lv_exclusions vars) s0 s' r.

Lemma iteration_ok_from vars s0 s s' s1 r :
  same_trace s0 s -> same_trace s1 s' -> iteration_ok vars s s1 r -> iteration_ok vars s0 s' r.
Proof.
  intros [Hc He] [Hc' He'] [[[Ht1 Ht2] Hr]|(call & sm & Hok & Hc0 & He0 & Hc1 & Hexit)].
  - left. split; [split; congruence|done].
  - right. exists call, sm. split_and!; [done|congruence|congruence|]. split; [congruence|].
    destruct r as [[a|v]|e|]; unfold success_exit, retry_exit, failed_exit in *; rewrite ?He'; done.
Qed.

Lemma start_selected_spec vars sel probe s r s' :
  budget_ok (lv_budget vars) -> sel_ok (lv_exclusions vars) sel ->
  start_selected env config request_id rid vars sel probe s = (r, s') -> iteration_ok vars s s' r.
Proof.
  intros Hb (Hroute & Hadm & Hend & Hfresh) H. unfold start_selected, bind at 1 in H.
  destruct (clock_now_ms env s) as [r1 s1] eqn:H1.
  apply clock_cases in H1 as (Hc1 & He1 & [->|[started ->]]).
  { simplify_eq. left. split; [done|right; by left]. }
  apply (iteration_ok_from vars s s1 s' s'); [done|done|].
  destruct (can_start_at (lv_budget vars) started) eqn:Hcan; cbn [negb] in H.
  2:{ unfold raise in H. simplify_eq. left. split; [done|apply last_or_egress]. }
  unfold bind at 1, lift at 1 in H. destruct (remaining_at (lv_budget vars) started) as [remaining|e|] eqn:Hrem.
  2:{ simplify_eq. left. split; [done|]. apply remaining_at_err in Hrem as [->| ->]; unfold no_call_error; eauto. }
  2:{ simplify_eq. by left. }
  apply remaining_at_ok in Hrem. destruct (record_start_started _ _ Hb Hcan) as (Hn & Hb' & Hu).
  cbv zeta in H. unfold bind at 1, lift at 1 in H. rewrite Hn, Hu in H. cbn [ok_or] in H.
  right. unfold run_attempt, tick, bind at 1 2 3, ret in H. cbn [o_tick o_shared o_calls o_events] in H.
  set (s0 := mkOrch _ _ _ _) in H. exists (mkCall sel started remaining), s0.
  split; [by split|]. split; [done|]. split; [done|]. cbn [dc_selection dc_started_at_ms]. unfold next_number.
  destruct (env_attempt env _ _) as [| |output|f]; [by eapply after_failure_spec..|by eapply after_success_spec|by eapply after_failure_spec].
Qed.

Lemma iteration_spec vars s r s' :
  budget_ok (lv_budget vars) -> iterate vars s = (r, s') -> iteration_ok vars s s' r.
Proof.
  intros Hb H. unfold iteration, is_cancelled, tick, bind at 1 2, ret in H. cbn [o_tick o_shared o_calls o_events] in H.
  destruct (env_cancelled env (o_tick s)).
  { unfold raise in H. simplify_eq. left. split; [done|by left]. }
  unfold bind at 1 in H. destruct (clock_now_ms env _) as [r1 s1] eqn:H1.
  apply clock_cases in H1 as (Hc1 & He1 & [->|[now ->]]); cbn [o_calls o_events] in Hc1, He1.
  { simplify_eq. left. split; [done|right; by left]. }
  destruct (can_start_at (lv_budget vars) now); cbn [negb] in H.
  2:{ unfold raise in H. simplify_eq. left. split; [done|apply last_or_egress]. }
  unfold bind at 1 in H. destruct (pick _ _ _ _ _ _ _) as [r2 s2] eqn:H2.
  pose proof (quiet_step _ _ _ _ (quiet_pick env sched rid is_candidate_eligible vars now) H2) as [Hc2 He2].
  apply pick_inv in H2. destruct r2 as [[sel probe]|e|].
  2,3: simplify_eq; left; split; [split; congruence|done].
  cbn [fst snd] in H, H2. destruct (scoped_inv _ _ _ _ _ H) as (s3 & Hbody & Hc3 & He3).
  eapply iteration_ok_from; [| |by eapply start_selected_spec]; split; congruence.
Qed.

Lemma attempt_loop_runs fuel vars s r s' :
  budget_ok (lv_budget vars) ->
  attempt_loop env config sched request_id rid is_candidate_eligible fuel vars s = (r, s') ->
  exists calls events, o_calls s' = o_calls s ++ calls /\ o_events s' = o_events s ++ events
    /\ run fuel vars calls events r.
Proof.
  revert vars s. induction fuel as [|fuel IH]; intros vars s Hb H.
  { unfold attempt_loop, ret in H. simplify_eq. exists [], []. rewrite !app_nil_r. repeat constructor. }
  cbn [attempt_loop] in H. unfold bind in H. destruct (iterate vars s) as [r1 s1] eqn:H1.
  destruct (iteration_spec _ _ _ _ Hb H1) as [[[Hc He] Hr]|(call & s0 & Hok & Hc0 & He0 & Hc1 & Hexit)].
  - exists [], []. destruct r1 as [a|e|]; [done| |]; simplify_eq; rewrite !app_nil_r; (split; [done|]); (split; [done|]).
    + by constructor.
    + constructor.
  - rewrite Hc0 in Hc1. destruct call as [sel started rem]. cbn [dc_selection dc_started_at_ms] in Hexit.
    destruct (record_start_started _ _ Hb (call_budget _ _ _ _ _ Hok)) as (Hn & Hb' & _).
    destruct r1 as [[a|vars']|e|].
    + unfold ret in H. simplify_eq. destruct Hexit as (events & output & -> & He & Hev).
      eexists [_], events. split; [done|]. split; [by rewrite He, He0|]. rewrite Hn.
      by apply (run_success env sched request_id rid is_candidate_eligible fuel vars (mkCall sel started rem)).
    + destruct Hexit as (f & t & events & Hf & Ht & -> & He & Hev).
      destruct (IH (next_vars vars (mkCall sel started rem) f) s1 Hb' H) as (calls & events' & Hc' & He' & Hrun). exists (mkCall sel started rem :: calls), (events ++ events').
      split; [by rewrite Hc', Hc1, <- app_assoc|]. split; [by rewrite He', He, He0, <- app_assoc|].
      by eapply (run_retry _ _ _ _ _ _ _ (mkCall sel started rem)).
    + simplify_eq. destruct Hexit as (events & x & d & He & Hev & Hd).
      exists [mkCall sel started rem], events. split; [done|]. split; [by rewrite He, He0|].
      by eapply run_failure.
    + simplify_eq. exists [mkCall sel started rem], []. rewrite app_nil_r. split; [done|]. split; [by rewrite Hexit|]. by constructor.
Qed.

(** *** Consequences, by induction on the run *)

Lemma next_budget_ok vars call f :
  budget_ok (lv_budget vars) -> callable vars call ->
  budget_ok (lv_budget (next_vars vars call f))
  /\ attempts_started (lv_budget (next_vars vars call f)) = next_number vars.
Proof.
  intros Hb Hc. destruct (record_start_started _ _ Hb (call_budget _ _ _ _ _ Hc)) as (Hn & Hb' & _). done.
Qed.

Lemma run_length n vars calls events r :
  run n vars calls events r -> budget_ok (lv_budget vars) ->
  Z.of_nat (length calls) <= budget_max_attempts (lv_budget vars) - attempts_started (lv_budget vars).
Proof.
  assert (forall vars call, callable vars call ->
    attempts_started (lv_budget vars) < budget_max_attempts (lv_budget vars)) as Hlt.
  { intros v c Hc. apply call_budget in Hc. unfold can_start_at in Hc. by bool_simp. }
  induction 1 as [| | | | | |n vars call events f t calls events' r Hc Hf Ht Hev Hrun IH]; intros Hb; simpl;
    try (destruct Hb; lia); try (match goal with H : call_ok _ _ _ _ _ |- _ => apply Hlt in H end; lia).
  destruct (next_budget_ok vars call f Hb Hc) as [Hb' Hn]. specialize (IH Hb'). rewrite Hn in IH. unfold next_number in IH.
  change (budget_max_attempts (lv_budget (next_vars vars call f))) with (budget_max_attempts (lv_budget vars)) in IH. lia.
Qed.

Lemma run_fuel n vars calls events r : run n vars calls events r -> r = Ok None -> length calls = n.
Proof. induction 1; intros ?; simplify_eq; simpl; auto. Qed.

Lemma run_bindings n vars calls events r :
  run n vars calls events r ->
  NoDup (call_binding <$> calls) /\ Forall (fun call => call_binding call ∉ lv_exclusions vars) calls.
Proof.
  induction 1 as [| | |n vars call events output Hc|n vars call events x d e Hc|n vars call Hc
    |n vars call events f t calls events' r Hc Hf Ht Hev Hrun [IH1 IH2]];
    try (by split; constructor);
    try (split; [apply NoDup_singleton|constructor; [by apply (call_fresh _ _ _ _ _ Hc)|constructor]]).
  assert (forall b, b ∉ lv_exclusions (next_vars vars call f) -> b <> call_binding call /\ b ∉ lv_exclusions vars) as Hnext.
  { intros b Hb. unfold next_vars, exclusion_insert in Hb. cbn [lv_exclusions] in Hb.
    apply not_elem_of_union in Hb as [Hb ?]. split; [|done]. intros ->. by apply Hb, elem_of_singleton. }
  rewrite Forall_forall in IH2. split.
  - rewrite fmap_cons. constructor; [|done]. intros Hin. apply list_elem_of_fmap in Hin as (c & He & Hin).
    destruct (Hnext _ (IH2 c Hin)). congruence.
  - constructor; [by apply (call_fresh _ _ _ _ _ Hc)|]. apply Forall_forall. intros c Hin. by apply (Hnext _ (IH2 c Hin)).
Qed.

(** What every driver call of the request satisfies. *)
Definition call_admissible (deadline : Z) (call : DriverCall) : Prop :=
  (exists r, routes (rs_snapshot sched) !! rid = Some r /\ sel_candidate (dc_selection call) ∈ candidates r)
  /\ is_candidate_eligible (sel_candidate (dc_selection call)) = true
  /\ lease_endpoint (sel_lease (dc_selection call)) = cand_endpoint_id (sel_candidate (dc_selection call))
  /\ dc_started_at_ms call < deadline /\ dc_remaining call = from_millis (deadline - dc_started_at_ms call).

Lemma run_calls n vars calls events r :
  run n vars calls events r -> Forall (call_admissible (deadline_ms (lv_budget vars))) calls.
Proof.
  assert (forall vars call, callable vars call -> call_admissible (deadline_ms (lv_budget vars)) call) as Hadm.
  { intros v c [Hr Ha He Hf Hb Hrem]. unfold can_start_at in Hb. bool_simp. by split_and!. }
  induction 1 as [| | | | | |n vars call events f t calls events' r Hc Hf Ht Hev Hrun IH];
    constructor; auto; try (by constructor). 
Qed.

Lemma run_gate_closed n vars calls events r :
  (forall t, env_allows_retry env t = false) -> run n vars calls events r -> (length calls <= 1)%nat.
Proof. intros Hg. induction 1; simpl; try lia. congruence. Qed.

(** The event of one attempt names the request, the attempt and its binding. *)
Definition event_describes (req : RequestId) (number : Z) (call : DriverCall) (ev : AttemptEvent) : Prop :=
  ae_request_id ev = req /\ ae_attempt_number ev = Z.to_N number
  /\ ae_attempt_id ev = from_request_sequence req (Z.to_N number) /\ ae_route_id ev = rid
  /\ ae_route_candidate_id ev = cand_id (sel_candidate (dc_selection call))
  /\ ae_credential_id ev = selection_credential_id (dc_selection call)
  /\ ae_endpoint_id ev = cand_endpoint_id (sel_candidate (dc_selection call))
  /\ ae_started_at_ms ev = dc_started_at_ms call.

(** How a run's result follows from its last event; [count] attempts in all. *)
Definition result_explained (count : Z) (last_call : option DriverCall) (last_event : option AttemptEvent)
    (r : result GatewayError (option (StartedAttempt T))) : Prop :=
  match last_event, r with
  | Some ev, Ok (Some a) => ae_outcome ev = Succeeded /\ ae_retry_decision ev = Completed
      /\ started_attempts a = count /\ Some (started_selection a) = dc_selection <$> last_call
  | Some ev, Err e => exists x, ae_outcome ev = Failed x
      /\ (final_decision x (ae_retry_decision ev) e
          \/ ae_retry_decision ev = RetryEligible
             /\ (e = x \/ e = request_cancelled_error \/ e = internal_error \/ e = egress_unavailable_error))
  | None, Ok (Some _) => False
  | _, _ => True
  end.

Lemma event_single req call z outcome d events :
  request_id = Some req -> events_for request_id rid call z outcome d events ->
  exists ev, events = [ev] /\ event_describes req z call ev /\ ae_outcome ev = outcome /\ ae_retry_decision ev = d.
Proof. intros Hreq Hev. unfold events_for in Hev. rewrite Hreq in Hev. destruct Hev as [ended ->]. by eexists. Qed.

Definition events_follow (req : RequestId) (first : Z) (calls : list DriverCall) (events : list AttemptEvent) : Prop :=
  length events = length calls
  /\ forall i call ev, calls !! i = Some call -> events !! i = Some ev ->
       event_describes req (first + Z.of_nat i) call ev
       /\ ((S i < length calls)%nat -> ae_retry_decision ev = RetryEligible).

Lemma events_follow_one req first call ev :
  event_describes req first call ev -> events_follow req first [call] [ev].
Proof.
  intros Hd. split; [done|]. intros [|i] c e Hc He; simplify_eq/=. rewrite Z.add_0_r. split; [done|lia].
Qed.

Lemma events_follow_cons req first call ev calls events :
  event_describes req first call ev -> ae_retry_decision ev = RetryEligible ->
  events_follow req (first + 1) calls events -> events_follow req first (call :: calls) (ev :: events).
Proof.
  intros Hd Hr [Hl Hall]. split; [simpl; congruence|]. intros [|i] c e Hc He; simplify_eq/=.
  - rewrite Z.add_0_r. done.
  - destruct (Hall i c e Hc He) as [H1 H2].
    replace (first + Z.of_nat (S i)) with (first + 1 + Z.of_nat i) by lia. split; [done|]. intros. apply H2. lia.
Qed.

Lemma run_events req n vars calls events r :
  request_id = Some req -> run n vars calls events r -> budget_ok (lv_budget vars) -> r <> Panic ->
  events_follow req (next_number vars) calls events
  /\ result_explained (attempts_started (lv_budget vars) + Z.of_nat (length calls)) (last calls) (last events) r.
Proof.
  intros Hreq. induction 1 as [vars|n vars e He|n vars|n vars call events output Hc Hev|n vars call events x d e Hc Hev Hd|
    n vars call Hc|n vars call events f t calls events' r Hc Hf Ht Hev Hrun IH]; intros Hb Hp.
  - split; [|done]. split; [done|]. by intros [].
  - split; [|done]. split; [done|]. by intros [].
  - done.
  - destruct (event_single _ _ _ _ _ _ Hreq Hev) as (ev & -> & Hdesc & Ho & Hd). split; [by apply events_follow_one|done].
  - destruct (event_single _ _ _ _ _ _ Hreq Hev) as (ev & -> & Hdesc & Ho & Hdd). split; [by apply events_follow_one|].
    exists x. split; [done|]. left. by rewrite Hdd.
  - done.
  - destruct (event_single _ _ _ _ _ _ Hreq Hev) as (ev & -> & Hdesc & Ho & Hd). simpl app.
    destruct (next_budget_ok vars call f Hb Hc) as [Hb' Hn]. destruct (IH Hb' Hp) as [IH1 IH2].
    unfold next_number at 1 in IH1. rewrite Hn in IH1, IH2. split; [by apply events_follow_cons|].
    destruct calls as [|c calls], events' as [|e' events']; try (by destruct IH1).
    + inversion Hrun; subst; try done. exists (safe_error f). split; [done|]. right. split; [done|].
      match goal with H : no_call_error _ _ |- _ => unfold no_call_error in H; simpl in H end. naive_solver.
    + replace (attempts_started (lv_budget vars) + Z.of_nat (length (call :: c :: calls)))
        with (next_number vars + Z.of_nat (length (c :: calls))) by (unfold next_number; simpl; lia). exact IH2.
Qed.

Lemma budget_from_route_ok r now b :
  budget_from_route r now = Ok b ->
  budget_ok b /\ attempts_started b = 0 /\ budget_max_attempts b = max_attempts r
  /\ deadline_ms b = now + bootstrap_timeout_ms r.
Proof.
  unfold budget_from_route, i64_checked_add, i64_try_from, u64_try_from, in_u64, result_bind, ok_or.
  intros H. repeat (case_match; simplify_eq/=). bool_simp. unfold budget_ok. simpl. lia.
Qed.

Lemma start_inner_runs fuel s r s' :
  start_inner env config sched request_id rid is_candidate_eligible fuel s = (r, s') ->
  exists calls events, o_calls s' = o_calls s ++ calls /\ o_events s' = o_events s ++ events
    /\ ((calls = [] /\ events = [] /\ exists e, r = Err e)
        \/ exists route now b, routes (rs_snapshot sched) !! rid = Some route
             /\ env_clock env (S (o_tick s)) = Some now
             /\ budget_from_route route now = Ok b /\ run fuel (mkVars b ∅ None) calls events r).
Proof.
  unfold start_inner, is_cancelled, clock_now_ms, read_env_clock, tick, bind, ret, lift, raise. cbn [o_tick o_shared o_calls o_events].
  intros H. destruct (env_cancelled env (o_tick s)).
  { simplify_eq. exists [], []. rewrite !app_nil_r. split; [done|]. split; [done|]. left. eauto. }
  destruct (routes (rs_snapshot sched) !! rid) as [route|] eqn:Hroute; cbn [ok_or o_tick o_shared o_calls o_events] in H.
  2:{ simplify_eq. exists [], []. rewrite !app_nil_r. split; [done|]. split; [done|]. left. eauto. }
  destruct (env_clock env (S (o_tick s))) as [now|] eqn:Hclk; cbn [ok_or] in H.
  2:{ simplify_eq. exists [], []. rewrite !app_nil_r. split; [done|]. split; [done|]. left. eauto. }
  destruct (budget_from_route route now) as [b|e|] eqn:Hb.
  - destruct (budget_from_route_ok _ _ _ Hb) as [Hok _].
    destruct (attempt_loop_runs _ (mkVars b ∅ None) _ _ _ Hok H) as (calls & events & Hc & He & Hrun).
    exists calls, events. split; [done|]. split; [done|]. right. by exists route, now, b.
  - simplify_eq. exists [], []. rewrite !app_nil_r. split; [done|]. split; [done|]. left. eauto.
  - exfalso. unfold budget_from_route, result_bind, ok_or in Hb. by repeat case_match.
Qed.
End Iteration.

(** ** Lemmas: totality *)

Section Safety.
Context `{!ShardHash RuntimeHealthKey, !ShardHash Quota.RuntimeQuotaTarget}.

(** The registries are as their own operations keep them. *)
Definition shared_ok (sh : Shared) : Prop :=
  registry_wf (sh_health sh) /\ counters_ok (counters (sh_health sh))
  /\ registry_wf (sh_quota sh) /\ Quota.counter_ok (counters (sh_quota sh)).

(** On consistent registries the operation does not panic and keeps them so. *)
Definition safe {A} (m : OrchM A) : Prop :=
  forall s, shared_ok (o_shared s) -> (m s).1 <> Panic /\ shared_ok (o_shared (m s).2).

Lemma safe_bind {A B} (m : OrchM A) (k : A -> OrchM B) : safe m -> (forall a, safe (k a)) -> safe (bind m k).
Proof.
  intros Hm Hk s Hs. unfold bind. destruct (Hm s Hs) as [Hp Hs']. destruct (m s) as [[a|e|] s1]; [|done..].
  by apply Hk.
Qed.
Lemma safe_ret {A} (a : A) : safe (ret a).
Proof. done. Qed.
Lemma safe_raise {A} e : safe (raise (A := A) e).
Proof. done. Qed.
Lemma safe_lift {A} (r : result GatewayError A) : r <> Panic -> safe (lift r).
Proof. done. Qed.
Lemma safe_scoped {A B} sel (m : OrchM (A + B)) : safe m -> safe (scoped_selection sel m).
Proof.
  intros Hm s Hs. unfold scoped_selection. destruct (Hm s Hs) as [Hp Hs']. by destruct (m s) as [[[a|b]|e|] s1].
Qed.
Lemma safe_result {A} (m : OrchM A) : safe m -> safe (attempt_result m).
Proof. intros Hm s Hs. unfold attempt_result. destruct (Hm s Hs) as [Hp Hs']. by destruct (m s) as [[a|e|] s1]. Qed.

Context {T : Type} (env : Env T) (config : AttemptOrchestratorConfig).
Context (sched : RouteCredentialScheduler) (request_id : option RequestId) (rid : RouteId).
Context (is_candidate_eligible : SnapshotRouteCandidate -> bool).
Context (Hinterfere : forall t sh, shared_ok sh -> shared_ok (env_interfere env t sh)).

Lemma safe_tick : safe (tick env).
Proof. intros s Hs. split; [done|]. simpl. auto. Qed.
Lemma safe_clock_reading : safe (read_env_clock env).
Proof. apply safe_bind; [apply safe_tick|]. intros; apply safe_ret. Qed.
Lemma safe_clock : safe (clock_now_ms env).
Proof. apply safe_bind; [apply safe_clock_reading|]. intros []; by apply safe_lift. Qed.
Lemma safe_cancelled : safe (is_cancelled env).
Proof. apply safe_bind; [apply safe_tick|]. intros; apply safe_ret. Qed.
Lemma safe_allows : safe (allows_transparent_retry env).
Proof. apply safe_bind; [apply safe_tick|]. intros; apply safe_ret. Qed.

(** A registry operation is safe when it is one of the registry's own. *)
Lemma safe_health {A} (op : ClockReading -> HealthM A) (hop : ClockReading -> HealthOp) (f : A -> HealthOut) :
  (forall clk, exec (hop clk) = map_out f (op clk)) -> safe (on_health env op).
Proof.
  intros Hop. apply safe_bind; [apply safe_clock_reading|]. intros clk s (Hwf & Hc & Hq).
  destruct (op clk (sh_health (o_shared s))) as [r h] eqn:He.
  assert (exec (hop clk) (sh_health (o_shared s))
          = (match r with Ok a => Ok (f a) | Err e => Err e | Panic => Panic end, h)) as Hx.
  { rewrite Hop. unfold map_out, bind, ret. rewrite He. by destruct r. }
  destruct (keyed_inv _ _ _ _ Hwf Hc Hx) as (Hwf' & Hc' & _ & Hp). by destruct r.
Qed.

Lemma safe_quota {A} (op : ClockReading -> Quota.QuotaM A) (qop : ClockReading -> Quota.QuotaOp)
    (f : A -> Quota.QuotaOut) :
  (forall clk, Quota.exec (qop clk) = map_out f (op clk)) -> safe (on_quota env op).
Proof.
  intros Hop. apply safe_bind; [apply safe_clock_reading|]. intros clk s (Hwf & Hc & Hq & Hqc).
  destruct (op clk (sh_quota (o_shared s))) as [r h] eqn:He.
  assert (Quota.exec (qop clk) (sh_quota (o_shared s))
          = (match r with Ok a => Ok (f a) | Err e => Err e | Panic => Panic end, h)) as Hx.
  { rewrite Hop. unfold map_out, bind, ret. rewrite He. by destruct r. }
  destruct (keyed_inv _ _ _ _ Hq Hqc Hx) as (Hwf' & Hc' & _ & Hp). by destruct r.
Qed.

Lemma safe_scheduler select :
  (forall v st, (select v st).1 <> Panic) -> safe (on_scheduler env select).
Proof.
  intros Hsel. apply safe_bind; [apply safe_clock_reading|]. intros hclk.
  apply safe_bind; [apply safe_clock_reading|]. intros qclk s Hs. cbv zeta.
  pose proof (Hsel (mkView (sh_health (o_shared s)) hclk (sh_quota (o_shared s)) qclk) (sh_scheduler (o_shared s))) as Hp.
  by destruct (select _ _) as [[]].
Qed.

Lemma select_bindings_no_panic v now binding_ok st :
  (select_bindings sched rid v now is_candidate_eligible binding_ok st).1 <> Panic.
Proof.
  intros Hp. destruct sched as [snapshot pools].
  pose proof (select_with_sound pools (candidate_admitted v is_candidate_eligible)
    (fun c x => unexpired_at now x && binding_ok c (credential_id x)) snapshot rid st) as H.
  change (select_with _ _ _ st) with
    (select_bindings (mkRouteScheduler snapshot pools) rid v now is_candidate_eligible binding_ok st) in H.
  destruct (select_bindings _ _ _ _ _ _ st) as [r st']. simpl in Hp. by subst.
Qed.

Lemma safe_emit sel n started outcome d : safe (emit_attempt env request_id rid sel n started outcome d).
Proof.
  unfold emit_attempt. destruct request_id; [|apply safe_ret]. apply safe_bind; [apply safe_clock_reading|].
  intros clk s Hs. done.
Qed.

Lemma keep_internal_no_panic {E A} (r : result E A) : r <> Panic -> keep_internal r <> Panic.
Proof. by destruct r. Qed.

(** A kept registry error is never a panic. *)
Lemma safe_health_internal {A} (op : ClockReading -> HealthM A) :
  safe (on_health env op) -> safe (let! r := on_health env op in lift (keep_internal r)).
Proof.
  intros Ho s Hs. unfold bind. destruct (Ho s Hs) as [Hp Hs'].
  destruct (on_health env op s) as [[r|e|] s1] eqn:He; [|done..]. split; [|done]. apply keep_internal_no_panic.
  intros ->. unfold on_health, read_env_clock, tick, bind, ret in He. repeat (case_match; simplify_eq/=).
Qed.

Lemma safe_quota_internal {A} (op : ClockReading -> Quota.QuotaM A) :
  safe (on_quota env op) -> safe (let! r := on_quota env op in let! _ := lift (keep_internal r) in ret tt).
Proof.
  intros Ho s Hs. unfold bind. destruct (Ho s Hs) as [Hp Hs'].
  destruct (on_quota env op s) as [[r|e|] s1] eqn:He; [|done..]. assert (r <> Panic) as Hr; [|by destruct r].
  intros ->. unfold on_quota, read_env_clock, tick, bind, ret in He. repeat (case_match; simplify_eq/=).
Qed.

Lemma safe_record sel f : safe (record_runtime_state env config sel f).
Proof.
  unfold record_runtime_state. cbv zeta.
  assert (forall d, safe (let! now_ms := clock_now_ms env in
    let! until_ms := lift (add_duration_to_timestamp now_ms d) in
    let! r := on_health env (cool_down_until (HEndpoint (cand_endpoint_id (sel_candidate sel))) until_ms) in
    lift (keep_internal r))) as Hcool.
  { intros d. apply safe_bind; [apply safe_clock|]. intros now. apply safe_bind.
    - apply safe_lift. unfold add_duration_to_timestamp, result_bind, ok_or. by repeat case_match.
    - intros deadline. apply safe_health_internal; by eapply (safe_health _ (OpCoolDown _ deadline) (fun _ => OutUnit)). }
  destruct f; cbn [failure_cooldown]; try apply Hcool; try apply safe_ret.
  - apply safe_bind; [apply safe_clock|]. intros now. apply safe_quota_internal.
    by eapply (safe_quota _ (Quota.OpRateLimited _ now retry_after (rate_limit_fallback_cooldown config)) Quota.OutSnapshot).
  - case_bool_decide; [apply safe_health_internal; by eapply (safe_health _ (OpUnauthorized _ _) (fun _ => OutUnit))|].
    case_bool_decide; [apply safe_health_internal; by eapply (safe_health _ (OpForbidden _ _) (fun _ => OutUnit))|apply safe_ret].
Qed.

Lemma safe_begin excl now ceiling :
  safe (begin_quota_recovery_probe_selection env sched rid is_candidate_eligible excl now ceiling).
Proof.
  unfold begin_quota_recovery_probe_selection. apply safe_bind.
  { apply safe_scheduler. intros v st. apply select_bindings_no_panic. }
  intros [sel| |]; try apply safe_ret. apply safe_bind; [|intros; apply safe_ret]. apply safe_scoped. cbv zeta.
  case_match; try apply safe_ret. apply safe_bind; [by eapply (safe_quota _ (Quota.OpBegin _ _) Quota.OutProbe)|].
  intros [[]| |]; apply safe_ret.
Qed.

Lemma safe_complete probe : safe (complete_quota_recovery_probe env probe).
Proof.
  unfold complete_quota_recovery_probe. apply safe_bind; [apply safe_clock_reading|].
  intros [now|]; [|apply safe_ret]. case_match; try apply safe_ret.
  apply safe_bind; [by eapply (safe_quota _ (Quota.OpComplete probe _) Quota.OutSnapshot)|]. intros; apply safe_ret.
Qed.

Lemma on_scheduler_no_panic select s s' : on_scheduler env select s <> (Ok Panic, s').
Proof.
  unfold on_scheduler, read_env_clock, tick, bind, ret. intros H. repeat (case_match; simplify_eq/=).
Qed.

Lemma safe_pick vars now : safe (pick env sched rid is_candidate_eligible vars now).
Proof.
  intros s Hs. unfold pick, bind.
  destruct (safe_scheduler (fun v => select_eligible_and_lease_with_runtime_health_quota_and_binding_at sched rid v now
    is_candidate_eligible (fun c id => negb (exclusion_contains (lv_exclusions vars) c id)))
    (fun v st => select_bindings_no_panic _ _ _ _) s Hs) as [Hp Hs1].
  destruct (on_scheduler env _ s) as [[[sel|e|]|e|] s1] eqn:Hsel; [done| |by apply on_scheduler_no_panic in Hsel|done|done].
  destruct (to_option _) as [remaining|]; [|done].
  destruct (safe_begin (lv_exclusions vars) now (env_start_timeout env remaining) s1 Hs1) as [Hp2 Hs2].
  by destruct (begin_quota_recovery_probe_selection _ _ _ _ _ _ _ s1) as [[[[sel probe]|]|e2|] s2].
Qed.

Lemma safe_failure sel n started budget excl f :
  safe (after_failure env config request_id rid sel n started budget excl f).
Proof.
  assert (forall x d e, safe (emit_attempt env request_id rid sel n started (Failed x) d ;;;
    raise (A := StartedAttempt T + LoopVars) e)) as Hexit
    by (intros; apply safe_bind; [apply safe_emit|intros; apply safe_raise]).
  assert (safe (decide_retry env request_id rid sel n started budget excl f)) as Hdec.
  { unfold decide_retry. cbv zeta.
    destruct (is_retryable f); cbn [negb]; (apply safe_bind; [apply safe_cancelled|]); intros []; try apply Hexit.
    apply safe_bind; [apply safe_allows|]. intros []; cbn [negb]; [|apply Hexit].
    apply safe_bind; [apply safe_emit|intros; apply safe_ret]. }
  assert (safe (record_and_decide env config request_id rid sel n started budget excl f)) as Hrec;
    [|destruct f; first [exact Hrec | apply Hexit]].
  intros s Hs. unfold record_and_decide. unfold bind at 1 3.
  destruct (safe_result _ (safe_record sel f) s Hs) as [Hp Hs1].
  destruct (attempt_result (record_runtime_state env config sel f) s) as [[[[]|e|]|e|] s1] eqn:Hr; try done.
  - by apply Hdec.
  - by apply Hexit.
  - exfalso. unfold attempt_result in Hr. by destruct (record_runtime_state env config sel f s) as [[]].
Qed.

Lemma safe_success sel n started budget probe output :
  safe (after_success env request_id rid sel n started budget probe output).
Proof.
  unfold after_success. apply safe_bind; [destruct probe; [apply safe_complete|apply safe_ret]|]. intros [].
  apply safe_bind; [apply safe_cancelled|]. intros []; (apply safe_bind; [apply safe_emit|intros]); [apply safe_raise|apply safe_ret].
Qed.

Lemma safe_start_selected vars sel probe :
  safe (start_selected env config request_id rid vars sel probe).
Proof.
  unfold start_selected. apply safe_bind; [apply safe_clock|]. intros started.
  destruct (can_start_at _ _); cbn [negb]; [|apply safe_raise].
  apply safe_bind. { apply safe_lift. unfold remaining_at, result_bind, ok_or. by repeat case_match. }
  intros remaining. cbv zeta. apply safe_bind. { apply safe_lift. by destruct (u64_try_from _). }
  intros number s Hs. unfold run_attempt, tick, bind, ret. cbn [o_tick o_shared o_calls o_events].
  set (s1 := mkOrch _ _ _ _). assert (shared_ok (o_shared s1)) as Hs1 by (simpl; auto).
  destruct (env_attempt env (o_tick s) _); [by apply safe_failure..|by apply safe_success|by apply safe_failure].
Qed.

Lemma safe_iteration vars : safe (iteration env config sched request_id rid is_candidate_eligible vars).
Proof.
  unfold iteration. apply safe_bind; [apply safe_cancelled|]. intros []; [apply safe_raise|].
  apply safe_bind; [apply safe_clock|]. intros now. destruct (can_start_at _ _); cbn [negb]; [|apply safe_raise].
  apply safe_bind; [apply safe_pick|]. intros picked. apply safe_scoped, safe_start_selected.
Qed.

Lemma safe_start fuel : safe (start_inner env config sched request_id rid is_candidate_eligible fuel).
Proof.
  unfold start_inner. apply safe_bind; [apply safe_cancelled|]. intros []; [apply safe_raise|].
  apply safe_bind; [by destruct (routes _ !! _)|]. intros route. apply safe_bind; [apply safe_clock|]. intros now.
  apply safe_bind. { apply safe_lift. unfold budget_from_route, result_bind, ok_or. by repeat case_match. }
  intros b. generalize (mkVars b ∅ None). induction fuel as [|fuel IH]; intros vars; [apply safe_ret|].
  cbn [attempt_loop]. apply safe_bind; [apply safe_iteration|]. intros []; [apply safe_ret|apply IH].
Qed.
End Safety.

(** ** Lemmas: lease accounting *)

Definition counts (s : OrchState) : gmap EndpointId (list Z) := lease_counts (pool_states (sh_scheduler (o_shared s))).

(** Lease counts are [usize] values. *)
Definition counts_ok (c : gmap EndpointId (list Z)) : Prop :=
  map_Forall (fun _ l => Forall (fun n => 0 <= n < usize_modulus) l) c.

Definition same_counts (s s' : OrchState) : Prop := counts s' = counts s.
#[export] Instance same_counts_preorder : PreOrder same_counts.
Proof. split; [done|]. unfold same_counts. intros s1 s2 s3 ? ?. congruence. Qed.
Abbreviation steady m := (keeps same_counts m).

(** Dropping a lease undoes taking it. *)
Lemma drop_leased l states c :
  counts_ok c -> lease_counts states = leased l c -> lease_counts (drop_lease l states) = c.
Proof.
  intros Hok Hs. apply map_eq. intros e. unfold drop_lease, lease_counts in *. rewrite lookup_fmap.
  assert (active_leases <$> states !! e = leased l c !! e) as He by (rewrite <- Hs; by rewrite lookup_fmap).
  unfold leased in He. destruct (decide (e = lease_endpoint l)) as [->|Hne].
  - rewrite lookup_alter_eq. rewrite lookup_alter_eq in He. destruct (c !! lease_endpoint l) as [active|] eqn:Hc; simpl in He.
    2:{ by destruct (states !! lease_endpoint l). }
    destruct (states !! lease_endpoint l) as [st|]; [|done]. simpl in *. injection He as He. f_equal. rewrite He.
    specialize (Hok _ _ Hc). simpl in Hok. rewrite Forall_lookup in Hok.
    apply list_eq. intros j. destruct (decide (j = lease_index l)) as [->|Hj].
    + rewrite !list_lookup_alter_eq. destruct (active !! lease_index l) as [n|] eqn:Hn; [|done]. simpl. f_equal.
      specialize (Hok _ _ Hn). rewrite Z.add_simpl_r. by apply Z.mod_small.
    + by rewrite !list_lookup_alter_ne.
  - rewrite lookup_alter_ne by done. rewrite lookup_alter_ne in He by done. done.
Qed.

Section Leases.
Context `{!ShardHash RuntimeHealthKey, !ShardHash Quota.RuntimeQuotaTarget}.
Context {T : Type} (env : Env T) (config : AttemptOrchestratorConfig).
Context (sched : RouteCredentialScheduler) (request_id : option RequestId) (rid : RouteId).
Context (is_candidate_eligible : SnapshotRouteCandidate -> bool).
Context (Halone : forall t sh, env_interfere env t sh = sh).

Lemma steady_tick : steady (tick env).
Proof. intros s. unfold same_counts, counts, tick. simpl. by rewrite Halone. Qed.
Lemma steady_registries s h q : same_counts s (set_shared s (mkShared (sh_scheduler (o_shared s)) h q)).
Proof. done. Qed.
#[local] Ltac passive := first [apply _ | apply steady_tick | apply steady_registries].

Lemma steady_emit sel n started outcome d : steady (emit_attempt env request_id rid sel n started outcome d).
Proof.
  unfold emit_attempt. destruct request_id; [|apply keeps_ret; apply _].
  apply keeps_bind; [apply _|apply keeps_clock_reading; passive|]. intros clk s. done.
Qed.

Lemma steady_emit_raise {A} sel n started outcome d e :
  steady (emit_attempt env request_id rid sel n started outcome d ;;; raise (A := A) e).
Proof. apply keeps_bind; [apply _|apply steady_emit|]. intros _. apply keeps_raise, _. Qed.

Lemma steady_cancelled : steady (is_cancelled env).
Proof. apply keeps_cancelled; passive. Qed.
Lemma steady_allows : steady (allows_transparent_retry env).
Proof. apply keeps_allows; passive. Qed.
Lemma steady_clock : steady (clock_now_ms env).
Proof. apply keeps_clock; passive. Qed.

Lemma steady_failure sel n started budget excl f :
  steady (after_failure env config request_id rid sel n started budget excl f).
Proof.
  assert (steady (record_and_decide env config request_id rid sel n started budget excl f)) as Hrec;
    [|destruct f; first [exact Hrec|apply steady_emit_raise]].
  unfold record_and_decide. apply keeps_bind; [apply _| |].
  { apply keeps_result, keeps_record; passive. }
  intros [[]| |]; [|apply steady_emit_raise|apply keeps_panic, _]. unfold decide_retry. cbv zeta.
  destruct (is_retryable f); cbn [negb]; (apply keeps_bind; [apply _|apply steady_cancelled|]); intros [];
    try apply steady_emit_raise.
  apply keeps_bind; [apply _|apply steady_allows|]. intros []; cbn [negb]; [|apply steady_emit_raise].
  apply keeps_bind; [apply _|apply steady_emit|]. intros _. apply keeps_ret, _.
Qed.

Lemma steady_success sel n started budget probe output :
  steady (after_success env request_id rid sel n started budget probe output).
Proof.
  unfold after_success. apply keeps_bind; [apply _| |].
  { destruct probe; [|apply keeps_ret, _]. apply keeps_complete; passive. }
  intros []. apply keeps_bind; [apply _|apply steady_cancelled|]. intros []; [apply steady_emit_raise|].
  apply keeps_bind; [apply _|apply steady_emit|]. intros _. apply keeps_ret, _.
Qed.

Lemma steady_start_selected vars sel probe : steady (start_selected env config request_id rid vars sel probe).
Proof.
  unfold start_selected. apply keeps_bind; [apply _|apply steady_clock|]. intros started.
  destruct (can_start_at _ _); cbn [negb]; [|apply keeps_raise, _].
  apply keeps_bind; [apply _|apply keeps_lift, _|]. intros remaining. cbv zeta.
  apply keeps_bind; [apply _|apply keeps_lift, _|]. intros number.
  apply keeps_bind; [apply _| |].
  { unfold run_attempt. apply keeps_bind; [apply _|intros s; done|]. intros _.
    apply keeps_bind; [apply _|apply steady_tick|]. intros t. apply keeps_ret, _. }
  intros [output|f|]; [apply steady_success|apply steady_failure|apply keeps_panic, _].
Qed.

(** A selection held by a scope: taken over by a started attempt or given back. *)
Definition held (c0 : gmap EndpointId (list Z)) {B} (sel : SelectedRouteCredential)
    (r : result GatewayError (StartedAttempt T + B)) (s' : OrchState) : Prop :=
  match r with
  | Ok (inl a) => started_selection a = sel /\ counts s' = leased (sel_lease sel) c0
  | _ => counts s' = c0
  end.

Lemma drop_selection_counts sel s c0 :
  counts_ok c0 -> counts s = leased (sel_lease sel) c0 -> counts (drop_selection sel s) = c0.
Proof. intros Hok Hs. by apply drop_leased. Qed.

Lemma scoped_held sel (m : OrchM (StartedAttempt T + LoopVars)) s c0 r s' :
  steady m -> (forall a s1, m s = (Ok (inl a), s1) -> started_selection a = sel) ->
  counts_ok c0 -> counts s = leased (sel_lease sel) c0 -> scoped_selection sel m s = (r, s') -> held c0 sel r s'.
Proof.
  intros Hm Hinl Hok Hs H. unfold scoped_selection in H. specialize (Hm s).
  destruct (m s) as [[[a|b]|e|] s1] eqn:He; unfold same_counts in Hm; cbn [snd] in Hm; simplify_eq; simpl;
    try (apply drop_selection_counts; [done|congruence]).
  split; [by eapply Hinl|congruence].
Qed.

(** A selection function's effect on the counts. *)
Lemma on_scheduler_counts now binding_ok s r s' :
  on_scheduler env (fun v => select_bindings sched rid v now is_candidate_eligible (binding_ok v)) s = (r, s') ->
  match r with
  | Ok (Ok sel) => counts s' = leased (sel_lease sel) (counts s)
  | _ => counts s' = counts s
  end.
Proof.
  unfold on_scheduler, read_env_clock, tick, bind, ret. cbn [o_tick o_shared o_calls o_events]. rewrite !Halone.
  set (v := mkView _ _ _ _). intros H. destruct sched as [snapshot pools].
  pose proof (select_with_sound pools (candidate_admitted v is_candidate_eligible)
    (fun c x => unexpired_at now x && binding_ok v c (credential_id x)) snapshot rid (sh_scheduler (o_shared s))) as Hsel.
  change (select_with _ _ _ _) with (select_bindings (mkRouteScheduler snapshot pools) rid v now is_candidate_eligible
    (binding_ok v) (sh_scheduler (o_shared s))) in Hsel.
  destruct (select_bindings _ _ _ _ _ _ _) as [[sel|e|] st]; simplify_eq; unfold counts; cbn; [|by destruct Hsel|done].
  by destruct Hsel as (_ & _ & _ & _ & ?).
Qed.

Lemma begin_counts excl now ceiling s r s' :
  counts_ok (counts s) ->
  begin_quota_recovery_probe_selection env sched rid is_candidate_eligible excl now ceiling s = (r, s') ->
  match r with
  | Ok (Some (sel, _)) => counts s' = leased (sel_lease sel) (counts s)
  | _ => counts s' = counts s
  end.
Proof.
  intros Hok H. unfold begin_quota_recovery_probe_selection, bind at 1 in H.
  destruct (on_scheduler env _ s) as [r1 s1] eqn:H1.
  apply (on_scheduler_counts now (fun v c id => negb (exclusion_contains excl c id) && binding_healthy v c id
    && binding_recovery_due v c id)) in H1.
  destruct r1 as [[sel|e|]|e|]; unfold ret in H; try (by simplify_eq).
  unfold bind at 1, scoped_selection in H. cbv zeta in H.
  destruct (add_duration_to_timestamp _ _) as [expires|e|]; cbn in H;
    try (simplify_eq; by apply drop_selection_counts).
  unfold bind in H.
  assert (steady (on_quota env (Quota.begin_recovery_probe (Quota.EndpointCredential
    (cand_endpoint_id (sel_candidate sel)) (selection_credential_id sel)) expires))) as Hq
    by (apply keeps_quota; passive).
  specialize (Hq s1). unfold same_counts in Hq.
  destruct (on_quota env _ s1) as [[[[probe|]|e|]|e|] s2]; cbn in H, Hq; simplify_eq;
    try (apply drop_selection_counts; [done|congruence]). congruence.
Qed.

Lemma pick_counts vars now s r s' :
  counts_ok (counts s) -> pick env sched rid is_candidate_eligible vars now s = (r, s') ->
  match r with
  | Ok picked => counts s' = leased (sel_lease picked.1) (counts s)
  | _ => counts s' = counts s
  end.
Proof.
  intros Hok H. unfold pick, bind at 1 in H. destruct (on_scheduler env _ s) as [r1 s1] eqn:H1.
  apply (on_scheduler_counts now (fun v c id => negb (exclusion_contains (lv_exclusions vars) c id) && binding_healthy v c id
    && binding_within_quota v c id)) in H1.
  destruct r1 as [[sel|e|]|e|]; unfold ret, panic in H; try (by simplify_eq).
  unfold bind in H. destruct (to_option _) as [remaining|]; [|unfold raise in H; by simplify_eq].
  destruct (begin_quota_recovery_probe_selection _ _ _ _ _ _ _ s1) as [r2 s2] eqn:H2.
  apply begin_counts in H2; [|by rewrite H1]. rewrite H1 in H2.
  destruct r2 as [[[sel probe]|]|e2|]; unfold raise in H; by simplify_eq.
Qed.

Lemma started_is_selected vars sel probe s a s' :
  start_selected env config request_id rid vars sel probe s = (Ok (inl a), s') -> started_selection a = sel.
Proof.
  assert (forall z started budget excl s0 s1, exit_ok env request_id rid sel started z budget excl s0 s1 (Ok (inl a)) ->
    started_selection a = sel) as Hexit by (intros * (_ & events & output & -> & _); done).
  unfold start_selected, bind at 1. destruct (clock_now_ms env s) as [[started|e|] s1]; [|done..].
  destruct (can_start_at _ _); cbn [negb]; [|done]. unfold bind at 1, lift at 1.
  destruct (remaining_at _ _) as [remaining|e|]; [|done..]. cbv zeta. unfold bind at 1, lift at 1.
  destruct (ok_or _ _) as [number|e|]; [|done..]. unfold bind at 1.
  destruct (run_attempt env _ s1) as [[[output|f|]|e|] s2]; try done; intros H.
  - eapply (after_success_spec _ _ _ _ _ _ _ ∅) in H. by eapply Hexit.
  - eapply after_failure_spec in H. by eapply Hexit.
Qed.

Lemma iteration_counts vars s r s' :
  counts_ok (counts s) -> iteration env config sched request_id rid is_candidate_eligible vars s = (r, s') ->
  match r with
  | Ok (inl a) => counts s' = leased (sel_lease (started_selection a)) (counts s)
  | _ => counts s' = counts s
  end.
Proof.
  intros Hok H. unfold iteration, bind at 1 in H. pose proof (steady_cancelled s) as H1.
  destruct (is_cancelled env s) as [[[]|e|] s1]; unfold same_counts, raise in *; cbn [snd] in H1; try (by simplify_eq).
  unfold bind at 1 in H. pose proof (steady_clock s1) as H2. unfold same_counts in H2.
  destruct (clock_now_ms env s1) as [[now|e|] s2]; cbn [snd] in H2; try (simplify_eq; congruence).
  destruct (can_start_at _ _); cbn [negb] in H; [|unfold raise in H; simplify_eq; congruence].
  unfold bind at 1 in H. destruct (pick _ _ _ _ _ _ s2) as [r3 s3] eqn:H3.
  assert (counts s2 = counts s) as Hs2 by congruence.
  apply pick_counts in H3; [|by rewrite Hs2]. rewrite Hs2 in H3.
  destruct r3 as [[sel probe]|e|]; try (simplify_eq; congruence). cbn [fst snd] in H, H3.
  apply (scoped_held sel _ s3 (counts s)) in H; [|apply steady_start_selected|apply started_is_selected|done|done].
  destruct r as [[a|v]|e|]; [|exact H..]. by destruct H as [-> ?].
Qed.

Lemma loop_counts fuel vars s r s' :
  counts_ok (counts s) ->
  attempt_loop env config sched request_id rid is_candidate_eligible fuel vars s = (r, s') ->
  match r with
  | Ok (Some a) => counts s' = leased (sel_lease (started_selection a)) (counts s)
  | _ => counts s' = counts s
  end.
Proof.
  revert vars s. induction fuel as [|fuel IH]; intros vars s Hok H.
  { unfold attempt_loop, ret in H. by simplify_eq. }
  cbn [attempt_loop] in H. unfold bind in H.
  destruct (iteration _ _ _ _ _ _ vars s) as [r1 s1] eqn:H1. apply iteration_counts in H1; [|done].
  destruct r1 as [[a|vars']|e|]; unfold ret in H; try (by simplify_eq).
  specialize (IH vars' s1 ltac:(by rewrite H1) H). by rewrite H1 in IH.
Qed.

Lemma start_counts fuel s r s' :
  counts_ok (counts s) -> start_inner env config sched request_id rid is_candidate_eligible fuel s = (r, s') ->
  match r with
  | Ok (Some a) => counts s' = leased (sel_lease (started_selection a)) (counts s)
  | _ => counts s' = counts s
  end.
Proof.
  intros Hok H. unfold start_inner, bind at 1 in H. pose proof (steady_cancelled s) as H1.
  destruct (is_cancelled env s) as [[[]|e|] s1]; unfold same_counts, raise in *; cbn [snd] in H1; try (by simplify_eq).
  unfold bind at 1, lift at 1 in H. destruct (routes _ !! _); cbn [ok_or] in H; [|by simplify_eq].
  unfold bind at 1 in H. pose proof (steady_clock s1) as H2. unfold same_counts in H2.
  destruct (clock_now_ms env s1) as [[now|e|] s2]; cbn [snd] in H2; try (simplify_eq; congruence).
  unfold bind at 1, lift at 1 in H. assert (counts s2 = counts s) as Hs2 by congruence.
  destruct (budget_from_route _ _) as [b|e|]; try (by simplify_eq).
  apply loop_counts in H; [|by rewrite Hs2]. by rewrite Hs2 in H.
Qed.
End Leases.

(** ** Properties *)

Section Properties.
Context `{!ShardHash RuntimeHealthKey, !ShardHash Quota.RuntimeQuotaTarget}.
Context {T : Type} (env : Env T) (config : AttemptOrchestratorConfig).
Context (sched : RouteCredentialScheduler) (request_id : option RequestId) (rid : RouteId).
Context (is_candidate_eligible : SnapshotRouteCandidate -> bool).

(** C1: The retry loop terminates.  With more fuel than the route's maximum
    attempt count it always returns a started attempt or an error, whatever the
    clocks, the gate and the driver answer and whatever concurrent requests do
    to the shared state, as long as they keep the registries consistent; it
    never panics, leaves the registries consistent, and has called the driver
    at most [max_attempts] times. *)
Theorem start_terminates route fuel s :
  routes (rs_snapshot sched) !! rid = Some route -> (Z.to_nat (max_attempts route) < fuel)%nat ->
  shared_ok (o_shared s) -> (forall t sh, shared_ok sh -> shared_ok (env_interfere env t sh)) ->
  exists r s' calls, start_inner env config sched request_id rid is_candidate_eligible fuel s = (r, s')
    /\ ((exists a, r = Ok (Some a)) \/ (exists e, r = Err e)) /\ shared_ok (o_shared s')
    /\ o_calls s' = o_calls s ++ calls /\ (length calls <= Z.to_nat (max_attempts route))%nat.
Proof.
  intros Hroute Hfuel Hok Hint.
  destruct (safe_start env config sched request_id rid is_candidate_eligible Hint fuel s Hok) as [Hp Hok'].
  destruct (start_inner _ _ _ _ _ _ fuel s) as [r s'] eqn:H. cbn [fst snd] in Hp, Hok'.
  destruct (start_inner_runs _ _ _ _ _ _ _ _ _ _ H) as (calls & events & Hc & He & Hrun).
  exists r, s', calls. split; [done|].
  assert (length calls <= Z.to_nat (max_attempts route))%nat as Hlen.
  { destruct Hrun as [(-> & _ & _)|(route' & now & b & Hr & _ & Hb & Hrun)]; [simpl; lia|]. simplify_eq.
    apply budget_from_route_ok in Hb as (Hb & Hs & Hm & _). apply run_length in Hrun; [|done].
    cbn [lv_budget] in Hrun. lia. }
  split_and!; try done. destruct Hrun as [(_ & _ & e & ->)|(route' & now & b & Hr & _ & Hb & Hrun)]; [eauto|].
  destruct r as [[a|]|e|]; [eauto| |eauto|done].
  apply run_fuel in Hrun; [|done]. lia.
Qed.

(** C2: One external request never calls the driver twice with the same
    candidate and credential; every call is for a candidate of the requested
    route that the caller's predicate admits, holds a lease of that candidate's
    own Endpoint, starts strictly before the deadline fixed by the first clock
    reading plus the route's bootstrap timeout, and is given exactly the time
    that remains until it. *)
Theorem start_calls_are_admissible fuel s r s' :
  start_inner env config sched request_id rid is_candidate_eligible fuel s = (r, s') ->
  exists calls, o_calls s' = o_calls s ++ calls /\ NoDup (call_binding <$> calls)
    /\ (calls = [] \/ exists route now, routes (rs_snapshot sched) !! rid = Some route
          /\ env_clock env (S (o_tick s)) = Some now
          /\ Forall (call_admissible sched rid is_candidate_eligible (now + bootstrap_timeout_ms route)) calls).
Proof.
  intros H. destruct (start_inner_runs _ _ _ _ _ _ _ _ _ _ H) as (calls & events & Hc & He & Hrun).
  exists calls. split; [done|]. destruct Hrun as [(-> & _ & _)|(route & now & b & Hr & Hclk & Hb & Hrun)].
  { split; [constructor|by left]. }
  apply budget_from_route_ok in Hb as (Hb & _ & _ & Hd).
  split; [by eapply run_bindings|]. right. exists route, now. split_and!; [done..|].
  rewrite <- Hd. by apply run_calls in Hrun.
Qed.

(** C4: With a request id, a call that does not panic emits exactly one event per
    driver call, in order: event [i] carries attempt number [i+1], the derived
    attempt id and the request, route, candidate, credential, Endpoint and start
    time of call [i]; every event but the last says the failure was retried; and
    the last one explains the result (a success with the number of attempts and
    the selection handed to the caller, or the failure and decision from which
    the returned error follows). *)
Theorem attempt_events_are_faithful req fuel s r s' :
  request_id = Some req ->
  start_inner env config sched request_id rid is_candidate_eligible fuel s = (r, s') -> r <> Panic ->
  exists calls events, o_calls s' = o_calls s ++ calls /\ o_events s' = o_events s ++ events
    /\ events_follow rid req 1 calls events
    /\ result_explained (Z.of_nat (length calls)) (last calls) (last events) r.
Proof.
  intros Hreq H Hp. destruct (start_inner_runs _ _ _ _ _ _ _ _ _ _ H) as (calls & events & Hc & He & Hrun).
  exists calls, events. split; [done|]. split; [done|].
  destruct Hrun as [(-> & -> & e & ->)|(route & now & b & Hr & Hclk & Hb & Hrun)].
  { split; [|done]. split; [done|]. by intros []. }
  apply budget_from_route_ok in Hb as (Hb & Hs & _).
  destruct (run_events _ _ _ _ _ _ _ _ _ _ _ Hreq Hrun Hb Hp) as [H1 H2].
  unfold next_number in H1. cbn [lv_budget] in H1, H2. rewrite Hs in H1, H2. done.
Qed.

(** C3: Credential capacity does not leak: when no concurrent request changes the
    pools meanwhile, a call that returns an error leaves every lease count as it
    was, and a call that returns a started attempt leaves exactly the lease of the
    returned selection taken, all leases of failed attempts and abandoned
    selections having been given back. *)
Theorem start_returns_leases fuel s r s' :
  (forall t sh, env_interfere env t sh = sh) -> counts_ok (counts s) ->
  start_inner env config sched request_id rid is_candidate_eligible fuel s = (r, s') ->
  counts s' = match r with
              | Ok (Some a) => leased (sel_lease (started_selection a)) (counts s)
              | _ => counts s
              end.
Proof.
  intros Halone Hok H. apply start_counts in H; [|done|done]. by destruct r as [[]| |].
Qed.

(** Once the gate no longer allows a transparent retry, because output has
    reached the client, a failure is final: under a gate that never allows one
    the driver is called at most once. *)
Lemma closed_gate_stops_retries fuel s r s' :
  (forall t, env_allows_retry env t = false) ->
  start_inner env config sched request_id rid is_candidate_eligible fuel s = (r, s') ->
  (length (o_calls s') <= length (o_calls s) + 1)%nat.
Proof.
  intros Hgate H. destruct (start_inner_runs _ _ _ _ _ _ _ _ _ _ H) as (calls & events & -> & He & Hrun).
  rewrite length_app. destruct Hrun as [(-> & _ & _)|(route & now & b & Hr & _ & Hb & Hrun)]; [simpl; lia|].
  apply run_gate_closed in Hrun; [lia|done].
Qed.
End Properties.

(** ** Witnesses *)

Section Witnesses.
#[local] Existing Instance ex_hash.
#[local] Existing Instance Quota.ex_qhash.

(** Credential [b] is rate limited, the others answer; the clock stands still. *)
Definition ex_env : Env nat := mkEnv nat (fun _ => Some 10) (fun _ => false) (fun _ => true) (fun d => d)
  (fun _ call => if bool_decide (selection_credential_id (dc_selection call) = mkId "b")
                 then AwaitFailed (AFRateLimited None) else AwaitSucceeded 7%nat)
  (fun _ sh => sh).
Definition ex_closed_env : Env nat := mkEnv nat (fun _ => Some 10) (fun _ => false) (fun _ => false) (fun d => d)
  (fun _ _ => AwaitFailed (AFRateLimited None)) (fun _ sh => sh).
Definition ex_orch : OrchState := mkOrch (mkShared ex_state ex_registry Quota.ex_registry) 0 [] [].
Definition ex_request : RequestId := mkId "request-1".

Abbreviation ex_start env fuel :=
  (start_inner env config_default ex_scheduler (Some ex_request) (mkId "route-a") (fun _ => true) fuel ex_orch).

Lemma ex_shared_ok : shared_ok (o_shared ex_orch).
Proof.
  destruct (ex_registry_ok []) as (H1 & H2 & _). destruct (Quota.ex_qregistry_ok []) as (H3 & H4 & _). by split_and!.
Qed.

(** Two attempts: [b] fails, its sibling [a] starts. *)
Lemma ex_start_result :
  is_ok_and (fun r => match r with
                      | Some a => (started_attempts a =? 2) && bool_decide (selection_credential_id (started_selection a) = mkId "a")
                      | None => false
                      end) (ex_start ex_env 4).1 = true.
Proof. vm_compute. reflexivity. Qed.

Lemma start_terminates_witness :
  exists r s' calls, ex_start ex_env 4 = (r, s') /\ ((exists a, r = Ok (Some a)) \/ (exists e, r = Err e))
    /\ o_calls s' = calls /\ (length calls <= 3)%nat.
Proof.
  destruct (start_terminates ex_env config_default ex_scheduler (Some ex_request) (mkId "route-a") (fun _ => true)
    ex_route 4 ex_orch) as (r & s' & calls & H & Hr & _ & Hc & Hl).
  - apply ex_route_found.
  - simpl. lia.
  - exact ex_shared_ok.
  - intros t sh H. exact H.
  - exists r, s', calls. split; [exact H|]. split; [exact Hr|]. split; [exact Hc|exact Hl].
Defined.

Lemma start_calls_are_admissible_witness :
  exists calls, o_calls (ex_start ex_env 4).2 = [] ++ calls /\ NoDup (call_binding <$> calls).
Proof.
  destruct (ex_start ex_env 4) as [r s'] eqn:H.
  destruct (start_calls_are_admissible ex_env config_default ex_scheduler (Some ex_request) (mkId "route-a")
    (fun _ => true) 4 ex_orch r s' H) as (calls & Hc & Hn & _).
  exists calls. split; [exact Hc|exact Hn].
Defined.

Lemma attempt_events_are_faithful_witness :
  exists calls events, o_calls (ex_start ex_env 4).2 = [] ++ calls /\ o_events (ex_start ex_env 4).2 = [] ++ events
    /\ events_follow (mkId "route-a") ex_request 1 calls events.
Proof.
  pose proof ex_start_result as Hr. destruct (ex_start ex_env 4) as [r s'] eqn:H.
  destruct (attempt_events_are_faithful ex_env config_default ex_scheduler (Some ex_request) (mkId "route-a")
    (fun _ => true) ex_request 4 ex_orch r s' eq_refl H) as (calls & events & Hc & He & Hf & _).
  - intros ->. cbn [fst is_ok_and] in Hr. discriminate Hr.
  - exists calls, events. split; [exact Hc|]. split; [exact He|exact Hf].
Defined.

Lemma start_returns_leases_witness :
  exists a, (ex_start ex_env 4).1 = Ok (Some a)
    /\ counts (ex_start ex_env 4).2 = leased (sel_lease (started_selection a)) (counts ex_orch).
Proof.
  pose proof ex_start_result as Hr. destruct (ex_start ex_env 4) as [r s'] eqn:H.
  pose proof (start_returns_leases ex_env config_default ex_scheduler (Some ex_request) (mkId "route-a")
    (fun _ => true) 4 ex_orch r s' (fun _ _ => eq_refl)) as Hc.
  destruct r as [[a|]|e|]; cbn [fst is_ok_and] in Hr; [|discriminate Hr|discriminate Hr|discriminate Hr].
  exists a. split; [reflexivity|]. apply Hc; [|exact H].
  intros e l He. unfold counts, lease_counts in He. simpl in He. rewrite map_fmap_singleton in He.
  apply lookup_singleton_Some in He as [_ <-]. repeat constructor; simpl; unfold usize_modulus; lia.
Defined.

Lemma closed_gate_stops_retries_witness :
  (length (o_calls (ex_start ex_closed_env 4).2) <= 1)%nat.
Proof.
  destruct (ex_start ex_closed_env 4) as [r s'] eqn:H.
  exact (closed_gate_stops_retries ex_closed_env config_default ex_scheduler (Some ex_request) (mkId "route-a")
    (fun _ => true) 4 ex_orch r s' (fun _ => eq_refl) H).
Defined.
End Witnesses.
