(* ===== verification/RouteExplain.v ===== *)
(** * Route Explain

    Models [crates/gateway-router/src/route_explain.rs] (called by
    [RouteCredentialScheduler::explain]): for a fixed time and fixed schedule
    starts, every candidate of a route with the reasons that exclude it or its
    credentials, and the selection the scheduling policy would make.

    The lease counts of the pools are read twice, once to explain the bindings
    and once to project the selection; [observed] and [peeked] are the two
    readings, since another request may take or return leases in between. *)

From S2P Require Import Prelude Core WeightedSchedule Sharded RuntimeHealth RuntimeQuota CredentialPool Catalog ClientKey RouteSnapshot RouteScheduler CredentialScheduler AttemptOrchestrator.
Local Open Scope string_scope.
Local Open Scope list_scope.
Local Open Scope Z_scope.

Module Explain.

(** ** Data *)

Record RouteExplainInput : Type := mkExplainInput {
  in_route_id : RouteId;
  in_observed_at_ms : Z;
  candidate_schedule_start : Z;
  credential_schedule_start : Z;
}.

(** [RouteExplainInput::new]: the first slot of every tier. *)
Definition explain_input_new (rid : RouteId) (observed_at_ms : Z) : RouteExplainInput :=
  mkExplainInput rid observed_at_ms 0 0.

Inductive RouteExplainError : Type := UnknownRoute | MissingRouteSchedule.

Inductive RouteExplainCandidateReason : Type :=
| NotHardEligible
| EndpointHealth (a : RuntimeHealthAvailability)
| EndpointHealthUnavailable
| MissingCredentialPool
| NoEligibleCredential.

Inductive RouteExplainCredentialReason : Type :=
| RequestExcluded
| Saturated
| CredentialHealth (a : RuntimeHealthAvailability)
| ModelHealth (a : RuntimeHealthAvailability)
| CredentialHealthUnavailable
| ModelHealthUnavailable
| BindingQuota (a : Quota.RuntimeQuotaAvailability)
| ModelQuota (a : Quota.RuntimeQuotaAvailability)
| BindingQuotaUnavailable
| ModelQuotaUnavailable.

Record RouteExplainCredential : Type := mkExplainCredential {
  xc_credential_id : CredentialId;
  xc_priority : Z;
  xc_weight : Z;
  xc_maximum_concurrency : Z;
  xc_active_leases : Z;
  xc_reasons : list RouteExplainCredentialReason;
}.

Definition credential_is_clear (x : RouteExplainCredential) : bool :=
  match xc_reasons x with [] => true | _ => false end.

Record RouteExplainCandidate : Type := mkExplainCandidate {
  xr_candidate_id : RouteCandidateId;
  xr_endpoint_id : EndpointId;
  xr_upstream_id : UpstreamId;
  xr_upstream_model : string;
  xr_priority : Z;
  xr_weight : Z;
  xr_catalog_admission : SnapshotCatalogAdmission;
  xr_active_binding_count : Z;
  xr_reasons : list RouteExplainCandidateReason;
  xr_credentials : list RouteExplainCredential;
}.

(** [RouteExplainCandidate::is_eligible]. *)
Definition candidate_is_clear (x : RouteExplainCandidate) : bool :=
  match xr_reasons x with [] => true | _ => false end && existsb credential_is_clear (xr_credentials x).

Definition credential_is_eligible (x : RouteExplainCandidate) (id : CredentialId) : bool :=
  existsb (fun c => bool_decide (xc_credential_id c = id) && credential_is_clear c) (xr_credentials x).

Record RouteExplainProjectedSelection : Type := mkProjected {
  pj_candidate_id : RouteCandidateId;
  pj_endpoint_id : EndpointId;
  pj_upstream_id : UpstreamId;
  pj_upstream_model : string;
  pj_credential_id : CredentialId;
}.

Record RouteExplainSnapshot : Type := mkExplainSnapshot {
  xs_route_id : RouteId;
  xs_observed_at_ms : Z;
  xs_candidates : list RouteExplainCandidate;
  projected_selection : option RouteExplainProjectedSelection;
}.

(** ** Reasons *)

Definition push_health_reason {E R} (blocked : RuntimeHealthAvailability -> R) (unavailable : R)
    (availability : result E RuntimeHealthAvailability) (reasons : list R) : list R :=
  match availability with
  | Ok a => if av_is_available a then reasons else reasons ++ [blocked a]
  | _ => reasons ++ [unavailable]
  end.

Definition push_quota_reason {E} (blocked : Quota.RuntimeQuotaAvailability -> RouteExplainCredentialReason)
    (unavailable : RouteExplainCredentialReason) (availability : result E Quota.RuntimeQuotaAvailability)
    (reasons : list RouteExplainCredentialReason) : list RouteExplainCredentialReason :=
  match availability with
  | Ok a => if Quota.qav_is_available a then reasons else reasons ++ [blocked a]
  | _ => reasons ++ [unavailable]
  end.

Definition push_if {R} (b : bool) (reason : R) (reasons : list R) : list R :=
  if b then reasons ++ [reason] else reasons.

Section Operations.
Context `{!ShardHash RuntimeHealthKey, !ShardHash Quota.RuntimeQuotaTarget}.
Context (health : HealthRegistry) (quota : Quota.QuotaRegistry).

(** A shard index is in range in every registry the program builds, so the
    lookups below never panic; a read error is a reason of its own. *)
Definition explain_credential (c : SnapshotRouteCandidate) (observed_at_ms : Z)
    (exclusions : AttemptExclusionSet) (entry : CredentialPoolEntrySnapshot) : RouteExplainCredential :=
  let id := snap_credential_id entry in
  let e := cand_endpoint_id c in
  let reasons := push_if (exclusion_contains exclusions c id) RequestExcluded [] in
  let reasons := push_if (is_saturated entry) Saturated reasons in
  let reasons := push_health_reason CredentialHealth CredentialHealthUnavailable
    (availability_at health (HEndpointCredential e id) observed_at_ms) reasons in
  let reasons := push_health_reason ModelHealth ModelHealthUnavailable
    (availability_at health (HEndpointCredentialModel e id (upstream_model c)) observed_at_ms) reasons in
  let reasons := push_quota_reason BindingQuota BindingQuotaUnavailable
    (Quota.availability_at quota (Quota.EndpointCredential e id) observed_at_ms) reasons in
  let model_quota : result unit Quota.RuntimeQuotaAvailability :=
    let? tgt := map_err (fun _ => tt) (Quota.endpoint_credential_model e id (upstream_model c)) in
    map_err (fun _ => tt) (Quota.availability_at quota tgt observed_at_ms) in
  let reasons := push_quota_reason ModelQuota ModelQuotaUnavailable model_quota reasons in
  mkExplainCredential id (snap_priority entry) (snap_weight entry) (snap_maximum_concurrency entry)
    (snap_active_leases entry) reasons.

(** [credential_pools.pool(endpoint)] with the lease counts it is read with. *)
Definition pool_of (pools : Pools) (states : PoolStates) (e : EndpointId)
  : option (EndpointCredentialPool * PoolState) :=
  match pools !! e, states !! e with
  | Some pool, Some st => Some (pool, st)
  | _, _ => None
  end.

Definition explain_candidate (pools : Pools) (observed : PoolStates) (observed_at_ms : Z)
    (exclusions : AttemptExclusionSet) (c : SnapshotRouteCandidate) : RouteExplainCandidate :=
  let reasons := push_if (negb (is_hard_eligible c)) NotHardEligible [] in
  let reasons := push_health_reason EndpointHealth EndpointHealthUnavailable
    (availability_at health (HEndpoint (cand_endpoint_id c)) observed_at_ms) reasons in
  let pool := pool_of pools observed (cand_endpoint_id c) in
  let credentials :=
    match pool with
    | Some (pool, st) => explain_credential c observed_at_ms exclusions <$> diagnostic_entries pool st
    | None => []
    end in
  let reasons := match pool with Some _ => reasons | None => reasons ++ [MissingCredentialPool] end in
  let reasons := push_if (negb (existsb credential_is_clear credentials)) NoEligibleCredential reasons in
  mkExplainCandidate (cand_id c) (cand_endpoint_id c) (cand_upstream_id c) (upstream_model c)
    (cand_priority c) (cand_weight c) (catalog_admission c) (active_binding_count c) reasons credentials.

(** ** Projection *)

Section Projection.
Context (pools : Pools) (peeked : PoolStates) (cstart kstart : Z).

(** What the loop body makes of one candidate; [None] is [continue]. *)
Definition project_candidate (x : RouteExplainCandidate)
  : result unit (option RouteExplainProjectedSelection) :=
  if negb (candidate_is_clear x) then Ok None
  else match pool_of pools peeked (xr_endpoint_id x) with
       | None => Ok None
       | Some (pool, st) =>
           let? found := peek_eligible_from pool st kstart (credential_is_eligible x) in
           Ok ((fun entry => mkProjected (xr_candidate_id x) (xr_endpoint_id x) (xr_upstream_id x)
                  (xr_upstream_model x) (snap_credential_id entry)) <$> found)
       end.

(** [for offset in 0..slot_indexes.len()]; [Some None] is the return of a [?]. *)
Fixpoint project_slots (candidates : list RouteExplainCandidate) (slots : list nat) (offsets : list nat)
  : result unit (option (option RouteExplainProjectedSelection)) :=
  match offsets with
  | [] => Ok None
  | offset :: rest =>
      let slot_index := usize_wrapping_add cstart (Z.of_nat offset) mod Z.of_nat (length slots) in
      match slots !! Z.to_nat slot_index with
      | None => Ok (Some None)
      | Some candidate_index =>
          match candidates !! candidate_index with
          | None => Ok (Some None)
          | Some x =>
              let? projected := project_candidate x in
              match projected with
              | Some p => Ok (Some (Some p))
              | None => project_slots candidates slots rest
              end
          end
      end
  end.

(** [for tier in schedule.priority_tiers()]. *)
Fixpoint project_selection (candidates : list RouteExplainCandidate)
    (tiers : list SnapshotPriorityTierSchedule) : result unit (option RouteExplainProjectedSelection) :=
  match tiers with
  | [] => Ok None
  | tier :: rest =>
      let slots := sched_slot_indexes tier in
      let? found := project_slots candidates slots (seq 0 (length slots)) in
      match found with
      | Some answer => Ok answer
      | None => project_selection candidates rest
      end
  end.
End Projection.

Definition explain (snapshot : RouteSnapshot) (pools : Pools) (observed peeked : PoolStates)
    (input : RouteExplainInput) (exclusions : AttemptExclusionSet)
  : result RouteExplainError RouteExplainSnapshot :=
  let? r := ok_or UnknownRoute (routes snapshot !! in_route_id input) in
  let? schedule := ok_or MissingRouteSchedule (route_schedules snapshot !! in_route_id input) in
  let explained :=
    explain_candidate pools observed (in_observed_at_ms input) exclusions <$> candidates r in
  match project_selection pools peeked (candidate_schedule_start input) (credential_schedule_start input)
          explained (schedule_tiers schedule) with
  | Ok projected =>
      Ok (mkExplainSnapshot (in_route_id input) (in_observed_at_ms input) explained projected)
  | _ => Panic
  end.
End Operations.

(** ** Lemmas: the reasons are the scheduler's own conditions *)

Lemma push_if_nil {R} b (x : R) l : push_if b x l = [] <-> b = false /\ l = [].
Proof. unfold push_if. destruct b; [|naive_solver]. split; [by intros [_ ?]%app_nil|by intros [? _]]. Qed.

Lemma push_health_nil {E R} (f : RuntimeHealthAvailability -> R) u (a : result E _) l :
  push_health_reason f u a l = [] <-> is_ok_and av_is_available a = true /\ l = [].
Proof.
  unfold push_health_reason, is_ok_and. destruct a as [a| |]; [case_match; [naive_solver|]|..];
    (split; [by intros [_ ?]%app_nil|by intros [? _]]).
Qed.

Lemma push_quota_nil {E} f u (a : result E _) l :
  push_quota_reason f u a l = [] <-> is_ok_and Quota.qav_is_available a = true /\ l = [].
Proof.
  unfold push_quota_reason, is_ok_and. destruct a as [a| |]; [case_match; [naive_solver|]|..];
    (split; [by intros [_ ?]%app_nil|by intros [? _]]).
Qed.

Lemma nil_true {R} (l : list R) : (match l with [] => true | _ => false end) = true <-> l = [].
Proof. by destruct l. Qed.

Lemma is_ok_and_map_err {E F A} (f : A -> bool) (g : E -> F) (r : result E A) :
  is_ok_and f (map_err g r) = is_ok_and f r.
Proof. by destruct r. Qed.

Section Reasons.
Context `{!ShardHash RuntimeHealthKey, !ShardHash Quota.RuntimeQuotaTarget}.
Context (health : HealthRegistry) (quota : Quota.QuotaRegistry) (observed_at_ms : Z).
Context (exclusions : AttemptExclusionSet).

(** The registries as a selection at the same instant reads them. *)
Definition explain_view : RuntimeView :=
  mkView health (Some observed_at_ms) quota (Some observed_at_ms).

Definition not_excluded (c : SnapshotRouteCandidate) (id : CredentialId) : bool :=
  negb (exclusion_contains exclusions c id).

(** A binding the registries and the request admit, capacity and expiry aside. *)
Definition binding_clear (c : SnapshotRouteCandidate) (id : CredentialId) : bool :=
  not_excluded c id && binding_healthy explain_view c id && binding_within_quota explain_view c id.

Lemma credential_clear_iff c entry :
  credential_is_clear (explain_credential health quota c observed_at_ms exclusions entry) = true
  <-> binding_clear c (snap_credential_id entry) = true /\ is_saturated entry = false.
Proof.
  unfold credential_is_clear, explain_credential, binding_clear, not_excluded. cbn [xc_reasons].
  rewrite nil_true, !push_quota_nil, !push_health_nil, !push_if_nil.
  unfold binding_healthy, binding_within_quota, endpoint_credential_is_available,
    endpoint_credential_model_is_available, Quota.endpoint_credential_is_available,
    Quota.endpoint_credential_model_is_available, availability, Quota.availability, read_clock.
  rewrite !andb_true_iff, negb_true_iff. cbn [explain_view view_health view_health_clock view_quota view_quota_clock ok_or result_bind].
  unfold Quota.endpoint_credential_model. case_bool_decide; cbn [map_err result_bind is_ok_and];
    rewrite ?is_ok_and_map_err; naive_solver.
Qed.

Definition clear_slot (c : SnapshotRouteCandidate) (x : CredentialSlot) : bool :=
  binding_clear c (credential_id x).

Definition hard_admitted : SnapshotRouteCandidate -> bool := candidate_admitted explain_view is_hard_eligible.

Section Candidate.
Context (pools : Pools) (states : PoolStates).

Abbreviation explained := (explain_candidate health quota pools states observed_at_ms exclusions).

Lemma clear_entry_iff c pool st (f : CredentialId -> bool) :
  existsb (fun x => f (xc_credential_id x) && credential_is_clear x)
    (explain_credential health quota c observed_at_ms exclusions <$> diagnostic_entries pool st) = true
  <-> exists i, can_lease pool (fun x => f (credential_id x) && clear_slot c x) (active_leases st) i.
Proof.
  unfold diagnostic_entries, can_lease. rewrite existsb_exists. setoid_rewrite <- list_elem_of_In.
  setoid_rewrite list_elem_of_fmap. setoid_rewrite elem_of_lookup_zip_with. split.
  - intros (x & (entry & -> & i & cred & n & -> & Hc & Hn) & Hx). exists i, cred, n.
    apply andb_true_iff in Hx as [Hf Hx]. apply credential_clear_iff in Hx as [Hb Hs]. simpl in *.
    unfold is_saturated in Hs. simpl in Hs. bool_simp. split_and!; try done. unfold clear_slot. by rewrite Hf, Hb.
  - intros (i & cred & n & Hc & Hn & Hx & Hlt). apply andb_true_iff in Hx as [Hf Hb].
    eexists. split; [exists (entry_snapshot cred n); split; [done|]; by exists i, cred, n|].
    simpl. rewrite Hf. simpl. apply credential_clear_iff. split; [done|].
    unfold is_saturated. simpl. by apply Z.leb_gt.
Qed.

Lemma existsb_ext_true {A} (f g : A -> bool) l : (forall x, f x = g x) -> existsb f l = existsb g l.
Proof. intros H. induction l as [|x l IH]; [done|]. simpl. by rewrite H, IH. Qed.

Lemma can_lease_ext pool f g active i :
  (forall x, f x = g x) -> can_lease pool f active i <-> can_lease pool g active i.
Proof. intros H. unfold can_lease. by setoid_rewrite H. Qed.

(** A candidate is explained as eligible exactly when it is leasable, expiry aside. *)
Lemma candidate_clear_iff c :
  candidate_is_clear (explained c) = true
  <-> leasable pools (lease_counts states) hard_admitted clear_slot c.
Proof.
  unfold candidate_is_clear, explain_candidate. cbn [xr_reasons xr_credentials].
  rewrite andb_true_iff, nil_true, push_if_nil, negb_false_iff.
  unfold leasable, free_credential, hard_admitted, candidate_admitted, candidate_healthy, endpoint_is_available,
    availability, read_clock. cbn [explain_view view_health view_health_clock ok_or result_bind].
  unfold pool_of, lease_counts. setoid_rewrite lookup_fmap.
  destruct (pools !! cand_endpoint_id c) as [pool|] eqn:Hp; [destruct (states !! cand_endpoint_id c) as [st|] eqn:Hs|].
  - rewrite push_health_nil, push_if_nil, negb_false_iff, andb_true_iff.
    pose proof (clear_entry_iff c pool st (fun _ => true)) as He. simpl in He.
    rewrite (existsb_ext_true _ credential_is_clear) in He by done. split.
    + intros [[Hex (? & ? & _)] _]. split; [done|]. apply He in Hex as [i Hi].
      exists i, pool, (active_leases st). done.
    + intros [[? ?] (i & pool' & active & ? & ? & Hi)]. simplify_eq/=.
      assert (existsb credential_is_clear
        (explain_credential health quota c observed_at_ms exclusions <$> diagnostic_entries pool' st) = true) as Hx
        by (apply He; by exists i).
      by rewrite Hx.
  - split; [by intros [[? _] _]|]. intros [_ (i & pool' & active & _ & ? & _)]. done.
  - split; [by intros [[? _] _]|]. intros [_ (i & pool' & active & ? & _)]. done.
Qed.

Lemma credential_eligible_iff c pool st id :
  pool_of pools states (cand_endpoint_id c) = Some (pool, st) ->
  credential_is_eligible (explained c) id = true
  <-> exists i, can_lease pool (fun x => bool_decide (credential_id x = id) && clear_slot c x) (active_leases st) i.
Proof.
  intros Hpool. unfold credential_is_eligible, explain_candidate. cbn [xr_credentials]. rewrite Hpool.
  pose proof (clear_entry_iff c pool st (fun x : CredentialId => bool_decide (x = id))) as He. exact He.
Qed.

(** Asking for the identity and the capacity again finds the clear slots. *)
Lemma eligible_with_capacity c pool st i cred n :
  pool_of pools states (cand_endpoint_id c) = Some (pool, st) ->
  credentials pool !! i = Some cred -> active_leases st !! i = Some n ->
  credential_is_eligible (explained c) (credential_id cred) && has_capacity cred n
  = clear_slot c cred && has_capacity cred n.
Proof.
  intros Hpool Hc Hn. apply eq_true_iff_eq. rewrite !andb_true_iff.
  rewrite (credential_eligible_iff _ _ _ _ Hpool). unfold has_capacity. rewrite Z.ltb_lt. split.
  - intros [(j & cred' & n' & _ & _ & Hx & _) Hlt]. split; [|done]. bool_simp. unfold clear_slot in *. congruence.
  - intros [Hb Hlt]. split; [|done]. exists i, cred, n. split_and!; try done. by rewrite bool_decide_true, Hb.
Qed.
End Candidate.
End Reasons.

(** ** Lemmas: peeking is leasing without the lease *)

Section Peek.
Context (pool : EndpointCredentialPool) (active : list Z).
Context (f : CredentialId -> bool) (g : CredentialSlot -> bool).
Hypothesis agree : forall i cred n, credentials pool !! i = Some cred -> active !! i = Some n ->
  f (credential_id cred) && has_capacity cred n = g cred && has_capacity cred n.

(** The entry a scan result stands for. *)
Definition peeked_entry (i : nat) : option CredentialPoolEntrySnapshot :=
  match credentials pool !! i, active !! i with
  | Some cred, Some n => Some (entry_snapshot cred n)
  | _, _ => None
  end.

Lemma peek_slots_scan slots start offsets :
  peek_slots pool f slots start offsets active
  = match scan_slots pool g slots start offsets active with
    | ScanFound i _ => Ok (Some (peeked_entry i))
    | ScanNone => Ok None
    | ScanReturn => Ok (Some None)
    | ScanPanic => Panic
    end.
Proof.
  induction offsets as [|o offsets IH]; [done|]. simpl. destruct (slots !! _) as [i|]; [|done].
  destruct (credentials pool !! i) as [cred|] eqn:Hc; [|done]. destruct (active !! i) as [m|] eqn:Hm; [|done].
  rewrite (agree _ _ _ Hc Hm). unfold acquire, has_capacity.
  destruct (g cred); simpl; [|apply IH]. rewrite Z.ltb_antisym.
  destruct (maximum_concurrency cred <=? m); simpl; [apply IH|]. unfold peeked_entry. by rewrite Hc, Hm.
Qed.

Lemma peek_tiers_scan tiers start :
  peek_tiers pool f tiers start active
  = match (scan_tiers pool g tiers (replicate (length tiers) start) active).1 with
    | Ok (Some i) => Ok (peeked_entry i)
    | Ok None => Ok None
    | _ => Panic
    end.
Proof.
  induction tiers as [|tier tiers IH]; [done|]. simpl. rewrite peek_slots_scan.
  destruct (scan_slots _ _ _ _ _ _); simpl; try done.
  rewrite IH. by destruct (scan_tiers _ _ _ _ _) as [? [? ?]].
Qed.
End Peek.

Lemma scan_slots_ext pool f g slots start offsets active :
  (forall x, x ∈ credentials pool -> f x = g x) ->
  scan_slots pool f slots start offsets active = scan_slots pool g slots start offsets active.
Proof.
  intros Hfg. induction offsets as [|o offsets IH]; [done|]. simpl. destruct (slots !! _) as [i|]; [|done].
  destruct (credentials pool !! i) as [cred|] eqn:Hc; [|done]. destruct (active !! i); [|done].
  rewrite Hfg by (by eapply list_elem_of_lookup_2). by rewrite IH.
Qed.

Lemma scan_tiers_ext pool f g tiers curs active :
  (forall x, x ∈ credentials pool -> f x = g x) ->
  scan_tiers pool f tiers curs active = scan_tiers pool g tiers curs active.
Proof.
  intros Hfg. revert curs. induction tiers as [|tier tiers IH]; intros [|c curs]; try done. simpl.
  rewrite (scan_slots_ext _ f g) by done. destruct (scan_slots _ _ _ _ _ _); try done. by rewrite IH.
Qed.

(** ** Lemmas: the projection visits candidates as the scheduler does *)

Section Visits.
Context (explained : SnapshotRouteCandidate -> RouteExplainCandidate).
Context (project : RouteExplainCandidate -> result unit (option RouteExplainProjectedSelection)).

(** The loop body as a predicate that keeps what it projected. *)
Definition project_closure (c : SnapshotRouteCandidate)
  : M (option RouteExplainProjectedSelection) unit bool :=
  fun w => match project (explained c) with
           | Ok (Some p) => (Ok true, Some p)
           | Ok None => (Ok false, w)
           | Err e => (Err e, w)
           | Panic => (Panic, w)
           end.
End Visits.

Section Projection.
Context (pools : Pools) (peeked : PoolStates) (cstart kstart : Z).
Context (explained : SnapshotRouteCandidate -> RouteExplainCandidate) (r : SnapshotRoute).

Abbreviation closure := (project_closure explained (project_candidate pools peeked kstart)).

Lemma project_slots_scan slots offsets w :
  slots <> [] ->
  match scan_candidates closure r slots cstart offsets w with
  | (Ok (Some (Some _)), w') =>
      project_slots pools peeked cstart kstart (explained <$> candidates r) slots offsets = Ok (Some w')
  | (Ok (Some None), _) =>
      project_slots pools peeked cstart kstart (explained <$> candidates r) slots offsets = Ok (Some None)
  | (Ok None, w') =>
      project_slots pools peeked cstart kstart (explained <$> candidates r) slots offsets = Ok None /\ w' = w
  | (Err e, _) => project_slots pools peeked cstart kstart (explained <$> candidates r) slots offsets = Err e
  | (Panic, _) => project_slots pools peeked cstart kstart (explained <$> candidates r) slots offsets = Panic
  end.
Proof.
  intros Hne. induction offsets as [|o offsets IH]; [done|]. simpl.
  destruct (scan_index_valid slots (usize_wrapping_add cstart (Z.of_nat o)) Hne) as [i ->].
  rewrite list_lookup_fmap. destruct (candidates r !! i) as [c|]; [|done]. simpl.
  unfold bind, project_closure. destruct (project_candidate _ _ _ _) as [[p|]| |]; done.
Qed.

Lemma project_selection_select tiers :
  Forall (tier_in_range r) tiers ->
  match select_tiers closure r tiers (replicate (length tiers) cstart) None with
  | (Ok (Some _), (_, w)) =>
      project_selection pools peeked cstart kstart (explained <$> candidates r) tiers = Ok w
  | (Ok None, _) =>
      project_selection pools peeked cstart kstart (explained <$> candidates r) tiers = Ok None
  | (Err e, _) => project_selection pools peeked cstart kstart (explained <$> candidates r) tiers = Err e
  | (Panic, _) => project_selection pools peeked cstart kstart (explained <$> candidates r) tiers = Panic
  end.
Proof.
  induction 1 as [|tier tiers [Hne _] Hr IH]; [done|]. cbn [select_tiers length replicate project_selection].
  pose proof (project_slots_scan (sched_slot_indexes tier) (seq 0 (length (sched_slot_indexes tier))) None Hne) as Hs.
  destruct (sched_slot_indexes tier) as [|i slots]; [done|].
  destruct (scan_candidates _ _ _ _ _ _) as [[[[c|]|]| |] w]; try (rewrite Hs; done).
  destruct Hs as [-> ->]. cbn [result_bind].
  by destruct (select_tiers _ _ _ _ _) as [[[c|]| |] [? ?]].
Qed.
End Projection.

Lemma nodup_key_inj {A K} `{Countable K} (key : A -> K) l x y :
  NoDup (key <$> l) -> x ∈ l -> y ∈ l -> key x = key y -> x = y.
Proof.
  intros Hnd Hx Hy He. pose proof (by_key_Some key l Hnd (key y)) as Hk.
  assert (by_key key l !! key y = Some x) as H1 by (by apply Hk).
  assert (by_key key l !! key y = Some y) as H2 by (by apply Hk). congruence.
Qed.

(** The first element with a property. *)
Lemma first_unique {A} (P : A -> Prop) l1 c l2 l1' c' l2' :
  l1 ++ c :: l2 = l1' ++ c' :: l2' -> P c -> P c' ->
  Forall (fun x => ~ P x) l1 -> Forall (fun x => ~ P x) l1' -> l1 = l1' /\ c = c'.
Proof.
  revert l1'. induction l1 as [|x l1 IH]; intros [|x' l1'] He Hc Hc' H1 H1'; injection He as <- He; [done|..].
  - by apply Forall_cons in H1' as [? _].
  - by apply Forall_cons in H1 as [? _].
  - apply Forall_cons in H1 as [_ H1]. apply Forall_cons in H1' as [_ H1'].
    by destruct (IH l1' He Hc Hc' H1 H1') as [-> ->].
Qed.

Section Agreement.
Context `{!ShardHash RuntimeHealthKey, !ShardHash Quota.RuntimeQuotaTarget}.
Context (health : HealthRegistry) (quota : Quota.QuotaRegistry) (observed_at_ms : Z).
Context (exclusions : AttemptExclusionSet) (pools : Pools) (kstart : Z).

Abbreviation clear := (clear_slot health quota observed_at_ms exclusions).
Abbreviation admitted := (hard_admitted health quota observed_at_ms).
Abbreviation explained states := (explain_candidate health quota pools states observed_at_ms exclusions).
Abbreviation can states := (leasable pools (lease_counts states) admitted clear).

(** Peeks from [kstart] stay clear of the [usize] wrap-around. *)
Definition start_ok : Prop :=
  forall e pool tier, pools !! e = Some pool -> tier ∈ priority_tiers pool -> cursor_ok tier kstart.

(** The credential of a pool that a lease from [kstart] would take. *)
Definition first_clear (states : PoolStates) (c : SnapshotRouteCandidate) (cred : CredentialSlot) : Prop :=
  exists pool st i, pool_of pools states (cand_endpoint_id c) = Some (pool, st)
    /\ credentials pool !! i = Some cred
    /\ (scan_tiers pool (clear c) (priority_tiers pool)
          (replicate (length (priority_tiers pool)) kstart) (active_leases st)).1 = Ok (Some i).

Definition projection_of (c : SnapshotRouteCandidate) (cred : CredentialSlot) : RouteExplainProjectedSelection :=
  mkProjected (cand_id c) (cand_endpoint_id c) (cand_upstream_id c) (upstream_model c) (credential_id cred).

Lemma project_candidate_spec k states c :
  pools_ready k pools states -> start_ok ->
  (can states c /\ exists cred, first_clear states c cred
     /\ project_candidate pools states kstart (explained states c) = Ok (Some (projection_of c cred)))
  \/ (~ can states c /\ project_candidate pools states kstart (explained states c) = Ok None).
Proof.
  intros Hready Hstart. unfold project_candidate.
  destruct (candidate_is_clear (explained states c)) eqn:Hclear.
  2:{ right. split; [|done]. intros H%candidate_clear_iff. congruence. }
  apply candidate_clear_iff in Hclear. left. split; [done|].
  destruct Hclear as [_ (j & pool & active & Hp & Ha & Hj)].
  destruct (Hready _ pool Hp) as (st & Hst & [[_ Hla Hls] Hcover] & _).
  unfold lease_counts in Ha. rewrite lookup_fmap, Hst in Ha. simplify_eq/=.
  assert (pool_of pools states (cand_endpoint_id c) = Some (pool, st)) as Hpool
    by (unfold pool_of; by rewrite Hp, Hst). rewrite Hpool.
  unfold peek_eligible_from.
  rewrite (peek_tiers_scan pool (active_leases st) _ (clear c))
    by (intros; by eapply eligible_with_capacity).
  assert (Forall2 cursor_ok (priority_tiers pool) (replicate (length (priority_tiers pool)) kstart)) as Hcur.
  { apply Forall2_replicate_r; [done|]. apply Forall_forall. intros tier Hin. by eapply Hstart. }
  destruct (scan_tiers_spec pool (clear c) _ _ _ Hla Hls Hcur) as [(k' & o & i & n & Hch & Hn & Hscan)|[_ Hnone]].
  - destruct (choice_free _ _ _ _ _ _ _ _ Hch) as (cred & n' & Hc & Hn' & _).
    exists cred. split.
    + exists pool, st, i. split_and!; [done..|]. by rewrite Hscan.
    + rewrite Hscan. cbn [fst result_bind]. unfold peeked_entry. by rewrite Hc, Hn'.
  - exfalso. destruct Hj as (cred & n & Hc & Hrest). destruct (Hcover j) as (tier & Ht & Hi); [by eapply lookup_lt_Some|].
    apply (Hnone tier j Ht Hi). by exists cred, n.
Qed.

Abbreviation pclosure states := (project_closure (explained states) (project_candidate pools states kstart)).

Lemma first_projected k states l :
  pools_ready k pools states -> start_ok ->
  (first_accepted (pclosure states) l None = (Ok None, None) /\ Forall (fun x => ~ can states x) l)
  \/ (exists l1 c l2 cred, l = l1 ++ c :: l2 /\ Forall (fun x => ~ can states x) l1 /\ can states c
       /\ first_clear states c cred
       /\ first_accepted (pclosure states) l None = (Ok (Some c), Some (projection_of c cred))).
Proof.
  intros Hready Hstart. induction l as [|c l IH]; [by left|]. simpl. unfold bind, project_closure.
  destruct (project_candidate_spec k states c Hready Hstart) as [(Hc & cred & Hf & ->)|(Hc & ->)].
  - right. exists [], c, l, cred. done.
  - destruct IH as [[IH Hall]|(l1 & c' & l2 & cred & -> & Hall & Hc' & Hf & IH)].
    + left. split; [done|by constructor].
    + right. exists (c :: l1), c', l2, cred. split_and!; try done. by constructor.
Qed.
End Agreement.

(** ** Lemmas: what the scheduler leases *)

Section Lease.
Context (pools : Pools) (cand_ok : SnapshotRouteCandidate -> bool).
Context (slot_ok : SnapshotRouteCandidate -> CredentialSlot -> bool).
Abbreviation closure := (slot_closure pools cand_ok slot_ok).
Abbreviation can states := (leasable pools (lease_counts states) cand_ok slot_ok).

Lemma closure_frame c states lease e :
  cand_endpoint_id c <> e -> (closure c (states, lease)).2.1 !! e = states !! e.
Proof.
  intros Hne. unfold slot_closure, lease_closure. simpl. destruct (cand_ok c); simpl; [|done].
  unfold pools_lease. destruct (pools !! _) as [pool|]; [|done]. destruct (states !! cand_endpoint_id c) as [st|]; [|done].
  destruct (try_lease_slots _ _ _) as [[[i|]|?|] st']; [destruct (credentials pool !! i)|..]; simpl;
    by rewrite lookup_insert_ne.
Qed.

(** An accepted offer leases what the pool's scan finds. *)
Lemma closure_lease c states pool st ls :
  pools !! cand_endpoint_id c = Some pool -> states !! cand_endpoint_id c = Some st ->
  (closure c (states, None)).1 = Ok true -> (closure c (states, None)).2.2 = Some ls ->
  (scan_tiers pool (slot_ok c) (priority_tiers pool) (cursors st) (active_leases st)).1 = Ok (Some (lease_index ls))
  /\ credentials pool !! lease_index ls = Some (lease_credential ls).
Proof.
  intros Hp Hst. unfold slot_closure, lease_closure. simpl. destruct (cand_ok c); simpl; [|done].
  unfold pools_lease. rewrite Hp, Hst. unfold try_lease_slots.
  destruct (scan_tiers _ _ _ _ _) as [[[i|]|?|] [curs active]]; simpl; try done.
  destruct (credentials pool !! i) as [cred|] eqn:Hc; simpl; [|done]. intros _ [= <-]. done.
Qed.

(** The search stops at the first leasable candidate; before it, only pools of
    the candidates it passed were touched. *)
Lemma first_leased l states :
  pools_ready (length l) pools states ->
  match first_accepted closure l (states, None) with
  | (Ok (Some c), (_, lease)) => exists l1 l2 states1 ls, lease = Some ls /\ l = l1 ++ c :: l2
      /\ Forall (fun x => ~ can states x) l1 /\ can states c
      /\ (forall e, e ∉ cand_endpoint_id <$> l1 -> states1 !! e = states !! e)
      /\ (closure c (states1, None)).1 = Ok true /\ (closure c (states1, None)).2.2 = Some ls
  | (Ok None, _) => Forall (fun x => ~ can states x) l
  | _ => False
  end.
Proof.
  revert states. induction l as [|c l IH]; intros states Hr; cbn [first_accepted]; [by constructor|].
  pose proof (closure_complete pools cand_ok slot_ok (length l) c states Hr) as Hc.
  pose proof (closure_sound pools cand_ok slot_ok c states None) as Hs.
  pose proof (fun e => closure_frame c states None e) as Hf. unfold bind.
  destruct (closure c (states, None)) as [[[]|e|] [states' lease']] eqn:Hcl; cbn [ret fst snd] in *;
    [destruct Hs as (ls & -> & _)|destruct Hc as (-> & Hr' & Heq & Hno)|done|done].
  - exists [], l, states, ls. rewrite Hcl. done.
  - specialize (IH states' Hr'). rewrite Heq in IH.
    destruct (first_accepted closure l (states', None)) as [[[x|]|e|] [s'' l'']]; [| |done|done].
    + destruct IH as (l1 & l2 & states1 & ls & -> & -> & Hall & Hx & Hfr & H1 & H2).
      exists (c :: l1), l2, states1, ls. split_and!; try done; [by constructor|].
      intros e He. rewrite fmap_cons, not_elem_of_cons in He. rewrite Hfr by tauto. apply Hf. naive_solver.
    + by constructor.
Qed.
End Lease.

Lemma leasable_ext pools counts cand_ok ok ok' c :
  (forall e pool x, pools !! e = Some pool -> x ∈ credentials pool -> ok c x = ok' c x) ->
  leasable pools counts cand_ok ok c -> leasable pools counts cand_ok ok' c.
Proof.
  intros Hok [Hc (i & pool & active & Hp & Ha & cred & n & Hcr & Hn & Hx & Hlt)]. split; [done|].
  exists i, pool, active. split_and!; try done. exists cred, n. split_and!; try done.
  rewrite <- (Hok _ _ _ Hp); [done|]. by eapply list_elem_of_lookup_2.
Qed.

(** ** Properties *)

Section Properties.
Context `{!ShardHash RuntimeHealthKey, !ShardHash Quota.RuntimeQuotaTarget}.
Context (health : HealthRegistry) (quota : Quota.QuotaRegistry) (now_ms : Z).
Context (exclusions : AttemptExclusionSet) (pools : Pools).

Definition all_unexpired : Prop :=
  forall e pool x, pools !! e = Some pool -> x ∈ credentials pool -> unexpired_at now_ms x = true.

Definition pool_cursors_at (kstart : Z) (states : PoolStates) : Prop :=
  forall e st, states !! e = Some st -> Forall (eq kstart) (cursors st).

Abbreviation slot_ok := (ordinary_slot_ok (explain_view health quota now_ms) now_ms (not_excluded exclusions)).
Abbreviation cand_ok := (hard_admitted health quota now_ms).
Abbreviation clear := (clear_slot health quota now_ms exclusions).

Abbreviation pclosure kstart states :=
  (project_closure (explain_candidate health quota pools states now_ms exclusions)
     (project_candidate pools states kstart)).

Lemma unexpired_slot_ok c e pool x :
  all_unexpired -> pools !! e = Some pool -> x ∈ credentials pool -> slot_ok c x = clear c x.
Proof. intros Hu Hp Hx. unfold ordinary_slot_ok. by rewrite (Hu e pool x Hp Hx). Qed.

Lemma can_iff counts c :
  all_unexpired -> leasable pools counts cand_ok slot_ok c <-> leasable pools counts cand_ok clear c.
Proof.
  intros Hu. split; apply leasable_ext; intros e pool x Hp Hx; [|symmetry]; by eapply unexpired_slot_ok.
Qed.

Lemma explained_exact st c :
  all_unexpired ->
  candidate_is_clear (explain_candidate health quota pools (pool_states st) now_ms exclusions c) = true
  <-> can_serve pools st (explain_view health quota now_ms) now_ms is_hard_eligible (not_excluded exclusions) c.
Proof.
  intros Hu. rewrite candidate_clear_iff, <- can_iff by done.
  exact (leasable_iff pools (explain_view health quota now_ms) now_ms is_hard_eligible (not_excluded exclusions) st c).
Qed.

(** The credential a projection names is the one leased, when the pool's own
    cursors stand at the projection's start. *)
Lemma projected_credential_leased k kstart states states1 c cred ls :
  all_unexpired -> pools_ready k pools states -> pool_cursors_at kstart states ->
  first_clear health quota now_ms exclusions pools kstart states c cred ->
  states1 !! cand_endpoint_id c = states !! cand_endpoint_id c ->
  (slot_closure pools cand_ok slot_ok c (states1, None)).1 = Ok true ->
  (slot_closure pools cand_ok slot_ok c (states1, None)).2.2 = Some ls ->
  credential_id cred = lease_credential_id ls.
Proof.
  intros Hu Hready Hcur (pool & st & i & Hpool & Hc & Hscan) Hst1 H1 H2.
  unfold pool_of in Hpool. destruct (pools !! _) as [pool'|] eqn:Hp; [|done].
  destruct (states !! _) as [st'|] eqn:Hst; [|done]. injection Hpool as -> ->.
  destruct (closure_lease _ _ _ _ _ _ _ _ Hp Hst1 H1 H2) as [Hl Hlc].
  destruct (Hready _ _ Hp) as (st' & Hst' & [[Hlen _ _] _] & _).
  rewrite Hst in Hst'. injection Hst' as <-.
  assert (replicate (length (priority_tiers pool)) kstart = cursors st) as Hcs
    by (apply replicate_as_Forall; split; [done|by eapply Hcur]).
  rewrite <- Hcs, (scan_tiers_ext _ _ (clear c)) in Hl by (intros; by eapply unexpired_slot_ok).
  rewrite Hscan in Hl. injection Hl as ->. unfold lease_credential_id. congruence.
Qed.

(** Offered the same candidates, the projection and the scheduler agree. *)
Lemma orders_agree kstart states order :
  all_unexpired -> pools_ready (length order) pools states -> start_ok pools kstart ->
  match first_accepted (slot_closure pools cand_ok slot_ok) order (states, None) with
  | (Ok (Some c), (_, lease)) => exists ls cred, lease = Some ls /\ c ∈ order
      /\ first_accepted (pclosure kstart states) order None = (Ok (Some c), Some (projection_of c cred))
      /\ (pool_cursors_at kstart states ->
          (forall x, x ∈ order -> cand_endpoint_id x = cand_endpoint_id c -> x = c) ->
          credential_id cred = lease_credential_id ls)
  | (Ok None, _) => first_accepted (pclosure kstart states) order None = (Ok None, None)
  | _ => False
  end.
Proof.
  intros Hu Hready Hstart. pose proof (first_leased pools cand_ok slot_ok order states Hready) as Hreal.
  destruct (first_projected health quota now_ms exclusions pools kstart _ states order Hready Hstart)
    as [[Hp Hno]|(l1 & c & l2 & cred & Hl & Hno & Hyes & Hfirst & Hp)]; rewrite Hp;
    destruct (first_accepted _ order (states, None)) as [[[c'|]|e|] [states' lease']]; try done.
  - destruct Hreal as (l1 & l2 & states1 & ls & _ & Hl & _ & Hcan & _). exfalso.
    rewrite Forall_forall in Hno. apply (Hno c'); [rewrite Hl; apply elem_of_app; right; left|]. by apply can_iff in Hcan.
  - destruct Hreal as (l1' & l2' & states1 & ls & -> & Hl' & Hno' & Hcan & Hframe & Hc1 & Hc2).
    assert (Forall (fun x => ~ leasable pools (lease_counts states) cand_ok clear x) l1') as Hno2
      by (eapply Forall_impl; [exact Hno'|]; intros x Hx Hy; by apply Hx, can_iff).
    pose proof Hl' as He. rewrite Hl in He.
    destruct (first_unique _ _ _ _ _ _ _ He Hyes) as [-> ->]; [by apply can_iff|done..|].
    exists ls, cred. split_and!; try done.
    { rewrite Hl'. apply elem_of_app. right. left. }
    intros Hcurs Hinj.
    eapply projected_credential_leased; [done..| |done|done]. apply Hframe.
    intros (x & Hx & Hin)%list_elem_of_fmap. rewrite Forall_forall in Hno'.
    assert (x = c') as ->; [|by eapply Hno'].
    apply Hinj; [|done]. rewrite Hl'. apply elem_of_app. by left.
  - exfalso. rewrite Forall_forall in Hreal. apply (Hreal c); [rewrite Hl; apply elem_of_app; right; left|].
    by apply can_iff.
Qed.

(** C27: Explain predicts the scheduler: for a published snapshot, consistent
    pools and unexpired credentials, an explanation at some time, from given
    schedule starts and with the request's exclusions, projects a selection
    exactly when an ordinary selection at that time from the same starts
    succeeds, and then projects the same candidate; the projected credential is
    the leased one too when the pools' cursors stand at the credential start and
    the candidates are on distinct Endpoints.  Each candidate is explained as
    eligible exactly when it can serve the request at that time.  The explanation
    itself never fails or panics on a published route. *)
Theorem explain_predicts_selection input snapshot rid r sched st cstart kstart :
  snapshot_try_new input = Ok snapshot -> routes snapshot !! rid = Some r ->
  route_schedules snapshot !! rid = Some sched -> Forall candidate_typed (candidates r) ->
  route_cursors st !! rid = Some (replicate (length (schedule_tiers sched)) cstart) ->
  Forall (fun tier => route_cursor_ok tier cstart) (schedule_tiers sched) ->
  pools_ready (total_slots sched) pools (pool_states st) -> start_ok pools kstart -> all_unexpired ->
  exists ex, explain health quota snapshot pools (pool_states st) (pool_states st)
               (mkExplainInput rid now_ms cstart kstart) exclusions = Ok ex
  /\ Forall2 (fun c x => candidate_is_clear x = true
       <-> can_serve pools st (explain_view health quota now_ms) now_ms is_hard_eligible (not_excluded exclusions) c)
       (candidates r) (xs_candidates ex)
  /\ match (select_eligible_and_lease_with_runtime_health_quota_and_binding_at (mkRouteScheduler snapshot pools)
              rid (explain_view health quota now_ms) now_ms is_hard_eligible (not_excluded exclusions) st).1 with
     | Ok sel =>
         let c := sel_candidate sel in
         exists id, projected_selection ex
           = Some (mkProjected (cand_id c) (cand_endpoint_id c) (cand_upstream_id c) (upstream_model c) id)
           /\ (NoDup (cand_endpoint_id <$> candidates r) -> pool_cursors_at kstart (pool_states st) ->
               id = lease_credential_id (sel_lease sel))
     | Err _ => projected_selection ex = None
     | Panic => False
     end.
Proof.
  intros Hsnap Hr Hs Ht Hc Hcur Hready Hstart Hu. apply snapshot_try_new_ok in Hsnap as Hwf.
  destruct (wf_routes _ Hwf rid r Hr) as (_ & _ & _ & sched' & Hs' & Hcomp). simplify_eq.
  destruct (route_compiles_from r sched Ht Hcomp) as (Hok & Hfrom & _).
  assert (Forall (tier_in_range r) (schedule_tiers sched)) as Hrange
    by (apply Forall_forall; intros t Hin; by apply (compiled_tier_facts r sched t (proj1 Hok) Hfrom Hin)).
  assert (Forall2 route_cursor_ok (schedule_tiers sched) (replicate (length (schedule_tiers sched)) cstart)) as Hcur2
    by (by apply Forall2_replicate_r).
  set (order := visit_order r (schedule_tiers sched) (replicate (length (schedule_tiers sched)) cstart)).
  set (states := pool_states st) in *.
  unfold explain. cbn [in_route_id in_observed_at_ms candidate_schedule_start credential_schedule_start].
  rewrite Hr, Hs. cbn [ok_or result_bind].
  set (expl := explain_candidate health quota pools states now_ms exclusions).
  pose proof (project_selection_select pools states cstart kstart expl r _ Hrange) as Hproj.
  destruct (select_tiers_visits (project_closure expl (project_candidate pools states kstart)) r _ _ None Hrange Hcur2)
    as [curs' Hv]. fold order in Hv. rewrite Hv in Hproj.
  change (select_eligible_and_lease_with_runtime_health_quota_and_binding_at (mkRouteScheduler snapshot pools)
    rid (explain_view health quota now_ms) now_ms is_hard_eligible (not_excluded exclusions) st)
    with (select_with (mkRouteScheduler snapshot pools) rid (slot_closure pools cand_ok slot_ok) st).
  unfold select_with, select_eligible. cbn [rs_snapshot fst snd]. rewrite Hr, Hs, Hc.
  destruct (select_tiers_visits (slot_closure pools cand_ok slot_ok) r _ _ (states, None) Hrange Hcur2) as [curs2 Hv2].
  fold order in Hv2. fold states. rewrite Hv2.
  assert (pools_ready (length order) pools states) as Hready'
    by (eapply pools_ready_mono; [apply visit_order_length|done]).
  assert (Forall2 (fun c x => candidate_is_clear x = true
    <-> can_serve pools st (explain_view health quota now_ms) now_ms is_hard_eligible (not_excluded exclusions) c)
    (candidates r) (expl <$> candidates r)) as Hexact.
  { apply Forall2_fmap_r, Forall_Forall2_diag, Forall_true. intros c. by apply explained_exact. }
  pose proof (orders_agree kstart states order Hu Hready' Hstart) as Hagree. fold expl in Hagree.
  destruct (first_accepted (slot_closure _ _ _) order (states, None)) as [[[c|]|e|] [states' lease']]; try done.
  - destruct Hagree as (ls & cred & -> & Hin & Hp & Hid). rewrite Hp in Hproj. cbn [fst snd] in Hproj.
    rewrite Hproj. eexists. split; [done|]. split; [done|]. exists (credential_id cred). split; [done|].
    intros Hnd Hcurs. apply Hid; [done|]. intros x Hx Heq.
    apply visit_order_elem in Hx as (? & ? & _ & _ & Hx); [|done].
    apply visit_order_elem in Hin as (? & ? & _ & _ & Hin); [|done].
    apply (nodup_key_inj cand_endpoint_id (candidates r)); eauto using list_elem_of_lookup_2.
  - rewrite Hagree in Hproj. cbn [fst snd] in Hproj. rewrite Hproj. eexists. split; [done|]. by split.
Qed.
End Properties.

(** ** Witnesses *)

Section Example.
#[local] Existing Instance ex_hash.
#[local] Existing Instance Quota.ex_qhash.

Lemma explain_predicts_selection_witness :
  exists ex, explain ex_registry Quota.ex_registry (ex_snapshot "v1") ex_pools (pool_states ex_state)
               (pool_states ex_state) (explain_input_new (mkId "route-a") 5) ∅ = Ok ex
    /\ is_Some (projected_selection ex).
Proof.
  assert (is_ok_and (fun _ => true) (select_eligible_and_lease_with_runtime_health_quota_and_binding_at
    (mkRouteScheduler (ex_snapshot "v1") ex_pools) (mkId "route-a") (explain_view ex_registry Quota.ex_registry 5) 5
    is_hard_eligible (not_excluded ∅) ex_state).1 = true) as Hok by (vm_compute; reflexivity).
  destruct (explain_predicts_selection ex_registry Quota.ex_registry 5 ∅ ex_pools (ex_input "v1") (ex_snapshot "v1")
    (mkId "route-a") ex_route ex_schedule ex_state 0 0 ex_snapshot_built (proj1 ex_route_found)
    (proj2 ex_route_found) ex_route_typed) as (ex & He & _ & H).
  - transitivity (Some [0]); [apply lookup_singleton_eq|vm_compute; reflexivity].
  - constructor; [split; vm_compute; congruence|constructor].
  - exact ex_pools_ready.
  - intros e pool tier Hp Ht. unfold ex_pools in Hp. apply lookup_singleton_Some in Hp as [_ <-].
    simpl in Ht. repeat (apply elem_of_cons in Ht as [->|Ht]; [split; vm_compute; congruence|]).
    destruct (not_elem_of_nil _ Ht).
  - intros e pool x Hp Hx. unfold ex_pools in Hp. apply lookup_singleton_Some in Hp as [_ <-].
    simpl in Hx. repeat (apply elem_of_cons in Hx as [->|Hx]; [reflexivity|]). destruct (not_elem_of_nil _ Hx).
  - exists ex. split; [exact He|].
    destruct (select_eligible_and_lease_with_runtime_health_quota_and_binding_at _ _ _ _ _ _ _) as [[sel|e|] st'];
      cbn [fst is_ok_and] in *; [|discriminate Hok|discriminate Hok].
    destruct H as (id & -> & _). eexists. reflexivity.
Defined.

(** One pool whose only credential expires at 3 ms. *)
Definition ex_expiring : CredentialSlot :=
  mkSlot (mkId "old") "api_key" 1 0 1 1 (Some 3) (mkSecret [Byte.x01]).
Definition ex_expiring_pools : Pools :=
  {[ mkId "endpoint-a" := mkPool (mkId "endpoint-a") [ex_expiring] [mkTier 0 [0%nat]] ]}.
Definition ex_expiring_state : SchedulerState :=
  mkSchedulerState {[ mkId "route-a" := [0] ]} {[ mkId "endpoint-a" := mkPoolState [0] [0] ]}.

(** Explain does not know about credential expiry: two milliseconds after the
    only credential of a route has expired, an ordinary selection at that time
    fails with [CredentialUnavailable], while the explanation for the same
    snapshot, pools, registries and time gives no exclusion reason and projects
    that very credential. *)
Lemma explain_projects_expired_credential :
  (select_eligible_and_lease_with_runtime_health_quota_and_binding_at
     (mkRouteScheduler (ex_snapshot "v1") ex_expiring_pools) (mkId "route-a")
     (explain_view ex_registry Quota.ex_registry 5) 5 is_hard_eligible (not_excluded ∅) ex_expiring_state).1
  = Err credential_unavailable_error
  /\ exists ex, explain ex_registry Quota.ex_registry (ex_snapshot "v1") ex_expiring_pools
                  (pool_states ex_expiring_state) (pool_states ex_expiring_state)
                  (explain_input_new (mkId "route-a") 5) ∅ = Ok ex
     /\ pj_credential_id <$> projected_selection ex = Some (mkId "old")
     /\ Forall (fun x => candidate_is_clear x = true) (xs_candidates ex).
Proof.
  split; [vm_compute; reflexivity|].
  destruct (explain _ _ _ _ _ _ _ _) as [ex| |] eqn:He; [|vm_compute in He; discriminate He..].
  exists ex. split; [done|]. vm_compute in He. injection He as <-. split; [done|].
  by repeat constructor.
Qed.
End Example.

End Explain.
