(* ===== verification/SqliteTx.v ===== *)
(** * Transactions on one SQLite connection

    What the native account store uses of a connection: statements and queries that
    may fail at any call, transactions that commit everything or nothing, and the
    random source. The schema is a parameter [D], the error of the code that runs the
    statements a parameter [E]; [hoare] is the partial-correctness judgement the
    components prove their operations with, [transaction_hoare] its transaction rule. *)

From S2P Require Import Prelude.
Local Open Scope Z_scope.

(** The database, the calls made so far and the random draws made so far. *)
Record Conn (D : Type) : Type := mkConn {
  db_of : D;
  calls_of : nat;
  draws_of : nat;
}.
Arguments mkConn {D} db_of calls_of draws_of.
Arguments db_of {D} c.
Arguments calls_of {D} c.
Arguments draws_of {D} c.

Section Connection.
Context {D E : Type} (sqlite_fails : nat -> bool) (unavailable : E).

(** Every call may fail; [.map_err(|_| ..StoreUnavailable)]. *)
Definition sql_call : M (Conn D) E unit := fun s =>
  let s' := mkConn (db_of s) (S (calls_of s)) (draws_of s) in
  if sqlite_fails (calls_of s) then (Err unavailable, s') else (Ok tt, s').

Definition sql_query {A} (f : D -> A) : M (Conn D) E A := sql_call ;;; (fun s => (Ok (f (db_of s)), s)).

(** [execute]: the number of affected rows, or a violated constraint. *)
Definition sql_execute (f : D -> option (Z * D)) : M (Conn D) E Z :=
  sql_call ;;; (fun s => match f (db_of s) with
                         | Some (n, db) => (Ok n, mkConn db (calls_of s) (draws_of s))
                         | None => (Err unavailable, s)
                         end).

(** BEGIN, the body, COMMIT; a transaction that is dropped rolls back. *)
Definition sql_transaction {A} (body : M (Conn D) E A) : M (Conn D) E A := fun s =>
  match (sql_call ;;; (let! a := body in sql_call ;;; ret a)) s with
  | (Ok a, s') => (Ok a, s')
  | (r, s') => (r, mkConn (db_of s) (calls_of s') (draws_of s'))
  end.

(** A transaction whose body may also return without committing. *)
Definition sql_scope {A} (body : M (Conn D) E (A * bool)) : M (Conn D) E A := fun s =>
  match (sql_call ;;; (let! x := body in if x.2 then sql_call ;;; ret x else ret x)) s with
  | (Ok (a, true), s') => (Ok a, s')
  | (Ok (a, false), s') => (Ok a, mkConn (db_of s) (calls_of s') (draws_of s'))
  | (Err e, s') => (Err e, mkConn (db_of s) (calls_of s') (draws_of s'))
  | (Panic, s') => (Panic, mkConn (db_of s) (calls_of s') (draws_of s'))
  end.

(** [getrandom::fill] of a buffer of [n] bytes. *)
Definition draw (random : nat -> nat -> option (list Byte.byte)) (n : nat) : M (Conn D) E (option (list Byte.byte)) :=
  fun s => (Ok (random n (draws_of s)), mkConn (db_of s) (calls_of s) (S (draws_of s))).

Fixpoint fold_m {A B} (f : A -> B -> M (Conn D) E A) (l : list B) (a : A) : M (Conn D) E A :=
  match l with
  | [] => ret a
  | b :: rest => let! a := f a b in fold_m f rest a
  end.

(** ** Partial correctness *)

Lemma bind_ok {S F A B} (m : M S F A) (k : A -> M S F B) s b s' :
  bind m k s = (Ok b, s') -> exists a s1, m s = (Ok a, s1) /\ k a s1 = (Ok b, s').
Proof. unfold bind. destruct (m s) as [[a|e|] s1]; [eauto|done..]. Qed.

Lemma map_err_ok {F G A} (f : F -> G) (r : result F A) a : map_err f r = Ok a -> r = Ok a.
Proof. destruct r; simpl; [congruence|done..]. Qed.

Definition hoare {A} (P : D -> Prop) (m : M (Conn D) E A) (Q : A -> D -> Prop) : Prop :=
  forall s a s', P (db_of s) -> m s = (Ok a, s') -> Q a (db_of s').

Lemma hoare_ret {A} (P : D -> Prop) (a : A) (Q : A -> D -> Prop) : (forall db, P db -> Q a db) -> hoare P (ret a) Q.
Proof. intros HQ s b s' HP [= <- <-]. auto. Qed.

Lemma hoare_raise {A} (P : D -> Prop) e (Q : A -> D -> Prop) : hoare P (raise e) Q.
Proof. by intros s a s' _ [=]. Qed.

Lemma hoare_lift {A} (P : D -> Prop) (r : result E A) (Q : A -> D -> Prop) :
  (forall a db, r = Ok a -> P db -> Q a db) -> hoare P (lift r) Q.
Proof. intros HQ s a s' HP [= -> <-]. auto. Qed.

Lemma hoare_bind {A B} (P : D -> Prop) (m : M (Conn D) E A) (k : A -> M (Conn D) E B) Q R :
  hoare P m Q -> (forall a, hoare (Q a) (k a) R) -> hoare P (bind m k) R.
Proof.
  intros Hm Hk s b s' HP Hrun. unfold bind in Hrun. destruct (m s) as [[a|e|] s1] eqn:Hms; [|done..].
  eapply Hk; [by eapply Hm|done].
Qed.

Lemma hoare_weaken {A} (P P' : D -> Prop) (m : M (Conn D) E A) (Q Q' : A -> D -> Prop) :
  hoare P m Q -> (forall db, P' db -> P db) -> (forall a db, Q a db -> Q' a db) -> hoare P' m Q'.
Proof. intros Hm HP HQ s a s' Hs Hrun. apply HQ. by eapply Hm; [apply HP|]. Qed.

Lemma sql_call_db s r s' : sql_call s = (r, s') -> db_of s' = db_of s.
Proof. unfold sql_call. destruct (sqlite_fails (calls_of s)); by intros [= <- <-]. Qed.

Lemma hoare_query {A} (P : D -> Prop) (f : D -> A) (Q : A -> D -> Prop) :
  (forall db, P db -> Q (f db) db) -> hoare P (sql_query f) Q.
Proof.
  intros HQ s a s' HP Hrun. unfold sql_query, bind in Hrun. destruct (sql_call s) as [[[]|e|] s1] eqn:Hc; [|done..].
  apply sql_call_db in Hc. injection Hrun as <- <-. rewrite Hc. auto.
Qed.

Lemma hoare_execute (P : D -> Prop) f (Q : Z -> D -> Prop) :
  (forall db n db', P db -> f db = Some (n, db') -> Q n db') -> hoare P (sql_execute f) Q.
Proof.
  intros HQ s a s' HP Hrun. unfold sql_execute, bind in Hrun. destruct (sql_call s) as [[[]|e|] s1] eqn:Hc; [|done..].
  apply sql_call_db in Hc. rewrite Hc in Hrun. destruct (f (db_of s)) as [[n db']|] eqn:Hf; [|done].
  injection Hrun as <- <-. eauto.
Qed.

Lemma hoare_draw random n (P : D -> Prop) (Q : option (list Byte.byte) -> D -> Prop) :
  (forall k db, P db -> Q (random n k) db) -> hoare P (draw random n) Q.
Proof. intros HQ s a s' HP [= <- <-]. by apply HQ. Qed.

(** A loop whose state is described by what it has consumed. *)
Lemma hoare_fold {A B} (I : list B -> A -> D -> Prop) (f : A -> B -> M (Conn D) E A) l a :
  (forall done b a, hoare (I done a) (f a b) (I (done ++ [b]))) -> hoare (I [] a) (fold_m f l a) (I l).
Proof.
  intros Hf. assert (forall rest seen a, hoare (I seen a) (fold_m f rest a) (I (seen ++ rest))) as Hgen; [|apply (Hgen l [])].
  induction rest as [|b rest IH]; intros seen x; simpl; [apply hoare_ret; by rewrite app_nil_r|].
  eapply hoare_bind; [apply Hf|]. intros y. replace (seen ++ b :: rest) with ((seen ++ [b]) ++ rest) by (by rewrite <- app_assoc).
  apply IH.
Qed.

(** A transaction commits what its body established, or changes nothing. *)
Lemma transaction_hoare {A} (P : D -> Prop) (body : M (Conn D) E A) Q s r s' :
  hoare P body Q -> P (db_of s) -> sql_transaction body s = (r, s') ->
  match r with Ok a => Q a (db_of s') | _ => db_of s' = db_of s end.
Proof.
  intros Hb HP Hrun. unfold sql_transaction, bind in Hrun. destruct (sql_call s) as [[[]|e|] s1] eqn:Hc1;
    [|by injection Hrun as <- <-..]. apply sql_call_db in Hc1.
  destruct (body s1) as [[a|e|] s2] eqn:Hbody; [|by injection Hrun as <- <-..].
  destruct (sql_call s2) as [[[]|e|] s3] eqn:Hc2; [|by injection Hrun as <- <-..].
  apply sql_call_db in Hc2. unfold ret in Hrun. injection Hrun as <- <-. rewrite Hc2.
  eapply Hb; [|done]. by rewrite Hc1.
Qed.

Lemma scope_hoare {A} (P : D -> Prop) (body : M (Conn D) E (A * bool)) Q s r s' :
  hoare P body Q -> P (db_of s) -> sql_scope body s = (r, s') ->
  match r with
  | Ok a => Q (a, true) (db_of s') \/ db_of s' = db_of s /\ exists db, Q (a, false) db
  | _ => db_of s' = db_of s
  end.
Proof.
  intros Hb HP Hrun. unfold sql_scope, bind in Hrun. destruct (sql_call s) as [[[]|e|] s1] eqn:Hc1;
    [|by injection Hrun as <- <-..]. apply sql_call_db in Hc1.
  destruct (body s1) as [[[a b]|e|] s2] eqn:Hbody; [|by injection Hrun as <- <-..].
  assert (HQ : Q (a, b) (db_of s2)) by (eapply Hb; [by rewrite Hc1|done]). simpl in Hrun. destruct b.
  - destruct (sql_call s2) as [[[]|e|] s3] eqn:Hc2; [|by injection Hrun as <- <-..].
    apply sql_call_db in Hc2. unfold ret in Hrun. injection Hrun as <- <-. left. by rewrite Hc2.
  - unfold ret in Hrun. injection Hrun as <- <-. right. simpl. eauto.
Qed.

(** The same rules, for code that also counts its draws. *)
Lemma execute_ok f s n s' : sql_execute f s = (Ok n, s') -> f (db_of s) = Some (n, db_of s') /\ draws_of s' = draws_of s.
Proof.
  intros Hrun. unfold sql_execute, bind, sql_call in Hrun. destruct (sqlite_fails (calls_of s)); [done|]. simpl in Hrun.
  destruct (f (db_of s)) as [[m db]|]; [|done]. by injection Hrun as <- <-.
Qed.

Lemma query_ok {A} (f : D -> A) s a s' : sql_query f s = (Ok a, s') -> a = f (db_of s) /\ db_of s' = db_of s /\ draws_of s' = draws_of s.
Proof.
  intros Hrun. unfold sql_query, bind, sql_call in Hrun. destruct (sqlite_fails (calls_of s)); [done|]. by injection Hrun as <- <-.
Qed.

Lemma transaction_ok {A} (body : M (Conn D) E A) s a s' :
  sql_transaction body s = (Ok a, s') ->
  exists s1 s2, body s1 = (Ok a, s2) /\ db_of s1 = db_of s /\ draws_of s1 = draws_of s /\ db_of s2 = db_of s' /\ draws_of s2 = draws_of s'.
Proof.
  intros Hrun. unfold sql_transaction, bind, sql_call in Hrun. destruct (sqlite_fails (calls_of s)); [done|]. simpl in Hrun.
  destruct (body _) as [[x|e|] s2] eqn:Hb; [|done..]. destruct (sqlite_fails (calls_of s2)); [done|]. injection Hrun as <- <-. by eexists _, s2.
Qed.

Lemma fold_ok {A B} (I : list B -> A -> Conn D -> Prop) (f : A -> B -> M (Conn D) E A) l a s a' s' :
  (forall seen b rest x t x' t', l = seen ++ b :: rest -> I seen x t -> f x b t = (Ok x', t') -> I (seen ++ [b]) x' t') ->
  I [] a s -> fold_m f l a s = (Ok a', s') -> I l a' s'.
Proof.
  intros Hf. enough (Hgen : forall rest seen x t, l = seen ++ rest -> I seen x t -> fold_m f rest x t = (Ok a', s') -> I l a' s')
    by (by apply (Hgen l [])).
  induction rest as [|b rest IH]; intros seen x t Hl Hx Hrun; simpl in Hrun; [injection Hrun as <- <-; by rewrite Hl, app_nil_r|].
  apply bind_ok in Hrun as (x1 & t1 & Hb & Hrun). eapply (IH (seen ++ [b])); [by rewrite <- app_assoc| |exact Hrun]. by eapply Hf.
Qed.

(** ** All or nothing *)

(** From [db], a result describes the new database; any error leaves [db]. *)
Definition atomic {A} (db : D) (m : M (Conn D) E A) (Q : A -> D -> Prop) : Prop :=
  forall s r s', db_of s = db -> m s = (r, s') -> match r with Ok a => Q a (db_of s') | _ => db_of s' = db end.

Lemma atomic_raise {A} db e (Q : A -> D -> Prop) : atomic db (raise e) Q.
Proof. by intros s r s' Hs [= <- <-]. Qed.

Lemma atomic_lift {A B} db (x : result E A) (k : A -> M (Conn D) E B) Q :
  (forall a, x = Ok a -> atomic db (k a) Q) -> atomic db (bind (lift x) k) Q.
Proof. intros Hk s r s' Hs Hrun. unfold bind, lift in Hrun. destruct x; [by eapply Hk|by injection Hrun as <- <-..]. Qed.

Lemma atomic_draw {B} db random n (k : option (list Byte.byte) -> M (Conn D) E B) Q :
  (forall j, atomic db (k (random n j)) Q) -> atomic db (bind (draw random n) k) Q.
Proof. intros Hk s r s' Hs Hrun. unfold bind, draw in Hrun. eapply Hk; [|exact Hrun]. exact Hs. Qed.

Lemma atomic_transaction {A} db (body : M (Conn D) E A) Q : hoare (eq db) body Q -> atomic db (sql_transaction body) Q.
Proof. intros Hb s r s' Hs Hrun. pose proof (transaction_hoare (eq db) body Q s r s' Hb (eq_sym Hs) Hrun). destruct r; congruence. Qed.

(** A single statement whose count decides. *)
Lemma atomic_execute {A} db f (k : Z -> M (Conn D) E A) Q :
  (forall n db', f db = Some (n, db') -> (exists a, k n = ret a /\ Q a db') \/ (db' = db /\ exists e, k n = raise e)) ->
  atomic db (bind (sql_execute f) k) Q.
Proof.
  intros Hk s r s' Hs Hrun. unfold sql_execute, bind in Hrun. destruct (sql_call s) as [[[]|e|] s1] eqn:Hc; apply sql_call_db in Hc;
    [|injection Hrun as <- <-; congruence..]. rewrite Hc, Hs in Hrun.
  destruct (f db) as [[n db']|] eqn:Hf; [|injection Hrun as <- <-; congruence].
  destruct (Hk n db' eq_refl) as [(a & Ha & HQ)|(-> & e & He)]; [rewrite Ha in Hrun|rewrite He in Hrun]; by injection Hrun as <- <-.
Qed.

(** ** Runs without SQLite failures *)

Definition succeeds {A} (m : M (Conn D) E A) (db : D) (a : A) (db' : D) : Prop :=
  forall s, db_of s = db -> exists s', m s = (Ok a, s') /\ db_of s' = db'.

Lemma succeeds_ret {A} (a : A) db : succeeds (ret a) db a db.
Proof. intros s Hs. by exists s. Qed.

Lemma succeeds_lift {A} (r : result E A) a db : r = Ok a -> succeeds (lift r) db a db.
Proof. intros -> s Hs. by exists s. Qed.

Lemma succeeds_bind {A B} (m : M (Conn D) E A) (k : A -> M (Conn D) E B) db a db1 b db2 :
  succeeds m db a db1 -> succeeds (k a) db1 b db2 -> succeeds (bind m k) db b db2.
Proof. intros Hm Hk s Hs. destruct (Hm s Hs) as (s1 & H1 & Hs1). unfold bind. rewrite H1. auto. Qed.

Section Healthy.
Hypothesis healthy : forall n, sqlite_fails n = false.

Lemma succeeds_call db : succeeds sql_call db tt db.
Proof. intros s Hs. unfold sql_call. rewrite healthy. by eexists. Qed.

Lemma succeeds_query {A} (f : D -> A) db : succeeds (sql_query f) db (f db) db.
Proof. eapply succeeds_bind; [apply succeeds_call|]. intros s Hs. exists s. by rewrite Hs. Qed.

Lemma succeeds_execute f db n db' : f db = Some (n, db') -> succeeds (sql_execute f) db n db'.
Proof. intros Hf. eapply succeeds_bind; [apply succeeds_call|]. intros s Hs. rewrite Hs, Hf. by eexists. Qed.

Lemma succeeds_scope {A} (m : M (Conn D) E (A * bool)) db a db' : succeeds m db (a, true) db' -> succeeds (sql_scope m) db a db'.
Proof.
  intros Hm s Hs.
  assert (succeeds (sql_call ;;; (let! x := m in if x.2 then sql_call ;;; ret x else ret x)) db (a, true) db') as Hr.
  { eapply succeeds_bind; [apply succeeds_call|]. eapply succeeds_bind; [exact Hm|]. simpl.
    eapply succeeds_bind; [apply succeeds_call|]. apply succeeds_ret. }
  destruct (Hr s Hs) as (s1 & H1 & Hs1). exists s1. unfold sql_scope. by rewrite H1.
Qed.

Lemma succeeds_transaction {A} (m : M (Conn D) E A) db a db' : succeeds m db a db' -> succeeds (sql_transaction m) db a db'.
Proof.
  intros Hm s Hs. assert (succeeds (sql_call ;;; (let! x := m in sql_call ;;; ret x)) db a db') as Hr.
  { eapply succeeds_bind; [apply succeeds_call|]. eapply succeeds_bind; [exact Hm|].
    eapply succeeds_bind; [apply succeeds_call|]. apply succeeds_ret. }
  destruct (Hr s Hs) as (s1 & H1 & Hs1). exists s1. unfold sql_transaction. by rewrite H1.
Qed.
End Healthy.
End Connection.
