(* ===== verification/GrokAccounts.v ===== *)
(** * Native Grok accounts: storage, import, rollback

    Models [crates/provider-grok/src/account_pool.rs] up to its runtime compiler, on
    the tables of migrations 0010, 0011 and 0013: bounded batch import with its
    relations, idempotence and conflicts, rollback of one batch, the redacted listing,
    opening a credential and linking accounts. [GrokWorker] runs on the same store.

    The AEAD and SHA-256 are parameters, the random source a stream of draws; the
    connection is that of [SqliteTx]. *)

From S2P Require Import Prelude Text Octets Core ClientKey SecretStore ControlPlane StoreRows StoreSchema SqliteTx.
Local Open Scope string_scope.
Local Open Scope list_scope.
Local Open Scope Z_scope.

Module Grok.
Import Secrets.

(** ** Data *)

Definition ACCOUNT_SECRET_AAD_DOMAIN : list Byte.byte := text_bytes "cpa-rust-gateway/grok/account-pool/v1".
Definition MAX_BATCH_ITEMS : nat := 4096.
Definition MAX_IDENTITY_BYTES : nat := 1024.
Definition MAX_CREDENTIAL_BYTES : Z := 512 * 1024.
Definition MAX_OPAQUE_ID_BYTES : nat := 128.
Definition MAX_RELATION_BYTES : nat := 64.

Inductive GrokAccountPoolError : Type :=
| StoreUnavailable
| InvalidIdentity
| InvalidCredential
| InvalidRequest
| InvalidSchedulingMetadata
| BatchAlreadyExists
| DuplicateIdentity
| ExistingAccountConflict
| AccountNotFound
| SecretStoreFailure
| InvalidPersistedState.

Inductive GrokAccountProvider : Type := Build | Web | Console.
Inductive GrokAccountAuthStatus : Type := AuthActive | ReauthRequired | AuthDisabled.

#[export] Instance GrokAccountProvider_eq_dec : EqDecision GrokAccountProvider.
Proof. solve_decision. Defined.
#[export] Instance GrokAccountAuthStatus_eq_dec : EqDecision GrokAccountAuthStatus.
Proof. solve_decision. Defined.

Definition provider_as_str (p : GrokAccountProvider) : string :=
  match p with Build => "build" | Web => "web" | Console => "console" end.

Definition provider_parse (value : string) : result GrokAccountPoolError GrokAccountProvider :=
  if bool_decide (value = "build") then Ok Build
  else if bool_decide (value = "web") then Ok Web
  else if bool_decide (value = "console") then Ok Console
  else Err InvalidPersistedState.

Definition credential_kind (p : GrokAccountProvider) : string :=
  match p with Build => "grok_build_oauth" | Web => "grok_web_sso" | Console => "grok_console_sso" end.

Definition auth_as_str (a : GrokAccountAuthStatus) : string :=
  match a with AuthActive => "active" | ReauthRequired => "reauth_required" | AuthDisabled => "disabled" end.

Definition auth_parse (value : string) : result GrokAccountPoolError GrokAccountAuthStatus :=
  if bool_decide (value = "active") then Ok AuthActive
  else if bool_decide (value = "reauth_required") then Ok ReauthRequired
  else if bool_decide (value = "disabled") then Ok AuthDisabled
  else Err InvalidPersistedState.

Record GrokAccountIdentity : Type := mkIdentity { identity_value : list Byte.byte }.

Definition identity_try_from_bytes (value : list Byte.byte) : result GrokAccountPoolError GrokAccountIdentity :=
  if bool_decide (value = []) || (MAX_IDENTITY_BYTES <? length value)%nat then Err InvalidIdentity
  else Ok (mkIdentity value).

Record GrokAccountCredential : Type := mkGrokCredential { credential_value : list Byte.byte }.

Definition credential_try_from_bytes (value : list Byte.byte) : result GrokAccountPoolError GrokAccountCredential :=
  if bool_decide (value = []) || (MAX_CREDENTIAL_BYTES <? Z.of_nat (length value)) then Err InvalidCredential
  else Ok (mkGrokCredential value).

Record GrokAccountImport : Type := mkImport {
  im_provider : GrokAccountProvider;
  im_identity : GrokAccountIdentity;
  im_credential : GrokAccountCredential;
  im_auth_status : GrokAccountAuthStatus;
  im_enabled : bool;
  im_priority : Z;
  im_weight : Z;
  im_max_concurrency : Z;
  im_refresh_due_at_ms : option Z;
  im_quota_sync_due_at_ms : option Z;
  im_cooldown_until_ms : option Z;
}.

Record GrokAccountImportRelation : Type := mkRelation {
  source_entry : nat;
  target_entry : nat;
  relation : string;
}.

Definition negative (value : option Z) : bool := match value with Some v => v <? 0 | None => false end.

(** [(low..=high).contains(&value)]. *)
Definition within (low high value : Z) : bool := (low <=? value) && (value <=? high).

Definition validate (entry : GrokAccountImport) : result GrokAccountPoolError unit :=
  if negb (within (-1000) 1000 (im_priority entry)) || negb (within 1 10000 (im_weight entry))
     || negb (within 1 10000 (im_max_concurrency entry)) || negative (im_refresh_due_at_ms entry)
     || negative (im_quota_sync_due_at_ms entry) || negative (im_cooldown_until_ms entry)
  then Err InvalidSchedulingMetadata else Ok tt.

Definition valid_component (value : string) (max_bytes : nat) : bool :=
  negb (is_blank value) && (String.length value <=? max_bytes)%nat.

Record GrokAccountMetadata : Type := mkMetadata {
  md_id : string;
  md_provider : GrokAccountProvider;
  md_auth_status : GrokAccountAuthStatus;
  md_enabled : bool;
  md_priority : Z;
  md_weight : Z;
  md_max_concurrency : Z;
  md_refresh_due_at_ms : option Z;
  md_quota_sync_due_at_ms : option Z;
  md_cooldown_until_ms : option Z;
  md_revision : Z;
  md_import_batch_id : string;
}.

Record GrokAccountImportOutcome : Type := mkOutcome { created : Z; unchanged : Z }.
Record GrokAccountRollbackOutcome : Type := mkRollback { removed : Z; already_rolled_back : bool }.

(** ** Schema *)

Record BatchRow : Type := mkBatch {
  ba_id : string;
  ba_status : string;
  ba_created_count : Z;
  ba_unchanged_count : Z;
  ba_created_at_ms : Z;
  ba_rolled_back_at_ms : option Z;
}.

Record AccountRow : Type := mkAccount {
  ac_id : string;
  ac_provider : string;
  ac_identity_digest : list Byte.byte;
  ac_ciphertext : list Byte.byte;
  ac_key_version : Z;
  ac_auth_status : string;
  ac_enabled : Z;
  ac_priority : Z;
  ac_weight : Z;
  ac_max_concurrency : Z;
  ac_refresh_due : option Z;
  ac_last_refresh : option Z;
  ac_refresh_failures : Z;
  ac_cooldown_until : option Z;
  ac_revision : Z;
  ac_batch_id : string;
  ac_created_at : Z;
  ac_updated_at : Z;
  ac_quota_due : option Z;
  ac_last_quota : option Z;
  ac_quota_failures : Z;
  ac_claim_kind : option string;
  ac_claim_id : option string;
  ac_claim_expires : option Z;
}.

Record QuotaWindowRow : Type := mkQuotaRow {
  qw_account_id : string;
  qw_scope_kind : string;
  qw_model_label : string;
  qw_window_label : string;
  qw_limit : option Z;
  qw_remaining : option Z;
  qw_reset_at : option Z;
  qw_source : string;
  qw_confidence : string;
  qw_observed_at : Z;
}.

Record ReauthRow : Type := mkReauth {
  ra_account_id : string;
  ra_next_attempt : option Z;
  ra_failures : Z;
  ra_operator_required : Z;
  ra_claim_id : option string;
  ra_claim_expires : option Z;
}.

Record GrokDb : Type := mkGrokDb {
  db_batches : gmap string BatchRow;
  db_accounts : gmap string AccountRow;
  db_links : gmap (string * string * string) Z;
  db_quota : gmap (string * string * string * string) QuotaWindowRow;
  db_reauth : gmap string ReauthRow;
}.

Definition empty_grok_db : GrokDb := mkGrokDb ∅ ∅ ∅ ∅ ∅.

(** [length(trim(x)) BETWEEN 1 AND n AND length(CAST(x AS BLOB)) <= n]. *)
Definition opaque_fits (n : nat) (value : string) : bool :=
  text_fits (Z.of_nat n) value && (String.length value <=? n)%nat.

Definition is_in (options : list string) (value : string) : bool := bool_decide (value ∈ options).

Definition batch_check (b : BatchRow) : bool :=
  opaque_fits 128 (ba_id b) && is_in ["applied"; "rolled_back"] (ba_status b) && (0 <=? ba_created_count b)
  && (0 <=? ba_unchanged_count b) && (0 <=? ba_created_at_ms b)
  && match ba_rolled_back_at_ms b with Some t => ba_created_at_ms b <=? t | None => true end.

(** The three columns of a worker claim are set together. *)
Definition claim_check (a : AccountRow) : bool :=
  match ac_claim_kind a, ac_claim_id a, ac_claim_expires a with
  | None, None, None => true
  | Some kind, Some id, Some expires => is_in ["refresh"; "quota"] kind && opaque_fits 128 id && (0 <=? expires)
  | _, _, _ => false
  end.

Definition account_check (a : AccountRow) : bool :=
  opaque_fits 128 (ac_id a) && is_in ["build"; "web"; "console"] (ac_provider a)
  && (length (ac_identity_digest a) =? 32)%nat && negb (bool_decide (ac_ciphertext a = [])) && (0 <? ac_key_version a)
  && is_in ["active"; "reauth_required"; "disabled"] (ac_auth_status a) && within 0 1 (ac_enabled a)
  && within (-1000) 1000 (ac_priority a) && within 1 10000 (ac_weight a) && within 1 10000 (ac_max_concurrency a)
  && negb (negative (ac_refresh_due a)) && negb (negative (ac_last_refresh a)) && (0 <=? ac_refresh_failures a)
  && negb (negative (ac_cooldown_until a)) && (0 <=? ac_revision a) && (0 <=? ac_created_at a)
  && (ac_created_at a <=? ac_updated_at a) && negb (negative (ac_quota_due a)) && negb (negative (ac_last_quota a))
  && (0 <=? ac_quota_failures a) && claim_check a.

Definition link_check (l : string * string * string) (created_at : Z) : bool :=
  opaque_fits 64 l.2 && (0 <=? created_at) && negb (bool_decide (l.1.1 = l.1.2)).

(** ** Statements *)

Definition set_batches (m : gmap string BatchRow) (db : GrokDb) : GrokDb :=
  mkGrokDb m (db_accounts db) (db_links db) (db_quota db) (db_reauth db).
Definition set_accounts (m : gmap string AccountRow) (db : GrokDb) : GrokDb :=
  mkGrokDb (db_batches db) m (db_links db) (db_quota db) (db_reauth db).
Definition set_links (m : gmap (string * string * string) Z) (db : GrokDb) : GrokDb :=
  mkGrokDb (db_batches db) (db_accounts db) m (db_quota db) (db_reauth db).
Definition set_quota (m : gmap (string * string * string * string) QuotaWindowRow) (db : GrokDb) : GrokDb :=
  mkGrokDb (db_batches db) (db_accounts db) (db_links db) m (db_reauth db).
Definition set_reauth (m : gmap string ReauthRow) (db : GrokDb) : GrokDb :=
  mkGrokDb (db_batches db) (db_accounts db) (db_links db) (db_quota db) m.

Definition has {K A} `{Countable K} (m : gmap K A) (k : K) : bool := bool_decide (is_Some (m !! k)).

Definition insert_batch_stmt (b : BatchRow) (db : GrokDb) : option (Z * GrokDb) :=
  if has (db_batches db) (ba_id b) || negb (batch_check b) then None
  else Some (1, set_batches (<[ba_id b := b]> (db_batches db)) db).

(** [UPDATE .. WHERE id = ?]: no row, a row that violates a CHECK, or one row. *)
Definition update_batch_stmt (id : string) (f : BatchRow -> BatchRow) (db : GrokDb) : option (Z * GrokDb) :=
  match db_batches db !! id with
  | None => Some (0, db)
  | Some b => if batch_check (f b) then Some (1, set_batches (<[id := f b]> (db_batches db)) db) else None
  end.

Definition account_identity (a : AccountRow) : string * list Byte.byte := (ac_provider a, ac_identity_digest a).

Definition insert_account_stmt (a : AccountRow) (db : GrokDb) : option (Z * GrokDb) :=
  if has (db_accounts db) (ac_id a) || negb (free account_identity (ac_id a) (account_identity a) (db_accounts db))
     || negb (has (db_batches db) (ac_batch_id a)) || negb (account_check a) then None
  else Some (1, set_accounts (<[ac_id a := a]> (db_accounts db)) db).

(** [UPDATE grok_accounts SET .. WHERE id = ? AND ..]; no statement changes the key,
    the identity or the batch. *)
Definition update_account_stmt (id : string) (where_ : AccountRow -> bool) (f : AccountRow -> AccountRow) (db : GrokDb)
  : option (Z * GrokDb) :=
  match db_accounts db !! id with
  | Some a =>
      if where_ a then
        if account_check (f a) then Some (1, set_accounts (<[id := f a]> (db_accounts db)) db) else None
      else Some (0, db)
  | None => Some (0, db)
  end.

(** [INSERT OR IGNORE]: a duplicate or a violated CHECK skips the row, a missing
    referenced row fails the statement. *)
Definition insert_link_stmt (source target label : string) (created_at : Z) (db : GrokDb) : option (Z * GrokDb) :=
  let key := (source, target, label) in
  if has (db_links db) key || negb (link_check key created_at) then Some (0, db)
  else if has (db_accounts db) source && has (db_accounts db) target
       then Some (1, set_links (<[key := created_at]> (db_links db)) db) else None.

Definition new_reauth (account_id : string) : ReauthRow := mkReauth account_id None 0 0 None None.

Definition insert_reauth_stmt (account_id : string) (db : GrokDb) : option (Z * GrokDb) :=
  if has (db_reauth db) account_id then Some (0, db)
  else if has (db_accounts db) account_id
       then Some (1, set_reauth (<[account_id := new_reauth account_id]> (db_reauth db)) db) else None.

(** [ON DELETE CASCADE] of links, quota windows and reauthentication rows. *)
Definition cascade_accounts (accounts : gmap string AccountRow) (db : GrokDb) : GrokDb :=
  mkGrokDb (db_batches db) accounts
    (filter (fun l => has accounts l.1.1.1 = true /\ has accounts l.1.1.2 = true) (db_links db))
    (filter (fun q => has accounts (qw_account_id q.2) = true) (db_quota db))
    (filter (fun r => has accounts (ra_account_id r.2) = true) (db_reauth db)).

Definition delete_batch_accounts_stmt (batch_id : string) (db : GrokDb) : option (Z * GrokDb) :=
  let kept := filter (fun a => ac_batch_id a.2 <> batch_id) (db_accounts db) in
  Some (Z.of_nat (size (db_accounts db)) - Z.of_nat (size kept), cascade_accounts kept db).
(** ** Reading rows *)

Definition sqlite_bool (value : Z) : result GrokAccountPoolError bool :=
  if value =? 0 then Ok false else if value =? 1 then Ok true else Err InvalidPersistedState.

Definition u32_of (value : Z) : result GrokAccountPoolError Z :=
  if within 0 (2 ^ 32 - 1) value then Ok value else Err InvalidPersistedState.

Definition key_version_of (value : Z) : result GrokAccountPoolError KeyVersion :=
  map_err (fun _ => InvalidPersistedState) (try_from_sqlite_i64 value).

(** [try_into::<[u8; 32]>()]. *)
Definition digest_of (value : list Byte.byte) : result GrokAccountPoolError (list Byte.byte) :=
  if (length value =? 32)%nat then Ok value else Err InvalidPersistedState.

Record PersistedCredential : Type := mkPersisted {
  pe_provider : GrokAccountProvider;
  pe_identity_digest : list Byte.byte;
  pe_ciphertext : list Byte.byte;
  pe_key_version : KeyVersion;
}.

Record ExistingAccount : Type := mkExisting {
  ex_id : string;
  ex_credential : PersistedCredential;
  ex_auth_status : GrokAccountAuthStatus;
  ex_enabled : bool;
  ex_priority : Z;
  ex_weight : Z;
  ex_max_concurrency : Z;
  ex_refresh_due_at_ms : option Z;
  ex_quota_sync_due_at_ms : option Z;
  ex_cooldown_until_ms : option Z;
}.

Definition decode_existing (provider : GrokAccountProvider) (identity_digest : list Byte.byte) (a : AccountRow)
  : result GrokAccountPoolError ExistingAccount :=
  let? key_version := key_version_of (ac_key_version a) in
  let? auth_status := auth_parse (ac_auth_status a) in
  let? enabled := sqlite_bool (ac_enabled a) in
  let? weight := u32_of (ac_weight a) in
  let? max_concurrency := u32_of (ac_max_concurrency a) in
  Ok (mkExisting (ac_id a) (mkPersisted provider identity_digest (ac_ciphertext a) key_version) auth_status enabled
        (ac_priority a) weight max_concurrency (ac_refresh_due a) (ac_quota_due a) (ac_cooldown_until a)).

Definition decode_persisted (a : AccountRow) : result GrokAccountPoolError PersistedCredential :=
  let? provider := provider_parse (ac_provider a) in
  let? identity_digest := digest_of (ac_identity_digest a) in
  let? key_version := key_version_of (ac_key_version a) in
  Ok (mkPersisted provider identity_digest (ac_ciphertext a) key_version).

Definition u64_of (value : Z) : result GrokAccountPoolError Z := ok_or InvalidPersistedState (u64_try_from value).

(** A conversion that fails fails the row, which the caller reports. *)
Definition decode_metadata (a : AccountRow) : result GrokAccountPoolError GrokAccountMetadata :=
  let? provider := provider_parse (ac_provider a) in
  let? auth_status := auth_parse (ac_auth_status a) in
  let? enabled := sqlite_bool (ac_enabled a) in
  let? weight := u32_of (ac_weight a) in
  let? max_concurrency := u32_of (ac_max_concurrency a) in
  let? revision := u64_of (ac_revision a) in
  Ok (mkMetadata (ac_id a) provider auth_status enabled (ac_priority a) weight max_concurrency (ac_refresh_due a)
        (ac_quota_due a) (ac_cooldown_until a) revision (ac_batch_id a)).

Definition validate_metadata (md : GrokAccountMetadata) : result GrokAccountPoolError GrokAccountMetadata :=
  if negb (valid_component (md_id md) MAX_OPAQUE_ID_BYTES) || negb (valid_component (md_import_batch_id md) MAX_OPAQUE_ID_BYTES)
     || negb (within (-1000) 1000 (md_priority md)) || negb (within 1 10000 (md_weight md))
     || negb (within 1 10000 (md_max_concurrency md)) || negative (md_refresh_due_at_ms md)
     || negative (md_quota_sync_due_at_ms md) || negative (md_cooldown_until_ms md)
  then Err InvalidPersistedState else Ok md.

Definition rows_of (db : GrokDb) : list AccountRow := (map_to_list (db_accounts db)).*2.

Definition find_by_identity (provider : GrokAccountProvider) (digest : list Byte.byte) (db : GrokDb) : option AccountRow :=
  List.find (fun a => bool_decide (account_identity a = (provider_as_str provider, digest))) (rows_of db).

(** [ORDER BY provider, id]. *)
Definition listing_leb (a b : AccountRow) : bool :=
  if bool_decide (ac_provider a = ac_provider b) then String.leb (ac_id a) (ac_id b)
  else String.leb (ac_provider a) (ac_provider b).

Definition credential_aad (provider : GrokAccountProvider) (identity_digest : list Byte.byte) : list Byte.byte :=
  ACCOUNT_SECRET_AAD_DOMAIN ++ [Byte.x00] ++ text_bytes (provider_as_str provider) ++ [Byte.x00] ++ identity_digest.

Section Operations.
Context `{!Aead} (sha256 : list Byte.byte -> list Byte.byte) (sqlite_fails : nat -> bool)
  (random : nat -> nat -> option (list Byte.byte)) (ring : MasterKeyRing).

Abbreviation GrokM A := (M (Conn GrokDb) GrokAccountPoolError A).
Abbreviation query := (sql_query sqlite_fails StoreUnavailable).
Abbreviation execute := (sql_execute sqlite_fails StoreUnavailable).
Abbreviation transaction := (sql_transaction sqlite_fails StoreUnavailable).

Definition identity_digest (provider : GrokAccountProvider) (identity : list Byte.byte) : list Byte.byte :=
  sha256 (ACCOUNT_SECRET_AAD_DOMAIN ++ [Byte.x00] ++ text_bytes (provider_as_str provider) ++ [Byte.x00] ++ identity).

Definition open_persisted_credential (persisted : PersistedCredential) : result GrokAccountPoolError (list Byte.byte) :=
  let? encrypted := map_err (fun _ => InvalidPersistedState)
                      (try_from_persisted (pe_key_version persisted) (pe_ciphertext persisted)) in
  map_err (fun _ => SecretStoreFailure)
    (open ring encrypted (credential_aad (pe_provider persisted) (pe_identity_digest persisted))).

Definition random_account_id : GrokM string :=
  let! bytes := draw random 16 in
  let! bytes := lift (ok_or StoreUnavailable bytes) in
  ret ("grok-" +:+ encode_lower_hex bytes).

Inductive ImportOneOutcome : Type := Created (account_id : string) | Unchanged (account_id : string).

Definition matches (existing : ExistingAccount) (entry : GrokAccountImport) : bool :=
  bool_decide (ex_enabled existing = im_enabled entry) && bool_decide (ex_auth_status existing = im_auth_status entry)
  && (ex_priority existing =? im_priority entry) && (ex_weight existing =? im_weight entry)
  && (ex_max_concurrency existing =? im_max_concurrency entry)
  && bool_decide (ex_refresh_due_at_ms existing = im_refresh_due_at_ms entry)
  && bool_decide (ex_quota_sync_due_at_ms existing = im_quota_sync_due_at_ms entry)
  && bool_decide (ex_cooldown_until_ms existing = im_cooldown_until_ms entry).

(** The row of a new account. *)
Definition new_account (id batch_id : string) (entry : GrokAccountImport) (digest : list Byte.byte)
    (encrypted : EncryptedSecret) (observed_at_ms : Z) : AccountRow :=
  mkAccount id (provider_as_str (im_provider entry)) digest (es_ciphertext encrypted) (es_key_version encrypted)
    (auth_as_str (im_auth_status entry)) (if im_enabled entry then 1 else 0) (im_priority entry) (im_weight entry)
    (im_max_concurrency entry) (im_refresh_due_at_ms entry) None 0 (im_cooldown_until_ms entry) 0 batch_id observed_at_ms
    observed_at_ms (im_quota_sync_due_at_ms entry) None 0 None None None.

Definition import_one (batch_id : string) (entry : GrokAccountImport) (observed_at_ms : Z) : GrokM ImportOneOutcome :=
  let digest := identity_digest (im_provider entry) (identity_value (im_identity entry)) in
  let! row := query (find_by_identity (im_provider entry) digest) in
  match row with
  | Some row =>
      let! existing := lift (decode_existing (im_provider entry) digest row) in
      let! plaintext := lift (open_persisted_credential (ex_credential existing)) in
      if bool_decide (plaintext = credential_value (im_credential entry)) && matches existing entry
      then ret (Unchanged (ex_id existing)) else raise ExistingAccountConflict
  | None =>
      let! nonce := draw random NONCE_BYTES in
      let! encrypted := lift (map_err (fun _ => SecretStoreFailure)
                          (seal ring nonce (credential_value (im_credential entry)) (credential_aad (im_provider entry) digest))) in
      let! account_id := random_account_id in
      let! _ := execute (insert_account_stmt (new_account account_id batch_id entry digest encrypted observed_at_ms)) in
      ret (Created account_id)
  end.

(** [identities.insert((entry.provider, digest))] over the entries. *)
Definition check_entry (seen : list (GrokAccountProvider * list Byte.byte)) (entry : GrokAccountImport)
  : result GrokAccountPoolError (list (GrokAccountProvider * list Byte.byte)) :=
  let? _ := validate entry in
  let key := (im_provider entry, identity_digest (im_provider entry) (identity_value (im_identity entry))) in
  if bool_decide (key ∈ seen) then Err DuplicateIdentity else Ok (seen ++ [key]).

Definition check_relation (count : nat) (seen : list (nat * nat * string)) (r : GrokAccountImportRelation)
  : result GrokAccountPoolError (list (nat * nat * string)) :=
  let key := (source_entry r, target_entry r, relation r) in
  if (count <=? source_entry r)%nat || (count <=? target_entry r)%nat || (source_entry r =? target_entry r)%nat
     || negb (valid_component (relation r) MAX_RELATION_BYTES) || bool_decide (key ∈ seen)
  then Err InvalidRequest else Ok (seen ++ [key]).

(** The loop state: created, unchanged, and the account of every entry. *)
Record ImportState : Type := mkImportState { is_created : Z; is_unchanged : Z; is_ids : list string }.

Definition import_step (batch_id : string) (observed_at_ms : Z) (st : ImportState) (entry : GrokAccountImport)
  : GrokM ImportState :=
  let! outcome := import_one batch_id entry observed_at_ms in
  let '(c, u, account_id) := match outcome with
                             | Created account_id => (is_created st + 1, is_unchanged st, account_id)
                             | Unchanged account_id => (is_created st, is_unchanged st + 1, account_id)
                             end in
  let! _ := (if bool_decide (im_auth_status entry = ReauthRequired) then execute (insert_reauth_stmt account_id) else ret 0) in
  ret (mkImportState c u (is_ids st ++ [account_id])).

(** [account_ids[index]]. *)
Definition nth_id (ids : list string) (index : nat) : GrokM string :=
  match ids !! index with Some id => ret id | None => panic end.

Definition link_step (ids : list string) (observed_at_ms : Z) (_ : unit) (r : GrokAccountImportRelation) : GrokM unit :=
  let! source := nth_id ids (source_entry r) in
  let! target := nth_id ids (target_entry r) in
  execute (insert_link_stmt source target (relation r) observed_at_ms) ;;; ret tt.

Definition count_batch (created unchanged : Z) (b : BatchRow) : BatchRow :=
  mkBatch (ba_id b) (ba_status b) created unchanged (ba_created_at_ms b) (ba_rolled_back_at_ms b).

Definition import_batch_with_relations (batch_id : string) (entries : list GrokAccountImport)
    (relations : list GrokAccountImportRelation) (observed_at_ms : Z) : GrokM GrokAccountImportOutcome :=
  if negb (valid_component batch_id MAX_OPAQUE_ID_BYTES) || bool_decide (entries = [])
     || (MAX_BATCH_ITEMS <? length entries)%nat || (MAX_BATCH_ITEMS <? length relations)%nat || (observed_at_ms <? 0)
  then raise InvalidRequest
  else
    let! _ := lift (try_fold check_entry entries []) in
    let! _ := lift (try_fold (check_relation (length entries)) relations []) in
    transaction (
      let! batch_exists := query (fun db => has (db_batches db) batch_id) in
      if batch_exists then raise BatchAlreadyExists
      else
        execute (insert_batch_stmt (mkBatch batch_id "applied" 0 0 observed_at_ms None)) ;;;
        (let! st := fold_m (import_step batch_id observed_at_ms) entries (mkImportState 0 0 []) in
         fold_m (link_step (is_ids st) observed_at_ms) relations tt ;;;
         (let! created := lift (ok_or InvalidRequest (i64_try_from (is_created st))) in
          let! unchanged := lift (ok_or InvalidRequest (i64_try_from (is_unchanged st))) in
          execute (update_batch_stmt batch_id (count_batch created unchanged)) ;;;
          ret (mkOutcome created unchanged)))).

Definition import_batch (batch_id : string) (entries : list GrokAccountImport) (observed_at_ms : Z)
  : GrokM GrokAccountImportOutcome := import_batch_with_relations batch_id entries [] observed_at_ms.

Definition roll_back_batch (observed_at_ms : Z) (b : BatchRow) : BatchRow :=
  mkBatch (ba_id b) "rolled_back" (ba_created_count b) (ba_unchanged_count b) (ba_created_at_ms b) (Some observed_at_ms).

Definition rollback_import_batch (batch_id : string) (observed_at_ms : Z) : GrokM GrokAccountRollbackOutcome :=
  if negb (valid_component batch_id MAX_OPAQUE_ID_BYTES) || (observed_at_ms <? 0) then raise InvalidRequest
  else sql_scope sqlite_fails StoreUnavailable (
    let! status := query (fun db => ba_status <$> db_batches db !! batch_id) in
    let! status := lift (ok_or AccountNotFound status) in
    if bool_decide (status = "rolled_back") then ret (mkRollback 0 true, false)
    else if negb (bool_decide (status = "applied")) then raise InvalidPersistedState
    else
      let! removed := execute (delete_batch_accounts_stmt batch_id) in
      execute (update_batch_stmt batch_id (roll_back_batch observed_at_ms)) ;;;
      ret (mkRollback removed false, true)).

Definition list_step (acc : list GrokAccountMetadata) (a : AccountRow) : GrokM (list GrokAccountMetadata) :=
  sql_call sqlite_fails InvalidPersistedState ;;;
  (let! md := lift (decode_metadata a) in
   let! md := lift (validate_metadata md) in
   ret (acc ++ [md])).

Definition list_accounts : GrokM (list GrokAccountMetadata) :=
  let! rows := query (fun db => sort_by listing_leb (rows_of db)) in
  fold_m list_step rows [].

Definition open_credential (account_id : string) : GrokM (list Byte.byte) :=
  if negb (valid_component account_id MAX_OPAQUE_ID_BYTES) then raise InvalidRequest
  else
    let! row := query (fun db => db_accounts db !! account_id) in
    match row with
    | None => raise AccountNotFound
    | Some row =>
        let! persisted := lift (decode_persisted row) in
        lift (open_persisted_credential persisted)
    end.

Definition link_accounts (source_account_id target_account_id label : string) (observed_at_ms : Z) : GrokM unit :=
  if negb (valid_component source_account_id MAX_OPAQUE_ID_BYTES) || negb (valid_component target_account_id MAX_OPAQUE_ID_BYTES)
     || bool_decide (source_account_id = target_account_id) || negb (valid_component label MAX_RELATION_BYTES)
     || (observed_at_ms <? 0)
  then raise InvalidRequest
  else execute (insert_link_stmt source_account_id target_account_id label observed_at_ms) ;;; ret tt.
End Operations.
(** ** Invariant *)

(** Projections of a changed database. *)
Ltac grok_simpl := cbn [db_batches db_accounts db_links db_quota db_reauth set_batches set_accounts set_links set_quota
  set_reauth empty_grok_db].

Definition reauth_check (r : ReauthRow) : bool :=
  negb (negative (ra_next_attempt r)) && (0 <=? ra_failures r) && within 0 1 (ra_operator_required r)
  && match ra_claim_id r, ra_claim_expires r with
     | None, None => true
     | Some id, Some expires => opaque_fits 128 id && (0 <=? expires)
     | _, _ => false
     end.

(** The tables satisfy their constraints. *)
Record tables_sound (db : GrokDb) : Prop := {
  go_batches : rows ba_id (fun b => batch_check b && valid_component (ba_id b) MAX_OPAQUE_ID_BYTES) (db_batches db);
  go_accounts : rows ac_id (fun a => account_check a && valid_component (ac_id a) MAX_OPAQUE_ID_BYTES) (db_accounts db);
  go_identities : unique account_identity (db_accounts db);
  go_batch_of : refers (fun a => Some (ac_batch_id a)) (db_accounts db) (db_batches db);
  go_links : forall l t, db_links db !! l = Some t ->
    has (db_accounts db) l.1.1 = true /\ has (db_accounts db) l.1.2 = true /\ link_check l t = true;
  go_quota : refers (fun q => Some (qw_account_id q)) (db_quota db) (db_accounts db);
  go_reauth : rows ra_account_id reauth_check (db_reauth db);
  go_reauth_of : refers (fun r => Some (ra_account_id r)) (db_reauth db) (db_accounts db);
}.

(** Every account that needs reauthentication is queued for it. *)
Definition queued (db : GrokDb) : Prop :=
  forall i a, db_accounts db !! i = Some a -> ac_auth_status a = "reauth_required" -> is_Some (db_reauth db !! i).

Definition grok_ok (db : GrokDb) : Prop := tables_sound db /\ queued db.

Lemma has_true {K A} `{Countable K} (m : gmap K A) k : has m k = true <-> is_Some (m !! k).
Proof. unfold has. by rewrite bool_decide_eq_true. Qed.

Lemma has_false {K A} `{Countable K} (m : gmap K A) k : has m k = false <-> m !! k = None.
Proof. unfold has. rewrite bool_decide_eq_false. symmetry. apply eq_None_not_Some. Qed.

Lemma has_sub {K A} `{Countable K} (m m' : gmap K A) k : m ⊆ m' -> has m k = true -> has m' k = true.
Proof. intros Hs. rewrite !has_true. intros [a Ha]. exists a. by eapply lookup_weaken. Qed.

Lemma empty_grok_ok : grok_ok empty_grok_db.
Proof.
  split; [constructor|unfold queued]; grok_simpl; intros k; intros;
    match goal with Hl : ∅ !! _ = Some _ |- _ => by rewrite lookup_empty in Hl end.
Qed.

Lemma insert_batch_inv b db n db' :
  insert_batch_stmt b db = Some (n, db') ->
  db_batches db !! ba_id b = None /\ batch_check b = true /\ db' = set_batches (<[ba_id b := b]> (db_batches db)) db.
Proof.
  unfold insert_batch_stmt. destruct (has _ _) eqn:Hh; [done|]. destruct (batch_check b); [|done]. intros [= _ <-].
  by apply has_false in Hh.
Qed.

Lemma insert_account_inv a db n db' :
  insert_account_stmt a db = Some (n, db') ->
  db_accounts db !! ac_id a = None /\ free account_identity (ac_id a) (account_identity a) (db_accounts db) = true
  /\ is_Some (db_batches db !! ac_batch_id a) /\ account_check a = true
  /\ db' = set_accounts (<[ac_id a := a]> (db_accounts db)) db.
Proof.
  unfold insert_account_stmt. destruct (has (db_accounts db) _) eqn:Hh; [done|]. destruct (free _ _ _ _); [|done].
  destruct (has (db_batches db) _) eqn:Hb; [|done]. destruct (account_check a); [|done]. intros [= _ <-].
  apply has_false in Hh. apply has_true in Hb. done.
Qed.

Lemma set_batches_sound b db : tables_sound db -> batch_check b = true -> valid_component (ba_id b) MAX_OPAQUE_ID_BYTES = true ->
  tables_sound (set_batches (<[ba_id b := b]> (db_batches db)) db).
Proof.
  intros [] Hb Hv. constructor; grok_simpl; try done.
  - apply rows_put; [done|]. by rewrite Hb, Hv.
  - by apply refers_put_parent.
Qed.

Lemma refers_more {K A K' B} `{Countable K} `{Countable K'} (ref : A -> option K') (m : gmap K A) (p q : gmap K' B) :
  (forall i, is_Some (p !! i) -> is_Some (q !! i)) -> refers ref m p -> refers ref m q.
Proof. intros Hpq Hm k r i Hr Hi. apply Hpq. by eapply Hm. Qed.

Lemma insert_account_sound a db n db' :
  tables_sound db -> valid_component (ac_id a) MAX_OPAQUE_ID_BYTES = true ->
  insert_account_stmt a db = Some (n, db') -> tables_sound db'.
Proof.
  intros [] Hv (Hnew & Hfree & Hb & Hc & ->)%insert_account_inv.
  assert (Hgrow : forall i, is_Some (db_accounts db !! i) -> is_Some (<[ac_id a := a]> (db_accounts db) !! i)).
  { intros i Hi. rewrite lookup_insert_is_Some'. by right. }
  constructor; grok_simpl; try done.
  - apply rows_put; [done|]. by rewrite Hc, Hv.
  - by apply unique_put.
  - apply refers_put; [done|]. by intros i [= <-].
  - intros l t Hl. destruct (go_links0 l t Hl) as (H1 & H2 & H3). rewrite !has_true in *. auto.
  - by eapply refers_more.
  - by eapply refers_more.
Qed.
(** ** Import *)

Lemma provider_parse_as_str p : provider_parse (provider_as_str p) = Ok p.
Proof. by destruct p. Qed.

Lemma provider_parse_inv value p : provider_parse value = Ok p -> value = provider_as_str p.
Proof. unfold provider_parse. repeat case_bool_decide; by intros [= <-]. Qed.

Lemma auth_parse_inv value a : auth_parse value = Ok a -> value = auth_as_str a.
Proof. unfold auth_parse. repeat case_bool_decide; intros [= <-]; done. Qed.

Lemma sqlite_bool_inv value b : sqlite_bool value = Ok b -> value = if b then 1 else 0.
Proof. unfold sqlite_bool. destruct (Z.eqb_spec value 0); [|destruct (Z.eqb_spec value 1)]; intros [= <-]; done. Qed.

Lemma u32_of_inv value w : u32_of value = Ok w -> w = value.
Proof. unfold u32_of. by destruct (within _ _ _); intros [= <-]. Qed.

(** A bind of results that succeeds. *)
Lemma u64_ok {E} (e : E) z v : ok_or e (u64_try_from z) = Ok v -> v = z.
Proof. unfold u64_try_from. by destruct (in_u64 z); intros [= <-]. Qed.

Section Import.
Context `{!Aead} `{!AeadLaws} (sha256 : list Byte.byte -> list Byte.byte) (sqlite_fails : nat -> bool)
  (random : nat -> nat -> option (list Byte.byte)) (ring : MasterKeyRing).
(** [getrandom::fill] fills the buffer; a key version is a non-zero [u32]. *)
Hypothesis random_length : forall n k bytes, random n k = Some bytes -> length bytes = n.
Hypothesis key_version : 1 <= active_key_version ring < 2 ^ 32.

Abbreviation digest entry := (identity_digest sha256 (im_provider entry) (identity_value (im_identity entry))).

(** What a stored credential opens to. *)
Definition opens (a : AccountRow) (plaintext : list Byte.byte) : Prop :=
  exists persisted, decode_persisted a = Ok persisted /\ open_persisted_credential ring persisted = Ok plaintext.

(** The columns of a row that opens, read one by one. *)
Lemma parts_open a p d kv secret plaintext :
  provider_parse (ac_provider a) = Ok p -> digest_of (ac_identity_digest a) = Ok d -> try_from_sqlite_i64 (ac_key_version a) = Ok kv ->
  try_from_persisted kv (ac_ciphertext a) = Ok secret -> open ring secret (credential_aad p d) = Ok plaintext ->
  account_identity a = (provider_as_str p, d) /\ opens a plaintext.
Proof.
  intros Hp Hd Hkv Hs Ho. split.
  - unfold digest_of in Hd. destruct (_ =? _)%nat; [|done]. injection Hd as <-. unfold account_identity. f_equal. by apply provider_parse_inv.
  - exists (mkPersisted p d (ac_ciphertext a) kv). split; [unfold decode_persisted, key_version_of; by rewrite Hp, Hd, Hkv|].
    unfold open_persisted_credential. simpl. rewrite Hs. simpl. by rewrite Ho.
Qed.

(** The row says what the entry says. *)
Record describes (entry : GrokAccountImport) (a : AccountRow) : Prop := {
  de_provider : ac_provider a = provider_as_str (im_provider entry);
  de_identity : ac_identity_digest a = digest entry;
  de_auth : ac_auth_status a = auth_as_str (im_auth_status entry);
  de_enabled : ac_enabled a = if im_enabled entry then 1 else 0;
  de_priority : ac_priority a = im_priority entry;
  de_weight : ac_weight a = im_weight entry;
  de_concurrency : ac_max_concurrency a = im_max_concurrency entry;
  de_refresh : ac_refresh_due a = im_refresh_due_at_ms entry;
  de_quota : ac_quota_due a = im_quota_sync_due_at_ms entry;
  de_cooldown : ac_cooldown_until a = im_cooldown_until_ms entry;
  de_secret : opens a (credential_value (im_credential entry));
}.

Lemma existing_describes entry a existing :
  account_check a = true -> account_identity a = (provider_as_str (im_provider entry), digest entry) ->
  decode_existing (im_provider entry) (digest entry) a = Ok existing ->
  open_persisted_credential ring (ex_credential existing) = Ok (credential_value (im_credential entry)) ->
  matches existing entry = true -> ex_id existing = ac_id a /\ describes entry a.
Proof.
  intros Hc [= Hp Hi] Hd Ho Hm. unfold decode_existing in Hd.
  apply result_bind_ok in Hd as (kv & Hkv & Hd). apply result_bind_ok in Hd as (auth & Ha & Hd).
  apply result_bind_ok in Hd as (en & He & Hd). apply result_bind_ok in Hd as (w & Hw & Hd).
  apply result_bind_ok in Hd as (mc & Hmc & Hd). injection Hd as <-. simpl in *.
  unfold matches in Hm. simpl in Hm. bool_simp.
  apply auth_parse_inv in Ha. apply sqlite_bool_inv in He. apply u32_of_inv in Hw, Hmc. subst.
  split; [done|]. constructor; try done; try congruence.
  exists (mkPersisted (im_provider entry) (digest entry) (ac_ciphertext a) kv). split; [|done].
  unfold decode_persisted. rewrite Hp, provider_parse_as_str, Hi. simpl. unfold digest_of.
  replace (length (digest entry) =? 32)%nat with true by (rewrite <- Hi; unfold account_check in Hc; by bool_simp).
  simpl. by rewrite Hkv.
Qed.

(** A credential sealed for the identity of its row opens. *)
Lemma sealed_opens a provider d plain secret nonce :
  seal ring (random NONCE_BYTES nonce) plain (credential_aad provider d) = Ok secret ->
  account_identity a = (provider_as_str provider, d) -> ac_ciphertext a = es_ciphertext secret ->
  ac_key_version a = es_key_version secret -> account_check a = true -> opens a plain.
Proof.
  intros Hs Hid Hct Hkv Hc. injection Hid as Hp Hd. destruct (random NONCE_BYTES nonce) as [bytes|] eqn:Hb.
  2: { unfold seal in Hs. by destruct (validate_associated_data _). }
  pose proof (random_length _ _ _ Hb) as Hlen. pose proof (seal_inv _ _ _ _ _ Hlen Hs) as (key & ct & Hkey & _ & _ & _ & Heq & Hv).
  exists (mkPersisted provider d (es_ciphertext secret) (es_key_version secret)). split.
  - unfold decode_persisted. rewrite Hp, Hd, Hct, Hkv, provider_parse_as_str. unfold digest_of, key_version_of, try_from_sqlite_i64, key_version_try_new.
    replace (length d =? 32)%nat with true by (rewrite <- Hd; unfold account_check in Hc; by bool_simp).
    assert (es_key_version secret = active_key_version ring) as -> by (by rewrite Heq). simpl.
    rewrite (proj2 (Z.leb_le _ _)), (proj2 (Z.ltb_lt _ _)), (proj2 (Z.eqb_neq _ _)) by lia. done.
  - unfold open_persisted_credential, try_from_persisted. simpl. rewrite Hv. simpl.
    replace (mkEncrypted (es_key_version secret) (es_ciphertext secret)) with secret by (by destruct secret).
    by rewrite (open_sealed ring ring bytes _ _ _ Hlen Hs eq_refl).
Qed.

Lemma new_account_describes id batch_id entry secret now nonce :
  seal ring (random NONCE_BYTES nonce) (credential_value (im_credential entry)) (credential_aad (im_provider entry) (digest entry))
    = Ok secret ->
  account_check (new_account id batch_id entry (digest entry) secret now) = true ->
  describes entry (new_account id batch_id entry (digest entry) secret now).
Proof. intros Hs Hc. constructor; try done. by eapply sealed_opens. Qed.

Lemma find_by_identity_inv provider d db a :
  find_by_identity provider d db = Some a ->
  (exists i, db_accounts db !! i = Some a) /\ account_identity a = (provider_as_str provider, d).
Proof.
  intros [Hin Hid]%List.find_some. split; [|by bool_simp]. apply list_elem_of_In, list_elem_of_fmap in Hin as ([i b] & -> & Hin).
  exists i. by apply elem_of_map_to_list.
Qed.

Lemma encode_lower_hex_length bytes : String.length (encode_lower_hex bytes) = (2 * length bytes)%nat.
Proof. induction bytes as [|b bytes IH]; [done|]. simpl in *. rewrite IH. lia. Qed.

Lemma account_id_valid bytes : length bytes = 16%nat -> valid_component ("grok-" +:+ encode_lower_hex bytes) MAX_OPAQUE_ID_BYTES = true.
Proof.
  intros Hl. apply andb_true_iff. split; [done|]. apply Nat.leb_le.
  change (String.length ("grok-" +:+ encode_lower_hex bytes)) with (5 + String.length (encode_lower_hex bytes))%nat.
  rewrite encode_lower_hex_length, Hl. unfold MAX_OPAQUE_ID_BYTES. lia.
Qed.

Lemma random_account_id_hoare (P : GrokDb -> Prop) :
  hoare P (random_account_id random) (fun i db => P db /\ valid_component i MAX_OPAQUE_ID_BYTES = true).
Proof.
  eapply hoare_bind; [apply hoare_draw with (Q := fun b db => P db /\ exists k, b = random 16%nat k); eauto|]. intros b.
  eapply hoare_bind; [apply hoare_lift with (Q := fun x db => P db /\ exists k, random 16%nat k = Some x)|].
  { intros x db Hx [HP [k ->]]. split; [done|]. exists k. destruct (random _ _); [|done]. by injection Hx as ->. }
  intros x. apply hoare_ret. intros db [HP [k Hk]]. split; [done|]. apply account_id_valid. by eapply random_length.
Qed.

(** The secret of a new row. *)
Definition sealed_for (entry : GrokAccountImport) (secret : EncryptedSecret) : Prop :=
  exists k, seal ring (random NONCE_BYTES k) (credential_value (im_credential entry)) (credential_aad (im_provider entry) (digest entry))
    = Ok secret.

(** One entry: an account that is there and agrees, or a new row. *)
Definition one_imported (batch_id : string) (entry : GrokAccountImport) (now : Z) (db0 : GrokDb) (o : ImportOneOutcome) (db : GrokDb)
  : Prop :=
  match o with
  | Unchanged i => db = db0 /\ exists a, db_accounts db0 !! i = Some a /\ describes entry a
  | Created i => exists a n, ac_id a = i /\ (ac_batch_id a = batch_id /\ ac_claim_id a = None) /\ describes entry a
      /\ valid_component i MAX_OPAQUE_ID_BYTES = true /\ insert_account_stmt a db0 = Some (n, db)
  end.

Lemma found_hoare batch_id entry now row db0 :
  tables_sound db0 -> find_by_identity (im_provider entry) (digest entry) db0 = Some row ->
  hoare (eq db0)
    (let! existing := lift (decode_existing (im_provider entry) (digest entry) row) in
     let! plaintext := lift (open_persisted_credential ring (ex_credential existing)) in
     if bool_decide (plaintext = credential_value (im_credential entry)) && matches existing entry
     then ret (Unchanged (ex_id existing)) else raise ExistingAccountConflict)
    (one_imported batch_id entry now db0).
Proof.
  intros Hok [[i Hi] Hid]%find_by_identity_inv.
  apply hoare_bind with (Q := fun ex db => db0 = db /\ decode_existing (im_provider entry) (digest entry) row = Ok ex).
  { apply hoare_lift. by intros ex db Hd <-. }
  intros ex. apply hoare_bind with (Q := fun plain db => db0 = db /\ decode_existing (im_provider entry) (digest entry) row = Ok ex
    /\ open_persisted_credential ring (ex_credential ex) = Ok plain).
  { apply hoare_lift. by intros plain db Ho (<- & Hd). }
  intros plain. destruct (bool_decide _ && _) eqn:Hm; [|apply hoare_raise]. apply hoare_ret. intros db (<- & Hd & Ho).
  destruct (go_accounts _ Hok _ _ Hi) as [Hki Hci]. bool_simp.
  destruct (existing_describes entry row ex) as [Hex Hde]; [try done; congruence..|]. split; [done|]. exists row. split; [congruence|done].
Qed.

Lemma import_one_hoare batch_id entry now db0 :
  tables_sound db0 ->
  hoare (eq db0) (import_one sha256 sqlite_fails random ring batch_id entry now) (one_imported batch_id entry now db0).
Proof.
  intros Hok. unfold import_one.
  apply hoare_bind with (Q := fun row db => db0 = db /\ row = find_by_identity (im_provider entry) (digest entry) db0).
  { apply hoare_query. by intros db <-. }
  intros [row|].
  { intros s o s' [Hdb Hf] Hrun. by eapply (found_hoare batch_id entry now row db0). }
  apply hoare_bind with (Q := fun bytes db => db0 = db /\ exists k, bytes = random NONCE_BYTES k).
  { apply hoare_draw. intros k db [<- _]. eauto. }
  intros nonce. apply hoare_bind with (Q := fun secret db => db0 = db /\ sealed_for entry secret).
  { apply hoare_lift. intros secret db Hs [<- [k ->]]. split; [done|]. exists k. destruct (seal _ _ _ _) as [x|e|] eqn:Hseal; [|done..].
    by injection Hs as ->. }
  intros secret. eapply hoare_bind; [apply random_account_id_hoare|]. intros i.
  eapply hoare_bind; [apply hoare_execute with (Q := fun _ db => one_imported batch_id entry now db0 (Created i) db)|].
  { intros db n db' [[<- (k & Hs)] Hv] Hi. eexists _, n. split_and!; [..|exact Hi]; [done|done|done| |done].
    pose proof (insert_account_inv _ _ _ _ Hi) as (_ & _ & _ & Hc & _). by eapply new_account_describes. }
  intros n. by apply hoare_ret.
Qed.
(** The loop of an import: what it added to the database it started from. *)
Record importing (batch_id : string) (base : GrokDb) (seen : list GrokAccountImport) (st : ImportState) (db : GrokDb) : Prop := {
  ig_ok : grok_ok db;
  ig_batches : db_batches db = db_batches base;
  ig_links : db_links db = db_links base;
  ig_quota : db_quota db = db_quota base;
  ig_accounts : db_accounts base ⊆ db_accounts db;
  ig_new : forall i a, db_accounts db !! i = Some a -> db_accounts base !! i = None ->
    (ac_batch_id a = batch_id /\ ac_claim_id a = None) /\ exists entry, entry ∈ seen /\ describes entry a;
  ig_reauth : db_reauth base ⊆ db_reauth db;
  ig_reauth_new : forall i r, db_reauth db !! i = Some r -> db_reauth base !! i = None ->
    db_accounts base !! i = None /\ r = new_reauth i
    /\ exists a, db_accounts db !! i = Some a /\ ac_auth_status a = "reauth_required";
  ig_created : is_created st = Z.of_nat (size (db_accounts db)) - Z.of_nat (size (db_accounts base));
  ig_total : is_created st + is_unchanged st = Z.of_nat (length seen);
  ig_ids : Forall2 (fun entry i => exists a, db_accounts db !! i = Some a /\ describes entry a) seen (is_ids st);
}.

Lemma insert_reauth_inv i db n db' :
  insert_reauth_stmt i db = Some (n, db') ->
  (is_Some (db_reauth db !! i) /\ db' = db)
  \/ (db_reauth db !! i = None /\ is_Some (db_accounts db !! i) /\ db' = set_reauth (<[i := new_reauth i]> (db_reauth db)) db).
Proof.
  unfold insert_reauth_stmt. destruct (has (db_reauth db) i) eqn:Hr; [intros [= _ <-]; left; by apply has_true in Hr|].
  destruct (has (db_accounts db) i) eqn:Ha; [|done]. intros [= _ <-]. right. apply has_false in Hr. apply has_true in Ha. done.
Qed.

Lemma insert_reauth_sound i db n db' : tables_sound db -> insert_reauth_stmt i db = Some (n, db') -> tables_sound db'.
Proof.
  intros Hok [[_ ->]|(Hr & Ha & ->)]%insert_reauth_inv; [done|]. destruct Hok. constructor; grok_simpl; try done.
  - change i with (ra_account_id (new_reauth i)) at 1. by apply rows_put.
  - apply refers_put; [done|]. by intros j [= <-].
Qed.

(** The queue after the optional insertion of the row of an account that is there. *)
Lemma requeued entry i db n db' :
  tables_sound db -> is_Some (db_accounts db !! i) ->
  (if bool_decide (im_auth_status entry = ReauthRequired) then insert_reauth_stmt i db = Some (n, db') else db' = db) ->
  tables_sound db' /\ db_accounts db' = db_accounts db /\ db_batches db' = db_batches db /\ db_links db' = db_links db
  /\ db_quota db' = db_quota db /\ db_reauth db ⊆ db_reauth db'
  /\ (forall j r, db_reauth db' !! j = Some r -> db_reauth db !! j = None -> j = i /\ r = new_reauth i)
  /\ (im_auth_status entry = ReauthRequired -> is_Some (db_reauth db' !! i)).
Proof.
  intros Hok Ha. case_bool_decide as Hs.
  - intros Hi. pose proof (insert_reauth_sound _ _ _ _ Hok Hi) as Hok'. split; [done|].
    apply insert_reauth_inv in Hi as [[Hr ->]|(Hr & _ & ->)]; grok_simpl.
    + split_and!; try done. intros j x Hx Hn. congruence.
    + split_and!; try done; [by apply insert_subseteq| |rewrite lookup_insert_eq; by eexists].
      intros j x [[<- <-]|[_ Hx]]%lookup_insert_Some Hn; [done|congruence].
  - intros ->. split_and!; try done. intros j x Hx Hn. congruence.
Qed.

Lemma forall2_grow seen ids (m m' : gmap string AccountRow) :
  m ⊆ m' -> Forall2 (fun entry i => exists a, m !! i = Some a /\ describes entry a) seen ids ->
  Forall2 (fun entry i => exists a, m' !! i = Some a /\ describes entry a) seen ids.
Proof. intros Hs Hall. eapply Forall2_impl; [exact Hall|]. intros entry i (a & Ha & Hd). exists a. split; [by eapply lookup_weaken|done]. Qed.

Lemma import_step_grows batch_id base seen st db entry now o db1 n db2 i c u :
  importing batch_id base seen st db -> one_imported batch_id entry now db o db1 ->
  match o with
  | Created j => (is_created st + 1, is_unchanged st, j)
  | Unchanged j => (is_created st, is_unchanged st + 1, j)
  end = (c, u, i) ->
  (if bool_decide (im_auth_status entry = ReauthRequired) then insert_reauth_stmt i db1 = Some (n, db2) else db2 = db1) ->
  importing batch_id base (seen ++ [entry]) (mkImportState c u (is_ids st ++ [i])) db2.
Proof.
  intros [[Hok Hq] Hb Hl Hqu Hacc Hnew Hre Hren Hcr Htot Hids] Ho Hc Hr.
  assert (H1 : tables_sound db1 /\ db_accounts db ⊆ db_accounts db1 /\ (exists a, db_accounts db1 !! i = Some a /\ describes entry a)
    /\ (forall j a, db_accounts db1 !! j = Some a -> db_accounts db !! j = None ->
          (ac_batch_id a = batch_id /\ ac_claim_id a = None) /\ j = i)
    /\ db_batches db1 = db_batches db /\ db_links db1 = db_links db /\ db_quota db1 = db_quota db /\ db_reauth db1 = db_reauth db
    /\ c = is_created st + (Z.of_nat (size (db_accounts db1)) - Z.of_nat (size (db_accounts db)))
    /\ c + u = is_created st + is_unchanged st + 1).
  { destruct o as [j|j]; injection Hc as <- <- <-.
    - destruct Ho as (a & m & Hid & Hbatch & Hd & Hv & Hi). subst j. pose proof (insert_account_sound _ _ _ _ Hok Hv Hi) as Hs1.
      apply insert_account_inv in Hi as (Hnone & _ & _ & _ & ->). split; [done|]. grok_simpl.
      split_and!; try done; [by apply insert_subseteq|exists a; by rewrite lookup_insert_eq| |rewrite map_size_insert_None by done; lia|lia].
      intros j x [[<- <-]|[_ Hx]]%lookup_insert_Some Hn; [done|congruence].
    - destruct Ho as (-> & a & Ha & Hd). split_and!; try done; [by exists a|intros; congruence|lia|lia]. }
  destruct H1 as (Hok1 & Hsub & (a & Ha & Hd) & Hnew1 & Hb1 & Hl1 & Hqu1 & Hre1 & Hc1 & Hc2).
  destruct (requeued entry i db1 n db2 Hok1) as (Hok2 & Ha2 & Hb2 & Hl2 & Hqu2 & Hsub2 & Hren2 & Hq2); [by eexists|done|].
  constructor; simpl; try congruence.
  - split; [done|]. intros j x Hj Hst. rewrite Ha2 in Hj. destruct (db_accounts db !! j) as [y|] eqn:Hy.
    + assert (y = x) as -> by (eapply lookup_weaken in Hy; [|exact Hsub]; congruence).
      destruct (Hq _ _ Hy Hst) as [r Hr']. exists r. eapply lookup_weaken; [|exact Hsub2]. by rewrite Hre1.
    + destruct (Hnew1 _ _ Hj Hy) as [_ ->]. apply Hq2. rewrite Ha in Hj. injection Hj as <-.
      rewrite (de_auth _ _ Hd) in Hst. by destruct (im_auth_status entry).
  - rewrite Ha2. by etrans.
  - intros j x Hj Hn. rewrite Ha2 in Hj. destruct (db_accounts db !! j) as [y|] eqn:Hy.
    + assert (y = x) as -> by (eapply lookup_weaken in Hy; [|exact Hsub]; congruence).
      destruct (Hnew j x Hy Hn) as (Hx1 & en & Hin & Hde). split; [done|]. exists en. split; [set_solver|done].
    + destruct (Hnew1 _ _ Hj Hy) as [Hx1 ->]. split; [done|]. rewrite Ha in Hj. injection Hj as <-. exists entry. split; [set_solver|done].
  - etrans; [exact Hre|]. rewrite <- Hre1. done.
  - intros j x Hj Hn. destruct (db_reauth db !! j) as [y|] eqn:Hy.
    { assert (y = x) as -> by (rewrite <- Hre1 in Hy; eapply lookup_weaken in Hy; [|exact Hsub2]; congruence).
      destruct (Hren _ _ Hy Hn) as (? & ? & z & Hz & Hst). split_and!; [done..|]. exists z. split; [|done]. rewrite Ha2. by eapply lookup_weaken. }
    rewrite <- Hre1 in Hy. destruct (Hren2 j x Hj Hy) as [-> Hx]. split_and!; [|done|].
    2: { exists a. split; [by rewrite Ha2|]. rewrite (de_auth _ _ Hd). case_bool_decide as Hs; [by rewrite Hs|]. subst db2. congruence. }
    destruct (db_accounts base !! i) as [z|] eqn:Hz; [|done]. exfalso.
    assert (Hdb : db_accounts db !! i = Some z) by (by eapply lookup_weaken).
    assert (z = a) as -> by (eapply lookup_weaken in Hdb; [|exact Hsub]; congruence).
    rewrite bool_decide_decide in Hr. destruct (decide _) as [Hs|Hs].
    + destruct (Hq _ _ Hdb) as [r Hr']; [rewrite (de_auth _ _ Hd), Hs; done|]. congruence.
    + subst db2. congruence.
  - rewrite Ha2. lia.
  - rewrite length_app. simpl. lia.
  - apply Forall2_app; [|constructor; [|constructor]; exists a; by rewrite Ha2]. rewrite Ha2. by eapply forall2_grow.
Qed.
Lemma import_step_hoare batch_id base seen st entry now :
  hoare (importing batch_id base seen st) (import_step sha256 sqlite_fails random ring batch_id now st entry)
    (importing batch_id base (seen ++ [entry])).
Proof.
  intros s st' s' Hi Hrun. unfold import_step in Hrun. unfold bind at 1 in Hrun.
  destruct (import_one _ _ _ _ _ _ _ s) as [[o|e|] s1] eqn:Ho; [|done..].
  pose proof (import_one_hoare batch_id entry now (db_of s) (proj1 (ig_ok _ _ _ _ _ Hi)) s o s1 eq_refl Ho) as Hone.
  destruct (match o with Created _ => _ | Unchanged _ => _ end) as [[c u] i] eqn:Hc.
  set (q := (if bool_decide (im_auth_status entry = ReauthRequired) then sql_execute sqlite_fails StoreUnavailable (insert_reauth_stmt i)
    else ret 0) : M (Conn GrokDb) GrokAccountPoolError Z).
  assert (Hq : hoare (eq (db_of s1)) q (fun n db => exists m, if bool_decide (im_auth_status entry = ReauthRequired)
       then insert_reauth_stmt i (db_of s1) = Some (m, db) else db = db_of s1)).
  { subst q. case_bool_decide; [apply hoare_execute; intros db n db' <- Hx; by exists n|apply hoare_ret; intros db <-; by exists 0]. }
  unfold bind in Hrun. change (match q s1 with (Ok _, s2) => ret (mkImportState c u (is_ids st ++ [i])) s2
    | (Err e, s2) => (Err e, s2) | (Panic, s2) => (Panic, s2) end = (Ok st', s')) in Hrun.
  destruct (q s1) as [[n|e|] s2] eqn:Hq2; [|done..].
  destruct (Hq s1 n s2 eq_refl Hq2) as [m Hm]. injection Hrun as <- <-. by eapply import_step_grows.
Qed.

(** Inserting a link, or not. *)
Lemma insert_link_inv a b label now db n db' :
  insert_link_stmt a b label now db = Some (n, db') ->
  db' = db \/ (is_Some (db_accounts db !! a) /\ is_Some (db_accounts db !! b) /\ link_check (a, b, label) now = true
    /\ db_links db !! (a, b, label) = None /\ db' = set_links (<[(a, b, label) := now]> (db_links db)) db).
Proof.
  unfold insert_link_stmt. destruct (has (db_links db) _) eqn:Hl; [intros [= _ <-]; by left|].
  destruct (link_check _ _) eqn:Hc; [|intros [= _ <-]; by left]. simpl.
  destruct (has (db_accounts db) a) eqn:Ha; [|done]. destruct (has (db_accounts db) b) eqn:Hb; [|done]. intros [= _ <-].
  right. apply has_true in Ha, Hb. apply has_false in Hl. done.
Qed.

Lemma insert_link_ok a b label now db n db' : grok_ok db -> insert_link_stmt a b label now db = Some (n, db') -> grok_ok db'.
Proof.
  intros [Hok Hq] [->|(Ha & Hb & Hc & _ & ->)]%insert_link_inv; [done|]. split; [|done].
  destruct Hok. constructor; grok_simpl; try done.
  intros l t [[<- <-]|[_ Hl]]%lookup_insert_Some; [|by apply go_links0]. rewrite !has_true. done.
Qed.

(** What linking keeps: everything but the links, which only gain requested ones. *)
Record linking (ids : list string) (base : GrokDb) (seen : list GrokAccountImportRelation) (db : GrokDb) : Prop := {
  lg_ok : grok_ok db;
  lg_accounts : db_accounts db = db_accounts base;
  lg_batches : db_batches db = db_batches base;
  lg_quota : db_quota db = db_quota base;
  lg_reauth : db_reauth db = db_reauth base;
  lg_links : db_links base ⊆ db_links db;
  lg_new : forall l t, db_links db !! l = Some t -> db_links base !! l = None ->
    exists r, r ∈ seen /\ ids !! source_entry r = Some l.1.1 /\ ids !! target_entry r = Some l.1.2 /\ relation r = l.2;
}.

Lemma link_step_hoare ids base seen now r :
  hoare (linking ids base seen) (link_step sqlite_fails ids now tt r) (fun _ => linking ids base (seen ++ [r])).
Proof.
  unfold link_step, nth_id.
  destruct (ids !! source_entry r) as [a|] eqn:Ha; [|by intros s x s' _ [=]]. destruct (ids !! target_entry r) as [b|] eqn:Hb; [|by intros s x s' _ [=]].
  eapply hoare_bind; [apply hoare_ret with (Q := fun x db => x = a /\ linking ids base seen db); auto|]. intros x.
  eapply hoare_bind; [apply hoare_ret with (Q := fun y db => y = b /\ x = a /\ linking ids base seen db); auto|]. intros y.
  apply hoare_bind with (Q := fun _ => linking ids base (seen ++ [r])); [|intros n; by apply hoare_ret].
  apply hoare_execute. intros db n db' (-> & -> & [Hok Hac Hba Hqu Hre Hli Hnew]) Hi.
  pose proof (insert_link_ok _ _ _ _ _ _ _ Hok Hi) as Hok'.
  apply insert_link_inv in Hi as [->|(_ & _ & _ & Hfresh & ->)]; constructor; grok_simpl; try done.
  - intros l t Hl Hn. destruct (Hnew l t Hl Hn) as (q & Hq & Hrest). exists q. split; [set_solver|done].
  - etrans; [exact Hli|]. by apply insert_subseteq.
  - intros l t [[<- <-]|[_ Hl]]%lookup_insert_Some Hn; [exists r; split; [set_solver|done]|].
    destruct (Hnew l t Hl Hn) as (q & Hq & Hrest). exists q. split; [set_solver|done].
Qed.

(** ** What an import is *)

(** A committed import of a batch: the accounts that were there, unchanged, and one
    described account per entry; the new ones belong to the batch. *)
Record imported (batch_id : string) (entries : list GrokAccountImport) (relations : list GrokAccountImportRelation) (now : Z)
    (db db' : GrokDb) (out : GrokAccountImportOutcome) : Prop := {
  im_ok : grok_ok db';
  im_fresh : db_batches db !! batch_id = None;
  im_batches : db_batches db' = <[batch_id := mkBatch batch_id "applied" (created out) (unchanged out) now None]> (db_batches db);
  im_kept : db_accounts db ⊆ db_accounts db';
  im_new : forall i a, db_accounts db' !! i = Some a -> db_accounts db !! i = None ->
    (ac_batch_id a = batch_id /\ ac_claim_id a = None) /\ exists entry, entry ∈ entries /\ describes entry a;
  im_created : created out = Z.of_nat (size (db_accounts db')) - Z.of_nat (size (db_accounts db));
  im_total : created out + unchanged out = Z.of_nat (length entries);
  im_accounts : exists ids, Forall2 (fun entry i => exists a, db_accounts db' !! i = Some a /\ describes entry a) entries ids
    /\ forall l t, db_links db' !! l = Some t -> db_links db !! l = None ->
         exists r, r ∈ relations /\ ids !! source_entry r = Some l.1.1 /\ ids !! target_entry r = Some l.1.2 /\ relation r = l.2;
  im_links : db_links db ⊆ db_links db';
  im_quota : db_quota db' = db_quota db;
  im_reauth : db_reauth db ⊆ db_reauth db';
  im_reauth_new : forall i r, db_reauth db' !! i = Some r -> db_reauth db !! i = None ->
    db_accounts db !! i = None /\ r = new_reauth i
    /\ exists a, db_accounts db' !! i = Some a /\ ac_auth_status a = "reauth_required";
}.

Lemma hoare_fold_unit {B} (I : list B -> GrokDb -> Prop) (f : unit -> B -> M (Conn GrokDb) GrokAccountPoolError unit) l :
  (forall seen b, hoare (I seen) (f tt b) (fun _ => I (seen ++ [b]))) -> hoare (I []) (fold_m f l tt) (fun _ => I l).
Proof. intros Hf. apply (hoare_fold (fun seen _ => I seen)). intros seen b []. apply Hf. Qed.

Lemma update_batch_inv id f db n db' :
  update_batch_stmt id f db = Some (n, db') ->
  (db_batches db !! id = None /\ db' = db)
  \/ exists b, db_batches db !! id = Some b /\ batch_check (f b) = true /\ db' = set_batches (<[id := f b]> (db_batches db)) db.
Proof.
  unfold update_batch_stmt. destruct (db_batches db !! id) as [b|] eqn:Hb; [|intros [= _ <-]; by left].
  destruct (batch_check (f b)) eqn:Hc; [|done]. intros [= _ <-]. right. by exists b.
Qed.
(** The transaction of an import. *)
Definition import_body (batch_id : string) (entries : list GrokAccountImport) (relations : list GrokAccountImportRelation) (now : Z)
  : M (Conn GrokDb) GrokAccountPoolError GrokAccountImportOutcome :=
  let! batch_exists := sql_query sqlite_fails StoreUnavailable (fun db => has (db_batches db) batch_id) in
  if batch_exists then raise BatchAlreadyExists
  else
    sql_execute sqlite_fails StoreUnavailable (insert_batch_stmt (mkBatch batch_id "applied" 0 0 now None)) ;;;
    (let! st := fold_m (import_step sha256 sqlite_fails random ring batch_id now) entries (mkImportState 0 0 []) in
     fold_m (link_step sqlite_fails (is_ids st) now) relations tt ;;;
     (let! created := lift (ok_or InvalidRequest (i64_try_from (is_created st))) in
      let! unchanged := lift (ok_or InvalidRequest (i64_try_from (is_unchanged st))) in
      sql_execute sqlite_fails StoreUnavailable (update_batch_stmt batch_id (count_batch created unchanged)) ;;;
      ret (mkOutcome created unchanged))).

Lemma importing_start batch_id base : grok_ok base -> importing batch_id base [] (mkImportState 0 0 []) base.
Proof.
  intros Hok. constructor; simpl; try done; try lia; intros; congruence.
Qed.

Lemma i64_from {E} (e : E) z v : ok_or e (i64_try_from z) = Ok v -> v = z.
Proof. unfold i64_try_from. destruct (in_i64 z); by intros [= <-]. Qed.

Lemma import_body_imported batch_id entries relations now db :
  valid_component batch_id MAX_OPAQUE_ID_BYTES = true -> grok_ok db ->
  hoare (eq db) (import_body batch_id entries relations now) (fun out db' => imported batch_id entries relations now db db' out).
Proof.
  intros Hvalid Hok. unfold import_body.
  apply hoare_bind with (Q := fun b db' => db = db' /\ b = has (db_batches db) batch_id); [apply hoare_query; by intros ? <-|].
  intros [|]; [apply hoare_raise|].
  set (row := mkBatch batch_id "applied" 0 0 now None). set (base := set_batches (<[batch_id := row]> (db_batches db)) db).
  apply hoare_bind with (Q := fun _ db' => db' = base /\ grok_ok base /\ db_batches db !! batch_id = None).
  { apply hoare_execute. intros x n db' [<- Hno] (Hfresh & Hc & ->)%insert_batch_inv. split_and!; [done| |done].
    split; [apply set_batches_sound; [apply Hok|done..]|apply Hok]. }
  intros m. apply hoare_bind with (Q := fun st db' => importing batch_id base entries st db' /\ db_batches db !! batch_id = None).
  { intros s st s' (Hs & Hbase & Hfresh) Hrun. split; [|done].
    eapply (hoare_fold (importing batch_id base)); [intros seen b a; apply import_step_hoare| |exact Hrun].
    rewrite Hs. by apply importing_start. }
  intros st. intros s out s' [Hi Hfresh] Hrun. apply bind_ok in Hrun as ([] & s1 & Hlink & Hrun).
  assert (Hl : linking (is_ids st) (db_of s) relations (db_of s1)).
  { eapply (hoare_fold_unit (linking (is_ids st) (db_of s))); [intros seen r; apply link_step_hoare| |exact Hlink].
    constructor; try done; [apply Hi|intros; congruence]. }
  apply bind_ok in Hrun as (c & s2 & Hc & Hrun). injection Hc as Hc <-. apply i64_from in Hc as ->.
  apply bind_ok in Hrun as (u & s2 & Hu & Hrun). injection Hu as Hu <-. apply i64_from in Hu as ->.
  apply bind_ok in Hrun as (n & s2 & Hup & Hrun). injection Hrun as <- <-.
  pose proof (hoare_execute sqlite_fails StoreUnavailable (eq (db_of s1)) _ (fun n db' => update_batch_stmt batch_id
    (count_batch (is_created st) (is_unchanged st)) (db_of s1) = Some (n, db')) ltac:(by intros ? ? ? <-) s1 n s2 eq_refl Hup) as Hst.
  destruct Hi as [_ Hb Hli Hqu Hac Hnew Hre Hren Hcr Htot Hids]. destruct Hl as [Hlok Hla Hlb Hlq Hlr Hll Hln].
  assert (Hrow : db_batches (db_of s1) !! batch_id = Some row) by (rewrite Hlb, Hb; apply lookup_insert_eq).
  apply update_batch_inv in Hst as [[Hnone _]|(b & Hb1 & Hchk & ->)]; [congruence|].
  rewrite Hrow in Hb1. injection Hb1 as <-. constructor; grok_simpl; simpl; try congruence.
  - split; [|apply Hlok]. apply (set_batches_sound (count_batch (is_created st) (is_unchanged st) row)); [apply Hlok|done..].
  - rewrite Hlb, Hb. unfold base. grok_simpl. by rewrite insert_insert_eq.
  - by rewrite Hla.
  - rewrite Hla. exact Hnew.
  - by rewrite Hla.
  - exists (is_ids st). rewrite Hla. split; [done|]. intros l t Hl Hn. apply (Hln l t Hl).
    by rewrite Hli.
  - etrans; [|exact Hll]. by rewrite Hli.
  - by rewrite Hlq, Hqu.
  - by rewrite Hlr.
  - rewrite Hlr, Hla. done.
Qed.
Lemma import_exact batch_id entries relations now s r s' :
  grok_ok (db_of s) ->
  import_batch_with_relations sha256 sqlite_fails random ring batch_id entries relations now s = (r, s') ->
  match r with
  | Ok out => imported batch_id entries relations now (db_of s) (db_of s') out
  | _ => db_of s' = db_of s
  end.
Proof.
  intros Hok Hrun. unfold import_batch_with_relations in Hrun.
  destruct (valid_component batch_id MAX_OPAQUE_ID_BYTES) eqn:Hv; [|by injection Hrun as <- <-].
  destruct (negb true || _ || _ || _ || _); [by injection Hrun as <- <-|]. unfold bind at 1, lift at 1 in Hrun.
  destruct (try_fold _ _ _) as [x|e|]; [|by injection Hrun as <- <-..]. unfold bind at 1, lift at 1 in Hrun.
  destruct (try_fold _ _ _) as [y|e|]; [|by injection Hrun as <- <-..].
  exact (transaction_hoare sqlite_fails StoreUnavailable (eq (db_of s)) (import_body batch_id entries relations now) _ s r s'
    (import_body_imported batch_id entries relations now (db_of s) Hv Hok) eq_refl Hrun).
Qed.

(** ** Rollback *)

Lemma rollback_exact batch_id now s r s' :
  rollback_import_batch sqlite_fails batch_id now s = (r, s') ->
  match r with
  | Ok out =>
      if already_rolled_back out then db_of s' = db_of s /\ ba_status <$> db_batches (db_of s) !! batch_id = Some "rolled_back"
      else exists b db1, db_batches (db_of s) !! batch_id = Some b /\ ba_status b = "applied"
        /\ batch_check (roll_back_batch now b) = true /\ delete_batch_accounts_stmt batch_id (db_of s) = Some (removed out, db1)
        /\ db_of s' = set_batches (<[batch_id := roll_back_batch now b]> (db_batches (db_of s))) db1
  | _ => db_of s' = db_of s
  end.
Proof.
  intros Hrun. unfold rollback_import_batch in Hrun. destruct (_ || _); [by injection Hrun as <- <-|].
  apply (scope_hoare sqlite_fails StoreUnavailable (eq (db_of s)) _ (fun x db =>
    if x.2 then already_rolled_back x.1 = false /\ exists b db1, db_batches (db_of s) !! batch_id = Some b /\ ba_status b = "applied"
        /\ batch_check (roll_back_batch now b) = true /\ delete_batch_accounts_stmt batch_id (db_of s) = Some (removed x.1, db1)
        /\ db = set_batches (<[batch_id := roll_back_batch now b]> (db_batches (db_of s))) db1
    else already_rolled_back x.1 = true /\ ba_status <$> db_batches (db_of s) !! batch_id = Some "rolled_back")) in Hrun; [|clear Hrun|done].
  { destruct r as [out|e|]; [|done..]. destruct Hrun as [[Ha Hx]|(Hdb & db & Ha & Hx)]; simpl in *; rewrite Ha; auto. }
  apply hoare_bind with (Q := fun st db => db_of s = db /\ st = ba_status <$> db_batches (db_of s) !! batch_id);
    [apply hoare_query; by intros ? <-|].
  intros st. apply hoare_bind with (Q := fun x db => db_of s = db /\ ba_status <$> db_batches (db_of s) !! batch_id = Some x).
  { apply hoare_lift. intros x db Hx [<- ->]. split; [done|]. destruct (_ <$> _); [by injection Hx as ->|done]. }
  intros x. case_bool_decide as Hrb; [apply hoare_ret; intros db [_ Hst]; simpl; by subst|].
  case_bool_decide as Hap; [|apply hoare_raise]. subst x. simpl.
  apply hoare_bind with (Q := fun n db1 => ba_status <$> db_batches (db_of s) !! batch_id = Some "applied"
    /\ delete_batch_accounts_stmt batch_id (db_of s) = Some (n, db1)).
  { apply hoare_execute. by intros db n db1 [<- Hst] Hd. }
  intros n. apply hoare_bind with (Q := fun _ db => exists b db1, db_batches (db_of s) !! batch_id = Some b /\ ba_status b = "applied"
        /\ batch_check (roll_back_batch now b) = true /\ delete_batch_accounts_stmt batch_id (db_of s) = Some (n, db1)
        /\ db = set_batches (<[batch_id := roll_back_batch now b]> (db_batches (db_of s))) db1).
  { apply hoare_execute. intros db1 m db2 [(b & Hb & Hst)%fmap_Some Hd] Hu. exists b, db1.
    assert (Hsame : db_batches db1 = db_batches (db_of s)) by (by injection Hd as _ <-).
    apply update_batch_inv in Hu as [[Hnone _]|(b' & Hb' & Hc & ->)]; rewrite Hsame in *; [congruence|].
    rewrite Hb in Hb'. injection Hb' as <-. done. }
  intros m. by apply hoare_ret.
Qed.
(** The accounts of a batch and the accounts it found. *)
Lemma rollback_keeps batch_id entries relations now db db' out :
  grok_ok db -> imported batch_id entries relations now db db' out ->
  filter (fun a => ac_batch_id a.2 <> batch_id) (db_accounts db') = db_accounts db.
Proof.
  intros [Hok _] Hi. apply map_eq. intros i. apply option_eq. intros a. rewrite map_lookup_filter_Some. split.
  - intros [Ha Hb]. destruct (db_accounts db !! i) as [x|] eqn:Hx.
    + eapply lookup_weaken in Hx; [|exact (im_kept _ _ _ _ _ _ _ Hi)]. congruence.
    + exfalso. apply Hb. by destruct (im_new _ _ _ _ _ _ _ Hi i a Ha Hx) as [[? _] _].
  - intros Ha. split; [eapply lookup_weaken; [exact Ha|apply Hi]|]. simpl. intros Heq.
    destruct (go_batch_of _ Hok i a (ac_batch_id a) Ha eq_refl) as [b Hb]. pose proof (im_fresh _ _ _ _ _ _ _ Hi). congruence.
Qed.

Lemma has_of_refers {K A K' B} `{Countable K} `{Countable K'} (ref : A -> K') (m : gmap K A) (p : gmap K' B) k r :
  refers (fun a => Some (ref a)) m p -> m !! k = Some r -> has p (ref r) = true.
Proof. intros Hm Hr. apply has_true. by eapply Hm. Qed.

(** What a rollback leaves of an import: its audit row, and links between accounts
    that were there before. *)
Record undone (batch_id : string) (relations : list GrokAccountImportRelation) (imported_at rolled_back_at : Z)
    (out : GrokAccountImportOutcome) (db db' : GrokDb) : Prop := {
  un_accounts : db_accounts db' = db_accounts db;
  un_quota : db_quota db' = db_quota db;
  un_reauth : db_reauth db' = db_reauth db;
  un_batches : db_batches db' =
    <[batch_id := mkBatch batch_id "rolled_back" (created out) (unchanged out) imported_at (Some rolled_back_at)]> (db_batches db);
  un_links : db_links db ⊆ db_links db';
  un_new_links : forall l t, db_links db' !! l = Some t -> db_links db !! l = None ->
    has (db_accounts db) l.1.1 = true /\ has (db_accounts db) l.1.2 = true /\ exists r, r ∈ relations /\ relation r = l.2;
}.

Lemma imported_undone batch_id entries relations now now' db db' out n db1 :
  grok_ok db -> imported batch_id entries relations now db db' out -> delete_batch_accounts_stmt batch_id db' = Some (n, db1) ->
  n = created out
  /\ undone batch_id relations now now' out db
       (set_batches (<[batch_id := mkBatch batch_id "rolled_back" (created out) (unchanged out) now (Some now')]> (db_batches db')) db1).
Proof.
  intros Hok Hi Hd. pose proof (rollback_keeps _ _ _ _ _ _ _ Hok Hi) as Hkept. unfold delete_batch_accounts_stmt in Hd.
  rewrite Hkept in Hd. injection Hd as <- <-. split; [by rewrite (im_created _ _ _ _ _ _ _ Hi)|].
  destruct Hi as [Him Hfresh Hb Hac Hnew Hcr _ (ids & _ & Hl) Hli Hqu Hre Hren]. destruct Hok as [Hok _].
  constructor; unfold cascade_accounts; grok_simpl.
  - done.
  - rewrite Hqu. apply map_filter_id. intros k q Hq. by eapply (has_of_refers qw_account_id), Hq; apply Hok.
  - apply map_eq. intros i. apply option_eq. intros r. rewrite map_lookup_filter_Some. split.
    + intros [Hr Ha]. simpl in Ha. destruct (db_reauth db !! i) as [x|] eqn:Hx.
      { eapply lookup_weaken in Hx; [|exact Hre]. congruence. }
      assert (Hnone : db_accounts db !! i = None) by (by destruct (Hren i r Hr Hx)).
      assert (Hid : ra_account_id r = i) by (by destruct (go_reauth _ (proj1 Him) i r Hr)).
      rewrite Hid in Ha. apply has_true in Ha as [y Hy]. congruence.
    + intros Hr. split; [by eapply lookup_weaken|]. by eapply (has_of_refers ra_account_id), Hr; apply Hok.
  - rewrite Hb. by rewrite insert_insert_eq.
  - apply map_subseteq_spec. intros l t Hlt. apply map_lookup_filter_Some. split; [by eapply lookup_weaken|].
    by destruct (go_links _ Hok l t Hlt) as (? & ? & _).
  - intros l t Hlt Hn. apply map_lookup_filter_Some in Hlt as [Hlt [Ha1 Ha2]].
    destruct (Hl l t Hlt Hn) as (r & Hr & _ & _ & Hrel). split_and!; [done..|]. by exists r.
Qed.
Lemma rollback_complete batch_id entries relations now now' db db' out s :
  (forall n, sqlite_fails n = false) -> valid_component batch_id MAX_OPAQUE_ID_BYTES = true -> 0 <= now <= now' ->
  imported batch_id entries relations now db db' out -> db_of s = db' ->
  exists o s', rollback_import_batch sqlite_fails batch_id now' s = (Ok o, s') /\ already_rolled_back o = false.
Proof.
  intros Hh Hv Hnow Hi Hs. pose proof (im_batches _ _ _ _ _ _ _ Hi) as Hb. pose proof (im_ok _ _ _ _ _ _ _ Hi) as [Hok _].
  set (row := mkBatch batch_id "applied" (created out) (unchanged out) now None) in *.
  assert (Hrow : db_batches (db_of s) !! batch_id = Some row) by (rewrite Hs, Hb; apply lookup_insert_eq).
  assert (Hc : batch_check (roll_back_batch now' row) = true).
  { rewrite Hs in Hrow. destruct (go_batches _ Hok _ _ Hrow) as [_ Hc]. apply andb_true_iff in Hc as [Hc _].
    unfold batch_check in *. cbn [roll_back_batch ba_id ba_status ba_created_count ba_unchanged_count ba_created_at_ms ba_rolled_back_at_ms row] in *.
    rewrite !andb_true_iff in *. destruct Hc as (((((Hc1 & _) & Hc3) & Hc4) & Hc5) & _).
    split_and!; [exact Hc1|vm_compute; reflexivity|exact Hc3|exact Hc4|exact Hc5|rewrite Z.leb_le; lia]. }
  destruct (delete_batch_accounts_stmt batch_id (db_of s)) as [[n db1]|] eqn:Hd; [|done].
  assert (Hsame : db_batches db1 !! batch_id = Some row) by (by injection Hd as _ <-).
  unfold rollback_import_batch. rewrite Hv, (proj2 (Z.ltb_ge now' 0)) by lia. cbn [negb orb].
  destruct (succeeds_scope sqlite_fails StoreUnavailable Hh (
    let! status := sql_query sqlite_fails StoreUnavailable (fun db => ba_status <$> db_batches db !! batch_id) in
    let! status := lift (ok_or AccountNotFound status) in
    if bool_decide (status = "rolled_back") then ret (mkRollback 0 true, false)
    else if negb (bool_decide (status = "applied")) then raise InvalidPersistedState
    else
      let! removed := sql_execute sqlite_fails StoreUnavailable (delete_batch_accounts_stmt batch_id) in
      sql_execute sqlite_fails StoreUnavailable (update_batch_stmt batch_id (roll_back_batch now')) ;;;
      ret (mkRollback removed false, true)) (db_of s) (mkRollback n false)
    (set_batches (<[batch_id := roll_back_batch now' row]> (db_batches db1)) db1)) with (s := s) as (s' & Hrun & _);
    [|done|by exists (mkRollback n false), s'].
  eapply succeeds_bind; [by apply succeeds_query|]. eapply succeeds_bind; [apply succeeds_lift; by rewrite Hrow|].
  rewrite bool_decide_eq_false_2, bool_decide_eq_true_2 by done. cbn [negb].
  eapply succeeds_bind; [by apply succeeds_execute|]. eapply succeeds_bind with (a := 1); [apply succeeds_execute; [done|]|apply succeeds_ret].
  unfold update_batch_stmt. by rewrite Hsame, Hc.
Qed.
(** C21: An import is exact and atomic. A committed batch kept every account that was
    there, and for every entry an account with exactly its provider, identity digest,
    status and scheduling metadata whose stored credential opens to the imported one;
    the new accounts belong to the batch, the outcome counts them, its links are
    requested relations between its entries, and every account that needs
    reauthentication is queued. Any error leaves the database as it was. *)
Theorem grok_import_is_exact batch_id entries relations now s r s' :
  grok_ok (db_of s) ->
  import_batch_with_relations sha256 sqlite_fails random ring batch_id entries relations now s = (r, s') ->
  match r with
  | Ok out => imported batch_id entries relations now (db_of s) (db_of s') out
  | _ => db_of s' = db_of s
  end.
Proof. apply import_exact. Qed.

(** Rolling a batch back undoes its import. The rollback after a committed import
    removes exactly the accounts the import created and restores accounts, quota
    windows and the reauthentication queue; the batch row remains as the audit of
    both; the only other trace are requested links between accounts that were there
    before. When SQLite works and time did not run backwards, it succeeds. *)
Lemma grok_rollback_undoes_import batch_id entries relations now now' s out s1 s2 r s3 :
  grok_ok (db_of s) ->
  import_batch_with_relations sha256 sqlite_fails random ring batch_id entries relations now s = (Ok out, s1) ->
  db_of s2 = db_of s1 -> rollback_import_batch sqlite_fails batch_id now' s2 = (r, s3) ->
  match r with
  | Ok o => o = mkRollback (created out) false /\ undone batch_id relations now now' out (db_of s) (db_of s3)
  | _ => db_of s3 = db_of s2
  end
  /\ ((forall n, sqlite_fails n = false) -> now <= now' -> exists o, r = Ok o).
Proof.
  intros Hok Himp Hs2 Hroll. pose proof (import_exact _ _ _ _ _ _ _ Hok Himp) as Hi. simpl in Hi. split.
  - apply rollback_exact in Hroll. destruct r as [o|e|]; [|done..]. rewrite Hs2 in Hroll.
    pose proof (im_batches _ _ _ _ _ _ _ Hi) as Hb. destruct (already_rolled_back o) eqn:Ha.
    { destruct Hroll as [_ Hst]. rewrite Hb, lookup_insert_eq in Hst. discriminate Hst. }
    destruct Hroll as (b & db1 & Hrow & _ & _ & Hd & Hdb). rewrite Hb, lookup_insert_eq in Hrow. injection Hrow as <-.
    destruct (imported_undone _ _ _ _ now' _ _ _ _ _ Hok Hi Hd) as [Hn Hu]. rewrite Hdb.
    split; [|exact Hu]. destruct o as [n a]. simpl in *. congruence.
  - intros Hh Hnow. unfold import_batch_with_relations in Himp.
    destruct (valid_component batch_id MAX_OPAQUE_ID_BYTES) eqn:Hv; [|discriminate Himp]. cbn [negb orb] in Himp.
    destruct (Z.ltb_spec now 0) as [Hneg|Hpos]; [rewrite orb_true_r in Himp; discriminate Himp|].
    destruct (rollback_complete batch_id entries relations now now' _ _ _ s2 Hh Hv (conj Hpos Hnow) Hi Hs2) as (o & s' & Hrun & _).
    exists o. congruence.
Qed.
End Import.
(** ** Witnesses *)

Section Witnesses.
#[local] Existing Instance ex_aead.
#[local] Existing Instance ex_aead_laws.

(** Stand-ins: a digest of the right length that depends on the identity, and draws
    that repeat the number of the draw. *)
Definition ex_sha256 (bytes : list Byte.byte) : list Byte.byte := take 32 (rev bytes ++ replicate 32 Byte.x00).
Definition ex_random (n k : nat) : option (list Byte.byte) :=
  match Byte.of_nat k with Some b => Some (replicate n b) | None => None end.

Lemma ex_random_length n k bytes : ex_random n k = Some bytes -> length bytes = n.
Proof. unfold ex_random. destruct (Byte.of_nat k); [|done]. intros [= <-]. apply length_replicate. Qed.

Definition ex_entry (identity : Byte.byte) (status : GrokAccountAuthStatus) : GrokAccountImport :=
  mkImport Build (mkIdentity [identity]) (mkGrokCredential [Byte.x68; identity]) status true 10 1 2 (Some 500) None None.
Definition ex_batch (batch_id : string) (entries : list GrokAccountImport) (relations : list GrokAccountImportRelation) :=
  import_batch_with_relations ex_sha256 (fun _ => false) ex_random ex_old batch_id entries relations 100.

(** A first batch of one account, then one that finds it, adds another and links them. *)
Definition ex_accounts : Conn GrokDb := (ex_batch "first" [ex_entry Byte.x01 AuthActive] [] (mkConn empty_grok_db 0 0)).2.
Definition ex_second : list GrokAccountImport := [ex_entry Byte.x01 AuthActive; ex_entry Byte.x02 ReauthRequired].
Definition ex_relations : list GrokAccountImportRelation := [mkRelation 0 1 "same-owner"].

Lemma ex_key_version : 1 <= active_key_version ex_old < 2 ^ 32.
Proof. vm_compute. split; congruence. Qed.

Lemma ex_accounts_ok : grok_ok (db_of ex_accounts).
Proof.
  pose proof (import_exact ex_sha256 (fun _ => false) ex_random ex_old ex_random_length ex_key_version "first"
    [ex_entry Byte.x01 AuthActive] [] 100 (mkConn empty_grok_db 0 0) _ _ empty_grok_ok (surjective_pairing _)) as H.
  destruct (import_batch_with_relations _ _ _ _ _ _ _ _ _).1 as [out|e|] eqn:E;
    [exact (im_ok _ _ _ _ _ _ _ _ _ H)|vm_compute in E; discriminate E..].
Qed.

Lemma grok_import_is_exact_witness :
  match ex_batch "second" ex_second ex_relations ex_accounts with
  | (Ok out, s') => out = mkOutcome 1 1
      /\ imported ex_sha256 ex_old "second" ex_second ex_relations 100 (db_of ex_accounts) (db_of s') out
  | _ => False
  end.
Proof.
  destruct (ex_batch "second" ex_second ex_relations ex_accounts) as [r s'] eqn:E.
  pose proof (grok_import_is_exact ex_sha256 (fun _ => false) ex_random ex_old ex_random_length ex_key_version "second" ex_second
    ex_relations 100 ex_accounts r s' ex_accounts_ok E) as H.
  apply (f_equal fst) in E. vm_compute in E. simpl in E. subst r. split; [reflexivity|exact H].
Defined.

Lemma grok_rollback_undoes_import_witness :
  exists out s1 o s3, ex_batch "second" ex_second ex_relations ex_accounts = (Ok out, s1)
    /\ rollback_import_batch (fun _ => false) "second" 200 s1 = (Ok o, s3)
    /\ o = mkRollback 1 false /\ db_accounts (db_of s3) = db_accounts (db_of ex_accounts).
Proof.
  destruct (ex_batch "second" ex_second ex_relations ex_accounts) as [r s1] eqn:E.
  destruct r as [out|e|]; [|apply (f_equal fst) in E; vm_compute in E; discriminate E..].
  destruct (rollback_import_batch (fun _ => false) "second" 200 s1) as [o s3] eqn:R.
  destruct (grok_rollback_undoes_import ex_sha256 (fun _ => false) ex_random ex_old ex_random_length ex_key_version "second" ex_second
    ex_relations 100 200 ex_accounts out s1 s1 o s3 ex_accounts_ok E eq_refl R) as [H Hc].
  destruct (Hc (fun _ => eq_refl) ltac:(lia)) as [x ->]. destruct H as [Ho Hu].
  exists out, s1, x, s3. split; [reflexivity|]. split; [exact R|]. split; [|exact (un_accounts _ _ _ _ _ _ _ Hu)].
  rewrite Ho. apply (f_equal fst) in E. vm_compute in E. injection E as <-. reflexivity.
Defined.
End Witnesses.
End Grok.
