(* ===== verification/GrokWorker.v ===== *)
(** * Native Grok accounts: durable work

    Models [crates/provider-grok/src/account_worker.rs] on the store of
    [GrokAccounts]: claims with leases on due accounts, the completion of refresh and
    quota jobs, failures with deterministic backoff, and the coordinator. An executor is
    an oracle from a job to its result; a thread that panics has none. [GrokReauth] holds
    the queue of accounts that need reauthentication. *)

From S2P Require Import Prelude Text Octets Core ClientKey SecretStore ControlPlane StoreRows StoreSchema SqliteTx GrokAccounts.
Local Open Scope string_scope.
Local Open Scope list_scope.
Local Open Scope Z_scope.

Module Worker.
Import Secrets Grok.

(** ** Data *)

Definition MIN_REFRESH_JITTER_MS : Z := 5 * 60 * 1000.
Definition REFRESH_JITTER_RANGE_MS : Z := 3 * 60 * 1000 + 1.
Definition BASE_FAILURE_BACKOFF_MS : Z := 60 * 1000.
Definition MAX_FAILURE_BACKOFF_MS : Z := 60 * 60 * 1000.
Definition FAILURE_JITTER_RANGE_MS : Z := 30 * 1000 + 1.
Definition MAX_WORKER_BATCH : nat := 256.
Definition MAX_WORKER_CONCURRENCY : nat := 64.
Definition MIN_CLAIM_LEASE_MS : Z := 1000.
Definition MAX_CLAIM_LEASE_MS : Z := 10 * 60 * 1000.
Definition MAX_QUOTA_WINDOWS_PER_ACCOUNT_SYNC : nat := 64.
Definition MAX_QUOTA_WINDOWS_PER_TARGET : nat := 8.

Inductive GrokAccountWorkerKind : Type := Refresh | Quota.
#[export] Instance GrokAccountWorkerKind_eq_dec : EqDecision GrokAccountWorkerKind.
Proof. solve_decision. Defined.

Definition kind_as_str (k : GrokAccountWorkerKind) : string := match k with Refresh => "refresh" | Quota => "quota" end.

(** The columns [due_column] and [failure_column] name. *)
Definition due_column (k : GrokAccountWorkerKind) (a : AccountRow) : option Z :=
  match k with Refresh => ac_refresh_due a | Quota => ac_quota_due a end.
Definition failure_column (k : GrokAccountWorkerKind) (a : AccountRow) : Z :=
  match k with Refresh => ac_refresh_failures a | Quota => ac_quota_failures a end.

Inductive GrokAccountQuotaScope : Type := ScopeAccount | ScopeModel (model : string).
#[export] Instance GrokAccountQuotaScope_eq_dec : EqDecision GrokAccountQuotaScope.
Proof. solve_decision. Defined.

Inductive GrokAccountQuotaSource : Type := SourceBilling | SourceRest | SourceGrpc | SourceEstimated.
#[export] Instance GrokAccountQuotaSource_eq_dec : EqDecision GrokAccountQuotaSource.
Proof. solve_decision. Defined.

Definition source_as_str (s : GrokAccountQuotaSource) : string :=
  match s with SourceBilling => "billing" | SourceRest => "rest" | SourceGrpc => "grpc" | SourceEstimated => "estimated" end.

Inductive GrokAccountQuotaConfidence : Type := ConfAuthoritative | ConfObserved | ConfEstimated.
#[export] Instance GrokAccountQuotaConfidence_eq_dec : EqDecision GrokAccountQuotaConfidence.
Proof. solve_decision. Defined.

Definition confidence_as_str (c : GrokAccountQuotaConfidence) : string :=
  match c with ConfAuthoritative => "authoritative" | ConfObserved => "observed" | ConfEstimated => "estimated" end.

Inductive GrokAccountWorkerError : Type :=
| WorkerInvalidRequest
| WorkerStoreUnavailable
| WorkerInvalidPersistedState
| WorkerSecretStoreFailure
| WorkerStaleClaim
| ResultKindMismatch.

(** [From<GrokAccountPoolError>]. *)
Definition worker_error (e : GrokAccountPoolError) : GrokAccountWorkerError :=
  match e with
  | SecretStoreFailure => WorkerSecretStoreFailure
  | InvalidPersistedState => WorkerInvalidPersistedState
  | StoreUnavailable => WorkerStoreUnavailable
  | _ => WorkerInvalidRequest
  end.

Record GrokAccountQuotaWindow : Type := mkWindow {
  wi_scope : GrokAccountQuotaScope;
  wi_label : string;
  wi_limit : option Z;
  wi_remaining : option Z;
  wi_reset_at_ms : option Z;
  wi_source : GrokAccountQuotaSource;
  wi_confidence : GrokAccountQuotaConfidence;
}.

(** [value.is_some_and(|value| value > bound)]. *)
Definition exceeds (value : option Z) (bound : Z) : bool := match value with Some v => bound <? v | None => false end.

Definition window_try_new (scope : GrokAccountQuotaScope) (label : string) (limit remaining reset_at_ms : option Z)
    (source : GrokAccountQuotaSource) (confidence : GrokAccountQuotaConfidence)
  : result GrokAccountWorkerError GrokAccountQuotaWindow :=
  let scope_valid := match scope with
                     | ScopeAccount => true
                     | ScopeModel model => negb (is_blank model) && (String.length model <=? 256)%nat
                     end in
  if negb scope_valid || is_blank label || (64 <? String.length label)%nat || exceeds limit i64_max
     || exceeds remaining i64_max
     || match limit, remaining with Some limit, Some remaining => limit <? remaining | _, _ => false end
     || negative reset_at_ms
  then Err WorkerInvalidRequest
  else Ok (mkWindow scope label limit remaining reset_at_ms source confidence).

Record GrokAccountWorkerJob : Type := mkJob {
  jb_account_id : string;
  jb_provider : GrokAccountProvider;
  jb_kind : GrokAccountWorkerKind;
  jb_claim_id : string;
  jb_expected_revision : Z;
  jb_identity_digest : list Byte.byte;
  jb_credential : list Byte.byte;
}.

Inductive GrokAccountWorkerResult : Type :=
| Refreshed (credential : GrokAccountCredential) (expires_at_ms : Z)
| QuotaSynchronized (windows : list GrokAccountQuotaWindow) (next_due_at_ms : Z)
| WorkerTransientFailure
| WorkerReauthRequired.

Record GrokAccountWorkerRunSummary : Type := mkRunSummary {
  rs_claimed : Z;
  rs_succeeded : Z;
  rs_backed_off : Z;
  rs_reauth_required : Z;
  rs_panicked : Z;
}.

Record GrokAccountWorkerCoordinator : Type := mkCoordinator {
  co_maximum_concurrency : nat;
  co_claim_lease_ms : Z;
}.

Definition coordinator_try_new (maximum_concurrency : nat) (claim_lease_ms : Z)
  : result GrokAccountWorkerError GrokAccountWorkerCoordinator :=
  if (maximum_concurrency =? 0)%nat || (MAX_WORKER_CONCURRENCY <? maximum_concurrency)%nat
     || negb (within MIN_CLAIM_LEASE_MS MAX_CLAIM_LEASE_MS claim_lease_ms)
  then Err WorkerInvalidRequest else Ok (mkCoordinator maximum_concurrency claim_lease_ms).

(** ** Deterministic instants *)

Section Instants.
Context (sha256 : list Byte.byte -> list Byte.byte).

Definition deterministic_u64 (material : list Byte.byte) : Z := be_value (take 8 (sha256 material)).

Definition deterministic_refresh_due_at (account_id : string) (expires_at_ms : Z) : result GrokAccountWorkerError Z :=
  if bool_decide (account_id = "") || (expires_at_ms <? 0) then Err WorkerInvalidRequest
  else
    let? jitter := ok_or WorkerInvalidRequest
                     (i64_try_from (deterministic_u64 (text_bytes account_id) mod REFRESH_JITTER_RANGE_MS)) in
    Ok (Z.max (Z.max (expires_at_ms - (MIN_REFRESH_JITTER_MS + jitter)) i64_min) 0).

(** [failure_count.to_be_bytes()] of a [u64]. *)
Definition failure_material (account_id : string) (failure_count : Z) : list Byte.byte :=
  text_bytes account_id ++ be_bytes 8 failure_count.

Definition failure_backoff (failure_count : Z) : Z :=
  let shift := Z.min (Z.max (failure_count - 1) 0) 16 in
  Z.min (default MAX_FAILURE_BACKOFF_MS (i64_try_from (BASE_FAILURE_BACKOFF_MS * Z.shiftl 1 shift))) MAX_FAILURE_BACKOFF_MS.

(** Shared by [deterministic_backoff_due_at] and [backoff_due_at]. *)
Definition backoff_instant (account_id : string) (failure_count observed_at_ms : Z) : option Z :=
  match i64_checked_add observed_at_ms (failure_backoff failure_count) with
  | Some value => i64_checked_add value (deterministic_u64 (failure_material account_id failure_count) mod FAILURE_JITTER_RANGE_MS)
  | None => None
  end.

Definition deterministic_backoff_due_at (account_id : string) (failure_count observed_at_ms : Z)
  : result GrokAccountWorkerError Z :=
  ok_or WorkerInvalidRequest (backoff_instant account_id failure_count observed_at_ms).
End Instants.
(** ** Statements *)

(** [worker_claim_id IS NULL OR worker_claim_expires_at_ms <= now]. *)
Definition claim_free (now : Z) (a : AccountRow) : bool :=
  match ac_claim_id a with
  | None => true
  | Some _ => match ac_claim_expires a with Some e => e <=? now | None => false end
  end.

(** The row still carries the claim of the job, at the revision it was handed. *)
Definition claim_owned (job : GrokAccountWorkerJob) (now : Z) (a : AccountRow) : bool :=
  (ac_revision a =? jb_expected_revision job) && bool_decide (ac_claim_kind a = Some (kind_as_str (jb_kind job)))
  && bool_decide (ac_claim_id a = Some (jb_claim_id job))
  && match ac_claim_expires a with Some e => now <? e | None => false end.

Definition set_claim (kind : GrokAccountWorkerKind) (claim_id : string) (expires now : Z) (a : AccountRow) : AccountRow :=
  mkAccount (ac_id a) (ac_provider a) (ac_identity_digest a) (ac_ciphertext a) (ac_key_version a) (ac_auth_status a)
    (ac_enabled a) (ac_priority a) (ac_weight a) (ac_max_concurrency a) (ac_refresh_due a) (ac_last_refresh a)
    (ac_refresh_failures a) (ac_cooldown_until a) (ac_revision a) (ac_batch_id a) (ac_created_at a) now (ac_quota_due a)
    (ac_last_quota a) (ac_quota_failures a) (Some (kind_as_str kind)) (Some claim_id) (Some expires).

Definition finish_refresh (secret : EncryptedSecret) (next_revision refresh_due now : Z) (a : AccountRow) : AccountRow :=
  mkAccount (ac_id a) (ac_provider a) (ac_identity_digest a) (es_ciphertext secret) (es_key_version secret) "active"
    (ac_enabled a) (ac_priority a) (ac_weight a) (ac_max_concurrency a) (Some refresh_due) (Some now)
    0 (ac_cooldown_until a) next_revision (ac_batch_id a) (ac_created_at a) now (ac_quota_due a)
    (ac_last_quota a) (ac_quota_failures a) None None None.

Definition finish_quota (next_due now : Z) (a : AccountRow) : AccountRow :=
  mkAccount (ac_id a) (ac_provider a) (ac_identity_digest a) (ac_ciphertext a) (ac_key_version a) (ac_auth_status a)
    (ac_enabled a) (ac_priority a) (ac_weight a) (ac_max_concurrency a) (ac_refresh_due a) (ac_last_refresh a)
    (ac_refresh_failures a) (ac_cooldown_until a) (ac_revision a) (ac_batch_id a) (ac_created_at a) now (Some next_due)
    (Some now) 0 None None None.

Definition finish_failure (kind : GrokAccountWorkerKind) (next_due : option Z) (failures : Z) (reauth_required : bool) (now : Z)
    (a : AccountRow) : AccountRow :=
  mkAccount (ac_id a) (ac_provider a) (ac_identity_digest a) (ac_ciphertext a) (ac_key_version a)
    (if reauth_required then "reauth_required" else ac_auth_status a)
    (ac_enabled a) (ac_priority a) (ac_weight a) (ac_max_concurrency a)
    (match kind with Refresh => next_due | Quota => ac_refresh_due a end) (ac_last_refresh a)
    (match kind with Refresh => failures | Quota => ac_refresh_failures a end) (ac_cooldown_until a) (ac_revision a)
    (ac_batch_id a) (ac_created_at a) now (match kind with Refresh => ac_quota_due a | Quota => next_due end)
    (ac_last_quota a) (match kind with Refresh => ac_quota_failures a | Quota => failures end) None None None.

Definition delete_quota_stmt (account_id : string) (db : GrokDb) : option (Z * GrokDb) :=
  let kept := filter (fun q => qw_account_id q.2 <> account_id) (db_quota db) in
  Some (Z.of_nat (size (db_quota db)) - Z.of_nat (size kept), set_quota kept db).

Definition quota_key (q : QuotaWindowRow) : string * string * string * string :=
  (qw_account_id q, qw_scope_kind q, qw_model_label q, qw_window_label q).

Definition quota_check (q : QuotaWindowRow) : bool :=
  is_in ["account"; "model"] (qw_scope_kind q) && (String.length (qw_model_label q) <=? 256)%nat
  && ((bool_decide (qw_scope_kind q = "account") && bool_decide (qw_model_label q = ""))
      || (bool_decide (qw_scope_kind q = "model") && text_fits 256 (qw_model_label q)))
  && opaque_fits 64 (qw_window_label q) && negb (negative (qw_limit q)) && negb (negative (qw_remaining q))
  && negb (negative (qw_reset_at q)) && is_in ["billing"; "rest"; "grpc"; "estimated"] (qw_source q)
  && is_in ["authoritative"; "observed"; "estimated"] (qw_confidence q) && (0 <=? qw_observed_at q)
  && match qw_limit q, qw_remaining q with Some limit, Some remaining => remaining <=? limit | _, _ => true end.

Definition insert_quota_stmt (q : QuotaWindowRow) (db : GrokDb) : option (Z * GrokDb) :=
  if has (db_quota db) (quota_key q) || negb (has (db_accounts db) (qw_account_id q)) || negb (quota_check q) then None
  else Some (1, set_quota (<[quota_key q := q]> (db_quota db)) db).

(** ** Claims and completions *)

(** [ORDER BY due, id LIMIT n] of the accounts a worker may claim. *)
Definition due_leb (kind : GrokAccountWorkerKind) (a b : AccountRow) : bool :=
  let da := default 0 (due_column kind a) in let db := default 0 (due_column kind b) in
  if da =? db then String.leb (ac_id a) (ac_id b) else da <? db.

Definition is_due (kind : GrokAccountWorkerKind) (now : Z) (a : AccountRow) : bool :=
  (ac_enabled a =? 1) && bool_decide (ac_auth_status a = "active")
  && match due_column kind a with Some due => due <=? now | None => false end && claim_free now a.

Definition due_rows (kind : GrokAccountWorkerKind) (now : Z) (limit : nat) (db : GrokDb) : list AccountRow :=
  take limit (sort_by (due_leb kind) (List.filter (is_due kind now) (rows_of db))).

Section Operations.
Context `{!Aead} (sha256 : list Byte.byte -> list Byte.byte) (sqlite_fails : nat -> bool)
  (random : nat -> nat -> option (list Byte.byte)) (ring : MasterKeyRing).

Abbreviation WorkerM A := (M (Conn GrokDb) GrokAccountWorkerError A).
Abbreviation query := (sql_query sqlite_fails WorkerStoreUnavailable).
Abbreviation execute := (sql_execute sqlite_fails WorkerStoreUnavailable).
Abbreviation transaction := (sql_transaction sqlite_fails WorkerStoreUnavailable).

Definition random_claim_id : WorkerM string :=
  let! bytes := draw random 16 in
  let! bytes := lift (ok_or WorkerStoreUnavailable bytes) in
  ret ("grok-worker-" +:+ encode_lower_hex bytes).

(** The job of a row that was claimed. *)
Definition job_of (kind : GrokAccountWorkerKind) (claim_id : string) (a : AccountRow)
  : result GrokAccountWorkerError GrokAccountWorkerJob :=
  let? provider := map_err (fun _ => WorkerInvalidPersistedState) (provider_parse (ac_provider a)) in
  let? identity_digest := map_err (fun _ => WorkerInvalidPersistedState) (digest_of (ac_identity_digest a)) in
  let? key_version := map_err (fun _ => WorkerInvalidPersistedState) (try_from_sqlite_i64 (ac_key_version a)) in
  let? encrypted := map_err (fun _ => WorkerInvalidPersistedState) (try_from_persisted key_version (ac_ciphertext a)) in
  let? credential := map_err (fun _ => WorkerSecretStoreFailure) (open ring encrypted (credential_aad provider identity_digest)) in
  let? expected_revision := ok_or WorkerInvalidPersistedState (u64_try_from (ac_revision a)) in
  Ok (mkJob (ac_id a) provider kind claim_id expected_revision identity_digest credential).

Definition claim_step (kind : GrokAccountWorkerKind) (now expires : Z) (jobs : list GrokAccountWorkerJob) (a : AccountRow)
  : WorkerM (list GrokAccountWorkerJob) :=
  let! claim_id := random_claim_id in
  let! changed := execute (update_account_stmt (ac_id a) (claim_free now) (set_claim kind claim_id expires now)) in
  if negb (changed =? 1) then raise WorkerStaleClaim
  else
    let! job := lift (job_of kind claim_id a) in
    ret (jobs ++ [job]).

Definition claim_due_worker_jobs (kind : GrokAccountWorkerKind) (observed_at_ms : Z) (limit : nat) (claim_lease_ms : Z)
  : WorkerM (list GrokAccountWorkerJob) :=
  if (observed_at_ms <? 0) || (limit =? 0)%nat || (MAX_WORKER_BATCH <? limit)%nat
     || negb (within MIN_CLAIM_LEASE_MS MAX_CLAIM_LEASE_MS claim_lease_ms)
  then raise WorkerInvalidRequest
  else
    let! expires := lift (ok_or WorkerInvalidRequest (i64_checked_add observed_at_ms claim_lease_ms)) in
    transaction (
      let! rows := query (due_rows kind observed_at_ms limit) in
      fold_m (claim_step kind observed_at_ms expires) rows []).

(** [expected_revision.checked_add(1).and_then(|value| i64::try_from(value).ok())]. *)
Definition next_revision_of (job : GrokAccountWorkerJob) : option Z :=
  match u64_checked_add (jb_expected_revision job) 1 with Some value => i64_try_from value | None => None end.

Definition complete_refresh_job (job : GrokAccountWorkerJob) (credential : GrokAccountCredential) (expires_at_ms observed_at_ms : Z)
  : WorkerM unit :=
  if negb (bool_decide (jb_kind job = Refresh)) || (expires_at_ms <=? observed_at_ms) then raise ResultKindMismatch
  else
    let! next_revision := lift (ok_or WorkerInvalidPersistedState (next_revision_of job)) in
    let! refresh_due := lift (deterministic_refresh_due_at sha256 (jb_account_id job) expires_at_ms) in
    let! nonce := draw random NONCE_BYTES in
    let! secret := lift (map_err (fun _ => WorkerSecretStoreFailure)
                     (seal ring nonce (credential_value credential) (credential_aad (jb_provider job) (jb_identity_digest job)))) in
    let! expected := lift (ok_or WorkerInvalidPersistedState (i64_try_from (jb_expected_revision job))) in
    let! changed := execute (update_account_stmt (jb_account_id job) (claim_owned job observed_at_ms)
                               (finish_refresh secret next_revision refresh_due observed_at_ms)) in
    if changed =? 1 then ret tt else raise WorkerStaleClaim.

(** The groups of [validate_quota_windows]: scope, source, confidence and labels. *)
Definition QuotaGroups : Type := list (GrokAccountQuotaScope * (GrokAccountQuotaSource * GrokAccountQuotaConfidence * list string)).

Definition group_of (scope : GrokAccountQuotaScope) (groups : QuotaGroups)
  : option (GrokAccountQuotaSource * GrokAccountQuotaConfidence * list string) :=
  snd <$> List.find (fun g => bool_decide (g.1 = scope)) groups.

Definition check_window (groups : QuotaGroups) (w : GrokAccountQuotaWindow) : result GrokAccountWorkerError QuotaGroups :=
  let '(source, confidence, labels) := default (wi_source w, wi_confidence w, []) (group_of (wi_scope w) groups) in
  if negb (bool_decide (source = wi_source w)) || negb (bool_decide (confidence = wi_confidence w))
     || bool_decide (wi_label w ∈ labels) || (MAX_QUOTA_WINDOWS_PER_TARGET <? S (length labels))%nat
  then Err WorkerInvalidRequest
  else Ok ((wi_scope w, (source, confidence, wi_label w :: labels))
           :: List.filter (fun g => negb (bool_decide (g.1 = wi_scope w))) groups).

Definition validate_quota_windows (windows : list GrokAccountQuotaWindow) : result GrokAccountWorkerError unit :=
  let? _ := try_fold check_window windows [] in Ok tt.

Definition quota_row (account_id : string) (w : GrokAccountQuotaWindow) (now : Z) : QuotaWindowRow :=
  let '(scope_kind, model_label) := match wi_scope w with ScopeAccount => ("account", "") | ScopeModel model => ("model", model) end in
  mkQuotaRow account_id scope_kind model_label (wi_label w) (wi_limit w) (wi_remaining w) (wi_reset_at_ms w)
    (source_as_str (wi_source w)) (confidence_as_str (wi_confidence w)) now.

(** [value.map(i64::try_from).transpose()]. *)
Definition optional_i64 (value : option Z) : result GrokAccountWorkerError (option Z) :=
  match value with
  | None => Ok None
  | Some v => let? v := ok_or WorkerInvalidRequest (i64_try_from v) in Ok (Some v)
  end.

Definition insert_quota_window (account_id : string) (now : Z) (_ : unit) (w : GrokAccountQuotaWindow) : WorkerM unit :=
  let! _ := lift (optional_i64 (wi_limit w)) in
  let! _ := lift (optional_i64 (wi_remaining w)) in
  execute (insert_quota_stmt (quota_row account_id w now)) ;;; ret tt.

Definition complete_quota_job (job : GrokAccountWorkerJob) (windows : list GrokAccountQuotaWindow) (next_due_at_ms observed_at_ms : Z)
  : WorkerM unit :=
  if negb (bool_decide (jb_kind job = Quota)) || (MAX_QUOTA_WINDOWS_PER_ACCOUNT_SYNC <? length windows)%nat
     || (next_due_at_ms <=? observed_at_ms)
  then raise ResultKindMismatch
  else
    let! _ := lift (validate_quota_windows windows) in
    transaction (
      let! expected := lift (ok_or WorkerInvalidPersistedState (i64_try_from (jb_expected_revision job))) in
      let! changed := execute (update_account_stmt (jb_account_id job) (claim_owned job observed_at_ms)
                                 (finish_quota next_due_at_ms observed_at_ms)) in
      if negb (changed =? 1) then raise WorkerStaleClaim
      else
        execute (delete_quota_stmt (jb_account_id job)) ;;;
        fold_m (insert_quota_window (jb_account_id job) observed_at_ms) windows tt).

Definition current_failure_count (job : GrokAccountWorkerJob) (observed_at_ms : Z) : WorkerM Z :=
  let! expected := lift (ok_or WorkerInvalidPersistedState (i64_try_from (jb_expected_revision job))) in
  let! count := query (fun db => match db_accounts db !! jb_account_id job with
                                 | Some a => if claim_owned job observed_at_ms a then Some (failure_column (jb_kind job) a) else None
                                 | None => None
                                 end) in
  let! count := lift (ok_or WorkerStaleClaim count) in
  lift (ok_or WorkerInvalidPersistedState (u64_try_from count)).

Definition complete_worker_failure (job : GrokAccountWorkerJob) (reauth_required : bool) (observed_at_ms : Z) : WorkerM unit :=
  transaction (
    let! failure_count := current_failure_count job observed_at_ms in
    let! next_failures := lift (ok_or WorkerInvalidPersistedState (u64_checked_add failure_count 1)) in
    let! next_failures_sql := lift (ok_or WorkerInvalidPersistedState (i64_try_from next_failures)) in
    let! next_due := (if reauth_required then ret None
                      else let! due := lift (deterministic_backoff_due_at sha256 (jb_account_id job) next_failures observed_at_ms) in
                           ret (Some due)) in
    let! expected := lift (ok_or WorkerInvalidPersistedState (i64_try_from (jb_expected_revision job))) in
    let! changed := execute (update_account_stmt (jb_account_id job) (claim_owned job observed_at_ms)
                               (finish_failure (jb_kind job) next_due next_failures_sql reauth_required observed_at_ms)) in
    if negb (changed =? 1) then raise WorkerStaleClaim
    else if reauth_required then execute (insert_reauth_stmt (jb_account_id job)) ;;; ret tt
    else ret tt).

(** ** The coordinator *)

Definition finish_job (observed_at_ms : Z) (summary : GrokAccountWorkerRunSummary)
    (completed : option (GrokAccountWorkerResult * GrokAccountWorkerJob)) : WorkerM GrokAccountWorkerRunSummary :=
  let '(mkRunSummary c s b r p) := summary in
  match completed with
  | None => ret (mkRunSummary c s b r (p + 1))
  | Some (Refreshed credential expires_at_ms, job) =>
      complete_refresh_job job credential expires_at_ms observed_at_ms ;;; ret (mkRunSummary c (s + 1) b r p)
  | Some (QuotaSynchronized windows next_due_at_ms, job) =>
      complete_quota_job job windows next_due_at_ms observed_at_ms ;;; ret (mkRunSummary c (s + 1) b r p)
  | Some (WorkerTransientFailure, job) =>
      complete_worker_failure job false observed_at_ms ;;; ret (mkRunSummary c s (b + 1) r p)
  | Some (WorkerReauthRequired, job) =>
      complete_worker_failure job true observed_at_ms ;;; ret (mkRunSummary c s b (r + 1) p)
  end.

(** [executor] is what [execute] returns for a job; a panicked thread returns nothing. *)
Definition run_once (coordinator : GrokAccountWorkerCoordinator) (kind : GrokAccountWorkerKind) (observed_at_ms : Z)
    (executor : GrokAccountWorkerJob -> option GrokAccountWorkerResult) : WorkerM GrokAccountWorkerRunSummary :=
  let! jobs := claim_due_worker_jobs kind observed_at_ms (co_maximum_concurrency coordinator) (co_claim_lease_ms coordinator) in
  let completed := (fun job => match executor job with Some result => Some (result, job) | None => None end) <$> jobs in
  fold_m (finish_job observed_at_ms) completed (mkRunSummary (Z.of_nat (length jobs)) 0 0 0 0).
End Operations.
(** ** What a completion does *)

(** The rows of one account, changed: its account row and its place in the queue. *)
Definition row_edit (i : string) (a : AccountRow) (r : option ReauthRow) (db : GrokDb) : GrokDb :=
  mkGrokDb (db_batches db) (<[i := a]> (db_accounts db)) (db_links db) (db_quota db) (partial_alter (fun _ => r) i (db_reauth db)).

Lemma row_edit_account i a db : set_accounts (<[i := a]> (db_accounts db)) db = row_edit i a (db_reauth db !! i) db.
Proof. unfold row_edit. by rewrite partial_alter_self. Qed.
Lemma row_edit_reauth i a q db :
  db_accounts db !! i = Some a -> set_reauth (partial_alter (fun _ => q) i (db_reauth db)) db = row_edit i a q db.
Proof. intros Ha. unfold row_edit. by rewrite insert_id. Qed.

Lemma update_account_inv i where_ f db n db' :
  update_account_stmt i where_ f db = Some (n, db') ->
  (n = 0 /\ db' = db)
  \/ (n = 1 /\ exists a, db_accounts db !! i = Some a /\ where_ a = true /\ account_check (f a) = true
      /\ db' = set_accounts (<[i := f a]> (db_accounts db)) db).
Proof.
  unfold update_account_stmt. destruct (db_accounts db !! i) as [a|] eqn:Ha; [|intros [= <- <-]; by left].
  destruct (where_ a) eqn:Hw; [|intros [= <- <-]; by left]. destruct (account_check (f a)) eqn:Hc; [|done].
  intros [= <- <-]. right. split; [done|]. by exists a.
Qed.

(** Text without blanks, control characters or NUL. *)
Fixpoint graphic (s : string) : bool :=
  match s with EmptyString => true | String a rest => within 33 126 (char_code a) && graphic rest end.

Lemma graphic_app a b : graphic (a +:+ b) = graphic a && graphic b.
Proof. induction a as [|x a IH]; [done|]. simpl. by rewrite IH, andb_assoc. Qed.

Lemma within_inv low high v : within low high v = true -> low <= v <= high.
Proof. unfold within. intros [Hl Hh]%andb_true_iff. lia. Qed.

Lemma graphic_not_space a : within 33 126 (char_code a) = true -> Ascii.eqb a " " = false.
Proof. intros Ha. destruct (Ascii.eqb_spec a " ") as [->|]; [by vm_compute in Ha|done]. Qed.

Lemma graphic_trim s : graphic s = true -> sql_trim s = s.
Proof.
  intros Hs. unfold sql_trim. assert (trim_start_char " " s = s) as ->.
  { destruct s as [|a s]; [done|]. simpl in *. apply andb_true_iff in Hs as [Ha _]. by rewrite graphic_not_space. }
  induction s as [|a s IH]; [done|]. simpl in *. apply andb_true_iff in Hs as [Ha Hs]. rewrite (IH Hs), graphic_not_space by done. by destruct s.
Qed.

Lemma graphic_length s : graphic s = true -> sql_length s = Z.of_nat (String.length s).
Proof.
  induction s as [|a s IH]; [done|]. cbn [graphic sql_length String.length]. intros [Ha Hs]%andb_true_iff. apply within_inv in Ha.
  rewrite (proj2 (Z.eqb_neq _ _)) by lia. unfold utf8_tail. rewrite (proj2 (Z.leb_gt 128 _)) by lia. cbn [andb]. rewrite (IH Hs). lia.
Qed.

Lemma graphic_fits n s : graphic s = true -> (1 <= String.length s <= n)%nat -> opaque_fits n s = true.
Proof.
  intros Hs Hl. unfold opaque_fits, text_fits. rewrite graphic_trim, graphic_length by done.
  rewrite !andb_true_iff, !Z.leb_le, Nat.leb_le. lia.
Qed.

Lemma graphic_hex bytes : graphic (encode_lower_hex bytes) = true.
Proof.
  assert (Hd : forall n, 0 <= n < 16 -> within 33 126 (char_code (hex_digit n)) = true).
  { intros n Hn. assert (n ∈ [0; 1; 2; 3; 4; 5; 6; 7; 8; 9; 10; 11; 12; 13; 14; 15]) as Hin by (rewrite !elem_of_cons; lia).
    repeat (apply elem_of_cons in Hin as [->|Hin]; [by vm_compute|]). by apply elem_of_nil in Hin. }
  induction bytes as [|b bytes IH]; [done|]. destruct (nibbles b) as [H1 H2]. cbn [encode_lower_hex graphic]. by rewrite (Hd _ H1), (Hd _ H2), IH.
Qed.

Lemma claim_id_fits bytes : length bytes = 16%nat -> opaque_fits 128 ("grok-worker-" +:+ encode_lower_hex bytes) = true.
Proof.
  intros Hl. apply graphic_fits; [rewrite graphic_app, graphic_hex; done|].
  change (String.length ("grok-worker-" +:+ encode_lower_hex bytes)) with (12 + String.length (encode_lower_hex bytes))%nat.
  rewrite encode_lower_hex_length, Hl. lia.
Qed.

Section Exact.
Context `{!Aead} (sha256 : list Byte.byte -> list Byte.byte) (sqlite_fails : nat -> bool)
  (random : nat -> nat -> option (list Byte.byte)) (ring : MasterKeyRing).

(** The row a job owns, and what replaces it. *)
Definition replaces (job : GrokAccountWorkerJob) (now : Z) (db : GrokDb) (a a' : AccountRow) : Prop :=
  db_accounts db !! jb_account_id job = Some a /\ claim_owned job now a = true /\ account_check a' = true.

(** A refresh that was stored: the credential sealed for the identity of the job, the
    next revision, and the claim released. *)
Definition refreshed (job : GrokAccountWorkerJob) (credential : GrokAccountCredential) (expires_at_ms now : Z) (db db' : GrokDb) : Prop :=
  exists a secret nonce due,
    let a' := finish_refresh secret (jb_expected_revision job + 1) due now a in
    replaces job now db a a' /\ jb_kind job = Refresh /\ now < expires_at_ms
    /\ deterministic_refresh_due_at sha256 (jb_account_id job) expires_at_ms = Ok due
    /\ seal ring (random NONCE_BYTES nonce) (credential_value credential) (credential_aad (jb_provider job) (jb_identity_digest job)) = Ok secret
    /\ db' = row_edit (jb_account_id job) a' (db_reauth db !! jb_account_id job) db.

Lemma u64_add_ok {E} (e : E) a b v : ok_or e (u64_checked_add a b) = Ok v -> v = a + b.
Proof. unfold u64_checked_add, u64_try_from. by destruct (in_u64 (a + b)); intros [= <-]. Qed.

Lemma next_revision_inv job v : ok_or WorkerInvalidPersistedState (next_revision_of job) = Ok v -> v = jb_expected_revision job + 1.
Proof.
  unfold next_revision_of, u64_checked_add, u64_try_from, i64_try_from. intros Hv. repeat case_match; by simplify_eq/=.
Qed.

Lemma refresh_exact job credential expires_at_ms now db :
  atomic db (complete_refresh_job sha256 sqlite_fails random ring job credential expires_at_ms now)
    (fun _ db' => refreshed job credential expires_at_ms now db db').
Proof.
  unfold complete_refresh_job. case_bool_decide as Hk; [|apply atomic_raise]. cbn [negb orb].
  destruct (Z.leb_spec expires_at_ms now) as [_|Hlt]; [apply atomic_raise|].
  apply atomic_lift. intros next ->%next_revision_inv. apply atomic_lift. intros due Hdue. apply atomic_draw. intros nonce.
  apply atomic_lift. intros secret Hs. apply atomic_lift. intros expected _. apply atomic_execute.
  intros n db' [[-> ->]|(-> & a & Ha & Ho & Hc & ->)]%update_account_inv; [right; eauto|]. left. exists tt. split; [done|].
  destruct (seal _ _ _ _) as [sec|e|] eqn:Hseal; [|done..]. injection Hs as ->.
  exists a, secret, nonce, due. split_and!; try done. apply row_edit_account.
Qed.

(** A failure that was stored: the next instant or the queue, and the claim released. *)
Definition failed (job : GrokAccountWorkerJob) (reauth_required : bool) (now : Z) (db db' : GrokDb) : Prop :=
  exists a next_due,
    let failures := failure_column (jb_kind job) a + 1 in
    let a' := finish_failure (jb_kind job) next_due failures reauth_required now a in
    replaces job now db a a'
    /\ (if reauth_required then next_due = None
        else exists due, next_due = Some due /\ deterministic_backoff_due_at sha256 (jb_account_id job) failures now = Ok due)
    /\ db' = row_edit (jb_account_id job) a'
               (if reauth_required then Some (default (new_reauth (jb_account_id job)) (db_reauth db !! jb_account_id job))
                else db_reauth db !! jb_account_id job) db.

Lemma insert_reauth_edit i a a' db n db' :
  db_accounts db !! i = Some a -> insert_reauth_stmt i (set_accounts (<[i := a']> (db_accounts db)) db) = Some (n, db') ->
  db' = row_edit i a' (Some (default (new_reauth i) (db_reauth db !! i))) db.
Proof.
  intros Ha [[[r Hr] ->]|(Hr & _ & ->)]%insert_reauth_inv; revert Hr; grok_simpl; intros Hr.
  - rewrite row_edit_account, Hr. done.
  - rewrite Hr. done.
Qed.

Lemma current_failure_hoare job now db :
  hoare (eq db) (current_failure_count sqlite_fails job now)
    (fun n db' => db = db' /\ exists a, db_accounts db !! jb_account_id job = Some a /\ claim_owned job now a = true
                                        /\ n = failure_column (jb_kind job) a).
Proof.
  unfold current_failure_count. eapply hoare_bind; [apply hoare_lift with (Q := fun _ db' => db = db'); auto|]. intros x0. simpl.
  apply hoare_bind with (Q := fun c db' => db = db' /\ c = match db_accounts db !! jb_account_id job with
    | Some a => if claim_owned job now a then Some (failure_column (jb_kind job) a) else None | None => None end).
  { apply hoare_query. by intros ? <-. }
  intros c. apply hoare_bind with (Q := fun c db' => db = db' /\ exists a, db_accounts db !! jb_account_id job = Some a
    /\ claim_owned job now a = true /\ c = failure_column (jb_kind job) a).
  { apply hoare_lift. intros x db' Hx [<- ->]. split; [done|]. destruct (db_accounts db !! _) as [a|] eqn:Ha; [|done].
    destruct (claim_owned job now a) eqn:Ho; [|done]. injection Hx as <-. eauto. }
  intros x. apply hoare_lift. intros y db' Hy [<- (a & Ha & Ho & ->)]. split; [done|]. exists a. split_and!; try done.
  unfold u64_try_from in Hy. case_match; [|done]. by injection Hy as <-.
Qed.

Lemma failure_exact job reauth_required now db :
  atomic db (complete_worker_failure sha256 sqlite_fails job reauth_required now) (fun _ db' => failed job reauth_required now db db').
Proof.
  unfold complete_worker_failure. apply atomic_transaction. eapply hoare_bind; [apply current_failure_hoare|]. intros n.
  intros s [] s' [Hdb (a & Ha & Ho & ->)] Hrun. set (count := failure_column (jb_kind job) a) in *.
  apply bind_ok in Hrun as (next & s1 & H1 & Hrun). injection H1 as Hnext <-. apply u64_add_ok in Hnext as ->.
  apply bind_ok in Hrun as (sql & s1 & H1 & Hrun). injection H1 as Hsql <-. apply i64_from in Hsql as ->.
  apply bind_ok in Hrun as (due & s1 & Hdue & Hrun).
  assert (s1 = s /\ if reauth_required then due = None else exists d, due = Some d
      /\ deterministic_backoff_due_at sha256 (jb_account_id job) (count + 1) now = Ok d) as [-> Hd].
  { destruct reauth_required; [by injection Hdue as <- <-|]. apply bind_ok in Hdue as (d & s2 & H1 & H2).
    injection H1 as H1 <-. injection H2 as <- <-. eauto. }
  apply bind_ok in Hrun as (ex & s1 & H1 & Hrun). injection H1 as _ <-. apply bind_ok in Hrun as (changed & s1 & Hup & Hrun).
  apply execute_ok in Hup as [Hup _]. rewrite <- Hdb in Hup.
  apply update_account_inv in Hup as [[-> _]|(-> & a0 & Ha0 & Ho0 & Hc & Hs1)]; [done|]. cbn [Z.eqb Pos.eqb negb] in Hrun.
  assert (a0 = a) as -> by congruence.
  exists a, due. split; [done|]. split; [done|]. destruct reauth_required.
  - apply bind_ok in Hrun as (m & s2 & Hins & Hrun). injection Hrun as <-.
    apply execute_ok in Hins as [Hins _]. rewrite Hs1 in Hins.
    by eapply insert_reauth_edit.
  - injection Hrun as <-. rewrite Hs1. apply row_edit_account.
Qed.

(** A quota synchronisation that was stored: the windows of the account are the given
    ones, every other row is as it was. *)
Record synchronized (job : GrokAccountWorkerJob) (windows : list GrokAccountQuotaWindow) (next_due now : Z) (db db' : GrokDb) : Prop := {
  sy_account : exists a, replaces job now db a (finish_quota next_due now a)
    /\ set_quota (db_quota db) db' = row_edit (jb_account_id job) (finish_quota next_due now a) (db_reauth db !! jb_account_id job) db;
  sy_kind : jb_kind job = Quota;
  sy_windows : forall k q, db_quota db' !! k = Some q <->
    (db_quota db !! k = Some q /\ qw_account_id q <> jb_account_id job)
    \/ exists w, w ∈ windows /\ q = quota_row (jb_account_id job) w now /\ k = quota_key q;
}.

(** The loop over the windows. *)
Record windowed (account_id : string) (now : Z) (base : GrokDb) (seen : list GrokAccountQuotaWindow) (db : GrokDb) : Prop := {
  wd_rest : set_quota (db_quota base) db = base;
  wd_windows : forall k q, db_quota db !! k = Some q <->
    db_quota base !! k = Some q \/ exists w, w ∈ seen /\ q = quota_row account_id w now /\ k = quota_key q;
}.

Lemma insert_window_hoare account_id now base seen w :
  hoare (windowed account_id now base seen) (insert_quota_window sqlite_fails account_id now tt w)
    (fun _ => windowed account_id now base (seen ++ [w])).
Proof.
  unfold insert_quota_window. eapply hoare_bind; [apply hoare_lift with (Q := fun _ => windowed account_id now base seen); auto|]. intros l.
  eapply hoare_bind; [apply hoare_lift with (Q := fun _ => windowed account_id now base seen); auto|]. intros m.
  apply hoare_bind with (Q := fun _ => windowed account_id now base (seen ++ [w])); [|intros n; by apply hoare_ret].
  apply hoare_execute. intros db n db' [Hrest Hw] Hi. unfold insert_quota_stmt in Hi.
  destruct (has (db_quota db) _) eqn:Hfresh; [done|]. apply has_false in Hfresh. destruct (false || _ || _); [done|].
  injection Hi as _ <-. constructor; [exact Hrest|]. grok_simpl. intros k q. rewrite lookup_insert_Some, Hw. split.
  - intros [[<- <-]|[_ [Hb|(x & Hx & Hq)]]]; [right; exists w; split; [set_solver|done]|by left|right; exists x; split; [set_solver|done]].
  - assert (Hne : db_quota db !! k = Some q -> quota_key (quota_row account_id w now) <> k) by (intros ? ?; congruence).
    intros [Hb|(x & [Hx|Hx%list_elem_of_singleton]%elem_of_app & Hq & Hk)].
    + right. split; [|by left]. apply Hne, Hw. by left.
    + right. split; [|right; eauto]. apply Hne, Hw. right. eauto.
    + subst x. left. by subst.
Qed.

Lemma fold_windows_hoare account_id now base windows :
  hoare (eq base) (fold_m (insert_quota_window sqlite_fails account_id now) windows tt) (fun _ => windowed account_id now base windows).
Proof.
  intros s [] s' Hs Hrun. eapply (hoare_fold (fun seen (_ : unit) => windowed account_id now base seen)); [|clear Hrun|exact Hrun].
  - intros seen w []. apply insert_window_hoare.
  - rewrite <- Hs. constructor; [by destruct base|]. intros k q. split; [by left|]. intros [?|(w & Hw & _)]; [done|set_solver].
Qed.

Lemma quota_exact job windows next_due now db :
  atomic db (complete_quota_job sqlite_fails job windows next_due now) (fun _ db' => synchronized job windows next_due now db db').
Proof.
  unfold complete_quota_job. case_bool_decide as Hk; [|apply atomic_raise]. cbn [negb orb]. destruct (_ || _); [apply atomic_raise|].
  apply atomic_lift. intros u _. apply atomic_transaction.
  eapply hoare_bind; [apply hoare_lift with (Q := fun _ db' => db = db'); auto|]. intros ex. cbv beta.
  apply hoare_bind with (Q := fun n db' => update_account_stmt (jb_account_id job) (claim_owned job now) (finish_quota next_due now) db = Some (n, db')).
  { apply hoare_execute. by intros ? ? ? <-. }
  intros n s [] s' Hup Hrun. apply update_account_inv in Hup as [[-> _]|(-> & a & Ha & Ho & Hc & Hs)]; [done|]. cbn [Z.eqb Pos.eqb negb] in Hrun.
  apply bind_ok in Hrun as (m & s1 & Hdel & Hrun).
  apply execute_ok in Hdel as [Hdel _]. injection Hdel as _ Hs1.
  destruct (fold_windows_hoare (jb_account_id job) now (db_of s1) windows s1 tt s' eq_refl Hrun) as [Hrest Hw].
  rewrite Hs in Hs1. revert Hs1. grok_simpl. intros Hs1. constructor; [|done|].
  - exists a. split; [done|]. rewrite <- row_edit_account. rewrite <- Hs1 in Hrest. revert Hrest. unfold set_quota, set_accounts. grok_simpl.
    intros Hrest. injection Hrest as -> -> -> ->. done.
  - intros k q. rewrite Hw, <- Hs1. grok_simpl. by rewrite map_lookup_filter_Some.
Qed.

(** ** What a claim does *)

Definition worker_claim_named (k : nat) (id : string) : Prop :=
  exists bytes, random 16 k = Some bytes /\ id = "grok-worker-" +:+ encode_lower_hex bytes.

(** The jobs of the rows that were claimed so far: each row carries its claim and
    nothing else changed. *)
Record claimed (kind : GrokAccountWorkerKind) (now expires : Z) (s0 : Conn GrokDb) (seen : list AccountRow)
    (jobs : list GrokAccountWorkerJob) (s : Conn GrokDb) : Prop := {
  cd_rest : set_accounts (db_accounts (db_of s0)) (db_of s) = db_of s0;
  cd_other : forall i, i ∉ ac_id <$> seen -> db_accounts (db_of s) !! i = db_accounts (db_of s0) !! i;
  cd_jobs : Forall2 (fun a job => job_of ring kind (jb_claim_id job) a = Ok job
    /\ account_check (set_claim kind (jb_claim_id job) expires now a) = true
    /\ db_accounts (db_of s) !! ac_id a = Some (set_claim kind (jb_claim_id job) expires now a)) seen jobs;
  cd_named : forall k job, jobs !! k = Some job -> worker_claim_named (draws_of s0 + k) (jb_claim_id job);
  cd_draws : draws_of s = (draws_of s0 + length jobs)%nat;
}.

Lemma claim_step_inv kind now expires jobs a s jobs' s' :
  claim_step sqlite_fails random ring kind now expires jobs a s = (Ok jobs', s') ->
  exists id job row, worker_claim_named (draws_of s) id /\ job_of ring kind id a = Ok job /\ jobs' = jobs ++ [job]
    /\ db_accounts (db_of s) !! ac_id a = Some row /\ account_check (set_claim kind id expires now row) = true
    /\ db_of s' = set_accounts (<[ac_id a := set_claim kind id expires now row]> (db_accounts (db_of s))) (db_of s)
    /\ draws_of s' = S (draws_of s).
Proof.
  intros Hrun. apply bind_ok in Hrun as (id & s1 & Hid & Hrun). apply bind_ok in Hid as (bytes & s2 & Hb & Hid). injection Hb as <- <-.
  apply bind_ok in Hid as (bytes & s2 & Hb & Hid). injection Hb as Hb <-. injection Hid as <- <-.
  destruct (random 16 (draws_of s)) as [x|] eqn:Hx; [|done]. injection Hb as ->.
  apply bind_ok in Hrun as (n & s1 & Hup & Hrun). apply execute_ok in Hup as [Hup Hd].
  apply update_account_inv in Hup as [[-> _]|(-> & row & Hrow & _ & Hc & Hs1)]; [done|]. cbn [Z.eqb Pos.eqb negb] in Hrun.
  apply bind_ok in Hrun as (job & s2 & Hj & Hrun). injection Hj as Hj <-. injection Hrun as <- <-.
  eexists _, job, row. split_and!; [by exists bytes|done|done|exact Hrow|exact Hc|exact Hs1|exact Hd].
Qed.

Lemma job_of_claim kind id a job : job_of ring kind id a = Ok job -> jb_claim_id job = id.
Proof. unfold job_of. intros Hj. repeat (apply result_bind_ok in Hj as (? & _ & Hj)). by injection Hj as <-. Qed.

Lemma claimed_step kind now expires s0 seen jobs a s jobs' s' :
  claimed kind now expires s0 seen jobs s -> db_accounts (db_of s0) !! ac_id a = Some a -> ac_id a ∉ ac_id <$> seen ->
  claim_step sqlite_fails random ring kind now expires jobs a s = (Ok jobs', s') -> claimed kind now expires s0 (seen ++ [a]) jobs' s'.
Proof.
  intros [Hrest Hother Hjobs Hnamed Hdraws] Ha Hnew (id & job & row & Hid & Hj & -> & Hrow & Hc & Hs' & Hd)%claim_step_inv.
  rewrite (Hother _ Hnew), Ha in Hrow. injection Hrow as <-. pose proof (job_of_claim _ _ _ _ Hj) as Hjid. constructor.
  - rewrite Hs'. exact Hrest.
  - intros i Hi. rewrite fmap_app in Hi. rewrite Hs'. grok_simpl. rewrite lookup_insert_ne by set_solver. apply Hother. set_solver.
  - apply Forall2_app.
    + apply Forall2_same_length_lookup in Hjobs as [Hlen Hjobs]. apply Forall2_same_length_lookup. split; [done|].
      intros k b j Hb Hj'. destruct (Hjobs k b j Hb Hj') as (H1 & H2 & H3). split_and!; [done..|]. rewrite Hs'. grok_simpl.
      rewrite lookup_insert_ne; [done|]. intros Heq. apply Hnew. rewrite Heq. apply list_elem_of_fmap. exists b. split; [done|].
      by eapply list_elem_of_lookup_2.
    + constructor; [|constructor]. rewrite Hjid. split_and!; [done..|]. rewrite Hs'. grok_simpl. apply lookup_insert_eq.
  - intros k j [Hk|[Hle Hk]]%lookup_app_Some; [by apply Hnamed|]. apply list_lookup_singleton_Some in Hk as [Hk <-].
    rewrite Hjid. replace (draws_of s0 + k)%nat with (draws_of s) by lia. done.
  - rewrite Hd, length_app. simpl. lia.
Qed.

(** The rows a claim reads: due rows of the table, each once. *)
Lemma due_rows_sound kind now limit db :
  tables_sound db -> NoDup (ac_id <$> due_rows kind now limit db)
    /\ forall a, a ∈ due_rows kind now limit db -> db_accounts db !! ac_id a = Some a /\ is_due kind now a = true.
Proof.
  intros Hok. assert (Hrow : forall a, a ∈ rows_of db -> db_accounts db !! ac_id a = Some a).
  { intros a ([i x] & -> & Hin%elem_of_map_to_list)%list_elem_of_fmap. simpl. by destruct (go_accounts _ Hok i x Hin) as [-> _]. }
  assert (Hnd : NoDup (ac_id <$> rows_of db)).
  { unfold rows_of. rewrite <- list_fmap_compose. erewrite list_fmap_ext; [apply NoDup_fst_map_to_list|].
    intros k [i x] Hk. simpl. apply list_elem_of_lookup_2, elem_of_map_to_list in Hk. by destruct (go_accounts _ Hok i x Hk) as [-> _]. }
  split.
  - unfold due_rows. eapply sublist_NoDup; [|apply fmap_sublist, sublist_take]. rewrite sort_by_perm.
    eapply sublist_NoDup; [exact Hnd|]. apply fmap_sublist. clear. induction (rows_of db) as [|x l IH]; simpl; [constructor|].
    destruct (is_due kind now x); by constructor.
  - intros a Ha. assert (Hin : a ∈ List.filter (is_due kind now) (rows_of db)).
    { rewrite <- (sort_by_perm (due_leb kind)). eapply subseteq_take, Ha. }
    apply list_elem_of_In, List.filter_In in Hin as [Hin Hd]. split; [apply Hrow; by apply list_elem_of_In|done].
Qed.

(** A claim that succeeds is the loop over the due rows. *)
Lemma claim_runs kind now limit lease s jobs s' :
  claim_due_worker_jobs sqlite_fails random ring kind now limit lease s = (Ok jobs, s') ->
  exists s1 s2, fold_m (claim_step sqlite_fails random ring kind now (now + lease)) (due_rows kind now limit (db_of s)) [] s1 = (Ok jobs, s2)
    /\ db_of s1 = db_of s /\ draws_of s1 = draws_of s /\ db_of s2 = db_of s' /\ draws_of s2 = draws_of s'.
Proof.
  intros Hrun. unfold claim_due_worker_jobs in Hrun. destruct (_ || negb _); [done|]. apply bind_ok in Hrun as (expires & s1 & He & Hrun).
  injection He as He <-. unfold i64_checked_add in He. apply i64_from in He as ->.
  apply transaction_ok in Hrun as (s1 & s2 & Hrun & Hdb1 & Hdr1 & Hdb2 & Hdr2). apply bind_ok in Hrun as (rs & s3 & Hq & Hrun).
  apply query_ok in Hq as (-> & Hdb3 & Hdr3). rewrite Hdb1 in *. exists s3, s2. split_and!; [done|done|congruence|done..].
Qed.

(** The rows before a row of the list are other rows. *)
Lemma due_rows_split kind now limit db seen b rest :
  tables_sound db -> due_rows kind now limit db = seen ++ b :: rest ->
  db_accounts db !! ac_id b = Some b /\ is_due kind now b = true /\ ac_id b ∉ ac_id <$> seen.
Proof.
  intros Hok Hl. destruct (due_rows_sound kind now limit db Hok) as [Hnd Hrows]. destruct (Hrows b) as [Hb Hd]; [rewrite Hl; apply elem_of_app; right; left|].
  split_and!; [done..|]. rewrite Hl, fmap_app, fmap_cons in Hnd. apply NoDup_app in Hnd as (_ & Hnd & _). intros Hin. eapply Hnd; [exact Hin|left].
Qed.

Lemma claim_exact kind now limit lease s jobs s' :
  tables_sound (db_of s) -> claim_due_worker_jobs sqlite_fails random ring kind now limit lease s = (Ok jobs, s') ->
  claimed kind now (now + lease) s (due_rows kind now limit (db_of s)) jobs s'.
Proof.
  intros Hok (s1 & s2 & Hrun & Hdb1 & Hdr1 & Hdb2 & Hdr2)%claim_runs.
  assert (Hc : claimed kind now (now + lease) s (due_rows kind now limit (db_of s)) jobs s2).
  { eapply (fold_ok (claimed kind now (now + lease) s)); [| |exact Hrun].
    - intros seen b rest x t x' t' Hl Hx Hstep. destruct (due_rows_split _ _ _ _ _ _ _ Hok Hl) as (Hb & _ & Hn). by eapply claimed_step.
    - constructor; [by rewrite Hdb1; destruct (db_of s)|by rewrite Hdb1|constructor|done|simpl; lia]. }
  destruct Hc. constructor; rewrite <- ?Hdb2, <- ?Hdr2; done.
Qed.

(** What a job says is what its row says. *)
Lemma job_of_inv kind id a job :
  job_of ring kind id a = Ok job ->
  jb_account_id job = ac_id a /\ jb_kind job = kind /\ jb_claim_id job = id /\ jb_expected_revision job = ac_revision a
  /\ account_identity a = (provider_as_str (jb_provider job), jb_identity_digest job) /\ opens ring a (jb_credential job).
Proof.
  unfold job_of. intros Hj. apply result_bind_ok in Hj as (p & Hp%map_err_ok & Hj). apply result_bind_ok in Hj as (d & Hd%map_err_ok & Hj).
  apply result_bind_ok in Hj as (kv & Hkv%map_err_ok & Hj). apply result_bind_ok in Hj as (en & Hen%map_err_ok & Hj).
  apply result_bind_ok in Hj as (c & Hc%map_err_ok & Hj). apply result_bind_ok in Hj as (rev & ->%u64_ok & Hj). injection Hj as <-.
  split_and!; try done; by eapply parts_open.
Qed.

(** ** When a claim succeeds *)

Lemma job_of_ok kind id a plain :
  opens ring a plain -> in_u64 (ac_revision a) = true -> exists job, job_of ring kind id a = Ok job.
Proof.
  intros (persisted & Hp & Ho) Hrev. unfold decode_persisted in Hp. apply result_bind_ok in Hp as (p & Hpp & Hp).
  apply result_bind_ok in Hp as (d & Hd & Hp). apply result_bind_ok in Hp as (kv & Hkv%map_err_ok & Hp). injection Hp as <-.
  unfold open_persisted_credential in Ho. apply result_bind_ok in Ho as (en & Hen%map_err_ok & Ho%map_err_ok). simpl in Hen, Ho.
  unfold job_of, u64_try_from. rewrite Hpp. simpl. rewrite Hd. simpl. rewrite Hkv. simpl. rewrite Hen. simpl. rewrite Ho, Hrev. simpl. by eexists.
Qed.

Lemma set_claim_check kind id expires now a :
  account_check a = true -> ac_created_at a <= now -> 0 <= expires -> opaque_fits 128 id = true ->
  account_check (set_claim kind id expires now a) = true.
Proof.
  intros Hc Hnow He Hid. unfold account_check in *. apply andb_true_iff in Hc as [Hc _]. rewrite !andb_true_iff in Hc. destruct_and! Hc.
  rewrite !andb_true_iff. cbn [set_claim ac_id ac_provider ac_identity_digest ac_ciphertext ac_key_version ac_auth_status ac_enabled
    ac_priority ac_weight ac_max_concurrency ac_refresh_due ac_last_refresh ac_refresh_failures ac_cooldown_until ac_revision ac_batch_id
    ac_created_at ac_updated_at ac_quota_due ac_last_quota ac_quota_failures].
  split_and!; try assumption; [by apply Z.leb_le|]. unfold claim_check. cbn [set_claim ac_claim_kind ac_claim_id ac_claim_expires].
  rewrite Hid, (proj2 (Z.leb_le _ _) He). by destruct kind.
Qed.
End Exact.
End Worker.
