(* ===== verification/GrokReauth.v ===== *)
(** * Native Grok accounts: reauthentication

    Models [crates/provider-grok/src/reauth.rs] on the store of [GrokAccounts]: the queue
    of accounts that need reauthentication, its claims, the refresh-first fallback of the
    coordinator, and the completion of an action. What the importers of credentials
    accept is the interface [CredentialImporters]; an executor is an oracle from a job
    and an action to a result. *)

From S2P Require Import Prelude Text Octets Core ClientKey SecretStore ControlPlane StoreRows StoreSchema SqliteTx GrokAccounts GrokWorker.
Local Open Scope string_scope.
Local Open Scope list_scope.
Local Open Scope Z_scope.

Module Reauth.
Import Secrets Grok Worker.

(** ** Data *)

Definition MAX_REAUTH_BATCH : nat := 200.

Inductive GrokReauthAttempt : Type := AttemptRefresh | AttemptDeviceCode | AttemptBrowserSso.
Inductive GrokReauthStrategy : Type := Auto | RefreshOnly | InteractiveOnly.

Definition attempts (s : GrokReauthStrategy) : list GrokReauthAttempt :=
  match s with
  | Auto => [AttemptRefresh; AttemptDeviceCode; AttemptBrowserSso]
  | RefreshOnly => [AttemptRefresh]
  | InteractiveOnly => [AttemptDeviceCode; AttemptBrowserSso]
  end.

Inductive GrokReauthError : Type :=
| ReauthInvalidRequest
| ReauthStoreUnavailable
| ReauthInvalidPersistedState
| ReauthSecretStoreFailure
| ReauthStaleClaim
| ReauthNotFound
| ReauthInvalidCredential.

(** [From<GrokAccountPoolError>]. *)
Definition reauth_error (e : GrokAccountPoolError) : GrokReauthError :=
  match e with
  | StoreUnavailable => ReauthStoreUnavailable
  | SecretStoreFailure => ReauthSecretStoreFailure
  | InvalidPersistedState => ReauthInvalidPersistedState
  | InvalidCredential => ReauthInvalidCredential
  | AccountNotFound => ReauthNotFound
  | _ => ReauthInvalidRequest
  end.

Record GrokReauthJob : Type := mkReauthJob {
  rj_account_id : string;
  rj_provider : GrokAccountProvider;
  rj_claim_id : string;
  rj_claim_expires_at_ms : Z;
  rj_expected_revision : Z;
  rj_identity_digest : list Byte.byte;
  rj_credential : list Byte.byte;
}.

Inductive GrokReauthResult : Type :=
| Reauthenticated (credential : GrokAccountCredential) (acquisition : GrokReauthAttempt)
| ReauthTransientFailure
| NeedsInteractive
| Denied.

Record GrokReauthRunSummary : Type := mkReauthSummary {
  re_claimed : Z;
  re_succeeded : Z;
  re_refreshed : Z;
  re_device_code : Z;
  re_browser_sso : Z;
  re_interactive_required : Z;
  re_backed_off : Z;
  re_denied : Z;
}.

Record GrokReauthCoordinator : Type := mkReauthCoordinator { rc_claim_lease_ms : Z }.

Definition reauth_coordinator_try_new (claim_lease_ms : Z) : result GrokReauthError GrokReauthCoordinator :=
  if negb (within MIN_CLAIM_LEASE_MS MAX_CLAIM_LEASE_MS claim_lease_ms) then Err ReauthInvalidRequest
  else Ok (mkReauthCoordinator claim_lease_ms).

Definition parse_provider (value : string) : result GrokReauthError GrokAccountProvider :=
  if bool_decide (value = "build") then Ok Build
  else if bool_decide (value = "web") then Ok Web
  else if bool_decide (value = "console") then Ok Console
  else Err ReauthInvalidPersistedState.

(** The expiry of the credential an importer accepts at a time, per provider. *)
Class CredentialImporters := {
  build_expiry : list Byte.byte -> Z -> option Z;
  web_expiry : list Byte.byte -> Z -> option Z;
  console_accepts : list Byte.byte -> bool;
}.

Definition validated_expiry `{CredentialImporters} (provider : GrokAccountProvider) (credential : list Byte.byte) (observed_at_ms : Z)
  : result GrokReauthError (option Z) :=
  match provider with
  | Build => let? value := ok_or ReauthInvalidCredential (build_expiry credential observed_at_ms) in Ok (Some value)
  | Web => let? value := ok_or ReauthInvalidCredential (web_expiry credential observed_at_ms) in Ok (Some value)
  | Console => if console_accepts credential then Ok None else Err ReauthInvalidCredential
  end.

(** ** Statements *)

Definition reauth_claim_free (now : Z) (r : ReauthRow) : bool :=
  match ra_claim_id r with
  | None => true
  | Some _ => match ra_claim_expires r with Some e => e <=? now | None => false end
  end.

Definition reauth_owned (job : GrokReauthJob) (now : Z) (r : ReauthRow) : bool :=
  bool_decide (ra_claim_id r = Some (rj_claim_id job)) && match ra_claim_expires r with Some e => now <? e | None => false end.

Definition update_reauth_stmt (id : string) (where_ : GrokDb -> ReauthRow -> bool) (f : ReauthRow -> ReauthRow) (db : GrokDb)
  : option (Z * GrokDb) :=
  match db_reauth db !! id with
  | Some r =>
      if where_ db r then
        if reauth_check (f r) then Some (1, set_reauth (<[id := f r]> (db_reauth db)) db) else None
      else Some (0, db)
  | None => Some (0, db)
  end.

Definition delete_reauth_stmt (job : GrokReauthJob) (now : Z) (db : GrokDb) : option (Z * GrokDb) :=
  match db_reauth db !! rj_account_id job with
  | Some r => if reauth_owned job now r then Some (1, set_reauth (delete (rj_account_id job) (db_reauth db)) db) else Some (0, db)
  | None => Some (0, db)
  end.

Definition needs_reauth (a : AccountRow) : bool := bool_decide (ac_auth_status a = "reauth_required").

(** [INSERT OR IGNORE .. SELECT id FROM grok_accounts WHERE auth_status = ..]. *)
Definition queue_all_stmt (db : GrokDb) : option (Z * GrokDb) :=
  let missing := filter (fun a => needs_reauth a.2 = true /\ has (db_reauth db) a.1 = false) (db_accounts db) in
  Some (Z.of_nat (size missing), set_reauth (db_reauth db ∪ map_imap (fun i _ => Some (new_reauth i)) missing) db).

(** The rows of the join a claim may take, in its order. *)
Definition reauth_due (now : Z) (ar : AccountRow * ReauthRow) : bool :=
  let '(a, r) := ar in
  (ac_enabled a =? 1) && needs_reauth a && (ra_operator_required r =? 0)
  && match ra_next_attempt r with Some t => t <=? now | None => true end && reauth_claim_free now r.

Definition reauth_leb (x y : AccountRow * ReauthRow) : bool :=
  let tx := default 0 (ra_next_attempt x.2) in let ty := default 0 (ra_next_attempt y.2) in
  if tx =? ty then String.leb (ac_id x.1) (ac_id y.1) else tx <? ty.

Definition joined (db : GrokDb) : list (AccountRow * ReauthRow) :=
  omap (fun a => (fun r => (a, r)) <$> db_reauth db !! ac_id a) (rows_of db).

Definition reauth_candidate (now : Z) (db : GrokDb) : option (AccountRow * ReauthRow) :=
  head (sort_by reauth_leb (List.filter (reauth_due now) (joined db))).

Definition set_reauth_claim (claim_id : string) (expires : Z) (r : ReauthRow) : ReauthRow :=
  mkReauth (ra_account_id r) (ra_next_attempt r) (ra_failures r) (ra_operator_required r) (Some claim_id) (Some expires).

Definition fail_reauth (next_attempt : option Z) (failures : Z) (operator_required : Z) (r : ReauthRow) : ReauthRow :=
  mkReauth (ra_account_id r) next_attempt failures operator_required None None.

Definition requeued_row (now : Z) (r : ReauthRow) : ReauthRow := mkReauth (ra_account_id r) (Some now) (ra_failures r) 0 None None.

Definition finish_reauth (secret : EncryptedSecret) (next_revision : Z) (refresh_due : option Z) (now : Z) (a : AccountRow) : AccountRow :=
  mkAccount (ac_id a) (ac_provider a) (ac_identity_digest a) (es_ciphertext secret) (es_key_version secret) "active"
    (ac_enabled a) (ac_priority a) (ac_weight a) (ac_max_concurrency a) refresh_due (Some now)
    0 (ac_cooldown_until a) next_revision (ac_batch_id a) (ac_created_at a) now (ac_quota_due a)
    (ac_last_quota a) (ac_quota_failures a) (ac_claim_kind a) (ac_claim_id a) (ac_claim_expires a).

(** ** Operations *)

Section Operations.
Context `{!Aead} `{!CredentialImporters} (sha256 : list Byte.byte -> list Byte.byte) (sqlite_fails : nat -> bool)
  (random : nat -> nat -> option (list Byte.byte)) (ring : MasterKeyRing).

Abbreviation ReauthM A := (M (Conn GrokDb) GrokReauthError A).
Abbreviation query := (sql_query sqlite_fails ReauthStoreUnavailable).
Abbreviation execute := (sql_execute sqlite_fails ReauthStoreUnavailable).
Abbreviation transaction := (sql_transaction sqlite_fails ReauthStoreUnavailable).

Definition backoff_due_at (account_id : string) (failure_count observed_at_ms : Z) : result GrokReauthError Z :=
  if bool_decide (account_id = "") || (failure_count =? 0) || (observed_at_ms <? 0) then Err ReauthInvalidRequest
  else ok_or ReauthInvalidRequest (backoff_instant sha256 account_id failure_count observed_at_ms).

Definition random_reauth_claim_id : ReauthM string :=
  let! bytes := draw random 16 in
  let! bytes := lift (ok_or ReauthStoreUnavailable bytes) in
  ret ("grok-reauth-" +:+ encode_lower_hex bytes).

Definition requeue_reauth (account_id : string) (observed_at_ms : Z) : ReauthM unit :=
  if bool_decide (account_id = "") || (128 <? String.length account_id)%nat || (observed_at_ms <? 0) then raise ReauthInvalidRequest
  else
    let! changed := execute (update_reauth_stmt account_id
      (fun db r => match db_accounts db !! account_id with Some a => needs_reauth a | None => false end
                   && (ra_operator_required r =? 1) && reauth_claim_free observed_at_ms r)
      (requeued_row observed_at_ms)) in
    if negb (changed =? 1) then raise ReauthNotFound else ret tt.

(** What a claim hands out of a row. *)
Definition reauth_job_of (a : AccountRow) : result GrokReauthError (GrokAccountProvider * list Byte.byte * list Byte.byte * Z) :=
  let? provider := parse_provider (ac_provider a) in
  let? identity_digest := map_err (fun _ => ReauthInvalidPersistedState) (digest_of (ac_identity_digest a)) in
  let? key_version := map_err (fun _ => ReauthInvalidPersistedState) (try_from_sqlite_i64 (ac_key_version a)) in
  let? encrypted := map_err (fun _ => ReauthInvalidPersistedState) (try_from_persisted key_version (ac_ciphertext a)) in
  let? credential := map_err (fun _ => ReauthSecretStoreFailure) (open ring encrypted (credential_aad provider identity_digest)) in
  let? expected_revision := ok_or ReauthInvalidPersistedState (u64_try_from (ac_revision a)) in
  Ok (provider, identity_digest, credential, expected_revision).

Definition claim_due_reauth_job (observed_at_ms claim_lease_ms : Z) : ReauthM (option GrokReauthJob) :=
  if (observed_at_ms <? 0) || negb (within MIN_CLAIM_LEASE_MS MAX_CLAIM_LEASE_MS claim_lease_ms) then raise ReauthInvalidRequest
  else
    let! expires := lift (ok_or ReauthInvalidRequest (i64_checked_add observed_at_ms claim_lease_ms)) in
    transaction (
      execute queue_all_stmt ;;;
      (let! row := query (reauth_candidate observed_at_ms) in
       match row with
       | None => ret None
       | Some (a, _) =>
           let! parts := lift (reauth_job_of a) in
           let '(provider, identity_digest, credential, expected_revision) := parts in
           let! claim_id := random_reauth_claim_id in
           let! changed := execute (update_reauth_stmt (ac_id a) (fun _ => reauth_claim_free observed_at_ms)
                                      (set_reauth_claim claim_id expires)) in
           if negb (changed =? 1) then raise ReauthStaleClaim
           else ret (Some (mkReauthJob (ac_id a) provider claim_id expires expected_revision identity_digest credential))
       end)).

Definition reauth_next_revision (job : GrokReauthJob) : option Z :=
  match u64_checked_add (rj_expected_revision job) 1 with Some value => i64_try_from value | None => None end.

Definition complete_reauth_success (job : GrokReauthJob) (credential : GrokAccountCredential) (observed_at_ms : Z) : ReauthM unit :=
  if (observed_at_ms <? 0) || bool_decide (credential_value credential = []) then raise ReauthInvalidRequest
  else
    let! refresh_due := lift (validated_expiry (rj_provider job) (credential_value credential) observed_at_ms) in
    let! nonce := draw random NONCE_BYTES in
    let! secret := lift (map_err (fun _ => ReauthSecretStoreFailure)
                     (seal ring nonce (credential_value credential) (credential_aad (rj_provider job) (rj_identity_digest job)))) in
    transaction (
      let! next_revision := lift (ok_or ReauthInvalidPersistedState (reauth_next_revision job)) in
      let! expected := lift (ok_or ReauthInvalidPersistedState (i64_try_from (rj_expected_revision job))) in
      let! changed := execute (update_account_stmt (rj_account_id job)
        (fun a => (ac_revision a =? expected) && needs_reauth a) (finish_reauth secret next_revision refresh_due observed_at_ms)) in
      if negb (changed =? 1) then raise ReauthStaleClaim
      else
        let! claim_changed := execute (delete_reauth_stmt job observed_at_ms) in
        if negb (claim_changed =? 1) then raise ReauthStaleClaim else ret tt).

Definition complete_reauth_failure (job : GrokReauthJob) (transient : bool) (observed_at_ms : Z) : ReauthM unit :=
  if observed_at_ms <? 0 then raise ReauthInvalidRequest
  else transaction (
    let! failures := query (fun db => match db_reauth db !! rj_account_id job with
                                      | Some r => if reauth_owned job observed_at_ms r then Some (ra_failures r) else None
                                      | None => None
                                      end) in
    let! failures := lift (ok_or ReauthStaleClaim failures) in
    let! next_failures := lift (ok_or ReauthInvalidPersistedState (i64_checked_add failures 1)) in
    let! next_attempt := (if transient then
                            let! count := lift (ok_or ReauthInvalidPersistedState (u64_try_from next_failures)) in
                            let! due := lift (backoff_due_at (rj_account_id job) count observed_at_ms) in
                            ret (Some due)
                          else ret None) in
    let! changed := execute (update_reauth_stmt (rj_account_id job) (fun _ => reauth_owned job observed_at_ms)
                               (fail_reauth next_attempt next_failures (if transient then 0 else 1))) in
    if negb (changed =? 1) then raise ReauthStaleClaim else ret tt).

(** ** The coordinator *)

Definition count_acquisition (acquisition : GrokReauthAttempt) (s : GrokReauthRunSummary) : GrokReauthRunSummary :=
  let '(mkReauthSummary c ok rf dc bs ir bo de) := s in
  match acquisition with
  | AttemptRefresh => mkReauthSummary c (ok + 1) (rf + 1) dc bs ir bo de
  | AttemptDeviceCode => mkReauthSummary c (ok + 1) rf (dc + 1) bs ir bo de
  | AttemptBrowserSso => mkReauthSummary c (ok + 1) rf dc (bs + 1) ir bo de
  end.

Definition count_claimed (s : GrokReauthRunSummary) : GrokReauthRunSummary :=
  let '(mkReauthSummary c ok rf dc bs ir bo de) := s in mkReauthSummary (c + 1) ok rf dc bs ir bo de.
Definition count_interactive (s : GrokReauthRunSummary) : GrokReauthRunSummary :=
  let '(mkReauthSummary c ok rf dc bs ir bo de) := s in mkReauthSummary c ok rf dc bs (ir + 1) bo de.
Definition count_backed_off (s : GrokReauthRunSummary) : GrokReauthRunSummary :=
  let '(mkReauthSummary c ok rf dc bs ir bo de) := s in mkReauthSummary c ok rf dc bs ir (bo + 1) de.
Definition count_denied (s : GrokReauthRunSummary) : GrokReauthRunSummary :=
  let '(mkReauthSummary c ok rf dc bs ir bo de) := s in mkReauthSummary c ok rf dc bs ir bo (de + 1).

(** The actions of one job, in order, until one completes it. *)
Fixpoint run_attempts (executor : GrokReauthJob -> GrokReauthAttempt -> GrokReauthResult) (job : GrokReauthJob) (observed_at_ms : Z)
    (plan : list GrokReauthAttempt) (s : GrokReauthRunSummary) : ReauthM GrokReauthRunSummary :=
  match plan with
  | [] => complete_reauth_failure job false observed_at_ms ;;; ret (count_interactive s)
  | attempt :: rest =>
      match executor job attempt with
      | Reauthenticated credential acquisition =>
          complete_reauth_success job credential observed_at_ms ;;; ret (count_acquisition acquisition s)
      | ReauthTransientFailure => complete_reauth_failure job true observed_at_ms ;;; ret (count_backed_off s)
      | NeedsInteractive => run_attempts executor job observed_at_ms rest s
      | Denied => complete_reauth_failure job false observed_at_ms ;;; ret (count_denied s)
      end
  end.

(** [for _ in 0..limit], left by the first pass that finds no due account. *)
Fixpoint reauth_passes (coordinator : GrokReauthCoordinator) (executor : GrokReauthJob -> GrokReauthAttempt -> GrokReauthResult)
    (strategy : GrokReauthStrategy) (observed_at_ms : Z) (limit : nat) (s : GrokReauthRunSummary) : ReauthM GrokReauthRunSummary :=
  match limit with
  | O => ret s
  | S limit =>
      let! job := claim_due_reauth_job observed_at_ms (rc_claim_lease_ms coordinator) in
      match job with
      | None => ret s
      | Some job =>
          let! s := run_attempts executor job observed_at_ms (attempts strategy) (count_claimed s) in
          reauth_passes coordinator executor strategy observed_at_ms limit s
      end
  end.

Definition reauth_run_once (coordinator : GrokReauthCoordinator) (strategy : GrokReauthStrategy) (limit : nat) (observed_at_ms : Z)
    (executor : GrokReauthJob -> GrokReauthAttempt -> GrokReauthResult) : ReauthM GrokReauthRunSummary :=
  if (observed_at_ms <? 0) || (limit =? 0)%nat || (MAX_REAUTH_BATCH <? limit)%nat then raise ReauthInvalidRequest
  else reauth_passes coordinator executor strategy observed_at_ms limit (mkReauthSummary 0 0 0 0 0 0 0 0).
End Operations.

(** ** What each operation does *)

Lemma update_reauth_inv i where_ f db n db' :
  update_reauth_stmt i where_ f db = Some (n, db') ->
  (n = 0 /\ db' = db)
  \/ (n = 1 /\ exists r, db_reauth db !! i = Some r /\ where_ db r = true /\ reauth_check (f r) = true
      /\ db' = set_reauth (<[i := f r]> (db_reauth db)) db).
Proof.
  unfold update_reauth_stmt. destruct (db_reauth db !! i) as [r|] eqn:Hr; [|intros [= <- <-]; by left].
  destruct (where_ db r) eqn:Hw; [|intros [= <- <-]; by left]. destruct (reauth_check (f r)) eqn:Hc; [|done].
  intros [= <- <-]. right. split; [done|]. by exists r.
Qed.

Section Exact.
Context `{!Aead} `{!CredentialImporters} (sha256 : list Byte.byte -> list Byte.byte) (sqlite_fails : nat -> bool)
  (random : nat -> nat -> option (list Byte.byte)) (ring : MasterKeyRing).

(** An account an operator releases is due at once, with its history of failures. *)
Definition reauth_requeued (account_id : string) (now : Z) (db db' : GrokDb) : Prop :=
  exists r, db_reauth db !! account_id = Some r /\ ra_operator_required r = 1 /\ reauth_check (requeued_row now r) = true
    /\ db' = set_reauth (<[account_id := requeued_row now r]> (db_reauth db)) db.

Lemma requeue_exact account_id now db :
  atomic db (requeue_reauth sqlite_fails account_id now) (fun _ db' => reauth_requeued account_id now db db').
Proof.
  unfold requeue_reauth. destruct (_ || _); [apply atomic_raise|]. apply atomic_execute.
  intros n db' [[-> ->]|(-> & r & Hr & Hw & Hc & ->)]%update_reauth_inv; [right; eauto|]. left. exists tt. split; [done|].
  exists r. split_and!; try done. bool_simp. lia.
Qed.

(** A failure that was stored: backed off, or left to an operator. *)
Definition reauth_failed (job : GrokReauthJob) (transient : bool) (now : Z) (db db' : GrokDb) : Prop :=
  exists r next, db_reauth db !! rj_account_id job = Some r /\ reauth_owned job now r = true
    /\ (if transient then exists due, next = Some due /\ backoff_due_at sha256 (rj_account_id job) (ra_failures r + 1) now = Ok due
        else next = None)
    /\ reauth_check (fail_reauth next (ra_failures r + 1) (if transient then 0 else 1) r) = true
    /\ db' = set_reauth (<[rj_account_id job := fail_reauth next (ra_failures r + 1) (if transient then 0 else 1) r]> (db_reauth db)) db.

Lemma reauth_failure_exact job transient now db :
  atomic db (complete_reauth_failure sha256 sqlite_fails job transient now) (fun _ db' => reauth_failed job transient now db db').
Proof.
  unfold complete_reauth_failure. destruct (now <? 0); [apply atomic_raise|]. apply atomic_transaction. intros s [] s' Hdb Hrun.
  apply bind_ok in Hrun as (f & s1 & Hq & Hrun). apply query_ok in Hq as (-> & Hs1 & _). apply bind_ok in Hrun as (n & s2 & Hn & Hrun).
  injection Hn as Hn <-. rewrite <- Hdb in *. destruct (db_reauth db !! rj_account_id job) as [r|] eqn:Hr; [|done].
  destruct (reauth_owned job now r) eqn:Ho; [|done]. injection Hn as <-. apply bind_ok in Hrun as (next & s2 & Hn & Hrun).
  injection Hn as Hn <-. unfold i64_checked_add in Hn. apply i64_from in Hn as ->. apply bind_ok in Hrun as (at_ & s2 & Hat & Hrun).
  assert (Hs2 : s2 = s1 /\ if transient then exists due, at_ = Some due
      /\ backoff_due_at sha256 (rj_account_id job) (ra_failures r + 1) now = Ok due else at_ = None).
  { destruct transient; [|by injection Hat as <- <-]. apply bind_ok in Hat as (c & s3 & Hc & Hat). injection Hc as Hc <-.
    unfold u64_try_from in Hc. destruct (in_u64 _); [|done]. injection Hc as <-. apply bind_ok in Hat as (d & s3 & Hd & Hat).
    injection Hd as Hd <-. injection Hat as <- <-. eauto. }
  destruct Hs2 as [-> Hnext]. apply bind_ok in Hrun as (m & s2 & Hup & Hrun). apply execute_ok in Hup as [Hup _]. rewrite Hs1 in Hup.
  apply update_reauth_inv in Hup as [[-> _]|(-> & r0 & Hr0 & _ & Hc & Hs2)]; [done|]. injection Hrun as <-.
  assert (r0 = r) as -> by congruence. by exists r, at_.
Qed.

(** A reauthentication that was stored: the new credential at the next revision, the
    account active again and no longer queued. *)
Definition reauthenticated (job : GrokReauthJob) (credential : GrokAccountCredential) (now : Z) (db db' : GrokDb) : Prop :=
  exists a r secret nonce due,
    let a' := finish_reauth secret (rj_expected_revision job + 1) due now a in
    db_accounts db !! rj_account_id job = Some a /\ ac_revision a = rj_expected_revision job /\ needs_reauth a = true
    /\ db_reauth db !! rj_account_id job = Some r /\ reauth_owned job now r = true /\ account_check a' = true
    /\ validated_expiry (rj_provider job) (credential_value credential) now = Ok due
    /\ seal ring (random NONCE_BYTES nonce) (credential_value credential) (credential_aad (rj_provider job) (rj_identity_digest job)) = Ok secret
    /\ db' = row_edit (rj_account_id job) a' None db.

Lemma reauth_success_exact job credential now db :
  atomic db (complete_reauth_success sqlite_fails random ring job credential now) (fun _ db' => reauthenticated job credential now db db').
Proof.
  unfold complete_reauth_success. destruct (_ || _); [apply atomic_raise|]. apply atomic_lift. intros due Hdue. apply atomic_draw. intros nonce.
  apply atomic_lift. intros secret Hs. destruct (seal _ _ _ _) as [sec|e|] eqn:Hseal; [|done..]. injection Hs as ->.
  apply atomic_transaction. intros s [] s' Hdb Hrun. apply bind_ok in Hrun as (next & s1 & Hn & Hrun). injection Hn as Hn <-.
  assert (next = rj_expected_revision job + 1) as ->.
  { unfold reauth_next_revision, u64_checked_add, u64_try_from, i64_try_from in Hn. repeat case_match; by simplify_eq/=. }
  apply bind_ok in Hrun as (expected & s1 & He & Hrun). injection He as He <-. apply i64_from in He as ->.
  apply bind_ok in Hrun as (n & s1 & Hup & Hrun). apply execute_ok in Hup as [Hup _]. rewrite <- Hdb in Hup.
  apply update_account_inv in Hup as [[-> _]|(-> & a & Ha & Hw & Hc & Hs1)]; [done|]. cbn [Z.eqb Pos.eqb negb] in Hrun.
  apply bind_ok in Hrun as (m & s2 & Hdel & Hrun). apply execute_ok in Hdel as [Hdel _]. rewrite Hs1 in Hdel. unfold delete_reauth_stmt in Hdel.
  revert Hdel. grok_simpl. destruct (db_reauth db !! rj_account_id job) as [r|] eqn:Hr; [|by intros [= <- _]].
  destruct (reauth_owned job now r) eqn:Ho; [|by intros [= <- _]]. intros [= <- Hs2]. injection Hrun as <-. bool_simp.
  exists a, r, secret, nonce, due. split_and!; try done; by rewrite <- Hs2.
Qed.

Definition reauth_claim_named (k : nat) (id : string) : Prop :=
  exists bytes, random 16 k = Some bytes /\ id = "grok-reauth-" +:+ encode_lower_hex bytes.

(** A claim that was taken: the first due account of the queue. *)
Definition reauth_claimed (now lease : Z) (s s' : Conn GrokDb) (job : GrokReauthJob) : Prop :=
  exists a r, reauth_candidate now (db_of s) = Some (a, r) /\ reauth_claim_named (draws_of s) (rj_claim_id job)
    /\ rj_account_id job = ac_id a
    /\ reauth_job_of ring a = Ok (rj_provider job, rj_identity_digest job, rj_credential job, rj_expected_revision job)
    /\ reauth_check (set_reauth_claim (rj_claim_id job) (now + lease) r) = true
    /\ db_of s' = set_reauth (<[ac_id a := set_reauth_claim (rj_claim_id job) (now + lease) r]> (db_reauth (db_of s))) (db_of s)
    /\ draws_of s' = S (draws_of s).

(** A queue that is complete stays as it is. *)
Lemma queue_all_same db : queued db -> queue_all_stmt db = Some (0, db).
Proof.
  intros Hq. unfold queue_all_stmt. replace (filter _ (db_accounts db)) with (∅ : gmap string AccountRow).
  - rewrite map_size_empty. replace (map_imap _ _) with (∅ : gmap string ReauthRow); [rewrite (right_id_L ∅ (∪)); by destruct db|].
    apply map_eq. intros i. by rewrite map_lookup_imap, !lookup_empty.
  - symmetry. apply map_empty. intros i. apply eq_None_not_Some. intros [a [Ha [Hn Hh]]%map_lookup_filter_Some]. simpl in Hn, Hh.
    unfold needs_reauth in Hn. bool_simp. apply has_false in Hh. destruct (Hq i a Ha Hn). congruence.
Qed.

(** The candidate is a due row of the join. *)
Lemma reauth_candidate_inv now db a r :
  tables_sound db -> reauth_candidate now db = Some (a, r) ->
  db_accounts db !! ac_id a = Some a /\ db_reauth db !! ac_id a = Some r /\ reauth_due now (a, r) = true.
Proof.
  intros Hok Hh. assert (Hin : (a, r) ∈ List.filter (reauth_due now) (joined db)).
  { rewrite <- (sort_by_perm reauth_leb). unfold reauth_candidate in Hh. destruct (sort_by _ _); [done|]. injection Hh as ->. left. }
  apply list_elem_of_In, List.filter_In in Hin as [Hin Hd]. apply list_elem_of_In, list_elem_of_omap in Hin as (x & Hx & Hr).
  apply fmap_Some in Hr as (y & Hy & [= -> ->]). split_and!; [|done..].
  apply list_elem_of_fmap in Hx as ([i z] & -> & Hz%elem_of_map_to_list). simpl. by destruct (go_accounts _ Hok i z Hz) as [-> _].
Qed.

Lemma reauth_claim_exact now lease s out s' :
  grok_ok (db_of s) -> claim_due_reauth_job sqlite_fails random ring now lease s = (Ok out, s') ->
  match out with
  | None => db_of s' = db_of s /\ reauth_candidate now (db_of s) = None
  | Some job => reauth_claimed now lease s s' job
  end.
Proof.
  intros [Hok Hq] Hrun. unfold claim_due_reauth_job in Hrun. destruct (_ || negb _); [done|]. apply bind_ok in Hrun as (ex & s1 & He & Hrun).
  injection He as He <-. unfold i64_checked_add in He. apply i64_from in He as ->.
  apply transaction_ok in Hrun as (s1 & s2 & Hrun & Hdb1 & Hdr1 & Hdb2 & Hdr2). apply bind_ok in Hrun as (n & s3 & Hx & Hrun).
  apply execute_ok in Hx as [Hx Hdr3]. rewrite Hdb1, queue_all_same in Hx by done. injection Hx as _ Hdb3.
  apply bind_ok in Hrun as (row & s4 & Hx & Hrun). apply query_ok in Hx as (Hrow & Hdb4 & Hdr4). rewrite <- Hdb3 in Hrow, Hdb4.
  destruct row as [[a r]|]; [|injection Hrun as <- <-; split; congruence].
  apply bind_ok in Hrun as ([[[p d] c] rev] & s5 & Hparts & Hrun). injection Hparts as Hparts <-.
  apply bind_ok in Hrun as (id & s5 & Hid & Hrun). apply bind_ok in Hid as (b & s6 & Hb & Hid). injection Hb as <- <-.
  apply bind_ok in Hid as (bytes & s6 & Hb & Hid). injection Hb as Hb <-. injection Hid as <- <-.
  destruct (random 16 (draws_of s4)) as [x|] eqn:Hx; [|done]. injection Hb as ->.
  apply bind_ok in Hrun as (m & s6 & Hup & Hrun). apply execute_ok in Hup as [Hup Hdr6]. simpl in Hup, Hdr6. rewrite Hdb4 in Hup.
  apply update_reauth_inv in Hup as [[-> _]|(-> & r0 & Hr0 & _ & Hc & Hs6)]; [done|]. injection Hrun as <- <-.
  destruct (reauth_candidate_inv now (db_of s) a r Hok (eq_sym Hrow)) as (_ & Hr & _). assert (r0 = r) as -> by congruence.
  exists a, r. split_and!; try done; [|by rewrite <- Hdb2|lia]. exists bytes. split; [congruence|done].
Qed.

Lemma reauth_job_of_inv a p d c rev :
  reauth_job_of ring a = Ok (p, d, c, rev) -> rev = ac_revision a /\ account_identity a = (provider_as_str p, d) /\ opens ring a c.
Proof.
  unfold reauth_job_of. intros Hj. apply result_bind_ok in Hj as (q & Hq & Hj). apply result_bind_ok in Hj as (x & Hx%map_err_ok & Hj).
  apply result_bind_ok in Hj as (kv & Hkv%map_err_ok & Hj). apply result_bind_ok in Hj as (en & Hen%map_err_ok & Hj).
  apply result_bind_ok in Hj as (y & Hc%map_err_ok & Hj). apply result_bind_ok in Hj as (rv & ->%u64_ok & Hj). injection Hj as -> -> -> <-.
  split; [done|]. eapply parts_open; try done. unfold parse_provider in Hq. unfold provider_parse. repeat case_bool_decide; by simplify_eq/=.
Qed.
End Exact.
End Reauth.
