(* ===== verification/GrokProperties.v ===== *)
(** * Native Grok accounts under concurrent workers

    Models nothing new: a ledger of the jobs that were issued, the steps of any number
    of importers, workers and reauthentication runs on one store, and what holds in
    every reachable ledger. Steps interleave at the granularity of the store's lock;
    jobs may be completed late, twice or never, and SQLite may fail any call. *)

From S2P Require Import Prelude Text Octets Core ClientKey SecretStore ControlPlane StoreRows StoreSchema SqliteTx GrokAccounts GrokWorker GrokReauth.
Local Open Scope string_scope.
Local Open Scope list_scope.
Local Open Scope Z_scope.

Module GrokRuns.
Import Secrets Grok Worker Reauth.

(** ** Draws only advance *)

Definition advances {E A} (m : M (Conn GrokDb) E A) : Prop := forall s r s', m s = (r, s') -> (draws_of s <= draws_of s')%nat.

Create HintDb draws.

Section Advances.
Context {E : Type} (sqlite_fails : nat -> bool) (e : E) (random : nat -> nat -> option (list Byte.byte)).

Lemma draws_ret {A} (a : A) : advances (E := E) (ret a).
Proof. by intros s r s' [= <- <-]. Qed.
Lemma draws_raise {A} (x : E) : advances (A := A) (raise x).
Proof. by intros s r s' [= <- <-]. Qed.
Lemma draws_panic {A} : advances (E := E) (A := A) panic.
Proof. by intros s r s' [= <- <-]. Qed.
Lemma draws_lift {A} (r : result E A) : advances (lift r).
Proof. by intros s x s' [= <- <-]. Qed.
Lemma draws_bind {A B} (m : M (Conn GrokDb) E A) (k : A -> M (Conn GrokDb) E B) :
  advances m -> (forall a, advances (k a)) -> advances (bind m k).
Proof.
  intros Hm Hk s r s' Hrun. unfold bind in Hrun. destruct (m s) as [x s1] eqn:Hms. apply Hm in Hms.
  destruct x as [a|y|]; [apply Hk in Hrun; lia|by injection Hrun as <- <-..].
Qed.
Lemma draws_call : advances (sql_call sqlite_fails e).
Proof. intros s r s' Hrun. unfold sql_call in Hrun. by destruct (sqlite_fails _); injection Hrun as <- <-. Qed.
Lemma draws_query {A} (f : GrokDb -> A) : advances (sql_query sqlite_fails e f).
Proof. apply draws_bind; [apply draws_call|]. by intros u s r s' [= <- <-]. Qed.
Lemma draws_execute f : advances (sql_execute sqlite_fails e f).
Proof.
  apply draws_bind; [apply draws_call|]. intros u s r s' Hrun. by destruct (f (db_of s)) as [[n db]|]; injection Hrun as <- <-.
Qed.
Lemma draws_draw n : advances (E := E) (draw random n).
Proof. intros s r s' [= <- <-]. simpl. lia. Qed.
Lemma draws_transaction {A} (m : M (Conn GrokDb) E A) : advances m -> advances (sql_transaction sqlite_fails e m).
Proof.
  intros Hm s r s' Hrun. unfold sql_transaction in Hrun.
  destruct ((sql_call sqlite_fails e ;;; (let! a := m in sql_call sqlite_fails e ;;; ret a)) s) as [x s1] eqn:Hx.
  assert (Hle : (draws_of s <= draws_of s1)%nat).
  { refine (draws_bind _ _ (draws_call) _ _ _ _ Hx). intros u.
    apply draws_bind; [done|]. intros a. apply draws_bind; [apply draws_call|]. intros v. apply draws_ret. }
  by destruct x; injection Hrun as <- <-.
Qed.
Lemma draws_scope {A} (m : M (Conn GrokDb) E (A * bool)) : advances m -> advances (sql_scope sqlite_fails e m).
Proof.
  intros Hm s r s' Hrun. unfold sql_scope in Hrun.
  destruct ((sql_call sqlite_fails e ;;; (let! x := m in if x.2 then sql_call sqlite_fails e ;;; ret x else ret x)) s) as [x s1] eqn:Hx.
  assert (Hle : (draws_of s <= draws_of s1)%nat).
  { refine (draws_bind _ _ (draws_call) _ _ _ _ Hx). intros u.
    apply draws_bind; [done|]. intros [a []]; simpl; [|apply draws_ret].
    apply draws_bind; [apply draws_call|]. intros v. apply draws_ret. }
  by destruct x as [[a []]|y|]; injection Hrun as <- <-.
Qed.
Lemma draws_fold {A B} (f : A -> B -> M (Conn GrokDb) E A) l a : (forall a b, advances (f a b)) -> advances (fold_m f l a).
Proof.
  intros Hf. revert a. induction l as [|b l IH]; intros a; [apply draws_ret|]. simpl. apply draws_bind; auto.
Qed.
End Advances.

#[export] Hint Resolve draws_ret draws_raise draws_panic draws_lift draws_call draws_query draws_execute draws_draw : draws.

(** Operations are built from the primitives by bind, branching and transactions. *)
Ltac solve_advances :=
  repeat first
    [ progress auto with draws
    | progress cbv zeta
    | progress intros
    | apply draws_bind
    | apply draws_transaction
    | apply draws_scope
    | apply draws_fold
    | case_match ].

Section Ops.
Context `{!Aead} `{!CredentialImporters} (sha256 : list Byte.byte -> list Byte.byte) (sqlite_fails : nat -> bool)
  (random : nat -> nat -> option (list Byte.byte)) (ring : MasterKeyRing).

Lemma import_advances batch_id entries relations now :
  advances (import_batch_with_relations sha256 sqlite_fails random ring batch_id entries relations now).
Proof.
  unfold import_batch_with_relations, import_step, import_one, random_account_id, link_step, nth_id. solve_advances.
Qed.
Lemma rollback_advances batch_id now : advances (rollback_import_batch sqlite_fails batch_id now).
Proof. unfold rollback_import_batch. solve_advances. Qed.
Lemma link_advances a b label now : advances (link_accounts sqlite_fails a b label now).
Proof. unfold link_accounts. solve_advances. Qed.
Lemma claim_advances kind now limit lease : advances (claim_due_worker_jobs sqlite_fails random ring kind now limit lease).
Proof. unfold claim_due_worker_jobs, claim_step, random_claim_id. solve_advances. Qed.
Lemma refresh_advances job c e now : advances (complete_refresh_job sha256 sqlite_fails random ring job c e now).
Proof. unfold complete_refresh_job. solve_advances. Qed.
Lemma quota_advances job w due now : advances (complete_quota_job sqlite_fails job w due now).
Proof. unfold complete_quota_job, insert_quota_window. solve_advances. Qed.
Lemma failure_advances job b now : advances (complete_worker_failure sha256 sqlite_fails job b now).
Proof. unfold complete_worker_failure, current_failure_count. solve_advances. Qed.
Lemma requeue_advances i now : advances (requeue_reauth sqlite_fails i now).
Proof. unfold requeue_reauth. solve_advances. Qed.
Lemma reauth_claim_advances now lease : advances (claim_due_reauth_job sqlite_fails random ring now lease).
Proof. unfold claim_due_reauth_job, random_reauth_claim_id. solve_advances. Qed.
Lemma reauth_success_advances job c now : advances (complete_reauth_success sqlite_fails random ring job c now).
Proof. unfold complete_reauth_success. solve_advances. Qed.
Lemma reauth_failure_advances job b now : advances (complete_reauth_failure sha256 sqlite_fails job b now).
Proof. unfold complete_reauth_failure. solve_advances. Qed.
End Ops.
(** ** What a step may do to accounts and claims *)

(** A row that is still the row of a claim. *)
Record carried (a a' : AccountRow) : Prop := {
  ca_identity : account_identity a' = account_identity a;
  ca_revision : ac_revision a <= ac_revision a';
  ca_credential : ac_revision a' = ac_revision a -> decode_persisted a' = decode_persisted a;
}.

Lemma carried_refl a : carried a a.
Proof. constructor; done. Qed.

(** Claims of [db'] that were not issued by the step were claims of [db]. *)
Record evolves (issued : string -> Prop) (db db' : GrokDb) : Prop := {
  ev_worker : forall i a' c, db_accounts db' !! i = Some a' -> ac_claim_id a' = Some c -> ~ issued c ->
    exists a, db_accounts db !! i = Some a /\ carried a a' /\ ac_claim_id a = Some c /\ ac_claim_kind a = ac_claim_kind a';
  ev_reauth : forall i r' a' c, db_reauth db' !! i = Some r' -> ra_claim_id r' = Some c -> db_accounts db' !! i = Some a' -> ~ issued c ->
    exists r a, db_reauth db !! i = Some r /\ ra_claim_id r = Some c /\ db_accounts db !! i = Some a /\ carried a a';
}.

Lemma evolves_refl issued db : evolves issued db db.
Proof.
  constructor; [intros i a c Ha Hc _; exists a|intros i r a c Hr Hc Ha _; exists r, a]; split_and!; done || apply carried_refl.
Qed.

Lemma is_Some_update {A} (m : gmap string A) i j x y : m !! i = Some x -> is_Some (m !! j) <-> is_Some (<[i := y]> m !! j).
Proof.
  intros Hi. destruct (decide (i = j)) as [<-|Hne]; [rewrite lookup_insert_eq, Hi; split; eauto|by rewrite lookup_insert_ne].
Qed.

(** An edit that may be stored: key, identity and batch stay, the queue agrees. *)
Record edits (i : string) (a a' : AccountRow) (q : option ReauthRow) : Prop := {
  ed_id : ac_id a' = ac_id a;
  ed_identity : account_identity a' = account_identity a;
  ed_batch : ac_batch_id a' = ac_batch_id a;
  ed_check : account_check a' = true;
  ed_queued : is_Some q <-> ac_auth_status a' = "reauth_required";
  ed_reauth : forall r, q = Some r -> ra_account_id r = i /\ reauth_check r = true;
  ed_settled : ac_auth_status a' = "reauth_required" -> ac_claim_id a' = None;
}.

(** The queue holds exactly the accounts that need reauthentication, and no worker
    has a claim on them. *)
Record settled (db : GrokDb) : Prop := {
  se_reauth : forall i r, db_reauth db !! i = Some r -> exists a, db_accounts db !! i = Some a /\ ac_auth_status a = "reauth_required";
  se_claims : forall i a, db_accounts db !! i = Some a -> ac_auth_status a = "reauth_required" -> ac_claim_id a = None;
}.

Lemma row_edit_tables i a a' q db : tables_sound db -> db_accounts db !! i = Some a -> edits i a a' q -> tables_sound (row_edit i a' q db).
Proof.
  intros Hok Ha He. pose proof (fun j => is_Some_update (db_accounts db) i j a a' Ha) as Hdom.
  destruct Hok, He. destruct (go_accounts0 i a Ha) as [Hi Hca]. unfold row_edit. constructor; grok_simpl; try done.
  - intros j x [[<- <-]|[_ Hx]]%lookup_insert_Some; [|by apply go_accounts0]. split; [congruence|].
    apply andb_true_iff in Hca as [_ Hv]. by rewrite ed_id0, ed_check0.
  - intros j k x y [[<- <-]|[Hj Hx]]%lookup_insert_Some [[<- <-]|[Hk Hy]]%lookup_insert_Some Heq; [done|..].
    + eapply go_identities0; [exact Ha|exact Hy|congruence].
    + eapply go_identities0; [exact Hx|exact Ha|congruence].
    + by eapply go_identities0.
  - intros j x b [[<- <-]|[_ Hx]]%lookup_insert_Some [= <-]; [rewrite ed_batch0; by eapply go_batch_of0|by eapply go_batch_of0].
  - intros l t Hl. destruct (go_links0 l t Hl) as (H1 & H2 & H3). rewrite !has_true in *. by rewrite <- !Hdom.
  - eapply refers_more; [|exact go_quota0]. intros j. apply Hdom.
  - intros j x [[-> ->]|[_ Hx]]%lookup_partial_alter_Some; [|by apply go_reauth0]. by apply ed_reauth0.
  - intros j x k [[-> ->]|[_ Hx]]%lookup_partial_alter_Some [= <-]; rewrite <- Hdom; [|by eapply go_reauth_of0].
    destruct (ed_reauth0 x eq_refl) as [-> _]. by exists a.
Qed.

Lemma row_edit_sound i a a' q db :
  grok_ok db -> settled db -> db_accounts db !! i = Some a -> edits i a a' q -> grok_ok (row_edit i a' q db) /\ settled (row_edit i a' q db).
Proof.
  intros [Hok Hq] Hse Ha He. split; [split; [by eapply row_edit_tables|]|constructor]; unfold row_edit; grok_simpl.
  - intros j x. grok_simpl. intros [[<- <-]|[Hne Hx]]%lookup_insert_Some Hst.
    + rewrite lookup_partial_alter_eq. by apply (ed_queued _ _ _ _ He).
    + rewrite lookup_partial_alter_ne by done. by eapply Hq.
  - intros j r [[-> ->]|[Hne Hr]]%lookup_partial_alter_Some.
    + exists a'. split; [by rewrite lookup_insert_eq|]. by apply (ed_queued _ _ _ _ He).
    + rewrite lookup_insert_ne by done. by eapply se_reauth.
  - intros j x [[<- <-]|[_ Hx]]%lookup_insert_Some; [apply He|by eapply se_claims].
Qed.

Lemma row_edit_evolves issued i a a' q db :
  db_accounts db !! i = Some a -> carried a a' ->
  (forall c, ac_claim_id a' = Some c -> ~ issued c -> ac_claim_id a = Some c /\ ac_claim_kind a = ac_claim_kind a') ->
  (forall r c, q = Some r -> ra_claim_id r = Some c -> ~ issued c -> exists r0, db_reauth db !! i = Some r0 /\ ra_claim_id r0 = Some c) ->
  evolves issued db (row_edit i a' q db).
Proof.
  intros Ha Hc Hcl Hq. unfold row_edit. constructor; grok_simpl.
  - intros j x c [[<- <-]|[_ Hx]]%lookup_insert_Some Hid Hn; [exists a; destruct (Hcl c Hid Hn); done|].
    exists x. split_and!; done || apply carried_refl.
  - intros j r x c [[-> ->]|[Hne Hr]]%lookup_partial_alter_Some Hrc Hx Hn.
    + rewrite lookup_insert_eq in Hx. injection Hx as <-. destruct (Hq r c eq_refl Hrc Hn) as (r0 & Hr0 & Hc0). by exists r0, a.
    + rewrite lookup_insert_ne in Hx by done. exists r, x. split_and!; done || apply carried_refl.
Qed.

(** ** Reachable ledgers *)

Section Ledger.
Context `{!Aead} `{!AeadLaws} `{!CredentialImporters} (sha256 : list Byte.byte -> list Byte.byte) (sqlite_fails : nat -> bool)
  (random : nat -> nat -> option (list Byte.byte)) (ring : MasterKeyRing).
(** [getrandom::fill] fills the buffer, and its 128-bit draws do not repeat; a key
    version is a non-zero [u32]. *)
Hypothesis random_length : forall n k bytes, random n k = Some bytes -> length bytes = n.
Hypothesis random_fresh : forall j k bytes, random 16 j = Some bytes -> random 16 k = Some bytes -> j = k.
Hypothesis key_version : 1 <= active_key_version ring < 2 ^ 32.

(** Every stored credential opens. *)
Definition all_open (db : GrokDb) : Prop := forall i a, db_accounts db !! i = Some a -> exists plaintext, opens ring a plaintext.

Record store_sound (db : GrokDb) : Prop := {
  ss_ok : grok_ok db;
  ss_settled : settled db;
  ss_open : all_open db;
}.

(** The store and the jobs that were handed out. *)
Record Ledger : Type := mkLedger {
  ld_conn : Conn GrokDb;
  ld_jobs : list GrokAccountWorkerJob;
  ld_reauth : list GrokReauthJob;
}.

Definition jobs_of {E} (r : result E (list GrokAccountWorkerJob)) : list GrokAccountWorkerJob := match r with Ok jobs => jobs | _ => [] end.
Definition reauth_of {E} (r : result E (option GrokReauthJob)) : list GrokReauthJob := match r with Ok (Some job) => [job] | _ => [] end.

(** One call on the store, by anyone, at any time. *)
Inductive grok_step : Ledger -> Ledger -> Prop :=
| step_import batch_id entries relations now s r s' js rs :
    import_batch_with_relations sha256 sqlite_fails random ring batch_id entries relations now s = (r, s') ->
    grok_step (mkLedger s js rs) (mkLedger s' js rs)
| step_rollback batch_id now s r s' js rs :
    rollback_import_batch sqlite_fails batch_id now s = (r, s') -> grok_step (mkLedger s js rs) (mkLedger s' js rs)
| step_link a b label now s r s' js rs :
    link_accounts sqlite_fails a b label now s = (r, s') -> grok_step (mkLedger s js rs) (mkLedger s' js rs)
| step_claim kind now limit lease s r s' js rs :
    claim_due_worker_jobs sqlite_fails random ring kind now limit lease s = (r, s') ->
    grok_step (mkLedger s js rs) (mkLedger s' (js ++ jobs_of r) rs)
| step_refresh job credential expires now s r s' js rs :
    job ∈ js -> complete_refresh_job sha256 sqlite_fails random ring job credential expires now s = (r, s') ->
    grok_step (mkLedger s js rs) (mkLedger s' js rs)
| step_quota job windows due now s r s' js rs :
    job ∈ js -> complete_quota_job sqlite_fails job windows due now s = (r, s') ->
    grok_step (mkLedger s js rs) (mkLedger s' js rs)
| step_failure job reauth now s r s' js rs :
    job ∈ js -> complete_worker_failure sha256 sqlite_fails job reauth now s = (r, s') ->
    grok_step (mkLedger s js rs) (mkLedger s' js rs)
| step_requeue i now s r s' js rs :
    requeue_reauth sqlite_fails i now s = (r, s') -> grok_step (mkLedger s js rs) (mkLedger s' js rs)
| step_reauth_claim now lease s r s' js rs :
    claim_due_reauth_job sqlite_fails random ring now lease s = (r, s') ->
    grok_step (mkLedger s js rs) (mkLedger s' js (rs ++ reauth_of r))
| step_reauth_success job credential now s r s' js rs :
    job ∈ rs -> complete_reauth_success sqlite_fails random ring job credential now s = (r, s') ->
    grok_step (mkLedger s js rs) (mkLedger s' js rs)
| step_reauth_failure job transient now s r s' js rs :
    job ∈ rs -> complete_reauth_failure sha256 sqlite_fails job transient now s = (r, s') ->
    grok_step (mkLedger s js rs) (mkLedger s' js rs).

Inductive reachable : Ledger -> Prop :=
| reach_empty : reachable (mkLedger (mkConn empty_grok_db 0 0) [] [])
| reach_step l l' : reachable l -> grok_step l l' -> reachable l'.

(** ** The invariant of a ledger *)

(** The identity and the credential a job was handed, as long as its claim is on the row. *)
Definition handed (provider : GrokAccountProvider) (digest : list Byte.byte) (revision : Z) (credential : list Byte.byte) (a : AccountRow)
  : Prop :=
  account_identity a = (provider_as_str provider, digest) /\ revision <= ac_revision a
  /\ (ac_revision a = revision -> opens ring a credential).

Record ledger_ok (l : Ledger) : Prop := {
  lo_store : store_sound (db_of (ld_conn l));
  lo_named : forall j, j ∈ ld_jobs l -> exists k, (k < draws_of (ld_conn l))%nat /\ worker_claim_named random k (jb_claim_id j);
  lo_distinct : NoDup (jb_claim_id <$> ld_jobs l);
  lo_handed : forall j a, j ∈ ld_jobs l -> db_accounts (db_of (ld_conn l)) !! jb_account_id j = Some a ->
    ac_claim_id a = Some (jb_claim_id j) ->
    ac_claim_kind a = Some (kind_as_str (jb_kind j))
    /\ handed (jb_provider j) (jb_identity_digest j) (jb_expected_revision j) (jb_credential j) a;
  lo_reauth_named : forall j, j ∈ ld_reauth l -> exists k, (k < draws_of (ld_conn l))%nat /\ reauth_claim_named random k (rj_claim_id j);
  lo_reauth_distinct : NoDup (rj_claim_id <$> ld_reauth l);
  lo_reauth_handed : forall j r a, j ∈ ld_reauth l -> db_reauth (db_of (ld_conn l)) !! rj_account_id j = Some r ->
    ra_claim_id r = Some (rj_claim_id j) -> db_accounts (db_of (ld_conn l)) !! rj_account_id j = Some a ->
    handed (rj_provider j) (rj_identity_digest j) (rj_expected_revision j) (rj_credential j) a;
}.

Lemma handed_carried p d rev c a a' : handed p d rev c a -> carried a a' -> handed p d rev c a'.
Proof.
  intros (Hid & Hrev & Ho) [Hci Hcr Hcc]. split_and!; [congruence|lia|]. intros Heq.
  destruct Ho as (persisted & Hp & Hop); [lia|]. exists persisted. split; [|done]. rewrite Hcc by lia. done.
Qed.

(** Claim identifiers drawn since some draw. *)
Definition issued_since (n : nat) (c : string) : Prop :=
  exists k, (n <= k)%nat /\ (worker_claim_named random k c \/ reauth_claim_named random k c).

Lemma worker_named_inj j k c : worker_claim_named random j c -> worker_claim_named random k c -> j = k.
Proof.
  intros (b & Hb & ->) (b' & Hb' & Heq). injection Heq as Heq. apply encode_hex_inj in Heq as <-. by eapply random_fresh.
Qed.
Lemma reauth_named_inj j k c : reauth_claim_named random j c -> reauth_claim_named random k c -> j = k.
Proof.
  intros (b & Hb & ->) (b' & Hb' & Heq). injection Heq as Heq. apply encode_hex_inj in Heq as <-. by eapply random_fresh.
Qed.
Lemma named_apart j k c : worker_claim_named random j c -> reauth_claim_named random k c -> False.
Proof. by intros (b & _ & ->) (b' & _ & [=]). Qed.

Lemma worker_not_issued n k c : (k < n)%nat -> worker_claim_named random k c -> ~ issued_since n c.
Proof.
  intros Hk Hc (j & Hj & [Hw|Hr]); [pose proof (worker_named_inj _ _ _ Hc Hw); lia|by eapply named_apart].
Qed.
Lemma reauth_not_issued n k c : (k < n)%nat -> reauth_claim_named random k c -> ~ issued_since n c.
Proof.
  intros Hk Hc (j & Hj & [Hw|Hr]); [by eapply named_apart|pose proof (reauth_named_inj _ _ _ Hc Hr); lia].
Qed.

(** The jobs that are out survive a step that issues only new claims. *)
Lemma ledger_evolves s s' js rs :
  ledger_ok (mkLedger s js rs) -> store_sound (db_of s') -> (draws_of s <= draws_of s')%nat ->
  evolves (issued_since (draws_of s)) (db_of s) (db_of s') -> ledger_ok (mkLedger s' js rs).
Proof.
  intros [_ Hn Hd Hh Hrn Hrd Hrh] Hs Hle [Hw Hr]. constructor; simpl in *; try done.
  - intros j Hj. destruct (Hn j Hj) as (k & Hk & Hx). exists k. split; [lia|done].
  - intros j a' Hj Ha' Hc. destruct (Hn j Hj) as (k & Hk & Hx). pose proof (worker_not_issued _ _ _ Hk Hx) as Hni.
    destruct (Hw _ _ _ Ha' Hc Hni) as (a & Ha & Hca & Hcl & Hck).
    destruct (Hh j a Hj Ha Hcl) as [Hkind Hha]. split; [congruence|]. by eapply handed_carried.
  - intros j Hj. destruct (Hrn j Hj) as (k & Hk & Hx). exists k. split; [lia|done].
  - intros j r' a' Hj Hr' Hc Ha'. destruct (Hrn j Hj) as (k & Hk & Hx). pose proof (reauth_not_issued _ _ _ Hk Hx) as Hni.
    destruct (Hr _ _ _ _ Hr' Hc Ha' Hni) as (r & a & Hr0 & Hc0 & Ha & Hca). eapply handed_carried; [|exact Hca]. by eapply Hrh.
Qed.

(** ** Operations that issue nothing *)

Definition keeps (db db' : GrokDb) : Prop := store_sound db' /\ evolves (fun _ => False) db db'.

Lemma evolves_weaken (P Q : string -> Prop) db db' : (forall c, P c -> Q c) -> evolves P db db' -> evolves Q db db'.
Proof. intros HPQ [Hw Hr]. constructor; [intros; eapply Hw; eauto|intros; eapply Hr; eauto]. Qed.

Lemma keeps_same db db' : store_sound db -> db' = db -> keeps db db'.
Proof. intros Hs ->. split; [done|apply evolves_refl]. Qed.

Lemma imported_keeps batch_id entries relations now db db' out :
  store_sound db -> imported sha256 ring batch_id entries relations now db db' out -> keeps db db'.
Proof.
  intros [Hok Hse Hop] Hi. assert (Hold : forall i a a', db_accounts db !! i = Some a -> db_accounts db' !! i = Some a' -> a' = a).
  { intros i a a' Ha Ha'. eapply lookup_weaken in Ha; [|exact (im_kept _ _ _ _ _ _ _ _ _ Hi)]. congruence. }
  assert (Hnew : forall i a', db_accounts db' !! i = Some a' -> db_accounts db !! i = Some a'
      \/ (ac_claim_id a' = None /\ exists plain, opens ring a' plain)).
  { intros i a' Ha'. destruct (db_accounts db !! i) as [a|] eqn:Ha; [left; by rewrite (Hold i a a' Ha Ha')|]. right.
    destruct (im_new _ _ _ _ _ _ _ _ _ Hi i a' Ha' Ha) as [[_ Hc] (e & _ & Hd)]. split; [done|]. eexists. by eapply de_secret. }
  split; [split|]; [apply Hi|constructor|..].
  - intros i r Hr. destruct (db_reauth db !! i) as [x|] eqn:Hx; [|by destruct (im_reauth_new _ _ _ _ _ _ _ _ _ Hi i r Hr Hx) as (_ & _ & ?)].
    destruct (se_reauth _ Hse i x Hx) as (a & Ha & Hst). exists a. split; [|done]. eapply lookup_weaken; [exact Ha|apply Hi].
  - intros i a Ha Hst. destruct (Hnew i a Ha) as [Hx|[Hc _]]; [by eapply se_claims|done].
  - intros i a Ha. destruct (Hnew i a Ha) as [Hx|[_ Hp]]; [by eapply Hop|done].
  - constructor.
    + intros i a' c Ha' Hc _. destruct (Hnew i a' Ha') as [Ha|[Hn _]]; [|congruence]. exists a'. split_and!; done || apply carried_refl.
    + intros i r' a' c Hr' Hc Ha' _. destruct (db_reauth db !! i) as [x|] eqn:Hx.
      2: { destruct (im_reauth_new _ _ _ _ _ _ _ _ _ Hi i r' Hr' Hx) as (_ & -> & _). done. }
      destruct (se_reauth _ Hse i x Hx) as (a & Ha & _). rewrite (Hold i a a' Ha Ha').
      eapply lookup_weaken in Hx as Hx'; [|exact (im_reauth _ _ _ _ _ _ _ _ _ Hi)]. exists x, a. split_and!; try done; congruence.
Qed.

(** What a rollback leaves is a part of what was there. *)
Lemma cascade_sound kept db : tables_sound db -> kept ⊆ db_accounts db -> tables_sound (cascade_accounts kept db).
Proof.
  intros [] Hk. constructor; unfold cascade_accounts; grok_simpl; try done.
  - by eapply rows_sub.
  - by eapply unique_sub.
  - by eapply refers_sub.
  - intros l t [Hl [Hl1 Hl2]]%map_lookup_filter_Some. split_and!; [done..|]. by apply go_links0.
  - intros k q i [_ Hh]%map_lookup_filter_Some [= <-]. by apply has_true.
  - eapply rows_sub; [apply map_filter_subseteq|done].
  - intros k q i [_ Hh]%map_lookup_filter_Some [= <-]. by apply has_true.
Qed.

Lemma rolled_back_keeps batch_id now b n db1 db :
  store_sound db -> db_batches db !! batch_id = Some b -> batch_check (roll_back_batch now b) = true ->
  delete_batch_accounts_stmt batch_id db = Some (n, db1) ->
  keeps db (set_batches (<[batch_id := roll_back_batch now b]> (db_batches db)) db1).
Proof.
  intros [[Hok Hq] Hse Hop] Hb Hc Hd. unfold delete_batch_accounts_stmt in Hd. injection Hd as _ <-.
  set (kept := filter _ (db_accounts db)). assert (Hk : kept ⊆ db_accounts db) by apply map_filter_subseteq.
  destruct (go_batches _ Hok _ _ Hb) as [Hid [_ Hv]%andb_true_iff].
  assert (Hreauth : forall i r, db_reauth (cascade_accounts kept db) !! i = Some r -> db_reauth db !! i = Some r /\ is_Some (kept !! i)).
  { unfold cascade_accounts. grok_simpl. intros i r [Hr Hh]%map_lookup_filter_Some. split; [done|]. apply has_true in Hh.
    by destruct (go_reauth _ Hok i r Hr) as [<- _]. }
  pose proof (cascade_sound kept db Hok Hk) as Hcs.
  split; [split|]; [split|constructor|..].
  - assert (Hkey : batch_id = ba_id (roll_back_batch now b)) by exact (eq_sym Hid). rewrite Hkey at 1.
    change (db_batches db) with (db_batches (cascade_accounts kept db)). apply set_batches_sound; [done..|]. exact Hv.
  - intros i a. grok_simpl. change (db_accounts (cascade_accounts kept db)) with kept. intros Ha Hst.
    destruct (Hq i a) as [r Hr]; [by eapply lookup_weaken|done|]. exists r. unfold cascade_accounts. grok_simpl. apply map_lookup_filter_Some.
    split; [done|]. simpl. apply has_true. destruct (go_reauth _ Hok i r Hr) as [-> _]. by exists a.
  - intros i r. grok_simpl. intros [Hr [a Ha]]%Hreauth. destruct (se_reauth _ Hse i r Hr) as (a' & Ha' & Hst). exists a. split; [done|].
    eapply lookup_weaken in Ha; [|exact Hk]. congruence.
  - intros i a. grok_simpl. intros Ha. eapply se_claims; [done|]. by eapply lookup_weaken.
  - intros i a. grok_simpl. intros Ha. apply (Hop i). by eapply lookup_weaken.
  - constructor; grok_simpl.
    + intros i a c Ha Hcl _. exists a. split_and!; try done; by eapply lookup_weaken.
    + intros i r a c [Hr _]%Hreauth Hcl Ha _. exists r, a. split_and!; try done; by eapply lookup_weaken.
Qed.

Lemma linked_keeps a b label now n db db' : store_sound db -> insert_link_stmt a b label now db = Some (n, db') -> keeps db db'.
Proof.
  intros [Hok Hse Hop] Hi. pose proof (insert_link_ok _ _ _ _ _ _ _ Hok Hi) as Hok'.
  apply insert_link_inv in Hi as [->|(_ & _ & _ & _ & ->)]; [by apply keeps_same|].
  split; [by constructor; [|destruct Hse|]|]. constructor; grok_simpl; [apply (ev_worker _ _ _ (evolves_refl _ db))|apply (ev_reauth _ _ _ (evolves_refl _ db))].
Qed.

(** ** Edits of one account *)

Lemma edit_keeps issued i a a' q db :
  store_sound db -> db_accounts db !! i = Some a -> edits i a a' q -> carried a a' ->
  (forall c, ac_claim_id a' = Some c -> ~ issued c -> ac_claim_id a = Some c /\ ac_claim_kind a = ac_claim_kind a') ->
  (forall r c, q = Some r -> ra_claim_id r = Some c -> ~ issued c -> exists r0, db_reauth db !! i = Some r0 /\ ra_claim_id r0 = Some c) ->
  (exists plain, opens ring a' plain) -> store_sound (row_edit i a' q db) /\ evolves issued db (row_edit i a' q db).
Proof.
  intros [Hok Hse Hop] Ha He Hc Hcl Hq Hp. split; [|by eapply row_edit_evolves].
  destruct (row_edit_sound i a a' q db Hok Hse Ha He) as [Hok' Hse']. constructor; [done..|].
  intros j x. unfold row_edit. grok_simpl. intros [[<- <-]|[_ Hx]]%lookup_insert_Some; [done|by eapply Hop].
Qed.

Lemma same_opens a a' : decode_persisted a' = decode_persisted a -> (exists plain, opens ring a plain) -> exists plain, opens ring a' plain.
Proof. intros Hd (plain & persisted & Hp & Ho). exists plain, persisted. by rewrite Hd. Qed.

(** The row of a worker's claim is not queued. *)
Lemma owned_settled job now i a db :
  store_sound db -> db_accounts db !! i = Some a -> claim_owned job now a = true ->
  db_reauth db !! i = None /\ ac_auth_status a <> "reauth_required" /\ ac_claim_id a = Some (jb_claim_id job)
  /\ ac_revision a = jb_expected_revision job.
Proof.
  intros Hs Ha Ho. unfold claim_owned in Ho. bool_simp. assert (Hst : ac_auth_status a <> "reauth_required").
  { intros Hst. pose proof (se_claims _ (ss_settled _ Hs) _ _ Ha Hst). congruence. }
  split_and!; [|done|done|lia]. destruct (db_reauth db !! i) as [r|] eqn:Hr; [|done].
  destruct (se_reauth _ (ss_settled _ Hs) _ _ Hr) as (x & Hx & Hxs). congruence.
Qed.

Lemma refreshed_keeps job credential expires now db db' :
  store_sound db ->
  (forall a, db_accounts db !! jb_account_id job = Some a -> ac_claim_id a = Some (jb_claim_id job) ->
     account_identity a = (provider_as_str (jb_provider job), jb_identity_digest job)) ->
  refreshed sha256 random ring job credential expires now db db' -> keeps db db'.
Proof.
  intros Hs Hid (a & secret & nonce & due & (Ha & Ho & Hc) & _ & _ & _ & Hseal & ->).
  destruct (owned_settled job now _ a db Hs Ha Ho) as (Hr & Hst & Hcl & Hrev). specialize (Hid a Ha Hcl). rewrite Hr.
  eapply edit_keeps; [done|exact Ha| | |done|done|].
  - by constructor.
  - constructor; [done|simpl; lia|simpl; lia].
  - exists (credential_value credential). by eapply sealed_opens.
Qed.

Lemma failed_keeps job reauth_required now db db' : store_sound db -> failed sha256 job reauth_required now db db' -> keeps db db'.
Proof.
  intros Hs (a & due & (Ha & Ho & Hc) & _ & ->). destruct (owned_settled job now _ a db Hs Ha Ho) as (Hr & Hst & Hcl & Hrev). rewrite Hr.
  eapply edit_keeps; [done|exact Ha| |by constructor|done| |by eapply same_opens; [|exact (ss_open _ Hs _ _ Ha)]].
  - destruct reauth_required; constructor; try done. by intros r [= <-].
  - destruct reauth_required; [|done]. by intros r c [= <-] ?.
Qed.

Lemma synchronized_keeps job windows due now db db' : store_sound db -> synchronized job windows due now db db' -> keeps db db'.
Proof.
  intros Hs [(a & (Ha & Ho & Hc) & Hdb) _ Hw]. destruct (owned_settled job now _ a db Hs Ha Ho) as (Hr & Hst & Hcl & Hrev). rewrite Hr in Hdb.
  destruct (edit_keeps (fun _ => False) (jb_account_id job) a (finish_quota due now a) None db Hs Ha) as [Hs' Hev].
  { by constructor. }
  { by constructor. }
  { done. }
  { done. }
  { by eapply same_opens; [|exact (ss_open _ Hs _ _ Ha)]. }
  rewrite <- Hdb in Hs', Hev. destruct Hs' as [[Hok Hq] Hse Hop]. split.
  - constructor; [split; [|exact Hq]|by destruct Hse|exact Hop]. destruct Hok. constructor; try done.
    intros k q i Hk [= <-]. apply Hw in Hk as [[Hk _]|(w & _ & -> & _)].
    + exact (go_quota0 k q _ Hk eq_refl).
    + assert (Hac : db_accounts db' = <[jb_account_id job := finish_quota due now a]> (db_accounts db)) by exact (f_equal db_accounts Hdb).
      rewrite Hac. unfold quota_row. destruct (wi_scope w); simpl; rewrite lookup_insert_eq; by eexists.
  - destruct Hev as [Hev1 Hev2]. constructor; [exact Hev1|exact Hev2].
Qed.

(** A change of a queue entry alone. *)
Lemma reauth_edit_keeps issued i r f db :
  store_sound db -> db_reauth db !! i = Some r -> ra_account_id (f r) = ra_account_id r -> reauth_check (f r) = true ->
  (forall c, ra_claim_id (f r) = Some c -> ~ issued c -> ra_claim_id r = Some c) ->
  store_sound (set_reauth (<[i := f r]> (db_reauth db)) db) /\ evolves issued db (set_reauth (<[i := f r]> (db_reauth db)) db).
Proof.
  intros Hs Hr Hid Hc Hcl. destruct (se_reauth _ (ss_settled _ Hs) i r Hr) as (a & Ha & Hst).
  destruct (ss_ok _ Hs) as [Hok _]. destruct (go_accounts _ Hok i a Ha) as [_ [Hca _]%andb_true_iff].
  change (<[i := f r]> (db_reauth db)) with (partial_alter (fun _ => Some (f r)) i (db_reauth db)). rewrite (row_edit_reauth i a) by done.
  eapply edit_keeps; [done|exact Ha| |apply carried_refl|done| |exact (ss_open _ Hs _ _ Ha)].
  - constructor; try done; [intros x [= <-]; split; [rewrite Hid; by eapply go_reauth|done]|]. intros _. by eapply se_claims, Hst; [apply Hs|].
  - intros x c [= <-] Hx Hn. exists r. auto.
Qed.

Lemma reauthenticated_keeps job credential now db db' :
  store_sound db ->
  (forall a r, db_reauth db !! rj_account_id job = Some r -> ra_claim_id r = Some (rj_claim_id job) ->
     db_accounts db !! rj_account_id job = Some a -> account_identity a = (provider_as_str (rj_provider job), rj_identity_digest job)) ->
  reauthenticated random ring job credential now db db' -> keeps db db'.
Proof.
  intros Hs Hid (a & r & secret & nonce & due & Ha & Hrev & Hn & Hr & Ho & Hc & _ & Hseal & ->).
  unfold reauth_owned, needs_reauth in *. bool_simp. specialize (Hid a r Hr ltac:(done) Ha).
  eapply edit_keeps; [done|exact Ha| | |done|done|].
  - by constructor.
  - constructor; [done|simpl; lia|simpl; lia].
  - exists (credential_value credential). by eapply sealed_opens.
Qed.

(** ** Claims *)

Lemma carried_trans a b c : carried a b -> carried b c -> carried a c.
Proof. intros [Hi Hv Hc] [Hi' Hv' Hc']. constructor; [congruence|lia|]. intros Heq. rewrite Hc', Hc; [done|lia|lia]. Qed.

Lemma evolves_trans issued a b c : evolves issued a b -> evolves issued b c -> evolves issued a c.
Proof.
  intros [Hw Hr] [Hw' Hr']. constructor.
  - intros i x'' k Hx'' Hk Hn. destruct (Hw' _ _ _ Hx'' Hk Hn) as (x' & Hx' & Hc' & Hk' & Hkk'). destruct (Hw _ _ _ Hx' Hk' Hn) as (x & Hx & Hc & Hk0 & Hkk).
    exists x. split_and!; [done|by eapply carried_trans|done|congruence].
  - intros i r'' x'' k Hr'' Hk Hx'' Hn. destruct (Hr' _ _ _ _ Hr'' Hk Hx'' Hn) as (r' & x' & Hr1 & Hk' & Hx' & Hc').
    destruct (Hr _ _ _ _ Hr1 Hk' Hx' Hn) as (r & x & Hr0 & Hk0 & Hx & Hc). exists r, x. split_and!; try done. by eapply carried_trans.
Qed.

Lemma claim_edit_keeps n kind now expires id k a db :
  store_sound db -> db_accounts db !! ac_id a = Some a -> is_due kind now a = true -> (n <= k)%nat -> worker_claim_named random k id ->
  account_check (set_claim kind id expires now a) = true ->
  store_sound (set_accounts (<[ac_id a := set_claim kind id expires now a]> (db_accounts db)) db)
  /\ evolves (issued_since n) db (set_accounts (<[ac_id a := set_claim kind id expires now a]> (db_accounts db)) db).
Proof.
  intros Hs Ha Hd Hk Hid Hc. unfold is_due in Hd. bool_simp. assert (Hr : db_reauth db !! ac_id a = None).
  { destruct (db_reauth db !! ac_id a) as [r|] eqn:Hr; [|done]. destruct (se_reauth _ (ss_settled _ Hs) _ _ Hr) as (x & Hx & Hxs). congruence. }
  assert (Hst : ac_auth_status a <> "reauth_required") by (intros ?; congruence). rewrite row_edit_account, Hr.
  eapply edit_keeps; [done|exact Ha| |by constructor| |done|by eapply same_opens; [|exact (ss_open _ Hs _ _ Ha)]].
  - by constructor.
  - intros c [= <-] Hn. exfalso. apply Hn. exists k. auto.
Qed.

Lemma claim_keeps kind now limit lease s jobs s' :
  store_sound (db_of s) -> claim_due_worker_jobs sqlite_fails random ring kind now limit lease s = (Ok jobs, s') ->
  store_sound (db_of s') /\ evolves (issued_since (draws_of s)) (db_of s) (db_of s').
Proof.
  intros Hs Hrun. pose proof (proj1 (ss_ok _ Hs)) as Hok. apply claim_runs in Hrun as (s1 & s2 & Hrun & Hdb1 & Hdr1 & Hdb2 & Hdr2). rewrite <- Hdb2.
  eapply (fold_ok (fun seen jobs t => claimed random ring kind now (now + lease) s seen jobs t
    /\ store_sound (db_of t) /\ evolves (issued_since (draws_of s)) (db_of s) (db_of t))) in Hrun as (_ & Hss & Hev); [done|clear Hrun..].
  - intros seen b rest x t x' t' Hl (Hc & Hst & Het) Hstep. destruct (due_rows_split _ _ _ _ _ _ _ Hok Hl) as (Hb & Hd & Hn).
    split; [by eapply claimed_step|]. pose proof Hc as [_ Hother _ _ Hdraws]. pose proof (Hother _ Hn) as Hrow. rewrite Hb in Hrow.
    apply claim_step_inv in Hstep as (id & job & row & Hid & _ & _ & Hrow' & Hchk & -> & _). rewrite Hrow in Hrow'. injection Hrow' as <-.
    destruct (claim_edit_keeps (draws_of s) kind now (now + lease) id (draws_of t) b (db_of t)) as [Hss He]; try done.
    { lia. }
    split; [done|]. by eapply evolves_trans.
  - split; [constructor; [by rewrite Hdb1; destruct (db_of s)|by rewrite Hdb1|constructor|done|simpl; lia]|]. rewrite Hdb1. split; [done|apply evolves_refl].
Qed.

Lemma new_handed kind now expires id a job :
  job_of ring kind id a = Ok job ->
  handed (jb_provider job) (jb_identity_digest job) (jb_expected_revision job) (jb_credential job) (set_claim kind id expires now a).
Proof. intros (_ & _ & _ & -> & Hid & Hop)%job_of_inv. split_and!; [done|simpl; lia|]. intros _. exact Hop. Qed.

Lemma ledger_claims kind now limit lease s jobs s' js rs :
  ledger_ok (mkLedger s js rs) -> claim_due_worker_jobs sqlite_fails random ring kind now limit lease s = (Ok jobs, s') ->
  ledger_ok (mkLedger s' (js ++ jobs) rs).
Proof.
  intros Hl Hrun. pose proof (lo_store _ Hl) as Hs. simpl in Hs. destruct (claim_keeps _ _ _ _ _ _ _ Hs Hrun) as [Hs' Hev].
  pose proof (claim_exact _ _ _ _ _ _ _ _ _ _ (proj1 (ss_ok _ Hs)) Hrun) as [_ _ Hjobs Hnamed Hdraws].
  pose proof (ledger_evolves s s' js rs Hl Hs' ltac:(lia) Hev) as [_ Hn _ Hh Hrn Hrd Hrh]. simpl in *.
  pose proof (lo_named _ Hl) as Hold. simpl in Hold. constructor; simpl; try done.
  - intros j [Hj|Hj]%elem_of_app; [by apply Hn|]. apply list_elem_of_lookup in Hj as [k Hk]. exists (draws_of s + k)%nat.
    split; [apply lookup_lt_Some in Hk; lia|by apply Hnamed].
  - rewrite fmap_app. apply NoDup_app. split_and!; [apply Hl| |].
    + intros c (j & -> & Hj)%list_elem_of_fmap (j' & Heq & [k Hk]%list_elem_of_lookup)%list_elem_of_fmap.
      destruct (Hold j Hj) as (k0 & Hk0 & Hx). rewrite Heq in Hx. pose proof (worker_named_inj _ _ _ Hx (Hnamed k j' Hk)). lia.
    + apply NoDup_alt. intros k k' c Hk Hk'. rewrite list_lookup_fmap in Hk, Hk'. apply fmap_Some in Hk as (j & Hj & ->).
      apply fmap_Some in Hk' as (j' & Hj' & Heq). pose proof (Hnamed k j Hj) as Hx. rewrite Heq in Hx.
      pose proof (worker_named_inj _ _ _ Hx (Hnamed k' j' Hj')). lia.
  - intros j a [Hj|[k Hk]%list_elem_of_lookup]%elem_of_app Ha Hc; [by apply Hh|].
    destruct (Forall2_lookup_r _ _ _ _ _ Hjobs Hk) as (b & _ & Hb & _ & Hrow).
    pose proof (job_of_inv _ _ _ _ _ Hb) as (Hac & Hkd & _). rewrite Hac, Hrow in Ha. injection Ha as <-. rewrite Hkd. split; [done|by apply new_handed].
Qed.

Lemma ledger_reauth_claims now lease s out s' js rs :
  ledger_ok (mkLedger s js rs) -> claim_due_reauth_job sqlite_fails random ring now lease s = (Ok out, s') ->
  ledger_ok (mkLedger s' js (rs ++ reauth_of (E := GrokReauthError) (Ok out))).
Proof.
  intros Hl Hrun. pose proof (lo_store _ Hl) as Hs. simpl in Hs. pose proof (reauth_claim_advances _ _ _ _ _ _ _ _ Hrun) as Hle.
  apply reauth_claim_exact in Hrun; [|apply Hs]. destruct out as [job|]; simpl.
  2: { rewrite app_nil_r. eapply ledger_evolves; [exact Hl|by rewrite (proj1 Hrun)|done|]. rewrite (proj1 Hrun). apply evolves_refl. }
  destruct Hrun as (a & r & Hcand & Hid & Hac & Hparts & Hchk & Hdb & Hdr). apply reauth_job_of_inv in Hparts as (Hrev & Hidn & Hop).
  apply reauth_candidate_inv in Hcand as (Ha & Hr & _); [|apply Hs].
  destruct (reauth_edit_keeps (issued_since (draws_of s)) (ac_id a) r (set_reauth_claim (rj_claim_id job) (now + lease)) (db_of s) Hs Hr)
    as [Hs' Hev]; [done|done|intros c [= <-] Hn; exfalso; apply Hn; exists (draws_of s); auto|].
  rewrite <- Hdb in Hs', Hev. pose proof (lo_reauth_named _ Hl) as Hold. simpl in Hold.
  pose proof (ledger_evolves s s' js rs Hl Hs' Hle Hev) as [_ Hn Hd Hh Hrn _ Hrh]. simpl in *. constructor; simpl; try done.
  - intros j [Hj|Hj%list_elem_of_singleton]%elem_of_app; [by apply Hrn|]. subst j. exists (draws_of s). split; [lia|done].
  - rewrite fmap_app. apply NoDup_app. split_and!; [apply Hl| |apply NoDup_singleton].
    intros c (j & -> & Hj)%list_elem_of_fmap Hc%list_elem_of_singleton. destruct (Hold j Hj) as (k0 & Hk0 & Hx). rewrite Hc in Hx.
    pose proof (reauth_named_inj _ _ _ Hx Hid). lia.
  - intros j x y [Hj|Hj%list_elem_of_singleton]%elem_of_app Hx Hc Hy; [by eapply Hrh|].
    subst j. rewrite Hdb, Hac in Hy. revert Hy. grok_simpl. rewrite Ha. intros [= <-]. rewrite Hrev. split_and!; [done|lia|done].
Qed.

(** ** Every reachable ledger is in order *)

Lemma ledger_keeps s s' js rs :
  ledger_ok (mkLedger s js rs) -> keeps (db_of s) (db_of s') -> (draws_of s <= draws_of s')%nat -> ledger_ok (mkLedger s' js rs).
Proof.
  intros Hl [Hs Hev] Hle. eapply ledger_evolves; [exact Hl|done..|]. by eapply evolves_weaken, Hev.
Qed.

Lemma atomic_keeps {E A} s (m : M (Conn GrokDb) E A) Q r s' js rs :
  ledger_ok (mkLedger s js rs) -> atomic (db_of s) m Q -> advances m -> (forall a db', Q a db' -> keeps (db_of s) db') ->
  m s = (r, s') -> ledger_ok (mkLedger s' js rs).
Proof.
  intros Hl Hm Had HQ Hrun. eapply ledger_keeps; [exact Hl| |by eapply Had]. specialize (Hm s r s' eq_refl Hrun).
  destruct r; [by eapply HQ|by apply keeps_same; [apply Hl|]..].
Qed.

Lemma claim_failed kind now limit lease s r s' :
  claim_due_worker_jobs sqlite_fails random ring kind now limit lease s = (r, s') ->
  match r with Ok _ => True | _ => db_of s' = db_of s end.
Proof.
  assert (Hat : atomic (db_of s) (claim_due_worker_jobs sqlite_fails random ring kind now limit lease) (fun _ _ => True)); [|by apply Hat].
  unfold claim_due_worker_jobs. destruct (_ || negb _); [apply atomic_raise|]. apply atomic_lift. intros e _. by apply atomic_transaction.
Qed.

Lemma reauth_claim_failed now lease s r s' :
  claim_due_reauth_job sqlite_fails random ring now lease s = (r, s') -> match r with Ok _ => True | _ => db_of s' = db_of s end.
Proof.
  assert (Hat : atomic (db_of s) (claim_due_reauth_job sqlite_fails random ring now lease) (fun _ _ => True)); [|by apply Hat].
  unfold claim_due_reauth_job. destruct (_ || negb _); [apply atomic_raise|]. apply atomic_lift. intros e _. by apply atomic_transaction.
Qed.

Lemma import_step_ok batch_id entries relations now s r s' js rs :
  ledger_ok (mkLedger s js rs) -> import_batch_with_relations sha256 sqlite_fails random ring batch_id entries relations now s = (r, s') ->
  ledger_ok (mkLedger s' js rs).
Proof.
  intros Hl Hrun. pose proof (lo_store _ Hl) as Hs. eapply ledger_keeps; [exact Hl| |by eapply import_advances].
  eapply import_exact in Hrun; [|done|done|apply Hs]. destruct r; [by eapply imported_keeps|by apply keeps_same..].
Qed.

Lemma rollback_step_ok batch_id now s r s' js rs :
  ledger_ok (mkLedger s js rs) -> rollback_import_batch sqlite_fails batch_id now s = (r, s') -> ledger_ok (mkLedger s' js rs).
Proof.
  intros Hl Hrun. pose proof (lo_store _ Hl) as Hs. eapply ledger_keeps; [exact Hl| |by eapply rollback_advances].
  apply rollback_exact in Hrun. destruct r as [out|e|]; [|by apply keeps_same..]. destruct (already_rolled_back out); [by apply keeps_same, Hrun|].
  destruct Hrun as (b & db1 & Hb & _ & Hc & Hd & ->). by eapply rolled_back_keeps.
Qed.

Lemma link_atomic a b label now db :
  atomic db (link_accounts sqlite_fails a b label now) (fun _ db' => exists n, insert_link_stmt a b label now db = Some (n, db')).
Proof.
  unfold link_accounts. destruct (_ || _); [apply atomic_raise|]. apply atomic_execute. intros n db' Hi. left. exists tt. eauto.
Qed.

Lemma step_ok l l' : ledger_ok l -> grok_step l l' -> ledger_ok l'.
Proof.
  intros Hl Hstep. pose proof (lo_store _ Hl) as Hs.
  destruct Hstep as [? ? ? ? ? ? ? ? ? Hrun|? ? ? ? ? ? ? Hrun|? ? ? ? ? ? ? ? ? Hrun|? ? ? ? ? r ? ? ? Hrun|? ? ? ? ? ? ? ? ? Hj Hrun
    |? ? ? ? ? ? ? ? ? Hj Hrun|? ? ? ? ? ? ? ? Hj Hrun|? ? ? ? ? ? ? Hrun|? ? ? r ? ? ? Hrun|? ? ? ? ? ? ? ? Hj Hrun|? ? ? ? ? ? ? ? Hj Hrun]; simpl in Hs.
  - by eapply import_step_ok.
  - by eapply rollback_step_ok.
  - eapply atomic_keeps; [exact Hl|apply link_atomic|apply link_advances| |exact Hrun]. intros u db' [n Hi]. by eapply linked_keeps.
  - pose proof (claim_failed _ _ _ _ _ _ _ Hrun) as Hf. destruct r as [jobs|e|]; [by eapply ledger_claims|simpl; rewrite app_nil_r..];
      (eapply ledger_keeps; [exact Hl|by apply keeps_same|by eapply claim_advances]).
  - eapply atomic_keeps; [exact Hl|apply refresh_exact|apply refresh_advances| |exact Hrun]. intros u db' Hr.
    eapply refreshed_keeps; [done| |exact Hr]. intros a Ha Hc. by destruct (lo_handed _ Hl _ a Hj Ha Hc) as [_ [? _]].
  - eapply atomic_keeps; [exact Hl|apply quota_exact|apply quota_advances| |exact Hrun]. intros u db'. by apply synchronized_keeps.
  - eapply atomic_keeps; [exact Hl|apply failure_exact|apply failure_advances| |exact Hrun]. intros u db'. by apply failed_keeps.
  - eapply atomic_keeps; [exact Hl|apply requeue_exact|apply requeue_advances| |exact Hrun].
    intros u db' (r0 & Hr & _ & Hc & ->). by eapply reauth_edit_keeps.
  - pose proof (reauth_claim_failed _ _ _ _ _ Hrun) as Hf. destruct r as [out|e|]; [by eapply ledger_reauth_claims|simpl; rewrite app_nil_r..];
      (eapply ledger_keeps; [exact Hl|by apply keeps_same|by eapply reauth_claim_advances]).
  - eapply atomic_keeps; [exact Hl|apply reauth_success_exact|apply reauth_success_advances| |exact Hrun]. intros u db' Hr.
    eapply reauthenticated_keeps; [done| |exact Hr]. intros a r0 Hr0 Hc Ha. by destruct (lo_reauth_handed _ Hl _ r0 a Hj Hr0 Hc Ha) as [? _].
  - eapply atomic_keeps; [exact Hl|apply reauth_failure_exact|apply reauth_failure_advances| |exact Hrun].
    intros u db' (r0 & next & Hr & _ & _ & Hc & ->). by eapply (reauth_edit_keeps _ _ r0).
Qed.

Lemma empty_ledger_ok : ledger_ok (mkLedger (mkConn empty_grok_db 0 0) [] []).
Proof.
  assert (Hnone : forall i a, db_accounts empty_grok_db !! i = Some a -> False) by (intros i a; grok_simpl; by rewrite lookup_empty).
  constructor; cbn [ld_conn ld_jobs ld_reauth db_of draws_of]; try (by intros j Hj%elem_of_nil).
  - constructor; [apply empty_grok_ok| |by intros i a Ha%Hnone]. constructor; [|by intros i a Ha%Hnone].
    intros i r. grok_simpl. by rewrite lookup_empty.
  - constructor.
  - by intros j a Hj%elem_of_nil.
  - constructor.
  - by intros j r a Hj%elem_of_nil.
Qed.

Lemma reachable_ok l : reachable l -> ledger_ok l.
Proof. induction 1; [apply empty_ledger_ok|by eapply step_ok]. Qed.

(** ** Who may complete what *)

(** A job whose completion the store would accept. *)
Definition worker_live (now : Z) (db : GrokDb) (j : GrokAccountWorkerJob) : Prop :=
  exists a, db_accounts db !! jb_account_id j = Some a /\ claim_owned j now a = true.
Definition reauth_live (now : Z) (db : GrokDb) (j : GrokReauthJob) : Prop :=
  exists a r, db_accounts db !! rj_account_id j = Some a /\ db_reauth db !! rj_account_id j = Some r /\ reauth_owned j now r = true.

Lemma owned_claim j now a : claim_owned j now a = true -> ac_claim_id a = Some (jb_claim_id j) /\ ac_revision a = jb_expected_revision j.
Proof. unfold claim_owned. intros Ho. bool_simp. split; [done|lia]. Qed.
Lemma reauth_owned_claim j now r : reauth_owned j now r = true -> ra_claim_id r = Some (rj_claim_id j).
Proof. unfold reauth_owned. intros Ho. by bool_simp. Qed.

Lemma same_by {A} (f : A -> string) l x y : NoDup (f <$> l) -> x ∈ l -> y ∈ l -> f x = f y -> x = y.
Proof.
  intros Hnd [i Hx]%list_elem_of_lookup [j Hy]%list_elem_of_lookup Heq. assert (i = j) as ->; [|congruence].
  eapply NoDup_lookup; [exact Hnd|rewrite list_lookup_fmap, Hx; reflexivity|rewrite list_lookup_fmap, Hy; simpl; by f_equal].
Qed.

(** C19: However imports, rollbacks, workers, reauthentications and SQLite failures
    interleave, the store stays sound: constraints hold, every stored credential opens,
    and the reauthentication queue holds exactly the accounts that need it, which no
    worker has claimed. Of all jobs ever handed out at most one can still complete on an
    account, of either kind, and a worker that can holds the credential that is stored. *)
Theorem grok_claims_are_exclusive l :
  reachable l ->
  let db := db_of (ld_conn l) in
  store_sound db
  /\ (forall j j' t t', j ∈ ld_jobs l -> j' ∈ ld_jobs l -> jb_account_id j = jb_account_id j' ->
        worker_live t db j -> worker_live t' db j' -> j = j')
  /\ (forall j j' t t', j ∈ ld_reauth l -> j' ∈ ld_reauth l -> rj_account_id j = rj_account_id j' ->
        reauth_live t db j -> reauth_live t' db j' -> j = j')
  /\ (forall j j' t t', jb_account_id j = rj_account_id j' -> worker_live t db j -> reauth_live t' db j' -> False)
  /\ (forall j t, j ∈ ld_jobs l -> worker_live t db j ->
        exists a, db_accounts db !! jb_account_id j = Some a /\ opens ring a (jb_credential j)).
Proof.
  intros Hl%reachable_ok db. pose proof (lo_store _ Hl) as Hs. split_and!; [done|..].
  - intros j j' t t' Hj Hj' Hid (a & Ha & [Hc _]%owned_claim) (a' & Ha' & [Hc' _]%owned_claim).
    apply (same_by jb_claim_id _ j j' (lo_distinct _ Hl) Hj Hj'). rewrite Hid in Ha. congruence.
  - intros j j' t t' Hj Hj' Hid (a & r & _ & Hr & Hc%reauth_owned_claim) (a' & r' & _ & Hr' & Hc'%reauth_owned_claim).
    apply (same_by rj_claim_id _ j j' (lo_reauth_distinct _ Hl) Hj Hj'). rewrite Hid in Hr. congruence.
  - intros j j' t t' Hid (a & Ha & Ho) (a' & r' & _ & Hr' & _). destruct (owned_settled j t _ a db Hs Ha Ho) as (Hnone & _). congruence.
  - intros j t Hj (a & Ha & [Hc Hrev]%owned_claim). exists a. split; [done|]. destruct (lo_handed _ Hl j a Hj Ha Hc) as [_ (_ & _ & Ho)]. by apply Ho.
Qed.

Lemma refresh_due_bounds account_id expires due :
  deterministic_refresh_due_at sha256 account_id expires = Ok due ->
  0 <= due /\ expires - 8 * 60 * 1000 <= due /\ due <= Z.max 0 (expires - 5 * 60 * 1000).
Proof.
  unfold deterministic_refresh_due_at. destruct (_ || _); [done|]. intros (jitter & Hj & Hd)%result_bind_ok. apply i64_from in Hj as ->.
  injection Hd as <-. set (u := deterministic_u64 _ _ mod _).
  assert (Hu : 0 <= u < REFRESH_JITTER_RANGE_MS) by (apply Z.mod_pos_bound; done).
  unfold REFRESH_JITTER_RANGE_MS, MIN_REFRESH_JITTER_MS in *. unfold i64_min. lia.
Qed.

(** One account got a new credential: it held the one that was handed out, now opens to
    the new one at the next revision, and no worker job handed out for it can complete. *)
Definition swapped (i : string) (was is_now : list Byte.byte) (s s' : Conn GrokDb) (js : list GrokAccountWorkerJob) (P : AccountRow -> Prop) : Prop :=
  exists a a', db_accounts (db_of s) !! i = Some a /\ opens ring a was
    /\ db_accounts (db_of s') = <[i := a']> (db_accounts (db_of s)) /\ opens ring a' is_now /\ ac_revision a' = ac_revision a + 1
    /\ (forall j t, j ∈ js -> jb_account_id j = i -> ~ worker_live t (db_of s') j) /\ P a'.

Lemma refresh_swaps s js rs job credential expires now r s' :
  ledger_ok (mkLedger s js rs) -> job ∈ js ->
  complete_refresh_job sha256 sqlite_fails random ring job credential expires now s = (r, s') ->
  match r with
  | Ok _ => swapped (jb_account_id job) (jb_credential job) (credential_value credential) s s' js (fun a' =>
      exists due, ac_refresh_due a' = Some due /\ expires - 8 * 60 * 1000 <= due <= Z.max 0 (expires - 5 * 60 * 1000))
  | _ => db_of s' = db_of s
  end.
Proof.
  intros Hl Hj Hrun. pose proof (refresh_exact sha256 sqlite_fails random ring job credential expires now (db_of s) s r s' eq_refl Hrun) as Hx.
  destruct r as [u|e|]; [|done..]. destruct Hx as (a & secret & nonce & due & (Ha & Ho & Hc) & _ & _ & Hdue & Hseal & Hdb).
  destruct (owned_claim _ _ _ Ho) as [Hcl Hrev]. destruct (lo_handed _ Hl job a Hj Ha Hcl) as [_ (Hid & _ & Hop)].
  pose proof (refresh_due_bounds _ _ _ Hdue) as (_ & Hb1 & Hb2). unfold swapped. rewrite Hdb.
  eexists a, _. split_and!; [done|by apply Hop|reflexivity|by eapply sealed_opens| | |exists due; split; [done|lia]].
  - rewrite Hrev. reflexivity.
  - intros j t _ Heq (x & Hx & [Hcx _]%owned_claim). revert Hx. unfold row_edit. grok_simpl. rewrite Heq, lookup_insert_eq. by intros [= <-].
Qed.

Lemma reauth_swaps s js rs job credential now r s' :
  ledger_ok (mkLedger s js rs) -> job ∈ rs ->
  complete_reauth_success sqlite_fails random ring job credential now s = (r, s') ->
  match r with
  | Ok _ => swapped (rj_account_id job) (rj_credential job) (credential_value credential) s s' js (fun a' =>
      ac_auth_status a' = "active" /\ validated_expiry (rj_provider job) (credential_value credential) now = Ok (ac_refresh_due a')
      /\ db_reauth (db_of s') = delete (rj_account_id job) (db_reauth (db_of s)))
  | _ => db_of s' = db_of s
  end.
Proof.
  intros Hl Hj Hrun. pose proof (reauth_success_exact sqlite_fails random ring job credential now (db_of s) s r s' eq_refl Hrun) as Hx.
  destruct r as [u|e|]; [|done..]. destruct Hx as (a & q & secret & nonce & due & Ha & Hrev & Hn & Hq & Ho & Hc & Hdue & Hseal & Hdb).
  pose proof (reauth_owned_claim _ _ _ Ho) as Hcl. destruct (lo_reauth_handed _ Hl job q a Hj Hq Hcl Ha) as (Hid & _ & Hop).
  assert (Hfree : ac_claim_id a = None).
  { unfold needs_reauth in Hn. bool_simp. eapply se_claims; [apply (ss_settled _ (lo_store _ Hl))|exact Ha|done]. }
  unfold swapped. rewrite Hdb. eexists a, _. split_and!; [done|by apply Hop|reflexivity|by eapply sealed_opens| | |done|exact Hdue|reflexivity].
  - rewrite Hrev. reflexivity.
  - intros j t _ Heq (x & Hx & [Hcx _]%owned_claim). revert Hx. unfold row_edit. grok_simpl. rewrite Heq, lookup_insert_eq. intros [= <-].
    simpl in Hcx. congruence.
Qed.

(** C20: A completion only ever replaces the credential its job was handed. In every
    reachable ledger, a refresh or reauthentication that succeeds, however late, found
    the credential it was handed and left the new one at the next revision, with every
    worker job of the account stale and every other account as it was. A refreshed account
    is due again 5 to 8 minutes before the new expiry. A reauthenticated account is active
    and out of the queue; its refresh is due only at the expiry itself. An error changes
    nothing. *)
Theorem completion_replaces_what_was_handed s js rs :
  reachable (mkLedger s js rs) ->
  (forall job credential expires now r s',
     job ∈ js -> complete_refresh_job sha256 sqlite_fails random ring job credential expires now s = (r, s') ->
     match r with
     | Ok _ => swapped (jb_account_id job) (jb_credential job) (credential_value credential) s s' js (fun a' =>
         exists due, ac_refresh_due a' = Some due /\ expires - 8 * 60 * 1000 <= due <= Z.max 0 (expires - 5 * 60 * 1000))
     | _ => db_of s' = db_of s
     end)
  /\ (forall job credential now r s',
     job ∈ rs -> complete_reauth_success sqlite_fails random ring job credential now s = (r, s') ->
     match r with
     | Ok _ => swapped (rj_account_id job) (rj_credential job) (credential_value credential) s s' js (fun a' =>
         ac_auth_status a' = "active" /\ validated_expiry (rj_provider job) (credential_value credential) now = Ok (ac_refresh_due a')
         /\ db_reauth (db_of s') = delete (rj_account_id job) (db_reauth (db_of s)))
     | _ => db_of s' = db_of s
     end).
Proof.
  intros Hl%reachable_ok. split.
  - intros job credential expires now r s'. by apply (refresh_swaps s js rs).
  - intros job credential now r s'. by apply (reauth_swaps s js rs).
Qed.

(** ** Due accounts are handed out *)

(** A row that may carry a claim taken at [now]. *)
Definition claimable (now : Z) (a : AccountRow) : Prop :=
  account_check a = true /\ claim_free now a = true /\ ac_created_at a <= now /\ in_u64 (ac_revision a) = true /\ exists plain, opens ring a plain.

Section Healthy.
Hypothesis healthy : forall n, sqlite_fails n = false.

Lemma execute_runs f (s : Conn GrokDb) n db' :
  f (db_of s) = Some (n, db') ->
  sql_execute sqlite_fails WorkerStoreUnavailable f s = (Ok n, mkConn db' (S (calls_of s)) (draws_of s)).
Proof. intros Hf. unfold sql_execute, bind, sql_call. rewrite healthy. simpl. by rewrite Hf. Qed.

Lemma claim_step_runs kind now expires jobs a (s : Conn GrokDb) :
  db_accounts (db_of s) !! ac_id a = Some a -> claimable now a -> 0 <= expires -> random 16 (draws_of s) <> None ->
  exists id job s', claim_step sqlite_fails random ring kind now expires jobs a s = (Ok (jobs ++ [job]), s') /\ jb_account_id job = ac_id a
    /\ db_of s' = set_accounts (<[ac_id a := set_claim kind id expires now a]> (db_accounts (db_of s))) (db_of s)
    /\ draws_of s' = S (draws_of s).
Proof.
  intros Ha (Hc & Hf & Hcr & Hrev & plain & Hop) He Hr. destruct (random 16 (draws_of s)) as [bytes|] eqn:Hb; [|done].
  set (id := "grok-worker-" +:+ encode_lower_hex bytes). assert (Hchk : account_check (set_claim kind id expires now a) = true).
  { apply set_claim_check; [done..|]. apply claim_id_fits. by eapply random_length. }
  destruct (job_of_ok ring kind id a plain Hop Hrev) as [job Hj]. pose proof (job_of_inv _ _ _ _ _ Hj) as (Hid & _).
  exists id, job. eexists. split_and!; [|exact Hid|..].
  - unfold claim_step, random_claim_id, bind, draw, lift, ret. rewrite Hb. cbn [ok_or]. fold id.
    rewrite (execute_runs _ _ 1 (set_accounts (<[ac_id a := set_claim kind id expires now a]> (db_accounts (db_of s))) (db_of s))).
    + cbn [Z.eqb Pos.eqb negb]. rewrite Hj. reflexivity.
    + cbn [db_of]. unfold update_account_stmt. by rewrite Ha, Hf, Hchk.
  - reflexivity.
  - reflexivity.
Qed.

Lemma claim_steps_run kind now expires todo jobs (s : Conn GrokDb) :
  NoDup (ac_id <$> todo) -> (forall a, a ∈ todo -> db_accounts (db_of s) !! ac_id a = Some a /\ claimable now a) -> 0 <= expires ->
  (forall k, (draws_of s <= k < draws_of s + length todo)%nat -> random 16 k <> None) ->
  exists new s', fold_m (claim_step sqlite_fails random ring kind now expires) todo jobs s = (Ok (jobs ++ new), s')
    /\ jb_account_id <$> new = ac_id <$> todo.
Proof.
  revert jobs s. induction todo as [|a todo IH]; intros jobs s Hnd Hrows He Hr; [exists [], s; by rewrite app_nil_r|].
  apply NoDup_cons in Hnd as [Hfresh Hnd]. destruct (Hrows a) as [Ha Hcl]; [left|].
  destruct (claim_step_runs kind now expires jobs a s Ha Hcl He) as (id & job & s1 & Hrun & Hid & Hdb & Hd); [apply Hr; simpl; lia|].
  destruct (IH (jobs ++ [job]) s1 Hnd) as (new & s' & Hfold & Hnew); [|done|intros k Hk; apply Hr; simpl in *; lia|].
  { intros b Hb. rewrite Hdb. grok_simpl. destruct (Hrows b) as [Hrow Hclb]; [by right|]. rewrite lookup_insert_ne; [done|].
    intros Heq. apply Hfresh. rewrite Heq. apply list_elem_of_fmap. eauto. }
  exists (job :: new), s'. split; [|by rewrite !fmap_cons, Hid, Hnew]. cbn [fold_m]. unfold bind. rewrite Hrun, Hfold. by rewrite <- app_assoc.
Qed.
End Healthy.

(** Due work is not lost. In every reachable ledger, when SQLite works, the clock is
    not behind the rows and the system has randomness, a claim hands out a job for
    exactly the accounts that are due, free and enabled, earliest first, up to its
    limit; no undecodable row or credential stops it. *)
Lemma grok_due_accounts_are_claimed s js rs kind now limit lease :
  reachable (mkLedger s js rs) -> (forall n, sqlite_fails n = false) ->
  (forall k, (draws_of s <= k < draws_of s + limit)%nat -> random 16 k <> None) ->
  (forall i a, db_accounts (db_of s) !! i = Some a -> ac_created_at a <= now /\ in_u64 (ac_revision a) = true) ->
  0 <= now -> (0 < limit <= MAX_WORKER_BATCH)%nat -> MIN_CLAIM_LEASE_MS <= lease <= MAX_CLAIM_LEASE_MS -> in_i64 (now + lease) = true ->
  exists jobs s', claim_due_worker_jobs sqlite_fails random ring kind now limit lease s = (Ok jobs, s')
    /\ jb_account_id <$> jobs = ac_id <$> due_rows kind now limit (db_of s).
Proof.
  intros Hl%reachable_ok Hh Hr Hrows Hnow Hlim Hlease Hin. pose proof (lo_store _ Hl) as Hs. simpl in Hs. destruct (ss_ok _ Hs) as [Hok _].
  destruct (due_rows_sound kind now limit (db_of s) Hok) as [Hnd Hdue]. set (todo := due_rows kind now limit (db_of s)) in *.
  assert (Hlen : (length todo <= limit)%nat) by (unfold todo, due_rows; rewrite length_take; lia).
  set (s2 := mkConn (db_of s) (S (S (calls_of s))) (draws_of s)).
  destruct (claim_steps_run Hh kind now (now + lease) todo [] s2) as (jobs & s' & Hfold & Hids); [done| | |intros k Hk; apply Hr; simpl in *; lia|].
  { intros a Ha. destruct (Hdue a Ha) as [Hrow Hd]. destruct (Hrows _ _ Hrow) as [Hcr Hrev]. unfold is_due in Hd. split; [done|].
    apply andb_true_iff in Hd as [_ Hfree]. destruct (go_accounts _ Hok _ _ Hrow) as [_ [Hchk _]%andb_true_iff].
    split_and!; try done. exact (ss_open _ Hs _ _ Hrow). }
  { unfold MIN_CLAIM_LEASE_MS in Hlease. lia. }
  exists jobs. eexists. split; [|exact Hids]. unfold claim_due_worker_jobs.
  assert (Hg : (now <? 0) || (limit =? 0)%nat || (MAX_WORKER_BATCH <? limit)%nat || negb (within MIN_CLAIM_LEASE_MS MAX_CLAIM_LEASE_MS lease) = false).
  { unfold within. rewrite (proj2 (Z.ltb_ge _ _)), (proj2 (Nat.eqb_neq _ _)), (proj2 (Nat.ltb_ge _ _)), (proj2 (Z.leb_le _ _)), (proj2 (Z.leb_le _ _)) by lia.
    done. }
  rewrite Hg. unfold bind at 1, lift, i64_checked_add, i64_try_from. rewrite Hin. cbn [ok_or]. unfold sql_transaction, sql_query, bind, sql_call.
  rewrite !Hh. cbn [db_of calls_of draws_of]. fold todo. fold s2. rewrite Hfold, Hh. reflexivity.
Qed.
End Ledger.

(** ** Witnesses *)

Section Witnesses.
#[local] Existing Instance ex_aead.
#[local] Existing Instance ex_aead_laws.
(** Stand-ins for the importers: a credential is good for an hour. *)
Definition ex_importers : CredentialImporters :=
  {| build_expiry := fun _ now => Some (now + 3600000); web_expiry := fun _ _ => None; console_accepts := fun _ => true |}.
#[local] Existing Instance ex_importers.

Lemma ex_random_fresh j k bytes : ex_random 16 j = Some bytes -> ex_random 16 k = Some bytes -> j = k.
Proof.
  unfold ex_random. destruct (Byte.of_nat j) as [b|] eqn:Hj; [|done]. destruct (Byte.of_nat k) as [b'|] eqn:Hk; [|done].
  intros Hb Hb'. assert (Heq : replicate 16 b = replicate 16 b') by congruence. injection Heq as <-.
  apply Byte.to_of_nat in Hj, Hk. congruence.
Qed.

(** Two imports, then a claim of each kind. *)
Definition ex_imported : Conn GrokDb := (ex_batch "second" ex_second ex_relations ex_accounts).2.
Definition ex_refresh_claim := claim_due_worker_jobs (fun _ => false) ex_random ex_old Refresh 1000 4 60000 ex_imported.
Definition ex_reauth_claim := claim_due_reauth_job (fun _ => false) ex_random ex_old 1000 60000 ex_refresh_claim.2.
Definition ex_ledger : Ledger := mkLedger ex_reauth_claim.2 (jobs_of ex_refresh_claim.1) (reauth_of ex_reauth_claim.1).

Abbreviation ex_reachable := (reachable ex_sha256 (fun _ => false) ex_random ex_old).

Lemma ex_imported_reachable : ex_reachable (mkLedger ex_imported [] []).
Proof.
  eapply reach_step; [|exact (step_import _ _ _ _ "second" ex_second ex_relations 100 ex_accounts _ _ [] [] (surjective_pairing _))].
  eapply reach_step; [apply reach_empty|].
  exact (step_import _ _ _ _ "first" [ex_entry Byte.x01 AuthActive] [] 100 (mkConn empty_grok_db 0 0) _ _ [] [] (surjective_pairing _)).
Qed.

Lemma ex_ledger_reachable : ex_reachable ex_ledger.
Proof.
  eapply reach_step; [|exact (step_reauth_claim _ _ _ _ 1000 60000 ex_refresh_claim.2 _ _ (jobs_of ex_refresh_claim.1) [] (surjective_pairing _))].
  eapply reach_step; [exact ex_imported_reachable|].
  exact (step_claim _ _ _ _ Refresh 1000 4 60000 ex_imported _ _ [] [] (surjective_pairing _)).
Qed.

Definition ex_job : GrokAccountWorkerJob :=
  default (mkJob "" Build Refresh "" 0 [] []) (head (jobs_of ex_refresh_claim.1)).
Definition ex_reauth_job : GrokReauthJob := default (mkReauthJob "" Build "" 0 0 [] []) (head (reauth_of ex_reauth_claim.1)).

Lemma ex_job_issued : ex_job ∈ ld_jobs ex_ledger.
Proof. apply list_elem_of_lookup. exists 0%nat. vm_compute. reflexivity. Qed.
Lemma ex_reauth_job_issued : ex_reauth_job ∈ ld_reauth ex_ledger.
Proof. apply list_elem_of_lookup. exists 0%nat. vm_compute. reflexivity. Qed.

Lemma ex_job_live : worker_live 1000 (db_of (ld_conn ex_ledger)) ex_job.
Proof.
  destruct (db_accounts (db_of (ld_conn ex_ledger)) !! jb_account_id ex_job) as [a|] eqn:Ha; [exists a|].
  - split; [exact Ha|]. assert (Hx : (claim_owned ex_job 1000 <$> db_accounts (db_of (ld_conn ex_ledger)) !! jb_account_id ex_job) = Some true)
      by (vm_compute; reflexivity). rewrite Ha in Hx. by injection Hx.
  - vm_compute in Ha. discriminate Ha.
Qed.

Lemma grok_claims_are_exclusive_witness :
  worker_live 1000 (db_of (ld_conn ex_ledger)) ex_job
  /\ exists a, db_accounts (db_of (ld_conn ex_ledger)) !! jb_account_id ex_job = Some a /\ opens ex_old a (jb_credential ex_job).
Proof.
  split; [exact ex_job_live|].
  destruct (grok_claims_are_exclusive ex_sha256 (fun _ => false) ex_random ex_old ex_random_length ex_random_fresh ex_key_version ex_ledger
    ex_ledger_reachable) as (_ & _ & _ & _ & H). exact (H ex_job 1000 ex_job_issued ex_job_live).
Defined.

Lemma completion_replaces_what_was_handed_witness :
  (exists s', complete_refresh_job ex_sha256 (fun _ => false) ex_random ex_old ex_job (mkGrokCredential [Byte.x6e]) 10000000 2000
      (ld_conn ex_ledger) = (Ok tt, s')
    /\ exists a', db_accounts (db_of s') !! jb_account_id ex_job = Some a' /\ opens ex_old a' [Byte.x6e])
  /\ (exists s', complete_reauth_success (fun _ => false) ex_random ex_old ex_reauth_job (mkGrokCredential [Byte.x6e]) 2000
      (ld_conn ex_ledger) = (Ok tt, s')
    /\ exists a', db_accounts (db_of s') !! rj_account_id ex_reauth_job = Some a' /\ ac_refresh_due a' = Some 3602000).
Proof.
  pose proof (completion_replaces_what_was_handed ex_sha256 (fun _ => false) ex_random ex_old ex_random_length ex_random_fresh ex_key_version
    (ld_conn ex_ledger) (ld_jobs ex_ledger) (ld_reauth ex_ledger) ex_ledger_reachable) as [Hrefresh Hreauth]. split.
  - destruct (complete_refresh_job ex_sha256 (fun _ => false) ex_random ex_old ex_job (mkGrokCredential [Byte.x6e]) 10000000 2000
      (ld_conn ex_ledger)) as [r s'] eqn:E. exists s'. specialize (Hrefresh _ _ _ _ _ _ ex_job_issued E).
    apply (f_equal fst) in E. vm_compute in E. simpl in E. subst r. split; [reflexivity|].
    destruct Hrefresh as (a & a' & _ & _ & Hdb & Ho & _). exists a'. split; [|exact Ho]. rewrite Hdb. apply lookup_insert_eq.
  - destruct (complete_reauth_success (fun _ => false) ex_random ex_old ex_reauth_job (mkGrokCredential [Byte.x6e]) 2000
      (ld_conn ex_ledger)) as [r s'] eqn:E. exists s'. specialize (Hreauth _ _ _ _ _ ex_reauth_job_issued E).
    apply (f_equal fst) in E. vm_compute in E. simpl in E. subst r. split; [reflexivity|].
    destruct Hreauth as (a & a' & _ & _ & Hdb & _ & _ & _ & _ & Hdue & _). exists a'. split; [rewrite Hdb; apply lookup_insert_eq|].
    assert (Hv : validated_expiry (rj_provider ex_reauth_job) [Byte.x6e] 2000 = Ok (Some 3602000)) by (vm_compute; reflexivity).
    cbn [credential_value] in Hdue. rewrite Hv in Hdue. injection Hdue as Hdue. exact (eq_sym Hdue).
Defined.

Lemma forall_rows (f : AccountRow -> bool) db i a : db_accounts db !! i = Some a -> forallb f (rows_of db) = true -> f a = true.
Proof.
  intros Ha Hall. apply (proj1 (forallb_forall _ _) Hall). apply list_elem_of_In, list_elem_of_fmap. exists (i, a).
  split; [done|]. by apply elem_of_map_to_list.
Qed.

Lemma grok_due_accounts_are_claimed_witness :
  exists jobs s', claim_due_worker_jobs (fun _ => false) ex_random ex_old Refresh 1000 4 60000 ex_imported = (Ok jobs, s')
    /\ length jobs = 1%nat.
Proof.
  destruct (grok_due_accounts_are_claimed ex_sha256 (fun _ => false) ex_random ex_old ex_random_length ex_random_fresh ex_key_version
    ex_imported [] [] Refresh 1000 4 60000 ex_imported_reachable (fun _ => eq_refl)) as (jobs & s' & E & H).
  - intros k Hk. assert (Hd : draws_of ex_imported = 4%nat) by (vm_compute; reflexivity). rewrite Hd in Hk.
    assert (k = 4 \/ k = 5 \/ k = 6 \/ k = 7)%nat as [->|[->|[->| ->]]] by lia; vm_compute; discriminate.
  - assert (Hall : forallb (fun a => (ac_created_at a <=? 1000) && in_u64 (ac_revision a)) (rows_of (db_of ex_imported)) = true)
      by (vm_compute; reflexivity).
    intros i a Ha. apply (forall_rows _ _ i a Ha) in Hall. apply andb_true_iff in Hall as [Hc Hu]. split; [by apply Z.leb_le|exact Hu].
  - lia.
  - unfold MAX_WORKER_BATCH. lia.
  - unfold MIN_CLAIM_LEASE_MS, MAX_CLAIM_LEASE_MS. lia.
  - reflexivity.
  - exists jobs, s'. split; [exact E|]. apply (f_equal length) in H. rewrite !length_fmap in H. rewrite H. vm_compute. reflexivity.
Defined.
End Witnesses.
End GrokRuns.
