(* ===== verification/GrokRuntime.v ===== *)
(** * Native Grok accounts: runtime pools

    Models the compiler of [crates/provider-grok/src/account_pool.rs]: from the rows of
    [GrokAccounts] to the credential pools of the scheduler, and the seeding of the
    health and quota registries with what the store knows. How a Build credential is
    read is the interface [BuildCredentials]. *)

From S2P Require Import Prelude Text Octets Core Sharded RuntimeHealth RuntimeQuota WeightedSchedule CredentialPool ClientKey SecretStore ControlPlane StoreRows StoreSchema RouteCompiler CredentialScheduler PoolCompiler SqliteTx GrokAccounts GrokWorker GrokReauth GrokProperties.
Local Open Scope string_scope.
Local Open Scope list_scope.
Local Open Scope Z_scope.

Module Native.
Import Secrets Grok Worker PoolCompile.

#[export] Instance GrokAccountProvider_countable : Countable GrokAccountProvider.
Proof.
  apply (inj_countable' (fun p => match p with Build => 0%nat | Web => 1%nat | Console => 2%nat end)
    (fun n => match n with O => Build | 1%nat => Web | _ => Console end)). by intros [].
Defined.

(** ** Data *)

Record GrokAccountEndpointBinding : Type := mkNativeBinding {
  nb_provider : GrokAccountProvider;
  nb_endpoint_id : EndpointId;
}.

Inductive GrokRuntimeHealthBootstrap : Type :=
| Unauthorized (endpoint_id : EndpointId) (credential_id : CredentialId)
| Cooldown (endpoint_id : EndpointId) (credential_id : CredentialId) (until_ms : Z).

Inductive GrokNativeAccountCompileError : Type :=
| DuplicateBinding
| InvalidObservationTime
| Account (e : GrokAccountPoolError)
| Pool (e : CredentialPoolBuildError).

(** The pools with the initial state of their atomics. *)
Record GrokNativeAccountPoolCompilation : Type := mkCompilation {
  credential_pools : Pools * gmap EndpointId PoolState;
  providers_by_credential : gmap CredentialId GrokAccountProvider;
  health_bootstrap : list GrokRuntimeHealthBootstrap;
  quota_bootstrap : list Quota.QuotaSnapshot;
}.

Definition account_count (c : GrokNativeAccountPoolCompilation) : nat := size (providers_by_credential c).

Definition provider_for_credential (c : GrokNativeAccountPoolCompilation) (credential_id : CredentialId)
  : option GrokAccountProvider := providers_by_credential c !! credential_id.

(** The expiry [import_runtime_json] and [from_persisted_bytes] read. *)
Class BuildCredentials := {
  import_runtime_json : list Byte.byte -> Z -> option Z;
  from_persisted_bytes : list Byte.byte -> option Z;
}.

(** The expiry is an [i64]. *)
Class BuildCredentialLaws `{!BuildCredentials} : Prop := {
  imported_expiry : forall credential at_ms expires, import_runtime_json credential at_ms = Some expires -> i64_ok expires;
  persisted_expiry : forall credential expires, from_persisted_bytes credential = Some expires -> i64_ok expires;
}.

(** ** Accounts *)

Definition add_native_binding (st : gmap GrokAccountProvider EndpointId * gset EndpointId) (b : GrokAccountEndpointBinding)
  : result GrokNativeAccountCompileError (gmap GrokAccountProvider EndpointId * gset EndpointId) :=
  if bool_decide (is_Some (st.1 !! nb_provider b)) || bool_decide (nb_endpoint_id b ∈ st.2) then Err DuplicateBinding
  else Ok (<[nb_provider b := nb_endpoint_id b]> st.1, {[ nb_endpoint_id b ]} ∪ st.2).

Section Compiler.
Context `{!Aead} `{!BuildCredentials} (ring : MasterKeyRing).

Definition build_credential_runtime_state (provider : GrokAccountProvider) (credential : list Byte.byte) (observed_at_ms : Z)
  : option Z * bool :=
  if negb (bool_decide (provider = Build)) then (None, true)
  else match import_runtime_json credential observed_at_ms with
       | Some expires => (Some expires, true)
       | None => match from_persisted_bytes credential with
                 | Some expires => (Some expires, negb (expires <=? observed_at_ms))
                 | None => (None, false)
                 end
       end.

Definition runtime_auth_blocked (provider : GrokAccountProvider) (auth_status : GrokAccountAuthStatus) (build_credential_current : bool)
  : bool :=
  bool_decide (auth_status = ReauthRequired)
  || (bool_decide (provider = Build) && bool_decide (auth_status = AuthActive) && negb build_credential_current).

Definition account_error {A} (r : result GrokAccountPoolError A) : result GrokNativeAccountCompileError A := map_err Account r.

(** What one row contributes. *)
Record NativeAccount : Type := mkNative {
  na_provider : GrokAccountProvider;
  na_endpoint_id : EndpointId;
  na_input : EndpointCredentialInput;
  na_health : option GrokRuntimeHealthBootstrap;
}.

(** The input of a row that is served, and the block or cooldown it starts with. *)
Definition native_input (provider : GrokAccountProvider) (auth_status : GrokAccountAuthStatus) (endpoint_id : EndpointId)
    (observed_at_ms : Z) (a : AccountRow) : result GrokNativeAccountCompileError NativeAccount :=
  let? digest := account_error (digest_of (ac_identity_digest a)) in
  let? key_version := account_error (key_version_of (ac_key_version a)) in
  let? plaintext := account_error (open_persisted_credential ring (mkPersisted provider digest (ac_ciphertext a) key_version)) in
  let? credential_id := account_error (map_err (fun _ => InvalidPersistedState) (id_try_new KCredential (ac_id a))) in
  let? priority := account_error (ok_or InvalidPersistedState (i64_checked_sub 1000 (ac_priority a))) in
  let '(expires_at_ms, build_credential_current) := build_credential_runtime_state provider plaintext observed_at_ms in
  let? secret := map_err Pool (secret_try_new plaintext) in
  let input := mkInput credential_id (Grok.credential_kind provider) (ac_revision a) priority (ac_weight a) (ac_max_concurrency a)
                 expires_at_ms secret in
  let health := if runtime_auth_blocked provider auth_status build_credential_current then Some (Unauthorized endpoint_id credential_id)
                else match ac_cooldown_until a with
                     | Some until_ms => if observed_at_ms <? until_ms then Some (Cooldown endpoint_id credential_id until_ms) else None
                     | None => None
                     end in
  Ok (mkNative provider endpoint_id input health).

Definition native_account (bindings_by_provider : gmap GrokAccountProvider EndpointId) (observed_at_ms : Z) (a : AccountRow)
  : result GrokNativeAccountCompileError (option NativeAccount) :=
  let? provider := account_error (provider_parse (ac_provider a)) in
  let? auth_status := account_error (auth_parse (ac_auth_status a)) in
  let? enabled := account_error (sqlite_bool (ac_enabled a)) in
  if negb enabled || bool_decide (auth_status = AuthDisabled) then Ok None
  else match bindings_by_provider !! provider with
       | None => Ok None
       | Some endpoint_id =>
           let? n := native_input provider auth_status endpoint_id observed_at_ms a in Ok (Some n)
       end.

(** The maps the loop over the rows fills. *)
Record NativeState : Type := mkNativeState {
  inputs_by_endpoint : gmap EndpointId (list EndpointCredentialInput);
  ns_providers : gmap CredentialId GrokAccountProvider;
  runtime_bindings_by_account : gmap string (EndpointId * CredentialId);
  ns_health : list GrokRuntimeHealthBootstrap;
}.

Definition push_native (a : AccountRow) (n : NativeAccount) (st : NativeState) : NativeState :=
  let c := in_credential_id (na_input n) in
  mkNativeState (push_entry (na_endpoint_id n) (na_input n) (inputs_by_endpoint st)) (<[c := na_provider n]> (ns_providers st))
    (<[ac_id a := (na_endpoint_id n, c)]> (runtime_bindings_by_account st))
    (ns_health st ++ match na_health n with Some h => [h] | None => [] end).

Definition add_account (bindings_by_provider : gmap GrokAccountProvider EndpointId) (observed_at_ms : Z) (st : NativeState) (a : AccountRow)
  : result GrokNativeAccountCompileError NativeState :=
  let? native := native_account bindings_by_provider observed_at_ms a in
  match native with
  | None => Ok st
  | Some n =>
      if bool_decide (is_Some (ns_providers st !! in_credential_id (na_input n))) then Err (Account InvalidPersistedState)
      else Ok (push_native a n st)
  end.

Definition load_native_runtime_rows (db : GrokDb) : list AccountRow := sort_by listing_leb (rows_of db).

(** ** Quota *)

Definition parse_quota_source (value : string) : result GrokAccountPoolError Quota.QuotaSource :=
  if bool_decide (value = "billing") then Ok Quota.SrcBilling
  else if bool_decide (value = "rest") then Ok Quota.SrcRest
  else if bool_decide (value = "grpc") then Ok Quota.SrcGrpc
  else if bool_decide (value = "estimated") then Ok Quota.SrcEstimated
  else Err InvalidPersistedState.

Definition parse_quota_confidence (value : string) : result GrokAccountPoolError Quota.QuotaConfidence :=
  if bool_decide (value = "authoritative") then Ok Quota.ConfAuthoritative
  else if bool_decide (value = "observed") then Ok Quota.ConfObserved
  else if bool_decide (value = "estimated") then Ok Quota.ConfEstimated
  else Err InvalidPersistedState.

Definition optional_i64_to_u64 (value : option Z) : result GrokAccountPoolError (option Z) :=
  match value with
  | None => Ok None
  | Some v => let? v := ok_or InvalidPersistedState (u64_try_from v) in Ok (Some v)
  end.

Record QuotaBootstrapGroup : Type := mkGroup {
  gr_source : Quota.QuotaSource;
  gr_confidence : Quota.QuotaConfidence;
  gr_observed_at_ms : Z;
  gr_windows : list Quota.QuotaWindow;
}.

(** [ORDER BY account_id, scope_kind, model_label, window_label]. *)
Fixpoint columns_leb (x y : list string) : bool :=
  match x, y with
  | a :: x, b :: y => if bool_decide (a = b) then columns_leb x y else String.leb a b
  | _, _ => true
  end.
Definition quota_row_leb (x y : QuotaWindowRow) : bool :=
  columns_leb [qw_account_id x; qw_scope_kind x; qw_model_label x; qw_window_label x]
    [qw_account_id y; qw_scope_kind y; qw_model_label y; qw_window_label y].

Definition quota_rows (db : GrokDb) : list QuotaWindowRow := sort_by quota_row_leb (map_to_list (db_quota db)).*2.

(** The derived order of [RuntimeQuotaTarget]. *)
Definition target_columns (t : Quota.RuntimeQuotaTarget) : list string :=
  match t with
  | Quota.EndpointCredential e c => ["0"; as_str e; as_str c]
  | Quota.EndpointCredentialModel e c model => ["1"; as_str e; as_str c; model]
  end.
Definition target_leb (x y : Quota.RuntimeQuotaTarget) : bool := columns_leb (target_columns x) (target_columns y).

Definition quota_target (binding : EndpointId * CredentialId) (q : QuotaWindowRow) : result GrokAccountPoolError Quota.RuntimeQuotaTarget :=
  if bool_decide (qw_scope_kind q = "account") && bool_decide (qw_model_label q = "") then Ok (Quota.EndpointCredential binding.1 binding.2)
  else if bool_decide (qw_scope_kind q = "model") && negb (bool_decide (qw_model_label q = ""))
  then map_err (fun _ => InvalidPersistedState) (Quota.endpoint_credential_model binding.1 binding.2 (qw_model_label q))
  else Err InvalidPersistedState.

Definition add_quota_row (runtime_bindings : gmap string (EndpointId * CredentialId))
    (groups : gmap Quota.RuntimeQuotaTarget QuotaBootstrapGroup) (q : QuotaWindowRow)
  : result GrokAccountPoolError (gmap Quota.RuntimeQuotaTarget QuotaBootstrapGroup) :=
  match runtime_bindings !! qw_account_id q with
  | None => Ok groups
  | Some binding =>
      let? target := quota_target binding q in
      let? source := parse_quota_source (qw_source q) in
      let? confidence := parse_quota_confidence (qw_confidence q) in
      let? limit := optional_i64_to_u64 (qw_limit q) in
      let? remaining := optional_i64_to_u64 (qw_remaining q) in
      let? window := map_err (fun _ => InvalidPersistedState)
                       (Quota.window_try_new (qw_window_label q) limit remaining (qw_reset_at q)) in
      let group := default (mkGroup source confidence (qw_observed_at q) []) (groups !! target) in
      if negb (bool_decide (gr_source group = source)) || negb (bool_decide (gr_confidence group = confidence))
         || negb (gr_observed_at_ms group =? qw_observed_at q)
      then Err InvalidPersistedState
      else Ok (<[target := mkGroup (gr_source group) (gr_confidence group) (gr_observed_at_ms group) (gr_windows group ++ [window])]> groups)
  end.

Definition add_snapshot (snapshots : list Quota.QuotaSnapshot) (entry : Quota.RuntimeQuotaTarget * QuotaBootstrapGroup)
  : result GrokAccountPoolError (list Quota.QuotaSnapshot) :=
  let? snapshot := map_err (fun _ => InvalidPersistedState)
                     (Quota.snapshot_try_new entry.1 (gr_windows entry.2) (gr_source entry.2) (gr_confidence entry.2)
                        (gr_observed_at_ms entry.2)) in
  Ok (snapshots ++ [snapshot]).

Definition load_quota_bootstrap (rows : list QuotaWindowRow) (runtime_bindings : gmap string (EndpointId * CredentialId))
  : result GrokAccountPoolError (list Quota.QuotaSnapshot) :=
  let? groups := try_fold (add_quota_row runtime_bindings) rows ∅ in
  try_fold add_snapshot (sort_by (fun a b => target_leb a.1 b.1) (map_to_list groups)) [].

(** ** The compiler *)

Definition add_native_pool (pools : list (EndpointCredentialPool * PoolState)) (entry : EndpointId * list EndpointCredentialInput)
  : result GrokNativeAccountCompileError (list (EndpointCredentialPool * PoolState)) :=
  let? pool := map_err Pool (pool_try_new entry.1 entry.2) in Ok (pools ++ [pool]).

Definition build_pools (inputs : gmap EndpointId (list EndpointCredentialInput))
  : result GrokNativeAccountCompileError (Pools * gmap EndpointId PoolState) :=
  let? pools := try_fold add_native_pool (id_entries inputs) [] in
  let? indexed := map_err Pool (pools_try_new (fst <$> pools) ∅) in
  Ok (indexed, list_to_map ((fun p => (pool_endpoint_id p.1, p.2)) <$> pools)).

Definition empty_native : NativeState := mkNativeState ∅ ∅ ∅ [].

Definition compile_native_runtime (sqlite_fails : nat -> bool) (bindings : list GrokAccountEndpointBinding) (observed_at_ms : Z)
  : M (Conn GrokDb) GrokNativeAccountCompileError GrokNativeAccountPoolCompilation :=
  if observed_at_ms <? 0 then raise InvalidObservationTime
  else
    let! bound := lift (try_fold add_native_binding bindings (∅, ∅)) in
    let! rows := sql_query sqlite_fails (Account StoreUnavailable) load_native_runtime_rows in
    let! st := lift (try_fold (add_account bound.1 observed_at_ms) rows empty_native) in
    let! quota := sql_query sqlite_fails (Account StoreUnavailable) quota_rows in
    let! snapshots := lift (account_error (load_quota_bootstrap quota (runtime_bindings_by_account st))) in
    let! pools := lift (build_pools (inputs_by_endpoint st)) in
    ret (mkCompilation pools (ns_providers st) (ns_health st) snapshots).
End Compiler.

(** ** Seeding *)

Section Seeding.
Context `{!ShardHash RuntimeHealthKey} `{!ShardHash Quota.RuntimeQuotaTarget}.

(** A cooldown that has ended meanwhile is skipped. *)
Definition seed_one (b : GrokRuntimeHealthBootstrap) (clk : ClockReading) : HealthM unit :=
  match b with
  | Unauthorized e c => mark_credential_unauthorized e c clk
  | Cooldown e c until_ms => fun reg =>
      match cool_down_until (HEndpointCredential e c) until_ms clk reg with
      | (Err DeadlineNotInFuture, reg') => (Ok tt, reg')
      | x => x
      end
  end.

(** [clock k] is the reading of the [k]-th registry call. *)
Fixpoint seed_runtime_health (clock : nat -> ClockReading) (k : nat) (l : list GrokRuntimeHealthBootstrap) : HealthM unit :=
  match l with
  | [] => ret tt
  | b :: rest => seed_one b (clock k) ;;; seed_runtime_health clock (S k) rest
  end.

Fixpoint seed_runtime_quota (clock : nat -> ClockReading) (k : nat) (l : list Quota.QuotaSnapshot)
  : M (Registry Quota.RuntimeQuotaTarget Quota.RuntimeQuotaState Z) Quota.RuntimeQuotaError unit :=
  match l with
  | [] => ret tt
  | snapshot :: rest => Quota.record_snapshot snapshot (clock k) ;;; seed_runtime_quota clock (S k) rest
  end.
End Seeding.

(** ** What the compiler accepts and returns *)

Section Exact.
Context `{!Aead} `{!BuildCredentials} (ring : MasterKeyRing) (bindings : list GrokAccountEndpointBinding) (observed_at_ms : Z).

Abbreviation bound_endpoints := (fold_left (fun m b => <[nb_provider b := nb_endpoint_id b]> m) bindings (∅ : gmap GrokAccountProvider EndpointId)).

(** Enabled, not disabled, and of a provider with an Endpoint. *)
Definition is_served (a : AccountRow) : bool :=
  (ac_enabled a =? 1) && negb (bool_decide (ac_auth_status a = "disabled"))
  && existsb (fun b => bool_decide (provider_as_str (nb_provider b) = ac_provider a)) bindings.

(** Only a Build credential carries an expiry: that of the token to import, or else
    that of the persisted one. *)
Definition expiry_of (p : GrokAccountProvider) (plaintext : list Byte.byte) : option Z :=
  match p with
  | Build => match import_runtime_json plaintext observed_at_ms with
             | Some expires => Some expires
             | None => from_persisted_bytes plaintext
             end
  | Web | Console => None
  end.

(** A Build credential that cannot be imported, and is not persisted with an expiry
    after the observation. *)
Definition outdated (plaintext : list Byte.byte) : Prop :=
  import_runtime_json plaintext observed_at_ms = None
  /\ forall expires, from_persisted_bytes plaintext = Some expires -> expires <= observed_at_ms.

(** Reauthentication is required, or an active Build credential is outdated. *)
Definition starts_blocked (p : GrokAccountProvider) (a : AccountRow) (plaintext : list Byte.byte) : Prop :=
  ac_auth_status a = "reauth_required" \/ (p = Build /\ ac_auth_status a = "active" /\ outdated plaintext).

(** The runtime account of a row: the opened credential under the row's own
    identifier, revision, limits and inverted priority. *)
Record describes_native (a : AccountRow) (n : NativeAccount) : Prop := {
  dn_provider : ac_provider a = provider_as_str (na_provider n);
  dn_bound : mkNativeBinding (na_provider n) (na_endpoint_id n) ∈ bindings;
  dn_content : exists plaintext, opens ring a plaintext /\ plaintext <> []
    /\ na_input n = mkInput (mkId (ac_id a)) (Grok.credential_kind (na_provider n)) (ac_revision a) (1000 - ac_priority a) (ac_weight a)
                      (ac_max_concurrency a) (expiry_of (na_provider n) plaintext) (mkSecret plaintext)
    /\ forall h, na_health n = Some h <->
         (starts_blocked (na_provider n) a plaintext /\ h = Unauthorized (na_endpoint_id n) (mkId (ac_id a)))
         \/ (~ starts_blocked (na_provider n) a plaintext
            /\ exists t, ac_cooldown_until a = Some t /\ observed_at_ms < t /\ h = Cooldown (na_endpoint_id n) (mkId (ac_id a)) t);
}.

Definition inputs_at (natives : list NativeAccount) (e : EndpointId) : list EndpointCredentialInput :=
  na_input <$> filter (fun n => na_endpoint_id n = e) natives.

Definition runtime_bindings_of (l : list (AccountRow * NativeAccount)) : gmap string (EndpointId * CredentialId) :=
  list_to_map ((fun x => (ac_id x.1, (na_endpoint_id x.2, in_credential_id (na_input x.2)))) <$> l).

(** A compilation [c] of a database: the served rows in listing order and what they
    become, one pool per Endpoint that has any, and the state to seed. *)
Record compiles (db : GrokDb) (l : list (AccountRow * NativeAccount)) (c : GrokNativeAccountPoolCompilation) : Prop := {
  nc_rows : l.*1 = List.filter is_served (load_native_runtime_rows db);
  nc_accounts : Forall (fun x => describes_native x.1 x.2) l;
  nc_valid : forall e, inputs_at l.*2 e <> [] -> inputs_ok (inputs_at l.*2 e);
  nc_pools : forall e, match inputs_at l.*2 e with
                       | [] => (credential_pools c).1 !! e = None /\ (credential_pools c).2 !! e = None
                       | inputs => exists pool st, (credential_pools c).1 !! e = Some pool /\ (credential_pools c).2 !! e = Some st
                                     /\ built_from e inputs pool st
                       end;
  nc_providers : providers_by_credential c = list_to_map ((fun n => (in_credential_id (na_input n), na_provider n)) <$> l.*2);
  nc_health : health_bootstrap c = omap na_health l.*2;
  nc_quota : load_quota_bootstrap (quota_rows db) (runtime_bindings_of l) = Ok (quota_bootstrap c);
}.

Definition compilable (db : GrokDb) : Prop :=
  0 <= observed_at_ms /\ NoDup (nb_provider <$> bindings) /\ NoDup (nb_endpoint_id <$> bindings) /\ exists l c, compiles db l c.

(** *** Bindings *)

Lemma bindings_decide_native :
  decides (try_fold add_native_binding bindings (∅, ∅)) (NoDup (nb_provider <$> bindings) /\ NoDup (nb_endpoint_id <$> bindings))
    (fun r => r.1 = bound_endpoints).
Proof.
  set (endpoints := fun l => fold_left (fun m b => <[nb_provider b := nb_endpoint_id b]> m) l (∅ : gmap GrokAccountProvider EndpointId)).
  assert (Hdom : forall l p, is_Some (endpoints l !! p) <-> p ∈ nb_provider <$> l).
  { induction l as [|b l IH] using rev_ind; intros p; unfold endpoints; simpl; [rewrite lookup_empty; split; [by intros []|by intros ?%elem_of_nil]|].
    rewrite fold_left_app. simpl. fold (endpoints l). rewrite lookup_insert_is_Some, IH, fmap_app, elem_of_app. simpl.
    rewrite list_elem_of_singleton. destruct (decide (nb_provider b = p)); naive_solver. }
  change (∅, ∅) with (endpoints [], (list_to_set (nb_endpoint_id <$> []) : gset EndpointId)). eapply decides_weaken.
  - apply (try_fold_decides add_native_binding (fun pre b => (nb_provider b ∉ nb_provider <$> pre) /\ (nb_endpoint_id b ∉ nb_endpoint_id <$> pre))
      (fun l => (endpoints l, list_to_set (nb_endpoint_id <$> l))) bindings). intros pre b post _ _. unfold add_native_binding. simpl.
    destruct (_ || _) eqn:Hb; simpl.
    + intros [Hp He]. apply orb_true_iff in Hb as [Hb|Hb]; apply bool_decide_eq_true in Hb; [by apply Hp, Hdom|].
      by apply elem_of_list_to_set in Hb.
    + bool_simp. rewrite Hdom in *. rewrite elem_of_list_to_set in *. split; [done|]. f_equal.
      * unfold endpoints. by rewrite fold_left_app.
      * rewrite fmap_app, list_to_set_app_L. simpl. set_solver.
  - rewrite each_row_and, !each_row_nodup. done.
  - by intros r _ ->.
Qed.

Lemma bound_lookup p e :
  NoDup (nb_provider <$> bindings) -> bound_endpoints !! p = Some e <-> mkNativeBinding p e ∈ bindings.
Proof.
  induction bindings as [|b l IH] using rev_ind; intros Hnd; [simpl; rewrite lookup_empty; split; [done|by intros ?%elem_of_nil]|].
  rewrite fmap_app, NoDup_app in Hnd. destruct Hnd as (Hl & Hb & _). rewrite fold_left_app, elem_of_app, list_elem_of_singleton. simpl.
  rewrite lookup_insert_Some, IH by done. split.
  - intros [[<- <-]|[_ Hin]]; [right; by destruct b|by left].
  - intros [Hin|<-]; [right|by left]. split; [|done]. intros Heq. apply (Hb p); [|simpl; set_solver].
    apply list_elem_of_fmap. by exists (mkNativeBinding p e).
Qed.

(** *** Rows *)

(** A row as the store keeps it. *)
Record row_readable (a : AccountRow) : Prop := {
  rr_check : account_check a = true;
  rr_opens : exists plaintext, opens ring a plaintext;
  rr_revision : i64_ok (ac_revision a);
}.

Lemma opens_unique a x y : opens ring a x -> opens ring a y -> x = y.
Proof. intros (p & Hp & Hx) (q & Hq & Hy). congruence. Qed.

Lemma checked_id a : account_check a = true -> ac_id a <> "".
Proof. unfold account_check, opaque_fits. intros Hc He. bool_simp. by rewrite He in *. Qed.

Lemma runtime_state_spec p plaintext :
  (build_credential_runtime_state p plaintext observed_at_ms).1 = expiry_of p plaintext
  /\ (p = Build -> (build_credential_runtime_state p plaintext observed_at_ms).2 = false <-> outdated plaintext).
Proof.
  unfold build_credential_runtime_state, expiry_of, outdated. destruct p; simpl; try done.
  destruct (import_runtime_json plaintext observed_at_ms) as [e|]; simpl; [naive_solver|].
  destruct (from_persisted_bytes plaintext) as [e|]; simpl; [|naive_solver]. split; [done|]. intros _.
  rewrite negb_false_iff, Z.leb_le. naive_solver.
Qed.

Lemma starting_health p status a plaintext e c h :
  auth_parse (ac_auth_status a) = Ok status ->
  (if runtime_auth_blocked p status (build_credential_runtime_state p plaintext observed_at_ms).2 then Some (Unauthorized e c)
   else match ac_cooldown_until a with
        | Some t => if observed_at_ms <? t then Some (Cooldown e c t) else None
        | None => None
        end) = Some h <->
  (starts_blocked p a plaintext /\ h = Unauthorized e c)
  \/ (~ starts_blocked p a plaintext /\ exists t, ac_cooldown_until a = Some t /\ observed_at_ms < t /\ h = Cooldown e c t).
Proof.
  intros Hst%auth_parse_inv. set (current := snd _).
  assert (Hb : runtime_auth_blocked p status current = true <-> starts_blocked p a plaintext).
  { pose proof (proj2 (runtime_state_spec p plaintext)) as Hcur. fold current in Hcur. unfold runtime_auth_blocked, starts_blocked.
    rewrite Hst. destruct p; [specialize (Hcur eq_refl)|..]; destruct status, current; simpl; naive_solver. }
  destruct (runtime_auth_blocked _ _ _).
  - naive_solver.
  - assert (Hn : ~ starts_blocked p a plaintext) by (by rewrite <- Hb). destruct (ac_cooldown_until a) as [t|]; [|naive_solver].
    destruct (Z.ltb_spec observed_at_ms t); naive_solver lia.
Qed.

Lemma served_bound a p :
  ac_provider a = provider_as_str p ->
  existsb (fun b => bool_decide (provider_as_str (nb_provider b) = ac_provider a)) bindings = true
  <-> exists e, mkNativeBinding p e ∈ bindings.
Proof.
  intros Hp. rewrite existsb_exists. split.
  - intros ([q e] & Hin%list_elem_of_In & Hq%bool_decide_eq_true). simpl in Hq. exists e. rewrite Hp in Hq.
    apply (f_equal provider_parse) in Hq. rewrite !provider_parse_as_str in Hq. by injection Hq as ->.
  - intros [e Hin]. exists (mkNativeBinding p e). split; [by apply list_elem_of_In|]. by apply bool_decide_eq_true.
Qed.

Lemma checked_columns a :
  account_check a = true -> (exists status, auth_parse (ac_auth_status a) = Ok status)
    /\ sqlite_bool (ac_enabled a) = Ok (ac_enabled a =? 1) /\ -1000 <= ac_priority a <= 1000 /\ 1 <= ac_weight a <= 10000
    /\ 1 <= ac_max_concurrency a <= 10000 /\ 0 <= ac_revision a.
Proof.
  unfold account_check, within. intros Hc. bool_simp. split_and!; try lia.
  - unfold is_in in *. bool_simp. unfold auth_parse. repeat case_bool_decide; eauto. set_solver.
  - unfold sqlite_bool. destruct (Z.eqb_spec (ac_enabled a) 0) as [->|]; [done|]. destruct (Z.eqb_spec (ac_enabled a) 1); [done|lia].
Qed.

(** The row of an account that is served becomes its runtime account, unless its
    credential is empty. *)
Lemma native_input_decides a p status e :
  row_readable a -> ac_provider a = provider_as_str p -> auth_parse (ac_auth_status a) = Ok status -> mkNativeBinding p e ∈ bindings ->
  decides (native_input ring p status e observed_at_ms a) (exists plaintext, opens ring a plaintext /\ plaintext <> [])
    (fun n => na_provider n = p /\ na_endpoint_id n = e /\ describes_native a n).
Proof.
  intros [Hc (plain & Ho) Hrev] Hp Hst Hin. pose proof Ho as (persisted & Hd & Hopen). unfold decode_persisted in Hd.
  rewrite Hp, provider_parse_as_str in Hd. simpl in Hd. apply result_bind_ok in Hd as (d & Hd & Hk). apply result_bind_ok in Hk as (kv & Hk & [= <-]).
  destruct (checked_columns a Hc) as (_ & _ & Hprio & _). pose proof (starting_health p status a plain e (mkId (ac_id a))) as Hh.
  unfold native_input. rewrite Hd. simpl. rewrite Hk. simpl. rewrite Hopen. simpl. unfold id_try_new.
  rewrite bool_decide_false by (by apply checked_id). simpl. unfold i64_checked_sub, i64_try_from.
  replace (in_i64 (1000 - ac_priority a)) with true by (symmetry; unfold in_i64, i64_min, i64_max; apply andb_true_iff; rewrite !Z.leb_le; lia).
  simpl. pose proof (proj1 (runtime_state_spec p plain)) as Hexp.
  destruct (build_credential_runtime_state p plain observed_at_ms) as [expires current] eqn:Hb. simpl in Hexp. destruct plain as [|x plain]; simpl.
  - intros (y & Hy & Hne). by apply Hne, (opens_unique a).
  - split; [by eexists|]. split_and!; [done..|]. split; simpl; [done..|]. exists (x :: plain). rewrite <- Hexp. split_and!; try done. intros h. by apply Hh.
Qed.

Lemma native_account_decides a :
  NoDup (nb_provider <$> bindings) -> row_readable a ->
  decides (native_account ring bound_endpoints observed_at_ms a) (is_served a = true -> exists n, describes_native a n)
    (fun r => match r with None => is_served a = false | Some n => is_served a = true /\ describes_native a n end).
Proof.
  intros Hnd Hr. pose proof Hr as [Hc (plain & persisted & Hd & _) _]. destruct (checked_columns a Hc) as ((status & Hst) & He & _).
  unfold decode_persisted in Hd. apply result_bind_ok in Hd as (p & Hp & _). unfold native_account.
  rewrite Hp, Hst, He. cbn [account_error map_err result_bind]. apply provider_parse_inv in Hp.
  assert (Hdis : bool_decide (status = AuthDisabled) = bool_decide (ac_auth_status a = "disabled")).
  { rewrite (auth_parse_inv _ _ Hst). by destruct status. }
  rewrite Hdis. unfold is_served. destruct (ac_enabled a =? 1); simpl; [|done]. destruct (bool_decide (ac_auth_status a = "disabled")); simpl; [done|].
  destruct (bound_endpoints !! p) as [e|] eqn:Hb.
  - apply bound_lookup in Hb; [|done]. pose proof (native_input_decides a p status e Hr Hp Hst Hb) as Hn.
    assert (Hs : existsb (fun b => bool_decide (provider_as_str (nb_provider b) = ac_provider a)) bindings = true)
      by (apply (served_bound a p Hp); eauto).
    destruct (native_input _ _ _ _ _ _) as [n|x|]; simpl in *; [| |done].
    + destruct Hn as (_ & _ & _ & Hn). split; [|done]. by exists n.
    + intros Hall. apply Hn. destruct (Hall Hs) as (n & [_ _ (y & Hy & Hne & _)]). by exists y.
  - assert (Hs : existsb (fun b => bool_decide (provider_as_str (nb_provider b) = ac_provider a)) bindings = false).
    { apply not_true_is_false. intros [e Hin]%(served_bound a p Hp). apply bound_lookup in Hin; congruence. }
    simpl. by rewrite Hs.
Qed.

Definition push_all_native (l : list (AccountRow * NativeAccount)) : NativeState :=
  fold_left (fun st x => push_native x.1 x.2 st) l empty_native.

Lemma pushed_inputs l e :
  inputs_by_endpoint (push_all_native l) !! e = match inputs_at l.*2 e with [] => None | inputs => Some inputs end.
Proof.
  unfold inputs_at. induction l as [|[a n] l IH] using rev_ind; [done|]. unfold push_all_native. rewrite fold_left_app. simpl.
  fold (push_all_native l). rewrite fmap_app, filter_app, fmap_app. unfold push_entry. destruct (decide (na_endpoint_id n = e)) as [<-|Hne].
  - rewrite lookup_insert_eq, IH. simpl. rewrite filter_cons_True by done. simpl. by destruct (na_input <$> _).
  - rewrite lookup_insert_ne, IH by done. simpl. rewrite filter_cons_False by done. by rewrite app_nil_r.
Qed.

Lemma pushed_health l : ns_health (push_all_native l) = omap na_health l.*2.
Proof.
  induction l as [|[a n] l IH] using rev_ind; [done|]. unfold push_all_native. rewrite fold_left_app. simpl. fold (push_all_native l).
  rewrite IH, fmap_app, omap_app. simpl. by destruct (na_health n).
Qed.

(** Insertions with distinct keys, as a map. *)
Lemma fold_insert_map {A K V} `{Countable K} (key : A -> K) (value : A -> V) (l : list A) :
  NoDup (key <$> l) -> fold_left (fun m x => <[key x := value x]> m) l ∅ = (list_to_map ((fun x => (key x, value x)) <$> l) : gmap K V).
Proof.
  induction l as [|x l IH] using rev_ind; intros Hnd; [done|]. rewrite fmap_app, NoDup_app in Hnd. destruct Hnd as (Hl & Hx & _).
  rewrite fold_left_app, fmap_app, IH by done. simpl. rewrite list_to_map_snoc; [done|]. rewrite <- list_fmap_compose. intros Hin.
  apply (Hx (key x)); [exact Hin|]. set_solver.
Qed.

Lemma pushed_providers l :
  NoDup ((fun x => in_credential_id (na_input x.2)) <$> l) ->
  ns_providers (push_all_native l) = list_to_map ((fun n => (in_credential_id (na_input n), na_provider n)) <$> l.*2).
Proof.
  intros Hnd. rewrite <- list_fmap_compose. rewrite <- (fold_insert_map _ (fun x => na_provider x.2) l Hnd). clear Hnd.
  induction l as [|x l IH] using rev_ind; [done|]. unfold push_all_native. rewrite !fold_left_app. simpl. fold (push_all_native l). by rewrite IH.
Qed.

Lemma pushed_accounts l : NoDup ((fun x => ac_id x.1) <$> l) -> runtime_bindings_by_account (push_all_native l) = runtime_bindings_of l.
Proof.
  intros Hnd. unfold runtime_bindings_of. rewrite <- (fold_insert_map _ (fun x => (na_endpoint_id x.2, in_credential_id (na_input x.2))) l Hnd).
  clear Hnd. induction l as [|x l IH] using rev_ind; [done|]. unfold push_all_native. rewrite !fold_left_app. simpl. fold (push_all_native l).
  by rewrite IH.
Qed.

Lemma described_id a n : describes_native a n -> in_credential_id (na_input n) = mkId (ac_id a).
Proof. intros [_ _ (plain & _ & _ & -> & _)]. done. Qed.

Lemma described_ids l : Forall (fun x => describes_native x.1 x.2) l ->
  (fun x => in_credential_id (na_input x.2)) <$> l = mkId <$> (ac_id <$> l.*1).
Proof. induction 1 as [|x l Hx _ IH]; [done|]. rewrite !fmap_cons, IH. f_equal. by apply described_id. Qed.

Lemma mkId_nodup {k} (l : list string) : NoDup l -> NoDup (@mkId k <$> l).
Proof. assert (Inj (=) (=) (@mkId k)) by (by intros x y [= ->]). by apply NoDup_fmap_2. Qed.

Lemma describes_unique a n n' :
  NoDup (nb_provider <$> bindings) -> describes_native a n -> describes_native a n' -> n = n'.
Proof.
  intros Hnd [Hp Hb (x & Hx & _ & Hi & Hh)] [Hp' Hb' (y & Hy & _ & Hi' & Hh')]. apply (opens_unique a x) in Hy as <-; [|done].
  rewrite Hp in Hp'. apply (f_equal provider_parse) in Hp'. rewrite !provider_parse_as_str in Hp'. injection Hp' as Hpp.
  destruct n as [p e i h], n' as [p' e' i' h']; simpl in *. subst p'. apply bound_lookup in Hb, Hb'; [|done..].
  assert (e' = e) as -> by congruence. f_equal; [congruence|]. apply option_eq. intros z. by rewrite Hh, Hh'.
Qed.

Lemma accounts_decide rows acc :
  NoDup (nb_provider <$> bindings) -> NoDup ((ac_id <$> acc.*1) ++ (ac_id <$> rows)) ->
  Forall (fun x => describes_native x.1 x.2) acc -> Forall row_readable rows ->
  decides (try_fold (add_account ring bound_endpoints observed_at_ms) rows (push_all_native acc))
    (Forall (fun a => is_served a = true -> exists n, describes_native a n) rows)
    (fun st => exists l, l.*1 = List.filter is_served rows /\ Forall (fun x => describes_native x.1 x.2) l /\ st = push_all_native (acc ++ l)).
Proof.
  intros Hb. revert acc. induction rows as [|a rows IH]; intros acc Hnd Hacc Hr.
  { split; [constructor|]. exists []. by rewrite app_nil_r. }
  apply Forall_cons in Hr as [Ha Hr]. simpl. unfold add_account at 1. pose proof (native_account_decides a Hb Ha) as Hd.
  destruct (native_account _ _ _ a) as [[n|]|e|]; simpl in *; [| |by intros [? _]%Forall_cons|done].
  - destruct Hd as (_ & Hs & Hn). rewrite (described_id a n Hn). rewrite bool_decide_false.
    + simpl. assert (Hpush : push_native a n (push_all_native acc) = push_all_native (acc ++ [(a, n)]))
        by (unfold push_all_native; by rewrite fold_left_app).
      rewrite Hpush, Hs. eapply decides_weaken; [apply (IH (acc ++ [(a, n)]))|..].
      * rewrite !fmap_app. simpl. by rewrite <- app_assoc.
      * apply Forall_app. split; [done|]. by apply Forall_singleton.
      * done.
      * rewrite Forall_cons. split; [intros Hall; split; [by exists n|done]|tauto].
      * intros st _ (l & Hl & Hdl & ->). exists ((a, n) :: l). rewrite fmap_cons, Hl, <- app_assoc. split_and!; [done|by constructor|done].
    + rewrite pushed_providers by (rewrite described_ids by done; apply mkId_nodup; by apply NoDup_app in Hnd as (? & _)).
      intros (v & Hv%elem_of_list_to_map_2). apply list_elem_of_fmap in Hv as (n' & [= Hid _] & Hin).
      apply list_elem_of_fmap in Hin as ([a' n''] & -> & Hin). simpl in Hid. rewrite Forall_forall in Hacc.
      rewrite (described_id a' n'' (Hacc _ Hin)) in Hid. injection Hid as Hid. apply NoDup_app in Hnd as (_ & Hnd & _). apply (Hnd (ac_id a)).
      * rewrite Hid. apply list_elem_of_fmap. exists a'. split; [done|]. apply list_elem_of_fmap. by exists (a', n'').
      * constructor.
  - destruct Hd as [_ Hs]. rewrite Hs. eapply decides_weaken; [apply (IH acc)|..]; try done.
    + apply NoDup_app in Hnd as (H1 & H2 & [_ H3]%NoDup_cons). apply NoDup_app. split_and!; try done. intros x Hx Hin. apply (H2 x Hx). by constructor.
    + rewrite Forall_cons. split; [intros Hall; split; [congruence|done]|tauto].
Qed.

(** *** Quota and pools *)

Lemma map_err_no_panic {E F A} (f : E -> F) (r : result E A) : r <> Panic -> map_err f r <> Panic.
Proof. by destruct r. Qed.

Lemma optional_no_panic v : optional_i64_to_u64 v <> Panic.
Proof. destruct v as [v|]; simpl; [|done]. apply bind_no_panic; [apply ok_or_no_panic|done]. Qed.

Lemma quota_row_no_panic m groups q : add_quota_row m groups q <> Panic.
Proof.
  unfold add_quota_row. destruct (m !! qw_account_id q) as [b|]; [|done]. repeat (apply bind_no_panic; [|intros ? _]).
  - unfold quota_target, Quota.endpoint_credential_model. repeat case_match; try done; repeat case_match; done.
  - unfold parse_quota_source. by repeat case_match.
  - unfold parse_quota_confidence. by repeat case_match.
  - apply optional_no_panic.
  - apply optional_no_panic.
  - apply map_err_no_panic. unfold Quota.window_try_new. by repeat case_match.
  - by case_match.
Qed.

Lemma check_windows_no_panic ws seen observed : Quota.check_windows ws seen observed <> Panic.
Proof. revert seen. induction ws as [|w ws IH]; intros seen; simpl; [done|]. repeat case_match; try done; apply IH. Qed.

Lemma quota_no_panic rows m : load_quota_bootstrap rows m <> Panic.
Proof.
  unfold load_quota_bootstrap. apply bind_no_panic; [apply try_fold_no_panic, quota_row_no_panic|]. intros groups _.
  apply try_fold_no_panic. intros snapshots [t g]. unfold add_snapshot. apply bind_no_panic; [|done]. apply map_err_no_panic.
  unfold Quota.snapshot_try_new. case_match; [done|]. apply bind_no_panic; [apply check_windows_no_panic|]. intros _ _. by case_match.
Qed.

Context `{!BuildCredentialLaws}.

Lemma described_typed a n : row_readable a -> describes_native a n -> input_typed (na_input n).
Proof.
  intros [Hc _ Hrev] [_ _ (plain & _ & _ & -> & _)]. destruct (checked_columns a Hc) as (_ & _ & Hp & Hw & Hm & _).
  unfold input_typed; simpl. unfold i64_ok, i64_min, i64_max in *. split_and!; try lia. intros x Hx. unfold expiry_of in Hx.
  destruct (na_provider n); [|done..]. destruct (import_runtime_json plain observed_at_ms) eqn:Hi; simplify_eq.
  - by apply imported_expiry in Hi.
  - by apply persisted_expiry in Hx.
Qed.

Lemma pools_decide l :
  Forall (fun x => row_readable x.1 /\ describes_native x.1 x.2) l ->
  decides (build_pools (inputs_by_endpoint (push_all_native l))) (forall e, inputs_at l.*2 e <> [] -> inputs_ok (inputs_at l.*2 e))
    (pooled_by (inputs_by_endpoint (push_all_native l))).
Proof.
  intros Hl. set (m := inputs_by_endpoint (push_all_native l)).
  assert (Hentry : forall e inputs, (e, inputs) ∈ id_entries m <-> inputs = inputs_at l.*2 e /\ inputs <> []).
  { intros e inputs. rewrite (proj2 (id_entries_spec _)). unfold m. rewrite pushed_inputs. destruct (inputs_at l.*2 e) eqn:Hi; naive_solver. }
  eapply decides_iff.
  - unfold build_pools. eapply decides_bind; [apply (add_pools_decides Pool); [done|]|].
    + apply Forall_forall. intros [e inputs] [-> _]%Hentry. simpl. apply Forall_fmap, Forall_forall. intros n [_ Hn]%list_elem_of_filter.
      apply list_elem_of_fmap in Hn as ([a n'] & -> & Hin). rewrite Forall_forall in Hl. destruct (Hl _ Hin) as [Hr Hd]. by eapply described_typed.
    + intros pools _ H2. destruct (pools_index _ pools H2) as (indexed & -> & Hp). by apply decides_ok.
  - rewrite Forall_forall. split.
    + intros [Hall _] e Hne. apply (Hall (e, inputs_at l.*2 e)). by apply Hentry.
    + intros Hall. split; [|done]. intros [e inputs] [-> Hne]%Hentry. by apply Hall.
Qed.

(** *** The compiler *)

(** A store whose rows are readable: the columns are [i64], the tables satisfy their
    constraints and the credentials open. *)
Definition store_readable (db : GrokDb) : Prop :=
  tables_sound db /\ forall i a, db_accounts db !! i = Some a -> (exists plaintext, opens ring a plaintext) /\ i64_ok (ac_revision a).

Lemma stored_rows db :
  store_readable db -> Forall row_readable (load_native_runtime_rows db) /\ NoDup (ac_id <$> load_native_runtime_rows db).
Proof.
  intros [Ht Ho]. assert (Hin : forall i a, (i, a) ∈ map_to_list (db_accounts db) -> ac_id a = i /\ row_readable a).
  { intros i a Ha%elem_of_map_to_list. destruct (go_accounts _ Ht i a Ha) as [Hi Hc]. apply andb_true_iff in Hc as [Hc _].
    destruct (Ho i a Ha). split; [done|by constructor]. }
  unfold load_native_runtime_rows. rewrite !sort_by_perm. unfold rows_of. split.
  - apply Forall_fmap, Forall_forall. intros [i a] Ha. by apply (Hin i a).
  - rewrite <- list_fmap_compose. erewrite list_fmap_ext; [apply NoDup_fst_map_to_list|]. intros k [i a] Hk. simpl.
    by apply (Hin i a), (list_elem_of_lookup_2 _ k).
Qed.

(** The same result from one state of the tables. *)
Definition compiled_from (db : GrokDb) : result GrokNativeAccountCompileError GrokNativeAccountPoolCompilation :=
  if observed_at_ms <? 0 then Err InvalidObservationTime
  else
    let? bound := try_fold add_native_binding bindings (∅, ∅) in
    let? st := try_fold (add_account ring bound.1 observed_at_ms) (load_native_runtime_rows db) empty_native in
    let? snapshots := account_error (load_quota_bootstrap (quota_rows db) (runtime_bindings_by_account st)) in
    let? pools := build_pools (inputs_by_endpoint st) in
    Ok (mkCompilation pools (ns_providers st) (ns_health st) snapshots).


Lemma same_rows l l' :
  NoDup (nb_provider <$> bindings) -> l.*1 = l'.*1 -> Forall (fun x => describes_native x.1 x.2) l ->
  Forall (fun x => describes_native x.1 x.2) l' -> l = l'.
Proof.
  intros Hb. revert l'. induction l as [|[a n] l IH]; intros [|[a' n'] l'] Heq Hl Hl'; try done. injection Heq as <- Heq.
  apply Forall_cons in Hl as [Hn Hl], Hl' as [Hn' Hl']. simpl in *. f_equal; [|by apply IH]. f_equal. by apply (describes_unique a).
Qed.

Lemma loaded_decides db l :
  store_readable db -> NoDup (nb_provider <$> bindings) -> l.*1 = List.filter is_served (load_native_runtime_rows db) ->
  Forall (fun x => describes_native x.1 x.2) l ->
  let st := push_all_native l in
  decides (let? snapshots := account_error (load_quota_bootstrap (quota_rows db) (runtime_bindings_by_account st)) in
           let? pools := build_pools (inputs_by_endpoint st) in
           Ok (mkCompilation pools (ns_providers st) (ns_health st) snapshots))
    (exists l c, compiles db l c) (fun c => exists l, compiles db l c).
Proof.
  intros Hdb Hb Hrows Hl st. destruct (stored_rows db Hdb) as [Hread Hids].
  assert (Hnd : NoDup ((fun x => ac_id x.1) <$> l)).
  { change (NoDup (ac_id ∘ fst <$> l)). rewrite list_fmap_compose, Hrows. eapply sublist_NoDup; [exact Hids|]. apply fmap_sublist. clear.
    induction (load_native_runtime_rows db) as [|x rest IH]; simpl; [constructor|]. destruct (is_served x); by constructor. }
  assert (Hsame : forall l' c, compiles db l' c -> l' = l).
  { intros l' c Hc. apply same_rows; [done|by rewrite (nc_rows _ _ _ Hc)|apply Hc|done]. }
  assert (Hboth : Forall (fun x => row_readable x.1 /\ describes_native x.1 x.2) l).
  { apply Forall_and. split; [|done]. apply (Forall_fmap fst), Forall_forall. intros a Ha. rewrite Hrows in Ha.
    apply list_elem_of_In, List.filter_In in Ha as [Ha%list_elem_of_In _]. rewrite Forall_forall in Hread. by apply Hread. }
  unfold st. rewrite (pushed_accounts l Hnd). pose proof (quota_no_panic (quota_rows db) (runtime_bindings_of l)) as Hnp.
  destruct (load_quota_bootstrap _ _) as [quota|e|] eqn:Hq; simpl; [| |done].
  - pose proof (pools_decide l Hboth) as Hp. destruct (build_pools _) as [pools|e|]; simpl in *; [| |done].
    + assert (Hc : compiles db l (mkCompilation pools (ns_providers (push_all_native l)) (ns_health (push_all_native l)) quota)).
      { destruct Hp as [Hok Hp]. split; simpl; try done.
        - intros e. specialize (Hp e). rewrite pushed_inputs in Hp. by destruct (inputs_at l.*2 e).
        - apply pushed_providers. rewrite described_ids by done. apply mkId_nodup. by rewrite <- list_fmap_compose.
        - apply pushed_health. }
      split; eauto.
    + intros (l' & c & Hc). pose proof (Hsame _ _ Hc) as ->. apply Hp, (nc_valid _ _ _ Hc).
  - intros (l' & c & Hc). pose proof (Hsame _ _ Hc) as ->. pose proof (nc_quota _ _ _ Hc). congruence.
Qed.

Lemma compiled_decides db : store_readable db -> decides (compiled_from db) (compilable db) (fun c => exists l, compiles db l c).
Proof.
  intros Hdb. unfold compiled_from. eapply decides_iff.
  - apply decides_guard with (P' := 0 <= observed_at_ms); [by rewrite Z.ltb_ge|]. intros _.
    eapply decides_bind; [apply bindings_decide_native|]. intros [bound endpoints] [Hb _] Heq. simpl in Heq. rewrite Heq. simpl.
    destruct (stored_rows db Hdb) as [Hread Hids].
    eapply decides_bind; [by apply (accounts_decide (load_native_runtime_rows db) [])|]. intros st _ (l & Hrows & Hl & ->).
    by apply (loaded_decides db l).
  - unfold compilable. split.
    + intros (? & (? & ?) & _ & ?). done.
    + intros (? & ? & ? & l & c & Hc). split_and!; try done; [|by exists l, c]. apply Forall_forall. intros a Ha Hs.
      assert (Hin : a ∈ l.*1) by (rewrite (nc_rows _ _ _ Hc); apply list_elem_of_In, List.filter_In; by rewrite <- list_elem_of_In).
      apply list_elem_of_fmap in Hin as ([a' n] & -> & Hin). pose proof (nc_accounts _ _ _ Hc) as Hall. rewrite Forall_forall in Hall.
      exists n. by apply (Hall (a', n)).
Qed.

Lemma compile_ok sqlite_fails s c s' :
  compile_native_runtime ring sqlite_fails bindings observed_at_ms s = (Ok c, s') -> compiled_from (db_of s) = Ok c.
Proof.
  unfold compile_native_runtime, compiled_from. destruct (_ <? _); [done|]. intros (bound & s1 & Hb & Hrun)%bind_ok.
  injection Hb as -> <-. apply bind_ok in Hrun as (rows & s1 & (-> & Hs1 & _)%query_ok & Hrun). simpl.
  apply bind_ok in Hrun as (st & s2 & Hst & Hrun). injection Hst as -> <-. simpl.
  apply bind_ok in Hrun as (quota & s2 & (-> & Hs2 & _)%query_ok & Hrun). rewrite Hs1 in Hrun.
  apply bind_ok in Hrun as (snapshots & s3 & Hq & Hrun). injection Hq as -> <-. simpl.
  apply bind_ok in Hrun as (pools & s3 & Hp & Hrun). injection Hp as -> <-. simpl. by injection Hrun as ->.
Qed.

(** *** What a success says about the stored quota *)

Lemma optional_ok v r : optional_i64_to_u64 v = Ok r -> r = v.
Proof. destruct v as [v|]; simpl; [|by intros [= <-]]. intros (x & ->%u64_ok & [= <-])%result_bind_ok. done. Qed.

(** A group grows. *)
Definition group_grows (g g' : QuotaBootstrapGroup) : Prop :=
  gr_observed_at_ms g' = gr_observed_at_ms g /\ forall w, w ∈ gr_windows g -> w ∈ gr_windows g'.

Definition holds_window (q : QuotaWindowRow) (g : QuotaBootstrapGroup) : Prop :=
  gr_observed_at_ms g = qw_observed_at q
  /\ exists w, (w ∈ gr_windows g) /\ Quota.w_remaining w = qw_remaining q /\ Quota.w_reset_at_ms w = qw_reset_at q.

Lemma holds_grows q g g' : holds_window q g -> group_grows g g' -> holds_window q g'.
Proof. intros [Ho (w & Hw & Hr)] [Ho' Hs]. split; [congruence|]. exists w. split; [by apply Hs|done]. Qed.

Lemma quota_row_ok m groups q groups' b :
  m !! qw_account_id q = Some b -> add_quota_row m groups q = Ok groups' ->
  exists t g', groups' = <[t := g']> groups /\ holds_window q g' /\ forall g, groups !! t = Some g -> group_grows g g'.
Proof.
  unfold add_quota_row. intros ->. intros (t & _ & Hrun)%result_bind_ok. apply result_bind_ok in Hrun as (src & _ & Hrun).
  apply result_bind_ok in Hrun as (conf & _ & Hrun). apply result_bind_ok in Hrun as (limit & ->%optional_ok & Hrun).
  apply result_bind_ok in Hrun as (remaining & ->%optional_ok & Hrun). apply result_bind_ok in Hrun as (w & Hw%map_err_ok & Hrun).
  destruct (_ || _) eqn:Hsame; [done|]. injection Hrun as <-. bool_simp. exists t. eexists. split; [done|].
  assert (Hw' : Quota.w_remaining w = qw_remaining q /\ Quota.w_reset_at_ms w = qw_reset_at q).
  { unfold Quota.window_try_new in Hw. repeat case_match; by simplify_eq/=. }
  split.
  - split; simpl; [lia|]. exists w. split; [set_solver|done].
  - intros g ->. split; simpl; [done|]. set_solver.
Qed.

Lemma quota_groups_hold m rows groups groups' :
  try_fold (add_quota_row m) rows groups = Ok groups' ->
  (forall t g, groups !! t = Some g -> exists g', groups' !! t = Some g' /\ group_grows g g')
  /\ forall q b, q ∈ rows -> m !! qw_account_id q = Some b -> exists t g, groups' !! t = Some g /\ holds_window q g.
Proof.
  revert groups. induction rows as [|q rows IH]; intros groups; simpl.
  { intros [= <-]. split; [intros t g Hg; by exists g|by intros q b ?%elem_of_nil]. }
  intros (mid & Hstep & [Hkeep Hall]%IH)%result_bind_ok. split.
  - intros t g Hg. destruct (m !! qw_account_id q) as [b|] eqn:Hm.
    + destruct (quota_row_ok m groups q mid b Hm Hstep) as (t' & g' & -> & _ & Hgrow). destruct (decide (t' = t)) as [->|Hne].
      * destruct (Hkeep t g' (lookup_insert_eq _ _ _)) as (g2 & Hg2 & Ho2 & Hs2). exists g2. split; [done|].
        destruct (Hgrow g Hg) as [Ho Hs]. split; [congruence|auto].
      * apply Hkeep. by rewrite lookup_insert_ne.
    + unfold add_quota_row in Hstep. rewrite Hm in Hstep. injection Hstep as <-. by apply Hkeep.
  - intros q' b [->|Hin]%elem_of_cons Hm; [|by apply (Hall q' b)].
    destruct (quota_row_ok m groups q mid b Hm Hstep) as (t & g & -> & Hq & _).
    destruct (Hkeep t g (lookup_insert_eq _ _ _)) as (g' & Hg' & Hgrow). exists t, g'. split; [done|]. by eapply holds_grows.
Qed.

Lemma checked_window ws seen observed w :
  Quota.check_windows ws seen observed = Ok tt -> w ∈ ws -> Quota.w_remaining w = Some 0 ->
  exists reset, Quota.w_reset_at_ms w = Some reset /\ observed < reset.
Proof.
  revert seen. induction ws as [|x ws IH]; intros seen Hc Hin Hr; [by apply elem_of_nil in Hin|]. simpl in Hc.
  destruct (bool_decide _); [done|]. destruct (_ && _) eqn:Hx; [done|]. apply elem_of_cons in Hin as [->|Hin]; [|by eapply IH].
  unfold Quota.is_exhausted in Hx. rewrite Hr in Hx. simpl in Hx. destruct (Quota.w_reset_at_ms x) as [reset|]; [|done].
  exists reset. split; [done|]. lia.
Qed.

Lemma snapshots_checked entries acc snapshots :
  try_fold add_snapshot entries acc = Ok snapshots ->
  forall t g, (t, g) ∈ entries -> Quota.check_windows (gr_windows g) ∅ (gr_observed_at_ms g) = Ok tt.
Proof.
  revert acc. induction entries as [|[t0 g0] entries IH]; intros acc; simpl; [intros _ t g ?%elem_of_nil; done|].
  intros (mid & Hstep & Hrest)%result_bind_ok t g [[= -> ->]|Hin]%elem_of_cons; [|by eapply IH]. unfold add_snapshot in Hstep.
  apply result_bind_ok in Hstep as (x & Hx%map_err_ok & _). simpl in Hx. unfold Quota.snapshot_try_new in Hx. destruct (_ <? _); [done|].
  by apply result_bind_ok in Hx as ([] & Hx & _).
Qed.

(** Every stored window of a runtime account that is used up has a future reset. *)
Lemma quota_bootstrap_resets rows m snapshots q b :
  load_quota_bootstrap rows m = Ok snapshots -> q ∈ rows -> m !! qw_account_id q = Some b -> qw_remaining q = Some 0 ->
  exists reset, qw_reset_at q = Some reset /\ qw_observed_at q < reset.
Proof.
  intros (groups & [_ Hall]%quota_groups_hold & Hs)%result_bind_ok Hq Hm Hr.
  destruct (Hall q b Hq Hm) as (t & g & Hg & Ho & w & Hw & Hwr & Hwt).
  assert (Hin : (t, g) ∈ sort_by (fun a b => target_leb a.1 b.1) (map_to_list groups)) by (rewrite sort_by_perm; by apply elem_of_map_to_list).
  pose proof (snapshots_checked _ _ _ Hs t g Hin) as Hc. rewrite <- Ho, <- Hwt. eapply checked_window; [done..|congruence].
Qed.

Lemma served_listed db l c i a :
  store_readable db -> compiles db l c -> db_accounts db !! i = Some a -> is_served a = true -> exists n, (a, n) ∈ l /\ describes_native a n.
Proof.
  intros Hdb Hc Ha Hs. assert (Hin : a ∈ l.*1).
  { rewrite (nc_rows _ _ _ Hc). apply list_elem_of_In, List.filter_In. split; [|done]. apply list_elem_of_In. unfold load_native_runtime_rows.
    rewrite sort_by_perm. apply list_elem_of_fmap. exists (i, a). split; [done|]. by apply elem_of_map_to_list. }
  apply list_elem_of_fmap in Hin as ([a' n] & -> & Hin). exists n. split; [done|]. pose proof (nc_accounts _ _ _ Hc) as Hall.
  rewrite Forall_forall in Hall. by apply (Hall (a', n)).
Qed.

Lemma listed_runtime_binding db l c a n :
  store_readable db -> compiles db l c -> (a, n) ∈ l -> is_Some (runtime_bindings_of l !! ac_id a).
Proof.
  intros Hdb Hc Hin. unfold runtime_bindings_of. destruct (list_to_map _ !! _) eqn:Hl; [done|]. apply not_elem_of_list_to_map_2 in Hl.
  contradict Hl. rewrite <- list_fmap_compose. apply list_elem_of_fmap. by exists (a, n).
Qed.

(** C26: One synchronised quota window can take every native account out of service.
    The worker stores a window that is used up and has no reset in the future. In that
    state, and in every later one whose store still has the row of that window as it was
    written - a later synchronisation of the account replaces it - no compilation succeeds
    while the account is served, whatever the other accounts, the observation time and
    SQLite do. *)
Theorem exhausted_window_stops_compilation fails job windows next_due now s s1 w later a :
  complete_quota_job fails job windows next_due now s = (Ok tt, s1) ->
  w ∈ windows -> wi_remaining w = Some 0 -> (forall reset, wi_reset_at_ms w = Some reset -> reset <= now) ->
  let key := quota_key (quota_row (jb_account_id job) w now) in
  db_quota (db_of later) !! key = db_quota (db_of s1) !! key -> store_readable (db_of later) ->
  db_accounts (db_of later) !! jb_account_id job = Some a -> is_served a = true ->
  forall sqlite_fails c s2, compile_native_runtime ring sqlite_fails bindings observed_at_ms later <> (Ok c, s2).
Proof.
  intros Hsync Hw Hr Hreset key Hkey Hdb Ha Hs sqlite_fails c s2 Hcomp. apply compile_ok in Hcomp.
  pose proof (compiled_decides _ Hdb) as Hd. rewrite Hcomp in Hd. destruct Hd as [_ (l & Hc)].
  destruct (served_listed _ l c _ a Hdb Hc Ha Hs) as (n & Hin & _). destruct (listed_runtime_binding _ l c a n Hdb Hc Hin) as [b Hb].
  pose proof (quota_exact fails job windows next_due now (db_of s) s _ s1 eq_refl Hsync) as [_ _ Hq].
  set (q := quota_row (jb_account_id job) w now) in *. assert (Hq' : db_quota (db_of later) !! key = Some q) by (rewrite Hkey; apply Hq; right; by exists w).
  assert (Hid : ac_id a = jb_account_id job) by (by destruct (go_accounts _ (proj1 Hdb) _ _ Ha)).
  destruct (quota_bootstrap_resets _ _ _ q b (nc_quota _ _ _ Hc)) as (reset & Hqr & Hlt).
  - unfold quota_rows. rewrite sort_by_perm. apply list_elem_of_fmap. exists (key, q). split; [done|]. by apply elem_of_map_to_list.
  - unfold q, quota_row. destruct (wi_scope w); simpl; by rewrite <- Hid.
  - unfold q, quota_row. by destruct (wi_scope w).
  - assert (Hrow : qw_reset_at q = wi_reset_at_ms w /\ qw_observed_at q = now) by (unfold q, quota_row; by destruct (wi_scope w)).
    destruct Hrow as [Hrow Hobs]. rewrite Hrow in Hqr. specialize (Hreset reset Hqr). lia.
Qed.
End Exact.

(** ** Seeded registries *)

Section Seeded.
Context `{!ShardHash RuntimeHealthKey}.

Definition seed_op (b : GrokRuntimeHealthBootstrap) (clk : ClockReading) : HealthOp :=
  match b with
  | Unauthorized e c => OpUnauthorized e c clk
  | Cooldown e c until_ms => OpCoolDown (HEndpointCredential e c) until_ms clk
  end.

Lemma seed_one_exec b clk reg reg' :
  seed_one b clk reg = (Ok tt, reg') -> exists r, exec (seed_op b clk) reg = (r, reg') /\ (forall e c, b = Unauthorized e c -> exists out, r = Ok out).
Proof.
  destruct b as [e c|e c t]; unfold seed_one, seed_op, exec, map_out, bind, ret.
  - intros ->. exists (Ok OutUnit). eauto.
  - destruct (cool_down_until _ _ _ _) as [[[]|x|] reg1]; intros Hrun; [injection Hrun as <-; by eexists| |done].
    destruct x; try done. injection Hrun as <-. by eexists.
Qed.

(** Seeding runs registry operations none of which lifts a block. *)
Lemma seeding_keeps clock l reg reg' key :
  forall k, registry_wf reg -> counters_ok (counters reg) -> seed_runtime_health clock k l reg = (Ok tt, reg') ->
  registry_wf reg' /\ counters_ok (counters reg') /\ (account_blocked (view reg key) = true -> account_blocked (view reg' key) = true).
Proof.
  revert reg. induction l as [|b l IH]; intros reg k Hwf Hc; simpl; [by intros [= <-]|].
  intros ([] & reg1 & Hone & Hrest)%bind_ok. destruct (seed_one_exec _ _ _ _ Hone) as (r & He & _).
  destruct (keyed_inv _ _ _ _ Hwf Hc He) as (Hwf1 & Hc1 & _). destruct (IH reg1 (S k) Hwf1 Hc1 Hrest) as (? & ? & Hk). split_and!; [done..|].
  intros Hb. apply Hk. assert (Heq : reg1 = exec_all [seed_op b (clock k)] reg) by (simpl; by rewrite He). rewrite Heq.
  apply account_block_survives; try done. by destruct b.
Qed.

Lemma seeding_blocks clock l reg reg' e c :
  forall k, registry_wf reg -> counters_ok (counters reg) -> seed_runtime_health clock k l reg = (Ok tt, reg') -> Unauthorized e c ∈ l ->
  account_blocked (view reg' (HEndpointCredential e c)) = true.
Proof.
  revert reg. induction l as [|b l IH]; intros reg k Hwf Hc; simpl; [by intros _ ?%elem_of_nil|].
  intros ([] & reg1 & Hone & Hrest)%bind_ok Hin. destruct (seed_one_exec _ _ _ _ Hone) as (r & He & Hr).
  destruct (keyed_inv _ _ _ _ Hwf Hc He) as (Hwf1 & Hc1 & _). apply elem_of_cons in Hin as [<-|Hin]; [|by eapply IH].
  apply (seeding_keeps clock l reg1 reg' _ (S k) Hwf1 Hc1 Hrest). destruct (Hr e c eq_refl) as [out ->].
  destruct (keyed_own _ _ _ _ Hwf Hc He) as [(? & _)|[(? & _)|Hk]]; [done..|]. unfold key_step, seed_op in Hk. simpl in Hk.
  destruct (clock k); [|done]. simpl in Hk. injection Hk as _ -> _. done.
Qed.

(** C25: A native account that may not be used stays out of use from the start. After a
    compilation has succeeded and its health state was seeded, a served account that
    needs reauthentication, or whose active Build credential cannot be imported and is
    not persisted with an expiry after the observation, is never reported available:
    at no time and after no sequence of registry operations, until a recovery of its
    own is completed as allowed. *)
Theorem blocked_accounts_start_blocked `{!Aead} `{!BuildCredentials} `{!BuildCredentialLaws} ring bindings observed sqlite_fails s c s'
    clock reg reg' i a p e plaintext ops now_ms :
  store_readable ring (db_of s) -> compile_native_runtime ring sqlite_fails bindings observed s = (Ok c, s') ->
  registry_wf reg -> counters_ok (counters reg) -> seed_runtime_health clock 0 (health_bootstrap c) reg = (Ok tt, reg') ->
  db_accounts (db_of s) !! i = Some a -> is_served bindings a = true -> ac_provider a = provider_as_str p ->
  mkNativeBinding p e ∈ bindings -> opens ring a plaintext -> starts_blocked observed p a plaintext ->
  let key := HEndpointCredential e (mkId (ac_id a)) in
  forallb (fun op => negb (releases_account key op)) ops = true ->
  is_ok_and av_is_available (availability_at (exec_all ops reg') key now_ms) = false.
Proof.
  intros Hdb Hcomp%compile_ok Hwf Hc Hseed Ha Hs Hp Hb Ho Hblocked key Hops.
  pose proof (compiled_decides ring bindings observed _ Hdb) as Hd. rewrite Hcomp in Hd. destruct Hd as [(_ & Hnd & _) (l & Hl)].
  destruct (served_listed ring bindings observed _ l c i a Hdb Hl Ha Hs) as (n & Hin & Hn).
  assert (Hun : Unauthorized e (mkId (ac_id a)) ∈ health_bootstrap c).
  { rewrite (nc_health _ _ _ _ _ _ Hl). apply list_elem_of_omap. exists n. split; [apply list_elem_of_fmap; by exists (a, n)|].
    destruct Hn as [Hp' Hb' (x & Hx & _ & _ & Hh)]. apply (opens_unique ring a plaintext) in Hx as <-; [|done].
    rewrite Hp in Hp'. apply (f_equal provider_parse) in Hp'. rewrite !provider_parse_as_str in Hp'. injection Hp' as Hpp. rewrite <- Hpp in *.
    assert (na_endpoint_id n = e) as <-. { apply (bound_lookup bindings) in Hb, Hb'; [|done..]. congruence. }
    apply Hh. by left. }
  pose proof (seeding_blocks clock _ reg reg' _ _ 0%nat Hwf Hc Hseed Hun) as Hview.
  destruct (seeding_keeps clock _ reg reg' key 0%nat Hwf Hc Hseed) as (Hwf' & Hc' & _). by apply account_block_kept.
Qed.
End Seeded.

(** ** Witnesses *)

Section Witnesses.
#[local] Existing Instance ex_aead.
#[local] Existing Instance ex_aead_laws.
#[local] Existing Instance GrokRuns.ex_importers.
#[local] Existing Instance ex_hash.
Import GrokRuns.

(** Every stored Build credential is good until a fixed instant. *)
Definition ex_build_credentials : BuildCredentials :=
  {| import_runtime_json := fun _ _ => Some 5000000; from_persisted_bytes := fun _ => Some 5000000 |}.
#[local] Existing Instance ex_build_credentials.

Lemma ex_build_laws : BuildCredentialLaws.
Proof. split; unfold i64_ok, i64_min, i64_max; simpl; intros; simplify_eq; lia. Qed.
#[local] Existing Instance ex_build_laws.

(** Two Build accounts, one of which needs reauthentication; the quota of the other is due. *)
Definition ex_native_entries : list GrokAccountImport :=
  [mkImport Build (mkIdentity [Byte.x03]) (mkGrokCredential [Byte.x68; Byte.x03]) AuthActive true 10 1 2 None (Some 500) None;
   ex_entry Byte.x02 ReauthRequired].
Definition ex_native : Conn GrokDb := (ex_batch "native" ex_native_entries [] (mkConn empty_grok_db 0 0)).2.
Definition ex_quota_claim := claim_due_worker_jobs (fun _ => false) ex_random ex_old Worker.Quota 1000 4 60000 ex_native.
Definition ex_quota_job : GrokAccountWorkerJob := default (mkJob "" Build Worker.Quota "" 0 [] []) (head (jobs_of ex_quota_claim.1)).
Definition ex_spent : GrokAccountQuotaWindow := mkWindow ScopeAccount "daily" (Some 10) (Some 0) None SourceBilling Worker.ConfAuthoritative.
Definition ex_synced := complete_quota_job (fun _ => false) ex_quota_job [ex_spent] 9000 2000 ex_quota_claim.2.
Definition ex_native_bindings : list GrokAccountEndpointBinding := [mkNativeBinding Build ex_endpoint].

Abbreviation ex_reachable := (reachable ex_sha256 (fun _ => false) ex_random ex_old).

Lemma ex_native_reachable : ex_reachable (mkLedger ex_native [] []).
Proof.
  eapply reach_step; [apply reach_empty|].
  exact (step_import _ _ _ _ "native" ex_native_entries [] 100 (mkConn empty_grok_db 0 0) _ _ [] [] (surjective_pairing _)).
Qed.

Lemma ex_synced_reachable : ex_reachable (mkLedger ex_synced.2 (jobs_of ex_quota_claim.1) []).
Proof.
  eapply reach_step; [|refine (step_quota _ _ _ _ ex_quota_job [ex_spent] 9000 2000 ex_quota_claim.2 _ _ _ _ _ (surjective_pairing _))].
  - eapply reach_step; [exact ex_native_reachable|].
    exact (step_claim _ _ _ _ Worker.Quota 1000 4 60000 ex_native _ _ [] [] (surjective_pairing _)).
  - apply list_elem_of_lookup. exists 0%nat. vm_compute. reflexivity.
Qed.

Lemma ex_readable s js rs :
  ex_reachable (mkLedger s js rs) -> forallb (fun a => in_i64 (ac_revision a)) (rows_of (db_of s)) = true -> store_readable ex_old (db_of s).
Proof.
  intros Hr Hrev. apply (reachable_ok ex_sha256 (fun _ => false) ex_random ex_old ex_random_length ex_random_fresh ex_key_version) in Hr.
  destruct (lo_store _ _ _ Hr) as [[Ht _] _ Ho]. split; [exact Ht|]. intros i a Ha. split; [by apply (Ho i a)|].
  apply (forall_rows _ _ i a Ha) in Hrev. unfold in_i64 in Hrev. unfold i64_ok. lia.
Qed.

Lemma ex_native_readable : store_readable ex_old (db_of ex_native).
Proof. apply (ex_readable _ [] [] ex_native_reachable). vm_compute. reflexivity. Qed.


Definition ex_compiled := compile_native_runtime ex_old (fun _ => false) ex_native_bindings 1000 ex_native.
Definition ex_health : list GrokRuntimeHealthBootstrap := match ex_compiled.1 with Ok c => health_bootstrap c | _ => [] end.
Definition ex_seeded := seed_runtime_health (fun _ => Some 1000) 0 ex_health ex_registry.

Definition ex_no_row : AccountRow :=
  mkAccount "" "" [] [] 0 "" 0 0 0 0 None None 0 None 0 "" 0 0 None None 0 None None None.
Definition ex_reauth_row : AccountRow :=
  default ex_no_row (List.find (fun a => bool_decide (ac_auth_status a = "reauth_required")) (rows_of (db_of ex_native))).
Definition ex_synced_row : AccountRow := default ex_no_row (db_accounts (db_of ex_synced.2) !! jb_account_id ex_quota_job).

Lemma exhausted_window_stops_compilation_witness :
  ex_synced.1 = Ok tt
  /\ (compile_native_runtime ex_old (fun _ => false) ex_native_bindings 3000 ex_quota_claim.2).1 <> Err (Account InvalidPersistedState)
  /\ (compile_native_runtime ex_old (fun _ => false) ex_native_bindings 3000 ex_synced.2).1 = Err (Account InvalidPersistedState)
  /\ forall sqlite_fails c s2, compile_native_runtime ex_old sqlite_fails ex_native_bindings 3000 ex_synced.2 <> (Ok c, s2).
Proof.
  assert (Hok : ex_synced.1 = Ok tt) by (vm_compute; reflexivity). split; [exact Hok|]. split; [vm_compute; discriminate|].
  split; [vm_compute; reflexivity|].
  apply (exhausted_window_stops_compilation ex_old ex_native_bindings 3000 (fun _ => false) ex_quota_job [ex_spent] 9000 2000
    ex_quota_claim.2 ex_synced.2 ex_spent ex_synced.2 ex_synced_row).
  - change (ex_synced = (Ok tt, ex_synced.2)). rewrite <- Hok. apply surjective_pairing.
  - constructor.
  - reflexivity.
  - discriminate.
  - reflexivity.
  - apply (ex_readable _ _ _ ex_synced_reachable). vm_compute. reflexivity.
  - vm_compute. reflexivity.
  - vm_compute. reflexivity.
Defined.

Lemma blocked_accounts_start_blocked_witness :
  is_ok_and av_is_available
    (availability_at (exec_all [OpMarkHealthy (HEndpointCredential ex_endpoint (mkId (ac_id ex_reauth_row)))] ex_seeded.2)
       (HEndpointCredential ex_endpoint (mkId (ac_id ex_reauth_row))) 900000) = false.
Proof.
  destruct ex_compiled as [r s'] eqn:Hc. assert (Hh : match r with Ok c => health_bootstrap c | _ => [] end = ex_health)
    by (unfold ex_health; rewrite Hc; reflexivity).
  assert (Hok : is_ok_and (fun _ => true) r = true)
    by (apply (f_equal (fun x => is_ok_and (fun _ => true) x.1)) in Hc; cbn [fst] in Hc; rewrite <- Hc; vm_compute; reflexivity).
  destruct r as [c|e|]; [|discriminate Hok..]. cbv iota in Hh.
  destruct (ex_registry_ok []) as (Hwf & Hcount & _). assert (Hseed : ex_seeded.1 = Ok tt) by (vm_compute; reflexivity).
  assert (Hrow : db_accounts (db_of ex_native) !! ac_id ex_reauth_row = Some ex_reauth_row) by (vm_compute; reflexivity).
  destruct (proj2 ex_native_readable _ _ Hrow) as [[plaintext Ho] _].
  apply (blocked_accounts_start_blocked ex_old ex_native_bindings 1000 (fun _ => false) ex_native c s' (fun _ => Some 1000) ex_registry ex_seeded.2
    (ac_id ex_reauth_row) ex_reauth_row Build ex_endpoint plaintext
    [OpMarkHealthy (HEndpointCredential ex_endpoint (mkId (ac_id ex_reauth_row)))] 900000 ex_native_readable Hc Hwf Hcount).
  - rewrite Hh. change (ex_seeded = (Ok tt, ex_seeded.2)). rewrite <- Hseed. apply surjective_pairing.
  - exact Hrow.
  - vm_compute. reflexivity.
  - vm_compute. reflexivity.
  - constructor.
  - exact Ho.
  - left. vm_compute. reflexivity.
  - reflexivity.
Defined.

(** The import and the table accept weights up to 10000, but a priority tier of a pool
    holds at most 1024: one such account, stored without complaint, stops every pool. *)
Definition ex_heavy := ex_batch "heavy" [mkImport Build (mkIdentity [Byte.x04]) (mkGrokCredential [Byte.x68; Byte.x04]) AuthActive true 10 2000 2
  None None None; ex_entry Byte.x02 AuthActive] [] (mkConn empty_grok_db 0 0).

Example heavy_account_stops_compilation :
  (exists out, ex_heavy.1 = Ok out)
  /\ (compile_native_runtime ex_old (fun _ => false) ex_native_bindings 1000 ex_heavy.2).1 = Err (Pool CredentialScheduleTooLarge).
Proof. split; [eexists|]; vm_compute; reflexivity. Qed.
End Witnesses.
End Native.
