(* ===== verification/EventLog.v ===== *)
(** * Lifecycle events: queue and durable log

    Models [crates/gateway-observability/src/lib.rs], the bounded queue between the
    request path and the writer, and the store of
    [crates/gateway-store/src/event_store.rs] on the table of migration 0005: records
    and their identities, the atomic and idempotent append, and the reads. [EventWriter]
    connects the two.

    [serde_json] on [GatewayEvent] is the class [EventJson], SHA-256 a function; the
    connection is that of [SqliteTx]. *)

From S2P Require Import Prelude Text Octets Core ClientKey ControlPlane StoreRows StoreSchema SqliteTx.
Local Open Scope string_scope.
Local Open Scope list_scope.
Local Open Scope Z_scope.

Module Events.

(** [AtomicU64::fetch_add]. *)
Definition fetch_add (counter n : Z) : Z := (counter + n) mod 2 ^ 64.

(** ** The queue *)

Definition DEFAULT_REQUIRED_EVENT_CAPACITY : nat := 1024.
Definition DEFAULT_DIAGNOSTIC_EVENT_CAPACITY : nat := 128.
Definition MAX_EVENT_QUEUE_CAPACITY : nat := Z.to_nat 8192.

Record EventQueueConfig : Type := mkQueueConfig {
  required_capacity : nat;
  diagnostic_capacity : nat;
}.

Inductive EventQueueConfigError : Type :=
| ZeroRequiredCapacity
| ZeroDiagnosticCapacity
| RequiredCapacityTooLarge
| DiagnosticCapacityTooLarge.

Definition queue_config_try_new (required diagnostic : nat) : result EventQueueConfigError EventQueueConfig :=
  if (required =? 0)%nat then Err ZeroRequiredCapacity
  else if (diagnostic =? 0)%nat then Err ZeroDiagnosticCapacity
  else if (MAX_EVENT_QUEUE_CAPACITY <? required)%nat then Err RequiredCapacityTooLarge
  else if (MAX_EVENT_QUEUE_CAPACITY <? diagnostic)%nat then Err DiagnosticCapacityTooLarge
  else Ok (mkQueueConfig required diagnostic).

Definition queue_config_default : EventQueueConfig := mkQueueConfig DEFAULT_REQUIRED_EVENT_CAPACITY DEFAULT_DIAGNOSTIC_EVENT_CAPACITY.

Record EventQueueMetrics : Type := mkQueueMetrics {
  required_queue_full : Z;
  diagnostics_dropped : Z;
  sink_closed : Z;
}.

(** Both ends of the two channels: what is buffered, oldest first, and which ends are
    alive. The two senders are dropped together, and so are the two receivers. *)
Record EventQueue : Type := mkQueue {
  q_config : EventQueueConfig;
  q_required : list GatewayEvent;
  q_diagnostic : list GatewayEvent;
  q_senders : bool;
  q_receivers : bool;
  q_metrics : EventQueueMetrics;
}.

Definition queue_try_new (config : EventQueueConfig) : result EventQueueConfigError EventQueue :=
  let? config := queue_config_try_new (required_capacity config) (diagnostic_capacity config) in
  Ok (mkQueue config [] [] true true (mkQueueMetrics 0 0 0)).

Definition set_buffers (required diagnostic : list GatewayEvent) (q : EventQueue) : EventQueue :=
  mkQueue (q_config q) required diagnostic (q_senders q) (q_receivers q) (q_metrics q).
Definition set_queue_metrics (metrics : EventQueueMetrics) (q : EventQueue) : EventQueue :=
  mkQueue (q_config q) (q_required q) (q_diagnostic q) (q_senders q) (q_receivers q) metrics.

Definition try_emit (event : GatewayEvent) (q : EventQueue) : EventEmission * EventQueue :=
  let m := q_metrics q in
  if negb (q_receivers q)
  then (SinkClosed, set_queue_metrics (mkQueueMetrics (required_queue_full m) (diagnostics_dropped m) (fetch_add (sink_closed m) 1)) q)
  else match priority event with
       | PriorityRequired =>
           if (length (q_required q) <? required_capacity (q_config q))%nat
           then (Enqueued, set_buffers (q_required q ++ [event]) (q_diagnostic q) q)
           else (RequiredQueueFull,
                 set_queue_metrics (mkQueueMetrics (fetch_add (required_queue_full m) 1) (diagnostics_dropped m) (sink_closed m)) q)
       | PriorityDiagnostic =>
           if (length (q_diagnostic q) <? diagnostic_capacity (q_config q))%nat
           then (Enqueued, set_buffers (q_required q) (q_diagnostic q ++ [event]) q)
           else (DiagnosticDropped,
                 set_queue_metrics (mkQueueMetrics (required_queue_full m) (fetch_add (diagnostics_dropped m) 1) (sink_closed m)) q)
       end.

Definition try_recv (q : EventQueue) : option GatewayEvent * EventQueue :=
  match q_required q, q_diagnostic q with
  | event :: rest, diagnostic => (Some event, set_buffers rest diagnostic q)
  | [], event :: rest => (Some event, set_buffers [] rest q)
  | [], [] => (None, q)
  end.

(** What [recv] is ready with: the next event, the end of a closed queue, or nothing
    yet ([None]). *)
Definition queue_recv (q : EventQueue) : option (option GatewayEvent * EventQueue) :=
  match try_recv q with
  | (Some event, q') => Some (Some event, q')
  | (None, q') => if q_senders q then None else Some (None, q')
  end.

Definition drop_senders (q : EventQueue) : EventQueue :=
  mkQueue (q_config q) (q_required q) (q_diagnostic q) false (q_receivers q) (q_metrics q).

Definition diagnostic_event (error : GatewayError) : GatewayEvent := EvDiagnostic (mkDiagnosticEvent error).

(** ** Records *)

Class EventJson := {
  event_to_string : GatewayEvent -> option string;
  event_from_str : string -> option GatewayEvent;
}.

(** What was written is read back, and JSON text is not empty. *)
Class EventJsonLaws `{!EventJson} : Prop := {
  event_reads_back : forall event text, event_to_string event = Some text -> event_from_str text = Some event;
  event_text_length : forall event text, event_to_string event = Some text -> 0 < sql_length text;
}.

Inductive GatewayEventLogKind : Type := LogRequest | LogAttempt | LogUsage | LogHealth.
#[export] Instance GatewayEventLogKind_eq_dec : EqDecision GatewayEventLogKind.
Proof. solve_decision. Defined.

Definition log_kind_as_sql (kind : GatewayEventLogKind) : string :=
  match kind with LogRequest => "request" | LogAttempt => "attempt" | LogUsage => "usage" | LogHealth => "health" end.

Definition log_kind_from_sql (value : string) : StoreResult GatewayEventLogKind :=
  if bool_decide (value = "request") then Ok LogRequest
  else if bool_decide (value = "attempt") then Ok LogAttempt
  else if bool_decide (value = "usage") then Ok LogUsage
  else if bool_decide (value = "health") then Ok LogHealth
  else Err InvalidPersistedGatewayEvent.

Record EventRecord : Type := mkEventRecord {
  er_kind : GatewayEventLogKind;
  er_event_id : string;
  er_request_id : option string;
  er_occurred_at_ms : option Z;
  er_payload_json : string;
}.
#[export] Instance EventRecord_eq_dec : EqDecision EventRecord.
Proof. solve_decision. Defined.

Record StoredGatewayEvent : Type := mkStored {
  sg_ordinal : Z;
  sg_kind : GatewayEventLogKind;
  sg_event_id : string;
  sg_request_id : option RequestId;
  sg_occurred_at_ms : option Z;
  sg_event : GatewayEvent;
}.

Definition MAX_EVENT_LOG_IDENTIFIER_BYTES : nat := 512.

Definition is_persistable_identifier (value : string) : bool :=
  negb (bool_decide (value = "")) && (String.length value <=? MAX_EVENT_LOG_IDENTIFIER_BYTES)%nat.

(** ** The table *)

(** A row of [gateway_event_log]. *)
Record EventRow : Type := mkEventRow {
  el_ordinal : Z;
  el_type : string;
  el_event_id : string;
  el_request_id : option string;
  el_occurred_at_ms : option Z;
  el_payload_json : string;
}.

(** The rows in the order of their ordinals. *)
Abbreviation EventDb := (list EventRow).

Definition length_between (low high : Z) (value : string) : bool := (low <=? sql_length value) && (sql_length value <=? high).

Definition event_row_check (r : EventRow) : bool :=
  bool_decide (el_type r ∈ ["request"; "attempt"; "usage"; "health"]) && length_between 1 512 (el_event_id r)
  && match el_request_id r with Some id => length_between 1 512 id | None => true end && (0 <? sql_length (el_payload_json r)).

Definition event_identity (r : EventRow) : string * string := (el_type r, el_event_id r).

(** An [INTEGER PRIMARY KEY] that is not given is one more than the largest. *)
Definition next_ordinal (log : EventDb) : Z := match last log with Some r => el_ordinal r + 1 | None => 1 end.

Definition find_event (identity : string * string) (log : EventDb) : option EventRow :=
  List.find (fun r => bool_decide (event_identity r = identity)) log.

Definition row_of_record (ordinal : Z) (r : EventRecord) : EventRow :=
  mkEventRow ordinal (log_kind_as_sql (er_kind r)) (er_event_id r) (er_request_id r) (er_occurred_at_ms r) (er_payload_json r).

Definition insert_event_stmt (r : EventRecord) (log : EventDb) : option (Z * EventDb) :=
  let row := row_of_record (next_ordinal log) r in
  match find_event (event_identity row) log with
  | Some _ => None
  | None => if event_row_check row then Some (1, log ++ [row]) else None
  end.

(** ** The store *)

Section Store.
Context `{!EventJson} (sha256 : list Byte.byte -> list Byte.byte) (sqlite_fails : nat -> bool).

Abbreviation EventM A := (M (Conn EventDb) StoreError A).
Abbreviation query := (sql_query sqlite_fails Sqlite).
Abbreviation execute := (sql_execute sqlite_fails Sqlite).

Definition usage_event_id (request_id : RequestId) : string :=
  "usage-request:" +:+ encode_lower_hex (sha256 (text_bytes (as_str request_id))).

Definition from_event (event : GatewayEvent) : StoreResult EventRecord :=
  let? fields := match event with
    | EvRequest v => Ok (LogRequest, as_str (re_request_id v), Some (as_str (re_request_id v)), None, true)
    | EvAttempt v => Ok (LogAttempt, as_str (ae_attempt_id v), Some (as_str (ae_request_id v)), Some (ae_ended_at_ms v), true)
    | EvUsage v => Ok (LogUsage, usage_event_id (ue_request_id v), Some (as_str (ue_request_id v)), None,
                       is_persistable_identifier (as_str (ue_response_id v)))
    | EvHealth v => Ok (LogHealth, as_str (he_health_event_id v), None, Some (he_occurred_at_ms v), true)
    | EvDiagnostic _ => Err DiagnosticEventNotPersistable
    end in
  let '(kind, event_id, request_id, occurred_at_ms, bounded_source_id) := fields in
  let? payload_json := ok_or InvalidPersistedGatewayEvent (event_to_string event) in
  if negb (is_persistable_identifier event_id) || negb bounded_source_id
     || match request_id with Some id => negb (is_persistable_identifier id) | None => false end
  then Err InvalidPersistedGatewayEvent
  else Ok (mkEventRecord kind event_id request_id occurred_at_ms payload_json).

(** [iter().map(from_event).collect::<StoreResult<Vec<_>>>()]. *)
Fixpoint records_of (events : list GatewayEvent) : StoreResult (list EventRecord) :=
  match events with
  | [] => Ok []
  | event :: rest => let? r := from_event event in let? rs := records_of rest in Ok (r :: rs)
  end.

Definition append_record (inserted : Z) (r : EventRecord) : EventM Z :=
  let! existing := query (find_event (log_kind_as_sql (er_kind r), er_event_id r)) in
  match existing with
  | Some row => if bool_decide (el_payload_json row = er_payload_json r) then ret inserted else raise ConflictingGatewayEventReplay
  | None => execute (insert_event_stmt r) ;;; ret (inserted + 1)
  end.

Definition append_batch (events : list GatewayEvent) : EventM Z :=
  let! records := lift (records_of events) in
  match records with
  | [] => ret 0
  | _ => sql_transaction sqlite_fails Sqlite (fold_m append_record records 0)
  end.

(** The record, not the store, is at fault. *)
Definition is_record_poison (error : StoreError) : bool :=
  match error with
  | ConflictingGatewayEventReplay | InvalidPersistedGatewayEvent | DiagnosticEventNotPersistable => true
  | _ => false
  end.

Definition decode_stored_event (row : EventRow) : StoreResult StoredGatewayEvent :=
  let? kind := log_kind_from_sql (el_type row) in
  let? event := ok_or InvalidPersistedGatewayEvent (event_from_str (el_payload_json row)) in
  let? expected := from_event event in
  if negb (bool_decide (er_kind expected = kind)) || negb (bool_decide (er_event_id expected = el_event_id row))
     || negb (bool_decide (er_request_id expected = el_request_id row))
     || negb (bool_decide (er_occurred_at_ms expected = el_occurred_at_ms row))
     || negb (bool_decide (er_payload_json expected = el_payload_json row))
  then Err InvalidPersistedGatewayEvent
  else
    let? request_id := match el_request_id row with
                       | None => Ok None
                       | Some id => let? id := map_err (fun _ => InvalidPersistedGatewayEvent) (id_try_new KRequest id) in Ok (Some id)
                       end in
    Ok (mkStored (el_ordinal row) kind (el_event_id row) request_id (el_occurred_at_ms row) event).

Fixpoint decode_events (rows : list EventRow) : StoreResult (list StoredGatewayEvent) :=
  match rows with
  | [] => Ok []
  | row :: rest => let? e := decode_stored_event row in let? es := decode_events rest in Ok (e :: es)
  end.

(** The statement is prepared and the rows are read. *)
Definition load_events (select : EventDb -> list EventRow) : EventM (list StoredGatewayEvent) :=
  let! rows := query select in lift (decode_events rows).

Definition events_for_request (request_id : RequestId) : EventM (list StoredGatewayEvent) :=
  load_events (List.filter (fun r => bool_decide (el_request_id r = Some (as_str request_id)))).

Definition health_events : EventM (list StoredGatewayEvent) := load_events (List.filter (fun r => bool_decide (el_type r = "health"))).

Definition list_events : EventM (list StoredGatewayEvent) := load_events (fun log => log).

Definition list_events_bounded (limit : Z) : EventM (list StoredGatewayEvent) :=
  let! limit := lift (ok_or InvalidPersistedGatewayEvent (i64_try_from limit)) in
  load_events (take (Z.to_nat limit)).
End Store.

(** ** What the log keeps *)

Section Keeping.
Context `{!EventJson} (sha256 : list Byte.byte -> list Byte.byte).

Abbreviation record := (from_event sha256).

Definition record_identity (r : EventRecord) : string * string := (log_kind_as_sql (er_kind r), er_event_id r).

(** The first record of an identity is kept; what has no record is not. *)
Definition keep_first (log : EventDb) (event : GatewayEvent) : EventDb :=
  match record event with
  | Ok r => match find_event (record_identity r) log with
            | Some _ => log
            | None => log ++ [row_of_record (next_ordinal log) r]
            end
  | _ => log
  end.

Definition keep_all (log : EventDb) (events : list GatewayEvent) : EventDb := fold_left keep_first events log.

(** The log has the event with exactly its content. *)
Definition stored (log : EventDb) (event : GatewayEvent) : bool :=
  match record event with
  | Ok r => match find_event (record_identity r) log with
            | Some row => bool_decide (el_payload_json row = er_payload_json r)
            | None => false
            end
  | _ => false
  end.

(** The log will never change its mind about the event. *)
Definition decided (log : EventDb) (event : GatewayEvent) : Prop :=
  match record event with Ok r => is_Some (find_event (record_identity r) log) | _ => True end.

Lemma find_event_app identity log more :
  find_event identity (log ++ more) = match find_event identity log with Some r => Some r | None => find_event identity more end.
Proof. unfold find_event. induction log as [|r log IH]; simpl; [done|]. by destruct (bool_decide _). Qed.

Lemma found_row identity log r : find_event identity log = Some r -> r ∈ log /\ event_identity r = identity.
Proof. intros [Hin Hb]%List.find_some. split; [by apply list_elem_of_In|by apply bool_decide_eq_true in Hb]. Qed.

Lemma found_new r n : find_event (record_identity r) [row_of_record n r] = Some (row_of_record n r).
Proof. unfold find_event. simpl. by rewrite bool_decide_true. Qed.

Lemma keep_first_grows log e : exists more, keep_first log e = log ++ more.
Proof.
  unfold keep_first. destruct (record e) as [r| |]; try (exists []; by rewrite app_nil_r).
  destruct (find_event _ _); [exists []; by rewrite app_nil_r|by eexists].
Qed.

Lemma keep_all_grows log es : exists more, keep_all log es = log ++ more.
Proof.
  revert log. induction es as [|e es IH]; intros log; [exists []; by rewrite app_nil_r|]. simpl.
  destruct (keep_first_grows log e) as [m1 ->]. destruct (IH (log ++ m1)) as [m2 ->]. exists (m1 ++ m2). by rewrite app_assoc.
Qed.

Lemma keep_all_app log xs ys : keep_all log (xs ++ ys) = keep_all (keep_all log xs) ys.
Proof. apply fold_left_app. Qed.

Lemma decided_app log more e : decided log e -> decided (log ++ more) e.
Proof. unfold decided. destruct (record e); try done. rewrite find_event_app. intros [x ->]. done. Qed.

Lemma decided_keep log es e : decided log e -> decided (keep_all log es) e.
Proof. destruct (keep_all_grows log es) as [more ->]. apply decided_app. Qed.

Lemma stored_app log more e : decided log e -> stored (log ++ more) e = stored log e.
Proof. unfold decided, stored. destruct (record e); try done. rewrite find_event_app. by intros [x ->]. Qed.

Lemma stored_keep log es e : decided log e -> stored (keep_all log es) e = stored log e.
Proof. destruct (keep_all_grows log es) as [more ->]. apply stored_app. Qed.

Lemma stored_decided log e : stored log e = true -> decided log e.
Proof. unfold stored, decided. destruct (record e); try done. by destruct (find_event _ _). Qed.

Lemma kept_decided log e : decided (keep_first log e) e.
Proof.
  unfold decided, keep_first. destruct (record e) as [r| |] eqn:Hr; try done. destruct (find_event _ log) eqn:Hf; [by rewrite Hf|].
  rewrite find_event_app, Hf, found_new. done.
Qed.

Lemma keep_decided log e : decided log e -> keep_first log e = log.
Proof. unfold decided, keep_first. destruct (record e); try done. by intros [x ->]. Qed.

Lemma kept_all_decided log es : Forall (decided (keep_all log es)) es.
Proof.
  revert log. induction es as [|e es IH]; intros log; simpl; [constructor|]. constructor; [apply decided_keep, kept_decided|apply IH].
Qed.

Lemma keep_all_decided log es : Forall (decided log) es -> keep_all log es = log.
Proof. induction 1 as [|e es He _ IH]; simpl; [done|]. by rewrite keep_decided. Qed.

(** Appending a prefix of what is owed again changes nothing twice. *)
Lemma keep_prefix log settled owed n m :
  keep_all (keep_all log (settled ++ take n owed)) (take m owed) = keep_all log (settled ++ take (max n m) owed).
Proof.
  rewrite !keep_all_app. set (base := keep_all log settled). destruct (Nat.le_ge_cases m n) as [Hle|Hge].
  - rewrite Nat.max_l by done. apply keep_all_decided. pose proof (kept_all_decided base (take n owed)) as Hall.
    assert (Htake : take m owed = take m (take n owed)) by (rewrite take_take; f_equal; lia). rewrite Htake. by apply Forall_take.
  - rewrite Nat.max_r by done. assert (Hsplit : take m owed = take n owed ++ take (m - n) (drop n owed)).
    { rewrite <- (take_drop n (take m owed)), take_take. f_equal; [f_equal; lia|]. rewrite skipn_firstn_comm. done. }
    rewrite Hsplit, !keep_all_app. f_equal. apply keep_all_decided, kept_all_decided.
Qed.

(** *** The append *)

Context (sqlite_fails : nat -> bool).
Abbreviation append := (append_batch sha256 sqlite_fails).

Lemma records_cons e es rs : records_of sha256 (e :: es) = Ok rs ->
  exists r rest, record e = Ok r /\ records_of sha256 es = Ok rest /\ rs = r :: rest.
Proof. simpl. intros (r & Hr & (rest & Hrest & [= <-])%result_bind_ok)%result_bind_ok. eauto. Qed.

Lemma append_record_ok k r s n s' : append_record sqlite_fails k r s = (Ok n, s') ->
  (exists row, find_event (record_identity r) (db_of s) = Some row /\ el_payload_json row = er_payload_json r /\ db_of s' = db_of s)
  \/ (find_event (record_identity r) (db_of s) = None /\ db_of s' = db_of s ++ [row_of_record (next_ordinal (db_of s)) r]).
Proof.
  intros (found & s1 & (-> & Hs1 & _)%query_ok & Hrun)%bind_ok. destruct (find_event _ _) as [row|] eqn:Hf.
  - case_bool_decide; [|done]. injection Hrun as _ <-. left. exists row. by rewrite Hs1.
  - right. split; [done|]. apply bind_ok in Hrun as (c & s2 & [Hi _]%execute_ok & Hret). injection Hret as _ <-. rewrite Hs1 in Hi.
    unfold insert_event_stmt in Hi. destruct (find_event (event_identity _) _); [done|]. destruct (event_row_check _); [|done]. by injection Hi.
Qed.

Lemma append_records_ok es rs k s n s' :
  records_of sha256 es = Ok rs -> fold_m (append_record sqlite_fails) rs k s = (Ok n, s') ->
  db_of s' = keep_all (db_of s) es /\ Forall (fun e => stored (db_of s') e = true) es.
Proof.
  revert rs k s. induction es as [|e es IH]; intros rs k s Hrs Hrun; [injection Hrs as <-; by injection Hrun as _ <-|].
  apply records_cons in Hrs as (r & rest & Hr & Hrest & ->). simpl in Hrun. apply bind_ok in Hrun as (k1 & s1 & H1 & Hrun).
  assert (Hs1 : db_of s1 = keep_first (db_of s) e /\ stored (db_of s1) e = true).
  { unfold keep_first, stored. rewrite Hr. apply append_record_ok in H1 as [(row & Hf & Hp & ->)|[Hf ->]].
    - rewrite !Hf. split; [done|by apply bool_decide_eq_true].
    - rewrite Hf, find_event_app, Hf, found_new. split; [done|]. by apply bool_decide_eq_true. }
  destruct Hs1 as [Hs1 Hst]. destruct (IH _ _ _ Hrest Hrun) as [Hdb Hall]. simpl. rewrite <- Hs1. split; [done|]. constructor; [|done].
  rewrite Hdb, stored_keep; [done|]. by apply stored_decided.
Qed.

(** A batch that is appended is kept and stored; one that is not leaves the log alone. *)
Lemma append_exact es s r s' : append es s = (r, s') ->
  match r with
  | Ok _ => db_of s' = keep_all (db_of s) es /\ Forall (fun e => stored (db_of s') e = true) es
  | _ => db_of s' = db_of s
  end.
Proof.
  unfold append_batch. unfold bind at 1, lift. destruct (records_of sha256 es) as [rs|e|] eqn:Hrs; [|by intros [= <- <-]..].
  destruct rs as [|r1 rs].
  - intros [= <- <-]. destruct es as [|e es]; [done|]. apply records_cons in Hrs as (? & ? & _ & _ & [=]).
  - intros Hrun. destruct r as [n|e|].
    + apply transaction_ok in Hrun as (s1 & s2 & Hb & Hs1 & _ & Hs2 & _). rewrite <- Hs1, <- Hs2. by eapply append_records_ok.
    + unfold sql_transaction in Hrun. destruct ((_ ;;; _) s) as [[] ?]; by simplify_eq/=.
    + unfold sql_transaction in Hrun. destruct ((_ ;;; _) s) as [[] ?]; by simplify_eq/=.
Qed.

(** *** Refused records *)

Lemma record_error e x : record e = Err x -> is_record_poison x = true.
Proof.
  unfold from_event. destruct e; simpl; try (by intros [= <-]); (destruct (event_to_string _); simpl; [|by intros [= <-]]); case_match; by intros [= <-].
Qed.

Lemma record_no_panic e : record e <> Panic.
Proof. unfold from_event. destruct e; simpl; try done; (destruct (event_to_string _); simpl; [|done]); by case_match. Qed.

Lemma append_record_err k r s x s' : append_record sqlite_fails k r s = (Err x, s') ->
  x = Sqlite \/ exists row, find_event (record_identity r) (db_of s) = Some row /\ el_payload_json row <> er_payload_json r.
Proof.
  unfold append_record, sql_query, sql_execute, bind, sql_call, raise, ret. destruct (sqlite_fails (calls_of s)); simpl; [intros [= <- _]; by left|].
  destruct (find_event _ _) as [row|] eqn:Hf.
  - case_bool_decide; [done|]. intros _. right. by exists row.
  - simpl. destruct (sqlite_fails _); simpl; [intros [= <- _]; by left|]. destruct (insert_event_stmt r _) as [[]|]; [done|]. intros [= <- _]. by left.
Qed.

(** One event that is refused for its own sake is one the log has decided against. *)
Lemma append_poison e s x s' :
  append [e] s = (Err x, s') -> is_record_poison x = true -> decided (db_of s) e /\ stored (db_of s) e = false.
Proof.
  unfold append_batch, decided, stored, bind at 1, lift. simpl. destruct (record e) as [r|y|] eqn:Hr; simpl; [|done..].
  unfold sql_transaction, bind at 1, sql_call. destruct (sqlite_fails (calls_of s)); simpl; [by intros [= <- _]|].
  unfold bind, ret. destruct (append_record _ _ _ _) as [[m|z|] s3] eqn:Ha; simpl.
  - unfold sql_call. destruct (sqlite_fails _); by intros [= <- _].
  - intros [= -> _] Hp. apply append_record_err in Ha as [->|(row & Hrow & Hne)]; [done|]. simpl in Hrow. rewrite Hrow. split; [done|].
    by apply bool_decide_eq_false.
  - done.
Qed.

(** *** A working store *)

(** SQLite measures the identifiers of the event as not empty. *)
Definition sized (e : GatewayEvent) : Prop :=
  forall r, record e = Ok r -> 0 < sql_length (er_event_id r) /\ forall id, er_request_id r = Some id -> 0 < sql_length id.

Lemma sql_length_bytes s : sql_length s <= Z.of_nat (String.length s).
Proof. induction s as [|a s IH]; simpl; [done|]. repeat case_match; lia. Qed.

Context `{!EventJsonLaws}.

Lemma record_fields e r : record e = Ok r ->
  event_to_string e = Some (er_payload_json r) /\ is_persistable_identifier (er_event_id r) = true
  /\ forall id, er_request_id r = Some id -> is_persistable_identifier id = true.
Proof.
  unfold from_event. destruct e; simpl; try done; (destruct (event_to_string _) eqn:Hj; simpl; [|done]); case_match eqn:Hc; try done; intros [= <-];
    simpl; bool_simp; split_and!; naive_solver.
Qed.

Lemma record_row_check e r n : record e = Ok r -> sized e -> event_row_check (row_of_record n r) = true.
Proof.
  intros Hr Hs. destruct (record_fields e r Hr) as (Hj & Hid & Hreq). destruct (Hs r Hr) as [Hl Hlr].
  assert (Hfit : forall id, is_persistable_identifier id = true -> 0 < sql_length id -> length_between 1 512 id = true).
  { intros id Hp Hpos. unfold is_persistable_identifier, MAX_EVENT_LOG_IDENTIFIER_BYTES in Hp.
    apply andb_true_iff in Hp as [_ Hp%Nat.leb_le]. pose proof (sql_length_bytes id).
    unfold length_between. apply andb_true_iff. rewrite !Z.leb_le. lia. }
  unfold event_row_check. simpl. rewrite (Hfit _ Hid Hl). apply event_text_length in Hj. apply Z.ltb_lt in Hj. rewrite Hj.
  rewrite bool_decide_true by (destruct (er_kind r); set_solver). destruct (er_request_id r) as [id|]; [|done]. by rewrite (Hfit id) by auto.
Qed.

Lemma append_record_runs e r k s :
  (forall n, sqlite_fails n = false) -> record e = Ok r -> sized e ->
  (exists n s', append_record sqlite_fails k r s = (Ok n, s')) \/ exists s', append_record sqlite_fails k r s = (Err ConflictingGatewayEventReplay, s').
Proof.
  intros Hh Hr Hs. unfold append_record, sql_query, sql_execute, bind, sql_call, raise, ret. rewrite Hh. simpl.
  destruct (find_event _ _) as [row|] eqn:Hf; [case_bool_decide; eauto|]. rewrite Hh. simpl. unfold insert_event_stmt.
  change (find_event (event_identity _) _) with (find_event (log_kind_as_sql (er_kind r), er_event_id r) (db_of s)). rewrite Hf.
  rewrite (record_row_check e r _ Hr Hs). eauto.
Qed.

Lemma append_records_run es rs k s :
  (forall n, sqlite_fails n = false) -> records_of sha256 es = Ok rs -> Forall sized es ->
  (exists n s', fold_m (append_record sqlite_fails) rs k s = (Ok n, s'))
  \/ exists s', fold_m (append_record sqlite_fails) rs k s = (Err ConflictingGatewayEventReplay, s').
Proof.
  intros Hh Hrs Hs. revert rs k s Hrs. induction Hs as [|e es He _ IH]; intros rs k s Hrs; [injection Hrs as <-; left; by do 2 eexists|].
  apply records_cons in Hrs as (r & rest & Hr & Hrest & ->). simpl. unfold bind.
  destruct (append_record_runs e r k s Hh Hr He) as [(n & s1 & ->)|(s1 & ->)]; [by apply IH|right; by eexists].
Qed.

Lemma records_error es x : records_of sha256 es = Err x -> is_record_poison x = true.
Proof.
  induction es as [|e es IH]; simpl; [done|]. destruct (record e) as [r|y|] eqn:Hr; simpl; [|intros [= <-]; by eapply record_error|done].
  destruct (records_of sha256 es) as [rs|y|]; simpl; [done|intros [= <-]; auto|done].
Qed.

Lemma records_no_panic es : records_of sha256 es <> Panic.
Proof. induction es as [|e es IH]; simpl; [done|]. apply bind_no_panic; [apply record_no_panic|]. intros r _. by apply bind_no_panic. Qed.

(** On a working store only a record is ever at fault. *)
Lemma append_runs es s :
  (forall n, sqlite_fails n = false) -> Forall sized es ->
  exists s', (exists n, append es s = (Ok n, s')) \/ exists x, append es s = (Err x, s') /\ is_record_poison x = true.
Proof.
  intros Hh Hs. unfold append_batch, bind at 1, lift. destruct (records_of sha256 es) as [rs|x|] eqn:Hrs.
  - destruct rs as [|r rs]; [exists s; left; by eexists|]. unfold sql_transaction, bind, sql_call, ret. rewrite Hh. cbv beta iota zeta.
    destruct (append_records_run es (r :: rs) 0 (mkConn (db_of s) (S (calls_of s)) (draws_of s)) Hh Hrs Hs) as [(n & s1 & ->)|(s1 & ->)].
    + rewrite Hh. eexists. left. by eexists.
    + eexists. right. eexists. split; reflexivity.
  - exists s. right. exists x. split; [done|]. by eapply records_error.
  - by apply records_no_panic in Hrs.
Qed.

(** *** Reading back *)

(** The row of an event. *)
Definition written_as (row : EventRow) (e : GatewayEvent) : Prop := exists r, record e = Ok r /\ row = row_of_record (el_ordinal row) r.

(** The events of [es] that the log did not have. *)
Fixpoint kept (log : EventDb) (es : list GatewayEvent) : list GatewayEvent :=
  match es with
  | [] => []
  | e :: es => if (length log <? length (keep_first log e))%nat then e :: kept (keep_first log e) es else kept log es
  end.

Lemma keep_first_cases log e :
  (keep_first log e = log) \/ exists row, keep_first log e = log ++ [row] /\ written_as row e /\ el_ordinal row = next_ordinal log.
Proof.
  unfold keep_first. destruct (record e) as [r| |] eqn:Hr; [|by left..]. destruct (find_event _ _); [by left|]. right. eexists. split; [done|].
  split; [|done]. by exists r.
Qed.

Lemma keep_all_written log es0 es :
  Forall2 written_as log es0 -> Forall2 written_as (keep_all log es) (es0 ++ kept log es).
Proof.
  revert log es0. induction es as [|e es IH]; intros log es0 Hw; simpl; [by rewrite app_nil_r|].
  destruct (keep_first_cases log e) as [->|(row & -> & Hrow & _)].
  - rewrite Nat.ltb_irrefl. by apply IH.
  - rewrite length_app. simpl. replace (_ <? _)%nat with true by (symmetry; apply Nat.ltb_lt; lia).
    change (e :: kept (log ++ [row]) es) with ([e] ++ kept (log ++ [row]) es). rewrite app_assoc. apply IH. apply Forall2_app; [done|by repeat constructor].
Qed.

(** Ordinals count the rows from one. *)
Definition numbered (log : EventDb) : Prop := el_ordinal <$> log = seqZ 1 (Z.of_nat (length log)).

Lemma numbered_snoc log row : numbered log -> el_ordinal row = next_ordinal log -> numbered (log ++ [row]).
Proof.
  unfold numbered, next_ordinal. intros Hl Hrow. rewrite fmap_app, length_app, Nat2Z.inj_add, seqZ_app by lia. rewrite Hl. f_equal. simpl.
  rewrite Hrow. destruct log as [|x log _] using rev_ind; [done|]. rewrite last_snoc, length_app in *. simpl in *.
  rewrite Nat2Z.inj_add, seqZ_app, fmap_app in Hl by lia. simpl in Hl. apply app_inj_tail in Hl as [_ Hx]. unfold seqZ. simpl.
  rewrite Hx. simpl. f_equal. lia.
Qed.

Lemma keep_all_numbered log es : numbered log -> numbered (keep_all log es).
Proof.
  revert log. induction es as [|e es IH]; intros log Hl; simpl; [done|]. apply IH.
  destruct (keep_first_cases log e) as [->|(row & -> & _ & Hrow)]; [done|]. by apply numbered_snoc.
Qed.

Lemma decode_written row e :
  written_as row e -> exists st, decode_stored_event sha256 row = Ok st /\ sg_event st = e /\ sg_ordinal st = el_ordinal row.
Proof.
  intros (r & Hr & Hrow). destruct (record_fields e r Hr) as (Hj & _ & Hreq). apply event_reads_back in Hj.
  unfold decode_stored_event. rewrite Hrow. simpl. assert (Hk : log_kind_from_sql (log_kind_as_sql (er_kind r)) = Ok (er_kind r)) by (by destruct (er_kind r)).
  rewrite Hk. simpl. rewrite Hj. simpl. rewrite Hr. simpl. rewrite !bool_decide_true by done. simpl.
  destruct (er_request_id r) as [id|] eqn:Hid; simpl; [|by eexists]. specialize (Hreq id eq_refl). unfold is_persistable_identifier in Hreq.
  apply andb_true_iff in Hreq as [Hne _]. apply negb_true_iff in Hne. unfold id_try_new. rewrite Hne. simpl. by eexists.
Qed.

Lemma decode_rows_written log es :
  Forall2 written_as log es ->
  exists l, decode_events sha256 log = Ok l /\ sg_event <$> l = es /\ sg_ordinal <$> l = el_ordinal <$> log.
Proof.
  induction 1 as [|row e log es Hrow _ (l & Hl & He & Ho)]; [by exists []|]. destruct (decode_written row e Hrow) as (st & Hst & <- & Hord).
  exists (st :: l). simpl. rewrite Hst. simpl. rewrite Hl. simpl. split_and!; [done|f_equal; exact He|]. f_equal; [exact Hord|exact Ho].
Qed.
End Keeping.
End Events.
