(* ===== verification/EventWriter.v ===== *)
(** * Lifecycle events: the writer

    Models the asynchronous writer of [crates/gateway-store/src/event_store.rs]: it
    takes events from the queue of [EventLog], batches the required ones, appends a
    batch in one transaction, repeats a batch the store could not take, and replays a
    batch with a poisoned record one event at a time.

    A step of the writer runs to its next [await]; producers emit, and are dropped,
    between any two steps. The blocking worker of a write may be lost before or after
    it committed. *)

From S2P Require Import Prelude Text Octets Core ClientKey ControlPlane StoreRows StoreSchema SqliteTx EventLog.
Local Open Scope string_scope.
Local Open Scope list_scope.
Local Open Scope Z_scope.

Module Writer.
Import Events.

Definition MAX_EVENT_WRITER_BATCH_SIZE : nat := 1024.
Definition DEFAULT_EVENT_WRITER_BATCH_SIZE : nat := 64.
Definition DEFAULT_EVENT_WRITER_RETRY_DELAY : Duration := from_millis 25.

Record EventWriterConfig : Type := mkWriterConfig {
  batch_size : nat;
  retry_delay : Duration;
}.

Inductive EventWriterConfigError : Type := ZeroBatchSize | BatchSizeTooLarge | ZeroRetryDelay.

Definition writer_config_try_new (size : nat) (delay : Duration) : result EventWriterConfigError EventWriterConfig :=
  if (size =? 0)%nat then Err ZeroBatchSize
  else if (MAX_EVENT_WRITER_BATCH_SIZE <? size)%nat then Err BatchSizeTooLarge
  else if is_zero delay then Err ZeroRetryDelay
  else Ok (mkWriterConfig size delay).

Definition writer_config_default : EventWriterConfig :=
  mkWriterConfig DEFAULT_EVENT_WRITER_BATCH_SIZE DEFAULT_EVENT_WRITER_RETRY_DELAY.

Record EventWriterMetrics : Type := mkWriterMetrics {
  required_events_committed : Z;
  rows_inserted : Z;
  diagnostics_not_persisted : Z;
  sqlite_write_failures : Z;
  required_events_quarantined : Z;
  pending_required : Z;
}.

Inductive EventWriteFailure : Type := Transient | PoisonedRecord.

(** Where [run] is: in the loop of [drain_ready_events], waiting in [recv], writing the
    batch, in the loop of [quarantine_poisoned_pending], or done. *)
Inductive WriterPhase : Type :=
| Draining
| Waiting
| Writing
| Replaying (remaining : list GatewayEvent)
| Finished (metrics : EventWriterMetrics).

(** [aw_store] says whether a store is open; [aw_telemetry] are the events the pipeline,
    if there is one, has observed. *)
Record AsyncSqliteEventWriter : Type := mkWriter {
  aw_config : EventWriterConfig;
  aw_store : bool;
  aw_pending : list GatewayEvent;
  aw_metrics : EventWriterMetrics;
  aw_telemetry : option (list GatewayEvent);
  aw_phase : WriterPhase;
}.

Definition writer_new (config : EventWriterConfig) : AsyncSqliteEventWriter :=
  mkWriter config false [] (mkWriterMetrics 0 0 0 0 0 0) None Draining.

Definition with_telemetry_pipeline (w : AsyncSqliteEventWriter) : AsyncSqliteEventWriter :=
  mkWriter (aw_config w) (aw_store w) (aw_pending w) (aw_metrics w) (Some []) (aw_phase w).

Definition set_writer_phase (phase : WriterPhase) (w : AsyncSqliteEventWriter) : AsyncSqliteEventWriter :=
  mkWriter (aw_config w) (aw_store w) (aw_pending w) (aw_metrics w) (aw_telemetry w) phase.
Definition set_pending (pending : list GatewayEvent) (w : AsyncSqliteEventWriter) : AsyncSqliteEventWriter :=
  mkWriter (aw_config w) (aw_store w) pending (aw_metrics w) (aw_telemetry w) (aw_phase w).
Definition set_metrics (metrics : EventWriterMetrics) (w : AsyncSqliteEventWriter) : AsyncSqliteEventWriter :=
  mkWriter (aw_config w) (aw_store w) (aw_pending w) metrics (aw_telemetry w) (aw_phase w).
Definition set_store (store : bool) (w : AsyncSqliteEventWriter) : AsyncSqliteEventWriter :=
  mkWriter (aw_config w) store (aw_pending w) (aw_metrics w) (aw_telemetry w) (aw_phase w).

Definition count_committed (committed inserted : Z) (m : EventWriterMetrics) : EventWriterMetrics :=
  mkWriterMetrics (fetch_add (required_events_committed m) committed) (fetch_add (rows_inserted m) inserted) (diagnostics_not_persisted m)
    (sqlite_write_failures m) (required_events_quarantined m) (pending_required m).
Definition count_diagnostic (m : EventWriterMetrics) : EventWriterMetrics :=
  mkWriterMetrics (required_events_committed m) (rows_inserted m) (fetch_add (diagnostics_not_persisted m) 1) (sqlite_write_failures m)
    (required_events_quarantined m) (pending_required m).
Definition count_failure (m : EventWriterMetrics) : EventWriterMetrics :=
  mkWriterMetrics (required_events_committed m) (rows_inserted m) (diagnostics_not_persisted m) (fetch_add (sqlite_write_failures m) 1)
    (required_events_quarantined m) (pending_required m).
Definition count_quarantined (m : EventWriterMetrics) : EventWriterMetrics :=
  mkWriterMetrics (required_events_committed m) (rows_inserted m) (diagnostics_not_persisted m) (sqlite_write_failures m)
    (fetch_add (required_events_quarantined m) 1) (pending_required m).
Definition gauge_pending (pending : nat) (m : EventWriterMetrics) : EventWriterMetrics :=
  mkWriterMetrics (required_events_committed m) (rows_inserted m) (diagnostics_not_persisted m) (sqlite_write_failures m)
    (required_events_quarantined m) (Z.of_nat pending).

Definition update_pending_metric (w : AsyncSqliteEventWriter) : AsyncSqliteEventWriter :=
  set_metrics (gauge_pending (length (aw_pending w)) (aw_metrics w)) w.

Definition observe_telemetry (event : GatewayEvent) (w : AsyncSqliteEventWriter) : AsyncSqliteEventWriter :=
  mkWriter (aw_config w) (aw_store w) (aw_pending w) (aw_metrics w) ((fun seen => seen ++ [event]) <$> aw_telemetry w) (aw_phase w).

Definition accept_event (event : GatewayEvent) (w : AsyncSqliteEventWriter) : AsyncSqliteEventWriter :=
  let w := observe_telemetry event w in
  match priority event with
  | PriorityRequired => update_pending_metric (set_pending (aw_pending w ++ [event]) w)
  | PriorityDiagnostic => set_metrics (count_diagnostic (aw_metrics w)) w
  end.

(** ** Writing *)

(** [spawn_blocking]: the closure runs, or its result is lost, after it ran or not. *)
Inductive BlockingFate : Type := Runs | Lost (ran : bool).

Record PipelineWorld : Type := mkWorld {
  wo_queue : EventQueue;
  wo_writer : AsyncSqliteEventWriter;
  wo_conn : Conn EventDb;
}.

Section Run.
Context `{!EventJson} (sha256 : list Byte.byte -> list Byte.byte) (sqlite_fails : nat -> bool).

(** The closure: it opens the store if there is none, and returns it with the result. *)
Definition append_blocking (store : bool) (events : list GatewayEvent) (conn : Conn EventDb)
  : bool * result StoreError Z * Conn EventDb :=
  match (if store then ret tt else sql_call sqlite_fails Sqlite) conn with
  | (Ok _, conn) => let '(r, conn) := append_batch sha256 sqlite_fails events conn in (true, r, conn)
  | (Err e, conn) => (false, Err e, conn)
  | (Panic, conn) => (false, Panic, conn)
  end.

Definition write_events (fate : BlockingFate) (events : list GatewayEvent) (w : AsyncSqliteEventWriter) (conn : Conn EventDb)
  : result EventWriteFailure Z * AsyncSqliteEventWriter * Conn EventDb :=
  match fate with
  | Runs =>
      match append_blocking (aw_store w) events conn with
      | (store, Ok inserted, conn) => (Ok inserted, set_store store w, conn)
      | (store, Err error, conn) => (Err (if is_record_poison error then PoisonedRecord else Transient), set_store store w, conn)
      | (_, Panic, conn) => (Err Transient, set_store false w, conn)
      end
  | Lost ran => (Err Transient, set_store false w, if ran then (append_blocking (aw_store w) events conn).2 else conn)
  end.

(** ** Steps of [run] *)

(** One pass of [while self.pending.len() < self.config.batch_size()], or its end. *)
Definition drain_ready_events (q : EventQueue) (w : AsyncSqliteEventWriter) : EventQueue * AsyncSqliteEventWriter :=
  let leave := set_writer_phase (match aw_pending w with [] => Waiting | _ => Writing end) w in
  if (length (aw_pending w) <? batch_size (aw_config w))%nat
  then match try_recv q with
       | (Some event, q') => (q', accept_event event w)
       | (None, q') => (q', leave)
       end
  else (q, leave).

Definition close_receivers (q : EventQueue) : EventQueue :=
  mkQueue (q_config q) (q_required q) (q_diagnostic q) (q_senders q) false (q_metrics q).

Definition write_pending (fate : BlockingFate) (w : AsyncSqliteEventWriter) (conn : Conn EventDb)
  : AsyncSqliteEventWriter * Conn EventDb :=
  match write_events fate (aw_pending w) w conn with
  | (Ok inserted, w, conn) =>
      let committed := Z.of_nat (length (aw_pending w)) in
      (set_writer_phase Draining (update_pending_metric (set_pending [] (set_metrics (count_committed committed inserted (aw_metrics w)) w))), conn)
  | (Err PoisonedRecord, w, conn) => (set_writer_phase (Replaying (aw_pending w)) (set_pending [] w), conn)
  | (_, w, conn) => (set_writer_phase Draining (set_metrics (count_failure (aw_metrics w)) w), conn)
  end.

(** One pass of [while let Some(event) = remaining.pop_front()], or its end. *)
Definition replay_next (fate : BlockingFate) (remaining : list GatewayEvent) (w : AsyncSqliteEventWriter) (conn : Conn EventDb)
  : AsyncSqliteEventWriter * Conn EventDb :=
  match remaining with
  | [] => (set_writer_phase Draining (update_pending_metric w), conn)
  | event :: rest =>
      let w := set_metrics (gauge_pending (S (length rest)) (aw_metrics w)) w in
      match write_events fate [event] w conn with
      | (Ok inserted, w, conn) => (set_writer_phase (Replaying rest) (set_metrics (count_committed 1 inserted (aw_metrics w)) w), conn)
      | (Err PoisonedRecord, w, conn) => (set_writer_phase (Replaying rest) (set_metrics (count_quarantined (aw_metrics w)) w), conn)
      | (_, w, conn) =>
          let w := update_pending_metric (set_pending (aw_pending w ++ event :: rest) w) in
          (set_writer_phase Draining (set_metrics (count_failure (aw_metrics w)) w), conn)
      end
  end.

(** [None] when [recv] is not ready or [run] has returned. *)
Definition run_step (fate : BlockingFate) (x : PipelineWorld) : option PipelineWorld :=
  let w := wo_writer x in
  match aw_phase w with
  | Draining => let '(q, w) := drain_ready_events (wo_queue x) w in Some (mkWorld q w (wo_conn x))
  | Waiting =>
      match queue_recv (wo_queue x) with
      | Some (Some event, q) => Some (mkWorld q (set_writer_phase Draining (accept_event event w)) (wo_conn x))
      | Some (None, q) => Some (mkWorld (close_receivers q) (set_writer_phase (Finished (aw_metrics w)) w) (wo_conn x))
      | None => None
      end
  | Writing => let '(w, conn) := write_pending fate w (wo_conn x) in Some (mkWorld (wo_queue x) w conn)
  | Replaying remaining => let '(w, conn) := replay_next fate remaining w (wo_conn x) in Some (mkWorld (wo_queue x) w conn)
  | Finished _ => None
  end.

(** ** Runs of the pipeline *)

(** The world and the events the queue has admitted, in order. *)
Record Pipeline : Type := mkPipeline {
  pl_world : PipelineWorld;
  pl_admitted : list GatewayEvent;
}.

Inductive pipeline_step : Pipeline -> Pipeline -> Prop :=
| step_emit event out q q' w conn admitted :
    q_senders q = true -> try_emit event q = (out, q') ->
    pipeline_step (mkPipeline (mkWorld q w conn) admitted)
      (mkPipeline (mkWorld q' w conn) (match out with Enqueued => admitted ++ [event] | _ => admitted end))
| step_drop_senders q w conn admitted :
    pipeline_step (mkPipeline (mkWorld q w conn) admitted) (mkPipeline (mkWorld (drop_senders q) w conn) admitted)
| step_writer fate x x' admitted :
    run_step fate x = Some x' -> pipeline_step (mkPipeline x admitted) (mkPipeline x' admitted).

(** A pipeline as the gateway builds it, on a log that may hold earlier rows. *)
Inductive pipeline_start (log : EventDb) : Pipeline -> Prop :=
| start qc q size delay wc telemetry calls draws :
    queue_try_new qc = Ok q -> writer_config_try_new size delay = Ok wc ->
    pipeline_start log (mkPipeline (mkWorld q (if telemetry : bool then with_telemetry_pipeline (writer_new wc) else writer_new wc)
      (mkConn log calls draws)) []).

Inductive pipeline_reachable (log : EventDb) : Pipeline -> Prop :=
| pipeline_begins p : pipeline_start log p -> pipeline_reachable log p
| pipeline_moves p p' : pipeline_reachable log p -> pipeline_step p p' -> pipeline_reachable log p'.

(** [k] steps of [run] in which no worker is lost. *)
Fixpoint run_steps (k : nat) (x : PipelineWorld) : PipelineWorld :=
  match k with
  | O => x
  | S k => match run_step Runs x with Some x' => run_steps k x' | None => x end
  end.
End Run.

(** ** What every run keeps *)

Definition is_required (e : GatewayEvent) : bool := match priority e with PriorityRequired => true | PriorityDiagnostic => false end.

(** The required events the writer holds. *)
Definition owed (w : AsyncSqliteEventWriter) : list GatewayEvent :=
  aw_pending w ++ match aw_phase w with Replaying remaining => remaining | _ => [] end.

Section Invariant.
Context `{!EventJson} (sha256 : list Byte.byte -> list Byte.byte) (sqlite_fails : nat -> bool).
Abbreviation keep := (keep_all sha256).
Abbreviation is_stored := (stored sha256).

(** The log holds what was settled and, when a worker was lost after it committed, the
    first [n] of the events still owed; every settled event is decided. *)
Record log_ok (log db : EventDb) (settled owed : list GatewayEvent) (n committed quarantined : nat) : Prop := {
  lk_prefix : (n <= length owed)%nat;
  lk_log : db = keep log (settled ++ take n owed);
  lk_decided : Forall (decided sha256 db) settled;
  lk_committed : length (List.filter (is_stored db) settled) = committed;
  lk_quarantined : length (List.filter (fun e => negb (is_stored db e)) settled) = quarantined;
}.

Lemma filter_ext_Forall {A} (f g : A -> bool) l : Forall (fun x => f x = g x) l -> List.filter f l = List.filter g l.
Proof. induction 1 as [|x l Hx _ IH]; simpl; [done|]. by rewrite Hx, IH. Qed.

(** The writer appends a prefix of what it owes. *)
Lemma log_write log db settled owed n c q k :
  (k <= length owed)%nat -> log_ok log db settled owed n c q -> log_ok log (keep db (take k owed)) settled owed (max n k) c q.
Proof.
  intros Hk [Hn Hdb Hdec Hc Hq]. split.
  - lia.
  - rewrite Hdb. apply keep_prefix.
  - eapply Forall_impl; [exact Hdec|]. intros e. apply decided_keep.
  - rewrite <- Hc. f_equal. apply filter_ext_Forall. eapply Forall_impl; [exact Hdec|]. intros e He. by apply stored_keep.
  - rewrite <- Hq. f_equal. apply filter_ext_Forall. eapply Forall_impl; [exact Hdec|]. intros e He. simpl. by rewrite stored_keep.
Qed.

(** What is in the log is settled. *)
Lemma log_settle log db settled owed n c q k :
  (k <= n)%nat -> log_ok log db settled owed n c q ->
  log_ok log db (settled ++ take k owed) (drop k owed) (n - k)
    (c + length (List.filter (is_stored db) (take k owed))) (q + length (List.filter (fun e => negb (is_stored db e)) (take k owed))).
Proof.
  intros Hk [Hn Hdb Hdec Hc Hq]. assert (Htake : take n owed = take k owed ++ take (n - k) (drop k owed)).
  { rewrite <- (take_drop k (take n owed)), take_take, skipn_firstn_comm. f_equal. f_equal. lia. }
  split.
  - rewrite length_drop. lia.
  - by rewrite <- app_assoc, <- Htake.
  - apply Forall_app. split; [done|]. rewrite Hdb, Htake, !keep_all_app. apply Forall_forall. intros e He. apply decided_keep.
    pose proof (kept_all_decided sha256 (keep log settled) (take k owed)) as Hall. rewrite Forall_forall in Hall. by apply Hall.
  - by rewrite List.filter_app, length_app, Hc.
  - by rewrite List.filter_app, length_app, Hq.
Qed.

Lemma log_receive log db settled owed n c q e : log_ok log db settled owed n c q -> log_ok log db settled (owed ++ [e]) n c q.
Proof. intros [Hn Hdb Hdec Hc Hq]. split; try done; [rewrite length_app; lia|]. by rewrite take_app_le. Qed.

Lemma stored_all db es :
  Forall (fun e => is_stored db e = true) es ->
  length (List.filter (is_stored db) es) = length es /\ length (List.filter (fun e => negb (is_stored db e)) es) = 0%nat.
Proof. induction 1 as [|e es He _ [IH1 IH2]]; simpl; [done|]. rewrite He. simpl. by rewrite IH1, IH2. Qed.

(** *** One write *)

Lemma blocking_exact store es conn b r conn' : append_blocking sha256 sqlite_fails store es conn = (b, r, conn') ->
  (exists conn1, db_of conn1 = db_of conn /\ append_batch sha256 sqlite_fails es conn1 = (r, conn'))
  \/ (r = Err Sqlite /\ db_of conn' = db_of conn).
Proof.
  unfold append_blocking. destruct store; simpl.
  - destruct (append_batch _ _ es conn) as [r1 c1] eqn:Ha. intros [= <- <- <-]. left. by exists conn.
  - unfold sql_call. destruct (sqlite_fails _); [intros [= <- <- <-]; by right|].
    destruct (append_batch _ _ es _) as [r1 c1] eqn:Ha. intros [= <- <- <-]. left. eexists. split; [|exact Ha]. done.
Qed.

Lemma blocking_db store es conn b r conn' : append_blocking sha256 sqlite_fails store es conn = (b, r, conn') ->
  db_of conn' = db_of conn \/ db_of conn' = keep (db_of conn) es.
Proof.
  intros [(c1 & Hc & Ha)|[_ Hd]]%blocking_exact; [|by left]. apply append_exact in Ha. rewrite Hc in Ha. destruct r; [right; apply Ha|by left..].
Qed.

Lemma write_exact fate es w conn r w' conn' : write_events sha256 sqlite_fails fate es w conn = (r, w', conn') ->
  (exists b, w' = set_store b w)
  /\ match r with
     | Ok _ => db_of conn' = keep (db_of conn) es /\ Forall (fun e => is_stored (db_of conn') e = true) es
     | Err PoisonedRecord => db_of conn' = db_of conn
         /\ forall e, es = [e] -> decided sha256 (db_of conn) e /\ is_stored (db_of conn) e = false
     | Err Transient => db_of conn' = db_of conn \/ db_of conn' = keep (db_of conn) es
     | Panic => False
     end.
Proof.
  destruct fate as [|ran]; simpl.
  - destruct (append_blocking _ _ _ _ _) as [[b [n|x|]] c1] eqn:Hb; intros [= <- <- <-]; (split; [by eexists|]).
    + apply blocking_exact in Hb as [(c0 & Hc & Ha)|[? _]]; [|done]. apply append_exact in Ha. by rewrite Hc in Ha.
    + pose proof (blocking_db _ _ _ _ _ _ Hb) as Hdb. destruct (is_record_poison x) eqn:Hp; [|done].
      apply blocking_exact in Hb as [(c0 & Hc & Ha)|[[= ->] _]]; [|done]. pose proof (append_exact _ _ _ _ _ _ Ha) as Hd. simpl in Hd.
      split; [congruence|]. intros e ->. rewrite <- Hc. by eapply append_poison.
    + by apply blocking_db in Hb.
  - intros [= <- <- <-]. split; [by eexists|]. destruct ran; [|by left].
    destruct (append_blocking _ _ _ _ _) as [[b r] c1] eqn:Hb. by apply blocking_db in Hb.
Qed.

(** *** The pipeline *)

Definition u64_count (n : nat) : Z := Z.of_nat n mod 2 ^ 64.

Lemma fetch_count n k : fetch_add (u64_count n) (Z.of_nat k) = u64_count (n + k).
Proof. unfold fetch_add, u64_count. by rewrite Nat2Z.inj_add, Zplus_mod_idemp_l. Qed.

Definition phase_ok (q : EventQueue) (w : AsyncSqliteEventWriter) : Prop :=
  match aw_phase w with
  | Draining => True
  | Waiting | Replaying _ => aw_pending w = []
  | Writing => aw_pending w <> []
  | Finished m => aw_pending w = [] /\ q_required q = [] /\ q_diagnostic q = [] /\ q_senders q = false /\ m = aw_metrics w
  end.

(** Admitted events are settled, owed or queued, in the order of admission; the writer has
    received the first ones, which the telemetry pipeline saw once each; the counters
    count them. *)
Record pipeline_ok (log : EventDb) (q : EventQueue) (w : AsyncSqliteEventWriter) (conn : Conn EventDb)
    (admitted settled received : list GatewayEvent) (n committed quarantined : nat) : Prop := {
  po_log : log_ok log (db_of conn) settled (owed w) n committed quarantined;
  po_required : List.filter is_required admitted = List.filter is_required received ++ q_required q;
  po_diagnostic : List.filter (fun e => negb (is_required e)) admitted
    = List.filter (fun e => negb (is_required e)) received ++ q_diagnostic q;
  po_received : List.filter is_required received = settled ++ owed w;
  po_telemetry : forall seen, aw_telemetry w = Some seen -> seen = received;
  po_committed : required_events_committed (aw_metrics w) = u64_count committed;
  po_quarantined : required_events_quarantined (aw_metrics w) = u64_count quarantined;
  po_discarded : diagnostics_not_persisted (aw_metrics w)
    = u64_count (length (List.filter (fun e => negb (is_required e)) received));
  po_gauge : (forall remaining, aw_phase w <> Replaying remaining) ->
    pending_required (aw_metrics w) = Z.of_nat (length (aw_pending w));
  po_batch : (length (owed w) <= batch_size (aw_config w))%nat;
  po_phase : phase_ok q w;
  po_queue : (length (q_required q) <= required_capacity (q_config q))%nat
    /\ (length (q_diagnostic q) <= diagnostic_capacity (q_config q))%nat;
  po_batch_size : (0 < batch_size (aw_config w))%nat;
}.

(** The invariant with its ghosts hidden. *)
Definition pipeline_good (log : EventDb) (p : Pipeline) : Prop :=
  exists settled received n c k, pipeline_ok log (wo_queue (pl_world p)) (wo_writer (pl_world p)) (wo_conn (pl_world p)) (pl_admitted p)
    settled received n c k.

Lemma pipeline_start_ok log p : pipeline_start log p -> pipeline_good log p.
Proof.
  intros [qc q size delay wc telemetry calls draws Hq Hw]. exists [], [], 0%nat, 0%nat, 0%nat.
  unfold queue_try_new in Hq. apply result_bind_ok in Hq as (c & Hc & [= <-]). unfold writer_config_try_new in Hw.
  destruct (Nat.eqb_spec size 0) as [|Hsize]; [done|]. repeat (destruct (_ : bool); [done|]). injection Hw as <-.
  destruct telemetry; split; simpl; try done; try lia; try (split; simpl; (done || lia)); by intros seen [= <-].
Qed.

Lemma emit_step log event out q q' w conn admitted :
  q_senders q = true -> try_emit event q = (out, q') -> pipeline_good log (mkPipeline (mkWorld q w conn) admitted) ->
  pipeline_good log (mkPipeline (mkWorld q' w conn) (match out with Enqueued => admitted ++ [event] | _ => admitted end)).
Proof.
  intros Hs He (settled & received & n & c & k & [Hlog Hreq Hdiag Hrec Htel Hc Hk Hd Hg Hb Hph [Hq1 Hq2] Hbs]). exists settled, received, n, c, k.
  assert (Hphase : forall q1, q_senders q1 = true -> phase_ok q1 w).
  { intros q1 H1. unfold phase_ok in *. simpl in *. destruct (aw_phase w); try done. destruct Hph as (_ & _ & _ & ? & _). congruence. }
  unfold try_emit in He. destruct (q_receivers q); simpl in He; [|injection He as <- <-; split; try done; by apply Hphase].
  assert (Hr : is_required event = match priority event with PriorityRequired => true | PriorityDiagnostic => false end) by done.
  destruct (priority event);
    [destruct (Nat.ltb_spec (length (q_required q)) (required_capacity (q_config q)))
    |destruct (Nat.ltb_spec (length (q_diagnostic q)) (diagnostic_capacity (q_config q)))]; injection He as <- <-; split; simpl in *; try done.
  all: try (rewrite List.filter_app; simpl; rewrite Hr; simpl; rewrite ?app_nil_r, ?app_assoc; congruence).
  all: try (by apply Hphase).
  all: rewrite length_app; simpl; split; lia.
Qed.

Lemma set_phase_same w : set_writer_phase (aw_phase w) w = w.
Proof. by destruct w. Qed.

(** The class of a received event is that of its channel. *)
Lemma received_class log q w conn admitted settled received n c k e q' :
  pipeline_ok log q w conn admitted settled received n c k -> try_recv q = (Some e, q') ->
  (is_required e = true /\ q_required q = e :: q_required q' /\ q_diagnostic q' = q_diagnostic q
   \/ is_required e = false /\ q_required q = [] /\ q_required q' = [] /\ q_diagnostic q = e :: q_diagnostic q')
  /\ q_config q' = q_config q /\ q_senders q' = q_senders q.
Proof.
  intros [_ Hreq Hdiag _ _ _ _ _ _ _ _ _ _] Hr. unfold try_recv in Hr. destruct (q_required q) as [|x rest].
  - destruct (q_diagnostic q) as [|x rest]; [done|]. injection Hr as -> <-. split; [|done]. right. split_and!; try done. apply negb_true_iff.
    assert (Hin : In e (List.filter (fun e => negb (is_required e)) admitted)) by (rewrite Hdiag; apply in_or_app; right; by left).
    by apply List.filter_In in Hin as [_ ?].
  - injection Hr as -> <-. split; [|done]. left. split_and!; try done.
    assert (Hin : In e (List.filter is_required admitted)) by (rewrite Hreq; apply in_or_app; right; by left).
    by apply List.filter_In in Hin as [_ ?].
Qed.

Lemma accept_ok log q w conn admitted settled received n c k e q' :
  pipeline_ok log q w conn admitted settled received n c k -> try_recv q = (Some e, q') -> owed w = aw_pending w ->
  (forall remaining, aw_phase w <> Replaying remaining) -> (length (aw_pending w) < batch_size (aw_config w))%nat ->
  pipeline_ok log q' (set_writer_phase Draining (accept_event e w)) conn admitted settled (received ++ [e]) n c k.
Proof.
  intros Hok Hr Hpend Hphase Hroom. destruct (received_class _ _ _ _ _ _ _ _ _ _ e q' Hok Hr) as [Hclass [Hcf Hsn]].
  destruct Hok as [Hlog Hreq Hdiag Hrec Htel Hc Hk Hd Hg Hb Hph [Hq1 Hq2] Hbs]. rewrite Hpend in *. specialize (Hg Hphase).
  assert (Hp : is_required e = match priority e with PriorityRequired => true | PriorityDiagnostic => false end) by done.
  assert (Htel' : forall seen, (fun seen => seen ++ [e]) <$> aw_telemetry w = Some seen -> seen = received ++ [e]).
  { destruct (aw_telemetry w) as [seen0|]; [|done]. intros seen [= <-]. f_equal. by apply Htel. }
  unfold accept_event, update_pending_metric. destruct Hclass as [(He & Hq & Hqd)|(He & Hq & Hq' & Hqd)].
  - destruct (priority e); [|congruence]. rewrite Hq in Hreq, Hq1. simpl in Hq1.
    split; unfold owed; simpl; rewrite ?app_nil_r, ?Hcf, ?Hqd, ?List.filter_app; simpl; rewrite ?He; simpl; rewrite ?app_nil_r; try done.
    + by apply log_receive.
    + by rewrite <- app_assoc.
    + by rewrite Hrec, app_assoc.
    + rewrite length_app. simpl. lia.
    + split; [lia|done].
  - destruct (priority e); [congruence|]. rewrite Hqd in Hdiag, Hq2. rewrite Hq, app_nil_r in Hreq. simpl in Hq2.
    split; unfold owed; simpl; rewrite ?app_nil_r, ?Hcf, ?Hq', ?List.filter_app; simpl; rewrite ?He; simpl; rewrite ?app_nil_r; try done.
    + by rewrite <- app_assoc.
    + rewrite Hd, length_app. simpl. apply (fetch_count _ 1).
    + split; [simpl; lia|lia].
Qed.

Lemma drain_ok log q w conn admitted :
  aw_phase w = Draining -> pipeline_good log (mkPipeline (mkWorld q w conn) admitted) ->
  let x := drain_ready_events q w in pipeline_good log (mkPipeline (mkWorld x.1 x.2 conn) admitted).
Proof.
  intros Hw (settled & received & n & c & k & Hok) x. simpl in Hok. assert (Hpend : owed w = aw_pending w) by (unfold owed; by rewrite Hw, app_nil_r).
  assert (Hleave : pipeline_good log (mkPipeline (mkWorld q (set_writer_phase (match aw_pending w with [] => Waiting | _ => Writing end) w) conn) admitted)).
  { exists settled, received, n, c, k. simpl. destruct Hok as [Hlog Hreq Hdiag Hrec Htel Hc Hk Hd Hg Hb Hph Hq Hbs]. rewrite Hpend in *.
    specialize (Hg ltac:(by rewrite Hw)).
    unfold phase_ok in Hph. destruct (aw_pending w) eqn:Hpe; split; simpl; unfold owed, phase_ok; simpl; rewrite ?Hpe, ?app_nil_r;
      (done || by rewrite app_nil_r in Hrec). }
  unfold x, drain_ready_events. destruct (Nat.ltb_spec (length (aw_pending w)) (batch_size (aw_config w))); [|exact Hleave].
  destruct (try_recv q) as [[e|] q'] eqn:Hr; simpl.
  - exists settled, (received ++ [e]), n, c, k. simpl.
    assert (Hsame : set_writer_phase Draining (accept_event e w) = accept_event e w).
    { unfold accept_event, update_pending_metric, set_writer_phase, set_metrics, set_pending, observe_telemetry. destruct (priority e); simpl; by rewrite Hw. }
    rewrite <- Hsame. by apply (accept_ok _ q w); [..|rewrite Hw|].
  - unfold try_recv in Hr. destruct (q_required q), (q_diagnostic q); try done. injection Hr as <-. exact Hleave.
Qed.

(** Whatever a write did to the log, the log is still explained. *)
Lemma log_transient log db db' settled owed n c k m :
  (m <= length owed)%nat -> log_ok log db settled owed n c k -> db' = db \/ db' = keep db (take m owed) ->
  exists n', log_ok log db' settled owed n' c k.
Proof. intros Hm Hok [->| ->]; [by exists n|]. exists (max n m). by apply log_write. Qed.

Lemma write_pending_ok log q w conn admitted fate :
  aw_phase w = Writing -> pipeline_good log (mkPipeline (mkWorld q w conn) admitted) ->
  let x := write_pending sha256 sqlite_fails fate w conn in pipeline_good log (mkPipeline (mkWorld q x.1 x.2) admitted).
Proof.
  intros Hw (settled & received & n & c & k & Hok) x. simpl in Hok. assert (Hpend : owed w = aw_pending w) by (unfold owed; by rewrite Hw, app_nil_r).
  destruct Hok as [Hlog Hreq Hdiag Hrec Htel Hc Hk Hd Hg Hb Hph Hq Hbs]. rewrite Hpend in *. specialize (Hg ltac:(by rewrite Hw)).
  unfold x, write_pending. destruct (write_events _ _ _ _ _ _) as [[r w'] conn'] eqn:He. apply write_exact in He as [[b ->] He].
  destruct r as [inserted|[|]|]; simpl; [| | |done].
  - destruct He as [Hdb Hst]. apply (log_write _ _ _ _ _ _ _ (length (aw_pending w))) in Hlog; [|done].
    rewrite take_ge, <- Hdb in Hlog by done. apply (log_settle _ _ _ _ _ _ _ (length (aw_pending w))) in Hlog; [|lia].
    rewrite take_ge, drop_ge in Hlog by done. destruct (stored_all _ _ Hst) as [H1 H2]. rewrite H1, H2, Nat.add_0_r in Hlog.
    replace (max n (length (aw_pending w)) - length (aw_pending w))%nat with 0%nat in Hlog by (destruct Hlog; simpl in *; lia).
    exists (settled ++ aw_pending w), received, 0%nat, (c + length (aw_pending w))%nat, k. split; unfold owed; simpl; rewrite ?app_nil_r; try done.
    + by rewrite Hc, fetch_count.
    + lia.
  - apply (log_transient _ _ (db_of conn') _ _ _ _ _ (length (aw_pending w))) in Hlog as [n' Hlog]; [|done|by rewrite take_ge].
    exists settled, received, n', c, k. split; unfold owed; simpl; rewrite ?app_nil_r; done.
  - destruct He as [Hdb _]. exists settled, received, n, c, k. split; unfold owed; simpl; try done; [by rewrite Hdb|]. intros Hne. by destruct (Hne (aw_pending w)).
Qed.

(** The head of a replay is settled. *)
Lemma log_head log db db' settled e rest n c k :
  log_ok log db settled (e :: rest) n c k -> db' = keep db [e] ->
  log_ok log db' (settled ++ [e]) rest (max n 1 - 1) (if is_stored db' e then S c else c) (if is_stored db' e then k else S k).
Proof.
  intros Hlog ->. apply (log_write _ _ _ _ _ _ _ 1) in Hlog; [|simpl; lia]. simpl take in Hlog.
  apply (log_settle _ _ _ _ _ _ _ 1) in Hlog; [|lia]. simpl take in Hlog. simpl drop in Hlog. simpl List.filter in Hlog.
  change (keep_first sha256 db e) with (keep db [e]) in *. destruct (is_stored (keep db [e]) e); simpl in *.
  - by rewrite Nat.add_1_r, Nat.add_0_r in Hlog.
  - by rewrite Nat.add_1_r, Nat.add_0_r in Hlog.
Qed.

Lemma replay_ok log q w conn admitted fate remaining :
  aw_phase w = Replaying remaining -> pipeline_good log (mkPipeline (mkWorld q w conn) admitted) ->
  let x := replay_next sha256 sqlite_fails fate remaining w conn in pipeline_good log (mkPipeline (mkWorld q x.1 x.2) admitted).
Proof.
  intros Hw (settled & received & n & c & k & Hok) x. simpl in Hok.
  destruct Hok as [Hlog Hreq Hdiag Hrec Htel Hc Hk Hd Hg Hb Hph Hq Hbs]. unfold phase_ok in Hph. rewrite Hw in Hph.
  assert (Howed : owed w = remaining) by (unfold owed; by rewrite Hw, Hph). rewrite Howed in *.
  unfold x, replay_next. destruct remaining as [|e rest].
  { exists settled, received, n, c, k. split; unfold owed; simpl; rewrite ?Hph; done. }
  destruct (write_events _ _ _ _ _ _) as [[r w'] conn'] eqn:He. apply write_exact in He as [[b ->] He]. destruct r as [inserted|[|]|]; simpl; [| | |done].
  - destruct He as [Hdb Hst]. apply Forall_cons in Hst as [Hst _]. apply (log_head _ _ _ _ _ _ _ _ _ Hlog) in Hdb. rewrite Hst in Hdb.
    exists (settled ++ [e]), received, (max n 1 - 1)%nat, (S c), k. split; unfold owed; simpl; rewrite ?Hph; simpl; try done.
    + by rewrite <- app_assoc.
    + rewrite Hc, <- Nat.add_1_r. apply (fetch_count c 1).
    + intros Hne. by destruct (Hne rest).
    + simpl in Hb. lia.
  - apply (log_transient _ _ (db_of conn') _ _ _ _ _ 1) in Hlog as [n' Hlog]; [|simpl; lia|done].
    exists settled, received, n', c, k. split; unfold owed; simpl; rewrite ?Hph; simpl; rewrite ?app_nil_r; done.
  - destruct He as [Hdb Hp]. destruct (Hp e eq_refl) as [Hdec Hns].
    assert (Hkeep : db_of conn' = keep (db_of conn) [e]) by (simpl; by rewrite keep_decided).
    apply (log_head _ _ _ _ _ _ _ _ _ Hlog) in Hkeep. rewrite Hdb, Hns in Hkeep.
    exists (settled ++ [e]), received, (max n 1 - 1)%nat, c, (S k). split; unfold owed; simpl; rewrite ?Hph; simpl; try done.
    + by rewrite Hdb.
    + by rewrite <- app_assoc.
    + rewrite Hk, <- Nat.add_1_r. apply (fetch_count k 1).
    + intros Hne. by destruct (Hne rest).
    + simpl in Hb. lia.
Qed.

Lemma writer_step_ok log fate x x' admitted :
  run_step sha256 sqlite_fails fate x = Some x' -> pipeline_good log (mkPipeline x admitted) -> pipeline_good log (mkPipeline x' admitted).
Proof.
  destruct x as [q w conn]. unfold run_step. simpl. destruct (aw_phase w) as [| | |remaining|m] eqn:Hw; intros Hstep Hok.
  - pose proof (drain_ok log q w conn admitted Hw Hok) as Hd. simpl in Hd. destruct (drain_ready_events q w). by injection Hstep as <-.
  - destruct Hok as (settled & received & n & c & k & Hok). simpl in Hok. pose proof (po_phase _ _ _ _ _ _ _ _ _ _ Hok) as Hph. unfold phase_ok in Hph.
    rewrite Hw in Hph. unfold queue_recv in Hstep. destruct (try_recv q) as [[e|] q'] eqn:Hr.
    + injection Hstep as <-. exists settled, (received ++ [e]), n, c, k. simpl. pose proof (po_batch_size _ _ _ _ _ _ _ _ _ _ Hok).
      apply (accept_ok _ q w); try done; [unfold owed; by rewrite Hw, app_nil_r|by rewrite Hw|by rewrite Hph].
    + destruct (q_senders q) eqn:Hs; [done|]. injection Hstep as <-. exists settled, received, n, c, k. simpl.
      unfold try_recv in Hr. destruct (q_required q) eqn:Hq1, (q_diagnostic q) eqn:Hq2; try done. injection Hr as <-.
      destruct Hok as [Hlog Hreq Hdiag Hrec Htel Hc Hk Hd Hg Hb _ Hq Hbs]. specialize (Hg ltac:(by rewrite Hw)). unfold owed in *. rewrite Hw in *.
      split; unfold owed, phase_ok; simpl; try done; by rewrite ?Hq1, ?Hq2.
  - pose proof (write_pending_ok log q w conn admitted fate Hw Hok) as Hd. simpl in Hd. destruct (write_pending _ _ _ _ _). by injection Hstep as <-.
  - pose proof (replay_ok log q w conn admitted fate remaining Hw Hok) as Hd. simpl in Hd. destruct (replay_next _ _ _ _ _ _). by injection Hstep as <-.
  - done.
Qed.

Lemma pipeline_invariant log p : pipeline_reachable sha256 sqlite_fails log p -> pipeline_good log p.
Proof.
  induction 1 as [p Hp|p p' _ IH Hs]; [by apply pipeline_start_ok|]. destruct Hs as [event out q q' w conn admitted Hs He|q w conn admitted|fate x x' admitted Hs].
  - by eapply emit_step.
  - destruct IH as (settled & received & n & c & k & [Hlog Hreq Hdiag Hrec Htel Hc Hk Hd Hg Hb Hph Hq Hbs]). exists settled, received, n, c, k.
    split; try done. unfold phase_ok in *. simpl in *. destruct (aw_phase w); try done. by destruct Hph as (? & ? & ? & _ & ?).
  - by eapply writer_step_ok.
Qed.

(** What the invariant says once [run] has returned. *)
Lemma finished_log log x admitted m :
  pipeline_good log (mkPipeline x admitted) -> aw_phase (wo_writer x) = Finished m ->
  db_of (wo_conn x) = keep log (List.filter is_required admitted) /\ pending_required m = 0.
Proof.
  intros (settled & received & n & c & k & [Hlog Hreq Hdiag Hrec Htel Hc Hk Hd Hg Hb Hph Hq Hbs]) Hw. simpl in *.
  unfold phase_ok in Hph. rewrite Hw in Hph. destruct Hph as (Hp & Hq1 & _ & _ & ->). specialize (Hg ltac:(by rewrite Hw)).
  assert (Ho : owed (wo_writer x) = []) by (unfold owed; by rewrite Hw, Hp). rewrite Ho in *. rewrite Hq1, Hrec, !app_nil_r in Hreq.
  split; [|by rewrite Hg, Hp]. rewrite (lk_log _ _ _ _ _ _ _ Hlog), take_nil, app_nil_r. by rewrite Hreq.
Qed.

(** *** Progress *)

Context `{!EventJsonLaws}.
Hypothesis healthy : forall n, sqlite_fails n = false.

Lemma write_runs es w conn r w' conn' :
  Forall (sized sha256) es -> write_events sha256 sqlite_fails Runs es w conn = (r, w', conn') -> (exists n, r = Ok n) \/ r = Err PoisonedRecord.
Proof.
  intros Hs. simpl. unfold append_blocking. assert (Hopen : exists c1, (if aw_store w then ret tt else sql_call sqlite_fails Sqlite) conn = (Ok tt, c1)).
  { destruct (aw_store w); [by eexists|]. unfold sql_call. rewrite healthy. by eexists. }
  destruct Hopen as [c1 ->]. destruct (append_runs sha256 sqlite_fails es c1 healthy Hs) as (c2 & [(n & ->)|(x & -> & Hp)]).
  - intros [= <- _ _]. left. by eexists.
  - rewrite Hp. intros [= <- _ _]. by right.
Qed.

Definition phase_weight (phase : WriterPhase) : nat :=
  match phase with Draining => 2 | Waiting | Writing => 1 | Replaying [] => 3 | Replaying _ | Finished _ => 0 end.

Definition work (x : PipelineWorld) : nat :=
  (7 * (length (q_required (wo_queue x)) + length (q_diagnostic (wo_queue x))) + 5 * length (owed (wo_writer x))
   + phase_weight (aw_phase (wo_writer x)))%nat.

Lemma owed_accept e w : (forall remaining, aw_phase w <> Replaying remaining) -> (length (owed (accept_event e w)) <= S (length (owed w)))%nat.
Proof.
  intros Hne. unfold owed, accept_event, update_pending_metric. destruct (priority e); simpl;
    destruct (aw_phase w) as [| | |remaining|m]; rewrite ?length_app; simpl; try lia; by destruct (Hne remaining).
Qed.

Lemma received_less q e q' : try_recv q = (Some e, q') ->
  (S (length (q_required q') + length (q_diagnostic q')) = length (q_required q) + length (q_diagnostic q))%nat /\ q_senders q' = q_senders q.
Proof.
  unfold try_recv. destruct (q_required q); [destruct (q_diagnostic q)|]; intros [= <- <-] || done; simpl; split; (done || lia).
Qed.

Lemma received_none q q' : try_recv q = (None, q') -> q' = q.
Proof. unfold try_recv. destruct (q_required q); [destruct (q_diagnostic q)|]; congruence. Qed.

(** With the senders gone, each step leaves less to do, until [run] returns. *)
Lemma step_works x :
  phase_ok (wo_queue x) (wo_writer x) -> Forall (sized sha256) (owed (wo_writer x)) -> q_senders (wo_queue x) = false ->
  match run_step sha256 sqlite_fails Runs x with
  | Some x' => (work x' < work x)%nat /\ q_senders (wo_queue x') = false
  | None => exists m, aw_phase (wo_writer x) = Finished m
  end.
Proof.
  destruct x as [q w conn]. unfold run_step, work, phase_ok. simpl. intros Hph Hs Hq. destruct (aw_phase w) as [| | |remaining|m] eqn:Hw.
  - unfold drain_ready_events. assert (Hleave : forall ph, ph = Waiting \/ ph = Writing -> length (owed (set_writer_phase ph w)) = length (owed w)).
    { intros ph Hph'. unfold owed. simpl. rewrite Hw. destruct Hph' as [->| ->]; done. }
    assert (Hw' : forall ph, ph = match aw_pending w with [] => Waiting | _ => Writing end -> ph = Waiting \/ ph = Writing)
      by (intros ph ->; destruct (aw_pending w); auto).
    destruct (_ <? _)%nat; [destruct (try_recv q) as [[e|] q'] eqn:Hr|]; simpl.
    + apply received_less in Hr as [Hl ->]. pose proof (owed_accept e w ltac:(by rewrite Hw)).
      replace (aw_phase (accept_event e w)) with Draining by (unfold accept_event; destruct (priority e); simpl; by rewrite Hw).
      rewrite ?Hw. simpl. split; [lia|done].
    + apply received_none in Hr as ->. rewrite Hleave by (by apply Hw').
      rewrite ?Hw. split; [|done]. simpl. destruct (Hw' _ eq_refl) as [-> | ->]; simpl; lia.
    + rewrite Hleave by (by apply Hw'). rewrite ?Hw. split; [|done]. destruct (Hw' _ eq_refl) as [-> | ->]; simpl; lia.
  - unfold queue_recv. destruct (try_recv q) as [[e|] q'] eqn:Hr; simpl.
    + apply received_less in Hr as [Hl ->]. pose proof (owed_accept e w ltac:(by rewrite Hw)) as Ho.
      assert (Hsame : owed (set_writer_phase Draining (accept_event e w)) = owed (accept_event e w)).
      { unfold owed. simpl. by replace (aw_phase (accept_event e w)) with Waiting by (unfold accept_event; destruct (priority e); simpl; by rewrite Hw). }
      rewrite Hsame. simpl. split; [lia|done].
    + rewrite Hq. simpl. apply received_none in Hr as ->. simpl.
      unfold owed. simpl. rewrite ?Hw. simpl. split; [lia|done].
  - unfold write_pending. destruct (write_events _ _ _ _ _ _) as [[r w'] conn'] eqn:He. pose proof He as [[b ->] _]%write_exact.
    assert (Ho : owed w = aw_pending w) by (unfold owed; by rewrite Hw, app_nil_r). rewrite Ho in Hs.
    apply write_runs in He as [[inserted ->]| ->]; [| |done]; simpl.
    + unfold owed. simpl. rewrite ?Hw. simpl. destruct (aw_pending w); [done|]. simpl. split; [lia|done].
    + unfold owed. simpl. rewrite ?Hw. simpl. destruct (aw_pending w); [done|]. simpl. rewrite app_nil_r. split; [lia|done].
  - unfold replay_next. assert (Ho : owed w = remaining) by (unfold owed; by rewrite Hw, Hph). rewrite Ho in Hs. destruct remaining as [|e rest].
    + unfold owed. simpl. rewrite ?Hw, ?Hph. simpl. split; [lia|done].
    + destruct (write_events _ _ _ _ _ _) as [[r w'] conn'] eqn:He. pose proof He as [[b ->] _]%write_exact.
      apply Forall_cons in Hs as [Hs _]. apply write_runs in He as [[inserted ->]| ->]; [| |by constructor]; simpl; unfold owed; simpl;
        rewrite ?Hw, ?Hph; simpl; destruct rest; simpl; (split; [lia|done]).
  - by exists m.
Qed.

Lemma runs_to_the_end log admitted :
  forall x, Forall (sized sha256) (List.filter is_required admitted) -> pipeline_good log (mkPipeline x admitted) -> q_senders (wo_queue x) = false ->
  exists m, aw_phase (wo_writer (run_steps sha256 sqlite_fails (work x) x)) = Finished m
    /\ pipeline_good log (mkPipeline (run_steps sha256 sqlite_fails (work x) x) admitted).
Proof.
  intros x Hs. enough (Hgen : forall k x, (work x <= k)%nat -> pipeline_good log (mkPipeline x admitted) -> q_senders (wo_queue x) = false ->
    exists m, aw_phase (wo_writer (run_steps sha256 sqlite_fails k x)) = Finished m
      /\ pipeline_good log (mkPipeline (run_steps sha256 sqlite_fails k x) admitted)) by (by apply Hgen).
  clear x. induction k as [|k IH]; intros x Hk Hok Hq; pose proof Hok as (settled & received & n & c & j & Hp); simpl in Hp.
  all: pose proof (step_works x (po_phase _ _ _ _ _ _ _ _ _ _ Hp)) as Hstep.
  all: assert (Ho : Forall (sized sha256) (owed (wo_writer x)))
    by (rewrite (po_required _ _ _ _ _ _ _ _ _ _ Hp), (po_received _ _ _ _ _ _ _ _ _ _ Hp), !Forall_app in Hs; tauto).
  all: specialize (Hstep Ho Hq); simpl; destruct (run_step sha256 sqlite_fails Runs x) as [x'|] eqn:Hx.
  - destruct Hstep. lia.
  - destruct Hstep as [m Hm]. by exists m.
  - destruct Hstep as [Hlt Hq']. apply IH; [lia| |done]. by eapply writer_step_ok.
  - destruct Hstep as [m Hm]. by exists m.
Qed.

(** C22: The durable log is exactly what the queue admitted. Start from any log, and let
    producers, the writer, failing SQLite calls and lost workers interleave in any way.
    The required events admitted so far are, in order, the settled ones, those the writer
    holds and those still queued; the log is the earlier log extended by the first
    record of each identity among the settled events and perhaps some of the held ones,
    so nothing is lost, invented, reordered or stored twice. A settled event is counted
    as committed when the log has it with its content, and as quarantined otherwise;
    telemetry saw each received event once; batch and queue stay within their bounds.
    When [run] has returned, everything admitted is settled. *)
Theorem event_pipeline_is_exact log p :
  pipeline_reachable sha256 sqlite_fails log p ->
  let x := pl_world p in
  let w := wo_writer x in
  let q := wo_queue x in
  let db := db_of (wo_conn x) in
  exists settled received n,
    List.filter is_required (pl_admitted p) = settled ++ owed w ++ q_required q
    /\ List.filter (fun e => negb (is_required e)) (pl_admitted p) = List.filter (fun e => negb (is_required e)) received ++ q_diagnostic q
    /\ List.filter is_required received = settled ++ owed w
    /\ (forall seen, aw_telemetry w = Some seen -> seen = received)
    /\ db = keep log (settled ++ take n (owed w))
    /\ required_events_committed (aw_metrics w) = u64_count (length (List.filter (is_stored db) settled))
    /\ required_events_quarantined (aw_metrics w) = u64_count (length (List.filter (fun e => negb (is_stored db e)) settled))
    /\ (length (owed w) <= batch_size (aw_config w))%nat /\ (length (q_required q) <= required_capacity (q_config q))%nat
    /\ forall m, aw_phase w = Finished m -> db = keep log (List.filter is_required (pl_admitted p)) /\ pending_required m = 0.
Proof.
  intros Hok%pipeline_invariant. pose proof (fun m => finished_log log (pl_world p) (pl_admitted p) m) as Hfin.
  pose proof Hok as (settled & received & n & c & k & [Hlog Hreq Hdiag Hrec Htel Hc Hk _ _ Hb _ [Hq _] _]). destruct Hlog as [_ Hdb _ Hcc Hkk].
  exists settled, received, n. rewrite Hc, Hk, Hcc, Hkk. split_and!; try done; [by rewrite Hreq, Hrec, <- app_assoc|].
  intros m Hm. apply Hfin; [|done]. by destruct p.
Qed.

(** C23: The writer finishes. Once the producers are gone and the store works, and
    provided SQLite measures no identifier of an admitted required event as empty
    ([sized]: one that begins with NUL is, and is retried without end, see
    [nul_identifier_is_retried]), a bounded number of steps, given by the events queued
    and held, ends [run]; the log then has every admitted required event that can be
    stored, and listing it returns the earlier events followed by the new ones in the
    order of admission, numbered from one. A poisoned record, whatever its batch, does
    not hold up the others. *)
Theorem event_writer_finishes log earlier p :
  pipeline_reachable sha256 sqlite_fails log p -> q_senders (wo_queue (pl_world p)) = false ->
  Forall (sized sha256) (List.filter is_required (pl_admitted p)) -> Forall2 (written_as sha256) log earlier -> numbered log ->
  let x := run_steps sha256 sqlite_fails (work (pl_world p)) (pl_world p) in
  (exists m, aw_phase (wo_writer x) = Finished m)
  /\ db_of (wo_conn x) = keep log (List.filter is_required (pl_admitted p))
  /\ exists l s, list_events sha256 sqlite_fails (wo_conn x) = (Ok l, s)
     /\ sg_event <$> l = earlier ++ kept sha256 log (List.filter is_required (pl_admitted p))
     /\ sg_ordinal <$> l = seqZ 1 (Z.of_nat (length l)).
Proof.
  intros Hok%pipeline_invariant Hq Hs Hw Hn x. destruct p as [x0 admitted]. simpl in *.
  destruct (runs_to_the_end log admitted x0 Hs Hok Hq) as (m & Hm & Hend). fold x in Hm, Hend.
  destruct (finished_log log x admitted m Hend Hm) as [Hdb _]. split_and!; [by exists m|done|].
  apply (keep_all_written sha256 _ _ (List.filter is_required admitted)) in Hw. apply (keep_all_numbered sha256 _ (List.filter is_required admitted)) in Hn.
  rewrite <- Hdb in Hw, Hn. destruct (decode_rows_written sha256 _ _ Hw) as (l & Hl & He & Ho).
  exists l. eexists. split_and!; [|done|].
  - unfold list_events, load_events, sql_query, bind, sql_call, lift. rewrite healthy. simpl. by rewrite Hl.
  - rewrite Ho, Hn. apply (f_equal length) in Ho. rewrite !length_fmap in Ho. by rewrite Ho.
Qed.
End Invariant.

(** ** Witnesses *)

Section Witnesses.

Definition ex_request_event (id : RequestId) : RequestEvent :=
  mkRequestEvent id (mkId "key") None OpenAiResponses "model" "model" None false.

#[local] Instance GatewayProtocol_eq_dec : EqDecision GatewayProtocol.
Proof. solve_decision. Defined.
#[local] Instance RequestEvent_eq_dec : EqDecision RequestEvent.
Proof. solve_decision. Defined.

(** A stand-in for [serde_json]: the text of a request of one client is its identifier. *)
Definition ex_event_json : EventJson :=
  {| event_to_string := fun e => match e with
       | EvRequest r => if bool_decide (r = ex_request_event (re_request_id r)) then Some ("{" +:+ as_str (re_request_id r)) else None
       | _ => None
       end;
     event_from_str := fun text => match text with
       | String _ id => Some (EvRequest (ex_request_event (mkId id)))
       | EmptyString => None
       end |}.
#[local] Existing Instance ex_event_json.

Lemma ex_event_laws : EventJsonLaws.
Proof.
  split; intros [r|?|?|?|?] text; simpl; try done; case_bool_decide as Hr; try done; intros [= <-]; simpl.
  - rewrite Hr. by destruct (re_request_id r).
  - assert (Hpos : forall t, 0 <= sql_length t) by (induction t; simpl; repeat case_match; lia). specialize (Hpos (as_str (re_request_id r))).
    change (0 < 1 + sql_length (as_str (re_request_id r))). lia.
Qed.
#[local] Existing Instance ex_event_laws.

Definition ex_event_sha (bytes : list Byte.byte) : list Byte.byte := take 4 (bytes ++ replicate 4 Byte.x00).
Abbreviation ex_event id := (EvRequest (ex_request_event (mkId id))).

Definition ex_start : PipelineWorld :=
  mkWorld (mkQueue (mkQueueConfig 2 1) [] [] true true (mkQueueMetrics 0 0 0)) (with_telemetry_pipeline (writer_new (mkWriterConfig 2 1)))
    (mkConn [] 0 0).

(** Two requests are admitted, the senders are dropped, and then the writer runs. *)
Definition ex_emit (id : string) (x : PipelineWorld) : PipelineWorld := mkWorld (try_emit (ex_event id) (wo_queue x)).2 (wo_writer x) (wo_conn x).
Definition ex_fed : PipelineWorld :=
  let x := ex_emit "b" (ex_emit "a" ex_start) in mkWorld (drop_senders (wo_queue x)) (wo_writer x) (wo_conn x).
Definition ex_admitted : list GatewayEvent := [ex_event "a"; ex_event "b"].

Fixpoint ex_drive (fates : list BlockingFate) (x : PipelineWorld) : PipelineWorld :=
  match fates with
  | [] => x
  | fate :: rest => match run_step ex_event_sha (fun _ => false) fate x with Some x' => ex_drive rest x' | None => x end
  end.

Abbreviation ex_reaches := (pipeline_reachable ex_event_sha (fun _ => false) []).

Lemma ex_fed_reachable : ex_reaches (mkPipeline ex_fed ex_admitted).
Proof.
  eapply pipeline_moves; [|apply step_drop_senders].
  eapply pipeline_moves; [|apply (step_emit _ _ (ex_event "b") Enqueued (wo_queue (ex_emit "a" ex_start)) _ _ _ [ex_event "a"]); reflexivity].
  eapply pipeline_moves; [|apply (step_emit _ _ (ex_event "a") Enqueued (wo_queue ex_start) _ _ _ []); reflexivity].
  apply pipeline_begins. apply (start [] (mkQueueConfig 2 1) _ 2 1 (mkWriterConfig 2 1) true 0 0); vm_compute; reflexivity.
Qed.

Lemma ex_drive_reachable fates x : ex_reaches (mkPipeline x ex_admitted) -> ex_reaches (mkPipeline (ex_drive fates x) ex_admitted).
Proof.
  revert x. induction fates as [|fate fates IH]; intros x Hx; simpl; [done|]. destruct (run_step _ _ fate x) as [x'|] eqn:Hs; [|done].
  apply IH. eapply pipeline_moves; [exact Hx|]. by eapply step_writer.
Qed.

(** The worker of the first write is lost after it committed. *)
Definition ex_lossy : PipelineWorld := ex_drive [Runs; Runs; Runs; Lost true; Runs; Runs; Runs; Runs; Runs] ex_fed.

Lemma event_pipeline_is_exact_witness :
  aw_phase (wo_writer ex_lossy) = Finished (mkWriterMetrics 2 0 0 1 0 0)
  /\ db_of (wo_conn ex_lossy) = keep_all ex_event_sha [] ex_admitted /\ el_event_id <$> db_of (wo_conn ex_lossy) = ["a"; "b"].
Proof.
  assert (Hp : exists p, ex_reaches p /\ pl_world p = ex_lossy /\ pl_admitted p = ex_admitted)
    by (exists (mkPipeline ex_lossy ex_admitted); split; [apply ex_drive_reachable, ex_fed_reachable|by split]).
  destruct Hp as (p & Hr & Hx & Ha).
  destruct (event_pipeline_is_exact ex_event_sha (fun _ => false) [] p Hr)
    as (settled & received & n & _ & _ & _ & _ & _ & _ & _ & _ & _ & Hfin).
  assert (Hm : aw_phase (wo_writer ex_lossy) = Finished (mkWriterMetrics 2 0 0 1 0 0)) by (vm_compute; reflexivity).
  assert (Hreq : List.filter is_required ex_admitted = ex_admitted) by (vm_compute; reflexivity).
  rewrite Hx, Ha, Hreq in Hfin. destruct (Hfin _ Hm) as [Hdb _]. split; [exact Hm|]. split; [exact Hdb|vm_compute; reflexivity].
Defined.

Lemma event_writer_finishes_witness :
  exists l s, list_events ex_event_sha (fun _ => false) (wo_conn (run_steps ex_event_sha (fun _ => false) (work ex_fed) ex_fed)) = (Ok l, s)
    /\ sg_event <$> l = ex_admitted.
Proof.
  assert (Hp : exists p, ex_reaches p /\ pl_world p = ex_fed /\ pl_admitted p = ex_admitted)
    by (exists (mkPipeline ex_fed ex_admitted); split; [exact ex_fed_reachable|by split]).
  destruct Hp as (p & Hr & Hx & Ha). assert (Hreq : List.filter is_required ex_admitted = ex_admitted) by (vm_compute; reflexivity).
  destruct (event_writer_finishes ex_event_sha (fun _ => false) (fun _ => eq_refl) [] [] p Hr) as (_ & _ & l & s & Hl & He & _).
  - rewrite Hx. vm_compute. reflexivity.
  - rewrite Ha, Hreq. apply Forall_forall. intros e [->|[->|?%elem_of_nil]%elem_of_cons]%elem_of_cons; [| |done]; intros r Hrec; vm_compute in Hrec;
      injection Hrec as <-; (split; [vm_compute; reflexivity|]); intros id [= <-]; vm_compute; reflexivity.
  - constructor.
  - reflexivity.
  - rewrite Hx in Hl. rewrite Ha, Hreq in He. exists l, s. split; [exact Hl|]. rewrite He. vm_compute. reflexivity.
Defined.

(** An identifier that starts with NUL passes the check of its bytes, but SQLite measures
    its text as empty: the table refuses the row, which the writer takes for a failure of
    the store and repeats for ever. *)
Example nul_identifier_is_retried :
  let id := String "000"%char "request" in
  is_persistable_identifier id = true
  /\ (append_batch ex_event_sha (fun _ => false) [ex_event id] (mkConn [] 0 0)).1 = Err Sqlite
  /\ is_record_poison Sqlite = false.
Proof. split_and!; vm_compute; reflexivity. Qed.
End Witnesses.
End Writer.
