(* ===== verification/RuntimeStatus.v ===== *)
(** * Runtime status of one binding

    Models [crates/gateway-router/src/runtime_management_status.rs]: the read-only
    projection of both runtime registries that management shows for one Endpoint,
    credential and, if given, upstream model, at a time the caller supplies. *)

From S2P Require Import Prelude Core Sharded RuntimeHealth RuntimeQuota RouteSnapshot CredentialScheduler.
Local Open Scope string_scope.
Local Open Scope Z_scope.

Module Status.

Record RuntimeManagementStatusTarget : Type := mkStatusTarget {
  ms_endpoint_id : EndpointId;
  ms_credential_id : CredentialId;
  ms_upstream_model : option string;
}.

Inductive RuntimeManagementStatusTargetError : Type := StatusEmptyUpstreamModel.

Definition status_target_try_new (endpoint_id : EndpointId) (credential_id : CredentialId) (upstream_model : option string)
  : result RuntimeManagementStatusTargetError RuntimeManagementStatusTarget :=
  if bool_decide (upstream_model = Some "") then Err StatusEmptyUpstreamModel
  else Ok (mkStatusTarget endpoint_id credential_id upstream_model).

Definition has_model_scope (t : RuntimeManagementStatusTarget) : bool := bool_decide (is_Some (ms_upstream_model t)).

Record RuntimeManagementQuotaStatus : Type := mkQuotaStatus {
  mq_availability : Quota.RuntimeQuotaAvailability;
  mq_source : option Quota.QuotaSource;
  mq_confidence : option Quota.QuotaConfidence;
  mq_observed_at_ms : option Z;
  mq_blocking_reset_at_ms : option Z;
}.

Record RuntimeManagementStatusSnapshot : Type := mkStatusSnapshot {
  sn_endpoint_id : EndpointId;
  sn_credential_id : CredentialId;
  sn_observed_at_ms : Z;
  sn_account_status : RuntimeCredentialAccountStatus;
  sn_endpoint_health : RuntimeHealthAvailability;
  sn_credential_health : RuntimeHealthAvailability;
  sn_model_health : option RuntimeHealthAvailability;
  sn_binding_quota : RuntimeManagementQuotaStatus;
  sn_model_quota : option RuntimeManagementQuotaStatus;
}.

Inductive RuntimeManagementStatusQueryError : Type := HealthUnavailable | QuotaUnavailable.

Definition quota_status (s : Quota.RuntimeQuotaStatusSnapshot) : RuntimeManagementQuotaStatus :=
  match Quota.st_snapshot s with
  | None => mkQuotaStatus (Quota.st_availability s) None None None None
  | Some q => mkQuotaStatus (Quota.st_availability s) (Some (Quota.source q)) (Some (Quota.confidence q)) (Some (Quota.observed_at_ms q))
                (Quota.blocking_reset_at_ms q)
  end.

Section Query.
Context `{!ShardHash RuntimeHealthKey, !ShardHash Quota.RuntimeQuotaTarget}.
Context (health : HealthRegistry) (quota : Quota.QuotaRegistry).

Definition health_at (key : RuntimeHealthKey) (observed_at_ms : Z) : result RuntimeManagementStatusQueryError RuntimeHealthAvailability :=
  map_err (fun _ => HealthUnavailable) (availability_at health key observed_at_ms).

Definition quota_at (target : Quota.RuntimeQuotaTarget) (observed_at_ms : Z) : result RuntimeManagementStatusQueryError RuntimeManagementQuotaStatus :=
  let? s := map_err (fun _ => QuotaUnavailable) (Quota.status_at quota target observed_at_ms) in Ok (quota_status s).

Definition binding_status (t : RuntimeManagementStatusTarget) (observed_at_ms : Z)
  : result RuntimeManagementStatusQueryError RuntimeManagementStatusSnapshot :=
  let e := ms_endpoint_id t in
  let c := ms_credential_id t in
  let? endpoint_health := health_at (HEndpoint e) observed_at_ms in
  let? credential_health := health_at (HEndpointCredential e c) observed_at_ms in
  let? account_status := map_err (fun _ => HealthUnavailable) (credential_account_status_at health e c observed_at_ms) in
  let? binding_quota := quota_at (Quota.EndpointCredential e c) observed_at_ms in
  let? model := match ms_upstream_model t with
                | None => Ok (None, None)
                | Some upstream_model =>
                    let? model_health := health_at (HEndpointCredentialModel e c upstream_model) observed_at_ms in
                    let? model_target := map_err (fun _ => QuotaUnavailable) (Quota.endpoint_credential_model e c upstream_model) in
                    let? model_quota := quota_at model_target observed_at_ms in
                    Ok (Some model_health, Some model_quota)
                end in
  Ok (mkStatusSnapshot e c observed_at_ms account_status endpoint_health credential_health model.1 binding_quota model.2).

(** ** The status and the scheduler *)

(** Nothing in the snapshot speaks against the binding. *)
Definition shown_available (s : RuntimeManagementStatusSnapshot) : bool :=
  av_is_available (sn_endpoint_health s) && av_is_available (sn_credential_health s)
  && match sn_model_health s with Some a => av_is_available a | None => true end
  && Quota.qav_is_available (mq_availability (sn_binding_quota s))
  && match sn_model_quota s with Some q => Quota.qav_is_available (mq_availability q) | None => true end.

Lemma quota_at_shows target now :
  is_ok_and (fun q => Quota.qav_is_available (mq_availability q)) (quota_at target now)
  = is_ok_and Quota.qav_is_available (Quota.availability_at quota target now).
Proof.
  unfold quota_at, Quota.status_at, Quota.availability_at, quota_status. destruct (read_shard _ _ _) as [m| |]; simpl; [|done..].
  by destruct (m !! target).
Qed.

Lemma health_at_shows key now :
  is_ok_and av_is_available (health_at key now) = is_ok_and av_is_available (availability_at health key now).
Proof. unfold health_at. by destruct (availability_at health key now). Qed.

(** Management shows a binding of a model as free of blocks exactly when, at that time,
    the registries let the scheduler select it; a status that cannot be read is a
    binding that cannot be selected. *)
Lemma status_agrees_with_selection candidate id now :
  is_ok_and shown_available (binding_status (mkStatusTarget (cand_endpoint_id candidate) id (Some (upstream_model candidate))) now)
  = let v := mkView health (Some now) quota (Some now) in
    candidate_healthy v candidate && binding_healthy v candidate id && binding_within_quota v candidate id.
Proof.
  unfold candidate_healthy, binding_healthy, binding_within_quota, endpoint_is_available, endpoint_credential_is_available,
    endpoint_credential_model_is_available, Quota.endpoint_credential_is_available, Quota.endpoint_credential_model_is_available,
    availability, Quota.availability, read_clock, Quota.q_read_clock. simpl.
  set (e := cand_endpoint_id candidate). set (model := upstream_model candidate).
  rewrite <- (health_at_shows (HEndpoint e)), <- (health_at_shows (HEndpointCredential e id)), <- (health_at_shows (HEndpointCredentialModel e id model)),
    <- (quota_at_shows (Quota.EndpointCredential e id)).
  assert (Hacc : credential_account_status_at health e id now = Panic \/ (exists x, credential_account_status_at health e id now = Err x)
    -> is_ok_and av_is_available (health_at (HEndpointCredential e id) now) = false).
  { unfold credential_account_status_at, health_at, availability_at. destruct (read_shard _ _ _); simpl; [|done..]. by intros [?|[? ?]]. }
  unfold binding_status. simpl. destruct (health_at (HEndpoint e) now) as [a1| |]; simpl; [|done..].
  destruct (health_at (HEndpointCredential e id) now) as [a2| |]; simpl; [|by rewrite ?andb_false_r..]. simpl in Hacc.
  destruct (credential_account_status_at health e id now) as [st|x|]; simpl;
    [|by rewrite (Hacc (or_intror (ex_intro _ x eq_refl))), ?andb_false_r|by rewrite (Hacc (or_introl eq_refl)), ?andb_false_r].
  destruct (quota_at (Quota.EndpointCredential e id) now) as [q1| |]; simpl; [|by rewrite ?andb_false_r..].
  destruct (health_at (HEndpointCredentialModel e id model) now) as [a3| |]; simpl; [|by rewrite ?andb_false_r..].
  unfold Quota.endpoint_credential_model. case_bool_decide; simpl; [by rewrite ?andb_false_r|]. rewrite <- quota_at_shows.
  destruct (quota_at (Quota.EndpointCredentialModel e id model) now) as [q2| |]; unfold shown_available; simpl; [|by rewrite ?andb_false_r..].
  by rewrite !andb_assoc.
Qed.
End Query.
End Status.
